(* ===== verification/_CoqProject ===== *)
-Q . S2P
Prelude.v
RustStr.v
DotenvParse.v
DotenvFacts.v
DotenvRender.v
DotenvDeps.v
DotenvLoad.v
DotenvSpec.v
Identity.v
PathEnv.v
Paths.v
EnvDiff.v
TaskLocks.v
DepsGraph.v
DepsGraphFacts.v
DepsGraphSpec.v
Utf8.v
WindowsPosix.v
WindowsPosixSpec.v
Wildcard.v
Decimals.v
Ini.v
IniFacts.v
IniEdit.v
IniSpec.v
Reconcile.v
ReconcileSpec.v
Bootstrap.v
BootstrapSpec.v
Redactions.v
RedactionsSpec.v
UrlCredentials.v
TaskGraph.v
TaskCycles.v
TaskGraphFacts.v
TaskGraphRun.v
TaskGraphList.v
TaskGraphBuild.v
TaskGraphSpec.v
Toml.v
Ports.v
PortsSpec.v
Order.v
LockInfo.v
LockInfoSpec.v
Platforms.v
Lockfile.v
LockfileSpec.v
LockUpdate.v
LockUpdateSpec.v
LockRatchet.v
LockLookup.v
LockLookupSpec.v
LockTargetsSpec.v
SyncGraph.v
SyncGraphSpec.v
Selection.v
SelectionSpec.v
Manifest.v
Capture.v
ManifestSpec.v
Purge.v
PurgeSpec.v
ToolOptions.v
ToolOptionsSpec.v
ToolRequest.v
ToolRequestSpec.v
VersionMatch.v
VersionIndex.v
VersionIndexSpec.v
ReleaseAge.v
ReleaseAgeSpec.v
VersionSelect.v
VersionSelectSpec.v
Resolve.v
ResolveSpec.v
