(* ===== verification/Prelude.v ===== *)
(** * mise: a verification development of the program's core logic

    mise installs development tools, sets up shell environments, runs tasks and keeps machines
    set up. Most of its code is input and output: downloads, archives, package managers,
    processes, Git, TOML files. This development models the parts that decide something by
    themselves, and proves what they are relied on for. All paths below are under src/.

    ** Files

    - [Prelude]: Rust's [Result] with a value for exhausted fuel ([OutOfFuel]), the state and
      error monad, string literals, lemmas on lists and finite graphs. [RustStr]: [char] and
      [str] as lists of code points with byte offsets as Rust counts them. [Utf8]: encoding,
      decoding and lossy decoding.
    - The dotenv library (crates/mise-dotenv). [DotenvParse] is parse.rs and key.rs: the parser
      record and one state transformer per method. [DotenvFacts] proves of each method that it
      stays on character boundaries, goes forward and reports errors at places of the source;
      [DotenvDeps] that every variable read is reported. [DotenvRender] is render.rs,
      [DotenvLoad] lib.rs, iter.rs and err.rs. [DotenvSpec] holds the promises: what is rendered
      parses back, layers take precedence as documented, entries end, errors are located,
      equal dependencies give equal results.
    - [Identity] is src/install_layout/identity.rs: the bytes that are hashed to name an
      installation are injective in what they describe, and the base32 text of a digest reads
      back, in one way only.
    - [PathEnv] is crates/mise-util/src/path_env.rs and the path checks of env.rs:
      where mise's entries go, and that dropping duplicates changes no lookup.
    - [EnvDiff] is crates/mise-util/src/env_diff.rs and the pristine environment of env.rs:
      leaving what activation did gives back the environment before it, changes of the user
      excepted; secrets are not written to the recorded diff; [export -p] listings read back. It
      uses [Identity] for hashes and [PathEnv] for PATH.
    - [TaskLocks] is src/task/task_lock.rs with crates/mise-config/src/task/lock.rs: lock requests
      as a step relation over task runs, nested ones included. A lock is held by one run at most,
      and from every reachable state all runs can take their locks and end.
    - [DepsGraph] is crates/mise-util/src/deps_graph.rs over an interface ([StableGraph]) for the
      petgraph crate, with an instance that shows the interface can be met; [DepsGraphFacts] is
      its invariant and [DepsGraphSpec] its contract: cycles are blocked, nodes are sent once
      and after what they need, the scheduler never stalls, every run ends with each node
      succeeded, failed or blocked for a reason.
    - [TaskGraph] is src/task/deps.rs, with what src/task/task_scheduler.rs does to the graph when a
      run stops, over an interface ([DiGraph]) for petgraph's graph that renumbers its nodes.
      [TaskCycles]: the cycle search lists every elementary cycle once. [TaskGraphFacts]: the graph
      by task keys. [TaskGraphBuild]: construction ends and builds the described graph, or reports
      its cycles. [TaskGraphRun] and [TaskGraphSpec]: whatever is subscribed, removed and marked,
      tasks start after what they wait for, the run never stalls, the order of creation outlives
      removals; and the tasks that compare as equal although their keys differ, for which this
      fails. [TaskGraphList] meets the interface.
    - [WindowsPosix] is crates/mise-util/src/windows_posix.rs: paths of MSYS2 and Cygwin through
      a mount table. [WindowsPosixSpec]: the table stays sorted and free of stale entries, lists
      of drive paths and fields of fstab read back.
    - [Wildcard] is crates/mise-util/src/wildcard.rs against the usual meaning of stars and
      question marks, with the input on which they differ.
    - [Ini] is crates/mise-util/src/ini_merge.rs: INI files read line by line, compared and merged. [IniFacts]: a
      file that is read is a sequence of blocks, and what is asked of it is a question about them. [IniEdit]: copies,
      replacements and places of insertion. [IniSpec]: a merge sets exactly what the source sets and writes every
      other line again, for tidy files; and the files for which it does not.
    - [Reconcile] is crates/mise-system/src/history/sync/reconcile.rs with the records of state.rs,
      the merge of shadow.rs and the loops of run.rs that observe and record. [ReconcileSpec]:
      the documented table as a relation, nothing local is overwritten and nothing unseen is
      published, divergence is reported, and a machine that pulls, applies and publishes
      comes to rest with its origin.
    - [Bootstrap] is crates/mise-bootstrap/src/plan.rs, policy.rs, resource.rs and state.rs.
      [BootstrapSpec]: [ordered] is a topological sort or names the missing dependency or the
      cycle, and the ordering policies put files, accounts and packages in their phases.
    - [Redactions] is crates/mise-util/src/redactions.rs. [RedactionsSpec]: exactly the characters
      of registered secrets are hidden. [UrlCredentials]: no URL of a rewritten text has
      credentials, and nothing outside user information changes.

    - [Ports] is crates/mise-daemons/src/ports.rs with the parts of presets.rs, container.rs and
      runtime.rs that declare, carry and publish ports. [PortsSpec]: assigned ports are the
      exact sums or errors, worktrees of one project do not collide, claims are carried on.
    - The lockfile (src/lockfile.rs). [LockInfo] is the record of a platform: provenance,
      checksums, merges; [LockInfoSpec]: provenance goes with the bytes it was recorded for.
      [Platforms] is crates/mise-util/src/platform.rs and the target platforms of a lockfile.
      [Lockfile] is the lockfile with the operations on its entries, [LockfileSpec] what they
      promise: bindings are found again, nothing in use is dropped. [LockUpdate] merges freshly
      resolved entries and applies resolutions; [LockUpdateSpec]: no platform is lost.
      [LockRatchet]: versions and artifacts do not lose their provenance, and pruning ends.
      [LockLookup] is the lookup of a request and the decisions what to lock by itself;
      [LockLookupSpec]: bound requests resolve to what they were bound to, data are those of the
      options asked for, the URL check refuses exactly what it can prove. [LockTargetsSpec]:
      automatic locking comes to rest, legacy entries move by consensus, missing builds are
      reported. [Order] holds the orders that these files sort by.
    - [SyncGraph] is crates/mise-system/src/history/sync/graph.rs, publish.rs and the fetching and
      pushing of network.rs, with the commits and references of shadow.rs. [SyncGraphSpec]: a
      publication changes no file, and however processes and machines interleave, no
      commit falls off a branch.
    - [Selection] is select.rs and sync/layout.rs of crates/mise-system/src/history, with the
      functions of tracked.rs that say which entry owns a path. [SelectionSpec]: a machine uses the most
      specific variant that matches it, and portable paths lead into the home directory or the
      configuration and back.
    - [Manifest] is manifest.rs there: what a setup shares, its validation and merge. [Capture] is
      what a machine saves of it: composed trees, permissions, files of other machines, and the
      held streams of held.rs. [ManifestSpec]: the merge is the three-way merge of each entry's
      fields and of each permission; a capture keeps every file that is another machine's and
      brings none back that was deleted.
    - [Purge] is purge.rs there. [PurgeSpec]: after a purge no commit of the branch has a covered file,
      and every other file, author and ancestor is as it was; what is published is not renamed.
    - From a request to a version of a tool. [ToolOptions] is src/toolset/tool_version_options.rs with the
      layers of src/args/backend_arg.rs; [ToolOptionsSpec]: every option is that of the strongest layer
      that sets it, whatever the layers are, and the registry's can be taken out again. [ToolRequest] is
      src/toolset/tool_request.rs with the names that tool_version.rs gives to directories;
      [ToolRequestSpec]: requests read back, installs stay below their directory, versions are
      harmless names. [VersionMatch] holds the matching, filters and order of versions of
      src/backend/mod.rs; [VersionIndex] is src/versions_index.rs; [VersionIndexSpec]: an answer of the
      index is that of the whole list, and it is downloaded once. [ReleaseAge] is
      src/install_before.rs; [ReleaseAgeSpec]: the time a message names is when a release becomes
      eligible. [VersionSelect] is the selection of src/backend/mod.rs under a cutoff;
      [VersionSelectSpec]: the search for dates ends, asks for few and is exact on dated lists, and what
      is too new is not selected silently, the case of [hidden_release_selected] apart. [Resolve] is
      src/toolset/tool_version.rs and calls all of these; [ResolveSpec]: locking policies hold but for linked
      versions, offline resolutions ask for nothing but aliases that only a backend knows, resolution is bounded unless
      an alias stands for a subtraction.
      [Toml], [Decimals] and [Paths] hold what these files share.

    ** Conventions

    A [String] that the code searches by character is a list of code points, its offsets
    are byte offsets ([len_utf8]); one that is hashed or compared as bytes is a list of bytes.
    [HashMap], [BTreeMap] and sets are finite maps and sets, walked in key order where the code
    walks a [BTreeMap]; an [IndexMap] is the list of its entries. Methods with [&mut self] pass
    the state on. Panics are values ([Err] of a type of their own, or [None]), so that
    their absence, or the input that gives them, is a theorem. A Git tree is the map of its files
    where paths are asked for ([Manifest], [Capture], [Reconcile]), and the nested list of its entries where
    directories are rebuilt ([Purge]). What a machine is (its system, name, environments and
    directories) is an argument. Times and durations are nanoseconds ([Z]). What a resolution runs in, the
    calendar of jiff, the backends and their answers are classes ([BackendArg], [Calendar], [World]); what a
    backend adds to a selection is a record of functions ([Backend], [ToolBackend]), and a session or the list of remote calls
    is state that is passed on.

    Code outside the repository is an argument with its documented behaviour as a
    hypothesis: petgraph (add, remove, neighbours), BLAKE3 and base64 (injective where that is
    used), Git (what is stored is read back, equal blobs have equal identities, commits are named by
    their contents, merge bases are common ancestors), serde_json (a manifest is read back), glob (which
    patterns are patterns), the versions crate (its order is an
    order), the hash of a worktree's path (any number), aho-corasick (lists the overlapping matches). Each such hypothesis is met by the concrete
    functions of a witness.

    ** Fuel

    Loops that walk a list recurse on it. The others take fuel, and a theorem says that the
    fuel their callers pass suffices: parser loops take one unit per character left and every
    round consumes one ([DotenvFacts]); the searches of the scheduler one per node and every
    round adds one ([reach_loop_spec], [dependents_loop_spec]); base32 one per bit in
    the buffer ([encode_emit_spec]); the wildcard matcher one per pair of positions ([walk_spec]); the
    sort of resources one per resource ([order_loop_spec]); the searches of the redactor and the
    rewriting of URLs one per character ([naive_loop_spec], [rewrite_loop_spec]). The construction of
    the task graph takes one fuel for its three loops, and [graph_built] gives a bound from which on
    the result is the same; it needs the keys that dependencies can bring in to be finitely
    many, without which the code does not end either. Pruning takes one unit per entry and
    every round removes one ([prune_safe]). The search for a cutoff takes one unit more than there are
    matches and every round narrows it ([cutoff_search_exact]); the bisection of a release age halves what is left
    ([eligible_time_exact]). Resolution takes one unit for each call of itself, two without such an alias
    ([resolution_depth]). The writing of a merged INI file takes one unit per line and one more ([write_out]).

    ** Not modelled

    Backends, plugins, downloads, archives, signatures, package managers, containers, daemons,
    processes and the sandbox: they act on the world, and what they decide is decided by the
    programs and services they call. Configuration, settings, lockfiles on disk and structured
    merges read and edit documents through serde, toml_edit and other parsers; the locks of npm
    and uv kept beside a lockfile are opaque. Templates, command-line
    parsing, the language server and the user interface are calls into their frameworks. The
    Unicode tables of Rust's [Debug], regular expressions and URL query parsing keep the
    spellings of secrets and the query parameters out of [Redactions]. Environment
    variables that differ by case only (Windows) are left out of the dotenv library. Paths of saved
    files are those of Unix; of a purge the backup, the list of other references, the recovery
    after an interruption and garbage collection are left out.

    ** What is left

    Parts that compute something and are not modelled yet: the
    resolution of conflicts (crates/mise-system/src/history/sync/run.rs), the cache key of tasks
    (src/task/task_cache.rs), the recovery of an interrupted purge. Building toolsets (src/toolset/builder.rs) is calls into
    configuration and backends; of a resolved version the uv interpreter and the environment of its install are
    left out. *)

From stdpp Require Export base tactics option list gmap strings.
From Stdlib Require Export ZArith NArith Lia Bool.
From Stdlib Require Ascii.

(** ** Fallible computations

    Rust's [Result], with one more value for a model whose recursion is bounded by fuel:
    [OutOfFuel] is no value of the code, and every function that can return it has a
    theorem saying that it does not. *)

Inductive result (E A : Type) : Type :=
| Ok (a : A)
| Err (e : E)
| OutOfFuel.
Arguments Ok {E A} _.
Arguments Err {E A} _.
Arguments OutOfFuel {E A}.

Definition rbind {E A B} (m : result E A) (k : A -> result E B) : result E B :=
  match m with
  | Ok a => k a
  | Err e => Err e
  | OutOfFuel => OutOfFuel
  end.

Definition rmap {E A B} (f : A -> B) (m : result E A) : result E B :=
  rbind m (fun a => Ok (f a)).

Definition map_err {E F A} (f : E -> F) (m : result E A) : result F A :=
  match m with
  | Ok a => Ok a
  | Err e => Err (f e)
  | OutOfFuel => OutOfFuel
  end.

Definition is_fuel {E A} (m : result E A) : bool :=
  match m with OutOfFuel => true | _ => false end.

(** State passing over a state [S], with errors: the error leaves the state it was found in. *)
Definition SE (S E A : Type) : Type := S -> result E A * S.

Definition se_ret {S E A} (a : A) : SE S E A := fun s => (Ok a, s).
Definition se_fail {S E A} (e : E) : SE S E A := fun s => (Err e, s).
Definition se_fuel {S E A} : SE S E A := fun s => (OutOfFuel, s).
Definition se_bind {S E A B} (m : SE S E A) (k : A -> SE S E B) : SE S E B :=
  fun s =>
    match m s with
    | (Ok a, s') => k a s'
    | (Err e, s') => (Err e, s')
    | (OutOfFuel, s') => (OutOfFuel, s')
    end.
Definition se_get {S E} : SE S E S := fun s => (Ok s, s).
Definition se_put {S E} (s' : S) : SE S E unit := fun _ => (Ok tt, s').
Definition se_modify {S E} (f : S -> S) : SE S E unit := fun s => (Ok tt, f s).
Definition se_gets {S E A} (f : S -> A) : SE S E A := fun s => (Ok (f s), s).

Lemma rbind_inv {E A B} (m : result E A) (k : A -> result E B) b : rbind m k = Ok b -> exists a, m = Ok a /\ k a = Ok b.
Proof. destruct m; simpl; [by eexists|done..]. Qed.

Lemma se_bind_ok {S E A B} (m : SE S E A) (k : A -> SE S E B) s a s' :
  m s = (Ok a, s') -> se_bind m k s = k a s'.
Proof. unfold se_bind. by intros ->. Qed.

Lemma se_bind_inv {S E A B} (m : SE S E A) (k : A -> SE S E B) s b s' :
  se_bind m k s = (Ok b, s') -> exists a s1, m s = (Ok a, s1) /\ k a s1 = (Ok b, s').
Proof. unfold se_bind. destruct (m s) as [[a|e|] s1]; [by eauto|done..]. Qed.

Declare Scope mise_scope.
Delimit Scope mise_scope with mise.

Notation "'let?' x ':=' m 'in' k" := (rbind m (fun x => k))
  (at level 10, x pattern, m at level 100, k at level 200) : mise_scope.
Notation "'let*' x ':=' m 'in' k" := (se_bind m (fun x => k))
  (at level 10, x pattern, m at level 100, k at level 200) : mise_scope.

#[global] Open Scope mise_scope.

(** ** Text

    A Rust [char] is its Unicode scalar value and a [str] the list of its characters.
    Byte offsets, which the code uses everywhere, are computed by [len] of module [RustStr]. *)

Abbreviation char := N (only parsing).
Abbreviation str := (list N) (only parsing).

Definition str_of (s : string) : str := map Ascii.N_of_ascii (String.list_ascii_of_string s).

(** The first character of a literal. *)
Definition ch_of (s : string) : char :=
  match s with String.String a _ => Ascii.N_of_ascii a | _ => 0%N end.

(** [u! "text"] and [c! "x"] are the text and character written out, so that [simpl] and [lia]
    see numbers. *)
Notation "'u!' s" := (ltac:(let v := eval vm_compute in (str_of s%string) in exact v))
  (at level 1, s at level 0, only parsing) : mise_scope.
Notation "'c!' s" := (ltac:(let v := eval vm_compute in (ch_of s%string) in exact v))
  (at level 1, s at level 0, only parsing) : mise_scope.

(** ** Tactics *)

(** Boolean tests become propositions. *)
Ltac bool_prop :=
  repeat match goal with
  | H : (_ =? _)%N = true |- _ => apply N.eqb_eq in H
  | H : (_ =? _)%N = false |- _ => apply N.eqb_neq in H
  | H : (_ =? _)%nat = true |- _ => apply Nat.eqb_eq in H
  | H : (_ =? _)%nat = false |- _ => apply Nat.eqb_neq in H
  | H : (_ =? _)%Z = true |- _ => apply Z.eqb_eq in H
  | H : (_ =? _)%Z = false |- _ => apply Z.eqb_neq in H
  | H : (_ <? _)%N = true |- _ => apply N.ltb_lt in H
  | H : (_ <? _)%N = false |- _ => apply N.ltb_ge in H
  | H : (_ <=? _)%N = true |- _ => apply N.leb_le in H
  | H : (_ <=? _)%N = false |- _ => apply N.leb_gt in H
  | H : (_ <? _)%nat = true |- _ => apply Nat.ltb_lt in H
  | H : (_ <? _)%nat = false |- _ => apply Nat.ltb_ge in H
  | H : (_ <=? _)%nat = true |- _ => apply Nat.leb_le in H
  | H : (_ <=? _)%nat = false |- _ => apply Nat.leb_gt in H
  | H : _ && _ = true |- _ => apply andb_true_iff in H; destruct H
  | H : _ || _ = false |- _ => apply orb_false_iff in H; destruct H
  | H : negb _ = true |- _ => apply negb_true_iff in H
  | H : negb _ = false |- _ => apply negb_false_iff in H
  | H : bool_decide _ = true |- _ => apply bool_decide_eq_true in H
  | H : bool_decide _ = false |- _ => apply bool_decide_eq_false in H
  end.

(** Splits the scrutinee of the innermost [match] or [if] of the goal, keeping its equation. *)
Ltac step_match :=
  match goal with
  | |- context [match ?x with _ => _ end] =>
      lazymatch x with
      | context [match _ with _ => _ end] => fail
      | _ => let E := fresh "E" in destruct x eqn:E
      end
  end.

(** The same in a hypothesis. *)
Ltac step_match_in H :=
  match type of H with
  | context [match ?x with _ => _ end] =>
      lazymatch x with
      | context [match _ with _ => _ end] => fail
      | _ => let E := fresh "E" in destruct x eqn:E
      end
  end.

(** ** Lists *)

Create HintDb mise discriminated.
Create Rewrite HintDb mise_rw.

Fixpoint take_while {A} (f : A -> bool) (l : list A) : list A :=
  match l with
  | x :: l' => if f x then x :: take_while f l' else []
  | [] => []
  end.

Fixpoint drop_while {A} (f : A -> bool) (l : list A) : list A :=
  match l with
  | x :: l' => if f x then drop_while f l' else l
  | [] => []
  end.

Lemma take_drop_while {A} (f : A -> bool) (l : list A) :
  take_while f l ++ drop_while f l = l.
Proof. induction l as [|x l IH]; simpl; [done|]. destruct (f x); simpl; congruence. Qed.

Lemma take_while_forall {A} (f : A -> bool) (l : list A) :
  forallb f (take_while f l) = true.
Proof. induction l as [|x l IH]; simpl; [done|]. destruct (f x) eqn:E; simpl; [by rewrite E|done]. Qed.

Lemma drop_while_head {A} (f : A -> bool) (l : list A) x l' :
  drop_while f l = x :: l' -> f x = false.
Proof.
  induction l as [|y l IH]; simpl; [done|].
  destruct (f y) eqn:E; [done|]. intros [= -> ->]. done.
Qed.

Lemma take_while_app_all {A} (f : A -> bool) l1 l2 :
  forallb f l1 = true -> take_while f (l1 ++ l2) = l1 ++ take_while f l2.
Proof.
  induction l1 as [|x l1 IH]; simpl; [done|]. intros [-> H]%andb_true_iff. by rewrite IH.
Qed.

Lemma drop_while_app_all {A} (f : A -> bool) l1 l2 :
  forallb f l1 = true -> drop_while f (l1 ++ l2) = drop_while f l2.
Proof.
  induction l1 as [|x l1 IH]; simpl; [done|]. intros [-> H]%andb_true_iff. by apply IH.
Qed.

Lemma drop_while_length {A} (f : A -> bool) (l : list A) :
  length (drop_while f l) <= length l.
Proof. induction l as [|x l IH]; simpl; [lia|]. destruct (f x); simpl; lia. Qed.

(** Rust's [Vec::dedup]-like filters that keep the first occurrence of each element
    ([seen.insert(x)]). *)
Fixpoint dedup_from {A} `{EqDecision A} (seen l : list A) : list A :=
  match l with
  | [] => []
  | x :: l' => if bool_decide (x ∈ seen) then dedup_from seen l' else x :: dedup_from (x :: seen) l'
  end.

Lemma elem_of_dedup_from {A} `{EqDecision A} (seen l : list A) x : x ∈ dedup_from seen l <-> x ∈ l /\ (x ∉ seen).
Proof.
  revert seen. induction l as [|y l IH]; intros seen; simpl; [split; [by intros ?%elem_of_nil|by intros [?%elem_of_nil _]]|].
  case_bool_decide; rewrite ?elem_of_cons, IH, ?not_elem_of_cons; destruct (decide (x = y)); naive_solver.
Qed.

Lemma elem_of_filter_bool {A} (f : A -> bool) l x : x ∈ List.filter f l <-> x ∈ l /\ f x = true.
Proof. rewrite !list_elem_of_In. apply filter_In. Qed.

Lemma find_split {A} (f : A -> bool) l x :
  List.find f l = Some x -> exists l1 l2, l = l1 ++ x :: l2 /\ f x = true /\ forall y, y ∈ l1 -> f y = false.
Proof.
  induction l as [|y l IH]; simpl; [done|]. destruct (f y) eqn:Ey.
  - intros [= ->]. exists [], l. split_and!; [done|done|]. by intros z ?%elem_of_nil.
  - intros (l1 & l2 & -> & Hx & H)%IH. exists (y :: l1), l2. split_and!; [done|done|].
    intros z [->|Hz]%elem_of_cons; [done|by apply H].
Qed.

Lemma max_list_elem (l : list nat) x : x ∈ l -> x <= max_list l.
Proof. induction l as [|y l IH]; [by intros ?%elem_of_nil|]. intros [->|H]%elem_of_cons; simpl; [lia|]. specialize (IH H). lia. Qed.

Lemma max_list_in (l : list nat) : l <> [] -> max_list l ∈ l.
Proof.
  induction l as [|y l IH]; [done|]. intros _. simpl. destruct l as [|z l]; [simpl; rewrite Nat.max_0_r; by left|].
  specialize (IH ltac:(done)). destruct (Nat.max_spec y (max_list (z :: l))) as [[_ ->]|[_ ->]]; [by right|by left].
Qed.

Lemma existsb_ext_in {A} (f g : A -> bool) l : (forall x, x ∈ l -> f x = g x) -> existsb f l = existsb g l.
Proof. induction l as [|x l IH]; intros H; [done|]. simpl. rewrite H, IH; [done| |by left]. intros y Hy. apply H. by right. Qed.

Lemma filter_all {A} (f : A -> bool) l : Forall (fun x => f x = true) l -> List.filter f l = l.
Proof. intros H. induction H as [|x l Hx _ IH]; simpl; [done|]. by rewrite Hx, IH. Qed.

Lemma filter_one {A} (f : A -> bool) l x :
  List.filter f l = [x] -> exists l1 l2, l = l1 ++ x :: l2 /\ f x = true /\ forall y, y ∈ l1 ++ l2 -> f y = false.
Proof.
  induction l as [|y l IH]; simpl; [done|]. destruct (f y) eqn:Ey.
  - intros [= -> Hl]. exists [], l. split_and!; [done|done|]. intros z Hz. simpl in Hz.
    destruct (f z) eqn:Ez; [|done]. exfalso. apply list_elem_of_In in Hz. assert (In z (List.filter f l)) as H by (by apply filter_In).
    rewrite Hl in H. done.
  - intros (l1 & l2 & -> & Hx & H)%IH. exists (y :: l1), l2. split_and!; [done|done|].
    intros z [->|Hz]%elem_of_cons; [done|by apply H].
Qed.

Lemma filter_length_le {A} (f g : A -> bool) (l : list A) :
  (forall x, f x = true -> g x = true) -> length (List.filter f l) <= length (List.filter g l).
Proof.
  intros H. induction l as [|x l IH]; simpl; [lia|].
  destruct (f x) eqn:Ef; [rewrite (H x Ef); simpl; lia|]. destruct (g x); simpl; lia.
Qed.

Lemma filter_length_lt {A} (f g : A -> bool) (l : list A) y :
  (forall x, f x = true -> g x = true) -> y ∈ l -> g y = true -> f y = false ->
  length (List.filter f l) < length (List.filter g l).
Proof.
  intros H Hy Hg Hf. induction l as [|x l IH]; [by apply elem_of_nil in Hy|].
  apply elem_of_cons in Hy as [->|Hy]; simpl.
  - rewrite Hg, Hf. simpl. pose proof (filter_length_le f g l H). lia.
  - specialize (IH Hy). destruct (f x) eqn:Ef; [rewrite (H x Ef); simpl; lia|]. destruct (g x); simpl; lia.
Qed.

(** ** Finite graphs *)

(** Where every node has a successor, every node reaches a cycle. *)
Lemma successors_cycle {A} `{EqDecision A} (R : A -> A -> Prop) (X : list A) :
  (forall x, x ∈ X -> exists y, y ∈ X /\ R x y) ->
  forall n (V : list A) x, x ∈ X -> (forall v, v ∈ V -> v ∈ X /\ tc R v x) ->
  NoDup V -> length X - length V <= n -> exists y, rtc R x y /\ tc R y y.
Proof.
  intros HX n. induction n as [n IH] using lt_wf_ind. intros V x Hx HV Hnd Hn.
  destruct (decide (x ∈ V)) as [Hin|Hout]; [exists x; split; [done|by apply HV]|].
  destruct (HX x Hx) as (x' & Hx' & HR).
  assert (length (x :: V) <= length X) as Hlen.
  { apply submseteq_length, NoDup_submseteq; [by constructor|].
    intros v [->|Hv]%elem_of_cons; [done|by apply HV]. }
  simpl in Hlen.
  destruct (IH (length X - length (x :: V)) ltac:(simpl; lia) (x :: V) x') as (y & Hy & Hc); [done| |by constructor|lia|].
  - intros v [->|Hv]%elem_of_cons; [split; [done|by apply tc_once]|].
    destruct (HV v Hv) as [? Hvx]. split; [done|]. by eapply tc_r.
  - exists y. split; [by eapply rtc_l|done].
Qed.

Lemma tc_first {A} (R : A -> A -> Prop) x y : tc R x y -> exists z, R x z.
Proof. by destruct 1 as [x y|x z y]; eexists. Qed.

Lemma Acc_no_cycle {A} (R : A -> A -> Prop) x :
  Acc (flip R) x -> forall y, rtc R x y -> tc R y y -> False.
Proof.
  induction 1 as [x _ IH]. intros y Hxy Hc.
  destruct Hxy as [x|x z y Hxz Hzy]; [|by apply (IH z Hxz y)].
  inversion Hc as [? ? Hz|? w ? Hz Hw]; subst.
  - by apply (IH x Hz x).
  - apply (IH w Hz x); [by apply tc_rtc|done].
Qed.

(** ** Stores of named objects *)

Section Named.

Context {K A : Type} `{Countable K} (name : A -> K) `{!Inj (=) (=) name}.

(** Every object has the name of its contents. *)
Definition named_by (m : gmap K A) : Prop := forall k a, m !! k = Some a -> name a = k.

Lemma insert_named (m : gmap K A) a : named_by m -> m ⊆ <[name a := a]> m /\ named_by (<[name a := a]> m).
Proof.
  intros Hm. split.
  - apply map_subseteq_spec. intros k b Hk. destruct (decide (name a = k)) as [<-|Hne].
    + rewrite lookup_insert_eq. f_equal. apply (inj name). symmetry. by apply Hm.
    + by rewrite lookup_insert_ne.
  - intros k b. destruct (decide (name a = k)) as [<-|Hne].
    + rewrite lookup_insert_eq. by intros [= <-].
    + rewrite lookup_insert_ne by done. apply Hm.
Qed.

End Named.
