(* ===== verification/RustStr.v ===== *)
(** * Rust's [char] and [str]

    The operations of Rust's standard library that the modelled code calls on text. A [str] is
    the list of its characters, and a byte offset is the UTF-8 length of the characters before
    it. Slicing at an offset that is not on a character boundary panics in Rust; here it rounds
    up, and the components prove that their offsets are boundaries ([boundary]). *)

From Stdlib Require Import Sorting.Sorted.
From S2P Require Import Prelude.

(** ** Characters *)

(** [char::len_utf8] *)
Definition len_utf8 (c : char) : nat :=
  if (c <? 0x80)%N then 1
  else if (c <? 0x800)%N then 2
  else if (c <? 0x10000)%N then 3
  else 4.

Definition in_range (lo hi c : char) : bool := (lo <=? c)%N && (c <=? hi)%N.

(** Membership in a literal list of characters, as [matches!(c, 'a' | 'b')] or a char-array
    pattern. *)
Definition one_of (cs : str) (c : char) : bool := existsb (N.eqb c) cs.

(** [char::is_whitespace]: the Unicode property [White_Space]. *)
Definition is_whitespace (c : char) : bool :=
  in_range 9 13 c || (c =? 32)%N || (c =? 0x85)%N || (c =? 0xA0)%N || (c =? 0x1680)%N
  || in_range 0x2000 0x200A c || (c =? 0x2028)%N || (c =? 0x2029)%N || (c =? 0x202F)%N
  || (c =? 0x205F)%N || (c =? 0x3000)%N.

(** [char::is_control]: the Unicode category [Cc]. *)
Definition is_control (c : char) : bool := (c <=? 0x1F)%N || in_range 0x7F 0x9F c.

Definition is_ascii_digit (c : char) : bool := in_range c!"0" c!"9" c.
Definition is_ascii_lowercase (c : char) : bool := in_range c!"a" c!"z" c.
Definition is_ascii_uppercase (c : char) : bool := in_range c!"A" c!"Z" c.
Definition is_ascii_alphabetic (c : char) : bool := is_ascii_lowercase c || is_ascii_uppercase c.
Definition is_ascii_alphanumeric (c : char) : bool := is_ascii_alphabetic c || is_ascii_digit c.

Definition to_ascii_lowercase (c : char) : char := if is_ascii_uppercase c then (c + 32)%N else c.
Definition to_ascii_uppercase (c : char) : char := if is_ascii_lowercase c then (c - 32)%N else c.

(** [str::eq_ignore_ascii_case] *)
Fixpoint eq_ignore_ascii_case (a b : str) : bool :=
  match a, b with
  | [], [] => true
  | x :: a', y :: b' =>
      (to_ascii_lowercase x =? to_ascii_lowercase y)%N && eq_ignore_ascii_case a' b'
  | _, _ => false
  end.

(** ** Byte offsets *)

(** [str::len], in bytes *)
Fixpoint len (s : str) : nat :=
  match s with
  | [] => 0
  | c :: s' => len_utf8 c + len s'
  end.

(** [&s[p..]] *)
Fixpoint str_from (s : str) (p : nat) : str :=
  match p, s with
  | 0, _ => s
  | _, [] => []
  | _, c :: s' => str_from s' (p - len_utf8 c)
  end.

(** [&s[..p]] *)
Fixpoint str_to (s : str) (p : nat) : str :=
  match p, s with
  | 0, _ => []
  | _, [] => []
  | _, c :: s' => c :: str_to s' (p - len_utf8 c)
  end.

(** [&s[a..b]] *)
Definition slice (s : str) (a b : nat) : str := str_to (str_from s a) (b - a).

(** An offset on which Rust can slice [s]. *)
Definition boundary (s : str) (p : nat) : Prop := exists pre suf, s = pre ++ suf /\ p = len pre.

(** [str::find] with a predicate: the byte offset of the first match. *)
Fixpoint find_at (f : char -> bool) (s : str) (p : nat) : option nat :=
  match s with
  | [] => None
  | c :: s' => if f c then Some p else find_at f s' (p + len_utf8 c)
  end.
Definition find (f : char -> bool) (s : str) : option nat := find_at f s 0.

(** [str::rfind] with a predicate: the byte offset of the last match. *)
Fixpoint rfind_at (f : char -> bool) (s : str) (p : nat) : option nat :=
  match s with
  | [] => None
  | c :: s' =>
      match rfind_at f s' (p + len_utf8 c) with
      | Some q => Some q
      | None => if f c then Some p else None
      end
  end.
Definition rfind (f : char -> bool) (s : str) : option nat := rfind_at f s 0.

(** ** Prefixes *)

(** [str::strip_prefix] *)
Fixpoint strip_prefix (prefix s : str) : option str :=
  match prefix, s with
  | [], _ => Some s
  | x :: prefix', y :: s' => if (x =? y)%N then strip_prefix prefix' s' else None
  | _ :: _, [] => None
  end.

Definition starts_with (prefix s : str) : bool :=
  match strip_prefix prefix s with Some _ => true | None => false end.

Definition ends_with (suffix s : str) : bool := starts_with (reverse suffix) (reverse s).

(** [str::contains] with a character *)
Definition contains_char (c : char) (s : str) : bool := existsb (N.eqb c) s.

(** [str::contains] with a string *)
Fixpoint contains_str (needle s : str) : bool :=
  starts_with needle s || match s with [] => false | _ :: s' => contains_str needle s' end.

(** ** Trimming *)

Definition trim_start_matches (f : char -> bool) (s : str) : str := drop_while f s.
Definition trim_end_matches (f : char -> bool) (s : str) : str :=
  reverse (drop_while f (reverse s)).
Definition trim_start (s : str) : str := trim_start_matches is_whitespace s.
Definition trim_end (s : str) : str := trim_end_matches is_whitespace s.
Definition trim (s : str) : str := trim_end (trim_start s).

(** ** Splitting and joining *)

(** [str::split] with a character pattern; a text without it is one piece. *)
Fixpoint split_on (f : char -> bool) (s : str) : list str :=
  match s with
  | [] => [[]]
  | c :: s' =>
      if f c then [] :: split_on f s'
      else match split_on f s' with
           | [] => [[c]]
           | piece :: rest => (c :: piece) :: rest
           end
  end.

(** [slice::join] *)
Fixpoint join (sep : str) (pieces : list str) : str :=
  match pieces with
  | [] => []
  | [p] => p
  | p :: rest => p ++ sep ++ join sep rest
  end.

(** [str::replace] of one character by another *)
Definition replace_char (a b : char) (s : str) : str :=
  map (fun c => if (c =? a)%N then b else c) s.

(** ** Laws of byte offsets *)

Lemma len_utf8_pos c : 1 <= len_utf8 c.
Proof. unfold len_utf8. repeat case_match; lia. Qed.

Lemma len_utf8_ascii c : (c < 0x80)%N -> len_utf8 c = 1.
Proof. intros H. unfold len_utf8. apply N.ltb_lt in H. by rewrite H. Qed.

Lemma len_app s t : len (s ++ t) = len s + len t.
Proof. induction s as [|c s IH]; simpl; [done|]. rewrite IH. lia. Qed.

Lemma len_nil_inv s : len s = 0 -> s = [].
Proof. destruct s as [|c s]; simpl; [done|]. pose proof (len_utf8_pos c). lia. Qed.

Lemma length_le_len s : length s <= len s.
Proof. induction s as [|c s IH]; simpl; [done|]. pose proof (len_utf8_pos c). lia. Qed.

Lemma str_from_0 s : str_from s 0 = s.
Proof. by destruct s. Qed.

Lemma str_to_0 s : str_to s 0 = [].
Proof. by destruct s. Qed.

Lemma str_from_cons c s : str_from (c :: s) (len_utf8 c) = s.
Proof.
  simpl. destruct (len_utf8 c) as [|n] eqn:E; [pose proof (len_utf8_pos c); lia|].
  rewrite Nat.sub_diag. apply str_from_0.
Qed.

Lemma str_from_app s t : str_from (s ++ t) (len s) = t.
Proof.
  induction s as [|c s IH]; simpl; [apply str_from_0|].
  destruct (len_utf8 c + len s) eqn:E; [pose proof (len_utf8_pos c); lia|].
  rewrite <- E. by replace (len_utf8 c + len s - len_utf8 c) with (len s) by lia.
Qed.

Lemma str_to_app s t : str_to (s ++ t) (len s) = s.
Proof.
  induction s as [|c s IH]; simpl; [by rewrite str_to_0|].
  destruct (len_utf8 c + len s) eqn:E; [pose proof (len_utf8_pos c); lia|].
  rewrite <- E. replace (len_utf8 c + len s - len_utf8 c) with (len s) by lia. by rewrite IH.
Qed.

Lemma str_from_app_add s t n : str_from (s ++ t) (len s + n) = str_from t n.
Proof.
  induction s as [|c s IH]; simpl; [done|].
  destruct (len_utf8 c + len s + n) eqn:E; [pose proof (len_utf8_pos c); lia|].
  rewrite <- E. by replace (len_utf8 c + len s + n - len_utf8 c) with (len s + n) by lia.
Qed.

Lemma slice_app s t r : slice (s ++ t ++ r) (len s) (len s + len t) = t.
Proof.
  unfold slice. rewrite str_from_app.
  replace (len s + len t - len s) with (len t) by lia. apply str_to_app.
Qed.

Lemma str_from_full s : str_from s (len s) = [].
Proof. rewrite <- (app_nil_r s) at 1. apply str_from_app. Qed.

Lemma str_to_full s : str_to s (len s) = s.
Proof. rewrite <- (app_nil_r s) at 1. apply str_to_app. Qed.

Lemma boundary_0 s : boundary s 0.
Proof. by exists [], s. Qed.

Lemma boundary_len s : boundary s (len s).
Proof. exists s, []. by rewrite app_nil_r. Qed.

Lemma boundary_le s p : boundary s p -> p <= len s.
Proof. intros (pre & suf & -> & ->). rewrite len_app. lia. Qed.

Lemma boundary_split s p : boundary s p -> s = str_to s p ++ str_from s p /\ len (str_to s p) = p.
Proof. intros (pre & suf & -> & ->). by rewrite str_to_app, str_from_app. Qed.

Lemma strip_prefix_Some prefix s rest : strip_prefix prefix s = Some rest <-> s = prefix ++ rest.
Proof.
  revert s. induction prefix as [|x prefix IH]; intros s; simpl.
  - naive_solver.
  - destruct s as [|y s]; [done|]. destruct (N.eqb_spec x y) as [->|Hne].
    + rewrite IH. naive_solver.
    + naive_solver.
Qed.

Lemma starts_with_app prefix s : starts_with prefix (prefix ++ s) = true.
Proof. unfold starts_with. by rewrite (proj2 (strip_prefix_Some _ _ s) eq_refl). Qed.

Lemma starts_with_spec prefix s : starts_with prefix s = true <-> exists rest, s = prefix ++ rest.
Proof.
  unfold starts_with. destruct (strip_prefix prefix s) as [rest|] eqn:E.
  - apply strip_prefix_Some in E. naive_solver.
  - split; [done|]. intros [rest ->]. by rewrite (proj2 (strip_prefix_Some _ _ rest) eq_refl) in E.
Qed.

Lemma one_of_true cs c : one_of cs c = true <-> In c cs.
Proof.
  unfold one_of. rewrite existsb_exists. split.
  - intros (x & Hin & Heq). apply N.eqb_eq in Heq. by subst.
  - intros H. exists c. by rewrite N.eqb_refl.
Qed.

#[export] Hint Rewrite @len_app str_from_0 str_to_0 str_from_app str_to_app str_from_full
  @app_nil_r : mise_rw.
#[export] Hint Resolve boundary_0 boundary_len boundary_le : mise.

(** ** Order

    [Ord] of [str] compares bytes; UTF-8 keeps the order of the characters, so this is the
    lexicographic order of the scalar values. *)

Fixpoint str_cmp (a b : str) : comparison :=
  match a, b with
  | [], [] => Eq
  | [], _ :: _ => Lt
  | _ :: _, [] => Gt
  | x :: a', y :: b' =>
      match N.compare x y with
      | Eq => str_cmp a' b'
      | c => c
      end
  end.

Definition str_lt (a b : str) : Prop := str_cmp a b = Lt.
Definition str_ltb (a b : str) : bool := match str_cmp a b with Lt => true | _ => false end.

Lemma str_cmp_eq a b : str_cmp a b = Eq <-> a = b.
Proof.
  revert b. induction a as [|x a IH]; intros [|y b]; simpl; try done.
  destruct (N.compare_spec x y) as [->|H|H]; [rewrite IH; naive_solver|..];
    (split; [done|]; intros [= -> _]; lia).
Qed.

Lemma str_cmp_antisym a b : str_cmp b a = CompOpp (str_cmp a b).
Proof.
  revert b. induction a as [|x a IH]; intros [|y b]; simpl; try done.
  rewrite N.compare_antisym, IH. by destruct (N.compare x y).
Qed.

Lemma str_ltb_lt a b : str_ltb a b = true <-> str_lt a b.
Proof. unfold str_ltb, str_lt. by destruct (str_cmp a b). Qed.

Lemma str_lt_irrefl a : ~ str_lt a a.
Proof. unfold str_lt. by rewrite (proj2 (str_cmp_eq a a)). Qed.

#[export] Instance str_lt_trans : Transitive str_lt.
Proof.
  unfold str_lt. intros a. induction a as [|x a IH]; intros [|y b] [|z c]; simpl; try done.
  destruct (N.compare_spec x y) as [->|Hxy|Hxy]; [|intros _|done].
  - destruct (N.compare_spec y z); eauto.
  - destruct (N.compare_spec y z) as [->|Hyz|Hyz]; [|intros _|done].
    + by rewrite (proj2 (N.compare_lt_iff x z)).
    + rewrite (proj2 (N.compare_lt_iff x z)); [done|lia].
Qed.

Lemma str_lt_total a b : str_lt a b \/ a = b \/ str_lt b a.
Proof.
  unfold str_lt. rewrite (str_cmp_antisym a b). destruct (str_cmp a b) eqn:E; auto.
  apply str_cmp_eq in E. auto.
Qed.

Lemma str_ltb_ge a b : str_ltb a b = false -> a = b \/ str_lt b a.
Proof.
  intros H. destruct (str_lt_total a b) as [Hl|]; [|done].
  apply str_ltb_lt in Hl. congruence.
Qed.

#[export] Hint Resolve str_lt_irrefl : mise.

Lemma find_first f pre c s : forallb (fun x => negb (f x)) pre = true -> f c = true -> find f (pre ++ c :: s) = Some (len pre).
Proof.
  unfold find. change (len pre) with (0 + len pre). generalize 0. induction pre as [|x pre IH]; intros p; cbn [app find_at forallb len].
  - intros _ ->. by rewrite Nat.add_0_r.
  - intros [Hx Hpre]%andb_true_iff Hc. apply negb_true_iff in Hx. rewrite Hx, IH by done. f_equal. lia.
Qed.

(** ** Lines *)

(** [str::split_once] with a character *)
Fixpoint split_once (sep : char) (s : str) : option (str * str) :=
  match s with
  | [] => None
  | c :: s' =>
      if (c =? sep)%N then Some ([], s')
      else match split_once sep s' with Some (a, b) => Some (c :: a, b) | None => None end
  end.

(** A line that [\n] ended, without the [\r] before it. *)
Definition strip_cr (line : str) : str :=
  match reverse line with
  | c :: r => if (c =? 13)%N then reverse r else line
  | [] => line
  end.

Fixpoint ended_lines (pieces : list str) : list str :=
  match pieces with
  | [] => []
  | [unended] => match unended with [] => [] | _ => [unended] end
  | piece :: rest => strip_cr piece :: ended_lines rest
  end.

(** [str::lines] *)
Definition lines (s : str) : list str := ended_lines (split_on (N.eqb 10%N) s).

(** ** Ordered sets of keys *)


(** [BTreeSet<&String>] and [BTreeMap::keys] iterate in key order. *)
Fixpoint insert_str (x : str) (l : list str) : list str :=
  match l with
  | [] => [x]
  | y :: l' => if str_ltb y x then y :: insert_str x l' else x :: l
  end.

Definition key_order (s : gset str) : list str := foldr insert_str [] (elements s).

Lemma insert_str_perm x l : insert_str x l ≡ₚ x :: l.
Proof. induction l as [|y l IH]; simpl; [done|]. case_match; [rewrite IH; constructor|done]. Qed.

Lemma foldr_insert_str_perm l : foldr insert_str [] l ≡ₚ l.
Proof. induction l as [|x l IH]; simpl; [done|]. by rewrite insert_str_perm, IH. Qed.

Lemma elem_of_key_order x s : x ∈ key_order s <-> x ∈ s.
Proof. unfold key_order. by rewrite foldr_insert_str_perm, elem_of_elements. Qed.

Lemma NoDup_key_order s : NoDup (key_order s).
Proof. unfold key_order. rewrite foldr_insert_str_perm. apply NoDup_elements. Qed.

Lemma insert_str_sorted x l : x ∉ l -> StronglySorted str_lt l -> StronglySorted str_lt (insert_str x l).
Proof.
  induction l as [|y l IH]; simpl; intros Hx Hl; [repeat constructor|].
  inversion Hl as [|? ? Hl' Hy]; subst. apply not_elem_of_cons in Hx as [Hne Hx].
  destruct (str_ltb y x) eqn:E.
  - constructor; [auto|]. rewrite insert_str_perm. constructor; [by apply str_ltb_lt|done].
  - apply str_ltb_ge in E as [->|E]; [done|]. constructor; [done|]. constructor; [done|].
    eapply Forall_impl; [exact Hy|]. intros z Hz. by trans y.
Qed.

Lemma key_order_sorted s : StronglySorted str_lt (key_order s).
Proof.
  unfold key_order. pose proof (NoDup_elements s) as Hn. induction Hn as [|x l Hx Hn IH]; simpl; [constructor|].
  apply insert_str_sorted; [|done]. by rewrite foldr_insert_str_perm.
Qed.

(** ** Cutting strings *)

Lemma eq_ignore_ascii_case_refl s : eq_ignore_ascii_case s s = true.
Proof. induction s as [|c s IH]; [done|]. cbn. by rewrite N.eqb_refl. Qed.

Lemma split_once_app sep pre s : sep ∉ pre -> split_once sep (pre ++ sep :: s) = Some (pre, s).
Proof.
  induction pre as [|c pre IH]; simpl; intros Hni; [by rewrite N.eqb_refl|].
  apply not_elem_of_cons in Hni as [Hc Hni]. destruct (N.eqb_spec c sep); [congruence|]. by rewrite IH.
Qed.

Lemma split_once_Some sep s a b : split_once sep s = Some (a, b) -> s = a ++ sep :: b /\ sep ∉ a.
Proof.
  revert a b. induction s as [|c s IH]; intros a b; simpl; [done|]. destruct (N.eqb_spec c sep) as [->|Hc].
  - intros [= <- <-]. split; [done|apply not_elem_of_nil].
  - destruct (split_once sep s) as [[a' b']|]; [|done]. intros [= <- <-]. destruct (IH a' b' eq_refl) as [-> Hni].
    split; [done|]. apply not_elem_of_cons. split; [congruence|done].
Qed.

Lemma split_on_nonempty f s : split_on f s <> [].
Proof. destruct s as [|c s]; simpl; [done|]. destruct (f c); [done|]. by destruct (split_on f s). Qed.

Lemma join_split_on sep s : join [sep] (split_on (N.eqb sep) s) = s.
Proof.
  induction s as [|c s IH]; simpl; [done|]. destruct (N.eqb_spec sep c) as [->|Hc].
  - destruct (split_on (N.eqb c) s) as [|p l] eqn:E; [by apply split_on_nonempty in E|]. simpl in *. by rewrite IH.
  - destruct (split_on (N.eqb sep) s) as [|p l] eqn:E; [by apply split_on_nonempty in E|].
    destruct l; simpl in *; by rewrite IH.
Qed.

Lemma split_on_app_sep c s t : split_on (N.eqb c) (s ++ c :: t) = split_on (N.eqb c) s ++ split_on (N.eqb c) t.
Proof.
  induction s as [|x s IH]; simpl; [by rewrite N.eqb_refl|]. rewrite IH.
  destruct (c =? x)%N; [done|]. destruct (split_on (N.eqb c) s) as [|p r] eqn:E; [|done].
  exfalso. destruct s; simpl in E; [done|]. repeat case_match; done.
Qed.

Lemma split_on_head sep p s : sep ∉ p -> split_on (N.eqb sep) (p ++ sep :: s) = p :: split_on (N.eqb sep) s.
Proof.
  induction p as [|c p IH]; simpl; intros Hni; [by rewrite N.eqb_refl|].
  apply not_elem_of_cons in Hni as [Hc Hni]. destruct (N.eqb_spec sep c); [done|]. by rewrite IH.
Qed.

Lemma split_on_none sep p : sep ∉ p -> split_on (N.eqb sep) p = [p].
Proof.
  induction p as [|c p IH]; simpl; intros Hni; [done|]. apply not_elem_of_cons in Hni as [Hc Hni].
  destruct (N.eqb_spec sep c); [done|]. by rewrite IH.
Qed.

Lemma split_on_pieces sep s : Forall (fun p => sep ∉ p) (split_on (N.eqb sep) s).
Proof.
  induction s as [|c s IH]; simpl; [repeat constructor; apply not_elem_of_nil|].
  destruct (N.eqb_spec sep c) as [->|Hc]; [constructor; [apply not_elem_of_nil|done]|].
  destruct (split_on (N.eqb sep) s) as [|p l]; [repeat constructor; set_solver|].
  apply Forall_cons in IH as [Hp Hl]. constructor; [|done]. by apply not_elem_of_cons.
Qed.

Lemma split_on_join sep pieces :
  pieces <> [] -> Forall (fun p => sep ∉ p) pieces -> split_on (N.eqb sep) (join [sep] pieces) = pieces.
Proof.
  intros Hne Hp. induction Hp as [|p pieces Hp Hps IH]; [done|]. destruct pieces as [|q pieces].
  - by apply split_on_none.
  - change (join [sep] (p :: q :: pieces)) with (p ++ sep :: join [sep] (q :: pieces)). by rewrite split_on_head, IH.
Qed.

(** [str::split_once] with a text *)
Fixpoint split_once_str (sep s : str) : option (str * str) :=
  match strip_prefix sep s with
  | Some rest => Some ([], rest)
  | None => match s with
            | [] => None
            | c :: s' => match split_once_str sep s' with Some (a, b) => Some (c :: a, b) | None => None end
            end
  end.

Lemma split_once_str_app sep pre s c :
  head sep = Some c -> c ∉ pre -> split_once_str sep (pre ++ sep ++ s) = Some (pre, s).
Proof.
  intros Hc. destruct sep as [|c' sep]; [done|]. injection Hc as ->.
  assert (strip_prefix (c :: sep) ((c :: sep) ++ s) = Some s) as Hs.
  { clear. generalize (c :: sep). intros l. induction l as [|x l IH]; [done|]. simpl. by rewrite N.eqb_refl. }
  induction pre as [|x pre IH]; intros Hpre.
  - cbn [app]. unfold split_once_str. change (c :: sep ++ s) with ((c :: sep) ++ s). destruct s; by rewrite Hs.
  - assert (c <> x) as Hx by set_solver. apply N.eqb_neq in Hx. cbn [app split_once_str strip_prefix]. rewrite Hx.
    cbn [app] in IH. rewrite IH by set_solver. done.
Qed.

Lemma split_on_Forall (P : char -> Prop) f s : Forall P s -> Forall (Forall P) (split_on f s).
Proof.
  induction 1 as [|c s Hc Hs IH]; simpl; [by repeat constructor|]. destruct (f c); [by constructor|].
  destruct (split_on f s); [by repeat constructor|]. apply Forall_cons in IH as [? ?]. constructor; [by constructor|done].
Qed.

Lemma join_Forall (P : char -> Prop) sep (pieces : list str) : Forall P sep -> Forall (Forall P) pieces -> Forall P (join sep pieces).
Proof.
  intros Hs. induction 1 as [|p pieces Hp H' IH]; [constructor|]. destruct pieces; [done|]. cbn [join].
  rewrite !Forall_app. by split_and!.
Qed.

Lemma contains_str_spec needle s : contains_str needle s = true <-> exists a b, s = a ++ needle ++ b.
Proof.
  induction s as [|c s IH]; cbn [contains_str].
  - rewrite orb_false_r, starts_with_spec. split; [intros [b ->]; by exists [], b|]. intros (a & b & E). exists [].
    symmetry in E. apply app_eq_nil in E as [_ [-> ->]%app_eq_nil]. done.
  - rewrite orb_true_iff, starts_with_spec, IH. split.
    + intros [[b ->]|(a & b & ->)]; [by exists [], b|by exists (c :: a), b].
    + intros ([|x a] & b & E); [left; by exists b|]. injection E as -> ->. right. by exists a, b.
Qed.

Lemma piece_infix sep s piece : piece ∈ split_on (N.eqb sep) s -> exists a b, s = a ++ piece ++ b.
Proof.
  revert piece. induction s as [|c s IH]; intros piece; cbn [split_on].
  - intros ->%list_elem_of_singleton. by exists [], [].
  - destruct (sep =? c)%N.
    + intros [->|Hin]%elem_of_cons; [by exists [], (c :: s)|]. destruct (IH piece Hin) as (a & b & ->). by exists (c :: a), b.
    + assert (exists b, s = hd [] (split_on (N.eqb sep) s) ++ b) as Hhead.
      { clear. induction s as [|c s [b IH]]; cbn [split_on]; [by exists []|]. destruct (sep =? c)%N; [by exists (c :: s)|].
        destruct (split_on _ s) as [|p rest]; cbn [hd] in *; exists b; [|by rewrite IH at 1]. by rewrite IH at 1. }
      destruct (split_on _ s) as [|p rest] eqn:E; [by apply split_on_nonempty in E|].
      intros [->|Hin]%elem_of_cons.
      * destruct Hhead as [b Hb]. cbn [hd] in Hb. exists [], b. cbn [app]. by f_equal.
      * destruct (IH piece) as (a & b & ->); [by right|]. by exists (c :: a), b.
Qed.

Lemma replace_char_none a b s : a ∉ s -> replace_char a b s = s.
Proof.
  induction s as [|c s IH]; [done|]. intros [Hc Hs]%not_elem_of_cons. unfold replace_char in *. cbn [map].
  destruct (N.eqb_spec c a); [congruence|]. by rewrite IH.
Qed.
