(* ===== verification/DotenvParse.v ===== *)
(** * The dotenv parser ([crates/mise-dotenv/src/parse.rs], [key.rs])

    [Parser] is the code's record; a method that takes [&mut self] is a state transformer over
    it. Loops that only walk the source forward recurse on the text left ([rest]); loops that
    jump take fuel, one unit per character left, and [DotenvFacts] proves it is enough. The
    substitution tracker, a shared cell in the code, is state of its own ([M]). *)

From S2P Require Import Prelude RustStr.

(** ** Environment maps of [key.rs], on the platforms where names are case-sensitive *)

Definition key_get {V} (map : gmap str V) (key : str) : option V := map !! key.

Definition key_contains {V} (map : gmap str V) (key : str) : bool :=
  bool_decide (is_Some (key_get map key)).

(** The new map and the previous value. *)
Definition key_insert {V} (map : gmap str V) (key : str) (value : V) : gmap str V * option V :=
  (<[key := value]> map, map !! key).

Definition key_remove {V} (map : gmap str V) (key : str) : gmap str V * option V :=
  (delete key map, map !! key).

(** ** Options, errors and state *)

Record ParseOptions := mkParseOptions { substitution : bool; multiline : bool }.

Definition ParseOptions_new : ParseOptions := mkParseOptions false true.
Definition set_substitution (o : ParseOptions) (enabled : bool) : ParseOptions :=
  mkParseOptions enabled o.(multiline).
Definition set_multiline (o : ParseOptions) (enabled : bool) : ParseOptions :=
  mkParseOptions o.(substitution) enabled.

Inductive ParseErrorKind : Type :=
| MissingKey
| MissingEquals
| InvalidKeyCharacter (character : char)
| InvalidValueCharacter (character : char)
| UnterminatedQuote (quote : char)
| UnterminatedSubstitution
| InvalidSubstitution
| RequiredVariable (name message : str)
| MultilineDisabled.

Record ParseError := mkParseError {
  kind : ParseErrorKind;
  line : nat;
  column : nat;
  byte_offset : nat;
  source_line : str
}.

Inductive ValueStyle : Type := Unquoted | SingleQuoted | DoubleQuoted.

Definition style_eqb (a b : ValueStyle) : bool :=
  match a, b with
  | Unquoted, Unquoted | SingleQuoted, SingleQuoted | DoubleQuoted, DoubleQuoted => true
  | _, _ => false
  end.

(** [Option<Rc<RefCell<HashSet<String>>>>] *)
Definition Tracker : Type := option (gset str).

Record Parser := mkParser {
  source : str;
  position : nat;
  options : ParseOptions;
  base_variables : gmap str str;
  protected_variables : gmap str str;
  parsed_variables : gmap str str;
  substitution_tracker : Tracker;
  input_overrides : bool;
  failed : bool
}.

Definition set_position (p : Parser) (n : nat) : Parser :=
  mkParser p.(source) n p.(options) p.(base_variables) p.(protected_variables)
    p.(parsed_variables) p.(substitution_tracker) p.(input_overrides) p.(failed).
Definition set_parsed (p : Parser) (m : gmap str str) : Parser :=
  mkParser p.(source) p.(position) p.(options) p.(base_variables) p.(protected_variables)
    m p.(substitution_tracker) p.(input_overrides) p.(failed).
Definition set_tracker (p : Parser) (t : Tracker) : Parser :=
  mkParser p.(source) p.(position) p.(options) p.(base_variables) p.(protected_variables)
    p.(parsed_variables) t p.(input_overrides) p.(failed).
Definition set_failed (p : Parser) : Parser :=
  mkParser p.(source) p.(position) p.(options) p.(base_variables) p.(protected_variables)
    p.(parsed_variables) p.(substitution_tracker) p.(input_overrides) true.

(** [Parser::new] *)
Definition Parser_new (source : str) (options : ParseOptions)
    (base_variables protected_variables : gmap str str) (tracker : Tracker)
    (input_overrides : bool) : Parser :=
  let source :=
    match source with
    | c :: rest => if (c =? 0xFEFF)%N then rest else source
    | [] => source
    end in
  mkParser source 0 options base_variables protected_variables ∅ tracker input_overrides false.

(** ** Characters of the syntax *)

Definition is_newline (c : char) : bool := (c =? 10)%N || (c =? 13)%N.

Definition is_horizontal_whitespace (c : char) : bool := is_whitespace c && negb (is_newline c).

Definition is_substitution_start (c : char) : bool := is_ascii_alphabetic c || (c =? c!"_")%N.
Definition is_substitution_continue (c : char) : bool :=
  is_ascii_alphanumeric c || (c =? c!"_")%N.

Definition is_quote (c : char) : bool := (c =? 39)%N || (c =? 34)%N.

Definition backslash : char := 92%N.

(** ** Positions *)

(** [&self.source[self.position..]] *)
Definition rest (p : Parser) : str := str_from p.(source) p.(position).

Definition peek (p : Parser) : option char := head (rest p).

Definition advance (p : Parser) : Parser :=
  match peek p with
  | Some c => set_position p (p.(position) + len_utf8 c)
  | None => p
  end.

Definition at_end (p : Parser) : bool := p.(position) =? len p.(source).

Definition previous (p : Parser) : option char := last (str_to p.(source) p.(position)).

(** Where a walk over [rest] that stops at the first character not satisfying [f] stops. *)
Fixpoint skip_while (f : char -> bool) (rest : str) (pos : nat) : nat :=
  match rest with
  | c :: rest' => if f c then skip_while f rest' (pos + len_utf8 c) else pos
  | [] => pos
  end.

Definition skip_horizontal_whitespace (p : Parser) : Parser :=
  set_position p (skip_while is_horizontal_whitespace (rest p) p.(position)).

Definition consume_newline (p : Parser) : Parser * bool :=
  match peek p with
  | Some 13%N =>
      let p1 := advance p in
      (match peek p1 with Some 10%N => advance p1 | _ => p1 end, true)
  | Some 10%N => (advance p, true)
  | _ => (p, false)
  end.

Definition skip_comment (p : Parser) : Parser :=
  let p1 := set_position p (skip_while (fun c => negb (is_newline c)) (rest p) p.(position)) in
  fst (consume_newline p1).

(** ** Error positions *)

(** The loop of [source_line_and_start]. The code walks bytes; a byte of a character longer
    than one byte is neither [\r] nor [\n], so walking characters visits the same matches. *)
Fixpoint source_line_loop (rest : str) (position byte_offset line line_start : nat) : nat * nat :=
  match rest with
  | [] => (line, line_start)
  | c :: rest' =>
      if position <? byte_offset then
        if (c =? 13)%N then
          match rest' with
          | c2 :: rest'' =>
              if (position + 1 <? byte_offset) && (c2 =? 10)%N
              then source_line_loop rest'' (position + 2) byte_offset (line + 1) (position + 2)
              else source_line_loop rest' (position + 1) byte_offset (line + 1) (position + 1)
          | [] => (line + 1, position + 1)
          end
        else if (c =? 10)%N
        then source_line_loop rest' (position + 1) byte_offset (line + 1) (position + 1)
        else source_line_loop rest' (position + len_utf8 c) byte_offset line line_start
      else (line, line_start)
  end.

Definition source_line_and_start (source : str) (byte_offset : nat) : nat * nat :=
  source_line_loop source 0 byte_offset 1 0.

(** [Parser::error] *)
Definition error (p : Parser) (byte_offset : nat) (k : ParseErrorKind) : ParseError :=
  let byte_offset := Nat.min byte_offset (len p.(source)) in
  let '(line, line_start) := source_line_and_start p.(source) byte_offset in
  let line_end :=
    match find is_newline (str_from p.(source) line_start) with
    | Some position => line_start + position
    | None => len p.(source)
    end in
  let column := length (slice p.(source) line_start byte_offset) + 1 in
  mkParseError k line column byte_offset (slice p.(source) line_start line_end).

(** ** Variables *)

(** Computations of [&self] methods: they only change the tracker. *)
Definition M (A : Type) : Type := SE Tracker ParseError A.

Definition variable (p : Parser) (name : str) : M (option str) :=
  fun tracker =>
    let tracker := match tracker with Some t => Some ({[name]} ∪ t) | None => None end in
    let value :=
      if p.(input_overrides) then
        match key_get p.(parsed_variables) name with
        | Some v => Some v
        | None =>
            match key_get p.(base_variables) name with
            | Some v => Some v
            | None => key_get p.(protected_variables) name
            end
        end
      else
        match key_get p.(protected_variables) name with
        | Some v => Some v
        | None =>
            match key_get p.(parsed_variables) name with
            | Some v => Some v
            | None => key_get p.(base_variables) name
            end
        end in
    (Ok value, tracker).

(** ** Substitutions *)

(** The word loop of [skip_quoted_default]: [rest] starts after the opening quote, at byte
    [offset] of the word. The position after the closing quote, relative to the word. *)
Fixpoint quoted_word_end (quote : char) (rest : str) (offset : nat) (escaped : bool) : option nat :=
  match rest with
  | [] => None
  | c :: rest' =>
      let next := offset + len_utf8 c in
      if escaped then quoted_word_end quote rest' next false
      else if (c =? backslash)%N && (quote =? 34)%N then quoted_word_end quote rest' next true
      else if (c =? quote)%N then Some next
      else quoted_word_end quote rest' next false
  end.

Definition skip_quoted_default (raw : str) (body_start : nat) : nat :=
  let body := str_from raw body_start in
  match body with
  | first :: _ =>
      if is_substitution_start first then
        let name_end :=
          match find (fun c => negb (is_substitution_continue c)) body with
          | Some n => n
          | None => len body
          end in
        let operator := str_from body name_end in
        let operator :=
          match strip_prefix u!":" operator with Some o => o | None => operator end in
        match operator with
        | op :: word =>
            if one_of u!"-?+" op then
              match word with
              | quote :: word_rest =>
                  if is_quote quote then
                    let word_start := len raw - len word in
                    match quoted_word_end quote word_rest (len_utf8 quote) false with
                    | Some e => word_start + e
                    | None => body_start
                    end
                  else body_start
              | [] => body_start
              end
            else body_start
        | [] => body_start
        end
      else body_start
  | [] => body_start
  end.

(** The loop of [find_substitution_end]. *)
Fixpoint find_substitution_end_loop (fuel : nat) (raw : str) (position depth : nat)
  : option nat :=
  match fuel with
  | 0 => None
  | S fuel =>
      if position <? len raw then
        let r := str_from raw position in
        if starts_with u!"${" r then
          find_substitution_end_loop fuel raw (skip_quoted_default raw (position + 2)) (depth + 1)
        else
          match r with
          | [] => None
          | c :: r' =>
              if (c =? backslash)%N then
                let position := position + len_utf8 c in
                let position :=
                  match r' with next :: _ => position + len_utf8 next | [] => position end in
                find_substitution_end_loop fuel raw position depth
              else if (c =? c!"}")%N then
                if depth - 1 =? 0 then Some position
                else find_substitution_end_loop fuel raw (position + len_utf8 c) (depth - 1)
              else find_substitution_end_loop fuel raw (position + len_utf8 c) depth
          end
      else None
  end.

(** [Parser::find_substitution_end] *)
Definition find_substitution_end (raw : str) (position : nat) : option nat :=
  find_substitution_end_loop (S (length raw)) raw (skip_quoted_default raw position) 1.

Definition push_escape (style : ValueStyle) (escaped : char) : str :=
  let decoded :=
    match style with
    | DoubleQuoted =>
        if (escaped =? c!"a")%N then Some 7%N
        else if (escaped =? c!"b")%N then Some 8%N
        else if (escaped =? c!"f")%N then Some 12%N
        else if (escaped =? c!"n")%N then Some 10%N
        else if (escaped =? c!"r")%N then Some 13%N
        else if (escaped =? c!"t")%N then Some 9%N
        else if (escaped =? c!"v")%N then Some 11%N
        else if one_of [backslash; 39%N; 34%N; c!"$"] escaped then Some escaped
        else None
    | SingleQuoted => None
    | Unquoted =>
        if one_of [backslash; 39%N; 34%N; c!"$"; c!"#"; 32%N; 9%N] escaped then Some escaped
        else None
    end in
  match decoded with
  | Some d => [d]
  | None => [backslash; escaped]
  end.

(** The name an expression starts with: the loop over [char_indices]. *)
Definition name_end_of (expression : str) : nat :=
  match expression with
  | first :: r =>
      if is_substitution_start first
      then skip_while is_substitution_continue r (len_utf8 first)
      else 0
  | [] => 0
  end.

(** The first operator that prefixes [remainder], with the word after it. *)
Definition find_operator (remainder : str) : option (str * str) :=
  let try op k := match strip_prefix op remainder with Some w => Some (op, w) | None => k end in
  try u!":-" (try u!":?" (try u!":+" (try u!"-" (try u!"?" (try u!"+" None))))).

(** The two colon-less tests of the code's [match operator] guards. *)
Definition is_op (op : str) (lit : str) : bool := bool_decide (op = lit).

(** [Parser::evaluate_substitution]; [expand_word] is the closure of the same name, taking
    the word and its offset. *)
Definition evaluate_substitution (expand_word : str -> nat -> M str) (p : Parser)
    (expression : str) (source_offset : nat) : M str :=
  match expression with
  | [] => se_fail (error p source_offset InvalidSubstitution)
  | _ =>
    let* exact := variable p expression in
    match exact with
    | Some value => se_ret value
    | None =>
      let name_end := name_end_of expression in
      if name_end =? 0 then se_fail (error p source_offset InvalidSubstitution)
      else
        let name := str_to expression name_end in
        let remainder := str_from expression name_end in
        match remainder with
        | [] => let* v := variable p name in se_ret (default [] v)
        | _ =>
          match find_operator remainder with
          | None => se_fail (error p (source_offset + name_end) InvalidSubstitution)
          | Some (operator, word) =>
            let* value := variable p name in
            let is_set := match value with Some _ => true | None => false end in
            let is_nonempty := match value with Some (_ :: _) => true | _ => false end in
            let word_offset := source_offset + name_end + len operator in
            let required :=
              let* message := expand_word word word_offset in
              se_fail (error p source_offset (RequiredVariable name message)) in
            if is_op operator u!"-" && negb is_set then expand_word word word_offset
            else if is_op operator u!":-" && negb is_nonempty then expand_word word word_offset
            else if is_op operator u!"+" && is_set then expand_word word word_offset
            else if is_op operator u!":+" && is_nonempty then expand_word word word_offset
            else if is_op operator u!"+" || is_op operator u!":+" then se_ret []
            else if is_op operator u!"?" && negb is_set then required
            else if is_op operator u!":?" && negb is_nonempty then required
            else se_ret (default [] value)
          end
        end
    end
  end.

(** Runs [m], turning an error of kind [InvalidSubstitution] into [fallback]. *)
Definition or_literal {A} (m : M A) (fallback : A) : M A :=
  fun t =>
    match m t with
    | (Err e, t') =>
        match e.(kind) with InvalidSubstitution => (Ok fallback, t') | _ => (Err e, t') end
    | r => r
    end.

(** [Parser::expand_dollar]: the position after the expression and the grown output. *)
Definition expand_dollar (expand_word : str -> nat -> M str) (p : Parser) (raw : str)
    (position source_offset : nat) (output : str) : M (nat * str) :=
  let r := str_from raw position in
  match r with
  | [] => se_ret (position, output ++ u!"$")
  | first :: r' =>
    if (first =? c!"$")%N then se_ret (position + 1, output ++ u!"$")
    else if (first =? c!"{")%N then
      let expression_start := position + 1 in
      match find_substitution_end raw expression_start with
      | None => se_fail (error p (source_offset + (position - 1)) UnterminatedSubstitution)
      | Some expression_end =>
        let expression := slice raw expression_start expression_end in
        let* expanded :=
          or_literal (evaluate_substitution expand_word p expression
                        (source_offset + expression_start))
            (u!"${" ++ expression ++ u!"}") in
        se_ret (expression_end + 1, output ++ expanded)
      end
    else if negb (is_substitution_start first) then se_ret (position, output ++ u!"$")
    else
      let name_end := skip_while is_substitution_continue r' (position + len_utf8 first) in
      let* value := variable p (slice raw position name_end) in
      se_ret (name_end, output ++ default [] value)
  end.

(** The loop of [Parser::expand], from [position] with [output] so far. *)
Fixpoint expand_loop (fuel : nat) (p : Parser) (style : ValueStyle) (raw : str)
    (source_offset position : nat) (output : str) : M str :=
  match fuel with
  | 0 => se_fuel
  | S fuel =>
      match str_from raw position with
      | [] => se_ret output
      | character :: r =>
          if (character =? backslash)%N && negb (style_eqb style SingleQuoted) then
            match r with
            | [] => se_ret (output ++ [backslash])
            | escaped :: _ =>
                expand_loop fuel p style raw source_offset
                  (position + len_utf8 character + len_utf8 escaped)
                  (output ++ push_escape style escaped)
            end
          else if (character =? c!"$")%N && p.(options).(substitution)
                  && negb (style_eqb style SingleQuoted) then
            let* (position, output) :=
              expand_dollar (fun word off => expand_loop fuel p style word off 0 [])
                p raw (position + len_utf8 character) source_offset output in
            expand_loop fuel p style raw source_offset position output
          else if (character =? 13)%N then
            let position := position + len_utf8 character in
            let position := match r with 10%N :: _ => position + 1 | _ => position end in
            expand_loop fuel p style raw source_offset position (output ++ [10%N])
          else
            expand_loop fuel p style raw source_offset (position + len_utf8 character)
              (output ++ [character])
      end
  end.

(** [Parser::expand] *)
Definition expand (p : Parser) (raw : str) (source_offset : nat) (style : ValueStyle) : M str :=
  expand_loop (S (length raw)) p style raw source_offset 0 [].

(** ** Values *)

(** Parser methods that take [&mut self]. *)
Definition P (A : Type) : Type := SE Parser ParseError A.

(** A [&self] computation run by a [&mut self] method. *)
Definition lift {A} (m : Parser -> M A) : P A :=
  fun p => let '(r, t) := m p p.(substitution_tracker) in (r, set_tracker p t).

Definition fail_at {A} (p : Parser) (off : nat) (k : ParseErrorKind) : P A :=
  se_fail (error p off k).

(** [Parser::quote_closes_on_line]: the loop over the text after the quote. *)
Fixpoint closes_on_line (quote : char) (escaped : bool) (rest : str) : bool :=
  match rest with
  | [] => false
  | c :: rest' =>
      if is_newline c then false
      else if escaped then closes_on_line quote false rest'
      else if (c =? backslash)%N && (quote =? 34)%N then closes_on_line quote true rest'
      else if (c =? quote)%N then true
      else closes_on_line quote false rest'
  end.

Definition quote_closes_on_line (p : Parser) (quote : char) : bool :=
  closes_on_line quote false (str_from p.(source) (p.(position) + len_utf8 quote)).

(** The scan of [Parser::parse_quoted] from [pos] over [rest]: the position of the closing
    quote, or where the value is at fault. *)
Fixpoint quoted_loop (multi : bool) (quote : char) (style : ValueStyle) (quote_position : nat)
    (rest : str) (pos : nat) (escaped : bool) : result (nat * ParseErrorKind) nat :=
  match rest with
  | [] => Err (quote_position, UnterminatedQuote quote)
  | c :: rest' =>
      if is_newline c then
        if negb multi then Err (pos, MultilineDisabled)
        else
          match rest' with
          | c2 :: rest'' =>
              if (c =? 13)%N && (c2 =? 10)%N
              then quoted_loop multi quote style quote_position rest'' (pos + 2) false
              else quoted_loop multi quote style quote_position rest' (pos + 1) false
          | [] => Err (quote_position, UnterminatedQuote quote)
          end
      else if (c =? 0)%N then Err (pos, InvalidValueCharacter c)
      else if (c =? quote)%N && negb escaped then Ok pos
      else
        let escaped :=
          if (c =? backslash)%N && negb (style_eqb style SingleQuoted) then negb escaped
          else false in
        quoted_loop multi quote style quote_position rest' (pos + len_utf8 c) escaped
  end.

(** [Parser::parse_quoted] *)
Definition parse_quoted (quote : char) (style : ValueStyle) : P str :=
  let* p := se_get in
  let quote_position := p.(position) in
  let p1 := advance p in
  let value_start := p1.(position) in
  match quoted_loop p.(options).(multiline) quote style quote_position (rest p1) value_start false with
  | Err (pos, k) => fail_at p pos k
  | OutOfFuel => se_fuel
  | Ok value_end =>
      let* _ := se_put (set_position p (value_end + len_utf8 quote)) in
      lift (fun p => expand p (slice p.(source) value_start value_end) value_start style)
  end.

(** [trim_unquoted_trailing_whitespace]: [rev] is the value reversed. *)
Fixpoint trim_unquoted_rev (rev : str) : str :=
  match rev with
  | [] => []
  | c :: rev' =>
      if negb (is_horizontal_whitespace c) then rev
      else if Nat.odd (length (take_while (N.eqb backslash) rev')) then rev
      else trim_unquoted_rev rev'
  end.

Definition trim_unquoted_trailing_whitespace (value : str) : str :=
  reverse (trim_unquoted_rev (reverse value)).

(** The scan of [Parser::parse_unquoted]: the parser at the end of the segment and whether the
    value ends there. *)
Fixpoint unquoted_loop (fuel : nat) (p : Parser) (escaped : bool)
  : result (nat * ParseErrorKind) (Parser * bool) :=
  match fuel with
  | 0 => OutOfFuel
  | S fuel =>
      match peek p with
      | None => Ok (p, true)
      | Some c =>
          if is_newline c then Ok (p, true)
          else if (c =? 0)%N then Err (p.(position), InvalidValueCharacter c)
          else if escaped then unquoted_loop fuel (advance p) false
          else if (c =? backslash)%N then unquoted_loop fuel (advance p) true
          else if (c =? c!"$")%N && p.(options).(substitution) then
            let after_dollar := p.(position) + 1 in
            let after := str_from p.(source) after_dollar in
            if starts_with u!"$" after then unquoted_loop fuel (advance (advance p)) false
            else if starts_with u!"{" after then
              let line_end :=
                match find is_newline after with
                | Some offset => after_dollar + offset
                | None => len p.(source)
                end in
              match find_substitution_end (str_to p.(source) line_end) (after_dollar + 1) with
              | Some e =>
                  match find (N.eqb 0) (slice p.(source) after_dollar e) with
                  | Some offset => Err (after_dollar + offset, InvalidValueCharacter 0%N)
                  | None => unquoted_loop fuel (advance (set_position p e)) false
                  end
              | None => unquoted_loop fuel (advance p) false
              end
            else unquoted_loop fuel (advance p) false
          else if is_quote c && quote_closes_on_line p c then Ok (p, false)
          else if (c =? c!"#")%N
                  && match previous p with Some w => is_horizontal_whitespace w | None => false end
          then Ok (p, true)
          else unquoted_loop fuel (advance p) false
      end
  end.

(** [Parser::parse_unquoted] *)
Definition parse_unquoted : P (str * bool) :=
  let* p := se_get in
  let value_start := p.(position) in
  match unquoted_loop (S (length (rest p))) p false with
  | Err (pos, k) => fail_at p pos k
  | OutOfFuel => se_fuel
  | Ok (p1, ended) =>
      let raw := slice p1.(source) value_start p1.(position) in
      let raw := if ended then trim_unquoted_trailing_whitespace raw else raw in
      let* _ := se_put p1 in
      let* value := lift (fun p => expand p raw value_start Unquoted) in
      if ended then
        let* _ := se_modify (fun p =>
          match peek p with
          | Some c => if (c =? c!"#")%N then skip_comment p else fst (consume_newline p)
          | None => fst (consume_newline p)
          end) in
        se_ret (value, ended)
      else se_ret (value, ended)
  end.

(** The loop of [Parser::parse_value]. *)
Fixpoint parse_value_loop (fuel : nat) (value : str) (first_segment : bool) : P str :=
  match fuel with
  | 0 => se_fuel
  | S fuel =>
      let* p := se_get in
      let unquoted :=
        let* (segment, ended) := parse_unquoted in
        if (ended : bool) then se_ret (value ++ segment)
        else parse_value_loop fuel (value ++ segment) false in
      match peek p with
      | Some c =>
          if is_quote c && (first_segment || quote_closes_on_line p c) then
            let style := if (c =? 39)%N then SingleQuoted else DoubleQuoted in
            let* segment := parse_quoted c style in
            parse_value_loop fuel (value ++ segment) false
          else unquoted
      | None => unquoted
      end
  end.

Definition parse_value : P str :=
  let* p := se_get in parse_value_loop (S (length (rest p))) [] true.

(** ** Assignments and entries *)

(** [Parser::consume_export_prefix] *)
Definition consume_export_prefix (p : Parser) : Parser :=
  match strip_prefix u!"export" (rest p) with
  | None => p
  | Some after_export =>
      match after_export with
      | [] => p
      | next :: _ =>
          if negb (is_horizontal_whitespace next) then p
          else skip_horizontal_whitespace (set_position p (p.(position) + len u!"export"))
      end
  end.

(** The key loop of [Parser::parse_assignment]: where the key ends, or the character at fault. *)
Fixpoint key_loop (rest : str) (pos : nat) : result (nat * ParseErrorKind) nat :=
  match rest with
  | [] => Ok pos
  | c :: rest' =>
      if (c =? c!"=")%N || is_horizontal_whitespace c then Ok pos
      else if is_newline c || (c =? c!"#")%N then Ok pos
      else if (c =? 0)%N || is_control c then Err (pos, InvalidKeyCharacter c)
      else key_loop rest' (pos + len_utf8 c)
  end.

(** [Parser::parse_assignment] from the value on. *)
Definition assignment_value : P str :=
  let* p := se_get in
  match peek p with
  | Some c =>
      if is_newline c || (c =? c!"#")%N then
        let* _ := se_modify (fun p =>
          if (c =? c!"#")%N then skip_comment p else fst (consume_newline p)) in
        se_ret []
      else parse_value
  | None => let* _ := se_modify (fun p => fst (consume_newline p)) in se_ret []
  end.

(** [Parser::parse_assignment] after the key. *)
Definition assignment_after_key (key : str) : P (str * str) :=
  let* _ := se_modify skip_horizontal_whitespace in
  let* p := se_get in
  match peek p with
  | Some c =>
      if negb (c =? c!"=")%N then fail_at p p.(position) MissingEquals
      else
        let* _ := se_modify (fun p => skip_horizontal_whitespace (advance p)) in
        let* value := assignment_value in
        se_ret (key, value)
  | None => fail_at p p.(position) MissingEquals
  end.

(** [Parser::parse_assignment] *)
Definition parse_assignment : P (str * str) :=
  let* _ := se_modify consume_export_prefix in
  let* p := se_get in
  let key_start := p.(position) in
  match key_loop (rest p) key_start with
  | OutOfFuel => se_fuel
  | Err (pos, k) => fail_at p pos k
  | Ok key_end =>
      let* _ := se_put (set_position p key_end) in
      if key_end =? key_start then fail_at p key_start MissingKey
      else assignment_after_key (slice p.(source) key_start key_end)
  end.

(** The loop of [Parser::next_entry]. *)
Fixpoint next_entry_loop (fuel : nat) (p : Parser) : option (result ParseError (str * str)) * Parser :=
  match fuel with
  | 0 => (Some OutOfFuel, p)
  | S fuel =>
      let p := skip_horizontal_whitespace p in
      if at_end p then (None, p)
      else
        let '(p1, newline) := consume_newline p in
        if newline then next_entry_loop fuel p1
        else if match peek p with Some c => (c =? c!"#")%N | None => false end
        then next_entry_loop fuel (skip_comment p)
        else
          match parse_assignment p with
          | (Ok (key, value), p) =>
              (Some (Ok (key, value)), set_parsed p (fst (key_insert p.(parsed_variables) key value)))
          | (Err e, p) => (Some (Err e), set_failed p)
          | (OutOfFuel, p) => (Some OutOfFuel, p)
          end
  end.

(** [Parser::next_entry] *)
Definition next_entry (p : Parser) : option (result ParseError (str * str)) * Parser :=
  if p.(failed) then (None, p) else next_entry_loop (S (length (rest p))) p.

(** ** Whole documents ([iter.rs], [lib.rs])

    [Iter::next] hands out the parser's entries; the text has been read already. [entries]
    collects them up to the first error, and is what [parse_partial] and [parse] are. *)
Fixpoint entries (fuel : nat) (p : Parser) : list (str * str) * option (result ParseError unit) * Parser :=
  match fuel with
  | 0 => ([], Some OutOfFuel, p)
  | S fuel =>
      match next_entry p with
      | (None, p) => ([], None, p)
      | (Some (Ok kv), p) => let '(kvs, e, p) := entries fuel p in (kv :: kvs, e, p)
      | (Some (Err e), p) => ([], Some (Err e), p)
      | (Some OutOfFuel, p) => ([], Some OutOfFuel, p)
      end
  end.

Definition all_entries (p : Parser) : list (str * str) * option (result ParseError unit) * Parser :=
  entries (S (length (rest p))) p.

(** The protected variables [parse] and [parse_partial] build from the substitutions given. *)
Definition protect (protected : gmap str str) (substitutions : list (str * str)) : gmap str str :=
  fold_left (fun m kv => fst (key_insert m (fst kv) (snd kv))) substitutions protected.

Definition document_parser (content : str) (substitution : bool) (substitutions : list (str * str))
  : Parser :=
  Parser_new content (set_substitution ParseOptions_new substitution) ∅
    (protect ∅ substitutions) None true.

(** [mise_dotenv::parse_partial] *)
Definition parse_partial (content : str) (substitution : bool) (substitutions : list (str * str))
  : list (str * str) * option (result ParseError unit) :=
  let '(items, e, _) := all_entries (document_parser content substitution substitutions) in
  (items, e).

(** [mise_dotenv::parse] *)
Definition parse (content : str) (substitution : bool) (substitutions : list (str * str))
  : result ParseError (list (str * str)) :=
  let '(items, e, _) := all_entries (document_parser content substitution substitutions) in
  match e with
  | None => Ok items
  | Some (Err e) => Err e
  | Some _ => OutOfFuel
  end.
