(* ===== verification/DotenvFacts.v ===== *)
(** * The dotenv parser: positions, termination, errors

    [WF] says that the parser stands on a character boundary of its source, [Moves] that it
    only went forward. Every method is shown to respect both, which gives termination (each
    entry consumes text) and the absence of slicing panics. *)

From S2P Require Import Prelude RustStr DotenvParse.

(** ** Moving forward *)

Definition WF (p : Parser) : Prop := boundary p.(source) p.(position).

(** Everything but the position and the tracker. *)
Definition frame (p p' : Parser) : Prop :=
  p'.(source) = p.(source) /\ p'.(options) = p.(options) /\
  p'.(base_variables) = p.(base_variables) /\
  p'.(protected_variables) = p.(protected_variables) /\
  p'.(parsed_variables) = p.(parsed_variables) /\
  p'.(input_overrides) = p.(input_overrides) /\
  p'.(failed) = p.(failed).

Definition Moves (p p' : Parser) : Prop :=
  frame p p' /\ exists mid, rest p = mid ++ rest p' /\ p'.(position) = p.(position) + len mid.

(** A method that only moves forward, whatever it returns, and never runs out of fuel. *)
Definition Forward {A} (m : P A) : Prop :=
  forall p r p', WF p -> m p = (r, p') -> Moves p p' /\ is_fuel r = false.

(** Text left to read. *)
Definition remaining (p : Parser) : nat := length (rest p).

(** The lines of [before] that are ended: [\n], [\r] and [\r\n] each end one. *)
Fixpoint line_breaks (before : str) : nat :=
  match before with
  | [] => 0
  | c :: r =>
      if (c =? 13)%N then
        match r with
        | c2 :: r' => if (c2 =? 10)%N then S (line_breaks r') else S (line_breaks r)
        | [] => 1
        end
      else if (c =? 10)%N then S (line_breaks r)
      else line_breaks r
  end.

(** ** Lemmas *)

#[global] Instance frame_preorder : PreOrder frame.
Proof. split; red; unfold frame; intuition congruence. Qed.

Lemma WF_split p : WF p -> p.(source) = str_to p.(source) p.(position) ++ rest p
  /\ len (str_to p.(source) p.(position)) = p.(position).
Proof. apply boundary_split. Qed.

#[global] Instance Moves_preorder : PreOrder Moves.
Proof.
  split; red; unfold Moves.
  - intros p. split; [done|]. exists []. simpl. split; [done|lia].
  - intros p q r [F1 (m1 & R1 & P1)] [F2 (m2 & R2 & P2)].
    split; [by etrans|]. exists (m1 ++ m2). rewrite len_app, R1, R2, app_assoc.
    split; [done|lia].
Qed.

Lemma move_to p mid suf :
  WF p -> rest p = mid ++ suf ->
  Moves p (set_position p (p.(position) + len mid)) /\
  rest (set_position p (p.(position) + len mid)) = suf.
Proof.
  intros Hwf Hr. destruct (WF_split p Hwf) as [Hs Hl]. rewrite Hr in Hs.
  assert (rest (set_position p (p.(position) + len mid)) = suf) as Hrest.
  { unfold rest; simpl. rewrite Hs. rewrite <- Hl at 2. rewrite <- len_app, app_assoc.
    apply str_from_app. }
  split; [|done]. split; [done|]. exists mid. rewrite Hrest. done.
Qed.

Lemma Moves_WF p p' : WF p -> Moves p p' -> WF p'.
Proof.
  intros Hwf [(Hs & _) (mid & Hr & Hp)]. unfold WF. rewrite Hs, Hp.
  destruct (WF_split p Hwf) as [E L].
  exists (str_to p.(source) p.(position) ++ mid), (rest p').
  rewrite <- app_assoc, <- Hr. split; [done|]. rewrite len_app. lia.
Qed.

Lemma Moves_left p p' : Moves p p' -> remaining p' <= remaining p.
Proof. intros [_ (mid & Hr & _)]. unfold remaining. rewrite Hr, length_app. lia. Qed.

Lemma Moves_set_tracker p p' t : Moves p p' -> Moves p (set_tracker p' t).
Proof. done. Qed.

Lemma WF_left_0 p : WF p -> (remaining p = 0 <-> at_end p = true).
Proof.
  intros Hwf. destruct (WF_split p Hwf) as [E L]. unfold remaining, at_end.
  assert (len p.(source) = p.(position) + len (rest p)) as Hl.
  { rewrite E at 1. rewrite len_app. lia. }
  rewrite Nat.eqb_eq, Hl. split.
  - intros H. apply nil_length_inv in H. rewrite H. simpl. lia.
  - intros H. assert (len (rest p) = 0) as H0 by lia. apply len_nil_inv in H0. by rewrite H0.
Qed.

Lemma skip_while_eq f r pos : skip_while f r pos = pos + len (take_while f r).
Proof.
  revert pos. induction r as [|c r IH]; intros pos; simpl; [lia|].
  destruct (f c); simpl; [rewrite IH; lia|lia].
Qed.

Lemma peek_Some p c : peek p = Some c <-> exists r, rest p = c :: r.
Proof.
  unfold peek. destruct (rest p) as [|d r]; simpl; split; try done.
  - by intros [r H].
  - intros [= ->]. by exists r.
  - by intros [r' [= -> ->]].
Qed.

Lemma peek_None p : peek p = None <-> rest p = [].
Proof. unfold peek. by destruct (rest p). Qed.

Lemma advance_moves p : WF p -> Moves p (advance p).
Proof.
  intros Hwf. unfold advance. destruct (peek p) as [c|] eqn:E; [|reflexivity].
  apply peek_Some in E as [r Hr].
  replace (len_utf8 c) with (len [c]) by (simpl; lia).
  by apply (move_to p [c] r).
Qed.

Lemma advance_rest p c r : WF p -> rest p = c :: r ->
  rest (advance p) = r /\ (advance p).(position) = p.(position) + len_utf8 c.
Proof.
  intros Hwf Hr. unfold advance, peek. rewrite Hr. simpl.
  pose proof (move_to p [c] r Hwf Hr) as [_ H]. simpl in H.
  rewrite Nat.add_0_r in H. done.
Qed.

Lemma advance_left p c : WF p -> peek p = Some c -> remaining (advance p) < remaining p.
Proof.
  intros Hwf [r Hr]%peek_Some. unfold remaining.
  destruct (advance_rest p c r Hwf Hr) as [-> _]. rewrite Hr. simpl. lia.
Qed.

Lemma skip_moves f p : WF p ->
  let p' := set_position p (skip_while f (rest p) p.(position)) in
  Moves p p' /\ rest p' = drop_while f (rest p).
Proof.
  intros Hwf. simpl. rewrite skip_while_eq. apply move_to; [done|].
  by rewrite take_drop_while.
Qed.

Lemma skip_hws_moves p : WF p -> Moves p (skip_horizontal_whitespace p).
Proof. intros H. by apply skip_moves. Qed.

Lemma consume_newline_moves p : WF p -> Moves p (fst (consume_newline p)).
Proof.
  intros Hwf. unfold consume_newline. pose proof (advance_moves p Hwf) as H1.
  pose proof (Moves_WF _ _ Hwf H1) as Hwf1. pose proof (advance_moves _ Hwf1) as H2.
  repeat case_match; simplify_eq/=; try done; by etrans.
Qed.

Lemma consume_newline_left p : WF p -> snd (consume_newline p) = true ->
  remaining (fst (consume_newline p)) < remaining p.
Proof.
  intros Hwf. unfold consume_newline. pose proof (advance_moves p Hwf) as H1.
  pose proof (Moves_WF _ _ Hwf H1) as Hwf1.
  pose proof (Moves_left _ _ (advance_moves _ Hwf1)) as Hl2.
  destruct (peek p) as [c|] eqn:Ep; [|done].
  pose proof (advance_left p c Hwf Ep) as Hl.
  intros Hs. repeat case_match; simplify_eq/=; lia.
Qed.

Lemma skip_comment_moves p : WF p -> Moves p (skip_comment p).
Proof.
  intros Hwf. unfold skip_comment.
  destruct (skip_moves (fun c => negb (is_newline c)) p Hwf) as [H _].
  etrans; [exact H|]. apply consume_newline_moves. by eapply Moves_WF.
Qed.

#[export] Hint Resolve advance_moves skip_hws_moves consume_newline_moves skip_comment_moves
  Moves_WF Moves_left Moves_set_tracker : mise.

(** *** Positions inside a raw value *)

Lemma boundary_step s p mid suf :
  boundary s p -> str_from s p = mid ++ suf ->
  boundary s (p + len mid) /\ str_from s (p + len mid) = suf.
Proof.
  intros Hb Hr. destruct (boundary_split s p Hb) as [E L]. rewrite Hr in E.
  assert (p + len mid = len (str_to s p ++ mid)) as Hp by (rewrite len_app; lia).
  rewrite app_assoc in E. split.
  - exists (str_to s p ++ mid), suf. done.
  - rewrite Hp. rewrite E at 1. apply str_from_app.
Qed.

Lemma boundary_step_char s p c suf :
  boundary s p -> str_from s p = c :: suf ->
  boundary s (p + len_utf8 c) /\ str_from s (p + len_utf8 c) = suf.
Proof.
  intros Hb Hr. pose proof (boundary_step s p [c] suf Hb Hr) as H. simpl in H.
  by rewrite Nat.add_0_r in H.
Qed.

(** A position of [s] at or after [p]. *)
Definition after (s : str) (p q : nat) : Prop :=
  boundary s q /\ exists mid, str_from s p = mid ++ str_from s q /\ q = p + len mid.

Lemma after_refl s p : boundary s p -> after s p p.
Proof. intros H. split; [done|]. exists []. simpl. split; [done|lia]. Qed.

Lemma after_trans s p q r : after s p q -> after s q r -> after s p r.
Proof.
  intros [_ (m1 & R1 & P1)] [B2 (m2 & R2 & P2)]. split; [done|].
  exists (m1 ++ m2). rewrite len_app, R1, R2, app_assoc. split; [done|lia].
Qed.

Lemma after_step s p mid suf :
  boundary s p -> str_from s p = mid ++ suf -> after s p (p + len mid).
Proof.
  intros Hb Hr. destruct (boundary_step s p mid suf Hb Hr) as [B R].
  split; [done|]. exists mid. by rewrite R.
Qed.

Lemma after_char s p c suf :
  boundary s p -> str_from s p = c :: suf -> after s p (p + len_utf8 c).
Proof.
  intros Hb Hr. pose proof (after_step s p [c] suf Hb Hr) as H. simpl in H.
  by rewrite Nat.add_0_r in H.
Qed.

Lemma after_length s p q : after s p q -> length (str_from s q) <= length (str_from s p).
Proof. intros [_ (mid & -> & _)]. rewrite length_app. lia. Qed.

Lemma after_length_lt s p q : after s p q -> p < q -> length (str_from s q) < length (str_from s p).
Proof.
  intros [_ (mid & -> & ->)] Hlt. rewrite length_app.
  destruct mid; simpl in *; [lia|]. lia.
Qed.

(** What [after] jumped over is the slice. *)
Lemma after_slice s p q : after s p q ->
  str_from s p = slice s p q ++ str_from s q.
Proof.
  intros [_ (mid & R & ->)]. unfold slice. replace (p + len mid - p) with (len mid) by lia.
  rewrite R at 2. by rewrite str_to_app.
Qed.

Lemma after_boundary s p q : after s p q -> boundary s q.
Proof. by intros [? _]. Qed.

#[export] Hint Resolve after_refl after_boundary after_char after_trans : mise.

Lemma quoted_word_end_spec quote r off esc e :
  quoted_word_end quote r off esc = Some e ->
  exists w1 w2, r = w1 ++ w2 /\ e = off + len w1.
Proof.
  revert off esc. induction r as [|c r IH]; intros off esc; simpl; [done|].
  intros H. assert (Hgo : forall b, quoted_word_end quote r (off + len_utf8 c) b = Some e ->
    exists w1 w2, c :: r = w1 ++ w2 /\ e = off + len w1).
  { intros b (w1 & w2 & -> & ->)%IH. exists (c :: w1), w2. simpl. split; [done|lia]. }
  repeat case_match; eauto. simplify_eq. exists [c], r. simpl. split; [done|lia].
Qed.

Lemma find_at_spec f s p q : find_at f s p = Some q ->
  exists pre c suf, s = pre ++ c :: suf /\ q = p + len pre /\ f c = true /\ forallb (fun x => negb (f x)) pre = true.
Proof.
  revert p. induction s as [|c s IH]; intros p; simpl; [done|].
  destruct (f c) eqn:E.
  - intros [= ->]. exists [], c, s. simpl. rewrite E. split_and!; auto; lia.
  - intros (pre & d & suf & -> & -> & Hf & Hall)%IH.
    exists (c :: pre), d, suf. simpl. rewrite E, Hall. split_and!; auto; lia.
Qed.

Lemma find_at_None f s p : find_at f s p = None <-> forallb (fun x => negb (f x)) s = true.
Proof.
  revert p. induction s as [|c s IH]; intros p; simpl; [done|].
  destruct (f c) eqn:E; simpl; [done|apply IH].
Qed.

(** [name_end] of [skip_quoted_default] is a boundary of the body. *)
Lemma find_or_len_split f s :
  exists pre suf, s = pre ++ suf /\
    match find f s with Some n => n | None => len s end = len pre.
Proof.
  destruct (find f s) as [n|] eqn:E.
  - apply find_at_spec in E as (pre & c & suf & -> & -> & _). by exists pre, (c :: suf).
  - exists s, []. by rewrite app_nil_r.
Qed.

Lemma skip_quoted_default_after raw b :
  boundary raw b -> after raw b (skip_quoted_default raw b).
Proof.
  intros Hb. unfold skip_quoted_default.
  pose proof (after_refl raw b Hb) as Hrefl.
  destruct (str_from raw b) as [|first body] eqn:Ebody; [done|].
  destruct (is_substitution_start first); [|done].
  destruct (find_or_len_split (fun c => negb (is_substitution_continue c)) (first :: body))
    as (name & op & Hsplit & ->).
  rewrite Hsplit, str_from_app.
  set (operator := match strip_prefix _ op with Some o => o | None => op end).
  assert (exists colon, op = colon ++ operator) as [colon Hcolon].
  { unfold operator. destruct (strip_prefix u!":" op) as [o|] eqn:E.
    - apply strip_prefix_Some in E. eauto.
    - by exists []. }
  destruct operator as [|o word]; [done|].
  destruct (one_of _ o); [|done].
  destruct word as [|quote word_rest]; [done|].
  destruct (is_quote quote); [|done].
  destruct (quoted_word_end quote word_rest (len_utf8 quote) false) as [e|] eqn:Ee; [|done].
  apply quoted_word_end_spec in Ee as (w1 & w2 & -> & ->).
  assert (str_from raw b = (name ++ colon ++ [o] ++ [quote] ++ w1) ++ w2) as Hr.
  { rewrite Ebody, Hsplit, Hcolon. rewrite <- !app_assoc. done. }
  pose proof (after_step raw b _ _ Hb Hr) as Ha.
  enough (len raw - len (quote :: w1 ++ w2) + (len_utf8 quote + len w1)
          = b + len (name ++ colon ++ [o] ++ [quote] ++ w1)) as -> by done.
  destruct (boundary_split raw b Hb) as [E L]. rewrite Hr in E.
  rewrite E at 1. rewrite !len_app, L. simpl. rewrite !len_app. lia.
Qed.

(** One turn of the search for the closing brace goes strictly forward. *)
Lemma starts_with_split prefix s : starts_with prefix s = true -> s = prefix ++ drop (length prefix) s.
Proof. intros [r ->]%starts_with_spec. by rewrite drop_app_length. Qed.

Lemma after_backslash raw p c r : boundary raw p -> str_from raw p = c :: r ->
  after raw p (match r with next :: _ => p + len_utf8 c + len_utf8 next | [] => p + len_utf8 c end).
Proof.
  intros Hb Hr. pose proof (after_char _ _ _ _ Hb Hr) as H1.
  destruct r as [|next r]; [done|].
  destruct (boundary_step_char _ _ _ _ Hb Hr) as [Hb1 Hr1].
  eapply after_trans; [exact H1|]. by eapply after_char.
Qed.

Lemma find_end_spec fuel raw p depth q :
  boundary raw p -> find_substitution_end_loop fuel raw p depth = Some q ->
  after raw p q /\ exists r, str_from raw q = c!"}" :: r.
Proof.
  revert p depth. induction fuel as [|fuel IH]; intros p depth Hb; simpl; [done|].
  destruct (p <? len raw); [|done].
  destruct (starts_with _ (str_from raw p)) eqn:Es.
  - intros H. apply starts_with_split in Es.
    destruct (boundary_step raw p u!"${" _ Hb Es) as [Hb2 _]. simpl in Hb2.
    pose proof (after_step raw p u!"${" _ Hb Es) as Ha2. simpl in Ha2.
    pose proof (skip_quoted_default_after raw _ Hb2) as Ha3.
    destruct (IH _ _ (after_boundary _ _ _ Ha3) H) as [Ha4 Hr].
    eauto using after_trans.
  - destruct (str_from raw p) as [|c r] eqn:Er; [done|].
    pose proof (after_char raw p c r Hb Er) as H1.
    pose proof (after_backslash raw p c r Hb Er) as H2.
    assert (Hgo : forall p' d, after raw p p' -> find_substitution_end_loop fuel raw p' d = Some q ->
      after raw p q /\ exists r, str_from raw q = c!"}" :: r).
    { intros p' d Ha H. destruct (IH p' d (after_boundary _ _ _ Ha) H).
      eauto using after_trans. }
    destruct (c =? backslash)%N; [by apply Hgo; destruct r|].
    destruct (N.eqb_spec c c!"}") as [->|]; [|by apply Hgo].
    destruct (depth - 1 =? 0); [|by apply Hgo].
    intros [= ->]. split; [by apply after_refl|]. by exists r.
Qed.

Lemma find_end_after raw p q :
  boundary raw p -> find_substitution_end raw p = Some q ->
  after raw p q /\ exists r, str_from raw q = c!"}" :: r.
Proof.
  intros Hb H. pose proof (skip_quoted_default_after raw p Hb) as Ha.
  destruct (find_end_spec _ _ _ _ _ (after_boundary _ _ _ Ha) H). eauto using after_trans.
Qed.

(** The fuel of the search is enough: more changes nothing. *)
Lemma find_end_fuel fuel raw p depth k :
  boundary raw p -> length (str_from raw p) < fuel ->
  find_substitution_end_loop (fuel + k) raw p depth = find_substitution_end_loop fuel raw p depth.
Proof.
  revert p depth. induction fuel as [|fuel IH]; intros p depth Hb Hf; [lia|]. simpl.
  destruct (p <? len raw); [|done].
  assert (Hgo : forall q d, after raw p q -> p < q ->
    find_substitution_end_loop (fuel + k) raw q d = find_substitution_end_loop fuel raw q d).
  { intros q d Ha Hlt. apply IH; [by eapply after_boundary|].
    pose proof (after_length_lt _ _ _ Ha Hlt). lia. }
  destruct (starts_with _ (str_from raw p)) eqn:Es.
  - apply starts_with_split in Es.
    destruct (boundary_step raw p u!"${" _ Hb Es) as [Hb2 _]. simpl in Hb2.
    pose proof (after_step raw p u!"${" _ Hb Es) as Ha2. simpl in Ha2.
    pose proof (skip_quoted_default_after raw _ Hb2) as Ha3.
    apply Hgo; [by eapply after_trans|].
    destruct Ha3 as [_ (mid & _ & ->)]. lia.
  - destruct (str_from raw p) as [|c r] eqn:Er; [done|].
    pose proof (len_utf8_pos c) as Hc.
    pose proof (after_char raw p c r Hb Er) as H1.
    pose proof (after_backslash raw p c r Hb Er) as H2.
    destruct (c =? backslash)%N; [apply Hgo; destruct r; [done|done|lia|lia]|].
    destruct (c =? _)%N; [destruct (depth - 1 =? 0); [done|]|]; apply Hgo; try done; lia.
Qed.

(** *** Expansion never runs out of fuel *)

Definition NoFuel {A} (m : M A) : Prop := forall t, is_fuel (fst (m t)) = false.

Lemma NoFuel_bind {A B} (m : M A) (k : A -> M B) :
  NoFuel m -> (forall t a t', m t = (Ok a, t') -> NoFuel (k a)) -> NoFuel (se_bind m k).
Proof.
  intros Hm Hk t. unfold se_bind. specialize (Hm t).
  destruct (m t) as [[a|e|] t'] eqn:E; simpl in *; [|done|done]. by eapply Hk.
Qed.

Lemma NoFuel_ret {A} (a : A) : NoFuel (se_ret a).
Proof. done. Qed.
Lemma NoFuel_fail {A} e : NoFuel (se_fail e : M A).
Proof. done. Qed.
Lemma NoFuel_variable p name : NoFuel (variable p name).
Proof. done. Qed.
Lemma NoFuel_or_literal {A} (m : M A) a : NoFuel m -> NoFuel (or_literal m a).
Proof.
  intros Hm t. specialize (Hm t). unfold or_literal.
  destruct (m t) as [[x|e|] t'] eqn:E; simpl in *; try done. by destruct (kind e).
Qed.

#[export] Hint Resolve NoFuel_ret NoFuel_fail NoFuel_variable NoFuel_or_literal : mise.

Lemma find_operator_spec r op w : find_operator r = Some (op, w) -> r = op ++ w.
Proof.
  unfold find_operator.
  repeat case_match; intros [= <- <-];
    match goal with H : strip_prefix _ _ = Some _ |- _ => by apply strip_prefix_Some in H end.
Qed.

(** Words that are expanded are shorter than the expression they come from. *)
Lemma NoFuel_evaluate expand_word p expression off :
  (forall word o, length word <= length expression -> NoFuel (expand_word word o)) ->
  NoFuel (evaluate_substitution expand_word p expression off).
Proof.
  intros Hw. unfold evaluate_substitution.
  destruct expression as [|c e]; [auto with mise|]. set (expression := c :: e) in *.
  apply NoFuel_bind; [auto with mise|]. intros _ [v|] _ _; [auto with mise|].
  destruct (_ =? 0); [auto with mise|].
  destruct (str_from expression _) as [|d r] eqn:Er.
  - apply NoFuel_bind; auto with mise.
  - destruct (find_operator (d :: r)) as [[op word]|] eqn:Eo; [|auto with mise].
    assert (length word <= length expression) as Hlen.
    { apply find_operator_spec in Eo. rewrite Eo in Er.
      assert (forall s n, length (str_from s n) <= length s) as Hle.
      { clear. induction s as [|x s IH]; intros [|n]; simpl; try lia. etrans; [apply IH|lia]. }
      specialize (Hle expression (name_end_of expression)). rewrite Er, length_app in Hle. lia. }
    apply NoFuel_bind; [auto with mise|]. intros _ v _ _.
    assert (forall A (k : str -> M A), (forall s, NoFuel (k s)) ->
      forall o, NoFuel (se_bind (expand_word word o) k)) as Hreq.
    { intros A k Hk o. apply NoFuel_bind; [by apply Hw|]. auto. }
    repeat case_match; auto with mise.
Qed.

Lemma dollar_after ew p raw pos off out pos' out' t t' :
  boundary raw pos -> expand_dollar ew p raw pos off out t = (Ok (pos', out'), t') ->
  after raw pos pos'.
Proof.
  intros Hb. unfold expand_dollar.
  destruct (str_from raw pos) as [|c r] eqn:Er; [intros [= <- _ _]; auto with mise|].
  pose proof (after_char raw pos c r Hb Er) as H1.
  destruct (N.eqb_spec c c!"$") as [->|]; [by intros [= <- _ _]|].
  destruct (N.eqb_spec c c!"{") as [->|].
  - simpl in H1. destruct (find_substitution_end raw (pos + 1)) as [e|] eqn:Ee; [|done].
    destruct (find_end_after raw (pos + 1) e (after_boundary _ _ _ H1) Ee) as [H2 [r' Hr']].
    unfold se_bind. destruct (or_literal _ _ t) as [[x|x|] t1]; intros [= <- _ _].
    pose proof (after_char raw e _ r' (after_boundary _ _ _ H2) Hr'). simpl in *.
    eauto using after_trans.
  - destruct (negb _); [intros [= <- _ _]; auto with mise|].
    unfold se_bind. destruct (variable _ _ t) as [[x|x|] t1]; intros [= <- _ _].
    rewrite skip_while_eq.
    destruct (boundary_step_char raw pos c r Hb Er) as [Hb1 Hr1].
    eapply after_trans; [exact H1|].
    eapply (after_step raw _ _ (drop_while is_substitution_continue r) Hb1).
    by rewrite take_drop_while.
Qed.

Lemma NoFuel_dollar ew p raw pos off out :
  boundary raw pos ->
  (forall word o, length word <= length (str_from raw pos) -> NoFuel (ew word o)) ->
  NoFuel (expand_dollar ew p raw pos off out).
Proof.
  intros Hb Hew. unfold expand_dollar.
  destruct (str_from raw pos) as [|c r] eqn:Er; [auto with mise|].
  pose proof (after_char raw pos c r Hb Er) as H1.
  destruct (c =? c!"$")%N; [auto with mise|].
  destruct (N.eqb_spec c c!"{") as [->|].
  - change (len_utf8 c!"{") with 1 in H1.
    destruct (find_substitution_end raw (pos + 1)) as [e|] eqn:Ee; [|auto with mise].
    destruct (find_end_after raw (pos + 1) e (after_boundary _ _ _ H1) Ee) as [H2 _].
    apply NoFuel_bind; [|auto with mise].
    apply NoFuel_or_literal, NoFuel_evaluate. intros word o Hlen. apply Hew.
    pose proof (after_length _ _ _ H1) as Hl.
    rewrite (after_slice _ _ _ H2), length_app, Er in Hl. lia.
  - destruct (negb _); [auto with mise|]. apply NoFuel_bind; auto with mise.
Qed.

Lemma NoFuel_expand_loop fuel p style raw off pos out :
  boundary raw pos -> length (str_from raw pos) < fuel ->
  NoFuel (expand_loop fuel p style raw off pos out).
Proof.
  revert raw off pos out. induction fuel as [|fuel IH]; intros raw off pos out Hb Hf; [lia|].
  simpl. destruct (str_from raw pos) as [|c r] eqn:Er; [auto with mise|].
  pose proof (after_char raw pos c r Hb Er) as H1.
  destruct (boundary_step_char raw pos c r Hb Er) as [Hb1 Hr1].
  pose proof (after_backslash raw pos c r Hb Er) as H2. simpl in Hf.
  assert (Hgo : forall q o, after raw (pos + len_utf8 c) q ->
    NoFuel (expand_loop fuel p style raw off q o)).
  { intros q o Ha. apply IH; [by eapply after_boundary|].
    apply after_length in Ha. rewrite Hr1 in Ha. lia. }
  destruct ((c =? backslash)%N && _).
  { destruct r as [|e r]; [auto with mise|].
    apply Hgo. by eapply after_char. }
  destruct ((c =? _)%N && _ && _).
  { apply NoFuel_bind.
    - apply NoFuel_dollar; [done|]. intros word o Hlen. apply IH; [auto with mise|].
      rewrite Hr1 in Hlen. rewrite str_from_0. lia.
    - intros t [q o] t' Hd. apply Hgo. by eapply dollar_after. }
  destruct (c =? 13)%N; [|apply Hgo; auto with mise].
  apply Hgo. repeat case_match; subst; auto with mise.
  by eapply (after_char raw _ 10%N).
Qed.

Lemma NoFuel_expand p raw off style : NoFuel (expand p raw off style).
Proof. apply NoFuel_expand_loop; [auto with mise|]. rewrite str_from_0. lia. Qed.

(** *** Methods go forward *)

Lemma lift_spec {A} (m : Parser -> M A) p r p' :
  (forall q, NoFuel (m q)) -> lift m p = (r, p') ->
  (exists t, p' = set_tracker p t) /\ is_fuel r = false.
Proof.
  intros Hm. unfold lift. specialize (Hm p (substitution_tracker p)).
  destruct (m p (substitution_tracker p)) as [r0 t]. intros [= <- <-]. eauto.
Qed.

Lemma quoted_loop_spec multi quote style qp r pos esc :
  match quoted_loop multi quote style qp r pos esc with
  | Ok e => exists mid suf, r = mid ++ quote :: suf /\ e = pos + len mid
  | Err (o, _) => o = qp \/ exists mid suf, r = mid ++ suf /\ o = pos + len mid
  | OutOfFuel => False
  end.
Proof.
  remember (length r) as n eqn:Hn. revert r pos esc Hn.
  induction n as [n IH] using lt_wf_ind; intros r pos esc ->.
  destruct r as [|c r]; [by left|].
  assert (Hgo : forall pre r' pos' e, c :: r = pre ++ r' -> pre <> [] -> pos' = pos + len pre ->
    match quoted_loop multi quote style qp r' pos' e with
    | Ok e => exists mid suf, c :: r = mid ++ quote :: suf /\ e = pos + len mid
    | Err (o, _) => o = qp \/ exists mid suf, c :: r = mid ++ suf /\ o = pos + len mid
    | OutOfFuel => False end).
  { intros pre r' pos' e Hs Hne ->.
    assert (length r' < length (c :: r)) as Hlt.
    { rewrite Hs, length_app. destruct pre; simpl; [done|lia]. }
    specialize (IH _ Hlt r' (pos + len pre) e eq_refl).
    destruct (quoted_loop _ _ _ _ r' _ e) as [q|[o k]|]; [| |done].
    - destruct IH as (mid & suf & -> & ->). exists (pre ++ mid), suf.
      rewrite Hs, len_app, app_assoc. split; [done|lia].
    - destruct IH as [->|(mid & suf & -> & ->)]; [by left|right].
      exists (pre ++ mid), suf. rewrite Hs, len_app, app_assoc. split; [done|lia]. }
  assert (H0 : exists mid suf, c :: r = mid ++ suf /\ pos = pos + len mid).
  { exists [], (c :: r). simpl. split; [done|lia]. }
  cbn [quoted_loop]. destruct (is_newline c) eqn:En.
  - destruct (negb multi); [by right|]. destruct r as [|c2 r]; [by left|].
    assert (len_utf8 c = 1) as Hc.
    { unfold is_newline in En. apply orb_true_iff in En as [?%N.eqb_eq| ?%N.eqb_eq]; by subst. }
    destruct (_ && _) eqn:E2.
    + bool_prop. subst. by apply (Hgo [13%N; 10%N] r).
    + apply (Hgo [c] (c2 :: r)); simpl; [done|done|lia].
  - destruct (c =? 0)%N; [by right|].
    destruct ((c =? quote)%N && _) eqn:E2.
    + bool_prop. subst. exists [], r. simpl. split; [done|lia].
    + apply (Hgo [c] r); simpl; [done|done|lia].
Qed.

Lemma parse_quoted_forward quote style p r p' :
  WF p -> peek p = Some quote -> parse_quoted quote style p = (r, p') ->
  Moves p p' /\ is_fuel r = false /\ ((exists s, r = Ok s) -> remaining p' < remaining p).
Proof.
  intros Hwf Hpk. unfold parse_quoted, se_bind, se_get, se_put, fail_at, se_fail.
  pose proof (advance_moves p Hwf) as Hm1. pose proof (Moves_WF _ _ Hwf Hm1) as Hwf1.
  pose proof (advance_left p quote Hwf Hpk) as Hl1.
  pose proof (quoted_loop_spec (multiline (options p)) quote style (position p)
                (rest (advance p)) (position (advance p)) false) as Hq.
  destruct (quoted_loop _ _ _ _ _ _ _) as [e|[o k]|]; [|intros [= <- <-]|done].
  - destruct Hq as (mid & suf & Hr & ->).
    assert (rest (advance p) = (mid ++ [quote]) ++ suf) as Hr2 by (by rewrite <- app_assoc).
    destruct (move_to _ _ _ Hwf1 Hr2) as [Hm2 Hr3].
    assert (set_position p (position (advance p) + len mid + len_utf8 quote)
      = set_position (advance p) (position (advance p) + len (mid ++ [quote]))) as ->.
    { rewrite len_app. simpl. unfold advance. rewrite Hpk. unfold set_position. simpl.
      f_equal. lia. }
    intros Hlift. apply lift_spec in Hlift as [[t ->] Hf]; [|intros; apply NoFuel_expand].
    split_and!; [eapply Moves_set_tracker; by etrans|done|].
    intros _. apply Moves_left in Hm2. change (remaining (set_tracker ?x t)) with (remaining x). lia.
  - split_and!; [reflexivity|done|]. by intros [s Hs].
Qed.

Lemma str_from_prefix s t p : boundary s p -> str_from (s ++ t) p = str_from s p ++ t.
Proof. intros (pre & suf & -> & ->). by rewrite <- app_assoc, !str_from_app. Qed.

Lemma after_app s t p q : boundary s p -> after s p q -> after (s ++ t) p q.
Proof.
  intros Hb [Hq (mid & Hr & ->)]. split.
  - destruct Hq as (pre & suf & -> & ->). exists pre, (suf ++ t). by rewrite app_assoc.
  - exists mid. rewrite !str_from_prefix by done. by rewrite Hr, app_assoc.
Qed.

Lemma after_moves p q : after p.(source) p.(position) q -> Moves p (set_position p q).
Proof. intros [_ (mid & Hr & ->)]. split; [done|]. by exists mid. Qed.

(** A [${...}] that [parse_unquoted] jumps over is on the line and ahead of the parser. *)
Lemma unquoted_jump p r e :
  WF p -> rest p = c!"$" :: c!"{" :: r ->
  let after_dollar := p.(position) + 1 in
  let line_end :=
    match find is_newline (str_from p.(source) after_dollar) with
    | Some offset => after_dollar + offset
    | None => len p.(source)
    end in
  find_substitution_end (str_to p.(source) line_end) (after_dollar + 1) = Some e ->
  after p.(source) p.(position) e /\ p.(position) < e /\ after p.(source) after_dollar e.
Proof.
  intros Hwf Hr after_dollar line_end.
  destruct (WF_split p Hwf) as [Hs Hl]. set (A := str_to (source p) (position p)) in *.
  rewrite Hr in Hs.
  assert (str_from (source p) after_dollar = c!"{" :: r) as Haf.
  { unfold after_dollar. rewrite Hs, <- Hl. rewrite str_from_app_add. done. }
  assert (exists B1 B2, r = B1 ++ B2 /\ line_end = len (A ++ u!"${" ++ B1)) as (B1 & B2 & -> & Hle).
  { unfold line_end. rewrite Haf. unfold after_dollar, find. cbn [find_at].
    change (is_newline c!"{") with false. cbn iota. change (0 + len_utf8 c!"{") with 1.
    destruct (find_at is_newline r 1) as [off|] eqn:E.
    - apply find_at_spec in E as (pre & c & suf & -> & -> & _).
      exists pre, (c :: suf). rewrite !len_app. change (len u!"${") with 2. split; [done|lia].
    - exists r, []. rewrite app_nil_r. split; [done|]. rewrite Hs at 1. done. }
  assert (source p = (A ++ u!"${" ++ B1) ++ B2) as Hs2.
  { rewrite Hs. rewrite <- !app_assoc. done. }
  rewrite Hle, Hs2. rewrite str_to_app. intros He.
  assert (boundary (A ++ u!"${" ++ B1) (after_dollar + 1)) as Hb.
  { exists (A ++ u!"${"), B1. rewrite <- app_assoc, len_app. change (len u!"${") with 2.
    unfold after_dollar. split; [done|lia]. }
  destruct (find_end_after _ _ _ Hb He) as [Ha _].
  destruct (boundary_step_char _ _ _ _ Hwf Hr) as [Hb1 _].
  change (len_utf8 c!"$") with 1 in Hb1. fold after_dollar in Hb1.
  pose proof (after_char _ _ _ _ Hb1 Haf) as H2. change (len_utf8 c!"{") with 1 in H2.
  pose proof (after_char _ _ _ _ Hwf Hr) as H1. change (len_utf8 c!"$") with 1 in H1.
  fold after_dollar in H1.
  apply (after_app _ B2) in Ha; [|done]. rewrite <- Hs2 in Ha |- *.
  pose proof (after_trans _ _ _ _ H2 Ha) as H3.
  split_and!; [by eapply after_trans| |done]. destruct Ha as [_ (mid & _ & ->)]. unfold after_dollar. lia.
Qed.

(** The scan of an unquoted segment. *)
Lemma unquoted_loop_spec fuel p esc :
  WF p -> remaining p < fuel ->
  match unquoted_loop fuel p esc with
  | Ok (p', ended) =>
      Moves p p' /\
      (ended = false -> exists c, peek p' = Some c /\ is_quote c && quote_closes_on_line p' c = true)
  | Err (o, _) => boundary (source p) o
  | OutOfFuel => False
  end.
Proof.
  revert p esc. induction fuel as [|fuel IH]; intros p esc Hwf Hf; [lia|]. simpl.
  assert (Hgo : forall p1 e, Moves p p1 -> remaining p1 < remaining p ->
    match unquoted_loop fuel p1 e with
    | Ok (p', ended) => Moves p p' /\
        (ended = false -> exists c, peek p' = Some c /\ is_quote c && quote_closes_on_line p' c = true)
    | Err (o, _) => boundary (source p) o
    | OutOfFuel => False
    end).
  { intros p1 e Hm Hlt. specialize (IH p1 e (Moves_WF _ _ Hwf Hm)).
    destruct (unquoted_loop fuel p1 e) as [[p' ended]|[o k]|]; [| |apply IH; lia].
    - destruct IH as [Hm2 Hq]; [lia|]. split; [by etrans|done].
    - destruct Hm as [(Hs & _) _]. rewrite <- Hs. apply IH. lia. }
  destruct (peek p) as [c|] eqn:Epk; [|by split].
  pose proof (advance_moves p Hwf) as Ha. pose proof (Moves_WF _ _ Hwf Ha) as Hwf1.
  pose proof (advance_left p c Hwf Epk) as Hlt.
  destruct (is_newline c); [by split|]. destruct (c =? 0)%N; [done|].
  destruct esc; [by apply Hgo|]. destruct (c =? backslash)%N; [by apply Hgo|].
  destruct ((c =? c!"$")%N && _) eqn:Ed.
  - bool_prop. subst c. apply peek_Some in Epk as [r Hr].
    destruct (boundary_step_char _ _ _ _ Hwf Hr) as [_ Hr1].
    change (len_utf8 c!"$") with 1 in Hr1. rewrite Hr1.
    destruct (starts_with u!"$" r) eqn:E1.
    { apply Hgo; [etrans; eauto with mise|]. pose proof (Moves_left _ _ (advance_moves _ Hwf1)). lia. }
    destruct (starts_with u!"{" r) eqn:E2; [|by apply Hgo].
    apply starts_with_split in E2. simpl in E2.
    destruct (find_substitution_end _ _) as [e|] eqn:Ee; [|by apply Hgo].
    rewrite E2 in Hr. rewrite <- Hr1 in Ee.
    destruct (unquoted_jump p _ e Hwf Hr Ee) as (Haf & Hpos & Haf1).
    destruct (find (N.eqb 0) _) as [nul|] eqn:Enul.
    { apply find_at_spec in Enul as (x & z & y & Hsl & -> & _). simpl.
      destruct (boundary_step_char _ _ _ _ Hwf Hr) as [Hb1 _].
      change (len_utf8 c!"$") with 1 in Hb1.
      apply (boundary_step _ _ x (z :: y ++ str_from (source p) e) Hb1).
      by rewrite (after_slice _ _ _ Haf1), Hsl, <- app_assoc. }
    pose proof (after_moves p e Haf) as Hm. pose proof (Moves_WF _ _ Hwf Hm) as Hwfe.
    apply Hgo; [etrans; eauto with mise|].
    pose proof (after_length_lt _ _ _ Haf Hpos).
    pose proof (Moves_left _ _ (advance_moves _ Hwfe)).
    unfold remaining, rest in *. simpl in *. lia.
  - destruct (is_quote c && _) eqn:Eq.
    { split; [done|]. intros _. by exists c. }
    destruct ((c =? c!"#")%N && _); [by split|]. by apply Hgo.
Qed.

(** A predicate on the outcome of a method started at [p]. *)
Definition Goes {A} (p : Parser) (out : result ParseError A * Parser) : Prop :=
  Moves p (snd out) /\ is_fuel (fst out) = false.

Lemma Goes_bind {A B} (m : P A) (k : A -> P B) p :
  Goes p (m p) -> (forall a p1, m p = (Ok a, p1) -> Moves p p1 -> Goes p1 (k a p1)) ->
  Goes p (se_bind m k p).
Proof.
  intros [Hm Hf] Hk. unfold se_bind. destruct (m p) as [[a|e|] p1]; simpl in *; [|done|done].
  destruct (Hk a p1 eq_refl Hm) as [Hm2 Hf2]. split; [by etrans|done].
Qed.

Lemma Goes_ret {A} (a : A) p : Goes p (se_ret a p).
Proof. by split. Qed.
Lemma Goes_fail {A} p q off k : Goes p ((fail_at q off k : P A) p).
Proof. by split. Qed.
Lemma Goes_modify f p : Moves p (f p) -> Goes p ((se_modify f : P unit) p).
Proof. by split. Qed.

#[export] Hint Resolve Goes_ret Goes_fail Goes_modify : mise.

Lemma end_of_line_moves p : WF p ->
  Moves p (match peek p with
           | Some c => if (c =? c!"#")%N then skip_comment p else fst (consume_newline p)
           | None => fst (consume_newline p)
           end).
Proof. intros Hwf. destruct (peek p) as [c|]; [destruct (c =? _)%N|]; auto with mise. Qed.

Lemma lift_goes {A} (m : Parser -> M A) p : (forall q, NoFuel (m q)) -> Goes p (lift m p).
Proof.
  intros Hm. destruct (lift m p) as [r p'] eqn:E.
  destruct (lift_spec m p r p' Hm E) as [[t ->] Hf].
  split; [by apply Moves_set_tracker|done].
Qed.

(** A segment that does not end the value, started off a quote that opens one, is not empty. *)
Lemma unquoted_progress p p1 :
  Moves p p1 ->
  (exists c, peek p1 = Some c /\ is_quote c && quote_closes_on_line p1 c = true) ->
  (peek p = None \/ exists c, peek p = Some c /\ is_quote c && quote_closes_on_line p c = false) ->
  remaining p1 < remaining p.
Proof.
  intros Hm (c & Hc & Hcl) Hnq. pose proof (Moves_left _ _ Hm) as Hle.
  destruct (decide (remaining p1 = remaining p)) as [Heq|]; [|lia]. exfalso.
  destruct Hm as [(Hsrc & _) (mid & Hr & Hp)].
  assert (mid = []) as -> by (apply nil_length_inv; unfold remaining in Heq;
    rewrite Hr, length_app in Heq; lia).
  simpl in *. unfold peek in Hnq. rewrite Hr in Hnq. unfold peek in Hc. rewrite Hc in Hnq.
  destruct Hnq as [|(d & [= <-] & Hcl')]; [done|].
  unfold quote_closes_on_line in *. rewrite Hsrc, Hp, Nat.add_0_r in Hcl. congruence.
Qed.

Lemma parse_unquoted_forward p r p' :
  WF p -> parse_unquoted p = (r, p') ->
  Moves p p' /\ is_fuel r = false /\
    (forall s, r = Ok (s, false) ->
       (peek p = None \/ exists c, peek p = Some c /\ is_quote c && quote_closes_on_line p c = false) ->
       remaining p' < remaining p).
Proof.
  intros Hwf. unfold parse_unquoted, se_bind, se_get, se_put, se_modify, se_ret, fail_at, se_fail.
  pose proof (unquoted_loop_spec (S (length (rest p))) p false Hwf (Nat.lt_succ_diag_r _)) as Hu.
  destruct (unquoted_loop _ _ _) as [[p1 ended]|[o k]|];
    [|intros [= <- <-]; split_and!; [reflexivity|done|done]|done].
  destruct Hu as [Hm Hq]. pose proof (Moves_WF _ _ Hwf Hm) as Hwf1.
  destruct (lift _ p1) as [v p2] eqn:El.
  apply lift_spec in El as [[t ->] Hf]; [|intros; apply NoFuel_expand].
  assert (WF (set_tracker p1 t)) as Hwf2 by done.
  destruct v as [v|e|]; [|intros [= <- <-]; by split_and!|done].
  destruct ended; intros [= <- <-]; split_and!; try done.
  - etrans; [exact Hm|]. etrans; [|exact (end_of_line_moves _ Hwf2)].
    by apply Moves_set_tracker.
  - intros s _ Hnq. change (remaining (set_tracker p1 t)) with (remaining p1).
    apply unquoted_progress; auto.
Qed.

Lemma value_loop_forward fuel value fs p :
  WF p -> remaining p < fuel -> Goes p (parse_value_loop fuel value fs p).
Proof.
  revert value fs p. induction fuel as [|fuel IH]; intros value fs p Hwf Hf; [lia|].
  cbn [parse_value_loop]. unfold se_bind at 1, se_get.
  assert (Hunq : (peek p = None \/ exists c, peek p = Some c /\ is_quote c && quote_closes_on_line p c = false) ->
    Goes p (se_bind parse_unquoted (fun '(segment, ended) =>
       if (ended : bool) then se_ret (value ++ segment)
       else parse_value_loop fuel (value ++ segment) false) p)).
  { intros Hnq. destruct (parse_unquoted p) as [r p1] eqn:E.
    destruct (parse_unquoted_forward p r p1 Hwf E) as (Hm & Hnf & Hlt).
    apply Goes_bind; [by rewrite E|]. intros [s ended] p2 E2 _. rewrite E in E2. simplify_eq.
    destruct ended; [auto with mise|]. apply IH; [by eapply Moves_WF|].
    specialize (Hlt _ eq_refl Hnq). lia. }
  destruct (peek p) as [c|] eqn:Epk; [|by apply Hunq; left].
  destruct (is_quote c && (fs || quote_closes_on_line p c)) eqn:Eq.
  - destruct (parse_quoted c (if (c =? 39)%N then SingleQuoted else DoubleQuoted) p)
      as [r p1] eqn:E.
    pose proof (parse_quoted_forward _ _ _ _ _ Hwf Epk E) as (Hm & Hnf & Hlt).
    apply Goes_bind; [by rewrite E|]. intros s p2 E2 _. rewrite E in E2. simplify_eq.
    apply IH; [by eapply Moves_WF|]. specialize (Hlt (ex_intro _ s eq_refl)). lia.
  - apply Hunq. right. exists c. split; [done|].
    destruct (is_quote c); simpl in *; [|done]. by apply orb_false_iff in Eq as [_ ->].
Qed.

Lemma parse_value_forward p : WF p -> Goes p (parse_value p).
Proof. intros Hwf. apply value_loop_forward; [done|]. unfold remaining. lia. Qed.

Lemma consume_export_moves p : WF p -> Moves p (consume_export_prefix p).
Proof.
  intros Hwf. unfold consume_export_prefix.
  destruct (strip_prefix u!"export" (rest p)) as [[|c r]|] eqn:E; [done|..|done].
  destruct (negb _); [done|]. apply strip_prefix_Some in E.
  destruct (move_to p _ _ Hwf E) as [Hm _]. etrans; [exact Hm|].
  apply skip_hws_moves. by eapply Moves_WF.
Qed.

Lemma key_loop_spec r pos :
  match key_loop r pos with
  | Ok e | Err (e, _) => exists mid suf, r = mid ++ suf /\ e = pos + len mid
  | OutOfFuel => False
  end.
Proof.
  revert pos. induction r as [|c r IH]; intros pos; simpl; [by exists [], []|].
  assert (exists mid suf, c :: r = mid ++ suf /\ pos = pos + len mid) as H0.
  { exists [], (c :: r). simpl. split; [done|lia]. }
  destruct (_ || _); [done|]. destruct (_ || _); [done|]. destruct (_ || _); [done|].
  specialize (IH (pos + len_utf8 c)).
  destruct (key_loop r _) as [e|[e k]|]; [| |done]; destruct IH as (mid & suf & -> & ->);
    exists (c :: mid), suf; simpl; (split; [done|lia]).
Qed.

Lemma assignment_value_forward p : WF p -> Goes p (assignment_value p).
Proof.
  intros Hwf. unfold assignment_value. apply Goes_bind; [by split|]. intros _ _ [= <- <-] _.
  destruct (peek p) as [c|].
  - destruct (_ || _); [|by apply parse_value_forward].
    apply Goes_bind; [|auto with mise]. apply Goes_modify.
    destruct (c =? _)%N; auto with mise.
  - apply Goes_bind; [|auto with mise]. apply Goes_modify. auto with mise.
Qed.

Lemma assignment_after_key_forward key p : WF p -> Goes p (assignment_after_key key p).
Proof.
  intros Hwf. apply Goes_bind; [auto with mise|]. intros _ q _ Hm1.
  pose proof (Moves_WF _ _ Hwf Hm1) as Hwfq.
  apply Goes_bind; [by split|]. intros _ _ [= <- <-] _.
  destruct (peek q) as [c|]; [|by apply Goes_fail]. destruct (negb _); [by apply Goes_fail|].
  apply Goes_bind.
  { apply Goes_modify. etrans; [by apply advance_moves|]. eauto with mise. }
  intros _ p2 _ Hm2. pose proof (Moves_WF _ _ Hwfq Hm2) as Hwf2.
  apply Goes_bind; [by apply assignment_value_forward|]. auto with mise.
Qed.

(** An assignment goes forward, and past at least its key. *)
Lemma parse_assignment_forward p r p' :
  WF p -> parse_assignment p = (r, p') ->
  Moves p p' /\ is_fuel r = false /\ ((exists kv, r = Ok kv) -> remaining p' < remaining p).
Proof.
  intros Hwf. unfold parse_assignment, se_bind, se_modify, se_get, se_put, fail_at, se_fail.
  pose proof (consume_export_moves p Hwf) as Hm0.
  revert Hm0. generalize (consume_export_prefix p). intros p0 Hm0.
  pose proof (Moves_WF _ _ Hwf Hm0) as Hwf0.
  pose proof (key_loop_spec (rest p0) p0.(position)) as Hk.
  destruct (key_loop _ _) as [e|[o k]|]; [|intros [= <- <-]; split_and!; [done|done|by intros []]|done].
  destruct Hk as (mid & suf & Hr & ->). destruct (move_to p0 _ _ Hwf0 Hr) as [Hm1 Hr1].
  set (p1 := set_position p0 _) in *. pose proof (Moves_WF _ _ Hwf0 Hm1) as Hwf1.
  destruct (Nat.eqb_spec (position p0 + len mid) (position p0)) as [|Hne].
  { intros [= <- <-]. split_and!; [by etrans|done|by intros []]. }
  assert (remaining p1 < remaining p0) as Hlt.
  { unfold remaining. rewrite Hr, Hr1, length_app. destruct mid; simpl in *; lia. }
  intros E. destruct (assignment_after_key_forward
    (slice (source p0) (position p0) (position p0 + len mid)) p1 Hwf1) as [Hm2 Hf].
  rewrite E in Hm2, Hf. simpl in *. split_and!; [etrans; [exact Hm0|by etrans]|done|].
  intros _. apply Moves_left in Hm0, Hm2. lia.
Qed.

(** *** Entries *)

Lemma next_entry_loop_spec fuel p out p' :
  WF p -> remaining p < fuel -> next_entry_loop fuel p = (out, p') ->
  exists q, Moves p q /\
    match out with
    | None => p' = q /\ at_end q = true
    | Some (Ok (key, value)) =>
        p' = set_parsed q (<[key := value]> q.(parsed_variables)) /\ remaining q < remaining p
    | Some (Err e) => p' = set_failed q
    | Some OutOfFuel => False
    end.
Proof.
  revert p. induction fuel as [|fuel IH]; intros p Hwf Hf; [lia|]. simpl.
  pose proof (skip_hws_moves p Hwf) as Hm1. set (p1 := skip_horizontal_whitespace p) in *.
  pose proof (Moves_WF _ _ Hwf Hm1) as Hwf1. pose proof (Moves_left _ _ Hm1) as Hl1.
  assert (Hgo : forall q, Moves p1 q -> remaining q < remaining p1 ->
    next_entry_loop fuel q = (out, p') -> exists q, Moves p q /\
    match out with
    | None => p' = q /\ at_end q = true
    | Some (Ok (key, value)) =>
        p' = set_parsed q (<[key := value]> q.(parsed_variables)) /\ remaining q < remaining p
    | Some (Err e) => p' = set_failed q
    | Some OutOfFuel => False
    end).
  { intros q Hmq Hlq E. apply IH in E as (q' & Hm' & Hout); [|by eapply Moves_WF|lia].
    exists q'. split; [etrans; [exact Hm1|by etrans]|].
    destruct out as [[[k v]|e|]|]; try done. destruct Hout. split; [done|lia]. }
  destruct (at_end p1) eqn:Eend.
  { intros [= <- <-]. exists p1. by split_and!. }
  destruct (consume_newline p1) as [p2 nl] eqn:Enl.
  assert (p2 = fst (consume_newline p1)) as -> by (by rewrite Enl).
  destruct nl.
  { apply Hgo; [auto with mise|]. apply consume_newline_left; [done|by rewrite Enl]. }
  destruct (peek p1) as [c|] eqn:Epk; [destruct (c =? c!"#")%N eqn:Ec|].
  - apply Hgo; [auto with mise|]. unfold skip_comment.
    apply peek_Some in Epk as [r Hr].
    destruct (skip_moves (fun c => negb (is_newline c)) p1 Hwf1) as [Hm2 Hr2].
    set (p3 := set_position p1 _) in *. pose proof (Moves_WF _ _ Hwf1 Hm2) as Hwf3.
    pose proof (Moves_left _ _ (consume_newline_moves p3 Hwf3)).
    assert (remaining p3 < remaining p1); [|lia]. unfold remaining. rewrite Hr2, Hr.
    apply N.eqb_eq in Ec as ->. cbn [drop_while]. change (negb (is_newline c!"#")) with true.
    cbn iota. pose proof (drop_while_length (fun c => negb (is_newline c)) r). simpl. lia.
  - destruct (parse_assignment p1) as [r p2] eqn:Ea.
    destruct (parse_assignment_forward _ _ _ Hwf1 Ea) as (Hm2 & Hnf & Hlt).
    destruct r as [[k v]|e|]; intros [= <- <-]; [| |done]; exists p2; (split; [by etrans|]); [|done].
    split; [done|]. specialize (Hlt (ex_intro _ (k, v) eq_refl)). lia.
  - apply peek_None in Epk. assert (remaining p1 = 0) as H0 by (unfold remaining; by rewrite Epk).
    apply WF_left_0 in H0; [congruence|done].
Qed.

(** The outcome of [next_entry]: what it promises its callers. *)
Definition entry_outcome (p : Parser) (out : option (result ParseError (str * str))) (p' : Parser)
  : Prop :=
  WF p' /\ p'.(source) = p.(source) /\ p.(position) <= p'.(position) /\
  match out with
  | None => p'.(failed) = true \/ at_end p' = true
  | Some (Ok (key, value)) =>
      p.(position) < p'.(position) /\ p'.(failed) = false /\
      p'.(parsed_variables) = <[key := value]> p.(parsed_variables)
  | Some (Err e) => p'.(failed) = true
  | Some OutOfFuel => False
  end.

Definition no_newline (s : str) : bool := forallb (fun c => negb (is_newline c)) s.

(** Nothing, or text that ends with a line break. *)
Definition ends_line (s : str) : bool :=
  match last s with Some c => is_newline c | None => true end.

(** Where an offset of [s] lies: the text before its line, the part of the line before it and
    the rest of the line. *)
Definition locates (s : str) (off : nat) (e : ParseError) : Prop :=
  exists before inline tail,
    s = before ++ inline ++ tail /\
    len (before ++ inline) = off /\
    ends_line before = true /\
    no_newline inline = true /\
    e.(line) = S (line_breaks before) /\
    e.(column) = S (length inline) /\
    e.(byte_offset) = off /\
    e.(source_line) = inline ++ take_while (fun c => negb (is_newline c)) tail.

Lemma Moves_position p p' : Moves p p' ->
  p.(position) <= p'.(position) /\ (remaining p' < remaining p -> p.(position) < p'.(position)).
Proof.
  intros [_ (mid & Hr & ->)]. split; [lia|]. unfold remaining. rewrite Hr, length_app.
  destruct mid; simpl; [lia|]. pose proof (len_utf8_pos n). lia.
Qed.

Lemma next_entry_remaining p out p' :
  WF p -> next_entry p = (out, p') ->
  entry_outcome p out p' /\ ((exists kv, out = Some (Ok kv)) -> remaining p' < remaining p).
Proof.
  intros Hwf. unfold next_entry. destruct (failed p) eqn:Ef.
  { intros [= <- <-]. split; [|by intros []]. unfold entry_outcome. auto. }
  intros E. destruct (next_entry_loop_spec _ _ _ _ Hwf (Nat.lt_succ_diag_r _) E) as (q & Hm & Hout).
  pose proof (Moves_WF _ _ Hwf Hm) as Hwfq. destruct (Moves_position _ _ Hm) as [Hle Hlt].
  pose proof Hm as [(Hs & _ & _ & _ & Hp & _ & Hfq) _].
  destruct out as [[[k v]|e|]|]; [destruct Hout as [-> Hrem]|subst p'|done|destruct Hout as [-> Hend]];
    (split; [split_and!; simpl; auto|try by intros []]).
  - congruence.
  - by rewrite Hp.
Qed.

Lemma entries_spec fuel p items e p' :
  WF p -> remaining p < fuel -> entries fuel p = (items, e, p') ->
  WF p' /\ e <> Some OutOfFuel /\ p'.(source) = p.(source) /\
  p'.(parsed_variables) = fold_left (fun m kv => <[kv.1 := kv.2]> m) items p.(parsed_variables) /\
  match e with None => p.(failed) = true \/ at_end p' = true | Some _ => p'.(failed) = true end.
Proof.
  revert p items. induction fuel as [|fuel IH]; intros p items Hwf Hf; [lia|]. simpl.
  destruct (next_entry p) as [out p1] eqn:En.
  destruct (next_entry_remaining _ _ _ Hwf En) as [(Hwf1 & Hs & _ & Hout) Hlt].
  destruct out as [[[k v]|er|]|]; [|intros [= <- <- <-]|done|intros [= <- <- <-]].
  - destruct (entries fuel p1) as [[its e1] p2] eqn:Ee. intros [= <- <- <-].
    assert (remaining p1 < fuel) as Hf1.
    { specialize (Hlt (ex_intro _ _ eq_refl)). lia. }
    destruct (IH p1 _ Hwf1 Hf1 Ee) as (Hw & Hne & Hs2 & Hp2 & He).
    destruct Hout as (_ & Hfl & Hp1).
    split_and!; [done|done|congruence|by rewrite Hp2, Hp1|].
    destruct e1; [done|]. right. destruct He; [congruence|done].
  - assert (p1.(parsed_variables) = p.(parsed_variables)) as Hp1; [|by split_and!].
    revert En. unfold next_entry. destruct (failed p); [done|]. intros En.
    destruct (next_entry_loop_spec _ _ _ _ Hwf (Nat.lt_succ_diag_r _) En) as (q & [Hfr _] & ->).
    simpl. apply Hfr.
  - assert (p1.(parsed_variables) = p.(parsed_variables)) as Hp1.
    { revert En. unfold next_entry. destruct (failed p); [by intros [= <-]|]. intros En.
      destruct (next_entry_loop_spec _ _ _ _ Hwf (Nat.lt_succ_diag_r _) En) as (q & [Hfr _] & -> & _).
      apply Hfr. }
    split_and!; try done. destruct (failed p) eqn:Ef; [by left|].
    destruct Hout as [Hfl|]; [|by right]. left.
    revert En. unfold next_entry. rewrite Ef. intros En.
    destruct (next_entry_loop_spec _ _ _ _ Hwf (Nat.lt_succ_diag_r _) En) as (q & [Hfr _] & -> & _).
    unfold frame in Hfr. intuition congruence.
Qed.

Lemma all_entries_spec p items e p' :
  WF p -> all_entries p = (items, e, p') ->
  WF p' /\ e <> Some OutOfFuel /\ p'.(source) = p.(source) /\
  p'.(parsed_variables) = fold_left (fun m kv => <[kv.1 := kv.2]> m) items p.(parsed_variables) /\
  match e with None => p.(failed) = true \/ at_end p' = true | Some _ => p'.(failed) = true end.
Proof. intros Hwf. apply entries_spec; [done|]. unfold remaining. lia. Qed.

Lemma Parser_new_WF source options b pr t o : WF (Parser_new source options b pr t o).
Proof. unfold WF. simpl. apply boundary_0. Qed.

(** *** Error positions *)

(** How the text before an offset splits into ended lines and the start of a line, and what
    the walk over it returns. *)
Definition line_split (pre : str) (pos ln ls : nat) (res : nat * nat) : Prop :=
  exists before inline, pre = before ++ inline /\ ends_line before = true /\ no_newline inline = true /\
    res = (ln + line_breaks before, match before with [] => ls | _ => pos + len before end).

Lemma line_split_break br pre pos ln ls res :
  br <> [] -> ends_line br = true ->
  (forall before inline, pre = before ++ inline -> line_breaks (br ++ before) = S (line_breaks before)) ->
  line_split pre (pos + len br) (ln + 1) (pos + len br) res ->
  line_split (br ++ pre) pos ln ls res.
Proof.
  intros Hne Hel Hlb (before & inline & Hp & Hel2 & Hni & ->).
  exists (br ++ before), inline. rewrite Hp, app_assoc. split_and!; [done| |done|].
  { unfold ends_line in *. rewrite last_app. by destruct (last before). }
  rewrite (Hlb _ _ Hp), len_app. destruct br as [|b br]; [done|]. simpl app. cbn iota.
  f_equal; [lia|]. destruct before; simpl; lia.
Qed.

Lemma line_split_char c pre pos ln ls res :
  is_newline c = false ->
  line_split pre (pos + len_utf8 c) ln ls res -> line_split (c :: pre) pos ln ls res.
Proof.
  intros Hc (before & inline & -> & Hel & Hni & ->). pose proof Hc as Hc2. unfold is_newline in Hc2.
  apply orb_false_iff in Hc2 as [H10 H13]. destruct before as [|b before].
  - exists [], (c :: inline). unfold no_newline in *. simpl. by rewrite Hc, Hni.
  - exists (c :: b :: before), inline. split_and!; [done|done|done|].
    assert (line_breaks (c :: b :: before) = line_breaks (b :: before)) as ->.
    { cbn [line_breaks]. by rewrite H13, H10. }
    f_equal. cbn [len]. lia.
Qed.

Lemma source_line_loop_spec pre suf pos ln ls :
  line_split pre pos ln ls (source_line_loop (pre ++ suf) pos (pos + len pre) ln ls).
Proof.
  remember (length pre) as n eqn:Hn. revert pre pos ln ls Hn.
  induction n as [n IH] using lt_wf_ind; intros pre pos ln ls ->.
  destruct pre as [|c pre].
  { exists [], []. cbn [len line_breaks]. split_and!; [done..|].
    rewrite !Nat.add_0_r. destruct suf; simpl; [done|]. by rewrite Nat.ltb_irrefl. }
  pose proof (len_utf8_pos c) as Hc.
  assert (Hlt : (pos <? pos + len (c :: pre)) = true) by (apply Nat.ltb_lt; simpl; lia).
  assert (Hgo : forall r k l s, length r < length (c :: pre) ->
    k + len r = pos + len (c :: pre) ->
    line_split r k l s (source_line_loop (r ++ suf) k (pos + len (c :: pre)) l s)).
  { intros r k l s Hr <-. by eapply IH. }
  cbn [app source_line_loop]. rewrite Hlt.
  destruct (N.eqb_spec c 13) as [->|Hn13]; [|destruct (N.eqb_spec c 10) as [->|Hn10]].
  - destruct (pre ++ suf) as [|c2 r] eqn:Er.
    { apply app_nil in Er as [-> ->]. by exists [13%N], []. }
    destruct ((pos + 1 <? _) && _) eqn:E2.
    + apply andb_true_iff in E2 as [Hp Hc2]. apply N.eqb_eq in Hc2 as ->.
      apply Nat.ltb_lt in Hp.
      destruct pre as [|d pre]; [simpl in Hp; change (len_utf8 13) with 1 in Hp; lia|].
      injection Er as -> <-.
      apply (line_split_break [13%N; 10%N]); [done|done|done|]. apply Hgo; simpl; [lia|].
      change (len_utf8 13) with 1. change (len_utf8 10) with 1. lia.
    + rewrite <- Er. apply (line_split_break [13%N] pre); [done|done| |].
      * intros before inline ->. destruct before as [|d before]; [done|].
        injection Er as -> _. apply andb_false_iff in E2 as [Hp|Hd].
        -- apply Nat.ltb_ge in Hp. simpl in Hp. change (len_utf8 13) with 1 in Hp.
           pose proof (len_utf8_pos c2). lia.
        -- cbn [app line_breaks]. by rewrite Hd.
      * apply Hgo; simpl; [lia|]. change (len_utf8 13) with 1. lia.
  - apply (line_split_break [10%N] pre); [done|done|done|].
    apply Hgo; simpl; [lia|]. change (len_utf8 10) with 1. lia.
  - apply line_split_char.
    + unfold is_newline. apply N.eqb_neq in Hn13, Hn10. by rewrite Hn13, Hn10.
    + apply Hgo; simpl; lia.
Qed.

(** The code's [find(['\n', '\r'])] and slice give the rest of the line. *)
Lemma line_end_take s a :
  boundary s a ->
  slice s a (match find is_newline (str_from s a) with Some n => a + n | None => len s end)
  = take_while (fun c => negb (is_newline c)) (str_from s a).
Proof.
  intros (pre & suf & -> & ->). rewrite str_from_app. unfold slice. rewrite str_from_app.
  destruct (find is_newline suf) as [n|] eqn:E.
  - apply find_at_spec in E as (x & c & y & -> & -> & Hc & Hx).
    replace (len pre + (0 + len x) - len pre) with (len x) by lia.
    rewrite str_to_app, take_while_app_all by done. simpl. rewrite Hc. simpl.
    by rewrite app_nil_r.
  - apply find_at_None in E. rewrite len_app. replace (len pre + len suf - len pre) with (len suf) by lia.
    rewrite str_to_full. rewrite <- (app_nil_r suf) at 2.
    rewrite take_while_app_all by done. by rewrite app_nil_r.
Qed.

Lemma error_locates_at p off k :
  boundary p.(source) off -> locates p.(source) off (error p off k).
Proof.
  intros Hb. pose proof (boundary_le _ _ Hb) as Hle. destruct Hb as (pre & suf & Hs & ->).
  unfold error, source_line_and_start. rewrite Nat.min_l by done. rewrite Hs.
  destruct (source_line_loop_spec pre suf 0 1 0) as (before & inline & -> & Hel & Hni & Heq).
  rewrite Nat.add_0_l in Heq. rewrite Heq.
  assert (match before with [] => 0 | _ => 0 + len before end = len before) as ->
    by (by destruct before).
  rewrite line_end_take.
  2: { exists before, (inline ++ suf). by rewrite <- app_assoc. }
  exists before, inline, suf. simpl. rewrite <- app_assoc. split_and!; try done.
  - rewrite len_app, slice_app. lia.
  - rewrite str_from_app. by apply take_while_app_all.
Qed.

(** *** Every error is located

    [located src e]: the error describes an offset of [src] on a character boundary. *)

Definition located (src : str) (e : ParseError) : Prop :=
  exists off, boundary src off /\ locates src off e.

(** [raw] is the text of [src] at [off]. *)
Definition sub_at (src raw : str) (off : nat) : Prop :=
  exists a c, src = a ++ raw ++ c /\ len a = off.

Definition Located {A} (src : str) (m : M A) : Prop :=
  forall t e t', m t = (Err e, t') -> located src e.

Lemma sub_at_boundary src raw off q : sub_at src raw off -> boundary raw q -> boundary src (off + q).
Proof.
  intros (a & c & -> & <-) (x & y & -> & ->). exists (a ++ x), (y ++ c).
  rewrite len_app, <- !app_assoc. done.
Qed.

Lemma sub_at_drop src raw off x y : sub_at src raw off -> raw = x ++ y -> sub_at src y (off + len x).
Proof.
  intros (a & c & -> & <-) ->. exists (a ++ x), c. rewrite len_app, <- !app_assoc. done.
Qed.

Lemma sub_at_take src raw off x y : sub_at src raw off -> raw = x ++ y -> sub_at src x off.
Proof. intros (a & c & -> & <-) ->. exists a, (y ++ c). by rewrite <- !app_assoc. Qed.

Lemma sub_at_slice src raw off q r :
  sub_at src raw off -> boundary raw q -> after raw q r -> sub_at src (slice raw q r) (off + q).
Proof.
  intros Hs Hq Ha. destruct (boundary_split raw q Hq) as [E L].
  rewrite (after_slice _ _ _ Ha) in E. rewrite <- L at 2.
  eapply sub_at_take; [|done]. by eapply sub_at_drop.
Qed.

Lemma sub_at_str_to src raw off q : sub_at src raw off -> boundary raw q -> sub_at src (str_to raw q) off.
Proof.
  intros Hs Hq. destruct (boundary_split raw q Hq) as [E _]. by eapply sub_at_take.
Qed.

Lemma error_located p off k : boundary p.(source) off -> located p.(source) (error p off k).
Proof. intros Hb. exists off. split; [done|]. by apply error_locates_at. Qed.

Lemma Located_fail {A} p off k : boundary p.(source) off -> Located (source p) (se_fail (error p off k) : M A).
Proof. intros Hb t e t' [= <- _]. by apply error_located. Qed.
Lemma Located_ret {A} src (a : A) : Located src (se_ret a).
Proof. by intros t e t'. Qed.
Lemma Located_variable src p n : Located src (variable p n).
Proof. by intros t e t'. Qed.

Lemma Located_bind {A B} src (m : M A) (k : A -> M B) :
  Located src m -> (forall t a t', m t = (Ok a, t') -> Located src (k a)) ->
  Located src (se_bind m k).
Proof.
  intros Hm Hk t e t'. unfold se_bind. destruct (m t) as [[a|e'|] t1] eqn:E.
  - by eapply Hk.
  - intros [= <- <-]. by eapply Hm.
  - done.
Qed.

Lemma Located_or_literal {A} src (m : M A) a : Located src m -> Located src (or_literal m a).
Proof.
  intros Hm t e t'. unfold or_literal. destruct (m t) as [[x|e'|] t1] eqn:E; [done| |done].
  specialize (Hm _ _ _ E). destruct (kind e'); by intros [= <- <-].
Qed.

#[local] Hint Resolve Located_ret Located_variable Located_or_literal Located_fail : mise.

Lemma name_end_boundary e : boundary e (name_end_of e).
Proof.
  unfold name_end_of. destruct e as [|c e]; [auto with mise|].
  destruct (is_substitution_start c); [|auto with mise].
  rewrite skip_while_eq. exists (c :: take_while is_substitution_continue e),
    (drop_while is_substitution_continue e). simpl. by rewrite take_drop_while.
Qed.

Lemma Located_evaluate ew p expression off :
  sub_at (source p) expression off ->
  (forall word o, length word <= length expression -> sub_at (source p) word o ->
     Located (source p) (ew word o)) ->
  Located (source p) (evaluate_substitution ew p expression off).
Proof.
  intros Hsub Hew. unfold evaluate_substitution.
  assert (Hb0 : boundary (source p) off).
  { rewrite <- (Nat.add_0_r off). eapply sub_at_boundary; [done|]. auto with mise. }
  destruct expression as [|c e]; [auto with mise|]. set (ex := c :: e) in *.
  apply Located_bind; [auto with mise|]. intros _ [v|] _ _; [auto with mise|].
  destruct (_ =? 0); [auto with mise|].
  pose proof (name_end_boundary ex) as Hne. destruct (boundary_split _ _ Hne) as [Esp Lsp].
  set (ne := name_end_of ex) in *.
  destruct (str_from ex ne) as [|d r] eqn:Er; [apply Located_bind; auto with mise|].
  destruct (find_operator (d :: r)) as [[op word]|] eqn:Eo.
  2: { apply Located_fail. by eapply sub_at_boundary. }
  apply find_operator_spec in Eo. rewrite Eo, app_assoc in Esp.
  assert (sub_at (source p) word (off + ne + len op)) as Hword.
  { replace (off + ne + len op) with (off + len (str_to ex ne ++ op)) by (rewrite len_app; lia).
    eapply sub_at_drop; [exact Hsub|exact Esp]. }
  assert (Located (source p) (ew word (off + ne + len op))) as Hw.
  { apply Hew; [|done]. rewrite Esp, length_app. lia. }
  apply Located_bind; [auto with mise|]. intros _ v _ _.
  assert (forall n, Located (source p) (se_bind (ew word (off + ne + len op)) (fun message =>
    se_fail (error p off (RequiredVariable n message)) : M str))) as Hreq.
  { intros n. apply Located_bind; auto with mise. }
  repeat case_match; auto with mise.
Qed.

Lemma Located_dollar ew p raw pos off out :
  boundary raw pos -> 1 <= pos -> boundary raw (pos - 1) -> sub_at (source p) raw off ->
  (forall word o, length word <= length (str_from raw pos) -> sub_at (source p) word o ->
     Located (source p) (ew word o)) ->
  Located (source p) (expand_dollar ew p raw pos off out).
Proof.
  intros Hb Hpos Hb1 Hsub Hew. unfold expand_dollar.
  destruct (str_from raw pos) as [|c r] eqn:Er; [auto with mise|].
  pose proof (after_char raw pos c r Hb Er) as H1.
  destruct (c =? c!"$")%N; [auto with mise|].
  destruct (N.eqb_spec c c!"{") as [->|].
  - change (len_utf8 c!"{") with 1 in H1.
    destruct (find_substitution_end raw (pos + 1)) as [e|] eqn:Ee.
    2: { apply Located_fail. by eapply sub_at_boundary. }
    destruct (find_end_after raw (pos + 1) e (after_boundary _ _ _ H1) Ee) as [H2 _].
    apply Located_bind; [|auto with mise].
    apply Located_or_literal, Located_evaluate.
    + eapply sub_at_slice; [done|by eapply after_boundary|done].
    + intros word o Hlen. apply Hew.
      pose proof (after_length _ _ _ H1) as Hl.
      rewrite (after_slice _ _ _ H2), length_app, Er in Hl. lia.
  - destruct (negb _); [auto with mise|]. apply Located_bind; auto with mise.
Qed.

Lemma Located_expand_loop fuel p style raw off pos out :
  boundary raw pos -> sub_at (source p) raw off ->
  Located (source p) (expand_loop fuel p style raw off pos out).
Proof.
  revert raw off pos out. induction fuel as [|fuel IH]; intros raw off pos out Hb Hsub; [done|].
  simpl. destruct (str_from raw pos) as [|c r] eqn:Er; [auto with mise|].
  pose proof (after_char raw pos c r Hb Er) as H1.
  destruct (boundary_step_char raw pos c r Hb Er) as [Hb1 Hr1].
  destruct ((c =? backslash)%N && _).
  { destruct r as [|e r]; [auto with mise|]. apply IH; [|done].
    eapply after_boundary. by eapply after_char. }
  destruct ((c =? _)%N && _ && _) eqn:Ed.
  { bool_prop. subst c. change (len_utf8 c!"$") with 1 in *.
    apply Located_bind.
    - apply Located_dollar; [done|lia|by rewrite Nat.add_sub|done|].
      intros word o _ Hw. apply IH; [auto with mise|done].
    - intros t [q o] t' Hd. apply IH; [|done]. eapply after_boundary. by eapply dollar_after. }
  destruct (c =? 13)%N; [|by apply IH]. apply IH; [|done].
  repeat case_match; subst; try done. by eapply after_boundary, (after_char raw _ 10%N).
Qed.

Lemma Located_expand p raw off style :
  sub_at (source p) raw off -> Located (source p) (expand p raw off style).
Proof. apply Located_expand_loop. auto with mise. Qed.

Definition ELoc {A} (p : Parser) (out : result ParseError A * Parser) : Prop :=
  match out.1 with Err e => located (source p) e | _ => True end.

Lemma ELoc_bind {A B} (m : P A) (k : A -> P B) p :
  Goes p (m p) -> ELoc p (m p) ->
  (forall a p1, m p = (Ok a, p1) -> Moves p p1 -> ELoc p1 (k a p1)) ->
  ELoc p (se_bind m k p).
Proof.
  intros [Hm _] He Hk. unfold se_bind. destruct (m p) as [[a|e|] p1]; simpl in *; [|done|done].
  specialize (Hk a p1 eq_refl Hm). destruct Hm as [(Hs & _) _].
  unfold ELoc in *. rewrite <- Hs. destruct (k a p1) as [[]]; done.
Qed.

Lemma ELoc_fail {A} p off k : boundary (source p) off -> ELoc p ((fail_at p off k : P A) p).
Proof. intros Hb. by apply error_located. Qed.

Lemma ELoc_from {A} p p1 (out : result ParseError A * Parser) :
  Moves p p1 -> ELoc p1 out -> ELoc p out.
Proof. intros [(Hs & _) _]. unfold ELoc. by rewrite Hs. Qed.

Lemma ELoc_lift_expand p raw off style :
  sub_at (source p) raw off -> ELoc p (lift (fun p => expand p raw off style) p).
Proof.
  intros Hsub. unfold ELoc, lift.
  destruct (expand p raw off style (substitution_tracker p)) as [[a|e|] t] eqn:E; simpl; try done.
  by eapply Located_expand.
Qed.

(** The text between two positions of a run is at the first one. *)
Lemma sub_at_moves p p' : WF p -> Moves p p' ->
  sub_at (source p') (slice (source p') p.(position) p'.(position)) p.(position).
Proof.
  intros Hwf [(Hs & _) (mid & Hr & ->)]. rewrite Hs.
  destruct (WF_split p Hwf) as [E L]. exists (str_to (source p) (position p)), (rest p').
  unfold slice. replace (position p + len mid - position p) with (len mid) by lia.
  fold (rest p). rewrite Hr, str_to_app. split; [|done]. by rewrite <- Hr.
Qed.

Lemma trim_unquoted_rev_suffix r : exists y, r = y ++ trim_unquoted_rev r.
Proof.
  induction r as [|c r [y IH]]; simpl; [by exists []|].
  destruct (negb _); [by exists []|]. destruct (Nat.odd _); [by exists []|].
  exists (c :: y). simpl. by f_equal.
Qed.

Lemma trim_unquoted_prefix s : exists y, s = trim_unquoted_trailing_whitespace s ++ y.
Proof.
  unfold trim_unquoted_trailing_whitespace.
  destruct (trim_unquoted_rev_suffix (reverse s)) as [y Hy].
  exists (reverse y). rewrite <- reverse_app, <- Hy. by rewrite reverse_involutive.
Qed.

Lemma parse_quoted_located quote style p :
  WF p -> peek p = Some quote -> ELoc p (parse_quoted quote style p).
Proof.
  intros Hwf Hpk. unfold parse_quoted, se_bind, se_get, se_put.
  pose proof (advance_moves p Hwf) as Hm1. pose proof (Moves_WF _ _ Hwf Hm1) as Hwf1.
  pose proof (quoted_loop_spec (multiline (options p)) quote style (position p)
                (rest (advance p)) (position (advance p)) false) as Hq.
  assert (Hsrc : source (advance p) = source p) by apply Hm1.
  destruct (quoted_loop _ _ _ _ _ _ _) as [e|[o k]|]; [| |done].
  - destruct Hq as (mid & suf & Hr & ->).
    set (p2 := set_position p _).
    apply (ELoc_lift_expand p2). simpl. rewrite <- Hsrc.
    destruct (move_to _ _ _ Hwf1 Hr) as [Hm2 _]. by apply (sub_at_moves _ _ Hwf1 Hm2).
  - apply ELoc_fail. destruct Hq as [->|(mid & suf & Hr & ->)]; [done|].
    rewrite <- Hsrc. by eapply boundary_step.
Qed.

Lemma parse_unquoted_located p : WF p -> ELoc p (parse_unquoted p).
Proof.
  intros Hwf. unfold parse_unquoted, se_bind, se_get, se_put, se_modify, se_ret.
  pose proof (unquoted_loop_spec (S (length (rest p))) p false Hwf (Nat.lt_succ_diag_r _)) as Hu.
  destruct (unquoted_loop _ _ _) as [[p1 ended]|[o k]|]; [|by apply ELoc_fail|done].
  destruct Hu as [Hm _]. eapply ELoc_from; [exact Hm|].
  set (raw := if ended then _ else _).
  assert (sub_at (source p1) raw (position p)) as Hsub.
  { pose proof (sub_at_moves _ _ Hwf Hm) as H. unfold raw. destruct ended; [|done].
    destruct (trim_unquoted_prefix (slice (source p1) (position p) (position p1))) as [y Hy].
    eapply sub_at_take; [exact H|exact Hy]. }
  pose proof (ELoc_lift_expand p1 raw (position p) Unquoted Hsub) as He.
  destruct (lift _ p1) as [[v|e|] p2]; [|exact He|done]. by destruct ended.
Qed.

Lemma value_loop_located fuel value fs p :
  WF p -> remaining p < fuel -> ELoc p (parse_value_loop fuel value fs p).
Proof.
  revert value fs p. induction fuel as [|fuel IH]; intros value fs p Hwf Hf; [done|].
  cbn [parse_value_loop]. unfold se_bind at 1, se_get.
  assert (Hunq : (peek p = None \/ exists c, peek p = Some c /\ is_quote c && quote_closes_on_line p c = false) ->
    ELoc p (se_bind parse_unquoted (fun '(segment, ended) =>
       if (ended : bool) then se_ret (value ++ segment)
       else parse_value_loop fuel (value ++ segment) false) p)).
  { intros Hnq. destruct (parse_unquoted p) as [r p1] eqn:E.
    destruct (parse_unquoted_forward p r p1 Hwf E) as (Hm & Hnf & Hlt).
    apply ELoc_bind; [by rewrite E|by apply parse_unquoted_located|].
    intros [s ended] p2 E2 _. rewrite E in E2. simplify_eq.
    destruct ended; [done|]. apply IH; [by eapply Moves_WF|].
    specialize (Hlt _ eq_refl Hnq). lia. }
  destruct (peek p) as [c|] eqn:Epk; [|by apply Hunq; left].
  destruct (is_quote c && (fs || quote_closes_on_line p c)) eqn:Eq.
  - destruct (parse_quoted c (if (c =? 39)%N then SingleQuoted else DoubleQuoted) p)
      as [r p1] eqn:E.
    pose proof (parse_quoted_forward _ _ _ _ _ Hwf Epk E) as (Hm & Hnf & Hlt).
    apply ELoc_bind; [by rewrite E|by apply parse_quoted_located|].
    intros s p2 E2 _. rewrite E in E2. simplify_eq.
    apply IH; [by eapply Moves_WF|]. specialize (Hlt (ex_intro _ s eq_refl)). lia.
  - apply Hunq. right. exists c. split; [done|].
    destruct (is_quote c); simpl in *; [|done]. by apply orb_false_iff in Eq as [_ ->].
Qed.

Lemma assignment_value_located p : WF p -> ELoc p (assignment_value p).
Proof.
  intros Hwf. unfold assignment_value, se_bind, se_get, se_modify, se_ret.
  destruct (peek p) as [c|]; [|done]. destruct (_ || _); [done|].
  apply value_loop_located; [done|]. unfold remaining. lia.
Qed.

Lemma assignment_after_key_located key p : WF p -> ELoc p (assignment_after_key key p).
Proof.
  intros Hwf. apply ELoc_bind; [auto with mise|done|]. intros _ q _ Hm1.
  pose proof (Moves_WF _ _ Hwf Hm1) as Hwfq. unfold se_bind at 1, se_get.
  destruct (peek q) as [c|]; [|by apply ELoc_fail]. destruct (negb _); [by apply ELoc_fail|].
  apply ELoc_bind; [|done|].
  { apply Goes_modify. etrans; [by apply advance_moves|]. eauto with mise. }
  intros _ p2 _ Hm2. pose proof (Moves_WF _ _ Hwfq Hm2) as Hwf2.
  apply ELoc_bind; [by apply assignment_value_forward|by apply assignment_value_located|done].
Qed.

Lemma parse_assignment_located p : WF p -> ELoc p (parse_assignment p).
Proof.
  intros Hwf. unfold parse_assignment, se_bind, se_modify, se_get, se_put.
  pose proof (consume_export_moves p Hwf) as Hm0. eapply ELoc_from; [exact Hm0|].
  revert Hm0. generalize (consume_export_prefix p). intros p0 Hm0.
  pose proof (Moves_WF _ _ Hwf Hm0) as Hwf0.
  pose proof (key_loop_spec (rest p0) p0.(position)) as Hk.
  destruct (key_loop _ _) as [e|[o k]|]; [| |done]; destruct Hk as (mid & suf & Hr & ->).
  - destruct (move_to p0 _ _ Hwf0 Hr) as [Hm1 Hr1]. pose proof (Moves_WF _ _ Hwf0 Hm1) as Hwf1.
    destruct (_ =? _); [by apply error_located|].
    eapply ELoc_from; [exact Hm1|]. by apply assignment_after_key_located.
  - apply ELoc_fail. by eapply boundary_step.
Qed.

Lemma next_entry_loop_located fuel p e p' :
  WF p -> next_entry_loop fuel p = (Some (Err e), p') -> located (source p) e.
Proof.
  revert p. induction fuel as [|fuel IH]; intros p Hwf; [done|]. simpl.
  pose proof (skip_hws_moves p Hwf) as Hm1. revert Hm1. generalize (skip_horizontal_whitespace p).
  intros p1 Hm1. pose proof (Moves_WF _ _ Hwf Hm1) as Hwf1.
  assert (source p1 = source p) as <- by apply Hm1.
  assert (Hgo : forall q, Moves p1 q -> next_entry_loop fuel q = (Some (Err e), p') ->
    located (source p1) e).
  { intros q Hm E. apply IH in E; [|by eapply Moves_WF]. destruct Hm as [(<- & _) _]. done. }
  destruct (at_end p1); [done|].
  destruct (consume_newline p1) as [p2 nl] eqn:Enl.
  assert (p2 = fst (consume_newline p1)) as -> by (by rewrite Enl).
  destruct nl; [apply Hgo; auto with mise|].
  destruct (match peek p1 with Some _ => _ | None => _ end); [apply Hgo; auto with mise|].
  pose proof (parse_assignment_located p1 Hwf1) as He.
  destruct (parse_assignment p1) as [[[k v]|er|] p2] eqn:Ea; intros [= <- <-]. exact He.
Qed.

Lemma entries_located fuel p items e p' :
  WF p -> entries fuel p = (items, Some (Err e), p') -> located (source p) e.
Proof.
  revert p items. induction fuel as [|fuel IH]; intros p items Hwf; [done|]. simpl.
  destruct (next_entry p) as [out p1] eqn:En.
  destruct (next_entry_remaining _ _ _ Hwf En) as [(Hwf1 & Hs & _ & Hout) _].
  destruct out as [[kv|er|]|]; [|intros [= <- <- <-]|done|done].
  - destruct (entries fuel p1) as [[its e1] p2] eqn:Ee. intros [= <- -> <-].
    rewrite <- Hs. by eapply IH.
  - revert En. unfold next_entry. destruct (failed p); [done|]. by apply next_entry_loop_located.
Qed.
