(* ===== verification/DotenvRender.v ===== *)
(** * Rendering dotenv documents ([crates/mise-dotenv/src/render.rs])

    The renderer and its contract with the parser: a document that [render] produces parses
    back to the assignments it was rendered from. *)

From S2P Require Import Prelude RustStr DotenvParse DotenvFacts.

Inductive RenderError : Type :=
| EmptyKey
| RInvalidKeyCharacter (character : char)
| RInvalidValueCharacter (character : char).

(** [has_closing_quote]: the loop over the text after the quote. *)
Fixpoint has_closing_quote (rest : str) (quote : char) (escaped : bool) : bool :=
  match rest with
  | [] => false
  | c :: rest' =>
      if escaped then has_closing_quote rest' quote false
      else if (c =? backslash)%N && (quote =? 34)%N then has_closing_quote rest' quote true
      else if (c =? quote)%N then true
      else has_closing_quote rest' quote false
  end.

(** The first loop of [is_unquoted_safe]: comments and quotes. *)
Fixpoint unquoted_scan (value : str) (escaped : bool) (previous : option char) : bool :=
  match value with
  | [] => true
  | c :: value' =>
      if (c =? 0)%N || is_newline c then false
      else if is_quote c && negb escaped && has_closing_quote value' c false then false
      else if (c =? c!"#")%N
              && match previous with None => true | Some w => is_horizontal_whitespace w end
              && negb escaped then false
      else unquoted_scan value' ((c =? backslash)%N && negb escaped) (Some c)
  end.

(** The second loop of [is_unquoted_safe]: no escape the parser would decode. *)
Fixpoint literal_escapes (value : str) : bool :=
  match value with
  | [] => true
  | c :: value' =>
      if negb (c =? backslash)%N then literal_escapes value'
      else match value' with
           | [] => true
           | escaped :: value'' =>
               if one_of [backslash; 39%N; 34%N; c!"$"; c!"#"; 32%N; 9%N] escaped then false
               else literal_escapes value''
           end
  end.

(** An unescaped horizontal whitespace ends the value; [rev] is the value reversed. *)
Definition unescaped_trailing_whitespace (rev : str) : bool :=
  match rev with
  | last :: rev' =>
      is_horizontal_whitespace last
      && (length (take_while (N.eqb backslash) rev') mod 2 =? 0)
  | [] => false
  end.

Definition is_unquoted_safe (value : str) : bool :=
  match value with
  | [] => true
  | first :: _ =>
      if one_of [39%N; 34%N; c!"#"; 10%N; 13%N] first || is_horizontal_whitespace first then false
      else if unescaped_trailing_whitespace (reverse value) then false
      else unquoted_scan value false None && literal_escapes value
  end.

(** One character of a double-quoted value. *)
Definition render_char (c : char) : str :=
  if (c =? 7)%N then [backslash; c!"a"]
  else if (c =? 8)%N then [backslash; c!"b"]
  else if (c =? 12)%N then [backslash; c!"f"]
  else if (c =? 10)%N then [backslash; c!"n"]
  else if (c =? 13)%N then [backslash; c!"r"]
  else if (c =? 9)%N then [backslash; c!"t"]
  else if (c =? 11)%N then [backslash; c!"v"]
  else if (c =? backslash)%N then [backslash; backslash]
  else if (c =? 34)%N then [backslash; 34%N]
  else if (c =? c!"$")%N then [backslash; c!"$"]
  else [c].

Definition render_value (value : str) : result RenderError str :=
  if contains_char 0 value then Err (RInvalidValueCharacter 0)
  else if is_unquoted_safe value then Ok value
  else Ok ([34%N] ++ flat_map render_char value ++ [34%N]).

Definition invalid_key_character (c : char) : bool :=
  one_of [c!"="; c!"#"] c || is_whitespace c || is_control c.

Definition validate_key (key : str) : result RenderError unit :=
  match key with
  | [] => Err EmptyKey
  | first :: _ =>
      if (first =? 0xFEFF)%N then Err (RInvalidKeyCharacter 0xFEFF)
      else match List.find invalid_key_character key with
           | Some c => Err (RInvalidKeyCharacter c)
           | None => Ok tt
           end
  end.

Definition render_var (key value : str) : result RenderError str :=
  let? _ := validate_key key in
  let? value := render_value value in
  Ok (key ++ [c!"="] ++ value).

(** The loop of [render], with the document so far. *)
Fixpoint render_loop (document : str) (variables : list (str * str)) : result RenderError str :=
  match variables with
  | [] => Ok document
  | (key, value) :: variables' =>
      let document := match document with [] => document | _ => document ++ [10%N] end in
      let? line := render_var key value in
      render_loop (document ++ line) variables'
  end.

Definition render (variables : list (str * str)) : result RenderError str :=
  render_loop [] variables.

(** Text the parser takes to end a line: nothing, or a line feed. *)
Definition tail_ok (tail : str) : Prop := tail = [] \/ exists t, tail = 10%N :: t.

(** ** Lemmas *)

Lemma odd_mod2 n : Nat.odd n = negb (n mod 2 =? 0).
Proof.
  rewrite <- Nat.bit0_odd, Nat.bit0_eqb.
  pose proof (Nat.mod_upper_bound n 2 ltac:(lia)).
  destruct (n mod 2) as [|[|k]]; try reflexivity; lia.
Qed.

Lemma trim_unquoted_safe value :
  unescaped_trailing_whitespace (reverse value) = false ->
  trim_unquoted_trailing_whitespace value = value.
Proof.
  unfold trim_unquoted_trailing_whitespace, unescaped_trailing_whitespace. intros H.
  assert (trim_unquoted_rev (reverse value) = reverse value) as ->; [|by rewrite reverse_involutive].
  destruct (reverse value) as [|l r]; [done|]. cbn [trim_unquoted_rev]. rewrite odd_mod2.
  destruct (is_horizontal_whitespace l); [|done]. cbn [andb] in H. by rewrite H.
Qed.

Lemma closes_on_line_eq quote r tail esc :
  forallb (fun c => negb (is_newline c)) r = true -> tail_ok tail ->
  closes_on_line quote esc (r ++ tail) = has_closing_quote r quote esc.
Proof.
  intros Hn Ht. revert esc Hn. induction r as [|c r IH]; intros esc Hn; simpl in *.
  - by destruct Ht as [->|[t ->]].
  - bool_prop. rewrite H. repeat case_match; auto.
Qed.

Lemma unquoted_scan_lines v esc prev :
  unquoted_scan v esc prev = true -> forallb (fun c => negb (is_newline c)) v = true.
Proof.
  revert esc prev. induction v as [|c v IH]; intros esc prev; simpl; [done|].
  destruct (is_newline c); simpl; [by rewrite orb_true_r|].
  repeat case_match; try done; eauto.
Qed.

Lemma previous_advance p c r : WF p -> rest p = c :: r -> previous (advance p) = Some c.
Proof.
  intros Hwf Hr. unfold previous.
  destruct (boundary_split _ _ Hwf) as [E L]. fold (rest p) in E. rewrite Hr in E.
  destruct (advance_rest p c r Hwf Hr) as [_ ->].
  assert (source (advance p) = source p) as -> by (unfold advance; by destruct (peek p)).
  assert (position p + len_utf8 c = len (str_to (source p) (position p) ++ [c])) as ->.
  { rewrite len_app, L. simpl. lia. }
  rewrite E at 1. rewrite (cons_middle c), app_assoc, str_to_app. apply last_snoc.
Qed.

Lemma set_position_advance p n : set_position (advance p) n = set_position p n.
Proof. unfold advance. by destruct (peek p). Qed.

(** The parser's scan stops where the rendered value ends. *)
Lemma unquoted_loop_safe fuel p v tail esc prev :
  WF p -> p.(options).(substitution) = false -> tail_ok tail ->
  rest p = v ++ tail -> length v < fuel ->
  unquoted_scan v esc prev = true -> (prev = None \/ previous p = prev) ->
  unquoted_loop fuel p esc = Ok (set_position p (p.(position) + len v), true).
Proof.
  revert p v esc prev. induction fuel as [|fuel IH]; intros p v esc prev Hwf Hsub Ht Hr Hf Hs Hp; [lia|].
  cbn [unquoted_loop]. destruct v as [|c v].
  { simpl in Hr. rewrite Nat.add_0_r. replace (set_position p (position p)) with p by by destruct p.
    unfold peek. rewrite Hr. by destruct Ht as [->|[t ->]]. }
  pose proof Hr as Hpk. simpl in Hpk.
  assert (peek p = Some c) as -> by (unfold peek; by rewrite Hpk).
  destruct (advance_rest p c (v ++ tail) Hwf Hpk) as [Hr' Hp'].
  pose proof (unquoted_scan_lines _ _ _ Hs) as Hl. simpl in Hl, Hs.
  assert (Hgo : forall esc', unquoted_scan v esc' (Some c) = true ->
    unquoted_loop fuel (advance p) esc' = Ok (set_position p (p.(position) + len (c :: v)), true)).
  { intros esc' Hs'. rewrite (IH (advance p) v esc' (Some c)); auto with mise.
    - by rewrite Hp', set_position_advance, <- Nat.add_assoc.
    - eapply Moves_WF; [exact Hwf|auto with mise].
    - unfold advance. by destruct (peek p).
    - simpl in Hf. lia.
    - right. by eapply previous_advance. }
  destruct (is_newline c); [by rewrite orb_true_r in Hs|]. destruct (c =? 0)%N; [done|].
  simpl in Hl, Hs. rewrite Hsub, andb_false_r.
  unfold quote_closes_on_line.
  assert (str_from (source p) (position p + len_utf8 c) = v ++ tail) as ->
    by by apply (boundary_step_char _ _ c).
  rewrite closes_on_line_eq by done.
  destruct esc; simpl in Hs; [|rewrite !andb_true_r in Hs].
  { apply Hgo. rewrite !andb_false_r in Hs. done. }
  destruct (c =? backslash)%N eqn:Eb.
  { apply Hgo. by repeat case_match. }
  destruct (is_quote c && has_closing_quote v c false); [done|].
  destruct (c =? c!"#")%N; simpl in *; [|by apply Hgo].
  destruct Hp as [->| ->]; [done|].
  destruct prev as [w|]; [|done]. destruct (is_horizontal_whitespace w); [done|by apply Hgo].
Qed.

(** Unquoted text without decodable escapes expands to itself. *)
Lemma expand_loop_literal fuel p raw off pos v out t :
  p.(options).(substitution) = false -> boundary raw pos -> str_from raw pos = v ->
  length v < fuel -> literal_escapes v = true -> no_newline v = true ->
  expand_loop fuel p Unquoted raw off pos out t = (Ok (out ++ v), t).
Proof.
  intros Hsub. revert pos v out. induction fuel as [|fuel IH]; intros pos v out Hb Hr Hf He Hn; [lia|].
  cbn [expand_loop]. rewrite Hr. destruct v as [|c v]; [by rewrite app_nil_r|].
  destruct (boundary_step_char _ _ _ _ Hb Hr) as [Hb1 Hr1].
  rewrite Hsub, !andb_true_r, andb_false_r. unfold no_newline in *.
  cbn [literal_escapes forallb length] in He, Hn, Hf.
  destruct (c =? backslash)%N eqn:Eb; cbn [negb] in He; bool_prop.
  - subst c. destruct v as [|e v]; [done|]. destruct (boundary_step_char _ _ _ _ Hb1 Hr1) as [Hb2 Hr2].
    destruct (one_of _ e) eqn:Eo; [done|]. cbn [forallb length] in Hf, H0. bool_prop.
    rewrite (IH _ v); try done; [|lia]. unfold push_escape. rewrite Eo. by rewrite <- app_assoc.
  - destruct (c =? 13)%N eqn:E13; [unfold is_newline in H; by rewrite E13, orb_true_r in H|].
    rewrite (IH _ v); try done; [|lia]. by rewrite <- app_assoc.
Qed.

(** What one rendered character looks like: itself, or an escape that decodes to it. *)
Lemma render_char_cases c :
  (render_char c = [c] /\ c <> backslash /\ c <> 34%N /\ is_newline c = false /\ c <> c!"$") \/
  (exists e, render_char c = [backslash; e] /\ push_escape DoubleQuoted e = [c] /\
     is_newline e = false /\ e <> 0%N /\ len_utf8 e = 1).
Proof.
  unfold render_char, is_newline.
  repeat match goal with |- context [if (c =? ?k)%N then _ else _] =>
    destruct (N.eqb_spec c k) as [->|?];
      [right; eexists; (split; [reflexivity|]); repeat split; discriminate|] end.
  left. split_and!; try done.
Qed.

Lemma expand_loop_rendered fuel p raw off pos v out t :
  p.(options).(substitution) = false -> boundary raw pos ->
  str_from raw pos = flat_map render_char v -> length (flat_map render_char v) < fuel ->
  expand_loop fuel p DoubleQuoted raw off pos out t = (Ok (out ++ v), t).
Proof.
  intros Hsub. revert pos v out. induction fuel as [|fuel IH]; intros pos v out Hb Hr Hf; [lia|].
  cbn [expand_loop]. rewrite Hr. destruct v as [|c v]; [by rewrite app_nil_r|].
  simpl in Hr, Hf. cbn [flat_map]. rewrite length_app in Hf.
  destruct (render_char_cases c) as [(E & Hc & _ & Hn & _)|(e & E & He & _)]; rewrite E in *; cbn [app].
  - destruct (boundary_step_char _ _ _ _ Hb Hr) as [Hb1 Hr1].
    apply N.eqb_neq in Hc. unfold is_newline in Hn. apply orb_false_iff in Hn as [_ Hn].
    rewrite Hc, Hsub, andb_false_r, Hn. cbn [andb].
    rewrite (IH _ v); try done; [by rewrite <- app_assoc|simpl in Hf; lia].
  - destruct (boundary_step_char _ _ _ _ Hb Hr) as [Hb1 Hr1].
    destruct (boundary_step_char _ _ _ _ Hb1 Hr1) as [Hb2 Hr2].
    rewrite N.eqb_refl, He. cbn [andb negb style_eqb]. rewrite (IH _ v); try done; [by rewrite <- app_assoc|simpl in Hf; lia].
Qed.

Lemma quoted_loop_rendered multi qp v tail pos :
  forallb (fun c => negb (c =? 0)%N) v = true ->
  quoted_loop multi 34%N DoubleQuoted qp (flat_map render_char v ++ 34%N :: tail) pos false
    = Ok (pos + len (flat_map render_char v)).
Proof.
  revert pos. induction v as [|c v IH]; intros pos Hv; simpl in *; [by rewrite Nat.add_0_r|].
  apply andb_true_iff in Hv as [H0 Hv]. apply negb_true_iff in H0. rewrite len_app, <- app_assoc.
  destruct (render_char_cases c) as [(-> & Hc & Hq & Hn & _)|(e & -> & _ & Hn & He & Hl)].
  - simpl. rewrite Hn. apply N.eqb_neq in Hq, Hc. rewrite H0, Hq, Hc. simpl.
    rewrite IH by done. f_equal; lia.
  - simpl. rewrite Hn. apply N.eqb_neq in He. rewrite He. simpl.
    rewrite andb_false_r. rewrite Hl. change (len_utf8 backslash) with 1.
    destruct (e =? backslash)%N; simpl; rewrite IH by done; f_equal; lia.
Qed.

(** ** One rendered line *)

Lemma set_tracker_same p : set_tracker p (substitution_tracker p) = p.
Proof. by destruct p. Qed.

Lemma set_position_same p : set_position p (position p) = p.
Proof. by destruct p. Qed.

Lemma rest_end p v tail : WF p -> rest p = v ++ tail ->
  WF (set_position p (position p + len v)) /\ rest (set_position p (position p + len v)) = tail.
Proof. intros Hwf Hr. destruct (move_to p v tail Hwf Hr). split; [by eapply Moves_WF|done]. Qed.

Lemma slice_rest p v tail : rest p = v ++ tail ->
  slice (source p) (position p) (position p + len v) = v.
Proof.
  intros Hr. unfold slice. fold (rest p). rewrite Hr.
  replace (position p + len v - position p) with (len v) by lia. apply str_to_app.
Qed.

(** Where the parser goes after a line. *)
Definition skip_newline (p : Parser) : Parser := fst (consume_newline p).

Lemma parse_unquoted_safe p v tail :
  WF p -> p.(options).(substitution) = false -> tail_ok tail -> rest p = v ++ tail ->
  unquoted_scan v false None = true -> literal_escapes v = true ->
  unescaped_trailing_whitespace (reverse v) = false ->
  parse_unquoted p = (Ok (v, true), skip_newline (set_position p (position p + len v))).
Proof.
  intros Hwf Hsub Ht Hr Hs He Hw. unfold parse_unquoted, se_bind, se_get.
  rewrite (unquoted_loop_safe _ p v tail false None); try done; [| |by left];
    [|rewrite Hr, length_app; lia].
  cbn [source set_position position].
  rewrite (slice_rest p v tail), trim_unquoted_safe by done. unfold se_put, lift, expand.
  rewrite (expand_loop_literal _ _ v _ 0 v); try done; [|apply boundary_0|apply str_from_0|lia|by eapply unquoted_scan_lines].
  cbn [app]. rewrite set_tracker_same. unfold se_modify, se_ret.
  destruct (rest_end p v tail Hwf Hr) as [_ Hr2]. unfold peek. rewrite Hr2.
  by destruct Ht as [->|[t ->]].
Qed.

Lemma value_loop_unquoted fuel p v tail value first :
  WF p -> p.(options).(substitution) = false -> tail_ok tail -> rest p = v ++ tail ->
  unquoted_scan v false None = true -> literal_escapes v = true ->
  unescaped_trailing_whitespace (reverse v) = false ->
  match v with c :: _ => is_quote c = false | [] => True end ->
  parse_value_loop (S fuel) value first p
    = (Ok (value ++ v), skip_newline (set_position p (position p + len v))).
Proof.
  intros Hwf Hsub Ht Hr Hs He Hw Hq. cbn [parse_value_loop]. unfold se_bind at 1, se_get.
  assert (match peek p with Some c => is_quote c = false | None => True end) as Hpk.
  { unfold peek. rewrite Hr. destruct v; [|done]. by destruct Ht as [->|[t ->]]. }
  assert (forall (X : P str), (match peek p with
    | Some c => if is_quote c && (first || quote_closes_on_line p c) then X else
        let* (segment, ended) := parse_unquoted in
        if (ended : bool) then se_ret (value ++ segment) else parse_value_loop fuel (value ++ segment) false
    | None => let* (segment, ended) := parse_unquoted in
        if (ended : bool) then se_ret (value ++ segment) else parse_value_loop fuel (value ++ segment) false
    end) p = (Ok (value ++ v), skip_newline (set_position p (position p + len v)))) as Hgo.
  { intros X. assert (Hu := parse_unquoted_safe p v tail Hwf Hsub Ht Hr Hs He Hw).
    destruct (peek p) as [c|]; [rewrite Hpk|]; cbn [andb]; unfold se_bind; by rewrite Hu. }
  unfold peek in *. destruct (head (rest p)); [apply Hgo|]. apply (Hgo se_fuel).
Qed.

Lemma rendered_quoted p v tail :
  WF p -> p.(options).(substitution) = false -> forallb (fun c => negb (c =? 0)%N) v = true ->
  rest p = (34%N :: flat_map render_char v ++ [34%N]) ++ tail ->
  parse_quoted 34 DoubleQuoted p
    = (Ok v, set_position p (position p + len (34%N :: flat_map render_char v ++ [34%N]))).
Proof.
  intros Hwf Hsub Hv Hr. unfold parse_quoted, se_bind, se_get. pose proof Hr as Hpk. simpl in Hpk.
  rewrite <- app_assoc in Hpk. simpl in Hpk.
  destruct (advance_rest p _ _ Hwf Hpk) as [Hr1 Hp1]. rewrite Hr1.
  rewrite quoted_loop_rendered by done. unfold se_put, lift, expand. rewrite Hp1.
  change (len_utf8 34) with 1. cbn [source set_position position].
  assert (slice (source p) (position p + 1) (position p + 1 + len (flat_map render_char v))
    = flat_map render_char v) as ->.
  { rewrite <- Hp1 at 1 2. assert (source p = source (advance p)) as ->
      by (unfold advance; by destruct (peek p)). by eapply slice_rest. }
  rewrite (expand_loop_rendered _ _ _ _ 0 v); try done; [|apply boundary_0|apply str_from_0|lia].
  cbn [app len]. rewrite set_tracker_same, len_app. cbn [len]. change (len_utf8 34) with 1.
  f_equal. unfold set_position; cbn [source position options base_variables protected_variables
    parsed_variables substitution_tracker input_overrides failed]. f_equal. lia.
Qed.

Lemma contains_char_false c v : contains_char c v = false ->
  forallb (fun x => negb (x =? c)%N) v = true.
Proof.
  unfold contains_char. induction v as [|x v IH]; simpl; [done|]. rewrite (N.eqb_sym x).
  intros H. bool_prop. rewrite IH by done. apply N.eqb_neq in H. by rewrite H.
Qed.

Lemma parse_value_rendered p v txt tail :
  WF p -> p.(options).(substitution) = false -> tail_ok tail ->
  render_value v = Ok txt -> txt <> [] -> rest p = txt ++ tail ->
  parse_value p = (Ok v, skip_newline (set_position p (position p + len txt))).
Proof.
  intros Hwf Hsub Ht Hv Hne Hr. unfold parse_value, se_bind, se_get.
  unfold render_value in Hv. destruct (contains_char 0 v) eqn:E0; [done|].
  destruct (is_unquoted_safe v) eqn:Es; injection Hv as <-.
  - destruct v as [|c v]; [done|]. unfold is_unquoted_safe in Es.
    destruct (one_of [39%N; 34%N; c!"#"; 10%N; 13%N] c) eqn:Eo; [done|].
    destruct (is_horizontal_whitespace c); [done|]. cbn [orb] in Es.
    destruct (unescaped_trailing_whitespace _) eqn:Ew; [done|]. bool_prop.
    apply (value_loop_unquoted _ p (c :: v) tail [] true); auto.
    unfold one_of in Eo. simpl in Eo. bool_prop. unfold is_quote.
    apply orb_false_iff; split; by apply N.eqb_neq.
  - pose proof (rendered_quoted p v tail Hwf Hsub) as Hq.
    destruct (rest_end p _ tail Hwf Hr) as [Hwf2 Hr2].
    remember (length (rest p)) as n eqn:En. cbn [parse_value_loop]. unfold se_bind at 1, se_get.
    assert (peek p = Some 34%N) as -> by (unfold peek; by rewrite Hr).
    change (is_quote 34 && (true || quote_closes_on_line p 34)) with true. cbn iota.
    change (34 =? 39)%N with false. cbn iota.
    rewrite (se_bind_ok _ _ _ _ _ (Hq (contains_char_false _ _ E0) Hr)).
    rewrite Hr in En. destruct n as [|n]; [done|].
    rewrite (value_loop_unquoted _ _ [] tail); try done. simpl. by rewrite app_nil_r, Nat.add_0_r.
Qed.

Lemma skip_hws_none p :
  match rest p with c :: _ => is_horizontal_whitespace c = false | [] => True end ->
  skip_horizontal_whitespace p = p.
Proof.
  unfold skip_horizontal_whitespace. destruct (rest p) as [|c r]; simpl; [|intros ->];
    intros; apply set_position_same.
Qed.

Definition plain_key (key : str) : Prop :=
  key <> [] /\ head key <> Some 0xFEFF%N /\
  Forall (fun c => invalid_key_character c = false) key.

Lemma validate_key_Ok key : validate_key key = Ok tt <-> plain_key key.
Proof.
  unfold plain_key, validate_key. destruct key as [|c key]; [naive_solver|].
  destruct (N.eqb_spec c 0xFEFF) as [->|Hne]; [naive_solver|].
  destruct (List.find invalid_key_character (c :: key)) as [x|] eqn:E.
  - apply List.find_some in E as [Hin Hx]. split; [done|]. intros (_ & _ & H).
    rewrite Forall_forall in H. apply list_elem_of_In in Hin. apply H in Hin. congruence.
  - split; [|done]. intros _. split_and!; [done|simpl; congruence|]. apply Forall_forall.
    intros x Hx. apply list_elem_of_In in Hx. by eapply List.find_none in E.
Qed.

Lemma invalid_key_character_false c : invalid_key_character c = false ->
  (c =? c!"=")%N = false /\ (c =? c!"#")%N = false /\ is_horizontal_whitespace c = false /\
  is_newline c = false /\ is_control c = false /\ (c =? 0)%N = false.
Proof.
  unfold invalid_key_character, one_of. simpl.
  intros [[[H1 [H4 _]%orb_false_iff]%orb_false_iff H2]%orb_false_iff H3]%orb_false_iff.
  assert (is_newline c = false) as Hn.
  { apply not_true_iff_false. intros [H%N.eqb_eq|H%N.eqb_eq]%orb_true_iff; by subst c. }
  unfold is_horizontal_whitespace. rewrite H2. split_and!; auto.
  apply not_true_iff_false. intros H%N.eqb_eq; by subst c.
Qed.

Lemma key_loop_plain key r pos :
  Forall (fun c => invalid_key_character c = false) key ->
  key_loop (key ++ c!"=" :: r) pos = Ok (pos + len key).
Proof.
  intros Hk. revert pos. induction Hk as [|c key Hc Hk IH]; intros pos; simpl; [f_equal; lia|].
  destruct (invalid_key_character_false c Hc) as (-> & -> & -> & -> & -> & ->). simpl.
  rewrite IH. f_equal; lia.
Qed.

Lemma consume_export_none p key r : plain_key key -> rest p = key ++ c!"=" :: r ->
  consume_export_prefix p = p.
Proof.
  intros (_ & _ & Hk) Hr. unfold consume_export_prefix.
  destruct (strip_prefix u!"export" (rest p)) as [[|next aft]|] eqn:E; [done| |done].
  apply strip_prefix_Some in E. rewrite Hr in E.
  assert (is_horizontal_whitespace next = false) as ->; [|done].
  assert ((key ++ c!"=" :: r) !! 6 = Some next) as Hn by by rewrite E.
  destruct (decide (length key < 6)) as [Hl|Hl].
  - assert ((key ++ c!"=" :: r) !! length key = Some c!"="%N) as H
      by (rewrite lookup_app_r, Nat.sub_diag by lia; done).
    rewrite E in H. destruct (length key) as [|[|[|[|[|[|n]]]]]]; try discriminate H; lia.
  - apply lookup_app_Some in Hn as [Hn|[Hge Hn]].
    + eapply Forall_lookup_1 in Hk; [|done]. by destruct (invalid_key_character_false _ Hk) as (_ & _ & ? & _).
    + destruct (6 - length key) eqn:E6; [by injection Hn as <-|lia].
Qed.

Lemma render_value_head v txt tail :
  render_value v = Ok txt -> tail_ok tail ->
  match txt ++ tail with c :: _ => is_horizontal_whitespace c = false /\ (c =? c!"#")%N = false /\
    (txt <> [] -> is_newline c = false) | [] => txt = [] end.
Proof.
  unfold render_value. intros Hv Ht. destruct (contains_char 0 v); [done|].
  destruct (is_unquoted_safe v) eqn:Es; injection Hv as <-; [|done].
  unfold is_unquoted_safe in Es. destruct v as [|c v]; [by destruct Ht as [->|[t ->]]|]. simpl.
  destruct (one_of _ c) eqn:Eo; [done|]. destruct (is_horizontal_whitespace c); [done|].
  unfold one_of in Eo. simpl in Eo. bool_prop. split_and!; [done|by apply N.eqb_neq|].
  intros _. unfold is_newline. apply orb_false_iff; split; by apply N.eqb_neq.
Qed.

Lemma assignment_value_rendered p v txt tail :
  WF p -> p.(options).(substitution) = false -> tail_ok tail ->
  render_value v = Ok txt -> rest p = txt ++ tail ->
  assignment_value p = (Ok v, skip_newline (set_position p (position p + len txt))).
Proof.
  intros Hwf Hsub Ht Hv Hr. unfold assignment_value, se_bind at 1, se_get.
  pose proof (render_value_head v txt tail Hv Ht) as Hh. rewrite <- Hr in Hh.
  destruct txt as [|c txt].
  - assert (v = []) as ->.
    { unfold render_value in Hv. destruct (contains_char 0 v); [done|].
      destruct (is_unquoted_safe v); by injection Hv. }
    cbn [len]. rewrite Nat.add_0_r, set_position_same. unfold peek. rewrite Hr.
    by destruct Ht as [->|[t ->]].
  - pose proof (parse_value_rendered p v _ tail Hwf Hsub Ht Hv ltac:(done) Hr) as H.
    unfold peek. rewrite Hr in *. cbn [head app]. destruct Hh as (_ & -> & Hn).
    by rewrite Hn.
Qed.

Lemma parse_assignment_rendered p key v line tail :
  WF p -> p.(options).(substitution) = false -> tail_ok tail ->
  render_var key v = Ok line -> rest p = line ++ tail ->
  parse_assignment p = (Ok (key, v), skip_newline (set_position p (position p + len line))).
Proof.
  intros Hwf Hsub Ht Hv Hr. unfold render_var, rbind in Hv.
  destruct (validate_key key) as [[]| |] eqn:Ek; [|done..]. apply validate_key_Ok in Ek.
  destruct (render_value v) as [txt| |] eqn:Ev; [|done..]. injection Hv as <-.
  rewrite <- !app_assoc in Hr. simpl in Hr.
  unfold parse_assignment, se_bind at 1, se_modify.
  rewrite (consume_export_none p key (txt ++ tail)) by done. unfold se_bind at 1, se_get.
  pose proof Ek as (Hne & _ & Hk). rewrite Hr, key_loop_plain by done.
  unfold se_bind at 1, se_put.
  assert ((position p + len key =? position p) = false) as ->.
  { apply Nat.eqb_neq. destruct key as [|c key]; [done|]. simpl. pose proof (len_utf8_pos c). lia. }
  rewrite (slice_rest p key (c!"=" :: txt ++ tail)) by done.
  destruct (rest_end p key _ Hwf Hr) as [Hwf1 Hr1].
  set (p1 := set_position p (position p + len key)) in *.
  unfold assignment_after_key, se_bind at 1, se_modify.
  rewrite skip_hws_none by (by rewrite Hr1). unfold se_bind at 1, se_get.
  assert (peek p1 = Some c!"=") as -> by (unfold peek; by rewrite Hr1).
  change (negb ((61 =? 61)%N)) with false. cbn iota. unfold se_bind at 1, se_modify.
  destruct (advance_rest p1 _ _ Hwf1 Hr1) as [Hr2 Hp2].
  rewrite skip_hws_none.
  2: { rewrite Hr2. pose proof (render_value_head v txt tail Ev Ht). destruct (txt ++ tail); tauto. }
  erewrite se_bind_ok.
  2: { apply (assignment_value_rendered _ v txt tail); try done.
       - eapply Moves_WF; [exact Hwf1|auto with mise].
       - unfold advance. by destruct (peek p1). }
  unfold se_ret. rewrite Hp2, set_position_advance, !len_app.
  replace (position p1 + len_utf8 61 + len txt) with (position p + (len key + (len [61%N] + len txt)))
    by (unfold p1; cbn [len position set_position]; lia).
  done.
Qed.

(** ** Documents *)

(** The text [render] adds for [variables] after a first line. *)
Fixpoint lines_of (variables : list (str * str)) (suffix : str) : Prop :=
  match variables with
  | [] => suffix = []
  | (key, value) :: variables' => exists line suffix',
      render_var key value = Ok line /\ suffix = 10%N :: line ++ suffix' /\ lines_of variables' suffix'
  end.

Lemma render_loop_lines document variables doc :
  document <> [] -> render_loop document variables = Ok doc ->
  exists suffix, doc = document ++ suffix /\ lines_of variables suffix.
Proof.
  revert document. induction variables as [|[key value] variables IH]; intros document Hne; simpl.
  - intros [= <-]. exists []. by rewrite app_nil_r.
  - destruct document as [|c document]; [done|]. unfold rbind.
    destruct (render_var key value) as [line| |] eqn:El; [|done..].
    intros (suf & -> & Hl)%IH; [|done]. exists (10%N :: line ++ suf).
    split; [by rewrite <- 2!app_assoc|]. by exists line, suf.
Qed.

Lemma render_var_length key value line : render_var key value = Ok line -> 2 <= length line.
Proof.
  unfold render_var, rbind. destruct (validate_key key) as [[]| |] eqn:Ek; [|done..].
  destruct (render_value value); [|done..]. intros [= <-]. apply validate_key_Ok in Ek as (Hne & _).
  destruct key; [done|]. simpl. rewrite length_app. simpl. lia.
Qed.

Lemma render_lines variables doc : render variables = Ok doc ->
  exists suffix, doc = tail suffix /\ lines_of variables suffix.
Proof.
  unfold render. destruct variables as [|[key value] variables]; simpl.
  - intros [= <-]. by exists [].
  - unfold rbind. destruct (render_var key value) as [line| |] eqn:El; [|done..].
    pose proof (render_var_length _ _ _ El).
    intros (suf & -> & Hl)%render_loop_lines; [|by destruct line; simpl in *; [lia|]].
    exists (10%N :: line ++ suf). split; [done|]. by exists line, suf.
Qed.

Lemma lines_of_length variables suffix : lines_of variables suffix -> 3 * length variables <= length suffix.
Proof.
  revert suffix. induction variables as [|[key value] variables IH]; intros suffix; simpl; [lia|].
  intros (line & suf & El%render_var_length & -> & H%IH). simpl. rewrite length_app. lia.
Qed.

(** A parser that the renderer's promise covers. *)
Definition ready (p : Parser) : Prop :=
  WF p /\ p.(options).(substitution) = false /\ p.(failed) = false.

Lemma ready_moves p q : ready p -> Moves p q -> ready q.
Proof.
  intros (Hwf & Hs & Hf) Hm. pose proof Hm as [(_ & Ho & _ & _ & _ & _ & Hfq) _].
  split_and!; [by eapply Moves_WF|congruence|congruence].
Qed.

Lemma skip_newline_rest q : WF q -> tail_ok (rest q) -> rest (skip_newline q) = tail (rest q).
Proof.
  intros Hwf [Hr|[t Hr]]; unfold skip_newline, consume_newline, peek; rewrite Hr; simpl.
  - by rewrite Hr.
  - by destruct (advance_rest q _ _ Hwf Hr) as [-> _].
Qed.

Lemma lines_of_tail variables suffix : lines_of variables suffix -> tail_ok suffix.
Proof.
  destruct variables as [|[k v] variables]; simpl; [by left|].
  intros (line & suf & _ & -> & _). right. eauto.
Qed.

Lemma next_entry_rendered p key value line suffix :
  ready p -> tail_ok suffix -> render_var key value = Ok line -> rest p = line ++ suffix ->
  exists q, next_entry p = (Some (Ok (key, value)), q) /\ ready q /\ rest q = tail suffix.
Proof.
  intros (Hwf & Hs & Hf) Ht El Hr.
  pose proof (parse_assignment_rendered p key value line suffix Hwf Hs Ht El Hr) as Ha.
  unfold next_entry. rewrite Hf. cbn [next_entry_loop].
  assert (exists c r, line ++ suffix = c :: r /\ invalid_key_character c = false) as (c & r & Ec & Hc).
  { unfold render_var, rbind in El. destruct (validate_key key) as [[]| |] eqn:Ek; [|done..].
    destruct (render_value value); [|done..]. injection El as <-. apply validate_key_Ok in Ek as (Hne & _ & Hk).
    destruct key as [|c key]; [done|]. inversion Hk; subst. simpl. eauto. }
  destruct (invalid_key_character_false c Hc) as (_ & Hh & Hw & Hn & _ & _). rewrite <- Hr in Ec.
  rewrite skip_hws_none by by rewrite Ec.
  assert (at_end p = false) as ->.
  { apply not_true_iff_false. intros H%WF_left_0; [|done]. unfold remaining in H. by rewrite Ec in H. }
  assert (consume_newline p = (p, false)) as ->.
  { unfold consume_newline, peek. rewrite Ec. simpl. unfold is_newline in Hn. repeat case_match; done. }
  assert (peek p = Some c) as Hpk by (unfold peek; by rewrite Ec). rewrite Hpk, Hh, Ha.
  eexists. split; [done|].
  destruct (move_to p line suffix Hwf Hr) as [Hm Hr1]. pose proof (Moves_WF _ _ Hwf Hm) as Hwf1.
  split; [|rewrite <- Hr1; apply skip_newline_rest; [done|by rewrite Hr1]].
  assert (ready (skip_newline (set_position p (position p + len line)))) as (Hw' & Hs' & Hf').
  { apply (ready_moves p); [by split_and!|]. etrans; [exact Hm|]. by apply consume_newline_moves. }
  by split_and!.
Qed.

Lemma entries_rendered fuel p variables suffix :
  ready p -> lines_of variables suffix -> rest p = tail suffix -> length variables < fuel ->
  exists q, entries fuel p = (variables, None, q).
Proof.
  revert p variables suffix.
  induction fuel as [|fuel IH]; intros p variables suffix Hp Hl Hr Hf; [lia|]. simpl.
  destruct variables as [|[key value] variables]; simpl in Hl.
  - subst suffix. destruct Hp as (Hwf & Hs & Hfl). unfold next_entry. rewrite Hfl. simpl.
    rewrite skip_hws_none by by rewrite Hr.
    assert (at_end p = true) as ->; [|eauto]. apply WF_left_0; [done|]. unfold remaining. by rewrite Hr.
  - destruct Hl as (line & suf & El & -> & Hl). simpl in Hr.
    destruct (next_entry_rendered p key value line suf) as (q & -> & Hq & Hrq); try done;
      [by eapply lines_of_tail|].
    destruct (IH q variables suf Hq Hl Hrq) as [q' ->]; [simpl in Hf; lia|]. eauto.
Qed.

(** ** The round trip *)

Lemma render_parse_lines variables doc substitutions :
  render variables = Ok doc -> parse doc false substitutions = Ok variables.
Proof.
  intros (suf & -> & Hl)%render_lines. unfold parse, all_entries.
  assert (rest (document_parser (tail suf) false substitutions) = tail suf) as Hr.
  { unfold document_parser, Parser_new, rest. cbn [source position]. rewrite str_from_0.
    destruct variables as [|[k v] variables]; simpl in Hl; [by subst|].
    destruct Hl as (line & suf' & El & -> & _). simpl.
    unfold render_var, rbind in El. destruct (validate_key k) as [[]| |] eqn:Ek; [|done..].
    destruct (render_value v); [|done..]. injection El as <-.
    apply validate_key_Ok in Ek as (Hne & Hb & _). destruct k as [|c k]; [done|]. simpl in *.
    destruct (N.eqb_spec c 0xFEFF); [by subst|done]. }
  destruct (entries_rendered (S (length (rest (document_parser (tail suf) false substitutions))))
    (document_parser (tail suf) false substitutions) variables suf) as [q Hq].
  - split_and!; [apply Parser_new_WF|done|done].
  - done.
  - done.
  - rewrite Hr. apply lines_of_length in Hl. destruct suf; simpl in *; lia.
  - by rewrite Hq.
Qed.
