(* ===== verification/DotenvDeps.v ===== *)
(** * What a dotenv document reads

    The parser reports each variable that a substitution consults ([Parser::variable] and the
    substitution tracker). This file proves that the report is complete: two parsers that
    differ in their protected variables, and agree on those the first one reported, do the same
    thing. *)

From S2P Require Import Prelude RustStr DotenvParse.

Definition set_protected (p : Parser) (m : gmap str str) : Parser :=
  mkParser p.(source) p.(position) p.(options) p.(base_variables) m
    p.(parsed_variables) p.(substitution_tracker) p.(input_overrides) p.(failed).

(** The tracker only grows. *)
Definition grows (t t' : Tracker) : Prop :=
  match t, t' with
  | Some s, Some s' => s ⊆ s'
  | None, None => True
  | _, _ => False
  end.

(** The variables [pr] and [pr'] agree as far as a run with final tracker [t] can tell. *)
Definition agrees (o : ParseOptions) (pr pr' : gmap str str) (t : Tracker) : Prop :=
  o.(substitution) = false \/ exists s, t = Some s /\ forall n, n ∈ s -> pr !! n = pr' !! n.

(** A [&self] computation whose result depends on the protected variables only through those
    it reports. *)
Definition Tracked {A : Type} (pr' : gmap str str) (o : ParseOptions) (pr : gmap str str)
    (m m' : M A) : Prop :=
  forall t r t', m t = (r, t') -> grows t t' /\ (agrees o pr pr' t' -> m' t = (r, t')).

(** The same for a [&mut self] method run on [p]. *)
Definition TrackedAt {A : Type} (pr' : gmap str str) (p : Parser) (m m' : P A) : Prop :=
  forall r p1, m p = (r, p1) ->
    grows p.(substitution_tracker) p1.(substitution_tracker) /\
    p1.(options) = p.(options) /\ p1.(protected_variables) = p.(protected_variables) /\
    (agrees p.(options) p.(protected_variables) pr' p1.(substitution_tracker) ->
     m' (set_protected p pr') = (r, set_protected p1 pr')).

#[global] Instance grows_preorder : PreOrder grows.
Proof.
  split; red; unfold grows.
  - by intros [s|].
  - intros [x|] [y|] [z|]; simpl; try done. set_solver.
Qed.

Lemma agrees_grows o pr pr' t t' : grows t t' -> agrees o pr pr' t' -> agrees o pr pr' t.
Proof.
  intros Hg [Hs|(s & -> & H)]; [by left|]. right. destruct t as [s0|]; [|done].
  exists s0. split; [done|]. intros n Hn. apply H. simpl in Hg. set_solver.
Qed.

Section tracked.
Context (pr' : gmap str str) (o : ParseOptions) (pr : gmap str str).

Lemma Tracked_ret {A} (a : A) : Tracked pr' o pr (se_ret a) (se_ret a).
Proof. intros t r t' [= <- <-]. split; [reflexivity|done]. Qed.

Lemma Tracked_fail {A} e : Tracked pr' o pr (se_fail e : M A) (se_fail e).
Proof. intros t r t' [= <- <-]. split; [reflexivity|done]. Qed.

Lemma Tracked_fuel {A} : Tracked pr' o pr (se_fuel : M A) se_fuel.
Proof. intros t r t' [= <- <-]. split; [reflexivity|done]. Qed.

Lemma Tracked_bind {A B} (m m' : M A) (k k' : A -> M B) :
  Tracked pr' o pr m m' -> (forall a, Tracked pr' o pr (k a) (k' a)) ->
  Tracked pr' o pr (se_bind m k) (se_bind m' k').
Proof.
  intros Hm Hk t r t'. unfold se_bind. destruct (m t) as [r1 t1] eqn:E.
  destruct (Hm _ _ _ E) as [Hg Ha]. destruct r1 as [a|e|].
  - intros E2. destruct (Hk _ _ _ _ E2) as [Hg2 Ha2]. split; [by etrans|].
    intros H. rewrite Ha by by eapply agrees_grows. by apply Ha2.
  - intros [= <- <-]. split; [done|]. intros H. by rewrite Ha.
  - intros [= <- <-]. split; [done|]. intros H. by rewrite Ha.
Qed.

Lemma Tracked_or_literal {A} (m m' : M A) a :
  Tracked pr' o pr m m' -> Tracked pr' o pr (or_literal m a) (or_literal m' a).
Proof.
  intros Hm t r t'. unfold or_literal. destruct (m t) as [r1 t1] eqn:E.
  destruct (Hm _ _ _ E) as [Hg Ha]. intros H.
  assert (t1 = t') as <- by (repeat step_match_in H; congruence). split; [done|].
  intros Hag. by rewrite Ha.
Qed.

(** What the code relies on when a document's expressions are evaluated. *)
Lemma Tracked_variable p name :
  p.(options) = o -> p.(protected_variables) = pr -> o.(substitution) = true ->
  Tracked pr' o pr (variable p name) (variable (set_protected p pr') name).
Proof.
  intros Ho Hpr Hs t r t' [= <- <-]. split.
  - destruct t; simpl; [set_solver|done].
  - intros [H|(s & Et & H)]; [congruence|]. unfold variable. simpl. rewrite Hpr.
    assert (pr !! name = pr' !! name) as Hn.
    { apply H. destruct t; [|done]. injection Et as <-. set_solver. }
    unfold key_get. by rewrite Hn.
Qed.
End tracked.

#[local] Hint Resolve Tracked_ret Tracked_fail Tracked_fuel Tracked_bind Tracked_or_literal
  Tracked_variable : mise.

Lemma Tracked_evaluate pr' p ew ew' expression off :
  p.(options).(substitution) = true ->
  (forall word o, Tracked pr' p.(options) p.(protected_variables) (ew word o) (ew' word o)) ->
  Tracked pr' p.(options) p.(protected_variables)
    (evaluate_substitution ew p expression off)
    (evaluate_substitution ew' (set_protected p pr') expression off).
Proof.
  intros Hs Hew. unfold evaluate_substitution. destruct expression as [|c e]; [auto with mise|].
  apply Tracked_bind; [auto with mise|]. intros [v|]; [auto with mise|].
  destruct (name_end_of _ =? 0); [auto with mise|].
  destruct (str_from _ _); [apply Tracked_bind; auto with mise|].
  destruct (find_operator _) as [[op w]|]; [|auto with mise].
  apply Tracked_bind; [auto with mise|]. intros v.
  repeat case_match; try apply Tracked_bind; auto with mise.
Qed.

Lemma Tracked_dollar pr' p ew ew' raw pos off out :
  p.(options).(substitution) = true ->
  (forall word o, Tracked pr' p.(options) p.(protected_variables) (ew word o) (ew' word o)) ->
  Tracked pr' p.(options) p.(protected_variables)
    (expand_dollar ew p raw pos off out) (expand_dollar ew' (set_protected p pr') raw pos off out).
Proof.
  intros Hs Hew. unfold expand_dollar. destruct (str_from raw pos) as [|first r]; [auto with mise|].
  destruct (first =? c!"$")%N; [auto with mise|]. destruct (first =? c!"{")%N.
  - destruct (find_substitution_end raw (pos + 1)); [|auto with mise].
    apply Tracked_bind; [|auto with mise]. apply Tracked_or_literal. by apply Tracked_evaluate.
  - destruct (negb _); [auto with mise|]. apply Tracked_bind; auto with mise.
Qed.

Lemma Tracked_expand_loop pr' fuel p style raw off pos out :
  Tracked pr' p.(options) p.(protected_variables)
    (expand_loop fuel p style raw off pos out)
    (expand_loop fuel (set_protected p pr') style raw off pos out).
Proof.
  revert raw off pos out. induction fuel as [|fuel IH]; intros raw off pos out; [apply Tracked_fuel|].
  cbn [expand_loop]. destruct (str_from raw pos) as [|c r]; [auto with mise|].
  destruct ((c =? backslash)%N && _); [destruct r; auto with mise|].
  change (options (set_protected p pr')) with (options p).
  destruct ((c =? c!"$")%N && substitution (options p) && negb (style_eqb style SingleQuoted)) eqn:E.
  - bool_prop. apply Tracked_bind; [|intros [q o]; auto]. by apply Tracked_dollar.
  - destruct (c =? 13)%N; auto.
Qed.

Lemma Tracked_expand pr' p raw off style :
  Tracked pr' p.(options) p.(protected_variables)
    (expand p raw off style) (expand (set_protected p pr') raw off style).
Proof. apply Tracked_expand_loop. Qed.

(** ** Methods *)

Section tracked_at.
Context (pr' : gmap str str).

Lemma TrackedAt_ret {A} p (a : A) : TrackedAt pr' p (se_ret a) (se_ret a).
Proof. intros r p1 [= <- <-]. split_and!; [reflexivity|done..]. Qed.

Lemma TrackedAt_fail {A} p e : TrackedAt pr' p (se_fail e : P A) (se_fail e).
Proof. intros r p1 [= <- <-]. split_and!; [reflexivity|done..]. Qed.

Lemma TrackedAt_fuel {A} p : TrackedAt pr' p (se_fuel : P A) se_fuel.
Proof. intros r p1 [= <- <-]. split_and!; [reflexivity|done..]. Qed.

Lemma TrackedAt_get {A} p (k : Parser -> P A) :
  TrackedAt pr' p (k p) (k (set_protected p pr')) ->
  TrackedAt pr' p (se_bind se_get k) (se_bind se_get k).
Proof. done. Qed.

Lemma TrackedAt_bind {A B} p (m m' : P A) (k k' : A -> P B) :
  TrackedAt pr' p m m' -> (forall a q, TrackedAt pr' q (k a) (k' a)) ->
  TrackedAt pr' p (se_bind m k) (se_bind m' k').
Proof.
  intros Hm Hk r p2. unfold se_bind. destruct (m p) as [r1 p1] eqn:E.
  destruct (Hm _ _ E) as (Hg & Ho & Hpr & Ha). destruct r1 as [a|e|].
  - intros E2. destruct (Hk a p1 _ _ E2) as (Hg2 & Ho2 & Hpr2 & Ha2).
    split_and!; [by etrans|congruence..|]. intros H. rewrite Ha by by eapply agrees_grows.
    apply Ha2. by rewrite Ho, Hpr.
  - intros [= <- <-]. split_and!; try done. intros H. by rewrite Ha.
  - intros [= <- <-]. split_and!; try done. intros H. by rewrite Ha.
Qed.

(** A step that neither reads nor writes the variables. *)
Lemma TrackedAt_step p (f : Parser -> Parser) :
  substitution_tracker (f p) = substitution_tracker p -> options (f p) = options p ->
  protected_variables (f p) = protected_variables p ->
  f (set_protected p pr') = set_protected (f p) pr' ->
  TrackedAt pr' p (se_modify f) (se_modify f).
Proof.
  intros Ht Ho Hp Hf r p1 [= <- <-]. rewrite Ht. split_and!; [reflexivity|done..|].
  intros _. unfold se_modify. by rewrite Hf.
Qed.

Lemma TrackedAt_lift {A} p (m m' : Parser -> M A) :
  Tracked pr' p.(options) p.(protected_variables) (m p) (m' (set_protected p pr')) ->
  TrackedAt pr' p (lift m) (lift m').
Proof.
  intros Hm r p1. unfold lift. destruct (m p (substitution_tracker p)) as [r0 t0] eqn:E.
  destruct (Hm _ _ _ E) as [Hg Ha]. intros [= <- <-]. split_and!; try done.
  intros H. cbn [substitution_tracker set_protected set_tracker]. by rewrite Ha.
Qed.
End tracked_at.

(** A state transformer that ignores the variables. *)
Definition Blind (f : Parser -> Parser) : Prop :=
  forall p, substitution_tracker (f p) = substitution_tracker p /\ options (f p) = options p /\
    protected_variables (f p) = protected_variables p /\
    forall m, f (set_protected p m) = set_protected (f p) m.

Lemma Blind_advance : Blind advance.
Proof.
  intros p. unfold advance. change (peek (set_protected p ?m)) with (peek p).
  split_and!; [..|intros m; change (peek (set_protected p m)) with (peek p)]; by destruct (peek p).
Qed.

Lemma Blind_skip_hws : Blind skip_horizontal_whitespace.
Proof. done. Qed.

Lemma Blind_comp f g : Blind f -> Blind g -> Blind (fun p => g (f p)).
Proof.
  intros Hf Hg p. destruct (Hf p) as (? & ? & ? & Hfp), (Hg (f p)) as (? & ? & ? & Hgp).
  split_and!; [congruence..|]. intros m. by rewrite Hfp, Hgp.
Qed.

Lemma Blind_if (c : Parser -> bool) f g :
  (forall p m, c (set_protected p m) = c p) -> Blind f -> Blind g ->
  Blind (fun p => if c p then f p else g p).
Proof.
  intros Hc Hf Hg p. destruct (Hf p) as (? & ? & ? & Hfp), (Hg p) as (? & ? & ? & Hgp).
  destruct (c p) eqn:E; (split_and!; [done..|]; intros m; by rewrite Hc, E).
Qed.

Lemma Blind_id : Blind (fun p => p).
Proof. done. Qed.

Lemma Blind_consume_newline : Blind (fun p => fst (consume_newline p)).
Proof.
  intros p. assert (forall q, consume_newline q =
    (if match peek q with Some c => (c =? 13)%N | None => false end
     then if match peek (advance q) with Some c => (c =? 10)%N | None => false end
          then advance (advance q) else advance q
     else if match peek q with Some c => (c =? 10)%N | None => false end then advance q else q,
     match peek q with Some c => (c =? 13)%N || (c =? 10)%N | None => false end)) as E.
  { intros q. unfold consume_newline. repeat case_match; simplify_eq/=; bool_prop; simplify_eq/=; done. }
  revert p. assert (Blind (fun q => if match peek q with Some c => (c =? 13)%N | None => false end
     then if match peek (advance q) with Some c => (c =? 10)%N | None => false end
          then advance (advance q) else advance q
     else if match peek q with Some c => (c =? 10)%N | None => false end then advance q else q)) as H.
  { pose proof Blind_advance as Ha.
    apply Blind_if; [done| |apply Blind_if; auto using Blind_id].
    apply Blind_if; [|by apply Blind_comp|done].
    intros p m. destruct (Ha p) as (_ & _ & _ & Hp). by rewrite Hp. }
  intros p. specialize (H p). rewrite E. cbn [fst]. destruct H as (? & ? & ? & H).
  split_and!; [done..|]. intros m. rewrite E. apply H.
Qed.

Lemma Blind_skip_comment : Blind skip_comment.
Proof.
  apply (Blind_comp (fun p => set_position p (skip_while (fun c => negb (is_newline c)) (rest p) p.(position)))
    (fun p => fst (consume_newline p))); [done|apply Blind_consume_newline].
Qed.

Lemma Blind_export : Blind consume_export_prefix.
Proof.
  intros p. unfold consume_export_prefix. change (rest (set_protected p ?m)) with (rest p).
  split_and!; [..|intros m; change (rest (set_protected p m)) with (rest p)];
    repeat case_match; done.
Qed.

#[local] Hint Resolve Blind_advance Blind_skip_hws Blind_consume_newline Blind_skip_comment
  Blind_export Blind_id TrackedAt_ret TrackedAt_fail TrackedAt_fuel : mise.

Lemma TrackedAt_blind pr' p f : Blind f -> TrackedAt pr' p (se_modify f) (se_modify f).
Proof. intros Hf. destruct (Hf p) as (? & ? & ? & Hp). by apply TrackedAt_step. Qed.

Lemma TrackedAt_put pr' p q :
  substitution_tracker q = substitution_tracker p -> options q = options p ->
  protected_variables q = protected_variables p ->
  TrackedAt pr' p (se_put q) (se_put (set_protected q pr')).
Proof. intros Ht Ho Hp r p1 [= <- <-]. rewrite Ht. split_and!; [reflexivity|done..]. Qed.

Lemma TrackedAt_quoted pr' p quote style : TrackedAt pr' p (parse_quoted quote style) (parse_quoted quote style).
Proof.
  unfold parse_quoted. apply TrackedAt_get.
  destruct (Blind_advance p) as (_ & _ & _ & Ha). rewrite Ha.
  change (rest (set_protected ?p ?m)) with (rest p).
  cbn [position options set_protected].
  destruct (quoted_loop _ _ _ _ _ _ _) as [e|[pos k]|]; [|unfold fail_at; apply TrackedAt_fail|auto with mise].
  apply TrackedAt_bind; [by apply TrackedAt_put|]. intros _ q.
  apply TrackedAt_lift. apply Tracked_expand.
Qed.

Lemma unquoted_loop_blind fuel p esc m :
  unquoted_loop fuel (set_protected p m) esc =
    match unquoted_loop fuel p esc with
    | Ok (q, ended) => Ok (set_protected q m, ended)
    | Err e => Err e
    | OutOfFuel => OutOfFuel
    end /\
  match unquoted_loop fuel p esc with
  | Ok (q, _) => substitution_tracker q = substitution_tracker p /\ options q = options p /\
      protected_variables q = protected_variables p
  | _ => True
  end.
Proof.
  revert p esc. induction fuel as [|fuel IH]; intros p esc; [done|].
  assert (Hgo : forall f esc', Blind f ->
    (unquoted_loop fuel (f (set_protected p m)) esc' =
      match unquoted_loop fuel (f p) esc' with
      | Ok (q, ended) => Ok (set_protected q m, ended)
      | Err e => Err e
      | OutOfFuel => OutOfFuel
      end) /\
    match unquoted_loop fuel (f p) esc' with
    | Ok (q, _) => substitution_tracker q = substitution_tracker p /\ options q = options p /\
        protected_variables q = protected_variables p
    | _ => True
    end).
  { intros f esc' Hf. destruct (Hf p) as (Ht & Ho & Hp & Hm). rewrite Hm, <- Ht, <- Ho, <- Hp. apply IH. }
  pose proof Blind_advance as Hadv.
  assert (Blind (fun p => advance (advance p))) as Hadv2 by by apply Blind_comp.
  cbn [unquoted_loop]. change (peek (set_protected p m)) with (peek p).
  destruct (peek p) as [c|]; [|done]. destruct (is_newline c); [done|]. destruct (c =? 0)%N; [done|].
  destruct esc; [by apply Hgo|]. destruct (c =? backslash)%N; [by apply Hgo|].
  cbn [options source position set_protected].
  change (quote_closes_on_line (set_protected p m)) with (quote_closes_on_line p).
  change (previous (set_protected p m)) with (previous p).
  destruct ((c =? c!"$")%N && substitution (options p)).
  - destruct (starts_with u!"$" _); [by apply (Hgo (fun p => advance (advance p)))|].
    destruct (starts_with u!"{" _); [|by apply Hgo].
    destruct (find_substitution_end _ _) as [e|]; [|by apply Hgo].
    destruct (find (N.eqb 0) _); [done|].
    apply (Hgo (fun p => advance (set_position p e))). by apply Blind_comp.
  - destruct (is_quote c && _); [done|]. destruct ((c =? c!"#")%N && _); [done|]. by apply Hgo.
Qed.

Lemma TrackedAt_unquoted pr' p : TrackedAt pr' p parse_unquoted parse_unquoted.
Proof.
  unfold parse_unquoted. apply TrackedAt_get. change (rest (set_protected ?p ?m)) with (rest p).
  destruct (unquoted_loop_blind (S (length (rest p))) p false pr') as [-> Hq].
  destruct (unquoted_loop _ p false) as [[q ended]|[pos k]|]; [|apply TrackedAt_fail|auto with mise].
  destruct Hq as (Ht & Ho & Hp). cbn [source position set_protected].
  apply TrackedAt_bind; [by apply TrackedAt_put|]. intros _ q1.
  apply TrackedAt_bind; [apply TrackedAt_lift, Tracked_expand|]. intros v q2.
  destruct ended; [|auto with mise]. apply TrackedAt_bind; [|auto with mise].
  apply TrackedAt_blind. intros p2.
  assert (Blind (fun p => if match peek p with Some c => (c =? c!"#")%N | None => false end
    then skip_comment p else fst (consume_newline p))) as Hb by (apply Blind_if; auto with mise).
  specialize (Hb p2). simpl in Hb. change (peek (set_protected p2 ?m)) with (peek p2) in *.
  destruct (peek p2) as [c|] eqn:E; [|exact Hb]. exact Hb.
Qed.

Lemma TrackedAt_value_loop pr' fuel value first p :
  TrackedAt pr' p (parse_value_loop fuel value first) (parse_value_loop fuel value first).
Proof.
  revert value first p. induction fuel as [|fuel IH]; intros value first p; [apply TrackedAt_fuel|].
  cbn [parse_value_loop]. apply TrackedAt_get. change (peek (set_protected p pr')) with (peek p).
  assert (TrackedAt pr' p
    (let* (segment, ended) := parse_unquoted in
     if (ended : bool) then se_ret (value ++ segment) else parse_value_loop fuel (value ++ segment) false)
    (let* (segment, ended) := parse_unquoted in
     if (ended : bool) then se_ret (value ++ segment) else parse_value_loop fuel (value ++ segment) false))
    as Hu.
  { apply TrackedAt_bind; [apply TrackedAt_unquoted|]. intros [seg []] q; auto with mise. }
  destruct (peek p) as [c|]; [|done].
  change (quote_closes_on_line (set_protected p pr') c) with (quote_closes_on_line p c).
  destruct (is_quote c && _); [|done].
  apply TrackedAt_bind; [apply TrackedAt_quoted|auto].
Qed.

Lemma TrackedAt_assignment pr' p : TrackedAt pr' p parse_assignment parse_assignment.
Proof.
  unfold parse_assignment. apply TrackedAt_bind; [apply TrackedAt_blind; auto with mise|].
  intros _ q. apply TrackedAt_get. cbn [position set_protected].
  change (rest (set_protected q pr')) with (rest q).
  destruct (key_loop _ _) as [key_end|[pos k]|]; [|apply TrackedAt_fail|auto with mise].
  apply TrackedAt_bind; [by apply TrackedAt_put|]. intros _ q1.
  destruct (key_end =? position q); [apply TrackedAt_fail|].
  unfold assignment_after_key. apply TrackedAt_bind; [by apply TrackedAt_blind|]. intros _ q2.
  apply TrackedAt_get. change (peek (set_protected q2 pr')) with (peek q2).
  destruct (peek q2) as [c|]; [|apply TrackedAt_fail].
  destruct (negb (c =? c!"=")%N); [apply TrackedAt_fail|].
  apply TrackedAt_bind; [apply TrackedAt_blind, Blind_comp; auto with mise|]. intros _ q3.
  apply TrackedAt_bind; [|auto with mise]. unfold assignment_value. apply TrackedAt_get.
  change (peek (set_protected q3 pr')) with (peek q3).
  destruct (peek q3) as [d|]; [destruct (is_newline d || _)|].
  - apply TrackedAt_bind; [|auto with mise]. apply TrackedAt_blind.
    destruct (d =? c!"#")%N; auto with mise.
  - unfold parse_value. apply TrackedAt_get. apply TrackedAt_value_loop.
  - apply TrackedAt_bind; [|auto with mise]. apply TrackedAt_blind; auto with mise.
Qed.

(** ** Entries *)

(** The same relation for the functions that return an entry or a list of them. *)
Definition TrackedOut {A : Type} (pr' : gmap str str) (p : Parser) (f : Parser -> A * Parser) : Prop :=
  forall r p1, f p = (r, p1) ->
    grows p.(substitution_tracker) p1.(substitution_tracker) /\
    p1.(options) = p.(options) /\ p1.(protected_variables) = p.(protected_variables) /\
    (agrees p.(options) p.(protected_variables) pr' p1.(substitution_tracker) ->
     f (set_protected p pr') = (r, set_protected p1 pr')).

Lemma TrackedOut_next_entry_loop pr' fuel p : TrackedOut pr' p (next_entry_loop fuel).
Proof.
  revert p. induction fuel as [|fuel IH]; intros p r p1.
  { intros [= <- <-]. split_and!; [reflexivity|done..]. }
  cbn [next_entry_loop]. change (skip_horizontal_whitespace (set_protected p pr'))
    with (set_protected (skip_horizontal_whitespace p) pr').
  assert (Ht : substitution_tracker (skip_horizontal_whitespace p) = substitution_tracker p) by done.
  assert (Ho : options (skip_horizontal_whitespace p) = options p) by done.
  assert (Hp : protected_variables (skip_horizontal_whitespace p) = protected_variables p) by done.
  rewrite <- Ht, <- Ho, <- Hp. generalize (skip_horizontal_whitespace p). clear p Ht Ho Hp. intros p.
  change (at_end (set_protected p pr')) with (at_end p).
  change (peek (set_protected p pr')) with (peek p).
  destruct (at_end p); [intros [= <- <-]; split_and!; [reflexivity|done..]|].
  assert (snd (consume_newline (set_protected p pr')) = snd (consume_newline p)) as Hs.
  { unfold consume_newline. change (peek (set_protected p pr')) with (peek p). repeat case_match; done. }
  destruct (Blind_consume_newline p) as (Hbt & Hbo & Hbp & Hbm). specialize (Hbm pr').
  destruct (consume_newline p) as [p2 nl] eqn:E1, (consume_newline (set_protected p pr')) as [p2' nl'] eqn:E2.
  simpl in Hs, Hbt, Hbo, Hbp, Hbm. subst nl' p2'. destruct nl.
  { intros H. rewrite <- Hbt, <- Hbo, <- Hbp. by apply IH. }
  destruct (match peek p with Some c => (c =? c!"#")%N | None => false end).
  { intros H. destruct (Blind_skip_comment p) as (Ct & Co & Cp & Cm).
    rewrite Cm, <- Ct, <- Co, <- Cp. by apply IH. }
  destruct (parse_assignment p) as [r0 p3] eqn:Ea.
  destruct (TrackedAt_assignment pr' p _ _ Ea) as (Hg & Ho & Hp & Ha).
  intros H. assert (substitution_tracker p1 = substitution_tracker p3 /\ options p1 = options p3 /\
    protected_variables p1 = protected_variables p3) as (-> & -> & ->).
  { destruct r0 as [[k v]|e|]; by injection H as <- <-. }
  split_and!; try done. intros Hag. rewrite (Ha Hag).
  by destruct r0 as [[k v]|e|]; injection H as <- <-.
Qed.

Lemma TrackedOut_next_entry pr' p : TrackedOut pr' p next_entry.
Proof.
  intros r p1. unfold next_entry. cbn [failed set_protected].
  destruct (failed p); [intros [= <- <-]; split_and!; [reflexivity|done..]|].
  apply TrackedOut_next_entry_loop.
Qed.

Lemma TrackedOut_entries pr' fuel p : TrackedOut pr' p (entries fuel).
Proof.
  revert p. induction fuel as [|fuel IH]; intros p r p2.
  { intros [= <- <-]. split_and!; [reflexivity|done..]. }
  cbn [entries]. destruct (next_entry p) as [out p1] eqn:E.
  destruct (TrackedOut_next_entry pr' p _ _ E) as (Hg & Ho & Hp & Ha).
  destruct out as [[kv|e|]|]; try (intros [= <- <-]; split_and!; [done..|]; intros H; by rewrite Ha).
  destruct (entries fuel p1) as [[kvs e1] p3] eqn:E2. intros [= <- <-].
  destruct (IH p1 _ _ E2) as (Hg2 & Ho2 & Hp2 & Ha2).
  split_and!; [by etrans|congruence..|]. intros H.
  rewrite Ha by by eapply agrees_grows. by rewrite Ha2 by by rewrite Ho, Hp.
Qed.

Lemma TrackedOut_all_entries pr' p : TrackedOut pr' p all_entries.
Proof. intros r p1. unfold all_entries. apply TrackedOut_entries. Qed.
