(* ===== verification/DotenvLoad.v ===== *)
(** * Loading dotenv files ([crates/mise-dotenv/src/lib.rs], [iter.rs], [err.rs])

    [EnvLoader] and the iterator it drives. What the operating system answers is an argument:
    the process environment, and for each path the outcome of opening it, a reader, which is
    the outcome of [read_to_string]. *)

From S2P Require Import Prelude RustStr DotenvParse DotenvFacts DotenvDeps.

(** ** The environment of the program *)

Inductive IoErrorKind : Type := IoNotFound | IoOther (detail : str).
Definition io_error : Type := IoErrorKind.

(** An [OsString]: Unicode text, or bytes that are not. *)
Inductive OsString : Type := OsUnicode (s : str) | OsBytes (b : list N).

(** [OsString::into_string] *)
Definition into_string (s : OsString) : OsString + str :=
  match s with OsUnicode s => inr s | OsBytes _ => inl s end.

(** A reader is what [read_to_string] gives. *)
Definition Reader : Type := (io_error + str)%type.

Record World := mkWorld {
  vars_os : list (OsString * OsString);
  open_file : str -> (io_error + Reader)%type
}.

(** ** Errors *)

Inductive Error : Type :=
| EParse (e : ParseError) (path : option str)
| EIo (e : io_error) (path : option str)
| NotPresent (name : str)
| NotUnicode (value : OsString) (name : str)
| NotUnicodeName (name : OsString)
| NoInput.

Definition not_found (e : Error) : bool :=
  match e with EIo IoNotFound _ => true | _ => false end.

Inductive ParseBufError : Type := BufParse (e : ParseError) | BufIo (e : io_error).

(** [From<(ParseBufError, Option<PathBuf>)>] *)
Definition with_context (e : ParseBufError) (path : option str) : Error :=
  match e with BufParse e => EParse e path | BufIo e => EIo e path end.

(** ** [EnvMap] *)

Abbreviation EnvMap := (gmap (list N) (list N)) (only parsing).

(** [Extend]: insertion in iteration order. *)
Definition extend (m : EnvMap) (items : list (str * str)) : EnvMap :=
  fold_left (fun m kv => fst (key_insert m (fst kv) (snd kv))) items m.

(** [extend] with a map, whose iteration order is unspecified. *)
Definition extend_map (m items : EnvMap) : EnvMap := extend m (map_to_list items).

(** [EnvMap::var] *)
Definition EnvMap_var (m : EnvMap) (key : str) : result Error str :=
  match key_get m key with Some v => Ok v | None => Err (NotPresent key) end.

(** [environment_variables] *)
Fixpoint collect_vars (vars : list (OsString * OsString)) (m : EnvMap) : result Error EnvMap :=
  match vars with
  | [] => Ok m
  | (name, value) :: vars' =>
      match into_string name with
      | inl name => Err (NotUnicodeName name)
      | inr name =>
          match into_string value with
          | inl value => Err (NotUnicode value name)
          | inr value => collect_vars vars' (extend m [(name, value)])
          end
      end
  end.

Definition environment_variables (w : World) : result Error EnvMap := collect_vars (vars_os w) ∅.

(** ** [Iter] *)

Record Iter := mkIter {
  it_reader : option Reader;
  it_parser : option Parser;
  it_options : ParseOptions;
  it_base : EnvMap;
  it_protected : EnvMap;
  it_tracker : Tracker;
  it_overrides : bool;
  it_read_error : option io_error
}.

Definition Iter_new (reader : Reader) (options : ParseOptions) (base protected : EnvMap)
    (tracker : Tracker) (input_overrides : bool) : Iter :=
  mkIter (Some reader) None options base protected tracker input_overrides None.

(** [Iter::initialize]: what is moved into the parser is taken from the iterator. *)
Definition initialize (i : Iter) : Iter :=
  match i.(it_reader) with
  | None => i
  | Some reader =>
      match reader with
      | inr source =>
          mkIter None
            (Some (Parser_new source i.(it_options) i.(it_base) i.(it_protected)
                     i.(it_tracker) i.(it_overrides)))
            i.(it_options) ∅ ∅ None i.(it_overrides) i.(it_read_error)
      | inl e =>
          mkIter None i.(it_parser) i.(it_options) i.(it_base) i.(it_protected) i.(it_tracker)
            i.(it_overrides) (Some e)
      end
  end.

Definition set_it_parser (i : Iter) (p : Parser) : Iter :=
  mkIter i.(it_reader) (Some p) i.(it_options) i.(it_base) i.(it_protected) i.(it_tracker)
    i.(it_overrides) i.(it_read_error).

Definition take_read_error (i : Iter) : Iter :=
  mkIter i.(it_reader) i.(it_parser) i.(it_options) i.(it_base) i.(it_protected) i.(it_tracker)
    i.(it_overrides) None.

(** [Iter::next] *)
Definition Iter_next (i : Iter) : option (result ParseBufError (str * str)) * Iter :=
  let i := initialize i in
  match i.(it_read_error) with
  | Some e => (Some (Err (BufIo e)), take_read_error i)
  | None =>
      match i.(it_parser) with
      | None => (None, i)
      | Some parser =>
          let '(result, parser) := next_entry parser in
          (option_map (map_err BufParse) result, set_it_parser i parser)
      end
  end.

(** The cell the tracker of the iterator shares: what was reported so far. *)
Definition tracked (i : Iter) : Tracker :=
  match i.(it_parser) with Some p => p.(substitution_tracker) | None => i.(it_tracker) end.

(** The loop of [Iter::internal_load]. *)
Fixpoint internal_load_loop (fuel : nat) (i : Iter) (m : EnvMap)
  : result ParseBufError EnvMap * Iter :=
  match fuel with
  | 0 => (OutOfFuel, i)
  | S fuel =>
      match Iter_next i with
      | (None, i) => (Ok m, i)
      | (Some (Ok (key, value)), i) => internal_load_loop fuel i (fst (key_insert m key value))
      | (Some (Err e), i) => (Err e, i)
      | (Some OutOfFuel, i) => (OutOfFuel, i)
      end
  end.

(** Entries the text of a reader can hold, with one more step for the end. *)
Definition load_fuel (reader : Reader) : nat :=
  match reader with inr source => S (length source) | inl _ => 1 end.

(** [Iter::load] of a fresh iterator: the map, and what the tracker holds afterwards. *)
Definition Iter_load (reader : Reader) (i : Iter) : result ParseBufError EnvMap * Tracker :=
  let '(r, i) := internal_load_loop (load_fuel reader) i ∅ in (r, tracked i).

(** ** [EnvLoader] *)

Inductive EnvSequence : Type := EnvOnly | EnvThenInput | InputOnly | InputThenEnv.

Inductive Input : Type := InputPath (path : str) | InputReader (reader : Reader) (path : option str).

Record EnvLoader := mkEnvLoader {
  inputs : list Input;
  sequence : EnvSequence;
  parse_options : ParseOptions;
  substitutions : EnvMap;
  loader_tracker : Tracker;
  ignore_missing : bool
}.

Definition EnvLoader_empty : EnvLoader :=
  mkEnvLoader [] InputThenEnv ParseOptions_new ∅ None false.
Definition with_inputs (l : EnvLoader) (ins : list Input) : EnvLoader :=
  mkEnvLoader ins l.(sequence) l.(parse_options) l.(substitutions) l.(loader_tracker) l.(ignore_missing).
Definition with_path (path : str) : EnvLoader := with_inputs EnvLoader_empty [InputPath path].
Definition EnvLoader_new : EnvLoader := with_path u!"./.env".
Definition with_paths (paths : list str) : EnvLoader :=
  with_inputs EnvLoader_empty (map InputPath paths).
Definition with_reader (reader : Reader) : EnvLoader :=
  with_inputs EnvLoader_empty [InputReader reader None].
Definition with_readers (readers : list Reader) : EnvLoader :=
  with_inputs EnvLoader_empty (map (fun r => InputReader r None) readers).

(** [EnvLoader::path] *)
Definition set_path (l : EnvLoader) (path : str) : EnvLoader :=
  match l.(inputs) with
  | [InputReader reader _] => with_inputs l [InputReader reader (Some path)]
  | _ => with_inputs l [InputPath path]
  end.

Definition set_required (l : EnvLoader) (required : bool) : EnvLoader :=
  mkEnvLoader l.(inputs) l.(sequence) l.(parse_options) l.(substitutions) l.(loader_tracker)
    (negb required).
Definition set_sequence (l : EnvLoader) (s : EnvSequence) : EnvLoader :=
  mkEnvLoader l.(inputs) s l.(parse_options) l.(substitutions) l.(loader_tracker) l.(ignore_missing).
Definition set_parse_options (l : EnvLoader) (o : ParseOptions) : EnvLoader :=
  mkEnvLoader l.(inputs) l.(sequence) o l.(substitutions) l.(loader_tracker) l.(ignore_missing).
Definition loader_substitution (l : EnvLoader) (enabled : bool) : EnvLoader :=
  set_parse_options l (set_substitution l.(parse_options) enabled).
Definition loader_multiline (l : EnvLoader) (enabled : bool) : EnvLoader :=
  set_parse_options l (set_multiline l.(parse_options) enabled).
Definition add_substitutions (l : EnvLoader) (values : list (str * str)) : EnvLoader :=
  mkEnvLoader l.(inputs) l.(sequence) l.(parse_options) (extend l.(substitutions) values)
    l.(loader_tracker) l.(ignore_missing).
Definition set_loader_tracker (l : EnvLoader) (t : Tracker) : EnvLoader :=
  mkEnvLoader l.(inputs) l.(sequence) l.(parse_options) l.(substitutions) t l.(ignore_missing).

(** The variables that substitution may read before those of the files themselves. *)
Definition protected_of (l : EnvLoader) (environment : EnvMap) : EnvMap :=
  let protects := match l.(sequence) with EnvThenInput | InputThenEnv => true | _ => false end in
  extend_map (if protects then environment else ∅) l.(substitutions).

Definition overrides_of (l : EnvLoader) : bool :=
  match l.(sequence) with InputThenEnv => false | _ => true end.

(** The reader of an input, none for a missing file that may be missing. *)
Definition open_input (w : World) (l : EnvLoader) (input : Input)
  : result Error (option (Reader * option str)) :=
  match input with
  | InputPath path =>
      match open_file w path with
      | inr reader => Ok (Some (reader, Some path))
      | inl e =>
          if l.(ignore_missing) && match e with IoNotFound => true | _ => false end
          then Ok None
          else Err (EIo e (Some path))
      end
  | InputReader reader path => Ok (Some (reader, path))
  end.

(** The loop of [EnvLoader::load_input]; the tracker is the shared cell. *)
Fixpoint load_inputs (w : World) (l : EnvLoader) (protected : EnvMap) (ins : list Input)
    (accumulated : EnvMap) (tracker : Tracker) : result Error EnvMap * Tracker :=
  match ins with
  | [] => (Ok accumulated, tracker)
  | input :: ins' =>
      match open_input w l input with
      | Ok None => load_inputs w l protected ins' accumulated tracker
      | Ok (Some (reader, path)) =>
          match Iter_load reader (Iter_new reader l.(parse_options) accumulated protected tracker
                                    (overrides_of l)) with
          | (Ok parsed, tracker) =>
              load_inputs w l protected ins' (extend_map accumulated parsed) tracker
          | (Err e, tracker) => (Err (with_context e path), tracker)
          | (OutOfFuel, tracker) => (OutOfFuel, tracker)
          end
      | Err e => (Err e, tracker)
      | OutOfFuel => (OutOfFuel, tracker)
      end
  end.

(** [EnvLoader::load_input] *)
Definition load_input (w : World) (l : EnvLoader) (environment : EnvMap)
  : result Error EnvMap * Tracker :=
  match l.(inputs) with
  | [] => (Err NoInput, l.(loader_tracker))
  | ins => load_inputs w l (protected_of l environment) ins ∅ l.(loader_tracker)
  end.

(** [EnvLoader::load], with what its tracker holds afterwards. *)
Definition load_tracked (w : World) (l : EnvLoader) : result Error EnvMap * Tracker :=
  match (match l.(sequence) with InputOnly => Ok ∅ | _ => environment_variables w end) with
  | Ok environment =>
      match l.(sequence) with
      | EnvOnly => (Ok environment, l.(loader_tracker))
      | EnvThenInput =>
          let '(r, t) := load_input w l environment in
          (rmap (fun input => extend_map environment input) r, t)
      | InputOnly => load_input w l environment
      | InputThenEnv =>
          let '(r, t) := load_input w l environment in
          (rmap (fun input => extend_map input environment) r, t)
      end
  | Err e => (Err e, l.(loader_tracker))
  | OutOfFuel => (OutOfFuel, l.(loader_tracker))
  end.

Definition load (w : World) (l : EnvLoader) : result Error EnvMap := fst (load_tracked w l).

(** [EnvLoader::load_with_substitution_dependencies] *)
Definition load_with_substitution_dependencies (w : World) (l : EnvLoader)
  : result Error (EnvMap * gset str) :=
  match load_tracked w (set_loader_tracker l (Some ∅)) with
  | (Ok m, t) => Ok (m, default ∅ t)
  | (Err e, _) => Err e
  | (OutOfFuel, _) => OutOfFuel
  end.

(** What loading reads when it succeeds: for each input, the assignments of its document, none
    for a missing file that may be missing. A document sees the variables of those before. *)
Inductive Reads (w : World) (l : EnvLoader) (protected : EnvMap)
  : EnvMap -> list Input -> list (list (str * str)) -> Prop :=
| Reads_nil acc : Reads w l protected acc [] []
| Reads_missing acc input ins docs :
    open_input w l input = Ok None ->
    Reads w l protected acc ins docs ->
    Reads w l protected acc (input :: ins) ([] :: docs)
| Reads_document acc input path text items t p ins docs :
    open_input w l input = Ok (Some (inr text, path)) ->
    all_entries (Parser_new text l.(parse_options) acc protected t (overrides_of l)) = (items, None, p) ->
    Reads w l protected (extend acc items) ins docs ->
    Reads w l protected acc (input :: ins) (items :: docs).

(** The input at which loading fails, after [docs], and its error. *)
Inductive Fails (w : World) (l : EnvLoader) (acc : EnvMap) (protected : EnvMap) (input : Input)
  : Error -> Prop :=
| Fails_open e : open_input w l input = Err e -> Fails w l acc protected input e
| Fails_read e path :
    open_input w l input = Ok (Some (inl e, path)) -> Fails w l acc protected input (EIo e path)
| Fails_parse text path t items e p :
    open_input w l input = Ok (Some (inr text, path)) ->
    all_entries (Parser_new text l.(parse_options) acc protected t (overrides_of l))
      = (items, Some (Err e), p) ->
    Fails w l acc protected input (EParse e path).

(** ** Maps *)

Lemma extend_app m a b : extend m (a ++ b) = extend (extend m a) b.
Proof. apply fold_left_app. Qed.

Lemma extend_list_to_map m items : extend m items = list_to_map (reverse items) ∪ m.
Proof.
  revert m. induction items as [|[k v] items IH]; intros m.
  - simpl. by rewrite map_empty_union.
  - change (extend m ((k, v) :: items)) with (extend (<[k := v]> m) items).
    rewrite IH, reverse_cons, list_to_map_app. simpl.
    by rewrite insert_empty, <- map_union_assoc, insert_union_singleton_l.
Qed.

Lemma extend_map_union m x : extend_map m x = x ∪ m.
Proof.
  unfold extend_map. rewrite extend_list_to_map.
  rewrite <- (list_to_map_proper (map_to_list x) (reverse (map_to_list x))).
  - by rewrite list_to_map_to_list.
  - apply NoDup_fst_map_to_list.
  - symmetry. apply reverse_Permutation.
Qed.

Lemma extend_map_extend m items : extend_map m (extend ∅ items) = extend m items.
Proof. by rewrite extend_map_union, !extend_list_to_map, map_union_empty. Qed.

Lemma environment_variables_lookup w env : environment_variables w = Ok env ->
  exists vars, vars_os w = map (fun kv => (OsUnicode kv.1, OsUnicode kv.2)) vars /\ env = extend ∅ vars.
Proof.
  unfold environment_variables. generalize (∅ : EnvMap) as m. intros m. generalize (vars_os w).
  intros l. revert m. induction l as [|[n v] l IH]; intros m; simpl.
  - intros [= <-]. by exists [].
  - destruct n as [n|]; simpl; [|done]. destruct v as [v|]; simpl; [|done].
    intros (vars & -> & ->)%IH. exists ((n, v) :: vars). done.
Qed.

(** ** [Iter] *)

Lemma entries_fuel f f' p : WF p -> remaining p < f -> remaining p < f' -> entries f p = entries f' p.
Proof.
  revert f' p. induction f as [|f IH]; intros f' p Hwf Hf Hf'; [lia|].
  destruct f' as [|f']; [lia|]. simpl. destruct (next_entry p) as [out p1] eqn:En.
  destruct (next_entry_remaining _ _ _ Hwf En) as [(Hwf1 & _) Hlt].
  destruct out as [[kv|e|]|]; try done. specialize (Hlt (ex_intro _ kv eq_refl)).
  by rewrite (IH f') by (done || lia).
Qed.

(** An iterator that has read its input. *)
Definition opened (i : Iter) (p : Parser) : Prop :=
  i.(it_reader) = None /\ i.(it_parser) = Some p /\ i.(it_read_error) = None.

Lemma internal_load_entries fuel i p m :
  opened i p ->
  internal_load_loop fuel i m =
    let '(items, e, q) := entries fuel p in
    (match e with
     | None => Ok (extend m items)
     | Some (Err e) => Err (BufParse e)
     | Some _ => OutOfFuel
     end, match fuel with 0 => i | S _ => set_it_parser i q end).
Proof.
  revert i p m. induction fuel as [|fuel IH]; intros i p m (Hr & Hp & He); [done|].
  simpl. unfold Iter_next, initialize. rewrite Hr, He, Hp.
  destruct (next_entry p) as [out p1] eqn:En. destruct out as [[[k v]|e|]|]; try done. simpl.
  rewrite (IH _ p1) by done. destruct (entries fuel p1) as [[items e] q] eqn:Ee.
  destruct fuel; [|done]. simpl in Ee. by injection Ee as <- <- <-.
Qed.

(** What loading a reader is, without the iterator. *)
Lemma Iter_load_spec reader o base prot t ov :
  Iter_load reader (Iter_new reader o base prot t ov) =
    match reader with
    | inl e => (Err (BufIo e), t)
    | inr source =>
        let '(items, e, p) := all_entries (Parser_new source o base prot t ov) in
        (match e with
         | None => Ok (extend ∅ items)
         | Some (Err e) => Err (BufParse e)
         | Some _ => OutOfFuel
         end, p.(substitution_tracker))
    end.
Proof.
  unfold Iter_load. destruct reader as [e|source]; [done|]. cbn [load_fuel].
  set (p := Parser_new source o base prot t ov).
  assert (internal_load_loop (S (length source)) (Iter_new (inr source) o base prot t ov) ∅ =
    internal_load_loop (S (length source)) (initialize (Iter_new (inr source) o base prot t ov)) ∅) as ->
    by done.
  rewrite (internal_load_entries _ _ p) by done. unfold all_entries.
  assert (WF p) as Hwf by apply Parser_new_WF.
  rewrite (entries_fuel (S (length source)) (S (length (rest p)))); [|done| |unfold remaining; lia].
  - by destruct (entries _ p) as [[items e] q].
  - unfold remaining, rest, p, Parser_new. cbn [DotenvParse.source position]. rewrite str_from_0.
    destruct source as [|c s]; [simpl; lia|]. destruct (c =? 0xFEFF)%N; simpl; lia.
Qed.

(** ** [load_input] *)

Lemma entries_outcome n p items e p' : entries n p = (items, e, p') ->
  e = None \/ e = Some OutOfFuel \/ exists err, e = Some (Err err).
Proof.
  revert p items. induction n as [|n IH]; intros p items; simpl.
  - intros [= <- <- <-]. auto.
  - destruct (next_entry p) as [[[kv|er|]|] p1].
    + destruct (entries n p1) as [[its e1] q] eqn:E. intros [= <- <- <-]. by eapply IH.
    + intros [= <- <- <-]. eauto.
    + intros [= <- <- <-]. auto.
    + intros [= <- <- <-]. auto.
Qed.

Lemma all_entries_outcome p items e p' : WF p -> all_entries p = (items, e, p') ->
  e = None \/ exists err, e = Some (Err err).
Proof.
  intros Hwf E. destruct (all_entries_spec _ _ _ _ Hwf E) as (_ & Hne & _).
  apply entries_outcome in E. naive_solver.
Qed.

Lemma load_inputs_spec w l protected ins acc t r t' :
  load_inputs w l protected ins acc t = (r, t') ->
  match r with
  | Ok m => exists docs, Reads w l protected acc ins docs /\ m = extend acc (concat docs)
  | Err e => exists pre input post docs, ins = pre ++ input :: post /\
      Reads w l protected acc pre docs /\
      Fails w l (extend acc (concat docs)) protected input e
  | OutOfFuel => False
  end.
Proof.
  revert acc t. induction ins as [|input ins IH]; intros acc t; simpl.
  { intros [= <- <-]. exists []. split; [constructor|done]. }
  assert (Hgo : forall acc' items t0, (forall ins0 docs, Reads w l protected acc' ins0 docs ->
      Reads w l protected acc (input :: ins0) (items :: docs)) -> acc' = extend acc items ->
    load_inputs w l protected ins acc' t0 = (r, t') ->
    match r with
    | Ok m => exists docs, Reads w l protected acc (input :: ins) docs /\ m = extend acc (concat docs)
    | Err e => exists pre input0 post docs, input :: ins = pre ++ input0 :: post /\
        Reads w l protected acc pre docs /\ Fails w l (extend acc (concat docs)) protected input0 e
    | OutOfFuel => False
    end).
  { intros acc' items t0 Hcons -> H%IH. destruct r as [m|e|]; [| |done].
    - destruct H as (docs & HR & ->). exists (items :: docs). split; [auto|]. simpl. by rewrite extend_app.
    - destruct H as (pre & inp & post & docs & -> & HR & HF). exists (input :: pre), inp, post, (items :: docs).
      split_and!; [done|auto|]. simpl. by rewrite extend_app. }
  destruct (open_input w l input) as [[[reader path]|]|e|] eqn:Eo.
  - rewrite Iter_load_spec. destruct reader as [e|text].
    { intros [= <- <-]. exists [], input, ins, []. split_and!; [done|constructor|by eapply Fails_read]. }
    set (p := Parser_new text (parse_options l) acc protected t (overrides_of l)).
    destruct (all_entries p) as [[items e] q] eqn:Ea.
    destruct (all_entries_outcome p items e q) as [->|[err ->]]; [apply Parser_new_WF|done|..].
    + rewrite extend_map_extend. apply (Hgo _ items); [|done]. intros. by eapply Reads_document.
    + intros [= <- <-]. exists [], input, ins, []. split_and!; [done|constructor|by eapply Fails_parse].
  - apply (Hgo acc []); [|done]. intros. by constructor.
  - intros [= <- <-]. exists [], input, ins, []. split_and!; [done|constructor|by constructor].
  - revert Eo. unfold open_input. repeat case_match; done.
Qed.

(** ** Dependencies *)

Lemma Iter_load_tracked reader o base prot prot' t ov r s :
  Iter_load reader (Iter_new reader o base prot (Some t) ov) = (r, s) ->
  exists s', s = Some s' /\ t ⊆ s' /\
    ((forall n, n ∈ s' -> prot !! n = prot' !! n) ->
     Iter_load reader (Iter_new reader o base prot' (Some t) ov) = (r, s)).
Proof.
  rewrite !Iter_load_spec. destruct reader as [e|text].
  { intros [= <- <-]. by exists t. }
  destruct (all_entries (Parser_new text o base prot (Some t) ov)) as [[items e] q] eqn:Ea.
  destruct (TrackedOut_all_entries prot' _ _ _ Ea) as (Hg & _ & _ & Ha).
  cbn [substitution_tracker Parser_new] in Hg. intros [= <- <-].
  destruct (substitution_tracker q) as [s'|] eqn:Es; [|done].
  exists s'. split_and!; [done|done|]. intros Hag.
  change (set_protected (Parser_new text o base prot (Some t) ov) prot')
    with (Parser_new text o base prot' (Some t) ov) in Ha.
  rewrite Ha; [by rewrite <- Es|]. right. eauto.
Qed.

Lemma load_inputs_tracked w l prot prot' ins acc t r s :
  load_inputs w l prot ins acc (Some t) = (r, s) ->
  exists s', s = Some s' /\ t ⊆ s' /\
    ((forall n, n ∈ s' -> prot !! n = prot' !! n) ->
     load_inputs w l prot' ins acc (Some t) = (r, s)).
Proof.
  revert acc t. induction ins as [|input ins IH]; intros acc t; simpl.
  { intros [= <- <-]. by exists t. }
  destruct (open_input w l input) as [[[reader path]|]|e|] eqn:Eo;
    [|apply IH|intros [= <- <-]; by exists t..].
  destruct (Iter_load _ _) as [r1 t1] eqn:Ei.
  destruct (Iter_load_tracked _ _ _ _ prot' _ _ _ _ Ei) as (s1 & -> & Hsub & Hag).
  destruct r1 as [m|e|].
  - intros H. destruct (IH _ _ H) as (s' & -> & Hsub2 & Hag2).
    exists s'. split_and!; [done|set_solver|]. intros Hn.
    rewrite Hag by (intros; apply Hn; set_solver). by apply Hag2.
  - intros [= <- <-]. exists s1. split_and!; [done|done|]. intros Hn. by rewrite Hag.
  - intros [= <- <-]. exists s1. split_and!; [done|done|]. intros Hn. by rewrite Hag.
Qed.

Lemma protected_of_lookup l env env' n :
  env !! n = env' !! n -> protected_of l env !! n = protected_of l env' !! n.
Proof.
  intros H. unfold protected_of. rewrite !extend_map_union, !lookup_union.
  by destruct (sequence l); rewrite ?H.
Qed.

Lemma load_input_tracked w l env env' t r s :
  loader_tracker l = Some t -> load_input w l env = (r, s) ->
  exists s', s = Some s' /\ ((forall n, n ∈ s' -> env !! n = env' !! n) -> load_input w l env' = (r, s)).
Proof.
  intros Ht. unfold load_input. rewrite Ht. destruct (inputs l) as [|input ins].
  { intros [= <- <-]. by exists t. }
  intros H. destruct (load_inputs_tracked _ _ _ (protected_of l env') _ _ _ _ _ H) as (s' & -> & _ & Hag).
  exists s'. split; [done|]. intros Hn. apply Hag. intros n Hin. by apply protected_of_lookup, Hn.
Qed.

(** The files are all that reading takes from the world. *)
Lemma load_inputs_files w w' l protected ins acc t :
  open_file w = open_file w' ->
  load_inputs w l protected ins acc t = load_inputs w' l protected ins acc t.
Proof.
  intros Hw. revert acc t. induction ins as [|i ins IH]; intros acc t; [done|]. simpl.
  assert (open_input w l i = open_input w' l i) as -> by (unfold open_input; by rewrite Hw).
  repeat case_match; auto.
Qed.

Lemma load_input_files w w' l env :
  open_file w = open_file w' -> load_input w l env = load_input w' l env.
Proof. intros Hw. unfold load_input. destruct (inputs l); [done|]. by apply load_inputs_files. Qed.
