(* ===== verification/DotenvSpec.v ===== *)
(** * What the dotenv library promises

    The properties of the parser, the renderer and the loader, proved from the lemmas of
    [DotenvFacts], [DotenvRender], [DotenvDeps] and [DotenvLoad]. *)

From S2P Require Import Prelude RustStr DotenvParse DotenvFacts DotenvRender DotenvDeps DotenvLoad.

(** A variable that dotenv syntax can express. *)
Definition renderable (kv : str * str) : Prop :=
  plain_key kv.1 /\ contains_char 0 kv.2 = false.

Lemma render_var_renderable key value :
  (exists line, render_var key value = Ok line) <-> renderable (key, value).
Proof.
  unfold render_var, renderable, rbind. simpl. rewrite <- validate_key_Ok.
  destruct (validate_key key) as [[]|e|];
    [|by split; [intros []|intros []]|by split; [intros []|intros []]].
  unfold render_value. destruct (contains_char 0 value); [by split; [intros []|intros []]|].
  destruct (is_unquoted_safe value); (split; [done|eauto]).
Qed.

Lemma render_loop_renderable document variables :
  (exists doc, render_loop document variables = Ok doc) <-> Forall renderable variables.
Proof.
  revert document. induction variables as [|[key value] variables IH]; intros document; simpl.
  - split; [constructor|eauto].
  - rewrite Forall_cons, <- render_var_renderable. unfold rbind.
    destruct (render_var key value) as [line|e|].
    + rewrite IH. split; [eauto|by intros [_ ?]].
    + split; [by intros []|by intros [[? ?] _]].
    + split; [by intros []|by intros [[? ?] _]].
Qed.

(** C17. Round trip: whatever document [render] produces for a list of variables, [parse]
    without substitution reads back exactly that list, in order and with its duplicates,
    whatever the quoting and escaping the renderer chose and whatever the substitutions. *)
Theorem render_parse_round_trip variables doc substitutions :
  render variables = Ok doc -> parse doc false substitutions = Ok variables.
Proof. apply render_parse_lines. Qed.

Lemma render_parse_round_trip_witness :
  exists doc,
    render [(u!"A", u!"x y"); (u!"B", 32%N :: u!"#$'" ++ [10%N; 34%N]); (u!"A", [])] = Ok doc /\
    parse doc false [(u!"x", u!"y")]
      = Ok [(u!"A", u!"x y"); (u!"B", 32%N :: u!"#$'" ++ [10%N; 34%N]); (u!"A", [])].
Proof.
  eexists. split; [vm_compute; reflexivity|].
  apply render_parse_round_trip. vm_compute. reflexivity.
Defined.

(** [render] succeeds exactly when every key is non-empty, starts with no byte-order mark
    and has no [=], [#], white space or control character, and no value contains NUL. *)
Theorem render_total variables :
  (exists doc, render variables = Ok doc) <-> Forall renderable variables.
Proof. apply render_loop_renderable. Qed.

(** The contract of [Parser::next_entry], on a parser that stands on a character boundary:
    it returns, on a boundary again and no earlier; an entry consumes text and is recorded for
    later substitutions; an error stops the parser for good; and it ends only at the end of
    the text or after an error. *)
Theorem next_entry_contract p out p' :
  WF p -> next_entry p = (out, p') -> entry_outcome p out p'.
Proof. intros Hwf E. by destruct (next_entry_remaining _ _ _ Hwf E). Qed.

Lemma next_entry_contract_example :
  exists out p', next_entry (document_parser u!"A=1" false []) = (out, p') /\
    entry_outcome (document_parser u!"A=1" false []) out p'.
Proof.
  destruct (next_entry (document_parser u!"A=1" false [])) as [out p'] eqn:E.
  exists out, p'. split; [reflexivity|].
  apply next_entry_contract; [apply Parser_new_WF|exact E].
Defined.

(** [parse] and [parse_partial] always return, and they agree: [parse] gives the
    assignments when no error stopped the reading, and otherwise that error, while
    [parse_partial] keeps the assignments before it. *)
Theorem parse_parse_partial content substitution substitutions :
  (exists items, parse content substitution substitutions = Ok items /\
     parse_partial content substitution substitutions = (items, None)) \/
  (exists items e, parse content substitution substitutions = Err e /\
     parse_partial content substitution substitutions = (items, Some (Err e))).
Proof.
  unfold parse, parse_partial.
  destruct (all_entries _) as [[items e] p'] eqn:E.
  destruct (all_entries_outcome _ _ _ _ (Parser_new_WF _ _ _ _ _ _) E) as [->|[er ->]]; eauto.
Qed.

(** C40. A parse error tells where it is: its byte offset is a character boundary of the
    document (less its byte-order mark), its line is one more than the line breaks before the
    offset, with CRLF one break, its column counts the characters from the start of that line,
    and the line it shows is the whole line of the offset. *)
Theorem parse_error_located content substitution substitutions e :
  parse content substitution substitutions = Err e ->
  located (source (document_parser content substitution substitutions)) e.
Proof.
  unfold parse, all_entries. destruct (entries _ _) as [[items o] p'] eqn:E.
  destruct o as [[?|e'|]|]; try done. intros [= <-].
  eapply entries_located; [|exact E]. apply Parser_new_WF.
Qed.

Lemma parse_error_located_witness :
  exists e, parse (u!"A=1" ++ [13%N; 10%N] ++ u!"B ?") false [] = Err e /\
    located (source (document_parser (u!"A=1" ++ [13%N; 10%N] ++ u!"B ?") false [])) e.
Proof.
  eexists. split; [vm_compute; reflexivity|].
  apply parse_error_located. vm_compute. reflexivity.
Defined.

(** With substitution disabled, the values given for it do not matter. *)
Theorem parse_without_substitution content substitutions substitutions' :
  parse content false substitutions = parse content false substitutions'.
Proof.
  unfold parse. destruct (all_entries (document_parser content false substitutions)) as [[items e] p] eqn:E.
  destruct (TrackedOut_all_entries (protect ∅ substitutions') _ _ _ E) as (_ & _ & _ & Ha).
  change (set_protected (document_parser content false substitutions) (protect ∅ substitutions'))
    with (document_parser content false substitutions') in Ha.
  rewrite Ha; [done|]. by left.
Qed.

(** The value that [docs], read in order, give a name: the last one assigned. *)
Definition assigned (docs : list (list (str * str))) : gmap str str :=
  list_to_map (reverse (concat docs)).

(** Precedence. When loading succeeds there are the documents read, one for each input, each
    parsed with the variables of those before it; a later assignment wins over an earlier one,
    also across files; and the process environment is ignored, alone, beneath or above the
    documents as [EnvSequence] says. *)
Theorem load_precedence w l m :
  load w l = Ok m ->
  match sequence l with
  | EnvOnly => environment_variables w = Ok m
  | InputOnly => exists docs, Reads w l (protected_of l ∅) ∅ (inputs l) docs /\ m = assigned docs
  | EnvThenInput => exists env docs, environment_variables w = Ok env /\
      Reads w l (protected_of l env) ∅ (inputs l) docs /\ m = assigned docs ∪ env
  | InputThenEnv => exists env docs, environment_variables w = Ok env /\
      Reads w l (protected_of l env) ∅ (inputs l) docs /\ m = env ∪ assigned docs
  end.
Proof.
  unfold load, load_tracked. intros H.
  assert (Hin : forall env m' t, load_input w l env = (Ok m', t) ->
    exists docs, Reads w l (protected_of l env) ∅ (inputs l) docs /\ m' = assigned docs).
  { intros env m' t. unfold load_input. destruct (inputs l) as [|i ins]; [done|].
    intros (docs & HR & ->)%load_inputs_spec. exists docs. split; [done|].
    by rewrite extend_list_to_map, map_union_empty. }
  destruct (sequence l).
  - destruct (environment_variables w); simpl in H; congruence.
  - destruct (environment_variables w) as [env| |]; [|done..].
    destruct (load_input w l env) as [[m'| |] t] eqn:E; [|done..].
    injection H as <-. destruct (Hin _ _ _ E) as (docs & HR & ->).
    exists env, docs. by rewrite extend_map_union.
  - destruct (load_input w l ∅) as [r t] eqn:E. simpl in H. subst r. by eapply Hin.
  - destruct (environment_variables w) as [env| |]; [|done..].
    destruct (load_input w l env) as [[m'| |] t] eqn:E; [|done..].
    injection H as <-. destruct (Hin _ _ _ E) as (docs & HR & ->).
    exists env, docs. by rewrite extend_map_union.
Qed.

(** A file system with two files, and an environment. *)
Definition sample_world : World :=
  mkWorld [(OsUnicode u!"A", OsUnicode u!"env")]
    (fun path => if bool_decide (path = u!"one") then inr (inr u!"A=1")
                 else if bool_decide (path = u!"two") then inr (inr u!"B=${A}")
                 else inl IoNotFound).

Definition sample_loader : EnvLoader :=
  set_sequence (set_required (loader_substitution (with_paths [u!"one"; u!"none"; u!"two"]) true) false)
    EnvThenInput.

Lemma load_precedence_example :
  exists m, load sample_world sample_loader = Ok m /\
    exists env docs, environment_variables sample_world = Ok env /\
      Reads sample_world sample_loader (protected_of sample_loader env) ∅ (inputs sample_loader) docs /\
      m = assigned docs ∪ env.
Proof.
  eexists. split; [vm_compute; reflexivity|].
  apply (load_precedence sample_world sample_loader). vm_compute. reflexivity.
Defined.

(** When loading fails inside the documents, there is one input at fault: those before it
    were read, and the error is that of opening it, of reading it or of parsing it with the
    variables of those before, and names its path. A loader without inputs fails with
    [NoInput], and nothing else does. *)
Theorem load_input_error w l environment e t :
  load_input w l environment = (Err e, t) ->
  (inputs l = [] /\ e = NoInput) \/
  exists pre input post docs, inputs l = pre ++ input :: post /\
    Reads w l (protected_of l environment) ∅ pre docs /\
    Fails w l (assigned docs) (protected_of l environment) input e /\ e <> NoInput.
Proof.
  unfold load_input. destruct (inputs l) as [|i ins]; [intros [= <- <-]; by left|].
  intros (pre & input & post & docs & -> & HR & HF)%load_inputs_spec. right.
  exists pre, input, post, docs. split_and!; [done|done| |].
  - revert HF. by rewrite extend_list_to_map, map_union_empty.
  - destruct HF as [e Ho|?|?]; [|done..]. revert Ho. unfold open_input.
    repeat case_match; naive_solver.
Qed.

(** The dependencies that [load_with_substitution_dependencies] reports are complete: in
    any environment that agrees with this one on the reported names, loading succeeds with the
    same dependencies and gives every variable on which the environments agree the same
    value. *)
Theorem dependencies_complete w vars vars' env env' l m deps :
  environment_variables (mkWorld vars (open_file w)) = Ok env ->
  environment_variables (mkWorld vars' (open_file w)) = Ok env' ->
  load_with_substitution_dependencies (mkWorld vars (open_file w)) l = Ok (m, deps) ->
  (forall name, name ∈ deps -> env !! name = env' !! name) ->
  exists m', load_with_substitution_dependencies (mkWorld vars' (open_file w)) l = Ok (m', deps) /\
    forall key, env !! key = env' !! key -> m !! key = m' !! key.
Proof.
  intros He He' Hl Hag. unfold load_with_substitution_dependencies in *.
  set (l' := set_loader_tracker l (Some ∅)) in *.
  destruct (load_tracked _ l') as [[m0|e|] t] eqn:E; [|done..]. injection Hl as -> <-.
  assert (Hin : forall e1 e2 m1 t1, load_input (mkWorld vars (open_file w)) l' e1 = (Ok m1, t1) ->
    (forall name, name ∈ default ∅ t1 -> e1 !! name = e2 !! name) ->
    load_input (mkWorld vars' (open_file w)) l' e2 = (Ok m1, t1)).
  { intros e1 e2 m1 t1 H H12. destruct (load_input_tracked _ l' e1 e2 ∅ _ _ eq_refl H) as (s & -> & Hs).
    rewrite <- Hs by exact H12. by apply load_input_files. }
  unfold load_tracked in *. destruct (sequence l').
  - rewrite He in E. rewrite He'. injection E as <- <-. exists env'. split; [done|auto].
  - rewrite He in E. rewrite He'. destruct (load_input _ l' env) as [[m1| |] t1] eqn:E1; [|done..].
    injection E as <- <-. rewrite (Hin _ env' _ _ E1 Hag). eexists. split; [done|].
    intros key Hk. by rewrite !extend_map_union, !lookup_union, Hk.
  - rewrite (Hin _ ∅ _ _ E) by done. eauto.
  - rewrite He in E. rewrite He'. destruct (load_input _ l' env) as [[m1| |] t1] eqn:E1; [|done..].
    injection E as <- <-. rewrite (Hin _ env' _ _ E1 Hag). eexists. split; [done|].
    intros key Hk. by rewrite !extend_map_union, !lookup_union, Hk.
Qed.

Lemma dependencies_complete_example :
  exists m deps, load_with_substitution_dependencies
      (mkWorld (vars_os sample_world) (open_file sample_world)) sample_loader = Ok (m, deps) /\
    exists m', load_with_substitution_dependencies
      (mkWorld ((OsUnicode u!"C", OsUnicode u!"c") :: vars_os sample_world) (open_file sample_world))
      sample_loader = Ok (m', deps) /\
    forall key, ({[u!"A" := u!"env"]} : gmap str str) !! key
      = ({[u!"A" := u!"env"; u!"C" := u!"c"]} : gmap str str) !! key -> m !! key = m' !! key.
Proof.
  eexists _, {[u!"A"]}. split; [vm_compute; reflexivity|].
  apply (dependencies_complete sample_world (vars_os sample_world)
    ((OsUnicode u!"C", OsUnicode u!"c") :: vars_os sample_world) _ _ sample_loader _ {[u!"A"]});
    [vm_compute; reflexivity..|].
  intros name ->%elem_of_singleton. vm_compute. reflexivity.
Defined.
