(* ===== verification/Identity.v ===== *)
(** * Installation identity ([src/install_layout/identity.rs])

    The canonical encoding that is hashed to name an installation, the request key, and the
    base32 text of a digest. A Rust [String] is here its UTF-8 bytes, which is what is hashed;
    a [BTreeMap] the list of its entries in key order. The hash itself (the [blake3] crate) is
    an argument. *)

From S2P Require Import Prelude RustStr.

Abbreviation bytes := (list N) (only parsing).

Definition IDENTITY_FORMAT : N := 1.
Definition DOMAIN : bytes := u!"mise-install-identity" ++ [0%N].

Inductive Mode : Type := Resolved | Fallback.

Definition Mode_tag (m : Mode) : bytes :=
  match m with Resolved => u!"resolved" | Fallback => u!"fallback" end.

Record InstallIdentity := mkInstallIdentity {
  mode : Mode;
  backend : bytes;
  version : bytes;
  platform : bytes;
  options : list (bytes * bytes);
  inputs : list (bytes * bytes)
}.

(** [to_le_bytes] of an integer of [width] bytes. *)
Fixpoint to_le_bytes (width : nat) (n : N) : bytes :=
  match width with
  | 0 => []
  | S width => (n mod 256)%N :: to_le_bytes width (n / 256)%N
  end.

(** What [field] appends. *)
Definition field (tag : N) (value : bytes) : bytes :=
  [tag] ++ to_le_bytes 8 (N.of_nat (length value)) ++ value.

(** What [map] appends. *)
Definition map_field (tag : N) (entries : list (bytes * bytes)) : bytes :=
  [tag] ++ to_le_bytes 8 (N.of_nat (length entries))
    ++ flat_map (fun kv => field c!"k" (fst kv) ++ field c!"x" (snd kv)) entries.

Definition canonical_bytes (i : InstallIdentity) : bytes :=
  DOMAIN ++ to_le_bytes 4 IDENTITY_FORMAT
    ++ field c!"m" (Mode_tag i.(mode)) ++ field c!"b" i.(backend) ++ field c!"v" i.(version)
    ++ field c!"p" i.(platform) ++ map_field c!"o" i.(options) ++ map_field c!"i" i.(inputs).

Definition is_pin_input (key : bytes) : bool := starts_with u!"artifact." key.

Definition request_key (i : InstallIdentity) : InstallIdentity :=
  mkInstallIdentity Fallback i.(backend) i.(version) i.(platform) i.(options)
    (List.filter (fun kv => negb (is_pin_input (fst kv))) i.(inputs)).

(** [InstallIdentity::digest], with [blake3::hash]. *)
Definition digest (hash : bytes -> bytes) (i : InstallIdentity) : bytes := hash (canonical_bytes i).

(** ** Base32 *)

Definition DIGEST_CHARS : nat := 52.
Definition ALPHABET : str := u!"abcdefghijklmnopqrstuvwxyz234567".

(** [<<] on [u32]: bits beyond the width are lost. *)
Definition shl32 (b n : N) : N := (N.shiftl b n mod 2 ^ 32)%N.

(** [ALPHABET[i]] *)
Definition alphabet_at (i : N) : char := nth (N.to_nat i) ALPHABET 0%N.

(** The inner [while] of [base32_encode]; every round takes five bits, so [bits] is fuel. *)
Fixpoint encode_emit (fuel : nat) (buffer : N) (bits : nat) (out : str) : nat * str :=
  match fuel with
  | 0 => (bits, out)
  | S fuel =>
      if 5 <=? bits then
        let bits := bits - 5 in
        encode_emit fuel buffer bits
          (out ++ [alphabet_at (N.land (N.shiftr buffer (N.of_nat bits)) 0x1f)])
      else (bits, out)
  end.

(** The loop of [base32_encode]. *)
Fixpoint encode_loop (bs : bytes) (buffer : N) (bits : nat) (out : str) : N * nat * str :=
  match bs with
  | [] => (buffer, bits, out)
  | byte :: bs' =>
      let buffer := N.lor (shl32 buffer 8) byte in
      let '(bits, out) := encode_emit (bits + 8) buffer (bits + 8) out in
      encode_loop bs' buffer bits out
  end.

Definition base32_encode (bs : bytes) : str :=
  let '(buffer, bits, out) := encode_loop bs 0%N 0 [] in
  if 0 <? bits
  then out ++ [alphabet_at (N.land (shl32 buffer (N.of_nat (5 - bits))) 0x1f)]
  else out.

(** [Iterator::position] *)
Fixpoint position_of (c : char) (l : str) : option nat :=
  match l with
  | [] => None
  | x :: l' => if (x =? c)%N then Some 0 else option_map S (position_of c l')
  end.

(** The loop of [base32_decode]; [out] is the part of the array that is written. *)
Fixpoint decode_loop (s : str) (buffer : N) (bits : nat) (out : bytes) : option (N * nat * bytes) :=
  match s with
  | [] => Some (buffer, bits, out)
  | c :: s' =>
      match position_of c ALPHABET with
      | None => None
      | Some value =>
          let buffer := N.lor (shl32 buffer 5) (N.of_nat value) in
          let bits := bits + 5 in
          if 8 <=? bits then
            let bits := bits - 8 in
            if length out =? 32 then None
            else decode_loop s' buffer bits
                   (out ++ [N.land (N.shiftr buffer (N.of_nat bits)) 0xff])
          else decode_loop s' buffer bits out
      end
  end.

Definition base32_decode (s : str) : option bytes :=
  if negb (len s =? DIGEST_CHARS) then None
  else
    match decode_loop s 0%N 0 [] with
    | None => None
    | Some (buffer, bits, out) =>
        if (length out =? 32) && (N.land buffer (shl32 1 (N.of_nat bits) - 1) =? 0)%N
        then Some out else None
    end.

(** ** Definitions used by the statements *)

(** A Rust length: it fits 64 bits. *)
Definition fits {A : Type} (l : list A) : Prop := (N.of_nat (length l) < 2 ^ 64)%N.

Definition fits_entries (es : list (bytes * bytes)) : Prop :=
  fits es /\ Forall (fun kv => fits kv.1 /\ fits kv.2) es.

Definition identity_fits (i : InstallIdentity) : Prop :=
  fits i.(backend) /\ fits i.(version) /\ fits i.(platform) /\
  fits_entries i.(options) /\ fits_entries i.(inputs).

Definition byte_list (bs : bytes) : Prop := Forall (fun b => (b < 256)%N) bs.

(** The number that digits in base [2^w] write. *)
Definition value_of (w : N) (ds : list N) : N := fold_left (fun acc d => (acc * 2 ^ w + d)%N) ds 0%N.

(** ** The canonical encoding is injective *)

Lemma to_le_bytes_length w n : length (to_le_bytes w n) = w.
Proof. revert n. induction w as [|w IH]; intros n; simpl; [done|]. by rewrite IH. Qed.

Lemma to_le_bytes_inj w n m :
  (n < 256 ^ N.of_nat w)%N -> (m < 256 ^ N.of_nat w)%N -> to_le_bytes w n = to_le_bytes w m -> n = m.
Proof.
  revert n m. induction w as [|w IH]; intros n m Hn Hm; cbn [to_le_bytes].
  - simpl in *. lia.
  - rewrite Nat2N.inj_succ, N.pow_succ_r' in *. intros [= H1 H2].
    apply IH in H2; [|apply N.Div0.div_lt_upper_bound; lia..].
    rewrite (N.div_mod n 256), (N.div_mod m 256) by lia. congruence.
Qed.

Lemma field_inj tag a b x y : fits a -> fits b ->
  field tag a ++ x = field tag b ++ y -> a = b /\ x = y.
Proof.
  unfold field, fits. intros Ha Hb. rewrite <- !app_assoc. cbn [app].
  intros H. apply (f_equal tail) in H. cbn [tail] in H. apply app_inj_1 in H as [H1 H2]; [|by rewrite !to_le_bytes_length].
  apply to_le_bytes_inj in H1; [|exact Ha|exact Hb]. by apply app_inj_1 in H2; [|lia].
Qed.

Lemma entries_inj es fs x y :
  Forall (fun kv => fits kv.1 /\ fits kv.2) es -> Forall (fun kv => fits kv.1 /\ fits kv.2) fs ->
  length es = length fs ->
  flat_map (fun kv => field c!"k" (fst kv) ++ field c!"x" (snd kv)) es ++ x =
  flat_map (fun kv => field c!"k" (fst kv) ++ field c!"x" (snd kv)) fs ++ y -> es = fs /\ x = y.
Proof.
  intros He. revert fs. induction He as [|[k v] es [Hk Hv] He IH]; intros [|[k' v'] fs] Hf Hl; try done.
  inversion Hf as [|? ? [Hk' Hv'] Hfs]; subst. cbn [flat_map fst snd]. rewrite <- !app_assoc.
  intros H. apply field_inj in H as [-> H]; [|done..]. apply field_inj in H as [-> H]; [|done..].
  apply IH in H as [-> ->]; auto.
Qed.

Lemma map_field_inj tag es fs x y : fits_entries es -> fits_entries fs ->
  map_field tag es ++ x = map_field tag fs ++ y -> es = fs /\ x = y.
Proof.
  intros [Hl He] [Hl' Hf]. unfold map_field. rewrite <- !app_assoc. cbn [app].
  intros H. apply (f_equal tail) in H. cbn [tail] in H. apply app_inj_1 in H as [H1 H2]; [|by rewrite !to_le_bytes_length].
  apply to_le_bytes_inj in H1; [|done..]. apply entries_inj in H2; auto. lia.
Qed.

Lemma Mode_tag_fits m : fits (Mode_tag m).
Proof. by destruct m. Qed.

Lemma canonical_bytes_prefix_free a b x y :
  identity_fits a -> identity_fits b -> canonical_bytes a ++ x = canonical_bytes b ++ y ->
  a = b /\ x = y.
Proof.
  intros (Ha1 & Ha2 & Ha3 & Ha4 & Ha5) (Hb1 & Hb2 & Hb3 & Hb4 & Hb5).
  unfold canonical_bytes. rewrite <- !app_assoc. intros H.
  apply app_inv_head, app_inv_head in H.
  apply field_inj in H as [Hm H]; [|apply Mode_tag_fits..].
  do 3 (apply field_inj in H as [? H]; [|done..]).
  do 2 (apply map_field_inj in H as [? H]; [|done..]).
  split; [|done]. destruct a as [ma], b as [mb]; simpl in *.
  assert (ma = mb) as -> by (by destruct ma, mb). congruence.
Qed.

(** ** Request keys *)

Lemma filter_idem {A} (f : A -> bool) l : List.filter f (List.filter f l) = List.filter f l.
Proof.
  induction l as [|x l IH]; simpl; [done|]. destruct (f x) eqn:E; simpl; [by rewrite E, IH|done].
Qed.

(** ** Regrouping bits

    Both base32 loops shift digits of one width into a buffer and take digits of another out
    of it. [Pending]: the digits in make the number [v], the digits out are [ds], and the low
    [bits] bits of the buffer are still to go out. *)

Definition Pending (w v : N) (ds : list N) (bits : nat) (buffer : N) : Prop :=
  (v = value_of w ds * 2 ^ N.of_nat bits + buffer mod 2 ^ N.of_nat bits)%N.

Lemma value_of_snoc w ds d : value_of w (ds ++ [d]) = (value_of w ds * 2 ^ w + d)%N.
Proof. unfold value_of. by rewrite fold_left_app. Qed.

Lemma value_of_inj w ds es :
  length ds = length es -> Forall (fun d => (d < 2 ^ w)%N) ds -> Forall (fun d => (d < 2 ^ w)%N) es ->
  value_of w ds = value_of w es -> ds = es.
Proof.
  revert es. induction ds as [|d ds IH] using rev_ind; intros es Hl Hd He Hv.
  { by destruct es. }
  destruct es as [|e es _] using rev_ind; [rewrite length_app in Hl; simpl in Hl; lia|].
  rewrite !length_app in Hl. simpl in Hl. rewrite !Forall_app, !Forall_singleton in *.
  rewrite !value_of_snoc in Hv. destruct Hd as [Hd Hd1], He as [He He1].
  assert (value_of w ds = value_of w es /\ d = e) as [H ->].
  { rewrite !(N.mul_comm _ (2 ^ w)) in Hv. by apply N.div_mod_unique in Hv. }
  rewrite (IH es); auto. lia.
Qed.

Lemma lor_shifted a n x : (x < 2 ^ n)%N -> N.lor (a * 2 ^ n) x = (a * 2 ^ n + x)%N.
Proof.
  intros Hx. rewrite <- N.shiftl_mul_pow2. symmetry. rewrite N.add_nocarry_lxor.
  - apply N.bits_inj. intros i. rewrite N.lxor_spec, N.lor_spec.
    destruct (N.lt_ge_cases i n) as [Hi|Hi].
    + rewrite N.shiftl_spec_low by done. by destruct (N.testbit x i).
    + replace (N.testbit x i) with false; [by destruct (N.testbit _ i)|].
      symmetry. destruct (N.eq_dec x 0) as [->|Hnz]; [apply N.bits_0|].
      apply N.bits_above_log2. apply N.log2_lt_pow2; [lia|].
      eapply N.lt_le_trans; [exact Hx|]. by apply N.pow_le_mono_r.
  - apply N.bits_inj. intros i. rewrite N.land_spec, N.bits_0.
    destruct (N.lt_ge_cases i n) as [Hi|Hi]; [by rewrite N.shiftl_spec_low|].
    replace (N.testbit x i) with false; [apply andb_false_r|].
    symmetry. destruct (N.eq_dec x 0) as [->|Hnz]; [apply N.bits_0|].
    apply N.bits_above_log2. apply N.log2_lt_pow2; [lia|].
    eapply N.lt_le_trans; [exact Hx|]. by apply N.pow_le_mono_r.
Qed.

Lemma shl32_mul b n : (n <= 32)%N -> shl32 b n = ((b mod 2 ^ (32 - n)) * 2 ^ n)%N.
Proof.
  intros Hn. unfold shl32. rewrite N.shiftl_mul_pow2.
  replace (2 ^ 32)%N with (2 ^ (32 - n) * 2 ^ n)%N.
  - apply N.Div0.mul_mod_distr_r.
  - rewrite <- N.pow_add_r. f_equal. lia.
Qed.

Lemma mod_pow_mod b m n : (n <= m)%N -> ((b mod 2 ^ m) mod 2 ^ n)%N = (b mod 2 ^ n)%N.
Proof.
  intros H. replace m with (n + (m - n))%N by lia. rewrite N.pow_add_r, N.Div0.mod_mul_r.
  rewrite (N.mul_comm (2 ^ n)), N.Div0.mod_add. by apply N.Div0.mod_mod.
Qed.

Lemma Pending_push w v ds bits buffer wi x :
  bits <= 20 -> (wi <= 8)%N -> (x < 2 ^ wi)%N -> Pending w v ds bits buffer ->
  Pending w (v * 2 ^ wi + x) ds (bits + N.to_nat wi) (N.lor (shl32 buffer wi) x).
Proof.
  unfold Pending. intros Hb Hw Hx ->. rewrite shl32_mul, lor_shifted by lia.
  rewrite Nat2N.inj_add, N2Nat.id, N.pow_add_r.
  set (B := (2 ^ N.of_nat bits)%N). set (W := (2 ^ wi)%N).
  assert (((buffer mod 2 ^ (32 - wi)) * W + x) mod (B * W) = (buffer mod B) * W + x)%N as ->; [|lia].
  rewrite (N.mul_comm B W), N.Div0.mod_mul_r.
  assert (W <> 0)%N as HW by (by apply N.pow_nonzero).
  rewrite (N.add_comm (_ * W)), N.Div0.mod_add, N.div_add, (N.mod_small x), (N.div_small x) by done.
  rewrite N.add_0_l. unfold B. rewrite mod_pow_mod by lia. lia.
Qed.

Lemma Pending_emit w v ds bits buffer :
  Pending w v ds (bits + N.to_nat w) buffer ->
  Pending w v (ds ++ [N.land (N.shiftr buffer (N.of_nat bits)) (N.ones w)]) bits buffer.
Proof.
  unfold Pending. intros ->. rewrite value_of_snoc, N.land_ones, N.shiftr_div_pow2.
  rewrite Nat2N.inj_add, N2Nat.id, N.pow_add_r, N.Div0.mod_mul_r. lia.
Qed.

(** ** The base32 loops *)

Abbreviation digits := (Forall (fun d => (d < 32)%N)).

Lemma land_ones_lt x w : (N.land x (N.ones w) < 2 ^ w)%N.
Proof. rewrite N.land_ones. apply N.mod_upper_bound. by apply N.pow_nonzero. Qed.

(** A text that writes [ds] in base32, [v] being the number read so far. *)
Definition encoding (v : N) (ds : list N) (bits : nat) (buffer : N) (out : str) (total : nat) : Prop :=
  Pending 5 v ds bits buffer /\ digits ds /\ out = map alphabet_at ds /\ 5 * length ds + bits = total.

Lemma encode_emit_spec fuel v ds bits buffer out total :
  bits <= fuel -> encoding v ds bits buffer out total ->
  exists bits' ds' out', encode_emit fuel buffer bits out = (bits', out') /\
    encoding v ds' bits' buffer out' total /\ bits' < 5.
Proof.
  revert ds bits out. induction fuel as [|fuel IH]; intros ds bits out Hf He; simpl.
  { exists bits, ds, out. split_and!; [done|done|lia]. }
  destruct He as (Hp & Hd & -> & Ht).
  destruct bits as [|[|[|[|[|b]]]]];
    try (eexists _, ds, _; split; [reflexivity|split; [by split_and!|lia]]).
  eapply IH; [simpl; lia|]. cbn [Nat.sub]. rewrite Nat.sub_0_r.
  replace (S (S (S (S (S b))))) with (b + N.to_nat 5) in Hp by (simpl; lia).
  apply Pending_emit in Hp. change (N.ones 5) with 0x1f%N in Hp.
  split_and!; [exact Hp| | |rewrite length_app; simpl; lia].
  - apply Forall_app; split; [done|]. apply Forall_singleton. apply (land_ones_lt _ 5).
  - by rewrite map_app.
Qed.

Lemma encode_loop_spec bs v ds bits buffer out n :
  byte_list bs -> encoding v ds bits buffer out (8 * n) -> bits < 5 ->
  exists ds' bits' buffer' out', encode_loop bs buffer bits out = (buffer', bits', out') /\
    encoding (fold_left (fun acc d => (acc * 2 ^ 8 + d)%N) bs v) ds' bits' buffer' out' (8 * (n + length bs)) /\
    bits' < 5.
Proof.
  intros Hb. revert v ds bits buffer out n. induction Hb as [|b bs Hlt Hb IH];
    intros v ds bits buffer out n He Hbits.
  { exists ds, bits, buffer, out. rewrite Nat.add_0_r. done. }
  cbn [encode_loop fold_left].
  destruct (encode_emit_spec (bits + 8) (v * 2 ^ 8 + b) ds (bits + 8) (N.lor (shl32 buffer 8) b) out (8 * S n))
    as (bits' & ds' & out' & -> & He' & Hlt').
  - lia.
  - destruct He as (Hp & Hd & -> & Ht). split_and!; [|done|done|lia].
    apply (Pending_push 5 v ds bits buffer 8 b); [lia|lia|exact Hlt|exact Hp].
  - destruct (IH _ _ _ _ _ (S n) He' Hlt') as (ds2 & bits2 & buf2 & out2 & -> & He2 & Hb2).
    exists ds2, bits2, buf2, out2. split_and!; [done| |done].
    replace (n + length (b :: bs)) with (S n + length bs) by (simpl; lia). exact He2.
Qed.

(** What [base32_encode] writes for a digest. *)
Lemma base32_encode_spec bs :
  byte_list bs -> length bs = 32 ->
  exists ds, base32_encode bs = map alphabet_at ds /\ digits ds /\ length ds = 52 /\
    value_of 5 ds = (value_of 8 bs * 16)%N.
Proof.
  intros Hb Hl. destruct (encode_loop_spec bs 0 [] 0 0 [] 0) as (ds & bits & buffer & out & E & He & Hlt).
  - done.
  - done.
  - lia.
  - unfold base32_encode. rewrite E. destruct He as (Hp & Hd & -> & Ht). rewrite Hl in Ht. simpl in Ht.
    assert (bits = 1) as -> by lia.
    replace (0 <? 1) with true by done. exists (ds ++ [N.land (shl32 buffer (N.of_nat (5 - 1))) 0x1f]).
    split_and!.
    + by rewrite map_app.
    + apply Forall_app; split; [done|]. apply Forall_singleton. apply (land_ones_lt _ 5).
    + rewrite length_app. simpl. lia.
    + rewrite value_of_snoc. unfold Pending in Hp. fold (value_of 8 bs) in Hp. rewrite Hp.
      rewrite shl32_mul by (simpl; lia). change 0x1f%N with (N.ones 5). rewrite N.land_ones.
      change (N.of_nat (5 - 1)) with 4%N. change (2 ^ 5)%N with (2 ^ 1 * 2 ^ 4)%N.
      rewrite N.Div0.mul_mod_distr_r, mod_pow_mod by lia. change (N.of_nat 1) with 1%N. lia.
Qed.

Lemma position_of_spec c l n : position_of c l = Some n -> n < length l /\ nth n l 0%N = c.
Proof.
  revert n. induction l as [|x l IH]; intros n; simpl; [done|].
  destruct (N.eqb_spec x c) as [->|Hne]; [intros [= <-]; split; [lia|done]|].
  destruct (position_of c l) as [m|]; [|done]. intros [= <-]. destruct (IH m eq_refl). split; [lia|done].
Qed.

Lemma position_of_alphabet d : (d < 32)%N -> position_of (alphabet_at d) ALPHABET = Some (N.to_nat d).
Proof.
  intros Hd. unfold alphabet_at. assert (N.to_nat d < 32) as Hn by lia. revert Hn.
  generalize (N.to_nat d) as n. clear d Hd. intros n Hn.
  do 32 (destruct n as [|n]; [reflexivity|]). lia.
Qed.

Lemma alphabet_spec c n : position_of c ALPHABET = Some n ->
  (N.of_nat n < 32)%N /\ alphabet_at (N.of_nat n) = c.
Proof.
  intros [Hn Hc]%position_of_spec. change (length ALPHABET) with 32 in Hn.
  split; [lia|]. unfold alphabet_at. by rewrite Nat2N.id.
Qed.

(** [decoding]: the bytes out so far, for the digits read so far. *)
Definition decoding (v : N) (out : bytes) (bits : nat) (buffer : N) (total : nat) : Prop :=
  Pending 8 v out bits buffer /\ byte_list out /\ 8 * length out + bits = total /\ bits < 8.

Lemma decode_loop_digits ds v out bits buffer n :
  digits ds -> decoding v out bits buffer (5 * n) -> n + length ds <= 52 ->
  exists out' bits' buffer', decode_loop (map alphabet_at ds) buffer bits out = Some (buffer', bits', out') /\
    decoding (fold_left (fun acc d => (acc * 2 ^ 5 + d)%N) ds v) out' bits' buffer' (5 * (n + length ds)).
Proof.
  intros Hd. revert v out bits buffer n. induction Hd as [|d ds Hlt Hd IH];
    intros v out bits buffer n (Hp & Hb & Ht & Hbits) Hn.
  { exists out, bits, buffer. rewrite Nat.add_0_r. done. }
  cbn [map decode_loop fold_left]. rewrite position_of_alphabet by done. rewrite N2Nat.id. simpl length in Hn.
  assert (Pending 8 (v * 2 ^ 5 + d) out (bits + 5) (N.lor (shl32 buffer 5) d)) as Hp'.
  { apply (Pending_push 8 v out bits buffer 5 d); [lia|lia|exact Hlt|exact Hp]. }
  replace (n + length (d :: ds)) with (S n + length ds) by (simpl; lia).
  destruct (Nat.leb_spec 8 (bits + 5)).
  - assert ((length out =? 32) = false) as -> by (apply Nat.eqb_neq; lia).
    apply IH; [|simpl; lia].
    replace (bits + 5) with (bits + 5 - 8 + N.to_nat 8) in Hp' by (simpl; lia).
    apply Pending_emit in Hp'. change (N.ones 8) with 0xff%N in Hp'.
    split_and!; [exact Hp'| |rewrite length_app; simpl; lia|lia].
    apply Forall_app; split; [done|]. apply Forall_singleton. apply (land_ones_lt _ 8).
  - apply IH; [|simpl; lia]. split_and!; [exact Hp'|done|lia|lia].
Qed.

Lemma decode_loop_chars s buffer bits out r :
  decode_loop s buffer bits out = Some r -> exists ds, s = map alphabet_at ds /\ digits ds.
Proof.
  revert buffer bits out. induction s as [|c s IH]; intros buffer bits out; [by exists []|].
  cbn [decode_loop]. destruct (position_of c ALPHABET) as [n|] eqn:E; [|done]. apply alphabet_spec in E as [Hn Hc].
  intros H. assert (exists ds, s = map alphabet_at ds /\ digits ds) as (ds & -> & Hd).
  { destruct (8 <=? bits + 5); [destruct (length out =? 32); [done|]|]; by eapply IH. }
  exists (N.of_nat n :: ds). split; [simpl; by rewrite Hc|by constructor].
Qed.

Lemma len_digits ds : digits ds -> len (map alphabet_at ds) = length ds.
Proof.
  induction 1 as [|d ds Hd _ IH]; simpl; [done|]. rewrite IH.
  assert (len_utf8 (alphabet_at d) = 1) as ->; [|done].
  unfold alphabet_at. assert (N.to_nat d < 32) as Hn by lia. revert Hn.
  generalize (N.to_nat d) as n. intros n Hn. do 32 (destruct n as [|n]; [reflexivity|]). lia.
Qed.

(** What [base32_decode] reads in a text of 52 digits. *)
Lemma base32_decode_digits ds :
  digits ds -> length ds = 52 ->
  exists out r, length out = 32 /\ byte_list out /\ value_of 5 ds = (value_of 8 out * 16 + r)%N /\
    (r < 16)%N /\ base32_decode (map alphabet_at ds) = if (r =? 0)%N then Some out else None.
Proof.
  intros Hd Hl. destruct (decode_loop_digits ds 0 [] 0 0 0) as (out & bits & buffer & E & Hp & Hb & Ht & Hlt).
  - done.
  - split_and!; [done|by apply Forall_nil|done|lia].
  - lia.
  - rewrite Hl in Ht. assert (bits = 4 /\ length out = 32) as [-> Ho] by lia.
    exists out, (buffer mod 16)%N. unfold Pending in Hp. fold (value_of 5 ds) in Hp.
    split_and!; [done|done|exact Hp|apply N.mod_upper_bound; lia|].
    unfold base32_decode. rewrite len_digits, Hl, E, Ho by done. cbn [negb Nat.eqb DIGEST_CHARS andb].
    change (shl32 1 (N.of_nat 4) - 1)%N with (N.ones 4). by rewrite N.land_ones.
Qed.

(** ** Properties *)

(** C39. The canonical encoding is injective, even with text after it: two requests that differ in
    any field, option or input are hashed from different bytes. Lengths are 64-bit. *)
Theorem canonical_bytes_injective a b x y :
  identity_fits a -> identity_fits b -> canonical_bytes a ++ x = canonical_bytes b ++ y -> a = b /\ x = y.
Proof. apply canonical_bytes_prefix_free. Qed.

(** An identity with a pinned artifact. *)
Definition sample_identity : InstallIdentity :=
  mkInstallIdentity Resolved u!"aqua:FiloSottile/age" u!"1.2.0" u!"linux-x64"
    [(u!"exe", u!"age")] [(u!"artifact.sha256", u!"ab"); (u!"aube", u!"g1")].

Lemma canonical_bytes_injective_witness :
  identity_fits sample_identity /\ sample_identity = sample_identity /\ u!"x" = u!"x".
Proof.
  assert (identity_fits sample_identity) as H.
  { unfold identity_fits, fits_entries, fits. split_and!; try reflexivity;
      repeat constructor. }
  split; [exact H|]. apply canonical_bytes_injective; [exact H|exact H|reflexivity].
Defined.

(** The request key forgets the mode and exactly the inputs that pin an artifact, keeps
    everything else, and is its own request key. *)
Theorem request_key_spec i :
  mode (request_key i) = Fallback /\ backend (request_key i) = backend i /\
  version (request_key i) = version i /\ platform (request_key i) = platform i /\
  options (request_key i) = options i /\
  (forall kv, In kv (inputs (request_key i)) <->
     In kv (inputs i) /\ ~ exists suffix, kv.1 = u!"artifact." ++ suffix) /\
  request_key (request_key i) = request_key i.
Proof.
  split_and!; try done.
  - intros kv. simpl. rewrite filter_In. unfold is_pin_input.
    rewrite negb_true_iff, <- not_true_iff_false, starts_with_spec. done.
  - unfold request_key. simpl. by rewrite filter_idem.
Qed.

(** Base32 round trip: a digest of 32 bytes is written with 52 characters of the alphabet and
    read back as itself. *)
Theorem base32_round_trip bs :
  byte_list bs -> length bs = 32 ->
  len (base32_encode bs) = DIGEST_CHARS /\ base32_decode (base32_encode bs) = Some bs.
Proof.
  intros Hb Hl. destruct (base32_encode_spec bs Hb Hl) as (ds & -> & Hd & Hds & Hv).
  split; [by rewrite len_digits, Hds|].
  destruct (base32_decode_digits ds Hd Hds) as (out & r & Ho & Hbo & Hv' & Hr & ->).
  rewrite Hv in Hv'. assert (r = 0%N /\ value_of 8 bs = value_of 8 out) as [-> He] by lia.
  simpl. f_equal. symmetry. apply (value_of_inj 8); [congruence|done|done|done].
Qed.

Lemma base32_round_trip_example :
  base32_decode (base32_encode (repeat 0xA7%N 32)) = Some (repeat 0xA7%N 32).
Proof. apply base32_round_trip; [repeat constructor|reflexivity]. Defined.

(** Base32 is canonical: a text that decodes is exactly the encoding of the 32 bytes it decodes
    to, so no two texts name one digest. *)
Theorem base32_canonical s bs :
  base32_decode s = Some bs -> length bs = 32 /\ byte_list bs /\ base32_encode bs = s.
Proof.
  intros H. assert (exists ds, s = map alphabet_at ds /\ digits ds /\ length ds = 52) as (ds & -> & Hd & Hl).
  { revert H. unfold base32_decode. destruct (Nat.eqb_spec (len s) DIGEST_CHARS) as [Hl|]; [|done]. simpl.
    destruct (decode_loop s 0 0 []) as [r|] eqn:E; [|done]. intros _.
    destruct (decode_loop_chars _ _ _ _ _ E) as (ds & -> & Hd). exists ds.
    split_and!; [done|done|]. by rewrite <- (len_digits ds). }
  destruct (base32_decode_digits ds Hd Hl) as (out & r & Ho & Hb & Hv & Hr & E). rewrite E in H.
  destruct (N.eqb_spec r 0) as [Hz|]; [|done]. injection H as <-. rewrite Hz in Hv.
  destruct (base32_encode_spec out Hb Ho) as (ds' & -> & Hd' & Hl' & Hv').
  split_and!; [done|done|]. f_equal. apply (value_of_inj 5); [congruence|done|done|lia].
Qed.

Lemma base32_canonical_example :
  length (repeat 0%N 32) = 32 /\ byte_list (repeat 0%N 32) /\
  base32_encode (repeat 0%N 32) = repeat c!"a" 52.
Proof. apply base32_canonical. vm_compute. reflexivity. Defined.
