(* ===== verification/PathEnv.v ===== *)
(** * PATH as mise computes it ([crates/mise-util/src/path_env.rs])

    [PathEnv] and the checks on PATH entries, on Unix. Paths are texts; Rust compares them by
    their components, and so do the sets of the code. Canonical paths and the shims test, which
    ask the file system, are arguments. *)

From S2P Require Import Prelude RustStr Identity.

(** ** [std::path] and [std::env] on Unix *)

Definition slash : char := 47%N.

(** Whether a path is absolute, and the rest of [Path::components]: empty components and [.]
    components are skipped, except a leading [.] of a relative path. *)
Definition components (p : str) : bool * list str :=
  let absolute := match p with c :: _ => (c =? slash)%N | [] => false end in
  let pieces := List.filter (fun c => match c with [] => false | _ => true end)
                  (split_on (N.eqb slash) p) in
  let dotless := List.filter (fun c => negb (bool_decide (c = u!"."))) in
  (absolute,
   match pieces with
   | first :: rest =>
       if negb absolute && bool_decide (first = u!".") then first :: dotless rest else dotless pieces
   | [] => []
   end).

(** [PathBuf]'s [Eq] and [Hash]. *)
Definition path_eqb (a b : str) : bool := bool_decide (components a = components b).

Definition path_in (p : str) (l : list str) : bool := existsb (path_eqb p) l.

(** [Path::strip_prefix]: the components left. *)
Fixpoint strip_components (dir p : list str) : option (list str) :=
  match dir, p with
  | [], _ => Some p
  | d :: dir', c :: p' => if bool_decide (d = c) then strip_components dir' p' else None
  | _ :: _, [] => None
  end.
Definition path_strip_prefix (dir p : str) : option (list str) :=
  let '(da, dc) := components dir in
  let '(pa, pc) := components p in
  if Bool.eqb da pa then strip_components dc pc
  else match da, dc with false, [] => Some (if pa then u!"/" :: pc else pc) | _, _ => None end.

Definition colon : char := 58%N.

(** [std::env::split_paths] *)
Definition split_paths (s : str) : list str := split_on (N.eqb colon) s.

(** [std::env::join_paths]; an entry with a colon is an error. *)
Definition join_paths (l : list str) : option str :=
  if existsb (contains_char colon) l then None else Some (join [colon] l).

(** ** [PathEnv] *)

Record PathEnv := mkPathEnv {
  pre : list str;
  mise : list str;
  marked : list str;
  post : list str;
  seen_shims : bool
}.

Definition PathEnv_new : PathEnv := mkPathEnv [] [] [] [] false.

Definition add (e : PathEnv) (path : str) : PathEnv :=
  mkPathEnv e.(pre) (e.(mise) ++ split_paths path) e.(marked) e.(post) e.(seen_shims).

Definition mark_managed (e : PathEnv) (path : str) : PathEnv :=
  mkPathEnv e.(pre) e.(mise) (e.(marked) ++ [path]) e.(post) e.(seen_shims).

(** [filter(|p| seen.insert( *p))] *)
Fixpoint first_occurrences (seen l : list str) : list str :=
  match l with
  | [] => []
  | p :: l' => if path_in p seen then first_occurrences seen l' else p :: first_occurrences (p :: seen) l'
  end.

Definition to_vec (e : PathEnv) : list str := first_occurrences [] (e.(pre) ++ e.(mise) ++ e.(post)).

Definition managed_entries (e : PathEnv) : list str :=
  List.filter (fun p => path_in p (e.(mise) ++ e.(marked))) (to_vec e).

(** [PathEnv::join]: none is the panic of [unwrap]. *)
Definition path_env_join (e : PathEnv) : option str := join_paths (to_vec e).

(** The loop of [from_iter]; [is_shims] is [is_mise_shims_dir]. *)
Fixpoint from_iter_loop (is_shims : str -> bool) (aggressive : bool) (paths : list str) (e : PathEnv)
  : PathEnv :=
  match paths with
  | [] => e
  | path :: paths' =>
      let e :=
        if e.(seen_shims) then mkPathEnv e.(pre) e.(mise) e.(marked) (e.(post) ++ [path]) true
        else if is_shims path && negb aggressive
        then mkPathEnv e.(pre) e.(mise) e.(marked) (e.(post) ++ [path]) true
        else mkPathEnv (e.(pre) ++ [path]) e.(mise) e.(marked) e.(post) false in
      from_iter_loop is_shims aggressive paths' e
  end.

Definition from_iter (is_shims : str -> bool) (aggressive : bool) (paths : list str) : PathEnv :=
  let e := from_iter_loop is_shims aggressive paths PathEnv_new in
  if e.(seen_shims) then e
  else mkPathEnv [] e.(mise) e.(marked) e.(pre) e.(seen_shims).

Definition from_path_str (is_shims : str -> bool) (aggressive : bool) (path : str) : PathEnv :=
  from_iter is_shims aggressive (split_paths path).

(** ** Managed directories *)

(** Where the last [sep] of [s] is: the text before it and the text after it. *)
Fixpoint rsplit_once (sep : char) (s : str) : option (str * str) :=
  match s with
  | [] => None
  | c :: s' =>
      match rsplit_once sep s' with
      | Some (a, b) => Some (c :: a, b)
      | None => if (c =? sep)%N then Some ([], s') else None
      end
  end.

Definition is_installation_name (name : str) : bool :=
  match rsplit_once c!"-" name with
  | Some (label, hash) =>
      match label with [] => false | _ => true end
      && ((8 <=? len hash) && (len hash <=? 52))
      && forallb (fun b => is_ascii_lowercase b || in_range c!"2" c!"7" b) hash
  | None => false
  end.

(** [dirs::INSTALLS], [dirs::INSTALL_STORE] and the shared install directories. *)
Record InstallDirs := mkInstallDirs { INSTALLS : str; INSTALL_STORE : str; shared : list str }.

Definition mise_install_dirs (d : InstallDirs) : list str :=
  [d.(INSTALLS)] ++ (if path_eqb d.(INSTALL_STORE) d.(INSTALLS) then [] else [d.(INSTALL_STORE)])
  ++ d.(shared).

(** The closure [within] of [is_mise_install_path]. *)
Definition within (dir path : str) (is_store : bool) : bool :=
  match path_strip_prefix dir path with
  | Some rest =>
      if is_store then match rest with c :: _ => is_installation_name c | [] => false end else true
  | None => false
  end.

(** [is_mise_install_path]; [canonical] is [canonicalize_cached]. *)
Definition is_mise_install_path (canonical : str -> option str) (d : InstallDirs) (path : str)
    (install_dirs : list str) : bool :=
  let separate_store := negb (path_eqb d.(INSTALL_STORE) d.(INSTALLS)) in
  if existsb (fun dir => within dir path (separate_store && path_eqb dir d.(INSTALL_STORE))) install_dirs
  then true
  else
    match canonical path with
    | None => false
    | Some path =>
        existsb (fun dir =>
          match canonical dir with
          | None => false
          | Some c =>
              let is_store := separate_store &&
                (path_eqb dir d.(INSTALL_STORE) ||
                 match canonical d.(INSTALL_STORE) with Some s => path_eqb c s | None => false end) in
              within c path is_store
          end) install_dirs
    end.

(** ** The limit of [cmd.exe] *)

Definition WINDOWS_CMD_PATH_LIMIT : N := 8191.

(** UTF-16 code units: two for a character beyond the basic plane. *)
Definition path_len_utf16 (path : str) : N :=
  fold_right N.add 0%N (map (fun c => if (c <? 0x10000)%N then 1%N else 2%N) path).

Definition cmd_would_ignore_path (windows : bool) (len : N) : bool :=
  windows && (WINDOWS_CMD_PATH_LIMIT <? len)%N.

(** ** Lemmas *)

Definition path_equiv (a b : str) : Prop := components a = components b.

#[export] Instance path_equiv_equivalence : Equivalence path_equiv.
Proof. split; red; unfold path_equiv; congruence. Qed.

Lemma path_eqb_equiv a b : path_eqb a b = true <-> path_equiv a b.
Proof. apply bool_decide_eq_true. Qed.

Lemma path_in_spec p l : path_in p l = true <-> exists q, q ∈ l /\ path_equiv p q.
Proof.
  unfold path_in. rewrite existsb_exists. setoid_rewrite path_eqb_equiv.
  by setoid_rewrite list_elem_of_In.
Qed.

#[export] Instance path_in_proper : Proper (path_equiv ==> eq ==> eq) path_in.
Proof.
  intros p q Hpq l ? <-. apply eq_bool_prop_intro. rewrite !Is_true_true, !path_in_spec.
  split; intros (r & Hr & H); exists r; (split; [done|]).
  - by rewrite <- Hpq.
  - by rewrite Hpq.
Qed.

Lemma first_occurrences_spec seen l p :
  p ∈ first_occurrences seen l ->
  p ∈ l /\ path_in p seen = false /\
  exists before after, l = before ++ p :: after /\ path_in p before = false.
Proof.
  revert seen. induction l as [|x l IH]; intros seen; simpl; [by intros ?%elem_of_nil|].
  destruct (path_in x seen) eqn:Ex.
  - intros H. destruct (IH _ H) as (Hin & Hs & b & a & -> & Hb). split_and!; [set_solver|done|].
    exists (x :: b), a. split; [done|]. cbn [path_in existsb]. fold (path_in p b). rewrite Hb, orb_false_r.
    apply not_true_iff_false. intros He%path_eqb_equiv. rewrite He in Hs. congruence.
  - intros [->|H]%elem_of_cons.
    + split_and!; [set_solver|done|]. by exists [], l.
    + destruct (IH _ H) as (Hin & Hs & b & a & -> & Hb).
      cbn [path_in existsb] in Hs. apply orb_false_iff in Hs as [Hpx Hs].
      split_and!; [set_solver|done|]. exists (x :: b), a. split; [done|].
      cbn [path_in existsb]. fold (path_in p b). by rewrite Hpx.
Qed.

Lemma first_occurrences_complete seen l p :
  p ∈ l -> path_in p seen = false -> exists q, q ∈ first_occurrences seen l /\ path_equiv p q.
Proof.
  revert seen. induction l as [|x l IH]; intros seen; simpl; [by intros ?%elem_of_nil|].
  intros [->|Hin]%elem_of_cons Hs.
  - rewrite Hs. exists x. split; [set_solver|done].
  - destruct (path_in x seen) eqn:Ex; [by apply IH|].
    destruct (path_eqb p x) eqn:Epx; [apply path_eqb_equiv in Epx; exists x; split; [set_solver|done]|].
    destruct (IH (x :: seen) Hin) as (q & Hq & He).
    + cbn [path_in existsb]. fold (path_in p seen). by rewrite Epx.
    + exists q. split; [set_solver|done].
Qed.

(** No two entries name the same path. *)
Fixpoint distinct_paths (l : list str) : Prop :=
  match l with [] => True | p :: l' => path_in p l' = false /\ distinct_paths l' end.

Lemma first_occurrences_distinct seen l : distinct_paths (first_occurrences seen l).
Proof.
  revert seen. induction l as [|x l IH]; intros seen; simpl; [done|].
  destruct (path_in x seen); [apply IH|]. split; [|apply IH].
  apply not_true_iff_false. intros (q & Hq & He)%path_in_spec.
  apply first_occurrences_spec in Hq as (_ & Hs & _). cbn [path_in existsb] in Hs.
  apply orb_false_iff in Hs as [Hs _]. apply not_true_iff_false in Hs. apply Hs.
  apply path_eqb_equiv. by symmetry.
Qed.

(** The entries that go before what mise adds. *)
Definition before_shims (is_shims : str -> bool) (aggressive : bool) (p : str) : bool :=
  negb (is_shims p && negb aggressive).

Lemma from_iter_loop_seen is_shims aggressive paths e :
  e.(seen_shims) = true ->
  from_iter_loop is_shims aggressive paths e = mkPathEnv e.(pre) e.(mise) e.(marked) (e.(post) ++ paths) true.
Proof.
  revert e. induction paths as [|y ps IH]; intros e H0; simpl.
  - rewrite app_nil_r. destruct e; simpl in *; by subst.
  - rewrite H0, IH by done. simpl. by rewrite <- app_assoc.
Qed.

Lemma from_iter_loop_spec is_shims aggressive paths e :
  e.(seen_shims) = false -> e.(post) = [] ->
  from_iter_loop is_shims aggressive paths e =
    let f := before_shims is_shims aggressive in
    mkPathEnv (e.(pre) ++ take_while f paths) e.(mise) e.(marked) (drop_while f paths)
      (match drop_while f paths with [] => false | _ => true end).
Proof.
  revert e. induction paths as [|x paths IH]; intros e Hs Hp; simpl.
  { rewrite app_nil_r. destruct e; simpl in *; by subst. }
  rewrite Hs. change (before_shims is_shims aggressive x) with (negb (is_shims x && negb aggressive)).
  destruct (is_shims x && negb aggressive); cbn [negb].
  - rewrite from_iter_loop_seen by done. simpl. by rewrite Hp, app_nil_r.
  - rewrite IH by done. simpl. by rewrite <- app_assoc.
Qed.

Lemma find_first_occurrences (f : str -> bool) seen l :
  Proper (path_equiv ==> eq) f -> forallb (fun p => negb (f p)) seen = true ->
  List.find f (first_occurrences seen l) = List.find f l.
Proof.
  intros Hf. revert seen. induction l as [|x l IH]; intros seen Hs; simpl; [done|].
  destruct (path_in x seen) eqn:Ex.
  - apply path_in_spec in Ex as (q & Hq & He). rewrite IH by done.
    rewrite forallb_forall in Hs. rewrite list_elem_of_In in Hq. apply Hs in Hq.
    apply negb_true_iff in Hq. by rewrite (Hf _ _ He), Hq.
  - simpl. destruct (f x) eqn:Efx; [done|]. apply IH. simpl. by rewrite Efx.
Qed.

Lemma alphabet_char d : (d < 32)%N ->
  is_ascii_lowercase (alphabet_at d) || in_range c!"2" c!"7" (alphabet_at d) = true /\
  negb (alphabet_at d =? c!"-")%N = true.
Proof.
  intros Hd. unfold alphabet_at. assert (N.to_nat d < 32) as Hn by lia. revert Hn.
  generalize (N.to_nat d) as n. clear. intros n Hn. do 32 (destruct n as [|n]; [by split|]). lia.
Qed.

Lemma rsplit_once_app a b c : forallb (fun x => negb (x =? c)%N) b = true ->
  rsplit_once c (a ++ c :: b) = Some (a, b).
Proof.
  intros Hb. assert (rsplit_once c b = None) as Hn.
  { induction b as [|x b IH]; simpl in *; [done|]. apply andb_true_iff in Hb as [Hx Hb].
    rewrite IH by done. by apply negb_true_iff in Hx as ->. }
  induction a as [|x a IH]; simpl; [by rewrite Hn, N.eqb_refl|by rewrite IH].
Qed.

(** ** Properties *)

(** Dropping later duplicates from PATH changes no lookup: for every program, or any other test
    that treats equal paths alike, the first entry that has it is the same with and without
    them; and no two entries that are left name the same path. *)
Theorem to_vec_resolution e (has : str -> bool) :
  Proper (path_equiv ==> eq) has ->
  List.find has (to_vec e) = List.find has (e.(pre) ++ e.(mise) ++ e.(post)) /\
  distinct_paths (to_vec e) /\
  forall p, p ∈ to_vec e -> exists before after,
    e.(pre) ++ e.(mise) ++ e.(post) = before ++ p :: after /\ path_in p before = false.
Proof.
  intros Hf. unfold to_vec. split_and!.
  - by apply find_first_occurrences.
  - apply first_occurrences_distinct.
  - intros p Hp. by apply first_occurrences_spec in Hp as (_ & _ & H).
Qed.

Lemma to_vec_resolution_example :
  List.find (path_eqb u!"/usr/bin") (to_vec (mkPathEnv [] [u!"/m"; u!"/usr/bin/"] [] [u!"/usr/bin"; u!"/m/."] false))
    = Some u!"/usr/bin/".
Proof.
  destruct (to_vec_resolution (mkPathEnv [] [u!"/m"; u!"/usr/bin/"] [] [u!"/usr/bin"; u!"/m/."] false)
    (path_eqb u!"/usr/bin")) as [-> _].
  - intros p q H. unfold path_eqb, path_equiv in *. by rewrite H.
  - vm_compute. reflexivity.
Defined.

(** Where mise's entries go: behind the user's entries that precede the shims directory, in
    front of the shims directory and all that follows it; at the very front when there is no
    shims directory or activation is aggressive. The inherited entries keep their order. *)
Theorem from_iter_places is_shims aggressive paths added :
  let e := fold_left add added (from_iter is_shims aggressive paths) in
  let f := before_shims is_shims aggressive in
  e.(pre) ++ e.(mise) ++ e.(post) =
    match drop_while f paths with
    | [] => flat_map split_paths added ++ paths
    | _ => take_while f paths ++ flat_map split_paths added ++ drop_while f paths
    end.
Proof.
  assert (Hadd : forall l e0, let e := fold_left add l e0 in
    e.(pre) = e0.(pre) /\ e.(post) = e0.(post) /\ e.(mise) = e0.(mise) ++ flat_map split_paths l).
  { induction l as [|x l IH]; intros e0; simpl; [by rewrite app_nil_r|].
    destruct (IH (add e0 x)) as (-> & -> & ->). simpl. by rewrite <- app_assoc. }
  simpl. destruct (Hadd added (from_iter is_shims aggressive paths)) as (-> & -> & ->).
  unfold from_iter. rewrite from_iter_loop_spec by done. simpl.
  pose proof (take_drop_while (before_shims is_shims aggressive) paths) as Hp.
  destruct (drop_while _ paths); simpl; [|done]. rewrite app_nil_r in Hp. by rewrite Hp.
Qed.

(** A directory named by a label and eight or more characters of a digest's base32 text, as the
    installation layout names them, is recognised as an installation. *)
Theorem installation_name_recognised label digest n :
  byte_list digest -> length digest = 32 -> label <> [] -> 8 <= n <= 52 ->
  is_installation_name (label ++ c!"-" :: take n (base32_encode digest)) = true.
Proof.
  intros Hb Hl Hne Hn. destruct (base32_encode_spec digest Hb Hl) as (ds & -> & Hd & Hlen & _).
  assert (forallb (fun b => is_ascii_lowercase b || in_range c!"2" c!"7" b) (take n (map alphabet_at ds)) = true /\
    forallb (fun x => negb (x =? c!"-")%N) (take n (map alphabet_at ds)) = true /\
    len (take n (map alphabet_at ds)) = n) as (Ha & Hs & Hlt).
  { rewrite firstn_map. assert (digits (take n ds)) as Hdt by by apply Forall_take.
    rewrite len_digits, length_take_le by (done || lia). split; [|split; [|done]].
    - rewrite forallb_forall. intros x Hx. apply in_map_iff in Hx as (d & <- & Hx).
      rewrite <- list_elem_of_In in Hx. rewrite Forall_forall in Hdt. by apply alphabet_char, Hdt.
    - rewrite forallb_forall. intros x Hx. apply in_map_iff in Hx as (d & <- & Hx).
      rewrite <- list_elem_of_In in Hx. rewrite Forall_forall in Hdt. by apply alphabet_char, Hdt. }
  unfold is_installation_name. rewrite rsplit_once_app by done. rewrite Ha, Hlt.
  destruct label; [done|]. cbn [andb]. rewrite andb_true_r. apply andb_true_iff; split; apply Nat.leb_le; lia.
Qed.

Lemma installation_name_recognised_example :
  is_installation_name (u!"1.2.0" ++ c!"-" :: take 8 (base32_encode (repeat 7%N 32))) = true.
Proof.
  apply installation_name_recognised; [repeat constructor|reflexivity|discriminate|lia].
Defined.
