(* ===== verification/Paths.v ===== *)
(** * Joining paths and taking prefixes off them

    [PathBuf::join] on Unix, and what the components of a joined path are. *)

From S2P Require Import Prelude RustStr PathEnv.

(** [PathBuf::join] *)
Definition path_join (base path : str) : str :=
  match path with
  | c :: _ => if (c =? slash)%N then path
              else match base with
                   | [] => path
                   | _ => if ends_with [slash] base then base ++ path else base ++ slash :: path
                   end
  | [] => match base with [] => [] | _ => if ends_with [slash] base then base else base ++ [slash] end
  end.

Definition path_starts_with (path prefix : str) : bool := bool_decide (is_Some (path_strip_prefix prefix path)).

(** ** Components *)

(** The names of a path below the root. *)
Definition names (path : str) : list str :=
  List.filter (fun c => negb (bool_decide (c = u!"."))) (List.filter (fun c => match c with [] => false | _ => true end)
    (split_on (N.eqb slash) path)).

Definition is_absolute (path : str) : bool := (components path).1.

Lemma components_absolute path : is_absolute path = true -> components path = (true, names path).
Proof.
  unfold is_absolute, components, names. simpl. intros H. destruct path as [|c path]; [done|]. rewrite H.
  f_equal. by destruct (List.filter _ (split_on (N.eqb slash) (c :: path))).
Qed.

Lemma absolute_slash path : is_absolute path = true <-> exists rest, path = slash :: rest.
Proof.
  unfold is_absolute, components. simpl. destruct path as [|c path]; [naive_solver|]. rewrite N.eqb_eq. naive_solver.
Qed.

Lemma names_app_slash a b : names (a ++ slash :: b) = names a ++ names b.
Proof. unfold names. by rewrite split_on_app_sep, !List.filter_app. Qed.

Lemma ends_with_slash base : ends_with [slash] base = true -> exists b, base = b ++ [slash].
Proof.
  unfold ends_with. intros [rest E]%starts_with_spec. exists (reverse rest). simpl in E.
  rewrite <- (reverse_involutive base), E. by rewrite reverse_cons.
Qed.

Lemma join_components base rel :
  is_absolute base = true -> head rel <> Some slash -> components (path_join base rel) = (true, names base ++ names rel).
Proof.
  intros [b ->]%absolute_slash Hr. unfold path_join.
  assert (names [] = []) as Hnil by done. destruct (ends_with [slash] (slash :: b)) eqn:E.
  - assert (names ((slash :: b) ++ rel) = names (slash :: b) ++ names rel) as Hn.
    { apply ends_with_slash in E as [b' ->]. rewrite <- app_assoc. cbn [app]. by rewrite !names_app_slash, Hnil, app_nil_r. }
    destruct rel as [|c rel]; [|destruct (N.eqb_spec c slash); [naive_solver|]];
      rewrite components_absolute by (apply absolute_slash; eauto).
    + by rewrite Hnil, app_nil_r.
    + by rewrite <- Hn.
  - destruct rel as [|c rel]; [|destruct (N.eqb_spec c slash); [naive_solver|]];
      rewrite components_absolute by (apply absolute_slash; simpl; eauto); by rewrite names_app_slash.
Qed.

Lemma strip_components_app dir rest : strip_components dir (dir ++ rest) = Some rest.
Proof. induction dir as [|d dir IH]; simpl; [by destruct rest|]. by rewrite bool_decide_eq_true_2. Qed.

Lemma strip_components_Some dir p rest : strip_components dir p = Some rest -> p = dir ++ rest.
Proof.
  revert p. induction dir as [|d dir IH]; intros p; simpl; [by intros [= ->]|].
  destruct p as [|c p]; [done|]. case_bool_decide; [|done]. intros ->%IH. by subst.
Qed.

Lemma strip_prefix_join base rel :
  is_absolute base = true -> head rel <> Some slash -> path_strip_prefix base (path_join base rel) = Some (names rel).
Proof.
  intros Hb Hr. unfold path_strip_prefix. rewrite join_components, components_absolute by done. simpl.
  apply strip_components_app.
Qed.

Lemma path_strip_prefix_Some base path rel :
  is_absolute base = true -> path_strip_prefix base path = Some rel -> components path = (true, names base ++ rel).
Proof.
  intros Hb. unfold path_strip_prefix. rewrite (components_absolute base) by done. destruct (components path) as [[] pc]; simpl.
  - by intros ->%strip_components_Some.
  - done.
Qed.

Lemma names_pieces path : Forall (fun n => n <> [] /\ slash ∉ n) (names path).
Proof.
  apply Forall_forall. intros n Hn. unfold names in Hn. rewrite !elem_of_filter_bool in Hn. destruct Hn as [[Hn Hne] _].
  split; [by destruct n|]. pose proof (split_on_pieces slash path) as H. rewrite Forall_forall in H. by apply H.
Qed.
