(* ===== verification/EnvDiff.v ===== *)
(** * Environment diffs ([crates/mise-util/src/env_diff.rs], [env.rs])

    What activation records about the environment it sets ([EnvDiff], [from_final_env], the
    [__MISE_DIFF] blob) and how a nested mise takes it back ([get_pristine_env]), on Unix. A
    [BTreeMap] is a finite map whose entries come sorted by key; an [IndexMap] is the list of
    its entries in insertion order. The hash ([blake3]) is an argument, and the bytes of the
    blob (MessagePack, zlib, base64) are left out: the blob is the record they encode. *)

From Stdlib Require Import Sorting.Sorted.
From S2P Require Import Prelude RustStr Identity PathEnv.

Abbreviation EnvMap := (gmap (list N) (list N)) (only parsing).
Abbreviation IndexMap := (list (list N * list N)) (only parsing).

(** ** Collections *)

Fixpoint im_get (m : IndexMap) (key : str) : option str :=
  match m with
  | [] => None
  | (k, v) :: m' => if bool_decide (key = k) then Some v else im_get m' key
  end.

(** [IndexMap::insert]: a known key keeps its place. *)
Fixpoint im_insert (m : IndexMap) (key value : str) : IndexMap :=
  match m with
  | [] => [(key, value)]
  | (k, v) :: m' => if bool_decide (key = k) then (k, value) :: m' else (k, v) :: im_insert m' key value
  end.

Definition im_contains (m : IndexMap) (key : str) : bool :=
  match im_get m key with Some _ => true | None => false end.

(** The entries of a [BTreeMap], in key order. *)
Fixpoint insert_entry (e : str * str) (l : list (str * str)) : list (str * str) :=
  match l with
  | [] => [e]
  | x :: l' => if str_ltb x.1 e.1 then x :: insert_entry e l' else e :: l
  end.
Definition bt_entries (m : EnvMap) : list (str * str) := foldr insert_entry [] (map_to_list m).

(** ** [EnvDiff] *)

Definition ENV_STATE_VERSION : N := 2.
Definition legacy_env_state_version : N := 1.
Definition PATH_KEY : str := u!"PATH".

Record EnvDiff := mkEnvDiff { v : N; old : IndexMap; new : IndexMap; path : list str }.

Inductive EnvDiffOperation : Type :=
| Add (key value : str)
| Change (key value : str)
| Remove (key : str).

(** One addition of [EnvDiff::new]. *)
Definition diff_entry (original : EnvMap) (diff : EnvDiff) (kv : str * str) : EnvDiff :=
  let '(key, new_val) := kv in
  match original !! key with
  | Some original_val =>
      if negb (bool_decide (original_val = new_val))
      then mkEnvDiff diff.(v) (im_insert diff.(old) key original_val)
             (im_insert diff.(new) key new_val) diff.(path)
      else diff
  | None => mkEnvDiff diff.(v) diff.(old) (im_insert diff.(new) key new_val) diff.(path)
  end.

(** [EnvDiff::new]; the derived default has version 0. *)
Definition EnvDiff_new (original : EnvMap) (additions : list (str * str)) : EnvDiff :=
  fold_left (diff_entry original) additions (mkEnvDiff 0 [] [] []).

Definition to_patches (d : EnvDiff) : list EnvDiffOperation :=
  map (fun kv => match im_get d.(new) kv.1 with Some x => Change kv.1 x | None => Remove kv.1 end) d.(old)
  ++ flat_map (fun kv => if im_contains d.(old) kv.1 then [] else [Add kv.1 kv.2]) d.(new).

Definition reverse_diff (d : EnvDiff) : EnvDiff :=
  mkEnvDiff legacy_env_state_version d.(new) d.(old) d.(path).

Definition paths_of (env : EnvMap) : list str :=
  match env !! PATH_KEY with Some p => split_paths p | None => [] end.

Definition from_final_env (pristine final_env : EnvMap) : EnvDiff :=
  let additions := List.filter
    (fun kv => negb (bool_decide (kv.1 = PATH_KEY)) && negb (bool_decide (kv.1 = u!"__MISE_DIFF")))
    (bt_entries final_env) in
  let diff := EnvDiff_new pristine additions in
  match final_env !! PATH_KEY with
  | Some final_path =>
      mkEnvDiff diff.(v) diff.(old) diff.(new)
        (List.filter (fun p => negb (path_in p (paths_of pristine))) (split_paths final_path))
  | None => diff
  end.

(** ** The output of [export -p] *)

Definition DEFAULT_IGNORE_KEYS : list str :=
  [u!"_"; u!"SHLVL"; u!"PWD"; u!"OLDPWD"; u!"HOME"; u!"USER"; u!"SHELL"; u!"SHELLOPTS";
   u!"COMP_WORDBREAKS"; u!"PS1"; u!"PROMPT_DIRTRIM"].

(** [EnvDiffOptions::default] *)
Definition default_ignore_keys : list str := DEFAULT_IGNORE_KEYS ++ [PATH_KEY].

Definition invalid_key (k : str) (ignore_keys : list str) : bool :=
  match k with [] => true | _ => false end
  || existsb (fun i => bool_decide (k = i)) ignore_keys
  || starts_with u!"BASH_FUNC_" k || starts_with u!" " k.

(** The loop of [parse_export_p]. *)
Fixpoint parse_export_loop (ls : list str) (ignore_keys : list str) (cur_key : option str) (additions : EnvMap)
  : EnvMap :=
  match ls with
  | [] => additions
  | line :: ls' =>
      match strip_prefix u!"declare -x " line with
      | Some line =>
          match split_once c!"=" line with
          | None => parse_export_loop ls' ignore_keys None additions
          | Some (k, value) =>
              if invalid_key k ignore_keys then parse_export_loop ls' ignore_keys None additions
              else parse_export_loop ls' ignore_keys (Some k) (<[k := value]> additions)
          end
      | None =>
          match cur_key with
          | Some k =>
              parse_export_loop ls' ignore_keys cur_key
                (alter (fun value => value ++ [10%N] ++ line) k additions)
          | None => parse_export_loop ls' ignore_keys cur_key additions
          end
      end
  end.

Definition parse_export_p (out : str) (ignore_keys : list str) : EnvMap :=
  parse_export_loop (lines out) ignore_keys None ∅.

(** The loop of [normalize_escape_sequences]; a last lone backslash is dropped with a warning. *)
Fixpoint unescape (s : str) : str :=
  match s with
  | [] => []
  | c :: s' =>
      if (c =? 92)%N then
        match s' with
        | [] => []
        | x :: s'' =>
            (if (x =? c!"a")%N then [7%N]
             else if (x =? c!"b")%N then [8%N]
             else if (x =? c!"e")%N || (x =? c!"E")%N then [27%N]
             else if (x =? c!"f")%N then [12%N]
             else if (x =? c!"n")%N then [10%N]
             else if (x =? c!"r")%N then [13%N]
             else if (x =? c!"t")%N then [9%N]
             else if (x =? c!"v")%N then [11%N]
             else if one_of [92%N; 39%N; 34%N; c!"?"; c!"`"; c!"$"] x then [x]
             else [92%N; x]) ++ unescape s''
        end
      else c :: unescape s'
  end.

(** [s[n .. len - 1]]; none is the panic of a range that ends before it starts. *)
Definition strip_quotes (n : nat) (s : str) : option str :=
  if length s <? n + 1 then None else Some (take (length s - 1 - n) (drop n s)).

Definition normalize_escape_sequences (input : str) : option str :=
  let inner :=
    if starts_with [34%N] input && ends_with [34%N] input then strip_quotes 1 input
    else if starts_with u!"$'" input && ends_with u!"'" input then strip_quotes 2 input
    else Some input in
  option_map unescape inner.

(** The last loop of [from_bash_script] on the parsed output, in key order. *)
Fixpoint changed_values (env : EnvMap) (entries : list (str * str)) (additions : EnvMap) : option EnvMap :=
  match entries with
  | [] => Some additions
  | (k, value) :: entries' =>
      match normalize_escape_sequences value with
      | None => None
      | Some value =>
          if bool_decide (env !! k = Some value)
          then changed_values env entries' (delete k additions)
          else changed_values env entries' (<[k := value]> additions)
      end
  end.

(** [EnvDiff::from_bash_script], from what bash printed. *)
Definition from_bash_output (out : str) (env : EnvMap) (ignore_keys : list str) : option EnvDiff :=
  let additions := parse_export_p out ignore_keys in
  match changed_values env (bt_entries additions) additions with
  | Some additions => Some (EnvDiff_new env (bt_entries additions))
  | None => None
  end.

(** ** Secrets *)

Definition SECRET_KEYS_MARKER : str := u!"__MISE_SECRET_KEYS".
Definition FISH_SECRET_PREFIX : str := u!"__MISE_FISH_SECRET_".

Definition reserved_secret_name (name : str) : bool :=
  existsb (fun r => bool_decide (name = r))
    [u!"PATH"; u!"HOME"; u!"USER"; u!"SHELL"; u!"TERM"; u!"COLORTERM"; u!"LANG"]
  || starts_with u!"__MISE_" name.

Definition is_valid_secret_name (name : str) : bool :=
  match name with
  | c :: r =>
      (is_ascii_alphabetic c || (c =? c!"_")%N)
      && forallb (fun c => is_ascii_alphanumeric c || (c =? c!"_")%N) r
  | [] => false
  end.

Definition parse_secret_keys (marker : str) : list str :=
  List.filter (fun k => is_valid_secret_name k && negb (reserved_secret_name k))
    (map trim (split_on (N.eqb c!",") marker)).

Definition is_fish_temp_name (name : str) : bool := starts_with FISH_SECRET_PREFIX name.

(** The names as a set, in any order. *)
Definition inherited_secret_keys (marker : option str) (names : list str) : list str :=
  match marker with Some m => parse_secret_keys m | None => [] end
  ++ List.filter is_fish_temp_name names.

Definition is_inherited_secret_key (name : str) (keys : list str) : bool :=
  existsb (fun m => bool_decide (name = m)) keys || bool_decide (name = SECRET_KEYS_MARKER).

(** [strip_inherited_secrets] *)
Definition strip_matching (env : EnvMap) (keys : list str) : EnvMap :=
  filter (fun kv => is_inherited_secret_key kv.1 keys = false) env.

(** [strip_secrets_for_child]: the environment and the names to remove from the child's. *)
Definition strip_secrets_for_child (env : EnvMap) (env_remove : gset str) (keys : list str)
  : EnvMap * gset str :=
  match keys with
  | [] => (env, env_remove)
  | _ =>
      let listed := list_to_set (keys ++ [SECRET_KEYS_MARKER]) in
      let present := list_to_set (List.filter (fun k => is_inherited_secret_key k keys) (map fst (map_to_list env))) in
      (strip_matching env keys, env_remove ∪ listed ∪ present)
  end.

Section hashed.
(** [blake3::hash(..).to_hex()] *)
Context (blake3_hex : str -> str).

Definition hash_env_value (value : str) : str := u!"blake3:" ++ blake3_hex value.

Definition env_value_matches (version : N) (stored actual : str) : bool :=
  if (2 <=? version)%N then bool_decide (stored = hash_env_value actual)
  else bool_decide (stored = actual).

(** What [serialize_excluding] puts into the blob. *)
Definition serialize_excluding (d : EnvDiff) (exclude : list str) : EnvDiff :=
  mkEnvDiff ENV_STATE_VERSION
    (List.filter (fun kv => negb (existsb (fun e => bool_decide (kv.1 = e)) exclude)) d.(old))
    (map (fun kv => (kv.1, hash_env_value kv.2)) d.(new)) d.(path).

(** Whether [env] still has the value recorded for [key]. *)
Definition still_matches (d : EnvDiff) (env : EnvMap) (key new_value : str) : bool :=
  match env !! key with Some x => env_value_matches d.(v) new_value x | None => false end.

(** One step of the first loop of [reverse_diff_preserving_overrides]. *)
Definition restore_old (d : EnvDiff) (env : EnvMap) (kv : str * str) : EnvMap :=
  let '(key, old_value) := kv in
  match im_get d.(new) key with
  | Some new_value => if still_matches d env key new_value then <[key := old_value]> env else env
  | None => match env !! key with None => <[key := old_value]> env | Some _ => env end
  end.

(** One step of its second loop. *)
Definition remove_added (d : EnvDiff) (env : EnvMap) (kv : str * str) : EnvMap :=
  let '(key, new_value) := kv in
  match im_get d.(old) key with
  | None => if still_matches d env key new_value then delete key env else env
  | Some _ => env
  end.

Definition reverse_diff_preserving_overrides (d : EnvDiff) (env : EnvMap) : EnvMap :=
  fold_left (remove_added d) d.(new) (fold_left (restore_old d) d.(old) env).

Definition MISE_TASK_NAMES_ONLY_ENV : str := u!"__MISE_TASK_NAMES_ONLY".

(** The filter of [get_pristine_env] over PATH: [to_remove] loses what it removed. *)
Fixpoint remove_paths (orig_path all : list str) (l to_remove : list str) : list str :=
  match l with
  | [] => []
  | p :: l' =>
      let single_orig := path_in p orig_path
        && (length (List.filter (path_eqb p) all) =? 1) in
      if single_orig then p :: remove_paths orig_path all l' to_remove
      else if path_in p to_remove
      then remove_paths orig_path all l' (List.filter (fun q => negb (path_eqb p q)) to_remove)
      else p :: remove_paths orig_path all l' to_remove
  end.

(** [get_pristine_env]; none is the panic of [join_paths]. [secrets] are
    [INHERITED_SECRET_KEYS]. *)
Definition get_pristine_env (mise_diff : EnvDiff) (orig_env : EnvMap) (secrets : list str)
  : option EnvMap :=
  let orig_path :=
    match orig_env !! u!"__MISE_ORIG_PATH" with Some p => split_paths p | None => [] end in
  let env := reverse_diff_preserving_overrides mise_diff orig_env in
  let env := delete MISE_TASK_NAMES_ONLY_ENV env in
  let entries := paths_of env in
  match join_paths (remove_paths orig_path entries entries mise_diff.(path)) with
  | Some joined => Some (strip_matching (<[PATH_KEY := joined]> env) secrets)
  | None => None
  end.
End hashed.

(** ** Definitions used by the statements *)

(** What a shell does with the patches. *)
Definition apply_patch (env : EnvMap) (p : EnvDiffOperation) : EnvMap :=
  match p with
  | Add k value | Change k value => <[k := value]> env
  | Remove k => delete k env
  end.
Definition apply_patches (env : EnvMap) (ps : list EnvDiffOperation) : EnvMap :=
  fold_left apply_patch ps env.

(** ** Lemmas on collections *)

Lemma im_get_insert m key value k :
  im_get (im_insert m key value) k = if bool_decide (k = key) then Some value else im_get m k.
Proof.
  induction m as [|[k0 v0] m IH]; simpl.
  - done.
  - destruct (bool_decide (key = k0)) eqn:E; bool_prop; simpl.
    + subst. by case_bool_decide.
    + rewrite IH. repeat case_bool_decide; congruence.
Qed.

Lemma im_get_In m k x : NoDup (map fst m) -> im_get m k = Some x <-> (k, x) ∈ m.
Proof.
  induction m as [|[k0 v0] m IH]; simpl; [intros _; split; [done|by intros ?%elem_of_nil]|].
  intros [Hn Hd]%NoDup_cons. rewrite elem_of_cons. case_bool_decide as E.
  - subst. split; [intros [= ->]; by left|]. intros [[= ->]|H]; [done|].
    exfalso. apply Hn. apply list_elem_of_fmap. by exists (k0, x).
  - rewrite IH by done. split; [by right|]. intros [[= -> ->]|]; done.
Qed.

Lemma im_get_None m k : im_get m k = None <-> k ∉ map fst m.
Proof.
  induction m as [|[k0 v0] m IH]; simpl; [split; [by intros _ ?%elem_of_nil|done]|].
  case_bool_decide as E; [split; [done|set_solver]|]. rewrite IH. set_solver.
Qed.

Lemma im_insert_keys m key value k : k ∈ map fst (im_insert m key value) <-> k = key \/ k ∈ map fst m.
Proof.
  induction m as [|[k0 v0] m IH]; simpl; [set_solver|].
  case_bool_decide as E; simpl; [subst|]; set_solver.
Qed.

Lemma im_insert_NoDup m key value : NoDup (map fst m) -> NoDup (map fst (im_insert m key value)).
Proof.
  induction m as [|[k0 v0] m IH]; simpl; [intros _; apply NoDup_singleton|].
  intros [Hn Hd]%NoDup_cons. case_bool_decide as E; simpl; [by constructor|].
  constructor; [|auto]. rewrite im_insert_keys. naive_solver.
Qed.

Lemma insert_entry_perm e l : insert_entry e l ≡ₚ e :: l.
Proof.
  induction l as [|x l IH]; simpl; [done|]. destruct (str_ltb x.1 e.1); [|done].
  rewrite IH. apply Permutation_swap.
Qed.

Lemma bt_entries_perm m : bt_entries m ≡ₚ map_to_list m.
Proof.
  unfold bt_entries. generalize (map_to_list m). intros l.
  induction l as [|x l IH]; simpl; [done|]. by rewrite insert_entry_perm, IH.
Qed.

Lemma bt_entries_elem m k x : (k, x) ∈ bt_entries m <-> m !! k = Some x.
Proof. by rewrite bt_entries_perm, elem_of_map_to_list. Qed.

Lemma bt_entries_NoDup m : NoDup (map fst (bt_entries m)).
Proof. rewrite bt_entries_perm. apply NoDup_fst_map_to_list. Qed.

(** ** [EnvDiff::new] *)

(** What a diff says of a key. *)
Definition diff_of (original : EnvMap) (additions : list (str * str)) (k : str) : option str * option str :=
  match im_get additions k with
  | None => (None, None)
  | Some x =>
      match original !! k with
      | Some y => if bool_decide (y = x) then (None, None) else (Some y, Some x)
      | None => (None, Some x)
      end
  end.

Lemma EnvDiff_new_spec original additions :
  NoDup (map fst additions) ->
  let d := EnvDiff_new original additions in
  NoDup (map fst d.(old)) /\ NoDup (map fst d.(new)) /\ d.(path) = [] /\
  forall k, (im_get d.(old) k, im_get d.(new) k) = diff_of original additions k.
Proof.
  unfold EnvDiff_new. intros Hd. assert (Hgo : forall d, NoDup (map fst d.(old)) -> NoDup (map fst d.(new)) ->
    d.(path) = [] -> (forall k, k ∈ map fst additions -> im_get d.(old) k = None /\ im_get d.(new) k = None) ->
    let d' := fold_left (diff_entry original) additions d in
    NoDup (map fst d'.(old)) /\ NoDup (map fst d'.(new)) /\ d'.(path) = [] /\
    forall k, (im_get d'.(old) k, im_get d'.(new) k) =
      if im_contains additions k then diff_of original additions k else (im_get d.(old) k, im_get d.(new) k)).
  { induction additions as [|[k0 x0] l IH]; intros d Ho Hn Hp Hfresh; [by split_and!|].
    simpl in Hd. apply NoDup_cons in Hd as [Hk0 Hd]. cbn [fold_left].
    assert (Hd0 : let d0 := diff_entry original d (k0, x0) in
      NoDup (map fst d0.(old)) /\ NoDup (map fst d0.(new)) /\ d0.(path) = [] /\
      forall k, (im_get d0.(old) k, im_get d0.(new) k) =
        if bool_decide (k = k0) then diff_of original [(k0, x0)] k else (im_get d.(old) k, im_get d.(new) k)).
    { destruct (Hfresh k0) as [Ho0 Hn0]; [set_solver|]. unfold diff_entry, diff_of. simpl.
      destruct (original !! k0) as [y|] eqn:E; [destruct (decide (y = x0)) as [->|Hne]|].
      - rewrite bool_decide_eq_true_2 by done. simpl. split_and!; [done..|]. intros k.
        case_bool_decide; [subst; rewrite E, bool_decide_eq_true_2 by done; by rewrite Ho0, Hn0|done].
      - rewrite bool_decide_eq_false_2 by done. simpl. split_and!; auto using im_insert_NoDup.
        intros k. rewrite !im_get_insert. case_bool_decide; [subst; by rewrite E, bool_decide_eq_false_2|done].
      - simpl. split_and!; auto using im_insert_NoDup.
        intros k. rewrite !im_get_insert. case_bool_decide; [subst; by rewrite E, Ho0|done]. }
    revert Hd0. generalize (diff_entry original d (k0, x0)). intros d0 (Ho1 & Hn1 & Hp1 & Hk1).
    destruct (IH Hd d0 Ho1 Hn1 Hp1) as (Ho2 & Hn2 & Hp2 & Hk2).
    { intros k Hk. specialize (Hk1 k). rewrite bool_decide_eq_false_2 in Hk1 by (intros ->; done).
      injection Hk1 as -> ->. apply Hfresh. set_solver. }
    split_and!; try done. intros k. rewrite Hk2. unfold im_contains, diff_of. simpl.
    destruct (decide (k = k0)) as [->|Hne].
    - rewrite bool_decide_eq_true_2 by done. apply im_get_None in Hk0. rewrite Hk0, Hk1.
      rewrite bool_decide_eq_true_2 by done. unfold diff_of. simpl. by rewrite bool_decide_eq_true_2 by done.
    - rewrite bool_decide_eq_false_2 by done. destruct (im_get l k); [done|].
      by rewrite Hk1, bool_decide_eq_false_2. }
  destruct (Hgo (mkEnvDiff 0 [] [] [])) as (H1 & H2 & H3 & H4); try done; try apply NoDup_nil_2.
  split_and!; try done. intros k. rewrite H4. unfold im_contains, diff_of. by destruct (im_get additions k).
Qed.

(** ** Folds that treat each key on its own *)

Lemma keyed_fold (step : EnvMap -> str * str -> EnvMap) (g : str * str -> option str -> option str) l env k :
  (forall e kv k, k <> kv.1 -> step e kv !! k = e !! k) ->
  (forall e kv, step e kv !! kv.1 = g kv (e !! kv.1)) ->
  NoDup (map fst l) ->
  fold_left step l env !! k = match im_get l k with Some x => g (k, x) (env !! k) | None => env !! k end.
Proof.
  intros Hne Heq. revert env. induction l as [|[k0 x0] l IH]; intros env; [done|].
  simpl. intros [Hn Hd]%NoDup_cons. rewrite IH by done. case_bool_decide as E.
  - subst. apply im_get_None in Hn. rewrite Hn. apply (Heq env (k0, x0)).
  - rewrite (Hne env (k0, x0) k E). done.
Qed.

Lemma apply_patches_app env a b : apply_patches env (a ++ b) = apply_patches (apply_patches env a) b.
Proof. apply fold_left_app. Qed.

Lemma apply_patches_lookup d env k :
  NoDup (map fst d.(old)) -> NoDup (map fst d.(new)) ->
  apply_patches env (to_patches d) !! k =
    match im_get d.(new) k with
    | Some x => Some x
    | None => match im_get d.(old) k with Some _ => None | None => env !! k end
    end.
Proof.
  intros Ho Hn. unfold to_patches. rewrite apply_patches_app. unfold apply_patches.
  assert (forall f l (e : EnvMap), fold_left apply_patch (flat_map f l) e =
    fold_left (fun e (kv : str * str) => fold_left apply_patch (f kv) e) l e) as Hflat.
  { intros f l. induction l as [|x l IH]; intros e; simpl; [done|]. by rewrite fold_left_app, IH. }
  rewrite Hflat, (keyed_fold _ (fun kv o => if im_contains d.(old) kv.1 then o else Some kv.2)); [|..|done].
  - assert (forall f l (e : EnvMap), fold_left apply_patch (map f l) e =
      fold_left (fun e (kv : str * str) => apply_patch e (f kv)) l e) as Hmap.
    { intros f l. induction l as [|x l IH]; intros e; simpl; [done|]. by rewrite IH. }
    rewrite Hmap, (keyed_fold _ (fun kv _ => im_get d.(new) kv.1)); [|..|done].
    + simpl. unfold im_contains. destruct (im_get (new d) k), (im_get (old d) k); done.
    + intros e [k0 x0] k' Hne. simpl in *. destruct (im_get (new d) k0); simpl; by simplify_map_eq.
    + intros e [k0 x0]. simpl. destruct (im_get (new d) k0); simpl; by simplify_map_eq.
  - intros e [k0 x0] k' Hne. simpl in *. destruct (im_contains (old d) k0); simpl; by simplify_map_eq.
  - intros e [k0 x0]. simpl. destruct (im_contains (old d) k0); simpl; by simplify_map_eq.
Qed.

Section restored.
Context (blake3_hex : str -> str).

Lemma reverse_lookup d env k :
  NoDup (map fst d.(old)) -> NoDup (map fst d.(new)) ->
  reverse_diff_preserving_overrides blake3_hex d env !! k =
    match im_get d.(old) k, im_get d.(new) k with
    | Some o, Some n => if still_matches blake3_hex d env k n then Some o else env !! k
    | Some o, None => match env !! k with None => Some o | Some x => Some x end
    | None, Some n => if still_matches blake3_hex d env k n then None else env !! k
    | None, None => env !! k
    end.
Proof.
  intros Ho Hn. unfold reverse_diff_preserving_overrides.
  set (matches_now := fun (o : option str) n => match o with
    | Some x => env_value_matches blake3_hex d.(v) n x | None => false end).
  rewrite (keyed_fold _ (fun kv o => match im_get d.(old) kv.1 with
    | None => if matches_now o kv.2 then None else o | Some _ => o end)); [|..|done].
  - rewrite (keyed_fold _ (fun kv o => match im_get d.(new) kv.1 with
      | Some n => if matches_now o n then Some kv.2 else o
      | None => match o with None => Some kv.2 | Some _ => o end end)); [|..|done].
    + simpl. unfold still_matches. fold (matches_now (env !! k)).
      destruct (im_get (old d) k), (im_get (new d) k) as [n|]; try done; by destruct (env !! k).
    + intros e [k0 x0] k' Hne. simpl in *. repeat case_match; by simplify_map_eq.
    + intros e [k0 x0]. simpl. unfold still_matches, matches_now.
      destruct (im_get (new d) k0) as [n|]; [destruct (e !! k0) as [x|] eqn:E|].
      * destruct (env_value_matches _ _ _ _); by simplify_map_eq.
      * done.
      * destruct (e !! k0) eqn:E; [done|]. by simplify_map_eq.
  - intros e [k0 x0] k' Hne. simpl in *. repeat case_match; by simplify_map_eq.
  - intros e [k0 x0]. simpl. unfold still_matches, matches_now.
    destruct (im_get (old d) k0) as [n|]; [done|]. destruct (e !! k0) as [x|] eqn:E; [|done].
    destruct (env_value_matches _ _ _ _); by simplify_map_eq.
Qed.
End restored.

(** ** The blob *)

Lemma im_get_filter (f : str -> bool) l k :
  im_get (List.filter (fun kv => f kv.1) l) k = if f k then im_get l k else None.
Proof.
  induction l as [|[k0 x0] l IH]; simpl; [by destruct (f k)|].
  destruct (f k0) eqn:E; simpl; case_bool_decide; subst; rewrite ?E, ?IH; try done.
  by rewrite E.
Qed.

Lemma im_get_map (f : str -> str) l k : im_get (map (fun kv => (kv.1, f kv.2)) l) k = option_map f (im_get l k).
Proof. induction l as [|[k0 x0] l IH]; simpl; [done|]. by case_bool_decide. Qed.

Lemma NoDup_filter_keys (f : str * str -> bool) l : NoDup (map fst l) -> NoDup (map fst (List.filter f l)).
Proof.
  induction l as [|[k0 x0] l IH]; simpl; [done|]. intros [Hn Hd]%NoDup_cons.
  destruct (f (k0, x0)); simpl; [|auto]. constructor; [|auto]. intros H. apply Hn.
  apply list_elem_of_fmap in H as (kv & -> & H). apply list_elem_of_In, filter_In in H as [H _].
  apply list_elem_of_fmap. exists kv. split; [done|]. by apply list_elem_of_In.
Qed.

Lemma from_final_env_spec pristine final_env :
  let d := from_final_env pristine final_env in
  NoDup (map fst d.(old)) /\ NoDup (map fst d.(new)) /\
  (forall k, k <> PATH_KEY -> k <> u!"__MISE_DIFF" ->
     (im_get d.(old) k, im_get d.(new) k) =
       match final_env !! k with
       | None => (None, None)
       | Some x => match pristine !! k with
                   | Some y => if bool_decide (y = x) then (None, None) else (Some y, Some x)
                   | None => (None, Some x)
                   end
       end) /\
  (forall k, k = PATH_KEY \/ k = u!"__MISE_DIFF" -> im_get d.(old) k = None /\ im_get d.(new) k = None) /\
  d.(path) = List.filter (fun p => negb (path_in p (paths_of pristine))) (paths_of final_env).
Proof.
  unfold from_final_env. set (adds := List.filter _ (bt_entries final_env)).
  assert (NoDup (map fst adds)) as Hd by apply NoDup_filter_keys, bt_entries_NoDup.
  destruct (EnvDiff_new_spec pristine adds Hd) as (Ho & Hn & Hp & Hk).
  assert (forall k, im_get adds k = if negb (bool_decide (k = PATH_KEY)) && negb (bool_decide (k = u!"__MISE_DIFF"))
    then final_env !! k else None) as Ha.
  { intros k. etrans; [exact (im_get_filter (fun k => negb (bool_decide (k = PATH_KEY))
      && negb (bool_decide (k = u!"__MISE_DIFF"))) (bt_entries final_env) k)|].
    destruct (negb _ && _); [|done]. apply option_eq. intros x.
    by rewrite im_get_In, bt_entries_elem by apply bt_entries_NoDup. }
  assert (Hrest : forall p, let d := mkEnvDiff (v (EnvDiff_new pristine adds)) (old (EnvDiff_new pristine adds))
      (new (EnvDiff_new pristine adds)) p in
    NoDup (map fst d.(old)) /\ NoDup (map fst d.(new)) /\
    (forall k, k <> PATH_KEY -> k <> u!"__MISE_DIFF" ->
     (im_get d.(old) k, im_get d.(new) k) =
       match final_env !! k with
       | None => (None, None)
       | Some x => match pristine !! k with
                   | Some y => if bool_decide (y = x) then (None, None) else (Some y, Some x)
                   | None => (None, Some x)
                   end
       end) /\
    (forall k, k = PATH_KEY \/ k = u!"__MISE_DIFF" -> im_get d.(old) k = None /\ im_get d.(new) k = None)).
  { intros p. simpl. split_and!; try done.
    - intros k H1 H2. rewrite Hk. unfold diff_of. rewrite Ha.
      by rewrite !bool_decide_eq_false_2 by done.
    - intros k H. specialize (Hk k). unfold diff_of in Hk. rewrite Ha in Hk.
      assert (negb (bool_decide (k = PATH_KEY)) && negb (bool_decide (k = u!"__MISE_DIFF")) = false) as E
        by (destruct H as [->| ->]; vm_compute; reflexivity).
      rewrite E in Hk. by injection Hk. }
  change (paths_of final_env) with (match final_env !! PATH_KEY with Some p => split_paths p | None => [] end).
  destruct (final_env !! PATH_KEY) as [fp|].
  - destruct (Hrest (List.filter (fun p => negb (path_in p (paths_of pristine))) (split_paths fp))) as (?&?&?&?).
    split_and!; done.
  - destruct (Hrest []) as (?&?&?&?). split_and!; done.
Qed.

(** ** PATH *)

Lemma split_on_no_sep c s : Forall (fun p => contains_char c p = false) (split_on (N.eqb c) s).
Proof.
  unfold contains_char. induction s as [|x s IH]; simpl; [by repeat constructor|].
  destruct (c =? x)%N eqn:E; [by constructor|].
  destruct (split_on (N.eqb c) s) as [|p r]; [repeat constructor; simpl; by rewrite E|].
  inversion IH; subst. constructor; [|done]. simpl. by rewrite E.
Qed.

Lemma join_paths_some l : Forall (fun p => contains_char colon p = false) l ->
  join_paths l = Some (join [colon] l).
Proof.
  intros H. unfold join_paths. assert (existsb (contains_char colon) l = false) as ->; [|done].
  induction H as [|p l Hp Hl IH]; simpl; [done|]. by rewrite Hp.
Qed.

Lemma remove_paths_sub orig all l rm p : p ∈ remove_paths orig all l rm -> p ∈ l.
Proof.
  revert rm. induction l as [|x l IH]; intros rm; simpl; [done|].
  destruct (path_in x orig && _); [set_solver|]. destruct (path_in x rm); set_solver.
Qed.

Lemma path_in_filter p q l : path_equiv p q \/ path_in p (List.filter (fun r => negb (path_eqb q r)) l) = path_in p l.
Proof.
  destruct (path_eqb q p) eqn:E; [left; symmetry; by apply path_eqb_equiv|]. right.
  induction l as [|x l IH]; simpl; [done|]. destruct (path_eqb q x) eqn:Ex; simpl.
  - cbn [path_in existsb]. fold (path_in p l). rewrite IH.
    assert (path_eqb p x = false) as ->; [|done].
    apply not_true_iff_false. intros H%path_eqb_equiv. apply path_eqb_equiv in Ex.
    apply not_true_iff_false in E. apply E, path_eqb_equiv. etrans; [exact Ex|by symmetry].
  - cbn [path_in existsb]. by fold (path_in p l) (path_in p (List.filter (fun r => negb (path_eqb q r)) l)); rewrite IH.
Qed.

(** In a PATH without repeats, exactly the entries to remove go. *)
Lemma remove_paths_distinct orig all l rm :
  distinct_paths l -> (forall p, p ∈ l -> path_in p orig = true -> path_in p rm = false) ->
  remove_paths orig all l rm = List.filter (fun p => negb (path_in p rm)) l.
Proof.
  revert rm. induction l as [|x l IH]; intros rm; simpl; [done|]. intros [Hx Hd] Ho.
  assert (Hsub : forall p, p ∈ l -> path_in p orig = true -> path_in p rm = false) by (intros; apply Ho; set_solver).
  destruct (path_in x rm) eqn:Er; simpl.
  - assert (path_in x orig = false) as ->.
    { apply not_true_iff_false. intros H. rewrite Ho in Er; [done|set_solver|done]. }
    simpl. assert (forall p, p ∈ l -> path_in p (List.filter (fun q => negb (path_eqb x q)) rm) = path_in p rm) as Hp.
    { intros p Hp. destruct (path_in_filter p x rm) as [He|]; [|done].
      exfalso. apply not_true_iff_false in Hx. apply Hx. apply path_in_spec. exists p. split; [done|by symmetry]. }
    rewrite IH; [|done|intros p Hin Hor; rewrite Hp by done; auto].
    clear -Hp. induction l as [|y l IHl]; simpl; [done|]. rewrite (Hp y) by set_solver.
    rewrite IHl by (intros; apply Hp; set_solver). done.
  - rewrite IH by done. by destruct (path_in x orig && _).
Qed.

(** ** Properties *)

(** Patches. Applying the patches of a diff to the environment it was taken from gives that
    environment with the additions, and the patches of the reversed diff take them back. *)
Theorem patches_round_trip original additions :
  NoDup (map fst additions) ->
  let d := EnvDiff_new original additions in
  let changed := apply_patches original (to_patches d) in
  (forall k, changed !! k = match im_get additions k with Some x => Some x | None => original !! k end) /\
  apply_patches changed (to_patches (reverse_diff d)) = original.
Proof.
  intros Hd. destruct (EnvDiff_new_spec original additions Hd) as (Ho & Hn & _ & Hk). simpl.
  assert (forall k, apply_patches original (to_patches (EnvDiff_new original additions)) !! k =
    match im_get additions k with Some x => Some x | None => original !! k end) as Hc.
  { intros k. rewrite apply_patches_lookup by done. specialize (Hk k). unfold diff_of in Hk.
    destruct (im_get additions k) as [x|]; [|by (injection Hk as E1 E2; rewrite ?E1, ?E2)].
    destruct (original !! k) as [y|]; [case_bool_decide; subst|]; by (injection Hk as E1 E2; rewrite ?E1, ?E2). }
  split; [exact Hc|]. apply map_eq. intros k. rewrite apply_patches_lookup by done. rewrite Hc. simpl.
  specialize (Hk k). unfold diff_of in Hk.
  destruct (im_get additions k) as [x|]; [|by (injection Hk as E1 E2; rewrite ?E1, ?E2)].
  destruct (original !! k) as [y|]; [case_bool_decide; subst|]; by (injection Hk as E1 E2; rewrite ?E1, ?E2).
Qed.

Lemma patches_round_trip_example :
  let original : gmap str str := {[u!"A" := u!"1"; u!"B" := u!"2"]} in
  let d := EnvDiff_new original [(u!"B", u!"3"); (u!"C", u!"4")] in
  apply_patches (apply_patches original (to_patches d)) (to_patches (reverse_diff d)) = original.
Proof.
  apply (patches_round_trip {[u!"A" := u!"1"; u!"B" := u!"2"]} [(u!"B", u!"3"); (u!"C", u!"4")]).
  apply NoDup_cons; split; [|apply NoDup_singleton]. intros H. apply list_elem_of_singleton in H. discriminate.
Defined.

(** Deactivation. A nested mise takes back exactly what activation did: from the recorded diff it
    gives each variable the value it had before, removing the added ones, unless the user has
    changed or removed it since, which is kept; secrets and the process-private marker go, and
    a value not recorded because it was secret is removed, not restored. *)
Theorem pristine_env_restored blake3_hex pristine final_env live exclude secrets :
  exists env, get_pristine_env blake3_hex
      (serialize_excluding blake3_hex (from_final_env pristine final_env) exclude) live secrets = Some env /\
    forall k, k <> PATH_KEY -> k <> u!"__MISE_DIFF" ->
      if is_inherited_secret_key k secrets || bool_decide (k = MISE_TASK_NAMES_ONLY_ENV)
      then env !! k = None
      else
        match final_env !! k with
        | None => env !! k = live !! k
        | Some x =>
            if bool_decide (pristine !! k = Some x) then env !! k = live !! k
            else
              (live !! k = Some x -> env !! k =
                 if existsb (fun e => bool_decide (k = e)) exclude then None else pristine !! k) /\
              (forall y, live !! k = Some y -> blake3_hex y <> blake3_hex x -> env !! k = Some y) /\
              (live !! k = None -> env !! k = None)
        end.
Proof.
  destruct (from_final_env_spec pristine final_env) as (Ho & Hn & Hk & _ & _).
  set (d0 := from_final_env pristine final_env) in *. set (d := serialize_excluding blake3_hex d0 exclude).
  assert (NoDup (map fst d.(old))) as Hod by by apply NoDup_filter_keys.
  assert (NoDup (map fst d.(new))) as Hnd by (simpl; rewrite map_map; exact Hn).
  unfold get_pristine_env. set (env1 := delete MISE_TASK_NAMES_ONLY_ENV _).
  rewrite join_paths_some.
  2: { apply Forall_forall. intros p Hp%remove_paths_sub. unfold paths_of in Hp.
       destruct (env1 !! PATH_KEY) as [s|]; [|by apply elem_of_nil in Hp].
       pose proof (split_on_no_sep colon s) as H. rewrite Forall_forall in H. by apply H. }
  eexists. split; [reflexivity|]. intros k Hpath Hdiff. unfold strip_matching.
  destruct (is_inherited_secret_key k secrets) eqn:Es; simpl.
  { apply map_lookup_filter_None. right. intros x _. simpl. congruence. }
  assert (forall (e : EnvMap) j, filter (fun kv : str * str => is_inherited_secret_key kv.1 secrets = false)
      (<[PATH_KEY := j]> e) !! k = e !! k) as Hf.
  { intros e j. apply option_eq. intros x. rewrite map_lookup_filter_Some. simpl.
    rewrite lookup_insert_ne by done. naive_solver. }
  rewrite Hf. unfold env1. clear Hf env1. case_bool_decide as Ek; [subst; apply lookup_delete_eq|].
  rewrite lookup_delete_ne by done. rewrite reverse_lookup by done.
  assert (im_get d.(new) k = option_map (hash_env_value blake3_hex) (im_get d0.(new) k)) as -> by apply im_get_map.
  assert (im_get d.(old) k = if negb (existsb (fun e => bool_decide (k = e)) exclude) then im_get d0.(old) k else None)
    as -> by exact (im_get_filter (fun j : list N => negb (existsb (fun e : list N => bool_decide (j = e)) exclude)) (old d0) k).
  specialize (Hk k Hpath Hdiff). destruct (final_env !! k) as [x|]; [|injection Hk as E1 E2; rewrite ?E1, ?E2; by destruct (negb _)].
  assert (still_matches blake3_hex d live k (hash_env_value blake3_hex x) =
    match live !! k with Some y => bool_decide (hash_env_value blake3_hex x = hash_env_value blake3_hex y) | None => false end) as Hm by done.
  assert (Hcase : forall o : option str, pristine !! k = o -> o <> Some x ->
    im_get d0.(old) k = o /\ im_get d0.(new) k = Some x).
  { intros o Hpo Hne. rewrite Hpo in Hk. destruct o as [y|]; [rewrite bool_decide_eq_false_2 in Hk by congruence|];
      by (injection Hk as E1 E2; rewrite ?E1, ?E2). }
  case_bool_decide as Epr.
  { rewrite Epr, bool_decide_eq_true_2 in Hk by done. injection Hk as E1 E2. rewrite E1, E2. simpl. by destruct (negb _). }
  destruct (Hcase _ eq_refl Epr) as [-> ->]. cbn [option_map].
  rewrite Hm. split_and!.
  - intros Hl. rewrite Hl. rewrite bool_decide_eq_true_2 by done.
    destruct (existsb _ exclude); simpl; [done|]. by destruct (pristine !! k).
  - intros y Hl Hne. rewrite Hl. rewrite bool_decide_eq_false_2 by (unfold hash_env_value; intros [=]; congruence).
    destruct (existsb _ exclude); simpl; [done|]. by destruct (pristine !! k).
  - intros Hl. rewrite Hl. destruct (existsb _ exclude); simpl; [done|]. by destruct (pristine !! k).
Qed.

(** PATH is restored too: when the live PATH is the one activation set, without repeats, what is
    left are its entries that were on the PATH before, in their order. *)
Theorem pristine_path_restored blake3_hex pristine final_env live exclude secrets p :
  live !! PATH_KEY = Some p -> final_env !! PATH_KEY = Some p ->
  distinct_paths (split_paths p) ->
  (forall o q, live !! u!"__MISE_ORIG_PATH" = Some o -> path_in q (split_paths o) = true ->
     path_in q (paths_of pristine) = true) ->
  is_inherited_secret_key PATH_KEY secrets = false ->
  exists env, get_pristine_env blake3_hex
      (serialize_excluding blake3_hex (from_final_env pristine final_env) exclude) live secrets = Some env /\
    env !! PATH_KEY
      = Some (join [colon] (List.filter (fun q => path_in q (paths_of pristine)) (split_paths p))).
Proof.
  intros Hl Hf Hd Horig Hs. destruct (from_final_env_spec pristine final_env) as (Ho & Hn & _ & Hk & Hp).
  set (d0 := from_final_env pristine final_env) in *. set (d := serialize_excluding blake3_hex d0 exclude).
  assert (NoDup (map fst d.(old))) as Hod by by apply NoDup_filter_keys.
  assert (NoDup (map fst d.(new))) as Hnd by (simpl; rewrite map_map; exact Hn).
  unfold get_pristine_env. set (env1 := delete MISE_TASK_NAMES_ONLY_ENV _).
  assert (env1 !! PATH_KEY = Some p) as Hp1.
  { unfold env1. rewrite lookup_delete_ne by (vm_compute; congruence). rewrite reverse_lookup by done.
    destruct (Hk PATH_KEY) as [H1 H2]; [by left|].
    assert (im_get d.(new) PATH_KEY = option_map (hash_env_value blake3_hex) (im_get d0.(new) PATH_KEY)) as ->
      by apply im_get_map.
    assert (im_get d.(old) PATH_KEY =
      if negb (existsb (fun e => bool_decide (PATH_KEY = e)) exclude) then im_get d0.(old) PATH_KEY else None)
      as -> by exact (im_get_filter (fun j : list N => negb (existsb (fun e : list N => bool_decide (j = e)) exclude)) (old d0) PATH_KEY).
    rewrite H1, H2. simpl. by destruct (negb _). }
  assert (forall q, q ∈ split_paths p -> path_in q d.(path) = negb (path_in q (paths_of pristine))) as Hin.
  { intros q Hq. cbn [d serialize_excluding path]. rewrite Hp. unfold paths_of at 2. rewrite Hf.
    apply eq_bool_prop_intro. rewrite !Is_true_true, negb_true_iff, path_in_spec. split.
    - intros (r & Hr & He). apply list_elem_of_In, filter_In in Hr as [_ Hr]. apply negb_true_iff in Hr.
      by rewrite He.
    - intros H. exists q. split; [|done]. apply list_elem_of_In, filter_In. split; [by apply list_elem_of_In|].
      by rewrite H. }
  unfold paths_of at 1 2. rewrite Hp1. rewrite remove_paths_distinct; [|done|].
  2: { intros q Hq H. rewrite Hin by done. apply negb_false_iff.
       destruct (live !! u!"__MISE_ORIG_PATH") as [o|] eqn:Eo; [by eapply Horig|done]. }
  rewrite (List.filter_ext_in _ (fun q => path_in q (paths_of pristine))).
  2: { intros q Hq%list_elem_of_In. by rewrite Hin, negb_involutive. }
  rewrite join_paths_some.
  2: { apply Forall_forall. intros q [Hq _]%list_elem_of_In%filter_In.
       pose proof (split_on_no_sep colon p) as H. rewrite Forall_forall in H. apply H. by apply list_elem_of_In. }
  eexists. split; [reflexivity|]. unfold strip_matching. apply map_lookup_filter_Some. simpl.
  split; [apply lookup_insert_eq|done].
Qed.

Lemma pristine_path_restored_example :
  exists env, get_pristine_env (fun x => x)
    (serialize_excluding (fun x => x)
      (from_final_env {[PATH_KEY := u!"/usr/bin:/bin"]} {[PATH_KEY := u!"/m/bin:/usr/bin:/bin"]}) [])
    {[PATH_KEY := u!"/m/bin:/usr/bin:/bin"]} [] = Some env /\
    env !! PATH_KEY = Some u!"/usr/bin:/bin".
Proof.
  destruct (pristine_path_restored (fun x => x) {[PATH_KEY := u!"/usr/bin:/bin"]}
    {[PATH_KEY := u!"/m/bin:/usr/bin:/bin"]} {[PATH_KEY := u!"/m/bin:/usr/bin:/bin"]} [] []
    u!"/m/bin:/usr/bin:/bin") as (env & H & Hp).
  - reflexivity.
  - reflexivity.
  - vm_compute. tauto.
  - intros o q H. vm_compute in H. discriminate.
  - reflexivity.
  - exists env. split; [exact H|]. rewrite Hp. vm_compute. reflexivity.
Defined.

(** ** What bash prints *)

(** How [export -p] quotes a value: in double quotes, with these four characters escaped. *)
Definition bash_escape (c : char) : str :=
  if one_of [92%N; 34%N; c!"$"; c!"`"] c then [92%N; c] else [c].
Definition bash_quote (value : str) : str := [34%N] ++ flat_map bash_escape value ++ [34%N].

Definition declaration (kv : str * str) : str := u!"declare -x " ++ kv.1 ++ c!"=" :: bash_quote kv.2.

(** A variable whose declaration can be told from the next: its name has no [=] and no line
    break, no carriage return ends a line of its value, and no further line looks like a
    declaration. *)
Definition declarable (kv : str * str) : Prop :=
  contains_char c!"=" kv.1 = false /\
  Forall (fun l => strip_cr l = l) (split_on (N.eqb 10%N) (declaration kv)) /\
  exists first rest, split_on (N.eqb 10%N) (declaration kv) = (u!"declare -x " ++ kv.1 ++ c!"=" :: first) :: rest /\
    bash_quote kv.2 = join [10%N] (first :: rest) /\
    Forall (fun l => starts_with u!"declare -x " l = false) rest.

Lemma unescape_quoted value r :
  unescape (flat_map bash_escape value ++ r)
    = value ++ unescape r.
Proof.
  induction value as [|c value IH]; [done|]. cbn [flat_map]. rewrite <- app_assoc. unfold bash_escape at 1.
  destruct (one_of [92%N; 34%N; c!"$"; c!"`"] c) eqn:E.
  - apply one_of_true in E. cbn [app]. cbn [unescape]. rewrite IH.
    destruct E as [<-|[<-|[<-|[<-|[]]]]]; reflexivity.
  - cbn [app]. cbn [unescape]. assert ((c =? 92)%N = false) as ->; [|by rewrite IH].
    unfold one_of in E. simpl in E. by apply orb_false_iff in E as [E _].
Qed.

Lemma normalize_bash_quote value : normalize_escape_sequences (bash_quote value) = Some value.
Proof.
  unfold normalize_escape_sequences. set (body := flat_map bash_escape value).
  assert (bash_quote value = [34%N] ++ body ++ [34%N]) as -> by done.
  assert (starts_with [34%N] ([34%N] ++ body ++ [34%N]) = true) as -> by apply starts_with_app.
  assert (ends_with [34%N] ([34%N] ++ body ++ [34%N]) = true) as ->.
  { unfold ends_with. rewrite app_assoc, reverse_app. apply starts_with_app. }
  cbn [andb]. unfold strip_quotes.
  assert (length ([34%N] ++ body ++ [34%N]) = length body + 2) as -> by (rewrite !length_app; simpl; lia).
  destruct (Nat.ltb_spec (length body + 2) (1 + 1)); [lia|]. cbn [option_map app drop].
  replace (length body + 2 - 1 - 1) with (length body) by lia. rewrite drop_0, take_app_length.
  f_equal. unfold body. rewrite <- (app_nil_r (flat_map bash_escape value)), unescape_quoted. apply app_nil_r.
Qed.

Lemma ended_lines_app a b : b <> [] -> ended_lines (a ++ b) = map strip_cr a ++ ended_lines b.
Proof.
  intros Hb. induction a as [|x a IH]; simpl; [done|]. rewrite IH.
  destruct (a ++ b) eqn:E; [apply app_nil in E as [_ ->]; done|done].
Qed.

Lemma lines_app s t : lines (s ++ 10%N :: t) = map strip_cr (split_on (N.eqb 10%N) s) ++ lines t.
Proof. unfold lines. rewrite split_on_app_sep, ended_lines_app; [done|apply split_on_nonempty]. Qed.

Lemma parse_continuation rest ls ignore k additions x :
  Forall (fun l => starts_with u!"declare -x " l = false) rest -> additions !! k = Some x ->
  parse_export_loop (rest ++ ls) ignore (Some k) additions =
  parse_export_loop ls ignore (Some k) (<[k := x ++ flat_map (fun l => 10%N :: l) rest]> additions).
Proof.
  intros Hr. revert additions x. induction Hr as [|l rest Hl Hr IH]; intros additions x Hx.
  { simpl. rewrite app_nil_r. by rewrite insert_id. }
  cbn [app parse_export_loop]. unfold starts_with in Hl. destruct (strip_prefix _ l); [done|].
  rewrite (IH _ (x ++ [10%N] ++ l)) by by rewrite lookup_alter_eq, Hx.
  f_equal. cbn [flat_map]. rewrite <- app_assoc. apply map_eq. intros j.
  destruct (decide (j = k)) as [->|Hne]; [by rewrite !lookup_insert_eq|].
  by rewrite !lookup_insert_ne, lookup_alter_ne.
Qed.

Lemma split_once_absent c a b : contains_char c a = false -> split_once c (a ++ c :: b) = Some (a, b).
Proof.
  unfold contains_char. induction a as [|x a IH]; simpl; [by rewrite N.eqb_refl|].
  intros [H1 H2]%orb_false_iff. rewrite N.eqb_sym, H1, IH; done.
Qed.

Lemma join_flat_map first rest : join [10%N] (first :: rest) = first ++ flat_map (fun l => 10%N :: l) rest.
Proof.
  revert first. induction rest as [|x rest IH]; intros first; [simpl; by rewrite app_nil_r|].
  change (join [10%N] (first :: x :: rest)) with (first ++ [10%N] ++ join [10%N] (x :: rest)).
  by rewrite IH.
Qed.

(** One declaration. *)
Lemma parse_declaration kv ls ignore cur additions :
  declarable kv ->
  exists cur', parse_export_loop (map strip_cr (split_on (N.eqb 10%N) (declaration kv)) ++ ls) ignore cur additions =
    parse_export_loop ls ignore cur'
      (if invalid_key kv.1 ignore then additions else <[kv.1 := bash_quote kv.2]> additions).
Proof.
  destruct kv as [k x]. intros (Hk & Hcr & first & rest & Hs & Hq & Hr). cbn [fst snd] in *.
  assert (map strip_cr (split_on (N.eqb 10%N) (declaration (k, x))) = split_on (N.eqb 10%N) (declaration (k, x))) as ->.
  { clear -Hcr. induction Hcr as [|l ls Hl _ IH]; simpl; [done|]. by rewrite Hl, IH. }
  rewrite Hs. cbn [app parse_export_loop strip_prefix N.eqb Pos.eqb].
  rewrite split_once_absent by done.
  destruct (invalid_key k ignore).
  - assert (forall rest, Forall (fun l => starts_with u!"declare -x " l = false) rest ->
      parse_export_loop (rest ++ ls) ignore None additions = parse_export_loop ls ignore None additions) as H.
    { induction 1 as [|l r Hl _ IH]; [done|]. cbn [app parse_export_loop]. unfold starts_with in Hl.
      by destruct (strip_prefix _ l). }
    exists None. by apply H.
  - exists (Some k). rewrite (parse_continuation _ _ _ _ _ first) by (done || apply lookup_insert_eq).
    by rewrite insert_insert_eq, <- join_flat_map, <- Hq.
Qed.

(** Reading back what bash exports: the output of [export -p] for a set of variables parses to
    exactly those whose names are not ignored, and each value is unquoted to what it was,
    multi-line values included. *)
Theorem export_round_trip vars ignore :
  NoDup (map fst vars) -> Forall declarable vars ->
  forall k, (parse_export_p (flat_map (fun kv => declaration kv ++ [10%N]) vars) ignore !! k)
      = (if invalid_key k ignore then None else option_map bash_quote (im_get vars k)) /\
    forall x, im_get vars k = Some x -> normalize_escape_sequences (bash_quote x) = Some x.
Proof.
  intros Hd Hv k. split; [|intros x _; apply normalize_bash_quote]. unfold parse_export_p.
  assert (forall cur additions,
    parse_export_loop (lines (flat_map (fun kv => declaration kv ++ [10%N]) vars)) ignore cur additions !! k =
    if invalid_key k ignore then additions !! k
    else match im_get vars k with Some x => Some (bash_quote x) | None => additions !! k end) as H.
  { induction Hv as [|[k0 x0] vars Hkv Hv IH]; intros cur additions.
    - simpl. by destruct (invalid_key k ignore).
    - simpl in Hd. apply NoDup_cons in Hd as [Hn Hd]. cbn [flat_map]. rewrite <- app_assoc. cbn [app].
      rewrite lines_app. destruct (parse_declaration (k0, x0) (lines (flat_map (fun kv => declaration kv ++ [10%N]) vars))
        ignore cur additions Hkv) as [cur' ->]. rewrite IH by done. cbn [im_get fst snd].
      case_bool_decide as Ek.
      + subst k0. destruct (invalid_key k ignore); [done|]. apply im_get_None in Hn. rewrite Hn.
        apply lookup_insert_eq.
      + destruct (invalid_key k ignore), (invalid_key k0 ignore); try done;
          by rewrite lookup_insert_ne. }
  rewrite H, lookup_empty. destruct (invalid_key k ignore); [done|]. by destruct (im_get vars k).
Qed.

Lemma export_round_trip_example :
  parse_export_p (flat_map (fun kv => declaration kv ++ [10%N]) [(u!"A", u!"x$y" ++ [10%N] ++ u!"z"); (u!"PATH", u!"/bin")])
    default_ignore_keys !! u!"A" = Some (bash_quote (u!"x$y" ++ [10%N] ++ u!"z")).
Proof.
  destruct (export_round_trip [(u!"A", u!"x$y" ++ [10%N] ++ u!"z"); (u!"PATH", u!"/bin")] default_ignore_keys) with (k := u!"A")
    as [H _].
  - apply NoDup_cons; split; [|apply NoDup_singleton]. intros H. apply list_elem_of_singleton in H. discriminate.
  - apply Forall_cons; split; [|apply Forall_cons; split; [|by constructor]].
    + split_and!; [reflexivity|repeat constructor|].
      exists (34%N :: u!"x\$y"), [u!"z" ++ [34%N]]. split_and!; [reflexivity|reflexivity|repeat constructor].
    + split_and!; [reflexivity|repeat constructor|].
      exists (34%N :: u!"/bin" ++ [34%N]), []. split_and!; [reflexivity|reflexivity|constructor].
  - rewrite H. reflexivity.
Defined.

(** Secrets stay out of children: after stripping, no variable marked secret is left and
    every other is untouched, and the names withheld from the child cover all that were
    marked; with nothing marked, nothing changes. *)
Theorem secrets_stripped env env_remove keys :
  let '(env', env_remove') := strip_secrets_for_child env env_remove keys in
  env_remove ⊆ env_remove' /\
  (keys = [] -> env' = env /\ env_remove' = env_remove) /\
  (keys <> [] -> forall k,
    env' !! k = (if is_inherited_secret_key k keys then None else env !! k) /\
    (is_inherited_secret_key k keys = true -> k ∈ env_remove')).
Proof.
  unfold strip_secrets_for_child. destruct keys as [|key keys]; [done|].
  split_and!; [set_solver|done|]. intros _ k. set (ks := key :: keys).
  assert (is_inherited_secret_key k ks = true <-> k ∈ ks ++ [SECRET_KEYS_MARKER]) as Hk.
  { unfold is_inherited_secret_key. rewrite orb_true_iff, existsb_exists, bool_decide_eq_true.
    rewrite elem_of_app, list_elem_of_singleton, list_elem_of_In. split.
    - intros [(x & Hx & He)|]; [|by right]. apply bool_decide_eq_true in He. subst. by left.
    - intros [H|]; [|by right]. left. exists k. by rewrite bool_decide_eq_true_2. }
  split.
  - unfold strip_matching. apply option_eq. intros x. rewrite map_lookup_filter_Some. simpl.
    destruct (is_inherited_secret_key k ks); naive_solver.
  - intros H. apply elem_of_union_l, elem_of_union_r, elem_of_list_to_set. by apply Hk.
Qed.

(** A line inside a value that reads like a declaration ends the value before it; when nothing
    but the opening quote stands before that line, taking the quotes off panics. *)
Lemma declaration_in_value_panics :
  let out := u!"declare -x FOO=" ++ [34%N; 10%N] ++ u!"declare -x BAR=1" ++ [34%N; 10%N] in
  out = flat_map (fun kv => declaration kv ++ [10%N]) [(u!"FOO", [10%N] ++ u!"declare -x BAR=1")]
  /\ from_bash_output out ∅ default_ignore_keys = None.
Proof. split; vm_compute; reflexivity. Qed.
