(* ===== verification/TaskLocks.v ===== *)
(** * Task locks ([src/task/task_lock.rs], [crates/mise-config/src/task/lock.rs])

    The locks a task asks for, how they are taken, and what a nested task inherits. The file
    lock itself (the [fslock] crate over [flock]) is a table from lock files to holders:
    [try_lock] succeeds exactly when nobody holds the file. The SHA-256 of the file names is an
    argument. A system of task runs that share the table is a step relation. *)

From Stdlib Require Import Sorting.Sorted.
From S2P Require Import Prelude RustStr.

(** ** What a task asks for *)

Inductive TaskLock : Type := LockOff | LockTask | LockNames (names : list str).

Inductive LockNameError : Type := EmptyLockName | BadLockName (name : str).

(** [TaskLock::validate_name] *)
Definition validate_name (name : str) : result LockNameError unit :=
  match trim name with
  | [] => Err EmptyLockName
  | _ => if contains_char c!"," name || existsb is_control name then Err (BadLockName name) else Ok tt
  end.

(** The visitor's methods for a boolean, a string and a list. *)
Definition visit_bool (v : bool) : TaskLock := if v then LockTask else LockOff.

Definition visit_str (v : str) : result LockNameError TaskLock :=
  let? _ := validate_name v in Ok (LockNames [v]).

Fixpoint visit_seq_loop (seq names : list str) : result LockNameError TaskLock :=
  match seq with
  | [] => Ok (match names with [] => LockOff | _ => LockNames names end)
  | name :: seq' => let? _ := validate_name name in visit_seq_loop seq' (names ++ [name])
  end.
Definition visit_seq (seq : list str) : result LockNameError TaskLock := visit_seq_loop seq [].

(** The part of a task that its locks depend on: [repository] is [repository_of] its
    directory. *)
Record Task := mkTask { task_name : str; repository : str; lock : option TaskLock }.

Record LockKey := mkLockKey { id : str; display : str }.

#[export] Instance LockKey_eq_dec : EqDecision LockKey.
Proof. solve_decision. Defined.

Definition named (name : str) : LockKey := mkLockKey name name.

(** [derive(Ord)]: the fields in order. *)
Definition key_leb (a b : LockKey) : bool :=
  match str_cmp a.(id) b.(id) with
  | Lt => true
  | Eq => match str_cmp a.(display) b.(display) with Gt => false | _ => true end
  | Gt => false
  end.

(** [Vec::sort] *)
Fixpoint insert_key (k : LockKey) (l : list LockKey) : list LockKey :=
  match l with
  | [] => [k]
  | x :: l' => if key_leb k x then k :: l else x :: insert_key k l'
  end.
Definition sort_keys (l : list LockKey) : list LockKey := foldr insert_key [] l.

(** [Vec::dedup] *)
Fixpoint dedup_keys (l : list LockKey) : list LockKey :=
  match l with
  | [] => []
  | x :: l' =>
      match dedup_keys l' with
      | y :: r => if bool_decide (x = y) then y :: r else x :: y :: r
      | [] => [x]
      end
  end.

(** ** Sets of lock ids

    A [BTreeSet<String>] is the strictly increasing list of its elements. *)

Fixpoint set_insert (x : str) (s : list str) : list str :=
  match s with
  | [] => [x]
  | y :: s' =>
      match str_cmp x y with
      | Lt => x :: s
      | Eq => s
      | Gt => y :: set_insert x s'
      end
  end.
Definition set_extend (s items : list str) : list str := fold_left (fun s x => set_insert x s) items s.
Definition set_contains (s : list str) (x : str) : bool := existsb (fun y => bool_decide (x = y)) s.

(** [inherited], of the value of [MISE_TASK_LOCKS]. *)
Definition inherited (env : option str) : list str :=
  match env with
  | Some value =>
      set_extend [] (List.filter (fun id => match id with [] => false | _ => true end)
                       (split_on (N.eqb c!",") value))
  | None => []
  end.

(** [exported] *)
Definition exported (inherited : list str) (keys : list LockKey) : str :=
  join u!"," (set_extend inherited (map id keys)).

(** [check_nested_order]; the error is its message. *)
Definition check_nested_order (task : Task) (inherited : list str) (to_take : list LockKey)
  : result str unit :=
  match last inherited, head to_take with
  | Some held, Some first =>
      if str_ltb first.(id) held then
        Err (u!"task " ++ task.(task_name) ++ u!": cannot take lock " ++ first.(display)
             ++ u!" while a parent task holds " ++ held
             ++ u!": a nested task can only add locks that sort after the ones it inherits. Add "
             ++ first.(display) ++ u!" to the parent task's `lock`")
      else Ok tt
  | _, _ => Ok tt
  end.

(** ** Taking locks *)

(** [LockAcquisition]: locks to come, the one waited for, those held. *)
Record LockAcquisition := mkAcquisition {
  pending : list LockKey;
  current : option LockKey;
  held : list LockKey
}.

Definition Acquisition_new (keys : list LockKey) : LockAcquisition := mkAcquisition keys None [].

(** Who holds each lock file. *)
Abbreviation LockTable := (gmap (list N) nat) (only parsing).

(** One task run: its task, the run that started it, what it inherited, the locks it asked
    for and those it is taking. *)
Record Run := mkRun {
  run_task : Task;
  run_parent : option nat;
  run_inherited : list str;
  run_keys : list LockKey;
  run_acquisition : LockAcquisition
}.

Definition set_acquisition (r : Run) (a : LockAcquisition) : Run :=
  mkRun r.(run_task) r.(run_parent) r.(run_inherited) r.(run_keys) a.

Section locks.
(** [hash_sha256_to_str] of [mise_util::hash] *)
Context (sha256_hex : str -> str).

Definition this_task (task : Task) : LockKey :=
  mkLockKey
    (u!"task:" ++ str_to (sha256_hex (task.(repository) ++ [0%N] ++ task.(task_name))) 16)
    (task.(task_name) ++ u!" (this repository)").

(** The file of [LockKey::path], less its directory and extension. *)
Definition lock_file (key : LockKey) : str := str_to (sha256_hex key.(id)) 16.

Definition requested (task : Task) : list LockKey :=
  let keys :=
    match task.(lock) with
    | None | Some LockOff => []
    | Some LockTask => [this_task task]
    | Some (LockNames names) => map named names
    end in
  dedup_keys (sort_keys keys).

Definition describe (task : Task) : option str :=
  match requested task with
  | [] => None
  | keys => Some (join u!", " (map display keys))
  end.

(** The loop of [LockAcquisition::try_take], with the keys still to take: what is held
    afterwards, and whether that is everything. *)
Fixpoint take_keys (me : nat) (table : LockTable) (held keys : list LockKey)
  : LockTable * LockAcquisition * bool :=
  match keys with
  | [] => (table, mkAcquisition [] None held, true)
  | key :: keys' =>
      match table !! lock_file key with
      | Some _ => (table, mkAcquisition keys' (Some key) held, false)
      | None => take_keys me (<[lock_file key := me]> table) (held ++ [key]) keys'
      end
  end.

Definition to_come (a : LockAcquisition) : list LockKey :=
  match a.(current) with Some key => key :: a.(pending) | None => a.(pending) end.

(** [LockAcquisition::try_take] *)
Definition try_take (me : nat) (table : LockTable) (a : LockAcquisition)
  : LockTable * LockAcquisition * bool :=
  take_keys me table a.(held) (to_come a).

(** Dropping [HeldLocks]: the kernel releases every lock. *)
Definition release (table : LockTable) (keys : list LockKey) : LockTable :=
  fold_left (fun table key => delete (lock_file key) table) keys table.

(** The part of the task executor that decides what to take, given [MISE_TASK_LOCKS]. *)
Definition start_run (task : Task) (parent : option nat) (env : option str) : result str Run :=
  let lock_keys := requested task in
  let inherited := inherited env in
  let to_take := List.filter (fun key => negb (set_contains inherited key.(id))) lock_keys in
  let? _ := check_nested_order task inherited to_take in
  Ok (mkRun task parent inherited lock_keys (Acquisition_new to_take)).

(** ** Runs that share the locks *)

(** Runs are numbered in the order they start. *)
Record System := mkSystem { runs : gmap nat Run; table : LockTable }.

Definition acquired (r : Run) : Prop := to_come r.(run_acquisition) = [].

Definition childless (s : System) (pid : nat) : Prop :=
  forall q r, s.(runs) !! q = Some r -> r.(run_parent) <> Some pid.

(** A run takes what it can of the locks to come; [progress] when it takes one. *)
Inductive advances : System -> System -> Prop :=
| try_locks s pid r t a done :
    s.(runs) !! pid = Some r ->
    try_take pid s.(table) r.(run_acquisition) = (t, a, done) ->
    length (held (run_acquisition r)) < length (held a) ->
    advances s (mkSystem (<[pid := set_acquisition r a]> s.(runs)) t)
| finish s pid r :
    s.(runs) !! pid = Some r -> acquired r -> childless s pid ->
    advances s (mkSystem (delete pid s.(runs)) (release s.(table) (held (run_acquisition r)))).

Inductive step (valid : Task -> Prop) : System -> System -> Prop :=
| start_root s pid task r :
    valid task -> (forall q, is_Some (s.(runs) !! q) -> q < pid) ->
    start_run task None None = Ok r ->
    step valid s (mkSystem (<[pid := r]> s.(runs)) s.(table))
| start_nested s pid parent p task r :
    valid task -> (forall q, is_Some (s.(runs) !! q) -> q < pid) ->
    s.(runs) !! parent = Some p -> acquired p ->
    start_run task (Some parent) (Some (exported p.(run_inherited) p.(run_keys))) = Ok r ->
    step valid s (mkSystem (<[pid := r]> s.(runs)) s.(table))
| poll s pid r t a done :
    s.(runs) !! pid = Some r ->
    try_take pid s.(table) r.(run_acquisition) = (t, a, done) ->
    step valid s (mkSystem (<[pid := set_acquisition r a]> s.(runs)) t)
| abandon s pid r :
    s.(runs) !! pid = Some r -> ~ acquired r ->
    step valid s (mkSystem (delete pid s.(runs)) (release s.(table) (held (run_acquisition r))))
| end_run s pid r :
    s.(runs) !! pid = Some r -> acquired r -> childless s pid ->
    step valid s (mkSystem (delete pid s.(runs)) (release s.(table) (held (run_acquisition r)))).
End locks.

(** ** Sorting *)

Definition key_le (a b : LockKey) : Prop :=
  str_lt a.(id) b.(id) \/ a.(id) = b.(id) /\ (a.(display) = b.(display) \/ str_lt a.(display) b.(display)).

Lemma key_leb_le a b : key_leb a b = true <-> key_le a b.
Proof.
  unfold key_leb, key_le, str_lt. destruct (str_cmp (id a) (id b)) eqn:E.
  - apply str_cmp_eq in E. destruct (str_cmp (display a) (display b)) eqn:E2.
    + apply str_cmp_eq in E2. tauto.
    + tauto.
    + split; [done|]. intros [H|[_ [H|H]]]; [done| |done]. apply str_cmp_eq in H. congruence.
  - tauto.
  - split; [done|]. intros [H|[H _]]; [done|]. apply str_cmp_eq in H. congruence.
Qed.

Lemma key_le_total a b : key_le a b \/ key_le b a.
Proof.
  unfold key_le. destruct (str_lt_total (id a) (id b)) as [|[E|]]; [tauto| |tauto].
  rewrite E. destruct (str_lt_total (display a) (display b)) as [|[|]]; intuition congruence.
Qed.

#[export] Instance key_le_trans : Transitive key_le.
Proof.
  intros a b c. unfold key_le. intros [H1|[H1 H1']] [H2|[H2 H2']].
  - left. by etrans.
  - left. by rewrite <- H2.
  - left. by rewrite H1.
  - right. split; [congruence|]. destruct H1' as [->|H1']; [done|].
    right. destruct H2' as [<-|H2']; [done|]. by etrans.
Qed.

Lemma key_le_antisym a b : key_le a b -> key_le b a -> a = b.
Proof.
  unfold key_le. destruct a as [i d], b as [j e]; simpl.
  intros [H1|[-> H1]] [H2|[H2 H2']]; try (exfalso; eapply str_lt_irrefl; (etrans; eassumption) || (subst; eassumption)).
  destruct H1 as [->|H1]; [done|]. destruct H2' as [->|H3]; [done|].
  exfalso. eapply str_lt_irrefl. by etrans.
Qed.

Lemma insert_key_perm k l : insert_key k l ≡ₚ k :: l.
Proof.
  induction l as [|x l IH]; simpl; [done|]. destruct (key_leb k x); [done|].
  rewrite IH. apply Permutation_swap.
Qed.

Lemma sort_keys_perm l : sort_keys l ≡ₚ l.
Proof. induction l as [|x l IH]; simpl; [done|]. by rewrite insert_key_perm, IH. Qed.

Lemma insert_key_sorted k l : StronglySorted key_le l -> StronglySorted key_le (insert_key k l).
Proof.
  induction 1 as [|x l Hs IH Hx]; simpl; [repeat constructor|].
  destruct (key_leb k x) eqn:E.
  - apply key_leb_le in E. constructor; [by constructor|]. constructor; [done|].
    eapply Forall_impl; [exact Hx|]. intros y Hy. simpl in *. by etrans.
  - constructor; [done|]. rewrite insert_key_perm. constructor; [|done].
    destruct (key_le_total k x) as [H|H]; [apply key_leb_le in H; congruence|done].
Qed.

Lemma sort_keys_sorted l : StronglySorted key_le (sort_keys l).
Proof. induction l as [|x l IH]; simpl; [constructor|]. by apply insert_key_sorted. Qed.

Lemma dedup_keys_elem k l : k ∈ dedup_keys l <-> k ∈ l.
Proof.
  induction l as [|x l IH]; [done|]. cbn [dedup_keys]. rewrite elem_of_cons, <- IH.
  destruct (dedup_keys l) as [|y r]; [set_solver|].
  destruct (bool_decide (x = y)) eqn:E; bool_prop; set_solver.
Qed.

Lemma dedup_keys_sorted l :
  StronglySorted key_le l -> StronglySorted (fun a b => key_le a b /\ a <> b) (dedup_keys l).
Proof.
  induction 1 as [|x l Hs IH Hx]; [constructor|]. cbn [dedup_keys].
  assert (Forall (key_le x) (dedup_keys l)) as Hd.
  { rewrite Forall_forall in *. intros y Hy. apply Hx. by apply dedup_keys_elem. }
  destruct (dedup_keys l) as [|y r]; [repeat constructor|].
  destruct (bool_decide (x = y)) eqn:E; bool_prop; [done|].
  constructor; [done|]. inversion IH as [|? ? Hs' Hy]; subst. inversion Hd as [|? ? Hxy Hr]; subst.
  constructor; [done|]. rewrite Forall_forall in *. intros z Hz. split; [auto|].
  intros <-. destruct (Hy _ Hz) as [Hyz _]. apply E. by apply key_le_antisym.
Qed.

(** ** Sets *)

Abbreviation increasing := (StronglySorted str_lt).

Lemma set_insert_elem x y s : x ∈ set_insert y s <-> x = y \/ x ∈ s.
Proof.
  induction s as [|z s IH]; simpl; [set_solver|].
  destruct (str_cmp y z) eqn:E; [apply str_cmp_eq in E as ->|..]; set_solver.
Qed.

Lemma set_insert_increasing x s : increasing s -> increasing (set_insert x s).
Proof.
  induction 1 as [|y s Hs IH Hy]; simpl; [repeat constructor|].
  destruct (str_cmp x y) eqn:E.
  - by constructor.
  - constructor; [by constructor|]. constructor; [done|].
    eapply Forall_impl; [exact Hy|]. intros z Hz. simpl in *. by etrans.
  - constructor; [done|]. rewrite Forall_forall in *. intros z [->|Hz]%set_insert_elem; [|auto].
    unfold str_lt. by rewrite str_cmp_antisym, E.
Qed.

Lemma set_extend_elem x s items : x ∈ set_extend s items <-> x ∈ s \/ x ∈ items.
Proof.
  unfold set_extend. revert s. induction items as [|y items IH]; intros s; simpl; [set_solver|].
  rewrite IH, set_insert_elem. set_solver.
Qed.

Lemma set_extend_increasing s items : increasing s -> increasing (set_extend s items).
Proof.
  unfold set_extend. revert s. induction items as [|y items IH]; intros s Hs; simpl; [done|].
  by apply IH, set_insert_increasing.
Qed.

Lemma increasing_app_snoc s x : increasing (s ++ [x]) -> increasing s /\ Forall (fun y => str_lt y x) s.
Proof.
  induction s as [|y s IH]; simpl; [split; constructor|].
  inversion 1 as [|? ? Hs Hy]; subst. destruct (IH Hs) as [H1 H2].
  rewrite Forall_app, Forall_singleton in Hy. destruct Hy. split; constructor; auto.
Qed.

Lemma set_insert_above x s : Forall (fun y => str_lt y x) s -> set_insert x s = s ++ [x].
Proof.
  induction 1 as [|y s Hy Hs IH]; simpl; [done|].
  unfold str_lt in Hy. rewrite str_cmp_antisym, Hy. simpl. by rewrite IH.
Qed.

Lemma set_extend_nil s : increasing s -> set_extend [] s = s.
Proof.
  induction s as [|x s IH] using rev_ind; [done|]. intros [Hs Hx]%increasing_app_snoc.
  unfold set_extend in *. rewrite fold_left_app, IH by done. simpl. by apply set_insert_above.
Qed.

Lemma set_contains_elem s x : set_contains s x = true <-> x ∈ s.
Proof.
  unfold set_contains. rewrite existsb_exists. setoid_rewrite bool_decide_eq_true.
  setoid_rewrite <- list_elem_of_In. naive_solver.
Qed.

(** ** [MISE_TASK_LOCKS] *)

Definition no_comma (s : str) : Prop := contains_char c!"," s = false.

(** An id that [MISE_TASK_LOCKS] can carry. *)
Definition id_ok (i : str) : Prop := i <> [] /\ no_comma i.

Lemma split_no_comma s : no_comma s -> split_on (N.eqb c!",") s = [s].
Proof.
  unfold no_comma, contains_char. induction s as [|c s IH]; [done|].
  cbn [existsb split_on]. intros [H1 H2]%orb_false_iff. by rewrite H1, IH.
Qed.

Lemma split_app_comma s t : no_comma s ->
  split_on (N.eqb c!",") (s ++ c!"," :: t) = s :: split_on (N.eqb c!",") t.
Proof.
  unfold no_comma, contains_char. induction s as [|c s IH]; [done|].
  cbn [existsb split_on app]. intros [H1 H2]%orb_false_iff. by rewrite H1, IH.
Qed.

Lemma split_join l : l <> [] -> Forall no_comma l -> split_on (N.eqb c!",") (join u!"," l) = l.
Proof.
  intros Hne H. induction H as [|x l Hx Hl IH]; [done|].
  destruct l as [|y l]; [by apply split_no_comma|].
  change (join u!"," (x :: y :: l)) with (x ++ c!"," :: join u!"," (y :: l)).
  rewrite split_app_comma by done. by rewrite IH.
Qed.

Lemma inherited_export s : increasing s -> Forall id_ok s -> inherited (Some (join u!"," s)) = s.
Proof.
  intros Hs Hok. unfold inherited.
  assert (List.filter (fun id => match id with [] => false | _ => true end)
    (split_on (N.eqb c!",") (join u!"," s)) = s) as ->; [|by apply set_extend_nil].
  destruct s as [|x s]; [done|]. rewrite split_join; [|done|eapply Forall_impl; [exact Hok|by intros ? []]].
  clear Hs. induction Hok as [|y l [Hy _] Hl IH]; [done|]. simpl. by destruct y; [|rewrite IH].
Qed.

(** ** What a task asks for *)

Lemma validate_name_ok name : validate_name name = Ok tt -> id_ok name.
Proof.
  unfold validate_name, id_ok, no_comma. destruct (trim name) eqn:E; [done|].
  destruct (contains_char c!"," name); [done|]. intros _. split; [|done]. by intros ->.
Qed.

Section lock_facts.
Context (sha256_hex : str -> str).

(** The names passed [validate_name], and a hash has no comma. *)
Definition names_ok (task : Task) : Prop :=
  match task.(lock) with
  | Some (LockNames names) => Forall (fun n => validate_name n = Ok tt) names
  | Some LockTask => no_comma (this_task sha256_hex task).(id)
  | _ => True
  end.

Lemma requested_ok task : names_ok task -> Forall (fun k => id_ok k.(id)) (requested sha256_hex task).
Proof.
  intros H. apply Forall_forall. intros k Hk. unfold requested in Hk. rewrite dedup_keys_elem, sort_keys_perm in Hk.
  unfold names_ok in H. destruct (lock task) as [[| |names]|].
  - by apply elem_of_nil in Hk.
  - apply list_elem_of_singleton in Hk as ->. split; [done|exact H].
  - apply list_elem_of_fmap in Hk as (n & -> & Hn). rewrite Forall_forall in H.
    by apply validate_name_ok, H.
  - by apply elem_of_nil in Hk.
Qed.

Lemma requested_increasing task : increasing (map id (requested sha256_hex task)).
Proof.
  unfold requested. set (keys := match lock task with Some _ => _ | None => _ end).
  assert (forall a b, a ∈ keys -> b ∈ keys -> a.(id) = b.(id) -> a = b) as Hid.
  { unfold keys. destruct (lock task) as [[| |names]|]; intros a b Ha Hb E; simpl in *.
    - by apply elem_of_nil in Ha.
    - apply list_elem_of_singleton in Ha, Hb. congruence.
    - apply list_elem_of_fmap in Ha as (n & -> & _), Hb as (m & -> & _). simpl in E. by subst.
    - by apply elem_of_nil in Ha. }
  pose proof (dedup_keys_sorted _ (sort_keys_sorted keys)) as Hs.
  assert (forall k, k ∈ dedup_keys (sort_keys keys) -> k ∈ keys) as Hin.
  { intros k Hk. by rewrite dedup_keys_elem, sort_keys_perm in Hk. }
  induction Hs as [|x l Hs IH Hx]; simpl; [constructor|]. constructor.
  - apply IH. intros k Hk. apply Hin. set_solver.
  - apply Forall_map. rewrite Forall_forall in *. intros y Hy. destruct (Hx y Hy) as [[Hl|[He _]] Hne]; [done|].
    exfalso. apply Hne, Hid; [apply Hin; set_solver..|done].
Qed.

Lemma requested_elem task k : k ∈ requested sha256_hex task ->
  match task.(lock) with
  | Some LockTask => k = this_task sha256_hex task
  | Some (LockNames names) => exists n, n ∈ names /\ k = named n
  | _ => False
  end.
Proof.
  intros Hk. unfold requested in Hk. rewrite dedup_keys_elem, sort_keys_perm in Hk.
  destruct (lock task) as [[| |names]|]; [by apply elem_of_nil in Hk|by apply list_elem_of_singleton in Hk|
    |by apply elem_of_nil in Hk].
  apply list_elem_of_fmap in Hk as (n & -> & Hn). eauto.
Qed.

Lemma increasing_filter {A} (f : A -> bool) (g : A -> str) l :
  increasing (map g l) -> increasing (map g (List.filter f l)).
Proof.
  induction l as [|x l IH]; simpl; [done|]. inversion 1 as [|? ? Hs Hx]; subst.
  destruct (f x); [|auto]. simpl. constructor; [auto|].
  rewrite Forall_forall in *. intros y Hy. apply Hx.
  apply list_elem_of_fmap in Hy as (z & -> & Hz). apply list_elem_of_fmap. exists z. split; [done|].
  apply list_elem_of_In in Hz. apply filter_In in Hz as [Hz _]. by apply list_elem_of_In.
Qed.

Lemma last_max s x m : increasing s -> last s = Some m -> x ∈ s -> x = m \/ str_lt x m.
Proof.
  intros Hs Hl Hx. destruct s as [|y s _] using rev_ind; [done|].
  rewrite last_snoc in Hl. injection Hl as ->. apply increasing_app_snoc in Hs as [_ Hf].
  rewrite elem_of_app, list_elem_of_singleton in Hx. destruct Hx as [Hx| ->]; [|by left].
  right. rewrite Forall_forall in Hf. by apply Hf.
Qed.

(** A nested task only takes locks above those it inherits. *)
Lemma check_nested_order_above task s keys :
  increasing s -> increasing (map id keys) -> (forall k, k ∈ keys -> k.(id) ∉ s) ->
  check_nested_order task s keys = Ok tt ->
  forall i k, i ∈ s -> k ∈ keys -> str_lt i k.(id).
Proof.
  unfold check_nested_order. intros Hs Hk Hnin H i k Hi Hin.
  destruct keys as [|first keys]; [by apply elem_of_nil in Hin|].
  destruct (last s) as [m|] eqn:El; [|apply last_None in El; subst; by apply elem_of_nil in Hi].
  simpl in H. destruct (str_ltb (id first) m) eqn:Elt; [done|].
  assert (str_lt m (id first)) as Hm.
  { apply str_ltb_ge in Elt as [E|]; [|done]. exfalso. apply (Hnin first); [set_solver|].
    rewrite E. apply last_Some in El as [l' ->]. set_solver. }
  assert (str_lt i (id first)) as Hif.
  { destruct (last_max s i m Hs El Hi) as [->|]; [done|]. by etrans. }
  inversion Hk as [|? ? _ Hall]; subst. apply elem_of_cons in Hin as [->|Hin]; [done|].
  rewrite Forall_map, Forall_forall in Hall. etrans; [exact Hif|by apply Hall].
Qed.

Lemma start_run_spec task parent env r :
  start_run sha256_hex task parent env = Ok r ->
  exists to_take, r = mkRun task parent (inherited env) (requested sha256_hex task) (Acquisition_new to_take) /\
    increasing (map id to_take) /\ (forall k, k ∈ to_take <-> k ∈ requested sha256_hex task /\ k.(id) ∉ inherited env) /\
    check_nested_order task (inherited env) to_take = Ok tt.
Proof.
  unfold start_run, rbind. destruct (check_nested_order _ _ _) as [[]|e|] eqn:E; [|done..].
  intros [= <-]. eexists. split_and!; [reflexivity| | |exact E].
  - apply increasing_filter, requested_increasing.
  - intros k. rewrite (list_elem_of_In (List.filter _ _)), filter_In, <- list_elem_of_In.
    by rewrite negb_true_iff, <- not_true_iff_false, set_contains_elem.
Qed.

Lemma inherited_increasing env : increasing (inherited env).
Proof. destruct env; [|constructor]. apply set_extend_increasing. constructor. Qed.

(** ** Taking and releasing *)

Lemma take_keys_spec me t h keys t' a b :
  take_keys sha256_hex me t h keys = (t', a, b) ->
  exists taken, keys = taken ++ to_come a /\ held a = h ++ taken /\
    (b = true <-> to_come a = []) /\
    (forall f q, t' !! f = Some q <-> t !! f = Some q \/ (q = me /\ exists k, k ∈ taken /\ lock_file sha256_hex k = f)) /\
    match to_come a with k :: _ => is_Some (t' !! lock_file sha256_hex k) | [] => True end.
Proof.
  revert t h. induction keys as [|key keys IH]; intros t h; simpl.
  - intros [= <- <- <-]. exists []. simpl. rewrite app_nil_r. do 2 (split; [done|]). split; [by split|]. split; [|done].
    intros f q. split; [auto|]. intros [|(_ & k & Hk & _)]; [done|]. by apply elem_of_nil in Hk.
  - destruct (t !! lock_file sha256_hex key) as [o|] eqn:E.
    + intros [= <- <- <-]. exists []. simpl. rewrite app_nil_r. do 2 (split; [done|]). split; [by split|]. split; [|done].
      intros f q. split; [auto|]. intros [|(_ & k & Hk & _)]; [done|]. by apply elem_of_nil in Hk.
    + intros (taken & -> & Hh & Hb & Ht & Hr)%IH. exists (key :: taken).
      rewrite Hh, <- app_assoc. do 2 (split; [done|]). split; [done|]. split; [|done].
      intros f q. rewrite Ht, lookup_insert_Some.
      split.
      * intros [[(Hf & Hm)|(Hf & H)]|(-> & k & Hk & Hf)]; [|by left|].
        -- right. split; [done|]. exists key. split; [apply elem_of_cons; by left|done].
        -- right. split; [done|]. exists k. split; [apply elem_of_cons; by right|done].
      * intros [H|(-> & k & Hk & Hf)].
        -- left. right. split; [|done]. intros Hf. congruence.
        -- apply elem_of_cons in Hk as [->|Hk]; [by left; left|right; eauto].
Qed.

Lemma try_take_spec me t acq t' a b :
  try_take sha256_hex me t acq = (t', a, b) ->
  exists taken, to_come acq = taken ++ to_come a /\ held a = held acq ++ taken /\
    (b = true <-> to_come a = []) /\
    (forall f q, t' !! f = Some q <-> t !! f = Some q \/ (q = me /\ exists k, k ∈ taken /\ lock_file sha256_hex k = f)) /\
    match to_come a with k :: _ => is_Some (t' !! lock_file sha256_hex k) | [] => True end.
Proof. apply take_keys_spec. Qed.

(** A free lock is taken. *)
Lemma try_take_progress me t acq k rest t' a b :
  to_come acq = k :: rest -> t !! lock_file sha256_hex k = None ->
  try_take sha256_hex me t acq = (t', a, b) -> length (held acq) < length (held a).
Proof.
  unfold try_take. intros -> E. simpl. rewrite E.
  intros (taken & _ & -> & _)%take_keys_spec. rewrite !length_app. simpl. lia.
Qed.

Lemma release_lookup t keys f q :
  release sha256_hex t keys !! f = Some q <->
  t !! f = Some q /\ forall k, k ∈ keys -> lock_file sha256_hex k <> f.
Proof.
  unfold release. revert t. induction keys as [|key keys IH]; intros t; simpl.
  - split; [|tauto]. intros H. split; [done|]. intros k Hk. by apply elem_of_nil in Hk.
  - rewrite IH, lookup_delete_Some. set_solver.
Qed.

(** ** The invariant *)

Context (used : str -> Prop).
Definition valid (task : Task) : Prop :=
  names_ok task /\ Forall (fun k => used k.(id)) (requested sha256_hex task).

Abbreviation all_keys a := (held a ++ to_come a).

Record Run_ok (r : Run) : Prop := {
  ok_sorted : increasing (map id (all_keys (run_acquisition r)));
  ok_used : forall k, k ∈ all_keys (run_acquisition r) -> used k.(id);
  ok_above : forall i k, i ∈ run_inherited r -> k ∈ all_keys (run_acquisition r) -> str_lt i k.(id);
  ok_inherited : increasing (run_inherited r) /\ Forall id_ok (run_inherited r);
  ok_keys : Forall (fun k => id_ok k.(id)) (run_keys r);
  ok_asked : forall k, k ∈ all_keys (run_acquisition r) -> k ∈ run_keys r
}.

Record Inv (s : System) : Prop := {
  inv_table : forall f pid, table s !! f = Some pid <->
    exists r k, runs s !! pid = Some r /\ k ∈ held (run_acquisition r) /\ lock_file sha256_hex k = f;
  inv_runs : forall pid r, runs s !! pid = Some r -> Run_ok r;
  inv_parents : forall pid r q, runs s !! pid = Some r -> run_parent r = Some q ->
    q < pid /\ exists p, runs s !! q = Some p /\ acquired p /\
      (forall i, i ∈ run_inherited p -> i ∈ run_inherited r) /\
      (forall k, k ∈ held (run_acquisition p) -> k.(id) ∈ run_inherited r)
}.

Lemma Run_ok_start task parent env r :
  valid task -> Forall id_ok (inherited env) ->
  start_run sha256_hex task parent env = Ok r -> Run_ok r.
Proof.
  intros [Hn Hu] Hi (to_take & -> & Hs & Hin & Hc)%start_run_spec.
  rewrite Forall_forall in Hu. constructor; simpl.
  - exact Hs.
  - intros k [Hk _]%Hin. by apply Hu.
  - intros i k Hi' Hk. apply (check_nested_order_above task (inherited env) to_take); auto using inherited_increasing.
    intros k' [_ Hk']%Hin. exact Hk'.
  - split; [apply inherited_increasing|done].
  - by apply requested_ok.
  - by intros k [Hk _]%Hin.
Qed.

Lemma Run_ok_keys r a :
  all_keys a = all_keys (run_acquisition r) -> Run_ok r -> Run_ok (set_acquisition r a).
Proof. intros E [H1 H2 H3 H4 H5 H6]. by constructor; simpl; rewrite ?E. Qed.

(** Starting a run adds nothing to the table. *)
Lemma Inv_start s pid r :
  Inv s -> (forall q, is_Some (runs s !! q) -> q < pid) -> Run_ok r -> held (run_acquisition r) = [] ->
  (forall q, run_parent r = Some q -> exists p, runs s !! q = Some p /\ acquired p /\
      (forall i, i ∈ run_inherited p -> i ∈ run_inherited r) /\
      (forall k, k ∈ held (run_acquisition p) -> k.(id) ∈ run_inherited r)) ->
  Inv (mkSystem (<[pid := r]> (runs s)) (table s)).
Proof.
  intros [Ht Hr Hp] Hnew Hok Hh Hpar.
  assert (runs s !! pid = None) as Hn.
  { destruct (runs s !! pid) eqn:E; [|done]. specialize (Hnew pid (ex_intro _ _ E)). lia. }
  constructor; simpl.
  - intros f q. rewrite Ht. split.
    + intros (r0 & k & E & Hk & Hf). exists r0, k. split_and!; try done. rewrite lookup_insert_ne; [done|congruence].
    + intros (r0 & k & E & Hk & Hf). apply lookup_insert_Some in E as [[<- <-]|[Hne E]]; [|by exists r0, k].
      rewrite Hh in Hk. by apply elem_of_nil in Hk.
  - intros q r0 [[<- <-]|[Hne E]]%lookup_insert_Some; [done|by eapply Hr].
  - intros q r0 q' E Hq'. apply lookup_insert_Some in E as [[<- <-]|[Hne E]].
    + destruct (Hpar q' Hq') as (p & Ep & Hrest). split; [by apply Hnew|].
      exists p. split; [|done]. rewrite lookup_insert_ne; [done|congruence].
    + destruct (Hp q r0 q' E Hq') as (Hlt & p & Ep & Hrest). split; [done|].
      exists p. split; [|done]. rewrite lookup_insert_ne; [done|congruence].
Qed.

Lemma Inv_poll s pid r t a b :
  Inv s -> runs s !! pid = Some r ->
  try_take sha256_hex pid (table s) (run_acquisition r) = (t, a, b) ->
  Inv (mkSystem (<[pid := set_acquisition r a]> (runs s)) t).
Proof.
  intros [Ht Hr Hp] Er (taken & Hc & Hh & _ & Htab & _)%try_take_spec. constructor; simpl.
  - intros f q. rewrite Htab, Ht. split.
    + intros [(r0 & k & E & Hk & Hf)|(-> & k & Hk & Hf)].
      * destruct (decide (q = pid)) as [->|Hne].
        -- exists (set_acquisition r a), k. rewrite lookup_insert_eq. simpl. rewrite Hh.
           assert (r0 = r) as -> by congruence. set_solver.
        -- exists r0, k. by rewrite lookup_insert_ne.
      * exists (set_acquisition r a), k. rewrite lookup_insert_eq. simpl. rewrite Hh. set_solver.
    + intros (r0 & k & E & Hk & Hf). apply lookup_insert_Some in E as [[<- <-]|[Hne E]].
      * simpl in Hk. rewrite Hh in Hk. apply elem_of_app in Hk as [Hk|Hk]; [left; by exists r, k|right; eauto].
      * left. by exists r0, k.
  - intros q r0 [[<- <-]|[Hne E]]%lookup_insert_Some; [|by eapply Hr].
    apply Run_ok_keys; [|by eapply Hr]. by rewrite Hh, Hc, app_assoc.
  - intros q r0 q' E Hq'.
    assert (exists r1, runs s !! q = Some r1 /\ run_parent r1 = Some q' /\ run_inherited r1 = run_inherited r0)
      as (r1 & E1 & Hp1 & Hi1).
    { apply lookup_insert_Some in E as [[<- <-]|[Hne E]]; eauto. }
    destruct (Hp q r1 q' E1 Hp1) as (Hlt & p & Ep & Ha & Hin & Hhe). split; [done|]. rewrite <- Hi1.
    destruct (decide (q' = pid)) as [->|Hne]; [|exists p; by rewrite lookup_insert_ne].
    assert (p = r) as -> by congruence. exists (set_acquisition r a). rewrite lookup_insert_eq.
    unfold acquired in Ha. rewrite Ha in Hc. symmetry in Hc. apply app_eq_nil in Hc as [-> Hc].
    unfold acquired. simpl. rewrite Hh, app_nil_r. done.
Qed.

(** A run that ends without children gives back what it holds. *)
Lemma Inv_remove s pid r :
  Inv s -> runs s !! pid = Some r -> childless s pid ->
  Inv (mkSystem (delete pid (runs s)) (release sha256_hex (table s) (held (run_acquisition r)))).
Proof.
  intros [Ht Hr Hp] Er Hc. constructor; simpl.
  - intros f q. rewrite release_lookup. split.
    + intros [Hf Hno]. apply Ht in Hf as (r0 & k & E & Hk & Hf). exists r0, k.
      split_and!; try done. rewrite lookup_delete_ne; [done|]. intros ->.
      assert (r0 = r) as -> by congruence. by eapply Hno.
    + intros (r0 & k & E & Hk & Hf). apply lookup_delete_Some in E as [Hne E].
      assert (table s !! f = Some q) as Hq by (apply Ht; eauto). split; [done|].
      intros k' Hk' Hf'. assert (table s !! f = Some pid) by (apply Ht; eauto). congruence.
  - intros q r0 [_ E]%lookup_delete_Some. by eapply Hr.
  - intros q r0 q' [_ E]%lookup_delete_Some Hq'. destruct (Hp q r0 q' E Hq') as (Hlt & p & Ep & Hrest).
    split; [done|]. exists p. split; [|done]. rewrite lookup_delete_ne; [done|].
    intros ->. by eapply (Hc q r0).
Qed.

Lemma Inv_waiting_childless s pid r :
  Inv s -> runs s !! pid = Some r -> ~ acquired r -> childless s pid.
Proof.
  intros [_ _ Hp] Er Ha q r0 E Hq. destruct (Hp q r0 pid E Hq) as (_ & p & Ep & Hac & _). congruence.
Qed.

Lemma exported_inherited r :
  Run_ok r -> inherited (Some (exported (run_inherited r) (run_keys r)))
    = set_extend (run_inherited r) (map id (run_keys r)).
Proof.
  intros Hok. destruct (ok_inherited r Hok) as [Hs Hi]. pose proof (ok_keys r Hok) as Hk.
  unfold exported. apply inherited_export; [by apply set_extend_increasing|].
  apply Forall_forall. rewrite Forall_forall in Hi. rewrite Forall_forall in Hk. intros i [H|H]%set_extend_elem; [by apply Hi|].
  apply list_elem_of_fmap in H as (k & -> & H). by apply Hk.
Qed.

Lemma step_Inv s s' : step sha256_hex valid s s' -> Inv s -> Inv s'.
Proof.
  intros Hst Hinv. destruct Hst as [s pid task r Hv Hnew E|s pid parent p task r Hv Hnew Ep Ha E|
    s pid r t a b Er E|s pid r Er Ha|s pid r Er Ha Hc].
  - apply Inv_start; auto.
    + eapply (Run_ok_start _ _ None); [exact Hv|apply Forall_nil; exact I|exact E].
    + by apply start_run_spec in E as (? & -> & _).
    + apply start_run_spec in E as (? & -> & _). done.
  - pose proof (inv_runs s Hinv _ _ Ep) as Hp. pose proof (exported_inherited p Hp) as Hx.
    assert (Forall id_ok (inherited (Some (exported (run_inherited p) (run_keys p))))) as Hf.
    { rewrite Hx, Forall_forall. intros i [H|H]%set_extend_elem.
      - destruct (ok_inherited p Hp) as [_ Hi]. rewrite Forall_forall in Hi. auto.
      - apply list_elem_of_fmap in H as (k & -> & H). pose proof (ok_keys p Hp) as Hk.
        rewrite Forall_forall in Hk. auto. }
    apply Inv_start; auto.
    + eapply Run_ok_start; [exact Hv|exact Hf|exact E].
    + by apply start_run_spec in E as (? & -> & _).
    + apply start_run_spec in E as (to_take & -> & _). cbn [run_parent run_inherited]. intros q [= <-].
      exists p. rewrite Hx. split_and!; try done.
      * intros i Hi. apply set_extend_elem. by left.
      * intros k Hk. apply set_extend_elem. right. apply list_elem_of_fmap. exists k. split; [done|].
        apply (ok_asked p Hp). set_solver.
  - by eapply Inv_poll.
  - apply Inv_remove; auto. by eapply Inv_waiting_childless.
  - by apply Inv_remove.
Qed.

(** ** Progress *)

Lemma leaf_below s pid r :
  Inv s -> runs s !! pid = Some r ->
  exists l rl, runs s !! l = Some rl /\ childless s l /\
    (l = pid /\ rl = r \/
     acquired r /\ (forall i, i ∈ run_inherited r -> i ∈ run_inherited rl) /\
     (forall k, k ∈ held (run_acquisition r) -> k.(id) ∈ run_inherited rl)).
Proof.
  intros Hinv. assert (exists b, forall q r0, runs s !! q = Some r0 -> q < b) as [b Hb].
  { exists (S (set_fold Nat.max 0 (dom (runs s)))). intros q r0 E. apply Nat.lt_succ_r.
    apply (set_fold_ind_L (fun n (X : gset nat) => forall q, q ∈ X -> q <= n)); [set_solver| |by eapply elem_of_dom_2].
    intros x X n Hx IH y Hy. apply elem_of_union in Hy as [Hy|Hy]; [|specialize (IH y Hy); lia].
    apply elem_of_singleton in Hy. lia. }
  remember (b - pid) as n eqn:En. revert pid r En. induction n as [n IH] using lt_wf_ind.
  intros pid r En Er. pose proof (Hb _ _ Er) as Hlt.
  destruct (decide (map_Forall (fun _ r0 => run_parent r0 <> Some pid) (runs s))) as [Hc|Hc].
  { exists pid, r. split_and!; [done|exact Hc|by left]. }
  apply map_not_Forall in Hc as (q & rq & Eq & Hp); [|solve_decision].
  apply dec_stable in Hp. destruct (inv_parents s Hinv q rq pid Eq Hp) as (Hpq & p & Ep & Ha & Hi & Hh).
  assert (p = r) as -> by congruence. pose proof (Hb _ _ Eq) as Hq.
  destruct (IH (b - q) ltac:(lia) q rq eq_refl Eq) as (l & rl & El & Hl & Hcase).
  exists l, rl. split_and!; [done|done|]. right.
  destruct Hcase as [[-> ->]|(Ha' & Hi' & Hh')]; [done|]. split_and!; [done|eauto|eauto].
Qed.

(** The ids that are held. *)
Definition held_ids (s : System) : list str :=
  flat_map (fun pr => map id (held (run_acquisition pr.2))) (map_to_list (runs s)).

Lemma held_ids_elem s q r k :
  runs s !! q = Some r -> k ∈ held (run_acquisition r) -> k.(id) ∈ held_ids s.
Proof.
  intros E Hk. unfold held_ids. apply list_elem_of_In, in_flat_map. exists (q, r). split.
  - by apply list_elem_of_In, elem_of_map_to_list.
  - apply list_elem_of_In. simpl. apply list_elem_of_fmap. eauto.
Qed.

Lemma increasing_app_lt (a b : list LockKey) x y :
  increasing (map id (a ++ b)) -> x ∈ a -> y ∈ b -> str_lt x.(id) y.(id).
Proof.
  induction a as [|z a IH]; [by intros _ ?%elem_of_nil|]. simpl. inversion 1 as [|? ? Hs Hz]; subst.
  intros [->|Hx]%elem_of_cons Hy; [|auto]. rewrite Forall_map, Forall_forall in Hz.
  apply (Hz y). set_solver.
Qed.

(** No two lock ids in use have the same file: the file names are hashes. *)
Hypothesis files_distinct : forall a b,
  used a.(id) -> used b.(id) -> lock_file sha256_hex a = lock_file sha256_hex b -> a.(id) = b.(id).

(** Following the holder of the lock a leaf waits for, the locks waited for grow. *)
Lemma leaf_advances n s l rl k rest :
  Inv s -> runs s !! l = Some rl -> to_come (run_acquisition rl) = k :: rest ->
  length (List.filter (fun i => negb (str_ltb i k.(id))) (held_ids s)) < n ->
  exists s', advances sha256_hex s s'.
Proof.
  intros Hinv. revert l rl k rest. induction n as [|n IH]; intros l rl k rest El Ek Hn; [lia|].
  destruct (table s !! lock_file sha256_hex k) as [q|] eqn:Et.
  2: { destruct (try_take sha256_hex l (table s) (run_acquisition rl)) as [[t a] b] eqn:E.
       eexists. eapply try_locks; [exact El|exact E|]. by eapply try_take_progress. }
  apply (inv_table s Hinv) in Et as (rq & k' & Eq & Hk' & Hf).
  assert (k'.(id) = k.(id)) as Hid.
  { apply files_distinct; [| |done].
    - apply (ok_used rq (inv_runs s Hinv _ _ Eq)). set_solver.
    - apply (ok_used rl (inv_runs s Hinv _ _ El)). rewrite Ek. set_solver. }
  destruct (leaf_below s q rq Hinv Eq) as (l' & rl' & El' & Hc & Hcase).
  destruct (to_come (run_acquisition rl')) as [|k2 rest2] eqn:E2.
  { eexists. by eapply finish. }
  pose proof (inv_runs s Hinv _ _ El') as Hok.
  assert (str_lt k.(id) k2.(id)) as Hlt.
  { rewrite <- Hid. destruct Hcase as [[-> ->]|(_ & _ & Hh)].
    - eapply increasing_app_lt; [apply (ok_sorted rq Hok)|done|]. rewrite E2. set_solver.
    - apply (ok_above rl' Hok); [by apply Hh|]. rewrite E2. set_solver. }
  apply (IH l' rl' k2 rest2 El' E2). eapply Nat.lt_le_trans; [|apply Nat.lt_succ_r; exact Hn].
  apply (filter_length_lt _ _ _ k.(id)).
  - intros x Hx. apply negb_true_iff in Hx. apply negb_true_iff. apply not_true_iff_false.
    intros H%str_ltb_lt. apply not_true_iff_false in Hx. apply Hx. apply str_ltb_lt. by etrans.
  - rewrite <- Hid. exact (held_ids_elem s q rq k' Eq Hk').
  - apply negb_true_iff, not_true_iff_false. rewrite str_ltb_lt. apply str_lt_irrefl.
  - apply negb_false_iff. by apply str_ltb_lt.
Qed.

Lemma system_advances s : Inv s -> runs s <> ∅ -> exists s', advances sha256_hex s s'.
Proof.
  intros Hinv Hne. apply map_choose in Hne as (pid & r & E).
  destruct (leaf_below s pid r Hinv E) as (l & rl & El & Hc & _).
  destruct (to_come (run_acquisition rl)) as [|k rest] eqn:Ek; [eexists; by eapply finish|].
  eapply leaf_advances; [done|done|exact Ek|apply Nat.lt_succ_diag_r].
Qed.

Lemma advances_step s s' : advances sha256_hex s s' -> step sha256_hex valid s s'.
Proof. destruct 1; [by eapply poll|by eapply end_run]. Qed.

(** What is left to do: locks to take and runs to end. *)
Definition weight (s : System) : nat :=
  map_fold (fun _ r n => S (length (to_come (run_acquisition r)) + n)) 0 (runs s).

Lemma weight_delete m pid r :
  m !! pid = Some r ->
  map_fold (fun (_ : nat) r n => S (length (to_come (run_acquisition r)) + n)) 0 m =
  S (length (to_come (run_acquisition r)) +
     map_fold (fun (_ : nat) r n => S (length (to_come (run_acquisition r)) + n)) 0 (delete pid m)).
Proof. intros E. rewrite (map_fold_delete_L _ _ pid r m); [done| |done]. intros; lia. Qed.

Lemma advances_weight s s' : advances sha256_hex s s' -> weight s' < weight s.
Proof.
  unfold weight. destruct 1 as [s pid r t a b E Ht Hl|s pid r E Ha Hc]; cbn [runs].
  - apply try_take_spec in Ht as (taken & Hc & Hh & _).
    rewrite (weight_delete (runs s) pid r E).
    rewrite (weight_delete (<[pid:=_]> (runs s)) pid (set_acquisition r a)) by apply lookup_insert_eq.
    rewrite delete_insert_eq. rewrite Hc, length_app. rewrite Hh, length_app in Hl. simpl. lia.
  - rewrite (weight_delete (runs s) pid r E). lia.
Qed.

Lemma system_drains s : Inv s -> exists s', rtc (advances sha256_hex) s s' /\ Inv s' /\ runs s' = ∅.
Proof.
  remember (weight s) as n eqn:En. revert s En. induction n as [n IH] using lt_wf_ind.
  intros s En Hinv. destruct (decide (runs s = ∅)) as [He|Hne]; [by exists s|].
  destruct (system_advances s Hinv Hne) as [s1 Hadv]. pose proof (advances_weight _ _ Hadv) as Hw.
  destruct (IH (weight s1) ltac:(lia) s1 eq_refl) as (s' & Hs' & Hinv' & He).
  - apply (step_Inv s); [by apply advances_step|done].
  - exists s'. split; [by eapply rtc_l|done].
Qed.

Lemma Inv_empty : Inv (mkSystem ∅ ∅).
Proof.
  constructor; simpl; [|intros ? ? E; by rewrite lookup_empty in E|intros ? ? ? E; by rewrite lookup_empty in E].
  intros f pid. rewrite lookup_empty. split; [done|]. intros (r & k & E & _). by rewrite lookup_empty in E.
Qed.

Lemma reachable_Inv s : rtc (step sha256_hex valid) (mkSystem ∅ ∅) s -> Inv s.
Proof.
  enough (forall a, rtc (step sha256_hex valid) a s -> Inv a -> Inv s) as Hgo.
  { intros H. eapply Hgo; [exact H|apply Inv_empty]. }
  induction 1 as [|a b c Hab Hbc IH]; [done|]. intros Hi. apply IH. by eapply step_Inv.
Qed.
End lock_facts.

(** ** Properties *)

(** C16. No deadlock. From every state that task runs can reach, starting on their own or nested under
    runs whose locks they inherit, polling, giving up and ending as they do, the runs can all
    take their locks and end, and leave no lock behind. The ids in use must have distinct
    lock files. *)
Theorem task_locks_drain sha256_hex used s :
  (forall a b, used a.(id) -> used b.(id) ->
     lock_file sha256_hex a = lock_file sha256_hex b -> a.(id) = b.(id)) ->
  rtc (step sha256_hex (valid sha256_hex used)) (mkSystem ∅ ∅) s ->
  exists s', rtc (advances sha256_hex) s s' /\ runs s' = ∅ /\ table s' = ∅.
Proof.
  intros Hd Hr. destruct (system_drains sha256_hex used Hd s) as (s' & Hs & Hinv & He).
  - by eapply reachable_Inv.
  - exists s'. split_and!; [done|done|]. apply map_eq. intros f. rewrite lookup_empty.
    destruct (table s' !! f) as [q|] eqn:E; [|done].
    apply (inv_table _ _ _ Hinv) in E as (r & k & E & _). by rewrite He, lookup_empty in E.
Qed.

Definition sample_task (names : list str) : Task := mkTask u!"build" u!"/repo/.git" (Some (LockNames names)).

(** Two ids, whose files are their own names. *)
Definition sample_used (i : str) : Prop := i = u!"db" \/ i = u!"sim".

Lemma task_locks_drain_witness :
  exists s, rtc (step (fun x => x) (valid (fun x => x) sample_used)) (mkSystem ∅ ∅) s /\ runs s <> ∅ /\
    exists s', rtc (advances (fun x => x)) s s' /\ runs s' = ∅ /\ table s' = ∅.
Proof.
  assert (exists s, rtc (step (fun x => x) (valid (fun x => x) sample_used)) (mkSystem ∅ ∅) s /\ runs s <> ∅)
    as (s & Hr & Hne).
  { eexists. split.
    - apply rtc_once. eapply (start_root _ _ _ 0 (sample_task [u!"sim"; u!"db"])).
      + split; [repeat constructor|]. apply Forall_cons; split; [by left|].
        apply Forall_cons; split; [by right|by constructor].
      + intros q [r E]. cbn [runs] in E. by rewrite lookup_empty in E.
      + reflexivity.
    - cbn [runs]. apply insert_non_empty. }
  exists s. split_and!; [exact Hr|exact Hne|].
  apply (task_locks_drain (fun x => x) sample_used s); [|exact Hr].
  intros [ia da] [ib db] Ha Hb. simpl in *.
  destruct Ha as [->| ->], Hb as [->| ->]; vm_compute; congruence.
Defined.

(** Mutual exclusion: in every reachable state a lock is held by one run at most, and the table
    of held files is exactly what the runs hold. *)
Theorem task_locks_exclusive sha256_hex used s :
  rtc (step sha256_hex (valid sha256_hex used)) (mkSystem ∅ ∅) s ->
  (forall f pid, table s !! f = Some pid <->
     exists r k, runs s !! pid = Some r /\ k ∈ held (run_acquisition r) /\ lock_file sha256_hex k = f) /\
  (forall p q rp rq a b, runs s !! p = Some rp -> runs s !! q = Some rq ->
     a ∈ held (run_acquisition rp) -> b ∈ held (run_acquisition rq) -> a.(id) = b.(id) -> p = q).
Proof.
  intros Hr%reachable_Inv. pose proof (inv_table _ _ _ Hr) as Ht. split; [exact Ht|].
  intros p q rp rq a b Ep Eq Ha Hb Hab.
  assert (lock_file sha256_hex a = lock_file sha256_hex b) as Hf by (unfold lock_file; by rewrite Hab).
  assert (table s !! lock_file sha256_hex a = Some p) as H1 by (apply Ht; eauto).
  assert (table s !! lock_file sha256_hex b = Some q) as H2 by (apply Ht; eauto). congruence.
Qed.

Lemma task_locks_exclusive_example :
  exists s, rtc (step (fun x => x) (valid (fun x => x) sample_used)) (mkSystem ∅ ∅) s /\
    table s !! lock_file (fun x => x) (named u!"db") = Some 0 /\
    forall f pid, table s !! f = Some pid <->
      exists r k, runs s !! pid = Some r /\ k ∈ held (run_acquisition r) /\ lock_file (fun x => x) k = f.
Proof.
  assert (exists s, rtc (step (fun x => x) (valid (fun x => x) sample_used)) (mkSystem ∅ ∅) s /\
            table s !! lock_file (fun x => x) (named u!"db") = Some 0) as (s & Hr & Ht).
  { eexists. split.
    - eapply rtc_l; [eapply (start_root _ _ _ 0 (sample_task [u!"sim"; u!"db"]))|].
      + split; [repeat constructor|]. apply Forall_cons; split; [by left|].
        apply Forall_cons; split; [by right|by constructor].
      + intros q [r E]. cbn [runs] in E. by rewrite lookup_empty in E.
      + reflexivity.
      + apply rtc_once. eapply poll; [cbn [runs]; apply lookup_insert_eq|vm_compute; reflexivity].
    - vm_compute. reflexivity. }
  exists s. split; [exact Hr|]. split; [exact Ht|].
  apply (task_locks_exclusive (fun x => x) sample_used s Hr).
Defined.

(** What a nested task reads back from [MISE_TASK_LOCKS] is what its parent inherited and asked
    for, in order and without repeats, for ids without commas, which [validate_name] ensures. *)
Theorem exported_inherited_round_trip held keys :
  increasing held -> Forall id_ok held -> Forall (fun k => id_ok k.(id)) keys ->
  inherited (Some (exported held keys)) = set_extend held (map id keys) /\
  increasing (inherited (Some (exported held keys))) /\
  forall i, i ∈ inherited (Some (exported held keys)) <-> i ∈ held \/ exists k, k ∈ keys /\ k.(id) = i.
Proof.
  intros Hs Hh Hk. assert (inherited (Some (exported held keys)) = set_extend held (map id keys)) as E.
  { unfold exported. apply inherited_export; [by apply set_extend_increasing|].
    apply Forall_forall. rewrite Forall_forall in Hh. rewrite Forall_forall in Hk.
    intros i [H|H]%set_extend_elem; [by apply Hh|].
    apply list_elem_of_fmap in H as (k & -> & H). by apply Hk. }
  rewrite E. split_and!; [done|by apply set_extend_increasing|].
  intros i. rewrite set_extend_elem, list_elem_of_fmap. naive_solver.
Qed.

(** [try_take] takes exactly the locks to come that are free, in order, up to the first that is
    not, which it then waits for; it reports success exactly when nothing is left. *)
Theorem try_take_takes_prefix sha256_hex me t acq t' a all :
  try_take sha256_hex me t acq = (t', a, all) ->
  exists taken, to_come acq = taken ++ to_come a /\ held a = held acq ++ taken /\
    (all = true <-> to_come a = []) /\
    (forall f q, t' !! f = Some q <->
       t !! f = Some q \/ (q = me /\ exists k, k ∈ taken /\ lock_file sha256_hex k = f)) /\
    match to_come a with k :: _ => is_Some (t' !! lock_file sha256_hex k) | [] => True end.
Proof. apply try_take_spec. Qed.
