(* ===== verification/DepsGraph.v ===== *)
(** * The dependency scheduler ([crates/mise-util/src/deps_graph.rs])

    [DepsGraph] hands out the nodes of a dependency graph whose dependencies are done, blocks
    cycles and the dependents of what failed, and signals the end. The graph itself (the
    [petgraph] crate) is an interface: its operations and what its documentation says of
    them. The channel is the list of messages sent since [subscribe]; before it, sending fails
    and the code ignores that. *)

From S2P Require Import Prelude.

(** ** The graph *)

(** [petgraph]'s [StableGraph] and the functions the scheduler calls on it. *)
Class StableGraph (N G : Type) := {
  g_new : G;
  g_add_node : G -> N -> G * nat;
  g_update_edge : G -> nat -> nat -> G;
  g_remove_node : G -> nat -> G;
  g_indices : G -> list nat;
  g_weight : G -> nat -> option N;
  g_outgoing : G -> nat -> list nat;
  g_incoming : G -> nat -> list nat;
  g_externals : G -> list nat
}.

(** [petgraph::algo::is_cyclic_directed] *)
Class CycleTest (G : Type) := g_is_cyclic : G -> bool.

(** An edge from [i] to [j]: [i] depends on [j]. *)
Definition depends {N G} `{StableGraph N G} (g : G) (i j : nat) : Prop := j ∈ g_outgoing g i.

(** What the documentation of [petgraph] promises: indices are stable, removing a node removes
    its edges, an edge is not duplicated. *)
Class StableGraphLaws (N G : Type) `{StableGraph N G} := {
  new_indices : g_indices g_new = [];
  indices_NoDup g : NoDup (g_indices g);
  indices_weight g i : i ∈ g_indices g <-> is_Some (g_weight g i);
  depends_indices g i j : depends g i j -> i ∈ g_indices g /\ j ∈ g_indices g;
  incoming_depends g i j : i ∈ g_incoming g j <-> depends g i j;
  externals_spec g i : i ∈ g_externals g <-> i ∈ g_indices g /\ g_outgoing g i = [];
  add_node_fresh g n : g_weight g (g_add_node g n).2 = None;
  add_node_weight g n i :
    g_weight (g_add_node g n).1 i = if bool_decide (i = (g_add_node g n).2) then Some n else g_weight g i;
  add_node_depends g n i j : depends (g_add_node g n).1 i j <-> depends g i j;
  update_edge_weight g a b i : g_weight (g_update_edge g a b) i = g_weight g i;
  update_edge_depends g a b i j :
    a ∈ g_indices g -> b ∈ g_indices g ->
    depends (g_update_edge g a b) i j <-> depends g i j \/ (i = a /\ j = b);
  remove_node_weight g a i :
    g_weight (g_remove_node g a) i = if bool_decide (i = a) then None else g_weight g i;
  remove_node_depends g a i j :
    depends (g_remove_node g a) i j <-> depends g i j /\ i <> a /\ j <> a
}.

Class CycleTestLaws (N G : Type) `{StableGraph N G} `{CycleTest G} :=
  is_cyclic_spec : forall g, g_is_cyclic g = true <-> exists i, tc (depends g) i i.

Section scheduler.
Context {K N G : Type} `{Countable K} `{StableGraph N G} `{CycleTest G}.
Context (key_fn : N -> K).

Record DepsGraph := mkDepsGraph {
  graph : G;
  node_indices : gmap K nat;
  sent : gset K;
  blocked : gset K;
  channel : option (list (option N))
}.

Definition set_graph (d : DepsGraph) (g : G) (indices : gmap K nat) : DepsGraph :=
  mkDepsGraph g indices d.(sent) d.(blocked) d.(channel).
Definition set_sent (d : DepsGraph) (s : gset K) : DepsGraph :=
  mkDepsGraph d.(graph) d.(node_indices) s d.(blocked) d.(channel).
Definition set_blocked (d : DepsGraph) (b : gset K) : DepsGraph :=
  mkDepsGraph d.(graph) d.(node_indices) d.(sent) b d.(channel).
Definition set_channel (d : DepsGraph) (c : option (list (option N))) : DepsGraph :=
  mkDepsGraph d.(graph) d.(node_indices) d.(sent) d.(blocked) c.

(** [tx.send] *)
Definition send (d : DepsGraph) (message : option N) : DepsGraph :=
  set_channel d (option_map (fun sent => sent ++ [message]) d.(channel)).

(** The key of the node at an index. *)
Definition key_at (g : G) (idx : nat) : option K := option_map key_fn (g_weight g idx).

(** ** Construction *)

(** The first loop of [DepsGraph::new]. *)
Fixpoint add_nodes (nodes : list (K * N)) (g : G) (indices : gmap K nat) : G * gmap K nat :=
  match nodes with
  | [] => (g, indices)
  | (key, node) :: nodes' =>
      match indices !! key with
      | Some _ => add_nodes nodes' g indices
      | None => let '(g, idx) := g_add_node g node in add_nodes nodes' g (<[key := idx]> indices)
      end
  end.

(** Its second loop; the error names a key and the unknown key it depends on. *)
Fixpoint add_edges (edges : list (K * K)) (g : G) (indices : gmap K nat) : result (K * K) G :=
  match edges with
  | [] => Ok g
  | (from_key, to_key) :: edges' =>
      match indices !! from_key with
      | None => add_edges edges' g indices
      | Some from_idx =>
          match indices !! to_key with
          | None => Err (from_key, to_key)
          | Some to_idx =>
              add_edges edges'
                (if bool_decide (from_key = to_key) then g else g_update_edge g from_idx to_idx) indices
          end
      end
  end.

Definition is_leaf (g : G) (idx : nat) : bool := match g_outgoing g idx with [] => true | _ => false end.

(** One pass of the [while changed] loop: the set and whether it grew. *)
Fixpoint reach_pass (g : G) (indices : list nat) (can_reach : gset nat) (changed : bool)
  : gset nat * bool :=
  match indices with
  | [] => (can_reach, changed)
  | idx :: indices' =>
      if bool_decide (idx ∈ can_reach) then reach_pass g indices' can_reach changed
      else
        let deps_can_reach := forallb (fun d => bool_decide (d ∈ can_reach)) (g_outgoing g idx) in
        if deps_can_reach && negb (is_leaf g idx)
        then reach_pass g indices' ({[idx]} ∪ can_reach) true
        else reach_pass g indices' can_reach changed
  end.

Fixpoint reach_loop (fuel : nat) (g : G) (can_reach : gset nat) : gset nat :=
  match fuel with
  | 0 => can_reach
  | S fuel =>
      let '(can_reach, changed) := reach_pass g (g_indices g) can_reach false in
      if changed then reach_loop fuel g can_reach else can_reach
  end.

Definition can_reach_leaf (g : G) : gset nat :=
  reach_loop (S (length (g_indices g))) g (list_to_set (List.filter (is_leaf g) (g_indices g))).

(** [detect_and_block_cycles] *)
Definition detect_and_block_cycles (d : DepsGraph) : DepsGraph :=
  let g := d.(graph) in
  if negb (g_is_cyclic g) then d
  else
    let can_reach := can_reach_leaf g in
    set_blocked d (fold_left (fun b idx =>
      if bool_decide (idx ∈ can_reach) then b
      else match key_at g idx with Some key => {[key]} ∪ b | None => b end)
      (g_indices g) d.(blocked)).

(** [DepsGraph::new] *)
Definition DepsGraph_new (nodes : list (K * N)) (edges : list (K * K)) : result (K * K) DepsGraph :=
  let '(g, indices) := add_nodes nodes g_new ∅ in
  let? g := add_edges edges g indices in
  Ok (detect_and_block_cycles (mkDepsGraph g indices (∅ : gset K) (∅ : gset K) None)).

(** ** Scheduling *)

Definition is_empty (d : DepsGraph) : bool := length (g_indices d.(graph)) =? 0.

Definition find_leaves (d : DepsGraph) : list (K * N) :=
  omap (fun idx => option_map (fun n => (key_fn n, n)) (g_weight d.(graph) idx)) (g_externals d.(graph)).

Definition is_all_done (d : DepsGraph) : bool :=
  if is_empty d then true
  else forallb (fun idx => match key_at d.(graph) idx with
                           | Some key => bool_decide (key ∈ d.(blocked))
                           | None => true
                           end) (g_indices d.(graph)).

(** One round of the loop of [emit_leaves]. *)
Definition emit_leaf (d : DepsGraph) (leaf : K * N) : DepsGraph :=
  let '(key, node) := leaf in
  if bool_decide (key ∈ d.(sent)) || bool_decide (key ∈ d.(blocked)) then d
  else send (set_sent d ({[key]} ∪ d.(sent))) (Some node).

Definition emit_leaves (d : DepsGraph) : DepsGraph :=
  let d := fold_left emit_leaf (find_leaves d) d in
  if is_all_done d then send d None else d.

Definition subscribe (d : DepsGraph) : DepsGraph := emit_leaves (set_channel d (Some [])).

Definition remove_node (d : DepsGraph) (key : K) : DepsGraph :=
  match d.(node_indices) !! key with
  | Some idx => set_graph d (g_remove_node d.(graph) idx) (delete key d.(node_indices))
  | None => d
  end.

Definition complete_success (d : DepsGraph) (key : K) : DepsGraph := emit_leaves (remove_node d key).

(** The inner loop of [get_transitive_dependents]. *)
Definition push_new (acc : list nat * list nat) (neighbor : nat) : list nat * list nat :=
  let '(dependents, stack) := acc in
  if bool_decide (neighbor ∈ dependents) then acc else (dependents ++ [neighbor], stack ++ [neighbor]).

(** Its outer loop; the stack is popped at its end. *)
Fixpoint dependents_loop (fuel : nat) (g : G) (dependents stack : list nat) : list nat :=
  match fuel with
  | 0 => dependents
  | S fuel =>
      match reverse stack with
      | [] => dependents
      | idx :: rest =>
          let '(dependents, stack) :=
            fold_left push_new (g_incoming g idx) (dependents, reverse rest) in
          dependents_loop fuel g dependents stack
      end
  end.

Definition get_transitive_dependents (g : G) (start_idx : nat) : list nat :=
  dependents_loop (S (S (length (g_indices g)))) g [] [start_idx].

Definition block_dependents (d : DepsGraph) (idx : nat) : DepsGraph :=
  fold_left (fun d dep_idx =>
    match key_at d.(graph) dep_idx with
    | Some key => set_blocked d ({[key]} ∪ d.(blocked))
    | None => d
    end) (get_transitive_dependents d.(graph) idx) d.

Definition complete_failure (d : DepsGraph) (key : K) : DepsGraph :=
  let d := match d.(node_indices) !! key with Some idx => block_dependents d idx | None => d end in
  emit_leaves (remove_node d key).

(** ** Queries *)

Definition dependencies_of (d : DepsGraph) (key : K) : list K :=
  match d.(node_indices) !! key with
  | None => []
  | Some idx => omap (key_at d.(graph)) (g_outgoing d.(graph) idx)
  end.

Definition blocked_keys (d : DepsGraph) : list K :=
  List.filter (fun key => bool_decide (key ∈ d.(blocked))) (omap (key_at d.(graph)) (g_indices d.(graph))).

Definition blocked_nodes (d : DepsGraph) : list N :=
  List.filter (fun node => bool_decide (key_fn node ∈ d.(blocked)))
    (omap (g_weight d.(graph)) (g_indices d.(graph))).

(** A subscriber that completes nodes. *)
Inductive event : Type := Success (key : K) | Failure (key : K).
Definition handle (d : DepsGraph) (e : event) : DepsGraph :=
  match e with Success key => complete_success d key | Failure key => complete_failure d key end.
End scheduler.
Arguments DepsGraph K N G {_ _}.
Arguments event K : clear implicits.
