(* ===== verification/DepsGraphFacts.v ===== *)
(** * Lemmas on the dependency scheduler

    The two graph searches of the scheduler compute what they are for, and one invariant holds
    of the scheduler whatever events it is given. *)

From S2P Require Import Prelude DepsGraph.

(** What the invariant says of a scheduler for nodes [known], of which [k] depends on [k'] when
    [needs k k'], that has been told [events]. *)
Section invariant.
Context {K N G : Type} `{Countable K} `{StableGraph N G}.
Context (key_fn : N -> K).

(** A dependency between nodes that are still in the graph. *)
Definition key_depends (d : DepsGraph K N G) (k k' : K) : Prop :=
  exists i i', d.(node_indices) !! k = Some i /\ d.(node_indices) !! k' = Some i' /\ depends d.(graph) i i'.

(** The index of a key and the key of an index agree. *)
Definition indexed (g : G) (indices : gmap K nat) : Prop :=
  forall k i, indices !! k = Some i <-> key_at key_fn g i = Some k.

Definition subject (e : event K) : K := match e with Success k | Failure k => k end.

(** The nodes that were sent. *)
Definition emitted (d : DepsGraph K N G) : list N :=
  match d.(channel) with Some messages => omap id messages | None => [] end.

Record Invariant (known : K -> Prop) (needs : K -> K -> Prop) (events : list (event K))
  (d : DepsGraph K N G) : Prop := {
  inv_indexed : indexed d.(graph) d.(node_indices);
  inv_live k : is_Some (d.(node_indices) !! k) <-> known k /\ ~ exists e, e ∈ events /\ subject e = k;
  inv_needs k k' : key_depends d k k' <->
    needs k k' /\ is_Some (d.(node_indices) !! k) /\ is_Some (d.(node_indices) !! k');
  inv_gone k k' : needs k k' -> is_Some (d.(node_indices) !! k) -> known k' ->
    d.(node_indices) !! k' = None -> Success k' ∈ events \/ k ∈ d.(blocked);
  inv_cycles k k' : rtc (key_depends d) k k' -> tc (key_depends d) k' k' -> k ∈ d.(blocked);
  inv_upward k k' : key_depends d k k' -> k' ∈ d.(blocked) -> k ∈ d.(blocked);
  inv_sent : d.(channel) <> None;
  inv_once : NoDup (map key_fn (emitted d));
  inv_emitted k : k ∈ d.(sent) <-> k ∈ map key_fn (emitted d);
  inv_order k k' : k ∈ d.(sent) -> needs k k' -> known k' -> Success k' ∈ events;
  inv_sent_known k : k ∈ d.(sent) -> known k
}.
End invariant.

Section searches.
Context {N G : Type} `{StableGraphLaws N G}.

Lemma rtc_indices (g : G) i j : rtc (depends g) i j -> i ∈ g_indices g -> j ∈ g_indices g.
Proof. induction 1 as [|i k j Hik _ IH]; [done|]. intros _. apply IH. by apply depends_indices in Hik as [_ ?]. Qed.

Lemma is_leaf_spec (g : G) i : is_leaf g i = true <-> forall j, ~ depends g i j.
Proof.
  unfold is_leaf, depends. destruct (g_outgoing g i) as [|j l]; split; intros Hj; [|done|done|].
  - intros j Hin. by apply elem_of_nil in Hin.
  - exfalso. apply (Hj j). by apply elem_of_cons; left.
Qed.

(** *** [can_reach_leaf] *)

Lemma reach_pass_sound (g : G) (P : nat -> Prop) :
  (forall i, (exists j, depends g i j) -> (forall j, depends g i j -> P j) -> P i) ->
  forall indices can changed, (forall i, i ∈ can -> P i) ->
  forall i, i ∈ fst (reach_pass g indices can changed) -> P i.
Proof.
  intros HP indices. induction indices as [|i indices IH]; intros can changed Hcan; simpl; [done|].
  case_bool_decide; [by apply IH|].
  destruct (forallb _ _ && negb (is_leaf g i)) eqn:E; [|by apply IH].
  apply IH. intros k [->%elem_of_singleton|Hk]%elem_of_union; [|by apply Hcan].
  apply andb_true_iff in E as [Eall Eleaf]. rewrite forallb_forall in Eall. apply HP.
  - unfold is_leaf, depends in *. destruct (g_outgoing g i) as [|j l]; [done|].
    exists j. by apply elem_of_cons; left.
  - intros j Hj. apply Hcan. by apply list_elem_of_In, Eall, bool_decide_eq_true in Hj.
Qed.

Lemma reach_pass_grows (g : G) indices can changed :
  (can ⊆ fst (reach_pass g indices can changed)) /\
  (snd (reach_pass g indices can changed) = true ->
     changed = true \/ exists i, i ∈ indices /\ (i ∉ can) /\ i ∈ fst (reach_pass g indices can changed)).
Proof.
  revert can changed. induction indices as [|i indices IH]; intros can changed; simpl; [by split; [|left]|].
  case_bool_decide as Hi.
  - destruct (IH can changed) as [H1 H2]. split; [done|]. intros Hc.
    destruct (H2 Hc) as [?|(k & ? & ? & ?)]; [by left|]. right. exists k. by rewrite elem_of_cons; auto.
  - destruct (forallb _ _ && negb (is_leaf g i)).
    + destruct (IH ({[i]} ∪ can) true) as [H1 _]. split; [set_solver|]. intros _. right. exists i. set_solver.
    + destruct (IH can changed) as [H1 H2]. split; [done|]. intros Hc.
      destruct (H2 Hc) as [?|(k & ? & ? & ?)]; [by left|]. right. exists k. by rewrite elem_of_cons; auto.
Qed.

Lemma reach_pass_stable (g : G) indices can :
  snd (reach_pass g indices can false) = false ->
  fst (reach_pass g indices can false) = can /\
  forall i, i ∈ indices -> i ∉ can -> is_leaf g i = false -> exists j, depends g i j /\ j ∉ can.
Proof.
  induction indices as [|i indices IH]; simpl; [by split; [|intros ? ?%elem_of_nil]|].
  assert (forall can, snd (reach_pass g indices can true) = true) as Htrue.
  { clear. induction indices as [|i indices IH]; intros can; simpl; [done|].
    case_bool_decide; [done|]. by destruct (forallb _ _ && _). }
  case_bool_decide as Hi.
  - intros Hc. destruct (IH Hc) as [H1 H2]. split; [done|].
    intros k [->|Hk]%elem_of_cons; [done|by apply H2].
  - destruct (forallb _ _ && negb (is_leaf g i)) eqn:E; [by rewrite Htrue|].
    intros Hc. destruct (IH Hc) as [H1 H2]. split; [done|].
    intros k [->|Hk]%elem_of_cons; [|by apply H2]. intros _ Hleaf. rewrite Hleaf, andb_true_r in E.
    apply not_true_iff_false in E. rewrite forallb_forall in E.
    destruct (decide (Exists (fun j => j ∉ can) (g_outgoing g i))) as [Hex|Hex].
    + apply Exists_exists in Hex as (j & Hj & Hnot). by exists j.
    + exfalso. apply E. intros j Hj%list_elem_of_In. apply bool_decide_eq_true.
      destruct (decide (j ∈ can)); [done|]. exfalso. apply Hex, Exists_exists. by exists j.
Qed.

(** The indices that are not yet in a set. *)
Definition outside (g : G) (can : gset nat) : list nat :=
  List.filter (fun i => negb (bool_decide (i ∈ can))) (g_indices g).

(** One round for each index, and one more that changes nothing, are enough. *)
Lemma reach_loop_spec (g : G) fuel can :
  length (outside g can) < fuel -> (forall i, is_leaf g i = true -> i ∈ g_indices g -> i ∈ can) ->
  (forall i, i ∈ can -> Acc (flip (depends g)) i) ->
  (forall i, i ∈ reach_loop fuel g can -> Acc (flip (depends g)) i) /\
  (forall i, i ∈ g_indices g -> i ∉ reach_loop fuel g can ->
     exists j, depends g i j /\ j ∉ reach_loop fuel g can).
Proof.
  revert can. induction fuel as [|fuel IH]; intros can Hfuel Hleaf Hacc; [lia|]. simpl.
  destruct (reach_pass g (g_indices g) can false) as [can' changed] eqn:E.
  pose proof (reach_pass_sound g (Acc (flip (depends g))) ltac:(intros; by constructor)
                (g_indices g) can false Hacc) as Hs.
  pose proof (reach_pass_grows g (g_indices g) can false) as [Hg Hn].
  pose proof (reach_pass_stable g (g_indices g) can) as Hst.
  rewrite E in Hs, Hg, Hn, Hst. simpl in *. destruct changed.
  - apply IH; [|intros i ??; apply Hg; by apply Hleaf|done].
    destruct (Hn eq_refl) as [?|(i & Hi & Hout & Hin)]; [done|].
    enough (length (outside g can') < length (outside g can)) by lia.
    apply (filter_length_lt _ _ _ i); [|done|by rewrite bool_decide_eq_false_2|by rewrite bool_decide_eq_true_2].
    intros k. rewrite !negb_true_iff, !bool_decide_eq_false. set_solver.
  - destruct (Hst eq_refl) as [-> Hst']. split; [done|]. intros i Hi Hout. apply Hst'; [done..|].
    destruct (is_leaf g i) eqn:El; [|done]. exfalso. by apply Hout, Hleaf.
Qed.

Lemma can_reach_leaf_fixed (g : G) :
  (forall i, i ∈ can_reach_leaf g -> Acc (flip (depends g)) i) /\
  (forall i, i ∈ g_indices g -> i ∉ can_reach_leaf g -> exists j, depends g i j /\ j ∉ can_reach_leaf g).
Proof.
  apply reach_loop_spec.
  - unfold outside. pose proof (List.filter_length_le (fun i => negb (bool_decide
      (i ∈ (list_to_set (List.filter (is_leaf g) (g_indices g)) : gset nat)))) (g_indices g)). lia.
  - intros k Hk Hin. rewrite elem_of_list_to_set, list_elem_of_In, filter_In, <- list_elem_of_In. done.
  - intros k. rewrite elem_of_list_to_set, list_elem_of_In, filter_In. intros [_ Hk].
    constructor. intros j Hj. exfalso. rewrite is_leaf_spec in Hk. by apply (Hk j).
Qed.

Lemma can_reach_leaf_spec (g : G) i :
  i ∈ g_indices g ->
  i ∉ can_reach_leaf g <-> exists j, rtc (depends g) i j /\ tc (depends g) j j.
Proof.
  intros Hi. destruct (can_reach_leaf_fixed g) as [Hsound Hclosed].
  set (R := can_reach_leaf g) in *. split.
  - intros Hout.
      assert (forall x, x ∈ List.filter (fun i => negb (bool_decide (i ∈ R))) (g_indices g) <-> x ∈ g_indices g /\ x ∉ R) as Hmem.
      { intros x. rewrite !list_elem_of_In, filter_In, negb_true_iff, bool_decide_eq_false. done. }
      apply (successors_cycle (depends g) (List.filter (fun i => negb (bool_decide (i ∈ R))) (g_indices g))
        ) with (n := length (List.filter (fun i => negb (bool_decide (i ∈ R))) (g_indices g))) (V := []).
    + intros x [Hx Hxout]%Hmem. destruct (Hclosed x Hx Hxout) as (y & Hy & Hyout).
        exists y. rewrite Hmem. apply depends_indices in Hy as Hy'. by destruct Hy'.
    + by apply Hmem.
    + by intros v ?%elem_of_nil.
    + constructor.
    + simpl. lia.
  - intros (j & Hij & Hc) Hin. by apply (Acc_no_cycle _ _ (Hsound i Hin) j).
Qed.
(** *** [get_transitive_dependents] *)

Lemma push_new_spec l dependents stack :
  NoDup dependents ->
  exists news, fold_left push_new l (dependents, stack) = (dependents ++ news, stack ++ news) /\
    NoDup (dependents ++ news) /\ forall x, x ∈ dependents ++ news <-> x ∈ dependents \/ x ∈ l.
Proof.
  revert dependents stack. induction l as [|x l IH]; intros dependents stack Hnd; simpl.
  - exists []. rewrite !app_nil_r. split; [done|]. split; [done|]. intros x. set_solver.
  - case_bool_decide as Hx.
    + destruct (IH dependents stack Hnd) as (news & E & Hnd' & Hel). exists news.
      split; [done|]. split; [done|]. intros y. rewrite Hel. set_solver.
    + destruct (IH (dependents ++ [x]) (stack ++ [x])) as (news & E & Hnd' & Hel).
      { apply NoDup_app. split; [done|]. split; [set_solver|apply NoDup_singleton]. }
      exists (x :: news). rewrite E, <- !app_assoc. rewrite <- !app_assoc in Hnd'. simpl in *.
      split; [done|]. split; [done|]. intros y. specialize (Hel y). rewrite <- app_assoc in Hel.
      simpl in Hel. rewrite Hel. set_solver.
Qed.

(** Each node is popped once: fuel for the nodes not found and those on the stack is enough. *)
Lemma dependents_loop_spec (g : G) start fuel dependents stack :
  NoDup dependents -> (forall x, x ∈ dependents -> tc (depends g) x start) ->
  (forall x, x ∈ stack -> x = start \/ x ∈ dependents) ->
  (forall x y, x = start \/ x ∈ dependents -> depends g y x -> x ∈ stack \/ y ∈ dependents) ->
  (length (g_indices g) - length dependents) + length stack < fuel ->
  let result := dependents_loop fuel g dependents stack in
  (forall x, x ∈ result -> tc (depends g) x start) /\
  (forall x y, x = start \/ x ∈ result -> depends g y x -> y ∈ result).
Proof.
  revert dependents stack. induction fuel as [|fuel IH]; intros dependents stack Hnd Hs Hst Hcl Hf; [lia|].
  simpl. destruct (reverse stack) as [|idx rest] eqn:E.
  { assert (stack = []) as -> by (by apply (f_equal reverse) in E; rewrite reverse_involutive in E).
    split; [done|]. intros x y Hx Hy. destruct (Hcl x y Hx Hy) as [Hin|?]; [by apply elem_of_nil in Hin|done]. }
  assert (stack = reverse rest ++ [idx]) as Estack.
  { apply (f_equal reverse) in E. rewrite reverse_involutive in E. by rewrite E, reverse_cons. }
  destruct (push_new_spec (g_incoming g idx) dependents (reverse rest) Hnd) as (news & -> & Hnd' & Hel).
  assert (forall x, x ∈ dependents ++ news -> tc (depends g) x start) as Hs'.
  { intros x Hx. apply Hel in Hx as [Hx|Hx]; [by apply Hs|]. apply incoming_depends in Hx.
    destruct (Hst idx) as [->|Hidx]; [rewrite Estack; set_solver|by apply tc_once|].
    eapply tc_l; [done|by apply Hs]. }
  apply IH; [done|done| | |].
  - intros x Hx. destruct (decide (x ∈ news)) as [?|Hn]; [right; set_solver|].
    destruct (Hst x) as [?|?]; [rewrite Estack; set_solver|by left|right; set_solver].
  - intros x y Hx Hy. destruct (decide (x = idx)) as [->|Hne].
    { right. apply Hel. right. by apply incoming_depends. }
    destruct (decide (x ∈ news)) as [?|Hn]; [left; set_solver|].
    destruct (Hcl x y) as [Hin|?]; [set_solver|done| |right; set_solver].
    left. rewrite Estack in Hin. set_solver.
  - assert (length (dependents ++ news) <= length (g_indices g)) as Hle.
    { apply submseteq_length, NoDup_submseteq; [done|]. intros x Hx%Hs'.
      inversion Hx as [? ? Hd|? ? ? Hd]; subst; by apply depends_indices in Hd as [??]. }
    rewrite Estack, !length_app, length_reverse in Hf. rewrite length_app in Hle.
    rewrite !length_app, length_reverse. simpl in Hf. lia.
Qed.

Lemma get_transitive_dependents_spec (g : G) start x :
  x ∈ get_transitive_dependents g start <-> tc (depends g) x start.
Proof.
  unfold get_transitive_dependents.
  destruct (dependents_loop_spec g start (S (S (length (g_indices g)))) [] [start]) as [Hs Hc].
  - constructor.
  - by intros y ?%elem_of_nil.
  - intros y ->%list_elem_of_singleton. by left.
  - intros y z [->|?%elem_of_nil]; [|done]. intros _. left. set_solver.
  - simpl. lia.
  - split; [apply Hs|]. intros Ht. induction Ht as [x y Hxy|x y z Hxy _ IH]; eauto.
Qed.
End searches.

(** ** One event *)

Section steps.
Context {K N G : Type} `{Countable K} `{StableGraphLaws N G}.
Context (key_fn : N -> K).
Local Abbreviation DG := (DepsGraph K N G).

Lemma key_at_weight (g : G) i k :
  key_at key_fn g i = Some k <-> exists n, g_weight g i = Some n /\ key_fn n = k.
Proof. unfold key_at. destruct (g_weight g i); simpl; naive_solver. Qed.

Lemma key_at_indices (g : G) i k : key_at key_fn g i = Some k -> i ∈ g_indices g.
Proof. intros (n & Hn & _)%key_at_weight. apply indices_weight. by eexists. Qed.

Lemma key_depends_keys (d : DG) k k' :
  key_depends d k k' -> is_Some (d.(node_indices) !! k) /\ is_Some (d.(node_indices) !! k').
Proof. intros (i & i' & ? & ? & _). by split; eexists. Qed.

Lemma depends_key (d : DG) i j :
  indexed key_fn d.(graph) d.(node_indices) -> depends d.(graph) i j ->
  exists k k', d.(node_indices) !! k = Some i /\ d.(node_indices) !! k' = Some j /\ key_depends d k k'.
Proof.
  intros Hi Hd. pose proof (depends_indices _ _ _ Hd) as [[n Hn]%indices_weight [n' Hn']%indices_weight].
  exists (key_fn n), (key_fn n').
  assert (d.(node_indices) !! key_fn n = Some i) by (apply Hi, key_at_weight; eauto).
  assert (d.(node_indices) !! key_fn n' = Some j) by (apply Hi, key_at_weight; eauto).
  split; [done|]. split; [done|]. by exists i, j.
Qed.

Lemma indexed_inj (d : DG) k k' i :
  indexed key_fn d.(graph) d.(node_indices) ->
  d.(node_indices) !! k = Some i -> d.(node_indices) !! k' = Some i -> k = k'.
Proof. intros Hi Hk%Hi Hk'%Hi. congruence. Qed.

(** Paths between keys are paths between indices. *)
Lemma tc_key_depends (d : DG) k k' :
  indexed key_fn d.(graph) d.(node_indices) ->
  tc (key_depends d) k k' <->
  exists i i', d.(node_indices) !! k = Some i /\ d.(node_indices) !! k' = Some i' /\ tc (depends d.(graph)) i i'.
Proof.
  intros Hi. split.
  - induction 1 as [k k' (i & i' & ? & ? & ?)|k k1 k' (i & i' & ? & Hk1 & Hd) _ (j & j' & Hj & ? & ?)].
    + exists i, i'. by repeat split; [..|apply tc_once].
    + rewrite Hk1 in Hj. injection Hj as ->. exists i, j'. by repeat split; [..|eapply tc_l].
  - intros (i & i' & Hk & Hk' & Ht). revert k Hk.
    induction Ht as [i i' Hd|i j i' Hd _ IH]; intros k Hk; destruct (depends_key d _ _ Hi Hd) as (k1 & k2 & Hk1 & Hk2 & Hkd);
      rewrite (indexed_inj d k k1 i Hi Hk Hk1).
    + rewrite (indexed_inj d k' k2 i' Hi Hk' Hk2). by apply tc_once.
    + eapply tc_l; [done|by apply IH].
Qed.

Lemma rtc_key_depends (d : DG) k k' i i' :
  indexed key_fn d.(graph) d.(node_indices) ->
  d.(node_indices) !! k = Some i -> d.(node_indices) !! k' = Some i' ->
  rtc (key_depends d) k k' <-> rtc (depends d.(graph)) i i'.
Proof.
  intros Hi Hk Hk'. rewrite !rtc_tc, (tc_key_depends d k k' Hi). split.
  - intros [->|(j & j' & Hj & Hj' & Ht)]; [left; congruence|right]. congruence.
  - intros [->|Ht]; [left; by apply (indexed_inj d _ _ i')|right; eauto 10].
Qed.

(** *** Blocking and removing *)

Lemma fold_blocked (g : G) (l : list nat) (d : DG) :
  fold_left (fun d dep_idx =>
    match key_at key_fn d.(graph) dep_idx with
    | Some key => set_blocked d ({[key]} ∪ d.(blocked))
    | None => d
    end) l d =
  set_blocked d (list_to_set (omap (key_at key_fn d.(graph)) l) ∪ d.(blocked)).
Proof.
  revert d. induction l as [|i l IH]; intros d; simpl.
  - destruct d. unfold set_blocked. simpl. f_equal. set_solver.
  - rewrite IH. destruct (key_at key_fn (graph d) i) as [k|] eqn:E; [|done].
    destruct d. unfold set_blocked. simpl. f_equal. set_solver.
Qed.

Lemma block_dependents_blocked (d : DG) key idx :
  indexed key_fn d.(graph) d.(node_indices) -> d.(node_indices) !! key = Some idx ->
  exists b, block_dependents key_fn d idx = set_blocked d b /\
    forall k, k ∈ b <-> tc (key_depends d) k key \/ k ∈ d.(blocked).
Proof.
  intros Hi Hk. unfold block_dependents. rewrite (fold_blocked d.(graph)). eexists. split; [done|].
  intros k. rewrite elem_of_union, elem_of_list_to_set, list_elem_of_omap, (tc_key_depends d k key Hi).
  split; (intros [Hx|?]; [left|by right]).
  - destruct Hx as (i & Hx%get_transitive_dependents_spec & Hki). exists i, idx. by rewrite <- (Hi k i) in Hki.
  - destruct Hx as (i & i' & Hki & Hk' & Ht). rewrite Hk in Hk'. injection Hk' as <-.
    exists i. rewrite get_transitive_dependents_spec. by rewrite <- (Hi k i).
Qed.

Lemma key_depends_block (d : DG) b k k' : key_depends (set_blocked d b) k k' <-> key_depends d k k'.
Proof. done. Qed.

Lemma key_depends_remove (d : DG) key k k' :
  indexed key_fn d.(graph) d.(node_indices) ->
  key_depends (remove_node d key) k k' <-> key_depends d k k' /\ k <> key /\ k' <> key.
Proof.
  intros Hi. unfold remove_node. destruct (node_indices d !! key) as [idx|] eqn:E.
  - unfold key_depends. simpl. setoid_rewrite lookup_delete_Some. setoid_rewrite remove_node_depends.
    split.
    + intros (i & i' & [? ?] & [? ?] & ? & ? & ?). split; [by exists i, i'|done].
    + intros [(i & i' & Hk & Hk' & Hd) [Hne Hne']]. exists i, i'. repeat split; try done; try congruence.
      * intros ->. by apply Hne, (indexed_inj d _ _ idx).
      * intros ->. by apply Hne', (indexed_inj d _ _ idx).
  - split; [|by intros [? _]]. intros Hd. split; [done|].
    destruct (key_depends_keys d k k' Hd) as [[? ?] [? ?]]. split; intros ->; congruence.
Qed.

Lemma remove_indices (d : DG) key : (remove_node d key).(node_indices) = delete key d.(node_indices).
Proof.
  unfold remove_node. destruct (node_indices d !! key) eqn:E; [done|]. by rewrite delete_id.
Qed.

Lemma remove_indexed (d : DG) key :
  indexed key_fn d.(graph) d.(node_indices) ->
  indexed key_fn (remove_node d key).(graph) (remove_node d key).(node_indices).
Proof.
  intros Hi. unfold remove_node. destruct (node_indices d !! key) as [idx|] eqn:E; [|done].
  intros k i. simpl. unfold key_at. rewrite remove_node_weight, lookup_delete_Some, (Hi k i).
  case_bool_decide as Hd; simpl.
  - subst i. split; [|done]. intros [Hne Hk]. exfalso. apply Hi in E. congruence.
  - split; [by intros [_ ?]|]. intros Hk. split; [|done]. intros <-. apply Hi in Hk. congruence.
Qed.

Lemma remove_rest (d : DG) key :
  (remove_node d key).(sent) = d.(sent) /\ (remove_node d key).(blocked) = d.(blocked) /\
  (remove_node d key).(channel) = d.(channel).
Proof. unfold remove_node. by destruct (node_indices d !! key). Qed.

(** *** Emitting *)

Lemma find_leaves_spec (d : DG) k n :
  (k, n) ∈ find_leaves key_fn d <->
  exists i, g_weight d.(graph) i = Some n /\ key_fn n = k /\ forall j, ~ depends d.(graph) i j.
Proof.
  unfold find_leaves. rewrite list_elem_of_omap. split.
  - intros (i & [_ Ho]%externals_spec & Hw). destruct (g_weight (graph d) i) as [n'|] eqn:E; [|done].
    simpl in Hw. injection Hw as <- <-. exists i. split; [done|]. split; [done|].
    intros j. unfold depends. rewrite Ho. apply not_elem_of_nil.
  - intros (i & Hw & <- & Hd). exists i. rewrite Hw. split; [|done]. apply externals_spec.
    split; [apply indices_weight; by eexists|]. destruct (g_outgoing (graph d) i) as [|j l] eqn:E; [done|].
    exfalso. apply (Hd j). unfold depends. rewrite E. by apply elem_of_cons; left.
Qed.

(** What a round of emission keeps, and the nodes it sends. *)
Record Emits (leaves : list (K * N)) (d d' : DG) (news : list N) : Prop := {
  em_graph : d'.(graph) = d.(graph);
  em_indices : d'.(node_indices) = d.(node_indices);
  em_blocked : d'.(blocked) = d.(blocked);
  em_channel : d'.(channel) = option_map (fun sent => sent ++ map Some news) d.(channel);
  em_news n : n ∈ news -> (key_fn n, n) ∈ leaves /\ key_fn n ∉ d.(blocked);
  em_sent k : k ∈ d'.(sent) <-> k ∈ d.(sent) \/ k ∈ map key_fn news;
  em_once : NoDup (map key_fn news) /\ forall k, k ∈ map key_fn news -> k ∉ d.(sent);
  em_leaves k n : (k, n) ∈ leaves -> k ∈ d.(blocked) \/ k ∈ d'.(sent)
}.

Lemma emit_fold leaves (d : DG) :
  (forall k n, (k, n) ∈ leaves -> key_fn n = k) -> exists news, Emits leaves d (fold_left emit_leaf leaves d) news.
Proof.
  revert d. induction leaves as [|[k n] leaves IH]; intros d Hkey; simpl.
  - exists []. constructor; try done.
    + destruct (channel d); simpl; [by rewrite app_nil_r|done].
    + by intros n ?%elem_of_nil.
    + set_solver.
    + split; [constructor|]. by intros k ?%elem_of_nil.
    + by intros k n ?%elem_of_nil.
  - assert (key_fn n = k) as Hk by (apply Hkey; set_solver).
    assert (forall k n, (k, n) ∈ leaves -> key_fn n = k) as Hkeys by (intros; apply Hkey; set_solver).
    destruct (bool_decide (k ∈ d.(sent)) || bool_decide (k ∈ d.(blocked))) eqn:E.
    + destruct (IH d Hkeys) as (news & [Hg Hi Hb Hc Hn Hs Ho Hl]). exists news. constructor; try done.
      * intros x Hx. destruct (Hn x Hx). by rewrite elem_of_cons; auto.
      * intros k' n' [[= -> ->]|?]%elem_of_cons; [|by eapply Hl].
        apply orb_true_iff in E as [?|?]; bool_prop; [right; apply Hs; by left|by left].
    + apply orb_false_iff in E as [E1 E2]. bool_prop.
      destruct (IH (send (set_sent d ({[k]} ∪ d.(sent))) (Some n)) Hkeys) as (news & [Hg Hi Hb Hc Hn Hs Ho Hl]).
      simpl in *. destruct Ho as [Ho1 Ho2]. exists (n :: news). constructor; simpl; try done.
      * rewrite Hc. destruct (channel d); simpl; [by rewrite <- app_assoc|done].
      * intros x [->|Hx]%elem_of_cons; [rewrite Hk; set_solver|]. destruct (Hn x Hx). set_solver.
      * intros k'. rewrite Hs, Hk. set_solver.
      * split; [constructor; [|done]|].
        -- rewrite Hk. intros Hin. specialize (Ho2 k Hin). set_solver.
        -- rewrite Hk. intros k' [->|Hin]%elem_of_cons; [done|]. specialize (Ho2 k' Hin). set_solver.
      * intros k' n' [[= -> ->]|?]%elem_of_cons; [right; apply Hs; set_solver|by eapply Hl].
Qed.

Lemma omap_id_some (l : list N) : omap id (map Some l) = l.
Proof. induction l as [|n l IH]; [done|]. cbn. by f_equal. Qed.

(** The messages of one emission: the new nodes, and the end when nothing is left to do. *)
Lemma emit_leaves_spec (d : DG) :
  exists news d1, Emits (find_leaves key_fn d) d d1 news /\
    emit_leaves key_fn d = (if is_all_done key_fn d then send d1 None else d1).
Proof.
  unfold emit_leaves.
  destruct (emit_fold (find_leaves key_fn d) d) as (news & He).
  { by intros k n (i & _ & ? & _)%find_leaves_spec. }
  exists news, (fold_left emit_leaf (find_leaves key_fn d) d). split; [done|].
  destruct He as [Hg _ Hb _ _ _ _ _]. unfold is_all_done, is_empty. by rewrite Hg, Hb.
Qed.

Lemma emitted_send (d : DG) : emitted (send d None) = emitted d.
Proof. unfold emitted, send. simpl. destruct (channel d); simpl; [|done]. by rewrite omap_app, app_nil_r. Qed.

Lemma emitted_emits leaves (d d1 : DG) news :
  d.(channel) <> None -> Emits leaves d d1 news -> emitted d1 = emitted d ++ news.
Proof.
  intros Hc [_ _ _ Hch _ _ _ _]. unfold emitted. rewrite Hch. destruct (channel d); simpl; [|done].
  by rewrite omap_app, omap_id_some.
Qed.

(** *** The invariant *)

Context (known : K -> Prop) (needs : K -> K -> Prop).
Local Abbreviation Inv := (Invariant key_fn known needs).

Lemma inv_block events (d : DG) b :
  Inv events d -> d.(blocked) ⊆ b -> (forall k k', key_depends d k k' -> k' ∈ b -> k ∈ b) ->
  Inv events (set_blocked d b).
Proof.
  intros [] Hb Hup. constructor; simpl; try done.
  - intros k k' Hn Hl Hkn Hg. destruct (inv_gone0 k k' Hn Hl Hkn Hg); [by left|right; set_solver].
  - intros k k' Hr Ht. apply Hb. by apply (inv_cycles0 k k').
Qed.

(** A node leaves: its dependents have its success, or are blocked. *)
Lemma inv_remove events (d : DG) e :
  Inv events d ->
  e = Success (subject e) \/ (forall k, key_depends d k (subject e) -> k ∈ d.(blocked)) ->
  Inv (events ++ [e]) (remove_node d (subject e)).
Proof.
  intros [] He. pose proof (remove_rest d (subject e)) as (Hs & Hb & Hc).
  assert (forall k k', key_depends (remove_node d (subject e)) k k' -> key_depends d k k') as Hsub
    by (intros k k' Hd; apply key_depends_remove in Hd as [? _]; done).
  constructor; rewrite ?Hs, ?Hb, ?Hc, ?remove_indices; unfold emitted; rewrite ?Hc; try done.
  - rewrite <- remove_indices. by apply remove_indexed.
  - intros k. rewrite lookup_delete_is_Some, inv_live0. split.
    + intros [Hne [Hk Hno]]. split; [done|]. intros (e' & He' & Heq).
      apply elem_of_app in He' as [?|He']; [apply Hno; eauto|].
      apply list_elem_of_singleton in He'. subst e'. done.
    + intros [Hk Hno]. split; [|split; [done|]].
      * intros <-. apply Hno. exists e. set_solver.
      * intros (e' & ? & ?). apply Hno. exists e'. set_solver.
  - intros k k'. rewrite key_depends_remove, inv_needs0, !lookup_delete_is_Some by done. naive_solver.
  - intros k k' Hn [Hne Hl]%lookup_delete_is_Some Hkn [Heq|Hg]%lookup_delete_None.
    + subst k'. destruct He as [He|He].
      * left. rewrite He at 1. apply elem_of_app. right. rewrite <- He. set_solver.
      * destruct (d.(node_indices) !! subject e) eqn:E.
        -- right. apply He. apply inv_needs0. by rewrite E.
        -- destruct (inv_gone0 k (subject e) Hn Hl Hkn E); [left; set_solver|by right].
    + destruct (inv_gone0 k k' Hn Hl Hkn Hg); [left; set_solver|by right].
  - intros k k' Hr Ht. apply (inv_cycles0 k k').
    + by apply (rtc_congruence id _ _ _ Hsub).
    + by apply (tc_congruence id _ _ _ Hsub).
  - intros k k' Hd. apply inv_upward0. by apply Hsub.
  - intros k k' Hk Hn Hkn. pose proof (inv_order0 k k' Hk Hn Hkn). set_solver.
Qed.
Lemma inv_send events (d : DG) : Inv events d -> Inv events (send d None).
Proof.
  intros []. constructor; rewrite ?emitted_send; simpl; try done. by destruct (channel d).
Qed.

(** A node is sent when it waits for nothing: its dependencies are all done. *)
Lemma inv_emits events (d d1 : DG) news :
  Inv events d -> Emits (find_leaves key_fn d) d d1 news -> Inv events d1.
Proof.
  intros [] He. pose proof (emitted_emits _ d d1 news inv_sent0 He) as Hem.
  destruct He as [Hg Hi Hb Hc Hn Hs [Ho1 Ho2] Hl].
  assert (forall n, n ∈ news -> exists i, d.(node_indices) !! key_fn n = Some i /\ (forall j, ~ depends d.(graph) i j)
            /\ key_fn n ∉ d.(blocked)) as Hnews.
  { intros n Hin. destruct (Hn n Hin) as [(i & Hw & _ & Hd)%find_leaves_spec Hnb]. exists i.
    split; [|done]. apply inv_indexed0, key_at_weight. eauto. }
  assert (forall k k', key_depends d1 k k' <-> key_depends d k k') as Hkd
    by (intros; unfold key_depends; by rewrite Hg, Hi).
  constructor; rewrite ?Hg, ?Hi, ?Hb, ?Hem; try done.
  - intros k k'. by rewrite Hkd, inv_needs0.
  - intros k k' Hr Ht. apply (inv_cycles0 k k').
    + apply (rtc_congruence id _ _ _ (fun a b => proj1 (Hkd a b)) Hr).
    + apply (tc_congruence id _ _ _ (fun a b => proj1 (Hkd a b)) Ht).
  - intros k k' Hd%Hkd. by apply inv_upward0.
  - rewrite Hc. by destruct (channel d).
  - rewrite map_app. apply NoDup_app. split; [done|]. split; [|done]. intros k Hk Hk'.
    apply (Ho2 k Hk'). by apply inv_emitted0.
  - intros k. rewrite map_app, elem_of_app, Hs, inv_emitted0. done.
  - intros k k' [Hk|Hk]%Hs Hne Hkn; [by apply (inv_order0 k k')|].
    apply list_elem_of_fmap in Hk as (n & -> & Hin). destruct (Hnews n Hin) as (i & Hni & Hleaf & Hnb).
    destruct (d.(node_indices) !! k') as [i'|] eqn:E.
    + exfalso. assert (key_depends d (key_fn n) k') as (j & j' & Hj & _ & Hd) by (apply inv_needs0; rewrite Hni, E; eauto).
      rewrite Hni in Hj. injection Hj as <-. by apply (Hleaf j').
    + destruct (inv_gone0 (key_fn n) k' Hne) as [?|?]; [rewrite Hni; eauto|done..].
  - intros k [Hk|Hk]%Hs; [by apply inv_sent_known0|].
    apply list_elem_of_fmap in Hk as (n & -> & Hin). destruct (Hnews n Hin) as (i & Hni & _).
    apply inv_live0. rewrite Hni. eauto.
Qed.

Lemma inv_emit events (d : DG) : Inv events d -> Inv events (emit_leaves key_fn d).
Proof.
  intros Hinv. destruct (emit_leaves_spec d) as (news & d1 & He & ->).
  pose proof (inv_emits _ _ _ _ Hinv He). destruct (is_all_done key_fn d); [by apply inv_send|done].
Qed.

Lemma inv_handle events (d : DG) e : Inv events d -> Inv (events ++ [e]) (handle key_fn d e).
Proof.
  intros Hinv. destruct e as [key|key]; simpl.
  - apply inv_emit. apply (inv_remove events d (Success key)); [done|by left].
  - apply inv_emit. pose proof (inv_indexed _ _ _ _ _ Hinv) as Hi.
    destruct (node_indices d !! key) as [idx|] eqn:E.
    + destruct (block_dependents_blocked d key idx Hi E) as (b & Eb & Hb). rewrite Eb.
      apply (inv_remove events (set_blocked d b) (Failure key)).
      * apply inv_block; [done|intros k Hk; apply Hb; by right|].
        intros k k' Hd [Ht|Hbl]%Hb; apply Hb; [left; by eapply tc_l|right].
        by apply (inv_upward _ _ _ _ _ Hinv k k').
      * right. intros k Hd. apply Hb. left. by apply tc_once.
    + apply (inv_remove events d (Failure key)); [done|]. right. intros k Hd. simpl in Hd.
      destruct (key_depends_keys d k key Hd) as [_ [? ?]]. congruence.
Qed.

Lemma inv_run events (d : DG) more : Inv events d -> Inv (events ++ more) (fold_left (handle key_fn) more d).
Proof.
  revert events d. induction more as [|e more IH]; intros events d Hinv; simpl; [by rewrite app_nil_r|].
  apply (inv_handle events d e) in Hinv. apply IH in Hinv. by rewrite <- app_assoc in Hinv.
Qed.

(** *** Progress *)

(** Below a node that is not blocked there is one that is a leaf and not blocked. *)
Lemma unblocked_leaf events (d : DG) k :
  Inv events d -> is_Some (d.(node_indices) !! k) -> k ∉ d.(blocked) ->
  exists k' i, d.(node_indices) !! k' = Some i /\ (k' ∉ d.(blocked)) /\ forall j, ~ depends d.(graph) i j.
Proof.
  intros [] [i Hk] Hnb. pose (can := can_reach_leaf d.(graph)).
  assert (Acc (flip (depends d.(graph))) i) as Hacc.
  { destruct (decide (i ∈ can)) as [Hin|Hout].
    - by apply can_reach_leaf_fixed.
    - exfalso. apply Hnb. pose proof Hk as Hk0. apply inv_indexed0, key_at_indices in Hk0 as Hi.
      apply (can_reach_leaf_spec _ _ Hi) in Hout as (j & Hr & Ht).
      destruct (tc_first _ _ _ Ht) as (j' & Hd).
      destruct (depends_key d j j' inv_indexed0 Hd) as (kj & _ & Hkj & _).
      apply (inv_cycles0 k kj); [by apply (rtc_key_depends d k kj i j)|].
      apply tc_key_depends; [done|]. by exists j, j. }
  revert k Hk Hnb. induction Hacc as [i _ IH]. intros k Hk Hnb.
  destruct (is_leaf d.(graph) i) eqn:E; [exists k, i; rewrite is_leaf_spec in E; done|].
  unfold is_leaf in E. destruct (g_outgoing (graph d) i) as [|j l] eqn:Eo; [done|].
  assert (depends d.(graph) i j) as Hd by (unfold depends; rewrite Eo; by apply elem_of_cons; left).
  destruct (depends_key d i j inv_indexed0 Hd) as (k1 & k2 & Hk1 & Hk2 & Hkd).
  apply (IH j Hd k2 Hk2). intros Hb. apply Hnb.
  rewrite (indexed_inj d k k1 i inv_indexed0 Hk Hk1). by apply (inv_upward0 k1 k2).
Qed.
End steps.
