(* ===== verification/DepsGraphSpec.v ===== *)
(** * What the dependency scheduler promises

    [DepsGraph::new] rejects unknown dependencies and blocks cycles; a node is sent once, after
    its dependencies succeeded; the scheduler never stalls; and with a subscriber that reports
    what it was sent, it ends with every node succeeded, failed or blocked for a reason. *)

From S2P Require Import Prelude DepsGraph DepsGraphFacts.

(** [k] depends on [k'], as given to [DepsGraph::new]. *)
Definition needs {K N} (nodes : list (K * N)) (edges : list (K * K)) (k k' : K) : Prop :=
  (k, k') ∈ edges /\ k <> k' /\ k ∈ map fst nodes.

Definition reaches_cycle {K N} (nodes : list (K * N)) (edges : list (K * K)) (k : K) : Prop :=
  exists k', rtc (needs nodes edges) k k' /\ tc (needs nodes edges) k' k'.

(** Every node is given with its own key. *)
Definition keyed {K N} (key_fn : N -> K) (nodes : list (K * N)) : Prop :=
  forall k n, (k, n) ∈ nodes -> key_fn n = k.

(** The edges from a node whose target is not one. *)
Definition dangling {K N} (nodes : list (K * N)) (edge : K * K) : Prop :=
  edge.1 ∈ map fst nodes /\ edge.2 ∉ map fst nodes.

Definition is_live {K N G} `{Countable K} (d : DepsGraph K N G) (k : K) : Prop :=
  is_Some (d.(node_indices) !! k).

Definition messages {K N G} `{Countable K} (d : DepsGraph K N G) : list (option N) :=
  match d.(channel) with Some sent => sent | None => [] end.

(** A scheduler that was subscribed to and then told [events]. *)
Definition run {K N G} `{Countable K} `{StableGraph N G} (key_fn : N -> K) (d : DepsGraph K N G)
  (events : list (event K)) : DepsGraph K N G :=
  fold_left (handle key_fn) events (subscribe key_fn d).

(** The subscriber reports the nodes it was sent, each once, in any order. *)
Inductive Reports {K N G} `{Countable K} `{StableGraph N G} (key_fn : N -> K) (d0 : DepsGraph K N G)
  : list (event K) -> Prop :=
| reports_nothing : Reports key_fn d0 []
| reports_one events e :
    Reports key_fn d0 events ->
    subject e ∈ map key_fn (emitted (run key_fn d0 events)) -> is_live (run key_fn d0 events) (subject e) ->
    Reports key_fn d0 (events ++ [e]).

(** [k] needs a node that failed, or one of a cycle. *)
Definition doomed {K N} (nodes : list (K * N)) (edges : list (K * K)) (events : list (event K)) (k : K) : Prop :=
  k ∈ map fst nodes /\
  (reaches_cycle nodes edges k \/ exists k', Failure k' ∈ events /\ tc (needs nodes edges) k k').

(** ** A graph to run the scheduler on *)

Record ListGraph (N : Type) := mkListGraph { lg_nodes : gmap nat N; lg_edges : gset (nat * nat) }.
Arguments mkListGraph {N} _ _.
Arguments lg_nodes {N} _.
Arguments lg_edges {N} _.

Definition lg_live {N} (g : ListGraph N) (e : nat * nat) : bool :=
  bool_decide (is_Some (g.(lg_nodes) !! e.1)) && bool_decide (is_Some (g.(lg_nodes) !! e.2)).
Definition lg_live_edges {N} (g : ListGraph N) : list (nat * nat) :=
  List.filter (lg_live g) (elements g.(lg_edges)).
Definition lg_without (i : nat) (edges : gset (nat * nat)) : gset (nat * nat) :=
  filter (fun e => e.1 <> i /\ e.2 <> i) edges.

#[export] Instance list_graph {N} : StableGraph N (ListGraph N) := {
  g_new := mkListGraph ∅ ∅;
  g_add_node g n :=
    let i := fresh (dom g.(lg_nodes)) in
    (mkListGraph (<[i := n]> g.(lg_nodes)) (lg_without i g.(lg_edges)), i);
  g_update_edge g a b := mkListGraph g.(lg_nodes) ({[(a, b)]} ∪ g.(lg_edges));
  g_remove_node g a := mkListGraph (delete a g.(lg_nodes)) (lg_without a g.(lg_edges));
  g_indices g := map fst (map_to_list g.(lg_nodes));
  g_weight g i := g.(lg_nodes) !! i;
  g_outgoing g i := map snd (List.filter (fun e => e.1 =? i) (lg_live_edges g));
  g_incoming g i := map fst (List.filter (fun e => e.2 =? i) (lg_live_edges g));
  g_externals g :=
    List.filter (fun i => negb (existsb (fun e => e.1 =? i) (lg_live_edges g))) (map fst (map_to_list g.(lg_nodes)))
}.

#[export] Instance list_graph_cyclic {N} : CycleTest (ListGraph N) := fun g =>
  existsb (fun i => bool_decide (i ∈ get_transitive_dependents (G := ListGraph N) g i)) (g_indices g).

Lemma lg_depends {N} (g : ListGraph N) i j :
  depends g i j <-> (i, j) ∈ g.(lg_edges) /\ is_Some (g.(lg_nodes) !! i) /\ is_Some (g.(lg_nodes) !! j).
Proof.
  unfold depends. simpl. rewrite list_elem_of_fmap. split.
  - intros ([a b] & -> & Hin). apply list_elem_of_In, filter_In in Hin as [Hin Ha].
    apply filter_In in Hin as [Hin Hl]. unfold lg_live in Hl. simpl in *. bool_prop. subst a.
    apply list_elem_of_In, elem_of_elements in Hin. done.
  - intros (Hin & Hi & Hj). exists (i, j). split; [done|]. apply list_elem_of_In, filter_In.
    rewrite Nat.eqb_refl. split; [|done]. apply filter_In. split; [by apply list_elem_of_In, elem_of_elements|].
    unfold lg_live. simpl. by rewrite !bool_decide_eq_true_2.
Qed.

Lemma lg_indices {N} (g : ListGraph N) i : i ∈ g_indices g <-> is_Some (g.(lg_nodes) !! i).
Proof.
  simpl. rewrite list_elem_of_fmap. split.
  - intros ([k n] & -> & Hin%elem_of_map_to_list). by exists n.
  - intros [n Hn]. exists (i, n). by rewrite elem_of_map_to_list.
Qed.

Lemma lg_without_spec (i : nat) (edges : gset (nat * nat)) (a b : nat) :
  (a, b) ∈ lg_without i edges <-> (a, b) ∈ edges /\ a <> i /\ b <> i.
Proof. unfold lg_without. rewrite elem_of_filter. simpl. tauto. Qed.

#[export] Instance list_graph_laws {N} : StableGraphLaws N (ListGraph N).
Proof.
  constructor.
  - simpl. by rewrite map_to_list_empty.
  - intros g. simpl. apply NoDup_fst_map_to_list.
  - intros g i. apply lg_indices.
  - intros g i j Hd. rewrite !lg_indices. by apply lg_depends in Hd as (? & ? & ?).
  - intros g i j. rewrite lg_depends. simpl. rewrite list_elem_of_fmap. split.
    + intros ([a b] & -> & Hin). apply list_elem_of_In, filter_In in Hin as [Hin Ha].
      apply filter_In in Hin as [Hin Hl]. unfold lg_live in Hl. simpl in *. bool_prop. subst b.
      apply list_elem_of_In, elem_of_elements in Hin. done.
    + intros (Hin & Hi & Hj). exists (i, j). split; [done|]. apply list_elem_of_In, filter_In.
      rewrite Nat.eqb_refl. split; [|done]. apply filter_In. split; [by apply list_elem_of_In, elem_of_elements|].
      unfold lg_live. simpl. by rewrite !bool_decide_eq_true_2.
  - intros g i. change (g_externals g) with (List.filter (fun i => negb (existsb (fun e => e.1 =? i) (lg_live_edges g))) (g_indices g)).
    rewrite list_elem_of_In, filter_In, <- list_elem_of_In, negb_true_iff. apply and_iff_compat_l.
    simpl. induction (lg_live_edges g) as [|e l IH]; simpl; [done|]. destruct (e.1 =? i); simpl; [|done]. done.
  - intros g n. simpl. apply not_elem_of_dom, is_fresh.
  - intros g n i. simpl. case_bool_decide as Hi; [subst; by rewrite lookup_insert_eq|by rewrite lookup_insert_ne].
  - intros g n i j. rewrite !lg_depends. simpl. set (f := fresh (dom (lg_nodes g))).
    assert (lg_nodes g !! f = None) as Hf by (apply not_elem_of_dom, is_fresh).
    rewrite lg_without_spec, !lookup_insert_is_Some. split.
    + intros ((? & ? & ?) & [?|[? ?]] & [?|[? ?]]); naive_solver.
    + intros (? & Hi & Hj). assert (i <> f) by (intros ->; rewrite Hf in Hi; by destruct Hi).
      assert (j <> f) by (intros ->; rewrite Hf in Hj; by destruct Hj). naive_solver.
  - done.
  - intros g a b i j Ha Hb. rewrite !lg_depends. simpl. rewrite lg_indices in Ha, Hb.
    rewrite elem_of_union, elem_of_singleton. split.
    + intros ([[= -> ->]|?] & ? & ?); [by right|by left].
    + intros [(? & ? & ?)|[-> ->]]; naive_solver.
  - intros g a i. simpl. case_bool_decide as Hi; [subst; by rewrite lookup_delete_eq|by rewrite lookup_delete_ne].
  - intros g a i j. rewrite !lg_depends. simpl. rewrite lg_without_spec, !lookup_delete_is_Some. naive_solver.
Qed.

#[export] Instance list_graph_cyclic_laws {N} : CycleTestLaws N (ListGraph N).
Proof.
  intros g. unfold g_is_cyclic, list_graph_cyclic. rewrite existsb_exists. split.
  - intros (i & _ & Hi). bool_prop. exists i. by apply get_transitive_dependents_spec.
  - intros [i Hi]. exists i. destruct (tc_first _ _ _ Hi) as [j Hj]. apply depends_indices in Hj as [Hin _].
    split; [by apply list_elem_of_In|]. apply bool_decide_eq_true. by apply get_transitive_dependents_spec.
Qed.

(** ** Construction *)

Section construction.
Context {K N G : Type} `{Countable K} `{StableGraphLaws N G}.
Context (key_fn : N -> K).

Lemma add_node_indexed (g : G) indices key node :
  indexed key_fn g indices -> key_fn node = key -> indices !! key = None ->
  indexed key_fn (g_add_node g node).1 (<[key := (g_add_node g node).2]> indices).
Proof.
  intros Hi Hk Hno k i. unfold key_at. rewrite add_node_weight, lookup_insert_Some.
  pose proof (add_node_fresh g node) as Hf. case_bool_decide as Hd; simpl.
  - subst i. split.
    + intros [[<- _]|[_ Hk']]; [by rewrite Hk|]. apply Hi, key_at_weight in Hk' as (n & Hn & _). congruence.
    + intros [= <-]. by left.
  - change (option_map key_fn (g_weight g i)) with (key_at key_fn g i). rewrite <- (Hi k i). split.
    + by intros [[_ <-]|[_ ?]].
    + intros Hk'. right. split; [|done]. congruence.
Qed.

Lemma add_nodes_spec nodes (g : G) indices :
  keyed key_fn nodes -> indexed key_fn g indices ->
  let '(g', indices') := add_nodes nodes g indices in
  indexed key_fn g' indices' /\ (forall i j, depends g' i j <-> depends g i j) /\
  forall k, is_Some (indices' !! k) <-> is_Some (indices !! k) \/ k ∈ map fst nodes.
Proof.
  revert g indices. induction nodes as [|[key node] nodes IH]; intros g indices Hk Hi; simpl.
  - split; [done|]. split; [done|]. set_solver.
  - assert (keyed key_fn nodes) as Hk' by (intros k n Hin; apply Hk; by apply elem_of_cons; right).
    destruct (indices !! key) as [idx|] eqn:E.
    + specialize (IH g indices Hk' Hi). destruct (add_nodes nodes g indices) as [g' indices'].
      destruct IH as (? & ? & IH). split; [done|]. split; [done|]. intros k. rewrite IH, elem_of_cons.
      split; [tauto|]. intros [?|[->|?]]; [by left|left; by eexists|by right].
    + pose proof (add_node_indexed g indices key node Hi) as Hi'. pose proof (add_node_depends g node) as Hdep.
      destruct (g_add_node g node) as [g1 idx] eqn:Eg. simpl in *.
      specialize (IH g1 (<[key:=idx]> indices) Hk' (Hi' ltac:(apply Hk; set_solver) E)).
      destruct (add_nodes nodes g1 (<[key:=idx]> indices)) as [g' indices']. destruct IH as (? & IHd & IH).
      split; [done|]. split; [intros i j; by rewrite IHd, Hdep|].
      intros k. rewrite IH, lookup_insert_is_Some', elem_of_cons. split; [intros [[->|?]|?]|intros [?|[->|?]]]; auto.
Qed.

Lemma update_edge_indexed (g : G) indices a b :
  indexed key_fn g indices -> indexed key_fn (g_update_edge g a b) indices.
Proof. intros Hi k i. unfold key_at. rewrite update_edge_weight. apply Hi. Qed.

Lemma add_edges_spec edges (g : G) indices :
  indexed key_fn g indices ->
  match add_edges edges g indices with
  | Ok g' =>
      indexed key_fn g' indices /\
      (forall i j, depends g' i j <-> depends g i j \/
         exists f t, (f, t) ∈ edges /\ f <> t /\ indices !! f = Some i /\ indices !! t = Some j) /\
      (forall f t, (f, t) ∈ edges -> is_Some (indices !! f) -> is_Some (indices !! t))
  | Err (f, t) =>
      exists pre post, edges = pre ++ (f, t) :: post /\ is_Some (indices !! f) /\ indices !! t = None /\
        (forall f' t', (f', t') ∈ pre -> is_Some (indices !! f') -> is_Some (indices !! t'))
  | OutOfFuel => False
  end.
Proof.
  revert g. induction edges as [|[f t] edges IH]; intros g Hi; simpl.
  - split; [done|]. split; [|by intros f t ?%elem_of_nil]. intros i j. split; [by left|].
    intros [?|(f & t & Hin & _)]; [done|by apply elem_of_nil in Hin].
  - destruct (indices !! f) as [fi|] eqn:Ef.
    + destruct (indices !! t) as [ti|] eqn:Et; [|exists [], edges; repeat split; [eauto|done|by intros f' t' ?%elem_of_nil]].
      set (g1 := if bool_decide (f = t) then g else g_update_edge g fi ti).
      assert (indexed key_fn g1 indices) as Hi1
        by (subst g1; case_bool_decide; [done|by apply update_edge_indexed]).
      assert (forall i j, depends g1 i j <-> depends g i j \/ f <> t /\ i = fi /\ j = ti) as Hd1.
      { intros i j. subst g1. case_bool_decide; [tauto|].
        rewrite update_edge_depends; [tauto| |]; by eapply key_at_indices, Hi. }
      specialize (IH g1 Hi1). destruct (add_edges edges g1 indices) as [g'|[f' t']|]; [| |done].
      * destruct IH as (? & IHd & IHc). split; [done|]. split.
        -- intros i j. rewrite IHd, Hd1. setoid_rewrite elem_of_cons. naive_solver.
        -- intros f' t' [[= -> ->]|?]%elem_of_cons; [by rewrite Et|by eapply IHc].
      * destruct IH as (pre & post & -> & ? & ? & IHc). exists ((f, t) :: pre), post.
        repeat split; try done. intros a b [[= -> ->]|?]%elem_of_cons; [by rewrite Et|by eapply IHc].
    + specialize (IH g Hi). destruct (add_edges edges g indices) as [g'|[f' t']|]; [| |done].
      * destruct IH as (? & IHd & IHc). split; [done|]. split.
        -- intros i j. rewrite IHd. setoid_rewrite elem_of_cons. naive_solver.
        -- intros a b [[= -> ->]|?]%elem_of_cons; [rewrite Ef; by intros [? ?]|by eapply IHc].
      * destruct IH as (pre & post & -> & ? & ? & IHc). exists ((f, t) :: pre), post.
        repeat split; try done. intros a b [[= -> ->]|?]%elem_of_cons; [rewrite Ef; by intros [? ?]|by eapply IHc].
Qed.

Lemma new_indexed : indexed key_fn (g_new : G) (∅ : gmap K nat).
Proof.
  intros k i. rewrite lookup_empty. split; [done|]. intros Hk%key_at_indices. rewrite new_indices in Hk.
  by apply elem_of_nil in Hk.
Qed.

Lemma new_depends i j : ~ depends (g_new : G) i j.
Proof. intros [Hi _]%depends_indices. rewrite new_indices in Hi. by apply elem_of_nil in Hi. Qed.

Context `{!CycleTest G} `{!CycleTestLaws N G}.

(** The cycle search, on any scheduler whose nothing is blocked yet. *)
Lemma detect_blocks (d : DepsGraph K N G) :
  indexed key_fn d.(graph) d.(node_indices) -> d.(blocked) = ∅ ->
  exists b, detect_and_block_cycles key_fn d = set_blocked d b /\
    forall k, k ∈ b <-> exists k', rtc (key_depends d) k k' /\ tc (key_depends d) k' k'.
Proof.
  intros Hi Hb. unfold detect_and_block_cycles. destruct (g_is_cyclic (graph d)) eqn:Ec; simpl.
  - eexists. split; [done|]. intros k.
    assert (forall l b, fold_left (fun b idx => if bool_decide (idx ∈ can_reach_leaf (graph d)) then b
        else match key_at key_fn (graph d) idx with Some key => {[key]} ∪ b | None => b end) l b
      = list_to_set (omap (key_at key_fn (graph d)) (List.filter (fun i => negb (bool_decide (i ∈ can_reach_leaf (graph d)))) l)) ∪ b) as ->.
    { induction l as [|i l IH]; intros b; simpl; [set_solver|]. case_bool_decide; simpl; [by rewrite IH|].
      rewrite IH. destruct (key_at key_fn (graph d) i); simpl; [set_solver|done]. }
    rewrite Hb, union_empty_r_L, elem_of_list_to_set, list_elem_of_omap. split.
    + intros (i & Hin & Hk). apply list_elem_of_In, filter_In in Hin as [Hin Hout].
      apply list_elem_of_In in Hin. bool_prop.
      apply (can_reach_leaf_spec _ _ Hin) in Hout as (j & Hr & Ht).
      destruct (tc_first _ _ _ Ht) as [j' Hd]. destruct (depends_key key_fn d j j' Hi Hd) as (kj & _ & Hkj & _).
      exists kj. split; [apply Hi in Hk; by apply (rtc_key_depends key_fn d k kj i j)|].
      apply (tc_key_depends key_fn); [done|]. by exists j, j.
    + intros (k' & Hr & Ht). pose proof Ht as (j & j' & Hj & Hj' & Ht')%(tc_key_depends key_fn); [|done].
      rewrite Hj in Hj'. injection Hj' as <-.
      assert (exists i, node_indices d !! k = Some i) as [i Hk].
      { inversion Hr as [|? k1 ? (i & _ & Hki & _)]; subst; eauto. }
      exists i. split; [|by apply Hi]. pose proof (proj1 (Hi k i) Hk) as Hin%key_at_indices.
      apply list_elem_of_In, filter_In. split; [by apply list_elem_of_In|]. apply negb_true_iff, bool_decide_eq_false.
      apply can_reach_leaf_spec; [done|]. exists j. split; [|done].
      by apply (rtc_key_depends key_fn d k k' i j Hi Hk Hj).
  - exists ∅. split; [destruct d; unfold set_blocked; simpl in *; by rewrite Hb|].
    intros k. split; [by intros ?%elem_of_empty|]. intros (k' & _ & Ht).
    apply (tc_key_depends key_fn) in Ht as (i & i' & Hk & Hk' & Ht); [|done].
    rewrite Hk in Hk'. injection Hk' as <-.
    assert (g_is_cyclic (graph d) = true) as Htrue by (apply is_cyclic_spec; by exists i). congruence.
Qed.

(** What [DepsGraph::new] leaves: the invariant holds of it once it is subscribed to. *)
Lemma new_ok nodes edges (d : DepsGraph K N G) :
  keyed key_fn nodes -> DepsGraph_new key_fn nodes edges = Ok d ->
  (forall f t, (f, t) ∈ edges -> ~ dangling nodes (f, t)) /\
  (forall k, is_live d k <-> k ∈ map fst nodes) /\
  (forall k, k ∈ d.(blocked) <-> reaches_cycle nodes edges k) /\
  Invariant key_fn (fun k => k ∈ map fst nodes) (needs nodes edges) [] (set_channel d (Some [])).
Proof.
  intros Hkeyed Hnew. unfold DepsGraph_new in Hnew.
  pose proof (add_nodes_spec nodes g_new ∅ Hkeyed new_indexed) as Hn.
  destruct (add_nodes nodes g_new ∅) as [g indices]. destruct Hn as (Hi & Hdep & Hdom).
  pose proof (add_edges_spec edges g indices Hi) as He.
  destruct (add_edges edges g indices) as [g'|[f t]|]; cbn [rbind] in Hnew; [|done..].
  destruct He as (Hi' & Hdep' & Hcl). injection Hnew as <-.
  assert (forall k, is_Some (indices !! k) <-> k ∈ map fst nodes) as Hlive.
  { intros k. rewrite Hdom, lookup_empty. split; [intros [[? ?]|?]; done|by right]. }
  set (d0 := mkDepsGraph g' indices (∅ : gset K) (∅ : gset K) None).
  destruct (detect_blocks d0 Hi' eq_refl) as (b & -> & Hb).
  assert (forall k k', key_depends d0 k k' <-> needs nodes edges k k') as Hkd.
  { intros k k'. unfold key_depends, needs. simpl. setoid_rewrite Hdep'. setoid_rewrite Hdep. split.
    - intros (i & i' & Hk & Hk' & [Hd|(f & t & Hin & Hne & Hf & Ht)]); [by apply new_depends in Hd|].
      rewrite (indexed_inj key_fn d0 k f i Hi' Hk Hf), (indexed_inj key_fn d0 k' t i' Hi' Hk' Ht).
      split; [done|]. split; [done|]. apply Hlive. by rewrite Hf.
    - intros (Hin & Hne & Hk%Hlive). destruct (Hcl k k' Hin Hk) as [i' Hi'']. destruct Hk as [i Hk].
      exists i, i'. split; [done|]. split; [done|]. right. by exists k, k'. }
  assert (forall k, k ∈ b <-> reaches_cycle nodes edges k) as Hcyc.
  { intros k. rewrite Hb. unfold reaches_cycle. split; intros (k' & Hr & Ht); exists k'; split.
    - apply (rtc_congruence id _ _ _ (fun a b => proj1 (Hkd a b)) Hr).
    - apply (tc_congruence id _ _ _ (fun a b => proj1 (Hkd a b)) Ht).
    - apply (rtc_congruence id _ _ _ (fun a b => proj2 (Hkd a b)) Hr).
    - apply (tc_congruence id _ _ _ (fun a b => proj2 (Hkd a b)) Ht). }
  assert (forall k k', needs nodes edges k k' -> is_Some (indices !! k')) as Htarget.
  { intros k k' (i & i' & _ & ? & _)%Hkd. by exists i'. }
  split; [|split; [done|split; [done|]]].
  - intros f t Hin [Hf Ht]. apply Ht, Hlive. by apply (Hcl f t Hin), Hlive.
  - constructor; simpl.
    + done.
    + intros k. rewrite Hlive. split; [|by intros [? _]]. intros Hk. split; [done|].
      intros (e & ?%elem_of_nil & _). done.
    + intros k k'. change (key_depends d0 k k' <-> needs nodes edges k k' /\ is_Some (indices !! k) /\ is_Some (indices !! k')).
      rewrite Hkd. split; [|by intros [? _]]. intros Hne. split; [done|]. split; [by apply Hlive, Hne|by eapply Htarget].
    + intros k k' Hne _ _ Hg. destruct (Htarget k k' Hne). congruence.
    + intros k k' Hr Ht. apply Hb. by exists k'.
    + intros k k' Hd Hk'. apply Hb in Hk' as (k2 & Hr & Ht). apply Hb. exists k2. split; [|done]. by eapply rtc_l.
    + done.
    + constructor.
    + intros k. split; [by intros ?%elem_of_empty|by intros ?%elem_of_nil].
    + by intros k k' ?%elem_of_empty.
    + by intros k ?%elem_of_empty.
Qed.
End construction.

(** ** Runs *)

Section runs.
Context {K N G : Type} `{Countable K} `{StableGraphLaws N G} `{!CycleTest G} `{!CycleTestLaws N G}.
Context (key_fn : N -> K) (nodes : list (K * N)) (edges : list (K * K)) (d0 : DepsGraph K N G).
Context (Hkeyed : keyed key_fn nodes) (Hnew : DepsGraph_new key_fn nodes edges = Ok d0).
Local Abbreviation Inv := (Invariant key_fn (fun k => k ∈ map fst nodes) (needs nodes edges)).
Local Abbreviation state := (run key_fn d0).

Lemma run_inv events : Inv events (state events).
Proof.
  destruct (new_ok key_fn nodes edges d0 Hkeyed Hnew) as (_ & _ & _ & Hinv).
  unfold run, subscribe. apply (inv_run key_fn _ _ [] _ events). by apply inv_emit.
Qed.

Lemma run_snoc events e : state (events ++ [e]) = handle key_fn (state events) e.
Proof. unfold run. by rewrite fold_left_app. Qed.

Lemma needs_known k k' : needs nodes edges k k' -> k ∈ map fst nodes /\ k' ∈ map fst nodes.
Proof.
  destruct (new_ok key_fn nodes edges d0 Hkeyed Hnew) as (Hd & _).
  intros (Hin & _ & Hk). split; [done|]. destruct (decide (k' ∈ map fst nodes)) as [?|Hn]; [done|].
  exfalso. by apply (Hd k k' Hin).
Qed.

Lemma all_done_spec events (d : DepsGraph K N G) :
  Inv events d -> is_all_done key_fn d = true <-> forall k, is_live d k -> k ∈ d.(blocked).
Proof.
  intros Hinv. pose proof (inv_indexed _ _ _ _ _ Hinv) as Hi.
  assert (is_all_done key_fn d = forallb (fun idx => match key_at key_fn d.(graph) idx with
            | Some key => bool_decide (key ∈ d.(blocked)) | None => true end) (g_indices d.(graph))) as ->.
  { unfold is_all_done, is_empty. destruct (g_indices (graph d)); done. }
  rewrite forallb_forall. split.
  - intros Hall k [i Hk]. apply Hi in Hk as Hk'. pose proof (key_at_indices key_fn _ _ _ Hk') as Hin%list_elem_of_In.
    specialize (Hall i Hin). rewrite Hk' in Hall. by bool_prop.
  - intros Hall i _. destruct (key_at key_fn (graph d) i) as [k|] eqn:E; [|done].
    apply bool_decide_eq_true, Hall. exists i. by apply Hi.
Qed.

(** One emission: the end is signalled when all that is left is blocked; otherwise something
    that was sent is left. *)
Lemma emit_status events (d : DepsGraph K N G) :
  Inv events d ->
  let d' := emit_leaves key_fn d in
  (None ∈ messages d' <-> None ∈ messages d \/ forall k, is_live d k -> k ∈ d.(blocked)) /\
  ((forall k, is_live d k -> k ∈ d.(blocked)) -> last (messages d') = Some None) /\
  ((forall k, is_live d k -> k ∈ d.(blocked)) \/ exists k, k ∈ d'.(sent) /\ is_live d' k) /\
  d'.(blocked) = d.(blocked) /\ (forall k, is_live d' k <-> is_live d k).
Proof.
  intros Hinv d'. subst d'. pose proof (all_done_spec events d Hinv) as Had.
  destruct (emit_leaves_spec key_fn d) as (news & d1 & He & ->). pose proof (inv_sent _ _ _ _ _ Hinv) as Hc.
  destruct He as [Hg Hix Hb Hch Hn Hs _ Hl].
  assert (messages d1 = messages d ++ map Some news) as Hm
    by (unfold messages; rewrite Hch; by destruct (channel d)).
  assert (forall n : list N, None ∉ map Some n) as Hnone
    by (intros n Hin; by apply list_elem_of_fmap in Hin as (? & ? & _)).
  destruct (is_all_done key_fn d) eqn:E.
  - assert (messages (send d1 None) = messages d1 ++ [None]) as Hm'
      by (unfold messages, send, set_channel; simpl; rewrite Hch; by destruct (channel d)).
    rewrite Hm'. repeat split; simpl; try done.
    + intros _. right. by apply Had.
    + intros _. apply elem_of_app. right. set_solver.
    + intros _. by rewrite last_snoc.
    + left. by apply Had.
    + unfold is_live; simpl; by rewrite Hix.
    + unfold is_live; simpl; by rewrite Hix.
  - assert (~ forall k, is_live d k -> k ∈ d.(blocked)) as Hnot by (intros Hall; apply Had in Hall; congruence).
    rewrite Hm. repeat split; try done.
    + intros [?|Hin]%elem_of_app; [by left|by apply Hnone in Hin].
    + intros [?|?]; [apply elem_of_app; by left|done].
    + right. apply not_true_iff_false in E.
      assert (exists k, is_live d k /\ k ∉ d.(blocked)) as (k & Hk & Hnb).
      { destruct (decide (map_Forall (fun k _ => k ∈ d.(blocked)) d.(node_indices))) as [Hall|Hex].
        - exfalso. apply Hnot. intros k [i Hk]. by apply (Hall k i).
        - apply map_not_Forall in Hex as (k & i & Hk & Hnb); [|apply _]. exists k. split; [by exists i|done]. }
      destruct (unblocked_leaf key_fn _ _ events d k Hinv Hk Hnb) as (k' & i & Hk' & Hnb' & Hleaf).
      pose proof (proj1 (inv_indexed _ _ _ _ _ Hinv k' i) Hk') as (n & Hw & Hkn)%key_at_weight.
      destruct (Hl k' n) as [?|?]; [apply find_leaves_spec; by exists i|done|].
      exists k'. split; [done|]. unfold is_live. rewrite Hix. by exists i.
    + unfold is_live; by rewrite Hix.
    + unfold is_live; by rewrite Hix.
Qed.

(** What one event does before the emission. *)
Definition before_emission (d : DepsGraph K N G) (e : event K) : DepsGraph K N G :=
  match e with
  | Success key => remove_node d key
  | Failure key =>
      remove_node (match d.(node_indices) !! key with Some idx => block_dependents key_fn d idx | None => d end) key
  end.

Lemma handle_before d e : handle key_fn d e = emit_leaves key_fn (before_emission d e).
Proof. by destruct e. Qed.

Lemma before_emission_spec events d e :
  Inv events d ->
  Inv (events ++ [e]) (before_emission d e) /\ messages (before_emission d e) = messages d /\
  (forall k, is_live (before_emission d e) k <-> is_live d k /\ k <> subject e) /\
  (forall k, k ∈ (before_emission d e).(blocked) <->
     k ∈ d.(blocked) \/ exists key, e = Failure key /\ tc (key_depends d) k key).
Proof.
  intros Hinv. pose proof (inv_indexed _ _ _ _ _ Hinv) as Hi.
  assert (forall (d : DepsGraph K N G) k, (remove_node d k).(blocked) = d.(blocked)) as Hrb by (intros d1 k; apply (remove_rest d1 k)).
  assert (forall (d : DepsGraph K N G) k, messages (remove_node d k) = messages d) as Hrm
    by (intros d1 k; unfold messages; by rewrite (proj2 (proj2 (remove_rest d1 k)))).
  assert (forall (d : DepsGraph K N G) k' k, is_live (remove_node d k') k <-> is_live d k /\ k <> k') as Hrl.
  { intros d1 k' k. unfold is_live. rewrite remove_indices, lookup_delete_is_Some. naive_solver. }
  destruct e as [key|key]; unfold before_emission; cbn [subject].
  - split; [apply (inv_remove key_fn _ _ events d (Success key)); [done|by left]|].
    split; [done|]. split; [intros k; apply Hrl|]. intros k. rewrite Hrb. split; [by left|].
    intros [?|(? & ? & _)]; done.
  - destruct (node_indices d !! key) as [idx|] eqn:E.
    + destruct (block_dependents_blocked key_fn d key idx Hi E) as (b & -> & Hb).
      split; [|split; [exact (Hrm (set_blocked d b) key)|split; [intros k; exact (Hrl (set_blocked d b) key k)|]]].
      * apply (inv_remove key_fn _ _ events (set_blocked d b) (Failure key)).
        -- apply inv_block; [done|intros k Hk; apply Hb; by right|].
           intros k k' Hd Hk'. apply Hb in Hk' as [Ht|Hbl]; apply Hb; [left; by eapply tc_l|right].
           by apply (inv_upward _ _ _ _ _ Hinv k k').
        -- right. intros k Hd. apply Hb. left. by apply tc_once.
      * intros k. rewrite Hrb. simpl. rewrite Hb. split.
        -- intros [?|?]; [right; by exists key|by left].
        -- intros [?|(? & [= ->] & ?)]; [by right|by left].
    + assert (forall k, ~ tc (key_depends d) k key) as Hno.
      { intros k Ht. apply (tc_key_depends key_fn) in Ht as (? & ? & _ & ? & _); [congruence|done]. }
      split; [|split; [apply Hrm|split; [intros k; apply Hrl|]]].
      * apply (inv_remove key_fn _ _ events d (Failure key)); [done|]. right. intros k Hd. exfalso.
        apply (Hno k). by apply tc_once.
      * intros k. rewrite Hrb. split; [by left|]. intros [?|(? & [= ->] & Ht)]; [done|by apply Hno in Ht].
Qed.

Lemma run_status events :
  let d := state events in
  (None ∈ messages d <-> forall k, is_live d k -> k ∈ d.(blocked)) /\
  ((forall k, is_live d k -> k ∈ d.(blocked)) -> last (messages d) = Some None) /\
  ((forall k, is_live d k -> k ∈ d.(blocked)) \/ exists k, k ∈ d.(sent) /\ is_live d k).
Proof.
  induction events as [|e events IH] using rev_ind; intros d; subst d.
  - destruct (new_ok key_fn nodes edges d0 Hkeyed Hnew) as (_ & _ & _ & Hinv).
    unfold run, subscribe. simpl. destruct (emit_status [] _ Hinv) as (H1' & H2' & H3' & Hb & Hl).
    rewrite Hb. setoid_rewrite Hl. split; [|split; [done|]].
    + rewrite H1'. split; [intros [Hn|?]; [by apply elem_of_nil in Hn|done]|by right].
    + destruct H3' as [?|(k & ? & ?%Hl)]; [by left|right; by exists k].
  - rewrite run_snoc, handle_before. pose proof (run_inv events) as Hinv.
    destruct (before_emission_spec events _ e Hinv) as (Hinv' & Hm & Hlive & Hbl).
    destruct (emit_status _ _ Hinv') as (H1' & H2' & H3' & Hb & Hl). rewrite Hb. setoid_rewrite Hl.
    split; [|split; [done|]].
    + rewrite H1', Hm. split; [|by right]. intros [Hn|?]; [|done]. intros k Hk.
      apply Hbl. left. apply (proj1 (proj1 IH)); [done|]. by apply Hlive.
    + destruct H3' as [?|(k & ? & ?%Hl)]; [by left|right; by exists k].
Qed.

(** What reporting what was sent guarantees. *)
Record Reported (events : list (event K)) : Prop := {
  rp_blocked k : k ∈ (state events).(blocked) <-> doomed nodes edges events k;
  rp_order e k' : e ∈ events -> needs nodes edges (subject e) k' -> Success k' ∈ events;
  rp_known e : e ∈ events -> subject e ∈ map fst nodes /\ Acc (flip (needs nodes edges)) (subject e);
  rp_once : NoDup (map subject events)
}.

(** A node that needs one that is still there is still there. *)
Lemma needs_live events a b :
  Reported events -> needs nodes edges a b -> is_live (state events) b -> key_depends (state events) a b.
Proof.
  intros Hr Hab Hb. pose proof (run_inv events) as Hinv. apply (inv_needs _ _ _ _ _ Hinv).
  split; [done|]. split; [|done]. apply (inv_live _ _ _ _ _ Hinv). split; [by apply needs_known in Hab as [? _]|].
  intros (e & He & <-). pose proof (rp_order _ Hr e b He Hab) as Hsucc.
  apply (inv_live _ _ _ _ _ Hinv) in Hb as [_ Hno]. apply Hno. by exists (Success b).
Qed.

Lemma tc_needs_live events a b :
  Reported events -> tc (needs nodes edges) a b -> is_live (state events) b -> tc (key_depends (state events)) a b.
Proof.
  intros Hr Ht Hb. induction Ht as [a b Hab|a c b Hac Hcb IH]; [by apply tc_once, needs_live|].
  specialize (IH Hb). eapply tc_l; [|done]. apply needs_live; [done..|].
  destruct (tc_first _ _ _ IH) as [z Hz]. by apply key_depends_keys in Hz as [? _].
Qed.

Lemma reported_nothing : Reported [].
Proof.
  destruct (new_ok key_fn nodes edges d0 Hkeyed Hnew) as (_ & _ & Hblocked & Hinv0). constructor.
  - intros k. unfold run, subscribe. simpl.
    destruct (emit_status [] _ Hinv0) as (_ & _ & _ & -> & _). simpl. rewrite Hblocked. split.
    + intros Hc. split; [|by left]. destruct Hc as (k' & Hkk & Ht).
      inversion Hkk as [|? y ? Hne]; subst; [|by apply needs_known in Hne as [? _]].
      destruct (tc_first _ _ _ Ht) as [y Hy]. by apply needs_known in Hy as [? _].
    + intros [_ [?|(k' & ?%elem_of_nil & _)]]; done.
  - by intros e k' ?%elem_of_nil.
  - by intros e ?%elem_of_nil.
  - constructor.
Qed.

Lemma reported_one events e :
  Reported events -> subject e ∈ map key_fn (emitted (state events)) -> is_live (state events) (subject e) ->
  Reported (events ++ [e]).
Proof.
  intros Hr Hs Hl. pose proof (run_inv events) as Hinv.
  destruct (before_emission_spec events _ e Hinv) as (Hinv' & _ & _ & Hbl).
  destruct (emit_status _ _ Hinv') as (_ & _ & _ & Hb & _).
  assert (forall k', needs nodes edges (subject e) k' -> Success k' ∈ events) as Hdone.
  { intros k' Hne. apply (inv_order _ _ _ _ _ Hinv (subject e));
      [by apply (inv_emitted _ _ _ _ _ Hinv)|done|by apply needs_known in Hne as [_ ?]]. }
  pose proof (proj1 (inv_live _ _ _ _ _ Hinv (subject e)) Hl) as [Hknown Hfresh]. constructor.
  - intros k. rewrite run_snoc, handle_before, Hb, Hbl, (rp_blocked _ Hr). unfold doomed.
    setoid_rewrite elem_of_app. setoid_rewrite list_elem_of_singleton. split.
    + intros [[? [?|(k' & ? & ?)]]|(key & -> & Ht)]; [by split; [|left]|split; [done|right; eauto]|].
      assert (tc (needs nodes edges) k key) as Htn.
      { apply (tc_congruence id _ _ _ (fun a b Hab => proj1 (proj1 (inv_needs _ _ _ _ _ Hinv a b) Hab)) Ht). }
      split; [|right; eauto]. destruct (tc_first _ _ _ Htn) as [z Hz]. by apply needs_known in Hz as [? _].
    + intros [? [?|(k' & [?|<-] & ?)]]; [left; by split; [|left]|left; split; [done|right; eauto]|].
      right. exists k'. split; [done|]. by apply tc_needs_live.
  - intros e' k' [Hin|Hin]%elem_of_app Hne; apply elem_of_app; left; [by apply (rp_order _ Hr e')|].
    apply list_elem_of_singleton in Hin. subst e'. by apply Hdone.
  - intros e' [Hin|Hin]%elem_of_app; [by apply (rp_known _ Hr)|]. apply list_elem_of_singleton in Hin. subst e'.
    split; [done|]. constructor. intros k' Hne. by apply (rp_known _ Hr (Success k')), Hdone.
  - rewrite map_app. apply NoDup_app. split; [by apply (rp_once _ Hr)|]. split; [|apply NoDup_singleton].
    intros k (e' & -> & Hin)%list_elem_of_fmap Hk. simpl in Hk. apply list_elem_of_singleton in Hk.
    apply Hfresh. by exists e'.
Qed.

Lemma reports_reported events : Reports key_fn d0 events -> Reported events.
Proof. induction 1; [apply reported_nothing|by apply reported_one]. Qed.

(** A node that was reported on is not doomed. *)
Lemma reported_not_doomed events e : Reported events -> e ∈ events -> ~ doomed nodes edges events (subject e).
Proof.
  intros Hr He [_ [(k' & Hkk & Ht)|(k' & Hf & Ht)]].
  - destruct (rp_known _ Hr e He) as [_ Hacc]. by apply (Acc_no_cycle _ _ Hacc k').
  - assert (Success k' ∈ events) as Hsucc.
    { remember (subject e) as s eqn:Es. revert e He Es. induction Ht as [a b Hab|a c b Hac Hcb IH]; intros e He ->.
      - by apply (rp_order _ Hr e).
      - apply (IH Hf (Success c)); [by apply (rp_order _ Hr e)|done]. }
    pose proof (rp_once _ Hr) as Hnd.
    apply list_elem_of_lookup in Hsucc as [i Hi]. apply list_elem_of_lookup in Hf as [j Hj].
    assert (i = j) as ->; [|congruence].
    apply (NoDup_lookup _ i j k' Hnd); by rewrite list_lookup_fmap, ?Hi, ?Hj.
Qed.
End runs.

(** ** The properties *)

(** [DepsGraph::new] fails exactly when some node depends on an unknown one, and names the first
    such dependency; otherwise every node is in the graph and the blocked ones are exactly those
    that reach a dependency cycle. *)
Theorem new_outcome {K N G} `{Countable K} `{StableGraphLaws N G} `{CycleTest G} `{!CycleTestLaws N G}
  (key_fn : N -> K) nodes edges :
  keyed key_fn nodes ->
  match DepsGraph_new (G := G) key_fn nodes edges with
  | Ok d =>
      (forall e, e ∈ edges -> ~ dangling nodes e) /\
      (forall k, is_live d k <-> k ∈ map fst nodes) /\
      (forall k, k ∈ d.(blocked) <-> reaches_cycle nodes edges k)
  | Err e => exists pre post, edges = pre ++ e :: post /\ dangling nodes e /\ Forall (fun e => ~ dangling nodes e) pre
  | OutOfFuel => False
  end.
Proof.
  intros Hkeyed. destruct (DepsGraph_new key_fn nodes edges) as [d|e|] eqn:Enew.
  - destruct (new_ok key_fn nodes edges d Hkeyed Enew) as (Hd & Hl & Hb & _).
    split; [|done]. intros [f t] Hin. by apply Hd.
  - unfold DepsGraph_new in Enew. pose proof (add_nodes_spec key_fn nodes g_new ∅ Hkeyed (new_indexed key_fn)) as Hn.
    destruct (add_nodes nodes g_new ∅) as [g indices]. destruct Hn as (Hi & _ & Hdom).
    assert (forall k, is_Some (indices !! k) <-> k ∈ map fst nodes) as Hlive.
    { intros k. rewrite Hdom, lookup_empty. split; [intros [[? ?]|?]; done|by right]. }
    pose proof (add_edges_spec key_fn edges g indices Hi) as He.
    destruct (add_edges edges g indices) as [g'|[f t]|]; cbn [rbind] in Enew; [done| |done].
    injection Enew as <-. destruct He as (pre & post & -> & Hf & Ht & Hpre). exists pre, post.
    split; [done|]. split; [split; simpl; [by apply Hlive|rewrite <- Hlive, Ht; by intros [? ?]]|].
    apply Forall_forall. intros [f' t'] Hin [Hf' Ht']. simpl in *. apply Ht', Hlive, (Hpre f' t' Hin). by apply Hlive.
  - unfold DepsGraph_new in Enew. pose proof (add_nodes_spec key_fn nodes g_new ∅ Hkeyed (new_indexed key_fn)) as Hn.
    destruct (add_nodes nodes g_new ∅) as [g indices]. destruct Hn as (Hi & _).
    pose proof (add_edges_spec key_fn edges g indices Hi) as He.
    by destruct (add_edges edges g indices) as [g'|[f t]|].
Qed.

(** [a] needs [b], which needs [c]; [d] and [e] need each other. *)
Definition sample_nodes : list (nat * nat) := map (fun k => (k, k)) [1; 2; 3; 4; 5].
Definition sample_edges : list (nat * nat) := [(1, 2); (2, 3); (4, 5); (5, 4)].
Definition sample_graph : DepsGraph nat nat (ListGraph nat) :=
  match DepsGraph_new id sample_nodes sample_edges with Ok d => d | _ => mkDepsGraph g_new ∅ ∅ ∅ None end.

Lemma new_outcome_example :
  (forall k, k ∈ sample_graph.(blocked) <-> reaches_cycle sample_nodes sample_edges k)
  /\ bool_decide (4 ∈ sample_graph.(blocked)) = true /\ bool_decide (1 ∈ sample_graph.(blocked)) = false.
Proof.
  assert (keyed id sample_nodes) as Hk by (intros k n Hin; apply list_elem_of_In in Hin; simpl in Hin; naive_solver).
  split; [|split; vm_compute; reflexivity].
  pose proof (new_outcome (G := ListGraph nat) id sample_nodes sample_edges Hk) as Ho.
  unfold sample_graph. destruct (DepsGraph_new id sample_nodes sample_edges) as [d|e|] eqn:E; [|vm_compute in E; discriminate E..].
  apply Ho.
Defined.

(** Order: whatever a subscriber reports, no node is sent twice, and a node is sent only when
    each node it needs has been reported as a success. *)
Theorem emission_order {K N G} `{Countable K} `{StableGraphLaws N G} `{CycleTest G} `{!CycleTestLaws N G}
  (key_fn : N -> K) nodes edges (d0 : DepsGraph K N G) :
  keyed key_fn nodes -> DepsGraph_new key_fn nodes edges = Ok d0 ->
  forall events, let d := run key_fn d0 events in
  NoDup (map key_fn (emitted d)) /\
  forall n, n ∈ emitted d ->
    key_fn n ∈ map fst nodes /\ forall k, needs nodes edges (key_fn n) k -> Success k ∈ events.
Proof.
  intros Hkeyed Hnew events d. pose proof (run_inv key_fn nodes edges d0 Hkeyed Hnew events) as Hinv.
  split; [by apply (inv_once _ _ _ _ _ Hinv)|]. intros n Hn.
  assert (key_fn n ∈ d.(sent)) as Hs by (apply (inv_emitted _ _ _ _ _ Hinv), list_elem_of_fmap; by exists n).
  split; [by apply (inv_sent_known _ _ _ _ _ Hinv)|]. intros k Hne.
  apply (inv_order _ _ _ _ _ Hinv (key_fn n)); [done..|].
  by apply (needs_known key_fn nodes edges d0 Hkeyed Hnew) in Hne as [_ ?].
Qed.

Lemma emission_order_example :
  NoDup (map id (emitted (run id sample_graph [Success 3; Success 2])))
  /\ emitted (run id sample_graph [Success 3; Success 2]) = [3; 2; 1]
  /\ emitted (run id sample_graph [Failure 3; Success 2]) = [3].
Proof.
  split; [|split; vm_compute; reflexivity].
  apply (emission_order id sample_nodes sample_edges sample_graph); [|vm_compute; reflexivity].
  intros k n Hin. apply list_elem_of_In in Hin. simpl in Hin. naive_solver.
Defined.

(** The scheduler never stalls. After any reports, either everything left is blocked and the last
    message is the end of the stream, or the end was not sent yet and some node that was sent is
    still to be reported on. *)
Theorem never_stalls {K N G} `{Countable K} `{StableGraphLaws N G} `{CycleTest G} `{!CycleTestLaws N G}
  (key_fn : N -> K) nodes edges (d0 : DepsGraph K N G) :
  keyed key_fn nodes -> DepsGraph_new key_fn nodes edges = Ok d0 ->
  forall events, let d := run key_fn d0 events in
  (last (messages d) = Some None /\ forall k, is_live d k -> k ∈ d.(blocked)) \/
  ((None ∉ messages d) /\ exists n, n ∈ emitted d /\ is_live d (key_fn n)).
Proof.
  intros Hkeyed Hnew events d. pose proof (run_inv key_fn nodes edges d0 Hkeyed Hnew events) as Hinv.
  destruct (run_status key_fn nodes edges d0 Hkeyed Hnew events) as (H1' & H2' & H3'). fold d in H1', H2', H3'.
  pose proof (all_done_spec key_fn nodes edges events d Hinv) as Hdone.
  destruct (is_all_done key_fn d).
  - left. apply proj1 in Hdone. by split; [apply H2'|]; apply Hdone.
  - right. assert (None ∉ messages d) as Hout by (intros Hin; discriminate (proj2 Hdone (proj1 H1' Hin))).
    split; [done|]. destruct H3' as [?|(k & Hk & Hl)]; [by exfalso; apply Hout, H1'|].
    apply (inv_emitted _ _ _ _ _ Hinv), list_elem_of_fmap in Hk as (n & -> & Hn). by exists n.
Qed.

Lemma never_stalls_example :
  (last (messages (run id sample_graph [Failure 3])) = Some None
   /\ forall k, is_live (run id sample_graph [Failure 3]) k -> k ∈ (run id sample_graph [Failure 3]).(blocked))
  /\ (exists n, n ∈ emitted (run id sample_graph [Success 3]) /\ is_live (run id sample_graph [Success 3]) (id n)).
Proof.
  assert (keyed id sample_nodes) as Hk by (intros k n Hin; apply list_elem_of_In in Hin; simpl in Hin; naive_solver).
  assert (DepsGraph_new id sample_nodes sample_edges = Ok sample_graph) as Hn by (vm_compute; reflexivity).
  split.
  - destruct (never_stalls id sample_nodes sample_edges sample_graph Hk Hn [Failure 3])
      as [?|[Hno _]]; [done|]. exfalso. apply Hno. apply list_elem_of_In. vm_compute. repeat (first [left; reflexivity | right]).
  - destruct (never_stalls id sample_nodes sample_edges sample_graph Hk Hn [Success 3])
      as [[Hl _]|[_ ?]]; [|done]. exfalso. vm_compute in Hl. discriminate Hl.
Defined.

(** C1. Outcome: when the subscriber reports exactly what it was sent, it reports at most once for each
    node, and once the end was sent every node either was reported on, after everything it needs
    succeeded, or was not and is blocked, which are exactly the nodes that need, directly or not, a
    node that failed or one in a cycle. *)
Theorem schedule_outcome {K N G} `{Countable K} `{StableGraphLaws N G} `{CycleTest G} `{!CycleTestLaws N G}
  (key_fn : N -> K) nodes edges (d0 : DepsGraph K N G) events :
  keyed key_fn nodes -> DepsGraph_new key_fn nodes edges = Ok d0 -> Reports key_fn d0 events ->
  NoDup (map subject events) /\ length events <= length nodes /\
  (None ∈ messages (run key_fn d0 events) ->
   forall k, k ∈ map fst nodes ->
   (k ∈ map subject events /\ ~ doomed nodes edges events k
    /\ forall k', needs nodes edges k k' -> Success k' ∈ events) \/
   ((k ∉ map subject events) /\ doomed nodes edges events k /\ k ∈ (run key_fn d0 events).(blocked))).
Proof.
  intros Hkeyed Hnew Hreports. pose proof (reports_reported key_fn nodes edges d0 Hkeyed Hnew events Hreports) as Hr.
  pose proof (run_inv key_fn nodes edges d0 Hkeyed Hnew events) as Hinv.
  destruct (run_status key_fn nodes edges d0 Hkeyed Hnew events) as (Hend & _).
  split; [by apply Hr|]. split.
  - rewrite <- (length_map subject events), <- (length_map fst nodes).
    apply submseteq_length, NoDup_submseteq; [by apply Hr|]. intros k (e & -> & He)%list_elem_of_fmap.
    by apply (rp_known _ _ _ _ _ Hr).
  - intros Hnone k Hk. destruct (decide (k ∈ map subject events)) as [Hin|Hout].
    + left. split; [done|]. apply list_elem_of_fmap in Hin as (e & -> & He). split.
      * by apply (reported_not_doomed key_fn nodes edges d0 events e Hr).
      * intros k' Hne. by apply (rp_order _ _ _ _ _ Hr e).
    + right. split; [done|].
      assert (k ∈ (run key_fn d0 events).(blocked)) as Hb.
      { apply Hend; [done|]. apply (inv_live _ _ _ _ _ Hinv). split; [done|]. intros (e & He & <-).
        apply Hout, list_elem_of_fmap. by exists e. }
      split; [|done]. by apply (rp_blocked _ _ _ _ _ Hr).
Qed.

Lemma schedule_outcome_witness :
  NoDup (map subject [Success 3; Failure 2])
  /\ (1 ∉ map subject [Success 3; Failure 2]) /\ (doomed sample_nodes sample_edges [Success 3; Failure 2] 1).
Proof.
  assert (keyed id sample_nodes) as Hk by (intros k n Hin; apply list_elem_of_In in Hin; simpl in Hin; naive_solver).
  assert (DepsGraph_new id sample_nodes sample_edges = Ok sample_graph) as Hn by (vm_compute; reflexivity).
  assert (Reports id sample_graph [Success 3; Failure 2]) as Hr.
  { apply (reports_one _ _ [Success 3]); [apply (reports_one _ _ []); [constructor|..]|..].
    all: lazymatch goal with
         | |- _ ∈ _ => apply list_elem_of_In; vm_compute; repeat (first [left; reflexivity | right])
         | |- _ => vm_compute; eexists; reflexivity
         end. }
  destruct (schedule_outcome id sample_nodes sample_edges sample_graph [Success 3; Failure 2] Hk Hn Hr)
    as (Hnd & _ & Hall).
  split; [exact Hnd|].
  assert (None ∈ messages (run id sample_graph [Success 3; Failure 2])) as Hend
    by (apply list_elem_of_In; vm_compute; repeat (first [left; reflexivity | right])).
  assert (1 ∈ map fst sample_nodes) as H1k by (apply list_elem_of_In; vm_compute; left; reflexivity).
  destruct (Hall Hend 1 H1k) as [[Hin _]|(Hout & Hd & _)]; [|split; [exact Hout|exact Hd]].
  exfalso. apply list_elem_of_In in Hin. vm_compute in Hin. destruct Hin as [Hin|[Hin|[]]]; discriminate Hin.
Defined.
