(* ===== verification/Utf8.v ===== *)
(** * UTF-8

    [str::as_bytes] and [String::from_utf8] for the code that works on bytes: texts are lists of
    scalar values, bytes are numbers below 256. *)

From S2P Require Import Prelude RustStr.

Definition encode_char (c : char) : list N :=
  if (c <? 0x80)%N then [c]
  else if (c <? 0x800)%N then [0xC0 + c / 64; 0x80 + c mod 64]%N
  else if (c <? 0x10000)%N then [0xE0 + c / 4096; 0x80 + (c / 64) mod 64; 0x80 + c mod 64]%N
  else [0xF0 + c / 262144; 0x80 + (c / 4096) mod 64; 0x80 + (c / 64) mod 64; 0x80 + c mod 64]%N.

(** [str::as_bytes] *)
Definition as_bytes (s : str) : list N := flat_map encode_char s.

(** A Unicode scalar value. *)
Definition scalar (c : char) : bool := (c <? 0xD800)%N || ((0xE000 <=? c)%N && (c <? 0x110000)%N).

Definition continues (b : N) : bool := in_range 0x80 0xBF b.

(** [String::from_utf8]: overlong forms, surrogates and values beyond the last plane are errors. *)
Fixpoint from_utf8 (bytes : list N) : option str :=
  match bytes with
  | [] => Some []
  | b0 :: r0 =>
      if (b0 <? 0x80)%N then option_map (cons b0) (from_utf8 r0)
      else match r0 with
           | [] => None
           | b1 :: r1 =>
               if negb (continues b1) then None
               else if in_range 0xC2 0xDF b0
               then option_map (cons ((b0 - 0xC0) * 64 + (b1 - 0x80))%N) (from_utf8 r1)
               else match r1 with
                    | [] => None
                    | b2 :: r2 =>
                        if negb (continues b2) then None
                        else if in_range 0xE0 0xEF b0 then
                          let c := ((b0 - 0xE0) * 4096 + (b1 - 0x80) * 64 + (b2 - 0x80))%N in
                          if (0x800 <=? c)%N && scalar c then option_map (cons c) (from_utf8 r2) else None
                        else match r2 with
                             | [] => None
                             | b3 :: r3 =>
                                 if negb (continues b3) then None
                                 else if in_range 0xF0 0xF4 b0 then
                                   let c := ((b0 - 0xF0) * 262144 + (b1 - 0x80) * 4096
                                             + (b2 - 0x80) * 64 + (b3 - 0x80))%N in
                                   if (0x10000 <=? c)%N && scalar c then option_map (cons c) (from_utf8 r3) else None
                                 else None
                             end
                    end
           end
  end.

Lemma continues_low r : (r < 64)%N -> continues (0x80 + r) = true.
Proof. intros H. unfold continues, in_range. apply andb_true_iff. split; apply N.leb_le; lia. Qed.

Lemma div_mod_64 c : exists q r, (c = q * 64 + r /\ r < 64 /\ c / 64 = q /\ c mod 64 = r)%N.
Proof.
  exists (c / 64)%N, (c mod 64)%N. pose proof (N.div_mod c 64 ltac:(lia)).
  pose proof (N.mod_lt c 64 ltac:(lia)). repeat split; lia.
Qed.

Ltac decide_tests :=
  repeat match goal with
  | |- context [(?a <? ?b)%N] =>
      first [rewrite (proj2 (N.ltb_lt a b)) by lia | rewrite (proj2 (N.ltb_ge a b)) by lia]
  | |- context [(?a <=? ?b)%N] =>
      first [rewrite (proj2 (N.leb_le a b)) by lia | rewrite (proj2 (N.leb_gt a b)) by lia]
  end.

Lemma from_utf8_encode_char c s : scalar c = true -> from_utf8 (encode_char c ++ s) = option_map (cons c) (from_utf8 s).
Proof.
  intros Hs. assert ((c < 0xD800 \/ 0xE000 <= c)%N /\ (c < 0x110000)%N) as [Hs1 Hs2].
  { unfold scalar in Hs. apply orb_true_iff in Hs as [Hs|Hs]; bool_prop; lia. }
  unfold encode_char.
  destruct (div_mod_64 c) as (q0 & r0 & E0 & H0 & -> & ->).
  replace (c / 4096)%N with ((c / 64) / 64)%N by (rewrite N.Div0.div_div; done).
  replace (c / 262144)%N with ((c / 64) / 64 / 64)%N by (rewrite !N.Div0.div_div; done).
  assert (c / 64 = q0)%N as -> by (symmetry; apply (N.div_unique c 64 q0 r0); lia).
  destruct (div_mod_64 q0) as (q1 & r1 & E1 & H1 & -> & ->).
  destruct (div_mod_64 q1) as (q2 & r2 & E2 & H2 & -> & ->).
  destruct (c <? 0x80)%N eqn:T1; bool_prop; [simpl; by decide_tests|].
  destruct (c <? 0x800)%N eqn:T2; bool_prop.
  - cbn [app from_utf8]. rewrite continues_low by lia. unfold in_range. decide_tests. cbn [negb andb].
    do 2 f_equal. lia.
  - destruct (c <? 0x10000)%N eqn:T3; bool_prop.
    + cbn [app from_utf8]. rewrite !continues_low by lia. unfold in_range. decide_tests. cbn [negb andb].
      replace ((0xE0 + q1 - 0xE0) * 4096 + (0x80 + r1 - 0x80) * 64 + (0x80 + r0 - 0x80))%N with c by lia.
      rewrite Hs. by decide_tests.
    + cbn [app from_utf8]. rewrite !continues_low by lia. unfold in_range. decide_tests. cbn [negb andb].
      replace ((0xF0 + q2 - 0xF0) * 262144 + (0x80 + r2 - 0x80) * 4096 + (0x80 + r1 - 0x80) * 64 + (0x80 + r0 - 0x80))%N
        with c by lia.
      rewrite Hs. by decide_tests.
Qed.

Lemma from_utf8_as_bytes s : forallb scalar s = true -> from_utf8 (as_bytes s) = Some s.
Proof.
  induction s as [|c s IH]; [done|]. cbn [forallb]. intros [Hc Hs]%andb_true_iff.
  unfold as_bytes in *. cbn [flat_map]. rewrite from_utf8_encode_char, IH; done.
Qed.

(** ASCII text is its own bytes. *)
Lemma as_bytes_ascii s : forallb (fun c => (c <? 0x80)%N) s = true -> as_bytes s = s.
Proof.
  induction s as [|c s IH]; [done|]. cbn [forallb]. intros [Hc Hs]%andb_true_iff.
  assert (encode_char c = [c]) as Hone by (unfold encode_char; by rewrite Hc).
  unfold as_bytes in *. cbn [flat_map]. rewrite Hone, IH; done.
Qed.

Lemma encode_char_range c : forallb (fun b => (b <? 256)%N) (encode_char c) = true \/ scalar c = false.
Proof.
  destruct (scalar c) eqn:Hs; [left|by right].
  assert (c < 0x110000)%N as Hc by (unfold scalar in Hs; apply orb_true_iff in Hs as [Hs|Hs]; bool_prop; lia).
  unfold encode_char. pose proof (N.mod_lt c 64 ltac:(lia)). pose proof (N.mod_lt (c / 64) 64 ltac:(lia)).
  pose proof (N.mod_lt (c / 4096) 64 ltac:(lia)).
  assert (c / 262144 < 16)%N by (apply N.Div0.div_lt_upper_bound; lia).
  destruct (c <? 0x80)%N eqn:T1; bool_prop; [|destruct (c <? 0x800)%N eqn:T2; bool_prop; [|destruct (c <? 0x10000)%N eqn:T3; bool_prop]];
    cbn [forallb].
  - by decide_tests.
  - assert (c / 64 < 32)%N by (apply N.Div0.div_lt_upper_bound; lia). by decide_tests.
  - assert (c / 4096 < 16)%N by (apply N.Div0.div_lt_upper_bound; lia). by decide_tests.
  - by decide_tests.
Qed.

(** ** Decoding is faithful *)

Lemma split_64 q r : (r < 64)%N -> ((q * 64 + r) / 64 = q /\ (q * 64 + r) mod 64 = r)%N.
Proof.
  intros Hr. rewrite (N.add_comm (q * 64) r).
  rewrite N.div_add by lia. rewrite (N.div_small r 64), N.Div0.mod_add, N.mod_small by done. lia.
Qed.

Lemma continues_split b : continues b = true -> (b = 0x80 + (b - 0x80) /\ b - 0x80 < 64)%N.
Proof. unfold continues, in_range. intros H. bool_prop. lia. Qed.

Lemma encode_two b0 b1 :
  in_range 0xC2 0xDF b0 = true -> continues b1 = true ->
  encode_char ((b0 - 0xC0) * 64 + (b1 - 0x80))%N = [b0; b1].
Proof.
  intros H0 H1. apply continues_split in H1 as [E1 H1]. unfold in_range in H0. bool_prop.
  destruct (split_64 (b0 - 0xC0) (b1 - 0x80) H1) as [D M]. unfold encode_char. rewrite D, M.
  assert (((b0 - 0xC0) * 64 + (b1 - 0x80) <? 0x80) = false)%N as -> by (apply N.ltb_ge; lia).
  assert (((b0 - 0xC0) * 64 + (b1 - 0x80) <? 0x800) = true)%N as -> by (apply N.ltb_lt; lia).
  repeat f_equal; lia.
Qed.

Lemma encode_three b0 b1 b2 :
  in_range 0xE0 0xEF b0 = true -> continues b1 = true -> continues b2 = true ->
  (0x800 <= (b0 - 0xE0) * 4096 + (b1 - 0x80) * 64 + (b2 - 0x80))%N ->
  encode_char ((b0 - 0xE0) * 4096 + (b1 - 0x80) * 64 + (b2 - 0x80))%N = [b0; b1; b2].
Proof.
  intros H0 H1 H2 Hc. apply continues_split in H1 as [E1 H1], H2 as [E2 H2]. unfold in_range in H0. bool_prop.
  replace ((b0 - 0xE0) * 4096 + (b1 - 0x80) * 64 + (b2 - 0x80))%N
    with (((b0 - 0xE0) * 64 + (b1 - 0x80)) * 64 + (b2 - 0x80))%N in Hc |- * by lia.
  destruct (split_64 ((b0 - 0xE0) * 64 + (b1 - 0x80)) (b2 - 0x80) H2) as [D M].
  destruct (split_64 (b0 - 0xE0) (b1 - 0x80) H1) as [D' M'].
  set (c := (((b0 - 0xE0) * 64 + (b1 - 0x80)) * 64 + (b2 - 0x80))%N) in *.
  assert (c / 4096 = b0 - 0xE0)%N as D2.
  { change 4096%N with (64 * 64)%N. by rewrite <- N.Div0.div_div, D, D'. }
  unfold encode_char. rewrite D2, D, M, M'.
  assert ((c <? 0x80) = false)%N as -> by (apply N.ltb_ge; lia).
  assert ((c <? 0x800) = false)%N as -> by (apply N.ltb_ge; lia).
  assert ((c <? 0x10000) = true)%N as -> by (apply N.ltb_lt; subst c; lia).
  repeat f_equal; lia.
Qed.

Lemma encode_four b0 b1 b2 b3 :
  in_range 0xF0 0xF4 b0 = true -> continues b1 = true -> continues b2 = true -> continues b3 = true ->
  (0x10000 <= (b0 - 0xF0) * 262144 + (b1 - 0x80) * 4096 + (b2 - 0x80) * 64 + (b3 - 0x80))%N ->
  encode_char ((b0 - 0xF0) * 262144 + (b1 - 0x80) * 4096 + (b2 - 0x80) * 64 + (b3 - 0x80))%N = [b0; b1; b2; b3].
Proof.
  intros H0 H1 H2 H3 Hc. apply continues_split in H1 as [E1 H1], H2 as [E2 H2], H3 as [E3 H3].
  unfold in_range in H0. bool_prop.
  replace ((b0 - 0xF0) * 262144 + (b1 - 0x80) * 4096 + (b2 - 0x80) * 64 + (b3 - 0x80))%N
    with ((((b0 - 0xF0) * 64 + (b1 - 0x80)) * 64 + (b2 - 0x80)) * 64 + (b3 - 0x80))%N in Hc |- * by lia.
  destruct (split_64 (((b0 - 0xF0) * 64 + (b1 - 0x80)) * 64 + (b2 - 0x80)) (b3 - 0x80) H3) as [D M].
  destruct (split_64 ((b0 - 0xF0) * 64 + (b1 - 0x80)) (b2 - 0x80) H2) as [D' M'].
  destruct (split_64 (b0 - 0xF0) (b1 - 0x80) H1) as [D'' M''].
  set (c := ((((b0 - 0xF0) * 64 + (b1 - 0x80)) * 64 + (b2 - 0x80)) * 64 + (b3 - 0x80))%N) in *.
  assert (c / 4096 = (b0 - 0xF0) * 64 + (b1 - 0x80))%N as D2.
  { change 4096%N with (64 * 64)%N. by rewrite <- N.Div0.div_div, D, D'. }
  assert (c / 262144 = b0 - 0xF0)%N as D3.
  { change 262144%N with (4096 * 64)%N. by rewrite <- N.Div0.div_div, D2, D''. }
  unfold encode_char. rewrite D3, D2, D, M, M', M''.
  assert ((c <? 0x80) = false)%N as -> by (apply N.ltb_ge; lia).
  assert ((c <? 0x800) = false)%N as -> by (apply N.ltb_ge; lia).
  assert ((c <? 0x10000) = false)%N as -> by (apply N.ltb_ge; lia).
  repeat f_equal; lia.
Qed.

Lemma as_bytes_from_utf8 bytes s : from_utf8 bytes = Some s -> as_bytes s = bytes.
Proof.
  remember (length bytes) as n eqn:Hn. revert bytes Hn s.
  induction n as [n IH] using lt_wf_ind. intros bytes -> s.
  assert (forall c rest tail, length tail < length bytes -> encode_char c ++ tail = bytes ->
    option_map (cons c) (from_utf8 tail) = Some rest -> as_bytes rest = bytes) as Hcons.
  { intros c rest tail Hlen He. destruct (from_utf8 tail) as [s'|] eqn:Es; [|done]. intros [= <-].
    unfold as_bytes. simpl. fold (as_bytes s'). by rewrite (IH _ Hlen tail eq_refl s' Es). }
  destruct bytes as [|b0 r0]; [by intros [= <-]|]. simpl.
  destruct (b0 <? 0x80)%N eqn:T0.
  { apply Hcons; [simpl; lia|]. unfold encode_char. by rewrite T0. }
  destruct r0 as [|b1 r1]; [done|]. destruct (continues b1) eqn:C1; simpl; [|done].
  destruct (in_range 0xC2 0xDF b0) eqn:R2; [apply Hcons; [simpl; lia|]; by rewrite encode_two|].
  destruct r1 as [|b2 r2]; [done|]. destruct (continues b2) eqn:C2; simpl; [|done].
  destruct (in_range 0xE0 0xEF b0) eqn:R3.
  { destruct (0x800 <=? _)%N eqn:L3; simpl; [|done]. destruct (scalar _); [|done]. bool_prop.
    apply Hcons; [simpl; lia|]. by rewrite encode_three. }
  destruct r2 as [|b3 r3]; [done|]. destruct (continues b3) eqn:C3; simpl; [|done].
  destruct (in_range 0xF0 0xF4 b0) eqn:R4; [|done].
  destruct (0x10000 <=? _)%N eqn:L4; simpl; [|done]. destruct (scalar _); [|done]. bool_prop.
  apply Hcons; [simpl; lia|]. by rewrite encode_four.
Qed.

(** ** Lossy conversion *)

Definition REPLACEMENT : char := 0xFFFD%N.

(** The second byte a lead byte of three or four bytes allows. *)
Definition second_ok (b0 b1 : N) : bool :=
  if (b0 =? 0xE0)%N then in_range 0xA0 0xBF b1
  else if (b0 =? 0xED)%N then in_range 0x80 0x9F b1
  else if (b0 =? 0xF0)%N then in_range 0x90 0xBF b1
  else if (b0 =? 0xF4)%N then in_range 0x80 0x8F b1
  else continues b1.

(** [String::from_utf8_lossy], [Path::to_string_lossy] and [Path::display] on Unix: the longest
    start of a character that is not continued becomes one replacement character. *)
Fixpoint from_utf8_lossy (bytes : list N) : str :=
  match bytes with
  | [] => []
  | b0 :: r0 =>
      if (b0 <? 0x80)%N then b0 :: from_utf8_lossy r0
      else if in_range 0xC2 0xDF b0 then
        match r0 with
        | b1 :: r1 =>
            if continues b1 then ((b0 - 0xC0) * 64 + (b1 - 0x80))%N :: from_utf8_lossy r1
            else REPLACEMENT :: from_utf8_lossy r0
        | [] => [REPLACEMENT]
        end
      else if in_range 0xE0 0xF4 b0 then
        match r0 with
        | b1 :: r1 =>
            if negb (second_ok b0 b1) then REPLACEMENT :: from_utf8_lossy r0
            else match r1 with
                 | b2 :: r2 =>
                     if negb (continues b2) then REPLACEMENT :: from_utf8_lossy r1
                     else if (b0 <? 0xF0)%N then
                       ((b0 - 0xE0) * 4096 + (b1 - 0x80) * 64 + (b2 - 0x80))%N :: from_utf8_lossy r2
                     else match r2 with
                          | b3 :: r3 =>
                              if continues b3 then
                                ((b0 - 0xF0) * 262144 + (b1 - 0x80) * 4096 + (b2 - 0x80) * 64
                                 + (b3 - 0x80))%N :: from_utf8_lossy r3
                              else REPLACEMENT :: from_utf8_lossy r2
                          | [] => [REPLACEMENT]
                          end
                 | [] => [REPLACEMENT]
                 end
        | [] => [REPLACEMENT]
        end
      else REPLACEMENT :: from_utf8_lossy r0
  end.
