(* ===== verification/WindowsPosix.v ===== *)
(** * Paths between Windows and MSYS2/Cygwin ([crates/mise-util/src/windows_posix.rs])

    The mount table of a POSIX runtime on Windows: built from the runtime's defaults and its
    [fstab] files, and used to map single paths and whole search paths both ways. The warnings
    about bad lines are left out. [Path::join] is that of a Windows host; verbatim and device
    prefixes of paths are not modelled. *)

From S2P Require Import Prelude RustStr Utf8.

(** ** Text helpers of the file *)

Abbreviation slash := c!"/" (only parsing).
Abbreviation backslash := 92%N (only parsing).

Definition is_separator (c : char) : bool := (c =? slash)%N || (c =? backslash)%N.

(** [str::get] of a range that starts at 0 *)
Fixpoint get_to (s : str) (n : nat) : option str :=
  match n, s with
  | 0, _ => Some []
  | _, [] => None
  | _, c :: s' => if len_utf8 c <=? n then option_map (cons c) (get_to s' (n - len_utf8 c)) else None
  end.

Definition strip_prefix_ascii (value prefix : str) : option str :=
  match get_to value (len prefix) with
  | Some head => if eq_ignore_ascii_case head prefix then Some (str_from value (len prefix)) else None
  | None => None
  end.

Definition eq_ascii (left right : str) : bool := eq_ignore_ascii_case left right.

(** The [while] loops that pop slashes from the end of a text longer than [keep] bytes; the text
    is given reversed. *)
Fixpoint pop_slashes (keep : nat) (rev : str) : str :=
  match rev with
  | c :: rev' => if (keep <? len rev) && (c =? slash)%N then pop_slashes keep rev' else rev
  | [] => []
  end.

Definition normalize_windows (path : str) : str :=
  reverse (pop_slashes 3 (reverse (replace_char backslash slash path))).

Definition normalize_posix (path : str) : str :=
  let normalized := replace_char backslash slash path in
  let normalized := if starts_with [slash] normalized then normalized else slash :: normalized in
  reverse (pop_slashes 1 (reverse normalized)).

Definition is_windows_absolute (path : str) : bool :=
  match path with
  | a :: b :: c :: _ => is_ascii_alphabetic a && (b =? c!":")%N && is_separator c
  | _ => false
  end
  || starts_with [slash; slash] path || starts_with [backslash; backslash] path.

Definition split_drive (path : str) : option (char * str) :=
  match path with
  | a :: b :: rest => if is_ascii_alphabetic a && (b =? c!":")%N then Some (a, rest) else None
  | _ => None
  end.

Definition prefix_matches (path prefix : str) : bool :=
  if bool_decide (prefix = [slash]) then starts_with [slash] path
  else match strip_prefix_ascii path prefix with
       | Some tail =>
           ends_with [slash] prefix || match tail with [] => true | _ => false end || starts_with [slash] tail
       | None => false
       end.

Definition ensure_leading_slash (tail : str) : str :=
  if starts_with [slash] tail then tail else slash :: tail.

Definition append_tail (base tail : str) : str :=
  match tail with
  | [] => base
  | _ => trim_end_matches (N.eqb slash) base ++ ensure_leading_slash tail
  end.

Definition append_windows_tail (base tail : str) : str :=
  let base := replace_char slash backslash base in
  match tail with
  | [] => base
  | _ => trim_end_matches (N.eqb backslash) base ++ replace_char slash backslash (ensure_leading_slash tail)
  end.

(** *** [Path::join] *)

(** The prefix of a path: a drive, or the server and share of a UNC path. *)
Definition windows_prefix (path : str) : str :=
  match split_drive path with
  | Some _ => take 2 path
  | None =>
      match path with
      | a :: b :: rest =>
          if is_separator a && is_separator b then
            let server := take_while (fun c => negb (is_separator c)) rest in
            match drop_while (fun c => negb (is_separator c)) rest with
            | c :: rest' =>
                let share := take_while (fun c => negb (is_separator c)) rest' in
                match server, share with
                | _ :: _, _ :: _ => a :: b :: server ++ c :: share
                | _, _ => []
                end
            | [] => []
            end
          else []
      | _ => []
      end
  end.

Definition path_join (root path : str) : str :=
  match windows_prefix path with
  | _ :: _ => path
  | [] =>
      match path with
      | c :: _ => if is_separator c then windows_prefix root ++ path
                  else match last root with
                       | Some l =>
                           if is_separator l || (bool_decide (windows_prefix root = root) && (len root =? 2))
                           then root ++ path else root ++ backslash :: path
                       | None => path
                       end
      | [] => match last root with
              | Some l =>
                  if is_separator l || (bool_decide (windows_prefix root = root) && (len root =? 2))
                  then root else root ++ [backslash]
              | None => []
              end
      end
  end.

(** ** The mount table *)

Inductive RuntimeKind : Type := Msys | Cygwin.

Record Mount := mkMount { windows : str; posix : str; precedence : nat }.

Record PathMapper := mkPathMapper {
  mounts : list Mount;
  cygdrive : str;
  user_temp : option str;
  next_precedence : nat
}.

Definition add_mount (m : PathMapper) (windows_path posix_path : str) : PathMapper :=
  let windows_path := normalize_windows windows_path in
  let posix_path := normalize_posix posix_path in
  if match windows_path with [] => true | _ => false end || negb (starts_with [slash] posix_path) then m
  else
    mkPathMapper
      (List.filter (fun mount => negb (eq_ascii mount.(posix) posix_path)) m.(mounts)
       ++ [mkMount windows_path posix_path m.(next_precedence)])
      m.(cygdrive) m.(user_temp) (S m.(next_precedence)).

Definition set_cygdrive (m : PathMapper) (prefix : str) : PathMapper :=
  mkPathMapper m.(mounts) prefix m.(user_temp) m.(next_precedence).
Definition set_user_temp (m : PathMapper) (temp : option str) : PathMapper :=
  mkPathMapper m.(mounts) m.(cygdrive) temp m.(next_precedence).

Definition PathMapper_new (kind : RuntimeKind) (root : str) (subsystem : option str) : PathMapper :=
  let mapper := mkPathMapper [] (match kind with Cygwin => u!"/cygdrive" | Msys => u!"/" end) None 0 in
  let mapper := add_mount mapper root u!"/" in
  let usr_dir := match kind with Cygwin => root | Msys => path_join root u!"usr" end in
  let mapper := match kind with
                | Msys => add_mount mapper (path_join usr_dir u!"bin") u!"/bin"
                | Cygwin => mapper
                end in
  let mapper := add_mount mapper (path_join usr_dir u!"bin") u!"/usr/bin" in
  let mapper := add_mount mapper (path_join usr_dir u!"lib") u!"/usr/lib" in
  match kind, subsystem with
  | Msys, Some subsystem =>
      if negb (eq_ignore_ascii_case subsystem u!"MSYS") then
        let subsystem := map to_ascii_lowercase subsystem in
        add_mount mapper (path_join root subsystem) (slash :: subsystem)
      else mapper
  | _, _ => mapper
  end.

(** [Iterator::max_by_key] with a pair of numbers as the key: the last of the largest. *)
Definition rank_le (a b : nat * nat) : bool := (a.1 <? b.1) || ((a.1 =? b.1) && (a.2 <=? b.2)).

Definition max_by_key {A} (key : A -> nat * nat) (l : list A) : option A :=
  fold_left (fun best x =>
    match best with
    | None => Some x
    | Some b => if rank_le (key b) (key x) then Some x else Some b
    end) l None.

Definition best_windows_mount (m : PathMapper) (path : str) : option Mount :=
  max_by_key (fun mount => (len mount.(windows), mount.(precedence)))
    (List.filter (fun mount => prefix_matches path mount.(windows)) m.(mounts)).

Definition best_posix_mount (m : PathMapper) (path : str) : option Mount :=
  max_by_key (fun mount => (len mount.(posix), mount.(precedence)))
    (List.filter (fun mount => prefix_matches path mount.(posix)) m.(mounts)).

Definition split_cygdrive (m : PathMapper) (path : str) : option (char * str) :=
  let rest :=
    match strip_prefix u!"/proc/cygdrive/" path with
    | Some rest => Some rest
    | None =>
        if bool_decide (m.(cygdrive) = [slash]) then strip_prefix [slash] path
        else match strip_prefix_ascii path (trim_end_matches (N.eqb slash) m.(cygdrive)) with
             | Some rest => strip_prefix [slash] rest
             | None => None
             end
    end in
  match rest with
  | Some (drive :: tail) =>
      if is_ascii_alphabetic drive && (match tail with [] => true | c :: _ => (c =? slash)%N end)
      then Some (drive, tail) else None
  | _ => None
  end.

Definition windows_to_posix (m : PathMapper) (input : str) : str :=
  if match input with [] => true | _ => false end || negb (is_windows_absolute input) then input
  else
    let normalized := normalize_windows input in
    match best_windows_mount m normalized with
    | Some mount => append_tail mount.(posix) (str_from normalized (len mount.(windows)))
    | None =>
        match split_drive normalized with
        | Some (drive, tail) =>
            let drive := to_ascii_lowercase drive in
            let base := if bool_decide (m.(cygdrive) = [slash]) then [slash; drive]
                        else trim_end_matches (N.eqb slash) m.(cygdrive) ++ [slash; drive] in
            append_tail base tail
        | None =>
            match strip_prefix [slash; slash] normalized with
            | Some tail => [slash; slash] ++ tail
            | None => input
            end
        end
    end.

Definition posix_to_windows (m : PathMapper) (input : str) : str :=
  if match input with [] => true | _ => false end || negb (starts_with [slash] input) then input
  else
    let normalized := normalize_posix input in
    let mounted mount := append_windows_tail mount.(windows) (str_from normalized (len mount.(posix))) in
    let rest :=
      match split_cygdrive m normalized with
      | Some (drive, tail) => append_windows_tail [to_ascii_uppercase drive; c!":"; backslash] tail
      | None =>
          if starts_with [slash; slash] normalized then replace_char slash backslash normalized
          else match best_posix_mount m normalized with
               | Some mount => mounted mount
               | None => input
               end
      end in
    match best_posix_mount m normalized with
    | Some mount => if bool_decide (mount.(posix) = [slash]) then rest else mounted mount
    | None => rest
    end.

(** ** [fstab] *)

Inductive FstabEntry : Type :=
| FstabMount (native target : str) (bind : bool)
| FstabCygdrive (prefix : str)
| FstabUsertemp (prefix : str).

Definition is_octal_digit (b : N) : bool := in_range c!"0" c!"7" b.

Definition field_text (field : list N) : result str str :=
  match from_utf8 field with
  | Some text => Ok text
  | None => Err u!"mount field is not UTF-8"
  end.

(** The field read so far is pushed when it is not empty. *)
Definition push_field (fields : list str) (field : list N) : result str (list str) :=
  match field with
  | [] => Ok fields
  | _ => let? text := field_text field in Ok (fields ++ [text])
  end.

(** The loop of [split_fstab_fields] over the bytes that are left. *)
Fixpoint split_fields_loop (bytes : list N) (fields : list str) (field : list N) : result str (list str) :=
  match bytes with
  | [] => push_field fields field
  | b :: rest =>
      if (b =? c!"#")%N && match field with [] => true | _ => false end then push_field fields field
      else if (b =? 32)%N || (b =? 9)%N then
        let? fields := push_field fields field in split_fields_loop rest fields []
      else if (b =? backslash)%N then
        match rest with
        | [] => Err u!"trailing escape"
        | x :: rest1 =>
            match rest1 with
            | y :: z :: rest3 =>
                if is_octal_digit x && is_octal_digit y && is_octal_digit z then
                  let value := ((x - c!"0") * 64 + (y - c!"0") * 8 + (z - c!"0"))%N in
                  if (value <? 256)%N then split_fields_loop rest3 fields (field ++ [value])
                  else Err u!"number too large to fit in target type"
                else split_fields_loop rest1 fields (field ++ [x])
            | _ => split_fields_loop rest1 fields (field ++ [x])
            end
        end
      else split_fields_loop rest fields (field ++ [b])
  end.

Definition split_fstab_fields (line : str) : result str (list str) :=
  split_fields_loop (as_bytes line) [] [].

Definition parse_fstab_line (line : str) : result str (option FstabEntry) :=
  let? fields := split_fstab_fields line in
  match fields with
  | [] => Ok None
  | source :: target :: fs_type :: more =>
      let options := match more with o :: _ => o | [] => [] end in
      if eq_ignore_ascii_case fs_type u!"usertemp" then
        if negb (starts_with [slash] target) then Err u!"usertemp mountpoint must be absolute"
        else Ok (Some (FstabUsertemp target))
      else if eq_ignore_ascii_case fs_type u!"cygdrive" then
        if negb (starts_with [slash] target) then Err u!"cygdrive prefix must be absolute"
        else Ok (Some (FstabCygdrive target))
      else if bool_decide (source = u!"none") then Ok None
      else if negb (starts_with [slash] target) then Err u!"mountpoint must be absolute"
      else Ok (Some (FstabMount source target
                       (existsb (fun o => bool_decide (o = u!"bind")) (split_on (N.eqb c!",") options))))
  | _ => Err u!"expected source, mountpoint, and filesystem type"
  end.

(** What one line of the file does; a line that cannot be used is ignored with a warning. *)
Definition apply_line (root : str) (m : PathMapper) (line : str) : PathMapper :=
  match parse_fstab_line line with
  | Ok None => m
  | Ok (Some (FstabCygdrive prefix)) => set_cygdrive m (normalize_posix prefix)
  | Ok (Some (FstabUsertemp prefix)) =>
      match m.(user_temp) with Some temp => add_mount m temp prefix | None => m end
  | Ok (Some (FstabMount native target bind)) =>
      let native :=
        if bind then posix_to_windows m native
        else if is_windows_absolute native then normalize_windows native
        else normalize_windows (path_join root native) in
      if negb (is_windows_absolute native) then m else add_mount m native target
  | Err _ | OutOfFuel => m
  end.

Definition apply_fstab (m : PathMapper) (contents root : str) : PathMapper :=
  fold_left (apply_line root) (lines contents) m.

(** ** Search paths *)

(** The loop of [split_posix_path_list], with the entry read so far. *)
Fixpoint split_list_loop (value entry : str) : list str :=
  match value with
  | [] => [entry]
  | ch :: rest =>
      if negb (ch =? c!":")%N then split_list_loop rest (entry ++ [ch])
      else if match entry with [d] => is_ascii_alphabetic d | _ => false end
              && match rest with c :: _ => is_separator c | [] => false end
      then split_list_loop rest (entry ++ [ch])
      else entry :: split_list_loop rest []
  end.

Definition split_posix_path_list (value : str) : list str := split_list_loop value [].

(** The loop of [windows_path_entries]. *)
Fixpoint entries_loop (value : str) (quoted : bool) (entry : str) : list str :=
  match value with
  | [] => [entry]
  | ch :: rest =>
      if (ch =? 34)%N then entries_loop rest (negb quoted) entry
      else if (ch =? c!";")%N && negb quoted then entry :: entries_loop rest quoted []
      else entries_loop rest quoted (entry ++ [ch])
  end.

Definition windows_path_entries (value : str) : list str := entries_loop value false [].

Definition non_empty (entry : str) : bool := match entry with [] => false | _ => true end.

Definition map_windows_path_list (m : PathMapper) (value : str) : str :=
  join u!":" (map (windows_to_posix m) (List.filter non_empty (windows_path_entries value))).

Definition map_windows_manpath (m : PathMapper) (value : str) : str :=
  join u!":" (map (fun entry => match entry with [] => [] | _ => windows_to_posix m entry end)
                (windows_path_entries value)).

Definition map_posix_path_list (m : PathMapper) (value : str) : str :=
  if contains_char c!";" value || (is_windows_absolute value && (length (split_posix_path_list value) =? 1))
  then value
  else join u!";" (map (posix_to_windows m) (split_posix_path_list value)).

(** The functions of the interface: they change nothing without an active mapper. *)
Definition executable_for_shell (active : option PathMapper) (value : str) : str :=
  match active with Some m => windows_to_posix m value | None => value end.
Definition windows_path_list_for_shell (active : option PathMapper) (value : str) : str :=
  match active with Some m => map_windows_path_list m value | None => value end.
Definition windows_manpath_for_shell (active : option PathMapper) (value : str) : str :=
  match active with Some m => map_windows_manpath m value | None => value end.
Definition orig_path_for_windows (active : option PathMapper) (value : str) : str :=
  match active with Some m => map_posix_path_list m value | None => value end.
Definition windows_path_entries_for_shell (split_paths : str -> list str) (active : option PathMapper)
  (value : str) : list str :=
  match active with
  | Some m => map (windows_to_posix m) (List.filter non_empty (windows_path_entries value))
  | None => split_paths value
  end.
