(* ===== verification/WindowsPosixSpec.v ===== *)
(** * Properties of the path translation

    The mount table stays well formed and the longest mount wins; drive paths, alone and in
    search paths, survive a round trip; escaped [fstab] fields are read back. *)

From Stdlib Require Import Sorted.
From S2P Require Import Prelude RustStr Utf8 WindowsPosix.

(** ** Definitions used by the statements *)

(** A mount as [add_mount] makes it. *)
Definition mount_ok (mount : Mount) : Prop :=
  mount.(windows) <> [] /\ normalize_windows mount.(windows) = mount.(windows) /\
  normalize_posix mount.(posix) = mount.(posix).

(** Later mounts have later precedences, and no two share a mountpoint, whatever the case. *)
Definition in_order (a b : Mount) : Prop :=
  a.(precedence) < b.(precedence) /\ eq_ascii a.(posix) b.(posix) = false.

Record mapper_ok (m : PathMapper) : Prop := {
  ok_mounts : Forall mount_ok m.(mounts);
  ok_order : StronglySorted in_order m.(mounts);
  ok_next : Forall (fun mount => mount.(precedence) < m.(next_precedence)) m.(mounts);
  ok_cygdrive : normalize_posix m.(cygdrive) = m.(cygdrive)
}.

(** A mapper as it is when the runtime is detected: the defaults, then each [fstab] in turn. *)
Definition detected (kind : RuntimeKind) (root : str) (subsystem temp : option str) (files : list str) : PathMapper :=
  fold_left (fun m contents => apply_fstab m contents root) files
    (set_user_temp (PathMapper_new kind root subsystem) temp).

(** [b] is better than [a] for a path: a longer prefix, or a later mount of the same length. *)
Definition outranked (prefix : Mount -> str) (a b : Mount) : Prop :=
  len (prefix a) < len (prefix b) \/ (len (prefix a) = len (prefix b) /\ a.(precedence) < b.(precedence)).

Definition chosen (mounts : list Mount) (prefix : Mount -> str) (path : str) (choice : option Mount) : Prop :=
  match choice with
  | Some b => b ∈ mounts /\ prefix_matches path (prefix b) = true /\
      forall a, a ∈ mounts -> prefix_matches path (prefix a) = true -> a = b \/ outranked prefix a b
  | None => forall a, a ∈ mounts -> prefix_matches path (prefix a) = false
  end.

(** [D:\tail], as Windows writes it. *)
Definition drive_path (drive : char) (tail : str) : str := [drive; c!":"; backslash] ++ tail.

Definition plain_tail (tail : str) : Prop :=
  contains_char slash tail = false /\ last tail <> Some backslash.

(** The drive path lies under no mount, on either side of the translation; only the mount of the
    runtime's root may cover what it is translated to. *)
Record unmounted (m : PathMapper) (path : str) : Prop := {
  un_windows : best_windows_mount m (normalize_windows path) = None;
  un_posix b : b ∈ m.(mounts) -> prefix_matches (normalize_posix (windows_to_posix m path)) b.(posix) = true ->
    b.(posix) = [slash]
}.

(** The drives are not mounted at or below [/proc/cygdrive], which is looked at first. *)
Definition cygdrive_ok (m : PathMapper) : Prop :=
  normalize_posix m.(cygdrive) = m.(cygdrive) /\
  starts_with u!"/proc/cygdrive/" (m.(cygdrive) ++ [slash]) = false.

(** The drives' mount point can stand in a search path. *)
Definition cygdrive_plain (m : PathMapper) : Prop :=
  contains_char c!":" m.(cygdrive) = false /\ contains_char c!";" m.(cygdrive) = false /\
  starts_with [slash; slash] m.(cygdrive) = false.

(** An entry of a Windows PATH that is a drive path. *)
Definition drive_entry (m : PathMapper) (entry : str) : Prop :=
  exists drive tail, entry = drive_path drive tail /\ is_ascii_uppercase drive = true /\ plain_tail tail /\
    contains_char c!":" tail = false /\ contains_char c!";" tail = false /\ contains_char 34%N tail = false /\
    unmounted m entry.

(** A byte as a backslash and three octal digits. *)
Definition octal (b : N) : list N := [backslash; c!"0" + b / 64; c!"0" + (b / 8) mod 8; c!"0" + b mod 8]%N.
Definition escape_field (field : str) : str := flat_map octal (as_bytes field).

(** ** Slashes at the end *)

Lemma len_reverse s : len (reverse s) = len s.
Proof. induction s as [|c s IH]; [done|]. rewrite reverse_cons, len_app, IH. simpl. lia. Qed.

Lemma pop_slashes_done keep rev : head rev <> Some slash -> pop_slashes keep rev = rev.
Proof.
  destruct rev as [|c rev]; [done|]. intros Hc. cbn [pop_slashes].
  destruct (c =? slash)%N eqn:E; [bool_prop; by subst|]. by rewrite andb_false_r.
Qed.

Lemma pop_slashes_short keep rev : len rev <= keep -> pop_slashes keep rev = rev.
Proof.
  destruct rev as [|c rev]; [done|]. intros Hc. cbn [pop_slashes].
  rewrite (proj2 (Nat.ltb_ge keep _)) by done. done.
Qed.

Lemma pop_slashes_fixed keep rev :
  pop_slashes keep rev = rev <-> head rev <> Some slash \/ len rev <= keep.
Proof.
  split.
  - destruct rev as [|c rev]; [by left|]. cbn [pop_slashes]. destruct (Nat.ltb_spec keep (len (c :: rev))); [|by right].
    destruct (c =? slash)%N eqn:E; cbn [andb]; [|left; intros [= ->]; by bool_prop].
    intros Hp. exfalso. apply (f_equal length) in Hp.
    assert (forall r, length (pop_slashes keep r) <= length r) as Hle.
    { clear. induction r as [|x r IH]; [done|]. cbn [pop_slashes]. destruct (_ && _); simpl; [lia|done]. }
    specialize (Hle rev). simpl in Hp. lia.
  - intros [?|?]; [by apply pop_slashes_done|by apply pop_slashes_short].
Qed.

Lemma pop_slashes_stable keep rev :
  head (pop_slashes keep rev) <> Some slash \/ len (pop_slashes keep rev) <= keep.
Proof.
  induction rev as [|c rev IH]; [by left|]. cbn [pop_slashes].
  destruct (Nat.ltb_spec keep (len (c :: rev))); cbn [andb]; [|by right].
  destruct (c =? slash)%N eqn:E; [done|]. left. intros [= ->]. by bool_prop.
Qed.

Lemma replace_replace a b s : a <> b -> replace_char a b (replace_char a b s) = replace_char a b s.
Proof.
  intros Hne. unfold replace_char. rewrite map_map. apply map_ext. intros c.
  destruct (c =? a)%N eqn:E; [|by rewrite E]. destruct (b =? a)%N eqn:E'; [done|done].
Qed.

Lemma replace_fixed a b s : contains_char a s = false -> replace_char a b s = s.
Proof.
  unfold contains_char, replace_char. induction s as [|c s IH]; [done|]. cbn [existsb map].
  intros [Hc Hs]%orb_false_iff. rewrite N.eqb_sym, Hc, IH; done.
Qed.

Lemma replace_none a b s : a <> b -> contains_char a (replace_char a b s) = false.
Proof.
  intros Hne. unfold contains_char, replace_char. induction s as [|c s IH]; [done|]. cbn [existsb map].
  rewrite IH, orb_false_r. destruct (c =? a)%N eqn:E; apply N.eqb_neq; [done|bool_prop; congruence].
Qed.

Lemma replace_back a b s : contains_char b s = false -> replace_char b a (replace_char a b s) = s.
Proof.
  unfold contains_char, replace_char. intros Hs. rewrite map_map. induction s as [|c s IH]; [done|].
  cbn [existsb] in Hs. apply orb_false_iff in Hs as [Hc Hs]. cbn [map]. rewrite (IH Hs). f_equal.
  destruct (c =? a)%N eqn:E; [rewrite N.eqb_refl; by bool_prop|]. by rewrite N.eqb_sym, Hc.
Qed.

Lemma contains_char_app c s t : contains_char c (s ++ t) = contains_char c s || contains_char c t.
Proof. unfold contains_char. apply existsb_app. Qed.

Lemma contains_char_in c s : contains_char c s = true <-> c ∈ s.
Proof.
  unfold contains_char. rewrite existsb_exists, list_elem_of_In. split.
  - intros (x & Hx & E). bool_prop. by subst.
  - intros Hc. exists c. by rewrite N.eqb_refl.
Qed.

Lemma contains_char_reverse c s : contains_char c (reverse s) = contains_char c s.
Proof.
  apply eq_true_iff_eq. rewrite !contains_char_in. split; intros Hc; [by apply elem_of_reverse|].
  by apply elem_of_reverse.
Qed.

Lemma pop_slashes_none keep c rev : contains_char c rev = false -> contains_char c (pop_slashes keep rev) = false.
Proof.
  induction rev as [|x rev IH]; [done|]. cbn [pop_slashes]. intros Hc. destruct (_ && _); [|done].
  apply IH. unfold contains_char in *. cbn [existsb] in Hc. by apply orb_false_iff in Hc as [_ ?].
Qed.

(** What is normalized stays as it is. *)
Lemma normalize_windows_idem path : normalize_windows (normalize_windows path) = normalize_windows path.
Proof.
  unfold normalize_windows at 1. rewrite replace_fixed.
  - unfold normalize_windows. rewrite reverse_involutive. f_equal. apply pop_slashes_fixed, pop_slashes_stable.
  - unfold normalize_windows. rewrite contains_char_reverse. apply pop_slashes_none.
    rewrite contains_char_reverse. by apply replace_none.
Qed.

Lemma starts_with_head c s : starts_with [c] s = true <-> head s = Some c.
Proof.
  rewrite starts_with_spec. destruct s as [|x s]; simpl; [naive_solver|]. split; [naive_solver|].
  intros [= ->]. by exists s.
Qed.

(** A slash at the front survives the popping at the end. *)
Lemma pop_slashes_front rev c : exists r, pop_slashes 1 (rev ++ [c]) = r ++ [c].
Proof.
  induction rev as [|x rev IH]; cbn [app pop_slashes].
  - exists []. destruct (_ && _) eqn:E; [|done]. exfalso. apply andb_true_iff in E as [E1 E2]. bool_prop. subst c.
    simpl in E1. lia.
  - destruct (_ && _); [done|]. by exists (x :: rev).
Qed.

Lemma normalize_posix_head path : head (normalize_posix path) = Some slash.
Proof.
  unfold normalize_posix. set (n := replace_char _ _ path). cbv zeta.
  set (s := if starts_with [slash] n then n else slash :: n).
  assert (exists t, s = slash :: t) as [t ->].
  { subst s. destruct (starts_with [slash] n) eqn:E; [|by eexists]. apply starts_with_spec in E as [t ->]. by exists t. }
  rewrite reverse_cons. destruct (pop_slashes_front (reverse t) slash) as [r ->].
  by rewrite reverse_app, reverse_singleton.
Qed.

Lemma normalize_posix_idem path : normalize_posix (normalize_posix path) = normalize_posix path.
Proof.
  pose proof (normalize_posix_head path) as Hh. apply starts_with_head in Hh.
  unfold normalize_posix at 1. rewrite replace_fixed.
  - cbv zeta. rewrite Hh. unfold normalize_posix. cbv zeta. rewrite reverse_involutive. f_equal.
    apply pop_slashes_fixed, pop_slashes_stable.
  - unfold normalize_posix. cbv zeta. rewrite contains_char_reverse. apply pop_slashes_none.
    rewrite contains_char_reverse. destruct (starts_with [slash] (replace_char 92%N 47%N path)); [by apply replace_none|].
    cbn [contains_char existsb]. by apply replace_none.
Qed.

(** ** The mount table *)

Lemma StronglySorted_filter {A} (R : A -> A -> Prop) (f : A -> bool) l :
  StronglySorted R l -> StronglySorted R (List.filter f l).
Proof.
  induction 1 as [|x l _ IH Hx]; cbn [List.filter]; [constructor|].
  destruct (f x); [|done]. constructor; [done|]. rewrite Forall_forall in *.
  intros y Hy. apply Hx. by apply list_elem_of_In, filter_In in Hy as [?%list_elem_of_In _].
Qed.

Lemma Forall_filter_bool {A} (P : A -> Prop) (f : A -> bool) l : Forall P l -> Forall P (List.filter f l).
Proof.
  rewrite !Forall_forall. intros Hl x Hx. apply Hl.
  by apply list_elem_of_In, filter_In in Hx as [?%list_elem_of_In _].
Qed.

Lemma StronglySorted_snoc {A} (R : A -> A -> Prop) l x :
  StronglySorted R l -> Forall (fun y => R y x) l -> StronglySorted R (l ++ [x]).
Proof.
  induction 1 as [|y l _ IH Hy]; intros Hx; cbn [app]; [repeat constructor|].
  inversion Hx; subst. constructor; [by apply IH|]. apply Forall_app. by repeat constructor.
Qed.

Lemma add_mount_ok m w p : mapper_ok m -> mapper_ok (add_mount m w p).
Proof.
  intros [Hm Ho Hn Hc]. unfold add_mount. cbv zeta.
  destruct (match normalize_windows w with [] => true | _ => false end) eqn:Ew; [done|].
  rewrite (proj2 (starts_with_head _ _) (normalize_posix_head p)). cbn [orb negb].
  constructor; cbn [mounts cygdrive next_precedence]; [| | |done].
  - apply Forall_app. split; [by apply Forall_filter_bool|]. constructor; [|constructor].
    split; [|by split; [apply normalize_windows_idem|apply normalize_posix_idem]].
    cbn [windows]. intros E. by rewrite E in Ew.
  - apply StronglySorted_snoc; [by apply StronglySorted_filter|]. rewrite Forall_forall in *.
    intros a Ha. apply list_elem_of_In, filter_In in Ha as [Ha%list_elem_of_In Hf]. split; cbn [precedence posix].
    + by apply Hn.
    + by apply negb_true_iff.
  - apply Forall_app. split; [|constructor; [cbn; lia|constructor]]. apply Forall_filter_bool.
    eapply Forall_impl; [exact Hn|]. cbn. intros a Ha. cbn in Ha. lia.
Qed.

Lemma apply_line_ok root m line : mapper_ok m -> mapper_ok (apply_line root m line).
Proof.
  intros Hm. unfold apply_line. destruct (parse_fstab_line line) as [[[native target bind|prefix|prefix]|]|e|]; try done.
  - cbv zeta. destruct (negb _); [done|by apply add_mount_ok].
  - destruct Hm. constructor; try done. cbn [cygdrive set_cygdrive]. apply normalize_posix_idem.
  - destruct (user_temp m); [by apply add_mount_ok|done].
Qed.

Lemma apply_fstab_ok m contents root : mapper_ok m -> mapper_ok (apply_fstab m contents root).
Proof.
  unfold apply_fstab. revert m. induction (lines contents) as [|line l IH]; intros m Hm; [done|].
  cbn [fold_left]. by apply IH, apply_line_ok.
Qed.

Lemma PathMapper_new_ok kind root subsystem : mapper_ok (PathMapper_new kind root subsystem).
Proof.
  assert (forall c, normalize_posix c = c -> mapper_ok (mkPathMapper [] c None 0)) as Hempty
    by (intros c Hc; constructor; [constructor..|exact Hc]).
  unfold PathMapper_new. cbv zeta.
  repeat match goal with
  | |- mapper_ok (match ?x with _ => _ end) => destruct x
  | |- mapper_ok (add_mount _ _ _) => apply add_mount_ok
  end; by apply Hempty.
Qed.

(** *** The choice of a mount *)

Lemma rank_le_total a b : rank_le a b = false -> rank_le b a = true.
Proof.
  unfold rank_le. intros Hf. apply orb_false_iff in Hf as [H1 H2]. bool_prop.
  apply andb_false_iff in H2. apply orb_true_iff. destruct (Nat.ltb_spec b.1 a.1); [by left|right].
  apply andb_true_iff. destruct H2 as [?|?]; bool_prop; [lia|]. split; [apply Nat.eqb_eq; lia|apply Nat.leb_le; lia].
Qed.

Lemma rank_le_trans a b c : rank_le a b = true -> rank_le b c = true -> rank_le a c = true.
Proof.
  unfold rank_le. rewrite !orb_true_iff, !andb_true_iff, !Nat.ltb_lt, !Nat.eqb_eq, !Nat.leb_le. lia.
Qed.

Lemma max_by_key_from {A} (key : A -> nat * nat) l best :
  exists b, fold_left (fun best x =>
      match best with None => Some x | Some b => if rank_le (key b) (key x) then Some x else Some b end) l (Some best) = Some b /\
    (b = best \/ b ∈ l) /\ rank_le (key best) (key b) = true /\ forall x, x ∈ l -> rank_le (key x) (key b) = true.
Proof.
  assert (forall a, rank_le (key a) (key a) = true) as Hrefl
    by (intros a; unfold rank_le; rewrite Nat.eqb_refl, Nat.leb_refl; apply orb_true_r).
  revert best. induction l as [|y l IH]; intros best; cbn [fold_left].
  - exists best. split; [done|]. split; [by left|]. split; [apply Hrefl|]. by intros x ?%elem_of_nil.
  - destruct (rank_le (key best) (key y)) eqn:E.
    + destruct (IH y) as (b & -> & Hin & Hle & Hall). exists b. split; [done|].
      split; [right; rewrite elem_of_cons; tauto|]. split; [by eapply rank_le_trans|].
      intros x [->|?]%elem_of_cons; [done|by apply Hall].
    + apply rank_le_total in E. destruct (IH best) as (b & -> & Hin & Hle & Hall). exists b. split; [done|].
      split; [rewrite elem_of_cons; tauto|]. split; [done|].
      intros x [->|?]%elem_of_cons; [by eapply rank_le_trans|by apply Hall].
Qed.

Lemma max_by_key_spec {A} (key : A -> nat * nat) l :
  match max_by_key key l with
  | Some b => b ∈ l /\ forall x, x ∈ l -> rank_le (key x) (key b) = true
  | None => l = []
  end.
Proof.
  unfold max_by_key. destruct l as [|y l]; [done|]. cbn [fold_left].
  destruct (max_by_key_from key l y) as (b & -> & Hin & Hle & Hall). split.
  - rewrite elem_of_cons. tauto.
  - intros x [->|?]%elem_of_cons; [done|by apply Hall].
Qed.

Lemma same_precedence l a b :
  StronglySorted in_order l -> a ∈ l -> b ∈ l -> a.(precedence) = b.(precedence) -> a = b.
Proof.
  induction 1 as [|x l _ IH Hx]; [by intros ?%elem_of_nil|]. rewrite Forall_forall in Hx.
  intros [->|Ha]%elem_of_cons [->|Hb]%elem_of_cons Hp; [done| | |by apply IH].
  - destruct (Hx b Hb). lia.
  - destruct (Hx a Ha). lia.
Qed.

Lemma chosen_max mounts prefix path :
  StronglySorted in_order mounts ->
  chosen mounts prefix path
    (max_by_key (fun mount => (len (prefix mount), mount.(precedence)))
       (List.filter (fun mount => prefix_matches path (prefix mount)) mounts)).
Proof.
  intros Hord. pose proof (max_by_key_spec (fun mount => (len (prefix mount), mount.(precedence)))
    (List.filter (fun mount => prefix_matches path (prefix mount)) mounts)) as Hmax.
  assert (forall a, a ∈ List.filter (fun mount => prefix_matches path (prefix mount)) mounts <->
            a ∈ mounts /\ prefix_matches path (prefix a) = true) as Hel
    by (intros a; by rewrite !list_elem_of_In, filter_In).
  destruct (max_by_key _ _) as [b|]; cbn [chosen].
  - destruct Hmax as [[Hb Hm]%Hel Hall]. split; [done|]. split; [done|]. intros a Ha Hma.
    specialize (Hall a (proj2 (Hel a) (conj Ha Hma))). unfold rank_le in Hall. cbn [fst snd] in Hall. unfold outranked.
    apply orb_true_iff in Hall as [?|?]; bool_prop; [by right; left|].
    destruct (decide (precedence a = precedence b)) as [Hp|Hp]; [left; by apply (same_precedence mounts)|].
    right. right. split; [done|lia].
  - intros a Ha. destruct (prefix_matches path (prefix a)) eqn:E; [|done].
    assert (a ∈ @nil Mount) as Hno by (rewrite <- Hmax; by apply Hel). by apply elem_of_nil in Hno.
Qed.

(** ** Drive paths *)

Lemma get_to_app s t : get_to (s ++ t) (len s) = Some s.
Proof.
  induction s as [|c s IH]; [by destruct t|]. cbn [app get_to len]. pose proof (len_utf8_pos c).
  destruct (len_utf8 c + len s) as [|n] eqn:E; [lia|]. rewrite <- E.
  rewrite (proj2 (Nat.leb_le _ _)) by lia. replace (len_utf8 c + len s - len_utf8 c) with (len s) by lia. by rewrite IH.
Qed.

Lemma strip_prefix_ascii_app s t : strip_prefix_ascii (s ++ t) s = Some t.
Proof. unfold strip_prefix_ascii. by rewrite get_to_app, eq_ignore_ascii_case_refl, str_from_app. Qed.

Lemma uppercase_facts d : is_ascii_uppercase d = true ->
  is_ascii_alphabetic d = true /\ is_ascii_alphabetic (to_ascii_lowercase d) = true /\
  to_ascii_uppercase (to_ascii_lowercase d) = d /\
  Forall (fun c => d <> c /\ to_ascii_lowercase d <> c) [slash; backslash; c!":"; c!";"; 34%N].
Proof.
  unfold is_ascii_alphabetic, to_ascii_uppercase, to_ascii_lowercase, is_ascii_uppercase, is_ascii_lowercase, in_range.
  intros Hd. rewrite Hd. bool_prop.
  decide_tests. repeat split; [cbn [andb]; lia|]. repeat (constructor; [split; lia|]). constructor.
Qed.

Lemma last_replace a b s : last (replace_char a b s) = option_map (fun c => if (c =? a)%N then b else c) (last s).
Proof. unfold replace_char. rewrite <- fmap_last. done. Qed.

Lemma head_reverse {A} (l : list A) : head (reverse l) = last l.
Proof. by rewrite <- (reverse_involutive l) at 2; rewrite last_reverse. Qed.

(** A nonempty tail does not end with a slash once its separators are replaced. *)
Lemma plain_tail_last tail :
  plain_tail tail -> last (replace_char backslash slash tail) <> Some slash.
Proof.
  intros [Hs Hl]. rewrite last_replace. destruct (last tail) as [c|] eqn:E; cbn; [|done].
  destruct (c =? backslash)%N eqn:Ec; [bool_prop; by subst|]. intros [= ->].
  apply last_Some in E as [l ->]. rewrite contains_char_app in Hs. apply orb_false_iff in Hs as [_ Hs]. done.
Qed.

Lemma normalize_drive d tail :
  is_ascii_uppercase d = true -> plain_tail tail ->
  normalize_windows (drive_path d tail) = [d; c!":"; slash] ++ replace_char backslash slash tail.
Proof.
  intros Hd Ht. destruct (uppercase_facts d Hd) as (_ & _ & _ & Hne). apply Forall_cons in Hne as [_ Hne].
  apply Forall_cons in Hne as [[Hb _] _]. unfold normalize_windows, drive_path.
  assert (replace_char backslash slash ([d; c!":"; backslash] ++ tail)
    = [d; c!":"; slash] ++ replace_char backslash slash tail) as ->
    by (unfold replace_char; cbn [app map]; by rewrite (proj2 (N.eqb_neq d _) Hb)).
  rewrite (proj2 (pop_slashes_fixed 3 _)); [by rewrite reverse_involutive|].
  rewrite head_reverse, len_reverse, last_app. pose proof (plain_tail_last tail Ht) as Hl.
  destruct tail as [|c tail].
  - right. cbn. rewrite len_utf8_ascii; [done|]. unfold is_ascii_uppercase, in_range in Hd. bool_prop. lia.
  - left. destruct (last (replace_char 92%N 47%N (c :: tail))) eqn:E; [done|].
    apply last_None in E. discriminate E.
Qed.

(** The part of the drives' mount point before [/d]. *)
Definition drive_base (m : PathMapper) : str := if bool_decide (m.(cygdrive) = [slash]) then [] else m.(cygdrive).

Lemma cygdrive_trim m :
  normalize_posix m.(cygdrive) = m.(cygdrive) -> m.(cygdrive) <> [slash] ->
  trim_end_matches (N.eqb slash) m.(cygdrive) = m.(cygdrive).
Proof.
  intros Hn Hne. unfold trim_end_matches. set (c := cygdrive m) in *.
  pose proof (normalize_posix_head c) as Hh. rewrite Hn in Hh.
  assert (head (reverse c) <> Some slash) as Hl.
  { pose proof (pop_slashes_stable 1 (reverse (if starts_with [slash] (replace_char backslash slash c)
        then replace_char backslash slash c else slash :: replace_char backslash slash c))) as Hs.
    rewrite <- (reverse_involutive (pop_slashes 1 _)) in Hs. fold (normalize_posix c) in Hs.
    change (reverse (pop_slashes 1 (reverse (if starts_with [slash] (replace_char backslash slash c)
        then replace_char backslash slash c else slash :: replace_char backslash slash c)))) with (normalize_posix c) in Hs.
    rewrite Hn in Hs. destruct Hs as [?|Hlen]; [done|]. exfalso. rewrite len_reverse in Hlen.
    destruct c as [|x [|y c]]; [done|injection Hh as ->; done|].
    cbn in Hlen. pose proof (len_utf8_pos x). pose proof (len_utf8_pos y). lia. }
  destruct (reverse c) as [|x r] eqn:E; [by apply (f_equal reverse) in E; rewrite reverse_involutive in E; rewrite E|].
  cbn [drop_while]. destruct (slash =? x)%N eqn:Ex; [bool_prop; by subst|]. by rewrite <- E, reverse_involutive.
Qed.

Lemma trim_end_keeps f s c : f c = false -> trim_end_matches f (s ++ [c]) = s ++ [c].
Proof.
  intros Hc. unfold trim_end_matches. rewrite reverse_app, reverse_singleton. cbn [app drop_while]. rewrite Hc.
  by rewrite reverse_cons, reverse_involutive.
Qed.

Lemma windows_to_posix_drive m d tail :
  is_ascii_uppercase d = true -> plain_tail tail -> normalize_posix m.(cygdrive) = m.(cygdrive) ->
  best_windows_mount m (normalize_windows (drive_path d tail)) = None ->
  windows_to_posix m (drive_path d tail) =
    drive_base m ++ [slash; to_ascii_lowercase d; slash] ++ replace_char backslash slash tail.
Proof.
  intros Hd Ht Hc Hb. destruct (uppercase_facts d Hd) as (Ha & Hal & _ & Hne).
  apply Forall_cons in Hne as [[_ Hsl] _].
  assert (is_windows_absolute (drive_path d tail) = true) as Habs
    by (unfold is_windows_absolute, drive_path; cbn [app]; by rewrite Ha).
  unfold windows_to_posix. cbv zeta. rewrite Habs, Hb, normalize_drive by done.
  cbn [drive_path app orb negb split_drive]. rewrite Ha. cbn [andb N.eqb Pos.eqb].
  unfold append_tail, ensure_leading_slash, drive_base. cbn [starts_with strip_prefix N.eqb Pos.eqb].
  assert ((slash =? to_ascii_lowercase d)%N = false) as Hf by (apply N.eqb_neq; congruence).
  case_bool_decide.
  - change [slash; to_ascii_lowercase d] with ([slash] ++ [to_ascii_lowercase d]).
    by rewrite trim_end_keeps.
  - rewrite cygdrive_trim by done.
    replace (m.(cygdrive) ++ [slash; to_ascii_lowercase d]) with ((m.(cygdrive) ++ [slash]) ++ [to_ascii_lowercase d])
      by (by rewrite <- app_assoc).
    rewrite trim_end_keeps by done. by rewrite <- !app_assoc.
Qed.

(** What a drive path is mapped to, without the slash of a drive's root. *)
Definition drive_tail (tail : str) : str :=
  match tail with [] => [] | _ => slash :: replace_char backslash slash tail end.

Lemma normalized_no_backslash path : contains_char backslash (normalize_posix path) = false.
Proof.
  unfold normalize_posix. cbv zeta. rewrite contains_char_reverse. apply pop_slashes_none.
  rewrite contains_char_reverse. destruct (starts_with [slash] (replace_char 92%N 47%N path)); [by apply replace_none|].
  cbn [contains_char existsb]. by apply replace_none.
Qed.

Lemma normalize_posix_drive m d tail :
  is_ascii_uppercase d = true -> plain_tail tail -> normalize_posix m.(cygdrive) = m.(cygdrive) ->
  normalize_posix (drive_base m ++ [slash; to_ascii_lowercase d; slash] ++ replace_char backslash slash tail) =
    drive_base m ++ [slash; to_ascii_lowercase d] ++ drive_tail tail.
Proof.
  intros Hd Ht Hc. destruct (uppercase_facts d Hd) as (_ & _ & _ & Hne).
  apply Forall_cons in Hne as [[_ Hsl] Hne]. apply Forall_cons in Hne as [[_ Hbs] _].
  assert (contains_char backslash (drive_base m) = false) as Hbase.
  { unfold drive_base. case_bool_decide; [done|]. rewrite <- Hc. apply normalized_no_backslash. }
  assert (head (drive_base m ++ [slash]) = Some slash) as Hhead.
  { unfold drive_base. case_bool_decide; [done|]. pose proof (normalize_posix_head (cygdrive m)) as Hh. rewrite Hc in Hh.
    by destruct (cygdrive m). }
  set (s := drive_base m ++ [slash; to_ascii_lowercase d; slash] ++ replace_char backslash slash tail).
  assert (replace_char backslash slash s = s) as Hrep.
  { apply replace_fixed. subst s. rewrite !contains_char_app, Hbase, (replace_none backslash slash tail) by done.
    unfold contains_char. cbn [existsb]. rewrite (proj2 (N.eqb_neq _ (to_ascii_lowercase d))) by congruence. done. }
  unfold normalize_posix. cbv zeta. rewrite Hrep.
  assert (starts_with [slash] s = true) as -> by (apply starts_with_head; subst s; by destruct (drive_base m)).
  subst s. pose proof (plain_tail_last tail Ht) as Hl. destruct tail as [|c tail].
  - cbn [replace_char map drive_tail]. rewrite !app_nil_r.
    replace (drive_base m ++ [slash; to_ascii_lowercase d; slash])
      with ((drive_base m ++ [slash; to_ascii_lowercase d]) ++ [slash]) by (by rewrite <- app_assoc).
    rewrite reverse_app, reverse_singleton. cbn [app pop_slashes].
    assert (1 < len (slash :: reverse (drive_base m ++ [slash; to_ascii_lowercase d]))) as Hlen.
    { cbn [len]. rewrite len_reverse, len_app. cbn [len]. pose proof (len_utf8_pos (to_ascii_lowercase d)). simpl. lia. }
    rewrite (proj2 (Nat.ltb_lt _ _)) by done. rewrite N.eqb_refl. cbn [andb].
    rewrite (proj2 (pop_slashes_fixed 1 _)); [by rewrite reverse_involutive|].
    left. rewrite head_reverse, last_app. cbn. congruence.
  - rewrite (proj2 (pop_slashes_fixed 1 _)); [rewrite reverse_involutive; done|].
    left. rewrite head_reverse, last_app.
    destruct (last ([slash; to_ascii_lowercase d; slash] ++ replace_char backslash slash (c :: tail))) eqn:E.
    + rewrite last_app in E. destruct (last (replace_char backslash slash (c :: tail))) eqn:E'; [congruence|].
      apply last_None in E'. discriminate E'.
    + apply last_None in E. discriminate E.
Qed.

Lemma proc_prefix c l u :
  head c = Some slash -> starts_with u!"/proc/cygdrive/" (c ++ [slash]) = false ->
  (u = [] \/ head u = Some slash) -> strip_prefix u!"/proc/cygdrive/" (c ++ [slash; l] ++ u) = None.
Proof.
  intros Hh Hno Hu. destruct (strip_prefix _ _) as [r|] eqn:E; [|done]. exfalso.
  apply strip_prefix_Some in E.
  replace (c ++ [slash; l] ++ u) with ((c ++ [slash]) ++ l :: u) in E by (by rewrite <- app_assoc).
  apply app_eq_app in E as (k & [[Ec _]|[Ep Eu]]).
  - assert (starts_with u!"/proc/cygdrive/" (c ++ [slash]) = true) by (apply starts_with_spec; by exists k). congruence.
  - destruct c as [|x c]; [done|]. clear Hh.
    do 15 (destruct c as [|? c]; [cbn in Ep; simplify_eq/=; destruct Hu as [Hu|Hu]; simplify_eq/=; done|]).
    cbn in Ep. simplify_eq.
Qed.

Lemma split_cygdrive_drive m d tail :
  is_ascii_uppercase d = true -> cygdrive_ok m ->
  split_cygdrive m (drive_base m ++ [slash; to_ascii_lowercase d] ++ drive_tail tail) =
    Some (to_ascii_lowercase d, drive_tail tail).
Proof.
  intros Hd [Hc Hproc]. destruct (uppercase_facts d Hd) as (_ & Ha & _ & _).
  assert (drive_tail tail = [] \/ head (drive_tail tail) = Some slash) as Htail by (destruct tail; [by left|by right]).
  assert (match drive_tail tail with [] => true | c :: _ => (c =? slash)%N end = true) as Hslash
    by (destruct Htail as [->|Hh]; [done|destruct (drive_tail tail); [done|injection Hh as ->; done]]).
  unfold split_cygdrive, drive_base. case_bool_decide as E.
  - cbn [app]. destruct (strip_prefix _ (slash :: to_ascii_lowercase d :: drive_tail tail)) as [r|] eqn:Es.
    + exfalso. apply strip_prefix_Some in Es. destruct Htail as [Ht|Ht]; [rewrite Ht in Es; discriminate Es|].
      destruct (drive_tail tail); [done|]. cbn in *. simplify_eq.
    + cbn [strip_prefix N.eqb Pos.eqb]. by rewrite Ha, Hslash.
  - rewrite proc_prefix; [|by rewrite <- Hc; apply normalize_posix_head|done|done].
    rewrite cygdrive_trim, strip_prefix_ascii_app by done. cbn [app strip_prefix N.eqb Pos.eqb]. by rewrite Ha, Hslash.
Qed.

Lemma drive_round_trip_lemma m d tail :
  is_ascii_uppercase d = true -> plain_tail tail -> cygdrive_ok m -> unmounted m (drive_path d tail) ->
  posix_to_windows m (windows_to_posix m (drive_path d tail)) = drive_path d tail.
Proof.
  intros Hd Ht Hcyg [Hw Hp]. pose proof Hcyg as [Hc _]. destruct (uppercase_facts d Hd) as (_ & _ & Hup & _).
  pose proof (windows_to_posix_drive m d tail Hd Ht Hc Hw) as Hwp. rewrite Hwp in *.
  pose proof (normalize_posix_drive m d tail Hd Ht Hc) as Hn.
  assert (starts_with [slash] (drive_base m ++ [slash; to_ascii_lowercase d; slash] ++ replace_char backslash slash tail) = true) as Hs.
  { apply starts_with_head. unfold drive_base. case_bool_decide; [done|].
    pose proof (normalize_posix_head (cygdrive m)) as Hh. rewrite Hc in Hh. by destruct (cygdrive m). }
  unfold posix_to_windows. cbv zeta. rewrite Hs, Hn in *. rewrite split_cygdrive_drive, Hup by done.
  assert (append_windows_tail [d; c!":"; backslash] (drive_tail tail) = drive_path d tail) as Happ.
  { assert (d <> slash) as Hds by (destruct (uppercase_facts d Hd) as (_ & _ & _ & Hne); by apply Forall_cons in Hne as [[? _] _]).
    unfold append_windows_tail. cbn [replace_char map]. rewrite (proj2 (N.eqb_neq d slash)) by done. cbn [N.eqb Pos.eqb].
    destruct tail as [|c tail]; [done|]. cbn [drive_tail]. unfold ensure_leading_slash. cbn [starts_with strip_prefix N.eqb Pos.eqb].
    change (slash :: replace_char backslash slash (c :: tail)) with ([slash] ++ replace_char backslash slash (c :: tail)).
    unfold replace_char at 1. rewrite map_app. fold (replace_char slash backslash (replace_char backslash slash (c :: tail))).
    rewrite replace_back by apply Ht. unfold trim_end_matches, drive_path. cbn. by destruct (92 =? d)%N. }
  destruct (drive_base m ++ [slash; to_ascii_lowercase d; slash] ++ replace_char backslash slash tail) eqn:E;
    [by apply app_nil in E as [_ ?]|]. cbn [orb negb].
  pose proof (max_by_key_spec (fun mount => (len mount.(posix), mount.(precedence)))
    (List.filter (fun mount => prefix_matches (drive_base m ++ [slash; to_ascii_lowercase d] ++ drive_tail tail) mount.(posix)) m.(mounts)))
    as Hmax.
  unfold best_posix_mount. destruct (max_by_key _ _) as [b|]; [|done].
  destruct Hmax as [Hb _]. apply list_elem_of_In, filter_In in Hb as [Hb%list_elem_of_In Hm].
  rewrite bool_decide_eq_true_2 by (by apply Hp). done.
Qed.

(** ** Search paths *)

Lemma entries_loop_plain s rest entry :
  contains_char 34%N s = false -> contains_char c!";" s = false ->
  entries_loop (s ++ rest) false entry = entries_loop rest false (entry ++ s).
Proof.
  unfold contains_char. revert entry. induction s as [|c s IH]; intros entry; [by rewrite app_nil_r|].
  cbn [existsb app entries_loop]. intros [Hq Hqs]%orb_false_iff [Hc Hcs]%orb_false_iff.
  rewrite (N.eqb_sym c 34), Hq, (N.eqb_sym c 59), Hc. cbn [andb]. rewrite IH by done. by rewrite <- app_assoc.
Qed.

Lemma entries_join entries :
  entries <> [] -> Forall (fun e => contains_char 34%N e = false /\ contains_char c!";" e = false) entries ->
  windows_path_entries (join u!";" entries) = entries.
Proof.
  unfold windows_path_entries. intros Hne Hall. destruct entries as [|e entries]; [done|]. clear Hne.
  revert e Hall. induction entries as [|e' entries IH]; intros e [[Hq Hc] Hall]%Forall_cons.
  - cbn [join]. rewrite <- (app_nil_r e) at 1. by rewrite entries_loop_plain.
  - change (join u!";" (e :: e' :: entries)) with (e ++ c!";" :: join u!";" (e' :: entries)).
    rewrite entries_loop_plain by done. cbn [app entries_loop N.eqb Pos.eqb andb negb]. f_equal. by apply IH.
Qed.

Lemma split_list_plain s rest entry :
  contains_char c!":" s = false -> split_list_loop (s ++ rest) entry = split_list_loop rest (entry ++ s).
Proof.
  unfold contains_char. revert entry. induction s as [|c s IH]; intros entry; [by rewrite app_nil_r|].
  cbn [existsb app split_list_loop]. intros [Hc Hcs]%orb_false_iff.
  rewrite N.eqb_sym in Hc. rewrite Hc. cbn [negb]. rewrite IH by done. by rewrite <- app_assoc.
Qed.

Lemma split_list_join entries :
  entries <> [] -> Forall (fun e => contains_char c!":" e = false /\ head e = Some slash) entries ->
  split_posix_path_list (join u!":" entries) = entries.
Proof.
  unfold split_posix_path_list. intros Hne Hall. destruct entries as [|e entries]; [done|]. clear Hne.
  revert e Hall. induction entries as [|e' entries IH]; intros e [[Hc Hh] Hall]%Forall_cons.
  - cbn [join]. rewrite <- (app_nil_r e) at 1. by rewrite split_list_plain.
  - change (join u!":" (e :: e' :: entries)) with (e ++ c!":" :: join u!":" (e' :: entries)).
    rewrite split_list_plain by done. cbn [app split_list_loop N.eqb Pos.eqb negb].
    assert (match e with [d] => is_ascii_alphabetic d | _ => false end = false) as ->
      by (destruct e as [|x [|y e]]; [done|injection Hh as ->; done|done]).
    cbn [andb]. f_equal. by apply IH.
Qed.

Lemma contains_replace c a b s : c <> b -> contains_char c s = false -> contains_char c (replace_char a b s) = false.
Proof.
  unfold contains_char, replace_char. intros Hne. induction s as [|x s IH]; [done|]. cbn [existsb map].
  intros [Hc Hs]%orb_false_iff. rewrite (IH Hs), orb_false_r. destruct (x =? a)%N; [by apply N.eqb_neq|done].
Qed.

Lemma rooted_not_windows c s : c <> slash -> is_windows_absolute (slash :: c :: s) = false.
Proof.
  intros Hc. unfold is_windows_absolute, starts_with. cbn [strip_prefix].
  rewrite (N.eqb_refl slash), (proj2 (N.eqb_neq slash c)) by congruence. by destruct s.
Qed.

(** What a drive entry is mapped to can be told apart in a POSIX search path. *)
Lemma drive_entry_posix m entry :
  drive_entry m entry -> cygdrive_ok m -> cygdrive_plain m ->
  contains_char c!":" (windows_to_posix m entry) = false /\ contains_char c!";" (windows_to_posix m entry) = false /\
  head (windows_to_posix m entry) = Some slash /\ is_windows_absolute (windows_to_posix m entry) = false.
Proof.
  intros (d & tail & -> & Hd & Ht & Hcol & Hsemi & _ & [Hw _]) [Hc _] (Hp1 & Hp2 & Hp3).
  rewrite (windows_to_posix_drive m d tail Hd Ht Hc Hw).
  destruct (uppercase_facts d Hd) as (_ & _ & _ & Hne).
  repeat (apply Forall_cons in Hne as [[_ ?] Hne]).
  assert (contains_char c!":" (drive_base m) = false /\ contains_char c!";" (drive_base m) = false) as [Hb1 Hb2]
    by (unfold drive_base; case_bool_decide; done).
  assert (forall c, c <> slash -> to_ascii_lowercase d <> c -> contains_char c [slash; to_ascii_lowercase d; slash] = false) as Hroot.
  { intros c Hs Hl. unfold contains_char. cbn [existsb]. by rewrite !(proj2 (N.eqb_neq c _)) by congruence. }
  rewrite !contains_char_app, Hb1, Hb2, !contains_replace, !Hroot by done.
  split; [done|]. split; [done|]. unfold drive_base. case_bool_decide as E.
  - split; [done|]. cbn [app]. apply rooted_not_windows. congruence.
  - pose proof (normalize_posix_head (cygdrive m)) as Hh. rewrite Hc in Hh.
    destruct (cygdrive m) as [|x [|y c]] eqn:Ec; [done|injection Hh as ->; by destruct E|]. injection Hh as ->.
    split; [done|]. cbn [app]. apply rooted_not_windows. intros ->. discriminate Hp3.
Qed.

Lemma join_prefix sep e entries : exists r, join sep (e :: entries) = e ++ r.
Proof. destruct entries as [|e' entries]; [exists []; by rewrite app_nil_r|]. by eexists. Qed.

Lemma contains_join c sep entries :
  contains_char c sep = false -> Forall (fun e => contains_char c e = false) entries ->
  contains_char c (join sep entries) = false.
Proof.
  intros Hs. induction entries as [|e [|e' entries] IH]; intros Hall; [done|by apply Forall_cons in Hall as [? _]|].
  change (join sep (e :: e' :: entries)) with (e ++ sep ++ join sep (e' :: entries)).
  apply Forall_cons in Hall as [He Hall]. by rewrite !contains_char_app, He, Hs, IH.
Qed.

(** ** Escaped fields *)

Lemma octal_digit d : (d < 8)%N -> is_octal_digit (c!"0" + d) = true.
Proof. intros Hd. unfold is_octal_digit, in_range. by decide_tests. Qed.

Lemma split_fields_octal bytes rest fields field :
  Forall (fun b => b < 256)%N bytes ->
  split_fields_loop (flat_map octal bytes ++ rest) fields field = split_fields_loop rest fields (field ++ bytes).
Proof.
  intros Hall. revert field. induction Hall as [|b bytes Hb _ IH]; intros field; [by rewrite app_nil_r|].
  assert (b / 64 < 8)%N as H1 by (apply N.Div0.div_lt_upper_bound; lia).
  pose proof (N.mod_lt (b / 8) 8 ltac:(lia)) as H2. pose proof (N.mod_lt b 8 ltac:(lia)) as H3.
  change (flat_map octal (b :: bytes)) with (octal b ++ flat_map octal bytes).
  rewrite <- app_assoc. unfold octal at 1. cbn [app]. cbn [split_fields_loop]. cbn [N.eqb Pos.eqb andb orb].
  rewrite !octal_digit by done. cbn [andb]. cbv zeta.
  replace ((48 + b / 64 - 48) * 64 + (48 + (b / 8) mod 8 - 48) * 8 + (48 + b mod 8 - 48))%N with b.
  - rewrite (proj2 (N.ltb_lt _ _)) by done. rewrite IH. by rewrite <- app_assoc.
  - pose proof (N.div_mod b 8 ltac:(lia)). pose proof (N.div_mod (b / 8) 8 ltac:(lia)) as Hd.
    assert (b / 8 / 8 = b / 64)%N as E by (rewrite N.Div0.div_div; done). rewrite E in Hd.
    generalize dependent (b / 64)%N. generalize dependent ((b / 8) mod 8)%N. generalize dependent (b mod 8)%N.
    generalize dependent (b / 8)%N. intros. lia.
Qed.

Lemma as_bytes_range s : forallb scalar s = true -> Forall (fun b => b < 256)%N (as_bytes s).
Proof.
  induction s as [|c s IH]; [constructor|]. cbn [forallb]. intros [Hc Hs]%andb_true_iff.
  unfold as_bytes in *. cbn [flat_map]. apply Forall_app. split; [|by apply IH].
  destruct (encode_char_range c) as [Hr|?]; [|congruence]. rewrite forallb_forall in Hr. apply Forall_forall.
  intros b Hb%list_elem_of_In%Hr. by bool_prop.
Qed.

Lemma encode_char_nonempty c : encode_char c <> [].
Proof. unfold encode_char. repeat case_match; done. Qed.

Lemma push_field_bytes fields f :
  f <> [] -> forallb scalar f = true -> push_field fields (as_bytes f) = Ok (fields ++ [f]).
Proof.
  intros Hne Hs. unfold push_field, field_text. rewrite from_utf8_as_bytes by done.
  destruct f as [|c f]; [done|]. unfold as_bytes. cbn [flat_map].
  destruct (encode_char c) eqn:E; [by apply encode_char_nonempty in E|]. done.
Qed.

Lemma octal_ascii bytes :
  Forall (fun b => b < 256)%N bytes -> forallb (fun c => (c <? 0x80)%N) (flat_map octal bytes) = true.
Proof.
  induction 1 as [|b bytes Hb _ IH]; [done|]. cbn [flat_map]. rewrite forallb_app, IH, andb_true_r.
  assert (b / 64 < 8)%N by (apply N.Div0.div_lt_upper_bound; lia).
  pose proof (N.mod_lt (b / 8) 8 ltac:(lia)). pose proof (N.mod_lt b 8 ltac:(lia)).
  unfold octal. cbn [forallb]. by decide_tests.
Qed.

Lemma split_fields_join fields done_fields :
  Forall (fun f => f <> [] /\ forallb scalar f = true) fields ->
  split_fields_loop (join u!" " (map escape_field fields)) done_fields [] = Ok (done_fields ++ fields).
Proof.
  intros Hall. revert done_fields. induction Hall as [|f fields [Hne Hs] Hall IH]; intros done_fields.
  - cbn. by rewrite app_nil_r.
  - pose proof (as_bytes_range f Hs) as Hr. destruct fields as [|f' fields].
    + cbn [map join]. unfold escape_field. rewrite <- (app_nil_r (flat_map _ _)), split_fields_octal by done.
      cbn [split_fields_loop app]. by apply push_field_bytes.
    + change (join u!" " (map escape_field (f :: f' :: fields)))
        with (escape_field f ++ 32%N :: join u!" " (map escape_field (f' :: fields))).
      unfold escape_field at 1. rewrite split_fields_octal by done. cbn [app].
      set (rest := join _ _) in *. cbn [split_fields_loop]. cbn [N.eqb Pos.eqb andb orb].
      rewrite push_field_bytes by done. cbn [rbind]. rewrite IH. by rewrite <- app_assoc.
Qed.

(** ** The properties *)

(** The mount table. However a mapper comes about - the defaults of a runtime at any root, then any
    [fstab] files - its mounts are normalized, in order of precedence and no two of them share a
    mountpoint; and both translations use the mount with the longest matching prefix, the latest of
    them when there are several. *)
Theorem mount_table kind root subsystem temp files path :
  let m := detected kind root subsystem temp files in
  mapper_ok m /\ chosen m.(mounts) windows path (best_windows_mount m path)
  /\ chosen m.(mounts) posix path (best_posix_mount m path).
Proof.
  intros m. assert (mapper_ok m) as Hm.
  { subst m. unfold detected.
    assert (mapper_ok (set_user_temp (PathMapper_new kind root subsystem) temp)) as Hnew
      by (destruct (PathMapper_new_ok kind root subsystem); by constructor).
    revert Hnew. generalize (set_user_temp (PathMapper_new kind root subsystem) temp).
    induction files as [|f files IH]; intros m0 Hm0; cbn [fold_left]; [done|]. by apply IH, apply_fstab_ok. }
  split; [done|]. split; apply chosen_max; by destruct Hm.
Qed.

(** Drives: a drive path that lies under no mount is mapped to a POSIX path and back to itself,
    byte for byte, wherever the runtime mounts the drives. *)
Theorem drive_round_trip m drive tail :
  is_ascii_uppercase drive = true -> plain_tail tail -> cygdrive_ok m -> unmounted m (drive_path drive tail) ->
  posix_to_windows m (windows_to_posix m (drive_path drive tail)) = drive_path drive tail.
Proof. apply drive_round_trip_lemma. Qed.

Lemma unmounted_by_search m path :
  best_windows_mount m (normalize_windows path) = None ->
  forallb (fun b => negb (prefix_matches (normalize_posix (windows_to_posix m path)) b.(posix))
                    || bool_decide (b.(posix) = [slash])) m.(mounts) = true ->
  unmounted m path.
Proof.
  intros Hw Hp. split; [done|]. intros b Hb Hm. rewrite forallb_forall in Hp.
  apply list_elem_of_In in Hb. specialize (Hp b Hb). rewrite Hm in Hp. cbn [negb orb] in Hp. by bool_prop.
Qed.

Definition sample_mapper : PathMapper :=
  detected Msys u!"C:\Program Files\Git" (Some u!"MINGW64") None [u!"D:/SDK\040Files /opt/sdk ntfs binary 0 0"].


(** Search paths of drives survive the round trip too: a Windows PATH of such entries is mapped to
    a POSIX one and back to itself. *)
Theorem drive_list_round_trip m entries :
  entries <> [] -> Forall (drive_entry m) entries -> cygdrive_ok m -> cygdrive_plain m ->
  map_posix_path_list m (map_windows_path_list m (join u!";" entries)) = join u!";" entries.
Proof.
  intros Hne Hall Hc Hp. unfold map_windows_path_list. rewrite entries_join; [|done|].
  2: { eapply Forall_impl; [exact Hall|]. intros e (d & tail & -> & Hd & _ & _ & Hs & Hq & _).
       destruct (uppercase_facts d Hd) as (_ & _ & _ & Hn). repeat (apply Forall_cons in Hn as [[? _] Hn]).
       unfold drive_path. rewrite !contains_char_app, Hs, Hq. unfold contains_char. cbn [existsb].
       by rewrite !(proj2 (N.eqb_neq _ d)) by congruence. }
  assert (List.filter non_empty entries = entries) as ->.
  { clear Hne. induction Hall as [|e l (d & tail & -> & _) _ IH]; [done|]. cbn. by rewrite IH. }
  assert (Forall (fun e => contains_char c!":" e = false /\ head e = Some slash) (map (windows_to_posix m) entries)) as Hpos.
  { apply Forall_map. eapply Forall_impl; [exact Hall|]. intros e He. cbn.
    by destruct (drive_entry_posix m e He Hc Hp) as (? & _ & ? & _). }
  unfold map_posix_path_list.
  rewrite contains_join; [|done|apply Forall_map; eapply Forall_impl; [exact Hall|]; intros e He; cbn;
    by destruct (drive_entry_posix m e He Hc Hp) as (_ & ? & _)].
  cbn [orb]. rewrite split_list_join; [|by destruct entries|done].
  assert (is_windows_absolute (join u!":" (map (windows_to_posix m) entries)) && (length (map (windows_to_posix m) entries) =? 1) = false) as ->.
  { destruct entries as [|e [|e' entries]]; [done| |by rewrite andb_false_r]. apply Forall_cons in Hall as [He _].
    cbn [map join]. by destruct (drive_entry_posix m e He Hc Hp) as (_ & _ & _ & ->). }
  f_equal. rewrite map_map. clear Hne Hpos. induction Hall as [|e l (d & tail & -> & Hd & Ht & _ & _ & _ & Hu) _ IH]; [done|].
  cbn [map]. by rewrite drive_round_trip_lemma, IH.
Qed.

Lemma drive_list_round_trip_example :
  map_posix_path_list sample_mapper (map_windows_path_list sample_mapper u!"D:\Tools\bin;E:\") = u!"D:\Tools\bin;E:\"
  /\ map_windows_path_list sample_mapper u!"D:\Tools\bin;E:\" = u!"/d/Tools/bin:/e/".
Proof.
  split; [|vm_compute; reflexivity].
  apply (drive_list_round_trip sample_mapper [u!"D:\Tools\bin"; u!"E:\"]).
  - discriminate.
  - repeat constructor; [exists c!"D", u!"Tools\bin"|exists c!"E", []]; (repeat split; try reflexivity; try discriminate);
      intros b Hb Hm; assert (forallb (fun b => negb (prefix_matches (normalize_posix (windows_to_posix sample_mapper
        ltac:(lazymatch type of Hm with context [windows_to_posix _ ?p] => exact p end))) b.(posix))
        || bool_decide (b.(posix) = [slash])) sample_mapper.(mounts) = true) as Hp by (vm_compute; reflexivity);
      rewrite forallb_forall in Hp; apply list_elem_of_In in Hb; specialize (Hp b Hb); rewrite Hm in Hp;
      cbn [negb orb] in Hp; by bool_prop.
  - split; vm_compute; reflexivity.
  - repeat split; vm_compute; reflexivity.
Defined.

(** [fstab] fields written with octal escapes, separated by blanks, are read back, whatever
    characters they hold. *)
Theorem fstab_fields_round_trip fields :
  Forall (fun f => f <> [] /\ forallb scalar f = true) fields ->
  split_fstab_fields (join u!" " (map escape_field fields)) = Ok fields.
Proof.
  intros Hall. unfold split_fstab_fields. rewrite as_bytes_ascii; [by apply (split_fields_join fields [])|].
  induction Hall as [|f fields [_ Hs] Hall IH]; [done|].
  pose proof (octal_ascii _ (as_bytes_range f Hs)) as Ho. destruct fields as [|f' fields]; [done|].
  change (join u!" " (map escape_field (f :: f' :: fields)))
    with (escape_field f ++ [32%N] ++ join u!" " (map escape_field (f' :: fields))).
  rewrite !forallb_app, IH. unfold escape_field at 1. by rewrite Ho.
Qed.

Lemma fstab_fields_round_trip_example :
  split_fstab_fields (join u!" " (map escape_field [u!"D:/SDK Files"; c!"/" :: [0xE9%N; 0x20AC%N; 0x1F600%N]]))
    = Ok [u!"D:/SDK Files"; c!"/" :: [0xE9%N; 0x20AC%N; 0x1F600%N]].
Proof.
  apply (fstab_fields_round_trip [u!"D:/SDK Files"; c!"/" :: [0xE9%N; 0x20AC%N; 0x1F600%N]]).
  repeat constructor; discriminate.
Defined.
