(* ===== verification/Wildcard.v ===== *)
(** * Wildcards ([crates/mise-util/src/wildcard.rs])

    The matcher walks both texts with indices and returns to the last star when it is stuck. It
    is compared with the meaning of a pattern: [*] stands for any text and [?] for one
    character. *)

From S2P Require Import Prelude RustStr.

Abbreviation star := c!"*" (only parsing).
Abbreviation question := c!"?" (only parsing).

(** ** The code *)

Record Wildcard := mkWildcard { patterns : list str }.

Definition Wildcard_new (patterns : list str) : Wildcard := mkWildcard patterns.

(** The variables of [wildcard_match]. *)
Record Walk := mkWalk {
  input_idx : nat;
  wildcard_idx : nat;
  star_idx : option nat;
  star_input_idx : nat
}.

(** One round of the loop; none is [return false]. *)
Definition round (input_chars wildcard_chars : str) (w : Walk) : option Walk :=
  let at_wildcard := wildcard_chars !! w.(wildcard_idx) in
  if match at_wildcard with
     | Some p => (p =? question)%N || bool_decide (input_chars !! w.(input_idx) = Some p)
     | None => false
     end
  then Some (mkWalk (S w.(input_idx)) (S w.(wildcard_idx)) w.(star_idx) w.(star_input_idx))
  else if match at_wildcard with Some p => (p =? star)%N | None => false end
  then Some (mkWalk w.(input_idx) (S w.(wildcard_idx)) (Some w.(wildcard_idx)) w.(input_idx))
  else match w.(star_idx) with
       | Some idx => Some (mkWalk (S w.(star_input_idx)) (S idx) (Some idx) (S w.(star_input_idx)))
       | None => None
       end.

(** The loop over the input: the wildcard index it ends with, or false. *)
Fixpoint walk (fuel : nat) (input_chars wildcard_chars : str) (w : Walk) : result unit (option nat) :=
  match fuel with
  | 0 => OutOfFuel
  | S fuel =>
      if w.(input_idx) <? length input_chars then
        match round input_chars wildcard_chars w with
        | Some w => walk fuel input_chars wildcard_chars w
        | None => Ok None
        end
      else Ok (Some w.(wildcard_idx))
  end.

(** The loop over the stars that are left. *)
Fixpoint skip_stars (rest : str) : str :=
  match rest with
  | c :: rest' => if (c =? star)%N then skip_stars rest' else rest
  | [] => []
  end.

(** A round goes on in the pattern, or returns to a star that takes one more character. *)
Definition walk_fuel (input wildcard : str) : nat :=
  S (length input) * S (S (length wildcard)).

Definition wildcard_match (input wildcard : str) : result unit bool :=
  let? last := walk (walk_fuel input wildcard) input wildcard (mkWalk 0 0 None 0) in
  Ok (match last with
      | Some wildcard_idx => match skip_stars (drop wildcard_idx wildcard) with [] => true | _ => false end
      | None => false
      end).

Fixpoint match_any_loop (patterns : list str) (input : str) : result unit bool :=
  match patterns with
  | [] => Ok false
  | pattern :: patterns' =>
      let? matches := wildcard_match input pattern in
      if matches then Ok true else match_any_loop patterns' input
  end.

Definition match_any (w : Wildcard) (input : str) : result unit bool := match_any_loop w.(patterns) input.

(** ** The meaning of a pattern *)

Inductive Glob : str -> str -> Prop :=
| glob_end : Glob [] []
| glob_star p s t : Glob p t -> Glob (star :: p) (s ++ t)
| glob_question p c s : Glob p s -> Glob (question :: p) (c :: s)
| glob_char p c s : c <> star -> Glob p s -> Glob (c :: p) (c :: s).

(** Where the walk is. *)
Record Walks (input pattern : str) (w : Walk) : Prop := {
  wk_input : w.(input_idx) <= length input;
  wk_pattern : w.(wildcard_idx) <= length pattern;
  wk_star : match w.(star_idx) with
    | None => True
    | Some idx =>
        pattern !! idx = Some star /\ idx < w.(wildcard_idx) /\
        w.(input_idx) = w.(star_input_idx) + (w.(wildcard_idx) - S idx)
    end
}.

(** The part of the pattern walked since the last star. *)
Definition segment (pattern : str) (w : Walk) : str :=
  match w.(star_idx) with
  | None => []
  | Some idx => take (w.(wildcard_idx) - S idx) (drop (S idx) pattern)
  end.

(** Whether the input matches, as seen from the walk: from here, or from a later return. *)
Definition matches_from (input pattern : str) (w : Walk) : Prop :=
  Glob (drop w.(wildcard_idx) pattern) (drop w.(input_idx) input) \/
  match w.(star_idx) with
  | None => False
  | Some idx => exists k, w.(star_input_idx) < k <= length input /\ Glob (drop (S idx) pattern) (drop k input)
  end.

(** ** Lemmas *)

Lemma glob_nil_inv s : Glob [] s -> s = [].
Proof. by inversion 1. Qed.

Lemma glob_star_inv p s : Glob (star :: p) s -> exists k, k <= length s /\ Glob p (drop k s).
Proof.
  inversion 1 as [|? s1 t Ht|? ? ? ? E|? ? ? Hne]; subst; [|done].
  exists (length s1). rewrite length_app, drop_app_length. split; [lia|done].
Qed.

Lemma glob_star_intro p s k : Glob p (drop k s) -> Glob (star :: p) s.
Proof. intros Hg. rewrite <- (take_drop k s). by constructor. Qed.

Lemma glob_char_inv p c s : c <> star -> c <> question -> Glob (c :: p) s -> exists s', s = c :: s' /\ Glob p s'.
Proof. intros Hs Hq. inversion 1; subst; try done. by eexists. Qed.

Lemma glob_question_inv p s : Glob (question :: p) s -> exists c s', s = c :: s' /\ Glob p s'.
Proof. inversion 1; subst; eauto. Qed.

(** A part of a pattern without a star stands for as many characters. *)
Lemma glob_segment q p s : star ∉ q -> Glob (q ++ p) s -> length q <= length s /\ Glob p (drop (length q) s).
Proof.
  revert s. induction q as [|c q IH]; intros s Hq Hg; cbn [app length] in *; [by rewrite drop_0; split; [lia|]|].
  apply not_elem_of_cons in Hq as [Hc Hq].
  assert (exists x s', s = x :: s' /\ Glob (q ++ p) s') as (x & s' & -> & Hg').
  { destruct (decide (c = question)) as [->|Hne]; [by apply glob_question_inv in Hg|].
    apply glob_char_inv in Hg as (s' & -> & ?); eauto. }
  destruct (IH s' Hq Hg'). cbn [length drop]. split; [lia|done].
Qed.

Lemma skip_stars_spec p : skip_stars p = [] <-> Glob p [].
Proof.
  induction p as [|c p IH]; cbn [skip_stars]; [by split; [constructor|]|].
  destruct (c =? star)%N eqn:E; bool_prop.
  - subst c. rewrite IH. split; [intros Hg; by apply (glob_star_intro p [] 0)|].
    intros Hg. apply glob_star_inv in Hg as (k & _ & Hg). by rewrite drop_nil in Hg.
  - split; [done|]. inversion 1 as [|? s1 t Ht E1 E2| |]; subst; done.
Qed.

(** What is left to do: returns, then steps in the pattern. *)
Definition rank (input pattern : str) (w : Walk) : nat :=
  (length input - match w.(star_idx) with Some _ => w.(star_input_idx) | None => 0 end) * S (S (length pattern))
  + (length pattern - w.(wildcard_idx)).

Lemma segment_split pattern w idx :
  w.(star_idx) = Some idx -> idx < w.(wildcard_idx) ->
  drop (S idx) pattern = segment pattern w ++ drop w.(wildcard_idx) pattern.
Proof.
  intros Hs Hlt. unfold segment. rewrite Hs. rewrite <- (take_drop (wildcard_idx w - S idx) (drop (S idx) pattern)) at 1.
  f_equal. rewrite drop_drop. f_equal. lia.
Qed.

Lemma segment_length pattern w idx :
  w.(star_idx) = Some idx -> w.(wildcard_idx) <= length pattern ->
  length (segment pattern w) = w.(wildcard_idx) - S idx.
Proof. intros Hs Hle. unfold segment. rewrite Hs, length_take, length_drop. lia. Qed.

(** A return found later in the input also lets the walk match from the current place of the pattern. *)
Lemma later_return input pattern w idx k :
  Walks input pattern w -> star ∉ segment pattern w -> w.(star_idx) = Some idx ->
  w.(star_input_idx) < k <= length input -> Glob (drop (S idx) pattern) (drop k input) ->
  exists m, w.(input_idx) < m <= length input /\ Glob (drop w.(wildcard_idx) pattern) (drop m input).
Proof.
  intros [Hi Hw Hst] Hseg Hs Hk Hg. rewrite Hs in Hst. destruct Hst as (_ & Hlt & Heq).
  rewrite (segment_split pattern w idx Hs Hlt) in Hg. apply glob_segment in Hg as [Hlen Hg]; [|done].
  rewrite drop_drop in Hg. rewrite length_drop in Hlen. pose proof (segment_length pattern w idx Hs Hw) as Hl.
  exists (k + length (segment pattern w)). split; [lia|done].
Qed.

(** A character of the pattern that is taken as it is. *)
Lemma glob_step p c pattern input :
  p = question \/ c = p -> c <> star -> Glob (p :: pattern) (c :: input) <-> Glob pattern input.
Proof.
  intros Hp Hc. assert (p <> star) as Hps by (destruct Hp; congruence). split.
  - destruct (decide (p = question)) as [->|Hq].
    + by intros (? & ? & [= <- <-] & ?)%glob_question_inv.
    + intros Hg. apply glob_char_inv in Hg as (? & [= <- ->] & ?); done.
  - intros Hg. destruct Hp as [->| ->]; [by constructor|by constructor].
Qed.

(** When no character fits, the input does not match from here. *)
Lemma stuck_no_glob pattern c input :
  match head pattern with Some p => p <> question /\ p <> c /\ p <> star | None => True end ->
  ~ Glob pattern (c :: input).
Proof.
  destruct pattern as [|p pattern]; cbn [head]; [by intros _ ?%glob_nil_inv|].
  intros (Hq & Hc & Hs) Hg. apply glob_char_inv in Hg as (? & [= <-] & _); done.
Qed.

Lemma return_ok input pattern w idx :
  w.(input_idx) < length input -> Walks input pattern w -> w.(star_idx) = Some idx ->
  ~ Glob (drop w.(wildcard_idx) pattern) (drop w.(input_idx) input) ->
  let w' := mkWalk (S w.(star_input_idx)) (S idx) (Some idx) (S w.(star_input_idx)) in
  Walks input pattern w' /\ rank input pattern w' < rank input pattern w /\
  (matches_from input pattern w' -> matches_from input pattern w) /\
  ((star ∉ segment pattern w') /\ (matches_from input pattern w -> matches_from input pattern w')).
Proof.
  intros Hlt [Hi Hw Hst] Hs Hno w'. rewrite Hs in Hst. destruct Hst as (Hpi & Hidx & Heq).
  split; [|split; [|split; [|split]]].
  - constructor; cbn; [lia|lia|]. repeat split; [done|lia|lia].
  - unfold rank. rewrite Hs. cbn. nia.
  - unfold matches_from. rewrite Hs. cbn. intros [Hg|(k & ? & Hg)]; right; [exists (S (star_input_idx w))|exists k]; (split; [lia|done]).
  - unfold segment. cbn. rewrite Nat.sub_diag. apply not_elem_of_nil.
  - unfold matches_from. rewrite Hs. cbn. intros [?|(k & ? & Hg)]; [done|].
    destruct (decide (k = S (star_input_idx w))) as [->|?]; [by left|right]. exists k. split; [lia|done].
Qed.

Lemma round_ok input pattern w w' :
  w.(input_idx) < length input -> Walks input pattern w -> round input pattern w = Some w' ->
  Walks input pattern w' /\ rank input pattern w' < rank input pattern w /\
  (matches_from input pattern w' -> matches_from input pattern w) /\
  (star ∉ input -> star ∉ segment pattern w ->
     (star ∉ segment pattern w') /\ (matches_from input pattern w -> matches_from input pattern w')).
Proof.
  intros Hlt Hok. pose proof Hok as [Hi Hw Hst]. unfold round.
  destruct (lookup_lt_is_Some_2 input (input_idx w) Hlt) as [c Hc].
  pose proof (drop_S _ _ _ Hc) as Hdi.
  destruct (pattern !! wildcard_idx w) as [p|] eqn:Ep.
  1: pose proof (drop_S _ _ _ Ep) as Hdp; apply lookup_lt_Some in Ep as Hwlt; rewrite Hc;
     destruct ((p =? question)%N || bool_decide (Some c = Some p)) eqn:E1;
     [|destruct (p =? star)%N eqn:E2].
  - (* a character *)
    intros [= <-]. assert (p = question \/ c = p) as Hp
      by (apply orb_true_iff in E1 as [?|?]; bool_prop; [by left|right; congruence]).
    split; [|split; [|split]].
    + constructor; cbn; [lia|lia|]. destruct (star_idx w); [|done]. destruct Hst as (? & ? & ?). repeat split; [done|lia|lia].
    + unfold rank. cbn. lia.
    + unfold matches_from. cbn. intros [Hg|?]; [left|by right]. rewrite Hdp, Hdi.
      destruct Hp as [->| ->]; [by constructor|].
      destruct (decide (p = star)) as [->|?]; [by apply (glob_star_intro _ _ 1)|by constructor].
    + intros Hstar Hseg. assert (c <> star) as Hcs by (intros ->; apply Hstar; by eapply list_elem_of_lookup_2).
      split.
      * unfold segment in *. cbn. destruct (star_idx w) as [idx|]; [|done]. destruct Hst as (_ & Hidx & _).
        replace (wildcard_idx w - idx) with (S (wildcard_idx w - S idx)) by lia.
        rewrite (take_S_r _ _ p) by (rewrite lookup_drop, <- Ep; f_equal; lia).
        rewrite not_elem_of_app. split; [done|]. intros Hin%list_elem_of_singleton. destruct Hp; congruence.
      * unfold matches_from. cbn. rewrite Hdp, Hdi, glob_step by done. done.
  - (* a star *)
    bool_prop. subst p. intros [= <-]. split; [|split; [|split]].
    + constructor; cbn; [lia|lia|]. repeat split; [done|lia|lia].
    + unfold rank. cbn. destruct (star_idx w); [destruct Hst as (_ & ? & Heq)|]; nia.
    + unfold matches_from. cbn. intros Hm. left. rewrite Hdp.
      destruct Hm as [Hg|(k & Hk & Hg)]; [by apply (glob_star_intro _ _ 0)|].
      apply (glob_star_intro _ _ (k - input_idx w)). rewrite drop_drop.
      by replace (input_idx w + (k - input_idx w)) with k by lia.
    + intros _ Hseg. split.
      * unfold segment. cbn. rewrite Nat.sub_diag. apply not_elem_of_nil.
      * assert (forall m, input_idx w <= m <= length input -> Glob (drop (wildcard_idx w) pattern) (drop m input) ->
          matches_from input pattern (mkWalk (input_idx w) (S (wildcard_idx w)) (Some (wildcard_idx w)) (input_idx w))) as Hfrom.
        { intros m Hm Hg. rewrite Hdp in Hg. apply glob_star_inv in Hg as (k & Hk & Hg). rewrite drop_drop in Hg.
          rewrite length_drop in Hk. unfold matches_from. cbn.
          destruct (decide (m + k = input_idx w)) as [E|?]; [left; by rewrite <- E|right].
          exists (m + k). split; [lia|done]. }
        intros [Hg|Hm]; [by apply (Hfrom (input_idx w)); [lia|]|].
        destruct (star_idx w) as [idx|] eqn:Es; [|done]. destruct Hm as (k & Hk & Hg).
        destruct (later_return input pattern w idx k Hok Hseg Es Hk Hg) as (m & Hm & Hg'). apply (Hfrom m); [lia|done].
  - destruct (star_idx w) as [idx|] eqn:Es; [|done]. intros [= <-].
    destruct (return_ok input pattern w idx Hlt Hok Es) as (? & ? & ? & ?);
      [|split; [done|split; [done|split; [done|by intros _ _]]]].
    rewrite Hdp, Hdi. apply stuck_no_glob. cbn. apply orb_false_iff in E1 as [??]. bool_prop. repeat split; congruence.
  - destruct (star_idx w) as [idx|] eqn:Es; [|done]. intros [= <-].
    destruct (return_ok input pattern w idx Hlt Hok Es) as (? & ? & ? & ?);
      [|split; [done|split; [done|split; [done|by intros _ _]]]].
    rewrite Hdi, (drop_ge pattern) by (by apply lookup_ge_None). by apply stuck_no_glob.
Qed.

Lemma round_none input pattern w :
  w.(input_idx) < length input -> Walks input pattern w -> round input pattern w = None -> ~ matches_from input pattern w.
Proof.
  intros Hlt [Hi Hw Hst]. unfold round, matches_from.
  destruct (lookup_lt_is_Some_2 input (input_idx w) Hlt) as [c Hc]. rewrite Hc, (drop_S _ _ _ Hc).
  destruct (pattern !! wildcard_idx w) as [p|] eqn:Ep.
  - destruct ((p =? question)%N || bool_decide (Some c = Some p)) eqn:E1; [done|].
    destruct (p =? star)%N eqn:E2; [done|]. destruct (star_idx w); [done|]. intros _ [Hg|?]; [|done].
    rewrite (drop_S _ _ _ Ep) in Hg. revert Hg. apply stuck_no_glob. cbn.
    apply orb_false_iff in E1 as [??]. bool_prop. repeat split; congruence.
  - destruct (star_idx w); [done|]. intros _ [Hg|?]; [|done].
    rewrite (drop_ge pattern) in Hg by (by apply lookup_ge_None). by apply glob_nil_inv in Hg.
Qed.

(** The answer for the place of the pattern where the walk ended. *)
Definition accepts (pattern : str) (last : option nat) : bool :=
  match last with
  | Some wildcard_idx => match skip_stars (drop wildcard_idx pattern) with [] => true | _ => false end
  | None => false
  end.

Lemma accepts_spec pattern i : accepts pattern (Some i) = true <-> Glob (drop i pattern) [].
Proof. unfold accepts. rewrite <- skip_stars_spec. by destruct (skip_stars (drop i pattern)). Qed.

(** At the end of the input. *)
Lemma walk_end input pattern w :
  Walks input pattern w -> ~ w.(input_idx) < length input ->
  (Glob (drop w.(wildcard_idx) pattern) [] -> matches_from input pattern w) /\
  (star ∉ segment pattern w -> matches_from input pattern w -> Glob (drop w.(wildcard_idx) pattern) []).
Proof.
  intros Hok Hge. pose proof Hok as [Hi _ _]. unfold matches_from. rewrite (drop_ge input (input_idx w)) by lia.
  split; [by left|]. intros Hseg [?|Hm]; [done|]. destruct (star_idx w) as [idx|] eqn:Es; [|done].
  destruct Hm as (k & Hk & Hg). destruct (later_return input pattern w idx k Hok Hseg Es Hk Hg) as (m & Hm & _). lia.
Qed.

Lemma walk_spec fuel input pattern w :
  Walks input pattern w -> rank input pattern w < fuel ->
  exists last, walk fuel input pattern w = Ok last /\
    (accepts pattern last = true -> matches_from input pattern w) /\
    (star ∉ input -> star ∉ segment pattern w -> matches_from input pattern w -> accepts pattern last = true).
Proof.
  revert w. induction fuel as [|fuel IH]; intros w Hok Hr; [lia|]. cbn [walk].
  destruct (Nat.ltb_spec (input_idx w) (length input)) as [Hlt|Hge].
  - destruct (round input pattern w) as [w'|] eqn:E.
    + destruct (round_ok input pattern w w' Hlt Hok E) as (Hok' & Hr' & Hs & Hc).
      destruct (IH w' Hok' ltac:(lia)) as (last & -> & H1 & H2). exists last. split; [done|]. split; [by intros ?%H1%Hs|].
      intros Hin Hseg Hm. destruct (Hc Hin Hseg) as [Hseg' Hm']. by apply H2; [| |apply Hm'].
    + exists None. split; [done|]. split; [done|]. intros _ _ Hm. by apply round_none in Hm.
  - exists (Some (wildcard_idx w)). split; [done|]. rewrite accepts_spec.
    destruct (walk_end input pattern w Hok ltac:(lia)). by split; [|intros _].
Qed.

(** ** The properties *)

(** [wildcard_match] always answers. What it accepts the pattern stands for, and on an input
    without a star it accepts all of that: greedy stars with one place to return to are enough. *)
Theorem wildcard_match_glob input pattern :
  exists answer, wildcard_match input pattern = Ok answer /\
    (answer = true -> Glob pattern input) /\
    (star ∉ input -> Glob pattern input -> answer = true).
Proof.
  assert (Walks input pattern (mkWalk 0 0 None 0)) as Hok by (constructor; cbn; [lia|lia|done]).
  destruct (walk_spec (walk_fuel input pattern) input pattern _ Hok) as (last & E & H1 & H2).
  { unfold rank, walk_fuel. cbn. lia. }
  exists (accepts pattern last). unfold wildcard_match. rewrite E. split; [done|].
  unfold matches_from in *. cbn in *. rewrite !drop_0 in *. split.
  - intros Ha. by destruct (H1 Ha).
  - intros Hin Hg. apply H2; [done|apply not_elem_of_nil|by left].
Qed.

(** On an input that holds a star itself it can miss a match: a star of the pattern that meets
    it is taken for that one character. *)
Theorem wildcard_literal_star_missed :
  wildcard_match u!"*a" u!"*" = Ok false /\ Glob u!"*" u!"*a" /\
  match_any (Wildcard_new [u!"*"]) u!"*a" = Ok false.
Proof.
  split; [vm_compute; reflexivity|]. split; [|vm_compute; reflexivity].
  apply (glob_star_intro _ _ 2). constructor.
Qed.
