(* ===== verification/Decimals.v ===== *)
(** * Numbers in decimal digits: [to_string] of the integer types and [str::parse] of the unsigned ones

    Over the conversions of the Standard Library between [N] and digits. *)

From Stdlib Require Import DecimalFacts DecimalPos DecimalN.
From Stdlib Require Decimal.
From S2P Require Import Prelude RustStr.

Fixpoint digits (d : Decimal.uint) : str :=
  match d with
  | Decimal.Nil => []
  | Decimal.D0 d => c!"0" :: digits d
  | Decimal.D1 d => c!"1" :: digits d
  | Decimal.D2 d => c!"2" :: digits d
  | Decimal.D3 d => c!"3" :: digits d
  | Decimal.D4 d => c!"4" :: digits d
  | Decimal.D5 d => c!"5" :: digits d
  | Decimal.D6 d => c!"6" :: digits d
  | Decimal.D7 d => c!"7" :: digits d
  | Decimal.D8 d => c!"8" :: digits d
  | Decimal.D9 d => c!"9" :: digits d
  end.

Definition digit (c : char) : option (Decimal.uint -> Decimal.uint) :=
  match (c - c!"0")%N with
  | 0 => Some Decimal.D0 | 1 => Some Decimal.D1 | 2 => Some Decimal.D2 | 3 => Some Decimal.D3 | 4 => Some Decimal.D4
  | 5 => Some Decimal.D5 | 6 => Some Decimal.D6 | 7 => Some Decimal.D7 | 8 => Some Decimal.D8 | 9 => Some Decimal.D9
  | _ => None
  end%N.

Fixpoint undigits (s : str) : option Decimal.uint :=
  match s with
  | [] => Some Decimal.Nil
  | c :: s' =>
      if is_ascii_digit c then match digit c, undigits s' with Some f, Some d => Some (f d) | _, _ => None end else None
  end.

(** [u32::to_string] and that of every unsigned type. *)
Definition to_string (n : N) : str := digits (N.to_uint n).

(** [i64::to_string] *)
Definition int_to_string (z : Z) : str := if (z <? 0)%Z then c!"-" :: to_string (Z.to_N (- z)) else to_string (Z.to_N z).

Definition U32_MAX : N := 4294967295.

Definition U64_MAX : N := 18446744073709551615.

(** [str::parse] of an unsigned type: a plus sign may come first. *)
Definition parse_uint (max : N) (s : str) : option N :=
  let s := match s with c :: s' => if (c =? c!"+")%N then s' else s | [] => [] end in
  match s with
  | [] => None
  | _ => match undigits s with
         | Some d => let n := N.of_uint d in if (n <=? max)%N then Some n else None
         | None => None
         end
  end.

Definition parse_u32 : str -> option N := parse_uint U32_MAX.
Definition parse_u64 : str -> option N := parse_uint U64_MAX.

(** ** Reading what was printed *)

Lemma undigits_digits d : undigits (digits d) = Some d.
Proof. induction d as [|d IH|d IH|d IH|d IH|d IH|d IH|d IH|d IH|d IH|d IH]; simpl; by rewrite ?IH. Qed.

Lemma to_string_nonempty n : to_string n <> [].
Proof. unfold to_string. destruct n as [|p]; [done|]. simpl. pose proof (Unsigned.to_uint_nonnil p). by destruct (Pos.to_uint p). Qed.

Lemma digits_digit d : Forall (fun c => is_ascii_digit c = true) (digits d).
Proof. induction d; simpl; constructor; done. Qed.

Lemma to_string_digits n : Forall (fun c => is_ascii_digit c = true) (to_string n).
Proof. apply digits_digit. Qed.

Lemma parse_to_string n : (n <= U32_MAX)%N -> parse_u32 (to_string n) = Some n.
Proof.
  intros Hn. unfold parse_u32, parse_uint. pose proof (to_string_nonempty n) as Hne. pose proof (to_string_digits n) as Hd.
  destruct (to_string n) as [|c s] eqn:E; [done|]. apply Forall_cons_1 in Hd as [Hc _].
  destruct (N.eqb_spec c c!"+") as [->|_]; [done|]. rewrite <- E. unfold to_string. rewrite undigits_digits, DecimalN.Unsigned.of_to.
  by apply N.leb_le in Hn as ->.
Qed.

Lemma parse_u32_bound s n : parse_u32 s = Some n -> (n <= U32_MAX)%N.
Proof.
  unfold parse_u32, parse_uint. destruct (match s with c :: _ => _ | [] => [] end); [done|]. destruct (undigits _); [|done].
  destruct (_ <=? _)%N eqn:E; [|done]. intros [= <-]. by apply N.leb_le.
Qed.

(** A number has no separator in it. *)
Lemma to_string_no_char n c : is_ascii_digit c = false -> c ∉ to_string n.
Proof. intros H Hin. pose proof (to_string_digits n) as Hd. rewrite Forall_forall in Hd. apply Hd in Hin. congruence. Qed.
