(* ===== verification/Ini.v ===== *)
(** * Merging INI files ([crates/mise-util/src/ini_merge.rs])

    Some keys of a file are set and every other line is left as it is. A file is read line by line into sections of keys, each with
    the lines that it spans; a merge edits the lines. Offsets are those of UTF-8. *)

From S2P Require Import Prelude RustStr Decimals.

Record Entry := mkEntry {
  key : str;
  value : option str;
  prefix : option str;
  indent : nat;
  start : nat;
  end_ : nat
}.

(** [Section] *)
Record IniSection := mkSection { name : option str; header : option nat; entries : list Entry }.

Record Doc := mkDoc { doc_lines : list str; sections : list IniSection }.

#[export] Instance Entry_eq_dec : EqDecision Entry.
Proof. solve_decision. Defined.

Definition BOM : char := 0xFEFF%N.

(** ** Reading *)

(** What [parse] keeps from line to line. *)
Record Reading := mkReading { closed : list IniSection; current : IniSection; open : option nat; blanks : nat }.

Definition Reading_new : Reading := mkReading [] (mkSection None None []) None 0.

(** The bytes of whitespace before the text of a line. *)
Definition indent_len (line : str) : nat := len line - len (trim_start line).

Definition is_delim (c : char) : bool := one_of u!"=:" c.

(** [starts_with(['#', ';'])] *)
Definition starts_comment (s : str) : bool := match s with c :: _ => one_of u!"#;" c | [] => false end.

Definition fail {A} (what : str) (line : nat) (msg : str) : result str A :=
  Err (u!"failed to parse the INI " ++ what ++ u!": line " ++ to_string (N.of_nat (line + 1)) ++ u!": " ++ msg).

Definition push_entry (e : Entry) (s : IniSection) : IniSection := mkSection s.(name) s.(header) (s.(entries) ++ [e]).

(** The key, value and prefix of a line that sets a key. *)
Definition read_key (line : str) : str * option str * option str :=
  let indent := indent_len line in
  let rest := str_from line indent in
  match find is_delim rest with
  | Some delim =>
      let after := str_from rest (delim + 1) in
      let value := trim after in
      let space := len after - len (trim_start after) in
      let prefix := str_to line (indent + delim + 1 + space) in
      (trim (str_to rest delim), Some value, Some (if bool_decide (value = []) && (space =? 0) then prefix ++ u!" " else prefix))
  | None => (trim rest, None, None)
  end.

(** A line that goes on with the value of the last key. *)
Definition continue_entry (i : nat) (trimmed : str) (blanks : nat) (e : Entry) : Entry :=
  mkEntry e.(key) ((fun v => v ++ replicate (blanks + 1) 10%N ++ trimmed) <$> e.(value)) e.(prefix) e.(indent) e.(start) (i + 1).

(** One round of the loop of [parse]. *)
Definition read_line (what : str) (i : nat) (line : str) (st : Reading) : result str Reading :=
  let trimmed := trim line in
  let indent := indent_len line in
  if bool_decide (trimmed = []) then Ok (mkReading st.(closed) st.(current) st.(open) (st.(blanks) + 1))
  else if starts_comment trimmed then Ok st
  else
    let continued :=
      match last st.(current).(entries), st.(open) with
      | Some entry, Some key_indent => if key_indent <? indent then Some entry else None
      | _, _ => None
      end in
    match continued with
    | Some entry =>
        Ok (mkReading st.(closed)
              (mkSection st.(current).(name) st.(current).(header) (removelast st.(current).(entries) ++ [continue_entry i trimmed st.(blanks) entry]))
              st.(open) 0)
    | None =>
        if starts_with u!"[" trimmed then
          match rfind (N.eqb c!"]") trimmed with
          | None => fail what i u!"a section header needs a closing ]"
          | Some close =>
              let name := trim (slice trimmed 1 close) in
              if bool_decide (name = []) then fail what i u!"a section needs a name"
              else Ok (mkReading (st.(closed) ++ [st.(current)]) (mkSection (Some name) (Some i) []) None 0)
          end
        else
          let '(key, value, prefix) := read_key line in
          if bool_decide (key = []) then fail what i u!"a key needs a name"
          else Ok (mkReading st.(closed) (push_entry (mkEntry key value prefix indent i (i + 1)) st.(current)) (const indent <$> value) 0)
    end.

Fixpoint read_lines (what : str) (i : nat) (ls : list str) (st : Reading) : result str Reading :=
  match ls with
  | [] => Ok st
  | line :: ls => let? st := read_line what i line st in read_lines what (i + 1) ls st
  end.

Definition without_bom (text : str) : str := match strip_prefix [BOM] text with Some text => text | None => text end.

Definition parse (text what : str) : result str Doc :=
  let ls := lines (without_bom text) in
  let? st := read_lines what 0 ls Reading_new in
  Ok (mkDoc ls (st.(closed) ++ [st.(current)])).

(** ** Asking a document *)

Section IndexMap.

Context {K V : Type} `{EqDecision K}.

(** [IndexMap::insert]: a key that is there keeps its place. *)
Fixpoint put (m : list (K * V)) (k : K) (v : V) : list (K * V) :=
  match m with
  | [] => [(k, v)]
  | e :: m' => if bool_decide (e.1 = k) then (k, v) :: m' else e :: put m' k v
  end.

Fixpoint lookup_entry (m : list (K * V)) (k : K) : option V :=
  match m with
  | [] => None
  | e :: m' => if bool_decide (e.1 = k) then Some e.2 else lookup_entry m' k
  end.

End IndexMap.

Definition Effective : Type := list (option str * list (str * Entry)).

Definition or_empty {A} (l : option (list A)) : list A := match l with Some l => l | None => [] end.

Definition effective (d : Doc) : Effective :=
  foldl (fun (out : Effective) s =>
    if bool_decide (s.(header) = None) && bool_decide (s.(entries) = []) then out
    else put out s.(name) (foldl (fun keys e => put keys e.(key) e) (or_empty (lookup_entry out s.(name))) s.(entries)))
    [] d.(sections).

Definition has_section (d : Doc) (n : option str) : bool :=
  bool_decide (n = None) || existsb (fun s => bool_decide (s.(name) = n)) d.(sections).

Definition get (d : Doc) (section : option str) (k : str) : option Entry :=
  List.find (fun e => bool_decide (e.(key) = k))
    (flat_map (fun s => rev s.(entries)) (List.filter (fun s => bool_decide (s.(name) = section)) (rev d.(sections)))).

(** The line at an index that a section or an entry has. *)
Definition line_at (d : Doc) (i : nat) : str := nth i d.(doc_lines) [].

Definition header_line (d : Doc) (n : str) : str :=
  match List.find (fun s => bool_decide (s.(name) = Some n)) d.(sections) ≫= header with Some h => line_at d h | None => [] end.

Definition indent_of (d : Doc) (e : Entry) : str := str_to (line_at d e.(start)) e.(indent).

(** [line.get(n..).unwrap_or(line)] *)
Definition str_get_from (line : str) (n : nat) : str :=
  if len (str_to line n) =? n then str_from line n else line.

(** A line of an entry whose key had [from] bytes of whitespace before it and has [indent] now. *)
Definition move_line (from : nat) (indent line : str) : str :=
  if bool_decide (trim line = []) then []
  else indent ++ str_get_from line (min (indent_len line) from).

Definition span (d : Doc) (a b : nat) : list str := take (b - a) (drop a d.(doc_lines)).

Definition entry_lines (d : Doc) (e : Entry) (indent : str) : list str :=
  map (move_line e.(Ini.indent) indent) (span d e.(start) e.(end_)).

(** The loop of [insert_point]. *)
Fixpoint above_comments (d : Doc) (at_ : nat) : nat :=
  match at_ with
  | 0 => 0
  | S before => if starts_comment (trim_start (line_at d before)) then above_comments d before else at_
  end.

Definition insert_point (d : Doc) (n : option str) : nat * str :=
  match List.find (fun s => bool_decide (s.(name) = n)) (rev d.(sections)) with
  | Some s =>
      match last s.(entries), s.(header) with
      | Some e, _ => (e.(end_), indent_of d e)
      | None, Some header => (header + 1, [])
      | None, None =>
          match omap header d.(sections) with
          | first :: _ => (above_comments d first, [])
          | [] => (length d.(doc_lines), [])
          end
      end
  | None =>
      match omap header d.(sections) with
      | first :: _ => (above_comments d first, [])
      | [] => (length d.(doc_lines), [])
      end
  end.

(** ** Comparing *)

Definition parse_pair (target source : str) : result str (Doc * Doc) :=
  let? t := parse target u!"target" in
  let? s := parse source u!"source" in
  Ok (t, s).

Definition contains (target source : str) : result str bool :=
  let? (target, source) := parse_pair target source in
  Ok (forallb (fun '(n, keys) =>
        has_section target n
        && forallb (fun '(k, e) => match get target n k with Some t => bool_decide (t.(value) = e.(value)) | None => false end) keys)
      (effective source)).

Definition missing (target source : str) : result str (option str) :=
  let? (target, source) := parse_pair target source in
  let out := foldl (fun out '(n, keys) =>
    let present := has_section target n in
    let absent := List.filter (fun e => negb present || bool_decide (get target n e.(key) = None)) (map snd keys) in
    if present && bool_decide (absent = []) then out
    else
      let out := match n with
                 | Some n => (if bool_decide (out = []) then out else out ++ [[]]) ++ [header_line source n]
                 | None => out
                 end in
      out ++ flat_map (fun e => entry_lines source e []) absent) [] (effective source) in
  Ok (if bool_decide (out = []) then None else Some (join [10%N] out ++ [10%N])).

Definition conflicts (a b : str) : result str (list str) :=
  let? a := parse a u!"source" in
  let? b := parse b u!"source" in
  let b := effective b in
  Ok (flat_map (fun '(n, keys) =>
        match lookup_entry b n with
        | None => []
        | Some other =>
            flat_map (fun '(k, e) =>
              match lookup_entry other k with
              | Some o => if bool_decide (o.(value) = e.(value)) then [] else [match n with Some n => n ++ u!"." ++ k | None => k end]
              | None => []
              end) keys
        end) (effective a)).

(** ** Merging *)

(** The text of the first line of a copied value ([replacement]). *)
Definition replacement_line (indent : str) (existing : Entry) (first : option str) : str :=
  match first with
  | None => indent ++ existing.(key)
  | Some first =>
      match existing.(prefix) with
      | Some prefix => if bool_decide (first = []) then trim_end prefix else prefix ++ first
      | None => if bool_decide (first = []) then indent ++ existing.(key) ++ u!" =" else indent ++ existing.(key) ++ u!" = " ++ first
      end
  end.

Definition replacement (t : Doc) (existing : Entry) (s : Doc) (e : Entry) : list str :=
  let indent := indent_of t existing in
  let first := (fun v => match lines v with l :: _ => l | [] => [] end) <$> e.(value) in
  <[0 := replacement_line indent existing first]> (entry_lines s e indent)
  ++ List.filter (fun line => starts_comment (trim_start line)) (span t (S existing.(start)) existing.(end_)).

(** The replaced spans by their first lines, and the lines inserted before each line. *)
Record Edits := mkEdits { replace : gmap nat (nat * list str); insert_ : list (list str) }.

Definition insert_at (i : nat) (ls : list str) (ed : Edits) : Edits :=
  mkEdits ed.(replace) (alter (fun before => before ++ ls) i ed.(insert_)).

Definition edit_key (t s : Doc) (n : option str) (at_ : nat) (indent : str) (ed : Edits) (ke : str * Entry) : Edits :=
  match get t n ke.1 with
  | Some existing =>
      if bool_decide (existing.(value) = ke.2.(value)) then ed
      else mkEdits (<[existing.(start) := (existing.(end_), replacement t existing s ke.2)]> ed.(replace)) ed.(insert_)
  | None => insert_at at_ (entry_lines s ke.2 indent) ed
  end.

(** Of a section that the target has: its keys, and a blank line below keys that came above the first section. *)
Definition edit_section (t s : Doc) (ed : Edits) (nk : option str * list (str * Entry)) : Edits :=
  let '(n, keys) := nk in
  let '(at_, indent) := insert_point t n in
  let before := length (nth at_ ed.(insert_) []) in
  let ed := foldl (edit_key t s n at_ indent) ed keys in
  let top_level_above_header :=
    bool_decide (n = None) && match t.(sections) with first :: _ => bool_decide (first.(entries) = []) | [] => false end
    && (at_ <? length t.(doc_lines)) && negb (bool_decide (trim (line_at t at_) = [])) in
  if top_level_above_header && (before <? length (nth at_ ed.(insert_) [])) then insert_at at_ [[]] ed else ed.

(** A section that the target does not have. *)
Definition append_section (t s : Doc) (appended : list str) (nk : option str * list (str * Entry)) : list str :=
  match nk.1 with
  | None => appended
  | Some n =>
      let last_line := match last appended with Some line => Some line | None => last t.(doc_lines) end in
      let appended := match last_line with
                      | Some line => if bool_decide (trim line = []) then appended else appended ++ [[]]
                      | None => appended
                      end in
      appended ++ [header_line s n] ++ flat_map (fun ke => entry_lines s ke.2 []) nk.2
  end.

Definition edits (t s : Doc) : Edits :=
  let len := length t.(doc_lines) in
  let '(known, new_sections) := List.partition (fun nk => has_section t nk.1) (effective s) in
  let ed := foldl (edit_section t s) (mkEdits ∅ (replicate (S len) [])) known in
  mkEdits ed.(replace) (alter (fun appended => foldl (append_section t s) appended new_sections) len ed.(insert_)).

(** The loop of [merge] that writes the lines, with one unit of fuel for each line. *)
Fixpoint write_lines (fuel : nat) (t : Doc) (ed : Edits) (i : nat) : result str (list str) :=
  match fuel with
  | 0 => OutOfFuel
  | S fuel =>
      let inserted := nth i ed.(insert_) [] in
      if i =? length t.(doc_lines) then Ok inserted
      else
        match ed.(replace) !! i with
        | Some (end_, ls) => let? rest := write_lines fuel t ed end_ in Ok (inserted ++ ls ++ rest)
        | None => let? rest := write_lines fuel t ed (S i) in Ok (inserted ++ line_at t i :: rest)
        end
  end.

Definition merge (target source : str) : result str str :=
  let? (t, s) := parse_pair target source in
  let? out := write_lines (S (length t.(doc_lines))) t (edits t s) 0 in
  let nl := if contains_str [13%N; 10%N] target then [13%N; 10%N] else [10%N] in
  let bom := if starts_with [BOM] target then [BOM] else [] in
  Ok (bom ++ join nl out ++ (if bool_decide (target = []) || ends_with [10%N] target then nl else [])).
