(* ===== verification/IniFacts.v ===== *)
(** * How INI files are read, block by block

    A file is a sequence of blocks: lines to skip, headers, and keys with the lines of their values. Reading the blocks is reading
    the file, and every file that is read has them. *)

From S2P Require Import Prelude RustStr Decimals Ini.

(** ** Trimming *)

Definition blank (s : str) : bool := forallb is_whitespace s.

(** No whitespace at either end. *)
Definition trimmed (s : str) : Prop := (forall c r, s = c :: r -> is_whitespace c = false) /\ (forall c r, s = r ++ [c] -> is_whitespace c = false).

Lemma blank_app a b : blank (a ++ b) = blank a && blank b.
Proof. apply forallb_app. Qed.

Lemma blank_rev a : blank (reverse a) = blank a.
Proof.
  induction a as [|c a IH]; [done|]. rewrite reverse_cons, blank_app, IH. cbn. by rewrite andb_true_r, andb_comm.
Qed.

Lemma drop_while_blank s : blank s = true -> drop_while is_whitespace s = [].
Proof. intros H. rewrite <- (app_nil_r s), drop_while_app_all by done. done. Qed.

(** A text is what is trimmed, between whitespace. *)
Lemma trim_start_split s : exists a, s = a ++ trim_start s /\ blank a = true.
Proof. exists (take_while is_whitespace s). split; [symmetry; apply take_drop_while|apply take_while_forall]. Qed.

Lemma trim_end_split s : exists b, s = trim_end s ++ b /\ blank b = true.
Proof.
  unfold trim_end, trim_end_matches. exists (reverse (take_while is_whitespace (reverse s))). split.
  - by rewrite <- reverse_app, take_drop_while, reverse_involutive.
  - rewrite blank_rev. apply take_while_forall.
Qed.

Lemma trim_split s : exists a b, s = a ++ trim s ++ b /\ blank a = true /\ blank b = true.
Proof.
  destruct (trim_start_split s) as (a & Ha & ?). destruct (trim_end_split (trim_start s)) as (b & Hb & ?). exists a, b. split; [|done].
  unfold trim. by rewrite <- Hb.
Qed.

Lemma trim_end_last s c r : trim_end s = r ++ [c] -> is_whitespace c = false.
Proof.
  unfold trim_end, trim_end_matches. intros E. apply (f_equal reverse) in E. rewrite reverse_involutive, reverse_snoc in E.
  by apply drop_while_head in E.
Qed.

Lemma trim_trimmed s : trimmed (trim s).
Proof.
  split; [|by apply trim_end_last]. intros c r E. destruct (trim_end_split (trim_start s)) as (b & Hb & _). fold (trim s) in Hb. rewrite E in Hb. cbn in Hb.
  by apply drop_while_head in Hb.
Qed.

Lemma trimmed_start s : trimmed s -> trim_start s = s.
Proof. intros [H _]. destruct s as [|c s]; [done|]. unfold trim_start, trim_start_matches. cbn [drop_while]. by rewrite (H c s eq_refl). Qed.

Lemma trim_end_app s b : blank b = true -> trim_end (s ++ b) = trim_end s.
Proof. intros Hb. unfold trim_end, trim_end_matches. rewrite reverse_app, drop_while_app_all; [done|by fold (blank (reverse b)); rewrite blank_rev]. Qed.

Lemma trimmed_end s : trimmed s -> trim_end s = s.
Proof.
  intros [_ H]. destruct (decide (s = [])) as [->|Hne]; [done|]. destruct (exists_last Hne) as (r & c & ->). specialize (H c r eq_refl).
  unfold trim_end, trim_end_matches. rewrite reverse_app, reverse_singleton. cbn [app drop_while]. rewrite H. by rewrite <- reverse_snoc, reverse_involutive.
Qed.

Lemma trim_start_app a s : blank a = true -> trim_start (a ++ s) = trim_start s.
Proof. apply drop_while_app_all. Qed.

Lemma trimmed_nil : trimmed [].
Proof. split; [done|]. by intros c [|? ?] ?. Qed.

Lemma trim_of a s b : blank a = true -> trimmed s -> blank b = true -> trim (a ++ s ++ b) = s.
Proof.
  intros Ha Hs Hb. unfold trim. rewrite trim_start_app by done. destruct s as [|c s'].
  - cbn. unfold trim_start. rewrite (drop_while_blank b) by done. done.
  - unfold trim_start, trim_start_matches. cbn [app drop_while]. rewrite (proj1 Hs c s' eq_refl). change (c :: s' ++ b) with ((c :: s') ++ b).
    rewrite trim_end_app by done. by apply trimmed_end.
Qed.

Lemma trim_blank s : trim s = [] <-> blank s = true.
Proof.
  split; [|intros H; by apply (trim_of [] [] s eq_refl trimmed_nil)]. intros E. destruct (trim_split s) as (a & b & -> & Ha & Hb). rewrite E. cbn. by rewrite blank_app, Ha, Hb.
Qed.

Lemma trim_app_blank s b : blank b = true -> trim (s ++ b) = trim s.
Proof.
  intros Hb. destruct (trim_split s) as (a & b' & E & Ha & Hb'). rewrite E at 1. rewrite <- !app_assoc. apply trim_of; [done|apply trim_trimmed|]. by rewrite blank_app, Hb', Hb.
Qed.

Lemma trim_blank_app a s : blank a = true -> trim (a ++ s) = trim s.
Proof. intros Ha. unfold trim. by rewrite trim_start_app. Qed.

Lemma trim_idem s : trim (trim s) = trim s.
Proof. pose proof (trim_trimmed s) as H. unfold trim at 1. by rewrite trimmed_start, trimmed_end. Qed.

Lemma blank_trim_nil s : trim s <> [] -> exists a c r, s = a ++ c :: r /\ blank a = true /\ is_whitespace c = false.
Proof.
  intros H. destruct (trim_split s) as (a & b & E & Ha & _). pose proof (trim_trimmed s) as [Hh _]. destruct (trim s) as [|c r]; [done|].
  exists a, c, (r ++ b). split; [by rewrite E|]. split; [done|]. by eapply Hh.
Qed.

Lemma indent_of_split a c r : blank a = true -> is_whitespace c = false -> indent_len (a ++ c :: r) = len a.
Proof.
  intros Ha Hc. unfold indent_len. rewrite trim_start_app by done. unfold trim_start, trim_start_matches. cbn [drop_while]. rewrite Hc, len_app. lia.
Qed.

Lemma trim_start_text a c r : blank a = true -> is_whitespace c = false -> trim_start (a ++ c :: r) = c :: r.
Proof. intros Ha Hc. rewrite trim_start_app by done. unfold trim_start, trim_start_matches. cbn [drop_while]. by rewrite Hc. Qed.

Lemma trim_head a c r : blank a = true -> is_whitespace c = false -> exists r', trim (a ++ c :: r) = c :: r'.
Proof.
  intros Ha Hc. unfold trim. rewrite trim_start_text by done. destruct (trim_end_split (c :: r)) as (b & E & Hb).
  destruct (trim_end (c :: r)) as [|c' r'] eqn:Et; [|cbn in E; injection E as <- _; by exists r'].
  cbn in E. subst b. cbn in Hb. by rewrite Hc in Hb.
Qed.

(** ** Blocks *)

Inductive Item : Type :=
| Skip
| Head (n : str) (ind : nat)
| Key (k : str) (v : option str) (ind : nat).

(** Blank lines and comments. *)
Definition skipped (line : str) : bool := bool_decide (trim line = []) || starts_comment (trim line).

Definition blank_lines (ls : list str) : nat := length (List.filter (fun l => bool_decide (trim l = [])) ls).

Definition header_name (line : str) : option str :=
  close ← rfind (N.eqb c!"]") (trim line);
  let name := trim (slice (trim line) 1 close) in if bool_decide (name = []) then None else Some name.

(** The lines below a key that belong to its value, and what they add to it. *)
Inductive Tail (ind : nat) : list str -> str -> Prop :=
| Tail_nil : Tail ind [] []
| Tail_more tl v fs l : Tail ind tl v -> forallb skipped fs = true -> skipped l = false -> ind < indent_len l ->
    Tail ind (tl ++ fs ++ [l]) (v ++ replicate (blank_lines fs + 1) 10%N ++ trim l).

Definition is_header (line : str) : bool := starts_with u!"[" (trim line).

Inductive Spells : Item -> list str -> Prop :=
| Spells_skip l : skipped l = true -> Spells Skip [l]
| Spells_head l n : skipped l = false -> is_header l = true -> header_name l = Some n -> Spells (Head n (indent_len l)) [l]
| Spells_key l k v0 p tl v : skipped l = false -> is_header l = false -> read_key l = (k, v0, p) -> k <> [] ->
    Tail (indent_len l) tl v -> (v0 = None -> tl = []) -> Spells (Key k ((fun w => w ++ v) <$> v0) (indent_len l)) (l :: tl).

(** The state after a block that starts at line [i]. *)
Definition entry_of (i : nat) (k : str) (v : option str) (ind : nat) (ls : list str) : Entry :=
  mkEntry k v (read_key (nth 0 ls [])).2 ind i (i + length ls).

Definition after_block (i : nat) (st : Reading) (b : Item * list str) : Reading :=
  match b.1 with
  | Skip => mkReading st.(closed) st.(current) st.(open) (st.(blanks) + blank_lines b.2)
  | Head n _ => mkReading (st.(closed) ++ [st.(current)]) (mkSection (Some n) (Some i) []) None 0
  | Key k v ind => mkReading st.(closed) (push_entry (entry_of i k v ind b.2) st.(current)) (const ind <$> v) 0
  end.

(** A header or key that goes on with no value. *)
Definition apart (o : option nat) (it : Item) : Prop :=
  match it with Skip => True | Head _ ind | Key _ _ ind => forall d, o = Some d -> ind <= d end.

Lemma read_lines_app what i a b st : read_lines what i (a ++ b) st = rbind (read_lines what i a st) (read_lines what (i + length a) b).
Proof.
  revert i st. induction a as [|l a IH]; intros i st; cbn [app read_lines length rbind]; [by rewrite Nat.add_0_r|].
  destruct (read_line what i l st) as [st'|e|]; cbn [rbind]; [|done..]. rewrite IH. by replace (i + 1 + length a) with (i + S (length a)) by lia.
Qed.

Lemma read_skipped what i l st : skipped l = true -> read_line what i l st = Ok (after_block i st (Skip, [l])).
Proof.
  intros H. unfold read_line, after_block, skipped, blank_lines in *. cbn [fst snd List.filter]. destruct (bool_decide (trim l = [])) eqn:E; cbn [length]; [done|].
  cbn in H. rewrite H, Nat.add_0_r. by destruct st.
Qed.

Lemma read_all_skipped what i fs st : forallb skipped fs = true ->
  read_lines what i fs st = Ok (mkReading st.(closed) st.(current) st.(open) (st.(blanks) + blank_lines fs)).
Proof.
  revert i st. induction fs as [|l fs IH]; intros i st; cbn [forallb read_lines]; [intros _; rewrite Nat.add_0_r; by destruct st|].
  intros [Hl Hfs]%andb_true_iff. rewrite read_skipped by done. cbn [rbind]. rewrite IH by done. cbn [after_block fst snd closed current open blanks].
  unfold blank_lines. change (l :: fs) with ([l] ++ fs). by rewrite List.filter_app, length_app, Nat.add_assoc.
Qed.

Lemma read_continued what i l st es e d v : skipped l = false -> st.(current).(entries) = es ++ [e] -> st.(open) = Some d -> d < indent_len l ->
  e.(value) = Some v ->
  read_line what i l st = Ok (mkReading st.(closed) (mkSection st.(current).(name) st.(current).(header)
    (es ++ [mkEntry e.(key) (Some (v ++ replicate (st.(blanks) + 1) 10%N ++ trim l)) e.(prefix) e.(indent) e.(start) (i + 1)])) (Some d) 0).
Proof.
  intros [Hb Hc]%orb_false_iff Hes Ho Hd Hv. unfold read_line. rewrite Hb, Hc, Hes, Ho, last_snoc. rewrite (proj2 (Nat.ltb_lt _ _) Hd).
  rewrite removelast_last. unfold continue_entry. by rewrite Hv.
Qed.

Lemma read_tail what i tl v st es e d v0 : Tail d tl v -> st.(current).(entries) = es ++ [e] -> st.(open) = Some d -> st.(blanks) = 0 ->
  e.(value) = Some v0 -> e.(end_) = i ->
  read_lines what i tl st = Ok (mkReading st.(closed) (mkSection st.(current).(name) st.(current).(header)
    (es ++ [mkEntry e.(key) (Some (v0 ++ v)) e.(prefix) e.(indent) e.(start) (i + length tl)])) (Some d) 0).
Proof.
  intros Ht Hes Ho Hb Hv He. induction Ht as [|tl v fs l Ht IH Hfs Hl Hd].
  - cbn. rewrite app_nil_r, Nat.add_0_r. destruct st as [cl [n h ens] o b], e; cbn in *. by subst.
  - rewrite !read_lines_app, IH. cbn [rbind]. rewrite read_lines_app, read_all_skipped by done. cbn [rbind closed current open blanks name header entries read_lines].
    erewrite read_continued; [|done|done|done|done|done]. cbn [rbind closed current open blanks name header entries key value prefix indent start].
    replace (i + length tl + length fs + 1) with (i + length (tl ++ fs ++ [l])) by (rewrite !length_app; cbn; lia). by rewrite <- (app_assoc v0).
Qed.

Lemma read_block what i st it ls : Spells it ls -> apart st.(open) it -> read_lines what i ls st = Ok (after_block i st (it, ls)).
Proof.
  intros Hs Ha. destruct Hs as [l H|l n H Hh Hn|l k v0 p tl v H Hh Hk Hne Ht Hv].
  - cbn [read_lines]. by rewrite read_skipped.
  - cbn [read_lines]. cut (read_line what i l st = Ok (after_block i st (Head n (indent_len l), [l]))); [by intros ->|].
    apply orb_false_iff in H as [Hb Hc]. unfold read_line. rewrite Hb, Hc.
    replace (match last _, _ with Some _, Some _ => _ | _, _ => None end) with (@None Entry).
    2:{ destruct (last _), (open st) as [d|] eqn:Ed; try done. by rewrite (proj2 (Nat.ltb_ge _ _)) by (by apply Ha). }
    unfold is_header in Hh. rewrite Hh. unfold header_name in Hn. destruct (rfind _ _) as [close|]; [|done]. cbn in Hn. by case_bool_decide; simplify_eq.
  - cbn [read_lines].
    assert (read_line what i l st = Ok (mkReading st.(closed) (push_entry (mkEntry k v0 p (indent_len l) i (i + 1)) st.(current)) (const (indent_len l) <$> v0) 0)) as Hl.
    { apply orb_false_iff in H as [Hb Hc]. unfold read_line. rewrite Hb, Hc.
      replace (match last _, _ with Some _, Some _ => _ | _, _ => None end) with (@None Entry).
      2:{ destruct (last _), (open st) as [d|] eqn:Ed; try done. by rewrite (proj2 (Nat.ltb_ge _ _)) by (by apply Ha). }
      unfold is_header in Hh. by rewrite Hh, Hk, bool_decide_eq_false_2. }
    rewrite Hl. cbn [rbind]. unfold after_block, entry_of. cbn [fst snd nth]. rewrite Hk. cbn [snd].
    destruct v0 as [v0|]; [|by rewrite Hv]. cbn [fmap option_fmap option_map const].
    erewrite (read_tail what (i + 1) tl v); [|done..]. cbn [closed current name header push_entry entries key value prefix indent start length].
    by replace (i + 1 + length tl) with (i + S (length tl)) by lia.
Qed.

(** ** Files as blocks *)

Definition Blocks : Type := list (Item * list str).

Definition block_lines (bs : Blocks) : list str := concat (map snd bs).

Definition open_after (o : option nat) (it : Item) : option nat :=
  match it with Skip => o | Head _ _ => None | Key _ v ind => const ind <$> v end.

Fixpoint laid (o : option nat) (bs : Blocks) : Prop :=
  match bs with
  | [] => True
  | b :: bs => Spells b.1 b.2 /\ apart o b.1 /\ laid (open_after o b.1) bs
  end.

Fixpoint after_blocks (i : nat) (st : Reading) (bs : Blocks) : Reading :=
  match bs with
  | [] => st
  | b :: bs => after_blocks (i + length b.2) (after_block i st b) bs
  end.

Definition skips (fs : list str) : Blocks := map (fun l => (Skip, [l])) fs.

Lemma block_lines_app a b : block_lines (a ++ b) = block_lines a ++ block_lines b.
Proof. unfold block_lines. by rewrite map_app, concat_app. Qed.

Lemma block_lines_skips fs : block_lines (skips fs) = fs.
Proof. unfold block_lines, skips. induction fs as [|l fs IH]; cbn; [done|]. by rewrite IH. Qed.

Lemma open_after_block i st b : open (after_block i st b) = open_after st.(open) b.1.
Proof. by destruct b as [[| |] ls]. Qed.

Lemma laid_app o a b : laid o (a ++ b) <-> laid o a /\ laid (foldl open_after o (map fst a)) b.
Proof. revert o. induction a as [|x a IH]; intros o; cbn; [tauto|]. rewrite IH. tauto. Qed.

Lemma after_blocks_app i st a b : after_blocks i st (a ++ b) = after_blocks (i + length (block_lines a)) (after_blocks i st a) b.
Proof.
  revert i st. induction a as [|x a IH]; intros i st; cbn [app after_blocks]; [by rewrite Nat.add_0_r|]. rewrite IH.
  change (block_lines (x :: a)) with (x.2 ++ block_lines a). by rewrite length_app, Nat.add_assoc.
Qed.

Lemma open_after_blocks i st bs : open (after_blocks i st bs) = foldl open_after st.(open) (map fst bs).
Proof. revert i st. induction bs as [|b bs IH]; intros i st; cbn; [done|]. by rewrite IH, open_after_block. Qed.

Lemma read_blocks what i st bs : laid st.(open) bs -> read_lines what i (block_lines bs) st = Ok (after_blocks i st bs).
Proof.
  revert i st. induction bs as [|b bs IH]; intros i st; [done|]. cbn [laid]. intros (Hs & Ha & Hl).
  change (block_lines (b :: bs)) with (b.2 ++ block_lines bs). rewrite read_lines_app, (read_block what i st b.1) by done. cbn [rbind after_blocks].
  rewrite <- (surjective_pairing b). apply IH. by rewrite open_after_block.
Qed.

Lemma after_skips i st fs : forallb skipped fs = true ->
  after_blocks i st (skips fs) = mkReading st.(closed) st.(current) st.(open) (st.(blanks) + blank_lines fs).
Proof.
  revert i st. induction fs as [|l fs IH]; intros i st; [intros _; cbn; rewrite Nat.add_0_r; by destruct st|].
  intros [_ Hfs]%andb_true_iff. change (skips (l :: fs)) with ((Skip, [l]) :: skips fs). cbn [after_blocks fst snd length]. rewrite IH by done.
  cbn [after_block fst snd closed current open blanks]. unfold blank_lines. change (l :: fs) with ([l] ++ fs). by rewrite List.filter_app, length_app, Nat.add_assoc.
Qed.

Lemma laid_skips o fs : laid o (skips fs) <-> forallb skipped fs = true.
Proof.
  induction fs as [|l fs IH]; cbn; [done|]. rewrite IH, andb_true_iff. split; [intros (Hs & _ & ?); by inv Hs|intros []; split_and!; try done; by constructor].
Qed.

(** The key whose value the next line may continue. *)
Lemma open_split bs d : laid None bs -> foldl open_after None (map fst bs) = Some d ->
  exists pre k v kls fs, bs = pre ++ (Key k (Some v) d, kls) :: skips fs /\ forallb skipped fs = true.
Proof.
  induction bs as [|b bs IH] using rev_ind; [done|]. rewrite map_app, foldl_app, laid_app. cbn [map foldl laid]. intros (Hl & Hs & _ & _) Ho.
  destruct b as [[|n ind|k v ind] ls]; cbn in Ho; [|done|].
  - destruct (IH Hl Ho) as (pre & k & v & kls & fs & -> & Hfs). cbn in Hs. inv Hs. exists pre, k, v, kls, (fs ++ [l]). split.
    + unfold skips. rewrite map_app. by rewrite <- app_assoc.
    + rewrite forallb_app, Hfs. cbn. by rewrite andb_true_r.
  - destruct v as [v|]; [|done]. cbn in Ho. injection Ho as ->. by exists bs, k, v, ls, [].
Qed.

Lemma tail_step ind k v kls fs l : Spells (Key k (Some v) ind) kls -> forallb skipped fs = true -> skipped l = false -> ind < indent_len l ->
  Spells (Key k (Some (v ++ replicate (blank_lines fs + 1) 10%N ++ trim l)) ind) (kls ++ fs ++ [l]).
Proof.
  intros Hs Hfs Hl Hd. inv Hs. destruct v0 as [v0|]; [|done]. cbn in *. simplify_eq. rewrite <- app_assoc.
  apply (Spells_key l0 k (Some v0) p (tl ++ fs ++ [l]) (v1 ++ replicate (blank_lines fs + 1) 10%N ++ trim l)); try done. by constructor.
Qed.

(** One more line of a file that is read. *)
Lemma read_line_inv what bs l st' : laid None bs -> let st := after_blocks 0 Reading_new bs in
  read_line what (length (block_lines bs)) l st = Ok st' ->
  exists bs', laid None bs' /\ block_lines bs' = block_lines bs ++ [l] /\ st' = after_blocks 0 Reading_new bs'.
Proof.
  intros Hl st Hrun. assert (open st = foldl open_after None (map fst bs)) as Hopen by apply open_after_blocks.
  assert (forall it, Spells it [l] -> apart (open st) it -> st' = after_block (length (block_lines bs)) st (it, [l]) ->
    exists bs', laid None bs' /\ block_lines bs' = block_lines bs ++ [l] /\ st' = after_blocks 0 Reading_new bs') as Hadd.
  { intros it Hs Ha ->. exists (bs ++ [(it, [l])]). rewrite laid_app, block_lines_app, after_blocks_app, <- Hopen. done. }
  destruct (skipped l) eqn:Hskip.
  { rewrite read_skipped in Hrun by done. injection Hrun as <-. by apply (Hadd Skip); [constructor| |]. }
  pose proof Hskip as [Hb Hc]%orb_false_iff. pose proof Hrun as Hrun0. unfold read_line in Hrun. rewrite Hb, Hc in Hrun. cbv zeta in Hrun.
  destruct (match last _ with Some _ => _ | None => _ end) as [e|] eqn:Econt.
  - destruct (last (entries (current st))) as [e'|] eqn:Elast; [|done]. destruct (open st) as [d|] eqn:Ed; [|done]. destruct (d <? indent_len l) eqn:Elt; [|done].
    injection Econt as ->. apply Nat.ltb_lt in Elt. symmetry in Hopen. destruct (open_split bs d Hl Hopen) as (pre & k & v & kls & fs & -> & Hfs).
    apply laid_app in Hl as [Hpre Hl]. cbn [laid fst snd] in Hl. destruct Hl as (Hs & Ha & _).
    exists (pre ++ [(Key k (Some (v ++ replicate (blank_lines fs + 1) 10%N ++ trim l)) d, kls ++ fs ++ [l])]). split_and!.
    + rewrite laid_app. cbn [laid fst snd]. split_and!; try done. by apply tail_step.
    + rewrite !block_lines_app. unfold block_lines at 2 4. cbn [map concat snd]. fold (block_lines (skips fs)). rewrite block_lines_skips. by rewrite app_nil_r, <- !app_assoc.
    + subst st. rewrite after_blocks_app in Hrun0 |- *. cbn [after_blocks fst snd] in Hrun0 |- *. rewrite after_skips in Hrun0 by done.
      cbn [after_block fst snd closed current open blanks] in Hrun0 |- *. erewrite read_continued in Hrun0; [|done|done|done|done|done].
      injection Hrun0 as <-. cbn [fmap option_fmap option_map const closed current open blanks push_entry name header entries]. f_equal. unfold push_entry. do 3 f_equal.
      unfold entry_of. cbn [key value prefix indent start]. f_equal; [by destruct kls; [inv Hs|]|]. rewrite block_lines_app. unfold block_lines at 2. cbn [map concat snd].
      fold (block_lines (skips fs)). rewrite block_lines_skips, !length_app. cbn. lia.
  - assert (forall it, (match it with Head _ ind | Key _ _ ind => ind = indent_len l | Skip => False end) -> apart (open st) it) as Hapart.
    { intros it Hit. destruct (last (entries (current st))) as [e|] eqn:Elast.
      - destruct (open st) as [d|] eqn:Ed; [|by destruct it]. destruct (d <? indent_len l) eqn:Elt; [done|]. apply Nat.ltb_ge in Elt.
        destruct it; [done|..]; subst; by intros ? [= <-].
      - destruct (open st) as [d|] eqn:Ed; [|by destruct it]. exfalso. symmetry in Hopen. destruct (open_split bs d Hl Hopen) as (pre & k & v & kls & fs & -> & Hfs).
        subst st. rewrite after_blocks_app in Elast. cbn [after_blocks fst snd] in Elast. rewrite after_skips in Elast by done.
        cbn [after_block fst snd closed current push_entry entries] in Elast. by rewrite last_snoc in Elast. }
    destruct (starts_with u!"[" (trim l)) eqn:Eh.
    + destruct (rfind _ _) as [close|] eqn:Er; [|done]. destruct (bool_decide (trim (slice _ _ _) = [])) eqn:En; [done|]. injection Hrun as <-.
      refine (Hadd (Head (trim (slice (trim l) 1 close)) (indent_len l)) _ _ _); [|by apply Hapart|done].
      constructor; [done|done|]. unfold header_name. rewrite Er. cbn. by rewrite En.
    + destruct (read_key l) as [[k v] p] eqn:Ek. destruct (bool_decide (k = [])) eqn:En; [done|]. apply bool_decide_eq_false in En. injection Hrun as <-.
      refine (Hadd (Key k v (indent_len l)) _ _ _); [|by apply Hapart|].
      * rewrite <- (option_fmap_id v) at 1. replace (id <$> v) with ((fun w => w ++ []) <$> v) by (destruct v; cbn; [by rewrite app_nil_r|done]).
        by eapply (Spells_key l k v p [] []); [..|constructor|].
      * unfold after_block, entry_of. cbn [fst snd nth length]. by rewrite Ek.
Qed.

Lemma read_inv what ls st : read_lines what 0 ls Reading_new = Ok st ->
  exists bs, laid None bs /\ block_lines bs = ls /\ st = after_blocks 0 Reading_new bs.
Proof.
  revert st. induction ls as [|l ls IH] using rev_ind; intros st; [intros [= <-]; by exists []|].
  rewrite read_lines_app. intros (st1 & H1 & H2)%rbind_inv. destruct (IH st1 H1) as (bs & Hl & <- & ->). cbn [read_lines] in H2.
  apply rbind_inv in H2 as (st2 & H2 & [= <-]). by apply (read_line_inv what bs l st2 Hl).
Qed.

(** ** What a file holds *)

(** The keys of all sections, each with the name of its section. *)
Definition all_entries (ss : list IniSection) : list (option str * Entry) := flat_map (fun s => map (pair s.(name)) s.(entries)) ss.

Definition all_sections (st : Reading) : list IniSection := st.(closed) ++ [st.(current)].

Definition section_after (c : option str) (it : Item) : option str := match it with Head n _ => Some n | _ => c end.

Fixpoint keys_of (i : nat) (c : option str) (bs : Blocks) : list (option str * Entry) :=
  match bs with
  | [] => []
  | b :: bs =>
      match b.1 with Key k v ind => [(c, entry_of i k v ind b.2)] | _ => [] end
      ++ keys_of (i + length b.2) (section_after c b.1) bs
  end.

(** The values of a key of a section, in the order of the file. *)
Fixpoint values_of (n : option str) (k : str) (c : option str) (its : list Item) : list (option str) :=
  match its with
  | [] => []
  | it :: its =>
      match it with Key k' v _ => if bool_decide (c = n /\ k' = k) then [v] else [] | _ => [] end
      ++ values_of n k (section_after c it) its
  end.

Fixpoint headers_of (its : list Item) : list str :=
  match its with [] => [] | Head n _ :: its => n :: headers_of its | _ :: its => headers_of its end.

Lemma all_entries_app a b : all_entries (a ++ b) = all_entries a ++ all_entries b.
Proof. apply flat_map_app. Qed.

Lemma keys_of_app i c a b : keys_of i c (a ++ b) = keys_of i c a ++ keys_of (i + length (block_lines a)) (foldl section_after c (map fst a)) b.
Proof.
  revert i c. induction a as [|x a IH]; intros i c; cbn [app keys_of map foldl]; [by rewrite Nat.add_0_r|]. rewrite IH, <- app_assoc.
  change (block_lines (x :: a)) with (x.2 ++ block_lines a). by rewrite length_app, Nat.add_assoc.
Qed.

Lemma values_of_app n k c a b : values_of n k c (a ++ b) = values_of n k c a ++ values_of n k (foldl section_after c a) b.
Proof. revert c. induction a as [|x a IH]; intros c; cbn [app values_of foldl]; [done|]. by rewrite IH, <- app_assoc. Qed.

Lemma headers_of_app a b : headers_of (a ++ b) = headers_of a ++ headers_of b.
Proof. induction a as [|[] a IH]; cbn; [done|..]; by rewrite IH. Qed.

Lemma name_after_blocks i st bs : name (current (after_blocks i st bs)) = foldl section_after (name (current st)) (map fst bs).
Proof. revert i st. induction bs as [|b bs IH]; intros i st; cbn; [done|]. rewrite IH. by destruct b as [[] ?]. Qed.

Lemma entries_after i st bs : all_entries (all_sections (after_blocks i st bs)) = all_entries (all_sections st) ++ keys_of i (name (current st)) bs.
Proof.
  revert i st. induction bs as [|b bs IH]; intros i st; cbn [after_blocks keys_of]; [by rewrite app_nil_r|]. rewrite IH.
  destruct b as [[|n ind|k v ind] ls]; cbn [after_block fst snd current name section_after push_entry]; [done| |].
  - unfold all_sections. cbn [closed current]. rewrite all_entries_app. cbn [all_entries flat_map map name entries]. by rewrite !app_nil_r.
  - unfold all_sections. cbn [closed current]. rewrite !all_entries_app. unfold all_entries at 2 4. cbn [flat_map map name entries push_entry].
    rewrite map_app, !app_nil_r. cbn [map]. by rewrite <- !app_assoc.
Qed.

Lemma names_after i st bs : map name (all_sections (after_blocks i st bs)) = map name (all_sections st) ++ map Some (headers_of (map fst bs)).
Proof.
  revert i st. induction bs as [|b bs IH]; intros i st; cbn [after_blocks map headers_of]; [by rewrite app_nil_r|]. rewrite IH.
  destruct b as [[|n ind|k v ind] ls]; cbn [after_block fst snd headers_of]; unfold all_sections; cbn [closed current]; rewrite !map_app; cbn [map name push_entry]; [done| |done].
  by rewrite <- !app_assoc.
Qed.

Definition of_key (n : option str) (k : str) (p : option str * Entry) : bool := bool_decide (p.1 = n /\ p.2.(key) = k).

Lemma find_rev {A} (f : A -> bool) l : List.find f (rev l) = last (List.filter f l).
Proof.
  induction l as [|x l IH] using rev_ind; [done|]. rewrite rev_app_distr, List.filter_app. cbn. destruct (f x); [by rewrite last_snoc|by rewrite app_nil_r].
Qed.

Lemma flat_map_rev {A B} (f : A -> list B) l : flat_map (fun x => rev (f x)) (rev l) = rev (flat_map f l).
Proof. induction l as [|x l IH]; [done|]. cbn [rev]. rewrite flat_map_app. cbn [flat_map]. by rewrite app_nil_r, rev_app_distr, IH. Qed.

Lemma filter_rev_bool {A} (f : A -> bool) l : List.filter f (rev l) = rev (List.filter f l).
Proof. induction l as [|x l IH]; [done|]. cbn. rewrite List.filter_app, IH. cbn. by destruct (f x); [|rewrite app_nil_r]. Qed.

Lemma filter_section n k ss :
  List.filter (fun e => bool_decide (e.(key) = k)) (flat_map entries (List.filter (fun s => bool_decide (s.(name) = n)) ss))
  = map snd (List.filter (of_key n k) (all_entries ss)).
Proof.
  induction ss as [|s ss IH]; [done|]. unfold all_entries. cbn [flat_map List.filter]. rewrite List.filter_app, map_app. fold (all_entries ss). rewrite <- IH.
  assert (map snd (List.filter (of_key n k) (map (pair (name s)) (entries s)))
    = if bool_decide (name s = n) then List.filter (fun e => bool_decide (e.(key) = k)) (entries s) else []) as ->.
  { induction (entries s) as [|e es IHe]; [by case_bool_decide|]. cbn [map List.filter]. unfold of_key at 1. cbn [fst snd]. revert IHe.
    destruct (bool_decide (name s = n)) eqn:E1; bool_prop; intros IHe; repeat case_bool_decide; cbn [map]; rewrite ?IHe; naive_solver. }
  case_bool_decide; [cbn [flat_map]; by rewrite List.filter_app|done].
Qed.

Lemma get_last d n k : get d n k = snd <$> last (List.filter (of_key n k) (all_entries d.(sections))).
Proof.
  unfold get. rewrite filter_rev_bool, (flat_map_rev entries), find_rev, filter_section. generalize (List.filter (of_key n k) (all_entries (sections d))) as l.
  intros l. destruct (decide (l = [])) as [->|Hne]; [done|]. destruct (exists_last Hne) as (l' & x & ->). rewrite map_app. cbn [map]. by rewrite !last_snoc.
Qed.

(** A document that was read. *)
Lemma parse_inv text what d : parse text what = Ok d ->
  exists bs, laid None bs /\ block_lines bs = d.(doc_lines) /\ d.(doc_lines) = lines (without_bom text)
    /\ d.(sections) = all_sections (after_blocks 0 Reading_new bs).
Proof.
  unfold parse. intros (st & Hst & [= <-])%rbind_inv. destruct (read_inv _ _ _ Hst) as (bs & Hl & Hb & ->). by exists bs.
Qed.

Lemma read_entries bs : all_entries (all_sections (after_blocks 0 Reading_new bs)) = keys_of 0 None bs.
Proof. apply entries_after. Qed.

Lemma keys_values n k i c bs : map (fun p => p.2.(value)) (List.filter (of_key n k) (keys_of i c bs)) = values_of n k c (map fst bs).
Proof.
  revert i c. induction bs as [|b bs IH]; intros i c; [done|]. cbn [keys_of map values_of]. rewrite List.filter_app, map_app, IH. f_equal.
  destruct b as [[|m ind|k' v ind] ls]; cbn [fst snd]; [done..|]. cbn [List.filter]. unfold of_key, entry_of. cbn [fst snd key]. by case_bool_decide.
Qed.

(** What is asked of a document is a question about its blocks. *)
Lemma get_values d bs n k : d.(sections) = all_sections (after_blocks 0 Reading_new bs) ->
  value <$> get d n k = last (values_of n k None (map fst bs)).
Proof.
  intros Hd. rewrite get_last, Hd, read_entries, <- (keys_values n k 0). generalize (List.filter (of_key n k) (keys_of 0 None bs)) as l. intros l.
  destruct (decide (l = [])) as [->|Hne]; [done|]. destruct (exists_last Hne) as (l' & x & ->). rewrite map_app. cbn [map]. by rewrite !last_snoc.
Qed.

Lemma has_section_headers d bs n : d.(sections) = all_sections (after_blocks 0 Reading_new bs) ->
  has_section d n = match n with Some n => bool_decide (n ∈ headers_of (map fst bs)) | None => true end.
Proof.
  intros Hd. unfold has_section. destruct n as [n|]; [|done]. rewrite bool_decide_eq_false_2 by done. cbn [orb]. apply Bool.eq_true_iff_eq.
  rewrite existsb_exists, bool_decide_eq_true. transitivity (Some n ∈ map name (sections d)).
  - rewrite list_elem_of_In, in_map_iff. split; [intros (s & ? & ?%bool_decide_eq_true); eauto|intros (s & ? & ?); exists s; by rewrite bool_decide_eq_true].
  - rewrite Hd, names_after, elem_of_app. rewrite !list_elem_of_In, (in_map_iff Some). cbn. split; [intros [[?|[]]|(? & [= ->] & ?)]; done|intros ?; right; eauto].
Qed.
