(* ===== verification/IniEdit.v ===== *)
(** * Edits of INI files, block by block

    Lines that are copied to another indent, keys that get another value, the places where keys are inserted, and what the loop of
    [merge] makes of the edits. *)

From S2P Require Import Prelude RustStr Decimals Ini IniFacts.

(** ** Lines that set a key *)

Definition nonblank_head (s : str) : Prop := match s with c :: _ => is_whitespace c = false | [] => False end.
Definition no_delim (s : str) : Prop := forallb (fun c => negb (is_delim c)) s = true.

Lemma str_to_from s p : str_to s p ++ str_from s p = s.
Proof. revert p. induction s as [|c s IH]; intros [|p]; cbn [str_to str_from app]; [done..|]. by rewrite IH. Qed.

Lemma delim_not_blank d : is_delim d = true -> is_whitespace d = false /\ d <> c!"[" /\ one_of u!"#;" d = false.
Proof. unfold is_delim. intros H%one_of_true. cbn in H. by destruct H as [<-|[<-|[]]]. Qed.

Lemma delim_one_byte d : is_delim d = true -> len_utf8 d = 1.
Proof. unfold is_delim. intros H%one_of_true. cbn in H. by destruct H as [<-|[<-|[]]]. Qed.

Lemma head_split s : nonblank_head s -> exists c r, s = c :: r /\ is_whitespace c = false.
Proof. destruct s as [|c r]; [done|]. by exists c, r. Qed.

Lemma indent_of_text a s : blank a = true -> nonblank_head s -> indent_len (a ++ s) = len a.
Proof. intros Ha (c & r & -> & Hc)%head_split. by apply indent_of_split. Qed.

Lemma text_kind a c r : blank a = true -> is_whitespace c = false ->
  skipped (a ++ c :: r) = one_of u!"#;" c /\ is_header (a ++ c :: r) = (c!"[" =? c)%N.
Proof.
  intros Ha Hc. unfold skipped, is_header. destruct (trim_head a c r Ha Hc) as [r' ->]. split; [done|]. unfold starts_with. cbn [strip_prefix str_of map].
  by destruct (_ =? _)%N.
Qed.

Lemma find_no_match f s : forallb (fun c => negb (f c)) s = true -> find f s = None.
Proof.
  unfold find. generalize 0. induction s as [|c s IH]; intros p; cbn [forallb find_at]; [done|]. intros [Hc Hs]%andb_true_iff. destruct (f c); [done|by apply IH].
Qed.

Lemma read_key_alone a s : blank a = true -> nonblank_head s -> no_delim s -> read_key (a ++ s) = (trim s, None, None).
Proof. intros Ha Hs Hd. unfold read_key. rewrite indent_of_text, str_from_app by done. by rewrite find_no_match. Qed.

(** The text before a value. *)
Definition key_prefix (a kt : str) (d : char) (after : str) : str :=
  a ++ kt ++ d :: take_while is_whitespace after ++ (if bool_decide (after = []) then u!" " else []).

Lemma len_trim_start s : len s - len (trim_start s) = len (take_while is_whitespace s).
Proof. rewrite <- (take_drop_while is_whitespace s) at 1. rewrite len_app. unfold trim_start, trim_start_matches. lia. Qed.

Lemma read_key_value a kt d after : blank a = true -> nonblank_head (kt ++ [d]) -> no_delim kt -> is_delim d = true ->
  read_key (a ++ kt ++ d :: after) = (trim kt, Some (trim after), Some (key_prefix a kt d after)).
Proof.
  intros Ha Hh Hk Hd. unfold read_key. rewrite indent_of_text; [|done|by destruct kt]. rewrite str_from_app, find_first by done.
  assert (kt ++ d :: after = (kt ++ [d]) ++ after) as Es by (by rewrite <- app_assoc).
  rewrite str_to_app, len_trim_start. rewrite Es. replace (len kt + 1) with (len (kt ++ [d])) by (rewrite len_app; cbn; rewrite delim_one_byte by done; lia).
  rewrite str_from_app. f_equal. f_equal. unfold key_prefix. set (sp := take_while is_whitespace after).
  assert (str_to (a ++ (kt ++ [d]) ++ after) (len a + len kt + 1 + len sp) = a ++ (kt ++ [d]) ++ sp) as ->.
  { replace (len a + len kt + 1 + len sp) with (len (a ++ (kt ++ [d]) ++ sp)) by (rewrite !len_app; cbn; rewrite delim_one_byte by done; lia).
    etrans; [|apply (str_to_app (a ++ (kt ++ [d]) ++ sp) (drop_while is_whitespace after))]. f_equal. rewrite <- !app_assoc. subst sp. by rewrite take_drop_while. }
  destruct (decide (after = [])) as [->|Hne]; [by rewrite <- !app_assoc|]. rewrite (bool_decide_eq_false_2 (after = [])) by done.
  replace (bool_decide (trim after = []) && (len (take_while is_whitespace after) =? 0)) with false; [by rewrite app_nil_r, <- !app_assoc|].
  symmetry. apply andb_false_iff. destruct after as [|c after]; [done|]. cbn [take_while]. destruct (is_whitespace c) eqn:Ec.
  - right. apply Nat.eqb_neq. cbn. pose proof (len_utf8_pos c). lia.
  - left. apply bool_decide_eq_false. intros H%trim_blank. cbn in H. by rewrite Ec in H.
Qed.

(** Every line that sets a key is one of these. *)
Inductive KeyLine : str -> str -> option str -> option str -> str -> Prop :=
| KeyAlone a s : blank a = true -> nonblank_head s -> no_delim s -> KeyLine a (trim s) None None (a ++ s)
| KeyValue a kt d after : blank a = true -> nonblank_head (kt ++ [d]) -> no_delim kt -> is_delim d = true ->
    KeyLine a (trim kt) (Some (trim after)) (Some (key_prefix a kt d after)) (a ++ kt ++ d :: after).

Lemma split_delim s : no_delim s \/ exists kt d after, s = kt ++ d :: after /\ no_delim kt /\ is_delim d = true.
Proof.
  induction s as [|c s IH]; [by left|]. destruct (is_delim c) eqn:Ec; [right; by exists [], c, s|].
  destruct IH as [H|(kt & d & after & -> & Hk & Hd)]; [left|right; exists (c :: kt), d, after; split_and!; try done]; unfold no_delim in *; cbn [forallb]; by rewrite Ec.
Qed.

Lemma read_key_inv l : trim l <> [] -> exists a k v p, read_key l = (k, v, p) /\ KeyLine a k v p l.
Proof.
  intros (a & c & r & -> & Ha & Hc)%blank_trim_nil. destruct (split_delim (c :: r)) as [Hd|(kt & d & after & E & Hk & Hd)].
  - exists a, (trim (c :: r)), None, None. split; [by apply read_key_alone|by constructor].
  - rewrite E. assert (nonblank_head (kt ++ [d])) by (by destruct kt; injection E as -> ->).
    eexists a, _, _, _. split; [by apply read_key_value|by constructor].
Qed.

Lemma key_line_read a k v p l : KeyLine a k v p l -> read_key l = (k, v, p) /\ indent_len l = len a /\ blank a = true.
Proof.
  intros []; (split_and!; [|rewrite indent_of_text|]); try done; [by apply read_key_alone|by apply read_key_value|by destruct kt].
Qed.

(** ** Whitespace at the ends of lines *)

Lemma skipped_trail l b : blank b = true -> skipped (l ++ b) = skipped l.
Proof. intros Hb. unfold skipped. by rewrite trim_app_blank. Qed.

Lemma blank_prefix a b : blank (a ++ b) = true -> blank a = true.
Proof. rewrite blank_app. by intros [? _]%andb_true_iff. Qed.

(** A line that is not blank keeps its text when whitespace behind it goes. *)
Lemma indent_trail l b : trim l <> [] -> indent_len (l ++ b) = indent_len l.
Proof.
  intros (a & c & r & -> & Ha & Hc)%blank_trim_nil. rewrite <- app_assoc. cbn [app]. by rewrite !indent_of_split.
Qed.

Lemma not_skipped_text l : skipped l = false -> trim l <> [].
Proof. unfold skipped. by intros [?%bool_decide_eq_false _]%orb_false_iff. Qed.

Lemma read_key_trail l b k v p : skipped l = false -> blank b = true -> read_key (l ++ b) = (k, v, p) -> exists p', read_key l = (k, v, p').
Proof.
  intros Hl%not_skipped_text Hb Hk. destruct (read_key_inv l Hl) as (a & k' & v' & p' & Hread & Hline). exists p'. rewrite Hread. f_equal. f_equal.
  - destruct Hline as [a s Ha Hs Hd|a kt d after Ha Hs Hn Hd]; rewrite <- !app_assoc in Hk.
    + destruct (split_delim b) as [Hnb|(kt & d & after & -> & _ & Hd')].
      * rewrite read_key_alone in Hk; [|done|by destruct s|unfold no_delim in *; by rewrite forallb_app, Hd]. injection Hk as <- _ _. by rewrite trim_app_blank.
      * exfalso. rewrite blank_app in Hb. cbn in Hb. destruct (delim_not_blank d Hd') as [Hw _]. rewrite Hw in Hb. by rewrite andb_false_r in Hb.
    + cbn [app] in Hk. rewrite read_key_value in Hk by done. by injection Hk as <- _ _.
  - destruct Hline as [a s Ha Hs Hd|a kt d after Ha Hs Hn Hd]; rewrite <- !app_assoc in Hk.
    + destruct (split_delim b) as [Hnb|(kt & d & after & -> & _ & Hd')].
      * rewrite read_key_alone in Hk; [|done|by destruct s|unfold no_delim in *; by rewrite forallb_app, Hd]. by injection Hk as _ <- _.
      * exfalso. rewrite blank_app in Hb. cbn in Hb. destruct (delim_not_blank d Hd') as [Hw _]. rewrite Hw in Hb. by rewrite andb_false_r in Hb.
    + cbn [app] in Hk. rewrite read_key_value in Hk by done. injection Hk as _ <- _. by rewrite trim_app_blank.
Qed.

(** [l] is [l'] without some of the whitespace behind it. *)
Definition shortened (l' l : str) : Prop := exists b, l' = l ++ b /\ blank b = true.

Lemma blank_lines_shortened fs fs' : Forall2 shortened fs fs' -> blank_lines fs' = blank_lines fs /\ forallb skipped fs' = forallb skipped fs.
Proof.
  unfold blank_lines. induction 1 as [|l l' fs fs' (b & -> & Hb) _ [IH1 IH2]]; [done|]. cbn [List.filter forallb]. rewrite skipped_trail, IH2, trim_app_blank by done. split; [|done].
  by case_bool_decide; cbn [length]; rewrite IH1.
Qed.

Lemma tail_shortened ind tl v tl' : Tail ind tl v -> Forall2 shortened tl tl' -> Tail ind tl' v.
Proof.
  intros Ht. revert tl'. induction Ht as [|tl v fs l Ht IH Hfs Hl Hd]; intros tl' H; [apply Forall2_nil_inv_l in H as ->; constructor|].
  apply Forall2_app_inv_l in H as (tl1 & rest & Htl & (fs1 & rest1 & Hf & (l1 & ? & (b & -> & Hb) & ->%Forall2_nil_inv_l & ->)%Forall2_cons_inv_l & ->)%Forall2_app_inv_l & ->).
  destruct (blank_lines_shortened fs fs1 Hf) as [Hn Hs]. rewrite skipped_trail in Hl by done. rewrite indent_trail in Hd by by apply not_skipped_text.
  rewrite trim_app_blank, <- Hn by done. constructor; [by apply IH|by rewrite Hs|done|done].
Qed.

Lemma spells_shortened it ls ls' : Spells it ls -> Forall2 shortened ls ls' -> Spells it ls'.
Proof.
  intros Hs H. destruct Hs as [l Hl|l n Hl Hh Hn|l k v0 p tl v Hl Hh Hk Hne Ht Hv];
    apply Forall2_cons_inv_l in H as (l1 & tl1 & (b & -> & Hb) & Htl & ->); rewrite skipped_trail in Hl by done.
  - apply Forall2_nil_inv_l in Htl as ->. by constructor.
  - apply Forall2_nil_inv_l in Htl as ->. unfold is_header, header_name in *. rewrite trim_app_blank in Hh, Hn by done. rewrite indent_trail by by apply not_skipped_text.
    by constructor.
  - destruct (read_key_trail l1 b k v0 p Hl Hb Hk) as [p' Hk']. unfold is_header in Hh. rewrite trim_app_blank in Hh by done.
    rewrite indent_trail in Ht |- * by by apply not_skipped_text. apply (Spells_key l1 k v0 p' tl1 v); [done..|by eapply tail_shortened|].
    intros ->%Hv. by apply Forall2_nil_inv_l in Htl.
Qed.

(** ** Moving lines *)

Lemma str_get_from_blank a s n : n <= len a -> blank a = true -> exists x, blank x = true /\ (n < len a -> x <> []) /\ str_get_from (a ++ s) n = x ++ s.
Proof.
  intros Hn Ha. unfold str_get_from. destruct (len (str_to (a ++ s) n) =? n) eqn:E; [|exists a; split_and!; [done|by destruct a; cbn; [lia|]|done]].
  apply Nat.eqb_eq in E. pose proof (str_to_from (a ++ s) n) as Hs. apply app_eq_inv in Hs as [(k & E1 & E2)|(k & E1 & E2)].
  - rewrite E1, len_app in E. assert (k = []) as -> by (apply len_nil_inv; lia). exists []. cbn in E2. split_and!; [done|cbn in E; rewrite Nat.add_0_r in E; lia|done].
  - exists k. split_and!; [|intros Hlt ->; rewrite app_nil_r in E1; rewrite <- E1 in E; lia|done]. rewrite E1, blank_app in Ha. by apply andb_true_iff in Ha as [_ ?].
Qed.

Lemma move_text from ind a c r : blank ind = true -> blank a = true -> is_whitespace c = false ->
  exists x, blank x = true /\ (from < len a -> x <> []) /\ (len a = from -> x = []) /\ move_line from ind (a ++ c :: r) = (ind ++ x) ++ c :: r.
Proof.
  intros Hi Ha Hc. unfold move_line. rewrite bool_decide_eq_false_2 by (destruct (trim_head a c r Ha Hc) as [? ->]; done).
  rewrite indent_of_split by done. destruct (decide (from < len a)) as [Hlt|Hge].
  - destruct (str_get_from_blank a (c :: r) (min (len a) from)) as (x & Hx & Hne & ->); [lia|done|]. exists x. split_and!; [done|intros _; apply Hne; lia|lia|by rewrite <- app_assoc].
  - exists []. split_and!; [done|lia|done|]. replace (min (len a) from) with (len a) by lia. unfold str_get_from.
    rewrite str_to_app, str_from_app, Nat.eqb_refl. by rewrite app_nil_r.
Qed.

Lemma move_skipped from ind l : blank ind = true -> skipped l = true ->
  skipped (move_line from ind l) = true /\ bool_decide (trim (move_line from ind l) = []) = bool_decide (trim l = []).
Proof.
  intros Hi Hs. destruct (decide (trim l = [])) as [E|E].
  - unfold move_line. by rewrite bool_decide_eq_true_2.
  - apply blank_trim_nil in E as (a & c & r & -> & Ha & Hc). destruct (move_text from ind a c r Hi Ha Hc) as (x & Hx & _ & _ & ->).
    assert (blank (ind ++ x) = true) as Hix by (by rewrite blank_app, Hi, Hx).
    destruct (text_kind a c r Ha Hc) as [E _]. destruct (text_kind (ind ++ x) c r Hix Hc) as [E' _]. split; [congruence|].
    destruct (trim_head a c r Ha Hc) as [? ->], (trim_head (ind ++ x) c r Hix Hc) as [? ->]. done.
Qed.

Lemma move_skipped_all from ind fs : blank ind = true -> forallb skipped fs = true ->
  forallb skipped (map (move_line from ind) fs) = true /\ blank_lines (map (move_line from ind) fs) = blank_lines fs.
Proof.
  intros Hi. unfold blank_lines. induction fs as [|l fs IH]; [done|]. cbn [forallb map List.filter]. intros [Hl Hfs]%andb_true_iff.
  destruct (IH Hfs) as [H1 H2], (move_skipped from ind l Hi Hl) as [H3 H4]. rewrite H1, H3, H4. split; [done|]. destruct (bool_decide (trim l = [])); cbn [length]; congruence.
Qed.

Lemma trim_text a a' s : blank a = true -> blank a' = true -> trim (a ++ s) = trim (a' ++ s).
Proof. intros Ha Ha'. by rewrite !trim_blank_app. Qed.

Lemma move_continued from ind l : blank ind = true -> skipped l = false -> from < indent_len l ->
  skipped (move_line from ind l) = false /\ len ind < indent_len (move_line from ind l) /\ trim (move_line from ind l) = trim l.
Proof.
  intros Hi Hs Hd. apply not_skipped_text in Hs as E. apply blank_trim_nil in E as (a & c & r & -> & Ha & Hc). rewrite indent_of_split in Hd by done.
  destruct (move_text from ind a c r Hi Ha Hc) as (x & Hx & Hne & _ & ->). assert (blank (ind ++ x) = true) as Hix by (by rewrite blank_app, Hi, Hx).
  destruct (text_kind a c r Ha Hc) as [E _]. destruct (text_kind (ind ++ x) c r Hix Hc) as [E' _]. split_and!; [congruence| |by apply trim_text].
  rewrite indent_of_split, len_app by done. specialize (Hne Hd). destruct x as [|y x]; [done|]. cbn. pose proof (len_utf8_pos y). lia.
Qed.

Lemma tail_moved from ind tl v : blank ind = true -> Tail from tl v -> Tail (len ind) (map (move_line from ind) tl) v.
Proof.
  intros Hi. induction 1 as [|tl v fs l Ht IH Hfs Hl Hd]; [constructor|]. rewrite !map_app. destruct (move_skipped_all from ind fs Hi Hfs) as [Hfs' Hn].
  destruct (move_continued from ind l Hi Hl Hd) as (Hl' & Hd' & Hv). rewrite <- Hv, <- Hn. by constructor.
Qed.

Lemma key_line_moved a k v p l ind : blank ind = true -> KeyLine a k v p l -> exists p', KeyLine ind k v p' (move_line (len a) ind l) /\ trim (move_line (len a) ind l) = trim l.
Proof.
  intros Hi [a' s Ha Hs Hd|a' kt d after Ha Hh Hn Hd].
  - destruct (head_split s Hs) as (c & r & -> & Hc). destruct (move_text (len a') ind a' c r Hi Ha Hc) as (x & _ & _ & Hx & ->). rewrite Hx, app_nil_r by done.
    eexists. split; [by constructor|by apply trim_text].
  - destruct (head_split (kt ++ [d]) Hh) as (c & r & E & Hc). assert (kt ++ d :: after = c :: r ++ after) as Es by (change (d :: after) with ([d] ++ after); by rewrite app_assoc, E).
    rewrite Es. destruct (move_text (len a') ind a' c (r ++ after) Hi Ha Hc) as (x & _ & _ & Hx & ->). rewrite Hx, app_nil_r, <- Es by done.
    eexists. split; [by constructor|by apply trim_text].
Qed.

(** A copied key is the same key at its new indent. *)
Lemma spells_copied k v from ind ls : blank ind = true -> Spells (Key k v from) ls -> Spells (Key k v (len ind)) (map (move_line from ind) ls).
Proof.
  intros Hi Hs. inversion Hs as [| |l k' v0 p tl w Hsk Hh Hk Hne Ht Hv Ek Els]; subst. apply not_skipped_text in Hsk as Htext.
  destruct (read_key_inv l Htext) as (a & k' & v' & p' & Hr & Hline). rewrite Hk in Hr. injection Hr as <- <- <-. destruct (key_line_read _ _ _ _ _ Hline) as (_ & Hind & Ha).
  destruct (key_line_moved a k v0 p l ind Hi Hline) as (p' & Hline' & Htrim). rewrite <- Hind in Hline', Htrim. destruct (key_line_read _ _ _ _ _ Hline') as (Hr & Hind' & _).
  cbn [map]. rewrite <- Hind'. apply (Spells_key _ k v0 p' _ w); [| |exact Hr|done|rewrite Hind'; by apply tail_moved|by intros ->%Hv].
  - unfold skipped in *. by rewrite Htrim.
  - unfold is_header in *. by rewrite Htrim.
Qed.

(** ** Replaced values *)

(** How the text of a key begins. *)
Definition key_start (s : str) : Prop := exists c r, s = c :: r /\ is_whitespace c = false /\ one_of u!"#;" c = false /\ c <> c!"[".

Lemma key_start_line a s : blank a = true -> key_start s -> skipped (a ++ s) = false /\ is_header (a ++ s) = false.
Proof.
  intros Ha (c & r & -> & Hw & Hc & Hh). destruct (text_kind a c r Ha Hw) as [-> ->]. split; [done|]. apply N.eqb_neq. congruence.
Qed.

Lemma key_start_app s t : key_start s -> key_start (s ++ t).
Proof. intros (c & r & -> & H). by exists c, (r ++ t). Qed.

Lemma trim_nonblank s : nonblank_head s -> exists b, s = trim s ++ b /\ blank b = true /\ trim s <> [].
Proof.
  intros (c & r & -> & Hc)%head_split. destruct (trim_head [] c r eq_refl Hc) as [r' E]. cbn [app] in E. destruct (trim_end_split (c :: r)) as (b & Hb & ?).
  exists b. assert (trim (c :: r) = trim_end (c :: r)) as Et by (unfold trim; rewrite (trim_start_text [] c r eq_refl Hc : trim_start (c :: r) = _); done).
  rewrite Et, <- Hb. split_and!; [done..|]. by rewrite <- Et, E.
Qed.

Lemma no_delim_app a b : no_delim (a ++ b) <-> no_delim a /\ no_delim b.
Proof. unfold no_delim. by rewrite forallb_app, andb_true_iff. Qed.

(** The key of a line, as it can be written again. *)
Lemma key_of_line a k v p l : KeyLine a k v p l -> skipped l = false -> is_header l = false -> k <> [] -> key_start k /\ no_delim k /\ trim k = k.
Proof.
  intros Hline Hs Hh Hne. assert (forall s, nonblank_head s -> trim s = k -> no_delim s -> (exists t, l = a ++ s ++ t) -> key_start k /\ no_delim k /\ trim k = k) as Hcase.
  { intros s Hn <- Hd [t ->]. destruct (trim_nonblank s Hn) as (b & Hb & _ & _). split_and!; [|rewrite Hb in Hd; by apply no_delim_app in Hd as [? _]|apply trim_idem].
    destruct (head_split s Hn) as (c & r & -> & Hc). destruct (trim_head [] c r eq_refl Hc) as [r' E]. cbn [app] in E. rewrite E. exists c, r'. split_and!; [done..| |];
      assert (blank a = true) as Ha by (by inv Hline); destruct (text_kind a c (r ++ t) Ha Hc) as [E1 E2]; cbn [app] in Hs, Hh.
    - congruence.
    - intros ->. rewrite E2 in Hh. done. }
  destruct Hline as [a s Ha Hn Hd|a kt d after Ha Hn Hk Hd].
  - apply (Hcase s); [done..|exists []; by rewrite app_nil_r].
  - apply (Hcase kt); [|done..|by exists (d :: after)]. by destruct kt.
Qed.

Lemma spells_value a kt d after k tl v : blank a = true -> key_start kt -> no_delim kt -> is_delim d = true -> trim kt = k -> k <> [] -> Tail (len a) tl v ->
  Spells (Key k (Some (trim after ++ v)) (len a)) ((a ++ kt ++ d :: after) :: tl).
Proof.
  intros Ha Hs Hn Hd Hk Hne Ht. destruct (key_start_line a (kt ++ d :: after) Ha (key_start_app _ _ Hs)) as [H1 H2].
  assert (nonblank_head (kt ++ [d])) as Hh by (by destruct Hs as (c & r & -> & Hc & _)).
  assert (indent_len (a ++ kt ++ d :: after) = len a) as Hi by (apply indent_of_text; [done|by destruct Hs as (c & r & -> & Hc & _)]).
  rewrite <- Hi. apply (Spells_key _ k (Some (trim after)) (Some (key_prefix a kt d after)) tl v); [done..| |done|by rewrite Hi|done].
  rewrite <- Hk. by apply read_key_value.
Qed.

Lemma trim_end_prefix a kt d after : is_delim d = true -> trim_end (key_prefix a kt d after) = a ++ kt ++ [d].
Proof.
  intros [Hd _]%delim_not_blank. unfold key_prefix. set (b := _ ++ (if bool_decide _ then _ else _)).
  replace (a ++ kt ++ d :: b) with ((a ++ kt ++ [d]) ++ b) by (by rewrite <- !app_assoc). rewrite trim_end_app.
  - unfold trim_end, trim_end_matches. rewrite !reverse_app, reverse_singleton. cbn [app drop_while]. rewrite Hd, reverse_cons, reverse_app, !reverse_involutive. by rewrite <- app_assoc.
  - subst b. rewrite blank_app. unfold blank at 1. rewrite take_while_forall. by case_bool_decide.
Qed.

Lemma spells_alone a k : blank a = true -> key_start k -> no_delim k -> trim k = k -> Spells (Key k None (len a)) [a ++ k].
Proof.
  intros Ha Hs Hn Hk. destruct (key_start_line a k Ha Hs) as [H1 H2]. assert (nonblank_head k) as Hh by (by destruct Hs as (c & r & -> & Hc & _)).
  rewrite <- (indent_of_text a k) by done. apply (Spells_key _ k None None [] []); [done..| |by destruct Hs as (? & ? & -> & _)|constructor|done].
  rewrite <- Hk at 2. by apply read_key_alone.
Qed.

Definition first_line (v : str) : str := match lines v with l :: _ => l | [] => [] end.

Lemma strip_cr_trimmed v : trimmed v -> strip_cr v = v.
Proof.
  intros [_ H]. unfold strip_cr. destruct (reverse v) as [|c r] eqn:E; [done|]. destruct (c =? 13)%N eqn:Ec; [|done]. apply N.eqb_eq in Ec as ->.
  apply (f_equal reverse) in E. rewrite reverse_involutive, reverse_cons in E. by specialize (H _ _ E).
Qed.

Lemma first_line_app v0 v : trimmed v0 -> 10%N ∉ v0 -> (v = [] \/ exists w, v = 10%N :: w) -> first_line (v0 ++ v) = v0.
Proof.
  intros Ht Hn Hv. unfold first_line, lines. destruct Hv as [->|[w ->]].
  - rewrite app_nil_r, split_on_none by done. cbn. by destruct v0.
  - rewrite split_on_head by done. pose proof (split_on_nonempty (N.eqb 10) w). destruct (split_on _ w) as [|x r]; [done|]. cbn. by apply strip_cr_trimmed.
Qed.

Lemma tail_text ind tl v : Tail ind tl v -> v = [] \/ exists w, v = 10%N :: w.
Proof.
  induction 1 as [|tl v fs l _ [->|[w ->]] _ _ _]; [by left| |].
  - right. rewrite Nat.add_1_r. cbn. eauto.
  - right. cbn. eauto.
Qed.

Lemma trim_subset s : forall c, c ∈ trim s -> c ∈ s.
Proof. intros c Hc. destruct (trim_split s) as (a & b & -> & _). set_solver. Qed.

Lemma value_text a k v p l v0 : KeyLine a k v p l -> v = Some v0 -> trimmed v0 /\ (10%N ∉ l -> 10%N ∉ v0).
Proof.
  intros Hline Hv. destruct Hline as [|a kt d after]; [done|]. injection Hv as <-. split; [apply trim_trimmed|]. intros Hl Hin%trim_subset. set_solver.
Qed.

Lemma blank_take_while s : blank (take_while is_whitespace s) = true.
Proof. apply take_while_forall. Qed.

(** The replacement of a key is the key with the value of the source. *)
Lemma spells_replaced a k tv tp l e sv f tl : KeyLine a k tv tp l -> skipped l = false -> is_header l = false -> k <> [] ->
  e.(key) = k -> e.(prefix) = tp -> Spells (Key k sv (len a)) (f :: tl) -> 10%N ∉ f ->
  Spells (Key k sv (len a)) (replacement_line a e (first_line <$> sv) :: tl).
Proof.
  intros Hline Hsk Hhd Hne He Hp Hs Hf. destruct (key_of_line _ _ _ _ _ Hline Hsk Hhd Hne) as (Hks & Hkd & Hkt).
  destruct (key_line_read _ _ _ _ _ Hline) as (_ & _ & Ha). inversion Hs as [| |l' k' v0 p' tl' w Hs1 Hh1 Hk1 _ Ht Hv0 [Ek Ev] Els]; subst. apply not_skipped_text in Hs1.
  destruct (read_key_inv f Hs1) as (a' & k' & v' & p'' & Hr & Hline'). rewrite Hk1 in Hr. injection Hr as <- <- <-.
  match goal with H : indent_len f = len a |- _ => rewrite H in Ht |- * end.
  destruct v0 as [v0|]; cbn [fmap option_fmap option_map].
  2:{ rewrite Hv0 by done. unfold replacement_line. by apply spells_alone. }
  destruct (value_text _ _ _ _ _ v0 Hline' eq_refl) as [Htr Hnl]. rewrite first_line_app; [|done|by apply Hnl|by eapply tail_text].
  assert (forall x, blank x = true -> trim (x ++ v0) = v0) as Hv by (intros x Hx; rewrite <- (app_nil_r v0) at 1; by apply trim_of).
  assert (forall kt d after, key_start kt -> no_delim kt -> is_delim d = true -> trim kt = key e -> trim after = v0 ->
    Spells (Key (key e) (Some (v0 ++ w)) (len a)) ((a ++ kt ++ d :: after) :: tl)) as Hput.
  { intros kt d after H1 H2 H3 H4 H5. rewrite <- H5 at 1. by apply spells_value. }
  unfold replacement_line. inversion Hline as [a0 s Ha' Hn Hd E1 E2 E3 E4|a0 kt d after Ha' Hn Hd Hdl E1 E2 E3 E4].
  - rewrite ?E2. assert (forall after, trim after = v0 -> Spells (Key (key e) (Some (v0 ++ w)) (len a)) ((a ++ (key e ++ u!" ") ++ c!"=" :: after) :: tl)) as Hnew.
    { intros after Hafter. apply Hput; [by apply key_start_app|by apply no_delim_app|done|by rewrite trim_app_blank|done]. }
    case_bool_decide as E; [specialize (Hnew [])|specialize (Hnew (u!" " ++ v0))]; rewrite <- (app_assoc (key e)) in Hnew; apply Hnew; [by rewrite E|by apply Hv].
  - rewrite ?E2. assert (key_start kt) as Hkt0.
    { destruct (trim_nonblank kt) as (b & Hb & _ & _); [destruct kt; [by subst|done]|]. rewrite Hb, E2. by apply key_start_app. }
    case_bool_decide as E.
    + assert (trim_end (key_prefix a kt d after) = a ++ kt ++ d :: []) as ->; [by apply trim_end_prefix|]. by apply Hput; rewrite ?E.
    + unfold key_prefix. rewrite <- !app_assoc. cbn [app]. rewrite <- !app_assoc. apply Hput; [done..|]. rewrite app_assoc. apply Hv.
      rewrite blank_app, blank_take_while. by case_bool_decide.
Qed.

(** ** Effective values *)

Section Put.

Context {K V : Type} `{EqDecision K}.

Lemma lookup_put (m : list (K * V)) k v k' : lookup_entry (put m k v) k' = if bool_decide (k = k') then Some v else lookup_entry m k'.
Proof.
  induction m as [|[k1 v1] m IH]; cbn [put lookup_entry fst snd]; [done|]. destruct (decide (k1 = k)) as [->|Hne].
  - rewrite (bool_decide_eq_true_2 (k = k)) by done. cbn [lookup_entry fst snd]. by case_bool_decide.
  - rewrite (bool_decide_eq_false_2 (k1 = k)) by done. cbn [lookup_entry fst snd]. rewrite IH. repeat case_bool_decide; by subst.
Qed.

Lemma put_keys (m : list (K * V)) k v : map fst (put m k v) = if bool_decide (k ∈ map fst m) then map fst m else map fst m ++ [k].
Proof.
  induction m as [|[k1 v1] m IH]; cbn [put map fst]; [done|]. destruct (decide (k1 = k)) as [->|Hne].
  - rewrite (bool_decide_eq_true_2 (k = k)) by done. cbn [map fst]. by rewrite bool_decide_eq_true_2 by left.
  - rewrite (bool_decide_eq_false_2 (k1 = k)) by done. cbn [map fst]. rewrite IH. repeat case_bool_decide; set_solver.
Qed.

Lemma put_nodup (m : list (K * V)) k v : NoDup (map fst m) -> NoDup (map fst (put m k v)).
Proof. intros H. rewrite put_keys. case_bool_decide; [done|]. apply NoDup_app. split_and!; [done|set_solver|apply NoDup_singleton]. Qed.

Lemma in_put (m : list (K * V)) k v k' : k' ∈ map fst (put m k v) <-> k' = k \/ k' ∈ map fst m.
Proof. rewrite put_keys. case_bool_decide; set_solver. Qed.

Lemma lookup_in (m : list (K * V)) k v : NoDup (map fst m) -> (k, v) ∈ m <-> lookup_entry m k = Some v.
Proof.
  induction m as [|[k1 v1] m IH]; cbn [map fst lookup_entry snd]; [intros _; split; [by intros ?%elem_of_nil|done]|]. intros [Hk Hm]%NoDup_cons. rewrite elem_of_cons, IH by done.
  case_bool_decide as E; [subst k1|].
  - split; [intros [[= ->]|H]; [done|]|intros [= ->]; by left]. exfalso. apply Hk. apply IH in H; [|done]. by apply (list_elem_of_fmap_2 fst) in H.
  - split; [intros [[= -> ->]|?]; done|by right].
Qed.

Lemma lookup_is_key (m : list (K * V)) k : is_Some (lookup_entry m k) <-> k ∈ map fst m.
Proof.
  induction m as [|[k1 v1] m IH]; cbn [map fst lookup_entry snd]; [split; [by intros []|by intros ?%elem_of_nil]|]. rewrite elem_of_cons, <- IH.
  case_bool_decide; [subst; split; [by left|eauto]|]. split; [by right|intros [-> | ?]; done].
Qed.

Lemma put_Forall (P : K * V -> Prop) (m : list (K * V)) k v : P (k, v) -> Forall P m -> Forall P (put m k v).
Proof.
  intros Hk. induction m as [|[k1 v1] m IH]; cbn [put fst]; [intros _; by repeat constructor|]. intros [Hx Hm]%Forall_cons.
  case_bool_decide; constructor; try done. by apply IH.
Qed.

End Put.

Lemma keys_folded (es : list Entry) keys k :
  lookup_entry (foldl (fun keys e => put keys e.(key) e) keys es) k =
    match last (List.filter (fun e => bool_decide (e.(key) = k)) es) with Some e => Some e | None => lookup_entry keys k end
  /\ (NoDup (map fst keys) -> NoDup (map fst (foldl (fun keys e => put keys e.(key) e) keys es)))
  /\ (Forall (fun ke => ke.1 = ke.2.(key)) keys -> Forall (fun ke => ke.1 = ke.2.(key)) (foldl (fun keys e => put keys e.(key) e) keys es)).
Proof.
  revert keys. induction es as [|e es IH] using rev_ind; intros keys; [done|]. rewrite foldl_app, List.filter_app. cbn [foldl List.filter].
  destruct (IH keys) as (H1 & H2 & H3). rewrite lookup_put. split_and!.
  - case_bool_decide; [by rewrite last_snoc|by rewrite app_nil_r].
  - intros ?. by apply put_nodup, H2.
  - intros Hk%H3. by apply put_Forall.
Qed.

Definition lookup_key (E : Effective) (n : option str) (k : str) : option Entry := lookup_entry (or_empty (lookup_entry E n)) k.

Definition effective_of (ss : list IniSection) : Effective :=
  foldl (fun (out : Effective) s =>
    if bool_decide (s.(header) = None) && bool_decide (s.(entries) = []) then out
    else put out s.(name) (foldl (fun keys e => put keys e.(key) e) (or_empty (lookup_entry out s.(name))) s.(entries))) [] ss.

Lemma effective_snoc ss s : effective_of (ss ++ [s]) =
  if bool_decide (s.(header) = None) && bool_decide (s.(entries) = []) then effective_of ss
  else put (effective_of ss) s.(name) (foldl (fun keys e => put keys e.(key) e) (or_empty (lookup_entry (effective_of ss) s.(name))) s.(entries)).
Proof. unfold effective_of at 1. by rewrite foldl_app. Qed.

(** The map of a file holds the last entry of every key, and every section once. *)
Lemma effective_spec ss : let E := effective_of ss in
  (forall n k, lookup_key E n k = snd <$> last (List.filter (of_key n k) (all_entries ss)))
  /\ NoDup (map fst E) /\ Forall (fun nk => NoDup (map fst nk.2)) E
  /\ (forall n, n ∈ map fst E -> n ∈ map name ss) /\ (forall s, s ∈ ss -> s.(header) <> None \/ s.(entries) <> [] -> s.(name) ∈ map fst E).
Proof.
  cbv zeta. induction ss as [|s ss (H1 & H2 & H3 & H4 & H5)] using rev_ind.
  { split_and!; [done|constructor|done|by intros ? ?%elem_of_nil|by intros ? ?%elem_of_nil]. }
  rewrite effective_snoc. set (E := effective_of ss) in *. destruct (_ && _) eqn:Eskip.
  - apply andb_true_iff in Eskip as [Eh%bool_decide_eq_true Ee%bool_decide_eq_true]. split_and!; [|done|done|intros n Hn%H4; rewrite map_app; set_solver|].
    + intros n k. rewrite all_entries_app, List.filter_app. cbn [all_entries flat_map]. rewrite Ee. cbn. by rewrite app_nil_r.
    + intros s' [Hs' | ->%list_elem_of_singleton]%elem_of_app Hne; [by apply H5|]. by destruct Hne.
  - set (old := or_empty (lookup_entry E (name s))). destruct (keys_folded (entries s) old []) as (_ & Hn & _). split_and!.
    + intros n k. rewrite all_entries_app, List.filter_app, last_app. unfold lookup_key. rewrite lookup_put. cbn [all_entries flat_map]. rewrite app_nil_r.
      pose proof (filter_section n k [s]) as Hf. cbn [all_entries flat_map List.filter] in Hf. rewrite app_nil_r in Hf.
      case_bool_decide as Hns; [subst n|].
      * cbn [or_empty]. destruct (keys_folded (entries s) old k) as (-> & _ & _). cbn [flat_map] in Hf. rewrite app_nil_r in Hf. rewrite Hf.
        destruct (last (List.filter (of_key (name s) k) (map (pair (name s)) (entries s)))) as [p|] eqn:El.
        -- apply last_Some in El as [l ->]. rewrite map_app. cbn [map]. by rewrite last_snoc.
        -- apply last_None in El as ->. cbn [map last]. apply H1.
      * cbn [flat_map List.filter] in Hf. destruct (List.filter (of_key n k) _); [|done]. cbn [last]. apply H1.
    + by apply put_nodup.
    + assert (NoDup (map fst old)) as Hold.
      { subst old. destruct (lookup_entry E (name s)) as [keys|] eqn:El; [|constructor]. apply lookup_in in El; [|done]. rewrite Forall_forall in H3. by apply (H3 _ El). }
      by apply put_Forall; [apply Hn|].
    + intros n [-> | Hn'%H4]%in_put; rewrite map_app; set_solver.
    + intros s' [Hs' | ->%list_elem_of_singleton]%elem_of_app Hne; apply in_put; [right; by apply H5|by left].
Qed.

(** ** Documents as blocks *)

Record Blocked (d : Doc) (bs : Blocks) : Prop := mkBlocked {
  blocked_laid : laid None bs;
  blocked_lines : block_lines bs = d.(doc_lines);
  blocked_sections : d.(sections) = all_sections (after_blocks 0 Reading_new bs)
}.

Definition section_at (b1 : Blocks) : option str := foldl section_after None (map fst b1).
Definition place (b1 : Blocks) : nat := length (block_lines b1).

Lemma laid_spells o bs : laid o bs -> Forall (fun b => Spells b.1 b.2) bs.
Proof. revert o. induction bs as [|b bs IH]; intros o; [constructor|]. intros (? & _ & ?). constructor; [done|by eapply IH]. Qed.

Lemma spells_nonempty it ls : Spells it ls -> ls <> [].
Proof. by intros []. Qed.

Lemma place_app a b : place (a ++ b) = place a + place b.
Proof. unfold place. by rewrite block_lines_app, length_app. Qed.

Lemma place_cons b bs : place (b :: bs) = length b.2 + place bs.
Proof. unfold place. change (block_lines (b :: bs)) with (b.2 ++ block_lines bs). by rewrite length_app. Qed.

(** Two places are the same when their line is; no place is inside of a block. *)
Lemma place_unique bs b1 b2 c1 c2 : Forall (fun b => Spells b.1 b.2) bs -> bs = b1 ++ b2 -> bs = c1 ++ c2 -> place b1 = place c1 -> b1 = c1 /\ b2 = c2.
Proof.
  intros Hs -> E Hp. apply app_eq_inv in E as [(k & -> & ->)|(k & -> & ->)]; rewrite place_app in Hp.
  - destruct k as [|x k]; [by rewrite app_nil_r|]. exfalso. rewrite place_cons in Hp. rewrite Forall_forall in Hs.
    assert (Spells x.1 x.2) as H%spells_nonempty by (apply Hs; set_solver). destruct x.2; cbn in *; [done|lia].
  - destruct k as [|x k]; [by rewrite app_nil_r|]. exfalso. rewrite place_cons in Hp. rewrite Forall_forall in Hs.
    assert (Spells x.1 x.2) as H%spells_nonempty by (apply Hs; set_solver). destruct x.2; cbn in *; [done|lia].
Qed.

Lemma place_inside bs b1 b b2 c1 c2 : bs = b1 ++ b :: b2 -> bs = c1 ++ c2 -> place b1 < place c1 -> place b1 + length b.2 <= place c1.
Proof.
  intros -> E Hp. apply app_eq_inv in E as [(k & -> & _)|(k & -> & E)]; rewrite place_app in *; [lia|].
  destruct k as [|x k]; [cbn in Hp; lia|]. injection E as <- _. rewrite place_cons. lia.
Qed.

Lemma last_key n k i c bs p : last (List.filter (of_key n k) (keys_of i c bs)) = Some p ->
  exists b1 v ind ls b2, bs = b1 ++ (Key k v ind, ls) :: b2 /\ foldl section_after c (map fst b1) = n
    /\ p = (n, entry_of (i + place b1) k v ind ls) /\ values_of n k n (map fst b2) = [].
Proof.
  induction bs as [|b bs IH] using rev_ind; [done|]. rewrite keys_of_app, List.filter_app, last_app. cbn [keys_of]. rewrite app_nil_r.
  fold (place bs). set (c' := foldl section_after c (map fst bs)). intros H.
  assert ((b.1 = match b.1 with Key k' v' ind' => Key k' v' ind' | it => it end) /\
    (List.filter (of_key n k) (match b.1 with Key k v ind => [(c', entry_of (i + place bs) k v ind b.2)] | _ => [] end) = []
      /\ values_of n k c' [b.1] = []
     \/ exists v ind, b = (Key k v ind, b.2) /\ c' = n
       /\ List.filter (of_key n k) (match b.1 with Key k v ind => [(c', entry_of (i + place bs) k v ind b.2)] | _ => [] end) = [(n, entry_of (i + place bs) k v ind b.2)]))
    as [_ Hcase].
  { destruct b as [[|m ind|k' v ind] ls]; cbn [fst snd]; (split; [done|]); [by left..|]. cbn [List.filter values_of section_after app]. unfold of_key, entry_of.
    cbn [fst snd key]. case_bool_decide as E; [|by left]. destruct E as [E1 E2]. right. exists v, ind. rewrite <- E1, <- E2. done. }
  destruct Hcase as [[E1 E2]|(v & ind & Eb & Ec & E)].
  - rewrite E1 in H. cbn [last] in H. destruct (IH H) as (b1 & v & ind & ls & b2 & -> & Hn & -> & Hv). exists b1, v, ind, ls, (b2 ++ [b]).
    split_and!; [by rewrite <- app_assoc|done|done|]. rewrite map_app, values_of_app, Hv. cbn [map app]. subst c'. revert E2.
    rewrite map_app, foldl_app. cbn [map foldl section_after fst]. by rewrite Hn.
  - rewrite E in H. cbn [last] in H. injection H as <-. exists bs, v, ind, b.2, []. rewrite <- Eb. done.
Qed.

Section Document.

Context (d : Doc) (bs : Blocks) (Hd : Blocked d bs).

Lemma doc_entries : all_entries d.(sections) = keys_of 0 None bs.
Proof. rewrite (blocked_sections _ _ Hd). apply read_entries. Qed.

(** The entry that sets a key is a block of the file. *)
Lemma get_block n k e : get d n k = Some e ->
  exists b1 v ind ls b2, bs = b1 ++ (Key k v ind, ls) :: b2 /\ section_at b1 = n /\ e = entry_of (place b1) k v ind ls
    /\ values_of n k n (map fst b2) = [] /\ Spells (Key k v ind) ls.
Proof.
  rewrite get_last, doc_entries. destruct (last _) as [p|] eqn:El; [|done]. cbn. intros [= <-]. destruct (last_key _ _ _ _ _ _ El) as (b1 & v & ind & ls & b2 & -> & Hn & -> & Hv).
  exists b1, v, ind, ls, b2. split_and!; try done. pose proof (laid_spells _ _ (blocked_laid _ _ Hd)) as [_ [Hs _]%Forall_cons]%Forall_app. done.
Qed.

Lemma get_some b1 k v ind ls b2 : bs = b1 ++ (Key k v ind, ls) :: b2 -> is_Some (get d (section_at b1) k).
Proof.
  intros E. rewrite get_last, doc_entries, E, keys_of_app. cbn [keys_of fst snd section_after]. rewrite List.filter_app, List.filter_app. cbn [List.filter].
  fold (section_at b1). unfold of_key at 2. cbn [fst snd entry_of key]. rewrite (bool_decide_eq_true_2 (_ /\ _)) by done.
  set (x := List.filter _ (keys_of _ _ b2)). set (y := List.filter _ (keys_of _ _ b1)). destruct (last (y ++ [(section_at b1, _)] ++ x)) eqn:El; [by eexists|].
  apply last_None in El. by destruct y.
Qed.

Lemma lines_at b1 ls b2 it : bs = b1 ++ (it, ls) :: b2 -> ls <> [] ->
  line_at d (place b1) = nth 0 ls [] /\ span d (place b1) (place b1 + length ls) = ls /\ span d (S (place b1)) (place b1 + length ls) = tail ls.
Proof.
  intros E Hne. unfold line_at, span. rewrite <- (blocked_lines _ _ Hd), E, block_lines_app. change (block_lines ((it, ls) :: b2)) with (ls ++ block_lines b2).
  unfold place. set (p := block_lines b1). split_and!.
  - rewrite app_nth2 by lia. rewrite Nat.sub_diag. by destruct ls.
  - rewrite drop_app_length. replace (length p + length ls - length p) with (length ls) by lia. rewrite ?drop_0. by rewrite take_app_length.
  - rewrite drop_app_ge by lia. replace (S (length p) - length p) with 1 by lia. destruct ls as [|l ls]; [done|]. cbn [app drop tail length].
    replace (length p + S (length ls) - S (length p)) with (length ls) by lia. rewrite ?drop_0. by rewrite take_app_length.
Qed.

Lemma entry_copied n k e ind : blank ind = true -> get d n k = Some e -> Spells (Key k e.(value) (len ind)) (entry_lines d e ind).
Proof.
  intros Hi (b1 & v & from & ls & b2 & E & _ & -> & _ & Hs)%get_block. unfold entry_lines. cbn [entry_of start end_ indent value].
  destruct (lines_at b1 ls b2 (Key k v from) E (spells_nonempty _ _ Hs)) as (_ & -> & _). by apply spells_copied.
Qed.

End Document.

(** ** Where keys are inserted *)

(** The indent of the last key of the section so far. *)
Definition indent_after (o : option nat) (it : Item) : option nat := match it with Skip => o | Head _ _ => None | Key _ _ ind => Some ind end.
Definition indent_at (b1 : Blocks) : option nat := foldl indent_after None (map fst b1).

(** No key before the next header. *)
Fixpoint keyless (its : list Item) : Prop :=
  match its with [] => True | Skip :: its => keyless its | Head _ _ :: _ => True | Key _ _ _ :: _ => False end.

Fixpoint headless (its : list Item) : Prop :=
  match its with [] => True | Head _ _ :: _ => False | _ :: its => headless its end.

(** A place for keys of section [n] at indent [ind]. *)
Definition spot (bs : Blocks) (n : option str) (at_ : nat) (ind : str) : Prop :=
  exists b1 b2, bs = b1 ++ b2 /\ at_ = place b1 /\ section_at b1 = n /\ blank ind = true /\ keyless (map fst b2)
    /\ (indent_at b1 = Some (len ind) \/ indent_at b1 = None /\ ind = []).

Lemma keyless_app a b : keyless (a ++ b) <-> keyless a /\ (headless a -> keyless b).
Proof. induction a as [|[] a IH]; cbn; tauto. Qed.

Lemma headless_section n its : headless its -> foldl section_after n its = n.
Proof. revert n. induction its as [|[] its IH]; intros c; cbn; try done; apply IH. Qed.

(** [n]'s last section in a file, as the blocks that it ends with. *)
Definition section_in (bs : Blocks) (n : option str) (s : IniSection) : Prop :=
  (forall e, last s.(entries) = Some e -> exists b0 k v ls b2, bs = b0 ++ (Key k v e.(indent), ls) :: b2 /\ section_at b0 = n
     /\ e.(start) = place b0 /\ e.(end_) = place b0 + length ls /\ keyless (map fst b2))
  /\ (s.(entries) = [] -> forall h, s.(header) = Some h -> exists b0 m ind ls b2, bs = b0 ++ (Head m ind, ls) :: b2 /\ n = Some m
     /\ h = place b0 /\ length ls = 1 /\ keyless (map fst b2)).

Lemma find_section_snoc n ss s : List.find (fun s => bool_decide (s.(name) = n)) (rev (ss ++ [s])) =
  if bool_decide (s.(name) = n) then Some s else List.find (fun s => bool_decide (s.(name) = n)) (rev ss).
Proof. by rewrite rev_app_distr. Qed.

Lemma last_section bs n s : Forall (fun b => Spells b.1 b.2) bs ->
  List.find (fun s => bool_decide (s.(name) = n)) (rev (all_sections (after_blocks 0 Reading_new bs))) = Some s -> section_in bs n s.
Proof.
  revert s. induction bs as [|b bs IH] using rev_ind; intros s.
  { intros _. cbn. case_bool_decide; [|done]. intros [= <-]. by split. }
  intros [Hbs Hb]%Forall_app. apply Forall_cons in Hb as [Hb _]. specialize (fun s => IH s Hbs). rewrite after_blocks_app. cbn [after_blocks]. fold (place bs). rewrite Nat.add_0_l.
  pose proof (name_after_blocks 0 Reading_new bs) as Hname. cbn [current Reading_new name] in Hname. fold (section_at bs) in Hname.
  set (st := after_blocks 0 Reading_new bs) in *.
  assert (forall s, section_in bs n s -> (n <> section_at bs \/ match b.1 with Key _ _ _ => False | _ => True end) -> section_in (bs ++ [b]) n s) as Hgrow.
  { intros s' [H1 H2] Hne. split.
    - intros e He. destruct (H1 e He) as (b0 & k & v & ls & b2 & -> & Hn & Hs & Hend & Hk). exists b0, k, v, ls, (b2 ++ [b]).
      split_and!; [by rewrite <- app_assoc|done..|]. rewrite map_app. apply keyless_app. split; [done|]. intros Hh. cbn. destruct Hne as [Hne|Hb'].
      + exfalso. apply Hne. unfold section_at in *. rewrite map_app, foldl_app. cbn [map foldl section_after fst]. by rewrite headless_section.
      + by destruct b.1.
    - intros He h Hh. destruct (H2 He h Hh) as (b0 & m & ind & ls & b2 & -> & -> & Hs & Hend & Hk). exists b0, m, ind, ls, (b2 ++ [b]).
      split_and!; [by rewrite <- app_assoc|done..|]. rewrite map_app. apply keyless_app. split; [done|]. intros Hhl. cbn. destruct Hne as [Hne|Hb'].
      + exfalso. apply Hne. unfold section_at in *. rewrite map_app, foldl_app. cbn [map foldl section_after fst]. by rewrite headless_section.
      + by destruct b.1. }
  destruct b as [[|m ind|k v ind] ls]; cbn [after_block fst snd] in *; unfold all_sections; cbn [closed current].
  - intros Hs. apply Hgrow; [by apply IH|by right].
  - rewrite find_section_snoc. cbn [name]. case_bool_decide as E; [|intros Hs; apply Hgrow; [by apply IH|by right]].
    intros [= <-]. split; [done|]. intros _ h [= <-]. exists bs, m, ind, ls, []. split_and!; try done. by inv Hb.
  - rewrite find_section_snoc. cbn [name push_entry]. case_bool_decide as E.
    + intros [= <-]. split; cbn [entries push_entry]; [|by destruct (entries (current st))]. intros e. rewrite last_snoc. intros [= <-].
      exists bs, k, v, ls, []. split_and!; try done. by rewrite <- E.
    + intros Hs. apply Hgrow; [apply IH|left; congruence]. unfold all_sections. rewrite find_section_snoc. by rewrite bool_decide_eq_false_2.
Qed.

(** The keys before the first header, and that header. *)
Lemma closed_kept i x cl cur o bl bs :
  all_sections (after_blocks i (mkReading (x :: cl) cur o bl) bs) = x :: all_sections (after_blocks i (mkReading cl cur o bl) bs).
Proof. revert i cl cur o bl. induction bs as [|[[] ls] bs IH]; intros; cbn [after_blocks after_block fst snd closed current open blanks app]; [done|apply IH..]. Qed.

Lemma first_section i s0 o bl bs : exists s0' rest, all_sections (after_blocks i (mkReading [] s0 o bl) bs) = s0' :: rest
  /\ s0'.(name) = s0.(name) /\ s0'.(header) = s0.(header) /\ (s0'.(entries) = [] -> keyless (map fst bs))
  /\ Forall (fun s => is_Some s.(header) /\ is_Some s.(name)) rest
  /\ match omap header rest with
     | [] => headless (map fst bs)
     | h :: _ => exists b1 b2 m ind ls, bs = b1 ++ (Head m ind, ls) :: b2 /\ h = i + place b1 /\ headless (map fst b1)
     end.
Proof.
  revert i s0 o bl. induction bs as [|[[|m ind|k v ind] ls] bs IH]; intros i s0 o bl; cbn [after_blocks after_block fst snd closed current open blanks app].
  - exists s0, []. split_and!; done.
  - destruct (IH (i + length ls) s0 o (bl + blank_lines ls)) as (s0' & rest & -> & Hn & Hh & Hk & Hr & Hf). exists s0', rest. split_and!; try done.
    destruct (omap header rest) as [|h hs]; [done|]. destruct Hf as (b1 & b2 & m & ind & ls' & -> & -> & Hb). exists ((Skip, ls) :: b1), b2, m, ind, ls'. split_and!; try done.
    rewrite place_cons. cbn. lia.
  - rewrite closed_kept. destruct (IH (i + length ls) (mkSection (Some m) (Some i) []) None 0) as (s1 & rest & -> & Hn & Hh & _ & Hr & _).
    exists s0, (s1 :: rest). split_and!; try done; [constructor; [|done]; rewrite Hn, Hh; by split; eexists|]. cbn [omap list_omap]. rewrite Hh.
    exists [], bs, m, ind, ls. by split_and!.
  - destruct (IH (i + length ls) (push_entry (entry_of i k v ind ls) s0) (const ind <$> v) 0) as (s0' & rest & Es & Hn & Hh & Hk & Hr & Hf). rewrite Es. exists s0', rest. split_and!; try done.
    + intros He. exfalso. assert (forall i st bs, st.(closed) = [] -> st.(current).(entries) <> [] -> forall s r, all_sections (after_blocks i st bs) = s :: r -> s.(entries) <> []) as Hgo.
      { clear. intros i st bs. revert i st. induction bs as [|[[] ls] bs IH]; intros i st Hc Hne s r; cbn [after_blocks].
        - unfold all_sections. rewrite Hc. cbn. by intros [= <- _].
        - by apply IH.
        - cbn [after_block fst snd]. rewrite Hc. cbn [app]. rewrite closed_kept. by intros [= <- _].
        - apply IH; [done|]. cbn. by destruct (entries (current st)). }
      eapply Hgo in Es; [done|done|]. cbn. by destruct (entries s0).
    + destruct (omap header rest) as [|h hs]; [done|]. destruct Hf as (b1 & b2 & m & ind' & ls' & -> & -> & Hb). exists ((Key k v ind, ls) :: b1), b2, m, ind', ls'.
      split_and!; try done. rewrite place_cons. cbn. lia.
Qed.

Lemma headless_keyless its : headless its -> keyless its -> Forall (fun it => it = Skip) its.
Proof. induction its as [|[] its IH]; cbn; [constructor|by constructor; [|apply IH]|done..]. Qed.

Lemma skip_blocks bs : Forall (fun b => Spells b.1 b.2) bs -> Forall (fun it => it = Skip) (map fst bs) -> bs = skips (block_lines bs).
Proof.
  induction bs as [|[it ls] bs IH]; [done|]. intros [Hb Hbs]%Forall_cons [Hi His]%Forall_cons. cbn [fst snd] in *. subst it. inversion Hb; subst.
  change (block_lines ((Skip, [l]) :: bs)) with (l :: block_lines bs). change (skips (l :: block_lines bs)) with ((Skip, [l]) :: skips (block_lines bs)). by rewrite <- IH.
Qed.

Lemma above_comments_le d i : above_comments d i <= i.
Proof. induction i as [|i IH]; cbn; [done|]. destruct (starts_comment _); lia. Qed.

Lemma skips_keyless fs its : keyless (map fst (skips fs) ++ its) <-> keyless its.
Proof. by induction fs. Qed.

Lemma skips_indent o fs : foldl indent_after o (map fst (skips fs)) = o.
Proof. by induction fs. Qed.

Lemma skips_section c fs : foldl section_after c (map fst (skips fs)) = c.
Proof. by induction fs. Qed.

(** The first line of a key is its indent and its text. *)
Lemma spells_indent k v ind ls : Spells (Key k v ind) ls ->
  exists a c r, nth 0 ls [] = a ++ c :: r /\ blank a = true /\ is_whitespace c = false /\ ind = len a.
Proof.
  intros Hs. inversion Hs as [| |l k' v0 p tl w Hsk]; subst. apply not_skipped_text in Hsk. apply blank_trim_nil in Hsk as (a & c & r & -> & Ha & Hc).
  exists a, c, r. split_and!; [done..|by apply indent_of_split].
Qed.

Section Spots.

Context (d : Doc) (bs : Blocks) (Hd : Blocked d bs).

Lemma doc_spells : Forall (fun b => Spells b.1 b.2) bs.
Proof using Hd. eapply laid_spells, blocked_laid, Hd. Qed.

(** Above the comments of the first header, or at the end of a file without one. *)
Definition top_point : nat := match omap header d.(sections) with first :: _ => above_comments d first | [] => length d.(doc_lines) end.

Lemma top_spot : keyless (map fst bs) -> spot bs None top_point [].
Proof using Hd.
  intros Hk. unfold top_point. rewrite (blocked_sections _ _ Hd). destruct (first_section 0 (mkSection None None []) None 0 bs) as (s0 & rest & Es & Hn & Hh & _ & _ & Hf).
  change (mkReading [] (mkSection None None []) None 0) with Reading_new in Es. rewrite Es. cbn [omap list_omap]. rewrite Hh. cbn [header].
  destruct (omap header rest) as [|h hs].
  - exists bs, []. rewrite app_nil_r. split_and!; try done; [by rewrite <- (blocked_lines _ _ Hd)|by apply headless_section|]. right. split; [|done].
    unfold indent_at. rewrite (skip_blocks bs doc_spells) by by apply headless_keyless. apply skips_indent.
  - destruct Hf as (b1 & b2 & m & ind & ls & E & -> & Hb). pose proof Hk as Hk'. rewrite E, map_app in Hk'. apply keyless_app in Hk' as [Hk1 Hk2].
    pose proof doc_spells as Hs. rewrite E in Hs. apply Forall_app in Hs as [Hs1 _]. pose proof (skip_blocks b1 Hs1 (headless_keyless _ Hb Hk1)) as Hskip.
    set (fs := block_lines b1) in *. cbn [plus]. set (at_ := above_comments d (place b1)). assert (at_ <= length fs) as Hle by apply above_comments_le.
    exists (skips (take at_ fs)), (skips (drop at_ fs) ++ (Head m ind, ls) :: b2). split_and!.
    + rewrite E, Hskip. unfold skips. rewrite app_assoc, <- map_app. by rewrite take_drop.
    + unfold place. rewrite block_lines_skips, length_take. lia.
    + apply skips_section.
    + done.
    + rewrite map_app. by apply skips_keyless.
    + right. split; [|done]. apply skips_indent.
Qed.

Lemma section_found n : has_section d n = true -> exists s, List.find (fun s => bool_decide (s.(name) = n)) (rev d.(sections)) = Some s /\ s.(name) = n.
Proof using Hd.
  intros Hn. destruct (List.find _ _) as [s|] eqn:E; [exists s; split; [done|]; apply find_some in E as [_ E]; by apply bool_decide_eq_true in E|]. exfalso.
  assert (forall s, s ∈ d.(sections) -> s.(name) <> n) as Hno.
  { intros s Hs Es. pose proof (List.find_none _ _ E s) as Hno. rewrite <- in_rev, <- list_elem_of_In in Hno. specialize (Hno Hs). by rewrite bool_decide_eq_true_2 in Hno. }
  unfold has_section in Hn. apply orb_true_iff in Hn as [->%bool_decide_eq_true|Hn].
  - destruct (first_section 0 (mkSection None None []) None 0 bs) as (s0 & rest & Es & Hname & _). change (mkReading [] (mkSection None None []) None 0) with Reading_new in Es.
    rewrite (blocked_sections _ _ Hd), Es in Hno. apply (Hno s0); [by left|done].
  - apply existsb_exists in Hn as (s & Hs & Hn%bool_decide_eq_true). apply (Hno s); [by apply list_elem_of_In|done].
Qed.

(** Keys are inserted behind the last key of their section, or where it begins. *)
Lemma insert_point_spot n : has_section d n = true -> spot bs n (insert_point d n).1 (insert_point d n).2.
Proof using Hd.
  intros Hn. destruct (section_found n Hn) as (s & Hfind & Hname). unfold insert_point. rewrite Hfind. pose proof Hfind as Hlast. rewrite (blocked_sections _ _ Hd) in Hlast.
  apply last_section in Hlast as [H1 H2]; [|exact doc_spells]. destruct (last (entries s)) as [e|] eqn:El.
  - destruct (H1 e eq_refl) as (b0 & k & v & ls & b2 & E & Hsec & Hst & Hend & Hk). pose proof doc_spells as Hs. rewrite E in Hs. apply Forall_app in Hs as [_ [Hs _]%Forall_cons].
    cbn [fst snd] in Hs. destruct (lines_at d bs Hd b0 ls b2 _ E (spells_nonempty _ _ Hs)) as (Hl & _). cbn [fst snd].
    destruct (spells_indent _ _ _ _ Hs) as (a & c & r & E0 & Ha & Hc & Hi). rewrite E0 in Hl.
    assert (indent_of d e = a) as Hi' by (unfold indent_of; rewrite Hst, Hl, Hi; apply str_to_app). rewrite Hi'.
    exists (b0 ++ [(Key k v (indent e), ls)]), b2. split_and!.
    + by rewrite <- app_assoc.
    + rewrite place_app, place_cons. cbn [snd]. rewrite Hend. unfold place at 3. cbn. lia.
    + unfold section_at. rewrite map_app, foldl_app. cbn. exact Hsec.
    + done.
    + done.
    + left. unfold indent_at. rewrite map_app, foldl_app. cbn. by rewrite Hi.
  - apply last_None in El. destruct (header s) as [h|] eqn:Eh.
    + destruct (H2 El h eq_refl) as (b0 & m & ind & ls & b2 & E & -> & -> & Hlen & Hk). exists (b0 ++ [(Head m ind, ls)]), b2. cbn [fst snd]. split_and!.
      * by rewrite <- app_assoc.
      * rewrite place_app, place_cons. cbn [snd]. unfold place at 3. cbn. lia.
      * unfold section_at. rewrite map_app, foldl_app. done.
      * done.
      * done.
      * right. unfold indent_at. by rewrite map_app, foldl_app.
    + destruct (first_section 0 (mkSection None None []) None 0 bs) as (s0 & rest & Es & Hn0 & Hh0 & Hk0 & Hr & _).
      change (mkReading [] (mkSection None None []) None 0) with Reading_new in Es.
      assert (s ∈ sections d) as Hin by (apply find_some in Hfind as [Hin _]; apply list_elem_of_In; by apply in_rev).
      rewrite (blocked_sections _ _ Hd), Es in Hin. apply elem_of_cons in Hin as [->|Hin].
      * rewrite <- Hname, Hn0. cbn [name]. pose proof (top_spot (Hk0 El)) as Ht. unfold top_point in Ht. by destruct (omap header (sections d)).
      * rewrite Forall_forall in Hr. destruct (Hr s Hin) as [[? E] _]. by rewrite Eh in E.
Qed.

Lemma header_block n : has_section d (Some n) = true -> exists b1 ind l b2, bs = b1 ++ (Head n ind, [l]) :: b2 /\ header_line d n = l.
Proof using Hd.
  intros Hn. unfold header_line. destruct (List.find _ _) as [s|] eqn:E.
  - apply find_some in E as [Hin Hname%bool_decide_eq_true]. rewrite (blocked_sections _ _ Hd) in Hin.
    assert (exists b1 ind ls b2, bs = b1 ++ (Head n ind, ls) :: b2 /\ header s = Some (place b1)) as (b1 & ind & ls & b2 & Eb & Hh).
    { clear -Hin Hname Hd. apply list_elem_of_In in Hin. clear Hd. revert s Hin Hname. induction bs as [|b bs' IH] using rev_ind; intros s Hin Hname.
      - by apply list_elem_of_singleton in Hin as ->.
      - rewrite after_blocks_app in Hin. cbn [after_blocks] in Hin. rewrite Nat.add_0_l in Hin. set (st := after_blocks 0 Reading_new bs') in *.
        assert (s ∈ all_sections st -> exists b1 ind ls b2, bs' ++ [b] = b1 ++ (Head n ind, ls) :: b2 /\ header s = Some (place b1)) as Hold.
        { intros H. destruct (IH s H Hname) as (b1 & ind & ls & b2 & -> & Hh). exists b1, ind, ls, (b2 ++ [b]). split; [by rewrite <- app_assoc|done]. }
        destruct b as [[|m ind|k v ind] ls]; cbn [after_block fst snd] in Hin; unfold all_sections in Hin; cbn [closed current] in Hin.
        + by apply Hold.
        + apply elem_of_app in Hin as [Hin | ->%list_elem_of_singleton]; [by apply Hold|]. cbn [name header] in *. injection Hname as ->. by exists bs', ind, ls, [].
        + apply elem_of_app in Hin as [Hin | ->%list_elem_of_singleton]; [apply Hold; unfold all_sections; set_solver|]. cbn [name header push_entry] in *.
          destruct (IH (current st)) as (b1 & i & l & b2 & -> & Hh); [unfold all_sections; set_solver|done|]. exists b1, i, l, (b2 ++ [(Key k v ind, ls)]). split; [by rewrite <- app_assoc|done]. }
    cbn. rewrite Hh. pose proof doc_spells as Hs. rewrite Eb in Hs. apply Forall_app in Hs as [_ [Hs _]%Forall_cons]. cbn [fst snd] in Hs.
    destruct (lines_at d bs Hd b1 ls b2 _ Eb (spells_nonempty _ _ Hs)) as (Hl & _). inversion Hs; subst. by eexists b1, _, _, b2.
  - exfalso. unfold has_section in Hn. cbn in Hn. apply existsb_exists in Hn as (s & Hs & Hn). by rewrite (List.find_none _ _ E s Hs) in Hn.
Qed.

End Spots.

(** ** The edits of a merge *)

Section Edits.

Context (t s : Doc).

Definition known : Effective := List.filter (fun nk => has_section t nk.1) (effective s).
Definition unknown : Effective := List.filter (fun nk => negb (has_section t nk.1)) (effective s).

Definition edited_pairs (ks : Effective) : list (option str * (str * Entry)) := flat_map (fun nk => map (pair nk.1) nk.2) ks.

Definition replace_step (m : gmap nat (nat * list str)) (p : option str * (str * Entry)) : gmap nat (nat * list str) :=
  match get t p.1 p.2.1 with
  | Some ex => if bool_decide (ex.(value) = p.2.2.(value)) then m else <[ex.(start) := (ex.(end_), replacement t ex s p.2.2)]> m
  | None => m
  end.

Definition new_lines (n : option str) (ind : str) (keys : list (str * Entry)) : list str :=
  flat_map (fun ke => match get t n ke.1 with Some _ => [] | None => entry_lines s ke.2 ind end) keys.

Definition at_top (n : option str) (at_ : nat) : bool :=
  bool_decide (n = None) && match t.(sections) with first :: _ => bool_decide (first.(entries) = []) | [] => false end
  && (at_ <? length t.(doc_lines)) && negb (bool_decide (trim (line_at t at_) = [])).

(** The lines that a known section adds. *)
Definition contribution (nk : option str * list (str * Entry)) : list str :=
  let new := new_lines nk.1 (insert_point t nk.1).2 nk.2 in
  new ++ (if at_top nk.1 (insert_point t nk.1).1 && bool_decide (new <> []) then [[]] else []).

Lemma keys_replace n at_ ind ed keys :
  replace (foldl (edit_key t s n at_ ind) ed keys) = foldl replace_step ed.(replace) (map (pair n) keys)
  /\ insert_ (foldl (edit_key t s n at_ ind) ed keys) = alter (fun b => b ++ new_lines n ind keys) at_ ed.(insert_).
Proof.
  revert ed. induction keys as [|[k e] keys IH]; intros ed; cbn [foldl map new_lines flat_map].
  - split; [done|]. rewrite list_alter_id; [done|]. intros b. by rewrite app_nil_r.
  - destruct (IH (edit_key t s n at_ ind ed (k, e))) as [-> ->]. unfold edit_key at 1 2, replace_step at 3. cbn [fst snd].
    destruct (get t n k) as [ex|]; [by case_bool_decide|]. cbn [insert_at replace insert_]. split; [done|]. rewrite list_alter_alter_eq.
    apply list_alter_ext; [intros b _; cbn; by rewrite <- app_assoc|done].
Qed.

Lemma nth_alter (f : list str -> list str) i (l : list (list str)) j : j < length l -> nth j (alter f i l) [] = if i =? j then f (nth j l []) else nth j l [].
Proof.
  intros Hj. destruct (lookup_lt_is_Some_2 l j Hj) as [x Hx]. rewrite (nth_lookup_Some l j [] x Hx). destruct (Nat.eqb_spec i j) as [->|Hne].
  - apply nth_lookup_Some. by rewrite list_lookup_alter_eq, Hx.
  - apply nth_lookup_Some. by rewrite list_lookup_alter_ne.
Qed.

Lemma alter_beyond (f : list str -> list str) i (l : list (list str)) : length l <= i -> alter f i l = l.
Proof.
  revert i. induction l as [|x l IH]; intros [|i] Hi; cbn in *; [done..|lia|]. f_equal. apply IH. lia.
Qed.

Lemma section_edits ed nk :
  replace (edit_section t s ed nk) = foldl replace_step ed.(replace) (map (pair nk.1) nk.2)
  /\ insert_ (edit_section t s ed nk) = alter (fun b => b ++ contribution nk) (insert_point t nk.1).1 ed.(insert_).
Proof.
  destruct nk as [n keys]. unfold edit_section, contribution. cbn [fst snd]. destruct (insert_point t n) as [at_ ind]. cbn [fst snd].
  destruct (keys_replace n at_ ind ed keys) as [H1 H2]. set (ed' := foldl _ ed keys) in *. set (new := new_lines n ind keys) in *.
  fold (at_top n at_). rewrite H2. destruct (decide (at_ < length (insert_ ed))) as [Hlt|Hge].
  - rewrite nth_alter, Nat.eqb_refl, length_app by done.
    replace (length (nth at_ (insert_ ed) []) <? length (nth at_ (insert_ ed) []) + length new) with (bool_decide (new <> [])).
    2:{ case_bool_decide as E; symmetry; [apply Nat.ltb_lt; destruct new; [done|cbn; lia]|apply Nat.ltb_ge; destruct new; [cbn; lia|done]]. }
    destruct (at_top n at_ && bool_decide (new <> [])).
    + cbn [insert_at replace insert_]. split; [done|]. rewrite H2, list_alter_alter_eq. apply list_alter_ext; [intros b _; cbn; by rewrite <- app_assoc|done].
    + split; [done|]. rewrite H2. by rewrite app_nil_r.
  - assert (forall f, alter f at_ (insert_ ed) = insert_ ed) as Hsame by (intros f; apply alter_beyond; lia).
    rewrite !Hsame, Nat.ltb_irrefl, andb_false_r. split; [done|]. by rewrite H2, Hsame.
Qed.

Lemma sections_edits ks ed :
  replace (foldl (edit_section t s) ed ks) = foldl replace_step ed.(replace) (edited_pairs ks)
  /\ length (insert_ (foldl (edit_section t s) ed ks)) = length (insert_ ed)
  /\ forall p, p < length (insert_ ed) -> nth p (insert_ (foldl (edit_section t s) ed ks)) [] =
       nth p ed.(insert_) [] ++ flat_map contribution (List.filter (fun nk => (insert_point t nk.1).1 =? p) ks).
Proof.
  revert ed. induction ks as [|nk ks IH]; intros ed; cbn [foldl edited_pairs flat_map List.filter].
  - split_and!; [done..|]. intros p _. by rewrite app_nil_r.
  - destruct (IH (edit_section t s ed nk)) as (-> & -> & H3). destruct (section_edits ed nk) as [-> H2]. rewrite H2 in H3 |- *. rewrite length_alter in H3 |- *.
    split_and!; [by rewrite foldl_app|done|]. intros p Hp. rewrite H3, nth_alter by done. destruct (_ =? p); [|done]. cbn [flat_map]. by rewrite <- app_assoc.
Qed.

Definition total : nat := length t.(doc_lines).

Lemma edits_spec :
  replace (edits t s) = foldl replace_step ∅ (edited_pairs known)
  /\ (forall p, p < total -> nth p (insert_ (edits t s)) [] = flat_map contribution (List.filter (fun nk => (insert_point t nk.1).1 =? p) known))
  /\ nth total (insert_ (edits t s)) [] =
       foldl (append_section t s) (flat_map contribution (List.filter (fun nk => (insert_point t nk.1).1 =? total) known)) unknown.
Proof.
  unfold edits. rewrite partition_as_filter. fold known unknown total. cbv zeta.
  destruct (sections_edits known (mkEdits ∅ (replicate (S total) []))) as (H1 & H2 & H3). cbn [replace insert_] in *. rewrite length_replicate in *.
  assert (forall p, nth p (replicate (S total) (@nil str)) [] = []) as Hr by (intros p; generalize (S total); intros m; revert p; induction m as [|m IH]; intros [|p]; cbn; [done..|apply IH]). rewrite H1.
  split_and!; [done| |].
  - intros p Hp. rewrite nth_alter by lia. destruct (Nat.eqb_spec total p); [lia|]. rewrite H3 by lia. by rewrite Hr.
  - rewrite nth_alter, Nat.eqb_refl by lia. rewrite H3 by lia. by rewrite Hr.
Qed.

(** What is replaced, and that nothing else is. *)
Lemma replaced_sound ps m p x : foldl replace_step m ps !! p = Some x ->
  m !! p = Some x \/ exists n k e ex, (n, (k, e)) ∈ ps /\ get t n k = Some ex /\ ex.(start) = p /\ ex.(value) <> e.(value) /\ x = (ex.(end_), replacement t ex s e).
Proof.
  revert m. induction ps as [|[n [k e]] ps IH]; intros m; cbn [foldl]; [by left|]. intros [H|(n' & k' & e' & ex & Hin & H)]%IH.
  - unfold replace_step in H. cbn [fst snd] in H. destruct (get t n k) as [ex|] eqn:Eg; [|by left]. case_bool_decide as Ev; [by left|].
    apply lookup_insert_Some in H as [[Hp <-]|[_ H]]; [|by left]. right. exists n, k, e, ex. split_and!; try done. by left.
  - right. exists n', k', e', ex. split; [by right|done].
Qed.

Lemma replaced_kept ps m p : is_Some (m !! p) -> is_Some (foldl replace_step m ps !! p).
Proof.
  revert m. induction ps as [|[n [k e]] ps IH]; intros m; cbn [foldl]; [done|]. intros H. apply IH. unfold replace_step. cbn [fst snd].
  destruct (get t n k) as [ex|]; [|done]. case_bool_decide; [done|]. by apply lookup_insert_is_Some'; right.
Qed.

Lemma replaced_some ps m n k e ex : (n, (k, e)) ∈ ps -> get t n k = Some ex -> ex.(value) <> e.(value) -> is_Some (foldl replace_step m ps !! ex.(start)).
Proof.
  intros Hin Hg Hv. revert m. induction ps as [|p ps IH]; intros m; [by apply elem_of_nil in Hin|]. apply elem_of_cons in Hin as [<-|Hin]; cbn [foldl]; [|by apply IH].
  apply replaced_kept. unfold replace_step. cbn [fst snd]. rewrite Hg, bool_decide_eq_false_2 by done. rewrite lookup_insert_eq. by eexists.
Qed.

End Edits.

(** ** The lines of a merge, block by block *)

Lemma effective_get d n k : lookup_key (effective d) n k = get d n k.
Proof. rewrite get_last. apply (effective_spec (sections d)). Qed.

Lemma effective_in d n keys k e : (n, keys) ∈ effective d -> (k, e) ∈ keys -> get d n k = Some e.
Proof.
  destruct (effective_spec (sections d)) as (_ & Hn & Hk & _). fold (effective d) in *. intros Hin He. rewrite <- effective_get. unfold lookup_key.
  apply lookup_in in Hin as H; [|done]. rewrite H. cbn [or_empty]. apply lookup_in; [|done]. rewrite Forall_forall in Hk. by apply (Hk (n, keys)).
Qed.

Lemma effective_has d n k e : get d n k = Some e -> exists keys, (n, keys) ∈ effective d /\ (k, e) ∈ keys.
Proof.
  destruct (effective_spec (sections d)) as (_ & Hn & Hk & _). fold (effective d) in *. rewrite <- effective_get. unfold lookup_key.
  destruct (lookup_entry (effective d) n) as [keys|] eqn:El; [|done]. cbn [or_empty]. intros H. apply lookup_in in El; [|done]. exists keys. split; [done|].
  apply lookup_in; [|done]. rewrite Forall_forall in Hk. by apply (Hk (n, keys)).
Qed.

Lemma effective_nodup d : NoDup (map fst (effective d)).
Proof. apply (effective_spec (sections d)). Qed.

Section Whole.

Context (t s : Doc) (bs ss : Blocks) (Ht : Blocked t bs) (Hs : Blocked s ss).

Local Abbreviation ed := (edits t s).

(** The entry of the source that a block is replaced by. *)
Definition edited (b1 : Blocks) (b : Item * list str) : option (Entry * Entry) :=
  match b.1 with
  | Key k v _ =>
      match get t (section_at b1) k, get s (section_at b1) k with
      | Some ex, Some e => if bool_decide (ex.(start) = place b1 /\ v <> e.(value)) then Some (ex, e) else None
      | _, _ => None
      end
  | _ => None
  end.

Lemma has_section_at b1 b2 : bs = b1 ++ b2 -> has_section t (section_at b1) = true.
Proof using Ht.
  intros E. rewrite (has_section_headers t bs) by apply Ht. destruct (section_at b1) as [n|] eqn:Es; [|done]. apply bool_decide_eq_true.
  rewrite E, map_app, headers_of_app. apply elem_of_app. left. revert Es. unfold section_at. clear. induction b1 as [|b b1 IH] using rev_ind; [done|].
  rewrite map_app, foldl_app, headers_of_app. cbn [map foldl]. destruct b as [[|m ind|k v ind] ls]; cbn [fst section_after headers_of]; intros H; rewrite elem_of_app.
  - left. by apply IH.
  - injection H as ->. right. by left.
  - left. by apply IH.
Qed.

(** The entry of a key whose lines start at a block is that block. *)
Lemma entry_at b1 b b2 n k ex : bs = b1 ++ b :: b2 -> get t n k = Some ex -> ex.(start) = place b1 ->
  exists ind, b.1 = Key k ex.(value) ind /\ n = section_at b1 /\ ex = entry_of (place b1) k ex.(value) ind b.2.
Proof using Ht.
  intros E Hg Hst. destruct (get_block t bs Ht n k ex Hg) as (c1 & v & ind & ls & c2 & Ec & Hn & Hex & _). rewrite Hex in Hst. cbn in Hst.
  destruct (place_unique bs b1 (b :: b2) c1 ((Key k v ind, ls) :: c2) (doc_spells _ _ Ht) E Ec (eq_sym Hst)) as [-> [= ->]]. exists ind. by rewrite Hex.
Qed.

Lemma replace_at b1 b b2 : bs = b1 ++ b :: b2 ->
  replace ed !! place b1 = (fun p => (p.1.(end_), replacement t p.1 s p.2)) <$> edited b1 b.
Proof using Ht.
  intros E. destruct (edits_spec t s) as (-> & _). destruct (foldl _ _ _ !! place b1) as [x|] eqn:Er.
  - apply replaced_sound in Er as [Er|(n & k & e & ex & Hin & Hg & Hst & Hv & ->)]; [by rewrite lookup_empty in Er|].
    destruct (entry_at b1 b b2 n k ex E Hg Hst) as (ind & Eb & -> & Hex). apply list_elem_of_In, in_flat_map in Hin as ([n keys] & Hk & Hin).
    apply list_elem_of_In, list_elem_of_fmap in Hin as ([k' e'] & [= <- <- <-] & Hin). apply filter_In in Hk as [Hk _]. apply list_elem_of_In in Hk.
    pose proof (effective_in s _ _ _ _ Hk Hin) as Hs'. cbn [fst] in Hs'. unfold edited. rewrite Eb. cbn [fst]. rewrite Hg. cbn [fst] in Hg. rewrite Hs'.
    by rewrite bool_decide_eq_true_2.
  - destruct (edited b1 b) as [[ex e]|] eqn:Ee; [|done]. exfalso. unfold edited in Ee. destruct b.1 as [| |k v ind] eqn:Eb; [done..|].
    destruct (get t (section_at b1) k) as [ex'|] eqn:Eg; [|done]. destruct (get s (section_at b1) k) as [e'|] eqn:Es; [|done].
    case_bool_decide as Hc; [|done]. injection Ee as -> ->. destruct Hc as [Hst Hv]. destruct (entry_at b1 b b2 _ k ex E Eg Hst) as (ind' & Eb' & _ & Hex).
    rewrite Eb in Eb'. injection Eb' as -> _. destruct (effective_has s _ _ _ Es) as (keys & Hk & Hin).
    destruct (replaced_some t s (edited_pairs (known t s)) ∅ (section_at b1) k e ex) as [x Hx]; [|done|done|by rewrite <- Hst, Hx in Er].
    apply list_elem_of_In, in_flat_map. exists (section_at b1, keys). split; [apply filter_In; split; [by apply list_elem_of_In|]|].
    + cbn [fst]. by eapply has_section_at.
    + apply list_elem_of_In, list_elem_of_fmap. by exists (k, e).
Qed.

(** No edit is inside of a block. *)
Lemma insert_place p : p <= total t -> nth p (insert_ ed) [] <> [] -> exists c1 c2, bs = c1 ++ c2 /\ p = place c1.
Proof using Ht.
  intros Hp Hne. destruct (edits_spec t s) as (_ & H2 & _). destruct (decide (p = total t)) as [->|Hlt].
  { exists bs, []. rewrite app_nil_r. split; [done|]. unfold place, total. by rewrite (blocked_lines _ _ Ht). }
  rewrite H2 in Hne by lia. destruct (List.filter _ _) as [|nk ks] eqn:Ef; [done|].
  assert (nk ∈ List.filter (fun nk => (insert_point t nk.1).1 =? p) (known t s)) as Hin by (rewrite Ef; by left).
  apply list_elem_of_In, filter_In in Hin as [Hin Hat%Nat.eqb_eq]. apply filter_In in Hin as [_ Hsec].
  destruct (insert_point_spot t bs Ht nk.1 Hsec) as (b1 & b2 & E & Hb & _). exists b1, b2. by rewrite <- Hat.
Qed.

Lemma replace_place p : is_Some (replace ed !! p) -> exists c1 c2, bs = c1 ++ c2 /\ p = place c1.
Proof using Ht.
  intros [x Hx]. destruct (edits_spec t s) as (Hr & _). rewrite Hr in Hx. apply replaced_sound in Hx as [Hx|(n & k & e & ex & _ & Hg & <- & _)]; [by rewrite lookup_empty in Hx|].
  destruct (get_block t bs Ht n k ex Hg) as (c1 & v & ind & ls & c2 & Ec & _ & -> & _). by exists c1, ((Key k v ind, ls) :: c2).
Qed.

Lemma inside_plain b1 b b2 p : bs = b1 ++ b :: b2 -> place b1 < p < place b1 + length b.2 -> replace ed !! p = None /\ nth p (insert_ ed) [] = [].
Proof using Ht.
  intros E Hp. assert (forall c1 c2, bs = c1 ++ c2 -> p <> place c1) as Hno.
  { intros c1 c2 Ec ->. pose proof (place_inside bs b1 b b2 c1 c2 E Ec). lia. }
  split.
  - destruct (replace ed !! p) eqn:Er; [|done]. destruct (replace_place p) as (c1 & c2 & Ec & Hc); [by eexists|]. by destruct (Hno c1 c2 Ec).
  - destruct (nth p (insert_ ed) []) eqn:Ei; [done|]. destruct (insert_place p) as (c1 & c2 & Ec & Hc); [|by rewrite Ei|by destruct (Hno c1 c2 Ec)].
    unfold total. rewrite <- (blocked_lines _ _ Ht), E, block_lines_app. change (block_lines (b :: b2)) with (b.2 ++ block_lines b2).
    rewrite !length_app. unfold place in Hp. lia.
Qed.

(** The lines that stand for a block. *)
Definition block_out (b1 : Blocks) (b : Item * list str) : list str :=
  match edited b1 b with Some (ex, e) => replacement t ex s e | None => b.2 end.

Fixpoint lines_out (b1 b2 : Blocks) : list str :=
  nth (place b1) (insert_ ed) [] ++ match b2 with [] => [] | b :: b2 => block_out b1 b ++ lines_out (b1 ++ [b]) b2 end.

Lemma write_plain fuel i ls rest pre post : doc_lines t = pre ++ ls ++ post -> i = length pre ->
  (forall p, i <= p < i + length ls -> replace ed !! p = None) -> (forall p, i < p < i + length ls -> nth p (insert_ ed) [] = []) -> ls <> [] ->
  write_lines fuel t ed (i + length ls) = Ok rest -> write_lines (fuel + length ls) t ed i = Ok (nth i (insert_ ed) [] ++ ls ++ rest).
Proof.
  revert i pre. induction ls as [|l ls IH]; intros i pre E Hi Hr Hins Hne Hw; [done|]. cbn [length] in *. rewrite Nat.add_succ_r. cbn [write_lines].
  destruct (Nat.eqb_spec i (length (doc_lines t))) as [Hlast|_]; [exfalso; rewrite E, !length_app in Hlast; cbn in Hlast; lia|].
  rewrite Hr by lia. assert (line_at t i = l) as -> by (unfold line_at; rewrite E, app_nth2, Hi, Nat.sub_diag by lia; done).
  destruct ls as [|l' ls].
  - cbn [length] in *. rewrite Nat.add_0_r, <- (Nat.add_1_r i), Hw. done.
  - rewrite (IH (S i) (pre ++ [l])); cbn [rbind].
    + rewrite (Hins (S i)) by (cbn [length]; lia). done.
    + by rewrite E, <- app_assoc.
    + rewrite length_app, Hi. cbn [length]. lia.
    + intros p Hp. apply Hr. lia.
    + intros p Hp. apply Hins. lia.
    + done.
    + by replace (S i + length (l' :: ls)) with (i + S (length (l' :: ls))) by lia.
Qed.

(** The loop of [merge] writes these lines. *)
Lemma write_out b2 : forall b1 fuel, bs = b1 ++ b2 -> place b2 < fuel -> write_lines fuel t ed (place b1) = Ok (lines_out b1 b2).
Proof using Ht.
  induction b2 as [|b b2 IH]; intros b1 fuel E Hf; cbn [lines_out].
  - rewrite app_nil_r in E. destruct fuel as [|fuel]; [lia|]. cbn [write_lines]. rewrite <- (blocked_lines _ _ Ht), E. fold (place b1). by rewrite Nat.eqb_refl, app_nil_r.
  - pose proof (doc_spells _ _ Ht) as Hsp. rewrite E in Hsp. apply Forall_app in Hsp as [_ [Hb _]%Forall_cons]. pose proof (spells_nonempty _ _ Hb) as Hne.
    assert (bs = (b1 ++ [b]) ++ b2) as E' by (by rewrite <- app_assoc). rewrite place_cons in Hf.
    assert (place (b1 ++ [b]) = place b1 + length b.2) as Hp by (rewrite place_app, place_cons; cbn; lia).
    assert (doc_lines t = block_lines b1 ++ b.2 ++ block_lines b2) as El by (rewrite <- (blocked_lines _ _ Ht), E, block_lines_app; done).
    pose proof (replace_at b1 b b2 E) as Hr. unfold block_out. destruct (edited b1 b) as [[ex e]|] eqn:Ee.
    + destruct fuel as [|fuel]; [lia|]. cbn [write_lines]. cbn in Hr. rewrite Hr.
      destruct (Nat.eqb_spec (place b1) (length (doc_lines t))) as [Hlast|_]; [exfalso; rewrite El, !length_app in Hlast; unfold place in Hlast; destruct b.2; cbn in *; [done|lia]|].
      assert (ex.(end_) = place (b1 ++ [b])) as ->.
      { unfold edited in Ee. destruct b.1 as [| |k v ind] eqn:Eb; [done..|]. destruct (get t (section_at b1) k) as [ex'|] eqn:Eg; [|done].
        destruct (get s (section_at b1) k) as [e'|] eqn:Es; [|done]. case_bool_decide as Hc; [|done]. injection Ee as -> ->.
        destruct (entry_at b1 b b2 _ k ex E Eg (proj1 Hc)) as (ind' & _ & _ & ->). by rewrite Hp. }
      rewrite (IH (b1 ++ [b])); [done|done|]. destruct b.2; cbn in *; [done|lia].
    + cbn in Hr. replace fuel with ((fuel - length b.2) + length b.2) by lia. eapply (write_plain _ (place b1) b.2 _ (block_lines b1) (block_lines b2)); [done|done| | |done|].
      * intros p Hin. destruct (decide (p = place b1)) as [->|]; [done|]. apply (inside_plain b1 b b2 p E). lia.
      * intros p Hin. apply (inside_plain b1 b b2 p E). lia.
      * rewrite <- Hp. apply IH; [done|lia].
Qed.

End Whole.
