(* ===== verification/IniSpec.v ===== *)
(** * What a merge of INI files promises

    The lines that are written read as the target with the values of the source, and nothing else changes: provided that the target
    indents no key further than the one above it, and that headers are not indented at all. The examples at the end are what happens
    otherwise. *)

From S2P Require Import Prelude RustStr Decimals Ini IniFacts IniEdit.

(** ** Tidy files *)

(** Headers without indent, keys that are not indented further than the one above. *)
Fixpoint tidy_from (o : option nat) (its : list Item) : Prop :=
  match its with
  | [] => True
  | Skip :: its => tidy_from o its
  | Head _ ind :: its => ind = 0 /\ tidy_from None its
  | Key _ _ ind :: its => (forall d, o = Some d -> ind <= d) /\ tidy_from (Some ind) its
  end.

Lemma tidy_app o a b : tidy_from o (a ++ b) <-> tidy_from o a /\ tidy_from (foldl indent_after o a) b.
Proof. revert o. induction a as [|[] a IH]; intros o; cbn; rewrite ?IH; tauto. Qed.

(** Such files are read block by block. *)
Lemma tidy_laid o d bs : Forall (fun b => Spells b.1 b.2) bs -> tidy_from d (map fst bs) -> (o = None \/ o = d) -> laid o bs.
Proof.
  revert o d. induction bs as [|[[|n ind|k v ind] ls] bs IH]; intros o d; [done|..]; intros [Hb Hbs]%Forall_cons Ht Ho; cbn [map fst snd tidy_from laid open_after] in *.
  - split_and!; [done..|]. by eapply IH.
  - destruct Ht as [-> Ht]. split_and!; [done|intros ? _; lia|]. eapply IH; [done|done|by left].
  - destruct Ht as [Hd Ht]. split_and!; [done| |].
    + intros x ->. apply Hd. by destruct Ho.
    + eapply IH; [done|done|]. destruct v; [by right|by left].
Qed.

Fixpoint descending (l : list nat) : bool :=
  match l with a :: (b :: _) as r => (b <=? a) && descending r | _ => true end.

Definition flush_header (d : Doc) (s : IniSection) : bool := match s.(header) with Some h => indent_len (line_at d h) =? 0 | None => true end.

(** No header of the file is indented. *)
Definition flush (d : Doc) : bool := forallb (flush_header d) d.(sections).

(** Nor is a key indented further than the key above it in its section. *)
Definition tidy (d : Doc) : bool := forallb (fun s => flush_header d s && descending (map indent s.(entries))) d.(sections).

Lemma descending_snoc l x : descending (l ++ [x]) = true -> descending l = true /\ forall y, last l = Some y -> x <= y.
Proof.
  induction l as [|a [|b l] IH]; [done| |].
  - cbn. rewrite andb_true_r. intros H%Nat.leb_le. split; [done|]. by intros y [= <-].
  - cbn [app descending]. intros [Hb H]%andb_true_iff. destruct (IH H) as [H1 H2]. rewrite Hb. split; [done|]. intros y Hy. by apply H2.
Qed.

Lemma indent_last b1 : indent_at b1 = indent <$> last (entries (current (after_blocks 0 Reading_new b1))).
Proof.
  induction b1 as [|b b1 IH] using rev_ind; [done|]. unfold indent_at in *. rewrite map_app, foldl_app, after_blocks_app. cbn [map foldl after_blocks]. rewrite IH.
  destruct b as [[|n ind|k v ind] ls]; cbn [fst indent_after after_block snd current push_entry entries]; [done..|]. by rewrite last_snoc.
Qed.

Lemma tidy_blocks d bs : Blocked d bs -> tidy d = true -> tidy_from None (map fst bs).
Proof.
  intros Hd Htidy. unfold tidy in Htidy. rewrite (blocked_sections _ _ Hd) in Htidy. pose proof (doc_spells d bs Hd) as Hs.
  assert (forall b1 b2, bs = b1 ++ b2 -> forallb (fun s => flush_header d s && descending (map indent s.(entries))) (all_sections (after_blocks 0 Reading_new b1)) = true ->
    tidy_from None (map fst b1)) as Hgo; [|by apply (Hgo bs []); [by rewrite app_nil_r|]].
  clear Htidy. induction b1 as [|b b1 IH] using rev_ind; [done|]. intros b2 E Htidy. rewrite map_app. apply tidy_app. rewrite after_blocks_app in Htidy. cbn [after_blocks] in Htidy.
  rewrite Nat.add_0_l in Htidy. fold (place b1) in Htidy. rewrite <- app_assoc in E. specialize (IH _ E). pose proof (indent_last b1) as Hlast. fold (indent_at b1).
  set (st := after_blocks 0 Reading_new b1) in *. unfold all_sections in *. destruct b as [[|n ind|k v ind] ls]; cbn [after_block fst snd closed current map tidy_from] in *.
  - by split; [apply IH|].
  - rewrite forallb_app in Htidy. apply andb_true_iff in Htidy as [Hold Hnew]. split; [by apply IH|]. split; [|done].
    cbn in Hnew. rewrite !andb_true_r in Hnew. unfold flush_header in Hnew. cbn in Hnew. rewrite E in Hs. apply Forall_app in Hs as [_ [Hb _]%Forall_cons]. cbn [fst snd] in Hb.
    destruct (lines_at d bs Hd b1 ls b2 _ E (spells_nonempty _ _ Hb)) as (Hl & _). rewrite Hl in Hnew. apply Nat.eqb_eq in Hnew. inversion Hb; subst. done.
  - rewrite forallb_app in Htidy. apply andb_true_iff in Htidy as [Hold Hnew]. cbn [forallb push_entry entries] in Hnew. rewrite andb_true_r in Hnew.
    apply andb_true_iff in Hnew as [Hf Hdesc]. rewrite map_app in Hdesc. cbn [map entry_of indent] in Hdesc. apply descending_snoc in Hdesc as [Hd1 Hd2]. split.
    + apply IH. rewrite forallb_app, Hold. cbn [forallb andb]. rewrite Hd1. unfold flush_header in *. cbn [header push_entry] in Hf. by rewrite Hf.
    + split; [|done]. intros x Hx. apply Hd2. rewrite Hlast in Hx. destruct (last (entries (current st))) as [e|] eqn:El; [|done].
      injection Hx as <-. apply last_Some in El as [l ->]. rewrite map_app. cbn [map]. by rewrite last_snoc.
Qed.

Lemma header_flush d n : flush d = true -> has_section d (Some n) = true -> indent_len (header_line d n) = 0.
Proof.
  intros Hf Hn. unfold header_line. destruct (List.find _ _) as [s|] eqn:E; [|done]. apply find_some in E as [Hin _]. unfold flush in Hf. rewrite forallb_forall in Hf.
  specialize (Hf s Hin). unfold flush_header in Hf. cbn. destruct (header s); [by apply Nat.eqb_eq|done].
Qed.

(** ** The blocks of a merge *)

Lemma values_headless n k c its v : headless its -> v ∈ values_of n k c its <-> c = n /\ exists ind, Key k v ind ∈ its.
Proof.
  induction its as [|it its IH]; [intros _; split; [by intros ?%elem_of_nil|by intros (_ & ? & ?%elem_of_nil)]|]. intros Hh. cbn [values_of]. rewrite elem_of_app.
  destruct it as [|m ind|k' v' ind]; [|done|]; cbn [section_after headless] in *; rewrite (IH Hh).
  - split; [intros [?%elem_of_nil|(-> & i & ?)]; [done|]; split; [done|exists i; by right]|intros (-> & i & [?|?]%elem_of_cons); [done|]; right; split; [done|by exists i]].
  - split.
    + intros [H|(-> & i & ?)]; [|split; [done|exists i; by right]]. case_bool_decide as E; [|by apply elem_of_nil in H]. destruct E as [-> ->].
      apply list_elem_of_singleton in H as ->. split; [done|]. exists ind. by left.
    + intros (-> & i & [[= <- <- <-]|?]%elem_of_cons); [|right; split; [done|by exists i]]. left. rewrite bool_decide_eq_true_2 by done. by left.
Qed.

Definition spelled (B : Blocks) : Prop := Forall (fun b => Spells b.1 b.2) B.

Lemma block_lines_flat_map {A} (f : A -> Blocks) (g : A -> list str) l : (forall x, x ∈ l -> block_lines (f x) = g x) -> block_lines (flat_map f l) = flat_map g l.
Proof.
  induction l as [|x l IH]; intros H; [done|]. cbn [flat_map]. rewrite block_lines_app, H, IH; [done| |by left]. intros y Hy. apply H. by right.
Qed.

Section Pieces.

Context (t s : Doc) (bs ss : Blocks) (Ht : Blocked t bs) (Hs : Blocked s ss) (Hflush : flush s = true).

(** The keys that a section gets, as blocks. *)
Definition new_blocks (n : option str) (ind : str) (keys : list (str * Entry)) : Blocks :=
  flat_map (fun ke => match get t n ke.1 with Some _ => [] | None => [(Key ke.1 ke.2.(value) (len ind), entry_lines s ke.2 ind)] end) keys.

Lemma new_blocks_lines n ind keys : block_lines (new_blocks n ind keys) = new_lines t s n ind keys.
Proof. apply block_lines_flat_map. intros ke _. destruct (get t n ke.1); [done|]. unfold block_lines. cbn. by rewrite app_nil_r. Qed.

Lemma new_blocks_item n ind keys b : b ∈ new_blocks n ind keys <->
  exists k e, (k, e) ∈ keys /\ get t n k = None /\ b = (Key k e.(value) (len ind), entry_lines s e ind).
Proof.
  unfold new_blocks. rewrite list_elem_of_In, in_flat_map. split.
  - intros ([k e] & Hin & Hb). cbn [fst snd] in Hb. destruct (get t n k) eqn:Eg; [done|]. destruct Hb as [<-|[]]. exists k, e. by rewrite list_elem_of_In.
  - intros (k & e & Hin & Hg & ->). exists (k, e). rewrite <- list_elem_of_In. split; [done|]. cbn [fst snd]. rewrite Hg. by left.
Qed.

Lemma new_blocks_spelled n ind keys : blank ind = true -> (n, keys) ∈ effective s -> spelled (new_blocks n ind keys).
Proof using Hs.
  intros Hi Hk. apply Forall_forall. intros b (k & e & Hin & _ & ->)%new_blocks_item. cbn [fst snd]. eapply entry_copied; [exact Hs|done|by eapply effective_in].
Qed.

Lemma new_blocks_keys n ind keys : Forall (fun it => exists k v, it = Key k v (len ind)) (map fst (new_blocks n ind keys)).
Proof. apply Forall_forall. intros it (b & -> & (k & e & _ & _ & ->)%new_blocks_item)%list_elem_of_fmap. by exists k, e.(value). Qed.

Lemma keys_headless d its : Forall (fun it => exists k v, it = Key k v d) its -> headless its.
Proof. induction 1 as [|it its (k & v & ->) _ IH]; done. Qed.

Lemma keys_tidy o d its : Forall (fun it => exists k v, it = Key k v d) its -> (forall x, o = Some x -> d <= x) ->
  tidy_from o its /\ (its = [] \/ foldl indent_after o its = Some d).
Proof.
  intros H. revert o. induction H as [|it its (k & v & ->) _ IH]; intros o Ho; [split; [done|by left]|]. cbn [tidy_from foldl indent_after].
  destruct (IH (Some d)) as [H1 H2]; [intros ? [= <-]; lia|]. split; [done|]. right. by destruct H2 as [->|H2].
Qed.

(** What the keys of a section are in the source and the target. *)
Lemma new_blocks_values n ind keys m k c v : (n, keys) ∈ effective s ->
  v ∈ values_of m k c (map fst (new_blocks n ind keys)) <-> c = m /\ exists e, (k, e) ∈ keys /\ get t n k = None /\ v = e.(value).
Proof.
  intros Hk. rewrite values_headless by (eapply keys_headless, new_blocks_keys). split.
  - intros (-> & i & (b & Eb & (k' & e & Hin & Hg & ->)%new_blocks_item)%list_elem_of_fmap). injection Eb as -> -> ->. split; [done|]. by exists e.
  - intros (-> & e & Hin & Hg & ->). split; [done|]. exists (len ind). apply list_elem_of_fmap. eexists. split; [|apply new_blocks_item; by exists k, e]. done.
Qed.

End Pieces.

Section Pieces2.

Context (t s : Doc) (bs ss : Blocks) (Ht : Blocked t bs) (Hs : Blocked s ss) (Hflush : flush s = true).

(** What comes in at a place. *)
Definition inserted (p : nat) : list str := flat_map (contribution t s) (List.filter (fun nk => (insert_point t nk.1).1 =? p) (known t s)).

(** The values that an inserted key has. *)
Definition fresh (n : option str) (k : str) (v : option str) : Prop := exists e, get s n k = Some e /\ get t n k = None /\ v = e.(value).

Record InsertedAt (b1 b2 B : Blocks) : Prop := mkInserted {
  inserted_lines : inserted (place b1) = block_lines B;
  inserted_spelled : spelled B;
  inserted_headless : headless (map fst B);
  inserted_tidy : forall o, o = indent_at b1 \/ indent_at b1 = None /\ o = Some 0 -> tidy_from o (map fst B)
    /\ (foldl indent_after o (map fst B) = o \/ keyless (map fst b2) /\ foldl indent_after o (map fst B) = Some (default 0 (indent_at b1)));
  inserted_values : forall n k v, v ∈ values_of n k (section_at b1) (map fst B) -> section_at b1 = n /\ fresh n k v;
  inserted_all : forall n k e, has_section t n = true -> (insert_point t n).1 = place b1 -> get s n k = Some e -> get t n k = None ->
    e.(value) ∈ values_of n k (section_at b1) (map fst B)
}.

Lemma nil_inserted b1 b2 : List.filter (fun nk => (insert_point t nk.1).1 =? place b1) (known t s) = [] -> InsertedAt b1 b2 [].
Proof.
  intros E. constructor; try done; [unfold inserted; by rewrite E|by constructor|intros o _; split; [done|by left]|by intros n k v ?%elem_of_nil|].
  intros n k e Hn Hat Hg _. exfalso. destruct (effective_has s _ _ _ Hg) as (keys & Hk & _).
  assert ((n, keys) ∈ List.filter (fun nk => (insert_point t nk.1).1 =? place b1) (known t s)) as Hin; [|by rewrite E in Hin; apply elem_of_nil in Hin].
  apply list_elem_of_In, filter_In. split; [apply filter_In; split; [by apply list_elem_of_In|done]|by apply Nat.eqb_eq].
Qed.

Lemma skip_line : Spells Skip [[]].
Proof. by constructor. Qed.

Lemma inserted_at b1 b2 : bs = b1 ++ b2 -> exists B, InsertedAt b1 b2 B.
Proof using Ht Hs.
  intros E. destruct (List.filter (fun nk => (insert_point t nk.1).1 =? place b1) (known t s)) as [|[n keys] rest] eqn:Ef; [exists []; by apply nil_inserted|].
  assert (forall n' keys', (n', keys') ∈ (n, keys) :: rest -> (n', keys') ∈ effective s /\ has_section t n' = true /\ (insert_point t n').1 = place b1) as Hin.
  { intros n' keys' H. rewrite <- Ef in H. apply list_elem_of_In, filter_In in H as [[H1 H2]%filter_In H3%Nat.eqb_eq]. apply list_elem_of_In in H1. done. }
  assert (forall n' keys', (n', keys') ∈ (n, keys) :: rest -> n' = section_at b1 /\ keyless (map fst b2) /\ blank (insert_point t n').2 = true
    /\ (indent_at b1 = Some (len (insert_point t n').2) \/ indent_at b1 = None /\ (insert_point t n').2 = [])) as Hspot.
  { intros n' keys' (_ & Hsec & Hat)%Hin. destruct (insert_point_spot t bs Ht n' Hsec) as (c1 & c2 & Ec & Hp & Hsn & Hb & Hk & Hi). rewrite Hat in Hp.
    destruct (place_unique bs b1 b2 c1 c2 (doc_spells _ _ Ht) E Ec Hp) as [<- <-]. by split_and!. }
  assert (rest = []) as ->.
  { destruct rest as [|[n' keys'] rest]; [done|]. exfalso. destruct (Hspot n keys) as (E1 & _); [by left|]. destruct (Hspot n' keys') as (E2 & _); [by right; left|].
    pose proof (effective_nodup s) as Hnd. assert (NoDup (map fst (List.filter (fun nk => (insert_point t nk.1).1 =? place b1) (known t s)))) as Hnd'.
    { revert Hnd. unfold known. generalize (effective s) as l. clear. intros l. induction l as [|x l IH]; [done|]. intros [Hx Hl]%NoDup_cons. specialize (IH Hl). cbn [List.filter].
      destruct (has_section t x.1); [|done]. cbn [List.filter]. destruct (_ =? _); [|done]. cbn [map]. constructor; [|done]. intros Hx'. apply Hx.
      apply list_elem_of_fmap in Hx' as (y & -> & Hy). apply list_elem_of_In, filter_In in Hy as [[Hy _]%filter_In _]. apply list_elem_of_fmap. exists y. split; [done|]. by apply list_elem_of_In. }
    rewrite Ef in Hnd'. cbn in Hnd'. apply NoDup_cons in Hnd' as [Hnd' _]. apply Hnd'. rewrite E1, E2. by left. }
  destruct (Hin n keys) as (Hk & Hsec & Hat); [by left|]. destruct (Hspot n keys) as (Hn & Hkl & Hb & Hi); [by left|]. clear Hin Hspot. destruct (insert_point t n) as [at_ ind] eqn:Eip. cbn [fst snd] in *.
  set (B := new_blocks t s n ind keys). set (sep := if at_top t n at_ && bool_decide (new_lines t s n ind keys <> []) then [(Skip, [[]])] else [] : Blocks).
  assert (map fst sep = [] \/ map fst sep = [Skip]) as Hsep by (subst sep; destruct (_ && _); [by right|by left]).
  pose proof (new_blocks_keys t s n ind keys) as Hkeys. fold B in Hkeys.
  exists (B ++ sep). constructor.
  - unfold inserted. rewrite Ef. cbn [flat_map]. rewrite app_nil_r, block_lines_app. unfold contribution. cbn [fst snd]. rewrite Eip. cbn [fst snd]. subst B. rewrite new_blocks_lines.
    f_equal. subst sep. by destruct (_ && _).
  - apply Forall_app. split; [by eapply new_blocks_spelled|]. subst sep. destruct (_ && _); [|constructor]. constructor; [apply skip_line|constructor].
  - rewrite map_app. pose proof (keys_headless _ _ Hkeys) as H. revert H. generalize (map fst B) as its. intros its. induction its as [|[] its IH]; cbn; try done. by destruct Hsep as [-> | ->].
  - intros o Ho. rewrite map_app, tidy_app, foldl_app. destruct (keys_tidy o (len ind) (map fst B) Hkeys) as [H1 H2].
    { intros x ->. destruct Hi as [Hi|[Hi ->]]; [|cbn; lia]. rewrite Hi in Ho. destruct Ho as [[= ->]|[? _]]; done. }
    assert (forall o', tidy_from o' (map fst sep) /\ foldl indent_after o' (map fst sep) = o') as Hsep'; [by destruct Hsep as [-> | ->]|].
    split; [split; [done|apply Hsep']|]. rewrite (proj2 (Hsep' _)). destruct H2 as [->|H2]; [by left|right]. split; [done|]. rewrite H2.
    by destruct Hi as [-> |[-> ->]].
  - intros m k v Hv. rewrite map_app, values_of_app, (headless_section _ _ (keys_headless _ _ Hkeys)) in Hv. apply elem_of_app in Hv as [Hv|Hv].
    + apply new_blocks_values in Hv as (Hm & e & Hin & Hg & ->); [|done]. split; [done|]. rewrite <- Hm, <- Hn in *. exists e. split_and!; [by eapply effective_in|done..].
    + destruct Hsep as [E0|E0]; rewrite E0 in Hv; by apply elem_of_nil in Hv.
  - intros m k e Hm Hat' Hg Hgt. destruct (effective_has s _ _ _ Hg) as (keys' & Hk' & Hin).
    assert ((m, keys') ∈ [(n, keys)]) as Hone.
    { rewrite <- Ef. apply list_elem_of_In, filter_In. split; [apply filter_In; split; [by apply list_elem_of_In|done]|by apply Nat.eqb_eq]. }
    apply list_elem_of_singleton in Hone as [= -> ->]. rewrite map_app, values_of_app. apply elem_of_app. left. apply new_blocks_values; [done|]. split; [done|]. by exists e.
Qed.

(** Sections that the target does not have are appended. *)
Record Appended (ks : Effective) (B : Blocks) : Prop := mkAppended {
  appended_spelled : spelled B;
  appended_tidy : forall o, tidy_from o (map fst B);
  appended_headers : map Some (headers_of (map fst B)) = map fst ks;
  appended_values : forall n k c v, v ∈ values_of n k c (map fst B) <-> exists keys e, (n, keys) ∈ ks /\ (k, e) ∈ keys /\ v = e.(value)
}.

Lemma header_spelled m : has_section s (Some m) = true -> Spells (Head m 0) [header_line s m].
Proof using Hs Hflush.
  intros Hm. destruct (header_block s ss Hs m Hm) as (b1 & ind & l & b2 & E & Hl). pose proof (doc_spells _ _ Hs) as Hsp. rewrite E in Hsp.
  apply Forall_app in Hsp as [_ [Hb _]%Forall_cons]. cbn [fst snd] in Hb. pose proof (header_flush s m Hflush Hm) as Hf. rewrite Hl in *.
  inversion Hb; subst. by rewrite <- Hf.
Qed.

Definition section_blocks (m : str) (keys : list (str * Entry)) : Blocks :=
  (Head m 0, [header_line s m]) :: map (fun ke => (Key ke.1 ke.2.(value) 0, entry_lines s ke.2 [])) keys.

Lemma section_blocks_lines m keys : block_lines (section_blocks m keys) = [header_line s m] ++ flat_map (fun ke => entry_lines s ke.2 []) keys.
Proof.
  unfold section_blocks. change (block_lines (?x :: ?l)) with (x.2 ++ block_lines l). cbn [snd app]. f_equal. unfold block_lines.
  induction keys as [|ke keys IH]; [done|]. cbn [map concat snd flat_map]. by rewrite IH.
Qed.

Lemma section_keys (keys : list (str * Entry)) :
  Forall (fun it => exists k v, it = Key k v 0) (map fst (map (fun ke => (Key ke.1 ke.2.(value) 0, entry_lines s ke.2 [])) keys)).
Proof. induction keys as [|ke keys IH]; constructor; [by eexists _, _|done]. Qed.

Lemma appended_nil : Appended [] [].
Proof. constructor; [constructor|done|done|]. intros n k c v. split; [by intros ?%elem_of_nil|]. by intros (? & ? & ?%elem_of_nil & _). Qed.

Lemma appended_cons m keys ks B sep : (Some m, keys) ∈ effective s -> Appended ks B -> sep = [] \/ sep = [(Skip, [[]])] ->
  Appended ((Some m, keys) :: ks) (sep ++ section_blocks m keys ++ B).
Proof using Hs Hflush.
  intros Hk [H1 H2 H3 H4] Hsep. pose proof (section_keys keys) as Hkeys. assert (spelled sep) as Hsp by (destruct Hsep as [-> | ->]; repeat constructor).
  assert (has_section s (Some m) = true) as Hm.
  { unfold has_section. apply orb_true_iff. right. apply existsb_exists. destruct (effective_spec (sections s)) as (_ & _ & _ & Hin & _). fold (effective s) in Hin.
    assert (Some m ∈ map name (sections s)) as (x & Hx & Hxs)%list_elem_of_fmap by (apply Hin; apply list_elem_of_fmap; by exists (Some m, keys)).
    exists x. by rewrite bool_decide_eq_true, <- list_elem_of_In. }
  constructor.
  - apply Forall_app. split; [done|]. apply Forall_app. split; [|done]. constructor; [by apply header_spelled|]. apply Forall_forall. intros b Hb.
    apply list_elem_of_fmap in Hb as ([k e] & -> & Hin). cbn [fst snd]. apply (entry_copied s ss Hs (Some m) k e []); [done|by eapply effective_in].
  - intros o. rewrite !map_app, !tidy_app. split_and!; [by destruct Hsep as [-> | ->]| |apply H2]. cbn [section_blocks map fst tidy_from]. split; [done|].
    apply (keys_tidy None 0 _ Hkeys). done.
  - rewrite !map_app, !headers_of_app. assert (headers_of (map fst sep) = []) as -> by (by destruct Hsep as [-> | ->]). cbn [app section_blocks map fst headers_of].
    assert (headers_of (map fst (map (fun ke => (Key ke.1 ke.2.(value) 0, entry_lines s ke.2 [])) keys)) = []) as -> by (clear; induction keys; done). cbn [app map]. by rewrite H3.
  - intros n k c v. rewrite !map_app, !values_of_app, !elem_of_app. assert (values_of n k c (map fst sep) = []) as -> by (by destruct Hsep as [-> | ->]).
    rewrite H4. cbn [section_blocks map fst values_of section_after app]. rewrite values_headless by (by eapply keys_headless). split.
    + intros [?%elem_of_nil|[(<- & i & (b & Eb & ([k' e] & -> & Hin)%list_elem_of_fmap)%list_elem_of_fmap)|(keys' & e & Hin & He & ->)]]; [done| |].
      * injection Eb as -> -> ->. exists keys, e. split_and!; [by left|done..].
      * exists keys', e. split_and!; [by right|done..].
    + intros (keys' & e & [[= -> ->]|Hin]%elem_of_cons & He & ->); right; [left|right; by exists keys', e]. split; [done|]. exists 0.
      apply list_elem_of_fmap. eexists. split; [|apply list_elem_of_fmap; by exists (k, e)]. done.
Qed.

Lemma append_sections ks a : (forall n keys, (n, keys) ∈ ks -> (n, keys) ∈ effective s /\ n <> None) ->
  exists B, foldl (append_section t s) a ks = a ++ block_lines B /\ Appended ks B.
Proof using Hs Hflush.
  revert a. induction ks as [|[n keys] ks IH]; intros a Hks; cbn [foldl].
  { exists []. split; [by rewrite app_nil_r|apply appended_nil]. }
  destruct (Hks n keys) as [Hk Hn]; [by left|]. destruct n as [m|]; [|done].
  destruct (IH (append_section t s a (Some m, keys))) as (B & -> & HB); [intros n' keys' H; apply Hks; by right|].
  unfold append_section. cbn [fst snd]. set (last_line := match last a with Some l => Some l | None => _ end).
  set (sep := match last_line with Some line => if bool_decide (trim line = []) then [] else [(Skip, [[]])] | None => [] end : Blocks).
  exists (sep ++ section_blocks m keys ++ B). split.
  - rewrite !block_lines_app, section_blocks_lines. subst sep. destruct last_line as [l|]; [case_bool_decide|]; cbn; by rewrite <- ?app_assoc.
  - apply appended_cons; [done..|]. subst sep. destruct last_line; [case_bool_decide|]; (by left) || (by right).
Qed.

End Pieces2.

(** ** Characters *)

Lemma str_from_chars s p c : c ∈ str_from s p -> c ∈ s.
Proof. intros H. rewrite <- (str_to_from s p). apply elem_of_app. by right. Qed.

Lemma str_to_chars s p c : c ∈ str_to s p -> c ∈ s.
Proof. intros H. rewrite <- (str_to_from s p). apply elem_of_app. by left. Qed.

Section Characters.

Context (P : char -> Prop).

Definition made_of (ls : list str) : Prop := Forall (Forall P) ls.

Lemma str_from_made s p : Forall P s -> Forall P (str_from s p).
Proof. rewrite !Forall_forall. eauto using str_from_chars. Qed.

Lemma str_to_made s p : Forall P s -> Forall P (str_to s p).
Proof. rewrite !Forall_forall. eauto using str_to_chars. Qed.

Lemma line_made d i : made_of d.(doc_lines) -> Forall P (line_at d i).
Proof.
  intros H. unfold line_at. destruct (nth_in_or_default i (doc_lines d) []) as [Hin|Hd]; [|by rewrite Hd].
  unfold made_of in H. rewrite Forall_forall in H. apply H. by apply list_elem_of_In.
Qed.

Lemma indent_made d e : made_of d.(doc_lines) -> Forall P (indent_of d e).
Proof. intros H. by apply str_to_made, line_made. Qed.

Lemma span_made d a b : made_of d.(doc_lines) -> made_of (span d a b).
Proof. intros H. unfold span. by apply Forall_take, Forall_drop. Qed.

Lemma move_made from ind l : Forall P ind -> Forall P l -> Forall P (move_line from ind l).
Proof.
  intros Hi Hl. unfold move_line, str_get_from. case_bool_decide; [constructor|]. apply Forall_app. split; [done|]. destruct (_ =? _); [by apply str_from_made|done].
Qed.

Lemma entry_made d e ind : made_of d.(doc_lines) -> Forall P ind -> made_of (entry_lines d e ind).
Proof. intros Hd Hi. unfold entry_lines. apply Forall_map. eapply Forall_impl; [by apply span_made|]. intros l Hl. by apply move_made. Qed.

Lemma trim_made s : Forall P s -> Forall P (trim s).
Proof. rewrite !Forall_forall. eauto using trim_subset. Qed.

End Characters.

Section Blocks2.

Context (t s : Doc) (bs ss : Blocks) (Ht : Blocked t bs) (Hs : Blocked s ss).
Context (Hnt : made_of (fun c => c <> 10%N) t.(doc_lines)) (Hns : made_of (fun c => c <> 10%N) s.(doc_lines)).

(** A block that is replaced is the key with the new value, and comments. *)
Lemma block_replaced b1 b b2 : bs = b1 ++ b :: b2 -> exists B, block_out t s b1 b = block_lines B /\ spelled B
  /\ match edited t s b1 b with
     | None => B = [b]
     | Some (_, e) => exists k v ind ls fs, b.1 = Key k v ind /\ B = (Key k e.(value) ind, ls) :: skips fs
     end.
Proof using Ht Hs Hnt Hns.
  intros E. pose proof (doc_spells _ _ Ht) as Hsp. rewrite E in Hsp. apply Forall_app in Hsp as [_ [Hb _]%Forall_cons]. unfold block_out.
  destruct (edited t s b1 b) as [[ex e]|] eqn:Ee; [|exists [b]; split_and!; [unfold block_lines; cbn; by rewrite app_nil_r|by constructor|done]].
  unfold edited in Ee. destruct b as [it ls]. cbn [fst snd] in *. destruct it as [| |k v ind]; [done..|].
  destruct (get t (section_at b1) k) as [ex'|] eqn:Eg; [|done]. destruct (get s (section_at b1) k) as [e'|] eqn:Es; [|done]. case_bool_decide as Hc; [|done]. injection Ee as -> ->.
  destruct (entry_at t bs Ht b1 (Key k v ind, ls) b2 _ k ex E Eg (proj1 Hc)) as (ind' & [= Ev ->] & _ & Hex). cbn [snd] in Hex. rewrite <- Ev in Hex. clear Ev Hc.
  pose proof (spells_nonempty _ _ Hb) as Hne. destruct (lines_at t bs Ht b1 ls b2 _ E Hne) as (Hl & _ & Htail).
  inversion Hb as [| |l k' v0 p tl w Hsk Hhd Hread Hkne Htl Hv0 Ek Els]. subst k' ls. cbn [nth tail] in *. apply not_skipped_text in Hsk as Htext.
  destruct (read_key_inv l Htext) as (a & k1 & v1 & p1 & Hread1 & Hline). rewrite Hread in Hread1. injection Hread1 as <- <- <-.
  destruct (key_line_read _ _ _ _ _ Hline) as (_ & Hind & Ha). assert (ind' = len a) as -> by congruence.
  assert (indent_of t ex = a) as Hia.
  { unfold indent_of. rewrite Hex. cbn [entry_of start Ini.indent]. rewrite Hl. inversion Hline; subst; apply str_to_app. }
  pose proof (entry_copied s ss Hs _ k e a Ha Es) as Hcopy.
  assert (made_of (fun c => c <> 10%N) (entry_lines s e a)) as Hmade by (apply entry_made; [done|rewrite <- Hia; by apply indent_made]).
  unfold replacement. rewrite Hia. destruct (entry_lines s e a) as [|f tl'] eqn:Eel; [by apply spells_nonempty in Hcopy|]. cbn [insert list_insert].
  set (fs := List.filter (fun line => starts_comment (trim_start line)) (span t (S (start ex)) (end_ ex))).
  exists ((Key k (value e) (len a), replacement_line a ex (first_line <$> value e) :: tl') :: skips fs). split_and!.
  - change (block_lines (?x :: ?r)) with (x.2 ++ block_lines r). by rewrite block_lines_skips.
  - constructor.
    + cbn [fst snd]. eapply (spells_replaced a k v0 p l ex (value e) f tl'); [done..|by rewrite Hex| |done|].
      * rewrite Hex. cbn [entry_of prefix nth]. by rewrite Hread.
      * intros Hin. apply Forall_cons in Hmade as [Hf _]. rewrite Forall_forall in Hf. by apply (Hf _ Hin).
    + eapply laid_spells, (laid_skips None). apply forallb_forall. intros line Hin. subst fs. apply filter_In in Hin as [_ Hc].
      unfold skipped. apply orb_true_iff. right. unfold trim. destruct (trim_start line) as [|c r] eqn:Et; [done|].
      assert (is_whitespace c = false) as Hw by by apply drop_while_head in Et. destruct (trim_end_split (c :: r)) as (x & Ex & Hx).
      destruct (trim_end (c :: r)) as [|c' r'] eqn:Ee'; [cbn in Ex; subst x; cbn in Hx; by rewrite Hw in Hx|]. injection Ex as <- _. done.
  - eexists k, v, (len a), _, fs. split; [cbn [fst]; congruence|reflexivity].
Qed.

End Blocks2.

(** ** A merge as blocks *)

Section Assembly.

Context (t s : Doc) (bs ss : Blocks) (Ht : Blocked t bs) (Hs : Blocked s ss).
Context (Hnt : made_of (fun c => c <> 10%N) t.(doc_lines)) (Hns : made_of (fun c => c <> 10%N) s.(doc_lines)).
Context (Htidy : tidy_from None (map fst bs)) (Hflush : flush s = true).

(** What the values of a key are in the part of the merge that stands for the blocks behind [b1]. *)
Definition merged_values (b1 b2 : Blocks) (n : option str) (k : str) (V : list (option str)) : Prop :=
  match get s n k, get t n k with
  | None, _ => V = values_of n k (section_at b1) (map fst b2)
  | Some e, Some ex => if decide (place b1 <= ex.(start)) then last V = Some e.(value) else V = []
  | Some e, None => (forall v, v ∈ V -> v = e.(value)) /\ ((has_section t n = true -> place b1 <= (insert_point t n).1) -> e.(value) ∈ V)
  end.

Record Assembled (b1 b2 B : Blocks) : Prop := mkAssembled {
  assembled_lines : lines_out t s b1 b2 = block_lines B;
  assembled_spelled : spelled B;
  assembled_tidy : forall o, o = indent_at b1 \/ indent_at b1 = None /\ o = Some 0 /\ keyless (map fst b2) -> tidy_from o (map fst B);
  assembled_headers : map Some (headers_of (map fst B)) = map Some (headers_of (map fst b2)) ++ map fst (unknown t s);
  assembled_values : forall n k, merged_values b1 b2 n k (values_of n k (section_at b1) (map fst B))
}.

Lemma place_total : place bs = total t.
Proof using Ht. unfold place, total. by rewrite (blocked_lines _ _ Ht). Qed.

Lemma place_bound b1 b2 : bs = b1 ++ b2 -> place b1 <= total t.
Proof using Ht. intros E. rewrite <- place_total, E, place_app. lia. Qed.

Lemma insert_bound n : has_section t n = true -> (insert_point t n).1 <= total t.
Proof using Ht. intros Hn. destruct (insert_point_spot t bs Ht n Hn) as (b1 & b2 & E & -> & _). by eapply place_bound. Qed.

Lemma entry_bound n k ex : get t n k = Some ex -> ex.(start) < total t.
Proof using Ht.
  intros (b1 & v & ind & ls & b2 & E & _ & -> & _ & Hsp)%(get_block t bs Ht). cbn. rewrite <- place_total, E, place_app, place_cons. cbn [snd].
  apply spells_nonempty in Hsp. destruct ls; cbn; [done|lia].
Qed.

Lemma unknown_section n keys : (n, keys) ∈ unknown t s <-> (n, keys) ∈ effective s /\ has_section t n = false.
Proof. unfold unknown. rewrite !list_elem_of_In, filter_In. cbn [fst]. by rewrite negb_true_iff. Qed.

Lemma values_nil {A} (l : list A) : (forall v, v ∉ l) -> l = [].
Proof. destruct l as [|x l]; [done|]. intros H. by destruct (H x); left. Qed.

(** Only a key that the target does not have is inserted. *)
Lemma inserted_known b1 b2 B n k : InsertedAt t s b1 b2 B -> get s n k = None \/ is_Some (get t n k) -> values_of n k (section_at b1) (map fst B) = [].
Proof. intros HB Hg. apply values_nil. intros v (_ & e & He & Hn & _)%(inserted_values _ _ _ _ _ HB). rewrite He, Hn in Hg. destruct Hg as [Hg|[? Hg]]; done. Qed.

Lemma assembled_end : exists B, Assembled bs [] B.
Proof using Ht Hs Hflush.
  destruct (inserted_at t s bs ss Ht Hs bs []) as [B HB]; [by rewrite app_nil_r|].
  destruct (append_sections t s ss Hs Hflush (unknown t s) (inserted t s (total t))) as (A & Hlines & HA).
  { intros n keys [Hk Hn]%unknown_section. split; [done|]. by intros ->. }
  assert (forall n k c, values_of n k c (map fst (B ++ A)) = values_of n k c (map fst B) ++ values_of n k c (map fst A)) as Hsplit.
  { intros n k c. rewrite map_app, values_of_app. by rewrite headless_section by apply (inserted_headless _ _ _ _ _ HB). }
  assert (forall n k c v, v ∈ values_of n k c (map fst A) <-> exists e, has_section t n = false /\ get s n k = Some e /\ v = e.(value)) as Happ.
  { intros n k c v. rewrite (appended_values _ _ HA). split.
    - intros (keys & e & [Hk Hn]%unknown_section & Hin & ->). exists e. split_and!; [done|by eapply effective_in|done].
    - intros (e & Hn & (keys & Hk & Hin)%effective_has & ->). exists keys, e. by rewrite unknown_section. }
  exists (B ++ A). constructor.
  - cbn [lines_out]. rewrite app_nil_r, place_total. destruct (edits_spec t s) as (_ & _ & ->). fold (inserted t s (total t)). rewrite Hlines, block_lines_app.
    f_equal. rewrite <- place_total. apply HB.
  - apply Forall_app. split; [apply HB|apply HA].
  - intros o Ho. rewrite map_app, tidy_app. split; [|apply HA]. apply (inserted_tidy _ _ _ _ _ HB). destruct Ho as [?|(? & ? & _)]; [by left|by right].
  - rewrite map_app, headers_of_app. assert (headers_of (map fst B) = []) as ->; [|apply HA]. pose proof (inserted_headless _ _ _ _ _ HB) as Hh. revert Hh.
    generalize (map fst B). induction l as [|[] l IH]; cbn; done.
  - intros n k. rewrite Hsplit. unfold merged_values. destruct (get s n k) as [e|] eqn:Es.
    + destruct (get t n k) as [ex|] eqn:Eg.
      * rewrite decide_False by (pose proof (entry_bound _ _ _ Eg); rewrite place_total; lia). rewrite (inserted_known _ _ _ _ _ HB) by (right; by eexists).
        apply values_nil. intros v (e' & Hn & _)%Happ. destruct (get_block t bs Ht _ _ _ Eg) as (b1 & v' & ind & ls & b2 & E & <- & _).
        by rewrite (has_section_at t bs Ht _ _ E) in Hn.
      * split.
        -- intros v [(_ & e' & He & _ & ->)%(inserted_values _ _ _ _ _ HB)|(e' & _ & He & ->)%Happ]%elem_of_app; congruence.
        -- intros Hat. apply elem_of_app. destruct (has_section t n) eqn:En; [left|right; apply Happ; by exists e].
           apply (inserted_all _ _ _ _ _ HB); try done. pose proof (insert_bound n En). specialize (Hat eq_refl). rewrite place_total in Hat |- *. lia.
    + rewrite (inserted_known _ _ _ _ _ HB) by by left. cbn. apply values_nil. intros v (e' & _ & He & _)%Happ. by rewrite Es in He.
Qed.

(** Of one block: its values. *)
Lemma block_values b1 b b2 B n k : bs = b1 ++ b :: b2 ->
  match edited t s b1 b with
  | None => B = [b]
  | Some (_, e) => exists k v ind ls fs, b.1 = Key k v ind /\ B = (Key k e.(value) ind, ls) :: skips fs
  end ->
  values_of n k (section_at b1) (map fst B) =
    match edited t s b1 b with
    | Some (_, e) => match b.1 with Key k' _ _ => if bool_decide (section_at b1 = n /\ k' = k) then [e.(value)] else [] | _ => [] end
    | None => values_of n k (section_at b1) [b.1]
    end.
Proof.
  intros _ HB. destruct (edited t s b1 b) as [[ex e]|]; [|by subst B]. destruct HB as (k' & v & ind & ls & fs & -> & ->). cbn [map fst values_of].
  assert (forall c, values_of n k c (map fst (skips fs)) = []) as -> by (intros c; induction fs; done). by rewrite app_nil_r.
Qed.

Lemma replaced_item b1 b B :
  match edited t s b1 b with
  | None => B = [b]
  | Some (_, e) => exists k v ind ls fs, b.1 = Key k v ind /\ B = (Key k e.(value) ind, ls) :: skips fs
  end ->
  (forall c, foldl section_after c (map fst B) = section_after c b.1) /\ (forall o, foldl indent_after o (map fst B) = indent_after o b.1)
  /\ (forall o, tidy_from o [b.1] -> tidy_from o (map fst B)) /\ headers_of (map fst B) = headers_of [b.1].
Proof.
  destruct (edited t s b1 b) as [[ex e]|]; [|by intros ->]. intros (k & v & ind & ls & fs & -> & ->). cbn [map fst foldl section_after indent_after tidy_from headers_of].
  assert (headers_of (map fst (skips fs)) = []) as -> by (induction fs; done). split_and!; [intros c; apply skips_section|intros o; apply skips_indent| |done].
  intros o [Ho _]. split; [done|]. generalize (Some ind). clear. intros o. by induction fs.
Qed.

Lemma section_snoc b1 b : section_at (b1 ++ [b]) = section_after (section_at b1) b.1.
Proof. unfold section_at. by rewrite map_app, foldl_app. Qed.

Lemma indent_snoc b1 b : indent_at (b1 ++ [b]) = indent_after (indent_at b1) b.1.
Proof. unfold indent_at. by rewrite map_app, foldl_app. Qed.

(** A block of a key that the source sets too. *)
Lemma edited_value b1 b b2 n k e : bs = b1 ++ b :: b2 -> get s n k = Some e ->
  match get t n k with
  | Some ex =>
      if decide (place b1 = ex.(start)) then
        match edited t s b1 b with
        | Some (_, e) => match b.1 with Key k' _ _ => if bool_decide (section_at b1 = n /\ k' = k) then [e.(value)] else [] | _ => [] end
        | None => values_of n k (section_at b1) [b.1]
        end = [e.(value)]
      else place b1 < ex.(start) \/
        match edited t s b1 b with
        | Some (_, e) => match b.1 with Key k' _ _ => if bool_decide (section_at b1 = n /\ k' = k) then [e.(value)] else [] | _ => [] end
        | None => values_of n k (section_at b1) [b.1]
        end = []
  | None =>
      match edited t s b1 b with
      | Some (_, e) => match b.1 with Key k' _ _ => if bool_decide (section_at b1 = n /\ k' = k) then [e.(value)] else [] | _ => [] end
      | None => values_of n k (section_at b1) [b.1]
      end = []
  end.
Proof using Ht.
  intros E Es. set (V := match edited t s b1 b with Some _ => _ | None => _ end).
  assert (values_of n k (section_at b1) [b.1] = [] -> V = []) as Hnone.
  { subst V. destruct (edited t s b1 b) as [[? ?]|]; [|done]. destruct b.1; [done..|]. cbn [values_of]. rewrite app_nil_r. by case_bool_decide. }
  destruct (get t n k) as [ex|] eqn:Eg.
  - case_decide as Hst.
    + destruct (entry_at t bs Ht b1 b b2 n k ex E Eg (eq_sym Hst)) as (ind & Eb & -> & _). subst V. unfold edited. rewrite Eb, Eg, Es.
      case_bool_decide as Hv.
      * by rewrite bool_decide_eq_true_2.
      * cbn [values_of]. rewrite bool_decide_eq_true_2, app_nil_r by done. f_equal. apply dec_stable. intros Hne. by apply Hv.
    + destruct (decide (place b1 < start ex)) as [|Hge]; [by left|right]. apply Hnone.
      destruct (get_block t bs Ht n k ex Eg) as (c1 & v & ind & ls & c2 & Ec & <- & Hex & Hlater & _). rewrite Hex in Hst, Hge. cbn [entry_of start] in *.
      pose proof E as E'. rewrite Ec in E'. apply app_eq_inv in E' as [(x & -> & Ex)|(x & -> & Ex)]; rewrite place_app in *; [lia|].
      destruct x as [|y x]; [exfalso; apply Hst; cbn; lia|]. injection Ex as <- ->. rewrite map_app, values_of_app in Hlater. cbn [map values_of] in Hlater.
      apply app_eq_nil in Hlater as [_ [Hlater _]%app_eq_nil]. cbn [values_of]. rewrite app_nil_r.
      assert (section_at (c1 ++ (Key k v ind, ls) :: x) = foldl section_after (section_at c1) (map fst x)) as ->; [|done].
      unfold section_at. rewrite map_app, foldl_app. done.
  - apply Hnone. destruct b as [[|m ind|k' v ind] ls]; cbn [fst values_of]; [done..|]. rewrite app_nil_r. case_bool_decide as Hc; [|done].
    destruct Hc as [<- <-]. destruct (get_some t bs Ht b1 k' v ind ls b2 E) as [? Hg]. by rewrite Eg in Hg.
Qed.

Lemma assembled_step b1 b b2 B' : bs = b1 ++ b :: b2 -> Assembled (b1 ++ [b]) b2 B' -> exists B, Assembled b1 (b :: b2) B.
Proof using Ht Hs Hnt Hns Htidy.
  intros E HB'. destruct (inserted_at t s bs ss Ht Hs b1 (b :: b2) E) as [I HI]. destruct (block_replaced t s bs ss Ht Hs Hnt Hns b1 b b2 E) as (R & HRl & HRs & HR).
  destruct (replaced_item b1 b R HR) as (Hsec & Hind & Htd & Hhd). pose proof (fun n k => block_values b1 b b2 R n k E HR) as HRv. clear HR.
  pose proof (inserted_headless _ _ _ _ _ HI) as Hh. pose proof (doc_spells _ _ Ht) as Hsp. rewrite E in Hsp. apply Forall_app in Hsp as [_ [Hb _]%Forall_cons].
  apply spells_nonempty in Hb. assert (place b1 < total t) as Hlt.
  { rewrite <- place_total, E, place_app, place_cons. destruct b.2; cbn; [done|lia]. }
  assert (forall n k, values_of n k (section_at b1) (map fst (I ++ R ++ B')) =
    values_of n k (section_at b1) (map fst I) ++ values_of n k (section_at b1) (map fst R) ++ values_of n k (section_at (b1 ++ [b])) (map fst B')) as Hsplit.
  { intros n k. rewrite !map_app, !values_of_app. by rewrite headless_section, Hsec, section_snoc. }
  pose proof Htidy as Htb. rewrite E, map_app in Htb. apply tidy_app in Htb as [_ Htb]. fold (indent_at b1) in Htb. cbn [map] in Htb.
  exists (I ++ R ++ B'). constructor.
  - cbn [lines_out]. destruct (edits_spec t s) as (_ & Hed & _). rewrite (Hed _ Hlt). fold (inserted t s (place b1)). rewrite !block_lines_app, (assembled_lines _ _ _ HB'), HRl. f_equal. apply HI.
  - apply Forall_app. split; [apply HI|]. apply Forall_app. split; [done|apply HB'].
  - intros o Ho. rewrite !map_app, !tidy_app, Hind. destruct (inserted_tidy _ _ _ _ _ HI o) as [HI1 HI2]; [destruct Ho as [?|(? & ? & _)]; [by left|by right]|].
    set (o' := foldl indent_after o (map fst I)) in *. split; [done|]. pose proof (assembled_tidy _ _ _ HB' (indent_after o' b.1)) as HT. rewrite indent_snoc in HT.
    destruct b.1 as [|m ind|k v ind] eqn:Eb; cbn [indent_after tidy_from map] in *.
    + split; [by apply Htd|]. apply HT. destruct HI2 as [-> |[Hk ->]].
      * destruct Ho as [?|(? & ? & Hk)]; [by left|right]. rewrite Eb in Hk. done.
      * rewrite Eb in Hk. destruct (indent_at b1) as [x|]; [by left|by right].
    + split; [apply Htd; split; [apply Htb|done]|]. apply HT. by left.
    + assert (o' = indent_at b1) as Ho'.
      { destruct HI2 as [-> |[Hk _]]; [|by rewrite Eb in Hk]. destruct Ho as [?|(_ & _ & Hk)]; [done|by rewrite Eb in Hk]. }
      rewrite Ho'. split; [apply Htd; split; [apply Htb|done]|]. apply HT. by left.
  - rewrite !map_app, !headers_of_app, Hhd. assert (headers_of (map fst I) = []) as ->.
    { revert Hh. generalize (map fst I). induction l as [|[] l IH]; cbn; done. }
    cbn [app]. rewrite map_app, (assembled_headers _ _ _ HB'), app_assoc, <- map_app. cbn [map]. by rewrite <- headers_of_app.
  - intros n k. rewrite Hsplit, HRv. pose proof (assembled_values _ _ _ HB' n k) as HV. unfold merged_values in *. destruct (get s n k) as [e|] eqn:Es.
    + pose proof (edited_value b1 b b2 n k e E Es) as Hval. set (V := match edited t s b1 b with Some _ => _ | None => _ end) in *.
      assert (place (b1 ++ [b]) = place b1 + length b.2) as Hp by (rewrite place_app, place_cons; cbn; lia).
      destruct (get t n k) as [ex|] eqn:Eg.
      * rewrite (inserted_known _ _ _ _ _ HI) by (right; by eexists). cbn [app]. destruct (decide (place b1 = start ex)) as [Hst|Hst].
        -- rewrite Hval. rewrite decide_False in HV by (rewrite Hp, <- Hst; destruct b.2; cbn; [done|lia]). rewrite HV, decide_True by lia. done.
        -- destruct (decide (place b1 <= start ex)) as [Hle|Hle].
           ++ destruct (get_block t bs Ht n k ex Eg) as (c1 & v & ind & ls & c2 & Ec & _ & Hex & _). assert (place b1 < place c1) as Hlt' by (rewrite Hex in Hst, Hle; cbn in *; lia).
              pose proof (place_inside bs b1 b b2 c1 _ E Ec Hlt') as Hin. rewrite decide_True in HV by (rewrite Hp, Hex; exact Hin). by rewrite last_app, HV.
           ++ rewrite decide_False in HV by lia. rewrite HV, app_nil_r. destruct Hval as [|Hval]; [lia|done].
      * rewrite Hval. cbn [app]. destruct HV as [HV1 HV2]. split.
        -- intros v [(_ & e' & He & _ & ->)%(inserted_values _ _ _ _ _ HI)|Hv]%elem_of_app; [congruence|by apply HV1].
        -- intros Hat. apply elem_of_app. destruct (has_section t n) eqn:En; [|right; by apply HV2]. specialize (Hat eq_refl).
           destruct (decide ((insert_point t n).1 = place b1)) as [Heq|Hne]; [left; by apply (inserted_all _ _ _ _ _ HI)|right]. apply HV2. intros _.
           destruct (insert_point_spot t bs Ht n En) as (c1 & c2 & Ec & Hc & _). rewrite Hc in *. rewrite Hp. apply (place_inside bs b1 b b2 c1 c2); [done|done|lia].
    + rewrite (inserted_known _ _ _ _ _ HI) by by left. cbn [app map]. rewrite HV. change (b.1 :: map fst b2) with ([b.1] ++ map fst b2). rewrite values_of_app, section_snoc.
      f_equal. destruct (edited t s b1 b) as [[ex e]|] eqn:Ee; [|done]. unfold edited in Ee. destruct b.1 as [| |k' v ind]; [done..|].
      cbn [values_of]. rewrite app_nil_r. case_bool_decide as Hc; [|done]. destruct Hc as [<- <-]. rewrite Es in Ee. by destruct (get t (section_at b1) k').
Qed.

Lemma assembled b2 : forall b1, bs = b1 ++ b2 -> exists B, Assembled b1 b2 B.
Proof using Ht Hs Hnt Hns Htidy Hflush.
  induction b2 as [|b b2 IH]; intros b1 E; [rewrite app_nil_r in E; subst b1; apply assembled_end|].
  destruct (IH (b1 ++ [b])) as [B' HB']; [by rewrite <- app_assoc|]. by apply (assembled_step b1 b b2 B').
Qed.

End Assembly.

(** ** The text of a merge *)

Definition newline (nl : str) : Prop := nl = [10%N] \/ nl = [13%N; 10%N].

Lemma strip_cr_split l : exists b, l = strip_cr l ++ b /\ blank b = true.
Proof.
  unfold strip_cr. destruct (reverse l) as [|c r] eqn:E; [exists []; by rewrite app_nil_r|]. destruct (c =? 13)%N eqn:Ec; [|exists []; by rewrite app_nil_r].
  apply N.eqb_eq in Ec as ->. exists [13%N]. split; [|done]. apply (f_equal reverse) in E. by rewrite reverse_involutive, reverse_cons in E.
Qed.

Lemma strip_cr_snoc l : strip_cr (l ++ [13%N]) = l.
Proof. unfold strip_cr. rewrite reverse_app, reverse_singleton. cbn [app N.eqb Pos.eqb]. by rewrite reverse_involutive. Qed.

Lemma lines_line l rest : 10%N ∉ l -> lines (l ++ 10%N :: rest) = strip_cr l :: lines rest.
Proof.
  intros Hl. unfold lines. rewrite split_on_head by done. pose proof (split_on_nonempty (N.eqb 10) rest). by destruct (split_on _ rest).
Qed.

Lemma lines_newline nl l rest : newline nl -> 10%N ∉ l -> exists l', shortened l l' /\ lines (l ++ nl ++ rest) = l' :: lines rest.
Proof.
  intros [-> | ->] Hl.
  - exists (strip_cr l). split; [apply strip_cr_split|by apply lines_line].
  - exists l. split; [exists []; by rewrite app_nil_r|]. replace (l ++ [13%N; 10%N] ++ rest) with ((l ++ [13%N]) ++ 10%N :: rest) by (by rewrite <- app_assoc).
    rewrite lines_line, strip_cr_snoc; [done|set_solver].
Qed.

Lemma shortened_refl l : shortened l l.
Proof. exists []. by rewrite app_nil_r. Qed.

Lemma lines_join nl out : newline nl -> Forall (fun l => 10%N ∉ l) out ->
  exists ls, Forall2 shortened out ls /\ (lines (join nl out) = ls \/ lines (join nl out) ++ [[]] = ls).
Proof.
  intros Hnl. induction out as [|l out IH]; intros Hout; [exists []; by split; [constructor|left]|]. apply Forall_cons in Hout as [Hl Hout]. destruct out as [|l2 out].
  - exists [l]. split; [constructor; [apply shortened_refl|constructor]|]. cbn [join]. unfold lines. rewrite split_on_none by done. cbn. destruct l; [by right|by left].
  - destruct (IH Hout) as (ls & H1 & H2). change (join nl (l :: l2 :: out)) with (l ++ nl ++ join nl (l2 :: out)).
    destruct (lines_newline nl l (join nl (l2 :: out)) Hnl Hl) as (l' & Hl' & ->). exists (l' :: ls). split; [by constructor|].
    destruct H2 as [-> | <-]; [by left|by right].
Qed.

Lemma lines_join_newline nl out : newline nl -> Forall (fun l => 10%N ∉ l) out -> out <> [] -> Forall2 shortened out (lines (join nl out ++ nl)).
Proof.
  intros Hnl. induction out as [|l out IH]; [done|]. intros [Hl Hout]%Forall_cons _. destruct out as [|l2 out].
  - cbn [join]. destruct (lines_newline nl l [] Hnl Hl) as (l' & Hl' & E). rewrite app_nil_r in E. rewrite E. by repeat constructor.
  - change (join nl (l :: l2 :: out)) with (l ++ nl ++ join nl (l2 :: out)). rewrite <- !app_assoc.
    destruct (lines_newline nl l (join nl (l2 :: out) ++ nl) Hnl Hl) as (l' & Hl' & ->). constructor; [done|]. by apply IH.
Qed.

(** The lines of the text are those that were written, without some whitespace behind them and up to a blank line at the end. *)
Lemma lines_text nl out (final : bool) : newline nl -> Forall (fun l => 10%N ∉ l) out ->
  exists ls, Forall2 shortened out ls /\
    let T := join nl out ++ (if final then nl else []) in lines T = ls \/ lines T ++ [[]] = ls \/ lines T = ls ++ [[]].
Proof.
  intros Hnl Hout. cbv zeta. destruct final.
  - destruct (decide (out = [])) as [->|Hne].
    + exists []. split; [constructor|]. right. right. by destruct Hnl as [-> | ->].
    + eexists. split; [by apply lines_join_newline|by left].
  - rewrite app_nil_r. destruct (lines_join nl out Hnl Hout) as (ls & H1 & [H2|H2]); exists ls; (split; [done|]); [by left|by right; left].
Qed.

(** Blocks are read back from such lines. *)
Lemma spelled_lines B ls : spelled B -> Forall2 shortened (block_lines B) ls -> exists B', spelled B' /\ block_lines B' = ls /\ map fst B' = map fst B.
Proof.
  revert ls. induction B as [|[it l] B IH]; intros ls; [intros _ ->%Forall2_nil_inv_l; exists []; by repeat constructor|]. intros [Hb HB]%Forall_cons.
  change (block_lines ((it, l) :: B)) with (l ++ block_lines B). intros (l1 & l2 & H1 & H2 & ->)%Forall2_app_inv_l.
  destruct (IH l2 HB H2) as (B' & HB' & <- & Hm). exists ((it, l1) :: B'). split_and!; [constructor; [by eapply spells_shortened|done]|done|cbn; by rewrite Hm].
Qed.

Lemma read_spelled what B ls ls' : spelled B -> tidy_from None (map fst B) -> Forall2 shortened (block_lines B) ls ->
  ls' = ls \/ ls' ++ [[]] = ls \/ ls' = ls ++ [[]] ->
  exists st B', read_lines what 0 ls' Reading_new = Ok st /\ all_sections st = all_sections (after_blocks 0 Reading_new B') /\ map fst B' = map fst B.
Proof.
  intros HB Ht Hls Hcase. destruct (spelled_lines B ls HB Hls) as (B' & HB' & <- & Hm).
  assert (laid None B') as Hlaid by (apply (tidy_laid None None); [done|by rewrite Hm|by left]). pose proof (read_blocks what 0 Reading_new B' Hlaid) as Hread.
  assert (forall i st, read_lines what i [[]] st = Ok (mkReading st.(closed) st.(current) st.(open) (st.(blanks) + 1))) as Hblank by done.
  destruct Hcase as [-> |[E| ->]].
  - by exists (after_blocks 0 Reading_new B'), B'.
  - rewrite <- E in Hread. rewrite read_lines_app in Hread. apply rbind_inv in Hread as (st & H1 & H2). exists st, B'. split_and!; [done| |done].
    rewrite Hblank in H2. injection H2 as <-. done.
  - rewrite read_lines_app, Hread. cbn [rbind]. rewrite Hblank. by eexists _, B'.
Qed.

(** ** Characters of a merge *)

Section Made.

Context (P : char -> Prop) (Hspace : P c!" ") (Heq : P c!"=").

Lemma key_line_chars a k v p l : KeyLine a k v p l -> Forall P l -> Forall P k /\ (forall w, v = Some w -> Forall P w) /\ (forall w, p = Some w -> Forall P w).
Proof.
  intros [a' s Ha Hs Hd|a' kt d after Ha Hh Hn Hd] [Hl1 Hl2]%Forall_app; [split_and!; [by apply trim_made|done..]|].
  apply Forall_app in Hl2 as [Hk [HPd Hafter]%Forall_cons]. split_and!; [by apply trim_made|intros w [= <-]; by apply trim_made|]. intros w [= <-]. unfold key_prefix.
  apply Forall_app. split; [done|]. apply Forall_app. split; [done|]. constructor; [done|]. apply Forall_app. split.
  - rewrite <- (take_drop_while is_whitespace after) in Hafter. by apply Forall_app in Hafter as [? _].
  - case_bool_decide; [by repeat constructor|constructor].
Qed.

Lemma tail_chars ind tl v : Tail ind tl v -> made_of P tl -> Forall (fun c => P c \/ c = 10%N) v.
Proof.
  induction 1 as [|tl v fs l _ IH _ _ _]; [constructor|]. intros [H1 [_ [Hl _]%Forall_cons]%Forall_app]%Forall_app. apply Forall_app. split; [by apply IH|].
  apply Forall_app. split; [apply Forall_replicate; by right|]. eapply Forall_impl; [by apply trim_made|by left].
Qed.

Lemma block_chars k v ind ls : Spells (Key k v ind) ls -> made_of P ls ->
  Forall P k /\ (forall w, v = Some w -> Forall (fun c => P c \/ c = 10%N) w) /\ (forall w, (read_key (nth 0 ls [])).2 = Some w -> Forall P w).
Proof.
  intros Hs Hm. inversion Hs as [| |l k' v0 p tl w Hsk Hhd Hread Hkne Htl Hv0 Ek Els]; subst. apply not_skipped_text in Hsk. apply Forall_cons in Hm as [Hl Htail].
  destruct (read_key_inv l Hsk) as (a & k1 & v1 & p1 & Hread1 & Hline). rewrite Hread in Hread1. injection Hread1 as <- <- <-.
  destruct (key_line_chars _ _ _ _ _ Hline Hl) as (H1 & H2 & H3). split_and!; [done| |cbn [nth]; by rewrite Hread].
  intros x Hx. destruct v0 as [v0|]; [|done]. injection Hx as <-. apply Forall_app. split; [|by eapply tail_chars].
  eapply Forall_impl; [by apply H2|by left].
Qed.

Lemma lines_chars v : Forall (fun c => P c \/ c = 10%N) v -> Forall P (first_line v).
Proof.
  intros Hv. unfold first_line, lines. pose proof (split_on_pieces 10%N v) as Hp. pose proof (split_on_Forall _ (N.eqb 10) v Hv) as Hq.
  destruct (split_on (N.eqb 10) v) as [|x r]; [constructor|]. apply Forall_cons in Hp as [Hx _]. apply Forall_cons in Hq as [Hx' _].
  assert (Forall P x) as HPx.
  { rewrite Forall_forall in Hx' |- *. intros c Hc. destruct (Hx' c Hc) as [?| ->]; [done|by destruct Hx]. }
  destruct r as [|y r]; cbn; [by destruct x|]. destruct (strip_cr_split x) as (b & E & _). rewrite E in HPx. by apply Forall_app in HPx as [? _].
Qed.

Section MadeMerge.

Context (t s : Doc) (bs ss : Blocks) (Ht : Blocked t bs) (Hs : Blocked s ss) (Hpt : made_of P t.(doc_lines)) (Hps : made_of P s.(doc_lines)).

Lemma block_made d B b1 it ls b2 : Blocked d B -> made_of P d.(doc_lines) -> B = b1 ++ (it, ls) :: b2 -> made_of P ls.
Proof.
  intros Hd Hm E. rewrite <- (blocked_lines _ _ Hd), E, block_lines_app in Hm. apply Forall_app in Hm as [_ Hm].
  change (block_lines ((it, ls) :: b2)) with (ls ++ block_lines b2) in Hm. by apply Forall_app in Hm as [? _].
Qed.

Lemma entry_chars d B n k e : Blocked d B -> made_of P d.(doc_lines) -> get d n k = Some e ->
  Forall P e.(key) /\ (forall w, e.(value) = Some w -> Forall (fun c => P c \/ c = 10%N) w) /\ (forall w, e.(prefix) = Some w -> Forall P w).
Proof using Hspace.
  intros Hd Hm (b1 & v & ind & ls & b2 & E & _ & -> & _ & Hsp)%(get_block d B Hd). cbn [entry_of key value prefix].
  apply (block_chars k v ind ls Hsp). by eapply block_made.
Qed.

Lemma replacement_made n k ex e : get t n k = Some ex -> get s n k = Some e -> made_of P (replacement t ex s e).
Proof using Ht Hs Hpt Hps Hspace Heq.
  intros Hg He. destruct (entry_chars t bs n k ex Ht Hpt Hg) as (Hk & _ & Hp). destruct (entry_chars s ss n k e Hs Hps He) as (_ & Hv & _).
  assert (Forall P (indent_of t ex)) as Hi by by apply indent_made. unfold replacement. apply Forall_app. split.
  - apply Forall_insert; [by apply entry_made|]. unfold replacement_line. fold first_line. destruct (value e) as [w|]; cbn [fmap option_fmap option_map]; [|by apply Forall_app].
    pose proof (lines_chars w (Hv w eq_refl)) as Hw. unfold first_line in Hw. destruct (prefix ex) as [p|].
    + specialize (Hp p eq_refl). case_bool_decide; [|by apply Forall_app]. destruct (trim_end_split p) as (b & E & _). rewrite E in Hp. by apply Forall_app in Hp as [? _].
    + case_bool_decide; repeat (apply Forall_app; split); try done; by repeat constructor.
  - apply Forall_forall. intros l [Hl _]%list_elem_of_In%filter_In. apply list_elem_of_In in Hl. pose proof (span_made P t (S (start ex)) (end_ ex) Hpt) as Hsp.
    unfold made_of in Hsp. rewrite Forall_forall in Hsp. by apply Hsp.
Qed.

Lemma inserted_made p : made_of P (inserted t s p).
Proof using Ht Hps Hpt.
  unfold inserted. apply Forall_flat_map, Forall_forall. intros nk [[_ Hn]%filter_In _]%list_elem_of_In%filter_In.
  unfold contribution. apply Forall_app. split; [|destruct (_ && _); by repeat constructor].
  unfold new_lines. apply Forall_flat_map, Forall_forall. intros ke _. destruct (get t nk.1 ke.1); [constructor|]. apply entry_made; [done|].
  unfold insert_point. destruct (List.find _ _) as [x|]; [destruct (last (entries x)); [by apply indent_made|destruct (header x); [constructor|]]|]; destruct (omap _ _); constructor.
Qed.

Lemma appended_made ks a : made_of P a -> made_of P (foldl (append_section t s) a ks).
Proof using Hps.
  revert a. induction ks as [|[n keys] ks IH]; intros a Ha; [done|]. cbn [foldl]. apply IH. unfold append_section. cbn [fst snd]. destruct n as [m|]; [|done].
  repeat (apply Forall_app; split).
  - destruct (match last a with Some _ => _ | None => _ end); [case_bool_decide|]; try done. apply Forall_app. by repeat constructor.
  - constructor; [|constructor]. unfold header_line. destruct (_ ≫= _); [by apply line_made|constructor].
  - apply Forall_flat_map, Forall_forall. intros ke _. by apply entry_made; [|constructor].
Qed.

Lemma lines_out_made b2 : forall b1, bs = b1 ++ b2 -> made_of P (lines_out t s b1 b2).
Proof using Ht Hs Hpt Hps Hspace Heq.
  destruct (edits_spec t s) as (_ & H1 & H2).
  assert (forall p, p <= total t -> made_of P (nth p (insert_ (edits t s)) [])) as Hins.
  { intros p Hp. destruct (decide (p = total t)) as [->|]; [rewrite H2; by apply appended_made, inserted_made|rewrite H1 by lia; apply inserted_made]. }
  induction b2 as [|b b2 IH]; intros b1 E; cbn [lines_out]; (apply Forall_app; split; [apply Hins; by eapply place_bound|]); [constructor|].
  apply Forall_app. split; [|apply IH; by rewrite <- app_assoc]. unfold block_out. destruct (edited t s b1 b) as [[ex e]|] eqn:Ee; [|destruct b as [it ls]; by apply (block_made t bs b1 it ls b2 Ht Hpt E)].
  unfold edited in Ee. destruct b.1 as [| |k v ind]; [done..|]. destruct (get t (section_at b1) k) as [ex'|] eqn:Eg; [|done]. destruct (get s (section_at b1) k) as [e'|] eqn:Es; [|done].
  case_bool_decide; [|done]. injection Ee as -> ->. by eapply replacement_made.
Qed.

End MadeMerge.

End Made.

(** ** What a merge is *)

Lemma lines_clean text : Forall (fun l => 10%N ∉ l) (lines text).
Proof.
  unfold lines. pose proof (split_on_pieces 10%N text) as H. induction H as [|x r Hx _ IH]; [constructor|]. destruct r as [|y r]; cbn [ended_lines].
  - destruct x; by repeat constructor.
  - constructor; [|done]. destruct (strip_cr_split x) as (b & E & _). rewrite E in Hx. set_solver.
Qed.

Lemma lines_chars_of text c l : l ∈ lines text -> c ∈ l -> c ∈ text.
Proof.
  intros Hl Hc. assert (exists p, p ∈ split_on (N.eqb 10) text /\ c ∈ p) as (p & Hp & Hcp).
  { revert Hl. unfold lines. induction (split_on (N.eqb 10) text) as [|x r IH]; [by intros ?%elem_of_nil|]. destruct r as [|y r]; cbn [ended_lines].
    - destruct x; [by intros ?%elem_of_nil|]. intros ->%list_elem_of_singleton. eexists. split; [by left|done].
    - intros [->|Hl]%elem_of_cons.
      + exists x. split; [by left|]. destruct (strip_cr_split x) as (b & -> & _). set_solver.
      + destruct (IH Hl) as (p & Hp & ?). exists p. split; [by right|done]. }
  apply piece_infix in Hp as (a & b & ->). set_solver.
Qed.

Definition plain_char (c : char) : Prop := c <> 10%N /\ c <> BOM.

Lemma parsed_plain text what d : parse text what = Ok d -> BOM ∉ without_bom text -> made_of plain_char d.(doc_lines).
Proof.
  intros (bs & _ & _ & -> & _)%parse_inv Hb. apply Forall_forall. intros l Hl. pose proof (lines_clean (without_bom text)) as Hc. rewrite Forall_forall in Hc.
  apply Forall_forall. intros c Hin. split; intros ->; [by apply (Hc l)|]. apply Hb. by eapply lines_chars_of.
Qed.

Lemma parsed_blocks text what d : parse text what = Ok d -> exists bs, Blocked d bs.
Proof. intros (bs & H1 & H2 & _ & H3)%parse_inv. by exists bs. Qed.

Lemma plain_no_newline ls : made_of plain_char ls -> made_of (fun c => c <> 10%N) ls.
Proof. intros H. eapply Forall_impl; [exact H|]. intros l Hl. eapply Forall_impl; [exact Hl|]. by intros c []. Qed.

Lemma section_named d bs n : Blocked d bs -> has_section d (Some n) = true <-> Some n ∈ map fst (effective d).
Proof.
  intros Hd. destruct (effective_spec (sections d)) as (_ & _ & _ & H1 & H2). fold (effective d) in *. split.
  - unfold has_section. cbn. intros (x & Hx & Hn%bool_decide_eq_true)%existsb_exists. apply list_elem_of_In in Hx. rewrite <- Hn. apply H2; [done|]. left.
    destruct (first_section 0 (mkSection None None []) None 0 bs) as (s0 & rest & Es & Hname & _ & _ & Hr & _). change (mkReading [] (mkSection None None []) None 0) with Reading_new in Es.
    rewrite (blocked_sections _ _ Hd), Es in Hx. apply elem_of_cons in Hx as [->|Hx]; [by rewrite Hname in Hn|]. rewrite Forall_forall in Hr. destruct (Hr x Hx) as [[? ->] _]. done.
  - intros (x & Hx & Hin)%H1%list_elem_of_fmap. unfold has_section. apply orb_true_iff. right. apply existsb_exists. exists x. by rewrite bool_decide_eq_true, <- list_elem_of_In.
Qed.

Lemma parse_pair_ok target source t s : parse target u!"target" = Ok t -> parse source u!"source" = Ok s -> parse_pair target source = Ok (t, s).
Proof. intros Ht Hs. unfold parse_pair. by rewrite Ht, Hs. Qed.

(** The text of a merge, from the lines that it writes. *)
Definition text_of (target : str) (out : list str) : str :=
  (if starts_with [BOM] target then [BOM] else []) ++ join (if contains_str [13%N; 10%N] target then [13%N; 10%N] else [10%N]) out
  ++ (if bool_decide (target = []) || ends_with [10%N] target then (if contains_str [13%N; 10%N] target then [13%N; 10%N] else [10%N]) else []).

Lemma merge_text target source t s bs : parse target u!"target" = Ok t -> parse source u!"source" = Ok s -> Blocked t bs ->
  merge target source = Ok (text_of target (lines_out t s [] bs)).
Proof.
  intros Ht Hs Hb. unfold merge. rewrite (parse_pair_ok _ _ t s Ht Hs). cbn [rbind]. change 0 with (place []).
  rewrite (write_out t s bs Hb bs [] _); [done|done|]. rewrite (place_total t bs Hb). unfold total. lia.
Qed.

Lemma without_bom_text target out : BOM ∉ target \/ starts_with [BOM] target = true -> made_of plain_char out ->
  exists nl (final : bool), newline nl /\ without_bom (text_of target out) = join nl out ++ (if final then nl else []).
Proof.
  intros Hb Hout. exists (if contains_str [13%N; 10%N] target then [13%N; 10%N] else [10%N]), (bool_decide (target = []) || ends_with [10%N] target).
  split; [destruct (contains_str _ target); [by right|by left]|]. unfold text_of. set (nl := if contains_str _ target then _ else _). set (fin := if bool_decide _ || _ then nl else []).
  destruct (starts_with [BOM] target) eqn:E; [done|]. cbn [app]. assert (Forall (fun c => c <> BOM) (join nl out ++ fin)) as Hno.
  { assert (Forall (fun c => c <> BOM) nl) as Hnl by (subst nl; destruct (contains_str _ target); by repeat constructor). apply Forall_app. split.
    - apply join_Forall; [done|]. eapply Forall_impl; [exact Hout|]. intros l Hl. eapply Forall_impl; [exact Hl|]. by intros c [].
    - subst fin. destruct (_ || _); [done|constructor]. }
  unfold without_bom. destruct (join nl out ++ fin) as [|c r]; [done|]. apply Forall_cons in Hno as [Hc _]. cbn [strip_prefix]. destruct (BOM =? c)%N eqn:Ec; [|done].
  apply N.eqb_eq in Ec. congruence.
Qed.

Lemma no_bom target : BOM ∉ without_bom target -> BOM ∉ target \/ starts_with [BOM] target = true.
Proof. unfold without_bom, starts_with. destruct (strip_prefix [BOM] target); [by right|by left]. Qed.

(** The values of the blocks of a merge. *)
Lemma merged_all t s bs ss B n k : Blocked t bs -> Blocked s ss -> Assembled t s [] bs B ->
  last (values_of n k None (map fst B)) = match get s n k with Some e => Some e.(value) | None => value <$> get t n k end.
Proof.
  intros Ht Hs HB. pose proof (assembled_values _ _ _ _ _ HB n k) as HV. unfold merged_values in HV. cbn [section_at map foldl] in HV.
  destruct (get s n k) as [e|] eqn:Es; [|by rewrite HV, (get_values t bs n k) by apply Ht]. destruct (get t n k) as [ex|] eqn:Eg.
  - by rewrite decide_True in HV by (cbn; lia).
  - destruct HV as [H1 H2]. specialize (H2 ltac:(cbn; lia)). set (V := values_of _ _ _ _) in *. destruct (last V) as [v|] eqn:El.
    + f_equal. apply H1. apply last_Some in El as [l ->]. set_solver.
    + apply last_None in El. rewrite El in H2. by apply elem_of_nil in H2.
Qed.

Lemma merge_read target source t s : parse target u!"target" = Ok t -> parse source u!"source" = Ok s -> tidy t = true -> flush s = true ->
  BOM ∉ without_bom target -> BOM ∉ without_bom source ->
  exists text o, merge target source = Ok text /\ parse text u!"target" = Ok o
    /\ (forall n k, value <$> get o n k = match get s n k with Some e => Some e.(value) | None => value <$> get t n k end)
    /\ forall n, has_section o n = has_section t n || has_section s n.
Proof.
  intros Ht Hs Htidy Hflush Hbt Hbs. destruct (parsed_blocks _ _ _ Ht) as [bs Hb]. destruct (parsed_blocks _ _ _ Hs) as [ss Hsb].
  pose proof (parsed_plain _ _ _ Ht Hbt) as Hpt. pose proof (parsed_plain _ _ _ Hs Hbs) as Hps.
  destruct (assembled t s bs ss Hb Hsb (plain_no_newline _ Hpt) (plain_no_newline _ Hps) (tidy_blocks t bs Hb Htidy) Hflush bs []) as [B HB]; [done|].
  set (out := lines_out t s [] bs). assert (made_of plain_char out) as Hout by (by eapply (lines_out_made plain_char)).
  exists (text_of target out). destruct (without_bom_text target out (no_bom _ Hbt) Hout) as (nl & final & Hnl & Hbody).
  destruct (lines_text nl out final Hnl) as (ls & Hls & Hlines).
  { eapply Forall_impl; [exact Hout|]. intros l Hl Hin. rewrite Forall_forall in Hl. by destruct (Hl _ Hin). }
  pose proof (assembled_lines _ _ _ _ _ HB) as El. fold out in El. rewrite El in Hls. cbv zeta in Hlines. rewrite <- Hbody in Hlines.
  destruct (read_spelled u!"target" B ls (lines (without_bom (text_of target out)))) as (st & B' & Hread & Hsec & Hm); [apply HB|apply HB; by left|done|done|].
  exists (mkDoc (lines (without_bom (text_of target out))) (all_sections st)). split_and!.
  - by apply merge_text.
  - unfold parse. by rewrite Hread.
  - intros n k. rewrite (get_values _ B') by done. rewrite Hm. by eapply merged_all.
  - intros n. rewrite (has_section_headers _ B') by done. rewrite Hm. destruct n as [n|]; [|done].
    rewrite (has_section_headers t bs) by apply Hb. apply Bool.eq_true_iff_eq. rewrite orb_true_iff, !bool_decide_eq_true, (section_named s ss) by done.
    assert (forall l, n ∈ l <-> Some n ∈ map Some l) as Hsome by (intros l; rewrite list_elem_of_fmap; split; [eauto|by intros (? & [= ->] & ?)]).
    rewrite (Hsome (headers_of (map fst B))), (assembled_headers _ _ _ _ _ HB), elem_of_app, <- Hsome. unfold unknown. split.
    + intros [?|(nk & E & [Hin _]%list_elem_of_In%filter_In)%list_elem_of_fmap]; [by left|right]. apply list_elem_of_fmap. exists nk. by rewrite list_elem_of_In.
    + intros [?|(nk & E & Hin)%list_elem_of_fmap]; [by left|]. destruct (has_section t (Some n)) eqn:En.
      * left. rewrite (has_section_headers t bs) in En by apply Hb. by apply bool_decide_eq_true in En.
      * right. apply list_elem_of_fmap. exists nk. split; [done|]. apply list_elem_of_In, filter_In. rewrite <- list_elem_of_In, <- E, En. done.
Qed.

(** C8. What a merge writes reads as the target in which every key that the source sets has the value of the source: in its section, which
    is added when the target has none, the last of its entries when there are several. Every other key keeps its value, and the result
    contains the source. It takes a target that indents no header, and no key further than the key above it, a source that indents no
    header, and files with no byte order mark but at the start; see [indented_key_swallowed] and [indented_header_swallowed]. *)
Theorem merge_sets (target source : str) (t s : Doc) (Htarget : parse target u!"target" = Ok t) (Hsource : parse source u!"source" = Ok s)
    (Htidy : tidy t = true) (Hflush : flush s = true) (Hbom : BOM ∉ without_bom target) (Hbom' : BOM ∉ without_bom source) :
  exists text o, merge target source = Ok text /\ parse text u!"target" = Ok o /\ contains text source = Ok true
    /\ (forall n k, value <$> get o n k = match get s n k with Some e => Some e.(value) | None => value <$> get t n k end)
    /\ forall n, has_section o n = has_section t n || has_section s n.
Proof.
  destruct (merge_read target source t s Htarget Hsource Htidy Hflush Hbom Hbom') as (text & o & Hm & Ho & Hv & Hn).
  exists text, o. split_and!; [done..| |done|done]. unfold contains. rewrite (parse_pair_ok _ _ o s Ho Hsource). cbn [rbind]. f_equal.
  apply forallb_forall. intros [n keys] Hin%list_elem_of_In. apply andb_true_iff. split.
  - rewrite Hn. apply orb_true_iff. right. destruct n as [n|]; [|done]. destruct (parsed_blocks _ _ _ Hsource) as [ss Hss]. apply (section_named s ss n Hss).
    apply list_elem_of_fmap. by exists (Some n, keys).
  - apply forallb_forall. intros [k e] Hk%list_elem_of_In. pose proof (effective_in s _ _ _ _ Hin Hk) as He. specialize (Hv n k). rewrite He in Hv.
    destruct (get o n k); [|done]. injection Hv as ->. by apply bool_decide_eq_true.
Qed.

(** ** Lines that stay *)

(** Whether a line belongs to a key that the source gives another value. *)
Definition replaced_line (t s : Doc) (i : nat) : bool :=
  existsb (fun nk => existsb (fun ke =>
    match get t nk.1 ke.1 with
    | Some ex => negb (bool_decide (ex.(value) = ke.2.(value))) && (ex.(start) <=? i) && (i <? ex.(end_))
    | None => false
    end) nk.2) (effective s).

Fixpoint kept_lines (t s : Doc) (i : nat) (ls : list str) : list str :=
  match ls with [] => [] | l :: ls => (if replaced_line t s i then [] else [l]) ++ kept_lines t s (S i) ls end.

Lemma kept_lines_app t s i a b : kept_lines t s i (a ++ b) = kept_lines t s i a ++ kept_lines t s (i + length a) b.
Proof.
  revert i. induction a as [|l a IH]; intros i; cbn [app kept_lines length]; [by rewrite Nat.add_0_r|]. rewrite IH, <- app_assoc.
  by replace (S i + length a) with (i + S (length a)) by lia.
Qed.

Lemma kept_sublist t s i ls : kept_lines t s i ls `sublist_of` ls.
Proof. revert i. induction ls as [|l ls IH]; intros i; cbn [kept_lines]; [done|]. destruct (replaced_line t s i); cbn [app]; by constructor. Qed.

Lemma kept_lines_none t s i ls : (forall j, i <= j < i + length ls -> replaced_line t s j = true) -> kept_lines t s i ls = [].
Proof.
  revert i. induction ls as [|l ls IH]; intros i H; cbn [kept_lines]; [done|]. rewrite H by (cbn; lia). cbn [app]. apply IH. intros j Hj. apply H. cbn. lia.
Qed.

Lemma kept_out t s bs b2 : Blocked t bs -> forall b1, bs = b1 ++ b2 -> kept_lines t s (place b1) (block_lines b2) `sublist_of` lines_out t s b1 b2.
Proof.
  intros Ht. induction b2 as [|b b2 IH]; intros b1 E; cbn [lines_out]; [apply sublist_nil_l|].
  change (block_lines (b :: b2)) with (b.2 ++ block_lines b2). rewrite kept_lines_app. apply sublist_inserts_l. apply sublist_app.
  - unfold block_out. destruct (edited t s b1 b) as [[ex e]|] eqn:Ee; [|apply kept_sublist]. rewrite kept_lines_none; [apply sublist_nil_l|]. intros j Hj.
    unfold edited in Ee. destruct b.1 as [| |k v ind] eqn:Eb; [done..|]. destruct (get t (section_at b1) k) as [ex'|] eqn:Eg; [|done].
    destruct (get s (section_at b1) k) as [e'|] eqn:Es; [|done]. case_bool_decide as Hc; [|done]. injection Ee as -> ->. destruct Hc as [Hst Hv].
    destruct (entry_at t bs Ht b1 b b2 _ k ex E Eg Hst) as (ind' & Eb' & _ & Hex). rewrite Eb in Eb'. injection Eb' as Hval _.
    destruct (effective_has s _ _ _ Es) as (keys & Hk & Hin). unfold replaced_line. apply existsb_exists. exists (section_at b1, keys). split; [by apply list_elem_of_In|].
    apply existsb_exists. exists (k, e). split; [by apply list_elem_of_In|]. cbn [fst snd]. rewrite Eg, bool_decide_eq_false_2 by congruence. cbn [negb andb].
    rewrite Hex. cbn [entry_of start end_]. apply andb_true_iff. split; [apply Nat.leb_le|apply Nat.ltb_lt]; lia.
  - specialize (IH (b1 ++ [b])). rewrite place_app, place_cons in IH. cbn [snd] in IH. replace (place b1 + (length b.2 + place [])) with (place b1 + length b.2) in IH by (cbn; lia).
    apply IH. by rewrite <- app_assoc.
Qed.

(** C22. Whenever both files can be read, tidy or not, a merge ends and writes every line of the target again, in order and as it is, but for
    the lines of keys that the source gives another value: no comment, blank line, header or line of another key is dropped, changed or
    moved past another. (For files that are not tidy such a line may be read otherwise afterwards: [indented_key_swallowed].) *)
Theorem merge_keeps_lines (target source : str) (t s : Doc) (Htarget : parse target u!"target" = Ok t) (Hsource : parse source u!"source" = Ok s) :
  exists out, merge target source = Ok (text_of target out) /\ kept_lines t s 0 t.(doc_lines) `sublist_of` out.
Proof.
  destruct (parsed_blocks _ _ _ Htarget) as [bs Hb]. exists (lines_out t s [] bs). split; [by apply merge_text|].
  rewrite <- (blocked_lines _ _ Hb). by apply (kept_out t s bs bs Hb []).
Qed.

(** ** Examples *)

Definition text_lines (ls : list str) : str := flat_map (fun l => l ++ [10%N]) ls.

Definition sample_target : str :=
  text_lines [u!"; written by the app"; u!"[global]"; u!"timeout = 15"; u!"index-url: https://old"; u!"# hosts"; u!"  host = a"; []; u!"[install]"; u!"user = true"].

Definition sample_source : str :=
  text_lines [u!"top = 1"; u!"[global]"; u!"  index-url = https://new"; u!"    second"; u!"retries"; u!"[extra]"; u!"x:"].

(** A key of the target is indented further than the key above, so this file is not tidy; with that key at the left it is. *)
Definition tidy_target : str :=
  text_lines [u!"; written by the app"; u!"[global]"; u!"timeout = 15"; u!"index-url: https://old"; u!"# hosts"; u!"host = a"; []; u!"[install]"; u!"user = true"].

Example sample_merge : merge tidy_target sample_source = Ok (text_lines
  [u!"top = 1"; []; u!"; written by the app"; u!"[global]"; u!"timeout = 15"; u!"index-url: https://new"; u!"  second"; u!"# hosts"; u!"host = a"; u!"retries"; [];
   u!"[install]"; u!"user = true"; []; u!"[extra]"; u!"x:"]).
Proof. vm_compute. reflexivity. Qed.

Lemma merge_sets_witness : exists t s, parse tidy_target u!"target" = Ok t /\ parse sample_source u!"source" = Ok s /\
  exists text o, merge tidy_target sample_source = Ok text /\ parse text u!"target" = Ok o /\ contains text sample_source = Ok true
    /\ (forall n k, value <$> get o n k = match get s n k with Some e => Some e.(value) | None => value <$> get t n k end)
    /\ forall n, has_section o n = has_section t n || has_section s n.
Proof.
  eexists _, _. split; [vm_compute; reflexivity|]. split; [vm_compute; reflexivity|].
  refine (merge_sets tidy_target sample_source _ _ _ _ _ _ _ _); try (vm_compute; reflexivity); apply (bool_decide_unpack _); vm_compute; exact I.
Defined.

Lemma merge_keeps_lines_witness : exists t s, parse sample_target u!"target" = Ok t /\ parse sample_source u!"source" = Ok s /\
  exists out, merge sample_target sample_source = Ok (text_of sample_target out) /\ kept_lines t s 0 t.(doc_lines) `sublist_of` out.
Proof.
  eexists _, _. split; [vm_compute; reflexivity|]. split; [vm_compute; reflexivity|].
  refine (merge_keeps_lines sample_target sample_source _ _ _ _); vm_compute; reflexivity.
Defined.

(** A key without value that gets one takes in the key below it, when that is indented further: the key below is lost. *)
Definition nested_target : str := text_lines [u!"[mysqld]"; u!"skip-networking"; u!"  port = 1"].

Example indented_key_swallowed :
  let source := text_lines [u!"[mysqld]"; u!"skip-networking = 1"] in
  let port := text_lines [u!"[mysqld]"; u!"port = 1"] in
  contains nested_target port = Ok true
  /\ exists text, merge nested_target source = Ok text /\ contains text port = Ok false /\ contains text source = Ok false.
Proof. split; [vm_compute; reflexivity|]. eexists. split; [vm_compute; reflexivity|]. split; vm_compute; reflexivity. Qed.

(** The indented header of a new section goes on with the value of the last key. *)
Example indented_header_swallowed :
  let target := text_lines [u!"[a]"; u!"x = 1"] in
  let source := text_lines [u!"  [b]"; u!"y = 2"] in
  exists text, merge target source = Ok text /\ contains text target = Ok false /\ contains text source = Ok false.
Proof. eexists. split; [vm_compute; reflexivity|]. split; vm_compute; reflexivity. Qed.
