(* ===== verification/Reconcile.v ===== *)
(** * Reconciliation of saved files with the origin
    ([crates/mise-system/src/history/sync/reconcile.rs], [state.rs]; [merge3] and [cat_object] of
    [crates/mise-system/src/history/shadow.rs]; [prepare] and the publication loop of [run.rs])

    For every path of the setup branch the saved version S, the fetched version T and the
    recorded versions decide what is published, what is written here and what a person has to
    decide. Maps and sets keyed by paths are finite maps and sets; they are walked in key order.

    Git itself is a parameter: what it stores, its [merge-file] program and the identity it
    computes for a blob. The blobs a handle has computed but not written ([transient]) are the
    state the operations pass on. *)

From Stdlib Require Import Sorting.Sorted.
From S2P Require Import Prelude RustStr.

(** ** Git *)

Record Git (Report : Type) := mkGit {
  (** The stored blob, or why it cannot be read. *)
  stored_blob : str -> Report + list N;
  (** [git merge-file -p ours base theirs]: exit status and output. *)
  merge_file : list N -> list N -> list N -> Report + (option Z * list N);
  merge_failed : Report;
  (** [compute_hash] *)
  blob_hash : list N -> Report + str
}.
Arguments mkGit {Report} _ _ _ _.
Arguments stored_blob {Report} _ _.
Arguments merge_file {Report} _ _ _ _.
Arguments merge_failed {Report} _.
Arguments blob_hash {Report} _ _.

(** The blobs computed in memory only. *)
Abbreviation Transient := (gmap str (list N)).

Definition lift_sum {S E A} (r : E + A) : SE S E A :=
  match r with inl e => se_fail e | inr a => se_ret a end.

Definition cat_object {Report} (repo : Git Report) (oid : str) : SE Transient Report (list N) :=
  let* transient := se_get in
  match transient !! oid with
  | Some bytes => se_ret bytes
  | None => lift_sum (repo.(stored_blob) oid)
  end.

Definition transient_blob_id {Report} (repo : Git Report) (bytes : list N) : SE Transient Report str :=
  let* oid := lift_sum (repo.(blob_hash) bytes) in
  let* _ := se_modify (fun transient => <[oid := bytes]> transient) in
  se_ret oid.

Definition contains_zero (content : list N) : bool := existsb (N.eqb 0) content.

Definition merge3 {Report} (repo : Git Report) (base ours theirs : list N) : SE Transient Report (option (list N)) :=
  if existsb contains_zero [base; ours; theirs] then se_ret None
  else
    let* (code, stdout) := lift_sum (repo.(merge_file) base ours theirs) in
    match code with
    | Some code =>
        if (code =? 0)%Z then se_ret (Some stdout)
        else if (0 <? code)%Z then se_ret None
        else se_fail repo.(merge_failed)
    | None => se_fail repo.(merge_failed)
    end.

(** ** Data *)

(** A blob with its mode. *)
Abbreviation Object := (str * str)%type.

Record Upstream := mkUpstream { commit : option str; files : gmap str Object }.

Inductive ConflictKind : Type :=
| Repository | SameHunk | DeleteModify | ModifyDelete | TypeChange | LinkTarget | NeedsAdoption
| Binary | UnsavedEdits | InvalidIncoming | StagedEdits | UnusableLive.

#[export] Instance ConflictKind_eq_dec : EqDecision ConflictKind.
Proof. solve_decision. Defined.

Record Conflict := mkConflict {
  conflict_path : str;
  conflict_kind : ConflictKind;
  local : option Object;
  remote : option Object;
  base : option Object
}.

Record SyncRecord := mkSyncRecord {
  acknowledged : option Object;
  reconciled : option Object;
  applied : option Object;
  upstream_commit : option str
}.

#[export] Instance SyncRecord_eq_dec : EqDecision SyncRecord.
Proof. solve_decision. Defined.

Definition SyncRecord_default : SyncRecord := mkSyncRecord None None None None.

Abbreviation SyncState := (gmap str SyncRecord).

Definition is_none {A} (o : option A) : bool := match o with None => true | Some _ => false end.

(** Whether the path was ever reconciled with upstream. *)
Definition is_new (r : SyncRecord) : bool :=
  is_none r.(acknowledged) && is_none r.(reconciled) && is_none r.(applied).

Definition NESTED_NOT_SHARED : str :=
  u!"a separate Git repository; a pointer from an older mise, skipped " ++ [0x2014%N]
    ++ u!" track it directly to capture its working files".

(** [Some None] publishes, or applies, a deletion. *)
Record PathPlan := mkPathPlan {
  branch_path : str;
  publish : option (option Object);
  apply : option (option Object);
  conflict : option Conflict;
  skipped : option str;
  next : SyncRecord
}.

Definition is_noop (plan : PathPlan) : bool :=
  is_none plan.(publish) && is_none plan.(apply) && is_none plan.(conflict).

(** [kind] *)
Definition kind (object : option Object) : option str :=
  match object with
  | Some (mode, _) =>
      Some (if bool_decide (mode = u!"120000") then u!"link"
            else if bool_decide (mode = u!"160000") then u!"repository"
            else u!"file")
  | None => None
  end.

(** A commit pointer to a nested repository rather than content. *)
Definition is_gitlink (object : option Object) : bool :=
  match object with Some (mode, _) => bool_decide (mode = u!"160000") | None => false end.

Definition pointer_or_absent (object : option Object) : bool := is_none object || is_gitlink object.

Definition MARKER_PATH : str := u!".mise-history/format.toml".

(** The paths [reconcile] passes over. *)
Definition is_internal (path : str) : bool :=
  bool_decide (path = MARKER_PATH) || starts_with u!".mise-history/" path.

(** ** The three-way merge *)

(** [Merged::Conflict] is [Merged_Conflict] here, next to the record of that name. *)
Inductive Merged : Type :=
| Clean (object : option Object)
| Merged_Conflict (kind : ConflictKind).

(** The contents and the executable bit of two changed files, merged relative to their base. *)
Definition merge_contents {Report} (repo : Git Report) (b o t : Object) : SE Transient Report Merged :=
  let* base_bytes := cat_object repo b.2 in
  let* ours_bytes := cat_object repo o.2 in
  let* theirs_bytes := cat_object repo t.2 in
  let* merged := merge3 repo base_bytes ours_bytes theirs_bytes in
  match merged with
  | Some merged =>
      let* oid := transient_blob_id repo merged in
      let mode := if bool_decide (o.1 = b.1) then t.1 else o.1 in
      se_ret (Clean (Some (mode, oid)))
  | None =>
      let binary := existsb contains_zero [base_bytes; ours_bytes; theirs_bytes] in
      se_ret (Merged_Conflict (if binary then Binary else SameHunk))
  end.

Definition merge {Report} (repo : Git Report) (base ours theirs : option Object) : SE Transient Report Merged :=
  match ours, theirs with
  | None, None => se_ret (Clean None)
  | Some _, None => se_ret (Merged_Conflict DeleteModify)
  | None, Some _ => se_ret (Merged_Conflict ModifyDelete)
  | Some o, Some t =>
      if bool_decide (o.2 = t.2) && bool_decide (o.1 = t.1) then se_ret (Clean (Some o))
      else if negb (bool_decide (kind ours = kind theirs)) then se_ret (Merged_Conflict TypeChange)
      else if bool_decide (o.1 = u!"120000") then se_ret (Merged_Conflict LinkTarget)
      else
        match base with
        | None => se_ret (Merged_Conflict NeedsAdoption)
        | Some b => merge_contents repo b o t
        end
  end.

(** ** The transition table *)

Section Reconcile.
Context {Report : Type} (repo : Git Report).
Context (shared : gmap str Object) (upstream : Upstream) (state : SyncState) (unsaved : gset str).

(** The record of a path whose three versions are the same. *)
Definition settled (v : option Object) : SyncRecord := mkSyncRecord v v v upstream.(commit).

(** The record after an incoming version has been noted. *)
Definition noted (record : SyncRecord) (v : option Object) : SyncRecord :=
  mkSyncRecord record.(acknowledged) v record.(applied) upstream.(commit).

Definition unchanged (record : SyncRecord) : SyncRecord :=
  noted record record.(reconciled).

Definition publishing (p : str) (v : option Object) (n : SyncRecord) : PathPlan :=
  mkPathPlan p (Some v) None None None n.
Definition applying (p : str) (v : option Object) (n : SyncRecord) : PathPlan :=
  mkPathPlan p None (Some v) None None n.
Definition idle (p : str) (why : option str) (n : SyncRecord) : PathPlan :=
  mkPathPlan p None None None why n.
Definition clashing (p : str) (k : ConflictKind) (s t a : option Object) (n : SyncRecord) : PathPlan :=
  mkPathPlan p None None (Some (mkConflict p k s t a)) None n.

(** A path that was never reconciled is adopted. *)
Definition adopt_path (p : str) (s t : option Object) (record : SyncRecord) : PathPlan :=
  match s, t with
  | Some _, None => publishing p s (settled s)
  | None, Some _ => applying p t (noted record t)
  | Some _, Some _ =>
      if bool_decide (s = t) then idle p None (settled s)
      else clashing p NeedsAdoption s t None (unchanged record)
  | None, None => idle p None (unchanged record)
  end.

(** The plan of a path that both sides changed and that merged without a clash. *)
Definition merged_path (p : str) (s t : option Object) (record : SyncRecord) (object : option Object) : PathPlan :=
  if bool_decide (p ∈ unsaved) then clashing p UnsavedEdits s t record.(acknowledged) (unchanged record)
  else
    let publish := if negb (bool_decide (object = t)) then Some object else None in
    if bool_decide (object = s) then mkPathPlan p publish None None None (settled s)
    else mkPathPlan p publish (Some object) None None
           (mkSyncRecord s object record.(applied) upstream.(commit)).

(** The plan of a path that was reconciled before. *)
Definition change_path (p : str) (s t : option Object) (record : SyncRecord) : SE Transient Report PathPlan :=
  let a := record.(acknowledged) in
  let u := record.(reconciled) in
  let local_changed := negb (bool_decide (s = a)) in
  let pending := negb (bool_decide (record.(reconciled) = record.(applied))) && negb (bool_decide (t = s)) in
  let remote_changed := negb (bool_decide (t = u)) || pending in
  match local_changed, remote_changed with
  | false, false =>
      se_ret (if negb (is_none t) && negb (bool_decide (record.(reconciled) = record.(applied))) then
                if bool_decide (p ∈ unsaved) then clashing p UnsavedEdits s t a (unchanged record)
                else applying p t (unchanged record)
              else idle p None (unchanged record))
  | true, false => se_ret (publishing p s (settled s))
  | false, true =>
      se_ret (if bool_decide (p ∈ unsaved) then clashing p UnsavedEdits s t a (unchanged record)
              else applying p t (noted record t))
  | true, true =>
      let* merged := merge repo a s t in
      se_ret (match merged with
              | Clean object => merged_path p s t record object
              | Merged_Conflict kind => clashing p kind s t a (unchanged record)
              end)
  end.

(** The body of the loop: the plan pushed for a path, if any. *)
Definition plan_path (p : str) : SE Transient Report (option PathPlan) :=
  if is_internal p then se_ret None
  else
    let s := shared !! p in
    let t := upstream.(files) !! p in
    let record := default SyncRecord_default (state !! p) in
    let keep plan :=
      if negb (is_noop plan) || negb (bool_decide (plan.(next) = record)) then Some plan else None in
    if bool_decide (s = t) then se_ret (Some (idle p None (settled s)))
    else if (is_gitlink s || is_gitlink t) && pointer_or_absent s && pointer_or_absent t then
      se_ret (Some (idle p (Some NESTED_NOT_SHARED) (settled s)))
    else if is_new record then se_ret (keep (adopt_path p s t record))
    else
      let* plan := change_path p s t record in
      se_ret (keep plan).

Definition paths : list str := key_order (dom shared ∪ dom upstream.(files) ∪ dom state).

Fixpoint plan_paths (ps : list str) : SE Transient Report (list PathPlan) :=
  match ps with
  | [] => se_ret []
  | p :: ps =>
      let* plan := plan_path p in
      let* plans := plan_paths ps in
      se_ret (match plan with Some plan => plan :: plans | None => plans end)
  end.

(** One plan of [skip_pointer_applications]. *)
Definition skip_pointer (plan : PathPlan) : PathPlan :=
  match plan.(conflict), plan.(apply) with
  | None, Some object =>
      if is_gitlink object then
        let version := shared !! plan.(branch_path) in
        mkPathPlan plan.(branch_path) plan.(publish) None None (Some NESTED_NOT_SHARED)
          (mkSyncRecord version version version plan.(next).(upstream_commit))
      else plan
  | _, _ => plan
  end.

Definition skip_pointer_applications (plans : list PathPlan) : list PathPlan := map skip_pointer plans.

Definition reconcile : SE Transient Report (list PathPlan) :=
  let* plans := plan_paths paths in
  se_ret (skip_pointer_applications plans).

End Reconcile.

(** ** The bookkeeping around it ([run.rs]) *)

(** [record] of [prepare] *)
Definition baseline_record (base_commit : option str) (object : Object) : SyncRecord :=
  mkSyncRecord (Some object) (Some object) (Some object) base_commit.

(** The state [prepare] rebuilds from the common ancestor of the two histories; [unheld] names
    the streams this machine does not hold, with the version it last held. *)
Definition baseline_state (base_commit : option str) (baseline : gmap str Object)
    (unheld : gmap str (option Object)) : SyncState :=
  map_fold (fun path base state =>
      match base with
      | Some base => <[path := baseline_record base_commit base]> state
      | None => delete path state
      end)
    (baseline_record base_commit <$> baseline) unheld.

(** Identical versions are recorded without any publication. *)
Definition observe (plans : list PathPlan) (state : SyncState) : SyncState :=
  foldl (fun state plan =>
      if is_noop plan then <[plan.(branch_path) := plan.(next)]> state else state) state plans.

(** What the plans themselves say against a publication. *)
Definition holds_publication (plans : list PathPlan) : bool :=
  existsb (fun plan => negb (is_none plan.(apply))) plans
  || existsb (fun plan => negb (is_none plan.(conflict))) plans.

(** The records after a push that went through. *)
Definition published_state (plans : list PathPlan) (state : SyncState) : SyncState :=
  let published := foldl (fun state plan =>
      if negb (is_none plan.(publish)) then <[plan.(branch_path) := plan.(next)]> state else state)
    state plans in
  foldl (fun state plan =>
      if is_none plan.(publish) && is_none plan.(apply) && is_none plan.(conflict)
      then <[plan.(branch_path) := plan.(next)]> state else state) published plans.
