(* ===== verification/ReconcileSpec.v ===== *)
(** * What reconciliation guarantees

    The rows of the documented table as a relation, the plans of [reconcile] against it, the
    safety of what is published and written, and the convergence of a machine that pulls,
    adopts and publishes. *)

From Stdlib Require Import Sorting.Sorted.
From S2P Require Import Prelude RustStr Reconcile.

(** ** The table *)

Section Table.
Context {Report : Type} (repo : Git Report).
Context (shared : gmap str Object) (upstream : Upstream) (state : SyncState) (unsaved : gset str).

(** What the three-way merge can say. *)
Definition Merges (a s t : option Object) (m : Merged) : Prop :=
  exists transient transient', merge repo a s t transient = (Ok m, transient').

Definition pointers (s t : option Object) : bool :=
  (is_gitlink s || is_gitlink t) && pointer_or_absent s && pointer_or_absent t.

(** The two versions differ, are content, and the path was reconciled before. *)
Definition known (s t : option Object) (r : SyncRecord) : Prop :=
  s <> t /\ pointers s t = false /\ is_new r = false.

(** Something upstream has not been written here yet. *)
Definition incoming (t : option Object) (r : SyncRecord) : Prop :=
  t <> r.(reconciled) \/ r.(reconciled) <> r.(applied).

Inductive Row (p : str) (s t : option Object) (r : SyncRecord) : PathPlan -> Prop :=
| row_same : s = t -> Row p s t r (idle p None (settled upstream s))
| row_pointer : s <> t -> pointers s t = true ->
    Row p s t r (idle p (Some NESTED_NOT_SHARED) (settled upstream s))
| row_adopt_local : s <> t -> pointers s t = false -> is_new r = true -> t = None ->
    Row p s t r (publishing p s (settled upstream s))
| row_adopt_remote : s <> t -> pointers s t = false -> is_new r = true -> s = None ->
    Row p s t r (applying p t (noted upstream r t))
| row_adopt_clash : s <> t -> pointers s t = false -> is_new r = true -> s <> None -> t <> None ->
    Row p s t r (clashing p NeedsAdoption s t None (unchanged upstream r))
| row_idle : known s t r -> s = r.(acknowledged) -> ~ incoming t r ->
    Row p s t r (idle p None (unchanged upstream r))
| row_publish : known s t r -> s <> r.(acknowledged) -> ~ incoming t r ->
    Row p s t r (publishing p s (settled upstream s))
| row_apply : known s t r -> s = r.(acknowledged) -> incoming t r -> p ∉ unsaved ->
    Row p s t r (applying p t (noted upstream r t))
| row_held : known s t r -> incoming t r -> p ∈ unsaved ->
    (s = r.(acknowledged) \/ exists o, Merges r.(acknowledged) s t (Clean o)) ->
    Row p s t r (clashing p UnsavedEdits s t r.(acknowledged) (unchanged upstream r))
| row_merge o : known s t r -> s <> r.(acknowledged) -> incoming t r -> p ∉ unsaved ->
    Merges r.(acknowledged) s t (Clean o) ->
    Row p s t r (merged_path upstream unsaved p s t r o)
| row_clash k : known s t r -> s <> r.(acknowledged) -> incoming t r ->
    Merges r.(acknowledged) s t (Merged_Conflict k) ->
    Row p s t r (clashing p k s t r.(acknowledged) (unchanged upstream r)).

(** ** The plans follow the table *)

Definition record_of (p : str) : SyncRecord := default SyncRecord_default (state !! p).

(** A row that leaves nothing to do and no record to update is not reported. *)
Definition Planned (p : str) (s t : option Object) (r : SyncRecord) (plan : option PathPlan) : Prop :=
  exists plan', Row p s t r plan'
    /\ (plan = Some plan' \/ (plan = None /\ is_noop plan' = true /\ plan'.(next) = r /\ pointers s t = false)).

Lemma adopt_path_row p s t r :
  s <> t -> pointers s t = false -> is_new r = true -> Row p s t r (adopt_path upstream p s t r).
Proof.
  intros Hst Hp Hn. unfold adopt_path. destruct s as [s|], t as [t|]; [|constructor; done..|done].
  rewrite bool_decide_eq_false_2 by done. by constructor.
Qed.

Lemma change_path_row p s t r transient transient' plan :
  known s t r -> change_path repo upstream unsaved p s t r transient = (Ok plan, transient') ->
  Row p s t r plan.
Proof.
  intros Ht. pose proof Ht as (Hst & _ & _). unfold change_path.
  rewrite (bool_decide_eq_false_2 (t = s)) by done. rewrite andb_true_r.
  destruct (bool_decide_reflect (s = r.(acknowledged))) as [Ha|Ha];
    destruct (bool_decide_reflect (t = r.(reconciled))) as [Hu|Hu];
    destruct (bool_decide_reflect (r.(reconciled) = r.(applied))) as [Hl|Hl]; simpl;
    rewrite ?andb_false_r, ?andb_true_r; unfold se_ret, se_bind.
  all: try (intros [= <- _]).
  all: try (by apply row_idle; unfold incoming; naive_solver).
  all: try (by apply row_publish; unfold incoming; naive_solver).
  all: try (case_bool_decide; [apply row_held|apply row_apply]; unfold incoming; naive_solver).
  all: destruct (merge _ _ _ _ _) as [[m|e|] tr] eqn:Em; [|done..]; intros [= <- <-].
  all: assert (incoming t r) as Hi by (unfold incoming; naive_solver).
  all: assert (Merges r.(acknowledged) s t m) as Hm by (by eexists _, _).
  all: destruct m as [o|k]; [|by apply row_clash].
  all: destruct (bool_decide_reflect (p ∈ unsaved)) as [Hp|Hp]; [|by apply row_merge].
  all: unfold merged_path; rewrite bool_decide_eq_true_2 by done; apply row_held; eauto.
Qed.

Lemma keep_reports p s t r plan : pointers s t = false -> Row p s t r plan ->
  Planned p s t r (if negb (is_noop plan) || negb (bool_decide (plan.(next) = r)) then Some plan else None).
Proof.
  intros Hp H. exists plan. split; [done|].
  destruct (is_noop plan); simpl; [|by left]. case_bool_decide; simpl; auto.
Qed.

Lemma plan_path_row p transient transient' plan :
  is_internal p = false ->
  plan_path repo shared upstream state unsaved p transient = (Ok plan, transient') ->
  Planned p (shared !! p) (upstream.(files) !! p) (record_of p) plan.
Proof.
  intros Hi. unfold plan_path. rewrite Hi. fold (record_of p).
  case_bool_decide as Hst; [intros [= <- _]; eexists; split; [by apply row_same|by left]|].
  fold (pointers (shared !! p) (upstream.(files) !! p)).
  destruct (pointers _ _) eqn:Hp; [intros [= <- _]; eexists; split; [by apply row_pointer|by left]|].
  destruct (is_new (record_of p)) eqn:Hn.
  - intros [= <- _]. apply keep_reports; [done|]. by apply adopt_path_row.
  - unfold se_bind, se_ret. destruct (change_path _ _ _ _ _ _ _ _) as [[x|e|] tr] eqn:E; [|done..].
    intros [= <- _]. apply keep_reports; [done|]. eapply change_path_row; [|exact E]. done.
Qed.

Lemma row_path p s t r plan : Row p s t r plan -> plan.(branch_path) = p.
Proof. destruct 1; try done. unfold merged_path. by repeat case_match. Qed.

Lemma plan_paths_reports ps transient transient' plans :
  plan_paths repo shared upstream state unsaved ps transient = (Ok plans, transient') ->
  exists found, plans = omap id found
    /\ Forall2 (fun p plan => exists transient transient',
         plan_path repo shared upstream state unsaved p transient = (Ok plan, transient')) ps found.
Proof.
  revert transient plans. induction ps as [|p ps IH]; simpl; intros tr plans.
  { intros [= <- _]. exists []. split; [done|constructor]. }
  unfold se_bind, se_ret. destruct (plan_path _ _ _ _ _ p tr) as [[plan|e|] tr1] eqn:Ep; [|done..].
  destruct (plan_paths _ _ _ _ _ ps tr1) as [[rest|e|] tr2] eqn:Eps; [|done..].
  intros [= <- <-]. destruct (IH _ _ Eps) as (found & -> & Hf).
  exists (plan :: found). split; [by destruct plan|]. constructor; eauto.
Qed.

Lemma plan_path_path p transient transient' plan :
  plan_path repo shared upstream state unsaved p transient = (Ok (Some plan), transient') ->
  is_internal p = false /\ plan.(branch_path) = p.
Proof.
  intros H. destruct (is_internal p) eqn:Hi.
  { unfold plan_path in H. rewrite Hi in H. done. }
  split; [done|]. destruct (plan_path_row _ _ _ _ Hi H) as (plan' & Hr & [[= ->]|[? _]]); [|done].
  by eapply row_path.
Qed.

(** The paths of the plans are a sublist of the paths walked. *)
Lemma found_paths_sublist ps found :
  Forall2 (fun p plan => exists transient transient',
    plan_path repo shared upstream state unsaved p transient = (Ok plan, transient')) ps found ->
  map branch_path (omap id found) `sublist_of` ps.
Proof.
  induction 1 as [|p plan ps found (tr & tr' & H) _ IH]; simpl; [constructor|].
  destruct plan as [plan|]; simpl; [|by constructor].
  destruct (plan_path_path _ _ _ _ H) as [_ ->]. by constructor.
Qed.

Lemma skip_pointer_path plan : (skip_pointer shared plan).(branch_path) = plan.(branch_path).
Proof. unfold skip_pointer. by repeat case_match. Qed.

Lemma skip_pointer_paths plans :
  map branch_path (skip_pointer_applications shared plans) = map branch_path plans.
Proof. unfold skip_pointer_applications. rewrite map_map. apply map_ext. intros. apply skip_pointer_path. Qed.

End Table.

(** A sublist keeps the order. *)
Lemma sublist_sorted (l k : list str) : l `sublist_of` k -> StronglySorted str_lt k -> StronglySorted str_lt l.
Proof.
  induction 1 as [|x l k Hs IH|x l k Hs IH]; intros H; [constructor|..]; apply StronglySorted_inv in H as [H1 H2].
  - constructor; [auto|]. apply Forall_forall. intros y Hy. rewrite Forall_forall in H2.
    apply H2. eapply sublist_submseteq in Hs. by eapply elem_of_submseteq.
  - auto.
Qed.

Lemma sorted_NoDup (l : list str) : StronglySorted str_lt l -> NoDup l.
Proof.
  induction 1 as [|x l _ IH Hx]; constructor; [|done]. intros Hin.
  rewrite Forall_forall in Hx. by apply (str_lt_irrefl x), Hx.
Qed.

(** A row without an application or a conflict records the saved version. *)
Lemma row_settled {Report} (repo : Git Report) upstream unsaved p s t r plan :
  Row repo upstream unsaved p s t r plan -> plan.(apply) = None -> plan.(conflict) = None ->
  plan.(next).(acknowledged) = s /\ plan.(next).(reconciled) = plan.(next).(applied)
  /\ plan.(next).(upstream_commit) = upstream.(commit).
Proof.
  intros Hrow. destruct Hrow as [| | | | |Ht Ha Hi| | | |o Ht Ha Hi Hu Hm|]; simpl; try done.
  - intros _ _. unfold incoming in Hi. split_and!; [done| |done].
    destruct (decide (r.(reconciled) = r.(applied))); naive_solver.
  - unfold merged_path. by repeat case_match.
Qed.

Lemma row_commit {Report} (repo : Git Report) upstream unsaved p s t r plan :
  Row repo upstream unsaved p s t r plan -> plan.(next).(upstream_commit) = upstream.(commit).
Proof. destruct 1; try done. unfold merged_path. by repeat case_match. Qed.

(** ** Reconciliation *)

Section Guarantees.
Context {Report : Type} (repo : Git Report).
Context (shared : gmap str Object) (upstream : Upstream) (state : SyncState) (unsaved : gset str).

(** The row of a path: its versions and record are the maps' entries. *)
Definition RowAt (p : str) (plan : PathPlan) : Prop :=
  Row repo upstream unsaved p (shared !! p) (upstream.(files) !! p) (record_of state p) plan.

Lemma reconcile_rows transient transient' plans :
  reconcile repo shared upstream state unsaved transient = (Ok plans, transient') ->
  StronglySorted str_lt (map branch_path plans)
  /\ (forall plan, plan ∈ plans -> is_internal plan.(branch_path) = false
        /\ exists plan', RowAt plan.(branch_path) plan' /\ plan = skip_pointer shared plan')
  /\ (forall p, p ∈ paths shared upstream state -> is_internal p = false ->
        p ∈ map branch_path plans
        \/ exists plan', RowAt p plan' /\ is_noop plan' = true /\ plan'.(next) = record_of state p
             /\ pointers (shared !! p) (upstream.(files) !! p) = false).
Proof.
  unfold reconcile, se_bind, se_ret.
  destruct (plan_paths _ _ _ _ _ _ transient) as [[found0|e|] tr] eqn:E; [|done..]. intros [= <- <-].
  destruct (plan_paths_reports _ _ _ _ _ _ _ _ _ E) as (found & -> & Hf).
  rewrite skip_pointer_paths. split_and!.
  - eapply sublist_sorted; [by eapply found_paths_sublist|apply key_order_sorted].
  - intros plan Hin. unfold skip_pointer_applications in Hin.
    apply list_elem_of_fmap in Hin as (plan0 & -> & Hin).
    apply list_elem_of_omap in Hin as (o & Hin & [= ->]).
    apply list_elem_of_lookup in Hin as [i Hi].
    destruct (Forall2_lookup_r _ _ _ _ _ Hf Hi) as (p & Hp & tr1 & tr2 & H).
    destruct (plan_path_path _ _ _ _ _ _ _ _ _ H) as [Hint <-].
    rewrite skip_pointer_path. split; [done|].
    destruct (plan_path_row _ _ _ _ _ _ _ _ _ Hint H) as (plan' & Hr & [[= ->]|[? _]]); [|done].
    by exists plan'.
  - intros p Hp Hint. apply list_elem_of_lookup in Hp as [i Hi].
    destruct (Forall2_lookup_l _ _ _ _ _ Hf Hi) as (o & Ho & tr1 & tr2 & H).
    destruct (plan_path_row _ _ _ _ _ _ _ _ _ Hint H) as (plan' & Hr & [->|(-> & Hn & Hx & Hp)]).
    + left. apply list_elem_of_fmap. exists plan'. destruct (plan_path_path _ _ _ _ _ _ _ _ _ H) as [_ ->].
      split; [done|]. apply list_elem_of_omap. exists (Some plan'). split; [by eapply list_elem_of_lookup_2|done].
    + right. by exists plan'.
Qed.

(** A plan that does something, one thing at a time. *)
Definition Acts (plan : PathPlan) : Prop :=
  (is_noop plan = false \/ plan.(skipped) = Some NESTED_NOT_SHARED)
  /\ (plan.(conflict) <> None -> plan.(publish) = None /\ plan.(apply) = None).

Lemma acts_skip_pointer plan : Acts plan -> Acts (skip_pointer shared plan).
Proof.
  intros H. unfold skip_pointer. destruct plan.(conflict) eqn:Hc, plan.(apply) as [o|] eqn:Ha; try done.
  destruct (is_gitlink o); [|done]. split; [by right|done].
Qed.

Lemma row_idle_or_acts p s t r plan : Row repo upstream unsaved p s t r plan -> s <> t ->
  (s = r.(acknowledged) /\ ~ incoming t r) \/ Acts plan.
Proof.
  unfold Acts.
  intros [Hst|Hst Hp|Hst Hp Hn Ht|Hst Hp Hn Hs|Hst Hp Hn Hs Ht|Ht Ha Hi|Ht Ha Hi|Ht Ha Hi Hu|Ht Hi Hu Ho1|o' Ht Ha Hi Hu Hm|k Ht Ha Hi Hm] Hne;
    simpl; try done; try (by left); try (right; split; [by left|by intros]); [right; split; [by right|done]|].
  right. unfold merged_path. rewrite bool_decide_eq_false_2 by done.
  destruct (bool_decide_reflect (o' = t)), (bool_decide_reflect (o' = s)); simpl; subst; try done; (split; [by left|by intros]).
Qed.

(** C31. Publication never reverts what upstream did. A plan that publishes a version of a path
    has no conflict, and either nothing upstream is new to this machine (the fetched version is
    the one last reconciled, and that one was written here) and the version is the saved one, or
    the version is a clean merge of the saved and the fetched version, relative to the
    acknowledged one. *)
Theorem publication_safe transient transient' plans plan o :
  reconcile repo shared upstream state unsaved transient = (Ok plans, transient') ->
  plan ∈ plans -> plan.(publish) = Some o ->
  let p := plan.(branch_path) in
  let s := shared !! p in
  let t := upstream.(files) !! p in
  let r := record_of state p in
  plan.(conflict) = None /\ s <> r.(acknowledged) /\ o <> t
  /\ ((o = s /\ ~ incoming t r) \/ Merges repo r.(acknowledged) s t (Clean o)).
Proof.
  intros Hr Hin Ho. destruct (reconcile_rows _ _ _ Hr) as (_ & Hrows & _).
  destruct (Hrows _ Hin) as (_ & plan' & Hrow & Hskip). unfold RowAt in Hrow. simpl.
  set (p := plan.(branch_path)) in *. set (s := shared !! p) in *.
  set (t := upstream.(files) !! p) in *. set (r := record_of state p) in *. clearbody s t r p.
  assert (plan'.(publish) = Some o /\ (plan'.(conflict) = None -> plan.(conflict) = None)) as [Ho' Hc].
  { subst plan. unfold skip_pointer in *. repeat case_match; simpl in *; split; congruence. }
  clear Hskip Hin Hrows Hr. destruct Hrow as
    [Hst|Hst Hp|Hst Hp Hn Ht|Hst Hp Hn Hs|Hst Hp Hn Hs Ht|Ht Ha Hi|Ht Ha Hi|Ht Ha Hi Hu|Ht Hi Hu Ho1|o' Ht Ha Hi Hu Hm|k Ht Ha Hi Hm];
    simpl in Ho'; try done.
  - injection Ho' as <-. subst t. unfold is_new in Hn. bool_prop. unfold incoming.
    destruct r as [[|] [|] [|] c]; simpl in *; try done. naive_solver.
  - injection Ho' as <-. destruct Ht as (Hst & _ & _). naive_solver.
  - unfold merged_path in *. rewrite bool_decide_eq_false_2 in Ho', Hc by done.
    assert (o' = o /\ o <> t) as [-> Hot].
    { destruct (bool_decide_reflect (o' = t)), (bool_decide_reflect (o' = s)); simpl in *; naive_solver. }
    split_and!; [apply Hc; by case_bool_decide|done..|by right].
Qed.

(** C32. An application never overwrites work done here. A plan that writes a version of a path
    has no conflict, writes no nested repository, and the path has no unsaved edits unless it is
    new to this machine; the version written is the fetched one when the saved one was not
    changed since it was acknowledged, and otherwise a clean merge of both. *)
Theorem application_safe transient transient' plans plan o :
  reconcile repo shared upstream state unsaved transient = (Ok plans, transient') ->
  plan ∈ plans -> plan.(apply) = Some o ->
  let p := plan.(branch_path) in
  let s := shared !! p in
  let t := upstream.(files) !! p in
  let r := record_of state p in
  plan.(conflict) = None /\ is_gitlink o = false /\ o <> s
  /\ (p ∈ unsaved -> is_new r = true)
  /\ ((o = t /\ s = r.(acknowledged))
      \/ (s <> r.(acknowledged) /\ Merges repo r.(acknowledged) s t (Clean o))).
Proof.
  intros Hr Hin Ho. destruct (reconcile_rows _ _ _ Hr) as (_ & Hrows & _).
  destruct (Hrows _ Hin) as (_ & plan' & Hrow & Hskip). unfold RowAt in Hrow. simpl.
  set (p := plan.(branch_path)) in *. set (s := shared !! p) in *.
  set (t := upstream.(files) !! p) in *. set (r := record_of state p) in *. clearbody s t r p.
  assert (plan'.(apply) = Some o /\ plan.(conflict) = plan'.(conflict)
          /\ (plan'.(conflict) = None -> is_gitlink o = false)) as (Ho' & -> & Hg).
  { subst plan. unfold skip_pointer in *. repeat case_match; simpl in *; split_and!; congruence. }
  clear Hskip Hin Hrows Hr. destruct Hrow as
    [Hst|Hst Hp|Hst Hp Hn Ht|Hst Hp Hn Hs|Hst Hp Hn Hs Ht|Ht Ha Hi|Ht Ha Hi|Ht Ha Hi Hu|Ht Hi Hu Ho1|o' Ht Ha Hi Hu Hm|k Ht Ha Hi Hm];
    simpl in Ho'; try done.
  - injection Ho' as <-. split_and!; [done|by apply Hg|congruence|done|].
    left. split; [done|]. unfold is_new in Hn. bool_prop. destruct r as [[|] ? ? c]; naive_solver.
  - injection Ho' as <-. destruct Ht as (Hst & _ & _). split_and!; [done|by apply Hg|congruence|naive_solver|naive_solver].
  - unfold merged_path in *. rewrite bool_decide_eq_false_2 in Ho', Hg |- * by done.
    destruct (bool_decide_reflect (o' = s)); simpl in *; [done|]. injection Ho' as <-.
    split_and!; [done|by apply Hg|done|naive_solver|by right].
Qed.

(** No divergence is lost: a path whose saved and fetched versions differ is published,
    written, left to a decision or skipped as a nested repository, unless neither side changed
    it since the record was made. *)
Theorem divergence_reported transient transient' plans p :
  reconcile repo shared upstream state unsaved transient = (Ok plans, transient') ->
  is_internal p = false ->
  let s := shared !! p in
  let t := upstream.(files) !! p in
  let r := record_of state p in
  s <> t ->
  (s = r.(acknowledged) /\ ~ incoming t r)
  \/ exists plan, plan ∈ plans /\ plan.(branch_path) = p
       /\ (is_noop plan = false \/ plan.(skipped) = Some NESTED_NOT_SHARED)
       /\ (plan.(conflict) <> None -> plan.(publish) = None /\ plan.(apply) = None).
Proof.
  intros Hr Hint s t r Hst. subst s t r. destruct (reconcile_rows _ _ _ Hr) as (_ & Hrows & Hall).
  destruct (Hall p) as [Hin|(plan' & Hrow & Hn & _ & Hp)]; [|done|..].
  - unfold paths. rewrite elem_of_key_order, !elem_of_union, !elem_of_dom.
    destruct (shared !! p) eqn:E1, (upstream.(files) !! p) eqn:E2; naive_solver.
  - apply list_elem_of_fmap in Hin as (plan & -> & Hin).
    destruct (Hrows _ Hin) as (_ & plan' & Hrow & ->). rewrite skip_pointer_path in *.
    destruct (row_idle_or_acts _ _ _ _ _ Hrow Hst) as [?|Ha]; [by left|right].
    eexists. split; [done|]. rewrite skip_pointer_path. split; [done|]. by apply acts_skip_pointer.
  - left. unfold RowAt in Hrow.
    destruct (row_idle_or_acts _ _ _ _ _ Hrow Hst) as [?|[[Ha|Ha] _]]; [done|congruence|].
    destruct Hrow; try done; [congruence|]. revert Ha. unfold merged_path. by repeat case_match.
Qed.

End Guarantees.

(** ** Carrying plans out *)

Definition write_object (files : gmap str Object) (p : str) (o : option Object) : gmap str Object :=
  match o with Some v => <[p := v]> files | None => delete p files end.

(** The files after what [field] asks for has been done for every plan. *)
Definition carry (field : PathPlan -> option (option Object)) (files : gmap str Object)
    (plans : list PathPlan) : gmap str Object :=
  foldl (fun files plan =>
      match field plan with Some o => write_object files plan.(branch_path) o | None => files end)
    files plans.

Lemma write_object_eq files p o : write_object files p o !! p = o.
Proof. destruct o; simpl; [apply lookup_insert_eq|apply lookup_delete_eq]. Qed.

Lemma write_object_ne files p q o : p <> q -> write_object files p o !! q = files !! q.
Proof. intros. destruct o; simpl; [by apply lookup_insert_ne|by apply lookup_delete_ne]. Qed.

Lemma carry_other field files plans p :
  p ∉ map branch_path plans -> carry field files plans !! p = files !! p.
Proof.
  unfold carry. revert files. induction plans as [|plan plans IH]; simpl; intros files Hp; [done|].
  apply not_elem_of_cons in Hp as [Hne Hp]. rewrite IH by done.
  case_match; [by rewrite write_object_ne|done].
Qed.

Lemma carry_cons field files plan plans :
  carry field files (plan :: plans)
  = carry field (match field plan with Some o => write_object files plan.(branch_path) o | None => files end) plans.
Proof. done. Qed.

Lemma carry_plan field files plans plan :
  NoDup (map branch_path plans) -> plan ∈ plans ->
  carry field files plans !! plan.(branch_path) = default (files !! plan.(branch_path)) (field plan).
Proof.
  revert files. induction plans as [|x plans IH]; intros files Hn Hin; [by apply elem_of_nil in Hin|].
  apply NoDup_cons in Hn as [Hx Hn]. rewrite carry_cons. apply elem_of_cons in Hin as [->|Hin].
  - rewrite carry_other by done. case_match; simpl; [by rewrite write_object_eq|done].
  - rewrite IH by done. f_equal. case_match; [|done].
    apply write_object_ne. intros He. apply Hx. rewrite He. by apply list_elem_of_fmap_2.
Qed.

(** ** The baseline *)

Definition base_of (baseline : gmap str Object) (unheld : gmap str (option Object)) (p : str) : option Object :=
  default (baseline !! p) (unheld !! p).

Lemma baseline_state_lookup c baseline unheld p :
  baseline_state c baseline unheld !! p = baseline_record c <$> base_of baseline unheld p.
Proof.
  unfold baseline_state, base_of. revert p.
  apply (map_fold_weak_ind (fun state unheld =>
    forall p, state !! p = baseline_record c <$> default (baseline !! p) (unheld !! p))).
  - intros p. by rewrite lookup_fmap, lookup_empty.
  - intros q b m state Hq IH p. destruct (decide (q = p)) as [->|Hne].
    + rewrite lookup_insert_eq. destruct b; simpl; [by rewrite lookup_insert_eq|by rewrite lookup_delete_eq].
    + rewrite lookup_insert_ne by done. destruct b; [rewrite lookup_insert_ne by done|rewrite lookup_delete_ne by done]; apply IH.
Qed.

Definition baseline_of (c : option str) (b : option Object) : SyncRecord :=
  default SyncRecord_default (baseline_record c <$> b).

Lemma baseline_versions c b :
  (baseline_of c b).(acknowledged) = b /\ (baseline_of c b).(reconciled) = b
  /\ (baseline_of c b).(applied) = b /\ is_new (baseline_of c b) = is_none b.
Proof. by destruct b. Qed.

(** ** One round *)

(** Reading a blob leaves the blobs as they are. *)
Lemma cat_then {Report A} (repo : Git Report) (oid : str) (k : list N -> SE Transient Report A)
    (transient : Transient) (r : A) (transient' : Transient) :
  se_bind (cat_object repo oid) k transient = (Ok r, transient') ->
  exists bytes, cat_object repo oid transient = (Ok bytes, transient) /\ k bytes transient = (Ok r, transient').
Proof.
  unfold cat_object, se_bind, se_get, lift_sum, se_ret, se_fail.
  destruct (transient !! oid) as [bytes|]; [by exists bytes|].
  destruct (stored_blob repo oid) as [e|bytes]; [done|by exists bytes].
Qed.

Lemma merge3_then {Report} (repo : Git Report) (b o t : list N) (k : list N -> SE Transient Report Merged)
    (kind : ConflictKind) (transient : Transient) (v : option Object) (transient' : Transient) :
  se_bind (merge3 repo b o t)
    (fun merged => match merged with Some merged => k merged | None => se_ret (Merged_Conflict kind) end)
    transient = (Ok (Clean v), transient') ->
  exists merged, existsb contains_zero [b; o; t] = false
    /\ repo.(merge_file) b o t = inr (Some 0%Z, merged) /\ k merged transient = (Ok (Clean v), transient').
Proof.
  unfold merge3, se_bind, se_ret, se_fail, lift_sum.
  destruct (existsb _ _); [done|]. destruct (merge_file _ _ _ _) as [e|[[code|] out]]; try done. simpl.
  destruct (Z.eqb_spec code 0) as [->|]; [|destruct (0 <? code)%Z; done]. by exists out.
Qed.

(** The three-way outcome of a path. *)
Definition ThreeWay {Report} (repo : Git Report) (b s t v : option Object) : Prop :=
  (s = t /\ v = s) \/ (s = b /\ v = t) \/ (t = b /\ v = s)
  \/ (s <> b /\ t <> b /\ Merges repo b s t (Clean v)).

Lemma merges_content {Report} (repo : Git Report) b s t v :
  Merges repo b s t (Clean v) -> is_gitlink s = false -> is_gitlink t = false ->
  is_gitlink v = false.
Proof.
  intros (tr & tr' & H) Hs Ht. destruct s as [[sm so]|], t as [[tm tid]|]; unfold merge, se_ret in H; try done;
    [|by injection H as <- _].
  step_match_in H; [by injection H as <- _|]. step_match_in H; [done|]. step_match_in H; [done|].
  destruct b as [[bm bo]|]; [|done].
  unfold merge_contents, se_bind, se_ret in H. repeat (step_match_in H; simpl in H; try done).
  all: injection H as <- _; simpl in *; by case_bool_decide.
Qed.

Lemma row_three_way {Report} (repo : Git Report) upstream unsaved p s t c b plan :
  Row repo upstream unsaved p s t (baseline_of c b) plan ->
  is_gitlink s = false -> is_gitlink t = false -> plan.(conflict) = None ->
  ThreeWay repo b s t (default s plan.(apply)).
Proof.
  intros Hrow Hs Ht Hc. destruct (baseline_versions c b) as (Ha & Hu & Hl & Hn).
  unfold ThreeWay. destruct Hrow as
    [Hst|Hst Hp|Hst Hp Hw Ht0|Hst Hp Hw Hs0|Hst Hp Hw Hs0 Ht0|Hk Hsa Hi|Hk Hsa Hi|Hk Hsa Hi Hf|Hk Hi Hf Ho1|o' Hk Hsa Hi Hf Hm|k Hk Hsa Hi Hm];
    unfold incoming in *; rewrite ?Ha, ?Hu, ?Hl, ?Hn in *; simpl in *; try done.
  - by left.
  - unfold pointers in Hp. rewrite Hs, Ht in Hp. done.
  - destruct b; [done|]. naive_solver.
  - destruct b; [done|]. naive_solver.
  - destruct (decide (t = b)); naive_solver.
  - destruct (decide (t = b)); naive_solver.
  - naive_solver.
  - right; right; right. split_and!; [done|naive_solver|].
    clear Hc. unfold merged_path. rewrite bool_decide_eq_false_2 by done.
    destruct (bool_decide_reflect (o' = s)) as [->|]; simpl; done.
Qed.

(** ** Paths that hold content *)

Definition content (files : gmap str Object) : Prop := forall p, is_gitlink (files !! p) = false.

Lemma three_way_content {Report} (repo : Git Report) b s t v :
  ThreeWay repo b s t v -> is_gitlink s = false -> is_gitlink t = false -> is_gitlink v = false.
Proof.
  intros [[_ ->]|[[_ ->]|[[_ ->]|(_ & _ & H)]]] Hs Ht; try done. by eapply merges_content.
Qed.

Section Rounds.
Context {Report : Type} (repo : Git Report).

(** What a machine does that has adopted the fetched versions as its base. *)
Definition adopted_plan (shared : gmap str Object) (upstream : Upstream) (p : str) : option PathPlan :=
  let s := shared !! p in
  if is_internal p then None
  else if bool_decide (s = upstream.(files) !! p) then Some (idle p None (settled upstream s))
  else Some (publishing p s (settled upstream s)).

Lemma adopted_plan_path shared upstream c unsaved p transient :
  content shared -> content upstream.(files) ->
  plan_path repo shared upstream (baseline_state c upstream.(files) ∅) unsaved p transient
  = (Ok (adopted_plan shared upstream p), transient).
Proof.
  intros Hs Ht. unfold plan_path, adopted_plan. destruct (is_internal p); [done|].
  case_bool_decide as Hst; [done|]. rewrite (Hs p), (Ht p). simpl.
  rewrite baseline_state_lookup. unfold base_of. rewrite lookup_empty. simpl.
  fold (baseline_of c (upstream.(files) !! p)).
  destruct (baseline_versions c (upstream.(files) !! p)) as (Ha & Hu & Hl & Hn). rewrite Hn.
  destruct (upstream.(files) !! p) as [t|] eqn:Et; simpl.
  - unfold change_path. rewrite Ha, Hu, Hl.
    rewrite (bool_decide_eq_false_2 (shared !! p = Some t)) by done.
    rewrite !bool_decide_eq_true_2 by done. done.
  - unfold adopt_path. by destruct (shared !! p).
Qed.

Lemma adopted_reconcile shared upstream c unsaved transient :
  content shared -> content upstream.(files) ->
  let state := baseline_state c upstream.(files) ∅ in
  reconcile repo shared upstream state unsaved transient
  = (Ok (omap (adopted_plan shared upstream) (paths shared upstream state)), transient).
Proof.
  intros Hs Ht state. unfold reconcile, se_bind, se_ret.
  assert (forall ps, plan_paths repo shared upstream state unsaved ps transient
                = (Ok (omap (adopted_plan shared upstream) ps), transient)) as ->.
  { induction ps as [|p ps IH]; [done|]. simpl. unfold se_bind, se_ret.
    unfold state. rewrite adopted_plan_path by done. fold state. rewrite IH. by destruct (adopted_plan shared upstream p). }
  f_equal. f_equal. unfold skip_pointer_applications. induction (paths shared upstream state) as [|p ps IH]; [done|].
  simpl. destruct (adopted_plan shared upstream p) as [plan|] eqn:E; simpl; [|exact IH]. f_equal; [|exact IH].
  unfold adopted_plan in E. by repeat case_match; simplify_eq.
Qed.

Lemma adopted_plans_paths shared upstream c :
  let state := baseline_state c upstream.(files) ∅ in
  NoDup (map branch_path (omap (adopted_plan shared upstream) (paths shared upstream state))).
Proof.
  intros state. apply sorted_NoDup. apply (sublist_sorted _ (paths shared upstream state)); [|apply key_order_sorted].
  induction (paths shared upstream state) as [|p ps IH]; simpl; [constructor|].
  destruct (adopted_plan shared upstream p) as [plan|] eqn:E; simpl; [|by constructor].
  unfold adopted_plan in E. repeat case_match; simplify_eq; simpl; by constructor.
Qed.

Lemma in_paths_shared shared upstream state p : is_Some (shared !! p) -> p ∈ paths shared upstream state.
Proof. intros. unfold paths. rewrite elem_of_key_order, !elem_of_union, !elem_of_dom. auto. Qed.
Lemma in_paths_upstream shared upstream state p : is_Some (upstream.(files) !! p) -> p ∈ paths shared upstream state.
Proof. intros. unfold paths. rewrite elem_of_key_order, !elem_of_union, !elem_of_dom. auto. Qed.

(** A machine that has adopted the fetched versions publishes its own. *)
Lemma adopted_publishes shared upstream c p :
  is_internal p = false ->
  let state := baseline_state c upstream.(files) ∅ in
  carry publish upstream.(files) (omap (adopted_plan shared upstream) (paths shared upstream state)) !! p
  = shared !! p.
Proof.
  intros Hp state.
  destruct (decide (p ∈ paths shared upstream state)) as [Hin|Hin].
  - assert (exists plan, adopted_plan shared upstream p = Some plan /\ plan.(branch_path) = p
              /\ default (upstream.(files) !! p) plan.(publish) = shared !! p) as (plan & He & Hb & Hv).
    { unfold adopted_plan. rewrite Hp. case_bool_decide; by eexists. }
    rewrite <- Hb at 1. rewrite carry_plan; [by rewrite Hb|apply adopted_plans_paths|].
    apply list_elem_of_omap. by exists p.
  - rewrite carry_other.
    + destruct (upstream.(files) !! p) eqn:Et, (shared !! p) eqn:Es; try done; destruct Hin;
        (by apply in_paths_shared) || by apply in_paths_upstream.
    + intros H. apply list_elem_of_fmap in H as (plan & -> & H).
      apply list_elem_of_omap in H as (q & Hq & He). apply Hin.
      unfold adopted_plan in He. by repeat case_match; simplify_eq.
Qed.

Lemma adopted_skips_internal shared upstream ps p :
  is_internal p = true -> p ∉ map branch_path (omap (adopted_plan shared upstream) ps).
Proof.
  intros Hi H. apply list_elem_of_fmap in H as (plan & -> & H).
  apply list_elem_of_omap in H as (q & Hq & He). unfold adopted_plan in He. repeat case_match; simplify_eq;
    simpl in *; congruence.
Qed.

Lemma adopted_holds_nothing shared upstream ps :
  holds_publication (omap (adopted_plan shared upstream) ps) = false.
Proof.
  unfold holds_publication. apply orb_false_iff.
  split; induction ps as [|p ps IH]; try done; simpl;
    (destruct (adopted_plan shared upstream p) as [plan|] eqn:E; simpl; [|exact IH]);
    (apply orb_false_iff; split; [|exact IH]);
    unfold adopted_plan in E; repeat case_match; by simplify_eq.
Qed.

(** With every file published nothing is left to do. *)
Lemma adopted_idle shared upstream ps :
  (forall p, is_internal p = false -> upstream.(files) !! p = shared !! p) ->
  forallb is_noop (omap (adopted_plan shared upstream) ps) = true.
Proof.
  intros H. induction ps as [|p ps IH]; [done|]. simpl.
  destruct (adopted_plan shared upstream p) as [plan|] eqn:E; simpl; [|exact IH].
  unfold adopted_plan in E. destruct (is_internal p) eqn:Hi; [done|].
  rewrite bool_decide_eq_true_2 in E by (by rewrite H). injection E as <-. exact IH.
Qed.

End Rounds.

(** ** The merge of two contents *)

(** A clean merge of two files that differ is what Git made of their contents, from
    text only: the object it names can be read back at once, and the executable bit is merged
    like the content, so that a side that did not touch it does not undo the other's change. *)
Theorem merge_clean {Report} (repo : Git Report) b o t v transient transient' :
  merge repo (Some b) (Some o) (Some t) transient = (Ok (Clean (Some v)), transient') ->
  o <> t ->
  exists base_bytes ours theirs merged,
    cat_object repo b.2 transient = (Ok base_bytes, transient)
    /\ cat_object repo o.2 transient = (Ok ours, transient)
    /\ cat_object repo t.2 transient = (Ok theirs, transient)
    /\ existsb contains_zero [base_bytes; ours; theirs] = false
    /\ repo.(merge_file) base_bytes ours theirs = inr (Some 0%Z, merged)
    /\ cat_object repo v.2 transient' = (Ok merged, transient')
    /\ (o.1 = b.1 -> v.1 = t.1) /\ (t.1 = b.1 -> v.1 = o.1)
    /\ kind (Some o) = kind (Some t) /\ o.1 <> u!"120000".
Proof.
  intros H Hne. revert H. unfold merge, se_ret.
  replace (bool_decide (o.2 = t.2) && bool_decide (o.1 = t.1)) with false.
  2: { destruct (bool_decide_reflect (o.2 = t.2)), (bool_decide_reflect (o.1 = t.1)); try done.
       destruct o, t; simpl in *; congruence. }
  destruct (bool_decide_reflect (kind (Some o) = kind (Some t))) as [Hk|]; [|done]. cbn [negb].
  destruct (bool_decide_reflect (o.1 = u!"120000")) as [|Hlink]; [done|]. intros H.
  unfold merge_contents in H.
  apply cat_then in H as (bb & Hb & H); apply cat_then in H as (ob & Ho & H);
    apply cat_then in H as (tb & Ht & H).
  apply merge3_then in H as (out & Hz & Hf & H).
  exists bb, ob, tb, out; unfold transient_blob_id, se_bind, se_modify, se_ret, lift_sum in H;
    destruct (repo.(blob_hash) out) as [e|oid]; [done|]; injection H as <- <-.
  simpl; split_and!; try done.
  - unfold cat_object, se_bind, se_get. by rewrite lookup_insert_eq.
  - case_bool_decide; naive_solver.
  - intros; case_bool_decide; congruence.
Qed.

(** ** Convergence *)

Lemma pulled_three_way {Report} (repo : Git Report) c baseline unheld shared upstream unsaved
    transient transient' plans p :
  content shared -> content upstream.(files) ->
  reconcile repo shared upstream (baseline_state c baseline unheld) unsaved transient
    = (Ok plans, transient') ->
  (forall plan, plan ∈ plans -> plan.(conflict) = None) ->
  is_internal p = false ->
  ThreeWay repo (base_of baseline unheld p) (shared !! p) (upstream.(files) !! p)
    (carry apply shared plans !! p).
Proof.
  intros Hs Ht Hr Hc Hp. destruct (reconcile_rows _ _ _ _ _ _ _ _ Hr) as (Hsort & Hrows & Hall).
  assert (record_of (baseline_state c baseline unheld) p = baseline_of c (base_of baseline unheld p)) as Hrec.
  { unfold record_of. by rewrite baseline_state_lookup. }
  destruct (decide (p ∈ map branch_path plans)) as [Hin|Hout].
  - apply list_elem_of_fmap in Hin as (plan & -> & Hin).
    destruct (Hrows _ Hin) as (_ & plan' & Hrow & He). rewrite carry_plan; [|by apply sorted_NoDup|done].
    unfold RowAt in Hrow. rewrite Hrec in Hrow.
    assert (plan'.(conflict) = None) as Hc'.
    { pose proof (Hc _ Hin) as H. rewrite He in H. unfold skip_pointer in H.
      repeat case_match; simpl in *; congruence. }
    pose proof (row_three_way _ _ _ _ _ _ _ _ _ Hrow (Hs _) (Ht _) Hc') as H3.
    assert (plan.(apply) = plan'.(apply)) as ->; [|done].
    rewrite He. unfold skip_pointer. rewrite Hc'. destruct plan'.(apply) as [o|] eqn:Ea; [|by rewrite Ea].
    simpl in H3. by rewrite (three_way_content _ _ _ _ _ H3 (Hs _) (Ht _)).
  - rewrite carry_other by done.
    destruct (decide (p ∈ paths shared upstream (baseline_state c baseline unheld))) as [Hin|Hin].
    + destruct (Hall _ Hin Hp) as [?|(plan' & Hrow & Hn & _)]; [done|].
      unfold RowAt in Hrow. rewrite Hrec in Hrow. unfold is_noop in Hn. bool_prop.
      assert (plan'.(conflict) = None) as Hc' by (by destruct plan'.(conflict)).
      pose proof (row_three_way _ _ _ _ _ _ _ _ _ Hrow (Hs _) (Ht _) Hc') as H3.
      by destruct plan'.(apply).
    + left. split; [|done].
      destruct (shared !! p) eqn:Es, (upstream.(files) !! p) eqn:Et; try done; destruct Hin;
        (by apply in_paths_shared) || by apply in_paths_upstream.
Qed.

(** C12. A synchronization settles. Start from any three versions of the files (the common
    ancestor, the saved and the fetched ones, without nested repositories); when no path needs a
    decision, carrying the applications out gives every path the three-way outcome of its
    versions. Reconciling again with the fetched versions adopted as the base needs no merge,
    holds nothing back and publishes exactly the files of this machine; reconciling once more
    after that publication finds nothing to do. *)
Theorem sync_settles {Report} (repo : Git Report) c baseline unheld shared upstream unsaved
    transient transient' plans :
  content shared -> content upstream.(files) ->
  reconcile repo shared upstream (baseline_state c baseline unheld) unsaved transient
    = (Ok plans, transient') ->
  (forall plan, plan ∈ plans -> plan.(conflict) = None) ->
  let shared' := carry apply shared plans in
  (forall p, is_internal p = false ->
     ThreeWay repo (base_of baseline unheld p) (shared !! p) (upstream.(files) !! p) (shared' !! p))
  /\ forall c2 c3 commit3 unsaved2 unsaved3 transient2 transient3, (exists plans2,
       reconcile repo shared' upstream (baseline_state c2 upstream.(files) ∅) unsaved2 transient2
         = (Ok plans2, transient2)
       /\ holds_publication plans2 = false
       /\ let upstream' := mkUpstream commit3 (carry publish upstream.(files) plans2) in
          (forall p, is_internal p = false -> upstream'.(files) !! p = shared' !! p)
          /\ exists plans3,
               reconcile repo shared' upstream' (baseline_state c3 upstream'.(files) ∅) unsaved3 transient3
                 = (Ok plans3, transient3)
               /\ forallb is_noop plans3 = true).
Proof.
  intros Hs Ht Hr Hc shared'.
  assert (forall p, is_internal p = false ->
     ThreeWay repo (base_of baseline unheld p) (shared !! p) (upstream.(files) !! p) (shared' !! p)) as H3
    by (intros p Hp; by eapply pulled_three_way).
  split; [done|]. intros.
  assert (content shared') as Hs'.
  { intros p. destruct (is_internal p) eqn:Hp; [|by eapply three_way_content; eauto].
    unfold shared'. rewrite carry_other; [done|]. intros H.
    destruct (reconcile_rows _ _ _ _ _ _ _ _ Hr) as (_ & Hrows & _).
    apply list_elem_of_fmap in H as (plan & -> & Hin). destruct (Hrows _ Hin). congruence. }
  eexists. split; [by apply adopted_reconcile|]. split; [apply adopted_holds_nothing|].
  assert (forall p, is_internal p = false -> carry publish upstream.(files)
    (omap (adopted_plan shared' upstream) (paths shared' upstream (baseline_state c2 upstream.(files) ∅))) !! p
    = shared' !! p) as Hp by (intros; by apply adopted_publishes).
  split; [done|]. eexists. split; [apply adopted_reconcile; [done|]|].
  - intros p. simpl. destruct (is_internal p) eqn:Hi; [|by rewrite Hp].
    rewrite carry_other; [done|]. by apply adopted_skips_internal.
  - by apply adopted_idle.
Qed.

(** ** The records after a publication *)

(** [keep_next] is what both loops over the plans do, each with its own test. *)
Definition keep_next (test : PathPlan -> bool) (plans : list PathPlan) (state : SyncState) : SyncState :=
  foldl (fun state plan => if test plan then <[plan.(branch_path) := plan.(next)]> state else state) state plans.

Lemma keep_next_other test plans state p :
  (forall plan, plan ∈ plans -> plan.(branch_path) = p -> test plan = false) ->
  keep_next test plans state !! p = state !! p.
Proof.
  unfold keep_next. revert state. induction plans as [|x plans IH]; simpl; intros state H; [done|].
  rewrite IH by (intros; apply H; [by apply list_elem_of_further|done]).
  destruct (test x) eqn:E; [|done]. apply lookup_insert_ne. intros He.
  rewrite (H x) in E; [done|apply list_elem_of_here|done].
Qed.

Lemma keep_next_plan test plans state plan :
  NoDup (map branch_path plans) -> plan ∈ plans -> test plan = true ->
  keep_next test plans state !! plan.(branch_path) = Some plan.(next).
Proof.
  revert state. induction plans as [|x plans IH]; intros state Hn Hin Ht; [by apply elem_of_nil in Hin|].
  apply NoDup_cons in Hn as [Hx Hn]. apply elem_of_cons in Hin as [->|Hin].
  - change (keep_next test plans (if test x then <[branch_path x:=next x]> state else state) !! branch_path x
      = Some (next x)). rewrite keep_next_other, Ht; [apply lookup_insert_eq|].
    intros plan Hin He. destruct Hx. rewrite <- He. by apply list_elem_of_fmap_2.
  - by apply (IH (if test x then _ else _)).
Qed.

Lemma map_inj_on {A B} (f : A -> B) l x y : NoDup (map f l) -> x ∈ l -> y ∈ l -> f x = f y -> x = y.
Proof.
  induction l as [|z l IH]; [by intros _ ?%elem_of_nil|]. intros [Hz Hn]%NoDup_cons.
  intros [->|Hx]%elem_of_cons [->|Hy]%elem_of_cons He; [done|..|by apply IH];
    destruct Hz; [rewrite He|rewrite <- He]; by apply list_elem_of_fmap_2.
Qed.

Lemma published_state_plan plans state plan :
  NoDup (map branch_path plans) -> holds_publication plans = false -> plan ∈ plans ->
  published_state plans state !! plan.(branch_path) = Some plan.(next)
  /\ plan.(apply) = None /\ plan.(conflict) = None.
Proof.
  intros Hn Hh Hin. unfold holds_publication in Hh. apply orb_false_iff in Hh as [H1 H2].
  rewrite <- not_true_iff_false, existsb_exists in H1, H2.
  assert (plan.(apply) = None) as Ha.
  { destruct plan.(apply) eqn:E; [|done]. destruct H1. exists plan. by rewrite <- list_elem_of_In, E. }
  assert (plan.(conflict) = None) as Hc.
  { destruct plan.(conflict) eqn:E; [|done]. destruct H2. exists plan. by rewrite <- list_elem_of_In, E. }
  split; [|done]. unfold published_state.
  fold (keep_next (fun plan => negb (is_none plan.(publish))) plans state).
  match goal with |- foldl _ ?s plans !! _ = _ => set (state' := s) end.
  fold (keep_next (fun plan => is_none plan.(publish) && is_none plan.(apply) && is_none plan.(conflict)) plans state').
  destruct plan.(publish) eqn:Ep.
  - rewrite keep_next_other; [apply keep_next_plan; [done..|by rewrite Ep]|].
    intros plan' Hin' He. assert (plan' = plan) as ->; [|by rewrite Ep].
    by eapply map_inj_on.
  - apply keep_next_plan; [done..|]. by rewrite Ep, Ha, Hc.
Qed.

Lemma published_state_other plans state p :
  p ∉ map branch_path plans -> published_state plans state !! p = state !! p.
Proof.
  intros Hp. unfold published_state. match goal with |- foldl ?f ?s plans !! _ = _ => set (state' := s) end.
  assert (forall plan, plan ∈ plans -> plan.(branch_path) <> p) as Hne.
  { intros plan Hin <-. by apply Hp, list_elem_of_fmap_2. }
  transitivity (state' !! p); [|unfold state'].
  - apply (keep_next_other (fun plan => is_none plan.(publish) && is_none plan.(apply) && is_none plan.(conflict))).
    intros plan Hin He. by destruct (Hne _ Hin).
  - apply (keep_next_other (fun plan => negb (is_none plan.(publish)))). intros plan Hin He. by destruct (Hne _ Hin).
Qed.

Lemma skip_pointer_next shared plan :
  skip_pointer shared plan = plan
  \/ let version := shared !! plan.(branch_path) in
     (skip_pointer shared plan).(next)
     = mkSyncRecord version version version plan.(next).(upstream_commit).
Proof. unfold skip_pointer. repeat case_match; auto. Qed.

(** Publication is recorded for what it was. When nothing holds a publication back, every
    path of the plans is recorded afterwards with the version saved here as the acknowledged one and with
    nothing pending between what was reconciled and what was written; no other record changes. *)
Theorem publication_recorded {Report} (repo : Git Report) shared upstream state unsaved
    transient transient' plans p :
  reconcile repo shared upstream state unsaved transient = (Ok plans, transient') ->
  holds_publication plans = false ->
  let state' := published_state plans state in
  if decide (p ∈ map branch_path plans) then
    exists n, state' !! p = Some n /\ n.(acknowledged) = shared !! p
      /\ n.(reconciled) = n.(applied) /\ n.(upstream_commit) = upstream.(commit)
  else state' !! p = state !! p.
Proof.
  intros Hr Hh state'. destruct (reconcile_rows _ _ _ _ _ _ _ _ Hr) as (Hs & Hrows & _).
  apply sorted_NoDup in Hs. case_decide as Hp; [|by apply published_state_other].
  apply list_elem_of_fmap in Hp as (plan & -> & Hin).
  destruct (published_state_plan plans state plan Hs Hh Hin) as (Hp & Ha & Hc). unfold state'. rewrite Hp.
  exists plan.(next). split; [done|].
  destruct (Hrows _ Hin) as (_ & plan' & Hrow & He). unfold RowAt in Hrow.
  pose proof (row_path _ _ _ _ _ _ _ _ Hrow) as Hpath.
  destruct (skip_pointer_next shared plan') as [E|E].
  - assert (plan = plan') as -> by congruence. by apply (row_settled _ _ _ _ _ _ _ _ Hrow).
  - rewrite <- He, Hpath in E. rewrite E. simpl. split_and!; [done..|]. by eapply row_commit.
Qed.

(** ** Concrete runs *)

(** A Git that stores three files and merges by joining both sides; the identity of a blob is
    its content. *)
Definition sample_git : Git unit :=
  mkGit (fun oid => if bool_decide (oid = u!"base") then inr [1%N]
                    else if bool_decide (oid = u!"ours") then inr [2%N]
                    else if bool_decide (oid = u!"theirs") then inr [3%N] else inl tt)
    (fun _ ours theirs => inr (Some 0%Z, ours ++ theirs)) tt inr.

Definition file_of (oid : str) : Object := (u!"100644", oid).

(** [both] changed on both sides, [mine] here, [gone] was deleted upstream. *)
Definition sample_base : gmap str Object :=
  list_to_map [(u!"both", file_of u!"base"); (u!"mine", file_of u!"base"); (u!"gone", file_of u!"base")].
Definition sample_shared : gmap str Object :=
  list_to_map [(u!"both", file_of u!"ours"); (u!"mine", file_of u!"ours"); (u!"gone", file_of u!"base")].
Definition sample_upstream : Upstream :=
  mkUpstream (Some u!"c1")
    (list_to_map [(u!"both", file_of u!"theirs"); (u!"mine", file_of u!"base")]).
Definition sample_state : SyncState := baseline_state (Some u!"c0") sample_base ∅.
Definition sample_plans : list PathPlan :=
  match fst (reconcile sample_git sample_shared sample_upstream sample_state ∅ ∅) with
  | Ok plans => plans
  | _ => []
  end.
Definition sample_transient : Transient :=
  snd (reconcile sample_git sample_shared sample_upstream sample_state ∅ ∅).

Lemma sample_run : reconcile sample_git sample_shared sample_upstream sample_state ∅ ∅ = (Ok sample_plans, sample_transient).
Proof. vm_compute. reflexivity. Qed.

(** The plans of the three paths: a merge to publish and write, a deletion to write, a version to
    publish. *)
Example sample_actions :
  map (fun plan => (plan.(branch_path), plan.(publish), plan.(apply))) sample_plans
  = [(u!"both", Some (Some (u!"100644", [2%N; 3%N])), Some (Some (u!"100644", [2%N; 3%N])));
     (u!"gone", None, Some None); (u!"mine", Some (Some (file_of u!"ours")), None)].
Proof. vm_compute. reflexivity. Qed.

Lemma sample_plan n plan : sample_plans !! n = Some plan -> plan ∈ sample_plans.
Proof. apply list_elem_of_lookup_2. Qed.

Definition plan_at (n : nat) : PathPlan :=
  default (idle [] None SyncRecord_default) (sample_plans !! n).

Lemma sample_plan_at n : n < length sample_plans -> plan_at n ∈ sample_plans.
Proof.
  intros H. unfold plan_at. destruct (sample_plans !! n) as [plan|] eqn:E; [by eapply sample_plan|].
  apply lookup_ge_None in E. lia.
Qed.

Lemma publication_safe_witness :
  (plan_at 2).(publish) = Some (Some (file_of u!"ours"))
  /\ (plan_at 2).(conflict) = None.
Proof.
  split; [vm_compute; reflexivity|].
  eapply (publication_safe sample_git sample_shared sample_upstream sample_state ∅ ∅ sample_transient
            sample_plans (plan_at 2) (Some (file_of u!"ours")) sample_run).
  - apply sample_plan_at. vm_compute. lia.
  - vm_compute. reflexivity.
Defined.

Lemma application_safe_witness :
  (plan_at 1).(apply) = Some None /\ (plan_at 1).(conflict) = None.
Proof.
  split; [vm_compute; reflexivity|].
  eapply (application_safe sample_git sample_shared sample_upstream sample_state ∅ ∅ sample_transient
            sample_plans (plan_at 1) None sample_run).
  - apply sample_plan_at. vm_compute. lia.
  - vm_compute. reflexivity.
Defined.

Lemma divergence_reported_example :
  (sample_shared !! u!"both" = (record_of sample_state u!"both").(acknowledged)
   /\ ~ incoming (sample_upstream.(files) !! u!"both") (record_of sample_state u!"both"))
  \/ exists plan, plan ∈ sample_plans /\ plan.(branch_path) = u!"both"
       /\ (is_noop plan = false \/ plan.(skipped) = Some NESTED_NOT_SHARED)
       /\ (plan.(conflict) <> None -> plan.(publish) = None /\ plan.(apply) = None).
Proof.
  apply (divergence_reported sample_git sample_shared sample_upstream sample_state ∅ ∅ sample_transient
           sample_plans u!"both" sample_run); [vm_compute; reflexivity|].
  vm_compute. discriminate.
Defined.

Lemma merge_clean_example :
  exists base_bytes ours theirs merged,
    cat_object sample_git u!"base" (∅ : Transient) = (Ok base_bytes, ∅)
    /\ cat_object sample_git u!"ours" (∅ : Transient) = (Ok ours, ∅)
    /\ cat_object sample_git u!"theirs" (∅ : Transient) = (Ok theirs, ∅)
    /\ merged = ours ++ theirs.
Proof.
  destruct (merge_clean sample_git (file_of u!"base") (file_of u!"ours") (file_of u!"theirs")
    (u!"100644", [2%N; 3%N]) (∅ : Transient) ({[ [2%N; 3%N] := [2%N; 3%N] ]} : Transient))
    as (b & o & t & m & Hb & Ho & Ht & _ & Hm & _); [vm_compute; reflexivity|discriminate|].
  exists b, o, t, m. split_and!; try done. by injection Hm as <-.
Defined.

Lemma content_list (l : list (str * Object)) :
  forallb (fun e => negb (is_gitlink (Some e.2))) l = true -> content (list_to_map l).
Proof.
  intros H p. destruct (list_to_map l !! p) as [o|] eqn:E; [|done].
  apply elem_of_list_to_map_2 in E. rewrite forallb_forall in H.
  apply list_elem_of_In in E. specialize (H _ E). by apply negb_true_iff in H.
Qed.

Lemma sync_settles_witness :
  exists plans2 plans3,
    let shared' := carry apply sample_shared sample_plans in
    let upstream' := mkUpstream (Some u!"c2") (carry publish sample_upstream.(files) plans2) in
    shared' !! u!"both" = Some (u!"100644", [2%N; 3%N])
    /\ upstream'.(files) !! u!"both" = Some (u!"100644", [2%N; 3%N])
    /\ reconcile sample_git shared' upstream' (baseline_state None upstream'.(files) ∅) ∅ ∅
       = (Ok plans3, ∅)
    /\ forallb is_noop plans3 = true.
Proof.
  destruct (sync_settles sample_git (Some u!"c0") sample_base ∅ sample_shared sample_upstream ∅ ∅
    sample_transient sample_plans) as [_ H].
  - by apply content_list.
  - by apply content_list.
  - exact sample_run.
  - intros plan Hin. apply list_elem_of_In in Hin. vm_compute in Hin.
    repeat destruct Hin as [<-|Hin]; done.
  - destruct (H (Some u!"c1") None (Some u!"c2") ∅ ∅ ∅ ∅) as (plans2 & _ & _ & Hp & plans3 & H3 & Hn).
    exists plans2, plans3. split_and!; [vm_compute; reflexivity| |exact H3|exact Hn].
    etransitivity; [apply Hp; vm_compute; reflexivity|vm_compute; reflexivity].
Defined.

(** The same saved files against an origin that did not move: only publications. *)
Definition quiet_upstream : Upstream := mkUpstream None sample_base.
Definition quiet_plans : list PathPlan :=
  match fst (reconcile sample_git sample_shared quiet_upstream sample_state ∅ ∅) with
  | Ok plans => plans
  | _ => []
  end.

Lemma quiet_run : reconcile sample_git sample_shared quiet_upstream sample_state ∅ ∅ = (Ok quiet_plans, ∅).
Proof. vm_compute. reflexivity. Qed.

Lemma publication_recorded_example :
  holds_publication quiet_plans = false
  /\ exists n, published_state quiet_plans sample_state !! u!"mine" = Some n
       /\ n.(acknowledged) = Some (file_of u!"ours").
Proof.
  assert (holds_publication quiet_plans = false) as Hh by (vm_compute; reflexivity). split; [done|].
  pose proof (publication_recorded sample_git _ _ _ _ _ _ quiet_plans u!"mine" quiet_run Hh) as H.
  rewrite decide_True in H.
  - destruct H as (n & Hn & Ha & _). exists n. split; [exact Hn|]. rewrite Ha. vm_compute. reflexivity.
  - apply list_elem_of_In. vm_compute. auto.
Defined.
