(* ===== verification/Bootstrap.v ===== *)
(** * The bootstrap resource graph ([crates/mise-bootstrap/src/plan.rs], [policy.rs],
    [resource.rs], [state.rs])

    Resources are kept in declaration order with what they depend on; the policies add
    dependencies, and [ordered] sorts the graph. An [IndexMap] is the list of its entries in
    insertion order. A [usize] counter is a natural number: it counts entries of lists in memory.

    Rust's panics ([unreachable!], [expect], indexing, a counter below zero) are failures of
    their own, so that their absence can be proved. *)

From S2P Require Import Prelude RustStr Utf8.

(** ** Resources *)

Record ResourceId := mkResourceId { id_kind : str; id_name : str }.

#[export] Instance ResourceId_eq_dec : EqDecision ResourceId.
Proof. solve_decision. Defined.

#[export] Instance ResourceId_countable : Countable ResourceId.
Proof.
  apply (inj_countable' (fun r => (r.(id_kind), r.(id_name))) (fun p => mkResourceId p.1 p.2)).
  by intros [].
Defined.

(** [Display] *)
Definition ResourceId_text (r : ResourceId) : str := r.(id_kind) ++ u!":" ++ r.(id_name).

Inductive ResourceAction : Type := Create | Update | Remove | Noop | Unknown.

Inductive AccountState : Type := AccountPresent | AccountAbsent.
Inductive ManagedState : Type := ManagedPresent | ManagedAbsent.
Inductive ManagedFilePhase : Type := PrePackages | PostPackages.

#[export] Instance ManagedFilePhase_eq_dec : EqDecision ManagedFilePhase.
Proof. solve_decision. Defined.

(** A path is its bytes, as on Unix. *)
Abbreviation PathBuf := (list N) (only parsing).

Record ResourceOrigin := mkResourceOrigin {
  config : PathBuf;
  config_root : PathBuf;
  environment : list str;
  source : option PathBuf
}.

Record ResourcePlan := mkResourcePlan {
  id : ResourceId;
  current : str;
  desired : str;
  action : ResourceAction;
  origin : option ResourceOrigin;
  depends_on : list ResourceId;
  order_after : list ResourceId;
  phase : option ManagedFilePhase
}.

Definition ResourcePlan_new (id : ResourceId) (current desired : str) (action : ResourceAction) : ResourcePlan :=
  mkResourcePlan id current desired action None [] [] None.

Definition with_origin (r : ResourcePlan) (o : ResourceOrigin) : ResourcePlan :=
  mkResourcePlan r.(id) r.(current) r.(desired) r.(action) (Some o) r.(depends_on) r.(order_after) r.(phase).

Definition with_file_phase (r : ResourcePlan) (p : ManagedFilePhase) : ResourcePlan :=
  mkResourcePlan r.(id) r.(current) r.(desired) r.(action) r.(origin) r.(depends_on) r.(order_after) (Some p).

Definition set_depends_on (r : ResourcePlan) (ds : list ResourceId) : ResourcePlan :=
  mkResourcePlan r.(id) r.(current) r.(desired) r.(action) r.(origin) ds r.(order_after) r.(phase).

Definition set_order_after (r : ResourcePlan) (ds : list ResourceId) : ResourcePlan :=
  mkResourcePlan r.(id) r.(current) r.(desired) r.(action) r.(origin) r.(depends_on) ds r.(phase).

(** ** The plan *)

Inductive PlanError : Type :=
| DuplicateResource (r : ResourceId)
| MissingForDependency (r : ResourceId)
| MissingForOrdering (r : ResourceId)
| MissingDependency (r dependency : ResourceId)
| DependencyCycle (rs : list ResourceId)
| OwnerAbsent (r : ResourceId) (owner : str)
| GroupAbsent (r : ResourceId) (group : str)
| ParentAbsent (child : ResourceId) (child_path parent_path : PathBuf)
| Panic (what : str).

(** A validated resource graph in declaration order. *)
Record BootstrapPlan := mkBootstrapPlan { resources : list (ResourceId * ResourcePlan) }.

Definition BootstrapPlan_default : BootstrapPlan := mkBootstrapPlan [].

Fixpoint im_find {V} (m : list (ResourceId * V)) (r : ResourceId) : option V :=
  match m with
  | [] => None
  | (k, v) :: m' => if bool_decide (k = r) then Some v else im_find m' r
  end.

(** What [get_mut] is used for: the value of a key that is there is replaced in its place. *)
Definition im_update {V} (m : list (ResourceId * V)) (r : ResourceId) (v : V) : list (ResourceId * V) :=
  map (fun e => if bool_decide (e.1 = r) then (e.1, v) else e) m.

Definition plan_get (p : BootstrapPlan) (r : ResourceId) : option ResourcePlan := im_find p.(resources) r.

Definition plan_contains (p : BootstrapPlan) (r : ResourceId) : bool :=
  match plan_get p r with Some _ => true | None => false end.

Definition ids (p : BootstrapPlan) : list ResourceId := map fst p.(resources).
Definition values (p : BootstrapPlan) : list ResourcePlan := map snd p.(resources).

Definition insert_resource (p : BootstrapPlan) (r : ResourcePlan) : result PlanError BootstrapPlan :=
  if plan_contains p r.(id) then Err (DuplicateResource r.(id))
  else Ok (mkBootstrapPlan (p.(resources) ++ [(r.(id), r)])).

Definition add_dependency (p : BootstrapPlan) (r dependency : ResourceId) : result PlanError BootstrapPlan :=
  match plan_get p r with
  | None => Err (MissingForDependency r)
  | Some resource =>
      if bool_decide (dependency ∈ resource.(depends_on)) then Ok p
      else Ok (mkBootstrapPlan (im_update p.(resources) r
                 (set_depends_on resource (resource.(depends_on) ++ [dependency]))))
  end.

Definition add_ordering (p : BootstrapPlan) (r predecessor : ResourceId) : result PlanError BootstrapPlan :=
  match plan_get p r with
  | None => Err (MissingForOrdering r)
  | Some resource =>
      if bool_decide (predecessor ∈ resource.(order_after)) then Ok p
      else Ok (mkBootstrapPlan (im_update p.(resources) r
                 (set_order_after resource (resource.(order_after) ++ [predecessor]))))
  end.

(** ** Sorting *)

Abbreviation Counts := (list (ResourceId * nat)).
Abbreviation Outgoing := (gmap ResourceId (list ResourceId)).

Definition no_incoming : str := u!"every resource was added to incoming".
Definition dependent_present : str := u!"dependent resource is present".
Definition below_zero : str := u!"attempt to subtract with overflow".
Definition not_found : str := u!"IndexMap: key not found".

(** The dependencies of one resource. *)
Fixpoint count_dependencies (p : BootstrapPlan) (r : ResourceId) (dependencies : list ResourceId)
    (incoming : Counts) (outgoing : Outgoing) : result PlanError (Counts * Outgoing) :=
  match dependencies with
  | [] => Ok (incoming, outgoing)
  | dependency :: rest =>
      match im_find incoming r with
      | None => Err (Panic no_incoming)
      | Some count =>
          if negb (plan_contains p dependency) then Err (MissingDependency r dependency)
          else count_dependencies p r rest (im_update incoming r (S count))
                 (<[dependency := default [] (outgoing !! dependency) ++ [r]]> outgoing)
      end
  end.

Fixpoint count_resources (p : BootstrapPlan) (rs : list ResourcePlan)
    (incoming : Counts) (outgoing : Outgoing) : result PlanError (Counts * Outgoing) :=
  match rs with
  | [] => Ok (incoming, outgoing)
  | r :: rs =>
      let? (incoming, outgoing) :=
        count_dependencies p r.(id) (r.(depends_on) ++ r.(order_after)) incoming outgoing in
      count_resources p rs incoming outgoing
  end.

(** The dependents of a resource that has been ordered. *)
Fixpoint release_dependents (dependents : list ResourceId) (incoming : Counts) (ready : list ResourceId)
  : result PlanError (Counts * list ResourceId) :=
  match dependents with
  | [] => Ok (incoming, ready)
  | dependent :: rest =>
      match im_find incoming dependent with
      | None => Err (Panic dependent_present)
      | Some 0 => Err (Panic below_zero)
      | Some (S count) =>
          let incoming := im_update incoming dependent count in
          release_dependents rest incoming (if count =? 0 then ready ++ [dependent] else ready)
      end
  end.

(** The [while] loop; [ordered] is what has been pushed so far. *)
Fixpoint order_loop (fuel : nat) (p : BootstrapPlan) (outgoing : Outgoing) (incoming : Counts)
    (ready : list ResourceId) (ordered : list ResourcePlan)
  : result PlanError (Counts * list ResourcePlan) :=
  match fuel with
  | 0 => OutOfFuel
  | S fuel =>
      match ready with
      | [] => Ok (incoming, ordered)
      | r :: ready =>
          match plan_get p r with
          | None => Err (Panic not_found)
          | Some resource =>
              let? (incoming, ready) :=
                match outgoing !! r with
                | Some dependents => release_dependents dependents incoming ready
                | None => Ok (incoming, ready)
                end in
              order_loop fuel p outgoing incoming ready (ordered ++ [resource])
          end
      end
  end.

Definition ordered (p : BootstrapPlan) : result PlanError (list ResourcePlan) :=
  let? (incoming, outgoing) := count_resources p (values p) (map (fun r => (r, 0)) (ids p)) ∅ in
  let ready := map fst (List.filter (fun e => e.2 =? 0) incoming) in
  let? (incoming, sorted) := order_loop (S (length (resources p))) p outgoing incoming ready [] in
  if negb (length sorted =? length p.(resources)) then
    Err (DependencyCycle (map fst (List.filter (fun e => 0 <? e.2) incoming)))
  else Ok sorted.

(** ** Output *)

Record PlanSummary := mkPlanSummary {
  create : nat; update : nat; remove : nat; unchanged : nat; unknown : nat
}.

Definition PlanSummary_default : PlanSummary := mkPlanSummary 0 0 0 0 0.

Definition PlanSummary_add (s : PlanSummary) (a : ResourceAction) : PlanSummary :=
  let '(mkPlanSummary c u r n k) := s in
  match a with
  | Create => mkPlanSummary (S c) u r n k
  | Update => mkPlanSummary c (S u) r n k
  | Remove => mkPlanSummary c u (S r) n k
  | Noop => mkPlanSummary c u r (S n) k
  | Unknown => mkPlanSummary c u r n (S k)
  end.

Definition has_changes (s : PlanSummary) : bool := 0 <? s.(create) + s.(update) + s.(remove).
Definition has_unknown (s : PlanSummary) : bool := 0 <? s.(unknown).

Record BootstrapPlanOutput := mkBootstrapPlanOutput {
  output_resources : list ResourcePlan;
  summary : PlanSummary
}.

Definition output (p : BootstrapPlan) : result PlanError BootstrapPlanOutput :=
  let? resources := ordered p in
  Ok (mkBootstrapPlanOutput resources
        (fold_left (fun s r => PlanSummary_add s r.(action)) resources PlanSummary_default)).

(** ** Policies *)

(** A loop whose body changes the plan or fails. *)
Fixpoint for_each {A} (body : BootstrapPlan -> A -> result PlanError BootstrapPlan) (l : list A)
    (p : BootstrapPlan) : result PlanError BootstrapPlan :=
  match l with
  | [] => Ok p
  | x :: l => let? p := body p x in for_each body l p
  end.

(** The resources of a phase. *)
Definition in_phase (ph : ManagedFilePhase) (p : BootstrapPlan) : list ResourceId :=
  map id (List.filter (fun r => bool_decide (r.(phase) = Some ph)) (values p)).

Definition add_file_phase_ordering (p : BootstrapPlan) (packages : list ResourceId)
  : result PlanError BootstrapPlan :=
  let early := in_phase PrePackages p in
  let late := in_phase PostPackages p in
  let? p := for_each (fun p package => for_each (fun p file => add_ordering p package file) early p)
              packages p in
  let? p := for_each (fun p file =>
              for_each (fun p dependency => add_ordering p file dependency) (packages ++ early) p) late p in
  let plugin_packages :=
    List.filter (fun r => bool_decide (r.(id_kind) = u!"package") && negb (bool_decide (r ∈ packages))) (ids p) in
  for_each (fun p package =>
    for_each (fun p predecessor => add_ordering p package predecessor) (early ++ late ++ packages) p)
    plugin_packages p.

Definition add_account_dependencies (p : BootstrapPlan) (r : ResourceId) (state : ManagedState)
    (owner group : option str) (user_states group_states : gmap str AccountState)
  : result PlanError BootstrapPlan :=
  match state with
  | ManagedAbsent => Ok p
  | ManagedPresent =>
      let? p :=
        match owner with
        | Some owner =>
            match user_states !! owner with
            | Some AccountPresent => add_dependency p r (mkResourceId u!"user" owner)
            | Some AccountAbsent => Err (OwnerAbsent r owner)
            | None => Ok p
            end
        | None => Ok p
        end in
      match group with
      | Some group =>
          match group_states !! group with
          | Some AccountPresent => add_dependency p r (mkResourceId u!"group" group)
          | Some AccountAbsent => Err (GroupAbsent r group)
          | None => Ok p
          end
      | None => Ok p
      end
  end.

(** [parent_text] is [parent_path.to_string_lossy()]. *)
Definition add_managed_parent_dependency (p : BootstrapPlan) (child : ResourceId) (child_path : PathBuf)
    (child_state : ManagedState) (parent_path : PathBuf) (parent_state : ManagedState)
  : result PlanError BootstrapPlan :=
  let parent := mkResourceId u!"directory" (from_utf8_lossy parent_path) in
  match child_state, parent_state with
  | ManagedPresent, ManagedPresent => add_dependency p child parent
  | ManagedAbsent, ManagedAbsent => add_dependency p parent child
  | ManagedPresent, ManagedAbsent => Err (ParentAbsent child child_path parent_path)
  | ManagedAbsent, ManagedPresent => Ok p
  end.

(** ** Texts *)

Definition quoted (s : str) : str := u!"'" ++ s ++ u!"'".

(** The messages of [bail!]. *)
Definition PlanError_text (e : PlanError) : str :=
  match e with
  | DuplicateResource r =>
      u!"bootstrap resource " ++ quoted (ResourceId_text r) ++ u!" is declared more than once"
  | MissingForDependency r =>
      u!"cannot add dependency to missing bootstrap resource " ++ quoted (ResourceId_text r)
  | MissingForOrdering r => u!"cannot order missing bootstrap resource " ++ quoted (ResourceId_text r)
  | MissingDependency r d =>
      u!"bootstrap resource " ++ quoted (ResourceId_text r) ++ u!" depends on missing resource "
        ++ quoted (ResourceId_text d)
  | DependencyCycle rs => u!"bootstrap resource dependency cycle: " ++ join u!", " (map ResourceId_text rs)
  | OwnerAbsent r owner =>
      u!"bootstrap resource " ++ quoted (ResourceId_text r) ++ u!" requires owner " ++ quoted owner
        ++ u!", but that user is absent"
  | GroupAbsent r group =>
      u!"bootstrap resource " ++ quoted (ResourceId_text r) ++ u!" requires group " ++ quoted group
        ++ u!", but that group is absent"
  | ParentAbsent child child_path parent_path =>
      child.(id_kind) ++ u!" " ++ quoted (from_utf8_lossy child_path)
        ++ u!" cannot be present while managed parent " ++ quoted (from_utf8_lossy parent_path)
        ++ u!" is absent"
  | Panic what => what
  end.

(** [conflict_description] *)
Definition conflict_description (o : ResourceOrigin) : str :=
  u!"config: " ++ from_utf8_lossy o.(config)
  ++ match o.(source) with
     | Some source => [10%N] ++ u!"    source: " ++ from_utf8_lossy source
     | None => []
     end.

Definition ENCODED_PATH_PREFIX : str := u!"mise:path-".

(** [path_json_string] on Unix, with the URL-safe unpadded base64 of the [base64] crate given. *)
Definition path_json_string (base64 : list N -> str) (path : PathBuf) : str :=
  match from_utf8 path with
  | Some text =>
      if negb (starts_with ENCODED_PATH_PREFIX text) then text
      else ENCODED_PATH_PREFIX ++ u!"bytes:" ++ base64 path
  | None => ENCODED_PATH_PREFIX ++ u!"bytes:" ++ base64 path
  end.
