(* ===== verification/BootstrapSpec.v ===== *)
(** * The bootstrap resource graph is sorted

    [ordered] against its meaning: a permutation of the declared resources in which what a
    resource depends on comes first, or the dependency that is not declared, or exactly the
    resources that a cycle keeps from being ordered. *)

From S2P Require Import Prelude RustStr Utf8 Bootstrap.

(** ** Keys *)

Lemma im_find_update {V} (m : list (ResourceId * V)) r v k :
  im_find (im_update m r v) k
  = if decide (k = r) then match im_find m r with Some _ => Some v | None => None end else im_find m k.
Proof.
  induction m as [|[a b] m IH]; simpl; [by case_decide|].
  destruct (bool_decide_reflect (a = r)) as [->|Hne]; simpl.
  - destruct (bool_decide_reflect (r = k)) as [->|]; [by rewrite decide_True|]. by rewrite decide_False in IH |- *.
  - rewrite IH. destruct (bool_decide_reflect (a = k)) as [->|]; [by rewrite decide_False|done].
Qed.

Lemma keys_update {V} (m : list (ResourceId * V)) r v : map fst (im_update m r v) = map fst m.
Proof. unfold im_update. rewrite map_map. apply map_ext. intros [a b]. simpl. by case_bool_decide. Qed.

Lemma im_find_keys {V} (m : list (ResourceId * V)) r : is_Some (im_find m r) <-> r ∈ map fst m.
Proof.
  induction m as [|[a b] m IH]; simpl.
  - split; [by intros []|by intros ?%elem_of_nil].
  - rewrite elem_of_cons. destruct (bool_decide_reflect (a = r)) as [->|Hne]; [naive_solver|].
    rewrite IH. naive_solver.
Qed.

Lemma im_find_In {V} (m : list (ResourceId * V)) r v : im_find m r = Some v -> (r, v) ∈ m.
Proof.
  induction m as [|[a b] m IH]; simpl; [done|].
  destruct (bool_decide_reflect (a = r)) as [->|]; intros H; [injection H as ->; apply list_elem_of_here|].
  by apply list_elem_of_further, IH.
Qed.

Lemma In_im_find {V} (m : list (ResourceId * V)) r v : NoDup (map fst m) -> (r, v) ∈ m -> im_find m r = Some v.
Proof.
  induction m as [|[a b] m IH]; simpl; [by intros _ ?%elem_of_nil|].
  intros [Ha Hn]%NoDup_cons [[= -> ->]|Hin]%elem_of_cons; [by rewrite bool_decide_eq_true_2|].
  rewrite bool_decide_eq_false_2; [by apply IH|]. intros ->. apply Ha.
  apply list_elem_of_fmap. by exists (r, v).
Qed.

Lemma filter_keys_sublist {V} (f : ResourceId * V -> bool) m : map fst (List.filter f m) `sublist_of` map fst m.
Proof. induction m as [|e m IH]; simpl; [done|]. destruct (f e); simpl; by constructor. Qed.

Lemma elem_of_filter_keys {V} (f : V -> bool) (m : list (ResourceId * V)) x :
  NoDup (map fst m) ->
  x ∈ map fst (List.filter (fun e => f e.2) m) <-> exists v, im_find m x = Some v /\ f v = true.
Proof.
  intros Hn. rewrite list_elem_of_fmap. split.
  - intros ([y v] & -> & H). rewrite list_elem_of_In, filter_In, <- list_elem_of_In in H.
    exists v. split; [apply In_im_find; [done|apply H]|apply H].
  - intros (v & Hv & Hf). exists (x, v). split; [done|].
    rewrite list_elem_of_In, filter_In, <- list_elem_of_In. split; [by apply im_find_In|done].
Qed.

(** ** Well-formed plans *)

Definition WF (p : BootstrapPlan) : Prop :=
  NoDup (ids p) /\ Forall (fun e => e.1 = e.2.(id)) p.(resources).

Definition dependencies (r : ResourcePlan) : list ResourceId := r.(depends_on) ++ r.(order_after).

Definition dependencies_at (p : BootstrapPlan) (r : ResourceId) : list ResourceId :=
  match plan_get p r with Some x => dependencies x | None => [] end.

(** [r] comes after [d]. *)
Definition Needs (p : BootstrapPlan) (r d : ResourceId) : Prop := d ∈ dependencies_at p r.

Lemma plan_contains_ids p r : plan_contains p r = true <-> r ∈ ids p.
Proof.
  unfold plan_contains, ids, plan_get. rewrite <- im_find_keys.
  destruct (im_find _ r); split; intros H; try done.
Qed.

Lemma plan_get_id p r x : WF p -> plan_get p r = Some x -> x.(id) = r.
Proof.
  intros [_ Hw] H. apply im_find_In in H. rewrite Forall_forall in Hw. symmetry. by apply (Hw _ H).
Qed.

Lemma plan_get_value p x : WF p -> x ∈ values p -> plan_get p x.(id) = Some x.
Proof.
  intros [Hn Hw] Hx. unfold values in Hx. apply list_elem_of_fmap in Hx as ([r y] & -> & Hin). simpl.
  rewrite Forall_forall in Hw. pose proof (Hw _ Hin) as He. simpl in He. subst r. by apply In_im_find.
Qed.

Lemma ids_values p : WF p -> ids p = map id (values p).
Proof.
  intros [_ Hw]. unfold ids, values. rewrite map_map.
  induction Hw as [|e l He _ IH]; simpl; congruence.
Qed.

(** ** Counting *)

Abbreviation occ l x := (count_occ (fun a b : ResourceId => decide (a = b)) l x).

Lemma occ_pos (l : list ResourceId) x : 0 < occ l x <-> x ∈ l.
Proof. rewrite list_elem_of_In. split; apply count_occ_In. Qed.

Lemma occ_0 (l : list ResourceId) x : occ l x = 0 <-> x ∉ l.
Proof. rewrite <- occ_pos. lia. Qed.

Lemma count_dependencies_spec p r ds incoming outgoing c :
  im_find incoming r = Some c ->
  match count_dependencies p r ds incoming outgoing with
  | Ok (incoming', outgoing') =>
      (forall d, d ∈ ds -> d ∈ ids p)
      /\ map fst incoming' = map fst incoming
      /\ (forall x, im_find incoming' x = if decide (x = r) then Some (c + length ds) else im_find incoming x)
      /\ (forall d x, occ (default [] (outgoing' !! d)) x
            = occ (default [] (outgoing !! d)) x + if decide (x = r) then occ ds d else 0)
  | Err e => exists d, e = MissingDependency r d /\ d ∈ ds /\ d ∉ ids p
  | OutOfFuel => False
  end.
Proof.
  revert incoming outgoing c. induction ds as [|d ds IH]; intros incoming outgoing c Hc; simpl.
  - split_and!; [set_solver|done| |].
    + intros x. case_decide; [subst; by rewrite Nat.add_0_r|done].
    + intros d x. case_decide; lia.
  - rewrite Hc. destruct (plan_contains p d) eqn:Hd; simpl.
    + apply plan_contains_ids in Hd.
      assert (im_find (im_update incoming r (S c)) r = Some (S c)) as Hc'
        by (by rewrite im_find_update, decide_True, Hc).
      specialize (IH _ (<[d := default [] (outgoing !! d) ++ [r]]> outgoing) _ Hc').
      destruct (count_dependencies _ _ _ _ _) as [[incoming' outgoing']|e|]; [|set_solver|done].
      destruct IH as (Hin & Hk & Hi & Ho). split_and!.
      * set_solver.
      * by rewrite Hk, keys_update.
      * intros x. rewrite Hi. case_decide; [f_equal; lia|]. by rewrite im_find_update, decide_False.
      * intros d' x. rewrite Ho. destruct (decide (d = d')) as [->|Hne].
        -- rewrite lookup_insert_eq. simpl. rewrite count_occ_app. simpl.
           destruct (decide (r = x)) as [->|Hx]; [rewrite !decide_True by done; lia|].
           rewrite !(decide_False (P := x = r)) by congruence. lia.
        -- rewrite lookup_insert_ne by done. done.
    + exists d. split_and!; [done|set_solver|]. rewrite <- plan_contains_ids. congruence.
Qed.

Lemma count_resources_spec p rs incoming outgoing :
  NoDup (map id rs) -> (forall r, r ∈ rs -> id r ∈ map fst incoming) ->
  match count_resources p rs incoming outgoing with
  | Ok (incoming', outgoing') =>
      (forall r d, r ∈ rs -> d ∈ dependencies r -> d ∈ ids p)
      /\ map fst incoming' = map fst incoming
      /\ (forall r c, r ∈ rs -> im_find incoming (id r) = Some c ->
            im_find incoming' (id r) = Some (c + length (dependencies r)))
      /\ (forall d r, r ∈ rs -> occ (default [] (outgoing' !! d)) (id r)
            = occ (default [] (outgoing !! d)) (id r) + occ (dependencies r) d)
      /\ (forall x, x ∉ map id rs -> im_find incoming' x = im_find incoming x
            /\ forall d, occ (default [] (outgoing' !! d)) x = occ (default [] (outgoing !! d)) x)
  | Err e => exists r d, e = MissingDependency r.(id) d /\ r ∈ rs /\ d ∈ dependencies r /\ d ∉ ids p
  | OutOfFuel => False
  end.
Proof.
  revert incoming outgoing. induction rs as [|r rs IH]; intros incoming outgoing Hn Hin; simpl.
  { split_and!; try done; intros; by match goal with H : _ ∈ [] |- _ => apply elem_of_nil in H end. }
  apply NoDup_cons in Hn as [Hr Hn].
  destruct (proj2 (im_find_keys incoming (id r)) (Hin r (list_elem_of_here _ _))) as [c Hc].
  pose proof (count_dependencies_spec p (id r) (dependencies r) incoming outgoing c Hc) as H1.
  unfold dependencies in H1 at 1. unfold rbind.
  destruct (count_dependencies _ _ _ _ _) as [[incoming1 outgoing1]|e|]; [| |done].
  - destruct H1 as (Hd & Hk & Hi & Ho).
    assert (forall r', r' ∈ rs -> id r' <> id r) as Hne.
    { intros r' Hr' He. apply Hr. rewrite <- He. by apply list_elem_of_fmap_2. }
    specialize (IH incoming1 outgoing1 Hn). rewrite Hk in IH.
    specialize (IH (fun r' H => Hin r' (list_elem_of_further _ _ _ H))).
    destruct (count_resources _ _ _ _) as [[incoming' outgoing']|e|]; [|set_solver|done].
    destruct IH as (Hd2 & Hk2 & Hi2 & Ho2 & Hx2). split_and!.
    + intros r' d [->|Hr']%elem_of_cons; [apply Hd|by apply Hd2].
    + done.
    + intros r' c' [->|Hr']%elem_of_cons Hc'.
      * destruct (Hx2 _ Hr) as [-> _]. rewrite Hi, decide_True by done. congruence.
      * apply Hi2; [done|]. by rewrite Hi, decide_False by by apply Hne.
    + intros d r' [->|Hr']%elem_of_cons.
      * destruct (Hx2 _ Hr) as [_ ->]. by rewrite Ho, decide_True.
      * rewrite Ho2 by done. rewrite Ho, decide_False by by apply Hne. lia.
    + intros x [Hx Hx']%not_elem_of_cons. destruct (Hx2 _ Hx') as [-> He]. split.
      * by rewrite Hi, decide_False.
      * intros d. rewrite He, Ho, decide_False by done. lia.
  - destruct H1 as (d & -> & H1 & H2). exists r, d. split_and!; [done|apply list_elem_of_here|done..].
Qed.

(** ** One step of the loop *)

Lemma release_spec ds incoming ready :
  (forall x, x ∈ ds -> exists c, im_find incoming x = Some c /\ occ ds x <= c) ->
  exists incoming' pushed,
    release_dependents ds incoming ready = Ok (incoming', ready ++ pushed)
    /\ map fst incoming' = map fst incoming
    /\ (forall x c, im_find incoming x = Some c -> im_find incoming' x = Some (c - occ ds x))
    /\ NoDup pushed /\ (forall x, x ∈ pushed <-> x ∈ ds /\ im_find incoming' x = Some 0).
Proof.
  revert incoming ready. induction ds as [|x ds IH]; intros incoming ready H; simpl.
  - exists incoming, []. split_and!; [by rewrite app_nil_r|done| |constructor|set_solver].
    intros x c ->. by rewrite Nat.sub_0_r.
  - destruct (H x (list_elem_of_here _ _)) as (c & Hc & Hle). simpl in Hle.
    rewrite decide_True in Hle by done. rewrite Hc. destruct c as [|c]; [lia|].
    set (incoming1 := im_update incoming x c).
    assert (forall y, im_find incoming1 y = if decide (y = x) then Some c else im_find incoming y) as H1.
    { intros y. unfold incoming1. by rewrite im_find_update, Hc. }
    destruct (IH incoming1 (if c =? 0 then ready ++ [x] else ready)) as (incoming' & pushed & -> & Hk & Hi & Hn & Hp).
    { intros y Hy. rewrite H1. case_decide as Hd; [subst; exists c; split; [done|lia]|].
      destruct (H y (list_elem_of_further _ _ _ Hy)) as (cy & Hcy & Hl). simpl in Hl.
      rewrite decide_False in Hl by congruence. eauto. }
    exists incoming', (if c =? 0 then x :: pushed else pushed).
    assert (forall y c', im_find incoming y = Some c' ->
              im_find incoming' y = Some (c' - occ (x :: ds) y)) as Hi'.
    { intros y c' Hc'. rewrite (Hi y (if decide (y = x) then c else c')).
      - simpl. f_equal. case_decide as Hd; [subst y; rewrite decide_True by done|rewrite decide_False by congruence; done].
        assert (c' = S c) as -> by congruence. lia.
      - rewrite H1. by case_decide. }
    destruct (c =? 0) eqn:E0; bool_prop.
    + subst c. assert (x ∉ ds) as Hx by (apply occ_0; lia). split_and!.
      * by rewrite <- app_assoc.
      * rewrite Hk. apply keys_update.
      * done.
      * constructor; [|done]. rewrite Hp. tauto.
      * intros y. rewrite !elem_of_cons, Hp. split; [intros [->|[? ?]]; [|auto]|intros [[->|?] ?]; auto].
        split; [by left|]. rewrite (Hi' _ _ Hc). simpl. rewrite decide_True by done. f_equal; lia.
    + split_and!; [done|rewrite Hk; apply keys_update|done|done|].
      intros y. rewrite Hp, elem_of_cons. split; [intros [? ?]; auto|].
      intros [[->|?] Hz]; [|done]. split; [|done]. apply occ_pos.
      rewrite (Hi' _ _ Hc) in Hz. simpl in Hz. rewrite decide_True in Hz by done. injection Hz. lia.
Qed.

(** ** The loop *)

(** The dependencies of [x] that have not been ordered, with repetitions. *)
Definition waiting (p : BootstrapPlan) (done : list ResourceId) (x : ResourceId) : nat :=
  length (List.filter (fun d => negb (bool_decide (d ∈ done))) (dependencies_at p x)).

Lemma waiting_snoc p done r x :
  r ∉ done -> waiting p done x = waiting p (done ++ [r]) x + occ (dependencies_at p x) r.
Proof.
  intros Hr. unfold waiting. induction (dependencies_at p x) as [|d ds IH]; simpl; [done|].
  destruct (decide (d = r)) as [->|Hne].
  - rewrite (bool_decide_eq_false_2 (r ∈ done)), (bool_decide_eq_true_2 (r ∈ done ++ [r])) by set_solver.
    simpl. lia.
  - destruct (bool_decide_reflect (d ∈ done)) as [Hd|Hd].
    + rewrite bool_decide_eq_true_2 by set_solver. simpl. lia.
    + rewrite bool_decide_eq_false_2 by set_solver. simpl. lia.
Qed.

Lemma waiting_0 p done x : waiting p done x = 0 <-> forall d, Needs p x d -> d ∈ done.
Proof.
  unfold waiting, Needs. induction (dependencies_at p x) as [|d ds IH]; simpl.
  - split; [set_solver|done].
  - destruct (bool_decide_reflect (d ∈ done)); simpl; [|set_solver]. rewrite IH. set_solver.
Qed.

Lemma waiting_nil p x : waiting p [] x = length (dependencies_at p x).
Proof.
  unfold waiting. simpl. induction (dependencies_at p x) as [|d ds IH]; simpl; congruence.
Qed.

(** Everything a resource needs comes before it. *)
Definition sorted (p : BootstrapPlan) (l : list ResourceId) : Prop :=
  forall l1 r l2 d, l = l1 ++ r :: l2 -> Needs p r d -> d ∈ l1.

Lemma sorted_snoc p l r : sorted p l -> (forall d, Needs p r d -> d ∈ l) -> sorted p (l ++ [r]).
Proof.
  intros Hl Hr l1 x l2 d He Hd. destruct l2 as [|y l2 _] using rev_ind.
  - apply app_inj_tail in He as [-> ->]. by apply Hr.
  - rewrite app_comm_cons, app_assoc in He. apply app_inj_tail in He as [He _]. by eapply Hl.
Qed.

Record Progress (p : BootstrapPlan) (done ready : list ResourceId) (incoming : Counts) : Prop := {
  pr_keys : map fst incoming = ids p;
  pr_counts x : x ∈ ids p -> im_find incoming x = Some (waiting p done x);
  pr_nodup : NoDup (done ++ ready);
  pr_ready x : x ∈ done ++ ready <-> x ∈ ids p /\ waiting p done x = 0;
  pr_sorted : sorted p done
}.

(** [outgoing] lists the dependents of every resource. *)
Definition Dependents (p : BootstrapPlan) (outgoing : Outgoing) : Prop :=
  forall d x, occ (default [] (outgoing !! d)) x = occ (dependencies_at p x) d.

Lemma progress_step p outgoing done r ready incoming :
  Dependents p outgoing -> Progress p done (r :: ready) incoming ->
  exists incoming' ready',
    release_dependents (default [] (outgoing !! r)) incoming ready = Ok (incoming', ready')
    /\ Progress p (done ++ [r]) ready' incoming'.
Proof.
  intros Ho [Hk Hc Hn Hr Hs].
  assert (r ∉ done) as Hrd by (apply NoDup_app in Hn as (_ & Hn & _); set_solver).
  assert (forall x, x ∈ default [] (outgoing !! r) -> x ∈ ids p) as Hds.
  { intros x Hx. apply occ_pos in Hx. rewrite Ho in Hx. apply occ_pos in Hx.
    rewrite <- plan_contains_ids. unfold dependencies_at in Hx. unfold plan_contains.
    destruct (plan_get p x); [done|by apply elem_of_nil in Hx]. }
  destruct (release_spec (default [] (outgoing !! r)) incoming ready) as (incoming' & pushed & -> & Hk' & Hi & Hnp & Hp).
  { intros x Hx. exists (waiting p done x). split; [by apply Hc, Hds|]. rewrite Ho, (waiting_snoc p done r x) by done. lia. }
  exists incoming', (ready ++ pushed). split; [done|].
  assert (forall x, x ∈ ids p -> im_find incoming' x = Some (waiting p (done ++ [r]) x)) as Hc'.
  { intros x Hx. rewrite (Hi x _ (Hc x Hx)), Ho, (waiting_snoc p done r x) by done. f_equal. lia. }
  assert (forall x, x ∈ pushed -> x ∈ ids p /\ waiting p (done ++ [r]) x = 0 /\ x ∉ done ++ r :: ready) as Hpush.
  { intros x [Hx Hz]%Hp. pose proof (Hds x Hx) as Hxi. rewrite (Hc' x Hxi) in Hz. split_and!; [done|congruence|].
    rewrite Hr. intros [_ Hw]. apply occ_pos in Hx. rewrite Ho in Hx.
    rewrite (waiting_snoc p done r x) in Hw by done. lia. }
  replace ((done ++ [r]) ++ ready ++ pushed) with ((done ++ r :: ready) ++ pushed) by (by rewrite <- !app_assoc).
  split.
  - congruence.
  - done.
  - replace ((done ++ [r]) ++ ready ++ pushed) with ((done ++ r :: ready) ++ pushed) by (by rewrite <- !app_assoc).
    apply NoDup_app. split_and!; [done| |done]. intros x Hx Hx'. by apply (Hpush x Hx').
  - intros x. replace ((done ++ [r]) ++ ready ++ pushed) with ((done ++ r :: ready) ++ pushed) by (by rewrite <- !app_assoc).
    rewrite elem_of_app. split.
    + intros [Hx|Hx]; [|naive_solver]. apply Hr in Hx as [Hx Hw]. split; [done|].
      rewrite (waiting_snoc p done r x) in Hw by done. lia.
    + intros [Hx Hw]. destruct (decide (occ (dependencies_at p x) r = 0)) as [H0|H0].
      * left. apply Hr. split; [done|]. rewrite (waiting_snoc p done r x) by done. lia.
      * right. apply Hp. split; [|rewrite Hc' by done; congruence]. apply occ_pos. rewrite Ho. lia.
  - apply sorted_snoc; [done|]. apply waiting_0. assert (r ∈ done ++ r :: ready) as Hin by set_solver.
    by apply Hr in Hin as [_ ?].
Qed.

Lemma order_loop_spec p outgoing fuel done ready incoming l :
  WF p -> Dependents p outgoing -> Progress p done ready incoming ->
  map id l = done -> (forall x, x ∈ l -> x ∈ values p) -> length (ids p) < fuel + length done ->
  exists incoming' l',
    order_loop fuel p outgoing incoming ready l = Ok (incoming', l')
    /\ Progress p (map id l') [] incoming' /\ (forall x, x ∈ l' -> x ∈ values p).
Proof.
  intros Hw Ho. revert done ready incoming l. induction fuel as [|fuel IH]; intros done ready incoming l Hp Hl Hv Hf.
  - exfalso. assert (length done <= length (ids p)); [|lia].
    apply submseteq_length, NoDup_submseteq.
    + by destruct (proj1 (NoDup_app _ _) (pr_nodup _ _ _ _ Hp)).
    + intros x Hx. apply (pr_ready _ _ _ _ Hp). set_solver.
  - simpl. destruct ready as [|r ready]; [exists incoming, l; by subst done|].
    assert (r ∈ ids p) as Hr by (apply (pr_ready _ _ _ _ Hp r); set_solver).
    rewrite <- plan_contains_ids in Hr. unfold plan_contains in Hr.
    destruct (plan_get p r) as [x|] eqn:Hx; [|done].
    destruct (progress_step p outgoing done r ready incoming Ho Hp) as (incoming' & ready' & He & Hp').
    assert (match outgoing !! r with
            | Some dependents => release_dependents dependents incoming ready
            | None => Ok (incoming, ready)
            end = Ok (incoming', ready')) as -> by (by destruct (outgoing !! r)).
    apply (IH (done ++ [r])); [done| | |].
    + rewrite map_app, Hl. simpl. by rewrite (plan_get_id p r x).
    + intros y [Hy|Hy]%elem_of_app; [by apply Hv|]. apply list_elem_of_singleton in Hy as ->.
      apply im_find_In in Hx. apply list_elem_of_fmap. by exists (r, x).
    + rewrite length_app. simpl. lia.
Qed.

(** ** The order *)

(** A resource that a dependency cycle keeps from being ordered. *)
Definition stuck (p : BootstrapPlan) (r : ResourceId) : Prop :=
  exists c, rtc (Needs p) r c /\ tc (Needs p) c c.

(** Nothing sorted depends on a cycle. *)
Lemma sorted_acc p l r : sorted p l -> r ∈ l -> Acc (flip (Needs p)) r.
Proof.
  revert r. induction l as [|x l IH] using rev_ind; [by intros r _ ?%elem_of_nil|]. intros r Hs Hr.
  assert (sorted p l) as Hl by (intros l1 y l2 d -> Hd; apply (Hs l1 y (l2 ++ [x]) d); [by rewrite <- app_assoc|done]).
  apply elem_of_app in Hr as [Hr|Hr]; [by apply IH|]. apply list_elem_of_singleton in Hr as ->.
  constructor. intros d Hd. apply IH; [done|]. by apply (Hs l x [] d).
Qed.

(** What is left over when nothing is ready any more depends on a cycle. *)
Lemma unsorted_stuck p done r :
  (forall r d, Needs p r d -> d ∈ ids p) ->
  (forall x, x ∈ ids p /\ waiting p done x = 0 -> x ∈ done) ->
  r ∈ ids p -> r ∉ done -> stuck p r.
Proof.
  intros Hclosed Hall Hr Hout.
  set (X := List.filter (fun x => negb (bool_decide (x ∈ done))) (ids p)).
  assert (forall x, x ∈ X <-> x ∈ ids p /\ x ∉ done) as HX.
  { intros x. unfold X. rewrite list_elem_of_In, filter_In, <- list_elem_of_In.
    destruct (bool_decide_reflect (x ∈ done)); naive_solver. }
  apply (successors_cycle (Needs p) X) with (n := length X) (V := []); [|by apply HX|by intros ? ?%elem_of_nil|constructor|simpl; lia].
  intros x [Hx Hxd]%HX. destruct (decide (Exists (fun d => d ∉ done) (dependencies_at p x))) as [He|He].
  - apply Exists_exists in He as (d & Hd & Hdd). exists d. split; [|done]. apply HX. split; [by apply (Hclosed x)|done].
  - destruct Hxd. apply Hall. split; [done|]. apply waiting_0. intros d Hd.
    destruct (decide (d ∈ done)); [done|]. destruct He. apply Exists_exists. by exists d.
Qed.

Lemma count_plan p :
  WF p ->
  match count_resources p (values p) (map (fun r => (r, 0)) (ids p)) ∅ with
  | Ok (incoming, outgoing) =>
      Dependents p outgoing /\ (forall r d, Needs p r d -> d ∈ ids p)
      /\ map fst incoming = ids p
      /\ (forall x, x ∈ ids p -> im_find incoming x = Some (waiting p [] x))
  | Err e => exists r d, e = MissingDependency r d /\ Needs p r d /\ d ∉ ids p
  | OutOfFuel => False
  end.
Proof.
  intros Hw. pose proof (ids_values p Hw) as Hids.
  assert (map fst (map (fun r : ResourceId => (r, 0)) (ids p)) = ids p) as Hk0 by (rewrite map_map; apply map_id).
  pose proof (count_resources_spec p (values p) (map (fun r => (r, 0)) (ids p)) ∅) as H.
  rewrite Hk0, <- !Hids in H. specialize (H (proj1 Hw)).
  assert (forall r, r ∈ values p -> id r ∈ ids p) as Hin0
    by (intros r Hr; rewrite Hids; by apply list_elem_of_fmap_2).
  specialize (H Hin0).
  assert (forall r, r ∈ values p -> dependencies_at p r.(id) = dependencies r) as Hdep.
  { intros r Hr. unfold dependencies_at. by rewrite (plan_get_value p r). }
  assert (forall x, x ∈ ids p -> exists r, r ∈ values p /\ x = r.(id)) as Hval.
  { intros x Hx. rewrite Hids in Hx. apply list_elem_of_fmap in Hx as (r & -> & Hr). eauto. }
  assert (forall x, x ∉ ids p -> dependencies_at p x = []) as Hno.
  { intros x Hx. rewrite <- plan_contains_ids in Hx. unfold dependencies_at. unfold plan_contains in Hx.
    by destruct (plan_get p x). }
  destruct (count_resources _ _ _ _) as [[incoming outgoing]|e|]; [| |done].
  - destruct H as (Hd & Hk & Hi & Ho & Hx). split_and!.
    + intros d x. destruct (decide (x ∈ ids p)) as [Hin|Hout].
      * destruct (Hval x Hin) as (r & Hr & ->). rewrite Ho, lookup_empty, Hdep by done. done.
      * destruct (Hx x) as [_ ->]; [done|]. by rewrite lookup_empty, Hno.
    + intros r d Hnd. destruct (decide (r ∈ ids p)) as [Hin|Hout].
      * destruct (Hval r Hin) as (x & Hxv & ->). apply (Hd x); [done|]. unfold Needs in Hnd. by rewrite Hdep in Hnd.
      * unfold Needs in Hnd. rewrite Hno in Hnd by done. by apply elem_of_nil in Hnd.
    + by rewrite Hk.
    + intros x Hin. destruct (Hval x Hin) as (r & Hr & ->). rewrite (Hi r 0); [|done|].
      * by rewrite waiting_nil, Hdep.
      * apply In_im_find; [rewrite Hk0; apply Hw|]. apply list_elem_of_fmap. by exists (id r).
  - destruct H as (r & d & -> & Hr & Hd & Hn). exists r.(id), d. split_and!; [done| |done].
    unfold Needs. by rewrite Hdep.
Qed.

(** What [ordered] can give. *)
Definition Outcome (p : BootstrapPlan) (r : result PlanError (list ResourcePlan)) : Prop :=
  match r with
  | Ok l => l ≡ₚ values p /\ sorted p (map id l)
  | Err (MissingDependency r d) => Needs p r d /\ d ∉ ids p
  | Err (DependencyCycle rs) =>
      rs <> [] /\ rs `sublist_of` ids p
      /\ forall r, r ∈ rs <-> r ∈ ids p /\ stuck p r
  | _ => False
  end.

Lemma ordered_wf p : WF p -> Outcome p (ordered p).
Proof.
  intros Hw. unfold ordered, rbind. pose proof (count_plan p Hw) as Hcount.
  destruct (count_resources _ _ _ _) as [[incoming outgoing]|e|]; [| |done].
  2: { by destruct Hcount as (r & d & -> & H). }
  destruct Hcount as (Ho & Hclosed & Hk & Hi).
  set (ready := map fst (List.filter (fun e => e.2 =? 0) incoming)).
  assert (forall x, x ∈ ready <-> x ∈ ids p /\ waiting p [] x = 0) as Hready.
  { intros x. unfold ready. rewrite (elem_of_filter_keys (fun c => c =? 0)) by (rewrite Hk; apply Hw). split.
    - intros (c & Hc & Hz). assert (x ∈ ids p) as Hx by (rewrite <- Hk; apply im_find_keys; by rewrite Hc).
      rewrite Hi in Hc by done. bool_prop. split; congruence.
    - intros [Hx Hz]. exists 0. by rewrite Hi, Hz. }
  assert (Progress p [] ready incoming) as Hp.
  { split; [done|done| |done|].
    - simpl. unfold ready. apply (sublist_NoDup _ (ids p)); [apply Hw|]. rewrite <- Hk. apply filter_keys_sublist.
    - intros [|] ? ? ? He; discriminate He. }
  destruct (order_loop_spec p outgoing (S (length p.(resources))) [] ready incoming [] Hw Ho Hp) as
    (incoming' & l & -> & [Hk' Hc' Hn' Hr' Hs'] & Hv); [done|by intros ? ?%elem_of_nil| |].
  { unfold ids. rewrite length_map. simpl. lia. }
  rewrite app_nil_r in Hn', Hr'.
  assert (length p.(resources) = length (values p)) as Hlen by (unfold values; by rewrite length_map).
  assert (l ⊆+ values p) as Hsub by (apply NoDup_submseteq; [by apply (NoDup_fmap_1 id)|done]).
  assert (forall x, x ∈ map id l <-> x ∈ ids p /\ waiting p (map id l) x = 0) as Hdone by done.
  destruct (length l =? length p.(resources)) eqn:El; bool_prop; simpl.
  - split; [|done]. apply submseteq_length_Permutation; [done|lia].
  - set (rs := map fst _).
    assert (forall r, r ∈ rs <-> r ∈ ids p /\ r ∉ map id l) as Hrs.
    { intros r. unfold rs. rewrite (elem_of_filter_keys (fun c => 0 <? c)) by (rewrite Hk'; apply Hw). rewrite Hdone. split.
      - intros (c & Hc & Hz). assert (r ∈ ids p) as Hr by (rewrite <- Hk'; apply im_find_keys; by rewrite Hc).
        rewrite Hc' in Hc by done. bool_prop. split; [done|]. intros [_ ?]. injection Hc. lia.
      - intros [Hr Hz]. exists (waiting p (map id l) r). rewrite Hc' by done. split; [done|].
        apply Nat.ltb_lt. destruct (waiting p (map id l) r); [tauto|lia]. }
    split_and!.
    + intros Hnil. apply El. rewrite Hlen. apply Permutation_length.
      apply submseteq_length_Permutation; [done|]. rewrite <- !(length_map id), <- ids_values by done.
      apply submseteq_length, NoDup_submseteq; [apply Hw|]. intros x Hx.
      destruct (decide (x ∈ map id l)) as [|Hout]; [done|].
      assert (x ∈ rs) as Hin by by apply Hrs. rewrite Hnil in Hin. by apply elem_of_nil in Hin.
    + unfold rs. rewrite <- Hk'. apply filter_keys_sublist.
    + intros r. rewrite Hrs. split; intros [Hr Hs]; (split; [done|]).
      * apply (unsorted_stuck p (map id l)); [done| |done..]. intros x Hx. by apply Hdone.
      * intros Hin. destruct Hs as (c & Hrc & Hcc).
        by apply (Acc_no_cycle _ _ (sorted_acc p _ r Hs' Hin) c).
Qed.

(** ** How plans are built *)

(** The plans a client can have: every other operation is made of these. *)
Inductive Built : BootstrapPlan -> Prop :=
| built_default : Built BootstrapPlan_default
| built_insert p r p' : Built p -> insert_resource p r = Ok p' -> Built p'
| built_dependency p r d p' : Built p -> add_dependency p r d = Ok p' -> Built p'
| built_ordering p r d p' : Built p -> add_ordering p r d = Ok p' -> Built p'.

(** [p'] has the resources of [p], with more to come after. *)
Record Extends (p p' : BootstrapPlan) : Prop := {
  ex_ids : ids p' = ids p;
  ex_needs r d : Needs p r d -> Needs p' r d
}.

#[export] Instance Extends_preorder : PreOrder Extends.
Proof. split; [by split|]. intros p q s [H1 H2] [H3 H4]. split; [congruence|auto]. Qed.

Lemma dependencies_update p r x k :
  dependencies_at (mkBootstrapPlan (im_update p.(resources) r x)) k
  = if decide (k = r) then if plan_contains p r then dependencies x else [] else dependencies_at p k.
Proof.
  unfold dependencies_at, plan_contains, plan_get. simpl. rewrite im_find_update.
  case_decide; [|done]. by destruct (im_find _ r).
Qed.

Lemma update_extends p r x y :
  plan_get p r = Some x -> (forall d, d ∈ dependencies x -> d ∈ dependencies y) ->
  Extends p (mkBootstrapPlan (im_update p.(resources) r y)).
Proof.
  intros Hx Hd. split; [apply keys_update|]. intros k d. unfold Needs. rewrite dependencies_update.
  case_decide; [subst k|done]. unfold plan_contains, dependencies_at. rewrite Hx. apply Hd.
Qed.

Lemma update_wf p r x :
  WF p -> x.(id) = r -> WF (mkBootstrapPlan (im_update p.(resources) r x)).
Proof.
  intros [Hn Hw] Hx. split; [unfold ids; simpl; by rewrite keys_update|]. simpl. unfold im_update.
  rewrite Forall_map. eapply Forall_impl; [exact Hw|]. intros [a b] He. simpl in *.
  by case_bool_decide; simpl; subst.
Qed.

Lemma add_dependency_extends p r d p' :
  add_dependency p r d = Ok p' -> Extends p p' /\ Needs p' r d.
Proof.
  unfold add_dependency. destruct (plan_get p r) as [x|] eqn:Hx; [|done].
  destruct (bool_decide_reflect (d ∈ x.(depends_on))) as [Hin|Hout]; intros [= <-].
  - split; [done|]. unfold Needs, dependencies_at. rewrite Hx. unfold dependencies. set_solver.
  - split; [eapply update_extends; [done|]; unfold dependencies; simpl; set_solver|].
    unfold Needs. rewrite dependencies_update, decide_True by done. unfold plan_contains. rewrite Hx.
    unfold dependencies. simpl. set_solver.
Qed.

Lemma add_ordering_extends p r d p' :
  add_ordering p r d = Ok p' -> Extends p p' /\ Needs p' r d.
Proof.
  unfold add_ordering. destruct (plan_get p r) as [x|] eqn:Hx; [|done].
  destruct (bool_decide_reflect (d ∈ x.(order_after))) as [Hin|Hout]; intros [= <-].
  - split; [done|]. unfold Needs, dependencies_at. rewrite Hx. unfold dependencies. set_solver.
  - split; [eapply update_extends; [done|]; unfold dependencies; simpl; set_solver|].
    unfold Needs. rewrite dependencies_update, decide_True by done. unfold plan_contains. rewrite Hx.
    unfold dependencies. simpl. set_solver.
Qed.

Lemma built_wf p : Built p -> WF p.
Proof.
  induction 1 as [|p r p' _ IH H|p r d p' _ IH H|p r d p' _ IH H].
  - split; constructor.
  - unfold insert_resource in H. destruct (plan_contains p (id r)) eqn:Hc; [done|]. injection H as <-.
    destruct IH as [Hn Hw]. split; unfold ids; simpl.
    + rewrite map_app. apply NoDup_app. split_and!; [done| |apply NoDup_singleton].
      intros x Hx [= ->]%list_elem_of_singleton. apply plan_contains_ids in Hx. congruence.
    + apply Forall_app. split; [done|]. by constructor.
  - unfold add_dependency in H. destruct (plan_get p r) as [x|] eqn:Hx; [|done].
    case_bool_decide; injection H as <-; [done|]. apply update_wf; [done|]. exact (plan_get_id p r x IH Hx).
  - unfold add_ordering in H. destruct (plan_get p r) as [x|] eqn:Hx; [|done].
    case_bool_decide; injection H as <-; [done|]. apply update_wf; [done|]. exact (plan_get_id p r x IH Hx).
Qed.

(** C11. Ordering a plan that was built with its operations. The result is a permutation of the
    declared resources in which everything a resource depends on or comes after precedes it;
    or the error names a resource with a dependency that is not declared; or it names, in
    declaration order and without omission, the resources that a dependency cycle keeps from
    being ordered, and there are some. Nothing else can happen: no panic, no endless loop. *)
Theorem ordered_outcome p :
  Built p ->
  match ordered p with
  | Ok l => l ≡ₚ values p /\ sorted p (map id l)
  | Err (MissingDependency r d) => Needs p r d /\ d ∉ ids p
  | Err (DependencyCycle rs) =>
      rs <> [] /\ rs `sublist_of` ids p
      /\ forall r, r ∈ rs <-> r ∈ ids p /\ stuck p r
  | _ => False
  end.
Proof. intros H. exact (ordered_wf p (built_wf p H)). Qed.

(** ** Policies *)

Lemma for_each_extends {A} (N : A -> ResourceId -> ResourceId -> Prop)
    (body : BootstrapPlan -> A -> result PlanError BootstrapPlan) (l : list A) :
  (forall x, x ∈ l -> forall p p', body p x = Ok p' ->
     Extends p p' /\ (forall r d, N x r d -> Needs p' r d) /\ (Built p -> Built p')) ->
  forall p p', for_each body l p = Ok p' ->
  Extends p p' /\ (forall x r d, x ∈ l -> N x r d -> Needs p' r d) /\ (Built p -> Built p').
Proof.
  intros Hb. induction l as [|x l IH]; simpl; intros p p'.
  - intros [= <-]. split_and!; [done|by intros ? ? ? ?%elem_of_nil|done].
  - unfold rbind. destruct (body p x) as [q|e|] eqn:Hq; [|done..]. intros Hl.
    destruct (Hb x (list_elem_of_here _ _) p q Hq) as (He & Hn & Hbt).
    destruct (IH (fun y Hy => Hb y (list_elem_of_further _ _ _ Hy)) q p' Hl) as (He' & Hn' & Hbt').
    split_and!; [by etrans| |auto]. intros y r d [->|Hy]%elem_of_cons Hr; [by apply He', Hn|by eapply Hn'].
Qed.

Lemma orderings_extends r ds p p' :
  for_each (fun p d => add_ordering p r d) ds p = Ok p' ->
  Extends p p' /\ (forall x d, x = r -> d ∈ ds -> Needs p' x d) /\ (Built p -> Built p').
Proof.
  intros H. destruct (for_each_extends (fun d x y => x = r /\ y = d) (fun p d => add_ordering p r d) ds) with (2 := H)
    as (He & Hn & Hb).
  - intros d _ q q' Hq. destruct (add_ordering_extends _ _ _ _ Hq) as [He Hn]. split_and!; [done| |].
    + by intros ? ? [-> ->].
    + intros Hbt. by eapply built_ordering.
  - split_and!; [done| |done]. intros x d -> Hd. by eapply Hn.
Qed.

Lemma nested_orderings_extends rs ds p p' :
  for_each (fun p r => for_each (fun p d => add_ordering p r d) ds p) rs p = Ok p' ->
  Extends p p' /\ (forall r d, r ∈ rs -> d ∈ ds -> Needs p' r d) /\ (Built p -> Built p').
Proof.
  intros H. destruct (for_each_extends (fun r x y => x = r /\ y ∈ ds)
    (fun p r => for_each (fun p d => add_ordering p r d) ds p) rs) with (2 := H) as (He & Hn & Hb).
  - intros r _ q q' Hq. destruct (orderings_extends _ _ _ _ Hq) as (He & Hn & Hb). split_and!; [done| |done].
    intros x d [-> Hd]. by apply Hn.
  - split_and!; [done| |done]. intros r d Hr Hd. by eapply Hn.
Qed.

(** [a] stands before every place of [b]. *)
Definition precedes (l : list ResourcePlan) (a b : ResourceId) : Prop :=
  forall l1 l2, map id l = l1 ++ b :: l2 -> a ∈ l1.

Lemma needs_precedes p l r d : Built p -> ordered p = Ok l -> Needs p r d -> precedes l d r.
Proof.
  intros Hb Hl Hn l1 l2 He. pose proof (ordered_wf p (built_wf p Hb)) as H. rewrite Hl in H. destruct H as [_ Hs].
  by eapply Hs.
Qed.

Lemma phase_extends p packages p' :
  add_file_phase_ordering p packages = Ok p' ->
  let early := in_phase PrePackages p in
  let late := in_phase PostPackages p in
  ((forall package file, package ∈ packages -> file ∈ early -> Needs p' package file)
   /\ (forall file r, file ∈ late -> r ∈ packages ++ early -> Needs p' file r)
   /\ (forall package r, package ∈ ids p -> package.(id_kind) = u!"package" -> package ∉ packages ->
         r ∈ early ++ late ++ packages -> Needs p' package r))
  /\ (Built p -> Built p').
Proof.
  intros Hadd early late. unfold add_file_phase_ordering, rbind in Hadd. fold early late in Hadd.
  destruct (for_each _ packages p) as [p1|e|] eqn:H1; [|done..].
  destruct (for_each _ late p1) as [p2|e|] eqn:H2; [|done..].
  apply nested_orderings_extends in H1 as (E1 & N1 & B1).
  apply nested_orderings_extends in H2 as (E2 & N2 & B2).
  apply nested_orderings_extends in Hadd as (E3 & N3 & B3).
  split; [|auto]. split_and!.
  - intros package file Hp Hf. by apply E3, E2, N1.
  - intros file r Hf Hr. by apply E3, N2.
  - intros package r Hp Hk Hout Hr. apply N3; [|done].
    rewrite list_elem_of_In, filter_In, <- list_elem_of_In, (ex_ids _ _ E2), (ex_ids _ _ E1). split; [done|].
    by rewrite bool_decide_eq_true_2, bool_decide_eq_false_2.
Qed.

(** File phases are kept. After [add_file_phase_ordering], in every order the plan can get:
    files of the first phase precede the given packages; files of the second phase follow both;
    packages of plugin managers follow the given packages and the files of both phases. *)
Theorem phases_respected p packages p' l :
  Built p -> add_file_phase_ordering p packages = Ok p' -> ordered p' = Ok l ->
  let early := in_phase PrePackages p in
  let late := in_phase PostPackages p in
  (forall package file, package ∈ packages -> file ∈ early -> precedes l file package)
  /\ (forall file r, file ∈ late -> r ∈ packages ++ early -> precedes l r file)
  /\ (forall package r, package ∈ ids p -> package.(id_kind) = u!"package" -> package ∉ packages ->
        r ∈ early ++ late ++ packages -> precedes l r package).
Proof.
  intros Hb Hadd Hl early late. destruct (phase_extends _ _ _ Hadd) as ((N1 & N2 & N3) & Hb').
  split_and!; intros; (apply (needs_precedes p'); [auto|done|auto]).
Qed.

Lemma account_extends p r state owner group users groups p' :
  add_account_dependencies p r state owner group users groups = Ok p' ->
  Extends p p' /\ (Built p -> Built p')
  /\ (state = ManagedPresent -> forall name,
        (owner = Some name -> users !! name <> Some AccountAbsent
           /\ (users !! name = Some AccountPresent -> Needs p' r (mkResourceId u!"user" name)))
        /\ (group = Some name -> groups !! name <> Some AccountAbsent
           /\ (groups !! name = Some AccountPresent -> Needs p' r (mkResourceId u!"group" name)))).
Proof.
  unfold add_account_dependencies. destruct state; [|by intros [= <-]]. unfold rbind.
  destruct (match owner with Some _ => _ | None => Ok p end) as [q|e|] eqn:Hfirst; [|done..]. intros Hq.
  assert (Extends p q /\ (Built p -> Built q) /\ forall name, owner = Some name -> users !! name <> Some AccountAbsent
           /\ (users !! name = Some AccountPresent -> Needs q r (mkResourceId u!"user" name))) as (E1 & B1 & H1).
  { destruct owner as [o|]; [|by simplify_eq]. destruct (users !! o) as [[]|] eqn:Eu; simplify_eq.
    - destruct (add_dependency_extends _ _ _ _ Hfirst) as [He Hn]. split_and!; [done|by intros; eapply built_dependency|].
      intros name [= <-]. by rewrite Eu.
    - split_and!; [done..|]. intros name [= <-]. by rewrite Eu. }
  destruct group as [g|]; [destruct (groups !! g) as [[]|] eqn:Eg|]; simplify_eq.
  - destruct (add_dependency_extends _ _ _ _ Hq) as [He Hn].
    split_and!; [by etrans|intros ?; apply (built_dependency q r (mkResourceId u!"group" g)); auto|]. intros _ name. split.
    + intros Ho. destruct (H1 name Ho) as [? H2]. split; [done|]. intros ?. by apply He, H2.
    + intros [= <-]. by rewrite Eg.
  - split; [done|]. split; [done|]. intros _ name. split; [by apply H1|]. intros [= <-]. by rewrite Eg.
  - split; [done|]. split; [done|]. intros _ name. split; [by apply H1|done].
Qed.

(** Managed paths are created and removed in the order of their directories: a present path
    after its present parent, an absent parent after its absent child; a present path under an
    absent parent is refused. The accounts that a present resource names and that are declared
    present come before it, those declared absent are refused, and a removed resource needs no
    account. *)
Theorem managed_order p child child_path cs parent_path ps owner group users groups p' p'' l :
  Built p ->
  add_managed_parent_dependency p child child_path cs parent_path ps = Ok p' ->
  add_account_dependencies p' child cs owner group users groups = Ok p'' ->
  ordered p'' = Ok l ->
  let parent := mkResourceId u!"directory" (from_utf8_lossy parent_path) in
  match cs, ps with
  | ManagedPresent, ManagedPresent => precedes l parent child
  | ManagedAbsent, ManagedAbsent => precedes l child parent
  | ManagedPresent, ManagedAbsent => False
  | ManagedAbsent, ManagedPresent => p'' = p
  end
  /\ (cs = ManagedPresent -> forall name,
        (owner = Some name -> users !! name <> Some AccountAbsent
           /\ (users !! name = Some AccountPresent -> precedes l (mkResourceId u!"user" name) child))
        /\ (group = Some name -> groups !! name <> Some AccountAbsent
           /\ (groups !! name = Some AccountPresent -> precedes l (mkResourceId u!"group" name) child))).
Proof.
  intros Hb H1 H2 Hl parent. unfold add_managed_parent_dependency in H1. fold parent in H1.
  destruct (account_extends _ _ _ _ _ _ _ _ H2) as (E2 & B2 & Hacc).
  assert (forall r d, Built p' -> Needs p'' r d -> precedes l d r) as Hp
    by (intros r d Hb'; apply needs_precedes; auto).
  assert (Built p') as Hb' by (destruct cs, ps; simplify_eq; try done; by eapply built_dependency).
  split.
  - destruct cs, ps; simplify_eq; try done.
    + apply add_dependency_extends in H1 as [E1 N1]. by apply Hp, E2.
    + by injection H2.
    + apply add_dependency_extends in H1 as [E1 N1]. by apply Hp, E2.
  - intros -> name. destruct (Hacc eq_refl name) as [Ho Hg]. split; intros Hn; [apply Ho in Hn|apply Hg in Hn];
      destruct Hn as [Hne Hn]; (split; [done|]); intros Hs; by apply Hp, Hn.
Qed.

(** ** Output *)

(** How many resources an action counts for. *)
Definition total (s : PlanSummary) : nat := s.(create) + s.(update) + s.(remove) + s.(unchanged) + s.(unknown).

Lemma summary_counts (l : list ResourcePlan) s :
  let s' := fold_left (fun s r => PlanSummary_add s r.(action)) l s in
  total s' = total s + length l
  /\ (has_changes s' = has_changes s || existsb (fun r => match r.(action) with Create | Update | Remove => true | _ => false end) l)
  /\ (has_unknown s' = has_unknown s || existsb (fun r => match r.(action) with Unknown => true | _ => false end) l).
Proof.
  revert s. induction l as [|r l IH]; intros s; simpl.
  - rewrite !orb_false_r. split_and!; [lia|done|done].
  - destruct (IH (PlanSummary_add s (action r))) as (H1 & H2 & H3).
    destruct s as [c u rm n k]. rewrite H1, H2, H3. unfold total, has_changes, has_unknown.
    destruct (action r); simpl; rewrite ?Nat.add_succ_r; simpl; rewrite ?orb_true_r; split_and!; try done; lia.
Qed.

Lemma existsb_perm {A} (f : A -> bool) l k :
  l ≡ₚ k -> existsb f l = true <-> exists x, x ∈ k /\ f x = true.
Proof. intros Hp. rewrite existsb_exists. split; intros (x & Hx & Hf); exists x; by rewrite <- list_elem_of_In, Hp in *. Qed.

(** The output of a plan lists every declared resource once, and its summary counts each
    of them for its action: it reports changes, or unknown states, exactly when some declared
    resource has them. *)
Theorem output_summary p o :
  Built p -> output p = Ok o ->
  o.(output_resources) ≡ₚ values p
  /\ total o.(summary) = length (values p)
  /\ (has_changes o.(summary) = true <-> exists r, r ∈ values p /\ (r.(action) = Create \/ r.(action) = Update \/ r.(action) = Remove))
  /\ (has_unknown o.(summary) = true <-> exists r, r ∈ values p /\ r.(action) = Unknown).
Proof.
  intros Hb. unfold output, rbind. pose proof (ordered_wf p (built_wf p Hb)) as Ho.
  destruct (ordered p) as [l|e|]; [|done..]. destruct Ho as [Hperm _]. intros [= <-]. simpl.
  destruct (summary_counts l PlanSummary_default) as (H1 & H2 & H3). rewrite H1, H2, H3. simpl. split_and!; [done| | |].
  - by rewrite Hperm.
  - rewrite (existsb_perm _ _ _ Hperm). split; intros (r & Hr & Ha); exists r; (split; [done|]);
      destruct (action r); naive_solver.
  - rewrite (existsb_perm _ _ _ Hperm). split; intros (r & Hr & Ha); exists r; (split; [done|]);
      destruct (action r); naive_solver.
Qed.

(** The text of a path in JSON identifies the path, whatever its bytes are: two paths with
    the same text are the same, as long as the base64 encoder distinguishes byte strings. *)
Theorem path_json_injective base64 a b :
  (forall x y, base64 x = base64 y -> x = y) ->
  path_json_string base64 a = path_json_string base64 b -> a = b.
Proof.
  intros Hinj. unfold path_json_string.
  assert (forall x, starts_with ENCODED_PATH_PREFIX (ENCODED_PATH_PREFIX ++ u!"bytes:" ++ base64 x) = true) as Hpre
    by (intros; apply starts_with_app).
  assert (forall x y, ENCODED_PATH_PREFIX ++ u!"bytes:" ++ base64 x = ENCODED_PATH_PREFIX ++ u!"bytes:" ++ base64 y -> x = y) as Henc
    by (intros x y H; do 2 apply app_inv_head in H; by apply Hinj).
  destruct (from_utf8 a) as [s|] eqn:Ea, (from_utf8 b) as [t|] eqn:Eb;
    try destruct (starts_with ENCODED_PATH_PREFIX s) eqn:Es; try destruct (starts_with ENCODED_PATH_PREFIX t) eqn:Et;
    cbn [negb]; intros H; try (by apply Henc); try (subst; by rewrite Hpre in *).
  apply as_bytes_from_utf8 in Ea, Eb. congruence.
Qed.

(** ** Concrete plans *)

Definition resource_named (kind name : str) (ph : option ManagedFilePhase) : ResourcePlan :=
  mkResourcePlan (mkResourceId kind name) u!"missing" u!"present" Create None [] [] ph.

Definition file_id : ResourceId := mkResourceId u!"file" u!"/etc/service.conf".
Definition early_id : ResourceId := mkResourceId u!"file" u!"/etc/apt/vendor.sources".
Definition package_id : ResourceId := mkResourceId u!"package" u!"apt:vendor".
Definition plugin_id : ResourceId := mkResourceId u!"package" u!"custom:vendor".

(** Declared in an order that is not theirs. *)
Definition sample_steps : list ResourcePlan :=
  [resource_named u!"package" u!"custom:vendor" None;
   resource_named u!"file" u!"/etc/service.conf" (Some PostPackages);
   resource_named u!"package" u!"apt:vendor" None;
   resource_named u!"file" u!"/etc/apt/vendor.sources" (Some PrePackages)].

Definition get_ok (r : result PlanError BootstrapPlan) : BootstrapPlan :=
  match r with Ok p => p | _ => BootstrapPlan_default end.

Definition sample_plan : BootstrapPlan := get_ok (for_each insert_resource sample_steps BootstrapPlan_default).
Definition phased_plan : BootstrapPlan := get_ok (add_file_phase_ordering sample_plan [package_id]).
Definition phased_order : list ResourcePlan :=
  match ordered phased_plan with Ok l => l | _ => [] end.

Example sample_order : map id phased_order = [early_id; package_id; file_id; plugin_id].
Proof. vm_compute. reflexivity. Qed.

Lemma insert_all_built rs p p' : Built p -> for_each insert_resource rs p = Ok p' -> Built p'.
Proof.
  intros Hb. revert p Hb. induction rs as [|r rs IH]; simpl; intros p Hb; [by intros [= <-]|].
  unfold rbind. destruct (insert_resource p r) as [q|e|] eqn:E; [|done..]. apply IH. by eapply built_insert.
Qed.

Lemma sample_built : Built sample_plan.
Proof. apply (insert_all_built sample_steps BootstrapPlan_default); [constructor|]. vm_compute. reflexivity. Qed.

(** A cycle of two resources and a third that depends on it. *)
Definition cyclic_plan : BootstrapPlan :=
  get_ok (let? p := add_dependency sample_plan file_id package_id in
          let? p := add_dependency p package_id file_id in
          add_dependency p plugin_id file_id).

Lemma cyclic_built : Built cyclic_plan.
Proof.
  assert (exists p q, add_dependency sample_plan file_id package_id = Ok p
    /\ add_dependency p package_id file_id = Ok q /\ add_dependency q plugin_id file_id = Ok cyclic_plan)
    as (p & q & H1 & H2 & H3).
  { eexists _, _. split_and!; vm_compute; reflexivity. }
  eapply built_dependency; [|exact H3]. eapply built_dependency; [|exact H2].
  eapply built_dependency; [exact sample_built|exact H1].
Qed.

Lemma ordered_outcome_witness :
  ordered cyclic_plan = Err (DependencyCycle [plugin_id; file_id; package_id])
  /\ stuck cyclic_plan plugin_id.
Proof.
  pose proof (ordered_outcome cyclic_plan cyclic_built) as H.
  assert (ordered cyclic_plan = Err (DependencyCycle [plugin_id; file_id; package_id])) as E
    by (vm_compute; reflexivity).
  rewrite E in H. split; [exact E|]. destruct H as (_ & _ & H). apply H. apply list_elem_of_here.
Defined.

Lemma phases_respected_example :
  add_file_phase_ordering sample_plan [package_id] = Ok phased_plan
  /\ precedes phased_order early_id package_id /\ precedes phased_order file_id plugin_id.
Proof.
  assert (add_file_phase_ordering sample_plan [package_id] = Ok phased_plan) as E by (vm_compute; reflexivity).
  destruct (phases_respected sample_plan [package_id] phased_plan phased_order sample_built E) as (H1 & _ & H3);
    [vm_compute; reflexivity|].
  split_and!; [exact E|apply H1|apply H3]; vm_compute; repeat constructor; try discriminate.
  intros H. inversion H as [|? ? ? H']; inversion H'.
Defined.

(** A file in a directory that belongs to a user, all present. *)
Definition tree_steps : list ResourcePlan :=
  [resource_named u!"file" u!"/etc/vendor/config" None; resource_named u!"directory" u!"/etc/vendor" None;
   resource_named u!"user" u!"service" None].
Definition tree_plan : BootstrapPlan := get_ok (for_each insert_resource tree_steps BootstrapPlan_default).
Definition tree_file : ResourceId := mkResourceId u!"file" u!"/etc/vendor/config".
Definition tree_parented : BootstrapPlan :=
  get_ok (add_managed_parent_dependency tree_plan tree_file u!"/etc/vendor/config" ManagedPresent
            u!"/etc/vendor" ManagedPresent).
Definition tree_users : gmap str AccountState := {[ u!"service" := AccountPresent ]}.
Definition tree_owned : BootstrapPlan :=
  get_ok (add_account_dependencies tree_parented tree_file ManagedPresent (Some u!"service") None tree_users ∅).
Definition tree_order : list ResourcePlan := match ordered tree_owned with Ok l => l | _ => [] end.

Lemma managed_order_example :
  precedes tree_order (mkResourceId u!"directory" u!"/etc/vendor") tree_file
  /\ precedes tree_order (mkResourceId u!"user" u!"service") tree_file.
Proof.
  destruct (managed_order tree_plan tree_file u!"/etc/vendor/config" ManagedPresent u!"/etc/vendor" ManagedPresent
    (Some u!"service") None tree_users ∅ tree_parented tree_owned tree_order) as [H1 H2].
  - apply (insert_all_built tree_steps BootstrapPlan_default); [constructor|]. vm_compute. reflexivity.
  - vm_compute. reflexivity.
  - vm_compute. reflexivity.
  - vm_compute. reflexivity.
  - split; [exact H1|]. destruct (H2 eq_refl u!"service") as [H _]. destruct (H eq_refl) as [_ H']. apply H'.
    vm_compute. reflexivity.
Defined.
