(* ===== verification/Redactions.v ===== *)
(** * Redaction ([crates/mise-util/src/redactions.rs])

    The redactor replaces every occurrence of every registered secret; the rewriting of URLs hides
    or removes the credentials they carry. Positions of the redactor are byte offsets, as in the
    code; the URL rewriting cuts texts at the places its searches find, and is written with the
    pieces.

    The [aho_corasick] crate is a parameter: what builds an automaton, or fails to. *)

From S2P Require Import Prelude RustStr.

Definition REDACTED : str := u!"[redacted]".

(** ** The redactor *)

Abbreviation Span := (nat * nat)%type.

(** [str::find] with a text *)
Fixpoint find_str (p s : str) : option nat :=
  if starts_with p s then Some 0
  else match s with
       | [] => None
       | c :: s' => option_map (Nat.add (len_utf8 c)) (find_str p s')
       end.

(** The [while] loop of [naive_spans] for one pattern. *)
Fixpoint naive_loop (fuel : nat) (input p : str) (from : nat) (spans : list Span)
  : result unit (list Span) :=
  match fuel with
  | 0 => OutOfFuel
  | S fuel =>
      match find_str p (str_from input from) with
      | None => Ok spans
      | Some i =>
          let start := from + i in
          let next := start + match str_from input start with c :: _ => len_utf8 c | [] => 1 end in
          naive_loop fuel input p next (spans ++ [(start, start + len p)])
      end
  end.

Fixpoint naive_spans (input : str) (patterns : list str) (spans : list Span) : result unit (list Span) :=
  match patterns with
  | [] => Ok spans
  | p :: ps =>
      let? spans := naive_loop (S (S (length input))) input p 0 spans in
      naive_spans input ps spans
  end.

(** The order of pairs. *)
Definition span_leb (a b : Span) : bool := (a.1 <? b.1) || ((a.1 =? b.1) && (a.2 <=? b.2)).

Fixpoint insert_span (a : Span) (l : list Span) : list Span :=
  match l with
  | [] => [a]
  | b :: l' => if span_leb a b then a :: l else b :: insert_span a l'
  end.

(** [sort_unstable]: equal pairs cannot be told apart. *)
Definition sort_spans (l : list Span) : list Span := foldr insert_span [] l.

(** The loop over the sorted spans. *)
Fixpoint replace_loop (input : str) (spans : list Span) (pos cur_start cur_end : nat) (out : str) : str :=
  match spans with
  | [] => out ++ slice input pos cur_start ++ REDACTED ++ str_from input cur_end
  | (start, end_) :: spans =>
      if start <? cur_end then replace_loop input spans pos cur_start (Nat.max cur_end end_) out
      else replace_loop input spans cur_end start end_ (out ++ slice input pos cur_start ++ REDACTED)
  end.

Definition replace_spans (input : str) (spans : list Span) : str :=
  match sort_spans spans with
  | [] => input
  | (cur_start, cur_end) :: spans => replace_loop input spans 0 cur_start cur_end []
  end.

(** An automaton lists the overlapping matches in a text. *)
Abbreviation Automaton := (str -> list Span).

Record Redactor := mkRedactor { patterns : list str; automaton : option Automaton }.

Definition Redactor_default : Redactor := mkRedactor [] None.

(** Insertion into an [IndexSet]. *)
Definition index_insert (set : list str) (p : str) : list str :=
  if bool_decide (p ∈ set) then set else set ++ [p].

Definition non_empty (p : str) : bool := match p with [] => false | _ => true end.

(** [build] is [AhoCorasick::new]. *)
Definition Redactor_new (build : list str -> option Automaton) (ps : list str) : Redactor :=
  let patterns := fold_left index_insert (List.filter non_empty ps) [] in
  let automaton := match patterns with [] => None | _ => build patterns end in
  mkRedactor patterns automaton.

Definition with_additional (build : list str -> option Automaton) (r : Redactor) (additional : list str) : Redactor :=
  Redactor_new build
    (fold_left (fun ps p => if non_empty p then index_insert ps p else ps) additional r.(patterns)).

Definition redact (r : Redactor) (input : str) : result unit str :=
  match r.(patterns) with
  | [] => Ok input
  | ps =>
      let? spans := match r.(automaton) with
                    | Some find => Ok (find input)
                    | None => naive_spans input ps []
                    end in
      Ok (replace_spans input spans)
  end.

(** ** Credentials in URLs *)

Definition scheme_end : str := u!"://".

(** [find("://")] and [split_at(i + 3)]: what stands before the first [://] and after it. *)
Fixpoint split_scheme (s : str) : option (str * str) :=
  match strip_prefix scheme_end s with
  | Some rest => Some ([], rest)
  | None =>
      match s with
      | [] => None
      | c :: s' => match split_scheme s' with Some (h, rest) => Some (c :: h, rest) | None => None end
      end
  end.

(** [rfind] of one character, with what stands before and after it. *)
Fixpoint rsplit_char (c : char) (s : str) : option (str * str) :=
  match s with
  | [] => None
  | x :: s' =>
      match rsplit_char c s' with
      | Some (a, b) => Some (x :: a, b)
      | None => if (x =? c)%N then Some ([], s') else None
      end
  end.

Inductive Userinfo : Type := Redact | Strip.

Definition scheme_char (c : char) : bool := is_ascii_alphanumeric c || one_of u!"+-." c.

(** The scheme of the URL whose [://] ends [head]. The code goes on one byte after the last
    character that is no part of a scheme; none is its panic when that is inside the character. *)
Definition trailing_scheme (head : str) : option str :=
  let head := match strip_prefix (reverse scheme_end) (reverse head) with
              | Some rest => reverse rest
              | None => head
              end in
  match drop_while scheme_char (reverse head) with
  | c :: _ => if 1 <? len_utf8 c then None else Some (reverse (take_while scheme_char (reverse head)))
  | [] => Some head
  end.

(** What ends the authority. *)
Definition ends_authority (whitespace_ends_url : bool) (c : char) : bool :=
  one_of u!"/?#" c || (whitespace_ends_url && is_whitespace c).

Definition authority (whitespace_ends_url : bool) (tail : str) : str :=
  take_while (fun c => negb (ends_authority whitespace_ends_url c)) tail.

(** One round: what is pushed after [head], what is left, and whether something was redacted;
    none is a panic. *)
Definition rewrite_round (whitespace_ends_url : bool) (mode : Userinfo) (head tail : str)
  : option (str * str * bool) :=
  match rsplit_char c!"@" (authority whitespace_ends_url tail) with
  | None => Some ([], tail, false)
  | Some ([], _) => Some ([], tail, false)
  | Some (userinfo, _) =>
      let at_ := drop (length userinfo) tail in
      match mode with
      | Redact => Some (REDACTED, at_, true)
      | Strip =>
          match trailing_scheme head with
          | None => None
          | Some scheme =>
              if ends_with u!"ssh" (map to_ascii_lowercase scheme) then
                match split_once c!":" userinfo with
                | Some (user, _) => Some (user, at_, true)
                | None => Some ([], tail, false)
                end
              else Some ([], drop 1 at_, true)
          end
      end
  end.

(** The error is a panic. *)
Fixpoint rewrite_loop (fuel : nat) (whitespace_ends_url : bool) (mode : Userinfo)
    (rest out : str) (redacted : bool) : result unit (str * str * bool) :=
  match fuel with
  | 0 => OutOfFuel
  | S fuel =>
      match split_scheme rest with
      | None => Ok (out, rest, redacted)
      | Some (h, tail) =>
          let head := h ++ scheme_end in
          match rewrite_round whitespace_ends_url mode head tail with
          | None => Err tt
          | Some (pushed, rest, did) =>
              rewrite_loop fuel whitespace_ends_url mode rest (out ++ head ++ pushed) (redacted || did)
          end
      end
  end.

Definition rewrite_userinfo (text : str) (whitespace_ends_url : bool) (mode : Userinfo) : result unit str :=
  if negb (contains_str scheme_end text) then Ok text
  else
    let? (out, rest, redacted) := rewrite_loop (S (length text)) whitespace_ends_url mode text [] false in
    Ok (if negb redacted then text else out ++ rest).

Definition redact_url_userinfo (text : str) : result unit str := rewrite_userinfo text true Redact.
(** With the redactor of the process, which [redact_global] reads under its lock. *)
Definition redact_output (global : Redactor) (text : str) : result unit str :=
  let? text := redact global text in redact_url_userinfo text.

Definition redact_url_userinfo_in_arg (arg : str) : result unit str := rewrite_userinfo arg false Redact.
Definition strip_url_credentials (text : str) : result unit str := rewrite_userinfo text true Strip.
Definition strip_url_credentials_in_arg (arg : str) : result unit str := rewrite_userinfo arg false Strip.

Definition strip_url_credentials_in_value (value : str) : result unit str :=
  let scheme := match split_scheme value with Some (scheme, _) => scheme | None => [] end in
  let is_url := match scheme with c :: _ => is_ascii_alphabetic c | [] => false end
                && forallb scheme_char scheme in
  if is_url then strip_url_credentials_in_arg value else strip_url_credentials value.

(** ** Query parameters *)

Definition CREDENTIAL_NAMES : list str :=
  [u!"token"; u!"access_token"; u!"private_token"; u!"auth"; u!"api_key"; u!"apikey"; u!"key"; u!"sig";
   u!"signature"; u!"password"; u!"passwd"; u!"pwd"; u!"secret"; u!"credential"; u!"credentials";
   u!"x-amz-credential"; u!"x-goog-credential"].
Definition CREDENTIAL_SUFFIXES : list str := [u!"token"; u!"key"; u!"secret"; u!"password"; u!"signature"].

Definition strip_suffix (suffix s : str) : option str := option_map reverse (strip_prefix (reverse suffix) (reverse s)).

Definition is_credential_query_param (name : str) : bool :=
  let name := map to_ascii_lowercase name in
  existsb (fun n => bool_decide (n = name)) CREDENTIAL_NAMES
  || existsb (fun suffix =>
       match strip_suffix suffix name with
       | Some rest => ends_with u!"_" rest || ends_with u!"-" rest
       | None => false
       end) CREDENTIAL_SUFFIXES.
