(* ===== verification/RedactionsSpec.v ===== *)
(** * What redaction hides

    Every character of every occurrence of a registered secret is replaced and every other
    character is kept. The rewriting of URLs is in [UrlCredentials]. *)

From Stdlib Require Import Sorting.Sorted.
From S2P Require Import Prelude RustStr Redactions.

(** ** Positions *)

(** An occurrence of [p], by byte offsets. *)
Definition Occurs (p input : str) (sp : Span) : Prop :=
  exists a b, input = a ++ p ++ b /\ sp = (len a, len a + len p).

Definition covered (spans : list Span) (pos : nat) : bool :=
  existsb (fun sp => (sp.1 <=? pos) && (pos <? sp.2)) spans.

(** The characters of [s], which starts at offset [pos], that [cov] does not cover. *)
Fixpoint kept (cov : nat -> bool) (pos : nat) (s : str) : str :=
  match s with
  | [] => []
  | c :: s' => (if cov pos then [] else [c]) ++ kept cov (pos + len_utf8 c) s'
  end.

Lemma kept_app cov pos a b : kept cov pos (a ++ b) = kept cov pos a ++ kept cov (pos + len a) b.
Proof.
  revert pos. induction a as [|c a IH]; intros pos; simpl; [by rewrite Nat.add_0_r|].
  by rewrite IH, <- app_assoc, Nat.add_assoc.
Qed.

Lemma kept_all cov pos a : (forall q, pos <= q < pos + len a -> cov q = false) -> kept cov pos a = a.
Proof.
  revert pos. induction a as [|c a IH]; intros pos H; simpl in *; [done|]. pose proof (len_utf8_pos c).
  rewrite H by lia. rewrite IH; [done|]. intros. apply H. lia.
Qed.

Lemma kept_none cov pos a : (forall q, pos <= q < pos + len a -> cov q = true) -> kept cov pos a = [].
Proof.
  revert pos. induction a as [|c a IH]; intros pos H; simpl in *; [done|]. pose proof (len_utf8_pos c).
  rewrite H by lia. rewrite IH; [done|]. intros. apply H. lia.
Qed.

Lemma kept_ext cov cov' pos a : (forall q, pos <= q -> cov q = cov' q) -> kept cov pos a = kept cov' pos a.
Proof.
  revert pos. induction a as [|c a IH]; intros pos H; simpl; [done|]. rewrite H by done. f_equal. apply IH.
  intros. apply H. lia.
Qed.

(** Two places of a text cut out what is between them. *)
Lemma str_from_cut s a b :
  boundary s a -> boundary s b -> a <= b ->
  str_from s a = slice s a b ++ str_from s b /\ len (slice s a b) = b - a.
Proof.
  intros (x & y & Hs & ->) (x' & y' & Hs' & ->) Hle.
  assert (exists m, x' = x ++ m) as [m ->].
  { rewrite Hs in Hs'. apply app_eq_app in Hs' as (m & [[-> ->]|[-> ->]]); [|by exists m].
    rewrite len_app in Hle. exists []. assert (len m = 0) as Hm by lia.
    apply len_nil_inv in Hm as ->. by rewrite !app_nil_r. }
  rewrite Hs'. rewrite <- app_assoc. rewrite !len_app, slice_app, str_from_app.
  rewrite (str_from_app_add x), str_from_app. split; [done|lia].
Qed.

(** ** Replacing *)

Definition span_ok (input : str) (sp : Span) : Prop :=
  boundary input sp.1 /\ boundary input sp.2 /\ sp.1 < sp.2.

Lemma replace_loop_spec input cov spans pos cs ce out :
  boundary input pos -> span_ok input (cs, ce) -> pos <= cs ->
  Forall (span_ok input) spans -> StronglySorted (fun a b : Span => a.1 <= b.1) spans ->
  Forall (fun sp : Span => cs <= sp.1) spans ->
  (forall q, pos <= q -> cov q = ((cs <=? q) && (q <? ce)) || covered spans q) ->
  exists gaps, gaps <> [] /\ replace_loop input spans pos cs ce out = out ++ join REDACTED gaps
    /\ concat gaps = kept cov pos (str_from input pos).
Proof.
  revert pos cs ce out. induction spans as [|[s e] spans IH]; intros pos cs ce out Hp (Hcs & Hce & Hlt) Hle Hok Hsort Hge Hcov.
  - simpl in *. exists [slice input pos cs; str_from input ce]. split; [done|]. split; [done|].
    destruct (str_from_cut input pos cs Hp Hcs Hle) as [E1 L1].
    destruct (str_from_cut input cs ce Hcs Hce) as [E2 L2]; [lia|]. simpl. rewrite app_nil_r, E1, E2, !kept_app, L1, L2.
    rewrite kept_all, kept_none, kept_all; [done|..]; rewrite ?L1, ?L2; intros q Hq; rewrite Hcov by lia; simpl; rewrite orb_false_r.
    + apply andb_false_iff. right. apply Nat.ltb_ge. lia.
    + apply andb_true_iff. split; [apply Nat.leb_le|apply Nat.ltb_lt]; lia.
    + apply andb_false_iff. left. apply Nat.leb_gt. lia.
  - apply Forall_cons in Hok as [(Hs & He & Hse) Hok]. apply Forall_cons in Hge as [Hg Hge]. simpl in *.
    apply StronglySorted_inv in Hsort as [Hsort Hfirst].
    destruct (s <? ce) eqn:Hm; bool_prop.
    + apply IH; [done| |done..|]. { split_and!; simpl; [done| |lia]. by destruct (Nat.max_spec ce e) as [[_ ->]|[_ ->]]. }
      intros q Hq. rewrite Hcov by done. rewrite orb_assoc. f_equal.
      apply eq_true_iff_eq. rewrite orb_true_iff, !andb_true_iff, !Nat.leb_le, !Nat.ltb_lt. lia.
    + destruct (IH ce s e (out ++ slice input pos cs ++ REDACTED)) as (gaps & Hne & -> & Hg'); try done.
      { intros q Hq. rewrite Hcov by lia. assert ((q <? ce) = false) as -> by (apply Nat.ltb_ge; lia).
        by rewrite andb_false_r. }
      exists (slice input pos cs :: gaps). split; [done|].
      destruct (str_from_cut input pos cs Hp Hcs Hle) as [E1 L1].
      destruct (str_from_cut input cs ce Hcs Hce) as [E2 L2]; [lia|]. split.
      * rewrite <- !app_assoc. f_equal. by destruct gaps.
      * simpl. rewrite Hg', E1, E2, !kept_app, L1, L2. replace (pos + (cs - pos) + (ce - cs)) with ce by lia.
        rewrite (kept_all cov pos (slice input pos cs)), (kept_none cov _ (slice input cs ce));
          [done|..]; rewrite ?L1, ?L2; intros q Hq; rewrite Hcov by lia.
        -- apply orb_true_iff. left. apply andb_true_iff. split; [apply Nat.leb_le|apply Nat.ltb_lt]; lia.
        -- apply orb_false_iff. split; [apply andb_false_iff; left; apply Nat.leb_gt; lia|].
           apply orb_false_iff. split; [apply andb_false_iff; left; apply Nat.leb_gt; lia|].
           unfold covered. rewrite <- not_true_iff_false, existsb_exists. intros (sp & Hin & Hb).
           rewrite Forall_forall in Hge. apply list_elem_of_In, Hge in Hin. bool_prop. lia.
Qed.

Lemma insert_span_perm a l : insert_span a l ≡ₚ a :: l.
Proof. induction l as [|b l IH]; simpl; [done|]. destruct (span_leb a b); [done|]. rewrite IH. constructor. Qed.

Lemma sort_spans_perm l : sort_spans l ≡ₚ l.
Proof. induction l as [|a l IH]; simpl; [done|]. by rewrite insert_span_perm, IH. Qed.

Lemma insert_span_sorted a l :
  StronglySorted (fun a b : Span => a.1 <= b.1) l -> StronglySorted (fun a b : Span => a.1 <= b.1) (insert_span a l).
Proof.
  induction 1 as [|b l Hl IH Hb]; simpl; [repeat constructor|].
  destruct (span_leb a b) eqn:E; unfold span_leb in E.
  - assert (a.1 <= b.1) as Hab by (apply orb_true_iff in E as [E|E]; bool_prop; lia).
    constructor; [by constructor|]. constructor; [done|]. eapply Forall_impl; [exact Hb|]. simpl. intros. lia.
  - assert (b.1 <= a.1) as Hab by (apply orb_false_iff in E as [E _]; bool_prop; lia).
    constructor; [done|]. rewrite insert_span_perm. by constructor.
Qed.

Lemma sort_spans_sorted l : StronglySorted (fun a b : Span => a.1 <= b.1) (sort_spans l).
Proof. induction l as [|a l IH]; simpl; [constructor|by apply insert_span_sorted]. Qed.

Lemma replace_spans_spec input spans :
  Forall (span_ok input) spans ->
  exists gaps, gaps <> [] /\ replace_spans input spans = join REDACTED gaps
    /\ concat gaps = kept (covered spans) 0 input.
Proof.
  intros Hok. rewrite <- sort_spans_perm in Hok.
  assert (forall q, covered (sort_spans spans) q = covered spans q) as Hcov.
  { intros q. unfold covered. apply eq_true_iff_eq. rewrite !existsb_exists.
    split; intros (sp & Hin & H); exists sp; (split; [|done]); apply list_elem_of_In; apply list_elem_of_In in Hin;
      [by rewrite <- sort_spans_perm|by rewrite sort_spans_perm]. }
  rewrite (kept_ext _ (covered (sort_spans spans))) by done. unfold replace_spans.
  pose proof (sort_spans_sorted spans) as Hs. destruct (sort_spans spans) as [|[cs ce] l].
  - exists [input]. split_and!; [done|done|]. simpl. rewrite app_nil_r. by rewrite kept_all.
  - apply Forall_cons in Hok as [Hc Hok]. apply StronglySorted_inv in Hs as [Hs Hf].
    destruct (replace_loop_spec input (covered ((cs, ce) :: l)) l 0 cs ce []) as (gaps & Hne & E & Hg);
      [apply boundary_0|done|lia|done|done|done|done|].
    exists gaps. by rewrite str_from_0 in Hg.
Qed.

(** ** Searching *)

Lemma Occurs_cons p c s start :
  start <> 0 -> (exists a b, c :: s = a ++ p ++ b /\ start = len a) ->
  exists a b, s = a ++ p ++ b /\ start = len_utf8 c + len a.
Proof.
  intros Hs (a & b & He & ->). destruct a as [|x a]; [done|]. injection He as <- ->. by exists a, b.
Qed.

(** The first occurrence. *)
Lemma find_str_spec p s :
  match find_str p s with
  | Some i => (exists a b, s = a ++ p ++ b /\ i = len a) /\
              forall a b, s = a ++ p ++ b -> i <= len a
  | None => forall a b, s <> a ++ p ++ b
  end.
Proof.
  induction s as [|c s IH]; simpl.
  - destruct (starts_with p []) eqn:E.
    + apply starts_with_spec in E as [b E]. split; [by exists [], b|]. intros. simpl. lia.
    + intros a b He. assert (starts_with p [] = true) as H; [|congruence]. apply starts_with_spec.
      destruct a; [by exists b|done].
  - destruct (starts_with p (c :: s)) eqn:E.
    + apply starts_with_spec in E as [b E]. split; [by exists [], b|]. intros. simpl. lia.
    + assert (forall a b, c :: s = a ++ p ++ b -> exists a', a = c :: a' /\ s = a' ++ p ++ b) as Hc.
      { intros [|x a] b He; [|injection He as <- ->; by exists a].
        assert (starts_with p (c :: s) = true) as H; [|congruence]. apply starts_with_spec. by exists b. }
      destruct (find_str p s) as [i|]; simpl.
      * destruct IH as [(a & b & -> & ->) Hmin]. split; [by exists (c :: a), b|].
        intros a' b' (a'' & -> & He)%Hc. apply Hmin in He. simpl. lia.
      * intros a b (a' & -> & He)%Hc. by apply (IH a' b).
Qed.

(** Occurrences that start at [from] or later. *)
Lemma naive_loop_spec fuel input p a r spans :
  p <> [] -> input = a ++ r -> length r < fuel ->
  exists spans', naive_loop fuel input p (len a) spans = Ok spans' /\
    forall sp, sp ∈ spans' <-> sp ∈ spans \/ (Occurs p input sp /\ len a <= sp.1).
Proof.
  intros Hp. revert a r spans. induction fuel as [|fuel IH]; intros a r spans -> Hf; [lia|]. simpl.
  rewrite str_from_app. pose proof (find_str_spec p r) as Hfind. destruct (find_str p r) as [i|].
  - destruct Hfind as [(x & y & -> & ->) Hmin].
    assert (exists c p', p = c :: p') as (c & p' & Ep) by (destruct p; [done|by eexists _, _]).
    rewrite <- len_app, (app_assoc a x), str_from_app.
    assert (match p ++ y with c0 :: _ => len_utf8 c0 | [] => 1 end = len_utf8 c) as -> by (by rewrite Ep).
    rewrite <- (app_assoc a x (p ++ y)).
    assert (a ++ x ++ p ++ y = (a ++ x ++ [c]) ++ p' ++ y) as Hsplit by (rewrite Ep; by rewrite <- !app_assoc).
    destruct (IH (a ++ x ++ [c]) (p' ++ y) (spans ++ [(len (a ++ x), len (a ++ x) + len p)])) as (spans' & E & Hin).
    { done. } { rewrite !length_app, Ep in Hf. simpl in Hf. rewrite length_app. lia. }
    replace (len (a ++ x) + len_utf8 c) with (len (a ++ x ++ [c])) by (rewrite !len_app; simpl; lia).
    exists spans'. split; [exact E|]. intros sp. rewrite Hin, elem_of_app, list_elem_of_singleton.
    rewrite !len_app. simpl. pose proof (len_utf8_pos c). split.
    + intros [[?| ->]|[Ho Hl]]; [by left|right|right; split; [done|lia]].
      split; [|simpl; lia]. exists (a ++ x), y. by rewrite len_app, <- app_assoc.
    + intros [?|[(u & v & Hu & ->) Hl]]; [by left; left|]. simpl in Hl.
      destruct (decide (len u = len a + len x)) as [Heq|Hne]; [left; right; by rewrite Heq|].
      right. split; [by exists u, v|]. simpl.
      apply app_eq_app in Hu as (m & [[-> Hm]|[-> Hm]]).
      * rewrite len_app in Hl. assert (m = []) as -> by (apply len_nil_inv; lia). rewrite app_nil_r in *. simpl in Hm.
        specialize (Hmin [] v (eq_sym Hm)). simpl in Hmin. lia.
      * rewrite len_app in *. specialize (Hmin m v Hm).
        assert (len x < len m) as Hlt by lia.
        apply app_eq_app in Hm as (w & [[-> Hw]|[-> Hw]]); rewrite len_app in *; [lia|].
        destruct w as [|c' w]; [simpl in Hlt; lia|]. rewrite Ep in Hw. injection Hw as -> _. simpl. lia.
  - exists spans. split; [done|]. intros sp. split; [by left|].
    intros [?|[(u & v & Hu & ->) Hl]]; [done|]. exfalso. simpl in Hl.
    apply app_eq_app in Hu as (m & [[-> Hm]|[-> Hm]]); [|by apply (Hfind m v)].
    rewrite len_app in Hl. assert (m = []) as -> by (apply len_nil_inv; lia). by apply (Hfind [] v).
Qed.

Lemma naive_spans_spec input ps spans :
  (forall p, p ∈ ps -> p <> []) ->
  exists spans', naive_spans input ps spans = Ok spans' /\
    forall sp, sp ∈ spans' <-> sp ∈ spans \/ exists p, p ∈ ps /\ Occurs p input sp.
Proof.
  revert spans. induction ps as [|p ps IH]; intros spans Hps; cbn [naive_spans].
  - exists spans. split; [done|]. intros sp. split; [by left|]. intros [?|(p & Hp & _)]; [done|by apply elem_of_nil in Hp].
  - destruct (naive_loop_spec (S (S (length input))) input p [] input spans) as (spans1 & E & H1);
      [apply Hps, list_elem_of_here|done|lia|]. change (len []) with 0 in E. rewrite E. cbn [rbind].
    destruct (IH spans1) as (spans' & -> & H2); [intros; apply Hps; by apply list_elem_of_further|].
    exists spans'. split; [done|]. intros sp. rewrite H2, H1. split.
    + intros [[?|[? _]]|(p' & ? & ?)]; [by left|right; exists p; split; [apply list_elem_of_here|done]|].
      right. exists p'. split; [by apply list_elem_of_further|done].
    + intros [?|(p' & Hp' & ?)]; [by left; left|]. apply elem_of_cons in Hp' as [->|?]; [|right; eauto].
      left; right. split; [done|simpl; lia].
Qed.

(** ** The redactor *)

Lemma elem_of_index_insert set p q : q ∈ index_insert set p <-> q ∈ set \/ q = p.
Proof. unfold index_insert. case_bool_decide; set_solver. Qed.

Lemma elem_of_inserts ps set q : q ∈ fold_left index_insert ps set <-> q ∈ set \/ q ∈ ps.
Proof.
  revert set. induction ps as [|p ps IH]; intros set; simpl; [set_solver|].
  rewrite IH, elem_of_index_insert, elem_of_cons. tauto.
Qed.

Lemma elem_of_non_empty (ps : list str) q : q ∈ List.filter non_empty ps <-> q ∈ ps /\ q <> [].
Proof.
  rewrite list_elem_of_In, filter_In, <- list_elem_of_In. unfold non_empty. destruct q; naive_solver.
Qed.

(** The ways to make a redactor, with the secrets it has been given. *)
Inductive Made (build : list str -> option Automaton) : Redactor -> list str -> Prop :=
| made_default : Made build Redactor_default []
| made_new ps : Made build (Redactor_new build ps) ps
| made_more r ps more : Made build r ps -> Made build (with_additional build r more) (ps ++ more).

Lemma elem_of_additional (more set : list str) q :
  q ∈ fold_left (fun ps p => if non_empty p then index_insert ps p else ps) more set
  <-> q ∈ set \/ (q ∈ more /\ q <> []).
Proof.
  revert set. induction more as [|p more IH]; intros set; simpl; [set_solver|]. rewrite IH.
  rewrite elem_of_cons. destruct p as [|c p]; simpl; [naive_solver|]. rewrite elem_of_index_insert. naive_solver.
Qed.

Lemma new_patterns build ps q : q ∈ (Redactor_new build ps).(patterns) <-> q ∈ ps /\ q <> [].
Proof. simpl. rewrite elem_of_inserts, elem_of_non_empty. set_solver. Qed.

Lemma new_automaton build ps find :
  (Redactor_new build ps).(automaton) = Some find -> build (Redactor_new build ps).(patterns) = Some find.
Proof. simpl. by destruct (fold_left _ _ _). Qed.

Lemma made_patterns build r ps : Made build r ps ->
  (forall q, q ∈ r.(patterns) <-> q ∈ ps /\ q <> [])
  /\ forall find, r.(automaton) = Some find -> build r.(patterns) = Some find.
Proof.
  induction 1 as [|ps|r ps more _ [IH _]].
  - split; [simpl; set_solver|done].
  - split; [apply new_patterns|apply new_automaton].
  - split; [|apply new_automaton]. intros q. unfold with_additional.
    rewrite new_patterns, elem_of_additional, IH, elem_of_app. tauto.
Qed.

Lemma Occurs_ok p input sp : p <> [] -> Occurs p input sp -> span_ok input sp.
Proof.
  intros Hp (a & b & -> & ->). split_and!; simpl.
  - by exists a, (p ++ b).
  - exists (a ++ p), b. by rewrite <- app_assoc, len_app.
  - destruct p as [|c p]; [done|]. simpl. pose proof (len_utf8_pos c). lia.
Qed.

(** Redaction hides exactly the registered secrets. Whatever secrets a redactor was given, and
    whether or not its automaton could be built, redacting a text gives the pieces between the
    marks [[redacted]], and these pieces are together the characters of the text that belong to no
    occurrence of a secret, overlapping occurrences included: no character of an occurrence is
    printed and no other character is lost. The automaton is only required to list the
    overlapping matches. *)
Theorem redact_exact build r ps input :
  (forall patterns find, build patterns = Some find ->
     forall text sp, sp ∈ find text <-> exists p, p ∈ patterns /\ Occurs p text sp) ->
  Made build r ps ->
  exists spans gaps,
    (forall sp, sp ∈ spans <-> exists p, p ∈ ps /\ p <> [] /\ Occurs p input sp)
    /\ gaps <> [] /\ redact r input = Ok (join REDACTED gaps)
    /\ concat gaps = kept (covered spans) 0 input.
Proof.
  intros Hbuild Hm. destruct (made_patterns _ _ _ Hm) as [Hps Hauto].
  assert (exists spans, (match r.(automaton) with
            | Some find => Ok (find input)
            | None => naive_spans input r.(patterns) []
            end : result unit (list Span)) = Ok spans
          /\ forall sp, sp ∈ spans <-> exists p, p ∈ r.(patterns) /\ Occurs p input sp) as (spans & E & Hin).
  { destruct r.(automaton) as [find|] eqn:Ea.
    - exists (find input). split; [done|]. apply (Hbuild _ _ (Hauto _ eq_refl)).
    - destruct (naive_spans_spec input r.(patterns) []) as (spans & E & H); [by intros p [_ ?]%Hps|].
      exists spans. split; [done|]. intros sp. rewrite H. set_solver. }
  assert (forall sp, sp ∈ spans <-> exists p, p ∈ ps /\ p <> [] /\ Occurs p input sp) as Hspans.
  { intros sp. rewrite Hin. split; intros (p & H); exists p; rewrite Hps in *; tauto. }
  destruct (replace_spans_spec input spans) as (gaps & Hne & Er & Hg).
  { apply Forall_forall. intros sp (p & _ & Hp & Ho)%Hspans. by eapply Occurs_ok. }
  unfold redact. destruct r.(patterns) as [|p0 rest] eqn:Ep.
  - exists [], [input]. split_and!; [|done|done|].
    + intros sp. rewrite <- Hspans, Hin. split; [by intros ?%elem_of_nil|]. by intros (p & ?%elem_of_nil & _).
    + simpl. rewrite app_nil_r. by rewrite kept_all.
  - exists spans, gaps. split_and!; [done|done| |done]. rewrite E. cbn [rbind]. by rewrite Er.
Qed.

(** An automaton that searches for each pattern in turn. *)
Definition sample_build (patterns : list str) : option Automaton :=
  if forallb non_empty patterns then
    Some (fun text => match naive_spans text patterns [] with Ok spans => spans | _ => [] end)
  else None.

Lemma sample_build_ok patterns find : sample_build patterns = Some find ->
  forall text sp, sp ∈ find text <-> exists p, p ∈ patterns /\ Occurs p text sp.
Proof.
  unfold sample_build. destruct (forallb _ _) eqn:E; [|done]. intros [= <-] text sp.
  destruct (naive_spans_spec text patterns []) as (spans & -> & H); [|rewrite H; set_solver].
  intros p Hp ->. rewrite forallb_forall in E. by specialize (E [] (proj1 (list_elem_of_In _ _) Hp)).
Qed.

Lemma redact_exact_example :
  let r := with_additional sample_build (Redactor_new sample_build [u!"abc"; u!""]) [u!"cd"] in
  exists spans gaps,
    redact r u!"zabcdy" = Ok (join REDACTED gaps)
    /\ concat gaps = kept (covered spans) 0 u!"zabcdy" /\ (0, 1) ∉ spans /\ (3, 5) ∈ spans.
Proof.
  intros r.
  destruct (redact_exact sample_build r ([u!"abc"; u!""] ++ [u!"cd"]) u!"zabcdy" sample_build_ok)
    as (spans & gaps & Hs & _ & Hr & Hg); [apply made_more, made_new|].
  exists spans, gaps. split_and!; [exact Hr|exact Hg| |].
  - rewrite Hs. intros (p & Hp & Hne & a & b & He & Hsp). injection Hsp as Ha Hl.
    rewrite <- Ha in Hl. apply elem_of_cons in Hp as [->|Hp]; [vm_compute in Hl; discriminate Hl|].
    apply elem_of_cons in Hp as [->|Hp]; [by apply Hne|].
    apply list_elem_of_singleton in Hp as ->. vm_compute in Hl. discriminate Hl.
  - apply Hs. exists u!"cd". split_and!; [|discriminate|].
    + apply elem_of_app. right. apply list_elem_of_here.
    + exists u!"zab", u!"y". split; reflexivity.
Defined.
