(* ===== verification/TaskGraph.v ===== *)
(** * The task graph ([src/task/deps.rs])

    [Deps] collects the tasks of a run with their dependencies, cleanup tasks and waits, rejects
    cycles, hands out the tasks whose dependencies are done and keeps what they left behind. The
    graph (the [petgraph] crate) is an interface: its operations and what its documentation
    says of them. A hash map or set is a finite map or set: where the code walks one, the
    order does not show in the graph that results.

    What a task depends on, the fetching of remote task files and the rendering of templates are
    computed from the configuration, with files and the network: they are arguments. Of a task,
    the fields that the graph reads or writes are kept; [rest] stands for the others. *)

From stdpp Require Import sorting.
From S2P Require Import Prelude RustStr.

(** ** The graph *)

(** [petgraph]'s [DiGraph] and the functions [Deps] calls on it. [dg_nodes] lists the weights by
    index, so [node_indices] is [0 .. node_count] and [graph[i]] is a lookup. *)
Class DiGraph (N G : Type) := {
  dg_new : G;
  dg_nodes : G -> list N;
  dg_add_node : G -> N -> G * nat;
  dg_set : G -> nat -> N -> G;
  dg_update_edge : G -> nat -> nat -> G;
  dg_remove_node : G -> nat -> G;
  dg_outgoing : G -> nat -> list nat;
  dg_externals : G -> list nat;
  dg_kosaraju_scc : G -> list (list nat)
}.

Section digraph.
Context {N G : Type} `{DiGraph N G}.

Definition node_count (g : G) : nat := length (dg_nodes g).
Definition indices (g : G) : list nat := seq 0 (node_count g).

(** An edge from [i] to [j]: [i] runs after [j]. *)
Definition edge (g : G) (i j : nat) : Prop := j ∈ dg_outgoing g i.
End digraph.

(** [remove_node] moves the last node into the hole. *)
Definition swap_remove {A} (l : list A) (i : nat) : list A :=
  match last l with
  | Some x => take (length l - 1) (<[i := x]> l)
  | None => l
  end.

(** The index before the removal of [i], among [n], of what has index [j] after it. *)
Definition index_before (n i j : nat) : nat := if j =? i then n - 1 else j.

(** What the documentation of [petgraph] promises. *)
Class DiGraphLaws (N G : Type) `{DiGraph N G} := {
  nodes_new : dg_nodes dg_new = [];
  edge_range g i j : edge g i j -> i < node_count g /\ j < node_count g;
  outgoing_NoDup g i : NoDup (dg_outgoing g i);
  externals_NoDup g : NoDup (dg_externals g);
  externals_spec g i : i ∈ dg_externals g <-> i < node_count g /\ dg_outgoing g i = [];
  add_node_nodes g n : dg_nodes (dg_add_node g n).1 = dg_nodes g ++ [n] /\ (dg_add_node g n).2 = node_count g;
  add_node_edge g n i j : edge (dg_add_node g n).1 i j <-> edge g i j;
  set_nodes g i n : dg_nodes (dg_set g i n) = <[i := n]> (dg_nodes g);
  set_edge g a n i j : edge (dg_set g a n) i j <-> edge g i j;
  update_edge_nodes g a b : dg_nodes (dg_update_edge g a b) = dg_nodes g;
  update_edge_edge g a b i j : a < node_count g -> b < node_count g ->
    edge (dg_update_edge g a b) i j <-> edge g i j \/ (i = a /\ j = b);
  remove_node_nodes g a : a < node_count g -> dg_nodes (dg_remove_node g a) = swap_remove (dg_nodes g) a;
  remove_node_edge g a i j : a < node_count g ->
    edge (dg_remove_node g a) i j <->
      i < node_count g - 1 /\ j < node_count g - 1
      /\ edge g (index_before (node_count g) a i) (index_before (node_count g) a j);
  scc_NoDup g : NoDup (concat (dg_kosaraju_scc g));
  scc_indices g i : i ∈ concat (dg_kosaraju_scc g) <-> i < node_count g;
  scc_connected g c i j : c ∈ dg_kosaraju_scc g -> i ∈ c -> j ∈ c <-> rtc (edge g) i j /\ rtc (edge g) j i
}.

(** ** Tasks *)

Inductive EnvDirective : Type :=
| Val (key value : str)
| OtherDirective.

Inductive TaskRunPhase : Type := Normal | Post.
#[export] Instance TaskRunPhase_eq_dec : EqDecision TaskRunPhase.
Proof. solve_decision. Defined.
#[export] Instance TaskRunPhase_countable : Countable TaskRunPhase.
Proof.
  refine (inj_countable' (fun p => match p with Normal => true | Post => false end)
    (fun b => if b then Normal else Post) _). by intros [].
Defined.

Record Task (R : Type) : Type := mkTask {
  name : str;
  display_name : str;
  args : list str;
  env : list EnvDirective;
  overlay_env : list EnvDirective;
  run_phase : TaskRunPhase;
  show_args_in_prefix : bool;
  rest : R
}.
Arguments mkTask {R}.
Arguments name {R}.
Arguments display_name {R}.
Arguments args {R}.
Arguments env {R}.
Arguments overlay_env {R}.
Arguments run_phase {R}.
Arguments show_args_in_prefix {R}.
Arguments rest {R}.

Definition with_run_phase {R} (t : Task R) (phase : TaskRunPhase) : Task R :=
  mkTask t.(name) t.(display_name) t.(args) t.(env) t.(overlay_env) phase t.(show_args_in_prefix) t.(rest).
Definition set_rest {R} (t : Task R) (r : R) : Task R :=
  mkTask t.(name) t.(display_name) t.(args) t.(env) t.(overlay_env) t.(run_phase) t.(show_args_in_prefix) r.
Definition set_show_args {R} (t : Task R) : Task R :=
  mkTask t.(name) t.(display_name) t.(args) t.(env) t.(overlay_env) t.(run_phase) true t.(rest).

Abbreviation TaskKey := (str * list str * list (str * str) * TaskRunPhase)%type.
Definition key_phase (k : TaskKey) : TaskRunPhase := k.2.

(** The order of pairs of texts, and sorting by it. *)
Definition pair_leb (a b : str * str) : bool :=
  match str_cmp a.1 b.1 with
  | Lt => true
  | Gt => false
  | Eq => match str_cmp a.2 b.2 with Gt => false | _ => true end
  end.

Fixpoint insert_pair (x : str * str) (l : list (str * str)) : list (str * str) :=
  match l with
  | [] => [x]
  | y :: l' => if pair_leb x y then x :: l else y :: insert_pair x l'
  end.

Definition env_values (directives : list EnvDirective) : list (str * str) :=
  omap (fun d => match d with Val k v => Some (k, v) | OtherDirective => None end) directives.

Definition sorted_pairs (l : list (str * str)) : list (str * str) := foldr insert_pair [] l.

(** [env_key] of [deps.rs]; [own_env_key] is that of [task/mod.rs]. *)
Definition env_key {R} (t : Task R) : list (str * str) := sorted_pairs (env_values (t.(env) ++ t.(overlay_env))).
Definition own_env_key {R} (t : Task R) : list (str * str) := sorted_pairs (env_values t.(env)).

Definition task_key {R} (t : Task R) : TaskKey := (t.(name), t.(args), env_key t, t.(run_phase)).

(** [PartialEq for Task] *)
Definition task_eq {R} (a b : Task R) : bool :=
  bool_decide (a.(name) = b.(name)) && bool_decide (a.(args) = b.(args))
  && bool_decide (own_env_key a = own_env_key b) && bool_decide (a.(run_phase) = b.(run_phase)).

Definition same_task_without_phase {R} (a b : Task R) : bool :=
  bool_decide (a.(name) = b.(name)) && bool_decide (a.(args) = b.(args)) && bool_decide (env_key a = env_key b).

(** Sorted keys without repetitions are the keys of their set in order. *)
Definition task_cycle_label {R} (t : Task R) : str :=
  let label := match t.(args) with [] => t.(name) | _ => t.(name) ++ u!" " ++ join u!" " t.(args) end in
  let label := match t.(run_phase) with Post => label ++ u!" (post)" | Normal => label end in
  let keys := omap (fun d => match d with Val k _ => Some k | OtherDirective => None end) t.(env) in
  let env_keys := join u!", " (key_order (list_to_set keys)) in
  match env_keys with [] => label | _ => label ++ u!" [env: " ++ env_keys ++ u!"]" end.

(** ** Cycles *)

Section cycles.
Context {N G : Type} `{DiGraph N G}.

(** [limit.is_some_and(|limit| cycles.len() >= limit)] *)
Definition reached (limit : option nat) (cycles : list (list nat)) : bool :=
  match limit with Some limit => limit <=? length cycles | None => false end.

(** The neighbours in the component, in index order. *)
Definition component_neighbors (g : G) (component : gset nat) (node : nat) : list nat :=
  merge_sort le (List.filter (fun n => bool_decide (n ∈ component)) (dg_outgoing g node)).

(** The [while] loop of one start. The top of the stack is the head of the list. The flag says
    that the function returned. *)
Fixpoint search_loop (fuel : nat) (g : G) (component : gset nat) (start : nat) (limit : option nat)
    (stack : list (nat * list nat * nat)) (path : list nat) (in_path : gset nat) (cycles : list (list nat))
  : result unit (list (list nat) * bool) :=
  match fuel with
  | 0 => OutOfFuel
  | S fuel =>
      match stack with
      | [] => Ok (cycles, false)
      | (node, dependencies, next) :: below =>
          match dependencies !! next with
          | None => search_loop fuel g component start limit below (removelast path) (in_path ∖ {[node]}) cycles
          | Some dependency =>
              let stack := (node, dependencies, S next) :: below in
              if dependency =? start then
                let cycles := cycles ++ [path ++ [start]] in
                if reached limit cycles then Ok (cycles, true)
                else search_loop fuel g component start limit stack path in_path cycles
              else if (start <=? dependency) && negb (bool_decide (dependency ∈ in_path)) then
                search_loop fuel g component start limit
                  ((dependency, component_neighbors g component dependency, 0) :: stack)
                  (path ++ [dependency]) ({[dependency]} ∪ in_path) cycles
              else search_loop fuel g component start limit stack path in_path cycles
          end
      end
  end.

Fixpoint search_starts (fuel : nat) (g : G) (component : gset nat) (starts : list nat) (limit : option nat)
    (cycles : list (list nat)) : result unit (list (list nat) * bool) :=
  match starts with
  | [] => Ok (cycles, false)
  | start :: starts =>
      let? (cycles, returned) :=
        search_loop fuel g component start limit [(start, component_neighbors g component start, 0)]
          [start] {[start]} cycles in
      if returned : bool then Ok (cycles, true) else search_starts fuel g component starts limit cycles
  end.

Definition search_component (fuel : nat) (g : G) (component : list nat) (limit : option nat)
    (cycles : list (list nat)) : result unit (list (list nat) * bool) :=
  match component with
  | [node] =>
      let cycles := if bool_decide (node ∈ dg_outgoing g node) then cycles ++ [[node; node]] else cycles in
      Ok (cycles, reached limit cycles)
  | _ => search_starts fuel g (list_to_set component) (merge_sort le component) limit cycles
  end.

Fixpoint search_components (fuel : nat) (g : G) (components : list (list nat)) (limit : option nat)
    (cycles : list (list nat)) : result unit (list (list nat) * bool) :=
  match components with
  | [] => Ok (cycles, false)
  | component :: components =>
      let? (cycles, returned) := search_component fuel g component limit cycles in
      if returned : bool then Ok (cycles, true) else search_components fuel g components limit cycles
  end.

Definition find_cycles (fuel : nat) (g : G) (limit : option nat) : result unit (list (list nat)) :=
  let? (cycles, _) := search_components fuel g (dg_kosaraju_scc g) limit [] in Ok cycles.
End cycles.

(** ** [Deps] *)

Record ResolvedTaskDependencies (R : Type) : Type := mkResolved {
  depends : list (Task R);
  wait_for : list (Task R);
  depends_post : list (Task R)
}.
Arguments mkResolved {R}.
Arguments depends {R}.
Arguments wait_for {R}.
Arguments depends_post {R}.

Record TaskDependencyState : Type := mkDependencyState {
  ds_cache_keys : list str;
  any_did_work : bool;
  any_unkeyed_did_work : bool
}.

Record TaskCompletionState : Type := mkCompletionState {
  cs_completed : gset TaskKey;
  cs_did_work : gset TaskKey;
  cs_cache_keys : gmap TaskKey str
}.

(** [TaskCompletionState::merge]: what the other state says of a key wins. *)
Definition completion_merge (a b : TaskCompletionState) : TaskCompletionState :=
  mkCompletionState (a.(cs_completed) ∪ b.(cs_completed)) (a.(cs_did_work) ∪ b.(cs_did_work))
    (b.(cs_cache_keys) ∪ a.(cs_cache_keys)).

(** [tx] is the list of messages its receiver has been sent, none when the receiver is gone. *)
Record Deps (R G : Type) : Type := mkDeps {
  graph : G;
  sent : gset TaskKey;
  removed : gset TaskKey;
  executed : gset TaskKey;
  did_work : gset TaskKey;
  cache_keys : gmap TaskKey str;
  dep_edges : gmap TaskKey (gset TaskKey);
  post_dep_parents : gmap TaskKey (gset TaskKey);
  creation_order : list TaskKey;
  tx : option (list (option (Task R)))
}.
Arguments mkDeps {R G}.
Arguments graph {R G}.
Arguments sent {R G}.
Arguments removed {R G}.
Arguments executed {R G}.
Arguments did_work {R G}.
Arguments cache_keys {R G}.
Arguments dep_edges {R G}.
Arguments post_dep_parents {R G}.
Arguments creation_order {R G}.
Arguments tx {R G}.

(** [map.entry(k).or_default().insert(x)] *)
Definition entry_insert (m : gmap TaskKey (gset TaskKey)) (k x : TaskKey) : gmap TaskKey (gset TaskKey) :=
  <[k := {[x]} ∪ default ∅ (m !! k)]> m.

Inductive BuildError (E : Type) : Type :=
| Failed (e : E)
| Cycle (paths : list (list str)) (keys : list (list TaskKey))
| Panicked.
Arguments Failed {E}.
Arguments Cycle {E}.
Arguments Panicked {E}.

(** ** Construction *)

(** What the function keeps while it builds the graph. The top of [stack] is its head. *)
Record Build (R G : Type) : Type := mkBuild {
  b_graph : G;
  indexes : gmap TaskKey nat;
  stack : list (Task R);
  seen : gset TaskKey;
  direct_post_parents : gmap TaskKey (gset TaskKey);
  b_dep_edges : gmap TaskKey (gset TaskKey);
  wait_edges : list (TaskKey * Task R)
}.
Arguments mkBuild {R G}.
Arguments b_graph {R G}.
Arguments indexes {R G}.
Arguments stack {R G}.
Arguments seen {R G}.
Arguments direct_post_parents {R G}.
Arguments b_dep_edges {R G}.
Arguments wait_edges {R G}.

Section build.
Context {R G E : Type} `{DiGraph (Task R) G}.
Context (is_remote : Task R -> bool) (fetch_tasks : Task R -> E + Task R).
Context (render_usage : Task R -> E + R).
Context (resolve_all : list (Task R) -> E + list (Task R)).
Context (resolve_depends : Task R -> list (Task R) -> E + ResolvedTaskDependencies R).

(** The [?] operator on what the arguments return *)
Definition try_ {A} (m : E + A) : result (BuildError E) A :=
  match m with inl e => Err (Failed e) | inr a => Ok a end.

(** [fetch_tasks] gets and gives back the one task. *)
Definition fetch_remote_task (t : Task R) : result (BuildError E) (Task R) :=
  if negb (is_remote t) then Ok t
  else let? fetched := try_ (fetch_tasks t) in Ok (with_run_phase fetched t.(run_phase)).

(** [add_idx] *)
Definition add_idx (b : Build R G) (t : Task R) : Build R G * nat :=
  match b.(indexes) !! task_key t with
  | Some idx => (b, idx)
  | None =>
      let '(g, idx) := dg_add_node b.(b_graph) t in
      (mkBuild g (<[task_key t := idx]> b.(indexes)) b.(stack) b.(seen) b.(direct_post_parents)
         b.(b_dep_edges) b.(wait_edges), idx)
  end.

Definition set_b_graph (b : Build R G) (g : G) : Build R G :=
  mkBuild g b.(indexes) b.(stack) b.(seen) b.(direct_post_parents) b.(b_dep_edges) b.(wait_edges).
Definition set_stack (b : Build R G) (s : list (Task R)) : Build R G :=
  mkBuild b.(b_graph) b.(indexes) s b.(seen) b.(direct_post_parents) b.(b_dep_edges) b.(wait_edges).

(** The loop over the tasks of the run. *)
Fixpoint add_roots (b : Build R G) (tasks : list (Task R)) : result (BuildError E) (Build R G) :=
  match tasks with
  | [] => Ok b
  | t :: tasks =>
      let? t := fetch_remote_task (with_run_phase t Normal) in
      add_roots (add_idx (set_stack b (t :: b.(stack))) t).1 tasks
  end.

(** [for b in resolved.depends] *)
Fixpoint add_depends (b : Build R G) (a : Task R) (a_idx : nat) (ts : list (Task R))
  : result (BuildError E) (Build R G) :=
  match ts with
  | [] => Ok b
  | t :: ts =>
      let? t := fetch_remote_task (with_run_phase t a.(run_phase)) in
      let '(b, b_idx) := add_idx b t in
      add_depends
        (mkBuild (dg_update_edge b.(b_graph) a_idx b_idx) b.(indexes) (t :: b.(stack)) b.(seen)
           b.(direct_post_parents) (entry_insert b.(b_dep_edges) (task_key a) (task_key t)) b.(wait_edges))
        a a_idx ts
  end.

(** [for b in resolved.depends_post] *)
Fixpoint add_depends_post (b : Build R G) (a : Task R) (ts : list (Task R)) : result (BuildError E) (Build R G) :=
  match ts with
  | [] => Ok b
  | t :: ts =>
      let? t := fetch_remote_task (with_run_phase t Post) in
      let '(b, _) := add_idx b t in
      add_depends_post
        (mkBuild b.(b_graph) b.(indexes) (t :: b.(stack)) b.(seen)
           (entry_insert b.(direct_post_parents) (task_key t) (task_key a)) b.(b_dep_edges) b.(wait_edges))
        a ts
  end.

(** The body of the loop for a task that was not seen before. *)
Definition expand (b : Build R G) (a : Task R) (all_tasks_to_run : list (Task R)) : result (BuildError E) (Build R G) :=
  let? r := try_ (render_usage a) in
  let a := set_rest a r in
  let '(b, a_idx) := add_idx b a in
  let b := set_b_graph b (dg_set b.(b_graph) a_idx a) in
  let? resolved := try_ (resolve_depends a all_tasks_to_run) in
  let? b := add_depends b a a_idx resolved.(depends) in
  let b := mkBuild b.(b_graph) b.(indexes) b.(stack) b.(seen) b.(direct_post_parents) b.(b_dep_edges)
             (b.(wait_edges) ++ map (fun t => (task_key a, t)) resolved.(wait_for)) in
  add_depends_post b a resolved.(depends_post).

(** [while let Some(a) = stack.pop()] *)
Fixpoint expand_loop (fuel : nat) (b : Build R G) (all_tasks_to_run : list (Task R))
  : result (BuildError E) (Build R G) :=
  match fuel with
  | 0 => OutOfFuel
  | S fuel =>
      match b.(stack) with
      | [] => Ok b
      | a :: below =>
          let b := set_stack b below in
          if bool_decide (task_key a ∈ b.(seen)) then expand_loop fuel b all_tasks_to_run
          else
            let b := mkBuild b.(b_graph) b.(indexes) b.(stack) ({[task_key a]} ∪ b.(seen))
                       b.(direct_post_parents) b.(b_dep_edges) b.(wait_edges) in
            let? b := expand b a all_tasks_to_run in
            expand_loop fuel b all_tasks_to_run
      end
  end.

(** A parent of a post task is recorded once and then propagated. *)
Definition add_parent (acc : gmap TaskKey (gset TaskKey) * list (TaskKey * TaskKey)) (post_key parent : TaskKey)
  : gmap TaskKey (gset TaskKey) * list (TaskKey * TaskKey) :=
  let '(parents, pending) := acc in
  if bool_decide (parent ∈ default ∅ (parents !! post_key)) then acc
  else (entry_insert parents post_key parent, pending ++ [(post_key, parent)]).

(** The pairs of a map of sets. *)
Definition entries (m : gmap TaskKey (gset TaskKey)) : list (TaskKey * TaskKey) :=
  flat_map (fun kv => map (fun x => (kv.1, x)) (elements kv.2)) (map_to_list m).

(** [while let Some((post_key, parent)) = pending.pop_front()] *)
Fixpoint propagate_parents (fuel : nat) (dep_edges : gmap TaskKey (gset TaskKey))
    (parents : gmap TaskKey (gset TaskKey)) (pending : list (TaskKey * TaskKey))
  : result (BuildError E) (gmap TaskKey (gset TaskKey)) :=
  match fuel with
  | 0 => OutOfFuel
  | S fuel =>
      match pending with
      | [] => Ok parents
      | (post_key, parent) :: pending =>
          let '(parents, pending) :=
            fold_left (fun acc dependency =>
              if bool_decide (key_phase dependency <> Post) || bool_decide (dependency = parent) then acc
              else add_parent acc dependency parent)
              (elements (default ∅ (dep_edges !! post_key))) (parents, pending) in
          propagate_parents fuel dep_edges parents pending
      end
  end.

(** [indexes[key]] panics when the key is unknown. *)
Definition index_of (indexes : gmap TaskKey nat) (key : TaskKey) : result (BuildError E) nat :=
  match indexes !! key with Some idx => Ok idx | None => Err Panicked end.

(** The barrier from a post task to its parents. *)
Fixpoint add_barriers (indexes : gmap TaskKey nat) (g : G) (pairs : list (TaskKey * TaskKey)) : result (BuildError E) G :=
  match pairs with
  | [] => Ok g
  | (post_key, parent) :: pairs =>
      let? post_idx := index_of indexes post_key in
      let? parent_idx := index_of indexes parent in
      add_barriers indexes (dg_update_edge g post_idx parent_idx) pairs
  end.

(** The node that a [wait_for] means. *)
Definition wait_target (g : G) (phase : TaskRunPhase) (target : Task R) : option nat :=
  let same idx := match dg_nodes g !! idx with Some t => same_task_without_phase t target | None => false end in
  let in_phase idx := match dg_nodes g !! idx with Some t => bool_decide (t.(run_phase) = phase) | None => false end in
  match List.find in_phase (List.filter same (indices g)) with
  | Some idx => Some idx
  | None => List.find same (indices g)
  end.

Fixpoint add_waits (indexes : gmap TaskKey nat) (g : G) (waits : list (TaskKey * Task R)) : result (BuildError E) G :=
  match waits with
  | [] => Ok g
  | (waiting_key, target) :: waits =>
      let? waiting_idx := index_of indexes waiting_key in
      let g := match wait_target g (key_phase waiting_key) target with
               | Some target_idx => dg_update_edge g waiting_idx target_idx
               | None => g
               end in
      add_waits indexes g waits
  end.

Definition node_keys (g : G) : list TaskKey := map task_key (dg_nodes g).

Definition new_with_cycle_limit (fuel : nat) (tasks : list (Task R)) (cycle_limit : option nat)
  : result (BuildError E) (Deps R G) :=
  let? b := add_roots (mkBuild dg_new ∅ [] ∅ ∅ ∅ []) tasks in
  let? all_tasks_to_run := try_ (resolve_all tasks) in
  let? b := expand_loop fuel b all_tasks_to_run in
  let '(parents, pending) :=
    fold_left (fun acc pair => add_parent acc pair.1 pair.2) (entries b.(direct_post_parents)) (∅, []) in
  let? post_dep_parents := propagate_parents fuel b.(b_dep_edges) parents pending in
  let? g := add_barriers b.(indexes) b.(b_graph) (entries post_dep_parents) in
  let? g := add_waits b.(indexes) g b.(wait_edges) in
  let? cycles := map_err (fun _ => Panicked) (find_cycles fuel g cycle_limit) in
  match cycles with
  | [] => Ok (mkDeps g ∅ ∅ ∅ ∅ ∅ b.(b_dep_edges) post_dep_parents (node_keys g) None)
  | _ => Err (Cycle (map (omap (fun idx => task_cycle_label <$> dg_nodes g !! idx)) cycles)
                    (map (omap (fun idx => task_key <$> dg_nodes g !! idx)) cycles))
  end.

Definition Deps_new (fuel : nat) (tasks : list (Task R)) := new_with_cycle_limit fuel tasks (Some 1).
Definition new_for_validation (fuel : nat) (tasks : list (Task R)) := new_with_cycle_limit fuel tasks None.

(** [mark_ambiguous_prefixes]: the nodes that share a display name. *)
Definition mark_ambiguous (g : G) : G :=
  let shared idx :=
    match dg_nodes g !! idx with
    | Some t => 1 <? length (List.filter (fun t' => bool_decide (t'.(display_name) = t.(display_name))) (dg_nodes g))
    | None => false
    end in
  fold_left (fun g' idx => match dg_nodes g' !! idx with Some t => dg_set g' idx (set_show_args t) | None => g' end)
    (List.filter shared (indices g)) g.

Definition set_graph (d : Deps R G) (g : G) : Deps R G :=
  mkDeps g d.(sent) d.(removed) d.(executed) d.(did_work) d.(cache_keys) d.(dep_edges) d.(post_dep_parents)
    d.(creation_order) d.(tx).

Definition mark_ambiguous_prefixes (d : Deps R G) : Deps R G := set_graph d (mark_ambiguous d.(graph)).

(** [new_pruned]; the indices are removed from the last to the first. *)
Definition new_pruned (fuel : nat) (tasks : list (Task R)) (completed : TaskCompletionState)
  : result (BuildError E) (Deps R G) :=
  let? d := Deps_new fuel tasks in
  let d := mkDeps d.(graph) d.(sent) d.(removed) d.(executed) (d.(did_work) ∪ completed.(cs_did_work))
             (completed.(cs_cache_keys) ∪ d.(cache_keys)) d.(dep_edges) d.(post_dep_parents) d.(creation_order) d.(tx) in
  let is_completed idx := match node_keys d.(graph) !! idx with
                          | Some key => bool_decide (key ∈ completed.(cs_completed))
                          | None => false
                          end in
  let to_remove := reverse (List.filter is_completed (indices d.(graph))) in
  Ok (mark_ambiguous_prefixes (set_graph d (fold_left dg_remove_node to_remove d.(graph)))).
End build.

(** ** The run *)

Section run.
Context {R G : Type} `{DiGraph (Task R) G}.

Definition leaves (g : G) : list (Task R) := omap (fun idx => dg_nodes g !! idx) (dg_externals g).

Definition is_empty (d : Deps R G) : bool := node_count d.(graph) =? 0.

Definition set_sent (d : Deps R G) (s : gset TaskKey) (t : option (list (option (Task R)))) : Deps R G :=
  mkDeps d.(graph) s d.(removed) d.(executed) d.(did_work) d.(cache_keys) d.(dep_edges) d.(post_dep_parents)
    d.(creation_order) t.

(** One round of the loop of [emit_leaves]: a task that cannot be sent is not kept as sent. *)
Definition emit_leaf (d : Deps R G) (t : Task R) : Deps R G :=
  let key := task_key t in
  if bool_decide (key ∈ d.(sent)) then d
  else match d.(tx) with
       | Some messages => set_sent d ({[key]} ∪ d.(sent)) (Some (messages ++ [Some t]))
       | None => d
       end.

(** None is the panic on an infinite loop. *)
Definition emit_leaves (d : Deps R G) : option (Deps R G) :=
  let ls := leaves d.(graph) in
  let d := fold_left emit_leaf ls d in
  if is_empty d then Some (set_sent d d.(sent) (option_map (fun messages => messages ++ [None]) d.(tx)))
  else if match ls with [] => true | _ => false end && (size d.(sent) =? size d.(removed)) then None
  else Some d.

Definition subscribe (d : Deps R G) : option (Deps R G) := emit_leaves (set_sent d d.(sent) (Some [])).

(** The receiver is dropped. *)
Definition unsubscribe (d : Deps R G) : Deps R G := set_sent d d.(sent) None.

(** The first node that equals the task. *)
Definition node_idx (d : Deps R G) (t : Task R) : option nat :=
  List.find (fun idx => match dg_nodes d.(graph) !! idx with Some t' => task_eq t' t | None => false end)
    (indices d.(graph)).

Definition set_removed (d : Deps R G) (g : G) (s : gset TaskKey) : Deps R G :=
  mkDeps g d.(sent) s d.(executed) d.(did_work) d.(cache_keys) d.(dep_edges) d.(post_dep_parents)
    d.(creation_order) d.(tx).

Definition take_out (d : Deps R G) (t : Task R) : option (Deps R G) :=
  option_map (fun idx => set_removed d (dg_remove_node d.(graph) idx) ({[task_key t]} ∪ d.(removed))) (node_idx d t).

Definition remove (d : Deps R G) (t : Task R) : option (Deps R G) :=
  match take_out d t with Some d => emit_leaves d | None => Some d end.

Definition remove_batch (d : Deps R G) (tasks : list (Task R)) : option (Deps R G) :=
  emit_leaves (fold_left (fun d t => default d (take_out d t)) tasks d).

Definition set_executed (d : Deps R G) (s : gset TaskKey) : Deps R G :=
  mkDeps d.(graph) d.(sent) d.(removed) s d.(did_work) d.(cache_keys) d.(dep_edges) d.(post_dep_parents)
    d.(creation_order) d.(tx).
Definition set_work (d : Deps R G) (s : gset TaskKey) (keys : gmap TaskKey str) : Deps R G :=
  mkDeps d.(graph) d.(sent) d.(removed) d.(executed) s keys d.(dep_edges) d.(post_dep_parents)
    d.(creation_order) d.(tx).

Definition mark_executed (d : Deps R G) (t : Task R) : Deps R G := set_executed d ({[task_key t]} ∪ d.(executed)).
Definition unmark_executed (d : Deps R G) (t : Task R) : Deps R G := set_executed d (d.(executed) ∖ {[task_key t]}).
Definition mark_did_work (d : Deps R G) (t : Task R) : Deps R G :=
  set_work d ({[task_key t]} ∪ d.(did_work)) d.(cache_keys).
Definition mark_cache_key (d : Deps R G) (t : Task R) (cache_key : str) : Deps R G :=
  set_work d d.(did_work) (<[task_key t := cache_key]> d.(cache_keys)).

Definition has_executed (d : Deps R G) (t : Task R) : bool := bool_decide (task_key t ∈ d.(executed)).

Definition is_runnable_post_dep (d : Deps R G) (t : Task R) : bool :=
  match d.(post_dep_parents) !! task_key t with
  | Some parent_keys => existsb (fun pk => bool_decide (pk ∈ d.(executed))) (elements parent_keys)
  | None => false
  end.

Definition completion_state (d : Deps R G) : TaskCompletionState :=
  mkCompletionState d.(removed) d.(did_work) d.(cache_keys).

Definition dependency_state (d : Deps R G) (t : Task R) : TaskDependencyState :=
  let key := task_key t in
  let deps := default ∅ (d.(dep_edges) !! key) ∪ default ∅ (d.(post_dep_parents) !! key) in
  mkDependencyState
    (key_order (list_to_set (omap (fun dep_key => d.(cache_keys) !! dep_key) (elements deps))))
    (existsb (fun dep_key => bool_decide (dep_key ∈ d.(did_work))) (elements deps))
    (existsb (fun dep_key => bool_decide (dep_key ∈ d.(did_work)) && bool_decide (d.(cache_keys) !! dep_key = None))
       (elements deps)).

Definition all (d : Deps R G) : list (Task R) := dg_nodes d.(graph).

(** The map from key to node is consulted and emptied. *)
Fixpoint in_creation_order (order : list TaskKey) (present : gmap TaskKey (Task R)) : list (Task R) :=
  match order with
  | [] => []
  | key :: order =>
      match present !! key with
      | Some t => t :: in_creation_order order (delete key present)
      | None => in_creation_order order present
      end
  end.

Definition all_in_creation_order (d : Deps R G) : list (Task R) :=
  in_creation_order d.(creation_order)
    (fold_left (fun m t => <[task_key t := t]> m) (dg_nodes d.(graph)) ∅).

(** The loop of [is_linear]; [bound] is the node count of the whole graph, whose indices it
    goes through. None is a panic. *)
Fixpoint is_linear_loop (fuel bound : nat) (g : G) : result unit bool :=
  match fuel with
  | 0 => OutOfFuel
  | S fuel =>
      match leaves g with
      | [] => Ok true
      | [leaf] =>
          match List.find (fun idx => match dg_nodes g !! idx with Some t => task_eq t leaf | None => true end)
                  (seq 0 bound) with
          | Some idx => if idx <? node_count g then is_linear_loop fuel bound (dg_remove_node g idx) else Err tt
          | None => Err tt
          end
      | _ => Ok false
      end
  end.

Definition is_linear (d : Deps R G) : result unit bool :=
  is_linear_loop (S (node_count d.(graph))) (node_count d.(graph)) d.(graph).

(** *** Users of the graph ([src/task/task_scheduler.rs]) *)

(** [drop_while_stopping]: the task must not start now that the run is stopping. The flag says
    that it was dropped. *)
Definition drop_while_stopping (d : Deps R G) (t : Task R) (allow_during_interruption : bool)
  : option (Deps R G * bool) :=
  if allow_during_interruption || is_runnable_post_dep d t then Some (d, false)
  else option_map (fun d => (d, true)) (remove d t).

(** The cleanup of [run_loop] when the run stops. *)
Definition stop_cleanup (d : Deps R G) : option (Deps R G * list (Task R)) :=
  let tasks_to_remove := List.filter (fun t => negb (is_runnable_post_dep d t)) (all d) in
  let dropped := List.filter (fun t => negb (has_executed d t)) tasks_to_remove in
  option_map (fun d => (d, dropped)) (remove_batch d tasks_to_remove).
End run.
