(* ===== verification/TaskCycles.v ===== *)
(** * The cycles of the task graph

    [find_cycles] lists every elementary cycle of the graph once, written from its smallest
    index, up to the limit it is given. *)

From stdpp Require Import sorting.
From S2P Require Import Prelude RustStr TaskGraph.

(** Each element is related to the next. *)
Fixpoint linked {A} (R : A -> A -> Prop) (l : list A) : Prop :=
  match l with
  | x :: (y :: _) as l' => R x y /\ linked R l'
  | _ => True
  end.

Lemma linked_cons {A} (R : A -> A -> Prop) x y l : linked R (x :: y :: l) <-> R x y /\ linked R (y :: l).
Proof. done. Qed.

Lemma linked_mono {A} (R R' : A -> A -> Prop) l :
  (forall x y, x ∈ l -> y ∈ l -> R x y -> R' x y) -> linked R l -> linked R' l.
Proof.
  induction l as [|x [|y l] IH]; intros HR; [done|done|]. rewrite !linked_cons. intros [Hxy Hl]. split.
  - apply HR; [set_solver..|done].
  - apply IH; [|done]. intros u v Hu Hv. apply HR; set_solver.
Qed.

Lemma linked_app {A} (R : A -> A -> Prop) l y l' : linked R (l ++ [y]) -> linked R (y :: l') -> linked R (l ++ y :: l').
Proof.
  induction l as [|x [|z l] IH]; simpl; [done|tauto|]. intros [Hxz Hl] Hl'. split; [done|]. by apply IH.
Qed.

Lemma linked_rtc {A} (R : A -> A -> Prop) x l y : linked R (x :: l) -> y ∈ x :: l -> rtc R x y.
Proof.
  revert x. induction l as [|z l IH]; intros x; [intros _ ->%list_elem_of_singleton; done|].
  rewrite linked_cons. intros [Hxz Hl] [->|Hy]%elem_of_cons; [done|]. eapply rtc_l; [done|]. by apply IH.
Qed.

Lemma linked_rtc_last {A} (R : A -> A -> Prop) x l y : linked R (l ++ [y]) -> x ∈ l -> rtc R x y.
Proof.
  induction l as [|z l IH]; [intros _ ?%elem_of_nil; done|]. intros Hl [->|Hx]%elem_of_cons.
  - apply (linked_rtc R z (l ++ [y])); [done|]. set_solver.
  - apply IH; [|done]. destruct l; [done|]. by destruct Hl.
Qed.

Lemma linked_split {A} (R : A -> A -> Prop) l y l' : linked R (l ++ y :: l') -> linked R (l ++ [y]) /\ linked R (y :: l').
Proof.
  induction l as [|x [|z l] IH]; simpl; [done|tauto|]. intros [Hxz Hl]. by apply IH in Hl as [? ?].
Qed.

Lemma not_NoDup_split {A} `{EqDecision A} (l : list A) : ~ NoDup l -> exists l1 y l2 l3, l = l1 ++ y :: l2 ++ y :: l3.
Proof.
  induction l as [|x l IH]; intros Hn; [by destruct Hn; apply NoDup_nil|].
  destruct (decide (x ∈ l)) as [Hx|Hx].
  - apply list_elem_of_split in Hx as (l2 & l3 & ->). by exists [], x, l2, l3.
  - destruct IH as (l1 & y & l2 & l3 & ->); [|by exists (x :: l1), y, l2, l3].
    intros Hl. apply Hn. by constructor.
Qed.

(** A closed walk contains one that visits no node twice. *)
Lemma simple_cycle {A} `{EqDecision A} (R : A -> A -> Prop) x l :
  linked R (x :: l ++ [x]) -> exists y m, linked R (y :: m ++ [y]) /\ NoDup (y :: m).
Proof.
  remember (length l) as n eqn:Hn. revert x l Hn. induction n as [n IH] using lt_wf_ind. intros x l -> Hl.
  destruct (decide (NoDup (x :: l))) as [Hd|Hd]; [by exists x, l|].
  apply not_NoDup_split in Hd as (l1 & y & l2 & l3 & E).
  assert (linked R (y :: l2 ++ [y])) as Hy.
  { assert (x :: l ++ [x] = l1 ++ y :: (l2 ++ y :: l3 ++ [x])) as E' by (change (x :: l ++ [x]) with ((x :: l) ++ [x]);
      rewrite E; by rewrite <- !app_assoc; simpl; rewrite <- !app_assoc).
    rewrite E' in Hl. apply linked_split in Hl as [_ Hl].
    change (y :: l2 ++ y :: l3 ++ [x]) with ((y :: l2) ++ y :: l3 ++ [x]) in Hl. by apply linked_split in Hl as [Hl _]. }
  apply (IH (length l2)) in Hy; [done| |done].
  apply (f_equal length) in E. rewrite length_app in E. simpl in E. rewrite length_app in E. simpl in E. lia.
Qed.

Lemma tc_linked {A} (R : A -> A -> Prop) x y : tc R x y -> exists l, linked R (x :: l ++ [y]).
Proof.
  induction 1 as [x y Hxy|x z y Hxz _ [l Hl]]; [by exists []|]. by exists (z :: l).
Qed.

Lemma least_element x l : exists m, m ∈ x :: l /\ Forall (fun y => m <= y) (x :: l).
Proof.
  revert x. induction l as [|z l IH]; intros x; [exists x; split; [apply list_elem_of_here|by repeat constructor]|].
  destruct (IH z) as (m & Hm & Hf). destruct (decide (x <= m)) as [Hle|Hle].
  - exists x. split; [apply list_elem_of_here|]. constructor; [done|]. eapply Forall_impl; [exact Hf|]. simpl. lia.
  - exists m. split; [by apply list_elem_of_further|]. constructor; [lia|done].
Qed.

Section cycles.
Context {N G : Type} `{DiGraphLaws N G}.

(** An elementary cycle, from its smallest index back to it. *)
Definition IsCycle (g : G) (c : list nat) : Prop :=
  exists start mid, c = start :: mid ++ [start] /\ NoDup (start :: mid)
    /\ Forall (fun x => start <= x) mid /\ linked (edge g) c.

(** ** One start *)

Section start.
Context (g : G) (component : gset nat) (start : nat) (limit : option nat).
Hypothesis (start_in : start ∈ component).

Definition step (x y : nat) : Prop := edge g x y /\ y ∈ component.

Lemma component_neighbors_spec x y : y ∈ component_neighbors g component x <-> step x y.
Proof.
  unfold component_neighbors, step, edge. rewrite merge_sort_Permutation, list_elem_of_In, filter_In.
  rewrite <- list_elem_of_In, bool_decide_eq_true. done.
Qed.

Lemma component_neighbors_NoDup x : NoDup (component_neighbors g component x).
Proof.
  unfold component_neighbors. rewrite merge_sort_Permutation. apply NoDup_ListNoDup, List.NoDup_filter, NoDup_ListNoDup.
  apply outgoing_NoDup.
Qed.

(** The continuations of a path whose next node is one of [deps]. *)
Definition extends (path deps mid : list nat) : Prop :=
  NoDup (path ++ mid) /\ Forall (fun x => x ∈ component /\ start <= x) mid
  /\ (exists y, head (mid ++ [start]) = Some y /\ y ∈ deps) /\ linked step (mid ++ [start]).

Definition cut (cycles : list (list nat)) : list (list nat) :=
  match limit with Some k => take k cycles | None => cycles end.

Lemma cut_app cycles rest : reached limit cycles = true -> cut (cycles ++ rest) = cut cycles.
Proof. unfold reached, cut. destruct limit; [|done]. intros Hle%Nat.leb_le. by apply take_app_le. Qed.

Lemma reached_app cycles rest : reached limit cycles = true -> reached limit (cycles ++ rest) = true.
Proof. unfold reached. destruct limit; [|done]. rewrite !Nat.leb_le, length_app. lia. Qed.

(** What the search does with a frame: the cycles of its continuations are added in some order,
    and the frame is gone, unless the limit was reached. *)
Definition searches (u : nat) (deps : list nat) (next : nat) (p0 : list nat) (cs : list (list nat)) : Prop :=
  forall cycles below, reached limit cycles = false ->
  exists n, forall fuel,
    search_loop (n + fuel) g component start limit ((u, deps, next) :: below) (p0 ++ [u]) (list_to_set (p0 ++ [u])) cycles
    = if reached limit (cycles ++ cs) then Ok (cut (cycles ++ cs), true)
      else search_loop fuel g component start limit below p0 (list_to_set p0) (cycles ++ cs).

Definition lists_extensions (path deps : list nat) (cs : list (list nat)) : Prop :=
  NoDup cs /\ forall c, c ∈ cs <-> exists mid, c = path ++ mid ++ [start] /\ extends path deps mid.

Lemma list_to_set_removelast (p0 : list nat) u : u ∉ p0 -> list_to_set (p0 ++ [u]) ∖ {[u]} =@{gset nat} list_to_set p0.
Proof. intros Hu. apply set_eq. intros x. set_solver. Qed.

Lemma extends_nil path deps mid : extends path deps mid -> deps <> [].
Proof. intros (_ & _ & (y & _ & Hy) & _) ->. by apply elem_of_nil in Hy. Qed.

(** The continuations through one more candidate. *)
Lemma extensions_cons path d deps cs1 cs2 :
  d ∉ deps ->
  (NoDup cs1 /\ forall c, c ∈ cs1 <-> exists mid, c = path ++ mid ++ [start] /\ extends path [d] mid) ->
  lists_extensions path deps cs2 -> lists_extensions path (d :: deps) (cs1 ++ cs2).
Proof.
  intros Hd [Hn1 H1] [Hn2 H2]. split.
  - apply NoDup_app. split_and!; [done| |done]. intros c (mid & -> & He)%H1 (mid' & Ec & He')%H2.
    apply app_inv_head in Ec. destruct He as (_ & _ & (y & Hy & ->%list_elem_of_singleton) & _).
    destruct He' as (_ & _ & (y' & Hy' & Hin) & _). apply Hd. congruence.
  - intros c. rewrite elem_of_app, H1, H2. unfold extends. split.
    + intros [(mid & -> & ? & ? & (y & ? & Hy) & ?)|(mid & -> & ? & ? & (y & ? & Hy) & ?)];
        exists mid; (split; [done|]); split_and!; try done; exists y; set_solver.
    + intros (mid & -> & ? & ? & (y & ? & [Hy|Hy]%elem_of_cons) & ?); [left|right];
        exists mid; (split; [done|]); split_and!; try done; exists y; set_solver.
Qed.

Lemma extensions_start path cs :
  cs = [path ++ [start]] -> start ∈ path -> NoDup path ->
  NoDup cs /\ forall c, c ∈ cs <-> exists mid, c = path ++ mid ++ [start] /\ extends path [start] mid.
Proof.
  intros -> Hs Hp. split; [apply NoDup_singleton|]. intros c. rewrite list_elem_of_singleton. split.
  - intros ->. exists []. split; [done|]. split_and!; [by rewrite app_nil_r|done|exists start; set_solver|done].
  - intros (mid & -> & Hn & _ & (y & Hy & ->%list_elem_of_singleton) & _). destruct mid as [|z mid]; [done|].
    injection Hy as ->. apply NoDup_app in Hn as (_ & Hn & _). exfalso. apply (Hn start); [done|]. set_solver.
Qed.

Lemma extensions_visited path d :
  d <> start -> ~ (start <= d /\ d ∉ path) ->
  NoDup (@nil (list nat)) /\ forall c, c ∈ @nil (list nat) <-> exists mid, c = path ++ mid ++ [start] /\ extends path [d] mid.
Proof.
  intros Hd Hv. split; [apply NoDup_nil; done|]. intros c. split; [by intros ?%elem_of_nil|].
  intros (mid & _ & Hn & Hf & (y & Hy & ->%list_elem_of_singleton) & _). exfalso. destruct mid as [|z mid]; simpl in Hy.
  - congruence.
  - injection Hy as ->. apply Forall_cons in Hf as [[_ Hle] _]. apply Hv. split; [done|]. intros Hin.
    apply NoDup_app in Hn as (_ & Hn & _). apply (Hn d Hin). set_solver.
Qed.

Lemma extensions_push path d cs :
  d <> start -> start <= d -> d ∉ path -> d ∈ component ->
  lists_extensions (path ++ [d]) (component_neighbors g component d) cs ->
  NoDup cs /\ forall c, c ∈ cs <-> exists mid, c = path ++ mid ++ [start] /\ extends path [d] mid.
Proof.
  intros Hd Hle Hnew Hin [Hn Hc]. split; [done|]. intros c. rewrite Hc. unfold extends. split.
  - intros (mid & -> & H1 & H2 & (y & Hy & Hnb) & H3). exists (d :: mid). split; [by rewrite <- app_assoc|].
    rewrite <- app_assoc in H1. split_and!; [done|by constructor|exists d; set_solver|].
    apply component_neighbors_spec in Hnb. destruct mid as [|z mid]; injection Hy as ->; (split; [done|]); done.
  - intros (mid & -> & H1 & H2 & (y & Hy & ->%list_elem_of_singleton) & H3). destruct mid as [|z mid]; injection Hy as ->; [done|].
    exists mid. split; [by rewrite <- app_assoc|]. rewrite <- app_assoc. apply Forall_cons in H2 as [_ H2].
    split_and!; [done|done| |].
    + destruct mid as [|z mid]; destruct H3 as [H3 _]; eexists; (split; [done|]); by apply component_neighbors_spec.
    + by destruct mid as [|z mid]; destruct H3 as [_ H3].
Qed.

Lemma searches_next u deps next p0 cs d cs1 :
  deps !! next = Some d -> searches u deps (S next) p0 cs ->
  (forall cycles below, reached limit cycles = false -> exists n, forall fuel,
     search_loop (n + fuel) g component start limit ((u, deps, next) :: below) (p0 ++ [u]) (list_to_set (p0 ++ [u])) cycles
     = if reached limit (cycles ++ cs1) then Ok (cut (cycles ++ cs1), true)
       else search_loop fuel g component start limit ((u, deps, S next) :: below) (p0 ++ [u]) (list_to_set (p0 ++ [u])) (cycles ++ cs1)) ->
  searches u deps next p0 (cs1 ++ cs).
Proof.
  intros Hd Hrest H1 cycles below Hl. destruct (H1 cycles below Hl) as [n1 E1]. rewrite app_assoc.
  destruct (reached limit (cycles ++ cs1)) eqn:Er.
  - exists n1. intros fuel.
    by rewrite E1, (reached_app (cycles ++ cs1)), (cut_app (cycles ++ cs1)).
  - destruct (Hrest (cycles ++ cs1) below Er) as [n2 E2]. exists (n1 + n2). intros fuel.
    rewrite <- Nat.add_assoc, E1. apply E2.
Qed.
Lemma searches_done u deps next p0 : deps !! next = None -> u ∉ p0 -> searches u deps next p0 [].
Proof.
  intros Hd Hu cycles below Hl. exists 1. intros fuel. rewrite app_nil_r, Hl. cbn [Nat.add search_loop]. rewrite Hd.
  rewrite removelast_last. f_equal. by apply list_to_set_removelast.
Qed.

(** The search from a frame, by the number of nodes that are not on the path. *)
Lemma search_frame m : forall u p0 deps next,
  NoDup (p0 ++ [u]) -> start ∈ p0 ++ [u] -> Forall (fun x => x ∈ component) (p0 ++ [u]) ->
  NoDup deps -> Forall (fun d => d ∈ component) deps ->
  size component < m + length (p0 ++ [u]) ->
  exists cs, lists_extensions (p0 ++ [u]) (drop next deps) cs /\ searches u deps next p0 cs.
Proof.
  induction m as [|m IH]; intros u p0 deps next Hn Hs Hin Hdn Hdin Hm.
  { exfalso. assert (length (p0 ++ [u]) <= size component); [|lia].
    rewrite <- (size_list_to_set (C := gset nat)) by done. apply subseteq_size. intros x Hx%elem_of_list_to_set.
    rewrite Forall_forall in Hin. by apply Hin. }
  remember (length deps - next) as k eqn:Hk. revert next Hk. induction k as [|k IHk]; intros next Hk.
  - assert (deps !! next = None) as Hd by (apply lookup_ge_None; lia). exists [].
    split; [|apply searches_done; [done|]; apply NoDup_app in Hn as (_ & Hn & _); intros Hu; apply (Hn u Hu); set_solver].
    rewrite drop_ge by lia. split; [by apply NoDup_nil|]. intros c. split; [by intros ?%elem_of_nil|].
    intros (mid & _ & He). by apply extends_nil in He.
  - destruct (lookup_lt_is_Some_2 deps next) as [d Hd]; [lia|].
    destruct (IHk (S next)) as (cs & Hcs & Hsearch); [lia|]. pose proof (drop_S deps d next Hd) as Edrop.
    assert (d ∉ drop (S next) deps) as Hfresh.
    { assert (NoDup (drop next deps)) as Hnd by (rewrite <- (take_drop next deps) in Hdn; by apply NoDup_app in Hdn as (_ & _ & ?)).
      rewrite Edrop in Hnd. by apply NoDup_cons in Hnd as [? _]. }
    assert (d ∈ component) as Hdc by (rewrite Forall_forall in Hdin; apply Hdin; by eapply list_elem_of_lookup_2).
    assert (exists cs1, (NoDup cs1 /\ forall c, c ∈ cs1 <-> exists mid, c = (p0 ++ [u]) ++ mid ++ [start] /\ extends (p0 ++ [u]) [d] mid)
      /\ forall cycles below, reached limit cycles = false -> exists n, forall fuel,
         search_loop (n + fuel) g component start limit ((u, deps, next) :: below) (p0 ++ [u]) (list_to_set (p0 ++ [u])) cycles
         = if reached limit (cycles ++ cs1) then Ok (cut (cycles ++ cs1), true)
           else search_loop fuel g component start limit ((u, deps, S next) :: below) (p0 ++ [u]) (list_to_set (p0 ++ [u])) (cycles ++ cs1))
      as (cs1 & H1 & H1s).
    2:{ exists (cs1 ++ cs). rewrite Edrop. split; [by apply extensions_cons|by eapply searches_next]. }
    destruct (decide (d = start)) as [->|Hds].
    + exists [(p0 ++ [u]) ++ [start]]. split; [by apply extensions_start|]. intros cycles below Hl. exists 1. intros fuel.
      cbn [Nat.add search_loop]. rewrite Hd, Nat.eqb_refl. destruct (reached limit (cycles ++ _)) eqn:Er; [|done].
      f_equal. f_equal. unfold cut, reached in *. destruct limit as [k'|]; [|done]. apply Nat.leb_le in Er.
      apply Nat.leb_gt in Hl. rewrite length_app in Er. simpl in Er. rewrite firstn_all2; [done|]. rewrite length_app. simpl. lia.
    + destruct (decide (start <= d /\ d ∉ p0 ++ [u])) as [[Hle Hnew]|Hv].
      * destruct (IH d (p0 ++ [u]) (component_neighbors g component d) 0) as (cs1 & Hcs1 & Hs1).
        { apply NoDup_app. split_and!; [done| |apply NoDup_singleton]. intros x Hx ->%list_elem_of_singleton. done. }
        { set_solver. } { apply Forall_app. split; [done|]. by constructor. }
        { apply component_neighbors_NoDup. }
        { apply Forall_forall. intros x [_ ?]%component_neighbors_spec. done. }
        { rewrite length_app. simpl. lia. }
        rewrite drop_0 in Hcs1. exists cs1. split; [by eapply extensions_push|]. intros cycles below Hl.
        destruct (Hs1 cycles ((u, deps, S next) :: below) Hl) as [n En]. exists (S n). intros fuel.
        cbn [Nat.add search_loop]. rewrite Hd, (proj2 (Nat.eqb_neq d start)), (proj2 (Nat.leb_le start d)) by done.
        rewrite bool_decide_eq_false_2 by (rewrite elem_of_list_to_set; done). cbn [negb andb]. rewrite <- En.
        f_equal. apply set_eq. intros x. set_solver.
      * exists []. split; [by apply extensions_visited|]. intros cycles below Hl. exists 1. intros fuel.
        rewrite app_nil_r, Hl. cbn [Nat.add search_loop]. rewrite Hd, (proj2 (Nat.eqb_neq d start)) by done.
        destruct (start <=? d) eqn:El; [|done]. rewrite bool_decide_eq_true_2; [done|].
        rewrite elem_of_list_to_set. apply Nat.leb_le in El. destruct (decide (d ∈ p0 ++ [u])); tauto.
Qed.
End start.

(** ** All starts *)

(** Whatever was found before, with enough fuel [run] adds [cs], up to the limit. *)
Definition Finds (limit : option nat) (run : nat -> list (list nat) -> result unit (list (list nat) * bool))
    (cs : list (list nat)) : Prop :=
  forall cycles, reached limit cycles = false -> exists n, forall fuel, n <= fuel ->
    run fuel cycles = Ok (if reached limit (cycles ++ cs) then (cut limit (cycles ++ cs), true) else (cycles ++ cs, false)).

Lemma finds_nothing limit : Finds limit (fun _ cycles => Ok (cycles, false)) [].
Proof. intros cycles Hl. exists 0. intros fuel _. by rewrite app_nil_r, Hl. Qed.

Lemma finds_then limit run1 run2 cs1 cs2 :
  Finds limit run1 cs1 -> Finds limit run2 cs2 ->
  Finds limit (fun fuel cycles =>
    let? (cycles, returned) := run1 fuel cycles in
    if returned : bool then Ok (cycles, true) else run2 fuel cycles) (cs1 ++ cs2).
Proof.
  intros H1 H2 cycles Hl. destruct (H1 cycles Hl) as [n1 E1]. rewrite app_assoc.
  destruct (reached limit (cycles ++ cs1)) eqn:Er.
  - exists n1. intros fuel Hf. rewrite E1 by done. cbn [rbind].
    by rewrite (reached_app limit (cycles ++ cs1)), (cut_app limit (cycles ++ cs1)).
  - destruct (H2 (cycles ++ cs1) Er) as [n2 E2]. exists (n1 + n2). intros fuel Hf. rewrite E1 by lia. cbn [rbind].
    rewrite E2 by lia. done.
Qed.

(** The cycles with their start among [X]. *)
Definition CycleFrom (g : G) (X : list nat) (c : list nat) : Prop := IsCycle g c /\ exists s, head c = Some s /\ s ∈ X.

Definition Lists (P : list nat -> Prop) (cs : list (list nat)) : Prop := NoDup cs /\ forall c, c ∈ cs <-> P c.

Lemma lists_app g X Y cs1 cs2 :
  (forall x, x ∈ X -> x ∉ Y) -> Lists (CycleFrom g X) cs1 -> Lists (CycleFrom g Y) cs2 ->
  Lists (CycleFrom g (X ++ Y)) (cs1 ++ cs2).
Proof.
  intros Hd [Hn1 H1] [Hn2 H2]. split.
  - apply NoDup_app. split_and!; [done| |done]. intros c (_ & s & Hs & Hx)%H1 (_ & s' & Hs' & Hy)%H2.
    apply (Hd s); [done|]. congruence.
  - intros c. rewrite elem_of_app, H1, H2. unfold CycleFrom. split.
    + intros [(? & s & ? & ?)|(? & s & ? & ?)]; (split; [done|]); exists s; set_solver.
    + intros (? & s & ? & [?|?]%elem_of_app); [left|right]; eauto.
Qed.

Definition strongly_connected (g : G) (component : list nat) : Prop :=
  NoDup component /\ forall i j, i ∈ component -> j ∈ component <-> rtc (edge g) i j /\ rtc (edge g) j i.

Lemma cycle_in_component g component start mid :
  strongly_connected g component -> start ∈ component -> linked (edge g) (start :: mid ++ [start]) ->
  Forall (fun x => x ∈ component) mid.
Proof.
  intros [_ Hscc] Hs Hl. apply Forall_forall. intros x Hx. apply (Hscc start x Hs). split.
  - eapply linked_rtc; [done|]. set_solver.
  - apply (linked_rtc_last (edge g) x (start :: mid)); [done|]. by apply list_elem_of_further.
Qed.

Lemma finds_start g component start limit :
  strongly_connected g component -> start ∈ component ->
  exists cs, Lists (CycleFrom g [start]) cs
    /\ Finds limit (fun fuel => search_loop fuel g (list_to_set component) start limit
         [(start, component_neighbors g (list_to_set component) start, 0)] [start] {[start]}) cs.
Proof.
  intros Hc Hs. set (comp := list_to_set component : gset nat).
  assert (start ∈ comp) as Hsc by (by apply elem_of_list_to_set).
  destruct (search_frame g comp start limit Hsc (S (size comp)) start [] (component_neighbors g comp start) 0)
    as (cs & [Hn Hcs] & Hsearch).
  { apply NoDup_singleton. } { apply list_elem_of_here. } { by repeat constructor. }
  { apply component_neighbors_NoDup. }
  { apply Forall_forall. intros x [_ ?]%component_neighbors_spec. done. } { simpl. lia. }
  exists cs. rewrite drop_0 in Hcs. split.
  - split; [done|]. intros c. rewrite Hcs. unfold CycleFrom, IsCycle, extends. split.
    + intros (mid & -> & H1 & H2 & (y & Hy & Hnb) & H3). simpl in *. split; [|exists start; set_solver].
      exists start, mid. apply component_neighbors_spec in Hnb as [Hnb _].
      split_and!; [done|done| |].
      * eapply Forall_impl; [exact H2|]. simpl. tauto.
      * assert (linked (edge g) (mid ++ [start])) as H3' by (eapply linked_mono; [|exact H3]; by intros ? ? _ _ [? _]).
        destruct mid as [|z mid]; injection Hy as ->; (split; [done|]); done.
    + intros ((s & mid & -> & H1 & H2 & H3) & s' & [= <-] & ->%list_elem_of_singleton). exists mid. split; [done|].
      pose proof (cycle_in_component _ _ _ _ Hc Hs H3) as Hin.
      assert (forall x, x ∈ mid ++ [start] -> x ∈ comp) as Hin'.
      { intros x [Hx| ->%list_elem_of_singleton]%elem_of_app; [|done]. rewrite Forall_forall in Hin.
        apply elem_of_list_to_set. by apply Hin. }
      split_and!; [done| | |].
      * apply Forall_forall. intros x Hx. rewrite Forall_forall in H2. split; [|by apply H2].
        apply Hin', elem_of_app. by left.
      * destruct mid as [|z mid]; destruct H3 as [H3 _]; eexists; (split; [done|]);
          apply component_neighbors_spec; (split; [done|]); apply Hin'; set_solver.
      * assert (linked (edge g) (mid ++ [start])) as H3' by (destruct mid; by destruct H3 as [_ H3]).
        eapply linked_mono; [|exact H3']. intros x y _ Hy ?. split; [done|by apply Hin'].
  - intros cycles Hl. destruct (Hsearch cycles [] Hl) as [n En]. exists (n + 1). intros fuel Hf.
    replace fuel with (n + S (fuel - n - 1)) by lia. specialize (En (S (fuel - n - 1))). simpl in En.
    assert ({[start]} ∪ ∅ =@{gset nat} {[start]}) as Eset by (apply set_eq; set_solver). rewrite Eset in En.
    rewrite En. by destruct (reached limit (cycles ++ cs)).
Qed.

Lemma finds_starts g component limit starts :
  strongly_connected g component -> (forall x, x ∈ starts -> x ∈ component) -> NoDup starts ->
  exists cs, Lists (CycleFrom g starts) cs
    /\ Finds limit (fun fuel => search_starts fuel g (list_to_set component) starts limit) cs.
Proof.
  intros Hc Hin Hn. induction Hn as [|start starts Hfresh Hn IH]; cbn [search_starts].
  - exists []. split; [|apply finds_nothing]. split; [by apply NoDup_nil|]. intros c.
    split; [by intros ?%elem_of_nil|]. by intros (_ & s & _ & ?%elem_of_nil).
  - destruct IH as (cs2 & H2 & F2); [set_solver|]. destruct (finds_start g component start limit) as (cs1 & H1 & F1);
      [done|set_solver|]. exists (cs1 ++ cs2). split.
    + change (start :: starts) with ([start] ++ starts). apply lists_app; [|done..]. by intros x ->%list_elem_of_singleton.
    + exact (finds_then limit _ _ _ _ F1 F2).
Qed.

Lemma finds_component g component limit :
  strongly_connected g component ->
  exists cs, Lists (CycleFrom g component) cs /\ Finds limit (fun fuel => search_component fuel g component limit) cs.
Proof.
  intros Hc. assert (forall comp, comp = component ->
    exists cs, Lists (CycleFrom g component) cs
      /\ Finds limit (fun fuel => search_starts fuel g (list_to_set comp) (merge_sort le comp) limit) cs) as Hall.
  { intros ? ->. destruct (finds_starts g component limit (merge_sort le component)) as (cs & [Hn Hcs] & F).
    { done. } { intros x. by rewrite merge_sort_Permutation. } { rewrite merge_sort_Permutation. apply Hc. }
    exists cs. split; [|exact F]. split; [done|]. intros c. rewrite Hcs. unfold CycleFrom.
    split; (intros (? & s & ? & Hs); split; [done|]; exists s; split; [done|]); revert Hs; by rewrite merge_sort_Permutation. }
  destruct component as [|node [|node' component]]; [by apply Hall| |by apply Hall].
  - exists (if bool_decide (node ∈ dg_outgoing g node) then [[node; node]] else []). split.
    + split; [case_bool_decide; [apply NoDup_singleton|by apply NoDup_nil]|]. intros c. unfold CycleFrom. split.
      * case_bool_decide as Hself; [|by intros ?%elem_of_nil]. intros ->%list_elem_of_singleton.
        split; [|exists node; set_solver]. exists node, []. split_and!; [done|apply NoDup_singleton|done|done].
      * intros ((s & mid & -> & H1 & H2 & H3) & s' & [= <-] & ->%list_elem_of_singleton).
        pose proof (cycle_in_component _ _ _ _ Hc (list_elem_of_here _ _) H3) as Hin.
        destruct mid as [|z mid].
        -- destruct H3 as [H3 _]. rewrite bool_decide_eq_true_2 by done. apply list_elem_of_here.
        -- apply Forall_cons in Hin as [->%list_elem_of_singleton _]. apply NoDup_cons in H1 as [H1 _].
           exfalso. apply H1, list_elem_of_here.
    + intros cycles Hl. exists 0. intros fuel _. simpl. case_bool_decide; [|by rewrite app_nil_r, Hl].
      destruct (reached limit (cycles ++ [[node; node]])) eqn:Er; [|done]. f_equal. f_equal.
      unfold cut, reached in *. destruct limit as [k|]; [|done]. apply Nat.leb_gt in Hl.
      rewrite firstn_all2; [done|]. rewrite length_app. simpl. apply Nat.leb_le in Er. rewrite length_app in Er. simpl in Er. lia.
Qed.

Lemma scc_strongly_connected g c : c ∈ dg_kosaraju_scc g -> strongly_connected g c.
Proof.
  intros Hc. split; [|intros i j Hi; by eapply scc_connected].
  pose proof (scc_NoDup g) as Hn. apply list_elem_of_split in Hc as (l1 & l2 & E). rewrite E in Hn.
  rewrite concat_app in Hn. simpl in Hn. by apply NoDup_app in Hn as (_ & _ & (? & _ & _)%NoDup_app).
Qed.

Lemma finds_components g limit components :
  Forall (strongly_connected g) components -> NoDup (concat components) ->
  exists cs, Lists (CycleFrom g (concat components)) cs
    /\ Finds limit (fun fuel => search_components fuel g components limit) cs.
Proof.
  intros Hc. induction Hc as [|component components Hc _ IH]; intros Hn; cbn [search_components concat].
  - exists []. split; [|apply finds_nothing]. split; [by apply NoDup_nil|]. intros c.
    split; [by intros ?%elem_of_nil|]. by intros (_ & s & _ & ?%elem_of_nil).
  - apply NoDup_app in Hn as (_ & Hd & Hn). destruct (IH Hn) as (cs2 & H2 & F2).
    destruct (finds_component g component limit Hc) as (cs1 & H1 & F1). exists (cs1 ++ cs2).
    split; [by apply lists_app|]. exact (finds_then limit _ _ _ _ F1 F2).
Qed.

(** Every elementary cycle is found, each one once, up to the limit. *)
Lemma find_cycles_spec g limit :
  limit <> Some 0 ->
  exists all n, NoDup all /\ (forall c, c ∈ all <-> IsCycle g c)
    /\ forall fuel, n <= fuel -> find_cycles fuel g limit = Ok (cut limit all).
Proof.
  intros Hlim. destruct (finds_components g limit (dg_kosaraju_scc g)) as (cs & [Hn Hcs] & F).
  { apply Forall_forall. intros c. apply scc_strongly_connected. } { apply scc_NoDup. }
  destruct (F []) as [n En]; [destruct limit as [[|]|]; done|]. exists cs, n. split_and!; [done| |].
  - intros c. rewrite Hcs. unfold CycleFrom. split; [tauto|]. intros Hc. split; [done|].
    destruct Hc as (s & mid & -> & _ & _ & Hl). exists s. split; [done|]. apply scc_indices.
    destruct mid as [|z mid]; destruct Hl as [Hl _]; by apply edge_range in Hl as [? _].
  - intros fuel Hf. unfold find_cycles. rewrite En by done. cbn [rbind app].
    unfold cut, reached in *. destruct limit as [k|]; [|done]. destruct (k <=? length cs) eqn:Ek; [done|].
    apply Nat.leb_gt in Ek. cbn [rbind]. rewrite firstn_all2 by lia. done.
Qed.

(** A graph without elementary cycles has no cycles at all. *)
Lemma elementary_cycle g i : tc (edge g) i i -> exists c, IsCycle g c.
Proof.
  intros (l & Hl)%tc_linked. apply simple_cycle in Hl as (z & mid & Hl & Hn).
  destruct (least_element z mid) as (m & Hm & Hmin). apply list_elem_of_split in Hm as (a & b & E).
  exists (m :: (b ++ a) ++ [m]), m, (b ++ a). split; [done|].
  assert (m :: b ++ a ≡ₚ z :: mid) as Hp by (rewrite E, (Permutation_app_comm b a); apply Permutation_middle). split_and!.
  - by rewrite Hp.
  - apply Forall_cons_1 with (x := m). by rewrite Hp.
  - destruct a as [|z' a]; injection E as -> ->; [by rewrite app_nil_r|].
    rewrite <- app_assoc in Hl. change (z' :: a ++ (m :: b) ++ [z']) with ((z' :: a) ++ m :: (b ++ [z'])) in Hl.
    apply linked_split in Hl as [H1 H2]. rewrite <- app_assoc.
    change (m :: b ++ (z' :: a) ++ [m]) with ((m :: b) ++ z' :: (a ++ [m])). by apply linked_app.
Qed.
End cycles.
