(* ===== verification/TaskGraphFacts.v ===== *)
(** * Lemmas on the task graph

    The graph seen by task keys: which task runs after which, and what the operations of the
    graph do to that relation; the keys of tasks and the equality of tasks. *)

From S2P Require Import Prelude RustStr TaskGraph TaskCycles.

(** ** Removal by swapping *)

Section swap.
Context {A : Type}.

Lemma swap_remove_lookup (l : list A) i j :
  i < length l ->
  swap_remove l i !! j = if j <? length l - 1 then l !! index_before (length l) i j else None.
Proof.
  intros Hi. unfold swap_remove, index_before. destruct (last l) as [x|] eqn:Hl.
  2:{ apply last_None in Hl as ->. simpl in Hi. lia. }
  rewrite last_lookup in Hl. replace (pred (length l)) with (length l - 1) in Hl by lia.
  destruct (j <? length l - 1) eqn:Hj; bool_prop.
  - rewrite lookup_take_lt by done. destruct (j =? i) eqn:Hji; bool_prop.
    + subst. rewrite list_lookup_insert_eq by done. done.
    + by rewrite list_lookup_insert_ne.
  - apply lookup_take_ge. lia.
Qed.

Lemma swap_remove_length (l : list A) i : i < length l -> length (swap_remove l i) = length l - 1.
Proof.
  intros Hi. unfold swap_remove. destruct (last l) as [x|] eqn:Hl; [|apply last_None in Hl as ->; done].
  rewrite length_take, length_insert. lia.
Qed.

Lemma swap_remove_perm (l : list A) i x : l !! i = Some x -> l ≡ₚ x :: swap_remove l i.
Proof.
  intros Hi. pose proof (lookup_lt_Some _ _ _ Hi) as Hlt. unfold swap_remove.
  destruct (last l) as [y|] eqn:Hl; [|by apply last_None in Hl as ->].
  apply last_Some in Hl as [l' ->]. rewrite length_app. simpl. replace (length l' + 1 - 1) with (length l') by lia.
  rewrite length_app in Hlt. simpl in Hlt. destruct (decide (i = length l')) as [->|Hne].
  - rewrite list_lookup_middle in Hi by done. injection Hi as ->.
    rewrite insert_app_r_alt by lia. rewrite Nat.sub_diag. simpl. rewrite take_app_length. by rewrite Permutation_app_comm.
  - rewrite insert_app_l by lia. rewrite take_app_length' by (by rewrite length_insert).
    rewrite lookup_app_l in Hi by lia. apply list_elem_of_split_length in Hi as (l1 & l2 & -> & ->).
    rewrite insert_app_r_alt by lia. rewrite Nat.sub_diag. simpl. rewrite Permutation_app_comm. simpl.
    rewrite <- !Permutation_middle. constructor.
Qed.
End swap.

(** ** The graph by keys *)

Section graph.
Context {R G : Type} `{DiGraphLaws (Task R) G}.

(** The task with key [k] runs after the one with key [k']. *)
Definition runs_after (g : G) (k k' : TaskKey) : Prop :=
  exists i j, edge g i j /\ node_keys g !! i = Some k /\ node_keys g !! j = Some k'.

Lemma node_keys_length g : length (node_keys g) = node_count g.
Proof. unfold node_keys, node_count. by rewrite length_map. Qed.

Lemma node_keys_lookup g i : node_keys g !! i = task_key <$> dg_nodes g !! i.
Proof. unfold node_keys. by rewrite list_lookup_fmap. Qed.

Lemma runs_after_keys g k k' : runs_after g k k' -> k ∈ node_keys g /\ k' ∈ node_keys g.
Proof. intros (i & j & _ & Hi & Hj). split; by eapply list_elem_of_lookup_2. Qed.

Lemma add_node_keys g t : node_keys (dg_add_node g t).1 = node_keys g ++ [task_key t].
Proof. unfold node_keys. destruct (add_node_nodes g t) as [-> _]. by rewrite map_app. Qed.

Lemma add_node_runs_after g t k k' : runs_after (dg_add_node g t).1 k k' <-> runs_after g k k'.
Proof.
  unfold runs_after. split; intros (i & j & He & Hi & Hj); exists i, j.
  - apply add_node_edge in He. pose proof (edge_range g i j He) as [Hli Hlj].
    rewrite add_node_keys, lookup_app_l in Hi, Hj by (rewrite node_keys_length; lia). done.
  - split; [by apply add_node_edge|]. rewrite add_node_keys.
    rewrite !lookup_app_l by (by eapply lookup_lt_Some). done.
Qed.

Lemma set_keys g i t : node_keys g !! i = Some (task_key t) -> node_keys (dg_set g i t) = node_keys g.
Proof.
  intros Hi. unfold node_keys. rewrite set_nodes, list_fmap_insert. by apply list_insert_id.
Qed.

Lemma set_runs_after g i t k k' :
  node_keys g !! i = Some (task_key t) -> runs_after (dg_set g i t) k k' <-> runs_after g k k'.
Proof. intros Hi. unfold runs_after. rewrite set_keys by done. by setoid_rewrite set_edge. Qed.

Lemma update_edge_keys g a b : node_keys (dg_update_edge g a b) = node_keys g.
Proof. unfold node_keys. by rewrite update_edge_nodes. Qed.

Lemma update_edge_runs_after g a b ka kb k k' :
  node_keys g !! a = Some ka -> node_keys g !! b = Some kb ->
  runs_after (dg_update_edge g a b) k k' <-> runs_after g k k' \/ (k = ka /\ k' = kb).
Proof.
  intros Ha Hb. pose proof (lookup_lt_Some _ _ _ Ha) as Hla. pose proof (lookup_lt_Some _ _ _ Hb) as Hlb.
  rewrite node_keys_length in Hla, Hlb. unfold runs_after. rewrite update_edge_keys. split.
  - intros (i & j & He & Hi & Hj). apply update_edge_edge in He as [He|[-> ->]]; [left; by exists i, j|right|done..].
    split; congruence.
  - intros [(i & j & He & Hi & Hj)|[-> ->]].
    + exists i, j. rewrite update_edge_edge by done. auto.
    + exists a, b. rewrite update_edge_edge by done. auto.
Qed.

Lemma remove_perm g i t : dg_nodes g !! i = Some t -> dg_nodes g ≡ₚ t :: dg_nodes (dg_remove_node g i).
Proof. intros Hi. rewrite remove_node_nodes by (by eapply lookup_lt_Some). by apply swap_remove_perm. Qed.

Lemma remove_keys_lookup g i j :
  i < node_count g ->
  node_keys (dg_remove_node g i) !! j
  = if j <? node_count g - 1 then node_keys g !! index_before (node_count g) i j else None.
Proof.
  intros Hi. rewrite !node_keys_lookup, remove_node_nodes by done. unfold node_count in *.
  rewrite swap_remove_lookup by done. by destruct (j <? length (dg_nodes g) - 1).
Qed.

Lemma remove_runs_after g i k k1 k2 :
  NoDup (node_keys g) -> node_keys g !! i = Some k ->
  runs_after (dg_remove_node g i) k1 k2 <-> runs_after g k1 k2 /\ k1 <> k /\ k2 <> k.
Proof.
  intros Hn Hi. pose proof (lookup_lt_Some _ _ _ Hi) as Hlt. rewrite node_keys_length in Hlt.
  assert (forall j kj, node_keys g !! j = Some kj -> kj = k -> j = i) as Huniq.
  { intros j kj Hj ->. by eapply NoDup_lookup. }
  assert (forall j, j < node_count g - 1 -> index_before (node_count g) i j <> i) as Hback.
  { intros j Hj. unfold index_before. destruct (j =? i) eqn:E; bool_prop; lia. }
  unfold runs_after. split.
  - intros (a & b & He & Ha & Hb). apply remove_node_edge in He as (Hla & Hlb & He); [|done].
    rewrite remove_keys_lookup in Ha, Hb by done.
    rewrite (proj2 (Nat.ltb_lt _ _)) in Ha by done. rewrite (proj2 (Nat.ltb_lt _ _)) in Hb by done.
    split; [by exists (index_before (node_count g) i a), (index_before (node_count g) i b)|].
    split; intros ->; [apply (Hback a)|apply (Hback b)]; try done; by eapply Huniq.
  - intros [(a & b & He & Ha & Hb) [H1 H2]].
    assert (a <> i /\ b <> i) as [Hai Hbi] by (split; intros ->; congruence).
    pose proof (edge_range g a b He) as [Hla Hlb].
    assert (forall j, j < node_count g -> j <> i ->
      exists j', j' < node_count g - 1 /\ index_before (node_count g) i j' = j) as Hfwd.
    { intros j Hj Hji. destruct (decide (j = node_count g - 1)) as [->|Hl].
      - exists i. unfold index_before. rewrite Nat.eqb_refl. split; [lia|done].
      - exists j. unfold index_before. rewrite (proj2 (Nat.eqb_neq j i)) by done. split; [lia|done]. }
    destruct (Hfwd a) as (a' & Ha' & Ea); [done..|]. destruct (Hfwd b) as (b' & Hb' & Eb); [done..|].
    exists a', b'. rewrite remove_node_edge, !remove_keys_lookup by done.
    rewrite !(proj2 (Nat.ltb_lt _ _)) by done. by rewrite Ea, Eb.
Qed.

(** ** Cycles by keys *)

Lemma tc_runs_after g k k' : NoDup (node_keys g) ->
  tc (runs_after g) k k' -> exists i j, tc (edge g) i j /\ node_keys g !! i = Some k /\ node_keys g !! j = Some k'.
Proof.
  intros Hn. induction 1 as [k k' (i & j & He & Hi & Hj)|k k1 k' (i & j & He & Hi & Hj) _ (i' & j' & Ht & Hi' & Hj')].
  - exists i, j. split; [by apply tc_once|done].
  - assert (j = i') as -> by (by eapply NoDup_lookup). exists i, j'. split; [by eapply tc_l|done].
Qed.

Definition acyclic (g : G) : Prop := forall k, ~ tc (runs_after g) k k.

Lemma no_cycles_acyclic g : NoDup (node_keys g) -> (forall c, ~ IsCycle g c) -> acyclic g.
Proof.
  intros Hn Hc k Hk. destruct (tc_runs_after g k k Hn Hk) as (i & j & Ht & Hi & Hj).
  assert (i = j) as -> by (by eapply NoDup_lookup). apply elementary_cycle in Ht as [c Hcyc]. by apply (Hc c).
Qed.

Lemma tc_edge g i j : tc (edge g) i j -> exists k k', tc (runs_after g) k k' /\ node_keys g !! i = Some k /\ node_keys g !! j = Some k'.
Proof.
  assert (forall i j, edge g i j -> exists k k', runs_after g k k' /\ node_keys g !! i = Some k /\ node_keys g !! j = Some k') as Hone.
  { intros a b He. pose proof (edge_range g a b He) as [Ha Hb]. rewrite <- node_keys_length in Ha, Hb.
    apply lookup_lt_is_Some_2 in Ha as [ka Ha], Hb as [kb Hb]. exists ka, kb. split; [by exists a, b|done]. }
  induction 1 as [i j He|i i' j He _ (k1 & k' & Ht & Hi' & Hj)].
  - destruct (Hone i j He) as (k & k' & Hr & ? & ?). exists k, k'. split; [by apply tc_once|done].
  - destruct (Hone i i' He) as (k & k2 & Hr & Hi & Hi2). assert (k2 = k1) as -> by congruence.
    exists k, k'. split; [by eapply tc_l|done].
Qed.

(** A graph with nodes and without cycles has a leaf. *)
Lemma acyclic_leaf g : acyclic g -> node_count g <> 0 -> exists i, i ∈ dg_externals g.
Proof.
  intros Ha Hne. destruct (decide (Exists (fun i => dg_outgoing g i = []) (indices g))) as [He|He].
  - apply Exists_exists in He as (i & Hi & Ho). exists i. apply externals_spec. split; [|done].
    apply elem_of_seq in Hi. lia.
  - rewrite <- Forall_Exists_neg, Forall_forall in He.
    destruct (successors_cycle (edge g) (indices g)) with (n := length (indices g)) (V := @nil nat) (x := 0) as (y & _ & Hy).
    + intros x Hx. destruct (dg_outgoing g x) as [|y l] eqn:Ho; [by destruct (He x Hx)|].
      assert (edge g x y) as Hxy by (unfold edge; rewrite Ho; apply list_elem_of_here).
      exists y. split; [|done]. apply elem_of_seq. apply edge_range in Hxy as [_ ?]. lia.
    + apply elem_of_seq. lia.
    + by intros v ?%elem_of_nil.
    + by apply NoDup_nil.
    + simpl. lia.
    + apply tc_edge in Hy as (k & k' & Ht & Hk & Hk'). exfalso. apply (Ha k). by rewrite Hk in Hk'; injection Hk' as <-.
Qed.

Lemma external_leaf g i : NoDup (node_keys g) -> i ∈ dg_externals g ->
  exists t, dg_nodes g !! i = Some t /\ forall k', ~ runs_after g (task_key t) k'.
Proof.
  intros Hn [Hi Ho]%externals_spec. apply lookup_lt_is_Some_2 in Hi as [t Ht]. exists t. split; [done|].
  intros k' (a & b & He & Ha & _). assert (node_keys g !! i = Some (task_key t)) as Hi by (by rewrite node_keys_lookup, Ht).
  assert (a = i) as -> by (by eapply NoDup_lookup). unfold edge in He. rewrite Ho in He. by apply elem_of_nil in He.
Qed.

Lemma leaf_external g k : k ∈ node_keys g -> (forall k', ~ runs_after g k k') ->
  exists i t, i ∈ dg_externals g /\ dg_nodes g !! i = Some t /\ task_key t = k.
Proof.
  intros [i Hi]%list_elem_of_lookup Hk. pose proof Hi as Hl. rewrite node_keys_lookup in Hi.
  apply fmap_Some in Hi as (t & Ht & ->). exists i, t. split_and!; [|done|done]. apply externals_spec.
  pose proof (lookup_lt_Some _ _ _ Ht) as Hlt. split; [done|].
  destruct (dg_outgoing g i) as [|j l] eqn:Ho; [done|]. exfalso.
  assert (edge g i j) as He by (unfold edge; rewrite Ho; apply list_elem_of_here).
  pose proof (edge_range g i j He) as [_ Hj]. rewrite <- node_keys_length in Hj. apply lookup_lt_is_Some_2 in Hj as [k' Hj].
  apply (Hk k'). by exists i, j.
Qed.

Lemma elem_of_leaves g t : t ∈ leaves g <-> exists i, i ∈ dg_externals g /\ dg_nodes g !! i = Some t.
Proof. unfold leaves. by rewrite list_elem_of_omap. Qed.
End graph.
