(* ===== verification/TaskGraphRun.v ===== *)
(** * Running the task graph

    Whatever is subscribed, removed and marked in whatever order, a task is sent after all it
    runs after, what can start has been sent, and the panic of [emit_leaves] does not happen. *)

From S2P Require Import Prelude RustStr TaskGraph TaskCycles TaskGraphFacts.

(** ** Operations *)

Inductive op (R : Type) : Type :=
| Subscribe
| Unsubscribe
| Remove (t : Task R)
| RemoveBatch (ts : list (Task R))
| MarkExecuted (t : Task R)
| UnmarkExecuted (t : Task R)
| MarkDidWork (t : Task R)
| MarkCacheKey (t : Task R) (key : str).
Arguments Subscribe {R}.
Arguments Unsubscribe {R}.
Arguments Remove {R}.
Arguments RemoveBatch {R}.
Arguments MarkExecuted {R}.
Arguments UnmarkExecuted {R}.
Arguments MarkDidWork {R}.
Arguments MarkCacheKey {R}.

(** The tasks an operation is about. *)
Definition op_tasks {R} (o : op R) : list (Task R) :=
  match o with
  | Subscribe | Unsubscribe => []
  | RemoveBatch ts => ts
  | Remove t | MarkExecuted t | UnmarkExecuted t | MarkDidWork t | MarkCacheKey t _ => [t]
  end.

Section run.
Context {R G : Type} `{DiGraphLaws (Task R) G}.

Definition perform (d : Deps R G) (o : op R) : option (Deps R G) :=
  match o with
  | Subscribe => subscribe d
  | Unsubscribe => Some (unsubscribe d)
  | Remove t => remove d t
  | RemoveBatch ts => remove_batch d ts
  | MarkExecuted t => Some (mark_executed d t)
  | UnmarkExecuted t => Some (unmark_executed d t)
  | MarkDidWork t => Some (mark_did_work d t)
  | MarkCacheKey t key => Some (mark_cache_key d t key)
  end.

Fixpoint run (d : Deps R G) (ops : list (op R)) : option (Deps R G) :=
  match ops with
  | [] => Some d
  | o :: ops => match perform d o with Some d => run d ops | None => None end
  end.

(** A graph as it is built, in which equal tasks have equal keys. *)
Record Startable (d : Deps R G) : Prop := {
  st_keys : NoDup (node_keys d.(graph));
  st_acyclic : acyclic d.(graph);
  st_equal : forall t t', t ∈ all d -> t' ∈ all d -> task_eq t t' = true -> task_key t = task_key t';
  st_sent : d.(sent) = ∅;
  st_removed : d.(removed) = ∅;
  st_tx : d.(tx) = None
}.

Context (d0 : Deps R G) (Hd0 : Startable d0).

Abbreviation present s := (List.filter (fun t => negb (bool_decide (task_key t ∈ s))) (all d0)).

Record Core (d : Deps R G) : Prop := {
  core_nodes : all d ≡ₚ present d.(removed);
  core_edges k k' : runs_after d.(graph) k k' <->
    runs_after d0.(graph) k k' /\ (k ∉ d.(removed)) /\ (k' ∉ d.(removed));
  core_removed k : k ∈ d.(removed) -> k ∈ node_keys d0.(graph);
  core_sent k : k ∈ d.(sent) -> k ∈ node_keys d0.(graph) /\ forall k', runs_after d0.(graph) k k' -> k' ∈ d.(removed)
}.

(** What has been sent to the receiver. *)
Definition Messages (d : Deps R G) : Prop :=
  match d.(tx) with
  | None => True
  | Some ms => (forall t, Some t ∈ ms -> t ∈ all d0 /\ task_key t ∈ d.(sent))
      /\ NoDup (map task_key (omap id ms)) /\ (None ∈ ms -> all d = [])
  end.

(** What can start has been sent, and the end of the stream. *)
Definition Settled (d : Deps R G) : Prop :=
  match d.(tx) with
  | None => True
  | Some ms => (forall k, k ∈ node_keys d.(graph) -> (forall k', ~ runs_after d.(graph) k k') -> k ∈ d.(sent))
      /\ (all d = [] -> None ∈ ms)
  end.

Lemma all_node_keys (d : Deps R G) : node_keys d.(graph) = map task_key (all d).
Proof. done. Qed.

Lemma core_elem d t : Core d -> t ∈ all d <-> t ∈ all d0 /\ task_key t ∉ d.(removed).
Proof.
  intros Hc. rewrite (core_nodes d Hc), list_elem_of_In, filter_In, <- list_elem_of_In, negb_true_iff, bool_decide_eq_false. done.
Qed.

Lemma core_keys d k : Core d -> k ∈ node_keys d.(graph) <-> k ∈ node_keys d0.(graph) /\ k ∉ d.(removed).
Proof.
  intros Hc. rewrite !all_node_keys, !list_elem_of_fmap. split.
  - intros (t & -> & [? ?]%core_elem); [|done]. split; [by exists t|done].
  - intros ((t & -> & ?) & ?). exists t. split; [done|]. by apply core_elem.
Qed.

Lemma core_NoDup d : Core d -> NoDup (node_keys d.(graph)).
Proof.
  intros Hc. rewrite all_node_keys, (core_nodes d Hc). pose proof (st_keys d0 Hd0) as Hn. rewrite all_node_keys in Hn.
  induction (all d0) as [|t l IH]; simpl in *; [apply NoDup_nil; done|]. apply NoDup_cons in Hn as [Ht Hn].
  destruct (negb _); simpl; [|by apply IH]. apply NoDup_cons. split; [|by apply IH].
  intros (t' & E & Hin)%list_elem_of_fmap. apply list_elem_of_In, filter_In in Hin as [Hin _].
  apply Ht, list_elem_of_fmap. exists t'. split; [done|by apply list_elem_of_In].
Qed.

Lemma core_acyclic d : Core d -> acyclic d.(graph).
Proof.
  intros Hc k Hk. apply (st_acyclic d0 Hd0 k). revert Hk. generalize k at 1 3. intros k1.
  induction 1 as [k1 k2 Hr%core_edges|k1 k2 k3 Hr%core_edges _ IH]; [|done| |done].
  - apply tc_once. tauto.
  - eapply tc_l; [|exact IH]. tauto.
Qed.

Lemma core_start : Core d0.
Proof.
  pose proof (st_removed d0 Hd0) as E. constructor.
  - rewrite E. induction (all d0) as [|t l IH]; simpl; [done|]. rewrite bool_decide_eq_false_2 by set_solver. simpl. by constructor.
  - intros k k'. rewrite E. set_solver.
  - rewrite E. set_solver.
  - rewrite (st_sent d0 Hd0). set_solver.
Qed.

(** ** Emission *)

Lemma emit_leaf_spec d t :
  Core d -> Messages d -> t ∈ all d -> (forall k', ~ runs_after d.(graph) (task_key t) k') ->
  let d' := emit_leaf d t in
  Core d' /\ Messages d' /\ d'.(graph) = d.(graph) /\ d'.(removed) = d.(removed) /\ d.(sent) ⊆ d'.(sent)
  /\ (d.(tx) = None -> d' = d) /\ (d.(tx) <> None -> d'.(tx) <> None /\ task_key t ∈ d'.(sent)).
Proof.
  intros Hc Hm Ht Hleaf d'. subst d'. unfold emit_leaf. case_bool_decide as Hs; [split_and!; done|].
  unfold Messages in Hm. destruct (tx d) as [ms|] eqn:Etx;
    [|split_and!; try done; unfold Messages; by rewrite Etx].
  destruct Hm as (Hm1 & Hm2 & Hm3). pose proof Hc as [Hc1 Hc2 Hc3 Hc4].
  apply (core_elem d t Hc) in Ht as [Ht Hr]. split_and!; try done; [| |by apply union_subseteq_r|split; [done|by apply elem_of_union_l, elem_of_singleton]].
  - constructor; [exact Hc1|exact Hc2|exact Hc3|]. simpl. intros k [->%elem_of_singleton|Hk]%elem_of_union; [|by apply Hc4].
    split; [rewrite all_node_keys; by apply list_elem_of_fmap_2|]. intros k' Hk'.
    destruct (decide (k' ∈ d.(removed))); [done|]. exfalso. apply (Hleaf k'), Hc2. done.
  - unfold Messages. simpl. split_and!.
    + intros t' [Hin|[= ->]%list_elem_of_singleton]%elem_of_app; [apply Hm1 in Hin as [? ?]; split; [done|by apply elem_of_union_r]|].
      split; [done|by apply elem_of_union_l, elem_of_singleton].
    + rewrite omap_app, map_app. simpl. apply NoDup_app. split_and!; [done| |apply NoDup_singleton].
      intros k Hk ->%list_elem_of_singleton. apply list_elem_of_fmap in Hk as (t' & E & Hin).
      apply list_elem_of_omap in Hin as ([t''|] & Hin & [= ->]). apply Hm1 in Hin as [_ Hin]. congruence.
    + intros [Hn|Hn%list_elem_of_singleton]%elem_of_app; [by apply Hm3|done].
Qed.

Lemma emit_leaf_fold ls d :
  Core d -> Messages d -> (forall t, t ∈ ls -> t ∈ all d /\ forall k', ~ runs_after d.(graph) (task_key t) k') ->
  let d' := fold_left emit_leaf ls d in
  Core d' /\ Messages d' /\ d'.(graph) = d.(graph) /\ d'.(removed) = d.(removed) /\ d.(sent) ⊆ d'.(sent)
  /\ (d.(tx) = None -> d' = d) /\ (d.(tx) <> None -> d'.(tx) <> None /\ forall t, t ∈ ls -> task_key t ∈ d'.(sent)).
Proof.
  revert d. induction ls as [|t ls IH]; intros d Hc Hm Hls; simpl; [by split_and!; try done; split; [|intros ? ?%elem_of_nil]|].
  destruct (Hls t) as [Ht Hleaf]; [apply list_elem_of_here|].
  destruct (emit_leaf_spec d t Hc Hm Ht Hleaf) as (Hc1 & Hm1 & Eg & Er & Hsub & Hnone & Hsome).
  destruct (IH (emit_leaf d t) Hc1 Hm1) as (Hc2 & Hm2 & Eg2 & Er2 & Hsub2 & Hnone2 & Hsome2).
  { unfold all. rewrite Eg. intros t' Ht'. apply Hls. by apply list_elem_of_further. }
  split_and!; [done|done|congruence|congruence|by etrans| |].
  - intros Htx. rewrite Hnone2; [by apply Hnone|by rewrite Hnone].
  - intros Htx. destruct (Hsome Htx) as [Htx1 Hk]. destruct (Hsome2 Htx1) as [Htx2 Hall]. split; [done|].
    intros t' [->|Ht']%elem_of_cons; [by apply Hsub2|by apply Hall].
Qed.

Lemma emit_leaves_good d :
  Core d -> Messages d ->
  exists d', emit_leaves d = Some d' /\ Core d' /\ Messages d' /\ Settled d'
    /\ d'.(graph) = d.(graph) /\ d'.(removed) = d.(removed).
Proof.
  intros Hc Hm. pose proof (core_NoDup d Hc) as Hn.
  assert (forall t, t ∈ leaves d.(graph) -> t ∈ all d /\ forall k', ~ runs_after d.(graph) (task_key t) k') as Hls.
  { intros t (i & Hi & Ht)%elem_of_leaves. destruct (external_leaf _ i Hn Hi) as (t' & Ht' & Hleaf).
    assert (t' = t) as -> by congruence. split; [by eapply list_elem_of_lookup_2|done]. }
  destruct (emit_leaf_fold _ d Hc Hm Hls) as (Hc' & Hm' & Eg & Er & _ & Hnone & Hsome). unfold emit_leaves.
  set (d' := fold_left emit_leaf (leaves (graph d)) d) in *.
  assert (all d' = all d) as Eall by (unfold all; by rewrite Eg).
  destruct (is_empty d') eqn:Eempty.
  - apply Nat.eqb_eq in Eempty. assert (all d' = []) as Hall by (by apply nil_length_inv).
    eexists. split; [done|]. simpl. split_and!; [by destruct Hc'| | |done|done].
    + unfold Messages in *. simpl. destruct (tx d') as [ms|]; simpl; [|done]. destruct Hm' as (H1 & H2 & H3).
      split_and!; [|by rewrite omap_app, app_nil_r|done]. intros t [Hin|Hin%list_elem_of_singleton]%elem_of_app; [by apply H1|done].
    + unfold Settled. simpl. destruct (tx d') as [ms|]; simpl; [|done]. split; [|intros _; set_solver].
      intros k Hk. rewrite all_node_keys, Hall in Hk. by apply elem_of_nil in Hk.
  - apply Nat.eqb_neq in Eempty. rewrite Eg in Eempty. destruct (acyclic_leaf d.(graph) (core_acyclic d Hc) Eempty) as [i Hi].
    destruct (external_leaf _ i Hn Hi) as (t & Ht & _).
    assert (t ∈ leaves (graph d)) as Hin by (apply elem_of_leaves; by exists i).
    destruct (leaves (graph d)) as [|t0 ls] eqn:Els; [by apply elem_of_nil in Hin|]. cbn [andb].
    exists d'. split_and!; try done. unfold Settled. destruct (tx d') as [ms|] eqn:Etx; [|done].
    destruct (tx d) as [ms0|] eqn:Etx0; [|rewrite (Hnone eq_refl) in Etx; congruence].
    destruct Hsome as [_ Hsome]; [done|]. split.
    + rewrite Eg. intros k Hk Hleaf. destruct (leaf_external _ k Hk Hleaf) as (j & t' & Hj & Ht' & <-).
      apply Hsome. rewrite <- Els. apply elem_of_leaves. by exists j.
    + intros Hall. exfalso. apply Eempty. unfold node_count. change (dg_nodes (graph d)) with (all d). by rewrite <- Eall, Hall.
Qed.

(** ** Removal *)

Lemma present_remove (l : list (Task R)) (t : Task R) (s : gset TaskKey) :
  NoDup (map task_key l) -> t ∈ l -> task_key t ∉ s ->
  List.filter (fun t => negb (bool_decide (task_key t ∈ s))) l
  ≡ₚ t :: List.filter (fun t' => negb (bool_decide (task_key t' ∈ {[task_key t]} ∪ s))) l.
Proof.
  intros Hn Hin Hs. induction l as [|u l IH]; [by apply elem_of_nil in Hin|]. cbn [List.filter map] in *.
  apply NoDup_cons in Hn as [Hu Hn]. apply elem_of_cons in Hin as [<-|Hin].
  - rewrite bool_decide_eq_false_2, bool_decide_eq_true_2; [|by apply elem_of_union_l, elem_of_singleton|done].
    cbn [negb]. constructor. match goal with |- ?a ≡ₚ ?b => assert (a = b) as ->; [|done] end.
    apply List.filter_ext_in. intros v Hv. f_equal. apply bool_decide_ext.
    rewrite elem_of_union, elem_of_singleton. split; [by right|]. intros [E|?]; [|done].
    exfalso. apply Hu, list_elem_of_fmap. exists v. split; [done|by apply list_elem_of_In].
  - rewrite (bool_decide_ext (task_key u ∈ {[task_key t]} ∪ s) (task_key u ∈ s)).
    + destruct (negb _); [rewrite IH by done; constructor|by apply IH].
    + rewrite elem_of_union, elem_of_singleton. split; [|by right]. intros [E|?]; [|done].
      exfalso. apply Hu, list_elem_of_fmap. exists t. split; [congruence|done].
Qed.

Lemma task_eq_refl (t : Task R) : task_eq t t = true.
Proof. unfold task_eq. by rewrite !bool_decide_eq_true_2. Qed.

Lemma node_idx_spec d t :
  Core d -> t ∈ all d0 ->
  match node_idx d t with
  | Some idx => node_keys d.(graph) !! idx = Some (task_key t)
  | None => task_key t ∈ d.(removed)
  end.
Proof.
  intros Hc Ht. unfold node_idx. destruct (List.find _ _) as [idx|] eqn:E.
  - apply find_some in E as [_ E]. rewrite node_keys_lookup. destruct (dg_nodes (graph d) !! idx) as [t'|] eqn:El; [|done].
    simpl. f_equal. apply (st_equal d0 Hd0); [|done|done]. apply list_elem_of_lookup_2 in El. by apply (core_elem d t' Hc) in El as [? _].
  - destruct (decide (task_key t ∈ d.(removed))) as [|Hr]; [done|]. exfalso.
    assert (t ∈ all d) as Hin by (by apply core_elem). apply list_elem_of_lookup in Hin as [i Hi].
    unfold all in Hi. assert (In i (indices (graph d))) as Hii.
    { apply list_elem_of_In, elem_of_seq. pose proof (lookup_lt_Some _ _ _ Hi). unfold node_count. lia. }
    pose proof (find_none _ _ E i Hii) as Hf. cbv beta in Hf. by rewrite Hi, task_eq_refl in Hf.
Qed.

Lemma take_out_spec d t :
  Core d -> Messages d -> t ∈ all d0 ->
  match take_out d t with
  | Some d' => Core d' /\ Messages d' /\ d'.(removed) = {[task_key t]} ∪ d.(removed) /\ d'.(tx) = d.(tx)
  | None => task_key t ∈ d.(removed)
  end.
Proof.
  intros Hc Hm Ht. pose proof (node_idx_spec d t Hc Ht) as Hidx. unfold take_out.
  destruct (node_idx d t) as [idx|]; [|done]. simpl. pose proof (core_NoDup d Hc) as Hn. pose proof Hidx as Hk.
  rewrite node_keys_lookup in Hidx. apply fmap_Some in Hidx as (t' & Ht' & Ekey).
  pose proof Hc as [Hc1 Hc2 Hc3 Hc4].
  assert (all d ≡ₚ t' :: dg_nodes (dg_remove_node d.(graph) idx)) as Hp by (by apply remove_perm).
  assert (Core (set_removed d (dg_remove_node (graph d) idx) ({[task_key t]} ∪ removed d))) as Hcore.
  { constructor; simpl.
    - change (all (set_removed d (dg_remove_node (graph d) idx) ({[task_key t]} ∪ removed d)))
        with (dg_nodes (dg_remove_node (graph d) idx)).
      apply (Permutation_cons_inv (a := t')). rewrite <- Hp, Hc1.
      assert (t' ∈ all d0 /\ task_key t' ∉ removed d) as [Hin Hnr] by (apply core_elem; [done|by eapply list_elem_of_lookup_2]).
      rewrite Ekey. apply present_remove; [by rewrite <- all_node_keys; apply (st_keys d0 Hd0)|done..].
    - intros k k'. rewrite (remove_runs_after _ idx (task_key t)) by done. rewrite Hc2, !not_elem_of_union, !not_elem_of_singleton. tauto.
    - intros k [->%elem_of_singleton|Hk']%elem_of_union; [|by apply Hc3].
      rewrite all_node_keys. by apply list_elem_of_fmap_2.
    - intros k [Hk1 Hk2]%Hc4. split; [done|]. intros k' Hk'. by apply elem_of_union_r, Hk2. }
  split_and!; [done| |done|done]. unfold Messages in *. simpl. destruct (tx d) as [ms|]; [|done].
  destruct Hm as (H1 & H2 & H3). split_and!; [done|done|]. intros Hnone. apply H3 in Hnone. unfold all in Hnone.
  by rewrite Hnone in Ht'.
Qed.

Lemma take_out_all d ts :
  Core d -> Messages d -> Forall (fun t => t ∈ all d0) ts ->
  let d' := fold_left (fun d t => default d (take_out d t)) ts d in
  Core d' /\ Messages d' /\ d.(removed) ⊆ d'.(removed) /\ forall t, t ∈ ts -> task_key t ∈ d'.(removed).
Proof.
  intros Hc Hm Hts. revert d Hc Hm. induction Hts as [|t ts Ht _ IH]; intros d Hc Hm; simpl.
  { split_and!; [done..|]. by intros t ?%elem_of_nil. }
  pose proof (take_out_spec d t Hc Hm Ht) as Hspec. destruct (take_out d t) as [d1|]; simpl.
  - destruct Hspec as (Hc1 & Hm1 & Er & _). destruct (IH d1 Hc1 Hm1) as (Hc2 & Hm2 & Hsub & Hall).
    rewrite Er in Hsub. apply union_subseteq in Hsub as [Hk Hsub]. split_and!; [done..|].
    intros t' [->|Ht']%elem_of_cons; [by apply Hk, elem_of_singleton|by apply Hall].
  - destruct (IH d Hc Hm) as (Hc2 & Hm2 & Hsub & Hall). split_and!; [done..|].
    intros t' [->|Ht']%elem_of_cons; [by apply Hsub|by apply Hall].
Qed.

(** ** Every operation *)

Definition Good (d : Deps R G) : Prop := Core d /\ Messages d /\ Settled d.

Lemma good_tx d ms :
  Core d -> Core (set_sent d d.(sent) ms).
Proof. by intros [H1 H2 H3 H4]. Qed.

Lemma good_executed d s : Good d -> Good (set_executed d s).
Proof. intros ([H1 H2 H3 H4] & Hm & Hs). split; [by constructor|done]. Qed.

Lemma good_work d w keys : Good d -> Good (set_work d w keys).
Proof. intros ([H1 H2 H3 H4] & Hm & Hs). split; [by constructor|done]. Qed.

Lemma perform_good d o :
  Good d -> Forall (fun t => t ∈ all d0) (op_tasks o) ->
  exists d', perform d o = Some d' /\ Good d' /\ d.(removed) ⊆ d'.(removed)
    /\ match o with Remove t => task_key t ∈ d'.(removed) | RemoveBatch ts => forall t, t ∈ ts -> task_key t ∈ d'.(removed) | _ => True end.
Proof.
  intros (Hc & Hm & Hs) Ho. destruct o as [| |t|ts|t|t|t|t key]; simpl in *.
  - unfold subscribe. destruct (emit_leaves_good (set_sent d d.(sent) (Some []))) as (d' & -> & Hc' & Hm' & Hs' & _ & Er); [by apply good_tx| |].
    { unfold Messages. simpl. split_and!; [by intros t ?%elem_of_nil|by apply NoDup_nil|by intros ?%elem_of_nil]. }
    exists d'. split_and!; try done. by rewrite Er.
  - eexists. split; [done|]. split; [|done]. split; [by apply good_tx|done].
  - apply Forall_cons in Ho as [Ho _]. pose proof (take_out_spec d t Hc Hm Ho) as Hspec. unfold remove.
    destruct (take_out d t) as [d1|]; [|by exists d]. destruct Hspec as (Hc1 & Hm1 & Er1 & _).
    destruct (emit_leaves_good d1 Hc1 Hm1) as (d' & -> & Hc' & Hm' & Hs' & _ & Er). exists d'.
    rewrite Er, Er1. split_and!; try done; [apply union_subseteq_r|by apply elem_of_union_l, elem_of_singleton].
  - destruct (take_out_all d ts Hc Hm Ho) as (Hc1 & Hm1 & Hsub & Hall). unfold remove_batch.
    destruct (emit_leaves_good _ Hc1 Hm1) as (d' & -> & Hc' & Hm' & Hs' & _ & Er). exists d'. rewrite Er. by split_and!.
  - eexists. split; [done|]. split; [|done]. by apply good_executed.
  - eexists. split; [done|]. split; [|done]. by apply good_executed.
  - eexists. split; [done|]. split; [|done]. by apply good_work.
  - eexists. split; [done|]. split; [|done]. by apply good_work.
Qed.

Lemma good_start : Good d0.
Proof. split; [apply core_start|]. unfold Messages, Settled. by rewrite (st_tx d0 Hd0). Qed.

Lemma run_good d ops :
  Good d -> Forall (fun t => t ∈ all d0) (flat_map op_tasks ops) -> exists d', run d ops = Some d' /\ Good d'.
Proof.
  revert d. induction ops as [|o ops IH]; intros d Hg Hops; simpl in *; [by exists d|].
  apply Forall_app in Hops as [Ho Hops]. destruct (perform_good d o Hg Ho) as (d1 & -> & Hg1 & _). by apply IH.
Qed.
End run.
