(* ===== verification/TaskGraphList.v ===== *)
(** * A graph of lists and sets

    An implementation of the interface of [TaskGraph] that meets its laws, for evaluating the
    model on concrete tasks. *)

From S2P Require Import Prelude RustStr TaskGraph TaskCycles TaskGraphFacts.

Record EdgeList (N : Type) : Type := mkEdgeList { el_nodes : list N; el_edges : gset (nat * nat) }.
Arguments mkEdgeList {N}.
Arguments el_nodes {N}.
Arguments el_edges {N}.

Section edge_list.
Context {N : Type}.
Implicit Types g : EdgeList N.

Definition el_live g (e : nat * nat) : bool := (e.1 <? length g.(el_nodes)) && (e.2 <? length g.(el_nodes)).
Definition el_live_edges g : list (nat * nat) := List.filter (el_live g) (elements g.(el_edges)).
Definition el_outgoing g (i : nat) : list nat := map snd (List.filter (fun e => e.1 =? i) (el_live_edges g)).
Definition el_rename (n a x : nat) : nat := if x =? n - 1 then a else x.

Definition el_succs g (X : gset nat) : gset nat := list_to_set (flat_map (el_outgoing g) (elements X)).
Fixpoint el_reach g (i k : nat) : gset nat :=
  match k with
  | 0 => {[i]}
  | S k => el_reach g i k ∪ el_succs g (el_reach g i k)
  end.
Definition el_reaches g (i j : nat) : bool := bool_decide (j ∈ el_reach g i (length g.(el_nodes))).
Definition el_component g (i : nat) : list nat :=
  List.filter (fun j => el_reaches g i j && el_reaches g j i) (seq 0 (length g.(el_nodes))).
Definition el_first g (i : nat) : bool := match el_component g i with j :: _ => j =? i | [] => false end.

#[export] Instance edge_list : DiGraph N (EdgeList N) := {
  dg_new := mkEdgeList [] ∅;
  dg_nodes := el_nodes;
  dg_add_node g n :=
    (mkEdgeList (g.(el_nodes) ++ [n]) (list_to_set (el_live_edges g)), length g.(el_nodes));
  dg_set g i n := mkEdgeList (<[i := n]> g.(el_nodes)) g.(el_edges);
  dg_update_edge g a b := mkEdgeList g.(el_nodes) ({[(a, b)]} ∪ g.(el_edges));
  dg_remove_node g a :=
    let n := length g.(el_nodes) in
    mkEdgeList (swap_remove g.(el_nodes) a)
      (list_to_set (map (fun e => (el_rename n a e.1, el_rename n a e.2))
         (List.filter (fun e => negb (e.1 =? a) && negb (e.2 =? a)) (elements g.(el_edges)))));
  dg_outgoing := el_outgoing;
  dg_externals g :=
    List.filter (fun i => match el_outgoing g i with [] => true | _ => false end) (seq 0 (length g.(el_nodes)));
  dg_kosaraju_scc g := map (el_component g) (List.filter (el_first g) (seq 0 (length g.(el_nodes))))
}.

Lemma el_edge g i j : edge g i j <-> (i, j) ∈ g.(el_edges) /\ i < node_count g /\ j < node_count g.
Proof.
  unfold edge. simpl. unfold el_outgoing, el_live_edges, el_live, node_count. simpl. rewrite list_elem_of_fmap. split.
  - intros ([a b] & -> & Hin). rewrite list_elem_of_In, !filter_In, <- list_elem_of_In, elem_of_elements in Hin.
    simpl in Hin. destruct Hin as [[Hin Hl] Ha]. bool_prop. by subst.
  - intros (Hin & Hi & Hj). exists (i, j). split; [done|].
    rewrite list_elem_of_In, !filter_In, <- list_elem_of_In, elem_of_elements. simpl.
    rewrite Nat.eqb_refl, (proj2 (Nat.ltb_lt _ _) Hi), (proj2 (Nat.ltb_lt _ _) Hj). done.
Qed.

Lemma el_NoDup_outgoing g i : NoDup (el_outgoing g i).
Proof.
  unfold el_outgoing. assert (NoDup (el_live_edges g)) as Hn.
  { apply NoDup_ListNoDup, List.NoDup_filter, NoDup_ListNoDup, NoDup_elements. }
  induction Hn as [|[a b] l Hab Hn IH]; simpl; [by apply NoDup_nil|].
  destruct (a =? i) eqn:E; bool_prop; [|done]. simpl. apply NoDup_cons. split; [|done].
  intros ([a' b'] & -> & Hin)%list_elem_of_fmap. apply list_elem_of_In, filter_In in Hin as [Hin Ha]. simpl in *. bool_prop.
  subst. by apply Hab, list_elem_of_In.
Qed.

Lemma elem_of_succs g X j : j ∈ el_succs g X <-> exists i, i ∈ X /\ edge g i j.
Proof.
  unfold el_succs, edge. rewrite elem_of_list_to_set, list_elem_of_In, in_flat_map. simpl.
  split; intros (i & Hi & Hj); exists i; revert Hi Hj; by rewrite <- !list_elem_of_In, elem_of_elements.
Qed.

Lemma el_reach_sound g i k j : j ∈ el_reach g i k -> rtc (edge g) i j.
Proof.
  revert j. induction k as [|k IH]; intros j; simpl; [by intros ->%elem_of_singleton|].
  intros [?|(x & Hx & He)%elem_of_succs]%elem_of_union; [auto|]. eapply rtc_r; [by apply IH|done].
Qed.

Lemma el_reach_grows g i k : el_succs g (el_reach g i k) ⊆ el_reach g i k \/ k < size (el_reach g i k).
Proof.
  induction k as [|k IH]; [right; cbn [el_reach]; rewrite size_singleton; lia|].
  destruct (decide (el_succs g (el_reach g i k) ⊆ el_reach g i k)) as [Hc|Hc].
  - left. cbn [el_reach]. assert (el_reach g i k ∪ el_succs g (el_reach g i k) = el_reach g i k) as -> by set_solver. done.
  - right. destruct IH as [|IH]; [done|]. cbn [el_reach]. apply Nat.lt_le_trans with (S (size (el_reach g i k))); [lia|].
    apply subset_size. split; [set_solver|]. intros Hs. apply Hc. set_solver.
Qed.

Lemma el_reaches_spec g i j : i < node_count g -> el_reaches g i j = true <-> rtc (edge g) i j.
Proof.
  intros Hi. unfold el_reaches. rewrite bool_decide_eq_true. split; [apply el_reach_sound|]. intros Hr.
  set (n := length (el_nodes g)). assert (el_succs g (el_reach g i n) ⊆ el_reach g i n) as Hc.
  { destruct (el_reach_grows g i n) as [|Hs]; [done|]. exfalso.
    assert (size (el_reach g i n) <= n); [|lia]. rewrite <- (length_seq n 0) at 2.
    rewrite <- (size_list_to_set (C := gset nat)) by apply NoDup_seq. apply subseteq_size.
    intros x Hx%el_reach_sound. apply elem_of_list_to_set, elem_of_seq. split; [lia|]. simpl.
    destruct (rtc_inv_r _ _ Hx) as [<-|(y & _ & He)]; [done|]. by apply el_edge in He as (_ & _ & ?). }
  assert (i ∈ el_reach g i n) as Hin by (clear; induction n as [|n IH]; simpl; set_solver).
  revert Hin Hc. generalize (el_reach g i n) as X. intros X Hin Hc. clear Hi. induction Hr as [x|x y z Hxy _ IH]; [done|].
  apply IH, Hc, elem_of_succs. by exists x.
Qed.

Lemma elem_of_component g i j : i < node_count g ->
  j ∈ el_component g i <-> rtc (edge g) i j /\ rtc (edge g) j i.
Proof.
  intros Hi. unfold el_component. rewrite list_elem_of_In, filter_In, <- list_elem_of_In, elem_of_seq, andb_true_iff. split.
  - intros [[_ Hj] [H1 H2]]. rewrite el_reaches_spec in H1, H2 by done. done.
  - intros [H1 H2]. assert (j < node_count g) as Hj.
    { destruct (rtc_inv_r _ _ H1) as [<-|(y & _ & He)]; [done|]. by apply el_edge in He as (_ & _ & ?). }
    rewrite !el_reaches_spec by done. split; [unfold node_count in Hj; simpl in Hj; lia|done].
Qed.

Lemma el_component_eq g i j : i < node_count g -> j ∈ el_component g i -> el_component g j = el_component g i.
Proof.
  intros Hi Hj. apply elem_of_component in Hj as [H1 H2]; [|done].
  assert (j < node_count g) as Hlj.
  { destruct (rtc_inv_r _ _ H1) as [<-|(y & _ & He)]; [done|]. by apply el_edge in He as (_ & _ & ?). }
  unfold el_component. apply List.filter_ext_in. intros x Hx%list_elem_of_In%elem_of_seq.
  assert (x < node_count g) as Hlx by (unfold node_count; simpl; lia).
  apply eq_true_iff_eq. rewrite !andb_true_iff, !el_reaches_spec by done.
  split; intros [? ?]; split; by etrans.
Qed.

Lemma el_component_first g i : i < node_count g ->
  exists j, j ∈ el_component g i /\ j < node_count g /\ el_first g j = true.
Proof.
  intros Hi. assert (i ∈ el_component g i) as Hin by (by apply elem_of_component).
  destruct (el_component g i) as [|j l] eqn:E; [by apply elem_of_nil in Hin|].
  assert (j ∈ el_component g i) as Hj by (rewrite E; apply list_elem_of_here).
  exists j. split; [apply list_elem_of_here|]. split.
  - unfold el_component in Hj. apply list_elem_of_In, filter_In in Hj as [Hj%list_elem_of_In%elem_of_seq _].
    unfold node_count. simpl. lia.
  - unfold el_first. by rewrite (el_component_eq g i j Hi Hj), E, Nat.eqb_refl.
Qed.

Lemma el_first_eq g i j x :
  i < node_count g -> j < node_count g -> el_first g i = true -> el_first g j = true ->
  x ∈ el_component g i -> x ∈ el_component g j -> i = j.
Proof.
  intros Hi Hj Fi Fj Hx Hx'. unfold el_first in *.
  rewrite <- (el_component_eq g i x Hi Hx) in Fi. rewrite <- (el_component_eq g j x Hj Hx') in Fj.
  destruct (el_component g x); [done|]. bool_prop. congruence.
Qed.

Lemma el_scc_NoDup g l :
  NoDup l -> Forall (fun i => i < node_count g /\ el_first g i = true) l -> NoDup (concat (map (el_component g) l)).
Proof.
  intros Hn. induction Hn as [|i l Hi Hn IH]; intros Hf; simpl; [by apply NoDup_nil|].
  apply Forall_cons in Hf as [[Hlt Hfi] Hf]. apply NoDup_app. split_and!; [|intros x Hx Hx'|by apply IH].
  - apply NoDup_ListNoDup, List.NoDup_filter, NoDup_ListNoDup, NoDup_seq.
  - apply list_elem_of_In, in_concat in Hx' as (c & Hc & Hx'). apply in_map_iff in Hc as (j & <- & Hj).
    rewrite Forall_forall in Hf. destruct (Hf j) as [Hlj Hfj]; [by apply list_elem_of_In|].
    apply Hi. rewrite (el_first_eq g i j x); [by apply list_elem_of_In|done..|by apply list_elem_of_In].
Qed.

Lemma el_remove_edge g a i j : a < node_count g ->
  edge (dg_remove_node g a) i j <->
    i < node_count g - 1 /\ j < node_count g - 1
    /\ edge g (index_before (node_count g) a i) (index_before (node_count g) a j).
Proof.
  intros Ha. rewrite !el_edge. set (n := node_count g) in *.
  assert (node_count (dg_remove_node g a) = n - 1) as -> by (unfold node_count; simpl; by apply swap_remove_length).
  assert (forall x, x < n - 1 -> el_rename n a (index_before n a x) = x /\ index_before n a x <> a /\ index_before n a x < n) as Hback.
  { intros x Hx. unfold el_rename, index_before. destruct (x =? a) eqn:E; bool_prop.
    - rewrite Nat.eqb_refl. lia.
    - rewrite (proj2 (Nat.eqb_neq x (n - 1))) by lia. lia. }
  assert (forall x y, x < n - 1 -> y <> a -> el_rename n a y = x -> y = index_before n a x) as Hren.
  { intros x y Hx Hy. unfold el_rename, index_before. destruct (y =? n - 1) eqn:E; bool_prop; intros <-.
    - by rewrite Nat.eqb_refl.
    - by rewrite (proj2 (Nat.eqb_neq y a)). }
  simpl. rewrite elem_of_list_to_set, list_elem_of_fmap. split.
  - intros (([x y] & E & Hin) & Hi & Hj). injection E as E1 E2. split_and!; [done|done| |by apply Hback..].
    apply list_elem_of_In, filter_In in Hin as [Hin Hne]. apply list_elem_of_In, elem_of_elements in Hin. simpl in *. bool_prop.
    rewrite <- (Hren i x), <- (Hren j y); done.
  - intros (Hi & Hj & Hin & _). split; [|done].
    exists (index_before n a i, index_before n a j). destruct (Hback i Hi) as (E1 & N1 & _). destruct (Hback j Hj) as (E2 & N2 & _).
    split; [simpl; by rewrite <- E1 at 1; rewrite <- E2 at 1|]. apply list_elem_of_In, filter_In.
    split; [by apply list_elem_of_In, elem_of_elements|]. simpl.
    by rewrite (proj2 (Nat.eqb_neq _ _) N1), (proj2 (Nat.eqb_neq _ _) N2).
Qed.

#[export] Instance edge_list_laws : DiGraphLaws N (EdgeList N).
Proof.
  split.
  - done.
  - intros g i j (_ & ? & ?)%el_edge. done.
  - intros g i. apply el_NoDup_outgoing.
  - intros g. apply NoDup_ListNoDup, List.NoDup_filter, NoDup_ListNoDup, NoDup_seq.
  - intros g i. simpl. rewrite list_elem_of_In, filter_In, <- list_elem_of_In, elem_of_seq. unfold node_count. simpl.
    destruct (el_outgoing g i); naive_solver lia.
  - done.
  - intros g n i j. rewrite !el_edge. simpl. rewrite elem_of_list_to_set. unfold el_live_edges, el_live, node_count. simpl.
    rewrite list_elem_of_In, filter_In, <- list_elem_of_In, elem_of_elements, andb_true_iff, !Nat.ltb_lt, length_app.
    simpl. split; [tauto|]. intros (? & ? & ?). split; [done|lia].
  - done.
  - intros g a n i j. rewrite !el_edge. unfold node_count. simpl. by rewrite length_insert.
  - done.
  - intros g a b i j Ha Hb. rewrite !el_edge. change (node_count (dg_update_edge g a b)) with (node_count g). simpl.
    rewrite elem_of_union, elem_of_singleton. split; [intros ([[= -> ->]|?] & ? & ?); tauto|].
    intros [(? & ? & ?)|[-> ->]]; tauto.
  - done.
  - apply el_remove_edge.
  - intros g. simpl. apply el_scc_NoDup.
    + apply NoDup_ListNoDup, List.NoDup_filter, NoDup_ListNoDup, NoDup_seq.
    + apply Forall_forall. intros i Hi. apply list_elem_of_In, filter_In in Hi as [Hi%list_elem_of_In%elem_of_seq Hf].
      split; [unfold node_count; simpl; lia|done].
  - intros g i. rewrite list_elem_of_In, in_concat. split.
    + intros (c & Hc & Hin). simpl in Hc. apply in_map_iff in Hc as (j & <- & Hj). unfold el_component in Hin.
      apply filter_In in Hin as [Hin%list_elem_of_In%elem_of_seq _]. unfold node_count. simpl. lia.
    + intros Hi. destruct (el_component_first g i Hi) as (j & Hj & Hlj & Hf). exists (el_component g j). split.
      * simpl. apply in_map, filter_In. split; [|done]. apply list_elem_of_In, elem_of_seq. unfold node_count in Hlj. simpl in *. lia.
      * apply list_elem_of_In. rewrite (el_component_eq g i j) by done. by apply elem_of_component.
  - intros g c i j Hc Hi. simpl in Hc. apply list_elem_of_In, in_map_iff in Hc as (x & <- & Hx).
    apply filter_In in Hx as [Hx%list_elem_of_In%elem_of_seq _].
    assert (x < node_count g) as Hlx by (unfold node_count; simpl; lia).
    assert (i < node_count g) as Hli.
    { unfold el_component in Hi. apply list_elem_of_In, filter_In in Hi as [Hi%list_elem_of_In%elem_of_seq _]. unfold node_count. simpl. lia. }
    rewrite <- (el_component_eq g x i Hlx Hi). by apply elem_of_component.
Qed.
End edge_list.
