(* ===== verification/TaskGraphBuild.v ===== *)
(** * Building the task graph

    [Deps::new] ends, and builds the graph that the dependencies, the cleanup tasks and the waits
    describe, or reports its cycles. *)

From S2P Require Import Prelude RustStr TaskGraph TaskCycles TaskGraphFacts.

(** ** Maps of sets as relations *)

Definition related (m : gmap TaskKey (gset TaskKey)) (k x : TaskKey) : Prop := x ∈ default ∅ (m !! k).

Lemma related_empty k x : ~ related ∅ k x.
Proof. unfold related. rewrite lookup_empty. simpl. set_solver. Qed.

Lemma related_insert m k x k' x' : related (entry_insert m k x) k' x' <-> related m k' x' \/ (k' = k /\ x' = x).
Proof.
  unfold related, entry_insert. destruct (decide (k' = k)) as [->|Hne].
  - rewrite lookup_insert_eq. simpl. rewrite elem_of_union, elem_of_singleton. naive_solver.
  - rewrite lookup_insert_ne by done. naive_solver.
Qed.

Lemma elem_of_entries m k x : (k, x) ∈ entries m <-> related m k x.
Proof.
  unfold entries, related. rewrite list_elem_of_In, in_flat_map. split.
  - intros ([k' s] & Hin & Hx). apply list_elem_of_In, elem_of_map_to_list in Hin.
    apply in_map_iff in Hx as (x' & [= -> ->] & Hx). rewrite Hin. by apply elem_of_elements, list_elem_of_In.
  - destruct (m !! k) as [s|] eqn:E; simpl; [|set_solver]. intros Hx. exists (k, s). split.
    + by apply list_elem_of_In, elem_of_map_to_list.
    + apply in_map_iff. exists x. split; [done|]. by apply list_elem_of_In, elem_of_elements.
Qed.

(** ** The parents of cleanup tasks *)

Section parents.
Context {E : Type}.
Context (edges direct : gmap TaskKey (gset TaskKey)).

(** The least relation that the two loops compute. *)
Inductive Inherits : TaskKey -> TaskKey -> Prop :=
| inherits_direct k parent : related direct k parent -> Inherits k parent
| inherits_step k k' parent :
    Inherits k parent -> related edges k k' -> key_phase k' = Post -> k' <> parent -> Inherits k' parent.

(** What a pending pair is still to bring. *)
Definition Consequence (pair pair' : TaskKey * TaskKey) : Prop :=
  related edges pair.1 pair'.1 /\ key_phase pair'.1 = Post /\ pair'.1 <> pair.2 /\ pair'.2 = pair.2.

Definition pairs_of (parents : gmap TaskKey (gset TaskKey)) : gset (TaskKey * TaskKey) := list_to_set (entries parents).

Lemma elem_of_pairs parents k x : (k, x) ∈ pairs_of parents <-> related parents k x.
Proof. unfold pairs_of. by rewrite elem_of_list_to_set, elem_of_entries. Qed.

Lemma add_parent_spec parents pending k parent :
  let '(parents', pending') := add_parent (parents, pending) k parent in
  (forall k' x, related parents' k' x <-> related parents k' x \/ (k' = k /\ x = parent))
  /\ (forall pair, pair ∈ pending' -> pair ∈ pending \/ pair = (k, parent))
  /\ (forall pair, pair ∈ pending -> pair ∈ pending')
  /\ (related parents k parent \/ (k, parent) ∈ pending')
  /\ forall U : gset (TaskKey * TaskKey), (k, parent) ∈ U ->
       size (U ∖ pairs_of parents') + length pending' <= size (U ∖ pairs_of parents) + length pending.
Proof.
  unfold add_parent. case_bool_decide as Hin.
  - split_and!; auto. intros k' x. split; [by left|]. by intros [?|[-> ->]].
  - split_and!.
    + intros k' x. apply related_insert.
    + intros pair [?| ->%list_elem_of_singleton]%elem_of_app; auto.
    + intros pair Hp. apply elem_of_app. by left.
    + right. apply elem_of_app. right. apply list_elem_of_here.
    + intros U HU. rewrite length_app. simpl.
      enough (size (U ∖ pairs_of (entry_insert parents k parent)) < size (U ∖ pairs_of parents)) by lia.
      apply subset_size. split.
      * intros [k' x]. rewrite !elem_of_difference, !elem_of_pairs, related_insert. tauto.
      * intros Hsub. specialize (Hsub (k, parent)). rewrite !elem_of_difference, !elem_of_pairs, related_insert in Hsub.
        destruct Hsub as [_ Hsub]; [by split|]. apply Hsub. by right.
Qed.

(** What the two loops keep: nothing is recorded without reason, and what is missing is pending. *)
Record ParentsInv (parents : gmap TaskKey (gset TaskKey)) (pending : list (TaskKey * TaskKey)) : Prop := {
  pi_sound k x : related parents k x -> Inherits k x;
  pi_pending pair : pair ∈ pending -> related parents pair.1 pair.2;
  pi_closed k x k' : related parents k x -> (k, x) ∉ pending -> Consequence (k, x) (k', x) -> related parents k' x
}.

Definition spread (parent : TaskKey) (acc : gmap TaskKey (gset TaskKey) * list (TaskKey * TaskKey)) (dependency : TaskKey) :=
  if bool_decide (key_phase dependency <> Post) || bool_decide (dependency = parent) then acc
  else add_parent acc dependency parent.

(** The dependencies of one post task. *)
Lemma spread_spec U parent ds : forall parents pending,
  (forall d, d ∈ ds -> key_phase d = Post -> d <> parent -> (d, parent) ∈ U) ->
  let '(parents', pending') := fold_left (spread parent) ds (parents, pending) in
  (forall k x, related parents k x -> related parents' k x)
  /\ (forall k x, related parents' k x -> related parents k x \/ (x = parent /\ k ∈ ds /\ key_phase k = Post /\ k <> parent))
  /\ (forall d, d ∈ ds -> key_phase d = Post -> d <> parent -> related parents' d parent)
  /\ (forall pair, pair ∈ pending -> pair ∈ pending')
  /\ (forall pair, pair ∈ pending' -> pair ∈ pending \/ related parents' pair.1 pair.2)
  /\ (forall k x, related parents' k x -> related parents k x \/ (k, x) ∈ pending')
  /\ size (U ∖ pairs_of parents') + length pending' <= size (U ∖ pairs_of parents) + length pending.
Proof.
  induction ds as [|d ds IH]; intros parents pending HU; cbn [fold_left].
  - split_and!; auto. by intros d ?%elem_of_nil.
  - destruct (decide (key_phase d = Post /\ d <> parent)) as [[Hph Hne]|Hskip].
    + assert (spread parent (parents, pending) d = add_parent (parents, pending) d parent) as ->.
      { unfold spread. rewrite !bool_decide_eq_false_2; [done|done|]. intros Hc. by apply Hc. }
      pose proof (add_parent_spec parents pending d parent) as Hadd.
      destruct (add_parent (parents, pending) d parent) as [p1 q1]. destruct Hadd as (A1 & A2 & A3 & A4 & A5).
      specialize (A5 U (HU d (list_elem_of_here _ _) Hph Hne)).
      specialize (IH p1 q1). destruct (fold_left (spread parent) ds (p1, q1)) as [p2 q2].
      destruct IH as (B1 & B2 & B3 & B4 & B5 & B6 & B7); [intros d' Hd'; apply HU; by apply list_elem_of_further|].
      split_and!.
      * intros k x Hk. apply B1, A1. by left.
      * intros k x [Hk|(-> & Hk & ? & ?)]%B2; [apply A1 in Hk as [Hk|(-> & ->)]; [by left|right]|right].
        -- split_and!; try done. apply list_elem_of_here.
        -- split_and!; try done. by apply list_elem_of_further.
      * intros d' [->|Hd']%elem_of_cons ? ?; [apply B1, A1; by right|by apply B3].
      * intros pair Hp. by apply B4, A3.
      * intros pair [Hp|Hp]%B5; [|by right]. apply A2 in Hp as [Hp| ->]; [by left|right; apply B1, A1; by right].
      * intros k x [Hk|Hk]%B6; [|by right]. apply A1 in Hk as [Hk|(-> & ->)]; [by left|]. destruct A4 as [?|Hq]; [by left|right; by apply B4].
      * lia.
    + assert (spread parent (parents, pending) d = (parents, pending)) as ->.
      { unfold spread. case_bool_decide; [done|]. case_bool_decide; [done|]. exfalso. apply Hskip.
        split; [|done]. by destruct (key_phase d). }
      specialize (IH parents pending). destruct (fold_left (spread parent) ds (parents, pending)) as [p2 q2].
      destruct IH as (B1 & B2 & B3 & B4 & B5 & B6 & B7); [intros d' Hd'; apply HU; by apply list_elem_of_further|].
      split_and!; try done.
      * intros k x [Hk|(-> & Hk & ? & ?)]%B2; [by left|right]. split_and!; try done. by apply list_elem_of_further.
      * intros d' [->|Hd']%elem_of_cons ? ?; [by destruct Hskip|by apply B3].
Qed.

Lemma propagate_parents_spec U m : forall parents pending,
  (forall k x, Inherits k x -> (k, x) ∈ U) -> ParentsInv parents pending ->
  (forall k x, related direct k x -> related parents k x) ->
  size (U ∖ pairs_of parents) + length pending < m ->
  exists parents', (forall fuel, m <= fuel -> propagate_parents (E := E) fuel edges parents pending = Ok parents')
    /\ forall k x, related parents' k x <-> Inherits k x.
Proof.
  induction m as [|m IH]; intros parents pending HU [P1 P2 P3] Hdir Hm; [lia|].
  destruct pending as [|[post_key parent] pending].
  - exists parents. split; [by intros [|fuel] Hf; [lia|]|]. intros k x. split; [apply P1|].
    induction 1 as [k x Hd|k k' x _ IHk He Hp Hne]; [by apply Hdir|]. apply (P3 k x k' IHk); [apply not_elem_of_nil|done].
  - assert (Inherits post_key parent) as Hpp by (apply P1, (P2 (post_key, parent)), list_elem_of_here).
    set (ds := elements (default ∅ (edges !! post_key))).
    assert (forall d, d ∈ ds <-> related edges post_key d) as Hds by (intros d; unfold ds, related; by rewrite elem_of_elements).
    pose proof (spread_spec U parent ds parents pending) as Hsp.
    destruct (fold_left (spread parent) ds (parents, pending)) as [p' q'] eqn:Ef.
    destruct Hsp as (B1 & B2 & B3 & B4 & B5 & B6 & B7).
    { intros d Hd%Hds Hph Hne. apply HU. by eapply inherits_step. }
    destruct (IH p' q') as (parents' & Hrun & Hspec); [done| | |simpl in Hm; lia|].
    + constructor.
      * intros k x [Hk|(-> & Hk%Hds & ? & ?)]%B2; [by apply P1|]. by eapply inherits_step.
      * intros pair [Hp|Hp]%B5; [apply B1, P2; by apply list_elem_of_further|done].
      * intros k x k' Hk Hnq Hcons. destruct (B6 k x Hk) as [Hold|]; [|done].
        destruct (decide ((k, x) = (post_key, parent))) as [Heq|Hne].
        -- injection Heq as -> ->. destruct Hcons as (He & Hph & Hd & _). apply B3; [by apply Hds|done|done].
        -- apply B1, (P3 k x k' Hold); [|done]. intros [?|Hin]%elem_of_cons; [done|]. by apply Hnq, B4.
    + intros k x Hd. by apply B1, Hdir.
    + exists parents'. split; [|done]. intros [|fuel] Hf; [lia|]. cbn [propagate_parents].
      change (fold_left _ _ (parents, pending)) with (fold_left (spread parent) ds (parents, pending)). rewrite Ef. apply Hrun. lia.
Qed.

(** The first loop records the direct parents, all of them pending. *)
Lemma direct_parents_spec l : forall parents pending,
  (forall k x, related parents k x <-> (k, x) ∈ pending) ->
  let '(parents', pending') := fold_left (fun acc (pair : TaskKey * TaskKey) => add_parent acc pair.1 pair.2) l (parents, pending) in
  (forall k x, related parents' k x <-> related parents k x \/ (k, x) ∈ l)
  /\ (forall k x, related parents' k x <-> (k, x) ∈ pending').
Proof.
  induction l as [|[k0 x0] l IH]; intros parents pending Hp; cbn [fold_left fst snd].
  - split; [|done]. intros k x. split; [by left|]. by intros [?|?%elem_of_nil].
  - pose proof (add_parent_spec parents pending k0 x0) as Hadd.
    destruct (add_parent (parents, pending) k0 x0) as [p1 q1]. destruct Hadd as (A1 & A2 & A3 & A4 & _).
    assert (forall k x, related p1 k x <-> (k, x) ∈ q1) as Hp1.
    { intros k x. rewrite A1. split.
      - intros [?%Hp|[-> ->]]; [by apply A3|]. destruct A4 as [?%Hp|?]; [by apply A3|done].
      - intros [?%Hp|[= -> ->]]%A2; [by left|by right]. }
    specialize (IH p1 q1 Hp1). destruct (fold_left _ l (p1, q1)) as [p2 q2].
    destruct IH as (B1 & B2). split; [|done].
    intros k x. rewrite B1, A1, elem_of_cons. naive_solver.
Qed.
End parents.

(** ** Barriers and waits *)

Section edges.
Context {R G E : Type} `{DiGraphLaws (Task R) G}.

(** The task that a wait in a phase means, among [keys]: in that phase if there is one. *)
Definition other_phase (p : TaskRunPhase) : TaskRunPhase := match p with Normal => Post | Post => Normal end.
Definition wait_key (keys : list TaskKey) (phase : TaskRunPhase) (t : Task R) : option TaskKey :=
  let same := task_key (with_run_phase t phase) in
  let other := task_key (with_run_phase t (other_phase phase)) in
  if bool_decide (same ∈ keys) then Some same else if bool_decide (other ∈ keys) then Some other else None.

Context (indexes : gmap TaskKey nat).

Definition indexed (g : G) : Prop := forall k i, indexes !! k = Some i <-> node_keys g !! i = Some k.

Lemma indexed_nodes g g' : dg_nodes g' = dg_nodes g -> indexed g -> indexed g'.
Proof. intros E0 Hi k i. unfold node_keys. rewrite E0. apply Hi. Qed.

Lemma add_barriers_spec pairs : forall g,
  indexed g -> (forall k k', (k, k') ∈ pairs -> is_Some (indexes !! k) /\ is_Some (indexes !! k')) ->
  exists g', add_barriers (E := E) indexes g pairs = Ok g' /\ dg_nodes g' = dg_nodes g
    /\ forall k k', runs_after g' k k' <-> runs_after g k k' \/ (k, k') ∈ pairs.
Proof.
  induction pairs as [|[a b] pairs IH]; intros g Hi Hp; cbn [add_barriers].
  - exists g. split_and!; [done|done|]. intros k k'. split; [by left|]. by intros [?|?%elem_of_nil].
  - destruct (Hp a b (list_elem_of_here _ _)) as [[i Ha] [j Hb]]. unfold index_of. rewrite Ha, Hb. cbn [rbind].
    destruct (IH (dg_update_edge g i j)) as (g' & -> & En & Hr).
    { eapply indexed_nodes; [apply update_edge_nodes|done]. } { intros k k' Hk. apply Hp. by apply list_elem_of_further. }
    exists g'. split_and!; [done|by rewrite En, update_edge_nodes|]. intros k k'.
    rewrite Hr, (update_edge_runs_after g i j a b) by (by apply Hi). rewrite elem_of_cons. naive_solver.
Qed.

Lemma same_task_spec (t u : Task R) : same_task_without_phase t u = true <-> task_key t = task_key (with_run_phase u t.(run_phase)).
Proof.
  unfold same_task_without_phase, task_key. change (env_key (with_run_phase u (run_phase t))) with (env_key u). simpl.
  rewrite !andb_true_iff, !bool_decide_eq_true. split; [intros [[-> ->] ->]; done|]. intros [= -> -> ->]. done.
Qed.

Lemma phase_cases (p q : TaskRunPhase) : p = q \/ p = other_phase q.
Proof. destruct p, q; simpl; auto. Qed.

Lemma wait_target_spec g phase t : NoDup (node_keys g) ->
  match wait_target g phase t with
  | Some i => exists k, wait_key (node_keys g) phase t = Some k /\ node_keys g !! i = Some k
  | None => wait_key (node_keys g) phase t = None
  end.
Proof.
  intros Hn. unfold wait_target, wait_key.
  set (same := fun idx => match dg_nodes g !! idx with Some t0 => same_task_without_phase t0 t | None => false end).
  set (in_phase := fun idx => match dg_nodes g !! idx with Some t0 => bool_decide (run_phase t0 = phase) | None => false end).
  assert (forall i, same i = true <-> exists u, dg_nodes g !! i = Some u /\ node_keys g !! i = Some (task_key (with_run_phase t u.(run_phase)))) as Hsame.
  { intros i. unfold same. rewrite node_keys_lookup. destruct (dg_nodes g !! i) as [u|]; cbn [fmap option_fmap option_map].
    - rewrite same_task_spec. split; [intros Eu; exists u; by rewrite Eu|]. intros (u' & [= <-] & [= Eu1 Eu2 Eu3]).
      unfold task_key. simpl. by rewrite Eu1, Eu2, Eu3.
    - split; [done|]. by intros (u & ? & _). }
  assert (forall i, i ∈ indices g <-> is_Some (node_keys g !! i)) as Hind.
  { intros i. rewrite lookup_lt_is_Some, node_keys_length. unfold indices. rewrite elem_of_seq. lia. }
  assert (forall k, k ∈ node_keys g -> forall p, k = task_key (with_run_phase t p) ->
    exists i u, i ∈ indices g /\ same i = true /\ dg_nodes g !! i = Some u /\ u.(run_phase) = p) as Hfind.
  { intros k [i Hi]%list_elem_of_lookup p ->. pose proof Hi as Hi'. rewrite node_keys_lookup in Hi'.
    apply fmap_Some in Hi' as (u & Hu & Eu). exists i, u. injection Eu as E1 E2 E3 E4.
    split_and!; [by apply Hind; rewrite Hi|apply Hsame; exists u; split; [done|by rewrite Hi, <- E4]|done|done]. }
  destruct (List.find in_phase (List.filter same (indices g))) as [i|] eqn:E1.
  - apply find_some in E1 as [Hi Hp]. apply filter_In in Hi as [_ (u & Hu & Hk)%Hsame]. unfold in_phase in Hp. rewrite Hu in Hp.
    apply bool_decide_eq_true in Hp as Ep. rewrite Ep in Hk.
    rewrite bool_decide_eq_true_2 by (by eapply list_elem_of_lookup_2). eauto.
  - rewrite bool_decide_eq_false_2.
    2:{ intros Hk. destruct (Hfind _ Hk phase eq_refl) as (i & u & Hi & Hs & Hu & Ep).
        assert (In i (List.filter same (indices g))) as Hin by (apply filter_In; split; [by apply list_elem_of_In|done]).
        pose proof (find_none _ _ E1 i Hin) as Hf. unfold in_phase in Hf. rewrite Hu in Hf. by rewrite bool_decide_eq_true_2 in Hf. }
    destruct (List.find same (indices g)) as [i|] eqn:E2.
    + apply find_some in E2 as [Hi Hs]. pose proof Hs as (u & Hu & Hk)%Hsame.
      destruct (phase_cases u.(run_phase) phase) as [Ep|Ep].
      * exfalso. assert (In i (List.filter same (indices g))) as Hin by (by apply filter_In).
        pose proof (find_none _ _ E1 i Hin) as Hf. unfold in_phase in Hf. rewrite Hu in Hf. by rewrite bool_decide_eq_true_2 in Hf.
      * rewrite Ep in Hk. rewrite bool_decide_eq_true_2 by (by eapply list_elem_of_lookup_2). eauto.
    + rewrite bool_decide_eq_false_2; [done|]. intros Hk. destruct (Hfind _ Hk _ eq_refl) as (i & u & Hi & Hs & _).
      pose proof (find_none _ _ E2 i (proj1 (list_elem_of_In _ _) Hi)). congruence.
Qed.

Lemma add_waits_spec waits : forall g,
  indexed g -> NoDup (node_keys g) -> (forall k t, (k, t) ∈ waits -> is_Some (indexes !! k)) ->
  exists g', add_waits (E := E) indexes g waits = Ok g' /\ dg_nodes g' = dg_nodes g
    /\ forall k k', runs_after g' k k' <-> runs_after g k k'
        \/ exists t, (k, t) ∈ waits /\ wait_key (node_keys g) (key_phase k) t = Some k'.
Proof.
  induction waits as [|[a t] waits IH]; intros g Hi Hn Hw; cbn [add_waits].
  - exists g. split_and!; [done|done|]. intros k k'. split; [by left|]. by intros [?|(t & ?%elem_of_nil & _)].
  - destruct (Hw a t (list_elem_of_here _ _)) as [i Ha]. unfold index_of. rewrite Ha. cbn [rbind].
    pose proof (wait_target_spec g (key_phase a) t Hn) as Htarget.
    set (g1 := match wait_target g (key_phase a) t with Some target_idx => dg_update_edge g i target_idx | None => g end).
    assert (dg_nodes g1 = dg_nodes g /\ forall k k', runs_after g1 k k' <-> runs_after g k k'
      \/ (k = a /\ wait_key (node_keys g) (key_phase a) t = Some k')) as [En1 Hr1].
    { unfold g1. destruct (wait_target g (key_phase a) t) as [j|].
      - destruct Htarget as (kt & Ek & Hj). split; [apply update_edge_nodes|]. intros k k'.
        rewrite (update_edge_runs_after g i j a kt); [|by apply Hi|done]. naive_solver.
      - split; [done|]. rewrite Htarget. naive_solver. }
    assert (node_keys g1 = node_keys g) as Ek1 by (unfold node_keys; by rewrite En1).
    destruct (IH g1) as (g' & -> & En & Hr); [by eapply indexed_nodes|by rewrite Ek1| |].
    { intros k u Hk. apply (Hw k u). by apply list_elem_of_further. }
    exists g'. split_and!; [done|congruence|]. intros k k'. rewrite Hr, Hr1, Ek1. split.
    + intros [[?|[-> ?]]|(u & Hu & ?)]; [by left|right; exists t|right; exists u]; (split; [|done]);
        [apply list_elem_of_here|by apply list_elem_of_further].
    + intros [?|(u & Hu & Hk)]; [by left; left|]. apply elem_of_cons in Hu as [[= -> ->]|Hu]; [by left; right|].
      right. by exists u.
Qed.
End edges.

Section build.
Context {R G E : Type} `{DiGraphLaws (Task R) G}.
Context (is_remote : Task R -> bool) (fetch_tasks : Task R -> E + Task R).
Context (render_usage : Task R -> E + R).
Context (resolve_all : list (Task R) -> E + list (Task R)).
Context (resolve_depends : Task R -> list (Task R) -> E + ResolvedTaskDependencies R).

Abbreviation fetch := (fetch_remote_task is_remote fetch_tasks).

(** One of the calls failed with [e]. *)
Definition Fault (e : E) : Prop :=
  (exists t, fetch_tasks t = inl e) \/ (exists t, render_usage t = inl e)
  \/ (exists ts, resolve_all ts = inl e) \/ (exists t ts, resolve_depends t ts = inl e).

(** A result that is right, or the failure of a call. *)
Definition Yields {A} (m : result (BuildError E) A) (P : A -> Prop) : Prop :=
  match m with
  | Ok a => P a
  | Err (Failed e) => Fault e
  | _ => False
  end.

Lemma yields_bind {A B} (m : result (BuildError E) A) (f : A -> result (BuildError E) B) P Q :
  Yields m P -> (forall a, P a -> Yields (f a) Q) -> Yields (rbind m f) Q.
Proof. destruct m as [a|[]|]; simpl; auto; done. Qed.

Lemma yields_fetch t P : (forall t', fetch t = Ok t' -> P t') -> Yields (fetch t) P.
Proof.
  intros HP. destruct (fetch t) as [t'|e|] eqn:Ef; simpl; [by apply HP|..]; unfold fetch_remote_task in Ef;
    (destruct (is_remote t); simpl in Ef; [|done]); destruct (fetch_tasks t) eqn:Et; simpl in Ef; [|done..|done].
  injection Ef as <-. left. by exists t.
Qed.

(** ** What the graph is to be *)

Section spec.
Context (all : list (Task R)).

(** The tasks that were expanded, by key. *)
Abbreviation occurrences := (gmap TaskKey (Task R)).
Implicit Types occ : occurrences.

(** [k] depends on [k']. *)
Definition Needs occ (k k' : TaskKey) : Prop :=
  exists a r t t', occ !! k = Some a /\ resolve_depends a all = inr r /\ t ∈ r.(depends)
    /\ fetch (with_run_phase t a.(run_phase)) = Ok t' /\ task_key t' = k'.

(** [k] is to run after its parent [k']. *)
Definition Posts occ (k k' : TaskKey) : Prop :=
  exists a r t t', occ !! k' = Some a /\ resolve_depends a all = inr r /\ t ∈ r.(depends_post)
    /\ fetch (with_run_phase t Post) = Ok t' /\ task_key t' = k.

(** The whole cleanup of a parent waits for it. *)
Inductive Barrier occ : TaskKey -> TaskKey -> Prop :=
| barrier_post k parent : Posts occ k parent -> Barrier occ k parent
| barrier_need k k' parent :
    Barrier occ k parent -> Needs occ k k' -> key_phase k' = Post -> k' <> parent -> Barrier occ k' parent.

Definition Waits occ (keys : list TaskKey) (k k' : TaskKey) : Prop :=
  exists a r t, occ !! k = Some a /\ resolve_depends a all = inr r /\ t ∈ r.(wait_for)
    /\ wait_key keys (key_phase k) t = Some k'.

(** What brings a task into the graph. *)
Definition Introduces occ (k k' : TaskKey) : Prop := Needs occ k k' \/ Posts occ k' k.

Definition Root (tasks : list (Task R)) (k : TaskKey) : Prop :=
  exists t t', t ∈ tasks /\ fetch (with_run_phase t Normal) = Ok t' /\ task_key t' = k.

(** The tasks of the graph: what the roots bring in, each expanded once. *)
Record Nodes (tasks : list (Task R)) occ (g : G) : Prop := {
  nodes_keys : NoDup (node_keys g);
  nodes_occ i t : dg_nodes g !! i = Some t <-> node_keys g !! i = Some (task_key t) /\ occ !! task_key t = Some t;
  nodes_reached k : k ∈ node_keys g <-> exists root, Root tasks root /\ rtc (Introduces occ) root k
}.

(** ... and its edges. *)
Record Built (tasks : list (Task R)) occ (g : G) : Prop := {
  built_nodes : Nodes tasks occ g;
  built_edges k k' : runs_after g k k' <-> Needs occ k k' \/ Barrier occ k k' \/ Waits occ (node_keys g) k k'
}.

(** ** The invariant of the construction *)

(** [N], [P] and [W]: the dependencies, the posts and the waits recorded so far. *)
Record Inv occ (N P : TaskKey -> TaskKey -> Prop) (W : list (TaskKey * Task R)) (b : Build R G) : Prop := {
  inv_indexes k i : b.(indexes) !! k = Some i <-> node_keys b.(b_graph) !! i = Some k;
  inv_occ k a : occ !! k = Some a -> task_key a = k
    /\ exists i, b.(indexes) !! k = Some i /\ dg_nodes b.(b_graph) !! i = Some a;
  inv_edges k k' : runs_after b.(b_graph) k k' <-> N k k';
  inv_dep_edges k k' : related b.(b_dep_edges) k k' <-> N k k';
  inv_posts k k' : related b.(direct_post_parents) k k' <-> P k k';
  inv_posts_known k k' : P k k' -> is_Some (b.(indexes) !! k) /\ is_Some (b.(indexes) !! k');
  inv_waits : b.(wait_edges) = W
}.

Definition known (b : Build R G) (k : TaskKey) : Prop := is_Some (b.(indexes) !! k).

(** What is in the graph has been or will be expanded. *)
Definition Covered (b : Build R G) : Prop :=
  forall k, known b k <-> k ∈ b.(seen) \/ k ∈ map task_key b.(stack).

Lemma inv_NoDup occ N P W b : Inv occ N P W b -> NoDup (node_keys b.(b_graph)).
Proof.
  intros Hi. apply NoDup_alt. intros i j k Hik Hjk. apply (inv_indexes _ _ _ _ _ Hi) in Hik, Hjk. congruence.
Qed.

(** The task has a node. *)
Lemma add_idx_spec occ N P W b t :
  Inv occ N P W b ->
  let '(b', i) := add_idx b t in
  Inv occ N P W b' /\ b'.(indexes) !! task_key t = Some i /\ b'.(stack) = b.(stack) /\ b'.(seen) = b.(seen)
  /\ (forall k j, b.(indexes) !! k = Some j -> b'.(indexes) !! k = Some j)
  /\ (forall k, known b' k <-> known b k \/ k = task_key t).
Proof.
  intros Hi. pose proof Hi as [H1 H2 H3 H4 H5 H6 H7]. unfold add_idx. destruct (indexes b !! task_key t) as [i|] eqn:Ei.
  - split_and!; try done. intros k. split; [by left|]. intros [?| ->]; [done|by exists i].
  - destruct (dg_add_node (b_graph b) t) as [g i] eqn:Eg. pose proof (add_node_nodes (b_graph b) t) as [En Ec].
    rewrite Eg in En, Ec. simpl in En, Ec. assert (g = (dg_add_node (b_graph b) t).1) as -> by (by rewrite Eg). subst i.
    assert (forall k j, indexes b !! k = Some j -> <[task_key t:=node_count (b_graph b)]> (indexes b) !! k = Some j) as Hmono.
    { intros k j Hk. rewrite lookup_insert_ne; [done|]. intros <-. congruence. }
    split_and!; simpl; [|by rewrite lookup_insert_eq|done|done|exact Hmono|].
    + constructor; simpl.
      * intros k j. rewrite add_node_keys. rewrite lookup_insert_Some, lookup_snoc_Some, node_keys_length, H1.
        split.
        -- intros [[<- <-]|[Hne Hj]]; [by right|left]. split; [|done]. rewrite <- node_keys_length. by eapply lookup_lt_Some.
        -- intros [[_ Hj]|[-> ->]]; [right|by left]. split; [|done]. intros Ek. rewrite Ek in Ei. apply H1 in Hj. congruence.
      * intros k a Ha. destruct (H2 k a Ha) as (Ek & j & Hj & Hn). split; [done|]. exists j. split; [by apply Hmono|].
        rewrite En. by apply lookup_app_l_Some.
      * intros k k'. by rewrite add_node_runs_after.
      * done.
      * done.
      * intros k k' [[i Hki] [j Hkj]]%H6. split; eexists; by apply Hmono.
      * done.
    + intros k. unfold known. simpl. destruct (decide (k = task_key t)) as [->|Hne].
      * rewrite lookup_insert_eq. split; [by right|]. by eexists.
      * rewrite lookup_insert_ne by done. split; [by left|]. by intros [?|?].
Qed.

Lemma inv_ext occ N P N' P' W b :
  (forall k k', N k k' <-> N' k k') -> (forall k k', P k k' <-> P' k k') -> Inv occ N P W b -> Inv occ N' P' W b.
Proof.
  intros HN HP [H1 H2 H3 H4 H5 H6 H7]. constructor; try done.
  - intros k k'. by rewrite H3, HN.
  - intros k k'. by rewrite H4, HN.
  - intros k k'. by rewrite H5, HP.
  - intros k k' ?%HP. by apply H6.
Qed.

(** The keys of fetched tasks. *)
Definition NewKey (phase : TaskRunPhase) (ts : list (Task R)) (k : TaskKey) : Prop :=
  exists t t', t ∈ ts /\ fetch (with_run_phase t phase) = Ok t' /\ task_key t' = k.

Lemma new_key_nil phase k : ~ NewKey phase [] k.
Proof. by intros (t & _ & ?%elem_of_nil & _). Qed.

Lemma new_key_cons phase (t t' : Task R) ts k :
  fetch (with_run_phase t phase) = Ok t' -> NewKey phase (t :: ts) k <-> k = task_key t' \/ NewKey phase ts k.
Proof.
  intros Hf. unfold NewKey. split.
  - intros (u & u' & [->|Hu]%elem_of_cons & Hu' & <-); [left; congruence|right; by exists u, u'].
  - intros [->|(u & u' & Hu & ?)]; [exists t, t'|exists u, u']; (split; [|done]); [apply list_elem_of_here|by apply list_elem_of_further].
Qed.

(** What adding tasks to the graph and the stack does. *)
Definition Grows (b b' : Build R G) (new : TaskKey -> Prop) : Prop :=
  b'.(seen) = b.(seen)
  /\ (forall k j, b.(indexes) !! k = Some j -> b'.(indexes) !! k = Some j)
  /\ (forall k, known b' k <-> known b k \/ new k)
  /\ (forall k, k ∈ map task_key b'.(stack) <-> k ∈ map task_key b.(stack) \/ new k).

Lemma grows_covered b b' new : Grows b b' new -> Covered b -> Covered b'.
Proof. intros (Es & _ & Hk & Hst) Hc k. rewrite Hk, Hst, Es. specialize (Hc k). tauto. Qed.

Lemma grows_step b b1 b2 (t : Task R) (new : TaskKey -> Prop) :
  b1.(seen) = b.(seen) -> (forall k j, b.(indexes) !! k = Some j -> b1.(indexes) !! k = Some j) ->
  (forall k, known b1 k <-> known b k \/ k = task_key t) ->
  map task_key b1.(stack) = task_key t :: map task_key b.(stack) ->
  Grows b1 b2 new -> Grows b b2 (fun k => k = task_key t \/ new k).
Proof.
  intros E1 E2 E3 E4 (F1 & F2 & F3 & F4). split_and!; [congruence|auto| |].
  - intros k. rewrite F3, E3. tauto.
  - intros k. rewrite F4, E4, elem_of_cons. tauto.
Qed.

Lemma grows_ext b b' (new new' : TaskKey -> Prop) : (forall k, new k <-> new' k) -> Grows b b' new -> Grows b b' new'.
Proof. intros He (F1 & F2 & F3 & F4). split_and!; [done|done|..]; intros k; rewrite <- He; auto. Qed.

Lemma grows_refl b (new : TaskKey -> Prop) : (forall k, ~ new k) -> Grows b b new.
Proof. intros Hn. split_and!; [done|done|..]; intros k; specialize (Hn k); tauto. Qed.

Lemma yields_mono {A} (m : result (BuildError E) A) (P Q : A -> Prop) : (forall a, P a -> Q a) -> Yields m P -> Yields m Q.
Proof. destruct m as [a|[]|]; simpl; auto. Qed.

Lemma yields_try {A} (m : E + A) (P : A -> Prop) :
  (forall e, m = inl e -> Fault e) -> (forall a, m = inr a -> P a) -> Yields (try_ m) P.
Proof. destruct m as [e|a]; simpl; auto. Qed.

Lemma add_depends_spec occ N P W b a a_idx ts :
  Inv occ N P W b -> b.(indexes) !! task_key a = Some a_idx ->
  Yields (add_depends is_remote fetch_tasks b a a_idx ts) (fun b' =>
    Inv occ (fun k k' => N k k' \/ (k = task_key a /\ NewKey a.(run_phase) ts k')) P W b'
    /\ Grows b b' (NewKey a.(run_phase) ts)).
Proof.
  revert N b. induction ts as [|t ts IH]; intros N b Hi Ha; cbn [add_depends].
  - split; [|apply grows_refl, new_key_nil]. eapply inv_ext; [|done|exact Hi]. intros k k'.
    pose proof (new_key_nil a.(run_phase) k'). tauto.
  - eapply yields_bind; [apply (yields_fetch _ (fun t' => fetch (with_run_phase t a.(run_phase)) = Ok t')); auto|].
    intros t' Hf. simpl. pose proof (add_idx_spec _ _ _ _ _ t' Hi) as Hadd.
    destruct (add_idx b t') as [b1 i]. destruct Hadd as (Hi1 & Ht' & Est & Ese & Hmono & Hknown).
    eapply yields_mono; [|apply (IH (fun k k' => N k k' \/ (k = task_key a /\ k' = task_key t')))].
    + simpl. intros b' [Hi' Hg]. split.
      * eapply inv_ext; [|done|exact Hi']. intros k k'. rewrite (new_key_cons _ _ _ _ _ Hf). simpl. tauto.
      * apply (grows_ext _ _ (fun k => k = task_key t' \/ NewKey a.(run_phase) ts k)); [intros k; symmetry; by apply new_key_cons|]. 
        eapply grows_step; [..|exact Hg]; simpl; [done|done|done|].
        by rewrite Est.
    + destruct Hi1 as [H1 H2 H3 H4 H5 H6 H7]. pose proof (Hmono _ _ Ha) as Ha1. constructor; simpl; try done.
      * intros k j. by rewrite update_edge_keys.
      * intros k x. rewrite update_edge_nodes. by apply H2.
      * intros k k'. rewrite (update_edge_runs_after _ a_idx i (task_key a) (task_key t')); [by rewrite H3|by apply H1..].
      * intros k k'. by rewrite related_insert, H4.
    + simpl. by apply Hmono.
Qed.

Lemma add_depends_post_spec occ N P W b a ts :
  Inv occ N P W b -> known b (task_key a) ->
  Yields (add_depends_post is_remote fetch_tasks b a ts) (fun b' =>
    Inv occ N (fun k k' => P k k' \/ (k' = task_key a /\ NewKey Post ts k)) W b'
    /\ Grows b b' (NewKey Post ts)).
Proof.
  revert P b. induction ts as [|t ts IH]; intros P b Hi Ha; cbn [add_depends_post].
  - split; [|apply grows_refl, new_key_nil]. eapply inv_ext; [done| |exact Hi]. intros k k'.
    pose proof (new_key_nil Post k). tauto.
  - eapply yields_bind; [apply (yields_fetch _ (fun t' => fetch (with_run_phase t Post) = Ok t')); auto|].
    intros t' Hf. simpl. pose proof (add_idx_spec _ _ _ _ _ t' Hi) as Hadd.
    destruct (add_idx b t') as [b1 i]. destruct Hadd as (Hi1 & Ht' & Est & Ese & Hmono & Hknown).
    assert (known b1 (task_key a)) as Ha1 by (apply Hknown; by left).
    eapply yields_mono; [|apply (IH (fun k k' => P k k' \/ (k = task_key t' /\ k' = task_key a)))].
    + simpl. intros b' [Hi' Hg]. split.
      * eapply inv_ext; [done| |exact Hi']. intros k k'. rewrite (new_key_cons _ _ _ _ _ Hf). simpl. tauto.
      * apply (grows_ext _ _ (fun k => k = task_key t' \/ NewKey Post ts k)); [intros k; symmetry; by apply new_key_cons|]. 
        eapply grows_step; [..|exact Hg]; simpl; [done|done|done|].
        by rewrite Est.
    + destruct Hi1 as [H1 H2 H3 H4 H5 H6 H7]. constructor; simpl; try done.
      * intros k k'. by rewrite related_insert, H5.
      * intros k k' [?|[-> ->]]; [by apply H6|]. split; [by exists i|done].
    + done.
Qed.

Lemma add_roots_spec b tasks :
  Inv ∅ (fun _ _ => False) (fun _ _ => False) [] b ->
  Yields (add_roots is_remote fetch_tasks b tasks) (fun b' =>
    Inv ∅ (fun _ _ => False) (fun _ _ => False) [] b' /\ Grows b b' (NewKey Normal tasks)).
Proof.
  revert b. induction tasks as [|t tasks IH]; intros b Hi; cbn [add_roots].
  - split; [done|apply grows_refl, new_key_nil].
  - eapply yields_bind; [apply (yields_fetch _ (fun t' => fetch (with_run_phase t Normal) = Ok t')); auto|].
    intros t' Hf. simpl. assert (Inv ∅ (fun _ _ => False) (fun _ _ => False) [] (set_stack b (t' :: b.(stack)))) as Hi0 by (by destruct Hi).
    pose proof (add_idx_spec _ _ _ _ _ t' Hi0) as Hadd.
    destruct (add_idx (set_stack b (t' :: b.(stack))) t') as [b1 i]. destruct Hadd as (Hi1 & Ht' & Est & Ese & Hmono & Hknown).
    eapply yields_mono; [|by apply IH]. simpl. intros b' [Hi' Hg]. split; [done|].
    apply (grows_ext _ _ (fun k => k = task_key t' \/ NewKey Normal tasks k)); [intros k; symmetry; by apply new_key_cons|]. 
        eapply grows_step; [..|exact Hg]; [done|done|done|].
    by rewrite Est.
Qed.

(** ** Expansion *)

Definition waits_ok occ (W : list (TaskKey * Task R)) : Prop :=
  forall k t, (k, t) ∈ W <-> exists a r, occ !! k = Some a /\ resolve_depends a all = inr r /\ t ∈ r.(wait_for).

Lemma lookup_insert_cases occ k a k' x :
  occ !! k = None -> <[k := a]> occ !! k' = Some x <-> occ !! k' = Some x \/ (k' = k /\ x = a).
Proof.
  intros Hk. rewrite lookup_insert_Some. split; [intros [[-> ->]|[_ ?]]; auto|].
  intros [Hx|[-> ->]]; [right|by left]. split; [|done]. intros ->. congruence.
Qed.

Lemma needs_insert occ k a r k1 k2 :
  occ !! k = None -> resolve_depends a all = inr r ->
  Needs (<[k := a]> occ) k1 k2 <-> Needs occ k1 k2 \/ (k1 = k /\ NewKey a.(run_phase) r.(depends) k2).
Proof.
  intros Hk Hr. unfold Needs, NewKey. split.
  - intros (a' & r' & t & t' & [Ha|[-> ->]]%lookup_insert_cases & Hr' & Ht); [left; by exists a', r', t, t'|right|done].
    split; [done|]. exists t, t'. replace r with r' by congruence. done.
  - intros [(a' & r' & t & t' & Ha & Hrest)|[-> (t & t' & Ht)]].
    + exists a', r', t, t'. split; [|done]. apply lookup_insert_cases; auto.
    + exists a, r, t, t'. split; [apply lookup_insert_cases; auto|done].
Qed.

Lemma posts_insert occ k a r k1 k2 :
  occ !! k = None -> resolve_depends a all = inr r ->
  Posts (<[k := a]> occ) k1 k2 <-> Posts occ k1 k2 \/ (k2 = k /\ NewKey Post r.(depends_post) k1).
Proof.
  intros Hk Hr. unfold Posts, NewKey. split.
  - intros (a' & r' & t & t' & [Ha|[-> ->]]%lookup_insert_cases & Hr' & Ht); [left; by exists a', r', t, t'|right|done].
    split; [done|]. exists t, t'. replace r with r' by congruence. done.
  - intros [(a' & r' & t & t' & Ha & Hrest)|[-> (t & t' & Ht)]].
    + exists a', r', t, t'. split; [|done]. apply lookup_insert_cases; auto.
    + exists a, r, t, t'. split; [apply lookup_insert_cases; auto|done].
Qed.

Lemma waits_insert occ W k a r :
  waits_ok occ W -> occ !! k = None -> resolve_depends a all = inr r ->
  waits_ok (<[k := a]> occ) (W ++ map (fun t => (k, t)) r.(wait_for)).
Proof.
  intros Hw Hk Hr k' t. specialize (Hw k' t). rewrite elem_of_app, Hw, list_elem_of_fmap. split.
  - intros [(a' & r' & Ha & Hrest)|(t' & [= -> ->] & Ht)].
    + exists a', r'. split; [|done]. apply lookup_insert_cases; auto.
    + exists a, r. split; [apply lookup_insert_cases; auto|done].
  - intros (a' & r' & [Ha|[-> ->]]%lookup_insert_cases & Hr' & Ht); [left; by exists a', r'|right|done].
    exists t. split; [done|]. by replace r with r' by congruence.
Qed.

Definition introduced (a : Task R) (r : ResolvedTaskDependencies R) (k : TaskKey) : Prop :=
  NewKey a.(run_phase) r.(depends) k \/ NewKey Post r.(depends_post) k.

Lemma expand_spec occ W b a :
  Inv occ (Needs occ) (Posts occ) W b -> waits_ok occ W -> occ !! task_key a = None -> known b (task_key a) ->
  Yields (expand is_remote fetch_tasks render_usage resolve_depends b a all) (fun b' => exists a' r W',
    task_key a' = task_key a /\ resolve_depends a' all = inr r /\ waits_ok (<[task_key a := a']> occ) W'
    /\ Inv (<[task_key a := a']> occ) (Needs (<[task_key a := a']> occ)) (Posts (<[task_key a := a']> occ)) W' b'
    /\ Grows b b' (introduced a' r)).
Proof.
  intros Hi Hw Hocc [i0 Hi0]. unfold expand.
  eapply yields_bind; [apply (yields_try _ (fun _ => True)); [|done]; intros e He; right; left; by exists a|].
  intros r0 _. set (a' := set_rest a r0). pose proof (add_idx_spec _ _ _ _ _ a' Hi) as Hadd.
  unfold add_idx in *. change (task_key a') with (task_key a) in *. rewrite Hi0 in *. cbn [set_b_graph stack wait_edges].
  eapply yields_bind; [apply (yields_try _ (fun r => resolve_depends a' all = inr r)); [|done]; intros e He; right; right; right; by exists a', all|].
  intros r Hr. set (occ' := <[task_key a := a']> occ). set (g := dg_set (b_graph b) i0 a').
  assert (Inv occ' (Needs occ) (Posts occ) W (set_b_graph b g)) as Hi1.
  { destruct Hi as [H1 H2 H3 H4 H5 H6 H7]. pose proof (proj1 (H1 _ _) Hi0) as Hk0.
    assert (node_keys g = node_keys (b_graph b)) as Ek by (by apply set_keys).
    constructor; simpl; try done.
    - intros k j. by rewrite Ek.
    - intros k x [Hx|[-> ->]]%lookup_insert_cases; [| |done].
      + destruct (H2 k x Hx) as (Ekey & j & Hj & Hn). split; [done|]. exists j. split; [done|]. unfold g.
        rewrite set_nodes, list_lookup_insert_ne; [done|]. intros ->.
        assert (k = task_key a) as -> by (apply H1 in Hj; congruence). congruence.
      + split; [done|]. exists i0. split; [done|]. unfold g. rewrite set_nodes, list_lookup_insert_eq; [done|].
        change (i0 < node_count (b_graph b)). rewrite <- node_keys_length. by eapply lookup_lt_Some.
    - intros k k'. unfold g. by rewrite set_runs_after. }
  eapply yields_bind.
  { apply (add_depends_spec occ' (Needs occ) (Posts occ) W (set_b_graph b g) a' i0); [exact Hi1|exact Hi0]. }
  intros b1 [Hi2 Hg2]. simpl in Hi2.
  set (W' := W ++ map (fun t => (task_key a', t)) (wait_for r)).
  set (b2 := mkBuild b1.(b_graph) b1.(indexes) b1.(stack) b1.(seen) b1.(direct_post_parents) b1.(b_dep_edges)
    (b1.(wait_edges) ++ map (fun t => (task_key a', t)) r.(wait_for))).
  assert (Inv occ' (Needs occ') (Posts occ) W' b2) as Hi3.
  { destruct Hi2 as [H1 H2 H3 H4 H5 H6 H7].
    apply (inv_ext occ' (fun k k' => Needs occ k k' \/ (k = task_key a' /\ NewKey a'.(run_phase) r.(depends) k')) (Posts occ)); [|done|constructor;
      [exact H1|exact H2|exact H3|exact H4|exact H5|exact H6|by simpl; rewrite H7]].
    intros k k'. unfold occ'. by rewrite (needs_insert occ (task_key a) a' r). }
  eapply yields_mono; [|apply (add_depends_post_spec _ _ _ W' b2 a' (depends_post r) Hi3)].
  2:{ apply Hg2. left. by exists i0. }
  intros b' [Hi4 Hg4]. exists a', r, W'. split_and!; [done|done|by apply waits_insert| |].
  - eapply (inv_ext occ' (Needs occ')); [done| |exact Hi4]. intros k k'. unfold occ'. by rewrite (posts_insert occ (task_key a) a' r).
  - destruct Hg2 as (F1 & F2 & F3 & F4), Hg4 as (G1 & G2 & G3 & G4). split_and!.
    + by rewrite G1.
    + intros k j Hk. apply G2. by apply F2.
    + intros k. unfold introduced. rewrite G3. specialize (F3 k). simpl in F3. unfold known in *. simpl in *. tauto.
    + intros k. unfold introduced. rewrite G4. specialize (F4 k). simpl in *. tauto.
Qed.

(** ** The worklist *)

(** Expansion stays among the keys [X]. *)
Definition Closed (X : gset TaskKey) : Prop :=
  forall a r k, task_key a ∈ X -> resolve_depends a all = inr r -> introduced a r k -> k ∈ X.

Lemma introduces_insert occ k a k1 k2 : occ !! k = None -> Introduces occ k1 k2 -> Introduces (<[k := a]> occ) k1 k2.
Proof.
  intros Hk [(a' & r & t & t' & Ha & Hrest)|(a' & r & t & t' & Ha & Hrest)]; [left|right]; exists a', r, t, t';
    (split; [apply lookup_insert_cases; auto|done]).
Qed.

Lemma introduced_introduces occ a r k : occ !! task_key a = Some a -> resolve_depends a all = inr r ->
  introduced a r k -> Introduces occ (task_key a) k.
Proof.
  intros Ha Hr [(t & t' & Ht)|(t & t' & Ht)]; [left|right]; by exists a, r, t, t'.
Qed.

Section loop.
Context (tasks : list (Task R)) (X : gset TaskKey) (HX : Closed X).

Record LoopInv occ (W : list (TaskKey * Task R)) (b : Build R G) : Prop := {
  li_inv : Inv occ (Needs occ) (Posts occ) W b;
  li_waits : waits_ok occ W;
  li_covered : Covered b;
  li_seen k : k ∈ b.(seen) <-> is_Some (occ !! k);
  li_reached k : known b k -> k ∈ X /\ exists root, Root tasks root /\ rtc (Introduces occ) root k;
  li_roots root : Root tasks root -> known b root
}.

Lemma expand_loop_new occ W b a below :
  LoopInv occ W b -> b.(stack) = a :: below -> task_key a ∉ b.(seen) ->
  let b1 := mkBuild b.(b_graph) b.(indexes) below ({[task_key a]} ∪ b.(seen))
              b.(direct_post_parents) b.(b_dep_edges) b.(wait_edges) in
  Yields (expand is_remote fetch_tasks render_usage resolve_depends b1 a all) (fun b' =>
    (exists occ' W', LoopInv occ' W' b') /\ b'.(seen) = {[task_key a]} ∪ b.(seen)).
Proof.
  intros [L1 L2 L3 L4 L5 L6] Est Hns b1.
  assert (occ !! task_key a = None) as Hocc by (apply eq_None_not_Some; by rewrite <- L4).
  assert (known b (task_key a)) as Hka by (apply L3; right; rewrite Est; apply list_elem_of_here).
  assert (Inv occ (Needs occ) (Posts occ) W b1) as Hi1 by (by destruct L1).
  eapply yields_mono; [|by apply (expand_spec occ W b1 a Hi1 L2 Hocc)].
  intros b' (a' & r & W' & Ekey & Hr & Hw & Hi' & Hg). set (occ' := <[task_key a := a']> occ) in *.
  assert (Covered b1) as Hc1.
  { intros k. simpl. specialize (L3 k). rewrite Est in L3. cbn [map] in L3. rewrite elem_of_cons in L3.
    rewrite elem_of_union, elem_of_singleton. unfold known in *. simpl. tauto. }
  pose proof (grows_covered _ _ _ Hg Hc1) as Hc'. destruct Hg as (G1 & G2 & G3 & G4). split; [|done].
  assert (occ' !! task_key a' = Some a') as Ha' by (by rewrite Ekey; unfold occ'; rewrite lookup_insert_eq).
  exists occ', W'. constructor; [done|done|done| | |].
  - intros k. rewrite G1. simpl. rewrite elem_of_union, elem_of_singleton, L4. unfold occ'.
    destruct (decide (k = task_key a)) as [->|Hne].
    + rewrite lookup_insert_eq. split; [by eexists|by left].
    + rewrite lookup_insert_ne by done. naive_solver.
  - destruct (L5 _ Hka) as [HaX (root & Hroot & Hreach)].
    assert (forall k, rtc (Introduces occ) root k -> rtc (Introduces occ') root k) as Hmono.
    { intros k. apply rtc_subrel. intros x y. by apply introduces_insert. }
    intros k [Hk|Hk]%G3.
    + destruct (L5 k Hk) as [HkX (root' & Hroot' & Hreach')]. split; [done|]. exists root'. split; [done|].
      eapply rtc_subrel; [|exact Hreach']. intros x y. by apply introduces_insert.
    + split; [eapply HX; [|exact Hr|exact Hk]; by rewrite Ekey|]. exists root. split; [done|].
      eapply rtc_r; [by apply Hmono|]. rewrite <- Ekey. by eapply introduced_introduces.
  - intros root Hroot. apply G3. left. by apply L6.
Qed.

Lemma expand_loop_spec m : forall occ W b, size (X ∖ b.(seen)) < m -> LoopInv occ W b ->
  exists n res, (forall fuel, n <= fuel ->
      expand_loop is_remote fetch_tasks render_usage resolve_depends fuel b all = res)
    /\ Yields res (fun b' => b'.(stack) = [] /\ exists occ' W', LoopInv occ' W' b').
Proof.
  induction m as [|m IH]; intros occ W b Hm; [lia|].
  remember (stack b) as st eqn:Est. revert b Hm Est. induction st as [|a below IHst]; intros b Hm Est Hl.
  - exists 1, (Ok b). split; [|simpl; split; [done|by exists occ, W]]. intros [|fuel] Hf; [lia|]. cbn [expand_loop]. by rewrite <- Est.
  - destruct (decide (task_key a ∈ b.(seen))) as [Hs|Hs].
    + destruct (IHst (set_stack b below)) as (n & res & Hn & Hres); [done|done| |].
      { destruct Hl as [L1 L2 L3 L4 L5 L6]. constructor; simpl; try done; [by destruct L1|]. intros k.
        specialize (L3 k). rewrite <- Est in L3. cbn [map] in L3. rewrite elem_of_cons in L3. simpl.
        unfold known in *. simpl. split; [|tauto]. intros [?|[->|?]]%L3; auto. }
      exists (S n), res. split; [|done]. intros [|fuel] Hf; [lia|]. cbn [expand_loop]. rewrite <- Est.
      rewrite bool_decide_eq_true_2 by done. apply Hn. lia.
    + pose proof (expand_loop_new occ W b a below Hl (eq_sym Est) Hs) as Hy. cbv zeta in Hy.
      destruct (expand _ _ _ _ _ _ _) as [b'|e|] eqn:Eexp; [|destruct e as [e| |]; [|done..]|done].
      * destruct Hy as [(occ' & W' & Hl') Es]. destruct (IH occ' W' b') as (n & res & Hn & Hres); [|done|].
        { assert (task_key a ∈ X) as HaX.
          { destruct Hl as [L1 L2 L3 L4 L5 L6]. apply L5, L3. right. rewrite <- Est. apply list_elem_of_here. }
          rewrite Es. enough (size (X ∖ ({[task_key a]} ∪ b.(seen))) < size (X ∖ b.(seen))) by lia.
          apply subset_size. split; [set_solver|]. intros Hsub. specialize (Hsub (task_key a)). set_solver. }
        exists (S n), res. split; [|done]. intros [|fuel] Hf; [lia|]. cbn [expand_loop]. rewrite <- Est.
        rewrite bool_decide_eq_false_2 by done. cbn [set_stack b_graph indexes stack seen direct_post_parents b_dep_edges wait_edges].
        rewrite Eexp. cbn [rbind]. apply Hn. lia.
      * exists 1, (Err (Failed e)). split; [|done]. intros [|fuel] Hf; [lia|]. cbn [expand_loop]. rewrite <- Est.
        rewrite bool_decide_eq_false_2 by done. cbn [set_stack b_graph indexes stack seen direct_post_parents b_dep_edges wait_edges].
        by rewrite Eexp.
Qed.
End loop.

(** ** The whole construction *)

Lemma inv_start : Inv ∅ (fun _ _ => False) (fun _ _ => False) [] (mkBuild dg_new ∅ [] ∅ ∅ ∅ []).
Proof.
  constructor; simpl; [| | | | |done|done].
  - intros k i. unfold node_keys. rewrite nodes_new. by rewrite lookup_empty.
  - intros k a Ha. by rewrite lookup_empty in Ha.
  - intros k k'. split; [|done]. intros (i & j & _ & Hi & _). unfold node_keys in Hi. by rewrite nodes_new in Hi.
  - intros k k'. split; [apply related_empty|done].
  - intros k k'. split; [apply related_empty|done].
Qed.

Lemma roots_loop_inv tasks X b :
  (forall k, Root tasks k -> k ∈ X) ->
  Inv ∅ (fun _ _ => False) (fun _ _ => False) [] b ->
  Grows (mkBuild dg_new ∅ [] ∅ ∅ ∅ []) b (NewKey Normal tasks) -> LoopInv tasks X ∅ [] b.
Proof.
  intros HX Hi Hg. pose proof Hg as (G1 & G2 & G3 & G4).
  assert (forall k, known b k <-> Root tasks k) as Hroot.
  { intros k. rewrite G3. unfold known. simpl. rewrite lookup_empty. split; [by intros [[? ?]|?]|by right]. }
  constructor.
  - eapply inv_ext; [| |exact Hi]; intros k k'; (split; [done|]);
      [intros (a & r & t & t' & Ha & _)|intros (a & r & t & t' & Ha & _)]; by rewrite lookup_empty in Ha.
  - intros k t. split; [by intros ?%elem_of_nil|]. intros (a & r & Ha & _). by rewrite lookup_empty in Ha.
  - eapply grows_covered; [exact Hg|]. intros k. unfold known. simpl. rewrite lookup_empty.
    split; [by intros []|]. by intros [?%elem_of_empty|?%elem_of_nil].
  - intros k. rewrite G1, lookup_empty. simpl. split; [by intros ?%elem_of_empty|by intros []].
  - intros k Hk%Hroot. split; [by apply HX|]. by exists k.
  - intros root Hk. by apply Hroot.
Qed.

(** When the worklist is empty the nodes are what they are to be. *)
Lemma loop_nodes tasks X occ W b : LoopInv tasks X occ W b -> b.(stack) = [] -> Nodes tasks occ b.(b_graph).
Proof.
  intros [L1 L2 L3 L4 L5 L6] Hst.
  assert (forall k, k ∈ node_keys b.(b_graph) <-> known b k) as Hkn.
  { intros k. unfold known. split.
    - intros [i Hi]%list_elem_of_lookup. exists i. by apply (inv_indexes _ _ _ _ _ L1).
    - intros [i Hi%(inv_indexes _ _ _ _ _ L1)]. by eapply list_elem_of_lookup_2. }
  assert (forall k, known b k <-> is_Some (occ !! k)) as Hko.
  { intros k. rewrite <- L4. specialize (L3 k). rewrite Hst in L3. simpl in L3. rewrite L3.
    split; [|by left]. by intros [?|?%elem_of_nil]. }
  constructor.
  - by eapply inv_NoDup.
  - intros i t. split.
    + intros Ht. assert (node_keys b.(b_graph) !! i = Some (task_key t)) as Hk by (by rewrite node_keys_lookup, Ht).
      split; [done|]. assert (is_Some (occ !! task_key t)) as [a Ha].
      { apply Hko, Hkn. by eapply list_elem_of_lookup_2. }
      destruct (inv_occ _ _ _ _ _ L1 _ _ Ha) as (_ & j & Hj & Hn).
      apply (inv_indexes _ _ _ _ _ L1) in Hk. congruence.
    + intros [Hk Ho]. destruct (inv_occ _ _ _ _ _ L1 _ _ Ho) as (_ & j & Hj & Hn).
      apply (inv_indexes _ _ _ _ _ L1) in Hk. congruence.
  - intros k. rewrite Hkn. split; [intros [_ ?]%L5; done|]. intros (root & Hr & Hreach).
    apply L6 in Hr. clear L6. induction Hreach as [k|k k1 k2 Hstep _ IH]; [done|]. apply IH, Hkn.
    destruct Hstep as [Hn|Hp].
    + apply (inv_edges _ _ _ _ _ L1) in Hn. by apply runs_after_keys in Hn as [_ ?].
    + apply (inv_posts_known _ _ _ _ _ L1) in Hp as [[i Hp] _]. apply (inv_indexes _ _ _ _ _ L1) in Hp.
      by eapply list_elem_of_lookup_2.
Qed.

Lemma inherits_barrier occ N P W b :
  Inv occ N P W b -> (forall k k', N k k' <-> Needs occ k k') -> (forall k k', P k k' <-> Posts occ k k') ->
  forall k k', Inherits b.(b_dep_edges) b.(direct_post_parents) k k' <-> Barrier occ k k'.
Proof.
  intros Hi HN HP k k'. split.
  - induction 1 as [k x Hd|k k1 x _ IH He Hph Hne].
    + apply barrier_post, HP. by apply (inv_posts _ _ _ _ _ Hi).
    + eapply barrier_need; [exact IH| |done|done]. apply HN. by apply (inv_dep_edges _ _ _ _ _ Hi).
  - induction 1 as [k x Hd|k k1 x _ IH He Hph Hne].
    + apply inherits_direct, (inv_posts _ _ _ _ _ Hi). by apply HP.
    + eapply inherits_step; [exact IH| |done|done]. apply (inv_dep_edges _ _ _ _ _ Hi). by apply HN.
Qed.

(** The barriers are among nodes of the graph. *)
Lemma barrier_known occ W b k k' :
  Inv occ (Needs occ) (Posts occ) W b -> Barrier occ k k' -> known b k /\ known b k'.
Proof.
  intros Hi. induction 1 as [k x Hd|k k1 x _ [IH1 IH2] He Hph Hne].
  - by apply (inv_posts_known _ _ _ _ _ Hi).
  - split; [|done]. apply (inv_edges _ _ _ _ _ Hi), runs_after_keys in He as [_ He].
    apply list_elem_of_lookup in He as [i Hk]. exists i. by apply (inv_indexes _ _ _ _ _ Hi).
Qed.

Lemma finish_edges tasks X occ W b parents :
  LoopInv tasks X occ W b -> b.(stack) = [] ->
  (forall k x, related parents k x <-> Barrier occ k x) ->
  exists g g', add_barriers (E := E) b.(indexes) b.(b_graph) (entries parents) = Ok g
    /\ add_waits (E := E) b.(indexes) g b.(wait_edges) = Ok g' /\ Built tasks occ g'.
Proof.
  intros Hl Hst Hpar. pose proof (loop_nodes _ _ _ _ _ Hl Hst) as Hnodes. destruct Hl as [L1 L2 L3 L4 L5 L6].
  assert (indexed b.(indexes) b.(b_graph)) as Hind by exact (inv_indexes _ _ _ _ _ L1).
  destruct (add_barriers_spec (E := E) b.(indexes) (entries parents) b.(b_graph) Hind) as (g & Eg & En & Hr).
  { intros k k' Hk%elem_of_entries%Hpar. by apply (barrier_known occ W b). }
  assert (node_keys g = node_keys b.(b_graph)) as Ek by (unfold node_keys; by rewrite En).
  destruct (add_waits_spec (E := E) b.(indexes) b.(wait_edges) g) as (g' & Eg' & En' & Hr').
  { by eapply indexed_nodes. } { rewrite Ek. by eapply inv_NoDup. }
  { intros k t Hk. rewrite (inv_waits _ _ _ _ _ L1) in Hk. apply L2 in Hk as (a & r & Ha & _).
    destruct (inv_occ _ _ _ _ _ L1 _ _ Ha) as (_ & i & Hi & _). by exists i. }
  assert (node_keys g' = node_keys b.(b_graph)) as Ek' by (unfold node_keys; by rewrite En').
  exists g, g'. split_and!; [done|done|]. split.
  - destruct Hnodes as [N1 N2 N3]. constructor; [by rewrite Ek'| |by rewrite Ek']. intros i t. by rewrite Ek', En', En.
  - intros k k'. rewrite Hr', Hr, elem_of_entries, Hpar, (inv_edges _ _ _ _ _ L1), Ek, Ek', (inv_waits _ _ _ _ _ L1).
    unfold Waits. split.
    + intros [[?|?]|(t & Ht & Hk)]; [by left|by right; left|right; right].
      apply L2 in Ht as (a & r & Ha & Hres & Hin). by exists a, r, t.
    + intros [?|[?|(a & r & t & Ha & Hres & Hin & Hk)]]; [by left; left|by left; right|right].
      exists t. split; [apply L2; by exists a, r|done].
Qed.
(** A graph ready to run, with what the code remembers of its construction. *)
Record Ready (tasks : list (Task R)) occ (d : Deps R G) : Prop := {
  ready_built : Built tasks occ d.(graph);
  ready_acyclic : acyclic d.(graph);
  ready_dep_edges k k' : related d.(dep_edges) k k' <-> Needs occ k k';
  ready_parents k k' : related d.(post_dep_parents) k k' <-> Barrier occ k k';
  ready_order : d.(creation_order) = node_keys d.(graph);
  ready_start : d.(sent) = ∅ /\ d.(removed) = ∅ /\ d.(executed) = ∅ /\ d.(did_work) = ∅ /\ d.(cache_keys) = ∅ /\ d.(tx) = None
}.

(** The report of some cycles, all of them when there is no limit. *)
Definition Reports (g : G) (limit : option nat) (paths : list (list str)) (keys : list (list TaskKey)) : Prop :=
  exists cycles, cycles <> [] /\ NoDup cycles /\ (forall c, c ∈ cycles -> IsCycle g c)
    /\ (forall l, limit = Some l -> length cycles <= l) /\ (limit = None -> forall c, IsCycle g c -> c ∈ cycles)
    /\ keys = map (omap (fun idx => task_key <$> dg_nodes g !! idx)) cycles
    /\ paths = map (omap (fun idx => task_cycle_label <$> dg_nodes g !! idx)) cycles.

Lemma direct_parents (b : Build R G) occ W :
  Inv occ (Needs occ) (Posts occ) W b ->
  let '(parents, pending) :=
    fold_left (fun acc (pair : TaskKey * TaskKey) => add_parent acc pair.1 pair.2) (entries b.(direct_post_parents)) (∅, []) in
  exists n parents', (forall fuel, n <= fuel -> propagate_parents (E := E) fuel b.(b_dep_edges) parents pending = Ok parents')
    /\ forall k x, related parents' k x <-> Barrier occ k x.
Proof.
  intros Hi. pose proof (direct_parents_spec (entries b.(direct_post_parents)) ∅ []) as Hd.
  destruct (fold_left _ _ _) as [parents pending]. destruct Hd as [D1 D2].
  { intros k x. split; [by intros ?%related_empty|by intros ?%elem_of_nil]. }
  pose proof (inherits_barrier occ _ _ W b Hi
    (fun _ _ => iff_refl _) (fun _ _ => iff_refl _)) as Hib.
  set (U := list_to_set (list_prod (node_keys b.(b_graph)) (node_keys b.(b_graph))) : gset (TaskKey * TaskKey)).
  destruct (propagate_parents_spec (E := E) b.(b_dep_edges) b.(direct_post_parents) U
    (S (size (U ∖ pairs_of parents) + length pending)) parents pending) as (parents' & Hrun & Hspec).
  - intros k x Hk%Hib. apply elem_of_list_to_set, list_elem_of_In, in_prod_iff.
    destruct (barrier_known occ W b k x Hi Hk) as [[i H1] [j H2]].
    apply (inv_indexes _ _ _ _ _ Hi) in H1, H2. split; apply list_elem_of_In; by eapply list_elem_of_lookup_2.
  - constructor.
    + intros k x Hk. apply inherits_direct. apply D1 in Hk as [?%related_empty|?]; [done|by apply elem_of_entries].
    + intros [k x] Hp. by apply D2.
    + intros k x k' Hk Hn. by apply D2 in Hk.
  - intros k x Hk. apply D1. right. by apply elem_of_entries.
  - lia.
  - eexists _, parents'. split; [exact Hrun|]. intros k x. by rewrite Hspec, Hib.
Qed.

Lemma find_cycles_report (g : G) limit :
  limit <> Some 0 -> exists n cycles, (forall fuel, n <= fuel -> find_cycles fuel g limit = Ok cycles)
    /\ (cycles = [] -> forall c, ~ IsCycle g c) /\ NoDup cycles /\ (forall c, c ∈ cycles -> IsCycle g c)
    /\ (forall l, limit = Some l -> length cycles <= l) /\ (limit = None -> forall c, IsCycle g c -> c ∈ cycles).
Proof.
  intros Hl. destruct (find_cycles_spec g limit Hl) as (all_cycles & n & Hn & Hall & Hrun). exists n, (cut limit all_cycles).
  split; [done|]. unfold cut. destruct limit as [l|].
  - split_and!; [|by apply (sublist_NoDup _ all_cycles), sublist_take|intros c Hc; apply Hall; by eapply subseteq_take|intros l' [= <-]; rewrite length_take; lia|done].
    intros Hc c Hcyc%Hall. destruct l as [|l]; [done|]. by destruct all_cycles; [apply elem_of_nil in Hcyc|].
  - split_and!; [|done|by intros c ?%Hall|done|intros _ c; apply Hall]. intros -> c Hc%Hall. by apply elem_of_nil in Hc.
Qed.

(** C2. [Deps::new] builds the described graph or reports its cycles. When the tasks that
    dependencies can bring in are finitely many, the construction ends whatever the calls it
    makes return, without a panic, and its result is one of three. A graph: its tasks are those
    the roots bring in, each once; a task runs after what it depends on, a cleanup task and what
    it needs in its phase run after the parents of the cleanup, a waiting task after what it
    waits for among the tasks that are there, and no other edge exists; the graph has no
    cycle. Or the report of elementary cycles of that graph, all of them, each once, when there
    is no limit, and at least one otherwise. Or the error of a call. *)
Theorem graph_built tasks limit X :
  limit <> Some 0 -> resolve_all tasks = inr all -> Closed X -> (forall k, Root tasks k -> k ∈ X) ->
  exists n res,
    (forall fuel, n <= fuel ->
      new_with_cycle_limit is_remote fetch_tasks render_usage resolve_all resolve_depends fuel tasks limit = res)
    /\ match res with
       | Ok d => exists occ, Ready tasks occ d
       | Err (Cycle paths keys) => exists occ (g : G), Built tasks occ g /\ Reports g limit paths keys
       | Err (Failed e) => Fault e
       | Err Panicked | OutOfFuel => False
       end.
Proof.
  intros Hlim Hall HX Hroots. unfold new_with_cycle_limit.
  pose proof (add_roots_spec _ tasks inv_start) as Hr.
  destruct (add_roots _ _ _ tasks) as [b0|[e| |]|]; [|exists 0, (Err (Failed e)); split; [done|exact Hr]|done..].
  destruct Hr as [Hi0 Hg0]. cbn [rbind]. rewrite Hall. cbn [try_ rbind].
  pose proof (roots_loop_inv tasks X b0 Hroots Hi0 Hg0) as Hl0.
  destruct (expand_loop_spec tasks X HX (S (size (X ∖ b0.(seen)))) ∅ [] b0) as (n1 & res & Hrun & Hres); [lia|done|].
  destruct res as [b|[e| |]|]; [|exists n1, (Err (Failed e)); split; [|exact Hres]; intros fuel Hf; by rewrite Hrun|done..].
  destruct Hres as (Hst & occ & W & Hl). pose proof (li_inv _ _ _ _ _ Hl) as Hi.
  pose proof (direct_parents b occ W Hi) as Hp. destruct (fold_left _ _ _) as [parents pending] eqn:Ef.
  destruct Hp as (n2 & parents' & Hrun2 & Hpar).
  destruct (finish_edges tasks X occ W b parents' Hl Hst Hpar) as (g & g' & Eg & Eg' & Hbuilt).
  destruct (find_cycles_report g' limit Hlim) as (n3 & cycles & Hrun3 & Hnone & Hcyc).
  exists (n1 + n2 + n3), (match cycles with
    | [] => Ok (mkDeps g' ∅ ∅ ∅ ∅ ∅ b.(b_dep_edges) parents' (node_keys g') None)
    | _ => Err (Cycle (map (omap (fun idx => task_cycle_label <$> dg_nodes g' !! idx)) cycles)
                      (map (omap (fun idx => task_key <$> dg_nodes g' !! idx)) cycles))
    end). split.
  - intros fuel Hf. rewrite Hrun by lia. cbn [rbind]. rewrite Ef, Hrun2 by lia. cbn [rbind]. rewrite Eg. cbn [rbind].
    rewrite Eg'. cbn [rbind]. rewrite Hrun3 by lia. cbn [map_err rbind]. by destruct cycles.
  - destruct cycles as [|c cycles].
    + exists occ. constructor; simpl; [done| | |done|done|done].
      * apply no_cycles_acyclic; [apply Hbuilt|by apply Hnone].
      * intros k k'. apply (inv_dep_edges _ _ _ _ _ Hi).
    + exists occ, g'. split; [done|]. exists (c :: cycles). split; [done|]. tauto.
Qed.
End spec.
End build.
