(* ===== verification/TaskGraphSpec.v ===== *)
(** * What the task graph promises

    The graph that [Deps::new] builds is the one the configuration describes and has no cycles;
    tasks start in its order; the order of creation outlives removals. *)

From S2P Require Import Prelude RustStr TaskGraph TaskCycles TaskGraphFacts TaskGraphRun TaskGraphList TaskGraphBuild.

(** ** The run *)

Section run.
Context {R G E : Type} `{DiGraphLaws (Task R) G}.
Context (is_remote : Task R -> bool) (fetch_tasks : Task R -> E + Task R).
Context (resolve_depends : Task R -> list (Task R) -> E + ResolvedTaskDependencies R).
Context (all_tasks tasks : list (Task R)) (occ : gmap TaskKey (Task R)) (d0 : Deps R G).

(** What a task has to wait for: its dependencies, the parents of the cleanup it belongs to, and
    what it waits for. *)
Definition After (k k' : TaskKey) : Prop :=
  Needs is_remote fetch_tasks resolve_depends all_tasks occ k k'
  \/ Barrier is_remote fetch_tasks resolve_depends all_tasks occ k k'
  \/ Waits resolve_depends all_tasks occ (node_keys d0.(graph)) k k'.

(** Tasks that compare as equal have the same key. *)
Definition distinct_tasks : Prop :=
  forall t t', t ∈ all d0 -> t' ∈ all d0 -> task_eq t t' = true -> task_key t = task_key t'.

Abbreviation Ready' := (Ready is_remote fetch_tasks resolve_depends all_tasks tasks occ d0).

Lemma ready_startable : Ready' -> distinct_tasks -> Startable d0.
Proof.
  intros [Rb Ra _ _ _ (Rs & Rr & _ & _ & _ & Rt)] Heq. constructor; try done. apply Rb.
Qed.

Lemma ready_after : Ready' -> forall k k', runs_after d0.(graph) k k' <-> After k k'.
Proof. intros HR. apply (built_edges _ _ _ _ _ _ _ (ready_built _ _ _ _ _ _ _ HR)). Qed.

(** C3. Tasks start in order, in a graph that [Deps::new] built and whose tasks have the same key
    when they compare as equal (occurrences of a fetched remote task may not; for those the order
    is lost, see [equal_tasks_confused]). Whichever of its tasks are removed and marked, and
    whatever is subscribed and cancelled in between, [emit_leaves] does not panic; a task that
    has been sent has nothing left to wait for: what it depends on, the parents of the cleanup it
    belongs to and what it waits for have all been removed; a receiver gets a task at most once,
    and the end of the stream only when no task is left. *)
Theorem run_in_order ops :
  Ready' -> distinct_tasks -> Forall (fun t => t ∈ all d0) (flat_map op_tasks ops) ->
  exists d, run d0 ops = Some d
    /\ (forall k k', k ∈ d.(sent) -> After k k' -> k' ∈ d.(removed))
    /\ forall ms, d.(tx) = Some ms ->
         (forall t, Some t ∈ ms -> t ∈ all d0 /\ task_key t ∈ d.(sent))
         /\ NoDup (map task_key (omap id ms))
         /\ (None ∈ ms -> forall t, t ∈ all d0 -> task_key t ∈ d.(removed)).
Proof.
  intros HR Heq Hops. pose proof (ready_startable HR Heq) as Hst.
  destruct (run_good d0 Hst d0 ops (good_start d0 Hst) Hops) as (d & Hrun & Hc & Hm & _). exists d. split; [done|]. split.
  - intros k k' [_ Hk]%(core_sent d0 d Hc) Ha. by apply Hk, (ready_after HR).
  - intros ms Etx. unfold Messages in Hm. rewrite Etx in Hm. destruct Hm as (M1 & M2 & M3). split_and!; [done..|].
    intros Hn t Ht. destruct (decide (task_key t ∈ d.(removed))) as [|Hr]; [done|]. exfalso.
    assert (t ∈ all d) as Hin by (by apply (core_elem d0)). rewrite (M3 Hn) in Hin. by apply elem_of_nil in Hin.
Qed.

(** C36. The run never stalls, in a graph that [Deps::new] built and whose tasks have the same key
    when they compare as equal (see [equal_tasks_confused] for those that do not). While someone
    listens, every task that has nothing left to wait for has been sent; so as long as tasks are
    left there is one that was sent and can be worked on, and when none is left the end of the
    stream has been sent. *)
Theorem run_never_stalls ops d ms :
  Ready' -> distinct_tasks -> Forall (fun t => t ∈ all d0) (flat_map op_tasks ops) ->
  run d0 ops = Some d -> d.(tx) = Some ms ->
  (forall t, t ∈ all d0 -> task_key t ∉ d.(removed) -> (forall k', After (task_key t) k' -> k' ∈ d.(removed)) ->
     task_key t ∈ d.(sent))
  /\ ((exists t, t ∈ all d0 /\ task_key t ∉ d.(removed)) ->
      exists t, t ∈ all d0 /\ (task_key t ∉ d.(removed)) /\ task_key t ∈ d.(sent))
  /\ ((forall t, t ∈ all d0 -> task_key t ∈ d.(removed)) -> None ∈ ms).
Proof.
  intros HR Heq Hops Hrun Etx. pose proof (ready_startable HR Heq) as Hst.
  destruct (run_good d0 Hst d0 ops (good_start d0 Hst) Hops) as (d' & Hrun' & Hc & _ & Hs).
  assert (d' = d) as -> by congruence. unfold Settled in Hs. rewrite Etx in Hs. destruct Hs as [S1 S2]. split_and!.
  - intros t Ht Hr Ha. apply S1.
    + apply (core_keys d0); [done|]. split; [|done]. by apply list_elem_of_fmap_2.
    + intros k' (Hk' & _ & Hn)%(core_edges d0 d Hc). by apply Hn, Ha, (ready_after HR).
  - intros (t & Ht & Hr). assert (t ∈ all d) as Hin by (by apply (core_elem d0)).
    destruct (acyclic_leaf d.(graph)) as [i Hi]; [by apply (core_acyclic d0 Hst)| |].
    { unfold node_count. unfold all in Hin. intros Hl. apply nil_length_inv in Hl. rewrite Hl in Hin. by apply elem_of_nil in Hin. }
    destruct (external_leaf _ i (core_NoDup d0 Hst d Hc) Hi) as (u & Hu & Hleaf).
    apply list_elem_of_lookup_2 in Hu. pose proof (proj1 (core_elem d0 d u Hc) Hu) as [Hu0 Hur].
    exists u. split_and!; [done|done|]. apply S1; [|done]. by apply list_elem_of_fmap_2.
  - intros Hall. apply S2. destruct (all d) as [|t l] eqn:El; [done|]. exfalso.
    assert (t ∈ all d) as Hin by (rewrite El; apply list_elem_of_here).
    apply (core_elem d0) in Hin as [Ht Hr]; [|done]. by apply Hr, Hall.
Qed.

(** ** The order of creation *)

Lemma emit_leaf_order (d : Deps R G) t : (emit_leaf d t).(creation_order) = d.(creation_order).
Proof. unfold emit_leaf. case_bool_decide; [done|]. by destruct (tx d). Qed.

Lemma emit_leaves_order (d d' : Deps R G) : emit_leaves d = Some d' -> d'.(creation_order) = d.(creation_order).
Proof.
  assert (forall ls (d : Deps R G), (fold_left emit_leaf ls d).(creation_order) = d.(creation_order)) as Hf.
  { induction ls as [|t ls IH]; intros e; simpl; [done|]. by rewrite IH, emit_leaf_order. }
  unfold emit_leaves. destruct (is_empty _); [intros [= <-]; apply Hf|]. destruct (_ && _); [done|]. intros [= <-]. apply Hf.
Qed.

Lemma take_out_order (d : Deps R G) t : (default d (take_out d t)).(creation_order) = d.(creation_order).
Proof. unfold take_out. by destruct (node_idx d t). Qed.

Lemma perform_order (d d' : Deps R G) o : perform d o = Some d' -> d'.(creation_order) = d.(creation_order).
Proof.
  destruct o as [| |t|ts|t|t|t|t key]; simpl; try (by intros [= <-]).
  - by intros ->%emit_leaves_order.
  - unfold remove. pose proof (take_out_order d t) as Ho. destruct (take_out d t); [|by intros [= <-]].
    simpl in Ho. intros ->%emit_leaves_order. done.
  - unfold remove_batch. intros ->%emit_leaves_order. revert d. induction ts as [|t ts IH]; intros d; simpl; [done|].
    by rewrite IH, take_out_order.
Qed.

Lemma run_order ops : forall d d' : Deps R G, run d ops = Some d' -> d'.(creation_order) = d.(creation_order).
Proof.
  induction ops as [|o ops IH]; intros d d'; simpl; [by intros [= ->]|].
  destruct (perform d o) as [d1|] eqn:E1; [|done]. intros Hr. by rewrite (IH d1 d' Hr), (perform_order d d1 o).
Qed.

Lemma in_creation_order_spec (l : list (Task R)) : forall m : gmap TaskKey (Task R),
  NoDup (map task_key l) -> (forall t, t ∈ l -> m !! task_key t = None \/ m !! task_key t = Some t) ->
  in_creation_order (map task_key l) m = List.filter (fun t => bool_decide (is_Some (m !! task_key t))) l.
Proof.
  induction l as [|t l IH]; intros m Hn Hm; cbn [map in_creation_order List.filter]; [done|].
  cbn [map] in Hn. apply NoDup_cons in Hn as [Ht Hn].
  destruct (Hm t (list_elem_of_here _ _)) as [E1|E1]; rewrite E1.
  - rewrite bool_decide_eq_false_2 by (by intros []). apply IH; [done|]. intros u Hu. apply Hm. by apply list_elem_of_further.
  - rewrite bool_decide_eq_true_2 by done. f_equal.
    assert (forall u, u ∈ l -> delete (task_key t) m !! task_key u = m !! task_key u) as Hd.
    { intros u Hu. apply lookup_delete_ne. intros Ek. apply Ht. rewrite Ek. by apply list_elem_of_fmap_2. }
    rewrite IH; [|done|intros u Hu; rewrite Hd by done; apply Hm; by apply list_elem_of_further].
    apply List.filter_ext_in. intros u Hu. by rewrite Hd by (by apply list_elem_of_In).
Qed.

Lemma present_map (l : list (Task R)) : forall m : gmap TaskKey (Task R), NoDup (map task_key l) ->
  forall t : Task R, fold_left (fun m t => <[task_key t := t]> m) l m !! task_key t
    = match List.find (fun u => bool_decide (task_key u = task_key t)) l with Some u => Some u | None => m !! task_key t end.
Proof.
  induction l as [|u l IH]; intros m Hn t; cbn [fold_left List.find]; [done|]. cbn [map] in Hn. apply NoDup_cons in Hn as [Hu Hn].
  rewrite IH by done. case_bool_decide as E1.
  - destruct (List.find _ l) as [v|] eqn:Ev; [|by rewrite E1, lookup_insert_eq].
    apply find_some in Ev as [Hv Ev]. apply bool_decide_eq_true in Ev. exfalso. apply Hu. rewrite E1, <- Ev.
    by apply list_elem_of_fmap_2, list_elem_of_In.
  - destruct (List.find _ l); [done|]. by rewrite lookup_insert_ne.
Qed.

(** Tasks keep the order of their creation. However the graph shuffles its nodes when
    some are removed, [all_in_creation_order] lists the tasks that are left as they came:
    those the graph was built with, in that order, without the removed ones. *)
Theorem creation_order_kept ops d :
  Ready' -> distinct_tasks -> Forall (fun t => t ∈ all d0) (flat_map op_tasks ops) -> run d0 ops = Some d ->
  all_in_creation_order d = List.filter (fun t => negb (bool_decide (task_key t ∈ d.(removed)))) (all d0).
Proof.
  intros HR Heq Hops Hrun. pose proof (ready_startable HR Heq) as Hst.
  destruct (run_good d0 Hst d0 ops (good_start d0 Hst) Hops) as (d' & Hrun' & Hc & _).
  assert (d' = d) as -> by congruence. unfold all_in_creation_order.
  rewrite (run_order ops d0 d Hrun), (ready_order _ _ _ _ _ _ _ HR).
  pose proof (core_NoDup d0 Hst d Hc) as Hn. pose proof (st_keys d0 Hst) as Hn0.
  assert (forall t : Task R, t ∈ all d0 -> fold_left (fun m t => <[task_key t := t]> m) (all d) (∅ : gmap TaskKey (Task R)) !! task_key t
    = if bool_decide (task_key t ∈ d.(removed)) then None else Some t) as Hm.
  { intros t Ht. rewrite present_map by done. rewrite lookup_empty. case_bool_decide as Hr.
    - destruct (List.find _ _) as [u|] eqn:Eu; [|done]. apply find_some in Eu as [Hu Ek]. apply bool_decide_eq_true in Ek.
      apply list_elem_of_In, (core_elem d0) in Hu as [_ Hu]; [|done]. congruence.
    - assert (t ∈ all d) as Hin by (by apply (core_elem d0)).
      destruct (List.find _ _) as [u|] eqn:Eu.
      + apply find_some in Eu as [Hu Ek]. apply bool_decide_eq_true in Ek. f_equal. apply list_elem_of_In in Hu.
        apply list_elem_of_lookup in Hu as [i Hi], Hin as [j Hj].
        assert (i = j) as ->; [|congruence]. apply (NoDup_lookup (node_keys d.(graph)) i j (task_key t) Hn).
        * rewrite node_keys_lookup. unfold all in Hi. by rewrite Hi; simpl; rewrite Ek.
        * rewrite node_keys_lookup. unfold all in Hj. by rewrite Hj.
      + pose proof (find_none _ _ Eu t (proj1 (list_elem_of_In _ _) Hin)) as Hf.
        cbv beta in Hf. by apply bool_decide_eq_false in Hf. }
  change (node_keys d0.(graph)) with (map task_key (all d0)).
  rewrite in_creation_order_spec; [|done|].
  - apply List.filter_ext_in. intros t Ht%list_elem_of_In. change (dg_nodes (graph d)) with (all d). rewrite Hm by done.
    destruct (bool_decide (task_key t ∈ removed d)); [by apply bool_decide_eq_false_2; intros []|by apply bool_decide_eq_true_2].
  - intros t Ht. change (dg_nodes (graph d)) with (all d). rewrite Hm by done. case_bool_decide; auto.
Qed.
End run.

(** ** A sample *)

Section sample.
Definition sample_task (name : str) (overlay : list EnvDirective) (phase : TaskRunPhase) : Task unit :=
  mkTask name name [] [] overlay phase false tt.

Definition app_task : Task unit := sample_task u!"a" [] Normal.
Definition clean_task : Task unit := sample_task u!"c" [] Post.

(** [app] has [clean] for cleanup. *)
Definition sample_resolve (a : Task unit) (_ : list (Task unit)) : unit + ResolvedTaskDependencies unit :=
  inr (if bool_decide (a.(name) = u!"a") then mkResolved [] [] [clean_task] else mkResolved [] [] []).
Definition sample_remote (t : Task unit) : bool := false.
Definition sample_fetch (t : Task unit) : unit + Task unit := inr t.
Definition sample_render (t : Task unit) : unit + unit := inr tt.
Definition sample_all (ts : list (Task unit)) : unit + list (Task unit) := inr ts.

Definition sample_new (tasks : list (Task unit)) : result (BuildError unit) (Deps unit (EdgeList (Task unit))) :=
  Deps_new sample_remote sample_fetch sample_render sample_all sample_resolve 20 tasks.

Definition sample_deps : Deps unit (EdgeList (Task unit)) :=
  mkDeps (mkEdgeList [app_task; clean_task] {[(1, 0)]}) ∅ ∅ ∅ ∅ ∅ ∅
    {[task_key clean_task := {[task_key app_task]}]} [task_key app_task; task_key clean_task] None.

Example sample_new_deps : sample_new [app_task] = Ok sample_deps.
Proof. vm_compute. reflexivity. Qed.

Definition sample_occ : gmap TaskKey (Task unit) :=
  <[task_key clean_task := clean_task]> {[task_key app_task := app_task]}.

Lemma sample_occ_cases k a : sample_occ !! k = Some a ->
  (k = task_key app_task /\ a = app_task) \/ (k = task_key clean_task /\ a = clean_task).
Proof.
  unfold sample_occ. rewrite lookup_insert_Some, lookup_singleton_Some. naive_solver.
Qed.

Lemma sample_needs k k' : ~ Needs sample_remote sample_fetch sample_resolve [app_task] sample_occ k k'.
Proof.
  intros (a & r & t & t' & [[-> ->]|[-> ->]]%sample_occ_cases & Hr & Ht & _); injection Hr as <-; by apply elem_of_nil in Ht.
Qed.

Lemma sample_posts k k' : Posts sample_remote sample_fetch sample_resolve [app_task] sample_occ k k' <->
  k = task_key clean_task /\ k' = task_key app_task.
Proof.
  split.
  - intros (a & r & t & t' & [[-> ->]|[-> ->]]%sample_occ_cases & Hr & Ht & Hf & <-); injection Hr as <-; [|by apply elem_of_nil in Ht].
    apply list_elem_of_singleton in Ht as ->. injection Hf as <-. done.
  - intros [-> ->]. exists app_task, (mkResolved [] [] [clean_task]), clean_task, clean_task.
    split_and!; [vm_compute; reflexivity|vm_compute; reflexivity|apply list_elem_of_here|reflexivity|reflexivity].
Qed.

Lemma sample_introduces k k' : rtc (Introduces sample_remote sample_fetch sample_resolve [app_task] sample_occ) k k' ->
  k = task_key app_task \/ k = task_key clean_task -> k' = task_key app_task \/ k' = task_key clean_task.
Proof.
  induction 1 as [|k k1 k2 Hstep _ IH]; [done|]. intros _. apply IH.
  destruct Hstep as [H%sample_needs|[-> _]%sample_posts]; [done|by right].
Qed.

Lemma sample_edge i j : edge sample_deps.(graph) i j <-> i = 1 /\ j = 0.
Proof.
  rewrite el_edge. change (el_edges sample_deps.(graph)) with ({[(1, 0)]} : gset (nat * nat)).
  rewrite elem_of_singleton. split; [by intros [[= -> ->] _]|]. intros [-> ->]. split; [done|]. unfold node_count. simpl. lia.
Qed.

Lemma sample_runs_after k k' : runs_after sample_deps.(graph) k k' <-> k = task_key clean_task /\ k' = task_key app_task.
Proof.
  unfold runs_after. split.
  - intros (i & j & [-> ->]%sample_edge & Hi & Hj).
    injection Hi as <-. injection Hj as <-. done.
  - intros [-> ->]. exists 1, 0. split; [by apply sample_edge|done].
Qed.

Lemma sample_ready : Ready sample_remote sample_fetch sample_resolve [app_task] [app_task] sample_occ sample_deps.
Proof.
  assert (forall k k', Barrier sample_remote sample_fetch sample_resolve [app_task] sample_occ k k' <->
    k = task_key clean_task /\ k' = task_key app_task) as Hb.
  { intros k k'. split; [|intros H; by apply barrier_post, sample_posts].
    intros [k1 p H%sample_posts|k1 k2 p _ H _ _]; [done|by apply sample_needs in H]. }
  constructor; [| |..|by split_and!].
  - split.
    + constructor.
      * apply NoDup_cons. split; [|apply NoDup_singleton]. intros H%list_elem_of_singleton. discriminate H.
      * intros [|[|i]] t; simpl; split; try done.
        -- intros [= <-]. split; [done|vm_compute; reflexivity].
        -- intros [Hk [[_ ->]|[_ ->]]%sample_occ_cases]; [done|discriminate Hk].
        -- intros [= <-]. split; [done|vm_compute; reflexivity].
        -- intros [Hk [[_ ->]|[_ ->]]%sample_occ_cases]; [discriminate Hk|done].
        -- by intros [H _].
      * intros k. change (node_keys sample_deps.(graph)) with [task_key app_task; task_key clean_task].
        rewrite elem_of_cons, list_elem_of_singleton. split.
        -- assert (Root sample_remote sample_fetch [app_task] (task_key app_task)) as Hroot.
           { exists app_task, app_task. split_and!; [apply list_elem_of_here|reflexivity|reflexivity]. }
           intros [->| ->]; exists (task_key app_task); (split; [done|]); [done|].
           apply rtc_once. right. by apply sample_posts.
        -- intros (root & (t & t' & ->%list_elem_of_singleton & [= <-] & <-) & Hr).
           apply (sample_introduces _ _ Hr). by left.
    + intros k k'. rewrite sample_runs_after, Hb. split; [by right; left|].
      intros [H%sample_needs|[H|(a & r & t & Ha & Hr & Ht & _)]]; [done|done|].
      apply sample_occ_cases in Ha as [[-> ->]|[-> ->]]; injection Hr as <-; by apply elem_of_nil in Ht.
  - apply no_cycles_acyclic.
    + apply NoDup_cons. split; [|apply NoDup_singleton]. intros H%list_elem_of_singleton. discriminate H.
    + intros c (s & mid & -> & _ & _ & Hl).
      destruct mid as [|z mid]; [destruct Hl as [[-> H]%sample_edge _]; done|]. destruct Hl as [[-> ->]%sample_edge Hl].
      destruct mid as [|z mid]; destruct Hl as [[H _]%sample_edge _]; done.
  - intros k k'. split; [by intros H%related_empty|by intros H%sample_needs].
  - intros k k'. rewrite Hb. unfold related. simpl. destruct (decide (k = task_key clean_task)) as [->|Hne].
    + rewrite lookup_singleton_eq. simpl. rewrite elem_of_singleton. naive_solver.
    + rewrite lookup_singleton_ne by done. simpl. split; [by intros ?%elem_of_empty|by intros [? _]].
  - reflexivity.
Qed.

Lemma sample_key_name (a b : Task unit) : task_key a = task_key b -> a.(name) = b.(name).
Proof. by intros [= ->]. Qed.

Lemma sample_closed : Closed sample_remote sample_fetch sample_resolve [app_task] {[task_key app_task; task_key clean_task]}.
Proof.
  intros a r k _ [= <-]. case_bool_decide as Hname; intros [(t & t' & Ht & _)|(t & t' & Ht & Hf & <-)];
    try by apply elem_of_nil in Ht.
  apply list_elem_of_singleton in Ht as ->. injection Hf as <-. apply elem_of_union_r. by apply elem_of_singleton.
Qed.

Lemma sample_root k : Root sample_remote sample_fetch [app_task] k -> k = task_key app_task.
Proof. by intros (t & t' & ->%list_elem_of_singleton & [= <-] & <-). Qed.

Lemma graph_built_witness :
  exists n res, (forall fuel, n <= fuel ->
      new_with_cycle_limit sample_remote sample_fetch sample_render sample_all sample_resolve fuel [app_task] (Some 1) = res)
    /\ match res with
       | Ok d => exists occ, Ready (G := EdgeList (Task unit)) sample_remote sample_fetch sample_resolve [app_task] [app_task] occ d
       | Err (Cycle paths keys) => exists occ (g : EdgeList (Task unit)),
           Built sample_remote sample_fetch sample_resolve [app_task] [app_task] occ g /\ Reports g (Some 1) paths keys
       | Err (Failed e) => Fault sample_fetch sample_render sample_all sample_resolve e
       | Err Panicked | OutOfFuel => False
       end.
Proof.
  apply (graph_built sample_remote sample_fetch sample_render sample_all sample_resolve [app_task] [app_task] (Some 1)
    {[task_key app_task; task_key clean_task]}).
  - discriminate.
  - reflexivity.
  - exact sample_closed.
  - intros k ->%sample_root. apply elem_of_union_l. by apply elem_of_singleton.
Defined.

Definition sample_ops : list (op unit) := [Subscribe; MarkExecuted app_task; Remove app_task].

Lemma sample_ops_ok : Forall (fun t => t ∈ all sample_deps) (flat_map op_tasks sample_ops).
Proof. repeat constructor. Qed.

Lemma sample_distinct : distinct_tasks sample_deps.
Proof.
  intros t t' Ht Ht'. change (all sample_deps) with [app_task; clean_task] in *.
  apply elem_of_cons in Ht as [->|Ht%list_elem_of_singleton]; [|subst t];
    (apply elem_of_cons in Ht' as [->|Ht'%list_elem_of_singleton]; [|subst t']); intros E; try reflexivity; vm_compute in E; discriminate E.
Qed.

Lemma run_in_order_witness :
  exists d, run sample_deps sample_ops = Some d
    /\ (task_key clean_task ∈ d.(sent) -> task_key app_task ∈ d.(removed)).
Proof.
  destruct (run_in_order sample_remote sample_fetch sample_resolve [app_task] [app_task] sample_occ sample_deps sample_ops
    sample_ready sample_distinct sample_ops_ok) as (d & Hrun & Hsent & _).
  exists d. split; [exact Hrun|]. intros Hs. apply (Hsent _ _ Hs). right; left. apply barrier_post. by apply sample_posts.
Defined.

Definition sample_end : Deps unit (EdgeList (Task unit)) := default sample_deps (run sample_deps sample_ops).

Lemma run_never_stalls_witness :
  exists t, t ∈ all sample_deps /\ (task_key t ∉ sample_end.(removed)) /\ task_key t ∈ sample_end.(sent).
Proof.
  assert (exists ms, sample_end.(tx) = Some ms) as [ms Hms] by (vm_compute; eexists; reflexivity).
  apply (run_never_stalls sample_remote sample_fetch sample_resolve [app_task] [app_task] sample_occ sample_deps sample_ops sample_end ms
    sample_ready sample_distinct sample_ops_ok); [vm_compute; reflexivity|exact Hms|].
  exists clean_task. split; [apply list_elem_of_further, list_elem_of_here|].
  apply (bool_decide_eq_false_1 _). vm_compute. reflexivity.
Defined.

Lemma creation_order_kept_example : all_in_creation_order sample_end = [clean_task].
Proof.
  rewrite (creation_order_kept sample_remote sample_fetch sample_resolve [app_task] [app_task] sample_occ sample_deps sample_ops sample_end
    sample_ready sample_distinct sample_ops_ok); vm_compute; reflexivity.
Defined.

(** ** Tasks that compare as equal *)

(** Two occurrences of a fetched remote task differ in the overlay they were fetched with, which
    [task_key] counts and [==] leaves out. *)
Definition remote1 : Task unit := sample_task u!"r" [Val u!"F" u!"1"] Normal.
Definition remote2 : Task unit := sample_task u!"r" [Val u!"F" u!"2"] Normal.
Definition user_task : Task unit := sample_task u!"u" [] Normal.
Definition confused_deps : Deps unit (EdgeList (Task unit)) :=
  mkDeps (mkEdgeList [remote1; remote2; user_task] {[(2, 0)]}) ∅ ∅ ∅ ∅ ∅ ∅ ∅
    [task_key remote1; task_key remote2; task_key user_task] None.

(** When the second one is done, [remove] takes the node of the first out of the graph, and the
    task that depends on the first is sent while that is still running. *)
Lemma equal_tasks_confused :
  match run confused_deps [Subscribe; Remove remote2] with
  | Some d => bool_decide (task_key user_task ∈ d.(sent)) = true /\ bool_decide (task_key remote1 ∈ d.(removed)) = false
  | None => False
  end.
Proof. vm_compute. split; reflexivity. Qed.
End sample.
