(* ===== verification/Toml.v ===== *)
(** * Values of TOML documents, as the [toml] crate hands them to mise

    A table is the list of its entries. What the crate prints of a number with a fraction or of a date is
    the text that the value carries. *)

From S2P Require Import Prelude.

Inductive Value : Type :=
| VString (text : str)
| VInteger (n : Z)
| VFloat (text : str)
| VBoolean (b : bool)
| VDatetime (text : str)
| VArray (items : list Value)
| VTable (table : list (str * Value)).

(** A [toml::Table]: its entries in the order they are walked in. *)
Abbreviation Table := (list (str * Value)) (only parsing).

Definition table_get (key : str) (table : Table) : option Value :=
  snd <$> List.find (fun kv => bool_decide (fst kv = key)) table.

Definition as_integer (v : Value) : option Z := match v with VInteger n => Some n | _ => None end.
Definition as_bool (v : Value) : option bool := match v with VBoolean b => Some b | _ => None end.
Definition as_str (v : Value) : option str := match v with VString s => Some s | _ => None end.
Definition as_table (v : Value) : option Table := match v with VTable t => Some t | _ => None end.

(** [Option::ok_or] *)
Definition ok_or {E A} (o : option A) (e : E) : result E A :=
  match o with Some a => Ok a | None => Err e end.
