(* ===== verification/Ports.v ===== *)
(** * Ports of project daemons ([crates/mise-daemons/src/ports.rs]; the claims of [runtime.rs]; the
    ports a preset ([presets.rs]) and a container ([container.rs]) bind)

    Every checkout of a project gets ports of its own: a base port, moved by the slot of the
    checkout times a stride. A [u16] is a number below 65536 here, every sum and product is
    checked as the code checks it. TOML values are those of [Toml]. *)

From S2P Require Import Prelude RustStr Toml.

#[local] Open Scope N_scope.

(** ** Machine integers *)

Definition U16_MAX : N := 65535.

(** [u16::try_from] of an [i64]. *)
Definition u16_try_from (n : Z) : option N :=
  if (0 <=? n)%Z && (n <=? 65535)%Z then Some (Z.to_N n) else None.

Definition checked_mul (a b : N) : option N := if a * b <=? U16_MAX then Some (a * b) else None.
Definition checked_add (a b : N) : option N := if a + b <=? U16_MAX then Some (a + b) else None.

(** Subtraction of [u16] by the operator: it panics, or wraps in a build without overflow checks. *)
Definition checked_sub (a b : N) : option N := if b <=? a then Some (a - b) else None.

Definition filter_opt {A} (f : A -> bool) (o : option A) : option A :=
  match o with Some a => if f a then Some a else None | None => None end.

Definition DEFAULT_STRIDE : N := 1.
Definition SLOTS : N := 512.

(** ** Requests and claims *)

Inductive PortRequest : Type :=
| Fixed (port : N)
| Auto (base : option N) (stride : N)
| Passthrough (v : Value).

Record PortClaim := mkPortClaim { claim_port : N; claim_base : N; claim_stride : N }.

#[export] Instance PortClaim_eq_dec : EqDecision PortClaim.
Proof. solve_decision. Defined.

Definition PortClaim_fixed (port : N) : PortClaim := mkPortClaim port port 0.
Definition is_auto (c : PortClaim) : bool := 0 <? c.(claim_stride).

(** The setting an error names: [port], [ports.key], [container_port]. *)
Inductive Setting : Type :=
| port_of (name : str)
| ports_of (name key : str)
| container_port_of (name : str).

Inductive PortError : Type :=
| NotAPort (at_ : Setting)
| NotAuto (name text : str)
| AutoNotTrue (at_ : Setting)
| UnknownPortKey (at_ : Setting) (key : str)
| FieldNotAPort (at_ : Setting) (field : str)
| NeedsBase (name : str)
| StrideOverflows (at_ : Setting) (stride : N)
| ExceedsRange (at_ : Setting) (base stride : N)
| UnknownPresetPort (key : str)
| BaseBelow (name : str)
| NeedsContainer (at_ : Setting)
| HostAndAuto (at_ : Setting)
| BaseNeedsAuto (at_ : Setting)
| PublishedTwice (name : str) (port : N)
| ContainerPortNeedsPort (name : str).

(** An integer from 1 to 65535. *)
Definition port_value (v : Value) : option N :=
  filter_opt (fun p => 0 <? p) (match as_integer v with Some n => u16_try_from n | None => None end).

Definition transpose {E A} (o : option (result E A)) : result E (option A) :=
  match o with
  | Some (Ok a) => Ok (Some a)
  | Some (Err e) => Err e
  | Some OutOfFuel => OutOfFuel
  | None => Ok None
  end.

Definition port_field (at_ : Setting) (table : Table) (key : str) : result PortError (option N) :=
  transpose ((fun v => ok_or (port_value v) (FieldNotAPort at_ key)) <$> table_get key table).

Definition unwrap_or {A} (o : option A) (d : A) : A := match o with Some a => a | None => d end.

(** The first key of the table that is none of the known ones. *)
Definition unknown_key (known : list str) (table : Table) : option str :=
  fst <$> List.find (fun kv => negb (bool_decide (fst kv ∈ known))) table.

Definition known_port_keys : list str := [u!"auto"; u!"base"; u!"stride"].

(** [auto] is the boolean [true]. *)
Definition auto_is_true (table : Table) : bool :=
  match table_get u!"auto" table with Some v => bool_decide (as_bool v = Some true) | None => false end.

Definition parse (name : str) (v : Value) : result PortError PortRequest :=
  match v with
  | VInteger _ => rmap Fixed (ok_or (port_value v) (NotAPort (port_of name)))
  | VString text =>
      if bool_decide (text = u!"auto") then Ok (Auto None DEFAULT_STRIDE) else Err (NotAuto name text)
  | VTable table =>
      match table_get u!"auto" table with
      | None => Ok (Passthrough v)
      | Some _ =>
          if negb (auto_is_true table) then Err (AutoNotTrue (port_of name)) else
          let? base := port_field (port_of name) table u!"base" in
          let? stride := port_field (port_of name) table u!"stride" in
          match unknown_key known_port_keys table with
          | Some key => Err (UnknownPortKey (port_of name) key)
          | None => Ok (Auto base (unwrap_or stride DEFAULT_STRIDE))
          end
      end
  | other => Ok (Passthrough other)
  end.

Inductive NamedPortRequest : Type :=
| NamedFixed (port : N)
| NamedAuto (base : option N) (stride : N).

Definition parse_named (name key : str) (v : Value) : result PortError NamedPortRequest :=
  match v with
  | VInteger _ => rmap NamedFixed (ok_or (port_value v) (NotAPort (ports_of name key)))
  | VTable table =>
      if negb (auto_is_true table) then Err (AutoNotTrue (ports_of name key)) else
      match unknown_key known_port_keys table with
      | Some field => Err (UnknownPortKey (ports_of name key) field)
      | None =>
          let? base := port_field (ports_of name key) table u!"base" in
          let? stride := port_field (ports_of name key) table u!"stride" in
          Ok (NamedAuto base (unwrap_or stride DEFAULT_STRIDE))
      end
  | _ => Err (NotAPort (ports_of name key))
  end.

(** What [resolve_slot] and [resolve_named] end with: the base moved by the slot times the stride. *)
Definition moved (at_ : Setting) (slot base stride : N) : result PortError PortClaim :=
  let? offset := ok_or (checked_mul slot stride) (StrideOverflows at_ stride) in
  let? port := ok_or (filter_opt (fun p => 0 <? p) (checked_add base offset)) (ExceedsRange at_ base stride) in
  Ok (mkPortClaim port base stride).

Definition resolve_named (name key : str) (slot : N) (base : option N) (stride preset_default : N)
    : result PortError PortClaim :=
  moved (ports_of name key) slot (unwrap_or base preset_default) stride.

Definition resolve_slot (name : str) (slot : N) (base : option N) (stride : N) (preset_default : option N)
    (persisted : option PortClaim) : result PortError PortClaim :=
  let? base := ok_or (match base with Some b => Some b | None => preset_default end) (NeedsBase name) in
  match persisted with
  | Some claim =>
      if (claim.(claim_base) =? base) && (claim.(claim_stride) =? stride) then Ok claim
      else moved (port_of name) slot base stride
  | None => moved (port_of name) slot base stride
  end.

(** ** Slots *)

Definition hex_digit (c : char) : option N :=
  if is_ascii_digit c then Some (c - c!"0")
  else if in_range c!"a" c!"f" c then Some (c - c!"a" + 10)
  else if in_range c!"A" c!"F" c then Some (c - c!"A" + 10)
  else None.

Definition U64_MAX : N := 18446744073709551615.

Fixpoint hex_digits (acc : N) (s : str) : option N :=
  match s with
  | [] => Some acc
  | c :: s' =>
      match hex_digit c with
      | Some d => if acc * 16 + d <=? U64_MAX then hex_digits (acc * 16 + d) s' else None
      | None => None
      end
  end.

(** [u64::from_str_radix] in base 16. *)
Definition from_str_radix_16 (s : str) : option N :=
  match s with
  | [] => None
  | c :: s' => if c =? c!"+" then match s' with [] => None | _ => hex_digits 0 s' end else hex_digits 0 s
  end.

Section Slots.

(** The file system: the canonical form of a path and whether it lies in a linked worktree; the
    hash of a path ([SipHasher]) in base 16. *)
Context (canonicalize : str -> option str) (in_linked_worktree : str -> bool) (hash_to_str : str -> str).

Definition is_primary (root : str) : bool := negb (in_linked_worktree root).

Definition hashed_slot (root : str) : N :=
  let hash := unwrap_or (from_str_radix_16 (hash_to_str root)) 0 in
  1 + unwrap_or (u16_try_from (Z.of_N (hash mod (SLOTS - 1)))) 0.

Definition slot (root : str) : N :=
  let root := unwrap_or (canonicalize root) root in
  if is_primary root then 0 else hashed_slot root.

Definition resolve (name root : str) (base : option N) (stride : N) (preset_default : option N)
    (persisted : option PortClaim) : result PortError PortClaim :=
  resolve_slot name (slot root) base stride preset_default persisted.

(** ** All ports of a daemon *)

(** The slot that an automatic claim was moved by. *)
Definition slot_of_claim (name : str) (claim : PortClaim) : result PortError N :=
  let? d := ok_or (checked_sub claim.(claim_port) claim.(claim_base)) (BaseBelow name) in
  Ok (d / claim.(claim_stride)).

Fixpoint collect {E A B} (f : A -> result E B) (l : list A) : result E (list B) :=
  match l with
  | [] => Ok []
  | a :: l' => let? b := f a in let? bs := collect f l' in Ok (b :: bs)
  end.

(** One named port of a preset, in [expand]. *)
Definition preset_port (name root : str) (claim : PortClaim) (slot_ : N) (overrides : Table) (key : str) (default : N)
    : result PortError PortClaim :=
  match table_get key overrides with
  | Some v =>
      let? request := parse_named name key v in
      match request with
      | NamedFixed port => Ok (PortClaim_fixed port)
      | NamedAuto base stride =>
          resolve_named name key (if is_auto claim then slot_ else slot root) base stride default
      end
  | None =>
      let? port := ok_or (filter_opt (fun p => 0 <? p)
        (match checked_mul slot_ claim.(claim_stride) with Some offset => checked_add default offset | None => None end))
        (ExceedsRange (ports_of name key) default claim.(claim_stride)) in
      Ok (PortClaim_fixed port)
  end.

(** The primary claim and the named ports of a preset daemon, in the order of the preset. *)
Definition preset_ports (name root : str) (preset_port_ : N) (declared : list (str * N)) (extras_port : option PortClaim)
    (overrides : Table) : result PortError (PortClaim * list (str * PortClaim)) :=
  let claim := unwrap_or extras_port (PortClaim_fixed preset_port_) in
  let? slot_ := if is_auto claim then slot_of_claim name claim else Ok 0 in
  match List.find (fun kv => negb (bool_decide (fst kv ∈ declared.*1))) overrides with
  | Some (key, _) => Err (UnknownPresetPort key)
  | None =>
      let? named := collect (fun kd => let? c := preset_port name root claim slot_ overrides (fst kd) (snd kd) in
                                       Ok (fst kd, c)) declared in
      Ok (claim, named)
  end.

Inductive PortDecl : Type :=
| DeclFixed (host container : N)
| DeclAuto (container : N) (base : option N) (stride : N).

Definition port_number (at_ : Setting) (v : Value) : result PortError N := ok_or (port_value v) (NotAPort at_).

(** A field of a container's port, an integer from 1 to 65535. *)
Definition decl_field (at_ : Setting) (table : Table) (key : str) : result PortError (option N) :=
  transpose ((fun v => ok_or (port_value v) (FieldNotAPort at_ key)) <$> table_get key table).

Definition has_key (key : str) (table : Table) : bool :=
  match table_get key table with Some _ => true | None => false end.

Definition parse_port (name key : str) (v : Value) : result PortError PortDecl :=
  let at_ := ports_of name key in
  match v with
  | VInteger _ => let? port := port_number at_ v in Ok (DeclFixed port port)
  | VTable table =>
      match unknown_key [u!"container"; u!"host"; u!"auto"; u!"base"; u!"stride"] table with
      | Some field => Err (UnknownPortKey at_ field)
      | None =>
          let? container := decl_field at_ table u!"container" in
          let? container := ok_or container (NeedsContainer at_) in
          if has_key u!"auto" table then
            if negb (auto_is_true table) then Err (AutoNotTrue at_)
            else if has_key u!"host" table then Err (HostAndAuto at_)
            else
              let? base := decl_field at_ table u!"base" in
              let? stride := decl_field at_ table u!"stride" in
              Ok (DeclAuto container base (unwrap_or stride DEFAULT_STRIDE))
          else if has_key u!"base" table || has_key u!"stride" table then Err (BaseNeedsAuto at_)
          else let? host := decl_field at_ table u!"host" in Ok (DeclFixed (unwrap_or host container) container)
      end
  | _ => Err (NotAPort at_)
  end.

(** One named port of a container: the claim and the port inside the container. *)
Definition decl_claim (name key : str) (slot_ : N) (port : PortDecl) : result PortError (PortClaim * N) :=
  match port with
  | DeclFixed host container => Ok (PortClaim_fixed host, container)
  | DeclAuto container base stride =>
      let base := unwrap_or base container in
      let? host := ok_or (match checked_mul slot_ stride with Some offset => checked_add base offset | None => None end)
        (ExceedsRange (ports_of name key) base stride) in
      Ok (mkPortClaim host base stride, container)
  end.

(** [claim_host] *)
Definition claim_host (name : str) (taken : list N) (port : N) : result PortError (list N) :=
  if bool_decide (port ∈ taken) then Err (PublishedTwice name port) else Ok (taken ++ [port]).

Fixpoint build_named (name : str) (slot_ : N) (taken : list N) (ports : list (str * PortDecl))
    : result PortError (list (N * N) * list (str * PortClaim)) :=
  match ports with
  | [] => Ok ([], [])
  | (key, port) :: ports' =>
      let? (resolved, container_port) := decl_claim name key slot_ port in
      let? taken := claim_host name taken resolved.(claim_port) in
      let? (publish, named) := build_named name slot_ taken ports' in
      Ok ((resolved.(claim_port), container_port) :: publish, (key, resolved) :: named)
  end.

(** What [Decl::build] publishes: pairs of host port and container port, and the named claims. *)
Definition build_ports (name root : str) (claim : option PortClaim) (container_port : option N)
    (ports : list (str * PortDecl)) : result PortError (list (N * N) * list (str * PortClaim)) :=
  let? first := match claim with
    | Some claim => Ok [(claim.(claim_port), unwrap_or container_port claim.(claim_base))]
    | None => match container_port with Some _ => Err (ContainerPortNeedsPort name) | None => Ok [] end
    end in
  let? slot_ := match claim with
    | Some claim => if is_auto claim then slot_of_claim name claim else Ok (slot root)
    | None => Ok (slot root)
    end in
  let? (publish, named) := build_named name slot_ first.*1 ports in
  Ok (first ++ publish, named).

End Slots.

(** ** Recorded claims ([runtime.rs]) *)

(** A declared daemon, as far as its port is concerned. *)
Record Daemon := mkDaemon { daemon_name : str; daemon_port : option PortClaim }.

(** [carry_port_claims], of the recorded claims and the daemons of the set by their keys. *)
Definition carry_port_claims (previous : gmap str PortClaim) (daemons : list (str * Daemon)) : gmap str PortClaim :=
  foldl (fun ports d => match d.(daemon_port) with Some c => <[d.(daemon_name) := c]> ports | None => ports end)
    (filter (fun kv => kv.1 ∉ daemons.*1) previous) daemons.*2.

Definition ports_being_started (ports : gmap str PortClaim) (starting : list str) : gmap str PortClaim :=
  filter (fun kv => kv.1 ∈ starting) ports.

(** The part of an identifier after its last slash. *)
Definition local_name (id : str) : str :=
  match rfind (N.eqb c!"/") id with Some p => str_from id (p + 1) | None => id end.

Section Taken.

(** Whether a loopback port is bound, and the status pitchfork gives of a daemon. *)
Context (port_is_taken : N -> bool) (status : str -> option (option str)).

Definition is_running (id : str) : bool :=
  match status id with
  | Some (Some s) => bool_decide (s ∈ [u!"running"; u!"waiting"; u!"stopping"])
  | _ => false
  end.

Definition taken_auto_ports (ids : list str) (ports : gmap str PortClaim) : list (str * PortClaim) :=
  omap (fun id =>
    match filter_opt is_auto (ports !! local_name id) with
    | Some claim => if port_is_taken claim.(claim_port) && negb (is_running id) then Some (local_name id, claim) else None
    | None => None
    end) ids.

End Taken.

(** [port_origin] *)
Definition at_configured_base (claim : PortClaim) : bool := claim.(claim_port) =? claim.(claim_base).
