(* ===== verification/PortsSpec.v ===== *)
(** * What port assignment promises

    A port that mise assigns is the base plus the slot times the stride, exactly, or an error:
    nothing wraps and nothing is clamped, so two checkouts in different slots never share a port.
    The ports a container publishes are distinct, and recorded claims survive while a daemon may
    still run. *)

From S2P Require Import Prelude RustStr Toml Ports.

#[local] Open Scope N_scope.

(** ** Integers *)

Lemma port_value_range v p : port_value v = Some p -> 1 <= p <= 65535.
Proof.
  unfold port_value, filter_opt, u16_try_from. destruct (as_integer v) as [n|]; [|done].
  destruct ((0 <=? n)%Z && (n <=? 65535)%Z) eqn:E; [|done].
  destruct (0 <? Z.to_N n) eqn:Ep; [|done]. intros [= <-].
  apply andb_true_iff in E as [?%Z.leb_le ?%Z.leb_le]. apply N.ltb_lt in Ep. lia.
Qed.

Lemma transpose_ok {E A} (o : option (result E A)) a :
  transpose o = Ok a -> (o = None /\ a = None) \/ exists x, o = Some (Ok x) /\ a = Some x.
Proof. destruct o as [[x|e|]|]; simpl; intros [= <-]; eauto. Qed.

Lemma port_field_range at_ table key p :
  port_field at_ table key = Ok (Some p) -> 1 <= p <= 65535.
Proof.
  unfold port_field. intros H%transpose_ok. destruct H as [[_ ?]|(x & Hx & [= ->])]; [done|].
  destruct (table_get key table) as [v|]; simpl in Hx; [|done].
  unfold ok_or in Hx. destruct (port_value v) eqn:Ev; simplify_eq. by eapply port_value_range.
Qed.

(** A request with its numbers in range: what [parse] gives. *)
Definition request_ok (base : option N) (stride : N) : Prop :=
  (forall b, base = Some b -> 1 <= b <= 65535) /\ 1 <= stride <= 65535.

Lemma stride_range at_ table o :
  port_field at_ table u!"stride" = Ok o -> 1 <= unwrap_or o DEFAULT_STRIDE <= 65535.
Proof.
  intros H. destruct o as [s|]; simpl; [by eapply port_field_range|unfold DEFAULT_STRIDE; lia].
Qed.

Lemma parse_auto_ok name v base stride : parse name v = Ok (Auto base stride) -> request_ok base stride.
Proof.
  destruct v as [text|n|f|b|d|items|table]; simpl; try done.
  - destruct (bool_decide _); [|done]. intros [= <- <-]. split; [done|unfold DEFAULT_STRIDE; lia].
  - unfold rmap, ok_or. destruct (port_value _); done.
  - destruct (table_get _ table); [|done]. destruct (negb _); [done|].
    destruct (port_field _ table u!"base") as [ob| |] eqn:Eb; simpl; [|done..].
    destruct (port_field _ table u!"stride") as [os| |] eqn:Es; simpl; [|done..].
    destruct (unknown_key _ _); [done|]. intros [= <- <-]. split.
    + intros b ->. by eapply port_field_range.
    + by eapply stride_range.
Qed.

Lemma parse_named_auto_ok name key v base stride :
  parse_named name key v = Ok (NamedAuto base stride) -> request_ok base stride.
Proof.
  destruct v as [text|n|f|b|d|items|table]; simpl; try done.
  - unfold rmap, ok_or. destruct (port_value _); done.
  - destruct (negb _); [done|]. destruct (unknown_key _ _); [done|].
    destruct (port_field _ table u!"base") as [ob| |] eqn:Eb; simpl; [|done..].
    destruct (port_field _ table u!"stride") as [os| |] eqn:Es; simpl; [|done..].
    intros [= <- <-]. split.
    + intros b ->. by eapply port_field_range.
    + by eapply stride_range.
Qed.

(** [moved] is exact: the sum of integers when it is a port, an error otherwise. *)
Lemma moved_exact at_ slot_ base stride :
  1 <= base ->
  (base + slot_ * stride <= 65535 -> moved at_ slot_ base stride = Ok (mkPortClaim (base + slot_ * stride) base stride)) /\
  (65535 < base + slot_ * stride ->
     moved at_ slot_ base stride = Err (StrideOverflows at_ stride) \/
     moved at_ slot_ base stride = Err (ExceedsRange at_ base stride)).
Proof.
  intros Hb. unfold moved, checked_mul, checked_add, U16_MAX. split; intros H.
  - destruct (N.leb_spec (slot_ * stride) 65535); [|lia]. simpl.
    destruct (N.leb_spec (base + slot_ * stride) 65535); [|lia]. simpl.
    destruct (N.ltb_spec 0 (base + slot_ * stride)); [done|lia].
  - destruct (N.leb_spec (slot_ * stride) 65535); simpl; [|by left].
    destruct (N.leb_spec (base + slot_ * stride) 65535); [lia|]. by right.
Qed.

Lemma moved_ok at_ slot_ base stride c :
  1 <= base -> moved at_ slot_ base stride = Ok c ->
  c = mkPortClaim (base + slot_ * stride) base stride /\ base + slot_ * stride <= 65535.
Proof.
  intros Hb H. destruct (moved_exact at_ slot_ base stride Hb) as [H1 H2].
  destruct (N.le_gt_cases (base + slot_ * stride) 65535) as [Hle|Hgt].
  - specialize (H1 Hle). split; congruence.
  - destruct (H2 Hgt); congruence.
Qed.

(** Where an automatic claim is [base + slot * stride], its slot can be read off it. *)
Lemma slot_of_moved name base slot_ stride :
  1 <= stride -> slot_of_claim name (mkPortClaim (base + slot_ * stride) base stride) = Ok slot_.
Proof.
  intros Hs. unfold slot_of_claim, checked_sub. simpl.
  destruct (N.leb_spec base (base + slot_ * stride)); [|lia]. simpl. f_equal.
  replace (base + slot_ * stride - base) with (slot_ * stride) by lia. apply N.div_mul. lia.
Qed.

(** ** Slots *)

Section Slots.

Context (canonicalize : str -> option str) (in_linked_worktree : str -> bool) (hash_to_str : str -> str).

Lemma hashed_slot_range root : 1 <= hashed_slot hash_to_str root < SLOTS.
Proof.
  unfold hashed_slot, SLOTS. set (h := unwrap_or (from_str_radix_16 _) 0).
  pose proof (N.mod_lt h 511 ltac:(lia)). change (512 - 1) with 511. unfold u16_try_from.
  destruct (_ && _); simpl; lia.
Qed.

(** Slot 0 is that of the primary checkout, and of no linked worktree. *)
Lemma slot_range root :
  slot canonicalize in_linked_worktree hash_to_str root < SLOTS /\
  (slot canonicalize in_linked_worktree hash_to_str root = 0 <->
   is_primary in_linked_worktree (unwrap_or (canonicalize root) root) = true).
Proof.
  unfold slot. set (r := unwrap_or _ root).
  pose proof (hashed_slot_range r). destruct (is_primary _ r); split; try split; try (unfold SLOTS in *; lia); done.
Qed.

#[local] Abbreviation resolve := (resolve canonicalize in_linked_worktree hash_to_str).
#[local] Abbreviation slot := (slot canonicalize in_linked_worktree hash_to_str).

(** Ports are exact: for every declaration that [parse] accepts as automatic and every project
    root, the assigned port is the base plus the slot times the stride as integers, from 1 to 65535,
    where that is a port, and an error where it is not or where there is no base: nothing wraps and
    nothing is clamped. The slot is below 512, and 0 exactly for a primary checkout, which keeps its
    base. A claim recorded for the same base and stride is kept whatever the slot is now. *)
Theorem ports_exact name root v base stride preset_default persisted :
  parse name v = Ok (Auto base stride) ->
  (forall d, preset_default = Some d -> 1 <= d <= 65535) ->
  slot root < SLOTS /\
  (slot root = 0 <-> in_linked_worktree (unwrap_or (canonicalize root) root) = false) /\
  match match base with Some b => Some b | None => preset_default end with
  | None => resolve name root base stride preset_default persisted = Err (NeedsBase name)
  | Some b =>
      1 <= b <= 65535 /\
      match persisted with
      | Some c => c.(claim_base) = b -> c.(claim_stride) = stride ->
                  resolve name root base stride preset_default persisted = Ok c
      | None => True
      end /\
      ((forall c, persisted = Some c -> ~ (c.(claim_base) = b /\ c.(claim_stride) = stride)) ->
       (b + slot root * stride <= 65535 ->
        resolve name root base stride preset_default persisted = Ok (mkPortClaim (b + slot root * stride) b stride)) /\
       (65535 < b + slot root * stride ->
        exists e, resolve name root base stride preset_default persisted = Err e))
  end.
Proof.
  intros Hp Hd. destruct (parse_auto_ok _ _ _ _ Hp) as [Hb Hs]. destruct (slot_range root) as [Hslot H0].
  split; [done|]. split.
  { rewrite H0. unfold is_primary. destruct (in_linked_worktree _); done. }
  unfold Ports.resolve, resolve_slot.
  destruct (match base with Some b => Some b | None => preset_default end) as [b|] eqn:Eb; [|done].
  assert (1 <= b <= 65535) as Hbr by (destruct base; simplify_eq; auto).
  split; [done|]. simpl. destruct (moved_exact (port_of name) (slot root) b stride ltac:(lia)) as [H1 H2].
  assert ((b + slot root * stride <= 65535 -> moved (port_of name) (slot root) b stride = Ok (mkPortClaim (b + slot root * stride) b stride)) /\
          (65535 < b + slot root * stride -> exists e, moved (port_of name) (slot root) b stride = Err e)) as HM.
  { split; [done|]. intros Hgt. destruct (H2 Hgt) as [-> | ->]; eauto. }
  destruct persisted as [c|]; [|done].
  destruct (N.eqb_spec (claim_base c) b) as [E1|E1], (N.eqb_spec (claim_stride c) stride) as [E2|E2]; simpl;
    (split; [done|]); intros Hno; try done.
  exfalso. by apply (Hno c).
Qed.

End Slots.

Lemma ports_exact_example :
  exists v, parse u!"api" v = Ok (Auto (Some 3000) 4) /\
    Ports.resolve Some (fun _ => true) (fun _ => u!"2a") u!"api" u!"/repo" (Some 3000) 4 None None
      = Ok (mkPortClaim (3000 + slot Some (fun _ => true) (fun _ => u!"2a") u!"/repo" * 4) 3000 4).
Proof.
  exists (VTable [(u!"auto", VBoolean true); (u!"base", VInteger 3000); (u!"stride", VInteger 4)]).
  split; [reflexivity|].
  destruct (ports_exact Some (fun _ => true) (fun _ => u!"2a") u!"api" u!"/repo"
    (VTable [(u!"auto", VBoolean true); (u!"base", VInteger 3000); (u!"stride", VInteger 4)])
    (Some 3000) 4 None None eq_refl ltac:(done)) as (Hs & _ & _ & _ & H).
  apply H; [done|]. unfold SLOTS in Hs. lia.
Defined.


(** ** All ports of a checkout *)

Lemma collect_ok {E A B} (f : A -> result E B) l r :
  collect f l = Ok r -> Forall2 (fun a b => f a = Ok b) l r.
Proof.
  revert r. induction l as [|a l IH]; intros r; simpl; [intros [= <-]; constructor|].
  destruct (f a) as [b| |] eqn:Ef; simpl; [|done..].
  destruct (collect f l) as [bs| |] eqn:Ec; simpl; [|done..]. intros [= <-]. constructor; [done|by apply IH].
Qed.

(** What a named port of a preset is asked for: a fixed number, or a base and a stride that the slot
    moves; the stride is the daemon's own where nothing is declared. *)
Inductive named_rule (name : str) (stride : N) (overrides : Table) (key : str) (default : N) : option (N * N) -> Prop :=
| rule_default : table_get key overrides = None -> named_rule name stride overrides key default (Some (default, stride))
| rule_auto v base own :
    table_get key overrides = Some v -> parse_named name key v = Ok (NamedAuto base own) ->
    named_rule name stride overrides key default (Some (unwrap_or base default, own))
| rule_fixed v port :
    table_get key overrides = Some v -> parse_named name key v = Ok (NamedFixed port) ->
    named_rule name stride overrides key default None.

Section PresetPorts.

Context (canonicalize : str -> option str) (in_linked_worktree : str -> bool) (hash_to_str : str -> str).

#[local] Abbreviation resolve := (resolve canonicalize in_linked_worktree hash_to_str).
#[local] Abbreviation slot := (slot canonicalize in_linked_worktree hash_to_str).
#[local] Abbreviation preset_ports := (preset_ports canonicalize in_linked_worktree hash_to_str).
#[local] Abbreviation preset_port := (preset_port canonicalize in_linked_worktree hash_to_str).

Lemma resolve_fresh name root base stride default c :
  request_ok base stride -> (forall d, default = Some d -> 1 <= d <= 65535) ->
  resolve name root base stride default None = Ok c ->
  exists b, 1 <= b /\ c = mkPortClaim (b + slot root * stride) b stride /\ b + slot root * stride <= 65535 /\
    match base with Some b' => Some b' | None => default end = Some b.
Proof.
  intros [Hb Hs] Hd. unfold Ports.resolve, resolve_slot.
  destruct (match base with Some b => Some b | None => default end) as [b|] eqn:Eb; [|done]. simpl.
  assert (1 <= b <= 65535) by (destruct base; simplify_eq; auto).
  intros [-> Hle]%moved_ok; [|lia]. exists b. split_and!; [lia|done..].
Qed.

Lemma is_auto_stride p b stride : 1 <= stride -> is_auto (mkPortClaim p b stride) = true.
Proof. intros. unfold is_auto. simpl. destruct (N.ltb_spec 0 stride); [done|lia]. Qed.

(** A named port of a daemon with an automatic primary port moves with the daemon's slot. *)
Lemma preset_port_moves name root b stride s overrides key default k :
  1 <= stride -> 1 <= default ->
  preset_port name root (mkPortClaim (b + s * stride) b stride) s overrides key default = Ok k ->
  (named_rule name stride overrides key default None) \/
  exists b' w, named_rule name stride overrides key default (Some (b', w)) /\ 1 <= w /\ k.(claim_port) = b' + s * w.
Proof.
  intros Hs Hd. unfold Ports.preset_port. destruct (table_get key overrides) as [v|] eqn:Eo.
  - destruct (parse_named name key v) as [[p|base own]| |] eqn:Ep; simpl; [|idtac|done..].
    + intros _. left. by econstructor.
    + destruct (parse_named_auto_ok _ _ _ _ _ Ep) as [Hb Hw]. rewrite is_auto_stride by done.
      intros [-> _]%moved_ok.
      * right. exists (unwrap_or base default), own. split_and!; [by econstructor|lia|done].
      * destruct base as [b'|]; simpl; [by apply Hb|done].
  - unfold checked_mul, checked_add. simpl.
    destruct (s * stride <=? U16_MAX); simpl; [|done]. destruct (default + s * stride <=? U16_MAX); simpl; [|done].
    destruct (0 <? default + s * stride); simpl; [|done]. intros [= <-]. right. exists default, stride.
    split_and!; [by constructor|done|done].
Qed.

Lemma preset_ports_moves name root preset_port_ declared b stride s overrides c named :
  1 <= stride -> Forall (fun kd => 1 <= kd.2) declared ->
  preset_ports name root preset_port_ declared (Some (mkPortClaim (b + s * stride) b stride)) overrides = Ok (c, named) ->
  Forall2 (fun kd kc => kc.1 = kd.1 /\
    ((named_rule name stride overrides kd.1 kd.2 None) \/
     exists b' w, named_rule name stride overrides kd.1 kd.2 (Some (b', w)) /\ 1 <= w /\ claim_port kc.2 = b' + s * w))
    declared named.
Proof.
  intros Hs Hd. unfold Ports.preset_ports. simpl. rewrite is_auto_stride, slot_of_moved by done. simpl.
  destruct (List.find _ overrides) as [[??]|]; [done|]. destruct (collect _ declared) as [l| |] eqn:Ec; simpl; [|done..].
  intros [= <- <-]. apply collect_ok in Ec.
  revert Hd. induction Ec as [|[key d] [key' k] l1 l2 H _ IH]; intros Hd; constructor.
  - simpl in *. apply Forall_cons_1 in Hd as [Hd _]. simpl in Hd.
    destruct (preset_port _ _ _ _ _ _ _) as [k0| |] eqn:Ek; simpl in H; [|done..]. injection H as [= <- <-].
    split; [done|]. by apply (preset_port_moves _ _ _ _ _ _ _ _ _ Hs Hd) in Ek.
  - apply IH. by apply Forall_cons_1 in Hd as [_ ?].
Qed.

End PresetPorts.

(** Two ranges of [w] ports do not meet. *)
Definition apart (w p q : N) : Prop := p + w <= q \/ q + w <= p.

Lemma moved_apart b w s1 s2 : 1 <= w -> s1 <> s2 -> apart w (b + s1 * w) (b + s2 * w).
Proof. intros. unfold apart. destruct (N.lt_trichotomy s1 s2) as [H1|[H1|H1]]; [left|done|right]; nia. Qed.

Lemma named_rule_unique name stride overrides key default r1 r2 :
  named_rule name stride overrides key default r1 -> named_rule name stride overrides key default r2 -> r1 = r2.
Proof. intros H1 H2. destruct H1, H2; congruence. Qed.

(** Checkouts do not collide: two checkouts of a project in different slots, which read the same
    declaration of a daemon with an automatic port, get primary ports at least a stride apart, so
    that ranges of a stride's length do not meet; and every named port of the preset that is not
    given as a fixed number is at least its own stride apart too. *)
Theorem worktrees_apart canonicalize in_linked_worktree hash_to_str
    name v base stride default preset_port_ declared overrides r1 r2 c1 c2 named1 named2 :
  let slot := slot canonicalize in_linked_worktree hash_to_str in
  let resolve := resolve canonicalize in_linked_worktree hash_to_str in
  let preset_ports := preset_ports canonicalize in_linked_worktree hash_to_str in
  parse name v = Ok (Auto base stride) ->
  (forall d, default = Some d -> 1 <= d <= 65535) -> Forall (fun kd => 1 <= kd.2) declared ->
  slot r1 <> slot r2 ->
  resolve name r1 base stride default None = Ok c1 ->
  resolve name r2 base stride default None = Ok c2 ->
  preset_ports name r1 preset_port_ declared (Some c1) overrides = Ok (c1, named1) ->
  preset_ports name r2 preset_port_ declared (Some c2) overrides = Ok (c2, named2) ->
  apart stride c1.(claim_port) c2.(claim_port) /\
  named1.*1 = declared.*1 /\ named2.*1 = declared.*1 /\
  forall i key d k1 k2, declared !! i = Some (key, d) -> named1 !! i = Some (key, k1) -> named2 !! i = Some (key, k2) ->
    named_rule name stride overrides key d None \/
    exists b w, named_rule name stride overrides key d (Some (b, w)) /\ apart w k1.(claim_port) k2.(claim_port).
Proof.
  intros slot_ resolve_ preset_ports_ Hp Hdef Hdecl Hne H1 H2 Hn1 Hn2.
  pose proof (parse_auto_ok _ _ _ _ Hp) as [Hb Hs].
  apply resolve_fresh in H1 as (b1 & Hb1 & -> & _ & E1); [|done..].
  apply resolve_fresh in H2 as (b2 & Hb2 & -> & _ & E2); [|done..].
  rewrite E1 in E2. injection E2 as [= <-].
  apply preset_ports_moves in Hn1; [|lia|done]. apply preset_ports_moves in Hn2; [|lia|done].
  split_and!.
  - simpl. apply moved_apart; [lia|done].
  - clear -Hn1. induction Hn1 as [|?? l1 l2 [E _] _ IH]; [done|]. csimpl. by rewrite E, IH.
  - clear -Hn2. induction Hn2 as [|?? l1 l2 [E _] _ IH]; [done|]. csimpl. by rewrite E, IH.
  - intros i key d k1 k2 Hi Hi1 Hi2.
    pose proof (Forall2_lookup_lr _ _ _ _ _ _ Hn1 Hi Hi1) as [_ [?|(b' & w & Hr1 & Hw & Ek1)]]; [by left|].
    pose proof (Forall2_lookup_lr _ _ _ _ _ _ Hn2 Hi Hi2) as [_ [?|(b'' & w' & Hr2 & _ & Ek2)]]; [by left|].
    simpl in *. pose proof (named_rule_unique _ _ _ _ _ _ _ Hr1 Hr2) as [= <- <-].
    right. exists b', w. split; [done|]. rewrite Ek1, Ek2. by apply moved_apart.
Qed.

Lemma worktrees_apart_example :
  let hash := fun root : str => if bool_decide (root = u!"/a") then u!"2a" else u!"2b" in
  let port := VString u!"auto" in
  let declared := [(u!"http_port", 8080); (u!"metrics_port", 9100)] in
  let overrides := [(u!"metrics_port", VTable [(u!"auto", VBoolean true); (u!"stride", VInteger 3)])] in
  exists c1 c2 n1 n2,
    preset_ports Some (fun _ => true) hash u!"db" u!"/a" 5432 declared (Some c1) overrides = Ok (c1, n1) /\
    preset_ports Some (fun _ => true) hash u!"db" u!"/b" 5432 declared (Some c2) overrides = Ok (c2, n2) /\
    parse u!"db" port = Ok (Auto None 1) /\
    apart 1 c1.(claim_port) c2.(claim_port) /\
    n1 = [(u!"http_port", PortClaim_fixed 8123); (u!"metrics_port", mkPortClaim 9229 9100 3)].
Proof.
  intros hash port declared overrides.
  exists (mkPortClaim 5475 5432 1), (mkPortClaim 5476 5432 1),
    [(u!"http_port", PortClaim_fixed 8123); (u!"metrics_port", mkPortClaim 9229 9100 3)],
    [(u!"http_port", PortClaim_fixed 8124); (u!"metrics_port", mkPortClaim 9232 9100 3)].
  split_and!; [reflexivity..| |reflexivity].
  apply (worktrees_apart Some (fun _ => true) hash u!"db" port None 1 (Some 5432) 5432 declared overrides u!"/a" u!"/b"
    (mkPortClaim 5475 5432 1) (mkPortClaim 5476 5432 1)
    [(u!"http_port", PortClaim_fixed 8123); (u!"metrics_port", mkPortClaim 9229 9100 3)]
    [(u!"http_port", PortClaim_fixed 8124); (u!"metrics_port", mkPortClaim 9232 9100 3)]).
  - reflexivity.
  - intros d [= <-]. lia.
  - repeat constructor; simpl; lia.
  - vm_compute. discriminate.
  - reflexivity.
  - reflexivity.
  - reflexivity.
  - reflexivity.
Defined.

(** ** Containers *)

Definition decl_ok (port : PortDecl) : Prop :=
  match port with
  | DeclFixed host container => 1 <= host <= 65535 /\ 1 <= container <= 65535
  | DeclAuto container base stride => 1 <= container <= 65535 /\ request_ok base stride
  end.

Lemma parse_port_ok name key v port : parse_port name key v = Ok port -> decl_ok port.
Proof.
  unfold parse_port. destruct v as [text|n|f|b|d|items|table]; try done.
  - unfold port_number, ok_or. destruct (port_value _) as [p|] eqn:E; simpl; [|done]. intros [= <-].
    apply port_value_range in E. done.
  - destruct (unknown_key _ _); [done|].
    change (decl_field (ports_of name key) table) with (port_field (ports_of name key) table).
    destruct (port_field _ table u!"container") as [[container|]| |] eqn:Ec; simpl; try done.
    apply port_field_range in Ec. destruct (has_key u!"auto" table).
    + destruct (negb _); [done|]. destruct (has_key u!"host" table); [done|].
      destruct (port_field _ table u!"base") as [base| |] eqn:Eb; simpl; [|done..].
      destruct (port_field _ table u!"stride") as [stride| |] eqn:Es; simpl; [|done..].
      intros [= <-]. split; [done|]. split; [|by eapply stride_range].
      intros b ->. by eapply port_field_range.
    + destruct (_ || _); [done|]. destruct (port_field _ table u!"host") as [[h|]| |] eqn:Eh; simpl; [| |done..];
        intros [= <-]; split; try done. by eapply port_field_range.
Qed.

(** The claim of a declaration, in integers. *)
Definition decl_target (slot_ : N) (port : PortDecl) : N :=
  match port with
  | DeclFixed host _ => host
  | DeclAuto container base stride => unwrap_or base container + slot_ * stride
  end.

Lemma decl_claim_ok name key slot_ port c p :
  decl_ok port -> decl_claim name key slot_ port = Ok (c, p) ->
  c.(claim_port) = decl_target slot_ port /\ 1 <= c.(claim_port) <= 65535.
Proof.
  destruct port as [host container|container base stride]; simpl; [by intros [? _] [= <- <-]|].
  intros (Hc & Hb & Hs). unfold checked_mul, checked_add, U16_MAX.
  assert (1 <= unwrap_or base container) by (destruct base; simpl; [by apply Hb|lia]).
  destruct (N.leb_spec (slot_ * stride) 65535); simpl; [|done].
  destruct (N.leb_spec (unwrap_or base container + slot_ * stride) 65535); simpl; [|done].
  intros [= <- _]. simpl. lia.
Qed.

Lemma build_named_ok name slot_ taken ports publish named :
  Forall (fun kp => decl_ok kp.2) ports -> NoDup taken ->
  build_named name slot_ taken ports = Ok (publish, named) ->
  NoDup (taken ++ publish.*1) /\ publish.*1 = decl_target slot_ <$> ports.*2 /\
  named.*1 = ports.*1 /\ claim_port <$> named.*2 = publish.*1 /\ Forall (fun p => 1 <= p <= 65535) publish.*1.
Proof.
  intros HF. revert taken publish named. induction HF as [|[key port] ports Hp _ IH]; intros taken publish named Hnd; simpl.
  { intros [= <- <-]. csimpl. rewrite app_nil_r. split_and!; [done..|constructor]. }
  destruct (decl_claim name key slot_ port) as [[c p]| |] eqn:Ec; simpl; [|done..].
  apply decl_claim_ok in Ec as [Et Hr]; [|done]. unfold claim_host. case_bool_decide as Hin; simpl; [done|].
  destruct (build_named name slot_ (taken ++ [claim_port c]) ports) as [[pub nm]| |] eqn:Eb; simpl; [|done..].
  intros [= <- <-]. apply IH in Eb as (Hn & Et' & Ek & Ec & Hall).
  - csimpl. rewrite <- app_assoc in Hn. simpl in *. split_and!; [done| | | |by constructor]; congruence.
  - apply NoDup_app. split_and!; [done| |by apply NoDup_singleton].
    intros x Hx ->%list_elem_of_singleton. done.
Qed.

(** What a container publishes is consistent: when [Decl::build] accepts the ports, the host ports
    it publishes are pairwise distinct, each from 1 to 65535; the first is the primary claim's, the
    others are, in the order of declaration, the declared host ports or the base plus the slot times
    the stride, with the slot of an automatic primary port. *)
Theorem published_distinct canonicalize in_linked_worktree hash_to_str name root claim container_port ports publish named :
  let slot := slot canonicalize in_linked_worktree hash_to_str in
  Forall (fun kp => decl_ok kp.2) ports ->
  (forall c, claim = Some c -> 1 <= c.(claim_port) <= 65535) ->
  build_ports canonicalize in_linked_worktree hash_to_str name root claim container_port ports = Ok (publish, named) ->
  NoDup publish.*1 /\ Forall (fun p => 1 <= p <= 65535) publish.*1 /\ named.*1 = ports.*1 /\
  exists s, match claim with
            | Some c => if is_auto c then slot_of_claim name c = Ok s else s = slot root
            | None => s = slot root
            end /\
    publish.*1 = match claim with Some c => [c.(claim_port)] | None => [] end ++ (decl_target s <$> ports.*2) /\
    claim_port <$> named.*2 = decl_target s <$> ports.*2.
Proof.
  intros slot_ HF Hc. unfold build_ports. fold slot_.
  destruct claim as [c|]; simpl.
  - specialize (Hc c eq_refl).
    destruct (if is_auto c then slot_of_claim name c else Ok (slot_ root)) as [s| |] eqn:Es; simpl; [|done..].
    destruct (build_named name s _ ports) as [[pub nm]| |] eqn:Eb; simpl; [|done..]. intros [= <- <-].
    apply build_named_ok in Eb as (Hn & Et & Ek & Em & Hall); [|done|by apply NoDup_singleton].
    csimpl. split_and!; [done|by constructor|done|]. exists s. rewrite Em, Et. split_and!; [|done..].
    destruct (is_auto c); congruence.
  - destruct container_port; simpl; [done|].
    destruct (build_named name _ _ ports) as [[pub nm]| |] eqn:Eb; simpl; [|done..]. intros [= <- <-].
    apply build_named_ok in Eb as (Hn & Et & Ek & Em & Hall); [|done|constructor].
    split_and!; [done..|]. exists (slot_ root). rewrite Em, Et. done.
Qed.

Lemma published_distinct_example :
  let ports := [(u!"http", DeclAuto 80 (Some 8080) 2); (u!"dbg", DeclFixed 9229 9229)] in
  let claim := mkPortClaim 5475 5432 1 in
  exists publish named,
    build_ports Some (fun _ => true) (fun _ => u!"2a") u!"db" u!"/a" (Some claim) None ports = Ok (publish, named) /\
    NoDup publish.*1 /\ publish = [(5475, 5432); (8166, 80); (9229, 9229)].
Proof.
  intros ports claim.
  exists [(5475, 5432); (8166, 80); (9229, 9229)], [(u!"http", mkPortClaim 8166 8080 2); (u!"dbg", PortClaim_fixed 9229)].
  split; [reflexivity|]. split; [|reflexivity].
  apply (published_distinct Some (fun _ => true) (fun _ => u!"2a") u!"db" u!"/a" (Some claim) None ports
    [(5475, 5432); (8166, 80); (9229, 9229)] [(u!"http", mkPortClaim 8166 8080 2); (u!"dbg", PortClaim_fixed 9229)]).
  - repeat constructor; simpl; intros; simplify_eq; lia.
  - intros c [= <-]. simpl. lia.
  - reflexivity.
Defined.

(** ** Recorded claims *)

Lemma carry_fold (ds : list Daemon) (ports : gmap str PortClaim) name :
  NoDup (daemon_name <$> ds) ->
  foldl (fun ports d => match d.(daemon_port) with Some c => <[d.(daemon_name) := c]> ports | None => ports end) ports ds !! name =
  match List.find (fun d => bool_decide (d.(daemon_name) = name)) ds with
  | Some d => match d.(daemon_port) with Some c => Some c | None => ports !! name end
  | None => ports !! name
  end.
Proof.
  revert ports. induction ds as [|d ds IH]; intros ports; csimpl; [done|]. intros [Hni Hnd]%NoDup_cons.
  rewrite IH by done. case_bool_decide as E.
  - destruct (List.find _ ds) as [d'|] eqn:Ef.
    + apply List.find_some in Ef as [Hin Hd']. apply bool_decide_eq_true in Hd'. exfalso. apply Hni.
      apply list_elem_of_fmap. exists d'. split; [congruence|by apply list_elem_of_In].
    + destruct (daemon_port d); [|done]. by rewrite E, lookup_insert_eq.
  - destruct (List.find _ ds) as [d'|], (daemon_port d); try destruct (daemon_port d'); rewrite ?lookup_insert_ne by done; done.
Qed.

(** A claim is dropped only when its daemon is declared and has no port: a declared daemon is recorded
    with the port it has now, an undeclared one keeps the claim it had. *)
Theorem claims_carried previous (daemons : list (str * Daemon)) name :
  NoDup daemons.*1 -> Forall (fun kd => kd.1 = daemon_name kd.2) daemons ->
  carry_port_claims previous daemons !! name =
  match List.find (fun d => bool_decide (d.(daemon_name) = name)) daemons.*2 with
  | Some d => d.(daemon_port)
  | None => previous !! name
  end.
Proof.
  intros Hnd HF. unfold carry_port_claims.
  assert (daemons.*1 = daemon_name <$> daemons.*2) as Ek.
  { clear Hnd. induction HF as [|kd l Hk _ IH]; [done|]. csimpl. by rewrite Hk, IH. }
  rewrite carry_fold by congruence. destruct (List.find _ _) as [d|] eqn:Ef.
  - destruct (daemon_port d); [done|]. apply List.find_some in Ef as [Hin Hd]. apply bool_decide_eq_true in Hd.
    apply map_lookup_filter_None. right. intros x _. simpl. rewrite Ek. intros Hni. apply Hni, list_elem_of_fmap.
    exists d. split; [done|by apply list_elem_of_In].
  - destruct (previous !! name) as [c|] eqn:Ep.
    + apply map_lookup_filter_Some. split; [done|]. simpl. rewrite Ek. intros (d & -> & Hd)%list_elem_of_fmap.
      apply list_elem_of_In in Hd. pose proof (List.find_none _ _ Ef _ Hd) as Hx. simpl in Hx.
      by rewrite bool_decide_true in Hx.
    + apply map_lookup_filter_None. by left.
Qed.
