(* ===== verification/Order.v ===== *)
(** * Orders of Rust values: what a derived [Ord] promises, and the sorted containers that rely on it

    [#[derive(Ord)]] compares fields in their order and an enum by its variant; a [BTreeSet] is the
    strictly sorted list of its elements, [sort_by] a stable sort. *)

From S2P Require Import Prelude RustStr.
From Stdlib Require Import Sorted.

Class CmpOrder {A} (cmp : A -> A -> comparison) : Prop := {
  cmp_eq a b : cmp a b = Eq <-> a = b;
  cmp_antisym a b : cmp b a = CompOpp (cmp a b);
  cmp_trans a b c : cmp a b = Lt -> cmp b c = Lt -> cmp a c = Lt
}.

(** ** Derived orders *)

#[export] Instance str_cmp_order : CmpOrder str_cmp.
Proof. split; [apply str_cmp_eq|apply str_cmp_antisym|apply str_lt_trans]. Qed.

#[export] Instance N_cmp_order : CmpOrder N.compare.
Proof.
  split; [apply N.compare_eq_iff|intros a b; apply N.compare_antisym|].
  intros a b c. rewrite !N.compare_lt_iff. apply N.lt_trans.
Qed.

Definition option_cmp {A} (cmp : A -> A -> comparison) (a b : option A) : comparison :=
  match a, b with
  | None, None => Eq
  | None, Some _ => Lt
  | Some _, None => Gt
  | Some x, Some y => cmp x y
  end.

#[export] Instance option_cmp_order {A} (cmp : A -> A -> comparison) `{!CmpOrder cmp} : CmpOrder (option_cmp cmp).
Proof.
  split.
  - intros [x|] [y|]; simpl; rewrite ?cmp_eq; split; intros H; try done; congruence.
  - intros [x|] [y|]; simpl; try done. apply cmp_antisym.
  - intros [x|] [y|] [z|]; simpl; try done. apply cmp_trans.
Qed.

(** One field after the other. *)
Definition then_cmp (first second : comparison) : comparison := match first with Eq => second | c => c end.

Definition pair_cmp {A B} (f : A -> A -> comparison) (g : B -> B -> comparison) (a b : A * B) : comparison :=
  then_cmp (f a.1 b.1) (g a.2 b.2).

#[export] Instance pair_cmp_order {A B} (f : A -> A -> comparison) (g : B -> B -> comparison)
    `{!CmpOrder f, !CmpOrder g} : CmpOrder (pair_cmp f g).
Proof.
  split.
  - intros [a b] [a' b']. unfold pair_cmp, then_cmp. simpl. pose proof (cmp_eq (cmp := f) a a') as Hf.
    pose proof (cmp_eq (cmp := g) b b') as Hg. destruct (f a a'); [|naive_solver..].
    rewrite Hg. split; [intros ->; f_equal; by apply Hf|by intros [= _ ->]].
  - intros [a b] [a' b']. unfold pair_cmp, then_cmp. simpl.
    rewrite (cmp_antisym (cmp := f) a a'), (cmp_antisym (cmp := g) b b'). by destruct (f a a').
  - intros [a b] [a' b'] [a'' b'']. unfold pair_cmp, then_cmp. simpl.
    destruct (f a a') eqn:E1; [apply (cmp_eq (cmp := f)) in E1 as ->| |done]; (destruct (f a' a'') eqn:E2; [| |done]).
    + apply cmp_trans.
    + done.
    + apply (cmp_eq (cmp := f)) in E2 as ->. by rewrite E1.
    + intros _ _. by rewrite (cmp_trans _ _ _ E1 E2).
Qed.

(** A record is compared by its fields. *)
Lemma cmp_order_by {A B} (cmp : B -> B -> comparison) (f : A -> B) `{!CmpOrder cmp, !Inj (=) (=) f} :
  CmpOrder (fun a b => cmp (f a) (f b)).
Proof.
  split.
  - intros a b. rewrite (cmp_eq (cmp := cmp)). split; [apply (inj f)|by intros ->].
  - intros a b. apply cmp_antisym.
  - intros a b c. apply cmp_trans.
Qed.

Section Sorted.

Context {A : Type} (cmp : A -> A -> comparison).

(** ** Sets *)

(** [BTreeSet::insert] *)
Fixpoint cmp_insert (x : A) (l : list A) : list A :=
  match l with
  | [] => [x]
  | y :: l' => match cmp x y with Lt => x :: l | Eq => l | Gt => y :: cmp_insert x l' end
  end.

(** [collect] into a [BTreeSet] *)
Definition cmp_set_of (l : list A) : list A := foldl (fun s x => cmp_insert x s) [] l.

(** ** Stable sorting *)

Fixpoint stable_insert (x : A) (l : list A) : list A :=
  match l with
  | [] => [x]
  | y :: l' => match cmp x y with Lt => x :: l | _ => y :: stable_insert x l' end
  end.

(** [sort_by] *)
Definition sort_by (l : list A) : list A := foldl (fun s x => stable_insert x s) [] l.

Definition cmp_lt (a b : A) : Prop := cmp a b = Lt.
Definition cmp_le (a b : A) : Prop := cmp a b <> Gt.

Lemma stable_insert_Permutation x l : stable_insert x l ≡ₚ x :: l.
Proof.
  induction l as [|y l IH]; simpl; [done|].
  destruct (cmp x y); [|done|]; rewrite IH; apply Permutation_swap.
Qed.

Lemma sort_by_Permutation l : sort_by l ≡ₚ l.
Proof.
  assert (forall acc, foldl (fun s x => stable_insert x s) acc l ≡ₚ acc ++ l) as H; [|apply (H [])].
  induction l as [|x l IH]; intros acc; simpl; [by rewrite app_nil_r|].
  rewrite IH, stable_insert_Permutation. by rewrite <- Permutation_middle.
Qed.

Context `{!CmpOrder cmp}.

Lemma cmp_refl a : cmp a a = Eq.
Proof. by apply cmp_eq. Qed.

Lemma cmp_gt_lt a b : cmp a b = Gt <-> cmp b a = Lt.
Proof. rewrite (cmp_antisym (cmp := cmp) a b). by destruct (cmp a b). Qed.

Lemma elem_of_cmp_insert x y l : y ∈ cmp_insert x l <-> y = x \/ y ∈ l.
Proof.
  induction l as [|z l IH]; simpl; [set_solver|].
  destruct (cmp x z) eqn:E; [apply cmp_eq in E as ->| |]; set_solver.
Qed.

Lemma elem_of_cmp_set_of x l : x ∈ cmp_set_of l <-> x ∈ l.
Proof.
  assert (forall acc, x ∈ foldl (fun s y => cmp_insert y s) acc l <-> x ∈ acc \/ x ∈ l) as H;
    [|rewrite (H []); set_solver].
  induction l as [|y l IH]; intros acc; simpl; [set_solver|]. rewrite IH, elem_of_cmp_insert. set_solver.
Qed.

#[export] Instance cmp_lt_trans : Transitive cmp_lt.
Proof. intros a b c. apply cmp_trans. Qed.

Lemma cmp_insert_sorted x l : StronglySorted cmp_lt l -> StronglySorted cmp_lt (cmp_insert x l).
Proof.
  induction 1 as [|y l Hl IH Hy]; simpl; [repeat constructor|].
  destruct (cmp x y) eqn:E.
  - by constructor.
  - constructor; [by constructor|]. constructor; [done|]. eapply Forall_impl; [exact Hy|]. intros z Hz. by transitivity y.
  - constructor; [done|]. apply Forall_forall. intros z [->|Hz]%elem_of_cmp_insert.
    + by apply cmp_gt_lt.
    + by eapply Forall_forall in Hy.
Qed.

Lemma cmp_set_of_sorted l : StronglySorted cmp_lt (cmp_set_of l).
Proof.
  assert (forall acc, StronglySorted cmp_lt acc -> StronglySorted cmp_lt (foldl (fun s y => cmp_insert y s) acc l)) as H;
    [|apply H; constructor].
  induction l as [|y l IH]; intros acc Hacc; simpl; [done|]. by apply IH, cmp_insert_sorted.
Qed.

(** A strictly sorted list is given by its elements. *)
Lemma sorted_unique l1 l2 :
  StronglySorted cmp_lt l1 -> StronglySorted cmp_lt l2 -> (forall x, x ∈ l1 <-> x ∈ l2) -> l1 = l2.
Proof.
  assert (forall x, ~ cmp_lt x x) as Hirr by (intros x; unfold cmp_lt; by rewrite cmp_refl).
  intros H1. revert l2. induction H1 as [|x l1 Hl1 IH Hx]; intros l2 H2 Hel.
  - destruct l2 as [|y l2]; [done|]. exfalso; pose proof (proj2 (Hel y) (list_elem_of_here _ _)) as []%elem_of_nil.
  - destruct H2 as [|y l2 Hl2 Hy]; [exfalso; pose proof (proj1 (Hel x) (list_elem_of_here _ _)) as []%elem_of_nil|].
    rewrite Forall_forall in Hx, Hy.
    assert (x = y) as ->.
    { destruct (proj1 (elem_of_cons _ _ _) (proj1 (Hel x) (list_elem_of_here _ _))) as [->|Hxl2]; [done|].
      destruct (proj1 (elem_of_cons _ _ _) (proj2 (Hel y) (list_elem_of_here _ _))) as [->|Hyl1]; [done|].
      destruct (Hirr x). transitivity y; [by apply Hx|by apply Hy]. }
    f_equal. apply IH; [done|]. intros z. specialize (Hel z). rewrite !elem_of_cons in Hel.
    split; intros Hz.
    + destruct (proj1 Hel (or_intror Hz)) as [->|]; [by destruct (Hirr y (Hx y Hz))|done].
    + destruct (proj2 Hel (or_intror Hz)) as [->|]; [by destruct (Hirr y (Hy y Hz))|done].
Qed.

Lemma stable_insert_sorted x l : StronglySorted cmp_le l -> StronglySorted cmp_le (stable_insert x l).
Proof.
  assert (forall a b c, cmp_lt a b -> cmp_le b c -> cmp_le a c) as Hlt.
  { unfold cmp_lt, cmp_le. intros a b c Hab Hbc. destruct (cmp b c) eqn:E; [|by rewrite (cmp_trans a b c)|done].
    apply cmp_eq in E as ->. by rewrite Hab. }
  induction 1 as [|y l Hl IH Hy]; simpl; [repeat constructor|].
  destruct (cmp x y) eqn:E.
  2: { constructor; [by constructor|]. constructor; [by unfold cmp_le; rewrite E|].
       eapply Forall_impl; [exact Hy|]. intros z. by apply Hlt. }
  all: constructor; [done|]; apply Forall_forall; intros z Hz; rewrite stable_insert_Permutation in Hz;
    apply elem_of_cons in Hz as [->|Hz]; [|by eapply Forall_forall in Hy];
    unfold cmp_le; rewrite (cmp_antisym (cmp := cmp) x y), E; done.
Qed.

Lemma sort_by_sorted l : StronglySorted cmp_le (sort_by l).
Proof.
  assert (forall acc, StronglySorted cmp_le acc -> StronglySorted cmp_le (foldl (fun s y => stable_insert y s) acc l)) as H;
    [|apply H; constructor].
  induction l as [|y l IH]; intros acc Hacc; simpl; [done|]. by apply IH, stable_insert_sorted.
Qed.

Lemma elem_of_sort_by x l : x ∈ sort_by l <-> x ∈ l.
Proof. by rewrite sort_by_Permutation. Qed.

End Sorted.

(** ** Orders that do not tell all elements apart *)

(** [Iterator::max_by]: the last of the greatest. *)
Fixpoint max_by {A} (cmp : A -> A -> comparison) (best : option A) (l : list A) : option A :=
  match l with
  | [] => best
  | x :: l' =>
      max_by cmp (Some match best with Some b => match cmp b x with Gt => b | _ => x end | None => x end) l'
  end.

(** An order that may not tell all elements apart, such as that of versions up to build metadata. *)
Class WeakOrder {V} (cmp : V -> V -> comparison) : Prop := {
  weak_antisym : forall a b, cmp b a = CompOpp (cmp a b);
  weak_trans : forall a b c, cmp a b <> Gt -> cmp b c <> Gt -> cmp a c <> Gt
}.

Section MaxBy.

Context {A : Type} (cmp : A -> A -> comparison).

Lemma max_by_app best (l1 l2 : list A) : max_by cmp best (l1 ++ l2) = max_by cmp (max_by cmp best l1) l2.
Proof. revert best. induction l1 as [|x l1 IH]; intros best; simpl; [done|]. apply IH. Qed.

Lemma max_by_keep b (l : list A) : (forall x, x ∈ l -> cmp b x = Gt) -> max_by cmp (Some b) l = Some b.
Proof.
  induction l as [|x l IH]; intros H; simpl; [done|]. rewrite H by (by left). apply IH. intros y Hy. apply H. by right.
Qed.

Lemma max_by_elem best (l : list A) m : max_by cmp best l = Some m -> best = Some m \/ m ∈ l.
Proof.
  revert best. induction l as [|x l IH]; intros best; simpl; [by left|]. intros [H|H]%IH; [|right; by right].
  destruct best as [b|]; [destruct (cmp b x)|]; injection H as <-; first [by left | right; by left].
Qed.

Lemma max_by_some best (l : list A) : best <> None \/ l <> [] -> is_Some (max_by cmp best l).
Proof.
  revert best. induction l as [|x l IH]; intros best; simpl.
  - intros [H|?]; [|done]. destruct best; [by eexists|done].
  - intros _. apply IH. by left.
Qed.

Context {HO : WeakOrder cmp}.

Lemma cmp_refl_not_gt a : cmp a a <> Gt.
Proof. pose proof (weak_antisym (cmp:=cmp) a a) as H. destruct (cmp a a); done. Qed.

Lemma cmp_gt_trans a b c : cmp a b = Gt -> cmp c b <> Gt -> cmp a c = Gt.
Proof.
  intros H1 H2. destruct (cmp a c) eqn:E; [exfalso..|done].
  - apply (weak_trans (cmp:=cmp) a c b); [congruence|done|done].
  - apply (weak_trans (cmp:=cmp) a c b); [congruence|done|done].
Qed.

(** Everything before it is at most as great, everything after it is less. *)
Lemma max_by_intro (l1 l2 : list A) m :
  (forall x, x ∈ l1 -> cmp x m <> Gt) -> (forall x, x ∈ l2 -> cmp m x = Gt) -> max_by cmp None (l1 ++ m :: l2) = Some m.
Proof.
  intros H1 H2. rewrite max_by_app. simpl. rewrite max_by_keep; [|].
  - destruct (max_by cmp None l1) as [b|] eqn:E; [|done]. apply max_by_elem in E as [?|E]; [done|].
    specialize (H1 b E). by destruct (cmp b m).
  - destruct (max_by cmp None l1) as [b|] eqn:E; [|done]. apply max_by_elem in E as [?|E]; [done|].
    specialize (H1 b E). by destruct (cmp b m).
Qed.

Lemma max_by_split_from b (l : list A) m :
  max_by cmp (Some b) l = Some m ->
  (m = b /\ forall x, x ∈ l -> cmp m x = Gt) \/
  exists l1 l2, l = l1 ++ m :: l2 /\ cmp b m <> Gt /\ (forall x, x ∈ l1 -> cmp x m <> Gt) /\ (forall x, x ∈ l2 -> cmp m x = Gt).
Proof.
  revert b. induction l as [|x l IH]; intros b; simpl.
  - intros [= ->]. left. split; [done|]. by intros y ?%elem_of_nil.
  - destruct (cmp b x) eqn:E; intros H.
    1,2: apply IH in H as [[-> Hl]|(l1 & l2 & -> & Hm & H1 & H2)]; right;
      [exists [], l; split_and!; [done|congruence|by intros y ?%elem_of_nil|done]
      |exists (x :: l1), l2; split_and!; [done|apply (weak_trans (cmp:=cmp) b x m); [congruence|done]| |done];
       intros y [->|Hy]%elem_of_cons; [done|by apply H1]].
    apply IH in H as [[-> Hl]|(l1 & l2 & -> & Hm & H1 & H2)].
    + left. split; [done|]. intros y [->|Hy]%elem_of_cons; [done|by apply Hl].
    + right. exists (x :: l1), l2. split_and!; [done|done| |done]. intros y [->|Hy]%elem_of_cons; [|by apply H1].
      intros Hc. pose proof (weak_antisym (cmp:=cmp) x b) as Ha. rewrite E in Ha.
      apply (weak_trans (cmp:=cmp) x b m); [|done|done]. destruct (cmp x b); done.
Qed.

Lemma max_by_split (l : list A) m :
  max_by cmp None l = Some m ->
  exists l1 l2, l = l1 ++ m :: l2 /\ (forall x, x ∈ l1 -> cmp x m <> Gt) /\ (forall x, x ∈ l2 -> cmp m x = Gt).
Proof.
  destruct l as [|x l]; simpl; [done|]. intros [[-> Hl]|(l1 & l2 & -> & Hm & H1 & H2)]%max_by_split_from.
  - exists [], l. split_and!; [done|by intros y ?%elem_of_nil|done].
  - exists (x :: l1), l2. split_and!; [done| |done]. intros y [->|Hy]%elem_of_cons; [done|by apply H1].
Qed.

Lemma max_by_greatest (l : list A) m x : max_by cmp None l = Some m -> x ∈ l -> cmp x m <> Gt.
Proof.
  intros (l1 & l2 & -> & H1 & H2)%max_by_split [Hx|[->|Hx]%elem_of_cons]%elem_of_app; [by apply H1|apply cmp_refl_not_gt|].
  rewrite (weak_antisym (cmp:=cmp) m x), (H2 x Hx). done.
Qed.

(** Dropping others does not change it. *)
Lemma max_by_filter (p : A -> bool) (l : list A) m :
  max_by cmp None l = Some m -> p m = true -> max_by cmp None (List.filter p l) = Some m.
Proof.
  intros (l1 & l2 & -> & H1 & H2)%max_by_split Hp. rewrite List.filter_app. simpl. rewrite Hp. apply max_by_intro.
  - intros x Hx. apply H1. apply list_elem_of_In in Hx. apply List.filter_In in Hx as [Hx _]. by apply list_elem_of_In.
  - intros x Hx. apply H2. apply list_elem_of_In in Hx. apply List.filter_In in Hx as [Hx _]. by apply list_elem_of_In.
Qed.

End MaxBy.

#[export] Instance order_on {A V} (f : A -> V) (cmp : V -> V -> comparison) :
  WeakOrder cmp -> WeakOrder (fun a b => cmp (f a) (f b)).
Proof. intros [H1 H2]. constructor; eauto. Qed.
