(* ===== verification/LockInfo.v ===== *)
(** * Artifact data of a lockfile ([src/lockfile.rs]: [ProvenanceType], [ArtifactInfo], [PlatformInfo]
    and their merges; [provenance_is_downgrade] of [src/lockfile/generate.rs]; [Platform] of
    [crates/mise-util/src/platform.rs])

    For every version, options and platform the lockfile records where the artifact comes from,
    its checksum, and what vouched for it. Request headers ([download_headers]) are a list of
    names and values; two of them are never compared. *)

From S2P Require Import Prelude RustStr.

(** ** Options *)

(** [Option::or] *)
Definition or_else {A} (a b : option A) : option A := match a with Some _ => a | None => b end.

(** [Option::and] *)
Definition and_then_opt {A} (a b : option A) : option A := match a with Some _ => b | None => None end.

Definition is_some {A} (o : option A) : bool := match o with Some _ => true | None => false end.
Definition is_none {A} (o : option A) : bool := negb (is_some o).

(** ** Provenance *)

Inductive ProvenanceType : Type :=
| Minisign
| Cosign
| Slsa (url : option str)
| GithubAttestations.

#[export] Instance ProvenanceType_eq_dec : EqDecision ProvenanceType.
Proof. solve_decision. Defined.

Definition ordinal (p : ProvenanceType) : N :=
  match p with Minisign => 1 | Cosign => 2 | Slsa _ => 3 | GithubAttestations => 4 end.

Definition ProvenanceType_cmp (a b : ProvenanceType) : comparison := N.compare (ordinal a) (ordinal b).

(** [PartialEq]: by priority only. *)
Definition ProvenanceType_eqb (a b : ProvenanceType) : bool := (ordinal a =? ordinal b)%N.

Definition ProvenanceType_from_str (s : str) : option ProvenanceType :=
  if bool_decide (s = u!"minisign") then Some Minisign
  else if bool_decide (s = u!"cosign") then Some Cosign
  else if bool_decide (s = u!"slsa") then Some (Slsa None)
  else if bool_decide (s = u!"github-attestations") then Some GithubAttestations
  else None.

(** [std::cmp::max]: the second where they are equal. *)
Definition ProvenanceType_max (a b : ProvenanceType) : ProvenanceType :=
  match ProvenanceType_cmp a b with Gt => a | _ => b end.

Definition ProvenanceType_merge (self other : ProvenanceType) : ProvenanceType :=
  match self, other with
  | Slsa a, Slsa b => Slsa (or_else a b)
  | _, _ => ProvenanceType_max self other
  end.

Inductive GithubAttestationsStatus : Type := Unavailable.

#[export] Instance GithubAttestationsStatus_eq_dec : EqDecision GithubAttestationsStatus.
Proof. solve_decision. Defined.

Inductive ChecksumSource : Type := VersionsHost.

#[export] Instance ChecksumSource_eq_dec : EqDecision ChecksumSource.
Proof. solve_decision. Defined.

Definition same_checksum_source (a : option str) (a_source : option ChecksumSource) (b : option str)
    (b_source : option ChecksumSource) : option (option ChecksumSource) :=
  if is_some a && bool_decide (a = b) then Some (and_then_opt a_source b_source) else None.

(** [str::eq_ignore_ascii_case] is [eq_ignore_ascii_case]. *)
Definition checksum_changed (old new : option str) : bool :=
  match old ≫= split_once c!":", new ≫= split_once c!":" with
  | Some (old_algo, old_hash), Some (new_algo, new_hash) =>
      eq_ignore_ascii_case old_algo new_algo && negb (eq_ignore_ascii_case old_hash new_hash)
  | _, _ => false
  end.

Definition merge_provenance_state (current : option ProvenanceType) (current_verified : option bool)
    (other : option ProvenanceType) (other_verified : option bool) : option ProvenanceType * option bool :=
  match current, other with
  | Some current, Some other => (Some (ProvenanceType_merge current other), or_else current_verified other_verified)
  | Some current, None => (Some current, current_verified)
  | None, Some other => (Some other, other_verified)
  | None, None => (None, or_else current_verified other_verified)
  end.

(** [new < old] of [Option]: [None] is below every value. *)
Definition provenance_lt (new old : option ProvenanceType) : bool :=
  match new, old with
  | None, Some _ => true
  | Some n, Some o => match ProvenanceType_cmp n o with Lt => true | _ => false end
  | _, None => false
  end.

Definition is_github_attestations (p : ProvenanceType) : bool :=
  match p with GithubAttestations => true | _ => false end.

Definition provenance_is_downgrade (old new : option ProvenanceType) (packslip_signer_replaces_provenance : bool) : bool :=
  if packslip_signer_replaces_provenance && match old with Some o => is_github_attestations o | None => false end
  then false
  else provenance_lt new old.

(** ** Additional artifacts *)

Record ArtifactInfo := mkArtifactInfo {
  a_checksum : option str;
  a_checksum_source : option ChecksumSource;
  a_size : option N;
  a_url : str;
  a_url_api : option str;
  a_provenance : option ProvenanceType;
  a_provenance_verified : option bool
}.

Definition is_sha256 (checksum : str) : bool := starts_with u!"sha256:" checksum.

(** The checksum that is kept, with its source; [checksum] of [merge_with]. *)
Definition prefer_checksum (self : option str) (self_source : option ChecksumSource) (other : option str)
    (other_source : option ChecksumSource) : option str * option ChecksumSource :=
  match self, other with
  | Some self_cs, Some other_cs =>
      if is_sha256 other_cs && negb (is_sha256 self_cs) then (Some other_cs, other_source) else (Some self_cs, self_source)
  | Some cs, None => (Some cs, self_source)
  | None, Some cs => (Some cs, other_source)
  | None, None => (None, None)
  end.

Definition from_option_or {A} (o : option A) (d : A) : A := match o with Some a => a | None => d end.

(** The checksum kept and its source: a checksum that both sides hold stays unmarked if either is. *)
Definition kept_checksum (self : option str) (self_source : option ChecksumSource) (other : option str)
    (other_source : option ChecksumSource) : option str * option ChecksumSource :=
  let '(checksum, checksum_source) := prefer_checksum self self_source other other_source in
  (checksum, from_option_or (same_checksum_source self self_source other other_source) checksum_source).

(** This side's provenance alone, or both sides' merged. *)
Definition kept_provenance (alone : bool) (self : option ProvenanceType) (self_verified : option bool)
    (other : option ProvenanceType) (other_verified : option bool) : option ProvenanceType * option bool :=
  if alone then (self, self_verified) else merge_provenance_state self self_verified other other_verified.

Definition ArtifactInfo_merge_with (self other : ArtifactInfo) : ArtifactInfo :=
  if negb (bool_decide (self.(a_url) = other.(a_url))) then self else
  let checksum := kept_checksum self.(a_checksum) self.(a_checksum_source) other.(a_checksum) other.(a_checksum_source) in
  let provenance := kept_provenance (checksum_changed other.(a_checksum) self.(a_checksum))
    self.(a_provenance) self.(a_provenance_verified) other.(a_provenance) other.(a_provenance_verified) in
  mkArtifactInfo checksum.1 checksum.2 (or_else self.(a_size) other.(a_size)) self.(a_url)
    (or_else self.(a_url_api) other.(a_url_api)) provenance.1 provenance.2.

Fixpoint merge_additional_artifacts (current other : list ArtifactInfo) : list ArtifactInfo :=
  match current, other with
  | c :: current', o :: other' => ArtifactInfo_merge_with c o :: merge_additional_artifacts current' other'
  | [], other => other
  | current, [] => current
  end.

(** ** Platforms of an entry *)

Record PlatformInfo := mkPlatformInfo {
  p_install : option str;
  p_checksum : option str;
  p_checksum_source : option ChecksumSource;
  p_size : option N;
  p_url : option str;
  p_url_api : option str;
  p_download_headers : option (list (str * list N));
  p_conda_deps : option (list str);
  p_provenance : option ProvenanceType;
  p_provenance_verified : option bool;
  p_github_attestations : option GithubAttestationsStatus;
  p_signer : option str;
  p_attested_by : option str;
  p_repository_id : option str;
  p_repository_owner_id : option str;
  p_additional_artifacts : list ArtifactInfo
}.

Definition PlatformInfo_default : PlatformInfo :=
  mkPlatformInfo None None None None None None None None None None None None None None None [].

Definition PlatformInfo_is_empty (i : PlatformInfo) : bool :=
  is_none i.(p_install) && is_none i.(p_checksum) && is_none i.(p_checksum_source) && is_none i.(p_url)
  && is_none i.(p_url_api) && is_none i.(p_conda_deps) && is_none i.(p_provenance)
  && is_none i.(p_provenance_verified) && is_none i.(p_signer) && is_none i.(p_attested_by)
  && is_none i.(p_repository_id) && is_none i.(p_repository_owner_id)
  && match i.(p_additional_artifacts) with [] => true | _ => false end.

(** Equality of provenances as [PartialEq] of the records has it. *)
Definition provenance_eqb (a b : option ProvenanceType) : bool :=
  match a, b with
  | Some a, Some b => ProvenanceType_eqb a b
  | None, None => true
  | _, _ => false
  end.

Definition ArtifactInfo_eqb (a b : ArtifactInfo) : bool :=
  bool_decide (a.(a_checksum) = b.(a_checksum)) && bool_decide (a.(a_checksum_source) = b.(a_checksum_source))
  && bool_decide (a.(a_size) = b.(a_size)) && bool_decide (a.(a_url) = b.(a_url))
  && bool_decide (a.(a_url_api) = b.(a_url_api)) && provenance_eqb a.(a_provenance) b.(a_provenance)
  && bool_decide (a.(a_provenance_verified) = b.(a_provenance_verified)).

Fixpoint artifacts_eqb (a b : list ArtifactInfo) : bool :=
  match a, b with
  | [], [] => true
  | x :: a', y :: b' => ArtifactInfo_eqb x y && artifacts_eqb a' b'
  | _, _ => false
  end.

(** The derived [PartialEq], of records whose headers are gone. *)
Definition PlatformInfo_eqb (a b : PlatformInfo) : bool :=
  bool_decide (a.(p_install) = b.(p_install)) && bool_decide (a.(p_checksum) = b.(p_checksum))
  && bool_decide (a.(p_checksum_source) = b.(p_checksum_source)) && bool_decide (a.(p_size) = b.(p_size))
  && bool_decide (a.(p_url) = b.(p_url)) && bool_decide (a.(p_url_api) = b.(p_url_api))
  && bool_decide (a.(p_conda_deps) = b.(p_conda_deps)) && provenance_eqb a.(p_provenance) b.(p_provenance)
  && bool_decide (a.(p_provenance_verified) = b.(p_provenance_verified))
  && bool_decide (a.(p_github_attestations) = b.(p_github_attestations))
  && bool_decide (a.(p_signer) = b.(p_signer)) && bool_decide (a.(p_attested_by) = b.(p_attested_by))
  && bool_decide (a.(p_repository_id) = b.(p_repository_id))
  && bool_decide (a.(p_repository_owner_id) = b.(p_repository_owner_id))
  && artifacts_eqb a.(p_additional_artifacts) b.(p_additional_artifacts).

Definition ArtifactInfo_without_size (a : ArtifactInfo) : ArtifactInfo :=
  mkArtifactInfo a.(a_checksum) a.(a_checksum_source) None a.(a_url) a.(a_url_api) a.(a_provenance)
    a.(a_provenance_verified).

(** [persisted] of [same_persisted_data]. *)
Definition persisted (i : PlatformInfo) : PlatformInfo :=
  mkPlatformInfo i.(p_install) i.(p_checksum) i.(p_checksum_source) None i.(p_url) i.(p_url_api) None
    i.(p_conda_deps) i.(p_provenance) i.(p_provenance_verified) i.(p_github_attestations) i.(p_signer)
    i.(p_attested_by) i.(p_repository_id) i.(p_repository_owner_id)
    (map ArtifactInfo_without_size i.(p_additional_artifacts)).

Definition same_persisted_data (self other : PlatformInfo) : bool := PlatformInfo_eqb (persisted self) (persisted other).

Definition without_artifact_data (i : PlatformInfo) : PlatformInfo :=
  mkPlatformInfo i.(p_install) None None None None None None i.(p_conda_deps) None None None
    i.(p_signer) i.(p_attested_by) i.(p_repository_id) i.(p_repository_owner_id) [].

Definition has_checksum_and_provenance (i : PlatformInfo) : bool := is_some i.(p_checksum) && is_some i.(p_provenance).

Definition is_pinned_without_url (i : PlatformInfo) : bool := is_none i.(p_url) && is_some i.(p_checksum).

Definition pin_checksum (i : PlatformInfo) : option str :=
  if is_none i.(p_checksum_source) then i.(p_checksum) else None.

(** Whether two URLs are known and differ. *)
Definition url_changed (self other : PlatformInfo) : bool :=
  is_some self.(p_url) && is_some other.(p_url) && negb (bool_decide (self.(p_url) = other.(p_url))).

Definition install_changed (self other : PlatformInfo) : bool :=
  is_some self.(p_install) && negb (bool_decide (self.(p_install) = other.(p_install))).

Definition artifact_changed (self other : PlatformInfo) : bool :=
  url_changed self other || install_changed self other
  || (is_some self.(p_url) && bool_decide (other.(p_install) = Some u!"source")).

Definition merged_install (self other : PlatformInfo) : option str :=
  or_else self.(p_install) (if is_some self.(p_url) then None else other.(p_install)).

Definition PlatformInfo_merge_with (self other : PlatformInfo) : PlatformInfo :=
  let changed := artifact_changed self other in
  let checksum :=
    if changed then (self.(p_checksum), self.(p_checksum_source))
    else kept_checksum self.(p_checksum) self.(p_checksum_source) other.(p_checksum) other.(p_checksum_source) in
  let provenance := kept_provenance (changed || checksum_changed other.(p_checksum) self.(p_checksum))
    self.(p_provenance) self.(p_provenance_verified) other.(p_provenance) other.(p_provenance_verified) in
  {| p_download_headers := None;
     p_install := merged_install self other;
     p_checksum := checksum.1;
     p_checksum_source := checksum.2;
     p_size := if changed then self.(p_size) else or_else self.(p_size) other.(p_size);
     p_url := if changed then self.(p_url) else or_else self.(p_url) other.(p_url);
     p_url_api := if changed then self.(p_url_api) else or_else self.(p_url_api) other.(p_url_api);
     p_conda_deps := or_else self.(p_conda_deps) other.(p_conda_deps);
     p_provenance := provenance.1;
     p_provenance_verified := provenance.2;
     p_github_attestations := None;
     p_signer := or_else self.(p_signer) other.(p_signer);
     p_attested_by := if is_some self.(p_signer) then self.(p_attested_by) else other.(p_attested_by);
     p_repository_id := if is_some self.(p_signer) then self.(p_repository_id) else other.(p_repository_id);
     p_repository_owner_id :=
       if is_some self.(p_signer) then self.(p_repository_owner_id) else other.(p_repository_owner_id);
     p_additional_artifacts :=
       if changed then self.(p_additional_artifacts)
       else merge_additional_artifacts self.(p_additional_artifacts) other.(p_additional_artifacts) |}.

(** [merged] of [set_platform_info]: the record that replaces [existing]. *)
Definition updated_platform_info (platform_info existing : PlatformInfo) : PlatformInfo :=
  let source_to_url := is_some platform_info.(p_url) && is_none platform_info.(p_install)
                       && bool_decide (existing.(p_install) = Some u!"source") in
  let preserve := negb (url_changed platform_info existing) && negb (install_changed platform_info existing)
                  && negb source_to_url in
  let same_bytes := negb (checksum_changed existing.(p_checksum) platform_info.(p_checksum)) in
  let provenance := kept_provenance (negb (preserve && same_bytes))
    platform_info.(p_provenance) platform_info.(p_provenance_verified)
    existing.(p_provenance) existing.(p_provenance_verified) in
  let keep {A} (new old : option A) : option A := or_else new (if preserve then old else None) in
  {| p_download_headers := None;
     p_install := merged_install platform_info existing;
     p_checksum_source :=
       if is_some platform_info.(p_checksum)
       then from_option_or
              (if preserve
               then same_checksum_source platform_info.(p_checksum) platform_info.(p_checksum_source)
                      existing.(p_checksum) existing.(p_checksum_source)
               else None)
              platform_info.(p_checksum_source)
       else if preserve then existing.(p_checksum_source) else None;
     p_checksum := keep platform_info.(p_checksum) existing.(p_checksum);
     p_size := keep platform_info.(p_size) existing.(p_size);
     p_url := keep platform_info.(p_url) existing.(p_url);
     p_url_api := keep platform_info.(p_url_api) existing.(p_url_api);
     p_conda_deps := platform_info.(p_conda_deps);
     p_provenance := provenance.1;
     p_provenance_verified := provenance.2;
     p_github_attestations := None;
     p_attested_by := if is_some platform_info.(p_signer) then platform_info.(p_attested_by) else existing.(p_attested_by);
     p_repository_id :=
       if is_some platform_info.(p_signer) then platform_info.(p_repository_id) else existing.(p_repository_id);
     p_repository_owner_id :=
       if is_some platform_info.(p_signer) then platform_info.(p_repository_owner_id) else existing.(p_repository_owner_id);
     p_signer := or_else platform_info.(p_signer) existing.(p_signer);
     p_additional_artifacts :=
       if preserve then merge_additional_artifacts platform_info.(p_additional_artifacts) existing.(p_additional_artifacts)
       else platform_info.(p_additional_artifacts) |}.

(** ** Platforms *)

Record Platform := mkPlatform { os : str; arch : str; qualifier : option str }.

#[export] Instance Platform_eq_dec : EqDecision Platform.
Proof. solve_decision. Defined.

(** [Platform::parse], [None] for its error. *)
Definition Platform_parse (platform_str : str) : option Platform :=
  match split_on (N.eqb c!"-") platform_str with
  | [] | [_] => None
  | [os; arch] => Some (mkPlatform os arch None)
  | os :: arch :: rest => Some (mkPlatform os arch (Some (join u!"-" rest)))
  end.

Definition to_key (p : Platform) : str :=
  match p.(qualifier) with
  | Some qualifier => p.(os) ++ u!"-" ++ p.(arch) ++ u!"-" ++ qualifier
  | None => p.(os) ++ u!"-" ++ p.(arch)
  end.
