(* ===== verification/LockInfoSpec.v ===== *)
(** * What the merges of artifact data promise

    Provenance vouches for bytes: it is carried over only where the other record may name the same
    artifact, it is then never lowered, and recording the same resolution twice changes nothing. The
    examples at the end are where the comments of the code say more than it does. *)

From S2P Require Import Prelude RustStr LockInfo.

(** ** Text *)

Lemma eq_ignore_ascii_case_spec a b :
  eq_ignore_ascii_case a b = true <-> map to_ascii_lowercase a = map to_ascii_lowercase b.
Proof.
  revert b. induction a as [|x a IH]; intros [|y b]; simpl; try done. rewrite andb_true_iff, N.eqb_eq, IH. split.
  - by intros [-> ->].
  - intros E. injection E as E1 E2. done.
Qed.

Lemma is_sha256_label cs : is_sha256 cs = true <-> exists h, split_once c!":" cs = Some (u!"sha256", h).
Proof.
  unfold is_sha256. rewrite starts_with_spec. split.
  - intros [h ->]. exists h. change (u!"sha256:" ++ h) with (u!"sha256" ++ c!":" :: h).
    apply split_once_app. apply (bool_decide_unpack _). reflexivity.
  - intros [h [-> _]%split_once_Some]. by exists h.
Qed.

(** ** Provenance *)

Definition level (p : option ProvenanceType) : N := match p with Some p => ordinal p | None => 0 end.

Lemma provenance_lt_level a b : provenance_lt a b = (level a <? level b)%N.
Proof.
  destruct a as [a|], b as [b|]; simpl; [|by destruct a|by destruct b|done].
  unfold ProvenanceType_cmp. destruct (N.compare_spec (ordinal a) (ordinal b)), (N.ltb_spec (ordinal a) (ordinal b)); done || lia.
Qed.

Lemma ProvenanceType_merge_ordinal a b : ordinal (ProvenanceType_merge a b) = N.max (ordinal a) (ordinal b).
Proof. by destruct a, b. Qed.

Lemma ProvenanceType_merge_idemp a : ProvenanceType_merge a a = a.
Proof. destruct a as [| |[u|]|]; done. Qed.

Lemma ProvenanceType_merge_again a b : ProvenanceType_merge a (ProvenanceType_merge a b) = ProvenanceType_merge a b.
Proof. destruct a as [| |[u|]|], b as [| |[w|]|]; done. Qed.

Lemma merge_provenance_level p v p' v' : level (merge_provenance_state p v p' v').1 = N.max (level p) (level p').
Proof. destruct p as [p|], p' as [p'|]; simpl; rewrite ?ProvenanceType_merge_ordinal; lia. Qed.

Lemma merge_provenance_idemp p v : merge_provenance_state p v p v = (p, v).
Proof. destruct p as [p|], v; simpl; rewrite ?ProvenanceType_merge_idemp; done. Qed.

Lemma merge_provenance_again p v p' v' :
  let m := merge_provenance_state p v p' v' in merge_provenance_state p v m.1 m.2 = m.
Proof.
  destruct p as [p|], p' as [p'|]; simpl; rewrite ?ProvenanceType_merge_again, ?ProvenanceType_merge_idemp; destruct v; done.
Qed.

(** The label of the hash algorithm is in lower case. *)
Definition label_lower (cs : option str) : Prop :=
  forall algo h, cs ≫= split_once c!":" = Some (algo, h) -> map to_ascii_lowercase algo = algo.

Lemma changed_keeps_mine mine my_source theirs their_source :
  label_lower mine -> checksum_changed theirs mine = true -> (prefer_checksum mine my_source theirs their_source).1 = mine.
Proof.
  intros Hl. unfold checksum_changed, prefer_checksum.
  destruct theirs as [t|]; simpl; [|done]. destruct mine as [m|]; simpl; [|by destruct (split_once _ _) as [[]|]].
  destruct (split_once c!":" t) as [[ta th]|] eqn:Et; [|done].
  destruct (split_once c!":" m) as [[ma mh]|] eqn:Em; [|done].
  intros [Ha%eq_ignore_ascii_case_spec _]%andb_true_iff.
  destruct (is_sha256 t) eqn:Ht; [|done]. apply is_sha256_label in Ht as [h Ht]. rewrite Et in Ht. injection Ht as -> ->.
  assert (is_sha256 m = true) as ->; [|done]. apply is_sha256_label. exists mh. rewrite Em. do 2 f_equal.
  rewrite <- (Hl ma mh Em), <- Ha. reflexivity.
Qed.

(** Whether another record may describe the same bytes as this one. *)
Definition same_artifact (self other : PlatformInfo) : bool :=
  negb (artifact_changed self other) && negb (checksum_changed other.(p_checksum) self.(p_checksum)).

(** What [set_platform_info] regards as the same artifact. *)
Definition kept_artifact (new existing : PlatformInfo) : bool :=
  negb (url_changed new existing) && negb (install_changed new existing)
  && negb (is_some new.(p_url) && is_none new.(p_install) && bool_decide (existing.(p_install) = Some u!"source")).

(** The parts of a record that belong to one artifact. *)
Definition artifact_data (i : PlatformInfo) :=
  (i.(p_checksum), i.(p_size), i.(p_url), i.(p_url_api), i.(p_provenance), i.(p_provenance_verified),
   i.(p_additional_artifacts)).

(** C15. Provenance follows the bytes: when two records of a platform are merged, on reading the
    lockfile's entries ([merge_with]) or on recording a resolution ([set_platform_info]), nothing that
    belongs to the other record's artifact is carried over once it is another one (the URL or the kind
    of installation changed); where the checksums name other bytes, the provenance of the other record
    is dropped and the checksum kept is the one that provenance was recorded with; otherwise the
    provenance of the result is the higher of the two, so it is never lowered. Labels of checksums are
    taken to be in lower case. *)
Theorem provenance_follows_bytes (self other : PlatformInfo) :
  label_lower self.(p_checksum) ->
  let merged := PlatformInfo_merge_with self other in
  let updated := updated_platform_info self other in
  (artifact_changed self other = true -> artifact_data merged = artifact_data self) /\
  (kept_artifact self other = false -> artifact_data updated = artifact_data self) /\
  (checksum_changed other.(p_checksum) self.(p_checksum) = true ->
     (p_checksum merged, p_provenance merged, p_provenance_verified merged)
       = (p_checksum self, p_provenance self, p_provenance_verified self) /\
     (p_checksum updated, p_provenance updated, p_provenance_verified updated)
       = (p_checksum self, p_provenance self, p_provenance_verified self)) /\
  (same_artifact self other = true ->
     level (p_provenance merged) = N.max (level (p_provenance self)) (level (p_provenance other))) /\
  (kept_artifact self other = true -> checksum_changed other.(p_checksum) self.(p_checksum) = false ->
     level (p_provenance updated) = N.max (level (p_provenance self)) (level (p_provenance other))).
Proof.
  intros Hl merged updated. subst merged updated. unfold PlatformInfo_merge_with, updated_platform_info, same_artifact.
  fold (kept_artifact self other). split_and!.
  - intros ->. done.
  - intros ->. simpl. unfold artifact_data; simpl. destruct (p_checksum self), (p_size self), (p_url self), (p_url_api self); done.
  - intros Hc. rewrite Hc. rewrite orb_true_r, andb_false_r. simpl. split.
    + destruct (artifact_changed self other); [done|].
      pose proof (changed_keeps_mine _ (p_checksum_source self) _ (p_checksum_source other) Hl Hc) as Hk.
      unfold kept_checksum. destruct (prefer_checksum _ _ _ _) as [cs src]. simpl in *. by rewrite Hk.
    + unfold checksum_changed in Hc. destruct (p_checksum self); [done|].
      destruct (p_checksum other ≫= _) as [[]|]; done.
  - intros [Ha Hc]%andb_true_iff. apply negb_true_iff in Ha as ->, Hc as ->. simpl. apply merge_provenance_level.
  - intros -> ->. simpl. apply merge_provenance_level.
Qed.

(** A locked artifact replaced under its URL: nothing of the provenance of the old bytes is left. *)
Lemma provenance_follows_bytes_witness :
  let old := mkPlatformInfo None (Some u!"sha256:aa") None None (Some u!"https://h/a") None None None
               (Some GithubAttestations) (Some true) None None None None None [] in
  let new := mkPlatformInfo None (Some u!"sha256:bb") None None (Some u!"https://h/a") None None None
               None None None None None None None [] in
  p_provenance (PlatformInfo_merge_with new old) = None /\ p_checksum (updated_platform_info new old) = Some u!"sha256:bb".
Proof.
  intros old new. destruct (provenance_follows_bytes new old) as (_ & _ & H & _).
  - intros algo h. vm_compute. by intros [= <- <-].
  - destruct (H eq_refl) as [E1 E2]. split; [exact (f_equal (fun x => x.1.2) E1)|exact (f_equal (fun x => x.1.1) E2)].
Defined.

(** ** Recording a resolution again *)

Lemma or_else_again {A} (a b : option A) : or_else a (or_else a b) = or_else a b.
Proof. by destruct a. Qed.

Lemma checksum_changed_self cs : checksum_changed cs cs = false.
Proof.
  unfold checksum_changed. destruct (cs ≫= _) as [[algo h]|]; [|done].
  by rewrite !eq_ignore_ascii_case_refl.
Qed.

Lemma kept_checksum_again mine s theirs s' :
  let k := kept_checksum mine s theirs s' in kept_checksum mine s k.1 k.2 = k.
Proof.
  unfold kept_checksum, same_checksum_source.
  destruct mine as [m|], theirs as [t|]; simpl; [|rewrite andb_negb_r; simpl; rewrite bool_decide_true by done|done..].
  - destruct (is_sha256 t && negb (is_sha256 m)) eqn:E; simpl.
    + rewrite bool_decide_false; simpl; [by rewrite E|].
      intros [= ->]. by rewrite andb_negb_r in E.
    + rewrite andb_negb_r, (bool_decide_true (Some m = Some m)) by done. simpl.
      case_bool_decide; destruct s as [[]|], s' as [[]|]; done.
  - by destruct s as [[]|].
Qed.

Lemma kept_provenance_again alone p v p' v' :
  let k := kept_provenance alone p v p' v' in
  kept_provenance false p v k.1 k.2 = k.
Proof. destruct alone; simpl; [apply merge_provenance_idemp|apply merge_provenance_again]. Qed.

(** The checksum kept names no other bytes than this side's, or is this side's. *)
Lemma kept_checksum_unchanged mine s theirs s' :
  checksum_changed (kept_checksum mine s theirs s').1 mine = true -> checksum_changed theirs mine = true.
Proof.
  unfold kept_checksum, prefer_checksum. destruct mine as [m|], theirs as [t|]; simpl; try done.
  - destruct (_ && _); simpl; [done|]. by rewrite checksum_changed_self.
  - by rewrite checksum_changed_self.
Qed.

(** The second time, the provenance of the result is merged with the same one. *)
Lemma provenance_again mine s theirs s' p v p' v' :
  let cs := kept_checksum mine s theirs s' in
  let k := kept_provenance (checksum_changed theirs mine) p v p' v' in
  kept_provenance (checksum_changed cs.1 mine) p v k.1 k.2 = k.
Proof.
  intros cs k. destruct (checksum_changed cs.1 mine) eqn:E; [|apply kept_provenance_again].
  apply kept_checksum_unchanged in E. subst k. by rewrite E.
Qed.

(** A source is recorded with a checksum only. *)
Definition source_ok (cs : option str) (source : option ChecksumSource) : Prop := cs = None -> source = None.

Lemma kept_checksum_self cs s : source_ok cs s -> kept_checksum cs s cs s = (cs, s).
Proof.
  unfold kept_checksum, same_checksum_source. destruct cs as [cs|]; simpl; [|by intros ->].
  rewrite andb_negb_r, bool_decide_true by done. simpl. by destruct s as [[]|].
Qed.

Lemma or_else_self {A} (a : option A) : or_else a a = a.
Proof. by destruct a. Qed.

Lemma ArtifactInfo_merge_again a b :
  source_ok a.(a_checksum) a.(a_checksum_source) ->
  ArtifactInfo_merge_with a (ArtifactInfo_merge_with a b) = ArtifactInfo_merge_with a b.
Proof.
  intros Hs. unfold ArtifactInfo_merge_with at 2 3. case_bool_decide as Eu; simpl;
    unfold ArtifactInfo_merge_with; rewrite bool_decide_true by done; simpl.
  - by rewrite !or_else_again, kept_checksum_again, provenance_again.
  - rewrite !or_else_self, kept_checksum_self, checksum_changed_self by done. unfold kept_provenance.
    rewrite merge_provenance_idemp. by destruct a.
Qed.

Lemma ArtifactInfo_merge_self a :
  source_ok a.(a_checksum) a.(a_checksum_source) -> ArtifactInfo_merge_with a a = a.
Proof.
  intros Hs. unfold ArtifactInfo_merge_with. rewrite bool_decide_true by done. simpl.
  rewrite !or_else_self, kept_checksum_self, checksum_changed_self by done. unfold kept_provenance.
  rewrite merge_provenance_idemp. by destruct a.
Qed.

Lemma merge_additional_again l l' :
  Forall (fun a => source_ok a.(a_checksum) a.(a_checksum_source)) l ->
  merge_additional_artifacts l (merge_additional_artifacts l l') = merge_additional_artifacts l l'.
Proof.
  intros HF. revert l'. induction HF as [|a l Ha HF IH]; intros [|b l']; simpl; try done.
  - rewrite ArtifactInfo_merge_self by done. f_equal. specialize (IH []).
    by destruct l.
  - by rewrite ArtifactInfo_merge_again, IH.
Qed.

Lemma merge_additional_self l :
  Forall (fun a => source_ok a.(a_checksum) a.(a_checksum_source)) l -> merge_additional_artifacts l l = l.
Proof. induction 1 as [|a l Ha _ IH]; simpl; [done|]. by rewrite ArtifactInfo_merge_self, IH. Qed.

(** Recording the same resolution again is seen as the same artifact. *)
Lemma kept_artifact_again new existing : kept_artifact new (updated_platform_info new existing) = true.
Proof.
  unfold kept_artifact, url_changed, install_changed, updated_platform_info, merged_install. simpl.
  destruct (p_url new) as [u|], (p_install new) as [n|]; simpl; rewrite ?bool_decide_true by done; simpl;
    rewrite ?andb_false_r, ?bool_decide_true by done; done.
Qed.

Lemma or_else_changed a b : checksum_changed (or_else a b) a = false.
Proof.
  destruct a as [a|]; [apply checksum_changed_self|]. unfold checksum_changed. simpl. by destruct (b ≫= _) as [[]|].
Qed.

Lemma same_source_again c (s x : option ChecksumSource) o :
  let y := from_option_or (same_checksum_source (Some c) s o x) s in
  from_option_or (same_checksum_source (Some c) s (Some c) y) s = y.
Proof.
  unfold same_checksum_source. simpl. rewrite (bool_decide_true (Some c = Some c)) by done. simpl.
  case_bool_decide; destruct s as [[]|], x as [[]|]; done.
Qed.

(** Locking is idempotent: a resolution that has been merged into the record of a platform by
    [set_platform_info] changes nothing when it is merged again, whatever the record was before:
    no field alternates between two values from one run to the next. *)
Theorem updated_again new existing :
  source_ok new.(p_checksum) new.(p_checksum_source) ->
  Forall (fun a => source_ok a.(a_checksum) a.(a_checksum_source)) new.(p_additional_artifacts) ->
  updated_platform_info new (updated_platform_info new existing) = updated_platform_info new existing.
Proof.
  intros Hs Ha. pose proof (kept_artifact_again new existing) as Hk.
  remember (updated_platform_info new existing) as once eqn:Eo.
  unfold updated_platform_info. fold (kept_artifact new once). rewrite Hk. simpl. clear Hk.
  transitivity (updated_platform_info new existing); [|done]. unfold updated_platform_info.
  fold (kept_artifact new existing). simpl. f_equal; rewrite Eo; unfold updated_platform_info;
    fold (kept_artifact new existing); simpl; destruct (kept_artifact new existing); rewrite ?or_else_again; try done.
  all: try (unfold merged_install; simpl; destruct (p_install new), (p_url new); done).
  all: try (destruct (p_signer new); done).
  all: try (by rewrite merge_additional_again).
  all: try (by rewrite merge_additional_self).
  all: try (rewrite or_else_changed; first [exact (f_equal fst (kept_provenance_again _ _ _ _ _))
                                           |exact (f_equal snd (kept_provenance_again _ _ _ _ _))]).
  all: destruct (p_checksum new) as [c|]; simpl; try done.
  - apply same_source_again.
  - unfold same_checksum_source. simpl. rewrite bool_decide_true by done. by destruct (p_checksum_source new) as [[]|].
Qed.

Lemma updated_again_example :
  let old := mkPlatformInfo (Some u!"source") (Some u!"blake3:aa") (Some VersionsHost) (Some 7%N) None None None None
               (Some (Slsa None)) None None (Some u!"me") None None None [] in
  let new := mkPlatformInfo None None None None (Some u!"https://h/a") None None None
               (Some (Slsa (Some u!"https://h/p"))) None None None None None None [] in
  updated_platform_info new (updated_platform_info new old) = updated_platform_info new old.
Proof. intros old new. apply (updated_again new old); [done|constructor]. Defined.

(** ** Platforms *)

(** A platform that [parse] can give. *)
Definition platform_ok (p : Platform) : Prop := (c!"-" ∉ p.(os)) /\ (c!"-" ∉ p.(arch)).

Lemma parse_to_key s p : Platform_parse s = Some p -> to_key p = s /\ platform_ok p.
Proof.
  unfold Platform_parse. pose proof (split_on_pieces c!"-" s) as HF. pose proof (join_split_on c!"-" s) as HJ.
  destruct (split_on (N.eqb c!"-") s) as [|o [|a [|q rest]]]; try done; intros [= <-];
    apply Forall_cons in HF as [Ho HF]; apply Forall_cons in HF as [Ha _]; (split; [|by split]); rewrite <- HJ; done.
Qed.

(** Platform keys read back, in one way: [to_key] of what [parse] gives for a text is that text, and
    every platform whose system and architecture have no hyphen is what [parse] gives for its key,
    however many hyphens its qualifier has. *)
Theorem platform_round_trip :
  (forall s p, Platform_parse s = Some p -> to_key p = s /\ platform_ok p) /\
  (forall p, platform_ok p -> Platform_parse (to_key p) = Some p).
Proof.
  split.
  - apply parse_to_key.
  - intros [o a q] [Ho Ha]. simpl in *. unfold Platform_parse, to_key. simpl.
    destruct q as [q|]; simpl.
    + rewrite split_on_head, split_on_head by done. pose proof (join_split_on c!"-" q) as HJ.
      destruct (split_on _ q) as [|p l] eqn:E; [by apply split_on_nonempty in E|]. by rewrite HJ.
    + by rewrite split_on_head, split_on_none by done.
Qed.

(** ** Where the comments say more *)

(** A checksum whose algorithm is not spelled in lower case: [checksum_changed] compares the labels
    without case, the preference for [sha256:] does not, and the provenance recorded with one
    checksum ends up beside the other checksum. *)
Lemma upper_case_label :
  let old := mkPlatformInfo None (Some u!"sha256:bb") None None (Some u!"https://h/a") None None None
               None None None None None None None [] in
  let new := mkPlatformInfo None (Some u!"SHA256:aa") None None (Some u!"https://h/a") None None None
               (Some GithubAttestations) None None None None None None [] in
  let merged := PlatformInfo_merge_with new old in
  checksum_changed old.(p_checksum) new.(p_checksum) = true /\
  p_checksum merged = p_checksum old /\ p_provenance merged = p_provenance new.
Proof. vm_compute. done. Qed.

(** The URL of a SLSA provenance is written to the lockfile, and is no difference for
    [same_persisted_data]. *)
Lemma slsa_url_ignored :
  let record url := mkPlatformInfo None None None None None None None None (Some (Slsa (Some url))) None None
                      None None None None [] in
  same_persisted_data (record u!"https://h/a") (record u!"https://h/b") = true /\
  record u!"https://h/a" <> record u!"https://h/b".
Proof. split; [reflexivity|discriminate]. Qed.
