(* ===== verification/Platforms.v ===== *)
(** * Platforms ([crates/mise-util/src/platform.rs], the accessors of [crates/mise-settings]) and the
    platforms that a lockfile is filled for ([src/lockfile.rs])

    A [BTreeSet<Platform>] is the strictly sorted list of its elements. What the host is (its files,
    the target of the compiler) is an argument. *)

From S2P Require Import Prelude RustStr Order LockInfo.
From Stdlib Require Import Sorted.

(** ** Names *)

Definition normalize_os (os : str) : str :=
  if bool_decide (os ∈ [u!"darwin"; u!"macos"]) then u!"macos"
  else if bool_decide (os ∈ [u!"windows"; u!"win"]) then u!"windows" else os.

Definition normalize_arch (arch : str) : str :=
  if bool_decide (arch ∈ [u!"x86_64"; u!"amd64"; u!"x64"]) then u!"x64"
  else if bool_decide (arch ∈ [u!"aarch64"; u!"arm64"]) then u!"arm64" else arch.

(** The settings [os], [arch] and [libc] and the constants of the build they default to. *)
Definition settings_os (setting : option str) (OS : str) : str :=
  let os := from_option_or setting OS in
  if bool_decide (os ∈ [u!"darwin"; u!"macos"]) then u!"macos" else os.

Definition settings_arch (setting : option str) (ARCH : str) : str :=
  let arch := from_option_or setting ARCH in
  if bool_decide (arch ∈ [u!"x86_64"; u!"amd64"]) then u!"x64"
  else if bool_decide (arch ∈ [u!"aarch64"; u!"arm64"]) then u!"arm64" else arch.

Definition settings_libc (setting : option str) : option str :=
  setting ≫= fun s =>
    let s := map to_ascii_lowercase s in
    if bool_decide (s ∈ [u!"glibc"; u!"gnu"]) then Some u!"gnu"
    else if bool_decide (s = u!"musl") then Some u!"musl" else None.

(** ** Platforms *)

Definition current (os arch : str) (libc : option str) (is_musl_system : bool) : Platform :=
  let qualifier :=
    if bool_decide (os = u!"linux") then
      if bool_decide (libc = Some u!"musl") then Some u!"musl"
      else if bool_decide (libc = Some u!"gnu") then None
      else if is_musl_system then Some u!"musl" else None
    else None in
  mkPlatform os arch qualifier.

Definition libc (p : Platform) : option str :=
  p.(qualifier) ≫= fun q =>
    head (omap (fun part => if bool_decide (part ∈ [u!"gnu"; u!"glibc"]) then Some u!"gnu"
                            else if bool_decide (part = u!"musl") then Some u!"musl" else None)
            (split_on (N.eqb c!"-") q)).

Inductive PlatformError : Type :=
| InvalidFormat (text : str)
| UnsupportedOs (os : str)
| UnsupportedArch (arch : str)
| UnsupportedQualifier (qualifier : str).

Definition validate (p : Platform) : result PlatformError unit :=
  if negb (bool_decide (p.(os) ∈ [u!"linux"; u!"macos"; u!"windows"; u!"android"])) then Err (UnsupportedOs p.(os))
  else if negb (bool_decide (p.(arch) ∈ [u!"x64"; u!"arm64"; u!"x86"; u!"loongarch64"; u!"riscv64"]))
  then Err (UnsupportedArch p.(arch))
  else match p.(qualifier) with
       | Some q =>
           if bool_decide (q ∈ [u!"gnu"; u!"glibc"; u!"musl"; u!"msvc"; u!"baseline"; u!"musl-baseline"]) then Ok tt
           else Err (UnsupportedQualifier q)
       | None => Ok tt
       end.

(** The derived order. *)
Definition platform_fields (p : Platform) : str * (str * option str) := (p.(os), (p.(arch), p.(qualifier))).

Definition platform_cmp (a b : Platform) : comparison :=
  pair_cmp str_cmp (pair_cmp str_cmp (option_cmp str_cmp)) (platform_fields a) (platform_fields b).

#[export] Instance platform_fields_inj : Inj (=) (=) platform_fields.
Proof. by intros [] [] [= -> -> ->]. Qed.

#[export] Instance platform_cmp_order : CmpOrder platform_cmp.
Proof. exact (cmp_order_by (pair_cmp str_cmp (pair_cmp str_cmp (option_cmp str_cmp))) platform_fields). Qed.

(** [Vec::dedup] *)
Fixpoint dedup (l : list Platform) : list Platform :=
  match l with
  | p :: ((q :: _) as l') => if bool_decide (p = q) then dedup l' else p :: dedup l'
  | l => l
  end.

Fixpoint parse_all (platform_strings : list str) : result PlatformError (list Platform) :=
  match platform_strings with
  | [] => Ok []
  | s :: rest =>
      match Platform_parse s with
      | None => Err (InvalidFormat s)
      | Some p => let? _ := validate p in let? ps := parse_all rest in Ok (p :: ps)
      end
  end.

Definition parse_multiple (platform_strings : list str) : result PlatformError (list Platform) :=
  let? platforms := parse_all platform_strings in
  Ok (dedup (sort_by platform_cmp platforms)).

Definition common_platforms : list Platform :=
  [mkPlatform u!"linux" u!"x64" None; mkPlatform u!"linux" u!"x64" (Some u!"musl");
   mkPlatform u!"linux" u!"arm64" None; mkPlatform u!"linux" u!"arm64" (Some u!"musl");
   mkPlatform u!"macos" u!"x64" None; mkPlatform u!"macos" u!"arm64" None; mkPlatform u!"windows" u!"x64" None].

Definition is_windows (p : Platform) : bool := bool_decide (p.(os) = u!"windows").
Definition is_macos (p : Platform) : bool := bool_decide (p.(os) = u!"macos").
Definition is_linux (p : Platform) : bool := bool_decide (p.(os) = u!"linux").

(** ** The platforms of a lockfile *)

(** The setting [lockfile_platforms]: an empty list counts as none. *)
Definition lockfile_platforms (setting : option (list str)) : result PlatformError (option (list Platform)) :=
  match setting with
  | Some (s :: rest) => let? ps := parse_multiple (s :: rest) in Ok (Some ps)
  | _ => Ok None
  end.

Definition is_ok {E A} (m : result E A) : bool := match m with Ok _ => true | _ => false end.

(** The platforms of the keys that name a supported one. *)
Definition platforms_of_keys (keys : gset str) : list Platform :=
  cmp_set_of platform_cmp (omap (fun key => Platform_parse key ≫= fun p => if is_ok (validate p) then Some p else None) (key_order keys)).

Definition determine_target_platforms_from_lockfile (setting : option (list str)) (current : Platform)
    (pre_install_keys : gset str) : result PlatformError (list Platform) :=
  let? configured := lockfile_platforms setting in
  match configured with
  | Some configured => Ok (cmp_insert platform_cmp current (cmp_set_of platform_cmp configured))
  | None =>
      match platforms_of_keys pre_install_keys with
      | [] => Ok (cmp_insert platform_cmp current (cmp_set_of platform_cmp common_platforms))
      | platforms => Ok (cmp_insert platform_cmp current platforms)
      end
  end.

(** [existing_keys] are those of the lockfile where it can be read. *)
Definition determine_existing_platforms (setting : option (list str)) (current : Platform)
    (existing_keys : option (gset str)) : result PlatformError (list Platform) :=
  let? configured := lockfile_platforms setting in
  match configured with
  | Some configured => Ok (cmp_insert platform_cmp current (cmp_set_of platform_cmp configured))
  | None =>
      match platforms_of_keys (from_option_or existing_keys ∅) with
      | [] => Ok (cmp_insert platform_cmp current (cmp_set_of platform_cmp common_platforms))
      | platforms => Ok platforms
      end
  end.

(** ** The release file of a Linux host *)

(** The text of a quoted value after its quote. *)
Fixpoint quoted_text (quote : char) (s : str) : str :=
  match s with
  | [] => []
  | ch :: s' =>
      if (ch =? quote)%N then []
      else if (quote =? 34)%N && (ch =? c!"\")%N then
        match s' with
        | next :: s'' => next :: quoted_text quote s''
        | [] => []
        end
      else ch :: quoted_text quote s'
  end.

Definition parse_os_release_value (value : str) : str :=
  match value with
  | q :: rest => if one_of [34%N; c!"'"] q then quoted_text q rest else value
  | [] => value
  end.

Record LinuxOsRelease := mkLinuxOsRelease { id : str; version_id : str; id_like : list str }.

(** [split_whitespace] *)
Definition split_whitespace (s : str) : list str := List.filter (fun w => negb (bool_decide (w = []))) (split_on is_whitespace s).

(** The assignments of the file, a later one of a name replaces an earlier one. *)
Definition os_release_values (content : str) : gmap str str :=
  foldl (fun values line =>
    let line := trim line in
    match line with
    | [] => values
    | c :: _ =>
        if (c =? c!"#")%N then values
        else match split_once c!"=" line with
             | Some (key, value) => <[trim key := parse_os_release_value (trim value)]> values
             | None => values
             end
    end) ∅ (lines content).

Definition LinuxOsRelease_parse (content : str) : option LinuxOsRelease :=
  let values := os_release_values content in
  (fun id => mkLinuxOsRelease id (from_option_or (values !! u!"VERSION_ID") [])
               (split_whitespace (from_option_or (values !! u!"ID_LIKE") []))) <$> values !! u!"ID".

Definition ids (r : LinuxOsRelease) : list str := r.(id) :: r.(id_like).

Definition linux_os_release_is_musl (r : LinuxOsRelease) : bool :=
  existsb (fun i => bool_decide (i ∈ [u!"alpine"; u!"postmarketos"; u!"chimera"])) (ids r).

(** The C library of a Linux host: its release file, whether a directory has a file whose name starts
    with a text, and the target of the build. *)
Definition detect_libc (linux_os_release : option LinuxOsRelease) (has_file_prefix : str -> str -> bool) (target_env : str)
    : option str :=
  let has prefix := existsb (fun dir => has_file_prefix dir prefix) [u!"/lib"; u!"/lib64"] in
  if match linux_os_release with Some r => linux_os_release_is_musl r | None => false end then Some u!"musl"
  else if has u!"ld-linux-" then Some u!"gnu"
  else if has u!"ld-musl-" then Some u!"musl"
  else if bool_decide (target_env = u!"musl") then Some u!"musl"
  else if bool_decide (target_env = u!"gnu") then Some u!"gnu"
  else None.

Definition is_musl_system (libc : option str) : bool := bool_decide (libc = Some u!"musl").

(** ** The platforms asked for *)

Lemma dedup_elem p l : p ∈ dedup l <-> p ∈ l.
Proof.
  induction l as [|q l IH]; [done|]. destruct l as [|r l]; [done|].
  change (p ∈ dedup (q :: r :: l)) with (p ∈ if bool_decide (q = r) then dedup (r :: l) else q :: dedup (r :: l)).
  case_bool_decide as E; [subst r; rewrite IH; set_solver|]. rewrite !elem_of_cons, IH. by rewrite elem_of_cons.
Qed.

Lemma dedup_sorted l : StronglySorted (cmp_le platform_cmp) l -> StronglySorted (cmp_lt platform_cmp) (dedup l).
Proof.
  induction 1 as [|q l Hl IH Hq]; [constructor|]. destruct l as [|r l]; [by repeat constructor|].
  change (dedup (q :: r :: l)) with (if bool_decide (q = r) then dedup (r :: l) else q :: dedup (r :: l)).
  case_bool_decide as E; [done|]. constructor; [done|]. apply Forall_forall. intros z Hz. rewrite dedup_elem in Hz.
  assert (cmp_lt platform_cmp q r) as Hqr.
  { apply Forall_cons in Hq as [Hr _]. unfold cmp_le, cmp_lt in *. destruct (platform_cmp q r) eqn:Ec; [|done|done].
    by apply cmp_eq in Ec. }
  apply elem_of_cons in Hz as [->|Hz]; [done|]. apply StronglySorted_inv in Hl as [_ Hr].
  pose proof (proj1 (Forall_forall _ _) Hr z Hz) as Hrz. unfold cmp_le, cmp_lt in *.
  destruct (platform_cmp r z) eqn:Ec; [apply cmp_eq in Ec as <-; done|by eapply (cmp_trans (cmp := platform_cmp))|done].
Qed.

(** [parse_multiple] sorts and drops duplicates: the set of what it read. *)
Lemma parse_multiple_set texts :
  parse_multiple texts = rmap (cmp_set_of platform_cmp) (parse_all texts).
Proof.
  unfold parse_multiple, rmap. destruct (parse_all texts) as [ps|e|]; [|done..]. simpl. f_equal.
  apply (sorted_unique platform_cmp).
  - apply dedup_sorted, sort_by_sorted, _.
  - apply cmp_set_of_sorted, _.
  - intros p. by rewrite dedup_elem, elem_of_sort_by, (elem_of_cmp_set_of platform_cmp).
Qed.

Definition supported (text : str) (p : Platform) : Prop := Platform_parse text = Some p /\ validate p = Ok tt.

Lemma parse_all_spec texts ps :
  parse_all texts = Ok ps <-> Forall2 supported texts ps.
Proof.
  revert ps. induction texts as [|t texts IH]; intros ps; simpl.
  - split; [intros [= <-]; constructor|by inversion 1].
  - split.
    + destruct (Platform_parse t) as [p|] eqn:Ep; [|done]. simpl. destruct (validate p) as [[]| |] eqn:Ev; [|done..]. simpl.
      destruct (parse_all texts) as [ps'| |] eqn:E; [|done..]. intros [= <-]. constructor; [done|by apply IH].
    + inversion 1 as [|? p ? ps' [Hp Hv] Hps]; subst. rewrite Hp. simpl. rewrite Hv. simpl.
      by rewrite (proj2 (IH ps') Hps).
Qed.

Lemma parse_all_elem texts ps p : parse_all texts = Ok ps -> p ∈ ps <-> exists t, t ∈ texts /\ supported t p.
Proof.
  intros H%parse_all_spec. split.
  - intros (i & Hi)%list_elem_of_lookup. destruct (Forall2_lookup_r _ _ _ _ _ H Hi) as (t & Ht & Hs).
    exists t. split; [by eapply list_elem_of_lookup_2|done].
  - intros (t & (i & Hi)%list_elem_of_lookup & Hs). destruct (Forall2_lookup_l _ _ _ _ _ H Hi) as (q & Hq & Hs').
    assert (q = p) as -> by (destruct Hs, Hs'; congruence). by eapply list_elem_of_lookup_2.
Qed.

Lemma platforms_of_keys_elem keys p : p ∈ platforms_of_keys keys <-> exists key, key ∈ keys /\ supported key p.
Proof.
  unfold platforms_of_keys. rewrite (elem_of_cmp_set_of platform_cmp), list_elem_of_omap.
  split; intros (key & Hk & H); exists key; (split; [by apply elem_of_key_order|]); unfold supported in *.
  - destruct (Platform_parse key) as [q|]; [|done]. simpl in H. destruct (validate q) as [[]| |] eqn:E; [|done..].
    by injection H as ->.
  - destruct H as [-> Hv]. simpl. by rewrite Hv.
Qed.

Lemma validate_fuel p : validate p <> OutOfFuel.
Proof. unfold validate. repeat case_match; done. Qed.

Lemma parse_all_fuel texts : parse_all texts <> OutOfFuel.
Proof.
  induction texts as [|t texts IH]; simpl; [done|]. destruct (Platform_parse t) as [p|]; simpl; [|done].
  pose proof (validate_fuel p). destruct (validate p); simpl; [|done..]. by destruct (parse_all texts).
Qed.

Lemma parse_all_fails texts : (exists e, parse_all texts = Err e) <-> ~ Forall (fun t => exists p, supported t p) texts.
Proof.
  induction texts as [|t texts IH]; simpl.
  - split; [by intros [e He]|intros H; destruct H; constructor].
  - rewrite Forall_cons. destruct (Platform_parse t) as [p|] eqn:Ep; simpl.
    2: { split; [intros _ [[p [Hp _]] _]; congruence|by eexists]. }
    destruct (validate p) as [[]|e|] eqn:Ev; simpl.
    + destruct (parse_all texts) as [ps|e|] eqn:E; simpl.
      * split; [by intros [e He]|]. intros H. destruct H. split; [by exists p|].
        apply parse_all_spec in E. clear IH. induction E; constructor; eauto.
      * split; [intros _ [_ H]; by apply (proj1 IH (ex_intro _ e eq_refl))|by eexists].
      * by apply parse_all_fuel in E.
    + split; [|by eexists]. intros _ [[q [Hq Hv]] _]. congruence.
    + by apply validate_fuel in Ev.
Qed.

Lemma platforms_of_keys_nil keys : platforms_of_keys keys = [] <-> forall key p, key ∈ keys -> ~ supported key p.
Proof.
  split.
  - intros E key p Hk Hs. assert (p ∈ platforms_of_keys keys) as Hp by (apply platforms_of_keys_elem; eauto).
    rewrite E in Hp. by apply elem_of_nil in Hp.
  - intros H. destruct (platforms_of_keys keys) as [|p ps] eqn:E; [done|].
    assert (p ∈ platforms_of_keys keys) as (key & Hk & Hs)%platforms_of_keys_elem by (rewrite E; left).
    by destruct (H key p).
Qed.

(** The platforms that the setting names, else those of the lockfile, else the common ones. *)
Definition asked_for (setting : option (list str)) (keys : gset str) (p : Platform) : Prop :=
  match setting with
  | Some (t :: ts) => exists text, text ∈ t :: ts /\ supported text p
  | _ => (exists key, key ∈ keys /\ supported key p)
         \/ ((forall key q, key ∈ keys -> ~ supported key q) /\ p ∈ common_platforms)
  end.

Definition setting_ok (setting : option (list str)) : Prop :=
  forall texts, setting = Some texts -> Forall (fun t => exists p, supported t p) texts.

Lemma lockfile_platforms_spec setting :
  match lockfile_platforms setting with
  | Ok None => match setting with Some (_ :: _) => False | _ => True end /\ setting_ok setting
  | Ok (Some ps) => exists t ts, setting = Some (t :: ts) /\ setting_ok setting /\
                    forall p, p ∈ ps <-> exists text, text ∈ t :: ts /\ supported text p
  | Err _ => ~ setting_ok setting
  | OutOfFuel => False
  end.
Proof.
  unfold lockfile_platforms. destruct setting as [[|t ts]|]; simpl.
  1, 3: split; [done|]; intros texts [= <-]; constructor.
  rewrite parse_multiple_set. unfold rmap. destruct (parse_all (t :: ts)) as [ps|e|] eqn:E; simpl.
  - exists t, ts. split; [done|]. split.
    + intros texts [= <-]. apply parse_all_spec in E. clear -E. induction E; constructor; eauto.
    + intros p. rewrite (elem_of_cmp_set_of platform_cmp). by apply parse_all_elem.
  - intros H. destruct (proj1 (parse_all_fails (t :: ts))); eauto.
  - by apply parse_all_fuel in E.
Qed.

Lemma common_platforms_set : cmp_set_of platform_cmp common_platforms <> [].
Proof. by vm_compute. Qed.

Lemma cmp_insert_targets cur l p :
  p ∈ cmp_insert platform_cmp cur l <-> p = cur \/ p ∈ l.
Proof. apply (elem_of_cmp_insert platform_cmp). Qed.

(** An automatic lock fills a lockfile for the platforms the setting [lockfile_platforms] names, else
    for those the lockfile already had, else for the common ones, and always for this one too; in order
    and each once. It is an error, and only then, when the setting names a platform that is not
    supported; a key of the lockfile that names none is passed over. *)
Theorem lock_targets (setting : option (list str)) (current : Platform) (keys : gset str) :
  (setting_ok setting ->
     exists ps, determine_target_platforms_from_lockfile setting current keys = Ok ps /\
       StronglySorted (cmp_lt platform_cmp) ps /\ (forall p, p ∈ ps <-> p = current \/ asked_for setting keys p)) /\
  (~ setting_ok setting -> exists e, determine_target_platforms_from_lockfile setting current keys = Err e).
Proof.
  unfold determine_target_platforms_from_lockfile. pose proof (lockfile_platforms_spec setting) as H.
  destruct (lockfile_platforms setting) as [[ps|]|e|]; cbn [rbind].
  - destruct H as (t & ts & -> & Hok & Hps). split; [intros _|done].
    eexists. split; [done|]. split; [apply cmp_insert_sorted, cmp_set_of_sorted; apply _|].
    intros p. by rewrite cmp_insert_targets, (elem_of_cmp_set_of platform_cmp), Hps.
  - destruct H as [Hs Hok]. split; [intros _|done].
    assert (forall p, asked_for setting keys p <-> (exists key, key ∈ keys /\ supported key p)
      \/ ((forall key q, key ∈ keys -> ~ supported key q) /\ p ∈ common_platforms)) as Ha
      by (intros p; by destruct setting as [[|]|]).
    destruct (platforms_of_keys keys) as [|q qs] eqn:E.
    + pose proof (proj1 (platforms_of_keys_nil keys) E) as Hn.
      eexists. split; [done|]. split; [apply cmp_insert_sorted, cmp_set_of_sorted; apply _|].
      intros p. rewrite cmp_insert_targets, (elem_of_cmp_set_of platform_cmp), Ha. split; [tauto|].
      intros [->|[(key & Hk & Hsup)|[_ Hp]]]; auto. by destruct (Hn key p).
    + eexists. split; [done|]. rewrite <- E.
      split; [apply cmp_insert_sorted; [apply _|]; apply cmp_set_of_sorted; apply _|].
      intros p. rewrite cmp_insert_targets, platforms_of_keys_elem, Ha. split; [tauto|].
      intros [->|[Hsup|[Hn _]]]; auto. by rewrite (proj2 (platforms_of_keys_nil keys) Hn) in E.
  - by split; [|eexists].
  - done.
Qed.

(** An explicit lock leaves this platform out where the lockfile names others. *)
Lemma existing_targets keys current p :
  (exists key q, key ∈ keys /\ supported key q) ->
  exists ps, determine_existing_platforms None current (Some keys) = Ok ps /\
    (p ∈ ps <-> exists key, key ∈ keys /\ supported key p).
Proof.
  intros (key & q & Hk & Hs). unfold determine_existing_platforms. simpl.
  destruct (platforms_of_keys keys) as [|r rs] eqn:E; [by destruct (proj1 (platforms_of_keys_nil keys) E key q)|].
  eexists. split; [done|]. rewrite <- E. apply platforms_of_keys_elem.
Qed.

(** ** Values of the release file *)

(** A value in double quotes, with backslashes before quotes and backslashes. *)
Definition quote_value (v : str) : str :=
  [34%N] ++ (v ≫= fun c => if one_of [34%N; c!"\"] c then [c!"\"; c] else [c]) ++ [34%N].

Lemma os_release_quoted v : parse_os_release_value (quote_value v) = v.
Proof.
  unfold parse_os_release_value, quote_value. cbn [app one_of existsb N.eqb Pos.eqb orb].
  induction v as [|c v IH]; [done|]. simpl. unfold one_of in *. cbn [existsb orb] in *.
  destruct (c =? 34)%N eqn:E1; [simpl; by f_equal|]. destruct (c =? 92)%N eqn:E2; simpl.
  - by f_equal.
  - rewrite E1. simpl. rewrite E2. by f_equal.
Qed.
