(* ===== verification/Lockfile.v ===== *)
(** * Lockfiles ([src/lockfile.rs]): entries, lookups, updates, and the merge of lock entries

    A lockfile maps the stored name of a tool to its entries, one per version and options. Native
    dependency graphs ([GraphRef]) are values of any type, which the operations here only carry.
    The name under which a tool is recorded ([state_short]) is an argument, as is the parser of
    semantic versions (the [nodejs_semver] crate) with its order. *)

From S2P Require Import Prelude RustStr LockInfo.

(** The entries of a [BTreeMap] in key order. *)
Definition in_key_order {V} (m : gmap str V) : list (str * V) :=
  omap (fun k => (fun v => (k, v)) <$> m !! k) (key_order (dom m)).

(** ** Data *)

(** A [BTreeMap] of options: the list of its entries in key order, which is all that is read of it. *)
Abbreviation Options := (list (str * str)) (only parsing).

Record PackageProvenance := mkPackageProvenance { repository : str }.

Record LockfileTool (Aube Uv : Type) := mkLockfileTool {
  t_version : str;
  t_backend : option str;
  t_specifiers : gset str;
  t_options : Options;
  t_platforms : gmap str PlatformInfo;
  t_aube : option Aube;
  t_uv : option Uv;
  t_provenance : option PackageProvenance
}.
Arguments mkLockfileTool {Aube Uv} _ _ _ _ _ _ _ _.
Arguments t_version {Aube Uv} _.
Arguments t_backend {Aube Uv} _.
Arguments t_specifiers {Aube Uv} _.
Arguments t_options {Aube Uv} _.
Arguments t_platforms {Aube Uv} _.
Arguments t_aube {Aube Uv} _.
Arguments t_uv {Aube Uv} _.
Arguments t_provenance {Aube Uv} _.

Record CondaPackageInfo := mkCondaPackageInfo { c_url : str; c_checksum : option str }.

(** [LockfileToolKey] and [LockfileEntryKey] *)
Abbreviation ToolKey := (str * Options)%type (only parsing).
Abbreviation EntryKey := (str * str * option str * Options)%type (only parsing).

Record Lockfile (Aube Uv : Type) := mkLockfile {
  lockfile_version : N;
  tools : gmap str (list (LockfileTool Aube Uv));
  conda_packages : gmap str (gmap str CondaPackageInfo);
  entry_lockfile_versions : gmap EntryKey N;
  tool_stubs : gset str
}.
Arguments mkLockfile {Aube Uv} _ _ _ _ _.
Arguments lockfile_version {Aube Uv} _.
Arguments tools {Aube Uv} _.
Arguments conda_packages {Aube Uv} _.
Arguments entry_lockfile_versions {Aube Uv} _.
Arguments tool_stubs {Aube Uv} _.

Definition CURRENT_LOCKFILE_VERSION : N := 4.

Section Lockfile.

Context {Aube Uv : Type} (state_short : str -> str).

#[local] Abbreviation Tool := (LockfileTool Aube Uv).
#[local] Abbreviation Lock := (Lockfile Aube Uv).

Definition tool_key_of (t : Tool) : ToolKey := (t.(t_version), t.(t_options)).

(** ** Updating fields *)

Definition with_specifiers (s : gset str) (t : Tool) : Tool :=
  mkLockfileTool t.(t_version) t.(t_backend) s t.(t_options) t.(t_platforms) t.(t_aube) t.(t_uv) t.(t_provenance).
Definition with_options (o : Options) (t : Tool) : Tool :=
  mkLockfileTool t.(t_version) t.(t_backend) t.(t_specifiers) o t.(t_platforms) t.(t_aube) t.(t_uv) t.(t_provenance).
Definition with_platforms (p : gmap str PlatformInfo) (t : Tool) : Tool :=
  mkLockfileTool t.(t_version) t.(t_backend) t.(t_specifiers) t.(t_options) p t.(t_aube) t.(t_uv) t.(t_provenance).
Definition with_graphs (a : option Aube) (u : option Uv) (t : Tool) : Tool :=
  mkLockfileTool t.(t_version) t.(t_backend) t.(t_specifiers) t.(t_options) t.(t_platforms) a u t.(t_provenance).
Definition with_provenance (p : option PackageProvenance) (t : Tool) : Tool :=
  mkLockfileTool t.(t_version) t.(t_backend) t.(t_specifiers) t.(t_options) t.(t_platforms) t.(t_aube) t.(t_uv) p.
Definition with_tools (ts : gmap str (list Tool)) (l : Lock) : Lock :=
  mkLockfile l.(lockfile_version) ts l.(conda_packages) l.(entry_lockfile_versions) l.(tool_stubs).
Definition with_conda (c : gmap str (gmap str CondaPackageInfo)) (l : Lock) : Lock :=
  mkLockfile l.(lockfile_version) l.(tools) c l.(entry_lockfile_versions) l.(tool_stubs).
Definition with_versions (v : N) (e : gmap EntryKey N) (l : Lock) : Lock :=
  mkLockfile v l.(tools) l.(conda_packages) e l.(tool_stubs).

(** ** Lookups *)

Definition uses_request_bindings (l : Lock) : bool := (0 <? l.(lockfile_version))%N.

Definition tool_key (l : Lock) (short : str) : option str :=
  if is_some (l.(tools) !! state_short short) then Some (state_short short) else None.

Definition tools_for (l : Lock) (short : str) : option (list Tool) := tool_key l short ≫= fun key => l.(tools) !! key.

(** Which of a tool's entries decides its backend. *)
Definition locked_backend (entries : list Tool) (version : option str) : option str :=
  match version with
  | None => head entries ≫= t_backend
  | Some version =>
      match List.find (fun t => bool_decide (t.(t_version) = version)) entries with
      | Some t => t.(t_backend)
      | None =>
          match entries with
          | [] => None
          | first :: _ =>
              if forallb (fun t => bool_decide (t.(t_backend) = first.(t_backend))) entries then first.(t_backend) else None
          end
      end
  end.

Definition matching_request_bindings {E} (l : Lock) (short specifier : str) (matches_options : Tool -> E + bool)
    : list Tool * option E :=
  foldl (fun acc t =>
    if bool_decide (specifier ∈ t.(t_specifiers)) then
      match matches_options t with
      | inr true => (acc.1 ++ [t], acc.2)
      | inr false => acc
      | inl e => (acc.1, or_else acc.2 (Some e))
      end
    else acc) ([], None) (from_option_or (tools_for l short) []).

(** The same version without the data of an artifact, under the options of the request. *)
Definition lockfile_tool_with_request_options (found : Tool) (request_options : Options) : Tool :=
  with_platforms
    (filter (fun kv => PlatformInfo_is_empty kv.2 = false) (without_artifact_data <$> found.(t_platforms)))
    (with_options request_options found).

(** ** Updates *)

(** The position of the first entry of a version and options. *)
Definition position (ts : list Tool) (version : str) (options : Options) : option nat :=
  fst <$> list_find (fun t => t.(t_version) = version /\ t.(t_options) = options) ts.

Definition bind_request (l : Lock) (short specifier version : str) (options : Options) : bool * Lock :=
  if negb (uses_request_bindings l) then (false, l) else
  match tool_key l short ≫= fun key => (fun ts => (key, ts)) <$> l.(tools) !! key with
  | None => (false, l)
  | Some (key, ts) =>
      match position ts version options with
      | None => (false, l)
      | Some target_idx =>
          let ts := map (fun t => if bool_decide (t.(t_options) = options)
                                  then with_specifiers (t.(t_specifiers) ∖ {[specifier]}) t else t) ts in
          let ts := alter (fun t => with_specifiers ({[specifier]} ∪ t.(t_specifiers)) t) target_idx ts in
          (true, with_tools (<[key := ts]> l.(tools)) l)
      end
  end.

Definition set_platform_info (l : Lock) (short version : str) (backend : option str) (options : Options)
    (platform_key : str) (platform_info : PlatformInfo) : Lock :=
  let key := from_option_or (tool_key l short) (state_short short) in
  let ts := from_option_or (l.(tools) !! key) [] in
  match position ts version options with
  | Some idx =>
      let update (t : Tool) :=
        let merged := match t.(t_platforms) !! platform_key with
                      | Some existing => updated_platform_info platform_info existing
                      | None => platform_info
                      end in
        if PlatformInfo_is_empty merged then t else with_platforms (<[platform_key := merged]> t.(t_platforms)) t in
      with_tools (<[key := alter update idx ts]> l.(tools)) l
  | None =>
      let platforms := if PlatformInfo_is_empty platform_info then ∅ else {[platform_key := platform_info]} in
      with_tools (<[key := ts ++ [mkLockfileTool version backend ∅ options platforms None None None]]> l.(tools)) l
  end.

Definition set_conda_package (l : Lock) (platform basename : str) (info : CondaPackageInfo) : Lock :=
  with_conda (<[platform := <[basename := info]> (from_option_or (l.(conda_packages) !! platform) ∅)]> l.(conda_packages)) l.

Definition get_conda_package (l : Lock) (platform basename : str) : option CondaPackageInfo :=
  l.(conda_packages) !! platform ≫= fun packages => packages !! basename.

(** Whether an entry's data for a platform depends on a package. *)
Definition refers (platform basename : str) (t : Tool) : Prop :=
  exists info deps, t.(t_platforms) !! platform = Some info /\ info.(p_conda_deps) = Some deps /\ basename ∈ deps.

(** The packages that the entries name for a platform. *)
Definition referenced (l : Lock) (platform : str) : list str :=
  map_to_list l.(tools) ≫= fun kts => kts.2 ≫= fun t =>
    match t.(t_platforms) !! platform ≫= p_conda_deps with Some deps => deps | None => [] end.

Definition cleanup_unreferenced_conda_packages (l : Lock) : Lock :=
  let kept := map_imap (fun platform packages =>
    Some (filter (fun kv => kv.1 ∈ referenced l platform) packages)) l.(conda_packages) in
  with_conda (filter (fun kv => kv.2 <> ∅) kept) l.

Definition retain_graph_entries (keep : str -> Tool -> bool) (l : Lock) : Lock :=
  with_tools (map_imap (fun short entries =>
    Some (List.filter (fun t => (is_none t.(t_uv) && is_none t.(t_aube)) || keep short t) entries)) l.(tools)) l.

Definition superseded (t : Tool) (all : list Tool) : bool :=
  bool_decide (t.(t_specifiers) = ∅) && is_none t.(t_uv) && is_none t.(t_aube)
  && existsb (fun bound =>
       negb (bool_decide (bound.(t_specifiers) = ∅)) && bool_decide (bound.(t_version) = t.(t_version))
       && bool_decide (bound.(t_backend) = t.(t_backend))
       && forallb (fun kv => match bound.(t_platforms) !! kv.1 with
                             | Some b => same_persisted_data b kv.2
                             | None => false
                             end) (map_to_list t.(t_platforms))) all.

Definition retain_unsuperseded_unbound_entries (in_scope : str -> Tool -> bool) (l : Lock) : Lock :=
  with_tools (map_imap (fun short entries =>
    Some (List.filter (fun t => negb (in_scope short t && superseded t entries)) entries)) l.(tools)) l.

Definition retain_tool_versions (l : Lock) (short : str) (keep_versions : gset str) : Lock :=
  let l := match tool_key l short ≫= fun key => (fun ts => (key, ts)) <$> l.(tools) !! key with
           | Some (key, ts) =>
               let ts := List.filter (fun t => bool_decide (t.(t_version) ∈ keep_versions)) ts in
               with_tools (match ts with [] => delete key l.(tools) | _ => <[key := ts]> l.(tools) end) l
           | None => l
           end in
  cleanup_unreferenced_conda_packages l.

Definition stored_form (selectors : gset str) : gset str := set_map state_short selectors.

Definition should_keep_tool (short : str) (versions : list Tool) (keep_shorts keep_backends : gset str) : bool :=
  if starts_with u!"pypi:" short || starts_with u!"pipx:" short then bool_decide (short ∈ keep_shorts)
  else bool_decide (short ∈ keep_shorts)
       || existsb (fun v => match v.(t_backend) with Some b => bool_decide (b ∈ keep_backends) | None => false end) versions.

Definition retain_tools_by_short_or_backend (l : Lock) (keep_shorts keep_backends : gset str) : Lock :=
  cleanup_unreferenced_conda_packages
    (with_tools (filter (fun kv => should_keep_tool kv.1 kv.2 (stored_form keep_shorts) (stored_form keep_backends) = true)
                        l.(tools)) l).

(** [switch_backend]; [to] gives the new backend of a version. *)
Definition switch_backend (l : Lock) (short from : str) (versions : gset str) (to : str -> option str)
    : list (str * str * bool) * Lock :=
  match tool_key l short ≫= fun key => (fun ts => (key, ts)) <$> l.(tools) !! key with
  | None => ([], l)
  | Some (key, ts) =>
      let had_platforms (t : Tool) := existsb (fun kv => negb (PlatformInfo_is_empty kv.2)) (map_to_list t.(t_platforms)) in
      let target (t : Tool) :=
        if bool_decide (t.(t_backend) = Some from) && bool_decide (t.(t_version) ∈ versions) then to t.(t_version) else None in
      (omap (fun t => (fun b => (t.(t_version), b, had_platforms t)) <$> target t) ts,
       with_tools (<[key := map (fun t => match target t with
                                          | Some b => mkLockfileTool t.(t_version) (Some b) t.(t_specifiers) t.(t_options)
                                                        ∅ None None t.(t_provenance)
                                          | None => t
                                          end) ts]> l.(tools)) l)
  end.

(** ** One lockfile into another *)

Definition lockfile_entry_key (short : str) (t : Tool) : EntryKey :=
  (state_short short, t.(t_version), t.(t_backend), t.(t_options)).

Definition or_insert {V} (key : EntryKey) (v : V) (m : gmap EntryKey V) : gmap EntryKey V :=
  match m !! key with Some _ => m | None => <[key := v]> m end.

(** [record_entry_lockfile_versions]: every entry of the file gets its version unless it has one. *)
Definition record_entry_lockfile_versions (l : Lock) : Lock :=
  with_versions l.(lockfile_version)
    (foldl (fun m kt => or_insert (lockfile_entry_key kt.1 kt.2) l.(lockfile_version) m) l.(entry_lockfile_versions)
       (in_key_order l.(tools) ≫= fun kts => (fun t => (kts.1, t)) <$> kts.2)) l.

(** What an entry takes over from the other file's entry of the same version and options. *)
Definition absorb_entry (existing t : Tool) : Tool :=
  let same_backend := is_some existing.(t_backend) && bool_decide (existing.(t_backend) = t.(t_backend)) in
  let take {X} (mine theirs : option X) : option X := if is_none mine && same_backend then theirs else mine in
  mkLockfileTool existing.(t_version) existing.(t_backend) (existing.(t_specifiers) ∪ t.(t_specifiers))
    existing.(t_options) existing.(t_platforms) (take existing.(t_aube) t.(t_aube)) (take existing.(t_uv) t.(t_uv))
    (take existing.(t_provenance) t.(t_provenance)).

(** One entry into the entries of the root file: keys seen and entries. *)
Definition absorb (acc : gset ToolKey * list Tool) (t : Tool) : gset ToolKey * list Tool :=
  match position acc.2 t.(t_version) t.(t_options) with
  | Some idx => (acc.1, alter (fun existing => absorb_entry existing t) idx acc.2)
  | None => if bool_decide (tool_key_of t ∈ acc.1) then acc else ({[tool_key_of t]} ∪ acc.1, acc.2 ++ [t])
  end.

Definition merge_tools_preserving_root (root : gmap str (list Tool)) (short : str) (ts : list Tool)
    : gmap str (list Tool) :=
  let key := state_short short in
  let root_tools := from_option_or (root !! key) [] in
  <[key := (foldl absorb (list_to_set (map tool_key_of root_tools), root_tools) ts).2]> root.

Definition merge_lockfile_preserving_root (root other : Lock) : Lock :=
  let merged := foldl (fun m kts => merge_tools_preserving_root m kts.1 kts.2) root.(tools) (in_key_order other.(tools)) in
  let conda := union_with (fun mine theirs => Some (mine ∪ theirs)) root.(conda_packages) other.(conda_packages) in
  with_conda conda (with_tools merged root).

Definition merge_lockfile_for_lookup (root other : Lock) : Lock :=
  let root := record_entry_lockfile_versions root in
  let other := record_entry_lockfile_versions other in
  let root := with_versions (N.max root.(lockfile_version) other.(lockfile_version))
                (root.(entry_lockfile_versions) ∪ other.(entry_lockfile_versions)) root in
  merge_lockfile_preserving_root root other.

(** ** Questions *)

Definition upgrade (l : Lock) : Lock := with_versions CURRENT_LOCKFILE_VERSION l.(entry_lockfile_versions) l.
Definition needs_upgrade (l : Lock) : bool := (l.(lockfile_version) <? CURRENT_LOCKFILE_VERSION)%N.

(** The entries of a tool, none where the lockfile does not name it. *)
Definition entries_for (l : Lock) (short : str) : list Tool := from_option_or (tools_for l short) [].

Definition locked_backends (l : Lock) (short : str) : list (str * str) :=
  omap (fun t => (fun b => (t.(t_version), b)) <$> t.(t_backend)) (entries_for l short).

Definition records_data (t : Tool) : bool := existsb (fun kv => negb (PlatformInfo_is_empty kv.2)) (map_to_list t.(t_platforms)).

Definition tool_has_platforms (l : Lock) (short : str) : bool := existsb records_data (entries_for l short).

Definition has_platforms (l : Lock) (short version : str) : bool :=
  existsb (fun t => bool_decide (t.(t_version) = version) && records_data t) (entries_for l short).

Definition all_platform_keys (l : Lock) : gset str :=
  ⋃ (map_to_list l.(tools) ≫= fun kts => (fun t => dom t.(t_platforms)) <$> kts.2).

Definition stale_tool_versions (l : Lock) (short : str) (keep_versions : gset str) : list str :=
  map t_version (List.filter (fun t => negb (bool_decide (t.(t_version) ∈ keep_versions))) (entries_for l short)).

Definition stale_tool_shorts (l : Lock) (keep_shorts keep_backends : gset str) : gset str :=
  dom (filter (fun kv => should_keep_tool kv.1 kv.2 (stored_form keep_shorts) (stored_form keep_backends) = false) l.(tools)).

(** The version of the file an entry was read from. Of the second search, over the keys of the entry's
    tool, version and backend that have no options, there is one such key. *)
Definition entry_lockfile_version (l : Lock) (short : str) (t : Tool) : N :=
  from_option_or
    (or_else (l.(entry_lockfile_versions) !! lockfile_entry_key short t)
       (l.(entry_lockfile_versions) !! (state_short short, t.(t_version), t.(t_backend), [])))
    l.(lockfile_version).

(** The repository an npm package is pinned to, of the lockfile the request belongs to. *)
Definition get_locked_npm_provenance (l : Lock) (short version backend : str) : option PackageProvenance :=
  head (omap t_provenance (List.filter (fun t => bool_decide (t.(t_version) = version) && bool_decide (t.(t_backend) = Some backend))
                             (entries_for l short))).

(** The entries of the first lockfile that has usable ones decide the backend. *)
Definition get_locked_backend_for_version (usable : str -> bool) (lockfiles : list Lock) (short : str) (version : option str)
    : option str :=
  let usable (t : Tool) := match t.(t_backend) with Some full => usable full | None => false end in
  List.find (fun entries => match entries with [] => false | _ => true end)
    (map (fun l => List.filter usable (entries_for l short)) lockfiles)
  ≫= fun entries => locked_backend entries version.

(** ** What an untrusted lockfile may decide *)

(** [locked_backend_needs_trust], and whether a dependency graph is readable and names the registry
    only, are decided by other parts of the program. *)
Definition drop_artifact (a : ArtifactInfo) : ArtifactInfo :=
  mkArtifactInfo a.(a_checksum) a.(a_checksum_source) a.(a_size) [] None a.(a_provenance) a.(a_provenance_verified).

Definition drop_info (i : PlatformInfo) : PlatformInfo :=
  mkPlatformInfo i.(p_install) i.(p_checksum) i.(p_checksum_source) i.(p_size) None None i.(p_download_headers) None
    i.(p_provenance) i.(p_provenance_verified) i.(p_github_attestations) i.(p_signer) i.(p_attested_by)
    i.(p_repository_id) i.(p_repository_owner_id) (map drop_artifact i.(p_additional_artifacts)).

Definition drop_tool (needs_trust : str -> str -> bool) (registry_only : Aube -> bool) (short : str) (t : Tool) : option Tool :=
  if match t.(t_backend) with Some full => needs_trust short full | None => false end then None
  else Some (with_platforms (drop_info <$> t.(t_platforms))
              (with_graphs (match t.(t_aube) with Some g => if registry_only g then Some g else None | None => None end)
                 None t)).

Definition drop_what_needs_trust (needs_trust : str -> str -> bool) (registry_only : Aube -> bool) (l : Lock) : Lock :=
  with_conda ∅
    (with_tools (filter (fun kv => kv.2 <> [])
       (map_imap (fun short entries => Some (omap (drop_tool needs_trust registry_only short) entries)) l.(tools))) l).

End Lockfile.
