(* ===== verification/LockfileSpec.v ===== *)
(** * What lockfiles promise

    A request that is bound is found again, and no other binding moves; a merged view keeps every
    entry of the nearer file; packages are kept exactly while an entry needs them; an untrusted file
    keeps its pins and loses every place to download from. *)

From S2P Require Import Prelude RustStr LockInfo LockInfoSpec Lockfile.

(** ** Lists of entries *)

Lemma in_key_order_elem {V} (m : gmap str V) k v : (k, v) ∈ in_key_order m <-> m !! k = Some v.
Proof.
  unfold in_key_order. rewrite list_elem_of_omap. split.
  - intros (k' & _ & H). destruct (m !! k') as [v'|] eqn:E; simpl in H; [|done]. by injection H as -> ->.
  - intros H. exists k. split; [|by rewrite H]. rewrite elem_of_key_order. by apply elem_of_dom_2 in H.
Qed.

Lemma in_key_order_keys {V} (m : gmap str V) : (in_key_order m).*1 = key_order (dom m).
Proof.
  unfold in_key_order. assert (Forall (fun k => k ∈ dom m) (key_order (dom m))) as HF.
  { apply Forall_forall. intros k. by rewrite elem_of_key_order. }
  induction HF as [|k l Hk _ IH]; simpl; [done|]. apply elem_of_dom in Hk as [v Hv]. rewrite Hv. csimpl. by rewrite IH.
Qed.

Section Facts.

Context {Aube Uv : Type} (state_short : str -> str).

#[local] Abbreviation Tool := (LockfileTool Aube Uv).
#[local] Abbreviation Lock := (Lockfile Aube Uv).

(** At most one entry per version and options. *)
Definition keys_unique (ts : list Tool) : Prop := NoDup (map tool_key_of ts).

Lemma position_Some (ts : list Tool) version options i :
  position ts version options = Some i ->
  exists t, ts !! i = Some t /\ tool_key_of t = (version, options) /\
    forall j t', (j < i)%nat -> ts !! j = Some t' -> tool_key_of t' <> (version, options).
Proof.
  unfold position. destruct (list_find _ ts) as [[j t]|] eqn:E; simpl; [|done]. intros [= <-].
  apply list_find_Some in E as (Ht & [Hv Ho] & Hlt). exists t. unfold tool_key_of. split_and!; [done|congruence|].
  intros k t' Hk Ht' [= Hv' Ho']. by apply (Hlt k t' Ht' Hk).
Qed.

Lemma position_None (ts : list Tool) version options :
  position ts version options = None <-> (version, options) ∉ map tool_key_of ts.
Proof.
  unfold position. split.
  - destruct (list_find _ ts) as [[]|] eqn:E; [done|]. intros _ Hin.
    change (map tool_key_of ts) with (tool_key_of <$> ts) in Hin. apply list_elem_of_fmap in Hin as (t & Hk & Ht).
    apply list_find_None in E. rewrite Forall_forall in E. apply (E t Ht). unfold tool_key_of in Hk. by injection Hk.
  - intros Hni. destruct (list_find _ ts) as [[j t]|] eqn:E; [|done]. exfalso. apply Hni.
    apply list_find_Some in E as (Ht & [Hv Ho] & _). change (map tool_key_of ts) with (tool_key_of <$> ts).
    apply list_elem_of_fmap. exists t. unfold tool_key_of. split; [congruence|]. by eapply list_elem_of_lookup_2.
Qed.

Lemma keys_unique_lookup (ts : list Tool) i j t u :
  keys_unique ts -> ts !! i = Some t -> ts !! j = Some u -> tool_key_of t = tool_key_of u -> i = j.
Proof.
  intros Hnd Hi Hj E. eapply NoDup_lookup; [exact Hnd| |].
  - change (map tool_key_of ts) with (tool_key_of <$> ts). rewrite list_lookup_fmap, Hi. reflexivity.
  - change (map tool_key_of ts) with (tool_key_of <$> ts). rewrite list_lookup_fmap, Hj. simpl. by rewrite E.
Qed.

Lemma position_unique (ts : list Tool) i t :
  keys_unique ts -> ts !! i = Some t -> position ts t.(t_version) t.(t_options) = Some i.
Proof.
  intros Hnd Hi. destruct (position ts (t_version t) (t_options t)) as [j|] eqn:E.
  - apply position_Some in E as (u & Hj & Hu & _). f_equal. by eapply keys_unique_lookup.
  - apply position_None in E. exfalso. apply E. change (map tool_key_of ts) with (tool_key_of <$> ts).
    apply list_elem_of_fmap. exists t. split; [done|]. by eapply list_elem_of_lookup_2.
Qed.

Lemma tools_for_spec (l : Lock) short : tools_for state_short l short = l.(tools) !! state_short short.
Proof. unfold tools_for, tool_key. by destruct (tools l !! state_short short) eqn:E; simpl; rewrite ?E. Qed.

Lemma tool_key_bind (l : Lock) short :
  (tool_key state_short l short ≫= fun key => (fun ts => (key, ts)) <$> l.(tools) !! key)
  = (fun ts => (state_short short, ts)) <$> l.(tools) !! state_short short.
Proof. unfold tool_key. by destruct (tools l !! state_short short) eqn:E; simpl; rewrite ?E. Qed.

Lemma map_key_alter (f : Tool -> Tool) i (ts : list Tool) :
  (forall t, tool_key_of (f t) = tool_key_of t) -> map tool_key_of (alter f i ts) = map tool_key_of ts.
Proof.
  intros Hf. apply list_eq. intros j. change (map tool_key_of) with (fmap (M:=list) (@tool_key_of Aube Uv)).
  rewrite !list_lookup_fmap. destruct (decide (i = j)) as [<-|Hne].
  - rewrite list_lookup_alter_eq. destruct (ts !! i); [cbn; f_equal; apply Hf|done].
  - by rewrite list_lookup_alter_ne.
Qed.

Lemma map_key_map (f : Tool -> Tool) (ts : list Tool) :
  (forall t, tool_key_of (f t) = tool_key_of t) -> map tool_key_of (map f ts) = map tool_key_of ts.
Proof. intros Hf. rewrite map_map. apply map_ext, Hf. Qed.

(** The entries a request is bound to, without errors of options. *)
Lemma matching_filter (l : Lock) short specifier (f : Tool -> bool) :
  matching_request_bindings (E:=Empty_set) state_short l short specifier (fun t => inr (f t))
  = (List.filter (fun t => bool_decide (specifier ∈ t.(t_specifiers)) && f t)
       (from_option_or (l.(tools) !! state_short short) []), None).
Proof.
  unfold matching_request_bindings. rewrite tools_for_spec.
  assert (forall ts acc, foldl (fun acc t =>
    if bool_decide (specifier ∈ t.(t_specifiers)) then
      match (fun t => inr (f t) : Empty_set + bool) t with
      | inr true => (acc.1 ++ [t], acc.2)
      | inr false => acc
      | inl e => (acc.1, or_else acc.2 (Some e))
      end
    else acc) (acc, None) ts = (acc ++ List.filter (fun t => bool_decide (specifier ∈ t.(t_specifiers)) && f t) ts, None)) as H.
  { intros ts. induction ts as [|t ts IH]; intros acc; simpl; [by rewrite app_nil_r|].
    destruct (bool_decide _); simpl; [|apply IH]. destruct (f t); [|apply IH]. by rewrite IH, <- app_assoc. }
  apply H.
Qed.

(** What [bind_request] does to one entry. *)
Definition rebound (specifier version : str) (options : Options) (t : Tool) : Tool :=
  if bool_decide (t.(t_options) = options) then
    with_specifiers (if bool_decide (t.(t_version) = version) then {[specifier]} ∪ t.(t_specifiers) else t.(t_specifiers) ∖ {[specifier]}) t
  else t.

Lemma rebound_target specifier (t : Tool) :
  rebound specifier t.(t_version) t.(t_options) t = with_specifiers ({[specifier]} ∪ t.(t_specifiers)) t.
Proof. unfold rebound. by rewrite !bool_decide_true by done. Qed.

Lemma rebound_options specifier version options (t : Tool) : t_options (rebound specifier version options t) = t_options t.
Proof. unfold rebound. by destruct (bool_decide _). Qed.

(** After binding, the entry of the version is the one under these options with the specifier. *)
Lemma rebound_found specifier version options (t : Tool) :
  bool_decide (specifier ∈ t_specifiers (rebound specifier version options t))
    && bool_decide (t_options (rebound specifier version options t) = options)
  = bool_decide (tool_key_of t = (version, options)).
Proof.
  rewrite rebound_options. destruct (decide (t_options t = options)) as [Eo|Eo].
  - rewrite (bool_decide_true (t_options t = options)), andb_true_r by done. unfold rebound.
    rewrite (bool_decide_true (t_options t = options)) by done. simpl. apply bool_decide_ext. unfold tool_key_of. case_bool_decide; set_solver.
  - rewrite (bool_decide_false (t_options t = options)), andb_false_r by done. symmetry. apply bool_decide_false.
    unfold tool_key_of. congruence.
Qed.

Lemma filter_unique (ts : list Tool) t :
  keys_unique ts -> t ∈ ts -> List.filter (fun u => bool_decide (tool_key_of u = tool_key_of t)) ts = [t].
Proof.
  induction ts as [|u ts IH]; [by intros _ ?%elem_of_nil|]. intros Hnd Ht. apply NoDup_cons in Hnd as [Hu Hnd].
  change (map tool_key_of ts) with (tool_key_of <$> ts) in Hu. cbn [List.filter].
  apply elem_of_cons in Ht as [->|Ht].
  - rewrite bool_decide_true by done. f_equal. clear IH Hnd. induction ts as [|w ts IH]; [done|]. cbn [List.filter].
    rewrite bool_decide_false; [|intros E; apply Hu; rewrite <- E; csimpl; by left].
    apply IH. intros H. apply Hu. csimpl. by right.
  - rewrite bool_decide_false; [by apply IH|]. intros E. apply Hu. rewrite E. by apply list_elem_of_fmap_2.
Qed.

Lemma filter_map_comm {A B} (f : A -> B) (p : B -> bool) (q : A -> bool) l :
  (forall a, p (f a) = q a) -> List.filter p (map f l) = map f (List.filter q l).
Proof. intros H. induction l as [|a l IH]; simpl; [done|]. rewrite H. destruct (q a); simpl; by rewrite IH. Qed.

Lemma rebound_key specifier version options t : tool_key_of (rebound specifier version options t) = tool_key_of t.
Proof. unfold rebound, tool_key_of. by destruct (bool_decide _). Qed.

Lemma bind_request_spec (l : Lock) short specifier version options ts :
  keys_unique ts -> l.(tools) !! state_short short = Some ts -> uses_request_bindings l = true ->
  (version, options) ∈ map tool_key_of ts ->
  bind_request state_short l short specifier version options =
    (true, with_tools (<[state_short short := map (rebound specifier version options) ts]> l.(tools)) l).
Proof.
  intros Hnd Hts Hv Hin. unfold bind_request. rewrite Hv. simpl. rewrite tool_key_bind, Hts. simpl.
  destruct (position ts version options) as [i|] eqn:Ep; [|by apply position_None in Ep].
  do 4 f_equal. apply position_Some in Ep as (t & Hi & Hk & _). apply list_eq. intros j.
  change (map ?f ts) with (f <$> ts). destruct (decide (i = j)) as [<-|Hne].
  - rewrite list_lookup_alter_eq, !list_lookup_fmap, Hi. simpl. f_equal. unfold tool_key_of in Hk. injection Hk as <- <-.
    unfold rebound. rewrite !bool_decide_true by done. unfold with_specifiers. simpl. f_equal.
    apply set_eq. intros x. destruct (decide (x = specifier)) as [->|]; set_solver.
  - rewrite list_lookup_alter_ne, !list_lookup_fmap by done. destruct (ts !! j) as [u|] eqn:Hj; simpl; [|done]. f_equal.
    unfold rebound. case_bool_decide as Eo; [|done]. rewrite bool_decide_false; [done|]. intros Ev. apply Hne.
    eapply (keys_unique_lookup ts); [done..|]. rewrite Hk. unfold tool_key_of. by rewrite Ev, Eo.
Qed.

(** A binding is found again, and only that: in a lockfile with request bindings whose entries of a tool
    are one per version and options, binding a request to a version succeeds exactly if there is an entry
    of that version and those options; the lookup of the request under those options then finds that entry
    and no other. Every entry keeps its place, backend and artifact data, the bindings under other options
    and those of every other specifier are as they were, and so is every other tool. *)
Theorem bind_then_found (l : Lock) short specifier version options ts :
  keys_unique ts -> l.(tools) !! state_short short = Some ts -> uses_request_bindings l = true ->
  let '(bound, l') := bind_request state_short l short specifier version options in
  (bound = true <-> (version, options) ∈ map tool_key_of ts) /\
  (bound = false -> l' = l) /\
  (bound = true ->
     (exists t, t ∈ ts /\ tool_key_of t = (version, options) /\
        matching_request_bindings (E:=Empty_set) state_short l' short specifier (fun t => inr (bool_decide (t.(t_options) = options)))
          = ([with_specifiers ({[specifier]} ∪ t.(t_specifiers)) t], None)) /\
     exists ts', l'.(tools) !! state_short short = Some ts' /\
       Forall2 (fun t t' => t' = with_specifiers t'.(t_specifiers) t /\
         forall s, s <> specifier \/ t.(t_options) <> options -> s ∈ t'.(t_specifiers) <-> s ∈ t.(t_specifiers)) ts ts' /\
       forall key, key <> state_short short -> l'.(tools) !! key = l.(tools) !! key).
Proof.
  intros Hnd Hts Hv. destruct (decide ((version, options) ∈ map tool_key_of ts)) as [Hin|Hni].
  - rewrite (bind_request_spec l short specifier version options ts) by done.
    split; [done|]. split; [done|]. intros _. split.
    + change (map tool_key_of ts) with (tool_key_of <$> ts) in Hin. apply list_elem_of_fmap in Hin as (t & Hk & Ht).
      exists t. split_and!; [done..|]. rewrite matching_filter. simpl. rewrite lookup_insert_eq. simpl. f_equal.
      rewrite (filter_map_comm _ _ (fun u => bool_decide (tool_key_of u = tool_key_of t))).
      * rewrite filter_unique by done. simpl. unfold tool_key_of in Hk. injection Hk as -> ->. by rewrite rebound_target.
      * intros u. rewrite <- Hk. apply rebound_found.
    + exists (map (rebound specifier version options) ts). simpl. rewrite lookup_insert_eq. split; [done|]. split.
      * apply Forall2_fmap_r. apply Forall_Forall2_diag, Forall_forall. intros t _. unfold compose, rebound. simpl.
        case_bool_decide as Eo; [|split; [by destruct t|done]]. split; [done|]. simpl. intros s [Hs|Hs]; [|done].
        case_bool_decide; set_solver.
      * intros key Hne. by rewrite lookup_insert_ne.
  - unfold bind_request. rewrite Hv. simpl. rewrite tool_key_bind, Hts. simpl.
    rewrite (proj2 (position_None ts version options) Hni). split_and!; done.
Qed.

(** ** Packages *)

Lemma elem_of_referenced (l : Lock) platform basename :
  basename ∈ referenced l platform <->
  exists short ts t, l.(tools) !! short = Some ts /\ t ∈ ts /\ refers platform basename t.
Proof.
  unfold referenced, refers. rewrite list_elem_of_bind. split.
  - intros ([short ts] & Hb & Hk). apply elem_of_map_to_list in Hk. simpl in Hb.
    apply list_elem_of_bind in Hb as (t & Hb & Ht). exists short, ts, t. split_and!; [done..|].
    destruct (t_platforms t !! platform) as [info|]; simpl in Hb; [|by apply elem_of_nil in Hb].
    destruct (p_conda_deps info) as [deps|] eqn:Ed; [|by apply elem_of_nil in Hb]. by exists info, deps.
  - intros (short & ts & t & Hts & Ht & info & deps & Hp & Hd & Hb). exists (short, ts).
    split; [|by apply elem_of_map_to_list]. apply list_elem_of_bind. exists t. split; [|done]. simpl. by rewrite Hp; simpl; rewrite Hd.
Qed.

Lemma cleanup_package (l : Lock) platform basename info :
  get_conda_package (cleanup_unreferenced_conda_packages l) platform basename = Some info <->
  get_conda_package l platform basename = Some info /\ basename ∈ referenced l platform.
Proof.
  unfold get_conda_package, cleanup_unreferenced_conda_packages. simpl. rewrite !bind_Some. split.
  - intros (packages & Hp & Hi). apply map_lookup_filter_Some in Hp as [Hp _]. rewrite map_lookup_imap in Hp.
    destruct (conda_packages l !! platform) as [all|]; simpl in Hp; [|done]. injection Hp as <-.
    apply map_lookup_filter_Some in Hi as [Hi Hr]. split; [by exists all|done].
  - intros [(all & Ha & Hi) Hr]. exists (filter (fun kv => kv.1 ∈ referenced l platform) all).
    assert (filter (fun kv => kv.1 ∈ referenced l platform) all !! basename = Some info) as Hf
      by (apply map_lookup_filter_Some; done).
    split; [|done]. apply map_lookup_filter_Some. split; [by rewrite map_lookup_imap, Ha|].
    simpl. intros E. by rewrite E, lookup_empty in Hf.
Qed.

Lemma cleanup_noop (l : Lock) :
  (forall platform packages, l.(conda_packages) !! platform = Some packages ->
     packages <> ∅ /\ forall basename info, packages !! basename = Some info -> basename ∈ referenced l platform) ->
  cleanup_unreferenced_conda_packages l = l.
Proof.
  intros H. unfold cleanup_unreferenced_conda_packages, with_conda. destruct l as [v ts c e st]. simpl in *. f_equal.
  apply map_eq. intros platform. destruct (c !! platform) as [packages|] eqn:Ec.
  - destruct (H platform packages Ec) as [Hne Hr]. apply map_lookup_filter_Some. split; [|done].
    rewrite map_lookup_imap, Ec. simpl. f_equal. apply map_filter_id. intros k info Hk. by apply (Hr k info).
  - apply map_lookup_filter_None. left. by rewrite map_lookup_imap, Ec.
Qed.

(** Shared packages are collected exactly: [cleanup_unreferenced_conda_packages] keeps a package of
    a platform if and only if the data that some entry has for that platform depends on it, leaves no
    platform without packages, changes no entry, and has nothing left to do a second time. *)
Theorem packages_collected (l : Lock) :
  let l' := cleanup_unreferenced_conda_packages l in
  l'.(tools) = l.(tools) /\
  (forall platform basename info,
     get_conda_package l' platform basename = Some info <->
     get_conda_package l platform basename = Some info /\
     exists short ts t, l.(tools) !! short = Some ts /\ t ∈ ts /\ refers platform basename t) /\
  (forall platform, l'.(conda_packages) !! platform <> Some ∅) /\
  cleanup_unreferenced_conda_packages l' = l'.
Proof.
  intros l'. split; [done|]. split.
  { intros platform basename info. subst l'. by rewrite cleanup_package, elem_of_referenced. }
  split; [by intros platform [_ H]%map_lookup_filter_Some|].
  apply cleanup_noop. intros platform packages Hp. split.
  - by apply map_lookup_filter_Some in Hp as [_ ?].
  - intros basename info Hi. change (referenced l' platform) with (referenced l platform).
    apply (cleanup_package l platform basename info). unfold get_conda_package. fold l'. by rewrite Hp.
Qed.

(** ** An untrusted lockfile *)

(** What is left names no place to download from. *)
Definition no_places (i : PlatformInfo) : Prop :=
  i.(p_url) = None /\ i.(p_url_api) = None /\ i.(p_conda_deps) = None /\
  Forall (fun a => a.(a_url) = [] /\ a.(a_url_api) = None) i.(p_additional_artifacts).

(** What an artifact is verified against. *)
Definition pins (i : PlatformInfo) :=
  (i.(p_checksum), i.(p_checksum_source), i.(p_provenance), i.(p_signer), i.(p_attested_by), i.(p_repository_id),
   map (fun a => (a.(a_checksum), a.(a_checksum_source), a.(a_provenance))) i.(p_additional_artifacts)).

Lemma drop_info_spec i : no_places (drop_info i) /\ pins (drop_info i) = pins i.
Proof.
  split.
  - split_and!; try done. simpl. apply Forall_map. apply Forall_forall. done.
  - unfold pins. simpl. by rewrite map_map.
Qed.

(** An untrusted lockfile decides versions and checksums only: after [drop_what_needs_trust], no entry has
    a backend that needs trust, a URL, a package or a dependency graph except one that names the registry
    only; and every entry of the file whose backend needs no trust is still there with its version, options,
    bindings and backend, and for every platform with the checksums, provenance and signer that its artifacts
    are verified against. *)
Theorem untrusted_pins_only needs_trust registry_only (l : Lock) :
  let l' := drop_what_needs_trust needs_trust registry_only l in
  l'.(conda_packages) = ∅ /\
  (forall short ts t, l'.(tools) !! short = Some ts -> t ∈ ts ->
     (forall full, t.(t_backend) = Some full -> needs_trust short full = false) /\
     t.(t_uv) = None /\ (forall g, t.(t_aube) = Some g -> registry_only g = true) /\
     forall platform i, t.(t_platforms) !! platform = Some i -> no_places i) /\
  (forall short ts t, l.(tools) !! short = Some ts -> t ∈ ts ->
     (forall full, t.(t_backend) = Some full -> needs_trust short full = false) ->
     exists ts' t', l'.(tools) !! short = Some ts' /\ t' ∈ ts' /\ tool_key_of t' = tool_key_of t /\
       t'.(t_specifiers) = t.(t_specifiers) /\ t'.(t_backend) = t.(t_backend) /\
       forall platform i, t.(t_platforms) !! platform = Some i ->
         exists i', t'.(t_platforms) !! platform = Some i' /\ pins i' = pins i).
Proof.
  intros l'. split; [done|]. split.
  - intros short ts t Hts Ht. apply map_lookup_filter_Some in Hts as [Hts _]. rewrite map_lookup_imap in Hts.
    destruct (tools l !! short) as [entries|]; simpl in Hts; [|done]. injection Hts as <-.
    apply list_elem_of_omap in Ht as (t0 & _ & Hd). unfold drop_tool in Hd.
    destruct (match t_backend t0 with Some full => needs_trust short full | None => false end) eqn:Eb; [done|].
    injection Hd as <-. simpl. split_and!.
    + intros full E. by rewrite E in Eb.
    + done.
    + intros g. destruct (t_aube t0) as [g'|]; [|done]. destruct (registry_only g') eqn:Eg; [|done]. congruence.
    + intros platform i. rewrite lookup_fmap. destruct (t_platforms t0 !! platform) as [i0|]; simpl; [|done].
      intros [= <-]. apply drop_info_spec.
  - intros short ts t Hts Ht Hb.
    assert (drop_tool needs_trust registry_only short t = Some (with_platforms (drop_info <$> t.(t_platforms))
      (with_graphs (match t.(t_aube) with Some g => if registry_only g then Some g else None | None => None end) None t))) as Hd.
    { unfold drop_tool. destruct (t_backend t) as [full|]; [|done]. by rewrite (Hb full eq_refl). }
    eexists (omap (drop_tool needs_trust registry_only short) ts), _.
    assert (forall x, drop_tool needs_trust registry_only short t = Some x -> x ∈ omap (drop_tool needs_trust registry_only short) ts) as Hin.
    { intros x Hx. apply list_elem_of_omap. by exists t. }
    split_and!; [|by apply Hin|done..|].
    + apply map_lookup_filter_Some. split; [by rewrite map_lookup_imap, Hts|]. simpl. intros E.
      specialize (Hin _ Hd). rewrite E in Hin. by apply elem_of_nil in Hin.
    + intros platform i Hi. exists (drop_info i). simpl. rewrite lookup_fmap, Hi. split; [done|]. apply drop_info_spec.
Qed.

(** ** Reading several lockfiles *)

(** An entry that has taken over bindings, graphs or a repository, and nothing else. *)
Definition extends (t t' : Tool) : Prop :=
  tool_key_of t' = tool_key_of t /\ t'.(t_backend) = t.(t_backend) /\ t'.(t_platforms) = t.(t_platforms) /\
  t.(t_specifiers) ⊆ t'.(t_specifiers) /\
  (forall g, t.(t_aube) = Some g -> t'.(t_aube) = Some g) /\ (forall g, t.(t_uv) = Some g -> t'.(t_uv) = Some g) /\
  (forall p, t.(t_provenance) = Some p -> t'.(t_provenance) = Some p).

#[export] Instance extends_refl : Reflexive extends.
Proof. by intros t. Qed.

#[export] Instance extends_trans : Transitive extends.
Proof.
  intros t u v (K1 & B1 & P1 & S1 & A1 & U1 & R1) (K2 & B2 & P2 & S2 & A2 & U2 & R2).
  split_and!; [congruence..|set_solver| | |]; auto.
Qed.

Lemma absorb_entry_extends (t u : Tool) : extends t (absorb_entry t u).
Proof.
  unfold absorb_entry, extends. simpl. split_and!; [done..|set_solver| | |]; intros x ->; done.
Qed.

Lemma absorb_one (ts : list Tool) (u : Tool) :
  keys_unique ts ->
  let acc := absorb (list_to_set (map tool_key_of ts), ts) u in
  acc.1 = list_to_set (map tool_key_of acc.2) /\ keys_unique acc.2 /\
  (forall i t, ts !! i = Some t -> exists t', acc.2 !! i = Some t' /\ extends t t') /\
  exists t', t' ∈ acc.2 /\ tool_key_of t' = tool_key_of u /\ u.(t_specifiers) ⊆ t'.(t_specifiers).
Proof.
  intros Hnd. unfold absorb. simpl. destruct (position ts (t_version u) (t_options u)) as [i|] eqn:Ep; simpl.
  - assert (forall t : Tool, tool_key_of (absorb_entry t u) = tool_key_of t) as Hk by done.
    unfold keys_unique. rewrite map_key_alter by done. split_and!; [done|done| |].
    + intros j t Hj. destruct (decide (i = j)) as [<-|Hne].
      * rewrite list_lookup_alter_eq, Hj. simpl. eexists. split; [done|]. apply absorb_entry_extends.
      * rewrite list_lookup_alter_ne by done. by exists t.
    + apply position_Some in Ep as (t & Hi & Ht & _). exists (absorb_entry t u). split_and!.
      * apply (list_elem_of_lookup_2 _ i). by rewrite list_lookup_alter_eq, Hi.
      * rewrite Hk, Ht. done.
      * simpl. set_solver.
  - apply position_None in Ep. change (t_version u, t_options u) with (tool_key_of u) in Ep.
    rewrite bool_decide_false by (by rewrite elem_of_list_to_set). simpl. rewrite map_app. split_and!.
    + rewrite list_to_set_app_L. simpl. set_solver.
    + unfold keys_unique. rewrite map_app. apply NoDup_app. split_and!; [done| |by apply NoDup_singleton].
      intros k Hk ->%list_elem_of_singleton. done.
    + intros i t Hi. exists t. split; [by apply lookup_app_l_Some|done].
    + exists u. split_and!; [|done..]. apply elem_of_app. right. by apply list_elem_of_singleton.
Qed.

Lemma absorb_all (us ts : list Tool) :
  keys_unique ts ->
  let acc := foldl absorb (list_to_set (map tool_key_of ts), ts) us in
  keys_unique acc.2 /\
  (forall i t, ts !! i = Some t -> exists t', acc.2 !! i = Some t' /\ extends t t') /\
  (forall u, u ∈ us -> exists t', t' ∈ acc.2 /\ tool_key_of t' = tool_key_of u /\ u.(t_specifiers) ⊆ t'.(t_specifiers)).
Proof.
  revert ts. induction us as [|u us IH]; intros ts Hnd; simpl.
  - split_and!; [done| |by intros u ?%elem_of_nil]. intros i t Hi. by exists t.
  - pose proof (absorb_one ts u Hnd) as (Hk & Hnd' & Hext & Hu).
    destruct (absorb _ u) as [keys ts'] eqn:Ea. simpl in *. subst keys.
    destruct (IH ts' Hnd') as (Hn & He & Hin). split_and!; [done| |].
    + intros i t Hi. destruct (Hext i t Hi) as (t' & Hi' & Ht'). destruct (He i t' Hi') as (t'' & Hi'' & Ht'').
      exists t''. split; [done|]. by transitivity t'.
    + intros w [->|Hw]%elem_of_cons; [|by apply Hin]. destruct Hu as (t' & Ht' & Ek & Hs).
      apply list_elem_of_lookup in Ht' as [i Hi]. destruct (He i t' Hi) as (t'' & Hi'' & Ht'').
      exists t''. split_and!; [by eapply list_elem_of_lookup_2|destruct Ht'' as [-> _]; done|].
      destruct Ht'' as (_ & _ & _ & ? & _). set_solver.
Qed.

(** Every tool has one entry per version and options. *)
Definition entries_unique (m : gmap str (list Tool)) : Prop := forall key ts, m !! key = Some ts -> keys_unique ts.

Lemma merge_one (root : gmap str (list Tool)) short us :
  entries_unique root ->
  let m := merge_tools_preserving_root state_short root short us in
  entries_unique m /\
  (forall key ts i t, root !! key = Some ts -> ts !! i = Some t ->
     exists ts' t', m !! key = Some ts' /\ ts' !! i = Some t' /\ extends t t') /\
  exists ts', m !! state_short short = Some ts' /\
    forall u, u ∈ us -> exists t', t' ∈ ts' /\ tool_key_of t' = tool_key_of u /\ u.(t_specifiers) ⊆ t'.(t_specifiers).
Proof.
  intros Hnd. unfold merge_tools_preserving_root.
  assert (keys_unique (from_option_or (root !! state_short short) [])) as Hn.
  { destruct (root !! state_short short) as [ts|] eqn:E; simpl; [by eapply Hnd|constructor]. }
  pose proof (absorb_all us _ Hn) as (H1 & H2 & H3). set (acc := foldl absorb _ us) in *. split_and!.
  - intros key ts. destruct (decide (key = state_short short)) as [->|Hne].
    + rewrite lookup_insert_eq. by intros [= <-].
    + rewrite lookup_insert_ne by done. apply Hnd.
  - intros key ts i t Hts Hi. destruct (decide (key = state_short short)) as [->|Hne].
    + rewrite Hts in H2. destruct (H2 i t Hi) as (t' & Hi' & Ht'). exists acc.2, t'. by rewrite lookup_insert_eq.
    + exists ts, t. by rewrite lookup_insert_ne.
  - exists acc.2. rewrite lookup_insert_eq. by split.
Qed.

(** The nearer lockfile wins: reading another lockfile into one whose entries are one per version and
    options keeps every entry of the first at its place with its version, options, backend and artifact
    data; what it takes from an entry of the other file are bindings, and a dependency graph or
    repository where it had none. Every entry of the other file is found under its version and options
    with its bindings, and there is still one entry per version and options. Packages of the first
    file stay as they are. *)
Theorem nearer_file_wins (root other : Lock) :
  entries_unique root.(tools) ->
  let merged := merge_lockfile_preserving_root state_short root other in
  entries_unique merged.(tools) /\
  (forall key ts i t, root.(tools) !! key = Some ts -> ts !! i = Some t ->
     exists ts' t', merged.(tools) !! key = Some ts' /\ ts' !! i = Some t' /\ extends t t') /\
  (forall short us u, other.(tools) !! short = Some us -> u ∈ us ->
     exists ts' t', tools_for state_short merged short = Some ts' /\ t' ∈ ts' /\ tool_key_of t' = tool_key_of u /\
       u.(t_specifiers) ⊆ t'.(t_specifiers)) /\
  (forall platform basename info, get_conda_package root platform basename = Some info ->
     get_conda_package merged platform basename = Some info).
Proof.
  intros Hnd merged.
  assert (forall (l : list (str * list Tool)) (m : gmap str (list Tool)), entries_unique m ->
    let m' := foldl (fun m kts => merge_tools_preserving_root state_short m kts.1 kts.2) m l in
    entries_unique m' /\
    (forall key ts i t, m !! key = Some ts -> ts !! i = Some t ->
       exists ts' t', m' !! key = Some ts' /\ ts' !! i = Some t' /\ extends t t') /\
    (forall short us u, (short, us) ∈ l -> u ∈ us -> exists ts' t', m' !! state_short short = Some ts' /\ t' ∈ ts' /\
       tool_key_of t' = tool_key_of u /\ u.(t_specifiers) ⊆ t'.(t_specifiers))) as H.
  { intros l. induction l as [|[short us] l IH]; intros m Hm; simpl.
    - split_and!; [done| |by intros ??? ?%elem_of_nil]. intros key ts i t Hts Hi. by exists ts, t.
    - destruct (merge_one m short us Hm) as (H1 & H2 & ts1 & H3 & H4). destruct (IH _ H1) as (I1 & I2 & I3).
      split_and!; [done| |].
      + intros key ts i t Hts Hi. destruct (H2 key ts i t Hts Hi) as (ts' & t' & Hts' & Hi' & He).
        destruct (I2 key ts' i t' Hts' Hi') as (ts'' & t'' & ? & ? & He'). exists ts'', t''. split_and!; [done..|].
        by transitivity t'.
      + intros short' us' u [[= -> ->]|Hin]%elem_of_cons Hu; [|by apply (I3 short' us' u)].
        destruct (H4 u Hu) as (t' & Ht' & Ek & Hs). apply list_elem_of_lookup in Ht' as [i Hi].
        destruct (I2 _ _ i t' H3 Hi) as (ts'' & t'' & Hts'' & Hi'' & (Ek' & _ & _ & Hs' & _)).
        exists ts'', t''. split_and!; [done|by eapply list_elem_of_lookup_2|congruence|set_solver]. }
  destruct (H (in_key_order other.(tools)) root.(tools) Hnd) as (H1 & H2 & H3).
  split_and!; [exact H1|exact H2| |].
  - intros short us u Hus Hu. rewrite tools_for_spec. apply (H3 short us u); [by apply in_key_order_elem|done].
  - intros platform basename info. unfold get_conda_package, merged, merge_lockfile_preserving_root. simpl.
    rewrite lookup_union_with. destruct (conda_packages root !! platform) as [mine|]; simpl; [|done].
    destruct (conda_packages other !! platform) as [theirs|]; simpl; [|done]. intros Hm.
    by apply lookup_union_Some_l.
Qed.

(** What a cleanup announces is what it removes. *)
Lemma stale_is_dropped (l : Lock) (short : str) (keep keep_shorts keep_backends : gset str) :
  (forall t, t ∈ entries_for state_short (retain_tool_versions state_short l short keep) short <->
     t ∈ entries_for state_short l short /\ t.(t_version) ∉ stale_tool_versions state_short l short keep) /\
  stale_tool_shorts state_short l keep_shorts keep_backends =
    dom l.(tools) ∖ dom (retain_tools_by_short_or_backend state_short l keep_shorts keep_backends).(tools).
Proof.
  split.
  - intros t. unfold stale_tool_versions, entries_for. rewrite !tools_for_spec. unfold retain_tool_versions. rewrite tool_key_bind.
    destruct (tools l !! state_short short) as [ts|] eqn:Ets; cbn [fmap option_fmap option_map from_option_or].
    2: { simpl. rewrite Ets. set_solver. }
    assert (from_option_or (tools (cleanup_unreferenced_conda_packages (with_tools
      (match List.filter (fun t => bool_decide (t.(t_version) ∈ keep)) ts with
       | [] => delete (state_short short) l.(tools)
       | _ => <[state_short short := List.filter (fun t => bool_decide (t.(t_version) ∈ keep)) ts]> l.(tools) end) l)) !! state_short short) []
      = List.filter (fun t => bool_decide (t.(t_version) ∈ keep)) ts) as Hk.
    { destruct (List.filter _ ts) as [|u us] eqn:E; simpl; [by rewrite lookup_delete_eq|]. by rewrite lookup_insert_eq. }
    rewrite Hk. clear Hk. rewrite !list_elem_of_In, !filter_In, <- !list_elem_of_In, bool_decide_eq_true.
    change (map t_version ?us) with (t_version <$> us). rewrite list_elem_of_fmap. split.
    + intros [Ht Hv]. split; [done|]. intros (u & Hu & Hin). apply list_elem_of_In, filter_In in Hin as [_ Hn].
      apply negb_true_iff, bool_decide_eq_false in Hn. congruence.
    + intros [Ht Hn]. split; [done|]. destruct (decide (t.(t_version) ∈ keep)) as [|Hv]; [done|]. destruct Hn.
      exists t. split; [done|]. apply list_elem_of_In, filter_In. split; [by apply list_elem_of_In|]. by apply negb_true_iff, bool_decide_eq_false.
  - unfold stale_tool_shorts, retain_tools_by_short_or_backend. simpl. apply set_eq. intros key.
    rewrite elem_of_difference, !elem_of_dom. unfold is_Some. setoid_rewrite map_lookup_filter_Some. simpl.
    destruct (tools l !! key) as [ts|] eqn:E; [|naive_solver].
    split.
    + intros (x & [= <-] & Ek). split; [by exists ts|]. intros (x & [= <-] & Ek'). congruence.
    + intros [_ Hn]. exists ts. split; [done|]. apply not_true_is_false. intros Ek. apply Hn. by exists ts.
Qed.

End Facts.

(** ** At concrete lockfiles *)

Definition sample_tool (version : str) (specifiers : gset str) (options : Options) : LockfileTool unit unit :=
  mkLockfileTool version (Some u!"core:node") specifiers options ∅ None None None.

Definition sample_lock : Lockfile unit unit :=
  mkLockfile 1 {[u!"node" := [sample_tool u!"20.1.0" {[u!"20"]} []; sample_tool u!"22.0.0" {[u!"lts"]} [];
                              sample_tool u!"22.0.0" ∅ [(u!"flavor", u!"musl")]]]} ∅ ∅ ∅.

Lemma bind_then_found_example :
  let '(bound, l') := bind_request id sample_lock u!"node" u!"20" u!"22.0.0" [] in
  bound = true /\
  exists ts', l'.(tools) !! u!"node" = Some ts' /\ map (fun t => (t.(t_version), elements t.(t_specifiers))) ts' =
    [(u!"20.1.0", []); (u!"22.0.0", [u!"lts"; u!"20"]); (u!"22.0.0", [])].
Proof.
  assert (keys_unique [sample_tool u!"20.1.0" {[u!"20"]} []; sample_tool u!"22.0.0" {[u!"lts"]} [];
                       sample_tool u!"22.0.0" ∅ [(u!"flavor", u!"musl")]]) as Hnd
    by (apply (bool_decide_unpack _); vm_compute; reflexivity).
  pose proof (bind_then_found id sample_lock u!"node" u!"20" u!"22.0.0" [] _ Hnd eq_refl eq_refl) as H.
  destruct (bind_request id sample_lock u!"node" u!"20" u!"22.0.0" []) as [bound l'] eqn:E.
  destruct H as (Hb & _ & _). split; [apply Hb; apply (bool_decide_unpack _); vm_compute; reflexivity|].
  assert (l' = (bind_request id sample_lock u!"node" u!"20" u!"22.0.0" []).2) as -> by by rewrite E.
  eexists. split; [vm_compute; reflexivity|vm_compute; reflexivity].
Defined.

Lemma nearer_file_wins_example :
  let other : Lockfile unit unit := mkLockfile 1 {[u!"node" := [sample_tool u!"20.1.0" {[u!"prefix:20"]} []]; u!"go" := [sample_tool u!"1.25.0" ∅ []]]} ∅ ∅ ∅ in
  exists ts' t', tools_for id (merge_lockfile_preserving_root id sample_lock other) u!"node" = Some ts' /\ t' ∈ ts' /\
    tool_key_of t' = (u!"20.1.0", []) /\ {[u!"prefix:20"]} ⊆ t'.(t_specifiers).
Proof.
  intros other.
  assert (entries_unique sample_lock.(tools)) as Hu.
  { intros key ts H. unfold sample_lock in H. cbn [tools] in H.
    apply lookup_singleton_Some in H as [_ <-]. apply (bool_decide_unpack _). vm_compute. reflexivity. }
  destruct (nearer_file_wins id sample_lock other Hu) as (_ & _ & H & _).
  destruct (H u!"node" [sample_tool u!"20.1.0" {[u!"prefix:20"]} []] (sample_tool u!"20.1.0" {[u!"prefix:20"]} []))
    as (ts' & t' & H1 & H2 & H3 & H4).
  - vm_compute. reflexivity.
  - by left.
  - exists ts', t'. split; [exact H1|]. split; [exact H2|]. split; [exact H3|exact H4].
Defined.
