(* ===== verification/LockUpdate.v ===== *)
(** * Updating lockfiles ([src/lockfile.rs]): the merge of freshly resolved entries, the checks that
    provenance is not lost, and what an install ([update_lockfiles]) and an automatic lock
    ([apply_lock_result], [auto_lock_new_versions]) do with them

    Of [update_lockfiles] this is the part that changes entries; finding the lockfiles and the
    versions that were installed is input and output. *)

From S2P Require Import Prelude RustStr Order LockInfo Lockfile.

(** ** Order of entries *)

(** [Ord] of a [BTreeMap]: its entries compared one by one. *)
Fixpoint options_cmp (a b : Options) : comparison :=
  match a, b with
  | [], [] => Eq
  | [], _ => Lt
  | _, [] => Gt
  | (k, v) :: a', (k', v') :: b' =>
      match str_cmp k k' with
      | Eq => match str_cmp v v' with Eq => options_cmp a' b' | c => c end
      | c => c
      end
  end.

Definition key_cmp (a b : ToolKey) : comparison :=
  match str_cmp a.1 b.1 with Eq => options_cmp a.2 b.2 | c => c end.

Section Update.

Context {Aube Uv : Type} (state_short : str -> str).

#[local] Abbreviation Tool := (LockfileTool Aube Uv).
#[local] Abbreviation Lock := (Lockfile Aube Uv).
#[local] Abbreviation ByKey := (gmap ToolKey Tool).

(** Stable insertion into a sorted list: before the first entry that is greater. *)
Fixpoint insert_tool (t : Tool) (ts : list Tool) : list Tool :=
  match ts with
  | [] => [t]
  | u :: ts' => match key_cmp (tool_key_of t) (tool_key_of u) with
                | Lt => t :: ts
                | _ => u :: insert_tool t ts'
                end
  end.

Definition sort_tools (ts : list Tool) : list Tool := foldl (fun acc t => insert_tool t acc) [] ts.

(** ** Merging entries *)

(** The specifiers, graphs and the repository that an entry takes from another. *)
Definition take_over (entry t : Tool) : Tool :=
  mkLockfileTool entry.(t_version) entry.(t_backend) (entry.(t_specifiers) ∪ t.(t_specifiers)) entry.(t_options)
    entry.(t_platforms) (or_else entry.(t_aube) t.(t_aube)) (or_else entry.(t_uv) t.(t_uv))
    (or_else entry.(t_provenance) t.(t_provenance)).

(** A fresh entry: merged into the entry of its key, which it becomes where there is none. *)
Definition merge_fresh (by_key : ByKey) (t : Tool) : ByKey :=
  let entry := take_over (from_option_or (by_key !! tool_key_of t) t) t in
  <[tool_key_of t := with_platforms
      (union_with (fun info existing => Some (PlatformInfo_merge_with info existing)) t.(t_platforms) entry.(t_platforms))
      entry]> by_key.

(** An entry without data, of an existing one. *)
Definition blank_of (t : Tool) (options : Options) : Tool :=
  mkLockfileTool t.(t_version) t.(t_backend) t.(t_specifiers) options ∅ t.(t_aube) t.(t_uv) t.(t_provenance).

(** The existing platforms of an entry, each merged below what is there. *)
Definition keep_platforms (fresh existing : gmap str PlatformInfo) : gmap str PlatformInfo :=
  union_with (fun mine info => Some (PlatformInfo_merge_with mine info)) fresh existing.

(** One platform of an existing entry without options. *)
Definition rekey_platform (resolve : str -> Platform -> option Options) (t : Tool) (by_key : ByKey)
    (platform : str * PlatformInfo) : ByKey :=
  let '(platform_key, info) := platform in
  match Platform_parse platform_key ≫= resolve t.(t_version) with
  | None =>
      let entry := from_option_or (by_key !! tool_key_of t) (blank_of t t.(t_options)) in
      <[tool_key_of t := with_platforms (<[platform_key := info]> entry.(t_platforms)) entry]> by_key
  | Some options =>
      let target := from_option_or (by_key !! (t.(t_version), options)) (blank_of t options) in
      let target := with_provenance (or_else target.(t_provenance) t.(t_provenance)) target in
      let target := with_specifiers (target.(t_specifiers) ∪ t.(t_specifiers)) target in
      <[(t.(t_version), options) := with_platforms (keep_platforms target.(t_platforms) {[platform_key := info]}) target]> by_key
  end.

(** The repository of an npm package follows the release into entries of other options. *)
Definition spread_provenance (t : Tool) (by_key : ByKey) : ByKey :=
  match t.(t_provenance) with
  | Some p =>
      map_imap (fun key entry => Some
        (if bool_decide (key.1 = t.(t_version)) && bool_decide (entry.(t_backend) = t.(t_backend))
            && is_none entry.(t_provenance)
         then with_provenance (Some p) entry else entry)) by_key
  | None => by_key
  end.

(** The platforms of an entry that no fresh entry of its version has. *)
Definition not_refreshed (fresh_platforms : list (str * str)) (t : Tool) : gmap str PlatformInfo :=
  filter (fun kv => (t.(t_version), kv.1) ∉ fresh_platforms) t.(t_platforms).

Definition merge_existing (resolve : str -> Platform -> option Options) (fresh_versions : list str)
    (fresh_platforms : list (str * str)) (acc : ByKey * gset ToolKey) (t : Tool) : ByKey * gset ToolKey :=
  let '(by_key, consumed) := acc in
  let key := tool_key_of t in
  let by_key := alter (fun entry => take_over entry t) key (spread_provenance t by_key) in
  match t.(t_options) with
  | _ :: _ =>
      match by_key !! key with
      | Some entry =>
          (<[key := with_specifiers (entry.(t_specifiers) ∪ t.(t_specifiers))
                      (with_platforms (keep_platforms entry.(t_platforms) t.(t_platforms)) entry)]> by_key, consumed)
      | None =>
          if bool_decide (t.(t_version) ∈ fresh_versions) then
            let kept := not_refreshed fresh_platforms t in
            if bool_decide (kept = ∅) then (by_key, consumed)
            else (<[key := with_platforms kept t]> by_key, consumed)
          else (by_key, consumed)
      end
  | [] =>
      if bool_decide (t.(t_version) ∈ fresh_versions) then
        let by_key := foldl (rekey_platform resolve t) by_key (in_key_order t.(t_platforms)) in
        (by_key, if is_some (by_key !! key) then consumed else {[key]} ∪ consumed)
      else (by_key, consumed)
  end.

Definition merge_tool_entries (entries : list Tool) (existing_tools : option (list Tool))
    (resolve : str -> Platform -> option Options) : list Tool * gset ToolKey :=
  let by_key := foldl merge_fresh ∅ entries in
  let fresh_versions := (fun kt => kt.1.1) <$> map_to_list by_key in
  let fresh_platforms := map_to_list by_key ≫= fun kt => (fun p => (kt.1.1, p)) <$> elements (dom kt.2.(t_platforms)) in
  let '(by_key, consumed_keys) :=
    match existing_tools with
    | Some existing => foldl (merge_existing resolve fresh_versions fresh_platforms) (by_key, ∅) existing
    | None => (by_key, ∅)
    end in
  (sort_tools (map_to_list by_key).*2, consumed_keys).

Definition has_key (ts : list Tool) (key : ToolKey) : bool := existsb (fun t => bool_decide (tool_key_of t = key)) ts.

(** [preserve_absent_tool_entries]: keys and entries so far. *)
Definition preserve_absent (consumed_keys : gset ToolKey) (acc : gset ToolKey * list Tool) (t : Tool) : gset ToolKey * list Tool :=
  if bool_decide (tool_key_of t ∈ acc.1) || bool_decide (tool_key_of t ∈ consumed_keys) then acc
  else ({[tool_key_of t]} ∪ acc.1, acc.2 ++ [t]).

Definition preserve_absent_tool_entries (merged_tools : list Tool) (existing_tools : option (list Tool))
    (consumed_keys : gset ToolKey) : list Tool :=
  match existing_tools with
  | None => merged_tools
  | Some existing =>
      sort_tools (foldl (preserve_absent consumed_keys) (list_to_set (map tool_key_of merged_tools), merged_tools) existing).2
  end.

(** [record_rekey_decision] *)
Definition record_rekey_decision (decisions : gmap (str * str) (option Options)) (key : str * str)
    (resolved : option Options) : gmap (str * str) (option Options) :=
  match decisions !! key with
  | None => <[key := resolved]> decisions
  | Some before => if bool_decide (before = resolved) then decisions else <[key := None]> decisions
  end.

(** ** Provenance must not be lost *)

Section Provenance.

(** [nodejs_semver::Version::parse] and the order of its versions. *)
Context {Version : Type} (parse_version : str -> option Version) (version_cmp : Version -> Version -> comparison).

Definition strip_leading_v (version : str) : str :=
  match version with
  | c :: rest =>
      if one_of u!"vV" c then
        match rest with d :: _ => if is_ascii_digit d then rest else version | [] => version end
      else version
  | [] => version
  end.

Definition parse_provenance_version (version : str) : option Version := parse_version (strip_leading_v version).

Definition has_provenance (platform_key : str) (t : Tool) : bool :=
  match t.(t_platforms) !! platform_key with Some info => is_some info.(p_provenance) | None => false end.

(** The entries a version of a backend is compared with. *)
Definition prior_versions (ts : list Tool) (version backend platform_key : str) : list (Version * Tool) :=
  omap (fun t =>
    if negb (bool_decide (t.(t_version) = version)) && bool_decide (t.(t_backend) = Some backend)
       && has_provenance platform_key t
    then (fun v => (v, t)) <$> parse_provenance_version t.(t_version) else None) ts.

Definition find_provenance_regression_baseline (existing_tools : option (list Tool)) (version backend platform_key : str)
    (new_provenance : option ProvenanceType) : option Tool :=
  if is_some new_provenance || negb (starts_with u!"github:" backend) then None else
  match existing_tools with
  | None => None
  | Some ts =>
      match parse_provenance_version version with
      | None => None
      | Some new_version =>
          match max_by (fun a b => version_cmp a.1 b.1) None (prior_versions ts version backend platform_key) with
          | None => None
          | Some (prior_version, prior) =>
              match version_cmp new_version prior_version with Gt => Some prior | _ => None end
          end
      end
  end.

(** What an error of these checks says. *)
Inductive LockError : Type :=
| LostProvenance (short version platform_key baseline : str)
| ReplacedArtifact (short version platform_key : str) (url : option str) (provenance : ProvenanceType).

Definition check_single_tool_provenance (existing_tools : option (list Tool)) (short version backend platform_key : str)
    (new_provenance : option ProvenanceType) : option LockError :=
  (fun baseline => LostProvenance short version platform_key baseline.(t_version))
    <$> find_provenance_regression_baseline existing_tools version backend platform_key new_provenance.

Definition loses_provenance (replaces : bool) (old_checksum : option str) (old_provenance : option ProvenanceType)
    (new_checksum : option str) (new_provenance : option ProvenanceType) : bool :=
  checksum_changed old_checksum new_checksum && provenance_is_downgrade old_provenance new_provenance replaces.

(** What is locked for the version, backend, options and platform. *)
Definition locked_artifact (existing_tools : option (list Tool)) (version backend : str) (options : Options)
    (platform_key : str) : option PlatformInfo :=
  match existing_tools with
  | None => None
  | Some ts =>
      match List.find (fun t =>
              bool_decide (t.(t_version) = version) && bool_decide (t.(t_options) = options)
              && match t.(t_backend) with Some b => bool_decide (b = backend) | None => true end) ts with
      | Some t => t.(t_platforms) !! platform_key
      | None => None
      end
  end.

Definition check_replaced_artifact_provenance (existing_tools : option (list Tool)) (short version backend : str)
    (options : Options) (platform_key : str) (new : PlatformInfo) : option LockError :=
  match locked_artifact existing_tools version backend options platform_key with
  | None => None
  | Some existing =>
      let replaces := starts_with u!"packslip:" backend && is_some new.(p_signer) in
      let error url (provenance : option ProvenanceType) := ReplacedArtifact short version platform_key url <$> provenance in
      if loses_provenance replaces existing.(p_checksum) existing.(p_provenance) new.(p_checksum) new.(p_provenance)
      then error existing.(p_url) existing.(p_provenance)
      else
        match List.find (fun no => loses_provenance replaces no.2.(a_checksum) no.2.(a_provenance)
                                     no.1.(a_checksum) no.1.(a_provenance))
                (combine new.(p_additional_artifacts) existing.(p_additional_artifacts)) with
        | Some (_, old) => error (Some old.(a_url)) old.(a_provenance)
        | None => None
        end
  end.

(** [LockResolutionResult] *)
Record LockResolution := mkLockResolution {
  r_short : str;
  r_version : str;
  r_backend : str;
  r_platform : Platform;
  r_info : str + PlatformInfo;
  r_options : Options;
  r_conda_packages : gmap str CondaPackageInfo
}.

Definition apply_conda (platform_key : str) (packages : gmap str CondaPackageInfo) (l : Lock) : Lock :=
  foldl (fun l kv => set_conda_package l platform_key kv.1 kv.2) l (in_key_order packages).

Definition apply_lock_result (l : Lock) (r : LockResolution) : result LockError (bool * Lock) :=
  let platform_key := to_key r.(r_platform) in
  let existing := tools_for state_short l r.(r_short) in
  let packages (applied : bool) (l : Lock) : result LockError (bool * Lock) :=
    Ok (applied || negb (bool_decide (r.(r_conda_packages) = ∅)), apply_conda platform_key r.(r_conda_packages) l) in
  match r.(r_info) with
  | inl _ => packages false l
  | inr info =>
      match check_single_tool_provenance existing r.(r_short) r.(r_version) r.(r_backend) platform_key info.(p_provenance) with
      | Some err => Err err
      | None =>
          match check_replaced_artifact_provenance existing r.(r_short) r.(r_version) r.(r_backend) r.(r_options) platform_key info with
          | Some err => Err err
          | None =>
              let set l := set_platform_info state_short l r.(r_short) r.(r_version) (Some r.(r_backend)) r.(r_options) platform_key info in
              if PlatformInfo_is_empty info then
                if has_key (from_option_or existing []) (r.(r_version), r.(r_options)) then packages false l
                else packages false (set l)
              else packages true (set l)
          end
      end
  end.

(** ** An install *)

Record ProvenanceRegressionCheck := mkRegressionCheck {
  regressing : gset str;
  regression_errors : list LockError;
  deferred_baselines : gmap str (list Tool)
}.

(** One fresh entry of [check_provenance_regression]. *)
Definition check_entry (existing : Lock) (current_platform short : str) (acc : ProvenanceRegressionCheck) (new_entry : Tool)
    : ProvenanceRegressionCheck :=
  let info := new_entry.(t_platforms) !! current_platform in
  match find_provenance_regression_baseline (tools_for state_short existing short) new_entry.(t_version)
          (from_option_or new_entry.(t_backend) []) current_platform (info ≫= p_provenance) with
  | None => acc
  | Some baseline =>
      if is_some (info ≫= p_url) then
        mkRegressionCheck ({[short]} ∪ acc.(regressing))
          (acc.(regression_errors) ++ [LostProvenance short new_entry.(t_version) current_platform baseline.(t_version)])
          acc.(deferred_baselines)
      else
        mkRegressionCheck acc.(regressing) acc.(regression_errors)
          (<[short := from_option_or (acc.(deferred_baselines) !! short) [] ++ [baseline]]> acc.(deferred_baselines))
  end.

Definition check_provenance_regression (existing : Lock) (current_platform : str) (new_tools : list (str * list Tool))
    : ProvenanceRegressionCheck :=
  foldl (fun acc st => foldl (check_entry existing current_platform st.1) acc st.2)
    (mkRegressionCheck ∅ [] ∅) new_tools.

Definition reinsert_deferred_baselines (merged_tools : list Tool) (deferred : gmap str (list Tool)) (short : str) : list Tool :=
  foldl (fun ts baseline => if has_key ts (tool_key_of baseline) then ts else ts ++ [baseline])
    merged_tools (from_option_or (deferred !! short) []).

(** A Python that a tool of its own selects: selector and options. *)
Abbreviation SelectedPython := (str * Options)%type (only parsing).

Definition binds (t : Tool) (request : SelectedPython) : bool :=
  bool_decide (t.(t_options) = request.2) && bool_decide (request.1 ∈ t.(t_specifiers)).

Definition preserve_selected_python_entries (merged_tools : list Tool) (existing_tools : option (list Tool))
    (selected : list SelectedPython) : list Tool :=
  match existing_tools with
  | None => merged_tools
  | Some existing =>
      let unlocked := List.filter (fun request => negb (existsb (fun t => binds t request) merged_tools)) selected in
      foldl (fun ts t =>
        let bound := List.filter (binds t) unlocked in
        if negb (match bound with [] => true | _ => false end) && negb (has_key ts (tool_key_of t))
        then ts ++ [with_specifiers (filter (fun s => s ∈ bound.*1) t.(t_specifiers)) t]
        else ts) merged_tools existing
  end.

(** The bindings that fresh entries ask for. *)
Definition bindings_of (entries : list Tool) : list (str * str * Options) :=
  entries ≫= fun t => (fun s => (s, t.(t_version), t.(t_options))) <$> key_order t.(t_specifiers).

(** One tool of [update_lockfiles]. *)
Definition update_tool (is_monorepo_root_lockfile : bool) (resolve : str -> Platform -> option Options)
    (selected_python : option (list SelectedPython)) (check : ProvenanceRegressionCheck) (l : Lock) (short : str)
    (entries : list Tool) : Lock :=
  if bool_decide (short ∈ check.(regressing)) then l else
  let existing := tools_for state_short l short in
  let '(merged_tools, consumed_keys) := merge_tool_entries entries existing resolve in
  let merged_tools := if is_monorepo_root_lockfile
                      then preserve_absent_tool_entries merged_tools existing consumed_keys else merged_tools in
  let merged_tools := match selected_python with
                      | Some specifiers => preserve_selected_python_entries merged_tools existing specifiers
                      | None => merged_tools
                      end in
  let merged_tools := reinsert_deferred_baselines merged_tools check.(deferred_baselines) short in
  let l := with_tools (<[state_short short := merged_tools]> l.(tools)) l in
  if uses_request_bindings l
  then foldl (fun l b => (bind_request state_short l short b.1.1 b.1.2 b.2).2) l (bindings_of entries)
  else l.

(** ** Once the upgrade is verified *)

(** The baseline that the check of an entry compares with. *)
Definition baseline_of (ts : list Tool) (platform_key : str) (t : Tool) : option ToolKey :=
  tool_key_of <$> find_provenance_regression_baseline (Some ts) t.(t_version) (from_option_or t.(t_backend) []) platform_key None.

(** The baseline that is not needed any more, if there is one. *)
Definition stale_baseline (ts : list Tool) (requested_versions : gset str) (platform_key : str) : option ToolKey :=
  let requested := List.filter (fun t => bool_decide (t.(t_version) ∈ requested_versions)) ts in
  let still_needed := omap (baseline_of ts platform_key) (List.filter (fun t => negb (has_provenance platform_key t)) requested) in
  List.find (fun key => negb (bool_decide (key.1 ∈ requested_versions)) && negb (bool_decide (key ∈ still_needed)))
    (omap (baseline_of ts platform_key) (List.filter (has_provenance platform_key) requested)).

Fixpoint prune_loop (fuel : nat) (ts : list Tool) (requested_versions : gset str) (platform_key : str) (pruned : list str)
    : result Empty_set (list str * list Tool) :=
  match stale_baseline ts requested_versions platform_key with
  | None => Ok (pruned, ts)
  | Some key =>
      match fuel with
      | 0 => OutOfFuel
      | S fuel =>
          prune_loop fuel (List.filter (fun t => negb (bool_decide (tool_key_of t = key))) ts) requested_versions platform_key
            (pruned ++ [key.1])
      end
  end.

(** Versions pruned and the entries left. Every round removes an entry. *)
Definition prune_verified_provenance_baselines (ts : list Tool) (requested_versions : gset str) (platform_key : str)
    : result Empty_set (list str * list Tool) :=
  prune_loop (length ts) ts requested_versions platform_key [].

End Provenance.

End Update.
