(* ===== verification/LockUpdateSpec.v ===== *)
(** * What updates of lockfiles promise: the merge of entries

    Merged entries are one per version and options, in order, and no platform's data is lost on the
    way; see [LockRatchet] for provenance. *)

From Stdlib Require Import Sorting.Sorted.
From S2P Require Import Prelude RustStr LockInfo LockInfoSpec Lockfile LockfileSpec LockUpdate.

(** ** Order of keys *)

Lemma options_cmp_eq a b : options_cmp a b = Eq <-> a = b.
Proof.
  revert b. induction a as [|[k v] a IH]; intros [|[k' v'] b]; simpl; try done.
  destruct (str_cmp k k') eqn:Ek; [|split; [done|intros [= -> -> ->]]..].
  - apply str_cmp_eq in Ek as ->. destruct (str_cmp v v') eqn:Ev; [|split; [done|intros [= -> ->]]..].
    + apply str_cmp_eq in Ev as ->. rewrite IH. split; [by intros ->|by intros [=]].
    + by rewrite (proj2 (str_cmp_eq v' v') eq_refl) in Ev.
    + by rewrite (proj2 (str_cmp_eq v' v') eq_refl) in Ev.
  - by rewrite (proj2 (str_cmp_eq k' k') eq_refl) in Ek.
  - by rewrite (proj2 (str_cmp_eq k' k') eq_refl) in Ek.
Qed.

Lemma options_cmp_antisym a b : options_cmp b a = CompOpp (options_cmp a b).
Proof.
  revert b. induction a as [|[k v] a IH]; intros [|[k' v'] b]; simpl; try done.
  rewrite (str_cmp_antisym k k'), (str_cmp_antisym v v'). destruct (str_cmp k k'); simpl; [|done..].
  by destruct (str_cmp v v'); simpl.
Qed.

Lemma str_cmp_refl a : str_cmp a a = Eq.
Proof. by apply str_cmp_eq. Qed.

Lemma options_lt_trans a b c : options_cmp a b = Lt -> options_cmp b c = Lt -> options_cmp a c = Lt.
Proof.
  revert b c. induction a as [|[k v] a IH]; intros [|[k' v'] b] [|[k'' v''] c]; simpl; try done.
  destruct (str_cmp k k') eqn:E1; [|intros _|done].
  - apply str_cmp_eq in E1 as ->. destruct (str_cmp k' k''); [|done..].
    destruct (str_cmp v v') eqn:E2; [|intros _|done].
    + apply str_cmp_eq in E2 as ->. destruct (str_cmp v' v''); [|done..]. apply IH.
    + destruct (str_cmp v' v'') eqn:E3; [|intros _|done].
      * apply str_cmp_eq in E3 as ->. by rewrite E2.
      * by rewrite (str_lt_trans v v' v'' E2 E3).
  - destruct (str_cmp k' k'') eqn:E3; [|intros _|done].
    + apply str_cmp_eq in E3 as ->. by rewrite E1.
    + by rewrite (str_lt_trans k k' k'' E1 E3).
Qed.

Lemma key_cmp_eq (a b : ToolKey) : key_cmp a b = Eq <-> a = b.
Proof.
  destruct a as [v o], b as [v' o']. unfold key_cmp. simpl. destruct (str_cmp v v') eqn:E.
  - apply str_cmp_eq in E as ->. rewrite options_cmp_eq. split; [by intros ->|by intros [=]].
  - split; [done|intros [= -> _]]. by rewrite str_cmp_refl in E.
  - split; [done|intros [= -> _]]. by rewrite str_cmp_refl in E.
Qed.

Lemma key_cmp_antisym (a b : ToolKey) : key_cmp b a = CompOpp (key_cmp a b).
Proof.
  unfold key_cmp. rewrite (str_cmp_antisym a.1 b.1). destruct (str_cmp a.1 b.1); simpl; [apply options_cmp_antisym|done..].
Qed.

Lemma key_lt_trans (a b c : ToolKey) : key_cmp a b = Lt -> key_cmp b c = Lt -> key_cmp a c = Lt.
Proof.
  unfold key_cmp. destruct (str_cmp a.1 b.1) eqn:E1; [|intros _|done].
  - apply str_cmp_eq in E1 as ->. destruct (str_cmp b.1 c.1); [|done..]. apply options_lt_trans.
  - destruct (str_cmp b.1 c.1) eqn:E3; [|intros _|done].
    + apply str_cmp_eq in E3 as <-. by rewrite E1.
    + by rewrite (str_lt_trans _ _ _ E1 E3).
Qed.

Section Facts.

Context {Aube Uv : Type}.

#[local] Abbreviation Tool := (LockfileTool Aube Uv).
#[local] Abbreviation Lock := (Lockfile Aube Uv).
#[local] Abbreviation ByKey := (gmap ToolKey Tool).

Implicit Types (resolve : str -> Platform -> option Options) (t : Tool) (m : ByKey) (k : ToolKey)
  (fresh_versions : list str) (fresh_platforms : list (str * str)).

(** An entry strictly before another. *)
Definition tool_lt (a b : Tool) : Prop := key_cmp (tool_key_of a) (tool_key_of b) = Lt.

Lemma insert_tool_perm (t : Tool) ts : insert_tool t ts ≡ₚ t :: ts.
Proof.
  induction ts as [|u ts IH]; simpl; [done|]. destruct (key_cmp _ _); [|done|]; rewrite IH; apply perm_swap.
Qed.

Lemma sort_tools_perm_acc (ts acc : list Tool) : foldl (fun acc t => insert_tool t acc) acc ts ≡ₚ acc ++ ts.
Proof.
  revert acc. induction ts as [|t ts IH]; intros acc; simpl; [by rewrite app_nil_r|].
  by rewrite IH, insert_tool_perm, <- Permutation_middle.
Qed.

Lemma sort_tools_perm (ts : list Tool) : sort_tools ts ≡ₚ ts.
Proof. apply (sort_tools_perm_acc ts []). Qed.

Lemma insert_tool_sorted (t : Tool) ts :
  StronglySorted tool_lt ts -> tool_key_of t ∉ map tool_key_of ts -> StronglySorted tool_lt (insert_tool t ts).
Proof.
  induction 1 as [|u ts Hs IH HF]; simpl; intros Hni; [repeat constructor|].
  apply not_elem_of_cons in Hni as [Hne Hni]. destruct (key_cmp (tool_key_of t) (tool_key_of u)) eqn:E.
  - by apply key_cmp_eq in E.
  - constructor; [by constructor|]. constructor; [done|]. eapply Forall_impl; [exact HF|].
    intros w Hw. by apply (key_lt_trans _ (tool_key_of u)).
  - constructor; [by apply IH|]. rewrite insert_tool_perm. constructor; [|done].
    unfold tool_lt. by rewrite key_cmp_antisym, E.
Qed.

Lemma sort_tools_sorted (ts : list Tool) : keys_unique ts -> StronglySorted tool_lt (sort_tools ts).
Proof.
  unfold sort_tools. intros Hnd.
  assert (forall ts acc : list Tool, StronglySorted tool_lt acc -> NoDup (map tool_key_of (acc ++ ts)) ->
    StronglySorted tool_lt (foldl (fun acc t => insert_tool t acc) acc ts)) as H; [|by apply H; [constructor|]].
  clear. intros ts. induction ts as [|t ts IH]; intros acc Hs Hn; simpl; [done|]. apply IH.
  - apply insert_tool_sorted; [done|]. rewrite map_app in Hn. simpl in Hn.
    apply NoDup_app in Hn as (_ & Hd & _). intros Hin. apply (Hd _ Hin). by left.
  - rewrite insert_tool_perm. simpl. rewrite map_app in *. simpl in *.
    by rewrite Permutation_middle.
Qed.

Lemma sorted_keys_unique (ts : list Tool) : StronglySorted tool_lt ts -> keys_unique ts.
Proof.
  induction 1 as [|t ts Hs IH HF]; [constructor|]. unfold keys_unique. simpl. constructor; [|done].
  change (map tool_key_of ts) with (tool_key_of <$> ts). intros (u & E & Hu)%list_elem_of_fmap.
  rewrite Forall_forall in HF. specialize (HF u Hu). unfold tool_lt in HF. rewrite <- E in HF.
  by rewrite (proj2 (key_cmp_eq _ _) eq_refl) in HF.
Qed.

(** ** Entries by key *)

Definition key_ok (m : ByKey) : Prop := forall k t, m !! k = Some t -> tool_key_of t = k.

(** The entries only gain platforms and bindings. *)
Definition grows (m m' : ByKey) : Prop :=
  forall k t, m !! k = Some t ->
    exists t', m' !! k = Some t' /\ t'.(t_backend) = t.(t_backend) /\
      dom t.(t_platforms) ⊆ dom t'.(t_platforms) /\ t.(t_specifiers) ⊆ t'.(t_specifiers).

#[export] Instance grows_refl : Reflexive grows.
Proof. intros m k t Hk. by exists t. Qed.

#[export] Instance grows_trans : Transitive grows.
Proof.
  intros m1 m2 m3 H1 H2 k t Hk. destruct (H1 k t Hk) as (t' & Hk' & B1 & P1 & S1).
  destruct (H2 k t' Hk') as (t'' & Hk'' & B2 & P2 & S2). exists t''. split_and!; [done|congruence|set_solver..].
Qed.

(** Some entry of a version has data of a platform. *)
Definition covered (m : ByKey) (version platform : str) : Prop :=
  exists k t, m !! k = Some t /\ k.1 = version /\ platform ∈ dom t.(t_platforms).

Lemma covered_grows m m' version platform : grows m m' -> covered m version platform -> covered m' version platform.
Proof.
  intros Hg (k & t & Hk & Hv & Hp). destruct (Hg k t Hk) as (t' & Hk' & _ & Hd & _). exists k, t'. set_solver.
Qed.

Lemma insert_grows (m : ByKey) (k : ToolKey) (t : Tool) :
  (forall u, m !! k = Some u -> t.(t_backend) = u.(t_backend) /\ dom u.(t_platforms) ⊆ dom t.(t_platforms) /\ u.(t_specifiers) ⊆ t.(t_specifiers)) ->
  grows m (<[k := t]> m).
Proof.
  intros H k' u Hk'. destruct (decide (k = k')) as [<-|Hne].
  - exists t. rewrite lookup_insert_eq. by destruct (H u Hk') as (? & ? & ?).
  - exists u. by rewrite lookup_insert_ne.
Qed.

Lemma insert_key_ok (m : ByKey) (k : ToolKey) (t : Tool) : key_ok m -> tool_key_of t = k -> key_ok (<[k := t]> m).
Proof.
  intros Hm Ht k' u. destruct (decide (k = k')) as [<-|Hne].
  - rewrite lookup_insert_eq. by intros [= <-].
  - rewrite lookup_insert_ne by done. apply Hm.
Qed.

Lemma dom_union_with {V} (f : V -> V -> V) (m1 m2 : gmap str V) :
  dom (union_with (fun a b => Some (f a b)) m1 m2) = dom m1 ∪ dom m2.
Proof.
  apply set_eq. intros k. rewrite elem_of_union, !elem_of_dom, lookup_union_with.
  destruct (m1 !! k), (m2 !! k); simpl; split; intros; destruct_or?; unfold is_Some in *; naive_solver.
Qed.

Lemma values_unique (m : ByKey) : key_ok m -> keys_unique (map_to_list m).*2.
Proof.
  intros Hm. unfold keys_unique. change (map tool_key_of) with (fmap (M:=list) (@tool_key_of Aube Uv)).
  assert (tool_key_of <$> (map_to_list m).*2 = (map_to_list m).*1) as ->; [|apply NoDup_fst_map_to_list].
  rewrite <- list_fmap_compose. apply list_fmap_ext. intros i [k t] Hi. simpl. apply Hm.
  apply elem_of_map_to_list. by eapply list_elem_of_lookup_2.
Qed.

Lemma merge_fresh_spec (m : ByKey) t :
  key_ok m ->
  key_ok (merge_fresh m t) /\ grows m (merge_fresh m t) /\
  exists t', merge_fresh m t !! tool_key_of t = Some t' /\ dom t.(t_platforms) ⊆ dom t'.(t_platforms) /\ t.(t_specifiers) ⊆ t'.(t_specifiers).
Proof.
  intros Hm. unfold merge_fresh. split_and!.
  - apply insert_key_ok; [done|]. destruct (m !! tool_key_of t) as [u|] eqn:E; simpl; [|done]. by apply Hm in E.
  - apply insert_grows. intros u ->. simpl. rewrite dom_union_with. split_and!; [done|set_solver..].
  - eexists. rewrite lookup_insert_eq. split; [done|]. simpl. rewrite dom_union_with. split; [set_solver|].
    destruct (m !! _); simpl; set_solver.
Qed.

Lemma merge_fresh_all (ts : list Tool) m :
  key_ok m ->
  let m' := foldl merge_fresh m ts in
  key_ok m' /\ grows m m' /\
  (forall t, t ∈ ts -> exists t', m' !! tool_key_of t = Some t' /\ dom t.(t_platforms) ⊆ dom t'.(t_platforms) /\ t.(t_specifiers) ⊆ t'.(t_specifiers)) /\
  (forall k, is_Some (m' !! k) -> is_Some (m !! k) \/ k ∈ map tool_key_of ts).
Proof.
  revert m. induction ts as [|t ts IH]; intros m Hm; simpl.
  { split_and!; [done|done|by intros t ?%elem_of_nil|by left]. }
  destruct (merge_fresh_spec m t Hm) as (Hk & Hg & t' & Ht' & Hd & Hs).
  destruct (IH _ Hk) as (Hk' & Hg' & Hin & Hfrom). split_and!; [done|by transitivity (merge_fresh m t)| |].
  - intros u [->|Hu]%elem_of_cons; [|by apply Hin]. destruct (Hg' _ _ Ht') as (t'' & Ht'' & _ & Hd' & Hs').
    exists t''. split; [done|]. set_solver.
  - intros k Hk1. destruct (Hfrom k Hk1) as [Hk2|Hk2]; [|right; by right].
    unfold merge_fresh in Hk2. destruct (decide (k = tool_key_of t)) as [->|Hne]; [right; by left|].
    rewrite lookup_insert_ne in Hk2 by done. by left.
Qed.

Lemma spread_provenance_spec (t : Tool) (m : ByKey) :
  key_ok m -> key_ok (spread_provenance t m) /\ grows m (spread_provenance t m) /\ dom (spread_provenance t m) = dom m.
Proof.
  intros Hm. unfold spread_provenance. destruct (t_provenance t) as [p|]; [|done].
  set (f := fun (key : ToolKey) (entry : Tool) =>
    if bool_decide (key.1 = t.(t_version)) && bool_decide (entry.(t_backend) = t.(t_backend)) && is_none entry.(t_provenance)
    then with_provenance (Some p) entry else entry).
  change (map_imap _ m) with (map_imap (fun k e => Some (f k e)) m).
  assert (forall k u, tool_key_of (f k u) = tool_key_of u /\ t_backend (f k u) = t_backend u /\
    t_platforms (f k u) = t_platforms u /\ t_specifiers (f k u) = t_specifiers u) as Hf.
  { intros k u. unfold f. by destruct (_ && _). }
  split_and!.
  - intros k u. rewrite map_lookup_imap. destruct (m !! k) as [u0|] eqn:E; simpl; [|done]. intros [= <-].
    destruct (Hf k u0) as (-> & _). by apply Hm.
  - intros k u Hk. exists (f k u). rewrite map_lookup_imap, Hk. destruct (Hf k u) as (_ & -> & -> & ->). done.
  - apply set_eq. intros k. rewrite !elem_of_dom, map_lookup_imap. destruct (m !! k); simpl; unfold is_Some; naive_solver.
Qed.

Lemma take_over_spec (t : Tool) (k : ToolKey) (m : ByKey) :
  key_ok m -> key_ok (alter (fun e => take_over e t) k m) /\ grows m (alter (fun e => take_over e t) k m) /\
  dom (alter (fun e => take_over e t) k m) = dom m.
Proof.
  intros Hm. split_and!; [| |by rewrite dom_alter_L].
  - intros k' u. rewrite lookup_alter_Some. intros [(<- & u0 & Hu & ->)|(_ & Hu)]; [|by apply Hm].
    by apply Hm in Hu.
  - intros k' u Hu. destruct (decide (k = k')) as [<-|Hne].
    + exists (take_over u t). rewrite lookup_alter_eq, Hu. split_and!; [done..|]. simpl. set_solver.
    + exists u. by rewrite lookup_alter_ne.
Qed.

Lemma rekey_platform_spec resolve (t : Tool) (m : ByKey) pi :
  key_ok m ->
  let m' := rekey_platform resolve t m pi in
  key_ok m' /\ grows m m' /\ covered m' t.(t_version) pi.1 /\
  (forall k, is_Some (m' !! k) -> is_Some (m !! k) \/ k.1 = t.(t_version)).
Proof.
  intros Hm. destruct pi as [platform info]. simpl. destruct (Platform_parse platform ≫= resolve (t_version t)) as [o|].
  - assert (tool_key_of (from_option_or (m !! (t_version t, o)) (blank_of t o)) = (t_version t, o)) as Hk.
    { destruct (m !! (t_version t, o)) eqn:E; simpl; [by apply Hm|done]. }
    split_and!.
    + apply insert_key_ok; [done|exact Hk].
    + apply insert_grows. intros u ->. simpl. unfold keep_platforms. rewrite dom_union_with. split_and!; [done|set_solver..].
    + eexists _, _. rewrite lookup_insert_eq. split_and!; [done..|]. simpl. unfold keep_platforms. rewrite dom_union_with. set_solver.
    + intros k. destruct (decide (k = (t_version t, o))) as [->|Hne]; [by right|]. rewrite lookup_insert_ne by done. by left.
  - assert (tool_key_of (from_option_or (m !! tool_key_of t) (blank_of t (t_options t))) = tool_key_of t) as Hk.
    { destruct (m !! tool_key_of t) eqn:E; simpl; [by apply Hm|done]. }
    split_and!.
    + apply insert_key_ok; [done|exact Hk].
    + apply insert_grows. intros u ->. simpl. rewrite dom_insert. split_and!; [done|set_solver..].
    + eexists _, _. rewrite lookup_insert_eq. split_and!; [done..|]. simpl. rewrite dom_insert. set_solver.
    + intros k. destruct (decide (k = tool_key_of t)) as [->|Hne]; [by right|]. rewrite lookup_insert_ne by done. by left.
Qed.

Lemma rekey_all resolve (t : Tool) (l : list (str * PlatformInfo)) (m : ByKey) :
  key_ok m ->
  let m' := foldl (rekey_platform resolve t) m l in
  key_ok m' /\ grows m m' /\ (forall p, p ∈ l.*1 -> covered m' t.(t_version) p) /\
  (forall k, is_Some (m' !! k) -> is_Some (m !! k) \/ k.1 = t.(t_version)).
Proof.
  revert m. induction l as [|pi l IH]; intros m Hm; simpl.
  { split_and!; [done|done|by intros p ?%elem_of_nil|by left]. }
  destruct (rekey_platform_spec resolve t m pi Hm) as (Hk & Hg & Hc & Hf).
  destruct (IH _ Hk) as (Hk' & Hg' & Hc' & Hf'). split_and!; [done|by transitivity (rekey_platform resolve t m pi)| |].
  - intros p [->|Hp]%elem_of_cons; [|by apply Hc']. by apply (covered_grows (rekey_platform resolve t m pi)).
  - intros k Hk1. destruct (Hf' k Hk1) as [Hk2|]; [|by right]. by apply Hf.
Qed.

Lemma merge_existing_spec resolve fresh_versions fresh_platforms (acc : ByKey * gset ToolKey) (t : Tool) :
  key_ok acc.1 -> (forall v p, (v, p) ∈ fresh_platforms -> covered acc.1 v p) ->
  (forall k, is_Some (acc.1 !! k) -> k.1 ∈ fresh_versions) ->
  let acc' := merge_existing resolve fresh_versions fresh_platforms acc t in
  key_ok acc'.1 /\ grows acc.1 acc'.1 /\ (forall k, is_Some (acc'.1 !! k) -> k.1 ∈ fresh_versions) /\
  (t.(t_version) ∈ fresh_versions -> forall p, p ∈ dom t.(t_platforms) -> covered acc'.1 t.(t_version) p).
Proof.
  destruct acc as [m consumed]. simpl. intros Hm Hfp Hfv. unfold merge_existing.
  destruct (spread_provenance_spec t m Hm) as (K1 & G1 & D1).
  destruct (take_over_spec t (tool_key_of t) _ K1) as (K2 & G2 & D2).
  set (m2 := alter _ _ _) in *. assert (grows m m2) as G by (by transitivity (spread_provenance t m)).
  assert (forall k, is_Some (m2 !! k) -> k.1 ∈ fresh_versions) as Hfv2.
  { intros k Hk. apply Hfv. apply elem_of_dom. rewrite <- D1, <- D2. by apply elem_of_dom. }
  destruct (t_options t) as [|o os] eqn:Eo.
  - destruct (decide (t_version t ∈ fresh_versions)) as [Hv|Hv].
    + rewrite bool_decide_true by done. simpl.
      destruct (rekey_all resolve t (in_key_order (t_platforms t)) m2 K2) as (K3 & G3 & C3 & F3).
      split_and!; [done|by transitivity m2| |].
      * intros k Hk. destruct (F3 k Hk) as [Hk'| ->]; [by apply Hfv2|done].
      * intros _ p Hp. apply C3. by rewrite in_key_order_keys, elem_of_key_order.
    + rewrite bool_decide_false by done. split_and!; done.
  - destruct (m2 !! tool_key_of t) as [e|] eqn:Ee; simpl.
    + assert (tool_key_of e = tool_key_of t) as Hk by by apply K2. split_and!.
      * by apply insert_key_ok.
      * transitivity m2; [done|]. apply insert_grows. rewrite Ee. intros u [= <-]. simpl. unfold keep_platforms.
        rewrite dom_union_with. split_and!; [done|set_solver..].
      * intros k. destruct (decide (k = tool_key_of t)) as [->|Hne].
        { intros _. apply Hfv2. by rewrite Ee. }
        rewrite lookup_insert_ne by done. apply Hfv2.
      * intros _ p Hp. eexists (tool_key_of t), _. rewrite lookup_insert_eq. split_and!; [done..|]. simpl.
        unfold keep_platforms. rewrite dom_union_with. set_solver.
    + destruct (decide (t_version t ∈ fresh_versions)) as [Hv|Hv];
        [rewrite (bool_decide_true (_ ∈ _)) by done|rewrite (bool_decide_false (_ ∈ _)) by done; split_and!; done].
      assert (forall p, p ∈ dom t.(t_platforms) -> p ∈ dom (not_refreshed fresh_platforms t) \/ covered m2 (t_version t) p) as Hor.
      { intros p Hp. destruct (decide ((t_version t, p) ∈ fresh_platforms)) as [Hin|Hni].
        - right. apply (covered_grows m); [done|]. by apply Hfp.
        - left. unfold not_refreshed. apply elem_of_dom in Hp as [i Hi]. apply elem_of_dom. exists i.
          by apply map_lookup_filter_Some. }
      case_bool_decide as Ek; simpl.
      * split_and!; [done..|]. intros _ p Hp. destruct (Hor p Hp) as [Hd|]; [|done]. by rewrite Ek, dom_empty in Hd.
      * assert (grows m2 (<[tool_key_of t := with_platforms (not_refreshed fresh_platforms t) t]> m2)) as G3
          by (apply insert_grows; by rewrite Ee).
        split_and!; [by apply insert_key_ok|by transitivity m2| |].
        { intros k. destruct (decide (k = tool_key_of t)) as [->|Hne]; [done|]. rewrite lookup_insert_ne by done. apply Hfv2. }
        intros _ p Hp. destruct (Hor p Hp) as [Hd|Hc]; [|by apply (covered_grows m2)].
        eexists (tool_key_of t), _. rewrite lookup_insert_eq. split_and!; done.
Qed.

Lemma merge_existing_all resolve fresh_versions fresh_platforms (ts : list Tool) (acc : ByKey * gset ToolKey) :
  key_ok acc.1 -> (forall v p, (v, p) ∈ fresh_platforms -> covered acc.1 v p) ->
  (forall k, is_Some (acc.1 !! k) -> k.1 ∈ fresh_versions) ->
  let acc' := foldl (merge_existing resolve fresh_versions fresh_platforms) acc ts in
  key_ok acc'.1 /\ grows acc.1 acc'.1 /\ (forall k, is_Some (acc'.1 !! k) -> k.1 ∈ fresh_versions) /\
  (forall t p, t ∈ ts -> t.(t_version) ∈ fresh_versions -> p ∈ dom t.(t_platforms) -> covered acc'.1 t.(t_version) p).
Proof.
  revert acc. induction ts as [|t ts IH]; intros acc Hm Hfp Hfv; simpl.
  { split_and!; [done..|]. by intros t p ?%elem_of_nil. }
  destruct (merge_existing_spec resolve fresh_versions fresh_platforms acc t Hm Hfp Hfv) as (K1 & G1 & V1 & C1).
  destruct (IH (merge_existing resolve fresh_versions fresh_platforms acc t) K1) as (K2 & G2 & V2 & C2); [|done|].
  { intros v p Hp. apply (covered_grows acc.1); [done|by apply Hfp]. }
  split_and!; [done|by transitivity (merge_existing resolve fresh_versions fresh_platforms acc t).1|done|].
  intros u p [->|Hu]%elem_of_cons Hv Hp; [|by apply C2]. apply (covered_grows (merge_existing resolve fresh_versions fresh_platforms acc t).1); [done|].
  by apply C1.
Qed.

(** C14. Merging entries loses nothing: the merged entries of a tool are one per version and options, sorted
    by version and then by options, and only of freshly resolved versions. Every fresh entry is there
    under its version and options with all its bindings and platforms; and for every existing entry of
    a freshly resolved version, whatever options its platforms are moved to, every platform it had data
    for still has data in some entry of that version. *)
Theorem no_platform_lost (entries existing : list Tool) resolve :
  let merged := (merge_tool_entries entries (Some existing) resolve).1 in
  StronglySorted tool_lt merged /\ keys_unique merged /\
  (forall t, t ∈ merged -> exists e, e ∈ entries /\ e.(t_version) = t.(t_version)) /\
  (forall e, e ∈ entries -> exists t, t ∈ merged /\ tool_key_of t = tool_key_of e /\
     e.(t_specifiers) ⊆ t.(t_specifiers) /\ dom e.(t_platforms) ⊆ dom t.(t_platforms)) /\
  (forall x p, x ∈ existing -> (exists e, e ∈ entries /\ e.(t_version) = x.(t_version)) -> p ∈ dom x.(t_platforms) ->
     exists t, t ∈ merged /\ t.(t_version) = x.(t_version) /\ p ∈ dom t.(t_platforms)).
Proof.
  unfold merge_tool_entries.
  destruct (merge_fresh_all entries ∅) as (K1 & _ & C1 & F1); [done|].
  set (m := foldl merge_fresh ∅ entries) in *.
  set (fv := (fun kt : ToolKey * Tool => kt.1.1) <$> map_to_list m).
  set (fp := map_to_list m ≫= _).
  assert (forall v, v ∈ fv <-> exists e, e ∈ entries /\ e.(t_version) = v) as Hfv.
  { intros v. unfold fv. rewrite list_elem_of_fmap. split.
    - intros ([k t] & -> & Hk). apply elem_of_map_to_list in Hk. destruct (F1 k) as [[? E]|Hin]; [by eexists|by rewrite lookup_empty in E|].
      change (map tool_key_of entries) with (tool_key_of <$> entries) in Hin. apply list_elem_of_fmap in Hin as (e & -> & He). by exists e.
    - intros (e & He & <-). destruct (C1 e He) as (t' & Ht' & _). exists (tool_key_of e, t'). split; [done|by apply elem_of_map_to_list]. }
  assert (forall v p, (v, p) ∈ fp -> covered m v p) as Hfp.
  { intros v p Hp. apply list_elem_of_bind in Hp as ([k t] & Hp & Hk). apply elem_of_map_to_list in Hk.
    apply list_elem_of_fmap in Hp as (p' & [= -> ->] & Hp'). exists k, t. split_and!; [done..|by apply elem_of_elements]. }
  destruct (merge_existing_all resolve fv fp existing (m, ∅)) as (K2 & G2 & V2 & C2); [done|done| |].
  { intros k [t Ht]. apply list_elem_of_fmap. exists (k, t). split; [done|by apply elem_of_map_to_list]. }
  destruct (foldl (merge_existing resolve fv fp) (m, ∅) existing) as [m' consumed]. simpl in *.
  pose proof (values_unique m' K2) as Hu. pose proof (sort_tools_sorted _ Hu) as Hs.
  assert (forall t, t ∈ sort_tools (map_to_list m').*2 <-> m' !! tool_key_of t = Some t) as Hin.
  { intros t. rewrite sort_tools_perm, list_elem_of_fmap. split.
    - intros ([k t'] & -> & Hk). apply elem_of_map_to_list in Hk. simpl. by rewrite (K2 _ _ Hk).
    - intros Ht. exists (tool_key_of t, t). split; [done|by apply elem_of_map_to_list]. }
  split_and!; [done|by apply sorted_keys_unique| | |].
  - intros t Ht. apply Hin in Ht. apply (Hfv (t_version t)). apply (V2 (tool_key_of t)). by eexists.
  - intros e He. destruct (C1 e He) as (t & Ht & Hd & Hsp). destruct (G2 _ _ Ht) as (t' & Ht' & _ & Hd' & Hsp').
    exists t'. assert (tool_key_of t' = tool_key_of e) as Ek by by apply K2. split_and!; [|done|set_solver..].
    apply Hin. by rewrite Ek.
  - intros x p Hx He Hp. destruct (C2 x p Hx) as (k & t & Ht & Hk & Hp'); [by apply Hfv|done|].
    exists t. assert (tool_key_of t = k) as Ek by by apply K2. split_and!; [apply Hin; by rewrite Ek| |done].
    rewrite <- Hk, <- Ek. done.
Qed.

End Facts.
