(* ===== verification/LockRatchet.v ===== *)
(** * What updates of lockfiles promise: provenance is not lost silently

    A version that is upgraded to without the provenance of the version before it is refused, or the
    version before it stays in the lockfile until the upgrade has been verified; an artifact that is
    replaced keeps at least the provenance it had; and what is pruned afterwards is needed by nothing. *)

From S2P Require Import Prelude RustStr Order LockInfo LockInfoSpec Lockfile LockfileSpec LockUpdate LockUpdateSpec.

Section Ratchet.

Context {Aube Uv : Type} (state_short : str -> str).
Context {Version : Type} (parse_version : str -> option Version) (version_cmp : Version -> Version -> comparison).
Context {HO : WeakOrder version_cmp}.

#[local] Abbreviation Tool := (LockfileTool Aube Uv).
#[local] Abbreviation Lock := (Lockfile Aube Uv).
#[local] Abbreviation parse := (parse_provenance_version parse_version).
#[local] Abbreviation baseline := (find_provenance_regression_baseline parse_version version_cmp).

Implicit Types (t b e : Tool) (ts : list Tool) (l : Lock).

(** ** Baselines *)

Lemma elem_of_prior ts version backend platform_key v t :
  (v, t) ∈ prior_versions parse_version ts version backend platform_key <->
  t ∈ ts /\ t.(t_version) <> version /\ t.(t_backend) = Some backend /\ has_provenance platform_key t = true /\
  parse t.(t_version) = Some v.
Proof.
  unfold prior_versions. rewrite list_elem_of_omap. split.
  - intros (u & Hu & Hf). destruct (_ && _) eqn:E in Hf; [|done].
    apply andb_true_iff in E as [[E1 E2]%andb_true_iff E3]. bool_prop.
    destruct (parse (t_version u)) as [w|] eqn:Ew; simpl in Hf; [|done]. injection Hf as -> ->. done.
  - intros (Ht & Hv & Hb & Hp & Hparse). exists t. split; [done|].
    rewrite bool_decide_false, bool_decide_true, Hp by done. simpl. by rewrite Hparse.
Qed.

(** The entry that losing provenance would be judged by. *)
Lemma baseline_Some ts version backend platform_key prov b :
  baseline (Some ts) version backend platform_key prov = Some b <->
  prov = None /\ starts_with u!"github:" backend = true /\
  exists nv pv, parse version = Some nv /\
    max_by (fun x y => version_cmp x.1 y.1) None (prior_versions parse_version ts version backend platform_key) = Some (pv, b) /\
    version_cmp nv pv = Gt.
Proof.
  unfold find_provenance_regression_baseline. destruct prov as [p|]; simpl; [naive_solver|].
  destruct (starts_with _ backend); simpl; [|naive_solver].
  destruct (parse version) as [nv|]; [|naive_solver].
  destruct (max_by _ _ _) as [[pv t]|]; [|naive_solver].
  destruct (version_cmp nv pv) eqn:E; naive_solver congruence.
Qed.

Lemma baseline_elem ts version backend platform_key prov b :
  baseline (Some ts) version backend platform_key prov = Some b ->
  b ∈ ts /\ b.(t_version) <> version /\ b.(t_backend) = Some backend /\ has_provenance platform_key b = true /\
  exists nv pv, parse version = Some nv /\ parse b.(t_version) = Some pv /\ version_cmp nv pv = Gt.
Proof.
  intros (_ & _ & nv & pv & Hn & Hm & Hg)%baseline_Some. apply max_by_elem in Hm as [?|Hm]; [done|].
  apply elem_of_prior in Hm as (? & ? & ? & ? & ?). split_and!; eauto.
Qed.

(** With more entries of the kind that were judged by, an upgrade is still refused. *)
Lemma baseline_still ts ts' version backend platform_key b :
  baseline (Some ts) version backend platform_key None = Some b ->
  (forall v t, (v, t) ∈ prior_versions parse_version ts' version backend platform_key ->
     exists t0, (v, t0) ∈ prior_versions parse_version ts version backend platform_key) ->
  (exists v t, (v, t) ∈ prior_versions parse_version ts' version backend platform_key) ->
  exists b', baseline (Some ts') version backend platform_key None = Some b'.
Proof.
  intros (_ & Hg & nv & pv & Hn & Hm & Hgt)%baseline_Some Hsub (v & t & Hin).
  destruct (max_by_some (fun x y : Version * Tool => version_cmp x.1 y.1) None (prior_versions parse_version ts' version backend platform_key))
    as [[mv m] Hm'].
  { right. intros E. rewrite E in Hin. by apply elem_of_nil in Hin. }
  exists m. apply baseline_Some. split_and!; [done..|]. exists nv, mv. split_and!; [done..|].
  apply max_by_elem in Hm' as [?|Hm']; [done|]. destruct (Hsub mv m Hm') as [t0 Ht0].
  pose proof (max_by_greatest (fun x y : Version * Tool => version_cmp x.1 y.1) _ _ _ Hm Ht0) as Hle. simpl in Hle.
  by apply (cmp_gt_trans version_cmp nv pv mv).
Qed.

(** ** Applying a resolution *)

Lemma tools_apply_conda platform_key packages l : tools (apply_conda platform_key packages l) = tools l.
Proof.
  unfold apply_conda. generalize (in_key_order packages). intros ps. revert l.
  induction ps as [|p ps IH]; intros l; simpl; [done|]. by rewrite IH.
Qed.

Lemma locked_artifact_unique ts i t version backend options platform_key :
  keys_unique ts -> ts !! i = Some t -> tool_key_of t = (version, options) ->
  match t.(t_backend) with Some b => b = backend | None => True end ->
  locked_artifact (Some ts) version backend options platform_key = t.(t_platforms) !! platform_key.
Proof.
  intros Hnd Hi Hk Hb. unfold locked_artifact. destruct (List.find _ ts) as [u|] eqn:Ef.
  - apply List.find_some in Ef as [Hu E]. apply list_elem_of_In, list_elem_of_lookup in Hu as [j Hj].
    apply andb_true_iff in E as [[E1 E2]%andb_true_iff _]. bool_prop.
    assert (i = j) as <-; [|congruence]. eapply keys_unique_lookup; [done..|]. rewrite Hk. unfold tool_key_of. congruence.
  - exfalso. apply list_elem_of_lookup_2, list_elem_of_In in Hi. pose proof (List.find_none _ _ Ef _ Hi) as E. simpl in E.
    unfold tool_key_of in Hk. injection Hk as Hv Ho. rewrite !bool_decide_true in E by done. simpl in E.
    destruct (t_backend t) as [b|]; [by rewrite bool_decide_true in E|done].
Qed.

(** What [set_platform_info] makes of an entry. *)
Definition platform_set (platform_key : str) (info : PlatformInfo) t : Tool :=
  let merged := match t.(t_platforms) !! platform_key with
                | Some existing => updated_platform_info info existing
                | None => info
                end in
  if PlatformInfo_is_empty merged then t else with_platforms (<[platform_key := merged]> t.(t_platforms)) t.

Lemma set_platform_info_existing l short version backend options platform_key info ts i t :
  tools l !! state_short short = Some ts -> keys_unique ts -> ts !! i = Some t -> tool_key_of t = (version, options) ->
  tools (set_platform_info state_short l short version backend options platform_key info) =
    <[state_short short := alter (platform_set platform_key info) i ts]> (tools l).
Proof.
  intros Hts Hnd Hi Hk. unfold set_platform_info.
  assert (from_option_or (tool_key state_short l short) (state_short short) = state_short short) as ->
    by (unfold tool_key; by destruct (is_some _)).
  rewrite Hts. simpl. pose proof (position_unique ts i t Hnd Hi) as Hp. unfold tool_key_of in Hk. injection Hk as <- <-.
  by rewrite Hp.
Qed.

(** C33. Applying a resolution never downgrades a replaced artifact: when [apply_lock_result] accepts a resolution for
    a version, options and platform that the lockfile already has an artifact for, under the same backend, the
    entry keeps its place, version, options and backend, every other platform, entry and tool stays as it was,
    and if the new record names other bytes than the old one its provenance is not below the old one's (a
    verified Packslip signer excepted, which replaces detected GitHub attestations); if it names the same
    artifact, the provenance is the higher of the old and the new one. *)
Theorem apply_never_downgrades l r info applied l' ts i t old :
  apply_lock_result state_short parse_version version_cmp l r = Ok (applied, l') ->
  r.(r_info) = inr info ->
  tools l !! state_short r.(r_short) = Some ts -> keys_unique ts ->
  ts !! i = Some t -> tool_key_of t = (r.(r_version), r.(r_options)) ->
  match t.(t_backend) with Some b => b = r.(r_backend) | None => True end ->
  t.(t_platforms) !! to_key r.(r_platform) = Some old ->
  exists ts' t' new,
    tools l' !! state_short r.(r_short) = Some ts' /\ ts' !! i = Some t' /\
    t'.(t_platforms) !! to_key r.(r_platform) = Some new /\
    tool_key_of t' = tool_key_of t /\ t'.(t_backend) = t.(t_backend) /\ t'.(t_specifiers) = t.(t_specifiers) /\
    (forall p, p <> to_key r.(r_platform) -> t'.(t_platforms) !! p = t.(t_platforms) !! p) /\
    length ts' = length ts /\ (forall j, j <> i -> ts' !! j = ts !! j) /\
    (forall key, key <> state_short r.(r_short) -> tools l' !! key = tools l !! key) /\
    (checksum_changed old.(p_checksum) new.(p_checksum) = true ->
       provenance_is_downgrade old.(p_provenance) new.(p_provenance)
         (starts_with u!"packslip:" r.(r_backend) && is_some info.(p_signer)) = false) /\
    (PlatformInfo_is_empty info = false -> kept_artifact info old = true ->
     checksum_changed old.(p_checksum) info.(p_checksum) = false ->
       level new.(p_provenance) = N.max (level info.(p_provenance)) (level old.(p_provenance))).
Proof.
  intros Hap Hinfo Hts Hnd Hi Hk Hb Hold. unfold apply_lock_result in Hap. rewrite Hinfo, tools_for_spec, Hts in Hap.
  destruct (check_single_tool_provenance _ _ _ _ _ _ _ _); [done|].
  destruct (check_replaced_artifact_provenance _ _ _ _ _ _ _) eqn:Ec; [done|].
  assert (checksum_changed old.(p_checksum) info.(p_checksum) = true ->
    provenance_is_downgrade old.(p_provenance) info.(p_provenance)
      (starts_with u!"packslip:" r.(r_backend) && is_some info.(p_signer)) = false) as Hno.
  { intros Hc. unfold check_replaced_artifact_provenance in Ec.
    rewrite (locked_artifact_unique ts i t) in Ec by done. rewrite Hold in Ec. simpl in Ec.
    unfold loses_provenance in Ec at 1. rewrite Hc in Ec. simpl in Ec.
    destruct (provenance_is_downgrade _ _ _) eqn:Ed; [|done]. exfalso.
    destruct (p_provenance old) as [o|]; [done|]. unfold provenance_is_downgrade in Ed.
    rewrite andb_false_r, provenance_lt_level in Ed. simpl in Ed. apply N.ltb_lt in Ed. lia. }
  destruct (PlatformInfo_is_empty info) eqn:Ee.
  - (* nothing was resolved: the entry is there and stays *)
    assert (has_key ts (r_version r, r_options r) = true) as Hh.
    { apply existsb_exists. exists t. split; [by apply list_elem_of_In, (list_elem_of_lookup_2 _ i)|]. by apply bool_decide_true. }
    simpl in Hap. rewrite Hh in Hap. injection Hap as _ <-. rewrite tools_apply_conda.
    exists ts, t, old. split_and!; try done. by rewrite checksum_changed_self.
  - injection Hap as _ <-. rewrite tools_apply_conda, (set_platform_info_existing l _ _ _ _ _ _ ts i t) by done.
    set (new := if PlatformInfo_is_empty (updated_platform_info info old) then old else updated_platform_info info old).
    exists (alter (platform_set (to_key (r_platform r)) info) i ts), (platform_set (to_key (r_platform r)) info t), new.
    rewrite lookup_insert_eq, list_lookup_alter_eq, Hi, length_alter. unfold platform_set. rewrite Hold. subst new. cbv zeta. split_and!; try done.
    + simpl. by rewrite Hold.
    + destruct (PlatformInfo_is_empty (updated_platform_info info old)); [done|]. simpl. by rewrite lookup_insert_eq.
    + by destruct (PlatformInfo_is_empty (updated_platform_info info old)).
    + by destruct (PlatformInfo_is_empty (updated_platform_info info old)).
    + by destruct (PlatformInfo_is_empty (updated_platform_info info old)).
    + intros p Hp. destruct (PlatformInfo_is_empty (updated_platform_info info old)); [done|]. simpl. by rewrite lookup_insert_ne.
    + intros j Hj. by rewrite list_lookup_alter_ne.
    + intros key Hne. by rewrite lookup_insert_ne.
    + destruct (PlatformInfo_is_empty (updated_platform_info info old)); [by rewrite checksum_changed_self|].
      intros Hc. assert (checksum_changed (p_checksum old) (p_checksum info) = true) as Hc'.
      { unfold updated_platform_info in Hc. fold (kept_artifact info old) in Hc. simpl in Hc.
        destruct (p_checksum info) as [c|]; [done|]. simpl in Hc. destruct (kept_artifact info old).
        - by rewrite checksum_changed_self in Hc.
        - unfold checksum_changed in Hc. by destruct (p_checksum old ≫= _) as [[]|]. }
      assert (p_provenance (updated_platform_info info old) = p_provenance info) as ->; [|by apply Hno].
      unfold updated_platform_info. fold (kept_artifact info old). rewrite Hc'. simpl. by rewrite andb_false_r.
    + intros _ Hka Hc.
      assert (level (p_provenance (updated_platform_info info old)) = N.max (level (p_provenance info)) (level (p_provenance old))) as Hl.
      { unfold updated_platform_info. fold (kept_artifact info old). rewrite Hka, Hc. simpl. apply merge_provenance_level. }
      destruct (PlatformInfo_is_empty (updated_platform_info info old)) eqn:Eu; [|done].
      rewrite <- Hl. unfold PlatformInfo_is_empty in Eu. rewrite !andb_true_iff in Eu.
      assert (p_provenance (updated_platform_info info old) = None) as E by (destruct (p_provenance (updated_platform_info info old)); naive_solver).
      rewrite E in *. simpl in *. destruct (p_provenance old) as [[]|]; simpl in *; lia.
Qed.

(** ** Pruning *)

Lemma prior_filter (p : Tool -> bool) ts version backend platform_key :
  prior_versions parse_version (List.filter p ts) version backend platform_key =
  List.filter (fun vt => p vt.2) (prior_versions parse_version ts version backend platform_key).
Proof.
  unfold prior_versions. induction ts as [|t ts IH]; simpl; [done|]. destruct (p t) eqn:Ep; csimpl.
  - destruct (_ && _); [|done]. destruct (parse (t_version t)); simpl; [|done]. rewrite Ep. by f_equal.
  - destruct (_ && _); [|done]. destruct (parse (t_version t)); simpl; [|done]. by rewrite Ep.
Qed.

Lemma baseline_filter (p : Tool -> bool) ts version backend platform_key prov b :
  baseline (Some ts) version backend platform_key prov = Some b -> p b = true ->
  baseline (Some (List.filter p ts)) version backend platform_key prov = Some b.
Proof.
  intros (Hp & Hg & nv & pv & Hn & Hm & Hgt)%baseline_Some Hb. apply baseline_Some. split_and!; [done..|].
  exists nv, pv. split_and!; [done| |done]. rewrite prior_filter.
  apply (max_by_filter (fun x y : Version * Tool => version_cmp x.1 y.1)); done.
Qed.

#[local] Abbreviation baseline_key ts pk t := (baseline_of parse_version version_cmp ts pk t).
#[local] Abbreviation own_baseline ts pk t := (baseline (Some ts) t.(t_version) (from_option_or t.(t_backend) []) pk None).

(** What the next round removes: the baseline of a verified request that no unverified one is judged by. *)
Lemma stale_Some ts req pk key :
  stale_baseline parse_version version_cmp ts req pk = Some key ->
  exists u b, u ∈ ts /\ u.(t_version) ∈ req /\ has_provenance pk u = true /\ own_baseline ts pk u = Some b /\
    tool_key_of b = key /\ (b.(t_version) ∉ req) /\
    forall t b', t ∈ ts -> t.(t_version) ∈ req -> has_provenance pk t = false -> own_baseline ts pk t = Some b' -> tool_key_of b' <> key.
Proof.
  unfold stale_baseline. intros [Hin Hk]%List.find_some. apply list_elem_of_In, list_elem_of_omap in Hin as (u & Hu & Hb).
  apply list_elem_of_In, List.filter_In in Hu as [Hu Hpu]. apply List.filter_In in Hu as [Hu Hr].
  apply list_elem_of_In in Hu. bool_prop. unfold baseline_of in Hb. destruct (own_baseline ts pk u) as [b|] eqn:Eb; [|done].
  injection Hb as Hb. exists u, b. split_and!; [done..|by rewrite <- Hb in *|].
  intros t b' Ht Htr Htp Hb' E. apply H0. apply list_elem_of_omap. exists t. split.
  - apply list_elem_of_In, List.filter_In. split; [|by rewrite Htp]. apply List.filter_In.
    split; [by apply list_elem_of_In|by apply bool_decide_true].
  - unfold baseline_of. rewrite Hb'. simpl. by rewrite E.
Qed.

(** What pruning guarantees of the entries it leaves. *)
Definition pruned_to ts (req : gset str) (pk : str) ts' : Prop :=
  sublist ts' ts /\
  (forall t, t ∈ ts -> t.(t_version) ∈ req -> t ∈ ts') /\
  (forall t, t ∈ ts -> t ∈ ts' \/ exists u nv pv, u ∈ ts' /\ u.(t_version) ∈ req /\ has_provenance pk u = true /\
     u.(t_backend) = t.(t_backend) /\ parse u.(t_version) = Some nv /\ parse t.(t_version) = Some pv /\ version_cmp nv pv = Gt) /\
  (forall t b, t ∈ ts -> t.(t_version) ∈ req -> has_provenance pk t = false -> own_baseline ts pk t = Some b ->
     own_baseline ts' pk t = Some b).

Lemma elem_of_filter_key key ts t : t ∈ List.filter (fun t => negb (bool_decide (tool_key_of t = key))) ts <-> t ∈ ts /\ tool_key_of t <> key.
Proof.
  rewrite list_elem_of_In, List.filter_In, <- list_elem_of_In, negb_true_iff, bool_decide_eq_false. done.
Qed.

Lemma filter_sublist (p : Tool -> bool) ts : sublist (List.filter p ts) ts.
Proof. induction ts as [|t ts IH]; simpl; [done|]. destruct (p t); by constructor. Qed.

Lemma prune_step ts req pk key :
  keys_unique ts -> stale_baseline parse_version version_cmp ts req pk = Some key ->
  let ts' := List.filter (fun t => negb (bool_decide (tool_key_of t = key))) ts in
  pruned_to ts req pk ts' /\ keys_unique ts' /\ length ts' < length ts.
Proof.
  intros Hnd (u & b & Hu & Hr & Hp & Hb & Hk & Hnr & Hno)%stale_Some ts'.
  pose proof (baseline_elem _ _ _ _ _ _ Hb) as (Hbin & Hbv & Hbb & Hbp & nv & pv & Hnv & Hpv & Hgt).
  assert (forall t, t ∈ ts -> t.(t_version) ∈ req -> t ∈ ts') as Hreq.
  { intros t Ht Htr. apply elem_of_filter_key. split; [done|]. intros E. apply Hnr. rewrite <- Hk in E.
    unfold tool_key_of in E. injection E as Ev _. by rewrite <- Ev. }
  split_and!.
  - split_and!; [apply filter_sublist|done| |].
    + intros t Ht. destruct (decide (tool_key_of t = key)) as [E|E]; [right|left; by apply elem_of_filter_key].
      assert (t = b) as ->.
      { rewrite <- Hk in E. apply list_elem_of_lookup in Ht as [i Hi]. apply list_elem_of_lookup in Hbin as [j Hj].
        assert (i = j) as <- by by eapply keys_unique_lookup. congruence. }
      exists u, nv, pv. split_and!; [by apply Hreq|done..| |done|done|done].
      rewrite Hbb. destruct (t_backend u) as [ub|] eqn:Eub; simpl in *; [done|].
      exfalso. apply baseline_Some in Hb as (_ & Hg & _). done.
    + intros t b' Ht Htr Htp Hb'. apply baseline_filter; [done|]. apply negb_true_iff, bool_decide_eq_false.
      by apply (Hno t b').
  - unfold keys_unique in *. eapply sublist_NoDup; [exact Hnd|].
    change (map tool_key_of) with (fmap (M:=list) (@tool_key_of Aube Uv)). apply fmap_sublist, filter_sublist.
  - pose proof (filter_length_lt (fun t => negb (bool_decide (tool_key_of t = key))) (fun _ => true) ts b) as Hl.
    rewrite (List.forallb_filter_id (fun _ => true)) in Hl by (by apply forallb_forall). apply Hl; [done..|].
    by rewrite bool_decide_true.
Qed.

Lemma pruned_trans ts req pk ts1 ts2 :
  pruned_to ts req pk ts1 -> pruned_to ts1 req pk ts2 -> pruned_to ts req pk ts2.
Proof.
  intros (S1 & R1 & C1 & B1) (S2 & R2 & C2 & B2). split_and!; [by transitivity ts1|auto| |].
  - intros t Ht. destruct (C1 t Ht) as [Hin|(u & nv & pv & Hu & Hr & H)]; [by apply C2|]. right.
    exists u, nv, pv. split; [by apply R2|by split].
  - intros t b Ht Hr Hp Hb. apply B2; auto.
Qed.

(** C34. Pruning is safe and ends: [prune_verified_provenance_baselines] always returns, with a part of the
    entries in their order, in which every requested version is left. Every entry it removes was the
    version before a requested one, of the same backend, that has provenance of its own. The entry that
    a requested version without provenance would be judged by stays and is still the one it is judged
    by. Nothing is left to prune. *)
Theorem prune_safe ts req pk :
  keys_unique ts ->
  exists pruned ts',
    prune_verified_provenance_baselines parse_version version_cmp ts req pk = Ok (pruned, ts') /\
    pruned_to ts req pk ts' /\ stale_baseline parse_version version_cmp ts' req pk = None.
Proof.
  unfold prune_verified_provenance_baselines. generalize (@nil str) as acc. intros acc Hnd.
  assert (length ts <= length ts) as Hle by done. revert Hle. generalize (length ts) at 2 3 as fuel.
  revert ts acc Hnd. assert (forall fuel ts acc, keys_unique ts -> length ts <= fuel ->
    exists pruned ts', prune_loop parse_version version_cmp fuel ts req pk acc = Ok (pruned, ts') /\
      pruned_to ts req pk ts' /\ stale_baseline parse_version version_cmp ts' req pk = None) as H;
    [|by intros ts acc Hnd fuel Hle; apply H].
  intros fuel. induction fuel as [|fuel IH]; intros ts acc Hnd Hle; simpl;
    destruct (stale_baseline parse_version version_cmp ts req pk) as [key|] eqn:Es.
  - destruct (prune_step ts req pk key Hnd Es) as (_ & _ & Hlt). lia.
  - exists acc, ts. split_and!; [done| |done]. split_and!; [done|done|by left|done].
  - destruct (prune_step ts req pk key Hnd Es) as (Hp & Hnd' & Hlt).
    destruct (IH (List.filter (fun t => negb (bool_decide (tool_key_of t = key))) ts) (acc ++ [key.1]) Hnd') as (pr & ts' & E & Hp' & Hs); [lia|].
    exists pr, ts'. split_and!; [done|by eapply pruned_trans|done].
  - exists acc, ts. split_and!; [done| |done]. split_and!; [done|done|by left|done].
Qed.

(** ** An install and the lock that follows it *)

(** Entries that differ in their bindings only. *)
Definition same_but_bindings t t' : Prop := t' = with_specifiers t'.(t_specifiers) t.

#[local] Instance same_but_bindings_refl : Reflexive same_but_bindings.
Proof. by intros []. Qed.

#[local] Instance same_but_bindings_trans : Transitive same_but_bindings.
Proof. intros t u v H1 H2. unfold same_but_bindings in *. rewrite H2, H1. done. Qed.

Lemma bind_request_tools l short specifier version options ts :
  tools l !! state_short short = Some ts ->
  exists ts', tools (bind_request state_short l short specifier version options).2 !! state_short short = Some ts' /\
    Forall2 same_but_bindings ts ts'.
Proof.
  intros Hts. assert (Forall2 same_but_bindings ts ts) as Hrefl by (by apply Forall_Forall2_diag, Forall_forall).
  unfold bind_request. destruct (negb _); [by exists ts|]. rewrite tool_key_bind, Hts. simpl.
  destruct (position ts version options) as [i|]; [|by exists ts]. simpl. rewrite lookup_insert_eq. eexists. split; [done|].
  apply Forall2_same_length_lookup_2; [by rewrite length_alter, length_map|].
  intros j t t' Hj Hj'. change (map ?f ts) with (f <$> ts) in Hj'.
  assert (forall u, same_but_bindings t (if bool_decide (t_options t = options) then with_specifiers u t else t)) as Hone.
  { intros u. by case_bool_decide. }
  destruct (decide (i = j)) as [<-|Hne].
  - rewrite list_lookup_alter_eq, list_lookup_fmap, Hj in Hj'. simpl in Hj'. injection Hj' as <-.
    etransitivity; [by apply (Hone (t_specifiers t ∖ {[specifier]}))|]. done.
  - rewrite list_lookup_alter_ne, list_lookup_fmap, Hj in Hj' by done. simpl in Hj'. injection Hj' as <-. apply Hone.
Qed.

Lemma bind_requests_tools (bs : list (str * str * Options)) l short ts :
  tools l !! state_short short = Some ts ->
  exists ts', tools (foldl (fun l x => (bind_request state_short l short x.1.1 x.1.2 x.2).2) l bs) !! state_short short = Some ts' /\
    Forall2 same_but_bindings ts ts'.
Proof.
  revert l ts. induction bs as [|x bs IH]; intros l ts Hts; simpl.
  - exists ts. split; [done|]. by apply Forall_Forall2_diag, Forall_forall.
  - destruct (bind_request_tools l short x.1.1 x.1.2 x.2 ts Hts) as (ts1 & H1 & F1).
    destruct (IH _ ts1 H1) as (ts2 & H2 & F2). exists ts2. split; [done|]. by transitivity ts1.
Qed.

(** The entries besides those of a version are existing ones, but for bindings. *)
Definition old_or_fresh (existing : list Tool) (version : str) ts : Prop :=
  forall t, t ∈ ts -> t.(t_version) = version \/ exists x, x ∈ existing /\ same_but_bindings x t.

Lemma preserve_absent_old existing version merged consumed :
  old_or_fresh existing version merged ->
  old_or_fresh existing version (preserve_absent_tool_entries merged (Some existing) consumed).
Proof.
  intros Hm. unfold preserve_absent_tool_entries. intros t. rewrite sort_tools_perm. revert t.
  assert (forall xs acc, (forall x, x ∈ xs -> x ∈ existing) -> old_or_fresh existing version acc.2 ->
    old_or_fresh existing version (foldl (preserve_absent consumed) acc xs).2) as H; [|by apply H].
  intros xs. induction xs as [|x xs IH]; intros acc Hxs Hacc; simpl; [done|]. apply IH; [intros; apply Hxs; by right|].
  unfold preserve_absent. destruct (_ || _); [done|]. simpl. intros t [Ht| ->%list_elem_of_singleton]%elem_of_app; [by apply Hacc|].
  right. exists x. split; [apply Hxs; by left|done].
Qed.

Lemma preserve_python_old existing version merged selected :
  old_or_fresh existing version merged ->
  old_or_fresh existing version (preserve_selected_python_entries merged (Some existing) selected).
Proof.
  intros Hm. unfold preserve_selected_python_entries. set (unlocked := List.filter _ selected).
  assert (forall xs acc, (forall x, x ∈ xs -> x ∈ existing) -> old_or_fresh existing version acc ->
    old_or_fresh existing version (foldl (fun ts t =>
      if negb (match List.filter (binds t) unlocked with [] => true | _ => false end) && negb (has_key ts (tool_key_of t))
      then ts ++ [with_specifiers (filter (fun s => s ∈ (List.filter (binds t) unlocked).*1) t.(t_specifiers)) t]
      else ts) acc xs)) as H; [|by apply H].
  intros xs. induction xs as [|x xs IH]; intros acc Hxs Hacc; simpl; [done|]. apply IH; [intros; apply Hxs; by right|].
  destruct (negb _ && _); [|done]. intros t [Ht| ->%list_elem_of_singleton]%elem_of_app; [by apply Hacc|].
  right. exists x. split; [apply Hxs; by left|done].
Qed.

Lemma reinsert_old existing version merged deferred short :
  (forall b, b ∈ from_option_or (deferred !! short) [] -> b ∈ existing) ->
  old_or_fresh existing version merged ->
  old_or_fresh existing version (reinsert_deferred_baselines merged deferred short) /\
  forall b, b ∈ from_option_or (deferred !! short) [] ->
    exists t, t ∈ reinsert_deferred_baselines merged deferred short /\ tool_key_of t = tool_key_of b.
Proof.
  unfold reinsert_deferred_baselines. generalize (from_option_or (deferred !! short) []). intros bs. revert merged.
  induction bs as [|b bs IH]; intros merged Hbs Hm; simpl; [split; [done|by intros b ?%elem_of_nil]|].
  set (m1 := if has_key merged (tool_key_of b) then merged else merged ++ [b]).
  assert (old_or_fresh existing version m1) as Hm1.
  { subst m1. destruct (has_key _ _); [done|]. intros t [Ht| ->%list_elem_of_singleton]%elem_of_app; [by apply Hm|].
    right. exists b. split; [apply Hbs; by left|done]. }
  destruct (IH m1) as [Ho Hin]; [intros; apply Hbs; by right|done|]. split; [done|].
  intros b' [->|Hb']%elem_of_cons; [|by apply Hin].
  assert (exists t, t ∈ m1 /\ tool_key_of t = tool_key_of b) as (t & Ht & Ek).
  { subst m1. destruct (has_key merged (tool_key_of b)) eqn:E.
    - apply existsb_exists in E as (t & Ht & Hk). apply list_elem_of_In in Ht. bool_prop. by exists t.
    - exists b. split; [|done]. apply elem_of_app. right. by apply list_elem_of_singleton. }
  exists t. split; [|done]. clearbody m1. clear -Ht. revert m1 Ht. induction bs as [|c bs IH]; intros m1 Ht; simpl; [done|].
  apply IH. destruct (has_key m1 (tool_key_of c)); [done|]. apply elem_of_app. by left.
Qed.

(** What the check of fresh entries knows of a tool. *)
Definition check_knows (existing : list Tool) (short : str) (c : ProvenanceRegressionCheck) : Prop :=
  (forall b, b ∈ from_option_or (c.(deferred_baselines) !! short) [] -> b ∈ existing) /\
  (short ∈ c.(regressing) -> exists v p bv, LostProvenance short v p bv ∈ c.(regression_errors)).

(** Only ever adding to it. *)
Definition check_le (c c' : @ProvenanceRegressionCheck Aube Uv) : Prop :=
  c.(regressing) ⊆ c'.(regressing) /\
  forall s b, b ∈ from_option_or (c.(deferred_baselines) !! s) [] -> b ∈ from_option_or (c'.(deferred_baselines) !! s) [].

#[local] Instance check_le_refl : Reflexive check_le.
Proof. done. Qed.

#[local] Instance check_le_trans : Transitive check_le.
Proof. intros c1 c2 c3 [H1 H2] [H3 H4]. split; [set_solver|eauto]. Qed.

#[local] Abbreviation check_one l cp := (check_entry state_short parse_version version_cmp l cp).

Lemma check_entry_spec l cp short existing s e c :
  tools l !! state_short short = Some existing -> check_knows existing short c ->
  check_knows existing short (check_one l cp s c e) /\ check_le c (check_one l cp s c e) /\
  (s = short -> forall b, baseline (Some existing) e.(t_version) (from_option_or e.(t_backend) []) cp
                        (e.(t_platforms) !! cp ≫= p_provenance) = Some b ->
     short ∈ (check_one l cp s c e).(regressing) \/ b ∈ from_option_or ((check_one l cp s c e).(deferred_baselines) !! short) []).
Proof.
  intros Hex [Hd Hr]. unfold check_entry. rewrite tools_for_spec.
  destruct (baseline (tools l !! state_short s) _ _ _ _) as [b|] eqn:Eb.
  - destruct (is_some _).
    + split_and!; [split; simpl; [done|]|split; simpl; [set_solver|done]|].
      * intros Hs. destruct (decide (short ∈ regressing c)) as [Hin|Hni].
        { destruct (Hr Hin) as (v & p & bv & He). exists v, p, bv. apply elem_of_app. by left. }
        assert (short = s) as -> by set_solver. do 3 eexists. apply elem_of_app. right. by apply list_elem_of_singleton.
      * intros -> b' Hb'. left. simpl. set_solver.
    + split_and!; [split; simpl; [|done]|split; simpl; [done|]|].
      * intros b'. destruct (decide (s = short)) as [->|Hne].
        { rewrite lookup_insert_eq. simpl. intros [?| ->%list_elem_of_singleton]%elem_of_app; [by apply Hd|].
          rewrite Hex in Eb. by apply baseline_elem in Eb as [? _]. }
        rewrite lookup_insert_ne by done. apply Hd.
      * intros s' b'. destruct (decide (s = s')) as [->|Hne]; [|by rewrite lookup_insert_ne].
        rewrite lookup_insert_eq. simpl. intros H. apply elem_of_app. by left.
      * intros -> b' Hb'. right. simpl. rewrite lookup_insert_eq. simpl. apply elem_of_app. right.
        rewrite Hex in Eb. apply list_elem_of_singleton. congruence.
  - split_and!; [done|done|]. intros -> b Hb. rewrite Hex in Eb. congruence.
Qed.

Lemma check_entries_spec l cp short existing s es c :
  tools l !! state_short short = Some existing -> check_knows existing short c ->
  check_knows existing short (foldl (check_one l cp s) c es) /\ check_le c (foldl (check_one l cp s) c es) /\
  (s = short -> forall e b, e ∈ es ->
     baseline (Some existing) e.(t_version) (from_option_or e.(t_backend) []) cp (e.(t_platforms) !! cp ≫= p_provenance) = Some b ->
     short ∈ (foldl (check_one l cp s) c es).(regressing) \/
     b ∈ from_option_or ((foldl (check_one l cp s) c es).(deferred_baselines) !! short) []).
Proof.
  intros Hex. revert c. induction es as [|e es IH]; intros c Hc; simpl; [split_and!; [done..|by intros _ e b ?%elem_of_nil]|].
  destruct (check_entry_spec l cp short existing s e c Hex Hc) as (K1 & L1 & B1).
  destruct (IH _ K1) as (K2 & L2 & B2). split_and!; [done|by transitivity (check_one l cp s c e)|].
  intros Es e' b [->|He']%elem_of_cons Hb; [|by apply (B2 Es e')]. destruct L2 as [L2 L2'].
  destruct (B1 Es b Hb) as [H|H]; [left; set_solver|right; by apply L2'].
Qed.

Lemma check_provenance_spec l cp short existing (new_tools : list (str * list Tool)) es e b :
  tools l !! state_short short = Some existing -> (short, es) ∈ new_tools -> e ∈ es ->
  baseline (Some existing) e.(t_version) (from_option_or e.(t_backend) []) cp (e.(t_platforms) !! cp ≫= p_provenance) = Some b ->
  let c := check_provenance_regression state_short parse_version version_cmp l cp new_tools in
  check_knows existing short c /\
  (short ∈ c.(regressing) \/ b ∈ from_option_or (c.(deferred_baselines) !! short) []).
Proof.
  intros Hex Hin He Hb. unfold check_provenance_regression.
  assert (check_knows existing short (mkRegressionCheck ∅ [] ∅)) as Hc0.
  { split; simpl; [by intros x; rewrite lookup_empty; intros ?%elem_of_nil|set_solver]. }
  revert Hc0. generalize (mkRegressionCheck (Aube:=Aube) (Uv:=Uv) ∅ [] ∅). intros c.
  assert (forall nt c, check_knows existing short c ->
    check_knows existing short (foldl (fun acc st => foldl (check_one l cp st.1) acc st.2) c nt) /\
    check_le c (foldl (fun acc st => foldl (check_one l cp st.1) acc st.2) c nt)) as Hall.
  { intros nt. induction nt as [|[s es'] nt IH]; intros c' Hc'; simpl; [done|].
    destruct (check_entries_spec l cp short existing s es' c' Hex Hc') as (K1 & L1 & _).
    destruct (IH _ K1) as [K2 L2]. split; [done|]. by transitivity (foldl (check_one l cp s) c' es'). }
  intros Hc. split; [by apply Hall|]. revert c Hc. induction new_tools as [|[s es'] nt IH]; intros c Hc; simpl; [by apply elem_of_nil in Hin|].
  destruct (check_entries_spec l cp short existing s es' c Hex Hc) as (K1 & L1 & B1).
  apply elem_of_cons in Hin as [[= -> ->]|Hin]; [|by apply (IH Hin)].
  destruct (Hall nt _ K1) as [_ [L2 L2']]. destruct (B1 eq_refl e b He Hb) as [H|H]; [left; set_solver|right; by apply L2'].
Qed.

(** The entries of a tool after [update_tool], but for bindings. *)
Lemma update_tool_entries l cp short existing e mono resolve python (new_tools : list (str * list Tool)) :
  tools l !! state_short short = Some existing ->
  let c := check_provenance_regression state_short parse_version version_cmp l cp new_tools in
  check_knows existing short c -> short ∉ c.(regressing) ->
  exists ts', tools (update_tool state_short mono resolve python c l short [e]) !! state_short short = Some ts' /\
    old_or_fresh existing e.(t_version) ts' /\
    forall b, b ∈ from_option_or (c.(deferred_baselines) !! short) [] -> exists t, t ∈ ts' /\ tool_key_of t = tool_key_of b.
Proof.
  intros Hex c [Hd _] Hnr. unfold update_tool. rewrite bool_decide_false by done. rewrite tools_for_spec, Hex.
  pose proof (no_platform_lost [e] existing resolve) as (_ & _ & Hv & _).
  destruct (merge_tool_entries [e] (Some existing) resolve) as [merged consumed]. simpl in Hv.
  assert (old_or_fresh existing e.(t_version) merged) as H0.
  { intros t Ht. left. destruct (Hv t Ht) as (e' & ->%list_elem_of_singleton & E). done. }
  set (m1 := if mono then _ else merged).
  assert (old_or_fresh existing e.(t_version) m1) as H1 by (subst m1; destruct mono; [by apply preserve_absent_old|done]).
  set (m2 := match python with Some specifiers => _ | None => m1 end).
  assert (old_or_fresh existing e.(t_version) m2) as H2 by (subst m2; destruct python; [by apply preserve_python_old|done]).
  destruct (reinsert_old existing e.(t_version) m2 c.(deferred_baselines) short Hd H2) as [H3 Hin].
  set (m3 := reinsert_deferred_baselines m2 c.(deferred_baselines) short) in *. clearbody m3.
  set (l1 := with_tools (<[state_short short := m3]> (tools l)) l).
  assert (tools l1 !! state_short short = Some m3) as Hl1 by (subst l1; simpl; by rewrite lookup_insert_eq).
  assert (exists ts', tools (if uses_request_bindings l1
    then foldl (fun l x => (bind_request state_short l short x.1.1 x.1.2 x.2).2) l1 (bindings_of [e]) else l1) !! state_short short = Some ts' /\
    Forall2 same_but_bindings m3 ts') as (ts' & Hts' & HF).
  { destruct (uses_request_bindings l1); [by apply bind_requests_tools|]. exists m3. split; [done|].
    by apply Forall_Forall2_diag, Forall_forall. }
  exists ts'. split; [exact Hts'|]. split.
  - intros t Ht. apply list_elem_of_lookup in Ht as [i Hi].
    destruct (Forall2_lookup_r _ _ _ _ _ HF Hi) as (t0 & Hi0 & Hs).
    destruct (H3 t0) as [E|(x & Hx & Hxs)]; [by eapply list_elem_of_lookup_2|left|right].
    + rewrite Hs. done.
    + exists x. split; [done|]. by transitivity t0.
  - intros b Hb. destruct (Hin b Hb) as (t0 & Ht0 & Ek). apply list_elem_of_lookup in Ht0 as [i Hi].
    destruct (Forall2_lookup_l _ _ _ _ _ HF Hi) as (t & Hi' & Hs). exists t. split; [by eapply list_elem_of_lookup_2|].
    rewrite Hs. done.
Qed.

(** What the check finds is not lost. *)
Lemma baseline_kept l cp short existing e b mono resolve python (new_tools : list (str * list Tool)) :
  tools l !! state_short short = Some existing -> keys_unique existing -> (short, [e]) ∈ new_tools ->
  let backend := from_option_or e.(t_backend) [] in
  baseline (Some existing) e.(t_version) backend cp (e.(t_platforms) !! cp ≫= p_provenance) = Some b ->
  let check := check_provenance_regression state_short parse_version version_cmp l cp new_tools in
  let l' := update_tool state_short mono resolve python check l short [e] in
  (l' = l /\ exists v p bv, LostProvenance short v p bv ∈ check.(regression_errors)) \/
  ((exists ts' t, tools l' !! state_short short = Some ts' /\ t ∈ ts' /\ same_but_bindings b t) /\
   forall r info, r.(r_short) = short -> r.(r_version) = e.(t_version) -> r.(r_backend) = backend ->
     to_key r.(r_platform) = cp -> r.(r_info) = inr info -> info.(p_provenance) = None ->
     exists v p bv, apply_lock_result state_short parse_version version_cmp l' r = Err (LostProvenance short v p bv)).
Proof.
  intros Hex Hnd Hin backend Hb check l'.
  destruct (check_provenance_spec l cp short existing new_tools [e] e b) as [Hkn Hor]; [done|done|by apply list_elem_of_singleton|done|].
  fold check in Hkn, Hor. destruct (decide (short ∈ regressing check)) as [Hr|Hnr].
  { left. split; [subst l'; unfold update_tool; by rewrite bool_decide_true|]. by apply Hkn. }
  right. destruct Hor as [?|Hbd]; [done|].
  destruct (update_tool_entries l cp short existing e mono resolve python new_tools Hex Hkn Hnr) as (ts' & Hts' & Hold & Hbs).
  fold check l' in Hts', Hold, Hbs.
  pose proof (baseline_elem _ _ _ _ _ _ Hb) as (Hbin & Hbv & Hbb & Hbp & _ & pv & _ & Hpv & _).
  assert (exists t, t ∈ ts' /\ same_but_bindings b t) as (t & Ht & Hs).
  { destruct (Hbs b Hbd) as (t & Ht & Ek). exists t. split; [done|].
    destruct (Hold t Ht) as [E|(x & Hx & Hxs)].
    - exfalso. apply Hbv. unfold tool_key_of in Ek. congruence.
    - assert (x = b) as <-; [|done]. assert (tool_key_of x = tool_key_of b) as E by (rewrite <- Ek, Hxs; done).
      apply list_elem_of_lookup in Hx as [i Hi]. apply list_elem_of_lookup in Hbin as [j Hj].
      assert (i = j) as <- by by eapply keys_unique_lookup. congruence. }
  split; [by exists ts', t|].
  intros r info Ers Erv Erb Erp Eri Eno. unfold apply_lock_result. rewrite Eri, Ers, Erv, Erb, Erp, tools_for_spec, Hts', Eno.
  assert (e.(t_platforms) !! cp ≫= p_provenance = None) as Enp by by apply baseline_Some in Hb as [? _].
  rewrite Enp in Hb. unfold check_single_tool_provenance.
  destruct (baseline_still existing ts' e.(t_version) backend cp b Hb) as [b' Hb'].
  - intros v u (Hu & Hv & Hub & Hp & Hpar)%elem_of_prior. destruct (Hold u Hu) as [?|(x & Hx & Hxs)]; [done|].
    exists x. apply elem_of_prior. unfold same_but_bindings in Hxs. set (s := t_specifiers u) in Hxs. clearbody s. by subst u.
  - exists pv, t. apply elem_of_prior. unfold same_but_bindings in Hs. set (s := t_specifiers t) in Hs. clearbody s. by subst t.
  - rewrite Hb'. simpl. by do 3 eexists.
Qed.

(** An entry of another, lower version of the same backend, with provenance on the platform. *)
Definition older_with_provenance (ts : list Tool) (version backend cp : str) (b : Tool) : Prop :=
  b ∈ ts /\ b.(t_version) <> version /\ b.(t_backend) = Some backend /\ has_provenance cp b = true /\
  exists nv pv, parse version = Some nv /\ parse b.(t_version) = Some pv /\ version_cmp nv pv = Gt.

(** No other version with provenance is as high. *)
Definition above_all_with_provenance (ts : list Tool) (version backend cp : str) : Prop :=
  forall t tv nv, t ∈ ts -> t.(t_version) <> version -> t.(t_backend) = Some backend -> has_provenance cp t = true ->
    parse t.(t_version) = Some tv -> parse version = Some nv -> version_cmp nv tv = Gt.

(** None of the older entries with provenance has a higher version. *)
Definition newest_with_provenance (ts : list Tool) (version backend cp : str) (b : Tool) : Prop :=
  older_with_provenance ts version backend cp b /\
  forall u uv bv, older_with_provenance ts version backend cp u -> parse u.(t_version) = Some uv -> parse b.(t_version) = Some bv ->
    version_cmp uv bv <> Gt.

Lemma baseline_newest ts version backend cp b0 :
  starts_with u!"github:" backend = true -> older_with_provenance ts version backend cp b0 -> above_all_with_provenance ts version backend cp ->
  exists b, baseline (Some ts) version backend cp None = Some b /\ newest_with_provenance ts version backend cp b.
Proof.
  intros Hg Hb0 Habove. pose proof Hb0 as (Hin & Hv & Hb & Hp & nv & pv0 & Hn & Hpv0 & _).
  assert ((pv0, b0) ∈ prior_versions parse_version ts version backend cp) as H0 by (by apply elem_of_prior).
  destruct (max_by_some (fun x y : Version * Tool => version_cmp x.1 y.1) None (prior_versions parse_version ts version backend cp)) as [[pv b] Hm].
  { right. intros E. rewrite E in H0. by apply elem_of_nil in H0. }
  pose proof Hm as Hb'. apply max_by_elem in Hb' as [?|(Hbin & Hbv & Hbb & Hbp & Hbpv)%elem_of_prior]; [done|].
  assert (version_cmp nv pv = Gt) as Hgt by (by apply (Habove b)).
  exists b. split; [apply baseline_Some; eauto 10|]. split.
  - split_and!; [done..|]. by exists nv, pv.
  - intros u uv bv (Hu & Huv & Hub & Hup & _) Eu Eb. assert (bv = pv) as -> by congruence.
    assert ((uv, u) ∈ prior_versions parse_version ts version backend cp) as Hin_u by (by apply elem_of_prior).
    exact (max_by_greatest (fun x y : Version * Tool => version_cmp x.1 y.1) _ _ _ Hm Hin_u).
Qed.

(** C5. No upgrade loses provenance silently: let a tool be installed in a version [e] of a GitHub backend without provenance, while
    the lockfile's entries hold older versions of the same backend that have provenance on this platform and none that
    is as new. Then, for [b] the newest of the older ones, the install is refused with an error that names the tool and
    its entries stay as they were; or, as when nothing was downloaded, the entry [b] is still in the lockfile with all its
    data after the update, whatever else is merged into it, and the lock that follows refuses every resolution of the
    new version that has no provenance. (Versions are compared where they can be read as such, and the tool's entries
    have different keys.) *)
Theorem upgrade_is_checked l cp short existing e b0 mono resolve python (new_tools : list (str * list Tool)) :
  tools l !! state_short short = Some existing -> keys_unique existing -> (short, [e]) ∈ new_tools ->
  let backend := from_option_or e.(t_backend) [] in
  starts_with u!"github:" backend = true -> e.(t_platforms) !! cp ≫= p_provenance = None ->
  older_with_provenance existing e.(t_version) backend cp b0 -> above_all_with_provenance existing e.(t_version) backend cp ->
  let check := check_provenance_regression state_short parse_version version_cmp l cp new_tools in
  let l' := update_tool state_short mono resolve python check l short [e] in
  exists b, newest_with_provenance existing e.(t_version) backend cp b /\
  ((l' = l /\ exists v p bv, LostProvenance short v p bv ∈ check.(regression_errors)) \/
   ((exists ts' t, tools l' !! state_short short = Some ts' /\ t ∈ ts' /\ same_but_bindings b t) /\
    forall r info, r.(r_short) = short -> r.(r_version) = e.(t_version) -> r.(r_backend) = backend ->
      to_key r.(r_platform) = cp -> r.(r_info) = inr info -> info.(p_provenance) = None ->
      exists v p bv, apply_lock_result state_short parse_version version_cmp l' r = Err (LostProvenance short v p bv))).
Proof.
  intros Hex Hnd Hin backend Hg Hno Hb0 Habove check l'.
  destruct (baseline_newest existing e.(t_version) backend cp b0 Hg Hb0 Habove) as (b & Hb & Hnewest). exists b. split; [done|].
  rewrite <- Hno in Hb. by apply (baseline_kept l cp short existing).
Qed.

End Ratchet.

(** ** At concrete lockfiles *)

(** A version is a number of one digit. *)
Definition sample_parse (s : str) : option N := match s with [d] => Some d | _ => None end.

#[export] Instance sample_order : WeakOrder N.compare.
Proof.
  constructor.
  - intros a b. apply N.compare_antisym.
  - intros a b c H1 H2. rewrite N.compare_gt_iff in *. lia.
Qed.

Definition sample_info (checksum url : option str) (provenance : option ProvenanceType) : PlatformInfo :=
  mkPlatformInfo None checksum None None url None None None provenance None None None None None None [].

Definition sample_entry (version : str) (info : option PlatformInfo) : LockfileTool unit unit :=
  mkLockfileTool version (Some u!"github:o/r") {[u!"latest"]} []
    (match info with Some info => {[u!"linux-x64" := info]} | None => ∅ end) None None None.

Definition sample_locked : LockfileTool unit unit :=
  sample_entry u!"1" (Some (sample_info (Some u!"sha256:aa") (Some u!"https://h/1") (Some GithubAttestations))).

Definition sample_file : Lockfile unit unit := mkLockfile 1 {[u!"r" := [sample_locked]]} ∅ ∅ ∅.

Definition sample_resolution (version : str) (info : PlatformInfo) : LockResolution :=
  mkLockResolution u!"r" version u!"github:o/r" (mkPlatform u!"linux" u!"x64" None) (inr info) [] ∅.

Lemma upgrade_is_checked_witness :
  let e := sample_entry u!"2" None in
  let check := check_provenance_regression id sample_parse N.compare sample_file u!"linux-x64" [(u!"r", [e])] in
  let l' := update_tool id false (fun _ _ => None) None check sample_file u!"r" [e] in
  check.(regression_errors) = [] /\
  exists v p bv, apply_lock_result id sample_parse N.compare l'
    (sample_resolution u!"2" (sample_info (Some u!"sha256:bb") (Some u!"https://h/2") None)) = Err (LostProvenance u!"r" v p bv).
Proof.
  intros e check l'. assert (check.(regression_errors) = []) as He by (vm_compute; reflexivity). split; [exact He|].
  destruct (upgrade_is_checked id sample_parse N.compare sample_file u!"linux-x64" u!"r" [sample_locked] e sample_locked
    false (fun _ _ => None) None [(u!"r", [e])]) as (b & _ & [[_ (v & p & bv & H)]|[_ H]]).
  - vm_compute. reflexivity.
  - apply (bool_decide_unpack _). vm_compute. reflexivity.
  - by left.
  - vm_compute. reflexivity.
  - vm_compute. reflexivity.
  - split_and!; [by left|discriminate|reflexivity|vm_compute; reflexivity|]. exists c!"2", c!"1". split_and!; vm_compute; reflexivity.
  - intros t tv nv ->%list_elem_of_singleton _ _ _ Ht Hn. vm_compute in Ht, Hn. injection Ht as <-. injection Hn as <-. reflexivity.
  - fold check in H. rewrite He in H. by apply elem_of_nil in H.
  - apply (H _ (sample_info (Some u!"sha256:bb") (Some u!"https://h/2") None)); reflexivity.
Defined.

Lemma apply_never_downgrades_witness :
  let info := sample_info (Some u!"sha256:bb") (Some u!"https://h/1") (Some GithubAttestations) in
  exists l' ts' t' new,
    apply_lock_result id sample_parse N.compare sample_file (sample_resolution u!"1" info) = Ok (true, l') /\
    tools l' !! u!"r" = Some ts' /\ ts' !! 0 = Some t' /\ t'.(t_platforms) !! u!"linux-x64" = Some new /\
    provenance_is_downgrade (Some GithubAttestations) new.(p_provenance) false = false.
Proof.
  intros info.
  destruct (apply_lock_result id sample_parse N.compare sample_file (sample_resolution u!"1" info)) as [[applied l']|err|] eqn:E;
    [|vm_compute in E; discriminate..].
  assert (applied = true) as -> by (vm_compute in E; congruence).
  destruct (apply_never_downgrades id sample_parse N.compare sample_file (sample_resolution u!"1" info) info true l'
    [sample_locked] 0 sample_locked (sample_info (Some u!"sha256:aa") (Some u!"https://h/1") (Some GithubAttestations)))
    as (ts' & t' & new & H1 & H2 & H3 & _ & _ & _ & _ & _ & _ & _ & H & _).
  - exact E.
  - reflexivity.
  - vm_compute. reflexivity.
  - apply (bool_decide_unpack _). vm_compute. reflexivity.
  - reflexivity.
  - reflexivity.
  - reflexivity.
  - vm_compute. reflexivity.
  - exists l', ts', t', new. split_and!; [reflexivity|exact H1|exact H2|exact H3|].
    destruct (checksum_changed (p_checksum (sample_info (Some u!"sha256:aa") (Some u!"https://h/1") (Some GithubAttestations))) (p_checksum new)) eqn:Ec.
    + exact (H eq_refl).
    + exfalso. vm_compute in E. injection E as <-. vm_compute in H1. injection H1 as <-. injection H2 as <-.
      vm_compute in H3. injection H3 as <-. vm_compute in Ec. discriminate.
Defined.

Lemma prune_safe_witness :
  let ts := [sample_locked; sample_entry u!"2" (Some (sample_info (Some u!"sha256:bb") None (Some Cosign)))] in
  exists pruned ts', prune_verified_provenance_baselines sample_parse N.compare ts {[u!"2"]} u!"linux-x64" = Ok (pruned, ts') /\
    pruned = [u!"1"] /\ map t_version ts' = [u!"2"].
Proof.
  intros ts.
  destruct (prune_safe id sample_parse N.compare ts {[u!"2"]} u!"linux-x64") as (pruned & ts' & E & _ & _).
  - apply (bool_decide_unpack _). vm_compute. reflexivity.
  - exists pruned, ts'. split; [exact E|]. vm_compute in E. injection E as <- <-. split; vm_compute; reflexivity.
Defined.

(** Where a legacy entry without options meets a fresh one without options and the options of its platform
    cannot be resolved, the old record replaces the fresh one; the two are not merged. *)
Lemma unresolved_replaces_fresh :
  let fresh := sample_entry u!"1" (Some (sample_info (Some u!"sha256:bb") (Some u!"https://h/new") None)) in
  exists t, (merge_tool_entries [fresh] (Some [sample_locked]) (fun _ _ => None)).1 = [t] /\
    t.(t_platforms) = sample_locked.(t_platforms).
Proof. eexists. split; vm_compute; reflexivity. Qed.
