(* ===== verification/LockLookup.v ===== *)
(** * Looking up locked versions ([src/lockfile.rs]): what a lockfile says of a request, which targets
    still need an automatic lock, and the check that a locked URL names the locked version

    The parts of [get_locked_version] and of the automatic lock that are not reading files. What the
    backend of a request decides (its lock options, its platform variants, its order of versions) is an
    argument, as are the order of [versions::Versioning] and the decoding of URLs. *)

From S2P Require Import Prelude RustStr Order LockInfo Platforms Lockfile LockUpdate.

(** ** Versions *)

Definition lockfile_version_matches (prefix version : str) : bool :=
  bool_decide (prefix = u!"latest") || starts_with (strip_leading_v prefix) (strip_leading_v version).

Definition lockfile_version_matches_prefix_boundary (prefix version : str) : bool :=
  let prefix := strip_leading_v prefix in
  if bool_decide (prefix = []) then false
  else match strip_prefix prefix (strip_leading_v version) with
       | None => false
       | Some rest =>
           bool_decide (rest = []) || ends_with u!"-" prefix
           || match rest with c :: _ => one_of u!".-+" c | [] => false end
       end.

(** ** Dotted numbers *)

(** From a digit on, the dots passed and the run. *)
Fixpoint take_run (s : str) : nat * str :=
  match s with
  | [] => (0, [])
  | c :: s' =>
      if is_ascii_digit c then let '(dots, run) := take_run s' in (dots, c :: run)
      else if (c =? c!".")%N && match s' with d :: _ => is_ascii_digit d | [] => false end
      then let '(dots, run) := take_run s' in (S dots, c :: run)
      else (0, [])
  end.

(** [skip] characters belong to the run before; [prev] is the character before [s]. *)
Fixpoint runs_from (skip : nat) (prev : option char) (s : str) : list str :=
  match s with
  | [] => []
  | c :: s' =>
      match skip with
      | S skip => runs_from skip (Some c) s'
      | 0 =>
          if negb (is_ascii_digit c) then runs_from 0 (Some c) s'
          else
            let '(dots, run) := take_run s in
            let joins_left := match prev with Some p => (p =? c!".")%N | None => false end in
            let more := runs_from (length run - 1) (Some c) s' in
            if (0 <? dots) && negb joins_left then run :: more else more
      end
  end.

Definition dotted_number_runs (s : str) : list str := runs_from 0 None s.

Fixpoint components_agree (a b : list str) : bool :=
  match a, b with
  | x :: a', y :: b' =>
      bool_decide (trim_start_matches (N.eqb c!"0") x = trim_start_matches (N.eqb c!"0") y) && components_agree a' b'
  | _, _ => true
  end.

Definition dotted_numbers_agree (a b : str) : bool :=
  components_agree (split_on (N.eqb c!".") a) (split_on (N.eqb c!".") b).

(** The position of the first of the texts. *)
Definition index_of (x : str) (l : list str) : option nat := fst <$> list_find (fun y => y = x) l.

Section Urls.

(** [urlencoding::decode] of the [urlencoding] crate, [None] where the bytes are no UTF-8. *)
Context (decode : str -> option str).

Definition segments_of (path : str) : list str :=
  map (fun s => from_option_or (decode s) s)
    (List.filter (fun s => negb (bool_decide (s = []))) (split_on (N.eqb c!"/") path)).

(** The segment that names the release in the URL of a forge. *)
Definition release_tag (segments : list str) : option str :=
  or_else
    (index_of u!"releases" segments ≫= fun i =>
       if bool_decide (segments !! (i + 1) = Some u!"download") then segments !! (i + 2) else segments !! (i + 1))
    (index_of u!"archive" segments ≫= fun i => segments !! (i + 1)).

Definition release_identifiers (path : str) : list str :=
  let segments := segments_of path in
  match release_tag segments with Some tag => dotted_number_runs tag | None => [] end
  ++ match last segments with Some name => dotted_number_runs name | None => [] end.

(** The path of a URL, from its first slash after the host. *)
Definition url_path (url : str) : option str :=
  let rest := match split_once_str u!"://" url with Some (_, rest) => rest | None => url end in
  let before := from_option_or (head (split_on (one_of u!"?#") rest)) [] in
  str_from before <$> find (N.eqb c!"/") before.

Definition url_contradicts_version (version url : str) : option (list str) :=
  match dotted_number_runs version with
  | [] => None
  | version_runs =>
      match url_path url with
      | None => None
      | Some path =>
          match release_identifiers path with
          | [] => None
          | identifiers =>
              if existsb (fun u => existsb (dotted_numbers_agree u) version_runs) identifiers then None
              else Some identifiers
          end
      end
  end.

(** [ensure_locked_url_matches_version] of a version, whether it came from the lockfile, and its locked
    platforms: the identifiers of the error. *)
Definition ensure_locked_url_matches_version (version : str) (resolved_from_lockfile : bool)
    (lock_platforms : gmap str PlatformInfo) (platform_key : str) : result (list str) unit :=
  if negb resolved_from_lockfile then Ok tt else
  match lock_platforms !! platform_key ≫= p_url with
  | None => Ok tt
  | Some url => match url_contradicts_version version url with Some versions => Err versions | None => Ok tt end
  end.

End Urls.

Section Lookup.

Context {Aube Uv : Type} (state_short : str -> str).

#[local] Abbreviation Tool := (LockfileTool Aube Uv).
#[local] Abbreviation Lock := (Lockfile Aube Uv).

(** ** The locked version of a request *)

(** A backend as the lookup sees it: whether it is disabled, the lock options it gives the request (told
    whether to leave out those of the registry), and whether they describe the writing host. *)
Record BackendView (E : Type) := mkBackendView {
  b_disabled : bool;
  b_lockfile_options : bool -> E + Options;
  b_host_specific : bool
}.
Arguments mkBackendView {E} _ _ _.
Arguments b_disabled {E} _.
Arguments b_lockfile_options {E} _ _.
Arguments b_host_specific {E} _.

(** [LockedVersionQuery], with what is read of its request: whether it names its backend, that backend's
    stored name, and the order its backend gives versions, [None] without a backend. *)
Record LockedVersionQuery (E : Type) := mkQuery {
  q_short : str;
  q_specifier : str;
  q_prefix : str;
  q_require_prefix_boundary : bool;
  q_alias_resolved : bool;
  q_request_options : Options;
  q_legacy_options_fallback : bool;
  q_has_explicit_backend : bool;
  q_stored_full : str;
  q_version_order : option (E + (list Tool -> list Tool))
}.
Arguments mkQuery {E} _ _ _ _ _ _ _ _ _ _.
Arguments q_short {E} _.
Arguments q_specifier {E} _.
Arguments q_prefix {E} _.
Arguments q_require_prefix_boundary {E} _.
Arguments q_alias_resolved {E} _.
Arguments q_request_options {E} _.
Arguments q_legacy_options_fallback {E} _.
Arguments q_has_explicit_backend {E} _.
Arguments q_stored_full {E} _.
Arguments q_version_order {E} _.

Context {E : Type}.

(** [AmbiguousRequestBinding], or another error. *)
Inductive LookupError : Type :=
| Ambiguous (short specifier : str)
| OtherError (e : E).

(** The backend of a recorded name ([arg_to_backend]), whether the options of the registry are for
    another one, and the order of [Option<Versioning>]. *)
Context (arg_to_backend : str -> option (BackendView E)) (registry_options_are_not_for : str -> bool)
  (versioning_cmp : str -> str -> comparison).

Definition binding_options (q : LockedVersionQuery E) (t : Tool) : E + option (Options * bool) :=
  match (if q.(q_has_explicit_backend) then None else t.(t_backend)) with
  | Some full =>
      match arg_to_backend full with
      | None => inr None
      | Some backend =>
          if backend.(b_disabled) then inr None
          else match backend.(b_lockfile_options) (registry_options_are_not_for full) with
               | inl e => inl e
               | inr options => inr (Some (options, backend.(b_host_specific)))
               end
      end
  | None => inr (Some (q.(q_request_options), q.(q_legacy_options_fallback)))
  end.

Definition cmp_lockfile_versions_newest_first (a b : str) : comparison := then_cmp (versioning_cmp b a) (str_cmp b a).

Definition select_unbound_lockfile_tool (q : LockedVersionQuery E) (matching : list Tool) : result LookupError (option Tool) :=
  match q.(q_version_order) with
  | None => Ok (head matching)
  | Some (inl e) => Err (OtherError e)
  | Some (inr order_by) => Ok (last (order_by matching))
  end.

(** Entries of the version a request asks for. *)
Definition version_matches (q : LockedVersionQuery E) (t : Tool) : bool :=
  lockfile_version_matches q.(q_prefix) t.(t_version)
  && (negb q.(q_require_prefix_boundary) || lockfile_version_matches_prefix_boundary q.(q_prefix) t.(t_version)).

Definition is_empty_options (o : Options) : bool := match o with [] => true | _ => false end.

(** Where an option is not found, the next step. *)
Definition else_try (first : result LookupError (option Tool)) (next : result LookupError (option Tool))
    : result LookupError (option Tool) :=
  let? found := first in match found with Some t => Ok (Some t) | None => next end.

(** An entry of an older file under the options of the request. *)
Definition under_request_options (q : LockedVersionQuery E) (found : option Tool) : option Tool :=
  (fun t => lockfile_tool_with_request_options t q.(q_request_options)) <$> found.

(** The one of them; none, or an error. *)
Definition the_only (q : LockedVersionQuery E) (matching : list Tool) : result LookupError (option Tool) :=
  match matching with
  | [] => Ok None
  | [found] => Ok (Some found)
  | _ => Err (Ambiguous q.(q_short) q.(q_specifier))
  end.

Definition options_are (t : Tool) (binding : option (Options * bool)) : bool :=
  match binding with Some (options, _) => bool_decide (t.(t_options) = options) | None => false end.

Definition written_without_options (t : Tool) (binding : option (Options * bool)) : bool :=
  match binding with
  | Some (options, allow_fallback) => allow_fallback && negb (is_empty_options options) && is_empty_options t.(t_options)
  | None => false
  end.

Definition smap {A B} (f : A -> B) (m : E + A) : E + B := match m with inl e => inl e | inr a => inr (f a) end.

(** A lockfile with request bindings. *)
Definition lookup_bound (l : Lock) (q : LockedVersionQuery E) (ts : list Tool) : result LookupError (option Tool) :=
  let '(matching, binding_error) := matching_request_bindings state_short l q.(q_short) q.(q_specifier)
    (fun t => smap (options_are t) (binding_options q t)) in
  let '(legacy, legacy_error) := matching_request_bindings state_short l q.(q_short) q.(q_specifier)
    (fun t => smap (written_without_options t) (binding_options q t)) in
  let unbound (t : Tool) := bool_decide (t.(t_specifiers) = ∅) && version_matches q t in
  let? exact := the_only q matching in
  match exact with Some t => Ok (Some t) | None =>
  let? optionless := the_only q legacy in
  match optionless with
  | Some found =>
      match binding_options q found with
      | inl e => Err (OtherError e)
      | inr binding => Ok ((fun ob => lockfile_tool_with_request_options found ob.1) <$> binding)
      end
  | None =>
  else_try (select_unbound_lockfile_tool q
              (List.filter (fun t => unbound t && bool_decide (t.(t_options) = q.(q_request_options))) ts))
  (else_try
     (if q.(q_legacy_options_fallback) && negb (is_empty_options q.(q_request_options)) then
        rmap (under_request_options q)
          (select_unbound_lockfile_tool q (List.filter (fun t => unbound t && is_empty_options t.(t_options)) ts))
      else Ok None)
     (match or_else binding_error legacy_error with Some e => Err (OtherError e) | None => Ok None end))
  end end.

(** [latest] asks for the newest. *)
Definition newest_first (q : LockedVersionQuery E) (matching : list Tool) : list Tool :=
  if bool_decide (q.(q_prefix) = u!"latest") && (1 <? length matching)
  then sort_by (fun a b => cmp_lockfile_versions_newest_first a.(t_version) b.(t_version)) matching
  else matching.

(** The entries are those of the request's own configuration: [merged] and [shared_lockfile] say that
    others' are among them. *)
Definition lookup_alias (q : LockedVersionQuery E) (merged shared_lockfile : bool) (ts : list Tool) : option Tool :=
  if q.(q_alias_resolved) && negb merged && negb shared_lockfile then
    let backend_matches (t : Tool) :=
      negb q.(q_has_explicit_backend)
      || match t.(t_backend) with Some b => bool_decide (b = q.(q_stored_full)) | None => true end in
    match List.filter (fun t => backend_matches t && bool_decide (t.(t_options) = q.(q_request_options))) ts with
    | [found] => Some found
    | [] =>
        if q.(q_legacy_options_fallback) && negb (is_empty_options q.(q_request_options)) then
          match List.filter (fun t => backend_matches t && is_empty_options t.(t_options)) ts with
          | [found] => Some (lockfile_tool_with_request_options found q.(q_request_options))
          | _ => None
          end
        else None
    | _ => None
    end
  else None.

(** A lockfile without request bindings. *)
Definition lookup_unbound (q : LockedVersionQuery E) (merged shared_lockfile : bool) (ts : list Tool) : option Tool :=
  or_else (head (newest_first q (List.filter (fun t => version_matches q t && bool_decide (t.(t_options) = q.(q_request_options))) ts)))
  (or_else
     (if q.(q_legacy_options_fallback) && negb (is_empty_options q.(q_request_options)) then
        under_request_options q
          (head (newest_first q (List.filter (fun t => version_matches q t && is_empty_options t.(t_options)) ts)))
      else None)
     (lookup_alias q merged shared_lockfile ts)).

Definition lookup_lockfile (q : LockedVersionQuery E) (merged shared_lockfile : bool) (l : Lock) : result LookupError (option Tool) :=
  match tools_for state_short l q.(q_short) with
  | None => Ok None
  | Some ts => if uses_request_bindings l then lookup_bound l q ts else Ok (lookup_unbound q merged shared_lockfile ts)
  end.

Fixpoint nearest_lockfile_decision (lookup : Lock -> result LookupError (option Tool)) (lockfiles : list Lock)
    : result LookupError (option Tool) :=
  match lockfiles with
  | [] => Ok None
  | l :: rest =>
      match lookup l with
      | Ok (Some found) => Ok (Some found)
      | Ok None | Err (Ambiguous _ _) => nearest_lockfile_decision lookup rest
      | Err e => Err e
      | OutOfFuel => OutOfFuel
      end
  end.

(** [get_locked_version], once the lockfile of the request is read: [lockfiles] are those of the merged
    view, nearest first. *)
Definition get_locked_version (q : LockedVersionQuery E) (merged shared_lockfile : bool) (l : Lock) (lockfiles : list Lock)
    : result LookupError (option Tool) :=
  match lookup_lockfile q merged shared_lockfile l with
  | Err (Ambiguous s p) =>
      if merged then
        let? found := nearest_lockfile_decision (lookup_lockfile q merged shared_lockfile) lockfiles in
        match found with Some t => Ok (Some t) | None => Err (Ambiguous s p) end
      else Err (Ambiguous s p)
  | r => r
  end.

(** Of [version_for_request]: the revision of the file of the entry that the request resolved to. *)
Definition version_for_request (l : Lock) (short : str) (resolved : option Tool) : option N :=
  entry_lockfile_version state_short l short <$> resolved.

End Lookup.
Arguments mkBackendView {E} _ _ _.
Arguments b_disabled {E} _.
Arguments b_lockfile_options {E} _ _.
Arguments b_host_specific {E} _.
Arguments mkQuery {Aube Uv E} _ _ _ _ _ _ _ _ _ _.
Arguments q_short {Aube Uv E} _.
Arguments q_specifier {Aube Uv E} _.
Arguments q_prefix {Aube Uv E} _.
Arguments q_require_prefix_boundary {Aube Uv E} _.
Arguments q_alias_resolved {Aube Uv E} _.
Arguments q_request_options {Aube Uv E} _.
Arguments q_legacy_options_fallback {Aube Uv E} _.
Arguments q_has_explicit_backend {Aube Uv E} _.
Arguments q_stored_full {Aube Uv E} _.
Arguments q_version_order {Aube Uv E} _.

(** ** Targets of an automatic lock *)

Section Targets.

Context {Aube Uv : Type} (state_short : str -> str).
Context {Version : Type} (parse_version : str -> option Version) (version_cmp : Version -> Version -> comparison).

#[local] Abbreviation Tool := (LockfileTool Aube Uv).
#[local] Abbreviation Lock := (Lockfile Aube Uv).

(** The first entry of a version and options. *)
Definition find_entry (ts : list Tool) (version : str) (options : Options) : option Tool :=
  List.find (fun t => bool_decide (t.(t_version) = version) && bool_decide (t.(t_options) = options)) ts.

(** The version that an entry would regress against. *)
Definition entry_baseline (ts : list Tool) (version platform_key : str) (t : Tool) (provenance : option ProvenanceType) : option Tool :=
  find_provenance_regression_baseline parse_version version_cmp (Some ts) version (from_option_or t.(t_backend) []) platform_key provenance.

Definition lockfile_target_needs_auto_lock (ts : list Tool) (version platform_key : str) (options : Options) : bool :=
  match find_entry ts version options with
  | None => true
  | Some t =>
      match t.(t_platforms) !! platform_key with
      | None => true
      | Some info =>
          is_none info.(p_checksum) || is_none info.(p_url)
          || is_some (entry_baseline ts version platform_key t info.(p_provenance))
      end
  end.

Definition lockfile_target_has_deferred_provenance (ts : list Tool) (version platform_key : str) (options : Options) : bool :=
  match find_entry ts version options with
  | None => false
  | Some t => is_some (entry_baseline ts version platform_key t (t.(t_platforms) !! platform_key ≫= p_provenance))
  end.

(** A tool version as the lock sees it: its request and what its backend says of a platform. *)
Record TargetVersion (E : Type) := mkTargetVersion {
  tv_short : str;
  tv_version : str;
  tv_is_os_supported_on : Platform -> bool;
  tv_platform_variants : Platform -> list Platform;
  tv_lockfile_options : Platform -> E + Options
}.
Arguments mkTargetVersion {E} _ _ _ _ _.
Arguments tv_short {E} _.
Arguments tv_version {E} _.
Arguments tv_is_os_supported_on {E} _ _.
Arguments tv_platform_variants {E} _ _.
Arguments tv_lockfile_options {E} _ _.

Context {E : Type}.

(** The first variant the predicate holds of; an error of the options before it ends the search. *)
Fixpoint any_variant (options : Platform -> E + Options) (predicate : str -> Options -> bool) (variants : list Platform)
    : result E bool :=
  match variants with
  | [] => Ok false
  | variant :: rest =>
      match options variant with
      | inl e => Err e
      | inr o => if predicate (to_key variant) o then Ok true else any_variant options predicate rest
      end
  end.

(** [backend] is the error of finding the backend of the request, if there is one. *)
Definition tool_version_matches_lockfile_target (l : Lock) (tv : TargetVersion E) (backend : E + unit)
    (target_platforms : list Platform) (predicate : list Tool -> str -> str -> Options -> bool) : result E bool :=
  match tools_for state_short l tv.(tv_short) with
  | None => Ok false
  | Some ts =>
      if negb (existsb (fun t => bool_decide (t.(t_version) = tv.(tv_version))) ts) then Ok false
      else match backend with
           | inl e => Err e
           | inr _ =>
               any_variant tv.(tv_lockfile_options) (predicate ts tv.(tv_version))
                 (List.filter tv.(tv_is_os_supported_on) target_platforms ≫= tv.(tv_platform_variants))
           end
  end.

Definition tool_version_needs_auto_lock l tv backend target_platforms :=
  tool_version_matches_lockfile_target l tv backend target_platforms lockfile_target_needs_auto_lock.

Definition tool_version_needs_deferred_provenance_retry l tv backend target_platforms :=
  tool_version_matches_lockfile_target l tv backend target_platforms lockfile_target_has_deferred_provenance.

(** Whether the error of a resolution that guards a deferred upgrade must fail the lock. *)
Definition deferred_provenance_resolution_error (existing_tools : option (list Tool)) (version backend platform_key : str) : bool :=
  is_some (find_provenance_regression_baseline parse_version version_cmp existing_tools version backend platform_key None).

End Targets.

(** ** Migrating entries without options *)

Section Rekey.

Context {Aube Uv : Type}.

#[local] Abbreviation Tool := (LockfileTool Aube Uv).

(** A fresh version: where its backend is known, whether its options describe the host and what they are
    for a platform. *)
Record FreshVersion := mkFreshVersion { f_version : str; f_backend : option (bool * (Platform -> option Options)) }.

(** [RekeyDecisions] *)
Abbreviation RekeyDecisions := (gmap (str * str) (option Options)) (only parsing).

(** The platforms of the entries of a version that have no options. *)
Definition legacy_platforms (existing_tools : list Tool) (version : str) : gset str :=
  ⋃ (map (fun t => dom t.(t_platforms))
       (List.filter (fun t => match t.(t_options) with [] => bool_decide (t.(t_version) = version) | _ => false end) existing_tools)).

(** The options that a fresh version gives a platform. *)
Definition resolved_options (tv : FreshVersion) (platform_key : str) : option Options :=
  Platform_parse platform_key ≫= fun platform =>
    match tv.(f_backend) with
    | Some (host_specific, lockfile_options) => if host_specific then None else lockfile_options platform
    | None => None
    end.

Definition build_rekey_decisions (versions : list FreshVersion) (existing_tools : option (list Tool)) : RekeyDecisions :=
  foldl (fun decisions tv =>
    foldl (fun decisions platform_key =>
             record_rekey_decision decisions (tv.(f_version), platform_key) (resolved_options tv platform_key))
      decisions (key_order (legacy_platforms (from_option_or existing_tools []) tv.(f_version)))) ∅ versions.

(** What [update_lockfiles] gives [merge_tool_entries] to resolve with. *)
Definition rekey_resolve (decisions : RekeyDecisions) (version : str) (platform : Platform) : option Options :=
  match decisions !! (version, to_key platform) with Some o => o | None => None end.

End Rekey.

(** ** Platforms without a build *)

Record UnsupportedPlatforms := mkUnsupported {
  named : option (gset str);
  u_platforms : gmap (str * str) (gset str);
  resolved : gset (str * str * str)
}.

Definition UnsupportedPlatforms_new (named : option (gset str)) : UnsupportedPlatforms := mkUnsupported named ∅ ∅.

(** Whether the user named a platform, or the one it is a variant of. *)
Definition is_named (u : UnsupportedPlatforms) (platform : str) : bool :=
  match u.(named) with
  | Some named => existsb (fun name => bool_decide (platform = name) || starts_with (name ++ u!"-") platform) (elements named)
  | None => false
  end.

Definition record (u : UnsupportedPlatforms) (short version platform : str) : UnsupportedPlatforms :=
  if is_named u platform then
    mkUnsupported u.(named)
      (<[(short, version) := {[platform]} ∪ from_option_or (u.(u_platforms) !! (short, version)) ∅]> u.(u_platforms)) u.(resolved)
  else u.

Definition record_resolved (u : UnsupportedPlatforms) (short version platform : str) : UnsupportedPlatforms :=
  mkUnsupported u.(named) u.(u_platforms) ({[(short, version, platform)]} ∪ u.(resolved)).

(** What is reported of a tool version: its platforms in order, none where every one was resolved. *)
Definition reported (u : UnsupportedPlatforms) (short version : str) : option (list str) :=
  u.(u_platforms) !! (short, version) ≫= fun platforms =>
    match List.filter (fun platform => negb (bool_decide ((short, version, platform) ∈ u.(resolved)))) (key_order platforms) with
    | [] => None
    | unresolved => Some unresolved
    end.

Definition messages (u : UnsupportedPlatforms) : list str :=
  omap (fun key : str * str =>
    (fun platforms => key.1 ++ u!"@" ++ key.2 ++ u!" is not available for " ++ join u!", " platforms ++ u!"; it will not install there")
      <$> reported u key.1 key.2)
    (sort_by (pair_cmp str_cmp str_cmp) (elements (dom u.(u_platforms)))).
