(* ===== verification/LockLookupSpec.v ===== *)
(** * What a lockfile lookup promises: the version a request was bound to is found again, artifact data
    never move to other options, a locked URL is refused only where it provably names another release,
    and an automatic lock does not lock the same target twice *)

From S2P Require Import Prelude RustStr Order LockInfo Platforms Lockfile LockUpdate LockInfoSpec LockfileSpec LockLookup.

(** ** Dotted numbers *)

Definition starts_digit (s : str) : bool := match s with c :: _ => is_ascii_digit c | [] => false end.

(** A number goes on in [s]: with a digit, or a dot and a digit. *)
Definition continues (s : str) : bool :=
  match s with
  | c :: s' => is_ascii_digit c || ((c =? c!".")%N && starts_digit s')
  | [] => false
  end.

(** What [take_run] takes: digits, and dots with a digit after them. *)
Fixpoint run_chars (s : str) : bool :=
  match s with
  | [] => true
  | c :: s' => (is_ascii_digit c || ((c =? c!".")%N && starts_digit s')) && run_chars s'
  end.

Definition dots_in (s : str) : nat := length (List.filter (N.eqb c!".") s).

(** Digits, a dot, digits, and so on, with a dot at least. *)
Definition dotted (r : str) : Prop := starts_digit r = true /\ run_chars r = true /\ 0 < dots_in r.

Definition ends_number (pre : str) : bool :=
  match last pre with Some c => is_ascii_digit c || (c =? c!".")%N | None => false end.

(** [r] is a dotted number of [s] that continues no number on its left and goes on in none on its right. *)
Definition dotted_in (r s : str) : Prop :=
  exists pre post, s = pre ++ r ++ post /\ dotted r /\ ends_number pre = false /\ continues post = false.

Lemma dots_in_digit c r : is_ascii_digit c = true -> dots_in (c :: r) = dots_in r.
Proof.
  intros H. unfold dots_in. cbn [List.filter]. destruct (46 =? c)%N eqn:E; [|reflexivity].
  apply N.eqb_eq in E. subst c. vm_compute in H. discriminate H.
Qed.

Lemma take_run_spec s dots run :
  take_run s = (dots, run) ->
  exists post, s = run ++ post /\ run_chars run = true /\ dots = dots_in run /\ continues post = false.
Proof.
  revert dots run. induction s as [|c s IH]; simpl; intros dots run.
  - intros [= <- <-]. by exists [].
  - destruct (take_run s) as [d r] eqn:Et. destruct (IH d r eq_refl) as (post & -> & Hr & -> & Hp).
    assert (starts_digit (r ++ post) = true -> starts_digit r = true) as Hs.
    { destruct r as [|x r]; [|done]. simpl. intros H. destruct post as [|y post]; simpl in *; [done|]. by rewrite H in Hp. }
    destruct (is_ascii_digit c) eqn:Ed.
    + intros [= <- <-]. exists post. simpl. rewrite Ed. split_and!; [done|done| |done].
      by rewrite dots_in_digit.
    + fold (starts_digit (r ++ post)). destruct ((c =? 46)%N && starts_digit (r ++ post)) eqn:E.
      * intros [= <- <-]. exists post. apply andb_true_iff in E as [E1 E2]. simpl. rewrite Ed, E1, (Hs E2). simpl.
        split_and!; [done|done| |done]. apply N.eqb_eq in E1 as ->. done.
      * intros [= <- <-]. exists (c :: r ++ post). simpl. by rewrite Ed, E.
Qed.

Lemma run_chars_app a b : run_chars (a ++ b) = true -> continues b = false -> run_chars a = true.
Proof.
  induction a as [|c a IH]; [done|]. simpl. intros [H1 H2]%andb_true_iff Hb. rewrite IH by done.
  destruct (is_ascii_digit c); [done|]. simpl in *. apply andb_true_iff in H1 as [-> H1]. simpl.
  rewrite andb_true_r. destruct a as [|x a]; [|done]. simpl in *. destruct b as [|y b]; [done|]. simpl in *. by rewrite H1 in Hb.
Qed.

(** Where a run ends is decided by what follows. *)
Lemma take_run_unique r post :
  run_chars r = true -> continues post = false -> (r = [] -> False) -> take_run (r ++ post) = (dots_in r, r).
Proof.
  induction r as [|c r IH]; [done|]. simpl. intros [H1 H2]%andb_true_iff Hp _.
  assert (take_run (r ++ post) = (dots_in r, r)) as Hr.
  { destruct r as [|x r]; [|by apply IH]. simpl. destruct post as [|y post]; [done|]. simpl in Hp |- *.
    destruct (take_run post). apply orb_false_iff in Hp as [-> Hp]. by fold (starts_digit post); rewrite Hp. }
  rewrite Hr. destruct (is_ascii_digit c) eqn:Ed.
  - by rewrite dots_in_digit.
  - simpl in H1. apply andb_true_iff in H1 as [E1 E2]. rewrite E1. fold (starts_digit (r ++ post)).
    replace (starts_digit (r ++ post)) with true by (destruct r; done). apply N.eqb_eq in E1 as ->. done.
Qed.

Lemma run_chars_last r c : run_chars r = true -> last r = Some c -> is_ascii_digit c = true.
Proof.
  induction r as [|x r IH]; [done|]. simpl. intros [H1 H2]%andb_true_iff. destruct r as [|y r]; [|by apply IH].
  intros [= ->]. simpl in H1. by rewrite andb_false_r, orb_false_r in H1.
Qed.

Lemma runs_from_skip rest s prev :
  runs_from (length rest) prev (rest ++ s) = runs_from 0 (match last rest with Some c => Some c | None => prev end) s.
Proof.
  revert prev. induction rest as [|c rest IH]; intros prev; [done|]. simpl. rewrite IH. f_equal.
  change (match rest with [] => Some c | _ => last rest end) with (last (c :: rest)). rewrite last_cons. by destruct (last rest).
Qed.

Lemma run_chars_elem r c : run_chars r = true -> c ∈ r -> is_ascii_digit c || (c =? c!".")%N = true.
Proof.
  induction r as [|x r IH]; [by intros _ []%elem_of_nil|]. simpl. intros [H1 H2]%andb_true_iff [->|Hc]%elem_of_cons; [|by apply IH].
  destruct (is_ascii_digit x); [done|]. simpl in *. by apply andb_true_iff in H1 as [-> _].
Qed.

(** The numbers of [s] after [ctx]. *)
Definition number_at (ctx s r : str) : Prop :=
  exists pre post, s = pre ++ r ++ post /\ dotted r /\ ends_number (ctx ++ pre) = false /\ continues post = false.

Lemma ends_number_app a b : b <> [] -> ends_number (a ++ b) = ends_number b.
Proof. intros Hb. unfold ends_number. rewrite last_app. destruct (last b) eqn:E; [done|]. by apply last_None in E. Qed.

Lemma number_at_cons ctx c s r :
  is_ascii_digit c = false -> number_at ctx (c :: s) r <-> number_at (ctx ++ [c]) s r.
Proof.
  intros Hc. unfold number_at. split.
  - intros (pre & post & E & Hd & He & Hp). destruct pre as [|x pre].
    + destruct Hd as (Hs & _). destruct r as [|x r]; [done|]. simpl in *. congruence.
    + injection E as <- ->. exists pre, post. split_and!; [done|done| |done]. by rewrite <- app_assoc.
  - intros (pre & post & -> & Hd & He & Hp). exists (c :: pre), post. split_and!; [done|done| |done].
    by rewrite <- app_assoc in He.
Qed.

(** After a run, the numbers left are those of what follows it. *)
Lemma number_at_run ctx c run post r :
  run_chars (c :: run) = true -> is_ascii_digit c = true -> continues post = false ->
  number_at ctx (c :: run ++ post) r <->
  (r = c :: run /\ 0 < dots_in r /\ ends_number ctx = false) \/ number_at (ctx ++ c :: run) post r.
Proof.
  intros Hrun Hc Hp. unfold number_at. split.
  - intros (pre & post' & E & Hd & He & Hp'). destruct pre as [|x pre].
    + left. destruct Hd as (Hs & Hr & Hdots). simpl in E. rewrite app_nil_r in He.
      assert (r = c :: run) as ->; [|done].
      assert (take_run (r ++ post') = (dots_in r, r)) as H1 by (apply take_run_unique; [done..|by intros ->]).
      rewrite <- E in H1. change (c :: run ++ post) with ((c :: run) ++ post) in H1.
      rewrite take_run_unique in H1 by done. congruence.
    + right. injection E as <- E. apply app_eq_app in E as (l & [[-> E]|[-> E]]).
      * destruct l as [|y l].
        -- rewrite app_nil_r in *. simpl in E. exists [], post'. split_and!; [done|done| |done]. by rewrite app_nil_r.
        -- exfalso. rewrite ends_number_app in He by done. simpl in Hrun. unfold ends_number in He.
           destruct (last (c :: pre)) as [z|] eqn:El; [|by apply last_None in El].
           assert (z ∈ c :: pre ++ y :: l) as Hz.
           { apply last_Some_elem_of in El. set_solver. }
           apply (run_chars_elem (c :: pre ++ y :: l)) in Hz; [|done]. congruence.
      * exists l, post'. split_and!; [done|done| |done]. by rewrite <- app_assoc.
  - intros [(-> & Hdots & He)|(pre & post' & -> & Hd & He & Hp')].
    + exists [], post. rewrite app_nil_r. split_and!; [done|by split|done|done].
    + exists (c :: run ++ pre), post'. split_and!; [by simpl; rewrite <- app_assoc|done| |done]. by rewrite <- app_assoc in He.
Qed.

Lemma runs_from_spec n ctx s r :
  length s <= n -> (match last ctx with Some d => is_ascii_digit d = true -> continues s = false | None => True end) ->
  r ∈ runs_from 0 (last ctx) s <-> number_at ctx s r.
Proof.
  revert ctx s. induction n as [|n IH]; intros ctx s Hn Hctx.
  { destruct s; [|simpl in Hn; lia]. simpl. split; [by intros []%elem_of_nil|].
    intros ([|] & post & E & (Hs & _) & _); [|done]. destruct r; done. }
  destruct s as [|c s].
  { simpl. split; [by intros []%elem_of_nil|]. intros ([|] & post & E & (Hs & _) & _); [|done]. destruct r; done. }
  simpl in Hn. cbn [runs_from]. destruct (is_ascii_digit c) eqn:Hc; cbn [negb].
  2: { rewrite number_at_cons by done. rewrite <- IH; [by rewrite last_snoc|lia|by rewrite last_snoc, Hc]. }
  destruct (take_run (c :: s)) as [dots run] eqn:Et. destruct (take_run_spec _ _ _ Et) as (post & E & Hr & -> & Hp).
  destruct run as [|x run].
  { exfalso. simpl in E. subst post. simpl in Hp. by rewrite Hc in Hp. }
  injection E as <- ->. cbn [length Nat.sub]. rewrite Nat.sub_0_r, runs_from_skip.
  assert (match last run with Some c0 => Some c0 | None => Some c end = last (ctx ++ c :: run)) as ->
    by (by rewrite last_app_cons, last_cons).
  assert (r ∈ runs_from 0 (last (ctx ++ c :: run)) post <-> number_at (ctx ++ c :: run) post r) as IHp.
  { apply IH; [rewrite length_app in Hn; lia|]. by destruct (last (ctx ++ c :: run)). }
  rewrite number_at_run, <- IHp by done. clear IHp.
  assert (ends_number ctx = match last ctx with Some p => (p =? 46)%N | None => false end) as Hctx'.
  { unfold ends_number. destruct (last ctx) as [d|]; [|done]. destruct (is_ascii_digit d); [|done].
    exfalso. specialize (Hctx eq_refl). simpl in Hctx. by rewrite Hc in Hctx. }
  rewrite Hctx'. destruct (0 <? dots_in (c :: run)) eqn:Ed; simpl; bool_prop.
  - destruct (match last ctx with Some p => (p =? 46)%N | None => false end); simpl; [|rewrite elem_of_cons]; intuition congruence.
  - split; [by right|]. intros [(-> & ? & _)|]; [lia|done].
Qed.

Lemma dotted_number_runs_spec s r : r ∈ dotted_number_runs s <-> dotted_in r s.
Proof. apply (runs_from_spec (length s) [] s r); [done|done]. Qed.

(** ** Numbers compared as numbers *)

Definition digits (s : str) : Prop := forall c, c ∈ s -> is_ascii_digit c = true.

(** The value of decimal digits. *)
Definition decimal (s : str) : N := foldl (fun v c => v * 10 + (c - c!"0"))%N 0%N s.

Lemma decimal_snoc s c : decimal (s ++ [c]) = (decimal s * 10 + (c - 48))%N.
Proof. unfold decimal. by rewrite foldl_app. Qed.

Lemma digit_range c : is_ascii_digit c = true -> (48 <= c <= 57)%N.
Proof. unfold is_ascii_digit, in_range. intros [H1%N.leb_le H2%N.leb_le]%andb_true_iff. lia. Qed.

Definition zero_free (s : str) : Prop := head s <> Some 48%N.

Lemma decimal_positive s : digits s -> zero_free s -> s <> [] -> (0 < decimal s)%N.
Proof.
  induction s as [|c s IH] using rev_ind; [done|]. intros Hd Hz _. rewrite decimal_snoc.
  assert (48 <= c <= 57)%N as Hc by (apply digit_range, Hd; set_solver).
  destruct s as [|x s].
  - assert (c <> 48%N) by (intros ->; by apply Hz). simpl. lia.
  - assert (0 < decimal (x :: s))%N; [|lia]. apply IH; [|done|done]. intros y Hy. apply Hd. set_solver.
Qed.

Lemma decimal_inj a b : digits a -> digits b -> zero_free a -> zero_free b -> decimal a = decimal b -> a = b.
Proof.
  revert b. induction a as [|c a IH] using rev_ind; intros b Ha Hb Hza Hzb Hv.
  - destruct b as [|y b]; [done|]. pose proof (decimal_positive (y :: b) Hb Hzb ltac:(done)). unfold decimal at 1 in Hv. simpl in Hv. lia.
  - destruct b as [|d b _] using rev_ind.
    { pose proof (decimal_positive (a ++ [c]) Ha Hza ltac:(by destruct a)). unfold decimal at 2 in Hv. simpl in Hv. lia. }
    rewrite !decimal_snoc in Hv.
    assert (48 <= c <= 57)%N by (apply digit_range, Ha; set_solver).
    assert (48 <= d <= 57)%N by (apply digit_range, Hb; set_solver).
    assert (decimal a = decimal b /\ c = d) as [Hv' ->] by lia. f_equal. apply IH; [..|done].
    + intros x Hx. apply Ha. set_solver.
    + intros x Hx. apply Hb. set_solver.
    + destruct a; [done|exact Hza].
    + destruct b; [done|exact Hzb].
Qed.

Lemma trim_zeros_spec s :
  digits s -> digits (trim_start_matches (N.eqb c!"0") s) /\ zero_free (trim_start_matches (N.eqb c!"0") s) /\
  decimal (trim_start_matches (N.eqb c!"0") s) = decimal s.
Proof.
  unfold trim_start_matches. induction s as [|c s IH]; intros Hd; [done|].
  cbn [drop_while]. destruct (48 =? c)%N eqn:E.
  - apply N.eqb_eq in E as <-. destruct IH as (H1 & H2 & H3); [intros x Hx; apply Hd; set_solver|]. done.
  - split_and!; [done| |done]. intros [= ->]. done.
Qed.

Lemma components_agree_spec a b :
  components_agree a b = true <->
  forall i x y, a !! i = Some x -> b !! i = Some y ->
    trim_start_matches (N.eqb c!"0") x = trim_start_matches (N.eqb c!"0") y.
Proof.
  revert b. induction a as [|x a IH]; intros [|y b]; simpl; try done.
  rewrite andb_true_iff, bool_decide_eq_true, IH. split.
  - intros [H0 H] [|i] x' y'; [by intros [= <-] [= <-]|apply H].
  - intros H. split; [by apply (H 0)|]. intros i. apply (H (S i)).
Qed.

Lemma digits_split r : run_chars r = true -> Forall digits (split_on (N.eqb c!".") r).
Proof.
  intros Hr. assert (forall c, c ∈ r -> is_ascii_digit c || (c =? 46)%N = true) as H by (intros c; by apply run_chars_elem).
  clear Hr. induction r as [|c r IH]; cbn [split_on]; [repeat constructor; by intros c []%elem_of_nil|].
  assert (Forall digits (split_on (N.eqb 46) r)) as Hs by (apply IH; intros x Hx; apply H; set_solver).
  pose proof (H c (list_elem_of_here _ _)) as Hc. rewrite (N.eqb_sym c 46) in Hc.
  destruct (46 =? c)%N; [constructor; [by intros x []%elem_of_nil|done]|]. rewrite orb_false_r in Hc.
  destruct (split_on (N.eqb 46) r) as [|p ps]; [repeat constructor; by intros x ->%list_elem_of_singleton|].
  apply Forall_cons in Hs as [Hp Hs]. constructor; [|done]. intros x [->|Hx]%elem_of_cons; [done|by apply Hp].
Qed.

(** The same release as far as both numbers go: component by component the same value. *)
Definition same_release (u v : str) : Prop :=
  forall i x y, split_on (N.eqb c!".") u !! i = Some x -> split_on (N.eqb c!".") v !! i = Some y -> decimal x = decimal y.

Lemma dotted_numbers_agree_spec u v :
  dotted u -> dotted v -> dotted_numbers_agree u v = true <-> same_release u v.
Proof.
  intros (_ & Hu & _) (_ & Hv & _). unfold dotted_numbers_agree, same_release. rewrite components_agree_spec.
  pose proof (digits_split u Hu) as Du. pose proof (digits_split v Hv) as Dv. rewrite Forall_lookup in Du, Dv.
  split; intros H i x y Hx Hy; specialize (H i x y Hx Hy);
    destruct (trim_zeros_spec x (Du i x Hx)) as (H1 & H2 & H3), (trim_zeros_spec y (Dv i y Hy)) as (H4 & H5 & H6).
  - by rewrite <- H3, <- H6, H.
  - apply decimal_inj; [done..|]. by rewrite H3, H6.
Qed.

(** ** The release that a URL names *)

(** [n] is a dotted number of the release tag or of the file name of a path. *)
Definition names (decode : str -> option str) (path n : str) : Prop :=
  exists seg, (release_tag (segments_of decode path) = Some seg \/ last (segments_of decode path) = Some seg) /\ dotted_in n seg.

Lemma release_identifiers_spec decode path n : n ∈ release_identifiers decode path <-> names decode path n.
Proof.
  unfold release_identifiers, names. cbv zeta. rewrite elem_of_app. split.
  - intros [H|H].
    + destruct (release_tag (segments_of decode path)) as [tag|]; [|by apply elem_of_nil in H].
      exists tag. split; [by left|]. by apply dotted_number_runs_spec.
    + destruct (last (segments_of decode path)) as [name|]; [|by apply elem_of_nil in H].
      exists name. split; [by right|]. by apply dotted_number_runs_spec.
  - intros (seg & [E|E] & H%dotted_number_runs_spec); [left|right]; by rewrite E.
Qed.

Lemma dotted_in_dotted n s : dotted_in n s -> dotted n.
Proof. by intros (pre & post & _ & H & _). Qed.

Lemma names_dotted decode path n : names decode path n -> dotted n.
Proof. intros (seg & _ & H). by eapply dotted_in_dotted. Qed.

(** The path of a URL of any scheme and host, without its query and fragment. *)
Lemma url_path_spec scheme host path query :
  c!":" ∉ scheme -> (forall c, c ∈ host -> one_of u!"/?#" c = false) -> (forall c, c ∈ path -> one_of u!"?#" c = false) ->
  match query with [] => True | c :: _ => one_of u!"?#" c = true end ->
  url_path (scheme ++ u!"://" ++ host ++ u!"/" ++ path ++ query) = Some (u!"/" ++ path).
Proof.
  intros Hs Hh Hp Hq. unfold url_path.
  rewrite (split_once_str_app u!"://" scheme _ c!":") by done.
  assert (from_option_or (head (split_on (one_of u!"?#") (host ++ u!"/" ++ path ++ query))) [] = host ++ u!"/" ++ path) as ->.
  { assert (forall l, (forall c, c ∈ l -> one_of u!"?#" c = false) ->
      from_option_or (head (split_on (one_of u!"?#") (l ++ query))) [] = l) as H.
    { intros l. induction l as [|c l IH]; intros Hl.
      - destruct query as [|c query]; [done|]. cbn [app split_on]. by rewrite Hq.
      - cbn [app split_on]. rewrite (Hl c) by set_solver. rewrite <- (IH ltac:(set_solver)) at 2.
        by destruct (split_on (one_of u!"?#") (l ++ query)). }
    rewrite (app_assoc u!"/" path query), (app_assoc host (u!"/" ++ path) query). apply H.
    intros c [Hc|[Hc|Hc]%elem_of_app]%elem_of_app.
    - specialize (Hh c Hc). unfold one_of in *. cbn [existsb] in *. by destruct (c =? 47)%N.
    - apply list_elem_of_singleton in Hc as ->. done.
    - by apply Hp. }
  cbn [app]. rewrite (find_first (N.eqb c!"/") host c!"/" path); [|clear Hp Hq|done].
  - cbn [fmap option_fmap option_map]. f_equal. apply str_from_app.
  - apply forallb_forall. intros c Hc%list_elem_of_In. specialize (Hh c Hc). unfold one_of in Hh. cbn [existsb] in Hh.
    rewrite N.eqb_sym. by destruct (c =? 47)%N.
Qed.

(** The URL check refuses what it can prove and nothing else: a URL contradicts a version exactly if the
    version has a dotted number, the release tag or the file name of the URL has one, and every number there
    differs from every number of the version in the value of a component that both have. The numbers are the
    maximal dotted ones, compared as numbers (leading zeros do not count, components missing on one side
    neither). What it reports are exactly the numbers of the URL. Scheme, host, query and fragment, and
    directories of the path, have no say. *)
Theorem url_check_exact (decode : str -> option str) version :
  (forall url,
    match url_contradicts_version decode version url with
    | Some ids => (forall n, n ∈ ids <-> exists path, url_path url = Some path /\ names decode path n)
    | None => True
    end /\
    (is_some (url_contradicts_version decode version url) = true <->
     exists path, url_path url = Some path /\ (exists v, dotted_in v version) /\ (exists n, names decode path n) /\
       forall n v, names decode path n -> dotted_in v version -> ~ same_release n v)) /\
  (forall scheme host path query,
    c!":" ∉ scheme -> (forall c, c ∈ host -> one_of u!"/?#" c = false) -> (forall c, c ∈ path -> one_of u!"?#" c = false) ->
    match query with [] => True | c :: _ => one_of u!"?#" c = true end ->
    url_path (scheme ++ u!"://" ++ host ++ u!"/" ++ path ++ query) = Some (u!"/" ++ path)).
Proof.
  split; [|apply url_path_spec]. intros url. unfold url_contradicts_version.
  pose proof (dotted_number_runs_spec version) as Hv. destruct (dotted_number_runs version) as [|v vs] eqn:Ev.
  { split; [done|]. split; [done|]. intros (path & _ & [v Hd] & _). apply Hv in Hd. by apply elem_of_nil in Hd. }
  destruct (url_path url) as [path|]; [|split; [done|]; split; [done|by intros (? & ? & _)]].
  pose proof (release_identifiers_spec decode path) as Hn. destruct (release_identifiers decode path) as [|n ns] eqn:En.
  { split; [done|]. split; [done|]. intros (p & [= ->] & _ & [n Hd] & _). apply Hn in Hd. by apply elem_of_nil in Hd. }
  assert (existsb (fun u => existsb (dotted_numbers_agree u) (v :: vs)) (n :: ns) = true <->
          exists u w, names decode path u /\ dotted_in w version /\ same_release u w) as Hex.
  { rewrite existsb_exists. split.
    - intros (u & Hu%list_elem_of_In & (w & Hw%list_elem_of_In & Ha)%existsb_exists). apply Hn in Hu. apply Hv in Hw.
      exists u, w. split_and!; [done..|]. apply dotted_numbers_agree_spec; [by eapply names_dotted|by eapply dotted_in_dotted|done].
    - intros (u & w & Hu & Hw & Ha). exists u. split; [by apply list_elem_of_In, Hn|]. apply existsb_exists.
      exists w. split; [by apply list_elem_of_In, Hv|].
      apply dotted_numbers_agree_spec; [by eapply names_dotted|by eapply dotted_in_dotted|done]. }
  destruct (existsb _ (n :: ns)) eqn:E.
  - split; [done|]. split; [done|]. destruct (proj1 Hex eq_refl) as (u & w & Hu & Hw & Ha).
    intros (p & [= <-] & _ & _ & H). by destruct (H u w Hu Hw).
  - split; [intros m; rewrite Hn; split; [intros H; by exists path|by intros (? & [= <-] & H)]|]. split; [|done].
    intros _. exists path. split_and!; [done|exists v; apply Hv; by left|exists n; apply Hn; by left|].
    intros u w Hu Hw Ha. assert (false = true) as [=]. apply Hex. by exists u, w.
Qed.

(** ** Lookups *)

Section Lookups.

Context {Aube Uv : Type} (state_short : str -> str) {E : Type}.
Context (arg_to_backend : str -> option (BackendView E)) (registry_options_are_not_for : str -> bool)
  (versioning_cmp : str -> str -> comparison).

#[local] Abbreviation Tool := (LockfileTool Aube Uv).
#[local] Abbreviation Lock := (Lockfile Aube Uv).
#[local] Abbreviation Query := (LockedVersionQuery (Aube:=Aube) (Uv:=Uv) E).
#[local] Abbreviation binding := (binding_options arg_to_backend registry_options_are_not_for).
#[local] Abbreviation lookup_in := (lookup_lockfile state_short arg_to_backend registry_options_are_not_for versioning_cmp).
#[local] Abbreviation locked := (get_locked_version state_short arg_to_backend registry_options_are_not_for versioning_cmp).

Implicit Types (t u : Tool) (ts : list Tool) (l : Lock) (q : Query).

Definition is_match (f : Tool -> E + bool) (t : Tool) : bool := match f t with inr b => b | inl _ => false end.

Lemma matching_spec l short specifier (f : Tool -> E + bool) :
  (matching_request_bindings state_short l short specifier f).1 =
  List.filter (fun t => bool_decide (specifier ∈ t.(t_specifiers)) && is_match f t) (from_option_or (l.(tools) !! state_short short) []).
Proof.
  unfold matching_request_bindings. rewrite tools_for_spec. generalize (from_option_or (tools l !! state_short short) []). intros ts.
  match goal with |- (foldl ?g ?a ts).1 = _ => assert (forall acc, (foldl g acc ts).1 =
    acc.1 ++ List.filter (fun t => bool_decide (specifier ∈ t.(t_specifiers)) && is_match f t) ts) as H; [|apply H] end.
  unfold is_match. induction ts as [|t ts IH]; intros acc; simpl; [by rewrite app_nil_r|]. rewrite IH.
  destruct (bool_decide _); simpl; [|done]. destruct (f t) as [e|[]]; simpl; [done| |done]. by rewrite <- app_assoc.
Qed.

Lemma binding_backend q t u : t.(t_backend) = u.(t_backend) -> binding q t = binding q u.
Proof. unfold binding_options. by intros ->. Qed.

Lemma rebound_backend specifier version options t : t_backend (rebound specifier version options t) = t_backend t.
Proof. unfold rebound. by destruct (bool_decide _). Qed.

Lemma keys_unique_eq ts t u : keys_unique ts -> t ∈ ts -> u ∈ ts -> tool_key_of t = tool_key_of u -> t = u.
Proof.
  intros Hnd (i & Hi)%list_elem_of_lookup (j & Hj)%list_elem_of_lookup Hk.
  assert (i = j) as -> by by eapply keys_unique_lookup. congruence.
Qed.

(** C18. A request is resolved to what it was bound to: once [bind_request] has bound a request to a version
    under the options that the backend of its entry gives the request, the lookup of the request in that
    lockfile returns that very entry, whatever the prefix of the request, whether the view is merged and
    whatever other entries there are. Entries bound to the request before need only be under other options,
    or their backend fail. *)
Theorem bound_request_resolves l q version options ts t :
  keys_unique ts -> l.(tools) !! state_short q.(q_short) = Some ts -> uses_request_bindings l = true ->
  t ∈ ts -> tool_key_of t = (version, options) ->
  (exists fallback, binding q t = inr (Some (options, fallback))) ->
  (forall u fallback, u ∈ ts -> q.(q_specifier) ∈ u.(t_specifiers) -> u.(t_options) <> options ->
     binding q u <> inr (Some (u.(t_options), fallback))) ->
  exists l', bind_request state_short l q.(q_short) q.(q_specifier) version options = (true, l') /\
    forall merged shared_lockfile lockfiles,
      locked q merged shared_lockfile l' lockfiles = Ok (Some (with_specifiers ({[q.(q_specifier)]} ∪ t.(t_specifiers)) t)).
Proof.
  intros Hnd Hts Hv Ht Hk (fb & Hb) Hother. eexists. split.
  { apply bind_request_spec; [done..|]. rewrite <- Hk. by apply list_elem_of_fmap_2. }
  intros merged shared lockfiles. unfold get_locked_version, lookup_lockfile.
  rewrite tools_for_spec. cbn [tools with_tools]. rewrite lookup_insert_eq. unfold uses_request_bindings in *. cbn [lockfile_version with_tools].
  rewrite Hv. unfold lookup_bound.
  match goal with |- context [matching_request_bindings _ ?m ?s ?p ?f] =>
    pose proof (matching_spec m s p f) as Hm; destruct (matching_request_bindings _ m s p f) as [matching err] end.
  match goal with |- context [matching_request_bindings _ ?m ?s ?p ?f] => destruct (matching_request_bindings _ m s p f) as [legacy err'] end.
  cbn [fst] in Hm. cbn [tools with_tools] in Hm. rewrite lookup_insert_eq in Hm. cbn [from_option_or] in Hm.
  assert (matching = [with_specifiers ({[q.(q_specifier)]} ∪ t.(t_specifiers)) t]) as ->; [|done].
  assert (version = t_version t /\ options = t_options t) as [-> ->] by (unfold tool_key_of in Hk; by injection Hk).
  rewrite Hm, <- rebound_target.
  change [rebound ?s ?v ?o t] with (map (rebound s v o) [t]). rewrite <- (filter_unique ts t Hnd Ht).
  rewrite <- (filter_map_comm (rebound q.(q_specifier) t.(t_version) t.(t_options)) (fun u => bool_decide (tool_key_of u = tool_key_of t)))
    by (intros u; by rewrite rebound_key).
  assert (forall u, u ∈ map (rebound q.(q_specifier) t.(t_version) t.(t_options)) ts ->
    bool_decide (q.(q_specifier) ∈ u.(t_specifiers)) && is_match (fun t => smap (options_are t) (binding q t)) u
    = bool_decide (tool_key_of u = tool_key_of t)) as Hext.
  { intros v (u & -> & Hu)%list_elem_of_fmap. rewrite rebound_key. unfold is_match.
    rewrite (binding_backend q _ u) by apply rebound_backend.
    destruct (decide (u.(t_options) = t.(t_options))) as [Eo|Eo].
    - pose proof (rebound_found state_short q.(q_specifier) t.(t_version) t.(t_options) u) as Hf.
      rewrite rebound_options, Eo, (bool_decide_true (t_options t = t_options t)), andb_true_r in Hf by done.
      rewrite Hf. change (tool_key_of t) with (t.(t_version), t.(t_options)).
      destruct (bool_decide (tool_key_of u = _)) eqn:Ek; [|reflexivity]. apply bool_decide_eq_true in Ek.
      assert (u = t) as -> by by apply (keys_unique_eq ts).
      rewrite Hb. unfold smap, options_are. rewrite rebound_options. by rewrite bool_decide_true.
    - rewrite (bool_decide_false (tool_key_of u = tool_key_of t)) by (unfold tool_key_of; congruence).
      assert (rebound q.(q_specifier) t.(t_version) t.(t_options) u = u) as -> by (unfold rebound; by rewrite bool_decide_false).
      case_bool_decide as Es; [|done]. simpl. destruct (binding q u) as [e|[[o f]|]] eqn:Eb; [done| |done]. simpl.
      apply bool_decide_false. intros <-. by apply (Hother u f). }
  clear Hm. revert Hext. generalize (map (rebound q.(q_specifier) t.(t_version) t.(t_options)) ts). intros us.
  induction us as [|u us IH]; intros Hext; [done|]. cbn [List.filter]. rewrite (Hext u) by (by left).
  rewrite IH by (intros w Hw; apply Hext; by right). done.
Qed.

(** ** What a lookup can return *)

(** No field describes an artifact. *)
Definition no_artifact_data (i : PlatformInfo) : Prop :=
  i.(p_checksum) = None /\ i.(p_url) = None /\ i.(p_url_api) = None /\ i.(p_provenance) = None /\ i.(p_additional_artifacts) = [].

(** The entry is one the request may be resolved to. *)
Definition applies q (merged bindings : bool) u : Prop :=
  if bindings then q.(q_specifier) ∈ u.(t_specifiers) \/ (u.(t_specifiers) = ∅ /\ version_matches q u = true)
  else version_matches q u = true \/ (q.(q_alias_resolved) = true /\ merged = false).

(** [t] is the entry [u] as it is, under the options asked for, or its pin alone. *)
Definition taken_from q u t : Prop :=
  t.(t_version) = u.(t_version) /\ t.(t_backend) = u.(t_backend) /\
  ((t = u /\ (u.(t_options) = q.(q_request_options) \/ exists fallback, binding q u = inr (Some (u.(t_options), fallback)))) \/
   (u.(t_options) = [] /\ forall platform info, t.(t_platforms) !! platform = Some info -> no_artifact_data info)).

(** What the backend's order of versions gives are versions it was given. *)
Definition order_selects q : Prop :=
  forall order_by, q.(q_version_order) = Some (inr order_by) -> forall ts t, t ∈ order_by ts -> t ∈ ts.

Lemma taken_whole q u : u.(t_options) = q.(q_request_options) -> taken_from q u u.
Proof. intros H. split_and!; [done..|]. left. split; [done|by left]. Qed.

Lemma taken_pin q u (o : Options) : is_empty_options u.(t_options) = true -> taken_from q u (lockfile_tool_with_request_options u o).
Proof.
  intros H. split_and!; [done..|]. right. split; [by destruct u.(t_options)|]. intros platform info Hi. simpl in Hi.
  apply map_lookup_filter_Some in Hi as [Hi _]. rewrite lookup_fmap in Hi.
  destruct (t_platforms u !! platform); [|done]. injection Hi as <-. done.
Qed.

Lemma select_unbound_elem q ts t :
  order_selects q -> select_unbound_lockfile_tool q ts = Ok (Some t) -> t ∈ ts.
Proof.
  intros Hq. unfold select_unbound_lockfile_tool. destruct q.(q_version_order) as [[e|order_by]|] eqn:Eo; [done| |].
  - intros [= H]. eapply Hq; [done|]. by apply last_Some_elem_of.
  - intros [= H]. by apply head_Some_elem_of.
Qed.

Lemma newest_first_elem q ts t : t ∈ newest_first versioning_cmp q ts <-> t ∈ ts.
Proof. unfold newest_first. case_match; [apply elem_of_sort_by|done]. Qed.

Lemma the_only_Some q ts t : the_only q ts = Ok (Some t) -> ts = [t].
Proof. unfold the_only. destruct ts as [|u [|? ?]]; [done| |done]. by intros [= ->]. Qed.

Lemma bound_sound l q ts t :
  order_selects q -> l.(tools) !! state_short q.(q_short) = Some ts ->
  lookup_bound state_short arg_to_backend registry_options_are_not_for l q ts = Ok (Some t) ->
  exists u, u ∈ ts /\ applies q true true u /\ taken_from q u t.
Proof.
  intros Hq Hts. unfold lookup_bound.
  match goal with |- context [matching_request_bindings _ ?m ?s ?p (fun t => smap (options_are t) (binding q t))] =>
    pose proof (matching_spec m s p (fun t => smap (options_are t) (binding q t))) as Hm;
    destruct (matching_request_bindings _ m s p _) as [matching err] end.
  match goal with |- context [matching_request_bindings _ ?m ?s ?p (fun t => smap (written_without_options t) (binding q t))] =>
    pose proof (matching_spec m s p (fun t => smap (written_without_options t) (binding q t))) as Hl;
    destruct (matching_request_bindings _ m s p _) as [legacy err'] end.
  cbn [fst] in Hm, Hl. rewrite Hts in Hm, Hl. cbn [from_option_or] in Hm, Hl.
  destruct (the_only q matching) as [[u|]|e|] eqn:E1; cbn [rbind]; [| |done|done].
  { intros [= ->]. apply the_only_Some in E1 as ->. assert (t ∈ [t]) as Ht by (by left). rewrite Hm in Ht.
    apply elem_of_filter_bool in Ht as [Ht [Hs Hb]%andb_true_iff]. apply bool_decide_eq_true in Hs. exists t. split; [done|].
    split; [by left|]. split_and!; [done..|]. left. split; [done|]. right. unfold is_match, smap, options_are in Hb.
    destruct (binding q t) as [e|[[o f]|]]; [done| |done]. apply bool_decide_eq_true in Hb as ->. by exists f. }
  destruct (the_only q legacy) as [[u|]|e|] eqn:E2; cbn [rbind]; [| |done|done].
  { apply the_only_Some in E2 as ->. assert (u ∈ [u]) as Hu by (by left). rewrite Hl in Hu.
    apply elem_of_filter_bool in Hu as [Hu [Hs Hb]%andb_true_iff]. apply bool_decide_eq_true in Hs. unfold is_match, smap, written_without_options in Hb.
    destruct (binding q u) as [e|[[o f]|]]; [done| |done]. simpl. intros [= <-]. apply andb_true_iff in Hb as [_ Hb].
    exists u. split; [done|]. split; [by left|]. by apply taken_pin. }
  unfold else_try.
  destruct (select_unbound_lockfile_tool q (List.filter _ ts)) as [[u|]|e|] eqn:E3; cbn [rbind]; [| |done|done].
  { intros [= ->]. apply select_unbound_elem in E3; [|done]. apply elem_of_filter_bool in E3 as [Ht H].
    apply andb_true_iff in H as [[Hs Hv]%andb_true_iff Ho]. apply bool_decide_eq_true in Hs, Ho. exists t. split; [done|].
    split; [by right|]. by apply taken_whole. }
  destruct (_ && _); cbn [rbind].
  2: { destruct (or_else err err'); done. }
  clear E3.
  destruct (select_unbound_lockfile_tool q (List.filter _ ts)) as [[u|]|e|] eqn:E4; cbn [rmap rbind under_request_options fmap option_fmap option_map]; [|by destruct (or_else err err')|done|done].
  intros [= <-]. apply select_unbound_elem in E4; [|done]. apply elem_of_filter_bool in E4 as [Ht H].
  apply andb_true_iff in H as [[Hs Hv]%andb_true_iff Ho]. apply bool_decide_eq_true in Hs. exists u. split; [done|].
  split; [by right|]. by apply taken_pin.
Qed.

Lemma filter_single (f : Tool -> bool) ts t : List.filter f ts = [t] -> t ∈ ts /\ f t = true.
Proof. intros E1. apply elem_of_filter_bool. rewrite E1. by left. Qed.

Lemma head_newest q (f : Tool -> bool) ts t :
  head (newest_first versioning_cmp q (List.filter f ts)) = Some t -> t ∈ ts /\ f t = true.
Proof. intros H%head_Some_elem_of. by apply newest_first_elem, elem_of_filter_bool in H. Qed.

Lemma alias_sound q merged shared_lockfile ts t :
  lookup_alias q merged shared_lockfile ts = Some t -> exists u, u ∈ ts /\ applies q merged false u /\ taken_from q u t.
Proof.
  unfold lookup_alias. destruct q.(q_alias_resolved) eqn:Ea; [|done]. destruct merged; [done|]. destruct shared_lockfile; [done|].
  cbn [negb andb]. destruct (List.filter _ ts) as [|u [|w ws]] eqn:E1; [| |done].
  - destruct (_ && _); [|done].
    destruct (List.filter (fun t => _ && is_empty_options _) ts) as [|u [|w ws]] eqn:E2; [done| |done]. intros [= <-].
    apply filter_single in E2 as [Hu [_ Ho]%andb_true_iff]. exists u. split; [done|]. split; [by right|]. by apply taken_pin.
  - intros [= ->]. apply filter_single in E1 as [Hu [_ Ho]%andb_true_iff]. apply bool_decide_eq_true in Ho.
    exists t. split; [done|]. split; [by right|]. by apply taken_whole.
Qed.

Lemma unbound_sound q merged shared_lockfile ts t :
  lookup_unbound versioning_cmp q merged shared_lockfile ts = Some t ->
  exists u, u ∈ ts /\ applies q merged false u /\ taken_from q u t.
Proof.
  unfold lookup_unbound. destruct (head (newest_first _ q _)) as [u|] eqn:E1; cbn [or_else].
  { intros [= ->]. apply head_newest in E1 as [Ht [Hv Ho]%andb_true_iff]. apply bool_decide_eq_true in Ho.
    exists t. split; [done|]. split; [by left|]. by apply taken_whole. }
  clear E1. destruct (_ && _); cbn [or_else]; [|apply alias_sound].
  destruct (head (newest_first _ q _)) as [u|] eqn:E2; cbn [or_else under_request_options fmap option_fmap option_map]; [|apply alias_sound].
  intros [= <-]. apply head_newest in E2 as [Ht [Hv Ho]%andb_true_iff].
  exists u. split; [done|]. split; [by left|]. by apply taken_pin.
Qed.

Lemma lookup_sound q merged shared_lockfile l t :
  order_selects q -> lookup_in q merged shared_lockfile l = Ok (Some t) ->
  exists ts u, tools_for state_short l q.(q_short) = Some ts /\ u ∈ ts /\
    applies q merged (uses_request_bindings l) u /\ taken_from q u t.
Proof.
  intros Hq. unfold lookup_lockfile. rewrite tools_for_spec. destruct (tools l !! state_short (q_short q)) as [ts|] eqn:Hts; [|done].
  destruct (uses_request_bindings l) eqn:Hv.
  - intros (u & Hu & Ha & Ht)%bound_sound; [|done..]. by exists ts, u.
  - intros [= (u & Hu & Ha & Ht)%unbound_sound]. by exists ts, u.
Qed.

Lemma nearest_spec (lookup : Lock -> result (LookupError (E:=E)) (option Tool)) (lockfiles : list Lock) t :
  nearest_lockfile_decision lookup lockfiles = Ok (Some t) <->
  exists before l after, lockfiles = before ++ l :: after /\ lookup l = Ok (Some t) /\
    Forall (fun l => lookup l = Ok None \/ exists s p, lookup l = Err (Ambiguous s p)) before.
Proof.
  induction lockfiles as [|l lockfiles IH]; simpl.
  - split; [done|]. intros (before & l & after & E1 & _). by destruct before.
  - split.
    + destruct (lookup l) as [[u|]|[s p|e]|] eqn:El; [| | |done|done].
      * intros [= ->]. by exists [], l, lockfiles.
      * intros (before & m & after & -> & Hm & Hb)%IH. exists (l :: before), m, after. split_and!; [done..|]. constructor; eauto.
      * intros (before & m & after & -> & Hm & Hb)%IH. exists (l :: before), m, after. split_and!; [done..|]. constructor; eauto.
    + intros (before & m & after & E1 & Hm & Hb). destruct before as [|x before].
      * injection E1 as -> ->. by rewrite Hm.
      * injection E1 as -> ->. apply Forall_cons in Hb as [[->|(s & p & ->)] Hb]; apply IH; by exists before, m, after.
Qed.

(** What a lookup returns is locked, and its artifact data were recorded for the options asked for: the
    version and backend are those of an entry of the tool in the lockfile, or, where a merged view is
    ambiguous, in the nearest lockfile that decides. That entry is bound to the request or, without any
    binding, of a version the request asks for, or it is taken for an alias in a lockfile of its own. Either
    the entry is returned as it is, and its options are those of the request (those that the recorded backend
    gives it, if the request names none), or it has no options, and no URL, checksum or provenance of it is
    returned. *)
Theorem locked_data_fit q merged shared_lockfile l lockfiles t :
  order_selects q -> locked q merged shared_lockfile l lockfiles = Ok (Some t) ->
  exists l' ts u, (l' = l \/ merged = true /\ l' ∈ lockfiles) /\
    tools_for state_short l' q.(q_short) = Some ts /\ u ∈ ts /\
    applies q merged (uses_request_bindings l') u /\ taken_from q u t.
Proof.
  intros Hq. unfold get_locked_version. destruct (lookup_in q merged shared_lockfile l) as [[u|]|[s p|e]|] eqn:El; [|done| |done|done].
  - intros [= ->]. apply lookup_sound in El as (ts & u & H); [|done]. exists l, ts, u. split; [by left|done].
  - destruct merged; [|done]. destruct (nearest_lockfile_decision _ lockfiles) as [[w|]|e|] eqn:En; [|done..].
    intros [= ->]. apply nearest_spec in En as (before & m & after & -> & Hm & _).
    apply lookup_sound in Hm as (ts & u & H); [|done]. exists m, ts, u. split; [right; split; [done|set_solver]|done].
Qed.

End Lookups.

(** ** At a concrete lockfile *)

(** The recorded backend has no options of its own; versions are ordered as texts. *)
Definition sample_backend (full : str) : option (BackendView Empty_set) :=
  if bool_decide (full = u!"core:node") then Some (mkBackendView false (fun _ => inr []) false) else None.

Definition sample_query (specifier prefix : str) : LockedVersionQuery (Aube:=unit) (Uv:=unit) Empty_set :=
  mkQuery u!"node" specifier prefix false false [] false false u!"core:node" None.

Lemma bound_request_resolves_witness :
  exists l', bind_request Datatypes.id sample_lock u!"node" u!"lts" u!"20.1.0" [] = (true, l') /\
    get_locked_version Datatypes.id sample_backend (fun _ => false) str_cmp (sample_query u!"lts" u!"22") false false l' [] =
      Ok (Some (sample_tool u!"20.1.0" ({[u!"lts"]} ∪ {[u!"20"]}) [])).
Proof.
  destruct (bound_request_resolves Datatypes.id sample_backend (fun _ => false) str_cmp sample_lock (sample_query u!"lts" u!"22")
    u!"20.1.0" [] [sample_tool u!"20.1.0" {[u!"20"]} []; sample_tool u!"22.0.0" {[u!"lts"]} [];
                   sample_tool u!"22.0.0" ∅ [(u!"flavor", u!"musl")]] (sample_tool u!"20.1.0" {[u!"20"]} [])) as (l' & H1 & H2).
  - apply (bool_decide_unpack _). vm_compute. reflexivity.
  - vm_compute. reflexivity.
  - vm_compute. reflexivity.
  - by left.
  - vm_compute. reflexivity.
  - exists false. vm_compute. reflexivity.
  - intros u f [->|[->|[->|Hu]%elem_of_cons]%elem_of_cons]%elem_of_cons; [by intros _ H|by intros _ H| |by apply elem_of_nil in Hu].
    intros H. exfalso. revert H. apply (bool_decide_unpack _). vm_compute. reflexivity.
  - exists l'. split; [exact H1|]. apply H2.
Defined.

Lemma locked_data_fit_example :
  let q := sample_query u!"22" u!"22" in
  let t := sample_tool u!"22.0.0" {[u!"lts"]} [] in
  let l := mkLockfile 0 {[u!"node" := [t]]} ∅ ∅ ∅ in
  get_locked_version Datatypes.id sample_backend (fun _ => false) str_cmp q false false l [] = Ok (Some t) /\
  exists l' ts u, (l' = l \/ false = true /\ l' ∈ []) /\
    tools_for Datatypes.id l' u!"node" = Some ts /\ u ∈ ts /\ applies q false (uses_request_bindings l') u /\
    taken_from sample_backend (fun _ => false) q u t.
Proof.
  intros q t l. split; [vm_compute; reflexivity|].
  apply (locked_data_fit Datatypes.id sample_backend (fun _ => false) str_cmp q false false l [] t).
  - intros order_by H. discriminate H.
  - vm_compute. reflexivity.
Defined.
