(* ===== verification/LockTargetsSpec.v ===== *)
(** * Automatic locks and migrations: what they decide ([src/lockfile.rs])

    A lock that was applied needs no second one, an entry without options is migrated only where all
    requests agree on the options of a platform, and platforms without a build are reported unless some
    request resolved them. *)

From Stdlib Require Import Sorted.
From S2P Require Import Prelude RustStr Order LockInfo LockInfoSpec Platforms Lockfile LockfileSpec LockUpdate LockUpdateSpec LockRatchet LockLookup.

(** ** An automatic lock is done once *)

Section AutoLock.

Context {Aube Uv : Type} (state_short : str -> str).
Context {Version : Type} (parse_version : str -> option Version) (version_cmp : Version -> Version -> comparison).

#[local] Abbreviation Tool := (LockfileTool Aube Uv).
#[local] Abbreviation Lock := (Lockfile Aube Uv).

Implicit Types (t u : Tool) (ts : list Tool) (l : Lock).

Lemma omap_alter_none {A B} (f : A -> option B) (g : A -> A) i (xs : list A) x :
  xs !! i = Some x -> f x = None -> f (g x) = None -> omap f (alter g i xs) = omap f xs.
Proof.
  revert i. induction xs as [|y xs IH]; intros [|i] Hi Hx Hg; [done..| |].
  - injection Hi as ->. csimpl. by rewrite Hx, Hg.
  - csimpl. destruct (f y); [f_equal|]; by eapply IH.
Qed.

Lemma find_entry_lookup ts i t version options :
  keys_unique ts -> ts !! i = Some t -> tool_key_of t = (version, options) -> find_entry ts version options = Some t.
Proof.
  intros Hnd Hi Hk. unfold find_entry. destruct (List.find _ ts) as [u|] eqn:Ef.
  - apply List.find_some in Ef as [Hu [E1 E2]%andb_true_iff]. bool_prop. f_equal.
    apply list_elem_of_In, list_elem_of_lookup in Hu as [j Hj].
    assert (j = i) as ->; [|congruence]. eapply (keys_unique_lookup ts); [done..|]. rewrite Hk. unfold tool_key_of. congruence.
  - exfalso. apply list_elem_of_lookup_2, list_elem_of_In in Hi. pose proof (List.find_none _ _ Ef _ Hi) as H. simpl in H.
    unfold tool_key_of in Hk. injection Hk as Hv Ho. by rewrite !bool_decide_true in H.
Qed.

Lemma find_entry_app ts u version options :
  (version, options) ∉ map tool_key_of ts -> tool_key_of u = (version, options) -> find_entry (ts ++ [u]) version options = Some u.
Proof.
  unfold find_entry. intros Hni Hk. induction ts as [|t ts IH]; cbn [app List.find].
  - unfold tool_key_of in Hk. injection Hk as <- <-. by rewrite !bool_decide_true.
  - cbn [map] in Hni. apply not_elem_of_cons in Hni as [Ht Hni]. destruct (_ && _) eqn:E; [|by apply IH].
    apply andb_true_iff in E as [E1 E2]. bool_prop. destruct Ht. unfold tool_key_of. congruence.
Qed.

Lemma updated_url info old : is_some info.(p_url) = true -> p_url (updated_platform_info info old) = p_url info.
Proof. unfold updated_platform_info. simpl. by destruct (p_url info). Qed.

Lemma updated_checksum info old : is_some info.(p_checksum) = true -> p_checksum (updated_platform_info info old) = p_checksum info.
Proof. unfold updated_platform_info. simpl. by destruct (p_checksum info). Qed.

Lemma updated_no_provenance info old : p_provenance (updated_platform_info info old) = None -> p_provenance info = None.
Proof.
  unfold updated_platform_info. simpl. unfold kept_provenance. destruct (negb _); [done|].
  unfold merge_provenance_state. by destruct (p_provenance info), (p_provenance old).
Qed.

Lemma checksum_not_empty info : is_some info.(p_checksum) = true -> PlatformInfo_is_empty info = false.
Proof. unfold PlatformInfo_is_empty, is_none. intros ->. cbn [negb]. by rewrite andb_false_r. Qed.

(** What a resolution with data makes of the entry it is for. *)
Lemma platform_set_data info t platform_key :
  is_some info.(p_checksum) = true -> is_some info.(p_url) = true ->
  exists new, platform_set platform_key info t = with_platforms (<[platform_key := new]> t.(t_platforms)) t /\
    p_checksum new = p_checksum info /\ p_url new = p_url info /\ (p_provenance new = None -> p_provenance info = None).
Proof.
  intros Hc Hu. unfold platform_set. cbv zeta. destruct (t_platforms t !! platform_key) as [old|].
  - exists (updated_platform_info info old). rewrite checksum_not_empty by (by rewrite updated_checksum).
    split_and!; [done|by apply updated_checksum|by apply updated_url|apply updated_no_provenance].
  - exists info. by rewrite checksum_not_empty.
Qed.

(** Entries of the version itself do not count for its baseline. *)
Lemma entry_baseline_none ts ts' t version backend platform_key prov prov' :
  find_provenance_regression_baseline parse_version version_cmp (Some ts) version backend platform_key prov = None ->
  prior_versions parse_version ts' version backend platform_key = prior_versions parse_version ts version backend platform_key ->
  (prov' = None -> prov = None) ->
  match t.(t_backend) with Some b => b = backend | None => True end ->
  entry_baseline parse_version version_cmp ts' version platform_key t prov' = None.
Proof.
  intros Hb Hp Hprov Ht. unfold entry_baseline. destruct (t_backend t) as [b|]; simpl.
  - subst b. unfold find_provenance_regression_baseline in *. rewrite Hp.
    destruct prov' as [p|]; [done|]. rewrite Hprov in Hb by done. exact Hb.
  - unfold find_provenance_regression_baseline. by rewrite orb_true_r.
Qed.

(** An automatic lock is done once: when a resolution with a checksum and a URL is applied, its target
    needs no automatic lock afterwards, whatever was locked for it before: the entry is there with its data,
    and the check that no upgrade lost its provenance, which was passed when the resolution was applied, is
    passed on the new entries too. *)
Theorem auto_lock_settles l r info applied l' :
  apply_lock_result state_short parse_version version_cmp l r = Ok (applied, l') ->
  r.(r_info) = inr info -> is_some info.(p_checksum) = true -> is_some info.(p_url) = true ->
  keys_unique (from_option_or (tools l !! state_short r.(r_short)) []) ->
  (forall t, t ∈ from_option_or (tools l !! state_short r.(r_short)) [] -> tool_key_of t = (r.(r_version), r.(r_options)) ->
     match t.(t_backend) with Some b => b = r.(r_backend) | None => True end) ->
  exists ts', tools_for state_short l' r.(r_short) = Some ts' /\
    lockfile_target_needs_auto_lock parse_version version_cmp ts' r.(r_version) (to_key r.(r_platform)) r.(r_options) = false.
Proof.
  intros Hap Hinfo Hc Hu Hnd Hb. unfold apply_lock_result in Hap. rewrite Hinfo, tools_for_spec in Hap.
  unfold check_single_tool_provenance in Hap.
  destruct (find_provenance_regression_baseline _ _ _ _ _ _ _) as [b|] eqn:Ebase; [done|]. cbn [fmap option_fmap option_map] in Hap.
  destruct (check_replaced_artifact_provenance _ _ _ _ _ _ _); [done|].
  rewrite checksum_not_empty in Hap by done. injection Hap as _ <-. rewrite tools_for_spec, tools_apply_conda.
  remember (from_option_or (tools l !! state_short (r_short r)) []) as ts eqn:Hts.
  assert (find_provenance_regression_baseline parse_version version_cmp (Some ts) r.(r_version) r.(r_backend) (to_key r.(r_platform)) info.(p_provenance) = None) as Hbase.
  { rewrite Hts. destruct (tools l !! state_short (r_short r)) as [us|]; [done|]. simpl. unfold find_provenance_regression_baseline.
    destruct (_ || _); [done|]. by destruct (parse_provenance_version _ _). }
  assert (is_none (p_checksum info) = false /\ is_none (p_url info) = false) as [Hc' Hu'] by (unfold is_none; by rewrite Hc, Hu).
  destruct (position ts r.(r_version) r.(r_options)) as [i|] eqn:Ep.
  - apply position_Some in Ep as (t & Hi & Hk & _). 
    assert (tools l !! state_short (r_short r) = Some ts) as Ets.
    { destruct (tools l !! state_short (r_short r)) as [us|]; simpl in Hts; [by rewrite Hts|]. by rewrite Hts in Hi. }
    destruct (platform_set_data info t (to_key r.(r_platform)) Hc Hu) as (new & Hg & Hnc & Hnu & Hnp).
    rewrite (set_platform_info_existing state_short l _ _ _ _ _ _ ts i t) by done. rewrite lookup_insert_eq.
    eexists. split; [done|]. set (g := platform_set (to_key (r_platform r)) info) in *.
    assert (forall u, tool_key_of (g u) = tool_key_of u) as Hkg by (intros u; subst g; unfold platform_set; cbv zeta; by case_match).
    unfold lockfile_target_needs_auto_lock.
    rewrite (find_entry_lookup (alter g i ts) i (g t));
      [|unfold keys_unique; by rewrite (map_key_alter g)|by rewrite list_lookup_alter_eq, Hi|by rewrite Hkg].
    rewrite Hg. cbn [t_platforms with_platforms]. rewrite lookup_insert_eq. unfold is_none. rewrite Hnc, Hnu, Hc, Hu. simpl.
    rewrite (entry_baseline_none ts (alter g i ts) _ _ r.(r_backend) _ (p_provenance info)); [done|done| |done|].
    + unfold prior_versions. apply (omap_alter_none _ g i ts t Hi); unfold tool_key_of in Hk; injection Hk as Hv _.
      * by rewrite bool_decide_true.
      * rewrite Hg. cbn [t_version with_platforms]. by rewrite bool_decide_true.
    + exact (Hb t (list_elem_of_lookup_2 _ _ _ Hi) Hk).
  - apply position_None in Ep.
    unfold set_platform_info.
    assert (from_option_or (tool_key state_short l (r_short r)) (state_short (r_short r)) = state_short (r_short r)) as ->
      by (unfold tool_key; by destruct (is_some (tools l !! state_short (r_short r)))).
    rewrite <- Hts, (proj2 (position_None ts _ _) Ep). rewrite checksum_not_empty by done. cbn [tools with_tools]. rewrite lookup_insert_eq.
    eexists. split; [done|]. unfold lockfile_target_needs_auto_lock. rewrite find_entry_app by done.
    cbn [t_platforms]. rewrite lookup_singleton_eq. unfold is_none. rewrite Hc, Hu. cbn [negb orb].
    rewrite (entry_baseline_none ts _ _ _ r.(r_backend) _ (p_provenance info)); [done|done| |done|done].
    unfold prior_versions. rewrite omap_app. csimpl. rewrite bool_decide_true by done. simpl. by rewrite app_nil_r.
Qed.

End AutoLock.

(** ** Migrating an entry without options *)

Section RekeyFacts.

Context {Aube Uv : Type}.

#[local] Abbreviation Tool := (LockfileTool Aube Uv).

(** Records of one key, one after the other. *)
Definition settle (acc : option (option Options)) (resolved : option Options) : option (option Options) :=
  Some match acc with
       | None => resolved
       | Some before => if bool_decide (before = resolved) then before else None
       end.

Lemma record_rekey_lookup decisions key resolved key' :
  record_rekey_decision decisions key resolved !! key' =
  if bool_decide (key = key') then settle (decisions !! key') resolved else decisions !! key'.
Proof.
  unfold record_rekey_decision, settle. case_bool_decide as E; [subst key'|].
  - destruct (decisions !! key) as [before|] eqn:Ed; [|by rewrite lookup_insert_eq].
    case_bool_decide; [by rewrite Ed|by rewrite lookup_insert_eq].
  - destruct (decisions !! key); [case_bool_decide; [done|]|]; by rewrite lookup_insert_ne.
Qed.

Lemma record_keys_lookup decisions v (keys : list str) (f : str -> option Options) v' pk :
  NoDup keys ->
  foldl (fun d platform_key => record_rekey_decision d (v, platform_key) (f platform_key)) decisions keys !! (v', pk) =
  if bool_decide (v = v' /\ pk ∈ keys) then settle (decisions !! (v', pk)) (f pk) else decisions !! (v', pk).
Proof.
  intros Hnd. revert decisions. induction Hnd as [|k keys Hk Hnd IH]; intros decisions; cbn [foldl].
  { rewrite bool_decide_false; [done|set_solver]. }
  rewrite IH, record_rekey_lookup. destruct (decide (v = v' /\ pk ∈ keys)) as [[-> Hin]|Hni].
  - rewrite (bool_decide_true (v' = v' /\ pk ∈ keys)) by done. rewrite (bool_decide_true (v' = v' /\ pk ∈ k :: keys)) by set_solver.
    rewrite bool_decide_false; [done|]. intros [= ->]. done.
  - rewrite (bool_decide_false (v = v' /\ pk ∈ keys)) by done. destruct (decide ((v, k) = (v', pk))) as [[= -> ->]|Hne].
    + rewrite !bool_decide_true by set_solver. done.
    + rewrite (bool_decide_false ((v, k) = _)) by done. rewrite bool_decide_false; [done|]. intros [-> [->|?]%elem_of_cons]; naive_solver.
Qed.

(** What the fresh versions of a version say of a platform. *)
Definition opinions (versions : list FreshVersion) (v pk : str) : list (option Options) :=
  map (fun tv => resolved_options tv pk) (List.filter (fun tv => bool_decide (tv.(f_version) = v)) versions).

Lemma settled_spec acc (rs : list (option Options)) o :
  foldl settle acc rs = Some (Some o) <->
  (acc = None \/ acc = Some (Some o)) /\ (acc = None -> rs <> []) /\ forall r, r ∈ rs -> r = Some o.
Proof.
  revert acc. induction rs as [|r rs IH]; intros acc; cbn [foldl].
  - split; [intros ->; split_and!; [by right|done|by intros r []%elem_of_nil]|]. intros ([->| ->] & H & _); [by destruct H|done].
  - rewrite IH. unfold settle. split.
    + intros (H & _ & Hrs). assert (r = Some o /\ (acc = None \/ acc = Some (Some o))) as [-> Hacc].
      { destruct acc as [before|]; [|destruct H as [?|[= ->]]; [done|by auto]].
        case_bool_decide; destruct H as [?|[= ->]]; try done. subst r. auto. }
      split_and!; [done|done|]. intros r [->|Hr]%elem_of_cons; auto.
    + intros (Hacc & _ & Hrs). assert (r = Some o) as -> by (apply Hrs; by left).
      split_and!; [right|done|intros r Hr; apply Hrs; by right].
      destruct Hacc as [->| ->]; [done|]. by rewrite bool_decide_true.
Qed.

Lemma build_rekey_lookup (versions : list FreshVersion) (existing : option (list Tool)) v pk :
  build_rekey_decisions versions existing !! (v, pk) =
  if bool_decide (pk ∈ legacy_platforms (from_option_or existing []) v) then foldl settle None (opinions versions v pk) else None.
Proof.
  unfold build_rekey_decisions, opinions.
  assert (forall decisions, foldl (fun decisions tv =>
      foldl (fun decisions platform_key => record_rekey_decision decisions (tv.(f_version), platform_key) (resolved_options tv platform_key))
        decisions (key_order (legacy_platforms (from_option_or existing []) tv.(f_version)))) decisions versions !! (v, pk)
    = if bool_decide (pk ∈ legacy_platforms (from_option_or existing []) v)
      then foldl settle (decisions !! (v, pk)) (map (fun tv => resolved_options tv pk) (List.filter (fun tv => bool_decide (tv.(f_version) = v)) versions))
      else decisions !! (v, pk)) as H; [|by rewrite H, lookup_empty].
  induction versions as [|tv versions IH]; intros decisions; cbn [foldl List.filter map]; [by case_bool_decide|].
  rewrite IH, record_keys_lookup by apply NoDup_key_order. destruct (decide (f_version tv = v)) as [<-|Hv].
  - rewrite (bool_decide_true (f_version tv = f_version tv)) by done. case_bool_decide as E1.
    + rewrite bool_decide_true by (split; [done|by apply elem_of_key_order]). done.
    + rewrite bool_decide_false; [done|]. intros [_ H%elem_of_key_order]. done.
  - rewrite (bool_decide_false (f_version tv = v)) by done. rewrite (bool_decide_false (f_version tv = v /\ _)) by tauto. done.
Qed.

Lemma elem_of_legacy (existing : list Tool) v pk :
  pk ∈ legacy_platforms existing v <->
  exists t, t ∈ existing /\ t.(t_options) = [] /\ t.(t_version) = v /\ is_Some (t.(t_platforms) !! pk).
Proof.
  unfold legacy_platforms. rewrite elem_of_union_list. split.
  - intros (ks & (t & -> & Ht)%list_elem_of_fmap & Hpk). apply list_elem_of_In, filter_In in Ht as [Ht Hf].
    exists t. split; [by apply list_elem_of_In|]. destruct (t_options t); [|done]. apply bool_decide_eq_true in Hf. split_and!; [done..|]. by apply elem_of_dom.
  - intros (t & Ht & Ho & Hv & Hpk). exists (dom (t_platforms t)). split; [|by apply elem_of_dom]. apply list_elem_of_fmap. exists t.
    split; [done|]. apply list_elem_of_In, filter_In. split; [by apply list_elem_of_In|]. rewrite Ho. by apply bool_decide_eq_true.
Qed.

Lemma resolved_options_spec tv pk o :
  resolved_options tv pk = Some o <->
  exists platform lockfile_options, Platform_parse pk = Some platform /\
    tv.(f_backend) = Some (false, lockfile_options) /\ lockfile_options platform = Some o.
Proof.
  unfold resolved_options. destruct (Platform_parse pk) as [p|]; simpl; [|naive_solver].
  destruct (f_backend tv) as [[[] f]|]; naive_solver.
Qed.

(** An entry without options is migrated only by consensus: of a version and a platform key, the update
    of a lockfile resolves options exactly if the lockfile has that platform in an entry of the version
    without options, some fresh request is for the version, and every one of them resolves to these options
    for the platform. A backend that is not known, options that describe the host or fail, a key that is no
    platform, and any disagreement all leave the entry where it is. *)
Theorem rekey_by_consensus (versions : list FreshVersion) (existing : option (list Tool)) v pk o :
  (Platform_parse pk ≫= rekey_resolve (build_rekey_decisions versions existing) v) = Some o <->
  (exists t, t ∈ from_option_or existing [] /\ t.(t_options) = [] /\ t.(t_version) = v /\ is_Some (t.(t_platforms) !! pk)) /\
  (exists tv, tv ∈ versions /\ tv.(f_version) = v) /\
  (forall tv, tv ∈ versions -> tv.(f_version) = v ->
     exists platform lockfile_options, Platform_parse pk = Some platform /\
       tv.(f_backend) = Some (false, lockfile_options) /\ lockfile_options platform = Some o).
Proof.
  pose proof (elem_of_legacy (from_option_or existing []) v pk) as Hleg.
  pose proof (fun tv => resolved_options_spec tv pk o) as Hres.
  assert ((Platform_parse pk ≫= rekey_resolve (build_rekey_decisions versions existing) v) = Some o <->
          build_rekey_decisions versions existing !! (v, pk) = Some (Some o) /\ is_Some (Platform_parse pk)) as ->.
  { unfold rekey_resolve. destruct (Platform_parse pk) as [p|] eqn:Ep; simpl; [|split; [done|by intros [_ [? ?]]]].
    rewrite (proj1 (parse_to_key pk p Ep)). destruct (build_rekey_decisions _ _ !! _) as [[]|]; naive_solver. }
  rewrite build_rekey_lookup, <- Hleg. case_bool_decide as Hpk; [|naive_solver].
  rewrite settled_spec. unfold opinions. split.
  - intros [(_ & Hne & Hall) _]. split; [done|]. split.
    + destruct (List.filter (fun tv => bool_decide (f_version tv = v)) versions) as [|tv tvs] eqn:E; [by destruct Hne|].
      assert (tv ∈ tv :: tvs) as Htv by (by left). rewrite <- E in Htv. apply list_elem_of_In, filter_In in Htv as [Htv Hv].
      apply bool_decide_eq_true in Hv. exists tv. split; [by apply list_elem_of_In|done].
    + intros tv Htv Hv. apply Hres, Hall, list_elem_of_fmap. exists tv. split; [done|]. apply list_elem_of_In, filter_In.
      split; [by apply list_elem_of_In|by apply bool_decide_eq_true].
  - intros (_ & (tv0 & Htv0 & Hv0) & Hall). split; [split_and!; [by left| |]|].
    + intros _ E. apply map_eq_nil in E. assert (tv0 ∈ List.filter (fun tv => bool_decide (f_version tv = v)) versions) as Hin.
      { apply list_elem_of_In, filter_In. split; [by apply list_elem_of_In|by apply bool_decide_eq_true]. }
      rewrite E in Hin. by apply elem_of_nil in Hin.
    + intros r (tv & -> & Htv)%list_elem_of_fmap. apply list_elem_of_In, filter_In in Htv as [Htv Hv].
      apply bool_decide_eq_true in Hv. apply Hres, Hall; [by apply list_elem_of_In|done].
    + destruct (Hall tv0 Htv0 Hv0) as (p & f & -> & _). done.
Qed.

End RekeyFacts.

(** ** Platforms without a build *)

(** What a lock tells of a target: it has no build, or it was resolved. *)
Inductive Outcome : Type :=
| NoBuild (short version platform : str)
| Resolved (short version platform : str).

Definition tell (u : UnsupportedPlatforms) (e : Outcome) : UnsupportedPlatforms :=
  match e with
  | NoBuild short version platform => record u short version platform
  | Resolved short version platform => record_resolved u short version platform
  end.

Definition named_by (named : option (gset str)) (platform : str) : Prop :=
  exists names name, named = Some names /\ name ∈ names /\ (platform = name \/ exists variant, platform = name ++ u!"-" ++ variant).

Lemma is_named_spec u platform : is_named u platform = true <-> named_by u.(named) platform.
Proof.
  unfold is_named, named_by. destruct (named u) as [names|]; [|split; [done|by intros (? & ? & ? & _)]].
  rewrite existsb_exists. split.
  - intros (name & Hn%list_elem_of_In%elem_of_elements & H). exists names, name. split_and!; [done..|].
    apply orb_true_iff in H as [H|(rest & ->)%starts_with_spec]; [left; by apply bool_decide_eq_true in H|].
    right. exists rest. by rewrite <- app_assoc.
  - intros (ns & name & [= <-] & Hn & Hp). exists name. split; [by apply list_elem_of_In, elem_of_elements|].
    apply orb_true_iff. destruct Hp as [->|(v & ->)]; [left; by apply bool_decide_eq_true|].
    right. apply starts_with_spec. exists v. by rewrite <- app_assoc.
Qed.

Lemma tell_spec (events : list Outcome) u short version platform :
  let u' := foldl tell u events in
  u'.(named) = u.(named) /\
  ((short, version, platform) ∈ u'.(resolved) <-> (short, version, platform) ∈ u.(resolved) \/ Resolved short version platform ∈ events) /\
  (platform ∈ from_option_or (u'.(u_platforms) !! (short, version)) ∅ <->
     platform ∈ from_option_or (u.(u_platforms) !! (short, version)) ∅ \/ (NoBuild short version platform ∈ events /\ named_by u.(named) platform)).
Proof.
  revert u. induction events as [|e events IH]; intros u; cbn [foldl]; cbv zeta; [set_solver|].
  destruct (IH (tell u e)) as (-> & -> & ->). clear IH. destruct e as [s v p|s v p]; cbn [tell].
  - unfold record. destruct (is_named u p) eqn:En; cbn [named resolved u_platforms].
    + apply is_named_spec in En. split_and!; [done|set_solver|]. destruct (decide ((s, v) = (short, version))) as [[= -> ->]|Hne].
      * rewrite lookup_insert_eq. cbn [from_option_or]. set_solver.
      * rewrite lookup_insert_ne by done. set_solver.
    + assert (~ named_by u.(named) p) as Hn by (rewrite <- is_named_spec; by rewrite En). split_and!; [done|set_solver|set_solver].
  - cbn [record_resolved named resolved u_platforms]. split_and!; [done|set_solver|set_solver].
Qed.

Lemma filter_sorted {A} (R : A -> A -> Prop) (f : A -> bool) (l : list A) : StronglySorted R l -> StronglySorted R (List.filter f l).
Proof.
  induction 1 as [|x l Hl IH Hx]; cbn [List.filter]; [constructor|]. destruct (f x); [|done].
  constructor; [done|]. apply Forall_forall. intros y Hy. apply list_elem_of_In, filter_In in Hy as [Hy _].
  apply list_elem_of_In in Hy. by eapply Forall_forall in Hx.
Qed.

(** A missing build is reported exactly once per platform the user named: in whatever order the targets of
    a lock end, a platform is in the report of a tool version if and only if the user named it, or the
    platform it is a variant of, some request had no build for it and no request resolved it. Reports are
    sorted and never empty. *)
Theorem missing_builds_reported (named : option (gset str)) (events : list Outcome) short version :
  let u := foldl tell (UnsupportedPlatforms_new named) events in
  match reported u short version with
  | Some platforms => platforms <> [] /\ StronglySorted str_lt platforms
  | None => True
  end /\
  forall platform, platform ∈ from_option_or (reported u short version) [] <->
    named_by named platform /\ NoBuild short version platform ∈ events /\ Resolved short version platform ∉ events.
Proof.
  cbv zeta. set (u := foldl tell (UnsupportedPlatforms_new named) events).
  pose proof (fun platform => tell_spec events (UnsupportedPlatforms_new named) short version platform) as H. cbv zeta in H. fold u in H.
  cbn [LockLookup.named resolved u_platforms UnsupportedPlatforms_new] in H. unfold reported.
  destruct (u_platforms u !! (short, version)) as [ps|] eqn:Ep; cbn [mbind option_bind].
  2: { split; [done|]. intros platform. destruct (H platform) as (_ & _ & Hp). rewrite lookup_empty in Hp. set_solver. }
  set (keep := fun platform => negb (bool_decide ((short, version, platform) ∈ u.(resolved)))).
  assert (forall platform, platform ∈ List.filter keep (key_order ps) <->
    named_by named platform /\ NoBuild short version platform ∈ events /\ Resolved short version platform ∉ events) as Hel.
  { intros platform. destruct (H platform) as (_ & Hr & Hp). rewrite lookup_empty in Hp. cbn [from_option_or] in Hp.
    rewrite list_elem_of_In, filter_In, <- list_elem_of_In, elem_of_key_order. subst keep. cbv beta.
    rewrite negb_true_iff, bool_decide_eq_false. set_solver. }
  assert (StronglySorted str_lt (List.filter keep (key_order ps))) as Hs by
    by apply filter_sorted, key_order_sorted.
  destruct (List.filter keep (key_order ps)) as [|p ps'] eqn:E; (split; [done|]); exact Hel.
Qed.

(** ** At a concrete lockfile *)

Lemma auto_lock_settles_example :
  let r := sample_resolution u!"2" (sample_info (Some u!"sha256:bb") (Some u!"https://h/2") (Some Cosign)) in
  exists l' ts', apply_lock_result Datatypes.id sample_parse N.compare sample_file r = Ok (true, l') /\
    tools_for Datatypes.id l' u!"r" = Some ts' /\
    lockfile_target_needs_auto_lock sample_parse N.compare ts' u!"2" u!"linux-x64" [] = false.
Proof.
  intros r.
  destruct (apply_lock_result Datatypes.id sample_parse N.compare sample_file r) as [[applied l']|err|] eqn:E;
    [|vm_compute in E; discriminate..].
  assert (applied = true) as -> by (vm_compute in E; congruence).
  destruct (auto_lock_settles Datatypes.id sample_parse N.compare sample_file r
    (sample_info (Some u!"sha256:bb") (Some u!"https://h/2") (Some Cosign)) true l') as (ts' & H1 & H2).
  - exact E.
  - reflexivity.
  - reflexivity.
  - reflexivity.
  - apply (bool_decide_unpack _). vm_compute. reflexivity.
  - intros t Ht. vm_compute in Ht. apply list_elem_of_singleton in Ht as ->. intros H. discriminate H.
  - exists l', ts'. split; [reflexivity|]. split; [exact H1|exact H2].
Defined.
