(* ===== verification/SyncGraph.v ===== *)
(** * The branches of saved files ([crates/mise-system/src/history/sync/graph.rs], [publish.rs],
    [network.rs]; the commits of [history/shadow.rs] and [history/checkpoint.rs])

    A machine has two branches of saved files: its own ([refs/heads/main]) and what it fetched from the
    origin ([refs/remotes/origin/setup]). A synchronization reads both, prepares a candidate commit, applies
    its files and only then moves its own branch, by compare-and-swap. Several processes and machines do this
    at a time, and checkpoints are saved in between.

    Each of the steps below (reading the heads, writing a commit, swapping a branch) is taken to be atomic;
    the code reads the two branches one after the other.

    Git is an interface: the identity of a commit, its merge bases. Objects are immutable and named by their
    contents, so the model has one store of them for all machines; branches are per machine. *)

From S2P Require Import Prelude RustStr.

Abbreviation oid := str (only parsing).

(** [stamp] is what else a commit is hashed from: message, author, time. *)
Record Commit := mkCommit { c_tree : oid; c_parents : list oid; c_stamp : str }.

#[export] Instance Commit_eq_dec : EqDecision Commit.
Proof. solve_decision. Defined.

Abbreviation Objects := (gmap oid Commit) (only parsing).

(** What Git is asked: the name of a commit and [git merge-base --all]. *)
Class Git := {
  hash : Commit -> oid;
  merge_bases : Objects -> oid -> oid -> list oid
}.

(** One branch of a commit graph is an ancestor of another one. *)
Definition parent_of (objs : Objects) (child parent : oid) : Prop :=
  exists c, objs !! child = Some c /\ parent ∈ c.(c_parents).

Definition ancestor (objs : Objects) (a b : oid) : Prop := rtc (parent_of objs) b a.

(** What is relied on: commits have names of their own of the length of a SHA-1 or SHA-256, and merge bases
    are common ancestors. *)
Class GitLaws (G : Git) : Prop := {
  hash_inj : Inj (=) (=) hash;
  hash_length c : length (hash c) = 40 \/ length (hash c) = 64;
  merge_bases_common objs a b x : x ∈ merge_bases objs a b -> ancestor objs x a /\ ancestor objs x b
}.

Inductive SyncError : Type :=
| Unrelated
| SavedFilesChanged
| IncomingFilesChanged
| OriginChanged
| LocalChanged
| UnsupportedObjectId (commit : oid)
| GitFailed
| Conflicts (paths : list str)
| NotApplied
| AuditFailed.

Section Graph.

Context `{G : Git}.

(** ** Objects and references *)

(** [git commit-tree]: the commit is stored under its name; its parents must exist. *)
Definition commit_tree (objs : Objects) (tree : oid) (parents : list oid) (stamp : str) : result SyncError (oid * Objects) :=
  if bool_decide (Forall (fun p => p ∈ dom objs) parents) then
    let c := mkCommit tree parents stamp in Ok (hash c, <[hash c := c]> objs)
  else Err GitFailed.

(** [git rev-parse commit^{tree}] *)
Definition output_tree_of (objs : Objects) (commit : oid) : result SyncError oid :=
  match objs !! commit with Some c => Ok c.(c_tree) | None => Err GitFailed end.

(** [git update-ref name commit expected]: the reference must be what was expected, absent for [None],
    and the commit must exist. *)
Definition update_ref (objs : Objects) (current : option oid) (commit : oid) (expected : option oid)
    : result SyncError (option oid) :=
  if negb ((length commit =? 40) || (length commit =? 64)) then Err (UnsupportedObjectId commit)
  else match objs !! commit with
       | None => Err GitFailed
       | Some _ => if bool_decide (current = expected) then Ok (Some commit) else Err GitFailed
       end.

(** [update_history_head] also points the symbolic [HEAD] at the branch, which is not part of the state. *)
Definition update_history_head := update_ref.

(** The branches of a machine. *)
Record Refs := mkRefs { history : option oid; upstream : option oid }.

(** ** Candidates ([graph.rs]) *)

Record Heads := mkHeads { h_local : option oid; h_remote : option oid; h_base : option oid }.

Record Candidate := mkCandidate { commit : oid; expected_local : option oid; expected_remote : option oid }.

Definition Heads_read (objs : Objects) (r : Refs) : result SyncError Heads :=
  match r.(history), r.(upstream) with
  | Some l, Some u =>
      match merge_bases objs l u with
      | [] => Err Unrelated
      | [b] => Ok (mkHeads (Some l) (Some u) (Some b))
      | _ => Ok (mkHeads (Some l) (Some u) None)
      end
  | l, u => Ok (mkHeads l u None)
  end.

(** The tree of a commit must be the one that was planned. *)
Definition with_tree (objs : Objects) (commit tree : oid) (e : SyncError) : result SyncError (oid * Objects) :=
  let? t := output_tree_of objs commit in
  if bool_decide (t = tree) then Ok (commit, objs) else Err e.

Definition candidate (h : Heads) (objs : Objects) (tree : oid) (stamp : str) : result SyncError (option Candidate * Objects) :=
  let chosen :=
    match h.(h_local), h.(h_remote) with
    | None, None => Ok None
    | Some l, None => rmap Some (with_tree objs l tree SavedFilesChanged)
    | None, Some u => rmap Some (with_tree objs u tree IncomingFilesChanged)
    | Some l, Some u =>
        if bool_decide (h.(h_base) = Some u) then rmap Some (with_tree objs l tree SavedFilesChanged)
        else
          let merge := rmap Some (commit_tree objs tree [l; u] stamp) in
          if bool_decide (h.(h_base) = Some l) then
            let? t := output_tree_of objs u in
            if bool_decide (t = tree) then Ok (Some (u, objs)) else merge
          else merge
    end in
  let? c := chosen in
  match c with
  | None => Ok (None, objs)
  | Some (c, objs) => Ok (Some (mkCandidate c h.(h_local) h.(h_remote)), objs)
  end.

(** [adopt]: the origin's branch is compared, then this machine's is swapped. The two are separate steps. *)
Definition adopt_check (r : Refs) (c : Candidate) : result SyncError unit :=
  if bool_decide (r.(upstream) = c.(expected_remote)) then Ok tt else Err OriginChanged.

Definition adopt_swap (objs : Objects) (r : Refs) (c : Candidate) : result SyncError Refs :=
  rmap (fun h => mkRefs h r.(upstream)) (update_history_head objs r.(history) c.(commit) c.(expected_local)).

Definition adopt (objs : Objects) (r : Refs) (c : Candidate) : result SyncError Refs :=
  let? _ := adopt_check r c in adopt_swap objs r c.

(** ** Checkpoints *)

(** [write_checkpoint_commit]: on the head that is read now; a checkpoint without a snapshot has the tree of
    the head, or the empty one. *)
Definition write_checkpoint_commit (objs : Objects) (head : option oid) (empty_tree : oid) (snapshot : option oid) (stamp : str)
    : result SyncError (oid * Objects) :=
  let? tree := match snapshot with
               | Some tree => Ok tree
               | None => match head with Some head => output_tree_of objs head | None => Ok empty_tree end
               end in
  commit_tree objs tree (option_list head) stamp.

(** ** Publication ([publish.rs]) *)

Section Publish.

(** What [build] asks of Git and of the enrollment manifest: the merge of two commits with its conflicts, the
    manifest of a commit, the merge of three manifests and a tree with a manifest in it, a tree with objects
    replaced by those of a commit, and the two audits of a history. *)
Context {Manifest : Type} (PATH : str)
  (merge_tree : Objects -> oid -> oid -> result SyncError (oid * list str))
  (Manifest_read : Objects -> oid -> result SyncError (option Manifest))
  (Manifest_merge : Manifest -> Manifest -> Manifest -> result SyncError Manifest)
  (Manifest_write : Manifest -> oid -> result SyncError oid)
  (compose_from : oid -> oid -> list str -> result SyncError oid)
  (audit : Objects -> oid -> option oid -> result SyncError unit).

(** The manifest is merged as an inventory where all three versions have one. *)
Definition merge_manifest (objs : Objects) (base : option oid) (l u : oid) (merged : oid) (conflicts : list str)
    : result SyncError (oid * list str) :=
  match base with
  | None => Ok (merged, conflicts)
  | Some base =>
      let? b := Manifest_read objs base in
      let? ours := Manifest_read objs l in
      let? theirs := Manifest_read objs u in
      match b, ours, theirs with
      | Some b, Some ours, Some theirs =>
          let? m := Manifest_merge b ours theirs in
          let? merged := Manifest_write m merged in
          Ok (merged, List.filter (fun path => negb (bool_decide (path = PATH))) conflicts)
      | _, _, _ => Ok (merged, conflicts)
      end
  end.

(** A merge that is not this machine's tree needs another pull. *)
Definition check_applied (objs : Objects) (base : option oid) (l u tree : oid) (accepted : gset str) : result SyncError unit :=
  let? (merged, conflicts) := merge_tree objs l u in
  let? (merged, conflicts) := merge_manifest objs base l u merged conflicts in
  match List.filter (fun path => negb (bool_decide (path ∈ accepted))) conflicts with
  | [] =>
      let? merged := compose_from merged l conflicts in
      if bool_decide (merged = tree) then Ok tt else Err NotApplied
  | unresolved => Err (Conflicts unresolved)
  end.

(** [build]: the commit that is published and the branches after it. *)
Definition build (objs : Objects) (r : Refs) (planned_upstream planned_local : option oid) (accepted : gset str)
    (allow_plaintext_history : bool) (stamp : str) : result SyncError (option oid * Objects * Refs) :=
  let? heads := Heads_read objs r in
  if negb (bool_decide (heads.(h_local) = planned_local)) then Err LocalChanged
  else if negb (bool_decide (heads.(h_remote) = planned_upstream)) then Err OriginChanged
  else match heads.(h_local) with
       | None => Ok (None, objs, r)
       | Some l =>
           if bool_decide (heads.(h_remote) = Some l) then Ok (None, objs, r)
           else
             let? tree := output_tree_of objs l in
             let? _ := match heads.(h_remote) with
                       | Some u => if bool_decide (heads.(h_base) = Some u) then Ok tt
                                   else check_applied objs heads.(h_base) l u tree accepted
                       | None => Ok tt
                       end in
             let? (c, objs) := candidate heads objs tree stamp in
             match c with
             | None => Ok (None, objs, r)
             | Some c =>
                 let? _ := if allow_plaintext_history then Ok tt else audit objs c.(commit) planned_upstream in
                 let? r := adopt objs r c in
                 Ok (Some c.(commit), objs, r)
             end
       end.

End Publish.

(** ** The origin ([network.rs]) *)

Inductive PushOutcome : Type := Done | Rejected.

(** The branch that was observed must be the one expected; Git itself then takes only what continues the
    branch that is there. *)
Definition push_lease (branch expected : option oid) : bool := bool_decide (branch = expected).

(** A fetch overwrites the reference; a missing branch leaves it. *)
Definition fetch (branch : option oid) (r : Refs) : bool * Refs :=
  match branch with
  | Some b => (true, mkRefs r.(history) (Some b))
  | None => (false, r)
  end.

End Graph.
