(* ===== verification/SyncGraphSpec.v ===== *)
(** * The branches of saved files: nothing saved is lost, whatever runs at the same time

    [candidate] is shown to publish the tree that was planned and to descend from both branches it was
    planned from. The processes of any number of machines, the origin and their steps form a transition
    system; in every reachable state the branches have only grown. *)

From S2P Require Import Prelude RustStr SyncGraph.

Section Facts.

Context `{G : Git} {HL : GitLaws G}.

Implicit Types (objs : Objects) (a b x y : oid).

(** ** Ancestry *)

Lemma ancestor_refl objs a : ancestor objs a a.
Proof. constructor. Qed.

Lemma ancestor_trans objs a b c : ancestor objs a b -> ancestor objs b c -> ancestor objs a c.
Proof. unfold ancestor. intros H1 H2. by etrans. Qed.

Lemma ancestor_mono objs objs' a b : objs ⊆ objs' -> ancestor objs a b -> ancestor objs' a b.
Proof.
  intros Hs H. unfold ancestor in *. induction H as [|x y z (c & Hc & Hp) _ IH]; [constructor|].
  eapply rtc_l; [|exact IH]. exists c. split; [by eapply lookup_weaken|done].
Qed.

Lemma ancestor_parent objs c tree parents stamp a :
  objs !! c = Some (mkCommit tree parents stamp) -> a ∈ parents -> ancestor objs a c.
Proof. intros Hc Ha. apply rtc_once. exists (mkCommit tree parents stamp). by split. Qed.

Definition named_by_contents objs : Prop := named_by hash objs.

Lemma commit_tree_spec objs tree parents stamp x objs' :
  named_by_contents objs -> commit_tree objs tree parents stamp = Ok (x, objs') ->
  objs ⊆ objs' /\ named_by_contents objs' /\ objs' !! x = Some (mkCommit tree parents stamp).
Proof.
  unfold commit_tree. case_bool_decide as Hp; [|done]. intros Hn [= <- <-].
  pose proof hash_inj. destruct (insert_named hash objs (mkCommit tree parents stamp) Hn).
  split_and!; [done..|]. by rewrite lookup_insert_eq.
Qed.

(** ** Candidates *)

Lemma Heads_read_spec objs r h :
  Heads_read objs r = Ok h ->
  h.(h_local) = r.(history) /\ h.(h_remote) = r.(upstream) /\
  forall b, h.(h_base) = Some b -> exists l u, r.(history) = Some l /\ r.(upstream) = Some u /\ ancestor objs b l /\ ancestor objs b u.
Proof.
  unfold Heads_read. destruct (history r) as [l|], (upstream r) as [u|]; [|intros [= <-]; by split_and!..].
  pose proof (merge_bases_common objs l u) as Hb. destruct (merge_bases objs l u) as [|b [|b' bs]]; [done| |].
  - intros [= <-]. split_and!; [done..|]. intros b0 [= <-]. exists l, u. destruct (Hb b); [by left|done].
  - intros [= <-]. by split_and!.
Qed.

(** The commit is of the tree planned, and both branches are its ancestors. *)
Definition continues_both objs (c : Candidate) : Prop :=
  (forall l, c.(expected_local) = Some l -> ancestor objs l c.(commit)) /\
  (forall u, c.(expected_remote) = Some u -> ancestor objs u c.(commit)).

Lemma with_tree_spec objs c tree e c' objs' :
  with_tree objs c tree e = Ok (c', objs') -> c' = c /\ objs' = objs /\ exists k, objs !! c = Some k /\ k.(c_tree) = tree.
Proof.
  unfold with_tree, output_tree_of. destruct (objs !! c) as [k|]; simpl; [|done]. case_bool_decide; [|done].
  intros [= <- <-]. eauto.
Qed.

Lemma candidate_spec objs r h tree stamp c objs' :
  named_by_contents objs -> Heads_read objs r = Ok h -> candidate h objs tree stamp = Ok (c, objs') ->
  objs ⊆ objs' /\ named_by_contents objs' /\
  match c with
  | None => r.(history) = None /\ r.(upstream) = None /\ objs' = objs
  | Some c => c.(expected_local) = r.(history) /\ c.(expected_remote) = r.(upstream) /\
      (exists k, objs' !! c.(commit) = Some k /\ k.(c_tree) = tree) /\ continues_both objs' c
  end.
Proof.
  intros Hn Hr. destruct (Heads_read_spec _ _ _ Hr) as (Hl & Hu & Hb). unfold candidate, continues_both. rewrite Hl, Hu in *. clear Hl Hu Hr.
  destruct (history r) as [l|], (upstream r) as [u|].
  - assert (forall x objs1, commit_tree objs tree [l; u] stamp = Ok (x, objs1) ->
      objs ⊆ objs1 /\ named_by_contents objs1 /\ (exists k, objs1 !! x = Some k /\ c_tree k = tree) /\ ancestor objs1 l x /\ ancestor objs1 u x) as Hmerge.
    { intros x objs1 (H1 & H2 & H3)%commit_tree_spec; [|done]. split_and!; [done..|by eexists| |];
        (eapply ancestor_parent; [exact H3|set_solver]). }
    assert (forall m : result SyncError (oid * Objects), (forall x objs1, m = Ok (x, objs1) ->
        objs ⊆ objs1 /\ named_by_contents objs1 /\ (exists k, objs1 !! x = Some k /\ c_tree k = tree) /\ ancestor objs1 l x /\ ancestor objs1 u x) ->
      (let? c := rmap Some m in match c with None => Ok (None, objs) | Some (c, objs) => Ok (Some (mkCandidate c (Some l) (Some u)), objs) end) = Ok (c, objs') ->
      objs ⊆ objs' /\ named_by_contents objs' /\
      match c with
      | None => (Some l : option oid) = None /\ (Some u : option oid) = None /\ objs' = objs
      | Some c => c.(expected_local) = Some l /\ c.(expected_remote) = Some u /\
          (exists k, objs' !! c.(commit) = Some k /\ k.(c_tree) = tree) /\
          (forall l0, c.(expected_local) = Some l0 -> ancestor objs' l0 c.(commit)) /\
          (forall u0, c.(expected_remote) = Some u0 -> ancestor objs' u0 c.(commit))
      end) as Hfin.
    { intros m Hm. destruct m as [[x objs1]|e|]; cbn [rmap rbind]; [|done..]. intros [= <- <-].
      destruct (Hm x objs1 eq_refl) as (H1 & H2 & H3 & H4 & H5). cbn. split_and!; try done; by intros ? [= <-]. }
    case_bool_decide as Eu; [|case_bool_decide as El].
    + apply Hfin. intros x objs1 (-> & -> & Hk)%with_tree_spec. destruct (Hb u Eu) as (? & ? & [= <-] & [= <-] & H1 & H2).
      split_and!; [done..|apply ancestor_refl|done].
    + cbn [rbind]. destruct (output_tree_of objs u) as [t|e|] eqn:Et; cbn [rbind]; [|done..].
      case_bool_decide as Ett; [|by apply Hfin]. destruct (Hb l El) as (? & ? & [= <-] & [= <-] & H1 & H2).
      apply (Hfin (Ok (u, objs))). intros x objs1 [= <- <-]. unfold output_tree_of in Et. destruct (objs !! u) as [k|] eqn:Ek; [|done].
      injection Et as Et. subst t. split_and!; [done..|by eexists|done|apply ancestor_refl].
    + by apply Hfin.
  - destruct (with_tree objs l tree SavedFilesChanged) as [[x objs1]|e|] eqn:E; cbn [rmap rbind]; [|done..].
    apply with_tree_spec in E as (-> & -> & Hk). intros [= <- <-]. cbn. split_and!; try done. intros ? [= <-]. apply ancestor_refl.
  - destruct (with_tree objs u tree IncomingFilesChanged) as [[x objs1]|e|] eqn:E; cbn [rmap rbind]; [|done..].
    apply with_tree_spec in E as (-> & -> & Hk). intros [= <- <-]. cbn. split_and!; try done. intros ? [= <-]. apply ancestor_refl.
  - cbn [rbind]. intros [= <- <-]. by split_and!.
Qed.

Lemma update_ref_spec objs current c expected h :
  update_ref objs current c expected = Ok h -> h = Some c /\ current = expected /\ is_Some (objs !! c).
Proof.
  unfold update_ref. destruct (negb _); [done|]. destruct (objs !! c) eqn:E; [|done]. case_bool_decide; [|done].
  intros [= <-]. by split_and!.
Qed.

Lemma adopt_swap_spec objs r c r' :
  adopt_swap objs r c = Ok r' -> r' = mkRefs (Some c.(commit)) r.(upstream) /\ r.(history) = c.(expected_local).
Proof.
  unfold adopt_swap, update_history_head. destruct (update_ref _ _ _ _) as [h|e|] eqn:E; cbn [rmap rbind]; [|done..].
  apply update_ref_spec in E as (-> & E & _). by intros [= <-].
Qed.

Lemma adopt_spec objs r c r' :
  adopt objs r c = Ok r' ->
  r' = mkRefs (Some c.(commit)) r.(upstream) /\ r.(history) = c.(expected_local) /\ r.(upstream) = c.(expected_remote).
Proof.
  unfold adopt, adopt_check. case_bool_decide as Eu; [|done]. cbn [rbind]. by intros [-> ->]%adopt_swap_spec.
Qed.

(** ** Publication *)

Section Publish.

Context {Manifest : Type} (PATH : str)
  (merge_tree : Objects -> oid -> oid -> result SyncError (oid * list str))
  (Manifest_read : Objects -> oid -> result SyncError (option Manifest))
  (Manifest_merge : Manifest -> Manifest -> Manifest -> result SyncError Manifest)
  (Manifest_write : Manifest -> oid -> result SyncError oid)
  (compose_from : oid -> oid -> list str -> result SyncError oid)
  (audit : Objects -> oid -> option oid -> result SyncError unit).

#[local] Abbreviation publish :=
  (build PATH merge_tree Manifest_read Manifest_merge Manifest_write compose_from audit).

(** Publishing changes no file and drops no commit: when [build] returns a commit, the branches were those
    that were planned with, the commit has the very tree of this machine's branch, it descends from that
    branch and from the one fetched, this machine's branch is moved to it and nothing else is; it was
    audited unless plain text is allowed. When it returns none, nothing changed, and this machine had nothing
    to publish. *)
Theorem publish_same_files objs (r : Refs) planned_upstream planned_local accepted allow stamp c objs' r' :
  named_by_contents objs ->
  publish objs r planned_upstream planned_local accepted allow stamp = Ok (c, objs', r') ->
  objs ⊆ objs' /\ r.(history) = planned_local /\ r.(upstream) = planned_upstream /\
  match c with
  | None => r' = r /\ objs' = objs /\ (r.(history) = None \/ r.(history) = r.(upstream))
  | Some c => r' = mkRefs (Some c) r.(upstream) /\ c <> [] /\
      (allow = true \/ audit objs' c planned_upstream = Ok tt) /\
      exists l k k', r.(history) = Some l /\ objs !! l = Some k /\ objs' !! c = Some k' /\ k'.(c_tree) = k.(c_tree) /\
        ancestor objs' l c /\ (forall u, r.(upstream) = Some u -> ancestor objs' u c)
  end.
Proof.
  intros Hn. unfold build. destruct (Heads_read objs r) as [h|e|] eqn:Eh; cbn [rbind]; [|done..].
  destruct (Heads_read_spec _ _ _ Eh) as (Hl & Hu & _).
  case_bool_decide as El; [|done]. case_bool_decide as Eu; [|done]. cbn [negb]. rewrite Hl, Hu in *.
  destruct (history r) as [l|] eqn:Ehist; [|intros [= <- <- <-]; split_and!; auto].
  case_bool_decide as Esame; [intros [= <- <- <-]; split_and!; auto|].
  unfold output_tree_of. destruct (objs !! l) as [k|] eqn:Ek; cbn [rbind]; [|done].
  destruct (match upstream r with Some u => _ | None => _ end) as [[]|e|]; cbn [rbind]; [|done..].
  destruct (candidate h objs (c_tree k) stamp) as [[[c0|] objs1]|e|] eqn:Ec; cbn [rbind]; [| |done..].
  - destruct (candidate_spec _ _ _ _ _ _ _ Hn Eh Ec) as (Hsub & Hn' & He1 & He2 & (k' & Hk' & Ht) & Hc1 & Hc2).
    destruct (if allow then Ok tt else audit objs1 (commit c0) planned_upstream) as [[]|e|] eqn:Ea; cbn [rbind]; [|done..].
    destruct (adopt objs1 r c0) as [r1|e|] eqn:Er; cbn [rbind]; [|done..]. intros [= <- <- <-].
    apply adopt_spec in Er as (-> & _ & _). split_and!; try done.
    + intros E. apply Hn' in Hk'. rewrite E in Hk'. destruct (hash_length k') as [H|H]; by rewrite Hk' in H.
    + destruct allow; [by left|by right].
    + exists l, k, k'. split_and!; try done.
      * apply Hc1. congruence.
      * intros u Hup. apply Hc2. congruence.
  - destruct (candidate_spec _ _ _ _ _ _ _ Hn Eh Ec) as (_ & _ & H & _). congruence.
Qed.

End Publish.

(** ** Machines, processes and the origin *)

(** What a process of a machine is at: it has read the head a checkpoint is saved on, or written the
    checkpoint, or planned a candidate, or compared the origin with it. *)
Inductive Process : Type :=
| Idle
| SaveRead (expected : option oid)
| SaveWritten (c : oid) (expected : option oid)
| Planned (c : Candidate)
| Checked (c : Candidate).

Record World := mkWorld {
  objects : Objects;
  machines : gmap nat Refs;
  processes : gmap nat (nat * Process);
  branch : option oid
}.

(** Every line of these steps may be interleaved with those of any other process. *)
Inductive step : World -> World -> Prop :=
| step_save_read w p m r :
    w.(processes) !! p = Some (m, Idle) -> w.(machines) !! m = Some r ->
    step w (mkWorld w.(objects) w.(machines) (<[p := (m, SaveRead r.(history))]> w.(processes)) w.(branch))
| step_save_write w p m r e empty_tree snapshot stamp c objs :
    w.(processes) !! p = Some (m, SaveRead e) -> w.(machines) !! m = Some r ->
    write_checkpoint_commit w.(objects) r.(history) empty_tree snapshot stamp = Ok (c, objs) ->
    step w (mkWorld objs w.(machines) (<[p := (m, SaveWritten c e)]> w.(processes)) w.(branch))
| step_save_advance w p m r e c h :
    w.(processes) !! p = Some (m, SaveWritten c e) -> w.(machines) !! m = Some r ->
    update_history_head w.(objects) r.(history) c e = Ok h ->
    step w (mkWorld w.(objects) (<[m := mkRefs h r.(upstream)]> w.(machines)) (<[p := (m, Idle)]> w.(processes)) w.(branch))
| step_plan w p m r h tree stamp c objs :
    w.(processes) !! p = Some (m, Idle) -> w.(machines) !! m = Some r ->
    Heads_read w.(objects) r = Ok h -> candidate h w.(objects) tree stamp = Ok (Some c, objs) ->
    step w (mkWorld objs w.(machines) (<[p := (m, Planned c)]> w.(processes)) w.(branch))
| step_check w p m r c :
    w.(processes) !! p = Some (m, Planned c) -> w.(machines) !! m = Some r -> adopt_check r c = Ok tt ->
    step w (mkWorld w.(objects) w.(machines) (<[p := (m, Checked c)]> w.(processes)) w.(branch))
| step_swap w p m r r' c :
    w.(processes) !! p = Some (m, Checked c) -> w.(machines) !! m = Some r -> adopt_swap w.(objects) r c = Ok r' ->
    step w (mkWorld w.(objects) (<[m := r']> w.(machines)) (<[p := (m, Idle)]> w.(processes)) w.(branch))
| step_fail w p m s :
    w.(processes) !! p = Some (m, s) ->
    step w (mkWorld w.(objects) w.(machines) (<[p := (m, Idle)]> w.(processes)) w.(branch))
| step_fetch w m r :
    w.(machines) !! m = Some r ->
    step w (mkWorld w.(objects) (<[m := (fetch w.(branch) r).2]> w.(machines)) w.(processes) w.(branch))
| step_push w c :
    (* a push without force: Git takes a commit that continues the branch *)
    is_Some (w.(objects) !! c) -> (forall b, w.(branch) = Some b -> ancestor w.(objects) b c) ->
    step w (mkWorld w.(objects) w.(machines) w.(processes) (Some c)).

(** [new] continues [old]: it is there when [old] was, and a descendant. *)
Definition continues (objs : Objects) (old new : option oid) : Prop :=
  forall a, old = Some a -> exists b, new = Some b /\ ancestor objs a b.

Lemma continues_refl objs o : continues objs o o.
Proof. intros a ->. exists a. split; [done|apply ancestor_refl]. Qed.

Lemma continues_trans objs o1 o2 o3 : continues objs o1 o2 -> continues objs o2 o3 -> continues objs o1 o3.
Proof.
  intros H1 H2 a Ha. destruct (H1 a Ha) as (b & Hb & Hab). destruct (H2 b Hb) as (c & Hc & Hbc).
  exists c. split; [done|by eapply ancestor_trans].
Qed.

Lemma continues_mono objs objs' o o' : objs ⊆ objs' -> continues objs o o' -> continues objs' o o'.
Proof. intros Hs H a Ha. destruct (H a Ha) as (b & Hb & Hab). exists b. split; [done|by eapply ancestor_mono]. Qed.

(** What a process holds, of the machine it runs on. *)
Definition process_ok (objs : Objects) (r : Refs) (s : Process) : Prop :=
  match s with
  | Idle => True
  | SaveRead e => continues objs e r.(history)
  | SaveWritten c e => continues objs e (Some c)
  | Planned c | Checked c => continues objs c.(expected_local) (Some c.(commit))
  end.

Definition world_ok (w : World) : Prop :=
  named_by_contents w.(objects) /\
  forall p m s, w.(processes) !! p = Some (m, s) -> exists r, w.(machines) !! m = Some r /\ process_ok w.(objects) r s.

(** Nothing that was on a branch is off it. *)
Definition grown (w w' : World) : Prop :=
  w.(objects) ⊆ w'.(objects) /\
  (forall m r, w.(machines) !! m = Some r -> exists r', w'.(machines) !! m = Some r' /\ continues w'.(objects) r.(history) r'.(history)) /\
  continues w'.(objects) w.(branch) w'.(branch).

Lemma process_mono objs objs' (r r' : Refs) (s : Process) :
  objs ⊆ objs' -> continues objs' r.(history) r'.(history) -> process_ok objs r s -> process_ok objs' r' s.
Proof.
  intros Hs Hr. destruct s as [|e|c e|c|c]; simpl; [done| | | |]; intros H;
    [eapply continues_trans; [eapply continues_mono; [exact Hs|exact H]|done]|by eapply continues_mono..].
Qed.

(** A step that grows the world and leaves its processes as they were, one apart, keeps it sound. *)
Lemma grown_ok (w w' : World) p m (r' : Refs) (s : Process) :
  world_ok w -> grown w w' -> named_by_contents w'.(objects) ->
  w'.(processes) = <[p := (m, s)]> w.(processes) -> w'.(machines) !! m = Some r' -> process_ok w'.(objects) r' s ->
  world_ok w'.
Proof.
  intros [Hn Hw] (Hs & Hm & Hb) Hn' Hp Hr' Hs'. split; [done|]. intros q n t. rewrite Hp.
  destruct (decide (p = q)) as [<-|Hne].
  - rewrite lookup_insert_eq. intros [= <- <-]. eauto.
  - rewrite lookup_insert_ne by done. intros Hq. destruct (Hw q n t Hq) as (r0 & Hr0 & Ht).
    destruct (Hm n r0 Hr0) as (r1 & Hr1 & Hc). exists r1. split; [done|by eapply process_mono].
Qed.

(** A machine whose own branch goes on, among the others. *)
Lemma machines_grown objs (ms : gmap nat Refs) m (r r' : Refs) :
  ms !! m = Some r -> continues objs r.(history) r'.(history) ->
  forall n r0, ms !! n = Some r0 -> exists r1, <[m := r']> ms !! n = Some r1 /\ continues objs r0.(history) r1.(history).
Proof.
  intros Hm Hc n r0 Hn. destruct (decide (m = n)) as [<-|Hne].
  - rewrite lookup_insert_eq. assert (r0 = r) as -> by congruence. eauto.
  - rewrite lookup_insert_ne by done. exists r0. split; [done|apply continues_refl].
Qed.

Lemma machines_same objs (ms : gmap nat Refs) n (r0 : Refs) :
  ms !! n = Some r0 -> exists r1, ms !! n = Some r1 /\ continues objs r0.(history) r1.(history).
Proof. intros Hn. exists r0. split; [done|apply continues_refl]. Qed.

Lemma step_sound w w' : world_ok w -> step w w' -> grown w w' /\ world_ok w'.
Proof.
  intros Hok Hstep. pose proof Hok as [Hn Hw]. destruct Hstep as [w p m r Hp Hm|w p m r e et sn st c objs Hp Hm Hc|w p m r e c h Hp Hm Hh|
    w p m r h tree st c objs Hp Hm Hh Hc|w p m r c Hp Hm Hc|w p m r r' c Hp Hm Hc|w p m s Hp|w m r Hm|w c Hc Hb].
  - assert (grown w (mkWorld (objects w) (machines w) (<[p:=(m, SaveRead (history r))]> (processes w)) (branch w))) as Hg.
    { split_and!; [done|apply machines_same|apply continues_refl]. }
    split; [done|]. eapply grown_ok; [exact Hok|exact Hg|done|done|exact Hm|]. simpl. apply continues_refl.
  - destruct (Hw p m _ Hp) as (r0 & Hr0 & He). assert (r0 = r) as -> by congruence. simpl in He.
    unfold write_checkpoint_commit in Hc. destruct (match sn with Some t => Ok t | None => _ end) as [t|e1|]; cbn [rbind] in Hc; [|done..].
    apply commit_tree_spec in Hc as (Hs & Hn' & Hx); [|done].
    assert (grown w (mkWorld objs (machines w) (<[p:=(m, SaveWritten c e)]> (processes w)) (branch w))) as Hg.
    { split_and!; [done|apply machines_same|apply continues_refl]. }
    split; [done|]. eapply grown_ok; [exact Hok|exact Hg|done|done|exact Hm|]. simpl.
    eapply continues_trans; [eapply continues_mono; [exact Hs|exact He]|]. intros a Ha. exists c. split; [done|].
    eapply ancestor_parent; [exact Hx|]. rewrite Ha. simpl. by left.
  - destruct (Hw p m _ Hp) as (r0 & Hr0 & He). assert (r0 = r) as -> by congruence. simpl in He.
    apply update_ref_spec in Hh as (-> & Hcur & _).
    assert (grown w (mkWorld (objects w) (<[m:=mkRefs (Some c) (upstream r)]> (machines w)) (<[p:=(m, Idle)]> (processes w)) (branch w))) as Hg.
    { split_and!; [done|apply (machines_grown _ _ m r); [done|simpl; by rewrite Hcur]|apply continues_refl]. }
    split; [done|]. by eapply grown_ok; [exact Hok|exact Hg|done|done|simpl; by rewrite lookup_insert_eq|].
  - destruct (candidate_spec _ _ _ _ _ _ _ Hn Hh Hc) as (Hs & Hn' & He1 & _ & _ & Hcb & _).
    assert (grown w (mkWorld objs (machines w) (<[p:=(m, Planned c)]> (processes w)) (branch w))) as Hg.
    { split_and!; [done|apply machines_same|apply continues_refl]. }
    split; [done|]. eapply grown_ok; [exact Hok|exact Hg|done|done|exact Hm|]. simpl.
    intros a Ha. exists (commit c). split; [done|]. by apply Hcb.
  - destruct (Hw p m _ Hp) as (r0 & Hr0 & He). assert (r0 = r) as -> by congruence. simpl in He.
    assert (grown w (mkWorld (objects w) (machines w) (<[p:=(m, Checked c)]> (processes w)) (branch w))) as Hg.
    { split_and!; [done|apply machines_same|apply continues_refl]. }
    split; [done|]. by eapply grown_ok; [exact Hok|exact Hg|done|done|exact Hm|].
  - destruct (Hw p m _ Hp) as (r0 & Hr0 & He). assert (r0 = r) as -> by congruence. simpl in He.
    apply adopt_swap_spec in Hc as [-> Hcur].
    assert (grown w (mkWorld (objects w) (<[m:=mkRefs (Some (commit c)) (upstream r)]> (machines w)) (<[p:=(m, Idle)]> (processes w)) (branch w))) as Hg.
    { split_and!; [done|apply (machines_grown _ _ m r); [done|simpl; by rewrite Hcur]|apply continues_refl]. }
    split; [done|]. by eapply grown_ok; [exact Hok|exact Hg|done|done|simpl; by rewrite lookup_insert_eq|].
  - destruct (Hw p m _ Hp) as (r0 & Hr0 & _).
    assert (grown w (mkWorld (objects w) (machines w) (<[p:=(m, Idle)]> (processes w)) (branch w))) as Hg.
    { split_and!; [done|apply machines_same|apply continues_refl]. }
    split; [done|]. by eapply grown_ok; [exact Hok|exact Hg|done|done|exact Hr0|].
  - assert (history (fetch (branch w) r).2 = history r) as Hh by (by destruct (branch w)).
    assert (grown w (mkWorld (objects w) (<[m:=(fetch (branch w) r).2]> (machines w)) (processes w) (branch w))) as Hg.
    { split_and!; [done|apply (machines_grown _ _ m r); [done|rewrite Hh; apply continues_refl]|apply continues_refl]. }
    split; [done|]. split; [done|]. intros q n t Hq. destruct (Hw q n t Hq) as (r0 & Hr0 & Ht).
    destruct (proj1 (proj2 Hg) n r0 Hr0) as (r1 & Hr1 & Hc). exists r1. split; [done|by eapply process_mono].
  - split; [|done]. split_and!; [done|apply machines_same|]. intros a Ha. exists c. split; [done|by apply Hb].
Qed.

(** C4. Nothing saved is lost, however processes and machines interleave: from a state in which every process
    holds what it read of its machine, after any number of steps of saving checkpoints, planning, checking
    and adopting synchronizations, failing, fetching and pushing, in any order, every commit that was on a
    machine's branch or on the origin's still is on it. *)
Theorem nothing_saved_is_lost (w w' : World) : world_ok w -> rtc step w w' -> grown w w' /\ world_ok w'.
Proof.
  intros Hok Hsteps. induction Hsteps as [w|w w1 w' H1 _ IH].
  - split; [|done]. split_and!; [done|apply machines_same|apply continues_refl].
  - destruct (step_sound _ _ Hok H1) as [(Hs & Hm & Hb) Hok1]. destruct (IH Hok1) as [(Hs' & Hm' & Hb') Hok'].
    split; [|done]. split_and!; [by etrans| |].
    + intros m r Hr. destruct (Hm m r Hr) as (r1 & Hr1 & H). destruct (Hm' m r1 Hr1) as (r2 & Hr2 & H').
      exists r2. split; [done|]. eapply continues_trans; [by eapply continues_mono|done].
    + eapply continues_trans; [by eapply continues_mono|done].
Qed.

End Facts.

(** ** A Git to try it on *)

(** Names are the contents themselves, padded; bases are looked for one commit back. *)
Definition sample_hash (c : Commit) : oid :=
  N.pos (encode (c.(c_tree) :: c.(c_stamp) :: c.(c_parents))) :: replicate 39 0%N.

Definition sample_near (objs : Objects) (a : oid) : list oid :=
  a :: match objs !! a with Some c => c.(c_parents) | None => [] end.

Definition sample_bases (objs : Objects) (a b : oid) : list oid :=
  take 1 (List.filter (fun x => bool_decide (x ∈ sample_near objs b)) (sample_near objs a)).

Definition sample_git : Git := {| hash := sample_hash; merge_bases := sample_bases |}.

Lemma sample_near_ancestor objs a x : x ∈ sample_near objs a -> ancestor objs x a.
Proof.
  unfold sample_near. rewrite elem_of_cons. intros [->|H]; [apply ancestor_refl|].
  destruct (objs !! a) as [c|] eqn:E; [|by apply elem_of_nil in H]. apply rtc_once. by exists c.
Qed.

Lemma sample_git_laws : GitLaws sample_git.
Proof.
  split.
  - intros [t ps s] [t' ps' s']. cbn. unfold sample_hash. cbn. intros [= H]. apply (inj encode) in H. congruence.
  - intros c. left. by cbn.
  - intros objs a b x H. change (x ∈ sample_bases objs a b) in H. unfold sample_bases in H. apply elem_of_take in H as (i & H%list_elem_of_lookup_2 & _).
    apply list_elem_of_In in H. rewrite (filter_In (fun x => bool_decide (x ∈ sample_near objs b))) in H.
    destruct H as [Ha%list_elem_of_In Hb%bool_decide_eq_true].
    split; by apply sample_near_ancestor.
Qed.

Definition sample_root : Commit := mkCommit [1%N] [] [].
Definition sample_ours : Commit := mkCommit [2%N] [sample_hash sample_root] [].
Definition sample_theirs : Commit := mkCommit [3%N] [sample_hash sample_root] [].
Definition sample_merge : Commit := mkCommit [2%N] [sample_hash sample_ours; sample_hash sample_theirs] [9%N].

Definition sample_store (l : list Commit) : Objects := foldr (fun c m => <[sample_hash c := c]> m) ∅ l.

Lemma sample_store_named l : named_by_contents (G := sample_git) (sample_store l).
Proof.
  induction l as [|c l IH]; intros x k; cbn; [by rewrite lookup_empty|].
  destruct (decide (sample_hash c = x)) as [<-|Hne]; [rewrite lookup_insert_eq|rewrite lookup_insert_ne by done; apply IH].
  by intros [= ->].
Qed.

Definition sample_publish :=
  build (G := sample_git) (Manifest := unit) [7%N] (fun _ _ _ => Ok ([2%N], [])) (fun _ _ => Ok None) (fun _ _ _ => Ok tt)
    (fun _ t => Ok t) (fun t _ _ => Ok t) (fun _ _ _ => Ok tt)
    (sample_store [sample_theirs; sample_ours; sample_root])
    (mkRefs (Some (sample_hash sample_ours)) (Some (sample_hash sample_theirs)))
    (Some (sample_hash sample_theirs)) (Some (sample_hash sample_ours)) ∅ false [9%N].

(** Two machines went on from one commit; the one publishes a merge of its own tree. *)
Lemma publish_same_files_example :
  exists objs' r', sample_publish = Ok (Some (sample_hash sample_merge), objs', r') /\
    r' = mkRefs (Some (sample_hash sample_merge)) (Some (sample_hash sample_theirs)).
Proof.
  assert (match sample_publish with Ok (c, _, _) => bool_decide (c = Some (sample_hash sample_merge)) | _ => false end = true) as H
    by (vm_compute; reflexivity).
  destruct sample_publish as [[[c objs'] r']|e|] eqn:E; [|done..]. apply bool_decide_eq_true in H. subst c.
  exists objs', r'. split; [done|]. unfold sample_publish in E.
  by destruct (publish_same_files (HL := sample_git_laws) _ _ _ _ _ _ _ _ _ _ _ _ _ _ _ _ _ (sample_store_named _) E)
    as (_ & _ & _ & -> & _).
Defined.

(** A machine saves a checkpoint and pushes it, while another process of it has read the branch before and
    fails. *)
Definition sample_before : World :=
  mkWorld (sample_store [sample_root]) {[0%nat := mkRefs (Some (sample_hash sample_root)) None]}
    {[0%nat := (0%nat, Idle); 1%nat := (0%nat, Idle)]} (Some (sample_hash sample_root)).

Lemma sample_before_ok : world_ok (G := sample_git) sample_before.
Proof.
  split; [apply sample_store_named|]. intros p m s. cbn -[sample_store sample_hash].
  destruct (decide (p = 0%nat)) as [->|H0]; [|destruct (decide (p = 1%nat)) as [->|H1]].
  - intros [= <- <-]. by eexists.
  - intros [= <- <-]. by eexists.
  - by rewrite lookup_insert_ne, lookup_singleton_ne by done.
Qed.

Lemma sample_checkpoint :
  write_checkpoint_commit (G := sample_git) (sample_store [sample_root]) (Some (sample_hash sample_root)) [] (Some [2%N]) [] =
  Ok (sample_hash sample_ours, sample_store [sample_ours; sample_root]).
Proof.
  unfold write_checkpoint_commit, commit_tree. cbn [rbind option_list]. rewrite bool_decide_eq_true_2; [done|].
  constructor; [|done]. apply elem_of_dom. exists sample_root. cbn [sample_store foldr]. by rewrite lookup_insert_eq.
Qed.

Lemma nothing_saved_is_lost_witness :
  exists w', rtc (step (G := sample_git)) sample_before w' /\
    w'.(machines) !! 0%nat = Some (mkRefs (Some (sample_hash sample_ours)) None) /\
    w'.(branch) = Some (sample_hash sample_ours) /\
    ancestor w'.(objects) (sample_hash sample_root) (sample_hash sample_ours).
Proof.
  assert (exists w', rtc (step (G := sample_git)) sample_before w' /\
    w'.(machines) !! 0%nat = Some (mkRefs (Some (sample_hash sample_ours)) None) /\
    w'.(branch) = Some (sample_hash sample_ours)) as (w' & Hrun & Hm & Hb).
  { eexists. split_and!.
    - eapply rtc_l; [eapply (step_save_read _ 0%nat); reflexivity|].
      eapply rtc_l; [eapply (step_save_read _ 1%nat); reflexivity|].
      eapply rtc_l; [eapply (step_save_write _ 0%nat); [reflexivity..|exact sample_checkpoint]|].
      eapply rtc_l; [eapply (step_save_advance _ 0%nat); [reflexivity..|]|].
      { unfold update_history_head, update_ref. cbn [objects sample_store foldr sample_before sample_hash]. rewrite lookup_insert_eq.
        by rewrite bool_decide_eq_true_2. }
      eapply rtc_l; [eapply (step_fail _ 1%nat); reflexivity|].
      eapply rtc_l; [|apply rtc_refl]. apply (step_push _ (sample_hash sample_ours)).
      + cbn [objects sample_store foldr]. by rewrite lookup_insert_eq.
      + cbn [objects sample_store foldr branch sample_before]. intros b [= <-]. apply rtc_once. exists sample_ours.
        rewrite lookup_insert_eq. split; [done|]. by left.
    - reflexivity.
    - reflexivity. }
  exists w'. split_and!; [done..|].
  destruct (nothing_saved_is_lost (HL := sample_git_laws) _ _ sample_before_ok Hrun) as [(_ & _ & Hgrown) _].
  destruct (Hgrown (sample_hash sample_root) eq_refl) as (b & Hb' & Ha). congruence.
Defined.
