(* ===== verification/Selection.v ===== *)
(** * Which saved files are a machine's own, and where they lie
    ([crates/mise-system/src/history/select.rs], [sync/layout.rs], the owners of [tracked.rs])

    A setup is shared by machines of other systems: a file has variants, each in a stream of its own, and
    a path of the shared tree is portable ([home/...], [config/...]). What machine this is (its system, its
    name, its directories) is an argument. *)

From S2P Require Import Prelude RustStr Order PathEnv Paths.
From S2P Require Platforms.

(** ** Systems ([crates/mise-util/src/platform.rs]) *)

Definition os_selector_matches_target (entry target_os target_arch : str) : bool :=
  let '(os, arch) := match split_once c!"/" entry with Some (os, arch) => (os, Some arch) | None => (entry, None) end in
  let os := Platforms.normalize_os os in
  let family := if bool_decide (target_os = u!"windows") then u!"windows" else u!"unix" in
  (bool_decide (os = target_os) || bool_decide (os = family))
  && match arch with Some arch => bool_decide (Platforms.normalize_arch arch = target_arch) | None => true end.

Definition is_os_family_selector (entry : str) : bool :=
  match split_on (N.eqb c!"/") entry with first :: _ => bool_decide (first = u!"unix") | [] => false end.

(** ** Variants ([select.rs]) *)

Inductive SetupError : Type :=
| UnsupportedFormat (format : N)
| InvalidPath (path : str)
| MachineNotAlone
| TwoDefaults
| EncryptedMachine (path : str)
| InvalidPattern (pattern path : str)
| InvalidVariant (path : str)
| InvalidPermission (path : str)
| AmbiguousVariants (path : str)
| EnrollmentConflict (field : str)
| NoMachineName
| NotPortable (path : str)
| FileAndDirectory (path ancestor : str).

Record Variant := mkVariant { v_os : list str; v_profile : option str; v_default : bool; v_machine : bool }.

#[export] Instance Variant_eq_dec : EqDecision Variant.
Proof. solve_decision. Defined.

Definition MACHINE_STREAM_PREFIX : str := u!"machine-".

(** [store::is_valid_machine_name] *)
Definition is_valid_machine_name (name : str) : bool :=
  (1 <=? len name) && (len name <=? 63)
  && match name with c :: _ => is_ascii_alphanumeric c | [] => false end
  && forallb (fun c => is_ascii_alphanumeric c || one_of u!".-_" c) name.

Definition selector_name (v : Variant) : str :=
  let name := join u!"-" (map (replace_char c!"/" c!"-") v.(v_os)) in
  let name := match v.(v_profile) with
              | Some profile => match name with [] => profile | _ => name ++ u!"+" ++ profile end
              | None => name
              end in
  match name with [] => u!"default" | _ => name end.

(** [Variant::declares_stream] *)
Definition declares_stream (v : Variant) (stream : str) : bool :=
  if v.(v_machine) then
    match strip_prefix MACHINE_STREAM_PREFIX stream with Some name => is_valid_machine_name name | None => false end
  else bool_decide (selector_name v = stream).

Inductive Selection : Type :=
| Single
| Selection_Variant (v : Variant)
| NoMatch
| Ambiguous (winners : list Variant).

(** [select::validate] *)
Fixpoint one_default (default_seen : bool) (variants : list Variant) : result SetupError unit :=
  match variants with
  | [] => Ok tt
  | v :: rest =>
      if v.(v_default) then
        if default_seen || negb (bool_decide (v.(v_os) = [])) || bool_decide (is_Some v.(v_profile)) then Err TwoDefaults
        else one_default true rest
      else one_default default_seen rest
  end.

Definition validate_variants (variants : list Variant) : result SetupError unit :=
  if existsb v_machine variants
     && negb match variants with
             | [only] => bool_decide (only.(v_os) = []) && bool_decide (only.(v_profile) = None) && negb only.(v_default)
             | _ => false
             end
  then Err MachineNotAlone
  else one_default false variants.

Section Machine.

(** This machine: the normalized names of its system, its name (which may be unreadable) and the
    environments that are active on it. *)
Context (OS ARCH : str) (machine_name : result SetupError str) (environments : list str).

Definition os_selector_matches (entry : str) : bool := os_selector_matches_target entry OS ARCH.

(** [Variant::name] *)
Definition variant_name (v : Variant) : result SetupError str :=
  if v.(v_machine) then rmap (fun name => MACHINE_STREAM_PREFIX ++ name) machine_name
  else Ok (selector_name v).

(** [Variant::matches] *)
Definition variant_matches (v : Variant) : bool :=
  (bool_decide (v.(v_os) = []) || existsb os_selector_matches v.(v_os))
  && match v.(v_profile) with
     | Some profile => existsb (fun env => bool_decide (env = profile)) environments
     | None => true
     end.

Definition os_specificity (entry : str) : nat :=
  (if is_os_family_selector entry then 1 else 2) + (if contains_char c!"/" entry then 2 else 0).

(** At most 8, so [u8] does not matter. *)
Definition specificity (v : Variant) : nat :=
  (if bool_decide (is_Some v.(v_profile)) then 4 else 0)
  + max_list (map os_specificity (List.filter os_selector_matches v.(v_os))).

Definition select (variants : list Variant) : Selection :=
  match variants with
  | [] => Single
  | _ =>
      let matching := List.filter (fun v => negb v.(v_default) && variant_matches v) variants in
      match matching with
      | [] => match List.find v_default variants with Some fallback => Selection_Variant fallback | None => NoMatch end
      | _ =>
          let best := max_list (map specificity matching) in
          match List.filter (fun v => specificity v =? best) matching with
          | [one] => Selection_Variant one
          | many => Ambiguous many
          end
      end
  end.

End Machine.

(** ** Portable paths ([sync/layout.rs]) *)

(** [eq_ignore_ascii_case(".git")] and the other components no machine may write. *)
Definition is_safe_component (component : str) : bool :=
  negb (bool_decide (component ∈ [[]; u!"."; u!".."]))
  && negb (eq_ignore_ascii_case component u!".git")
  && negb (existsb (one_of u!"\:") component)
  && negb (existsb is_control component).

Definition is_safe_branch_path (path : str) : bool :=
  negb (bool_decide (path = [])) && forallb is_safe_component (split_on (N.eqb c!"/") path).

Definition is_configuration (path : str) : bool :=
  bool_decide (path = u!"config") || starts_with u!"config/" path || starts_with u!"config@" path.

(** A portable path as its root with its variant and the rest: [home@linux/.zshrc] is [home], [linux] and
    [.zshrc]. *)
Definition stem_of (path : str) : str * str :=
  match split_once c!"/" path with Some parts => parts | None => (path, []) end.

Definition root_variant (stem : str) : str * option str :=
  match split_once c!"@" stem with Some (root, variant) => (root, Some variant) | None => (stem, None) end.

Record Roots := mkRoots { home : str; config_dir : str }.

Inductive Located : Type :=
| Located_Config (path : str)
| Located_Tracked (path : str) (variant : option str)
| Marker
| Unmapped.

Definition located_path (l : Located) : option str :=
  match l with Located_Config path | Located_Tracked path _ => Some path | Marker | Unmapped => None end.

Definition branch_stem (root : str) (variant : option str) : str :=
  match variant with Some variant => root ++ u!"@" ++ variant | None => root end.

Definition branch_path (roots : Roots) (local : str) (variant : option str) : option str :=
  if match variant with
     | Some name => contains_char c!"@" name || negb (is_safe_branch_path name) || contains_char c!"/" name
     | None => false
     end
  then None
  else
    let found := match path_strip_prefix roots.(config_dir) local with
                 | Some relative => Some (u!"config", relative)
                 | None => (fun relative => (u!"home", relative)) <$> path_strip_prefix roots.(home) local
                 end in
    match found with
    | None => None
    | Some (root, relative) =>
        let stem := branch_stem root variant in
        let path := match relative with [] => stem | _ => stem ++ u!"/" ++ join u!"/" relative end in
        if is_safe_branch_path path then Some path else None
    end.

Definition root_of (roots : Roots) (local : str) : option str :=
  if bool_decide (is_Some (path_strip_prefix roots.(config_dir) local)) then Some roots.(config_dir)
  else if bool_decide (is_Some (path_strip_prefix roots.(home) local)) then Some roots.(home) else None.

Definition locate (roots : Roots) (path : str) : Located :=
  if negb (is_safe_branch_path path) then Unmapped
  else if starts_with u!".mise-history/" path then Marker
  else
    let '(stem, relative) := stem_of path in
    let '(root, variant) := root_variant stem in
    if match variant with Some variant => bool_decide (variant = []) || contains_char c!"@" variant | None => false end
    then Unmapped
    else
      let base := if bool_decide (root = u!"home") then Some roots.(home)
                  else if bool_decide (root = u!"config") then Some roots.(config_dir) else None in
      match base with
      | None => Unmapped
      | Some base =>
          if bool_decide (root = u!"config") && bool_decide (variant = None) then Located_Config (path_join base relative)
          else Located_Tracked (path_join base relative) variant
      end.

(** ** Entries and the paths they own ([tracked.rs]) *)

(** Of the policy what the manifest sets; the rest is that of a tracked file. *)
Record TrackedEntry := mkTrackedEntry {
  e_path : str;
  e_variant : option str;
  e_autosave : bool;
  e_encrypt : bool;
  e_allow_plaintext : bool;
  e_exclude : option (list str);
  e_include : option (list str)
}.

(** [Path::components().count()] *)
Definition component_count (path : str) : nat :=
  let '(absolute, rest) := components path in (if absolute : bool then 1 else 0) + length rest.

(** [Iterator::max_by_key] over lengths. *)
Definition longest {A} (key : A -> nat) (l : list A) : option A := max_by (fun a b => Nat.compare (key a) (key b)) None l.

Definition owning_entry_index (entries : list TrackedEntry) (path : str) : option nat :=
  fst <$> longest (fun ie => component_count ie.2.(e_path))
            (List.filter (fun ie => path_starts_with path ie.2.(e_path)) (imap (fun i e => (i, e)) entries)).

Definition owning_entry (entries : list TrackedEntry) (path : str) : option TrackedEntry :=
  owning_entry_index entries path ≫= fun i => entries !! i.

Definition tree_path (roots : Roots) (e : TrackedEntry) (path : str) : result SetupError str :=
  match branch_path roots path e.(e_variant) with Some p => Ok p | None => Err (NotPortable path) end.

(** An entry below the path, which makes the path a directory that all machines share. *)
Definition contains_entries (entries : list TrackedEntry) (path : str) : bool :=
  existsb (fun e => path_starts_with e.(e_path) path && negb (path_eqb e.(e_path) path)) entries.

Definition governing_key (roots : Roots) (entries : list TrackedEntry) (path : str) : option str :=
  match owning_entry entries path with
  | Some e => branch_path roots path e.(e_variant)
  | None => if contains_entries entries path then branch_path roots path None else None
  end.

Definition mode_from (roots : Roots) (entries : list TrackedEntry) (permissions : gmap str N) (path : str) : option N :=
  (fun key => match permissions !! key with Some bits => bits | None => 493%N end) <$> governing_key roots entries path.
