(* ===== verification/SelectionSpec.v ===== *)
(** * What the selection of variants and the portable paths promise

    The variant a machine uses is the most specific one that matches it; portable paths never leave the
    directories of the setup and name the place they were made from. *)

From S2P Require Import Prelude RustStr Order PathEnv Paths Selection.

(** ** Selection *)

Section Machine.

Context (OS ARCH : str) (environments : list str).

(** The variant is for this machine, the fallback apart. *)
Definition candidate (v : Variant) : bool := negb v.(v_default) && variant_matches OS ARCH environments v.

Definition rank (v : Variant) : nat := specificity OS ARCH v.

Lemma rank_bound v : rank v <= 8.
Proof.
  unfold rank, specificity. assert (max_list (map os_specificity (List.filter (os_selector_matches OS ARCH) (v_os v))) <= 4) as H.
  { induction (List.filter _ _) as [|e l IH]; simpl; [lia|]. unfold os_specificity at 1. destruct (is_os_family_selector e), (contains_char _ e); lia. }
  case_bool_decide; lia.
Qed.

Definition winners (variants : list Variant) : list Variant :=
  let matching := List.filter candidate variants in
  List.filter (fun v => rank v =? max_list (map rank matching)) matching.

Lemma elem_of_winners variants v :
  v ∈ winners variants <->
  v ∈ variants /\ candidate v = true /\ forall u, u ∈ variants -> candidate u = true -> rank u <= rank v.
Proof.
  unfold winners. rewrite !elem_of_filter_bool, Nat.eqb_eq. split.
  - intros [[Hv Hc] E]. split_and!; [done..|]. intros u Hu Hcu. rewrite E. apply max_list_elem, list_elem_of_fmap.
    exists u. split; [done|]. by apply elem_of_filter_bool.
  - intros (Hv & Hc & Hmax). split; [done|]. apply Nat.le_antisymm.
    + apply max_list_elem, list_elem_of_fmap. exists v. split; [done|]. by apply elem_of_filter_bool.
    + assert (max_list (map rank (List.filter candidate variants)) ∈ map rank (List.filter candidate variants)) as H.
      { apply max_list_in. intros E%map_eq_nil. assert (v ∈ List.filter candidate variants) as H by (by apply elem_of_filter_bool).
        rewrite E in H. by apply elem_of_nil in H. }
      apply list_elem_of_fmap in H as (u & -> & [Hu Hcu]%elem_of_filter_bool). by apply Hmax.
Qed.

Lemma filter_sublist_of {A} (f : A -> bool) l : sublist (List.filter f l) l.
Proof. induction l as [|x l IH]; simpl; [done|]. destruct (f x); by constructor. Qed.

Lemma filter_filter {A} (f g : A -> bool) l : List.filter f (List.filter g l) = List.filter (fun x => g x && f x) l.
Proof. induction l as [|x l IH]; simpl; [done|]. destruct (g x); simpl; by rewrite IH. Qed.

Lemma select_winners variants :
  select OS ARCH environments variants =
  match variants with
  | [] => Single
  | _ => match List.filter candidate variants with
         | [] => match List.find v_default variants with Some v => Selection_Variant v | None => NoMatch end
         | _ => match winners variants with [one] => Selection_Variant one | many => Ambiguous many end
         end
  end.
Proof. reflexivity. Qed.

(** The most specific variant wins, and only a clear one: [select] gives a variant exactly if it is one of
    the entry's and either matches this machine and every other one that does is less specific, or no
    variant matches and it is the first fallback. It reports the matching variants of the highest
    specificity exactly if there are two or more, nothing exactly if none matches and there is no fallback, and
    one stream for all exactly if there are no variants. Specificities are at most 8. *)
Theorem most_specific_variant (variants : list Variant) :
  match select OS ARCH environments variants with
  | Single => variants = []
  | Selection_Variant v =>
      (exists l1 l2, variants = l1 ++ v :: l2 /\ candidate v = true /\
         forall u, u ∈ l1 ++ l2 -> candidate u = true -> rank u < rank v) \/
      ((forall u, u ∈ variants -> candidate u = false) /\
       exists l1 l2, variants = l1 ++ v :: l2 /\ v.(v_default) = true /\ forall u, u ∈ l1 -> u.(v_default) = false)
  | NoMatch => variants <> [] /\ forall u, u ∈ variants -> candidate u = false /\ u.(v_default) = false
  | Ambiguous winners =>
      2 <= length winners /\ sublist winners variants /\
      forall v, v ∈ winners <-> v ∈ variants /\ candidate v = true /\
                                forall u, u ∈ variants -> candidate u = true -> rank u <= rank v
  end /\
  forall v, v ∈ variants -> rank v <= 8.
Proof.
  split; [|intros v _; apply rank_bound]. rewrite select_winners. destruct variants as [|v0 vs]; [done|].
  set (variants := v0 :: vs) in *. assert (variants <> []) as Hne by done. clearbody variants. destruct (List.filter candidate variants) as [|m ms] eqn:Em.
  - assert (forall u, u ∈ variants -> candidate u = false) as Hnone.
    { intros u Hu. destruct (candidate u) eqn:Ec; [|done]. assert (u ∈ List.filter candidate variants) as H by (by apply elem_of_filter_bool).
      rewrite Em in H. by apply elem_of_nil in H. }
    destruct (List.find v_default variants) as [v|] eqn:Ef.
    + right. apply find_split in Ef. naive_solver.
    + split; [done|]. intros u Hu. split; [by apply Hnone|]. eapply List.find_none in Ef; [exact Ef|]. by apply list_elem_of_In.
  - destruct (winners variants) as [|w [|w' ws]] eqn:Ew.
    + assert (max_list (map rank (m :: ms)) ∈ map rank (m :: ms)) as H by (by apply max_list_in).
      apply list_elem_of_fmap in H as (u & Eu & Hu). assert (u ∈ winners variants) as H.
      { unfold winners. rewrite Em. apply elem_of_filter_bool. split; [done|]. apply Nat.eqb_eq. by rewrite Eu. }
      rewrite Ew in H. by apply elem_of_nil in H.
    + left. assert (w ∈ winners variants) as (_ & Hc & Hmax)%elem_of_winners by (rewrite Ew; by left).
      unfold winners in Ew. rewrite filter_filter in Ew. apply filter_one in Ew as (l1 & l2 & -> & Hw & Hothers).
      exists l1, l2. split_and!; [done..|]. intros u Hu Hcu. specialize (Hothers u Hu). rewrite Hcu in Hothers. simpl in Hothers.
      apply andb_true_iff in Hw as [_ Hw]. bool_prop. assert (rank u <= rank w) by (apply Hmax; [set_solver|done]). lia.
    + split_and!; [simpl; lia| |intros v; rewrite <- Ew; apply elem_of_winners].
      rewrite <- Ew. unfold winners. etrans; apply filter_sublist_of.
Qed.

End Machine.

(** ** Portable paths *)

(** A name that is safe to write below a directory. *)
Definition plain_name (name : str) : Prop :=
  name <> [] /\ name <> u!"." /\ name <> u!".." /\ eq_ignore_ascii_case name u!".git" = false /\
  forall c, c ∈ name -> c <> slash /\ is_control c = false.

Lemma safe_names path :
  is_safe_branch_path path = true -> path <> [] /\ Forall (fun n => is_safe_component n = true) (split_on (N.eqb slash) path).
Proof.
  unfold is_safe_branch_path. intros [H1 H2]%andb_true_iff. bool_prop. split; [done|].
  apply Forall_forall. intros n Hn. rewrite forallb_forall in H2. apply H2. by apply list_elem_of_In.
Qed.

Lemma safe_plain n : is_safe_component n = true -> slash ∉ n -> plain_name n.
Proof.
  unfold is_safe_component, plain_name. intros H Hs. bool_prop. split_and!; [set_solver..|done|].
  intros c Hc. split; [congruence|].
  destruct (is_control c) eqn:Ec; [|done]. assert (existsb is_control n = true); [|congruence].
  apply existsb_exists. exists c. split; [by apply list_elem_of_In|done].
Qed.

Lemma names_safe path : Forall (fun n => is_safe_component n = true) (split_on (N.eqb slash) path) -> names path = split_on (N.eqb slash) path.
Proof.
  intros H. unfold names. rewrite (filter_all _ (split_on _ _)), filter_all; [done|..];
    (eapply Forall_impl; [exact H|]); intros n Hn; unfold is_safe_component in Hn; bool_prop.
  - by rewrite bool_decide_eq_false_2 by set_solver.
  - destruct n; [set_solver|done].
Qed.

Lemma stem_of_spec path stem rel :
  stem_of path = (stem, rel) -> (slash ∉ stem) /\ ((path = stem /\ rel = []) \/ path = (stem ++ slash :: rel)).
Proof.
  unfold stem_of. destruct (split_once _ path) as [[a b]|] eqn:E.
  - intros [= <- <-]. apply split_once_Some in E as [-> Ha]. split; [done|by right].
  - intros [= <- <-]. split; [|by left]. intros H. apply list_elem_of_split in H as (a & b & ->).
    revert E. induction a as [|x a IH]; [done|]. cbn [app split_once]. destruct (_ =? _)%N; [done|].
    destruct (split_once c!"/" (a ++ slash :: b)) as [[? ?]|]; [done|]. intros _. by apply IH.
Qed.

Lemma stem_of_app stem rel : slash ∉ stem -> stem_of (stem ++ slash :: rel) = (stem, rel).
Proof. intros H. unfold stem_of. change c!"/" with slash. by rewrite split_once_app. Qed.

Lemma stem_of_alone stem : slash ∉ stem -> stem_of stem = (stem, []).
Proof.
  intros H. destruct (stem_of stem) as [s rel] eqn:E. apply stem_of_spec in E as [Hs [[-> ->]| ->]]; [done|].
  exfalso. apply H. set_solver.
Qed.

(** The pieces of a safe path: its stem and the names below its root. *)
Lemma safe_relative path stem rel :
  is_safe_branch_path path = true -> stem_of path = (stem, rel) ->
  head rel <> Some slash /\ Forall plain_name (names rel).
Proof.
  intros [_ H]%safe_names E. apply stem_of_spec in E as [Hs [[-> ->]| ->]]; [split; [done|constructor]|].
  rewrite split_on_head in H by done. apply Forall_cons in H as [_ H]. split.
  - destruct rel as [|c rel]; [done|]. intros [= ->]. simpl in H. by apply Forall_cons in H as [? _].
  - rewrite names_safe by done. pose proof (split_on_pieces slash rel) as Hp. rewrite Forall_forall in *.
    intros n Hn. apply safe_plain; [by apply H|by apply Hp].
Qed.

Section Places.

Context (roots : Roots) (Hhome : is_absolute roots.(home) = true) (Hconfig : is_absolute roots.(config_dir) = true).

Lemma locate_join path p :
  located_path (locate roots path) = Some p ->
  is_safe_branch_path path = true /\
  exists base, (base = roots.(home) \/ base = roots.(config_dir)) /\ p = path_join base (stem_of path).2.
Proof.
  unfold locate. destruct (is_safe_branch_path path); [|done]. cbn [negb]. destruct (starts_with _ path); [done|].
  destruct (stem_of path) as [stem rel]. destruct (root_variant stem) as [root variant].
  destruct (match variant with Some _ => _ | None => _ end); [done|].
  destruct (bool_decide (root = u!"home")); [|destruct (bool_decide (root = u!"config")); [|done]];
    destruct (_ && _); cbn; intros [= <-]; split; eauto.
Qed.

Lemma names_join rel :
  Forall (fun n => n <> [] /\ slash ∉ n) rel -> Forall (fun n => is_safe_component n = true) rel ->
  head (join u!"/" rel) <> Some slash /\ names (join u!"/" rel) = rel.
Proof.
  intros Hp Hs. destruct rel as [|n rel]; [done|].
  assert (split_on (N.eqb slash) (join u!"/" (n :: rel)) = n :: rel) as E.
  { apply split_on_join; [done|]. eapply Forall_impl; [exact Hp|]. by intros ? []. }
  split; [|rewrite names_safe; by rewrite E]. apply Forall_cons in Hp as [[Hne Hn] _]. destruct n as [|c n]; [done|].
  destruct rel; simpl; intros [= ->]; set_solver.
Qed.

Lemma root_variant_stem root variant :
  c!"@" ∉ root -> match variant with Some v => contains_char c!"@" v = false | None => True end ->
  root_variant (branch_stem root variant) = (root, variant).
Proof.
  intros Hr Hv. unfold root_variant, branch_stem. destruct variant as [v|]; [cbn [app]; by rewrite split_once_app|].
  destruct (split_once _ root) as [[a b]|] eqn:E; [|done]. apply split_once_Some in E as [-> _]. set_solver.
Qed.

(** What [branch_path] makes of a path below one of the directories. *)
Lemma locate_branch root base local variant relative :
  (root = u!"config" /\ base = roots.(config_dir)) \/ (root = u!"home" /\ base = roots.(home)) ->
  path_strip_prefix base local = Some relative ->
  match variant with Some v => v <> [] /\ contains_char c!"@" v = false /\ slash ∉ v | None => True end ->
  let path := match relative with [] => branch_stem root variant | _ => branch_stem root variant ++ u!"/" ++ join u!"/" relative end in
  is_safe_branch_path path = true ->
  let p := path_join base (join u!"/" relative) in
  path_equiv p local /\
  locate roots path = if bool_decide (root = u!"config") && bool_decide (variant = None) then Located_Config p
                      else Located_Tracked p variant.
Proof.
  intros Hroot Hlocal Hv path Hsafe p.
  assert (is_absolute base = true) as Hbase by (destruct Hroot as [[_ ->]|[_ ->]]; done).
  apply path_strip_prefix_Some in Hlocal as Hc; [|done].
  assert (names local = names base ++ relative) as Hnames.
  { assert (is_absolute local = true) as Ha by (unfold is_absolute; by rewrite Hc). rewrite components_absolute in Hc by done. congruence. }
  assert (Forall (fun n => n <> [] /\ slash ∉ n) relative) as Hrel.
  { pose proof (names_pieces local) as H. rewrite Hnames in H. by apply Forall_app in H as [_ H]. }
  assert (slash ∉ branch_stem root variant) as Hstem.
  { unfold branch_stem. destruct Hroot as [[-> _]|[-> _]], variant as [v|]; set_solver. }
  assert (stem_of path = (branch_stem root variant, join u!"/" relative)) as Estem.
  { subst path. destruct relative as [|n rel]; [by apply stem_of_alone|]. by apply (stem_of_app (branch_stem root variant)). }
  assert (head (join u!"/" relative) <> Some slash /\ names (join u!"/" relative) = relative) as [Hh Hn].
  { apply names_join; [done|]. apply safe_names in Hsafe as [_ H]. subst path. destruct relative as [|n rel]; [constructor|].
    change (branch_stem root variant ++ u!"/" ++ join u!"/" (n :: rel)) with (branch_stem root variant ++ slash :: join [slash] (n :: rel)) in H.
    rewrite split_on_head, split_on_join in H; [by apply Forall_cons in H as [_ H]|done| |done].
    eapply Forall_impl; [exact Hrel|]. by intros ? []. }
  split; [unfold path_equiv, p; by rewrite join_components, Hn, Hc|].
  unfold locate. rewrite Hsafe. cbn [negb].
  assert (starts_with u!".mise-history/" path = false) as ->.
  { subst path. destruct Hroot as [[-> _]|[-> _]], variant, relative; reflexivity. }
  rewrite Estem, root_variant_stem; [|destruct Hroot as [[-> _]|[-> _]]; set_solver|destruct variant as [v|]; [by destruct Hv as (_ & ? & _)|done]].
  assert (match variant with Some v => bool_decide (v = []) || contains_char c!"@" v | None => false end = false) as ->.
  { destruct variant as [v|]; [|done]. destruct Hv as (Hne & -> & _). by rewrite bool_decide_eq_false_2. }
  destruct Hroot as [[-> ->]|[-> ->]]; cbn [bool_decide]; reflexivity.
Qed.

(** C35. Portable paths stay inside: wherever a portable path is located on this machine, be it read from a fetched
    tree or a manifest, the place lies at or below the home directory or the configuration directory, and below
    it are only names that are not empty, not [.], not [..], not [.git] in any spelling and without control characters.
    A local path that has a portable path is found again from it, in the same variant, so no two local
    paths share one. (The home and the configuration directory are absolute.) *)
Theorem portable_paths_contained :
  (forall path p, located_path (locate roots path) = Some p ->
     exists base below, (base = roots.(home) \/ base = roots.(config_dir)) /\
       path_strip_prefix base p = Some below /\ Forall plain_name below) /\
  (forall local variant path, branch_path roots local variant = Some path ->
     exists p, path_equiv p local /\
       locate roots path = match variant with
                           | None => if is_configuration path then Located_Config p else Located_Tracked p None
                           | Some _ => Located_Tracked p variant
                           end).
Proof.
  split.
  - intros path p (Hsafe & base & Hbase & ->)%locate_join. exists base, (names (stem_of path).2).
    destruct (stem_of path) as [stem rel] eqn:E. destruct (safe_relative _ _ _ Hsafe E) as [Hh Hn]. cbn [snd].
    split_and!; [done| |done]. apply strip_prefix_join; [by destruct Hbase as [-> | ->]|done].
  - intros local variant path. unfold branch_path. destruct (match variant with Some _ => _ | None => _ end) eqn:Hv; [done|].
    assert (match variant with Some v => v <> [] /\ contains_char c!"@" v = false /\ slash ∉ v | None => True end) as Hok.
    { destruct variant as [v|]; [|done]. bool_prop. split_and!; [by intros ->|done|].
      intros Hs. assert (contains_char c!"/" v = true) as Hc by
        (apply existsb_exists; exists slash; split; [by apply list_elem_of_In|apply N.eqb_refl]). congruence. }
    destruct (path_strip_prefix (config_dir roots) local) as [rel|] eqn:Ec;
      [|destruct (path_strip_prefix (home roots) local) as [rel|] eqn:Eh; [|done]]; cbn [fmap option_fmap option_map];
      (destruct (is_safe_branch_path _) eqn:Hsafe; [|done]); intros [= <-].
    + destruct (locate_branch u!"config" _ _ variant _ (or_introl (conj eq_refl eq_refl)) Ec Hok Hsafe) as [He Hl].
      eexists. split; [exact He|]. destruct variant as [v|]; [exact Hl|]. destruct rel; exact Hl.
    + destruct (locate_branch u!"home" _ _ variant _ (or_intror (conj eq_refl eq_refl)) Eh Hok Hsafe) as [He Hl].
      eexists. split; [exact He|]. destruct variant as [v|]; [exact Hl|]. destruct rel; exact Hl.
Qed.

End Places.

Definition sample_roots : Roots := mkRoots u!"/home/u" u!"/config/mise".

Lemma portable_paths_contained_witness :
  exists p, path_equiv p u!"/home/u/.zshrc" /\ locate sample_roots u!"home@macos/.zshrc" = Located_Tracked p (Some u!"macos").
Proof.
  destruct (portable_paths_contained sample_roots eq_refl eq_refl) as [_ H].
  apply (H u!"/home/u/.zshrc" (Some u!"macos")). vm_compute. reflexivity.
Defined.
