(* ===== verification/Manifest.v ===== *)
(** * The enrollment manifest of a saved setup ([crates/mise-system/src/history/manifest.rs], [held.rs],
    the composition of trees in [shadow.rs])

    The manifest lists the paths a setup saves, with the variants each has, and the permissions of their
    streams. It is merged as an inventory, its streams own the files of the tree, and a capture carries
    what other machines own. A tree is the map of its files, as [ls_tree] lists it; JSON and glob patterns
    belong to libraries. *)

From S2P Require Import Prelude RustStr PathEnv Paths Selection.

Record Enrollment := mkEnrollment {
  en_path : str;
  en_autosave : bool;
  en_encrypt : bool;
  en_allow_plaintext : option bool;
  en_variants : list Variant;
  en_exclude : option (list str);
  en_include : option (list str)
}.

#[export] Instance Enrollment_eq_dec : EqDecision Enrollment.
Proof. solve_decision. Defined.

Record Manifest := mkManifest {
  format : N;
  enrollment : list Enrollment;
  m_exclude : list str;
  recipients : list str;
  permissions : gmap str N
}.

#[export] Instance Manifest_eq_dec : EqDecision Manifest.
Proof. solve_decision. Defined.

Definition Manifest_default : Manifest := mkManifest 1 [] [] [] ∅.

Definition with_permissions (p : gmap str N) (m : Manifest) : Manifest :=
  mkManifest m.(format) m.(enrollment) m.(m_exclude) m.(recipients) p.

Definition MANIFEST_PATH : str := u!".mise-history/manifest.json".

(** Mode and object id. *)
Abbreviation Object := (str * str)%type (only parsing).
Abbreviation Tree := (gmap str (str * str)) (only parsing).

(** ** Paths *)

Definition portable_components (path : str) : nat := component_count path.

(** Inside the directory, not the directory itself. *)
Definition strictly_below (path prefix : str) : bool :=
  match strip_prefix prefix path with Some rest => starts_with u!"/" rest | None => false end.

Definition plain (path : str) : str :=
  let '(stem, relative) := stem_of path in
  let root := (root_variant stem).1 in
  match relative with [] => root | _ => root ++ u!"/" ++ relative end.

Definition owner (m : Manifest) (path : str) : option Enrollment :=
  longest (fun e => portable_components e.(en_path))
    (List.filter (fun e => bool_decide (path = e.(en_path)) || strictly_below path e.(en_path)) m.(enrollment)).

(** The stream that a portable path names is one of the enrollment's. *)
Definition has_stream (e : Enrollment) (variant : option str) : bool :=
  match variant with
  | Some name => existsb (fun v => declares_stream v name) e.(en_variants)
  | None => bool_decide (e.(en_variants) = [])
  end.

Definition enrolls_stream (m : Manifest) (path : str) : bool :=
  let variant := (root_variant (stem_of path).1).2 in
  let portable := plain path in
  existsb (fun e => has_stream e variant)
    (List.filter (fun e => bool_decide (portable = e.(en_path)) || strictly_below portable e.(en_path)) m.(enrollment)).

Definition owns_stream (m : Manifest) (path : str) : bool :=
  let '(stem, relative) := stem_of path in
  enrolls_stream m path
  || (bool_decide ((root_variant stem).2 = None) && negb (bool_decide (relative = []))
      && existsb (fun e => strictly_below e.(en_path) (plain path)) m.(enrollment)).

Definition remove_unenrolled_permissions (m : Manifest) : Manifest :=
  with_permissions (filter (fun pb => owns_stream m pb.1 = true) m.(permissions)) m.

(** [file_permissions], on Unix. *)
Definition file_permissions (m : Manifest) (path : str) (object : option Object) : option N :=
  match object with
  | Some (mode, _) =>
      let recorded (default : N) := Some (match m.(permissions) !! path with Some bits => bits | None => default end) in
      if bool_decide (mode = u!"100644") then recorded 420%N
      else if bool_decide (mode = u!"100755") then recorded 493%N else None
  | None => None
  end.

(** Every stream that is encrypted on some machine. *)
Definition encrypted_stream (path : str) (v : Variant) : str :=
  let '(root, relative) := stem_of path in
  let stem := root ++ u!"@" ++ selector_name v in
  match relative with [] => stem | _ => stem ++ u!"/" ++ relative end.

Definition encrypted_paths (m : Manifest) : gset str :=
  list_to_set (flat_map (fun e => match e.(en_variants) with
                                  | [] => [e.(en_path)]
                                  | _ => map (encrypted_stream e.(en_path)) e.(en_variants)
                                  end)
                 (List.filter en_encrypt m.(enrollment))).

(** ** Validation *)

Section Validate.

(** [glob::Pattern::new(pattern).is_ok()] *)
Context (valid_pattern : str -> bool).

Definition enrollable_path (path : str) : bool :=
  is_safe_branch_path path && (starts_with u!"home/" path || bool_decide (path = u!"config") || starts_with u!"config/" path).

Definition check_patterns (e : Enrollment) : result SetupError unit :=
  match List.find (fun pattern => negb (valid_pattern pattern))
          (default [] e.(en_exclude) ++ default [] e.(en_include)) with
  | Some pattern => Err (InvalidPattern pattern e.(en_path))
  | None => Ok tt
  end.

Fixpoint check_variant_names (path : str) (seen : list str) (variants : list Variant) : result SetupError unit :=
  match variants with
  | [] => Ok tt
  | v :: rest =>
      if v.(v_machine) then check_variant_names path seen rest
      else
        let name := selector_name v in
        if contains_char c!"@" name || negb (is_safe_branch_path name) || bool_decide (name ∈ seen)
        then Err (InvalidVariant path)
        else check_variant_names path (name :: seen) rest
  end.

Definition check_enrollment (e : Enrollment) : result SetupError unit :=
  let? _ := validate_variants e.(en_variants) in
  if e.(en_encrypt) && existsb v_machine e.(en_variants) then Err (EncryptedMachine e.(en_path))
  else
    let? _ := check_patterns e in
    check_variant_names e.(en_path) [] e.(en_variants).

Fixpoint check_enrollments (paths : list str) (es : list Enrollment) : result SetupError unit :=
  match es with
  | [] => Ok tt
  | e :: rest =>
      if negb (enrollable_path e.(en_path)) || bool_decide (e.(en_path) ∈ paths) then Err (InvalidPath e.(en_path))
      else let? _ := check_enrollment e in check_enrollments (e.(en_path) :: paths) rest
  end.

Definition permission_ok (m : Manifest) (path : str) (bits : N) : bool :=
  (bits <=? 511)%N && is_safe_branch_path path && owns_stream m path.

Definition validate (m : Manifest) : result SetupError unit :=
  if negb (m.(format) =? 1)%N then Err (UnsupportedFormat m.(format))
  else
    let? _ := check_enrollments [] m.(enrollment) in
    match List.find (fun path => match m.(permissions) !! path with
                                 | Some bits => negb (permission_ok m path bits)
                                 | None => false
                                 end) (key_order (dom m.(permissions))) with
    | Some path => Err (InvalidPermission path)
    | None => Ok tt
    end.

(** ** Merging *)

Definition choose {T} `{EqDecision T} (base local remote : T) (field : str) : result SetupError T :=
  if bool_decide (local = remote) || bool_decide (remote = base) then Ok local
  else if bool_decide (local = base) then Ok remote
  else Err (EnrollmentConflict field).

(** [collect] into a [BTreeMap]. *)
Definition indexed (m : Manifest) : gmap str Enrollment :=
  foldl (fun acc e => <[e.(en_path) := e]> acc) ∅ m.(enrollment).

Definition merge_entry (path : str) (before ours theirs : option Enrollment) : result SetupError (option Enrollment) :=
  match before, ours, theirs with
  | Some b, Some o, Some t =>
      let? autosave := choose b.(en_autosave) o.(en_autosave) t.(en_autosave) (path ++ u!": autosave") in
      let? encrypt := choose b.(en_encrypt) o.(en_encrypt) t.(en_encrypt) (path ++ u!": encryption") in
      let? allow := choose b.(en_allow_plaintext) o.(en_allow_plaintext) t.(en_allow_plaintext)
                      (path ++ u!": plaintext selection") in
      let? variants := choose b.(en_variants) o.(en_variants) t.(en_variants) (path ++ u!": variants") in
      let? exclude := choose b.(en_exclude) o.(en_exclude) t.(en_exclude) (path ++ u!": exclude") in
      let? include := choose b.(en_include) o.(en_include) t.(en_include) (path ++ u!": include") in
      Ok (Some (mkEnrollment path autosave encrypt allow variants exclude include))
  | _, _, _ => choose before ours theirs path
  end.

Fixpoint merge_entries (b o t : gmap str Enrollment) (paths : list str) : result SetupError (list Enrollment) :=
  match paths with
  | [] => Ok []
  | path :: rest =>
      let? entry := merge_entry path (b !! path) (o !! path) (t !! path) in
      let? es := merge_entries b o t rest in
      Ok (option_list entry ++ es)
  end.

Fixpoint merge_permissions (b o t : gmap str N) (paths : list str) : result SetupError (gmap str N) :=
  match paths with
  | [] => Ok ∅
  | path :: rest =>
      let? bits := choose (b !! path) (o !! path) (t !! path) (path ++ u!": permissions") in
      let? merged := merge_permissions b o t rest in
      Ok (match bits with Some bits => <[path := bits]> merged | None => merged end)
  end.

Definition merge_fields (base local remote : Manifest) : result SetupError Manifest :=
  let b := indexed base in
  let o := indexed local in
  let t := indexed remote in
  let? enrollment := merge_entries b o t (key_order (dom b ∪ dom o ∪ dom t)) in
  let? permissions := merge_permissions base.(permissions) local.(permissions) remote.(permissions)
                        (key_order (dom base.(permissions) ∪ dom local.(permissions) ∪ dom remote.(permissions))) in
  let? exclude := choose base.(m_exclude) local.(m_exclude) remote.(m_exclude) u!"exclusions" in
  let? recipients := choose base.(recipients) local.(recipients) remote.(recipients) u!"recipients" in
  Ok (mkManifest 1 enrollment exclude recipients permissions).

Definition merge (base local remote : Manifest) : result SetupError Manifest :=
  let? _ := validate base in
  let? _ := validate local in
  let? _ := validate remote in
  if bool_decide (local = remote) || bool_decide (remote = base) then Ok local
  else if bool_decide (local = base) then Ok remote
  else
    let? merged := merge_fields base local remote in
    let? _ := validate merged in
    Ok merged.

End Validate.
