(* ===== verification/Capture.v ===== *)
(** * What a machine saves of a shared setup ([crates/mise-system/src/history/manifest.rs], [held.rs],
    [compose] of [shadow.rs])

    A capture replaces the files and permissions of the streams this machine selects and carries the rest of
    the parent's tree; a stream that was not selected here before is not taken for this machine's until it
    has been applied. *)

From S2P Require Import Prelude RustStr PathEnv Paths Selection Manifest.

(** ** Trees ([shadow.rs]) *)

Record Overlay := mkOverlay { o_path : str; o_object : option Object }.

(** The paths above a path: what is before each of its slashes. *)
Fixpoint ancestors_from (before path : str) : list str :=
  match path with
  | [] => []
  | c :: rest =>
      if (c =? slash)%N then before :: ancestors_from (before ++ [c]) rest else ancestors_from (before ++ [c]) rest
  end.
Definition ancestors (path : str) : list str := ancestors_from [] path.

(** [beneath_non_tree]: a file is above the path. *)
Definition beneath_non_tree (tree : Tree) (path : str) : bool :=
  existsb (fun a => negb (bool_decide (a = [])) && bool_decide (a ∈ dom tree)) (ancestors path).

(** The path and everything under it is replaced. *)
Definition without (path : str) (entries : Tree) : Tree :=
  filter (fun po => negb (bool_decide (po.1 = path)) && negb (starts_with (path ++ u!"/") po.1) = true) entries.

Section Compose.

Context (ls_tree : str -> Tree).

Definition compose_one (entries : Tree) (overlay : Overlay) : result SetupError Tree :=
  let path := overlay.(o_path) in
  let entries := without path entries in
  let above := List.filter (fun a => bool_decide (a ∈ dom entries)) (ancestors path) in
  match overlay.(o_object) with
  | None => Ok entries
  | Some (mode, oid) =>
      if bool_decide (mode = u!"040000") then
        let subtree := ls_tree oid in
        let entries := if bool_decide (subtree = ∅) then entries else foldl (fun es a => delete a es) entries above in
        Ok (kmap (fun p => path ++ u!"/" ++ p) subtree ∪ entries)
      else match above with
           | a :: _ => Err (FileAndDirectory path a)
           | [] => Ok (<[path := (mode, oid)]> entries)
           end
  end.

Fixpoint compose (base : Tree) (overlays : list Overlay) : result SetupError Tree :=
  match overlays with
  | [] => Ok base
  | overlay :: rest => let? entries := compose_one base overlay in compose entries rest
  end.

End Compose.

(** ** Captures ([manifest.rs]) *)

Section Capture.

(** This machine, its directories and environments; [glob]; and what the file system is asked: whether a
    path runs through a symlinked parent ([ensure_portable_ancestors]). *)
Context (OS ARCH : str) (machine_name : result SetupError str) (environments : list str) (roots : Roots) (HOME : str)
  (valid_pattern : str -> bool) (portable_ancestors : str -> result SetupError unit) (ls_tree : str -> Tree).

(** The stream of an enrollment that this machine selects: [None] for none here. *)
Definition selected_variant (e : Enrollment) : result SetupError (option (option str)) :=
  match select OS ARCH environments e.(en_variants) with
  | Single => Ok (Some None)
  | Selection_Variant v => rmap (fun name => Some (Some name)) (variant_name machine_name v)
  | NoMatch => Ok None
  | Ambiguous _ => Err (AmbiguousVariants e.(en_path))
  end.

Definition tracked_entry (e : Enrollment) (local : str) (variant : option str) : TrackedEntry :=
  mkTrackedEntry local variant e.(en_autosave) e.(en_encrypt) (default false e.(en_allow_plaintext)) None None.

(** [selected_entries] leaves out what [tracking_view] refuses, ambiguous variants too. *)
Fixpoint selected_of (es : list Enrollment) : result SetupError (list TrackedEntry) :=
  match es with
  | [] => Ok []
  | e :: rest =>
      match select OS ARCH environments e.(en_variants) with
      | NoMatch | Ambiguous _ => selected_of rest
      | _ =>
          let? variant := selected_variant e in
          match located_path (locate roots e.(en_path)) with
          | None => selected_of rest
          | Some local =>
              let? entries := selected_of rest in
              Ok (tracked_entry e local (default None variant) :: entries)
          end
      end
  end.

Definition selected_entries (m : Manifest) : result SetupError (list TrackedEntry) := selected_of m.(enrollment).

Inductive Ancestors : Type := Skip | Reject | Report.

(** Of a [TrackedSet] what the manifest fills in: the entries and the paths reported as invalid. *)
Fixpoint tracking_of (mode : Ancestors) (es : list Enrollment) : result SetupError (list TrackedEntry * list str) :=
  match es with
  | [] => Ok ([], [])
  | e :: rest =>
      let? variant := selected_variant e in
      match variant with
      | None => tracking_of mode rest
      | Some variant =>
          match located_path (locate roots e.(en_path)) with
          | None => Err (InvalidPath e.(en_path))
          | Some local =>
              let found (rest : result SetupError (list TrackedEntry * list str)) :=
                let? (entries, invalid) := rest in
                Ok (mkTrackedEntry local variant e.(en_autosave) e.(en_encrypt) (default false e.(en_allow_plaintext))
                      e.(en_exclude) e.(en_include) :: entries, invalid) in
              match mode, portable_ancestors local with
              | Reject, Err error => Err error
              | Report, Err _ => let? (entries, invalid) := tracking_of mode rest in Ok (entries, local :: invalid)
              | _, _ => found (tracking_of mode rest)
              end
          end
      end
  end.

Definition tracking_view (mode : Ancestors) (m : Manifest) : result SetupError (list TrackedEntry * list str) :=
  let? _ := validate valid_pattern m in tracking_of mode m.(enrollment).

(** [file::replace_path]: a tilde is the home directory. *)
Definition replace_path (path : str) : str :=
  match path_strip_prefix u!"~/" path with
  | Some rest => foldl path_join HOME rest
  | None => path
  end.

(** A permission of a stream that this machine captures: of an active path, of something below it, or of a
    directory above it. *)
Definition is_active (active : list str) (path : str) : bool :=
  existsb (fun prefix =>
    bool_decide (path = prefix) || strictly_below path prefix
    || (bool_decide (plain path = path) && strictly_below (plain prefix) path)) active.

Fixpoint active_paths (entries : list TrackedEntry) : result SetupError (list str) :=
  match entries with
  | [] => Ok []
  | e :: rest => let? path := tree_path roots e e.(e_path) in rmap (cons path) (active_paths rest)
  end.

(** Under which key the permissions of a path are recorded, if at all. *)
Definition permission_key (entries : list TrackedEntry) (display : str) : result SetupError (option str) :=
  let path := replace_path display in
  match owning_entry entries path with
  | Some e => match branch_path roots path e.(e_variant) with Some key => Ok (Some key) | None => Err (NotPortable display) end
  | None =>
      Ok (if contains_entries entries path then
            match branch_path roots path None with
            | Some key => if contains_char c!"/" key then Some key else None
            | None => None
            end
          else None)
  end.

Fixpoint record_modes (entries : list TrackedEntry) (modes : gmap str N) (displays : list str) (p : gmap str N)
    : result SetupError (gmap str N) :=
  match displays with
  | [] => Ok p
  | display :: rest =>
      let? key := permission_key entries display in
      record_modes entries modes rest
        (match key, modes !! display with Some key, Some bits => <[key := bits]> p | _, _ => p end)
  end.

(** [capture_permissions], on Unix. *)
Definition capture_permissions (m : Manifest) (entries : list TrackedEntry) (modes : gmap str N) : result SetupError Manifest :=
  let? active := active_paths entries in
  let kept := filter (fun pb => is_active active pb.1 = false) m.(permissions) in
  let? recorded := record_modes entries modes (key_order (dom modes)) kept in
  Ok (remove_unenrolled_permissions (with_permissions recorded m)).

Definition under_symlinked_parent (e : Enrollment) : bool :=
  match located_path (locate roots e.(en_path)) with
  | Some local => match portable_ancestors local with Err _ => true | _ => false end
  | None => false
  end.

(** Whether a file of the parent's tree is carried into the tree that is captured. *)
Definition carries (m previous : Manifest) (tree : Tree) (path : str) : result SetupError bool :=
  let variant := (root_variant (stem_of path).1).2 in
  match owner m (plain path) with
  | None => Ok (bool_decide (owner previous (plain path) = None))
  | Some e =>
      if under_symlinked_parent e then Ok (has_stream e variant && negb (beneath_non_tree tree path))
      else
        let? selected := selected_variant e in
        (* no variant here: a name that no stream has *)
        let selected := match selected with Some selected => selected | None => Some [] end in
        Ok (negb (bool_decide (variant = selected)) && bool_decide (is_Some variant) && has_stream e variant)
  end.

Fixpoint carried (m previous : Manifest) (tree parent : Tree) (paths : list str) : result SetupError (list Overlay) :=
  match paths with
  | [] => Ok []
  | path :: rest =>
      if starts_with u!".mise-history/" path then carried m previous tree parent rest
      else
        let? carry := carries m previous tree path in
        let? overlays := carried m previous tree parent rest in
        Ok (if carry : bool then mkOverlay path (parent !! path) :: overlays else overlays)
  end.

(** [preserve_other_files]: the parent is the tree of the branch's head with its manifest. *)
Definition preserve_other_files (m : Manifest) (parent : option (Tree * option Manifest)) (tree : Tree) : result SetupError Tree :=
  match parent with
  | None => Ok tree
  | Some (files, previous) =>
      let? overlays := carried m (default Manifest_default previous) tree files (key_order (dom files)) in
      compose ls_tree tree overlays
  end.

End Capture.

(** ** Streams that are held ([held.rs]) *)

(** The record of the latest capture. *)
Record HeldRecord := mkHeldRecord { selected : gset str; frozen_at : gmap str (option Object); kept_streams : gset str }.

Record Held := mkHeld { record : option HeldRecord; has_upstream : bool }.

Definition always_holds (h : Held) (stream : str) : bool :=
  negb h.(has_upstream) || match h.(record) with Some r => bool_decide (stream ∈ r.(selected)) | None => true end.

Definition holds (h : Held) (stream : str) (saved : option Object) : bool :=
  match saved with
  | None => true
  | Some saved =>
      if negb h.(has_upstream) then true
      else match h.(record) with
           | None => true
           | Some r => bool_decide (stream ∈ r.(selected)) || bool_decide (r.(frozen_at) !! stream = Some (Some saved))
           end
  end.

Definition frozen (h : Held) (stream : str) : option Object :=
  h.(record) ≫= fun r => r.(frozen_at) !! stream ≫= fun v => v.

Definition observe (h : Held) (held : gset str) (saved : str -> option Object) : Held :=
  let r := default (mkHeldRecord ∅ ∅ ∅) h.(record) in
  let left := r.(selected) ∖ held in
  let frozen := (set_to_map (fun s => (s, saved s)) left : gmap str (option Object)) ∪ r.(frozen_at) in
  mkHeld (Some (mkHeldRecord held (filter (fun so => so.1 ∉ held) frozen) (r.(kept_streams) ∖ held))) h.(has_upstream).

Definition kept (h : Held) (stream : str) : bool :=
  match h.(record) with Some r => bool_decide (stream ∈ r.(kept_streams)) | None => false end.

Definition keep (h : Held) (stream : str) : Held :=
  mkHeld ((fun r => mkHeldRecord r.(selected) r.(frozen_at) ({[stream]} ∪ r.(kept_streams))) <$> h.(record)) h.(has_upstream).

Definition unkeep (h : Held) (stream : str) : Held :=
  mkHeld ((fun r => mkHeldRecord r.(selected) r.(frozen_at) (r.(kept_streams) ∖ {[stream]})) <$> h.(record)) h.(has_upstream).

(** [streams]: which entries a capture holds and which it carries, by their index. Whether the live files of
    an entry match the saved ones is an argument. *)
Fixpoint streams (roots : Roots) (h : Held) (saved : str -> option Object) (live_matches_saved : nat -> bool)
    (index : nat) (entries : list TrackedEntry) : result SetupError (gset str * list nat) :=
  match entries with
  | [] => Ok (∅, [])
  | e :: rest =>
      let? stream := tree_path roots e e.(e_path) in
      let? (held, carry) := streams roots h saved live_matches_saved (S index) rest in
      if always_holds h stream || holds h stream (saved stream) || kept h stream || live_matches_saved index
      then Ok ({[stream]} ∪ held, carry)
      else Ok (held, index :: carry)
  end.
