(* ===== verification/ManifestSpec.v ===== *)
(** * What the enrollment manifest promises: merging as an inventory, other machines' files kept

    The merge of two manifests takes what either side changed and reports what both changed differently; a
    capture keeps every file that is not this machine's to save. *)

From S2P Require Import Prelude RustStr Order PathEnv Paths Selection SelectionSpec Manifest Capture.

(** ** Merging *)

(** Of three versions, the one that changed; or the one of both sides where they agree. *)
Definition three_way {T} (base ours theirs merged : T) : Prop :=
  (ours = theirs /\ merged = ours) \/ (theirs = base /\ merged = ours) \/ (ours = base /\ merged = theirs).

Lemma choose_Ok {T} `{EqDecision T} (b o t r : T) field : choose b o t field = Ok r <-> three_way b o t r.
Proof.
  unfold choose, three_way. destruct (bool_decide (o = t) || bool_decide (t = b)) eqn:E.
  - apply orb_true_iff in E. rewrite !bool_decide_eq_true in E. split; [intros [= ->]; naive_solver|].
    intros H. f_equal. destruct H as [[_ ->]|[[_ ->]|[-> ->]]]; naive_solver.
  - bool_prop. case_bool_decide; naive_solver.
Qed.

Lemma choose_Err {T} `{EqDecision T} (b o t : T) field e :
  choose b o t field = Err e -> e = EnrollmentConflict field /\ forall r, ~ three_way b o t r.
Proof.
  intros H. split; [|intros r Hr; apply (choose_Ok b o t r field) in Hr; congruence].
  unfold choose in H. destruct (_ || _); [done|]. case_bool_decide; [done|]. by injection H.
Qed.

Lemma choose_total {T} `{EqDecision T} (b o t : T) field : choose b o t field <> OutOfFuel.
Proof. unfold choose. destruct (_ || _); [done|]. by case_bool_decide. Qed.

Lemma choose_comm {T} `{EqDecision T} (b o t : T) field : choose b o t field = choose b t o field.
Proof.
  unfold choose. destruct (decide (o = t)) as [->|Hot]; [done|]. rewrite !(bool_decide_eq_false_2 (_ = _)) by congruence.
  simpl. destruct (decide (t = b)) as [->|Htb], (decide (o = b)) as [->|Hob];
    rewrite ?bool_decide_eq_true_2, ?bool_decide_eq_false_2 by done; done.
Qed.

(** An enrollment that all three have is merged by its fields; else it is kept or removed whole. *)
Definition merged_entry (path : str) (base ours theirs merged : option Enrollment) : Prop :=
  match base, ours, theirs with
  | Some b, Some o, Some t =>
      exists m, merged = Some m /\ m.(en_path) = path /\
        three_way b.(en_autosave) o.(en_autosave) t.(en_autosave) m.(en_autosave) /\
        three_way b.(en_encrypt) o.(en_encrypt) t.(en_encrypt) m.(en_encrypt) /\
        three_way b.(en_allow_plaintext) o.(en_allow_plaintext) t.(en_allow_plaintext) m.(en_allow_plaintext) /\
        three_way b.(en_variants) o.(en_variants) t.(en_variants) m.(en_variants) /\
        three_way b.(en_exclude) o.(en_exclude) t.(en_exclude) m.(en_exclude) /\
        three_way b.(en_include) o.(en_include) t.(en_include) m.(en_include)
  | _, _, _ => three_way base ours theirs merged
  end.

Ltac split_choose :=
  repeat match goal with
  | H : rbind (choose ?b ?o ?t ?f) _ = Ok _ |- _ =>
      let E := fresh "E" in destruct (choose b o t f) eqn:E; cbn [rbind] in H; [apply choose_Ok in E|discriminate H..]
  end.

Lemma merge_entry_Ok path b o t r : merge_entry path b o t = Ok r -> merged_entry path b o t r.
Proof.
  unfold merge_entry, merged_entry. destruct b as [b|], o as [o|], t as [t|]; try (by intros ?%choose_Ok). intros H.
  split_choose. injection H as <-. eexists. split_and!; done.
Qed.

Lemma merge_entry_Err path b o t e : merge_entry path b o t = Err e -> forall r, ~ merged_entry path b o t r.
Proof.
  unfold merge_entry, merged_entry. destruct b as [b|], o as [o|], t as [t|]; try (by intros [_ ?]%choose_Err). intros H r.
  intros (m & -> & _ & H1 & H2 & H3 & H4 & H5 & H6).
  repeat match type of H with
  | rbind (choose ?b ?o ?t ?f) _ = _ =>
      match goal with H1 : three_way b o t _ |- _ => apply (choose_Ok _ _ _ _ f) in H1; rewrite H1 in H; clear H1; cbn [rbind] in H end
  end. discriminate.
Qed.

Lemma merge_entry_comm path b o t : merge_entry path b o t = merge_entry path b t o.
Proof.
  unfold merge_entry. destruct b as [b|], o as [o|], t as [t|]; try apply choose_comm.
  rewrite (choose_comm (en_autosave b)). destruct (choose _ _ _ _); [cbn [rbind]|done..].
  rewrite (choose_comm (en_encrypt b)). destruct (choose _ _ _ _); [cbn [rbind]|done..].
  rewrite (choose_comm (en_allow_plaintext b)). destruct (choose _ _ _ _); [cbn [rbind]|done..].
  rewrite (choose_comm (en_variants b)). destruct (choose _ _ _ _); [cbn [rbind]|done..].
  rewrite (choose_comm (en_exclude b)). destruct (choose _ _ _ _); [cbn [rbind]|done..].
  by rewrite (choose_comm (en_include b)).
Qed.

Definition index_from (acc : gmap str Enrollment) (es : list Enrollment) : gmap str Enrollment :=
  foldl (fun acc e => <[e.(en_path) := e]> acc) acc es.

Definition paths_ok (m : gmap str Enrollment) : Prop := map_Forall (fun path e => e.(en_path) = path) m.

Lemma index_from_paths es acc : paths_ok acc -> paths_ok (index_from acc es).
Proof.
  revert acc. induction es as [|e es IH]; intros acc Ha; [done|]. apply IH. by apply map_Forall_insert_2.
Qed.

Lemma indexed_paths m : paths_ok (indexed m).
Proof. apply index_from_paths. by intros path e ?%lookup_empty_Some. Qed.

Lemma merge_entry_path path b o t r :
  (forall e, b = Some e \/ o = Some e \/ t = Some e -> e.(en_path) = path) ->
  merge_entry path b o t = Ok r -> forall e, r = Some e -> e.(en_path) = path.
Proof.
  intros Hp H e ->. apply merge_entry_Ok in H. unfold merged_entry, three_way in H.
  destruct b, o, t; naive_solver.
Qed.

Section Merge.

Context (b o t : gmap str Enrollment) (Hb : paths_ok b) (Ho : paths_ok o) (Ht : paths_ok t).

Lemma merge_entries_Ok paths es :
  merge_entries b o t paths = Ok es -> NoDup paths ->
  forall acc, (forall path, path ∈ paths -> acc !! path = None) ->
  forall path, (index_from acc es !! path = acc !! path /\ (path ∉ paths)) \/
               path ∈ paths /\ merge_entry path (b !! path) (o !! path) (t !! path) = Ok (index_from acc es !! path).
Proof.
  revert es. induction paths as [|q paths IH]; intros es H Hn acc Ha path; cbn [merge_entries] in H.
  - injection H as <-. left. split; [done|apply not_elem_of_nil].
  - destruct (merge_entry q _ _ _) as [r|e|] eqn:Er; cbn [rbind] in H; [|done..].
    destruct (merge_entries b o t paths) as [es'|e|] eqn:Ees; cbn [rbind] in H; [|done..]. injection H as <-.
    apply NoDup_cons in Hn as [Hq Hn].
    assert (forall e, r = Some e -> e.(en_path) = q) as Hr.
    { eapply merge_entry_path; [|exact Er]. intros e [H|[H|H]]; [by apply Hb in H|by apply Ho in H|by apply Ht in H]. }
    assert (index_from acc (option_list r ++ es') = index_from (match r with Some e => <[q := e]> acc | None => acc end) es') as ->.
    { destruct r as [e|]; [|done]. unfold index_from. simpl. by rewrite (Hr e eq_refl). }
    set (acc' := match r with Some e => <[q := e]> acc | None => acc end).
    assert (acc' !! q = r) as Eq.
    { unfold acc'. destruct r; [by rewrite lookup_insert_eq|]. apply Ha. by left. }
    assert (forall p, p <> q -> acc' !! p = acc !! p) as Hother.
    { intros p Hp. unfold acc'. destruct r; [by rewrite lookup_insert_ne|done]. }
    destruct (IH es' eq_refl Hn acc') with path as [[E Hp]|[Hp E]].
    + intros p Hp. rewrite Hother by congruence. apply Ha. by right.
    + destruct (decide (path = q)) as [->|Hne].
      * right. split; [by left|]. by rewrite E, Eq.
      * left. rewrite E, Hother by done. split; [done|]. by apply not_elem_of_cons.
    + right. split; [by right|done].
Qed.

Lemma merge_entries_Err paths e :
  merge_entries b o t paths = Err e -> exists path, path ∈ paths /\ merge_entry path (b !! path) (o !! path) (t !! path) = Err e.
Proof.
  induction paths as [|q paths IH]; cbn [merge_entries]; [done|]. destruct (merge_entry q _ _ _) as [r|e'|] eqn:Er; cbn [rbind]; [| |done].
  - destruct (merge_entries b o t paths) as [es|e'|]; cbn [rbind]; [done| |done]. intros [= ->].
    destruct (IH eq_refl) as (p & Hp & E). exists p. split; [by right|done].
  - intros [= ->]. exists q. split; [by left|done].
Qed.

End Merge.

Lemma merge_entries_comm b o t paths : merge_entries b o t paths = merge_entries b t o paths.
Proof. induction paths as [|q paths IH]; cbn [merge_entries]; [done|]. by rewrite merge_entry_comm, IH. Qed.

Lemma merge_permissions_Ok b o t paths m :
  merge_permissions b o t paths = Ok m -> NoDup paths ->
  forall path, ((path ∉ paths) /\ m !! path = None) \/ (path ∈ paths /\ three_way (b !! path) (o !! path) (t !! path) (m !! path)).
Proof.
  revert m. induction paths as [|q paths IH]; intros m H Hn path; cbn [merge_permissions] in H.
  - injection H as <-. left. split; [apply not_elem_of_nil|apply lookup_empty].
  - destruct (choose _ _ _ _) as [bits|e|] eqn:Eb; cbn [rbind] in H; [|done..]. apply choose_Ok in Eb.
    destruct (merge_permissions b o t paths) as [m'|e|] eqn:Em; cbn [rbind] in H; [|done..]. injection H as <-.
    apply NoDup_cons in Hn as [Hq Hn]. specialize (IH m' eq_refl Hn).
    assert (match bits with Some bits => <[q := bits]> m' | None => m' end !! path = if decide (path = q) then bits else m' !! path) as ->.
    { destruct (decide (path = q)) as [->|Hne].
      - destruct bits; [by rewrite lookup_insert_eq|]. by destruct (IH q) as [[_ ?]|[? _]].
      - destruct bits; [by rewrite lookup_insert_ne|done]. }
    destruct (decide (path = q)) as [->|Hne]; [right; split; [by left|done]|].
    destruct (IH path) as [[Hp E]|[Hp E]]; [left|right]; rewrite elem_of_cons; naive_solver.
Qed.

Lemma merge_permissions_Err b o t paths e :
  merge_permissions b o t paths = Err e -> exists path, forall r, ~ three_way (b !! path) (o !! path) (t !! path) r.
Proof.
  induction paths as [|q paths IH]; cbn [merge_permissions]; [done|].
  destruct (choose _ _ _ _) as [bits|e'|] eqn:Eb; cbn [rbind]; [| |done].
  - destruct (merge_permissions b o t paths) as [m'|e'|]; cbn [rbind]; [done| |done]. intros [= ->]. by apply IH.
  - intros _. exists q. by apply choose_Err in Eb as [_ ?].
Qed.

Lemma merge_permissions_comm b o t paths : merge_permissions b o t paths = merge_permissions b t o paths.
Proof. induction paths as [|q paths IH]; cbn [merge_permissions]; [done|]. by rewrite choose_comm, IH. Qed.

(** Every enrollment, every permission and the two lists are merged by themselves. *)
Definition merged_manifest (base ours theirs m : Manifest) : Prop :=
  (forall path, merged_entry path (indexed base !! path) (indexed ours !! path) (indexed theirs !! path) (indexed m !! path)) /\
  (forall path, three_way (base.(permissions) !! path) (ours.(permissions) !! path) (theirs.(permissions) !! path)
                  (m.(permissions) !! path)) /\
  three_way base.(m_exclude) ours.(m_exclude) theirs.(m_exclude) m.(m_exclude) /\
  three_way base.(recipients) ours.(recipients) theirs.(recipients) m.(recipients).

(** Something that both sides changed, and not to the same. *)
Definition conflicting (base ours theirs : Manifest) : Prop :=
  (exists path, forall r, ~ merged_entry path (indexed base !! path) (indexed ours !! path) (indexed theirs !! path) r) \/
  (exists path, forall r, ~ three_way (base.(permissions) !! path) (ours.(permissions) !! path) (theirs.(permissions) !! path) r) \/
  (forall r, ~ three_way base.(m_exclude) ours.(m_exclude) theirs.(m_exclude) r) \/
  (forall r, ~ three_way base.(recipients) ours.(recipients) theirs.(recipients) r).

Lemma merged_entry_mine base ours theirs path :
  ours = theirs \/ theirs = base ->
  merged_entry path (indexed base !! path) (indexed ours !! path) (indexed theirs !! path) (indexed ours !! path).
Proof.
  unfold merged_entry, three_way. intros [-> | ->].
  - destruct (indexed base !! path) as [b|]; [|by left]. destruct (indexed theirs !! path) as [e|] eqn:E; [|by left].
    exists e. split_and!; [done|by apply (indexed_paths theirs)|by left..].
  - destruct (indexed base !! path) as [b|]; [|by right; left]. destruct (indexed ours !! path) as [e|] eqn:E; [|by right; left].
    exists e. split_and!; [done|by apply (indexed_paths ours)|by right; left..].
Qed.

Lemma merged_mine base ours theirs : ours = theirs \/ theirs = base -> merged_manifest base ours theirs ours.
Proof.
  intros H. split_and!; [intros path; by apply merged_entry_mine|unfold three_way; naive_solver..].
Qed.

Lemma three_way_comm {T} (b o t r : T) : three_way b o t r <-> three_way b t o r.
Proof. unfold three_way. naive_solver. Qed.

Lemma merged_manifest_comm base ours theirs m : merged_manifest base ours theirs m -> merged_manifest base theirs ours m.
Proof.
  unfold merged_manifest. intros (He & Hp & Hx & Hr). split_and!; [|intros p; by apply three_way_comm|by apply three_way_comm..].
  intros p. specialize (He p). unfold merged_entry in *.
  destruct (indexed base !! p), (indexed ours !! p), (indexed theirs !! p); try by apply three_way_comm.
  destruct He as (x & -> & He & H1 & H2 & H3 & H4 & H5 & H6). exists x. split_and!; [done|done|by apply three_way_comm..].
Qed.

Lemma merge_fields_comm base ours theirs : merge_fields base theirs ours = merge_fields base ours theirs.
Proof.
  unfold merge_fields.
  assert (forall A (x y z : gmap str A), dom x ∪ dom z ∪ dom y = dom x ∪ dom y ∪ dom z) as Hd by (intros; set_solver).
  rewrite !(Hd _ _ (indexed ours)), !(Hd _ _ (permissions ours)), merge_entries_comm.
  destruct (merge_entries _ _ _ _); cbn [rbind]; [|done..]. rewrite merge_permissions_comm.
  destruct (merge_permissions _ _ _ _); cbn [rbind]; [|done..]. rewrite choose_comm.
  destruct (choose _ _ _ _); cbn [rbind]; [|done..]. by rewrite choose_comm.
Qed.

Lemma merge_entry_total path b o t : merge_entry path b o t <> OutOfFuel.
Proof.
  unfold merge_entry. destruct b as [b|], o as [o|], t as [t|]; try apply choose_total.
  repeat match goal with
  | |- rbind (choose ?b ?o ?t ?f) _ <> _ =>
      pose proof (choose_total b o t f); destruct (choose b o t f); cbn [rbind]; [|done|done]
  end. done.
Qed.

Lemma merge_entries_total b o t paths : merge_entries b o t paths <> OutOfFuel.
Proof.
  induction paths as [|q paths IH]; cbn [merge_entries]; [done|].
  pose proof (merge_entry_total q (b !! q) (o !! q) (t !! q)). destruct (merge_entry _ _ _ _); cbn [rbind]; [|done|done].
  by destruct (merge_entries b o t paths).
Qed.

Lemma merge_permissions_total b o t paths : merge_permissions b o t paths <> OutOfFuel.
Proof.
  induction paths as [|q paths IH]; cbn [merge_permissions]; [done|].
  pose proof (choose_total (b !! q) (o !! q) (t !! q) (q ++ u!": permissions")). destruct (choose _ _ _ _); cbn [rbind]; [|done|done].
  by destruct (merge_permissions b o t paths).
Qed.

Lemma merge_fields_spec base ours theirs :
  match merge_fields base ours theirs with
  | Ok m => merged_manifest base ours theirs m
  | Err _ => conflicting base ours theirs
  | OutOfFuel => False
  end.
Proof.
  unfold merge_fields, conflicting. set (paths := key_order (dom (indexed base) ∪ dom (indexed ours) ∪ dom (indexed theirs))).
  pose proof (merge_entries_total (indexed base) (indexed ours) (indexed theirs) paths).
  destruct (merge_entries _ _ _ paths) as [es|e|] eqn:Ees; cbn [rbind]; [| |done].
  2: { apply merge_entries_Err in Ees as (p & _ & Hp). left. exists p. by eapply merge_entry_Err. }
  set (keys := key_order _). pose proof (merge_permissions_total (permissions base) (permissions ours) (permissions theirs) keys).
  destruct (merge_permissions _ _ _ keys) as [ps|e|] eqn:Eps; cbn [rbind]; [| |done].
  2: { apply merge_permissions_Err in Eps. by right; left. }
  pose proof (choose_total (m_exclude base) (m_exclude ours) (m_exclude theirs) u!"exclusions").
  destruct (choose (m_exclude base) _ _ _) as [ex|e|] eqn:Eex; cbn [rbind]; [| |done].
  2: { apply choose_Err in Eex as [_ ?]. by right; right; left. }
  pose proof (choose_total (recipients base) (recipients ours) (recipients theirs) u!"recipients").
  destruct (choose (recipients base) _ _ _) as [rs|e|] eqn:Ers; cbn [rbind]; [| |done].
  2: { apply choose_Err in Ers as [_ ?]. by right; right; right. }
  apply choose_Ok in Eex, Ers. split_and!; [| |done..].
  - intros path. change (indexed _ !! path) with (index_from ∅ es !! path) at 4.
    destruct (merge_entries_Ok _ _ _ (indexed_paths base) (indexed_paths ours) (indexed_paths theirs) paths es Ees (NoDup_key_order _) ∅)
      with path as [[E Hp]|[_ E]]; [done| |by apply merge_entry_Ok].
    rewrite E, lookup_empty. unfold paths in Hp. rewrite elem_of_key_order, !not_elem_of_union, !not_elem_of_dom in Hp.
    destruct Hp as [[-> ->] ->]. by left.
  - intros path. cbn [permissions]. destruct (merge_permissions_Ok _ _ _ _ _ Eps (NoDup_key_order _) path) as [[Hp E]|[_ E]]; [|done].
    rewrite E. unfold keys in Hp. rewrite elem_of_key_order, !not_elem_of_union, !not_elem_of_dom in Hp.
    destruct Hp as [[-> ->] ->]. by left.
Qed.

Section Validated.

Context (valid_pattern : str -> bool).

Lemma one_default_total seen vs : one_default seen vs <> OutOfFuel.
Proof. revert seen. induction vs as [|v vs IH]; intros seen; simpl; [done|]. destruct (v_default v); [|done]. by destruct (_ || _). Qed.

Lemma check_variant_names_total path seen vs : check_variant_names path seen vs <> OutOfFuel.
Proof.
  revert seen. induction vs as [|v vs IH]; intros seen; cbn [check_variant_names]; [done|].
  destruct (v_machine v); [done|]. by destruct (_ || _).
Qed.

Lemma check_enrollment_total e : check_enrollment valid_pattern e <> OutOfFuel.
Proof.
  unfold check_enrollment, validate_variants. pose proof (one_default_total false (en_variants e)).
  destruct (existsb _ _ && negb _); [done|]. destruct (one_default _ _); cbn [rbind]; [|done|done].
  destruct (_ && _); [done|]. unfold check_patterns. destruct (List.find _ _); cbn [rbind]; [done|]. apply check_variant_names_total.
Qed.

Lemma check_enrollments_total paths es : check_enrollments valid_pattern paths es <> OutOfFuel.
Proof.
  revert paths. induction es as [|e es IH]; intros paths; cbn [check_enrollments]; [done|]. destruct (_ || _); [done|].
  pose proof (check_enrollment_total e). destruct (check_enrollment _ e); [apply IH|done|done].
Qed.

Lemma validate_total m : validate valid_pattern m <> OutOfFuel.
Proof.
  unfold validate. destruct (negb _); [done|]. pose proof (check_enrollments_total [] (enrollment m)).
  destruct (check_enrollments _ _ _); cbn [rbind]; [|done|done]. by destruct (List.find _ _).
Qed.

(** C13. Manifests are merged as inventories: for valid manifests [merge] does not depend on which side is this
    machine's. The merged manifest is valid, and every field of every enrollment all three have, every other enrollment,
    every permission, the exclusions and the recipients are what either side changed, or what both sides
    have. It fails only if both sides changed one of these differently, or if what was merged that way is not
    valid, with the error that says why. *)
Theorem merge_three_way base ours theirs :
  validate valid_pattern base = Ok tt -> validate valid_pattern ours = Ok tt -> validate valid_pattern theirs = Ok tt ->
  merge valid_pattern base theirs ours = merge valid_pattern base ours theirs /\
  match merge valid_pattern base ours theirs with
  | Ok m => validate valid_pattern m = Ok tt /\ merged_manifest base ours theirs m
  | Err e => conflicting base ours theirs \/
             exists m, merged_manifest base ours theirs m /\ validate valid_pattern m = Err e
  | OutOfFuel => False
  end.
Proof.
  intros Hb Ho Ht. unfold merge. rewrite Hb, Ho, Ht. cbn [rbind]. split.
  - destruct (decide (ours = theirs)) as [->|Hot]; [done|]. rewrite !(bool_decide_eq_false_2 (_ = _)) by congruence.
    rewrite merge_fields_comm. cbn [orb].
    repeat case_bool_decide; simpl; congruence.
  - destruct (bool_decide (ours = theirs) || bool_decide (theirs = base)) eqn:E.
    { apply orb_true_iff in E. rewrite !bool_decide_eq_true in E. split; [done|]. by apply merged_mine. }
    destruct (bool_decide (ours = base)) eqn:Eb.
    { apply bool_decide_eq_true in Eb. split; [done|]. apply merged_manifest_comm, merged_mine. by right. }
    pose proof (merge_fields_spec base ours theirs) as Hm. destruct (merge_fields base ours theirs) as [m|e|]; cbn [rbind]; [|by left|done].
    pose proof (validate_total m). destruct (validate valid_pattern m) as [[]|e|] eqn:Ev; cbn [rbind]; [done| |done].
    right. by exists m.
Qed.

End Validated.

Definition sample_enrollment (path : str) (autosave encrypt : bool) : Enrollment :=
  mkEnrollment path autosave encrypt None [] None None.

Definition sample_manifest (es : list Enrollment) (ps : gmap str N) : Manifest := mkManifest 1 es [] [] ps.

(** One side saves another file, the other turns on encryption for the one there was. *)
Lemma merge_three_way_witness :
  let base := sample_manifest [sample_enrollment u!"home/a" true false] ∅ in
  let ours := sample_manifest [sample_enrollment u!"home/a" true true] {[u!"home/a" := 384%N]} in
  let theirs := sample_manifest [sample_enrollment u!"home/b" false false; sample_enrollment u!"home/a" true false] ∅ in
  exists m, merge (fun _ => true) base ours theirs = Ok m /\ merge (fun _ => true) base theirs ours = Ok m /\
    indexed m !! u!"home/b" = Some (sample_enrollment u!"home/b" false false).
Proof.
  intros base ours theirs.
  destruct (merge_three_way (fun _ => true) base ours theirs) as [Hc _]; [vm_compute; reflexivity..|].
  assert (match merge (fun _ => true) base ours theirs with
          | Ok m => bool_decide (indexed m !! u!"home/b" = Some (sample_enrollment u!"home/b" false false))
          | _ => false
          end = true) as H by (vm_compute; reflexivity).
  rewrite Hc. destruct (merge (fun _ => true) base ours theirs) as [m|e|]; [|discriminate H..].
  exists m. apply bool_decide_eq_true in H. split_and!; [reflexivity|reflexivity|exact H].
Defined.

(** ** Trees *)

Definition below (path dir : str) : Prop := starts_with (dir ++ u!"/") path = true.

(** A listing of a tree: no file is above another, and directories are not listed. *)
Definition is_listing (files : Tree) : Prop :=
  (forall p q, p ∈ dom files -> q ∈ dom files -> ~ below p q) /\ map_Forall (fun _ (o : Object) => o.1 <> u!"040000") files.

Lemma below_irrefl p : ~ below p p.
Proof.
  intros (rest & E)%starts_with_spec. apply (f_equal length) in E. rewrite <- app_assoc, !length_app in E. simpl in E. lia.
Qed.

Lemma lookup_without (path : str) (es : Tree) (p : str) :
  without path es !! p = if bool_decide (p = path) || starts_with (path ++ u!"/") p then None else es !! p.
Proof.
  unfold without. destruct (bool_decide (p = path) || starts_with (path ++ u!"/") p) eqn:E.
  - apply map_lookup_filter_None. right. intros o _. simpl. intros H. bool_prop. apply orb_true_iff in E as [E|E]; bool_prop; congruence.
  - bool_prop. destruct (es !! p) as [o|] eqn:Ep; [|apply map_lookup_filter_None; by left].
    apply map_lookup_filter_Some. split; [done|]. simpl. rewrite bool_decide_eq_false_2 by done. by apply negb_true_iff.
Qed.

Section Trees.

Context (ls_tree : str -> Tree).

Lemma compose_one_file (es : Tree) (path : str) (o : Object) (es' : Tree) :
  o.1 <> u!"040000" -> compose_one ls_tree es (mkOverlay path (Some o)) = Ok es' ->
  es' !! path = Some o /\ forall p, p <> path -> ~ below p path -> es' !! p = es !! p.
Proof.
  destruct o as [mode oid]. intros Hm. unfold compose_one. cbn [o_path o_object]. rewrite bool_decide_eq_false_2 by done.
  destruct (List.filter _ _) as [|a above]; [|done]. intros [= <-]. split; [by rewrite lookup_insert_eq|].
  intros p Hp Hb. rewrite lookup_insert_ne, lookup_without by done. rewrite bool_decide_eq_false_2 by done. cbn [orb].
  unfold below in Hb. apply not_true_iff_false in Hb. by rewrite Hb.
Qed.

Lemma compose_files overlays es r :
  Forall (fun o => exists obj, o.(o_object) = Some obj /\ obj.1 <> u!"040000") overlays ->
  NoDup (map o_path overlays) ->
  (forall a b, a ∈ map o_path overlays -> b ∈ map o_path overlays -> ~ below a b) ->
  compose ls_tree es overlays = Ok r ->
  (forall o, o ∈ overlays -> r !! o.(o_path) = o.(o_object)) /\
  (forall p, (forall o, o ∈ overlays -> p <> o.(o_path) /\ ~ below p o.(o_path)) -> r !! p = es !! p).
Proof.
  intros Hf. revert es. induction Hf as [|[path obj] overlays (o & Ho & Hm) Hf IH]; intros es Hn Hb H; cbn [compose] in H.
  { injection H as <-. split; [by intros o ?%elem_of_nil|done]. }
  simpl in Ho. subst obj. destruct (compose_one ls_tree es _) as [es'|e|] eqn:E; cbn [rbind] in H; [|done..].
  apply compose_one_file in E as [E1 E2]; [|done]. apply NoDup_cons in Hn as [Hp Hn].
  destruct (IH es' Hn) as [H1 H2]; [intros a b Ha Hb'; apply Hb; by right|done|]. split.
  - intros o' [->|Ho']%elem_of_cons; [|by apply H1]. cbn [o_path o_object]. rewrite H2; [done|].
    intros o' Ho'. assert (o_path o' ∈ map o_path overlays) as Hin by (apply list_elem_of_fmap; eauto). split; [by intros ->|].
    apply Hb; [by left|by right].
  - intros p Hp'. rewrite H2 by (intros o' Ho'; apply Hp'; by right). apply E2; apply (Hp' (mkOverlay path (Some o))); by left.
Qed.

End Trees.

(** ** Captures *)

Section Captures.

Context (OS ARCH : str) (machine_name : result SetupError str) (environments : list str) (roots : Roots)
  (portable_ancestors : str -> result SetupError unit) (ls_tree : str -> Tree).

#[local] Abbreviation selected_here := (selected_variant OS ARCH machine_name environments).
#[local] Abbreviation carries_file := (carries OS ARCH machine_name environments roots portable_ancestors).
#[local] Abbreviation hidden := (under_symlinked_parent roots portable_ancestors).
#[local] Abbreviation preserve := (preserve_other_files OS ARCH machine_name environments roots portable_ancestors ls_tree).

Definition variant_of (path : str) : option str := (root_variant (stem_of path).1).2.

Definition internal (path : str) : bool := starts_with u!".mise-history/" path.

(** The stream of another machine: of an enrollment that declares it, and selects another one or none here. *)
Definition of_other_machine (m : Manifest) (path : str) : Prop :=
  exists e name selected, owner m (plain path) = Some e /\ variant_of path = Some name /\ has_stream e (Some name) = true /\
    selected_here e = Ok selected /\ selected <> Some (Some name).

(** A file of the repository that no manifest enrolls. *)
Definition unenrolled (m previous : Manifest) (path : str) : Prop := owner m (plain path) = None /\ owner previous (plain path) = None.

(** A file that this machine captures, or stopped tracking. *)
Definition of_this_machine (m previous : Manifest) (path : str) : Prop :=
  match owner m (plain path) with
  | None => owner previous (plain path) <> None
  | Some e => hidden e = false /\ selected_here e = Ok (Some (variant_of path))
  end.

Lemma carried_spec m previous tree parent paths overlays :
  carried OS ARCH machine_name environments roots portable_ancestors m previous tree parent paths = Ok overlays ->
  sublist (map o_path overlays) paths /\
  (forall p, p ∈ paths -> internal p = false -> exists carry, carries_file m previous tree p = Ok carry) /\
  forall o, o ∈ overlays <-> o.(o_path) ∈ paths /\ internal o.(o_path) = false /\
                             carries_file m previous tree o.(o_path) = Ok true /\ o.(o_object) = parent !! o.(o_path).
Proof.
  revert overlays. induction paths as [|p paths IH]; intros overlays H; cbn [carried] in H.
  { injection H as <-. split_and!; [constructor|by intros p ?%elem_of_nil|].
    intros o. split; [by intros ?%elem_of_nil|by intros [?%elem_of_nil _]]. }
  fold (internal p) in H. destruct (internal p) eqn:Ei.
  - destruct (IH _ H) as (H1 & Hc & H2). split_and!; [by constructor| |].
    + intros q [->|Hq]%elem_of_cons; [congruence|by apply Hc].
    + intros o. rewrite H2, elem_of_cons. split; [intros [? ?]; split; [by right|done]|].
      intros ([->|Hq] & Hi & H3); [congruence|done].
  - destruct (carries _ _ _ _ _ _ _ _ _ p) as [carry|e|] eqn:Ec; cbn [rbind] in H; [|done..].
    destruct (carried _ _ _ _ _ _ _ _ _ _ paths) as [os|e|]; cbn [rbind] in H; [|done..]. injection H as <-.
    destruct (IH _ eq_refl) as (H1 & Hc & H2).
    assert (forall q, q ∈ p :: paths -> internal q = false -> exists carry, carries_file m previous tree q = Ok carry) as Hall.
    { intros q [->|Hq]%elem_of_cons; [by exists carry|by apply Hc]. }
    destruct carry; (split_and!; [simpl; by constructor|exact Hall|]); intros [q oq]; rewrite ?(elem_of_cons _ _ (_ : Overlay)), H2;
      cbn [o_path o_object]; rewrite elem_of_cons.
    + split; [intros [[= -> ->]|(Hq & ?)]; [split; [by left|done]|split; [by right|done]]|].
      intros ([->|Hq] & Hi & Hq' & Ho); [left; by subst|right; done].
    + split; [intros (Hq & ?); split; [by right|done]|].
      intros ([->|Hq] & Hi & Hq' & Ho); [congruence|done].
Qed.

Lemma carries_other m previous tree path carry :
  carries_file m previous tree path = Ok carry ->
  (of_other_machine m path -> beneath_non_tree tree path = false -> carry = true) /\
  (unenrolled m previous path -> carry = true) /\
  (of_this_machine m previous path -> carry = false).
Proof.
  unfold carries, of_other_machine, unenrolled, of_this_machine. fold (variant_of path).
  destruct (owner m (plain path)) as [e|].
  - destruct (under_symlinked_parent roots portable_ancestors e).
    + intros [= <-]. split_and!; [|naive_solver..]. intros (e' & name & s & [= ->] & Hv & Hs & _) ->. by rewrite Hv, Hs.
    + destruct (selected_here e) as [s|err|] eqn:Es; cbn [rbind]; [|done..]. intros [= <-]. split_and!; [|naive_solver|].
      * intros (e' & name & s' & [= <-] & Hv & Hs & Es' & Hne) _. rewrite Es in Es'. injection Es' as <-. rewrite Hv, Hs.
        rewrite (bool_decide_eq_true_2 (is_Some (Some name))) by done. rewrite bool_decide_eq_false_2; [done|].
        destruct s as [s|]; [congruence|]. intros [= ->]. unfold has_stream in Hs. apply existsb_exists in Hs as (v & _ & Hd).
        unfold declares_stream in Hd. destruct (v_machine v); [done|]. apply bool_decide_eq_true in Hd. unfold selector_name in Hd.
        destruct (match v_profile v with Some _ => _ | None => _ end); done.
      * intros [_ [= ->]]. by rewrite bool_decide_eq_true_2.
  - intros [= <-]. split_and!; [naive_solver|by intros [_ ->]|]. intros H. by apply bool_decide_eq_false.
Qed.

(** A capture loses nothing of others: when [preserve_other_files] succeeds on a head whose files are listed,
    the new tree has every file of a stream that another machine's variant declares and this machine does not select,
    as the head has it (below a path that was captured as a link apart), and every file of the repository that no manifest
    enrolls. Every other path, and whatever is this machine's own to capture or was untracked, is
    as it was captured, below files of the head apart. *)
Theorem others_are_kept (m : Manifest) (files : Tree) (previous : option Manifest) (tree r : Tree) :
  is_listing files ->
  preserve m (Some (files, previous)) tree = Ok r ->
  (forall path o, files !! path = Some o -> internal path = false ->
     (of_other_machine m path /\ beneath_non_tree tree path = false) \/ unenrolled m (default Manifest_default previous) path ->
     r !! path = Some o) /\
  (forall path, (forall q, q ∈ dom files -> ~ below path q) ->
     files !! path = None \/ internal path = true \/ of_this_machine m (default Manifest_default previous) path ->
     r !! path = tree !! path).
Proof.
  intros [Hfree Hmodes]. unfold preserve_other_files. set (prev := default Manifest_default previous).
  destruct (carried _ _ _ _ _ _ _ _ _ _ _) as [overlays|e|] eqn:Ec; cbn [rbind]; [|done..]. intros Hr.
  apply carried_spec in Ec as (Hsub & Hall & Hov). assert (forall p, p ∈ map o_path overlays -> p ∈ dom files) as Hdom.
  { intros p Hp. apply elem_of_key_order. by eapply elem_of_sublist. }
  destruct (compose_files ls_tree overlays tree r) as [H1 H2]; [| | |done|].
  - apply Forall_forall. intros o Ho. assert (o_path o ∈ dom files) as [obj Hobj]%elem_of_dom by (apply Hdom, list_elem_of_fmap; eauto).
    exists obj. split; [by destruct (proj1 (Hov o) Ho) as (_ & _ & _ & ->)|by eapply Hmodes].
  - eapply sublist_NoDup; [|exact Hsub]. apply NoDup_key_order.
  - intros a b Ha Hb. apply Hfree; by apply Hdom.
  - split.
    + intros path o Ho Hi Hp. destruct (Hall path) as [carry Hcarry]; [apply elem_of_key_order; by eapply elem_of_dom_2|done|].
      assert (carry = true) as ->.
      { apply carries_other in Hcarry as (Ho1 & Ho2 & _). destruct Hp as [[Hp Hb]|Hp]; [by apply Ho1|by apply Ho2]. }
      pose proof (H1 (mkOverlay path (Some o))) as E. cbn [o_path o_object] in E. apply E, Hov. cbn [o_path o_object].
      split_and!; [|done..]. apply elem_of_key_order. by eapply elem_of_dom_2.
    + intros path Hq Hp. apply H2. intros o Ho. destruct (proj1 (Hov o) Ho) as (Hin & Hi & Hcarry & _).
      apply elem_of_key_order in Hin. split; [|by apply Hq]. intros ->. destruct Hp as [Hp|[Hp|Hp]].
      * apply elem_of_dom in Hin as [? Hin]. congruence.
      * congruence.
      * apply carries_other in Hcarry as (_ & _ & Hown). by apply Hown in Hp.
Qed.

End Captures.

Definition sample_zshrc : Enrollment :=
  mkEnrollment u!"home/.zshrc" true false None
    [mkVariant [u!"linux"] None false false; mkVariant [u!"macos"] None false false] None None.

Definition sample_variants : Manifest := sample_manifest [sample_zshrc] ∅.

Definition sample_head : Tree :=
  {[u!"home@macos/.zshrc" := (u!"100644", u!"m1"); u!"home@linux/.zshrc" := (u!"100644", u!"l1"); u!"README.md" := (u!"100644", u!"r1")]}.

Definition sample_captured : Tree := {[u!"home@linux/.zshrc" := (u!"100644", u!"l2")]}.

Definition sample_preserved : result SetupError Tree :=
  preserve_other_files u!"linux" u!"x64" (Err NoMachineName) [] sample_roots (fun _ => Ok tt) (fun _ => ∅) sample_variants
    (Some (sample_head, Some sample_variants)) sample_captured.

Lemma sample_head_listing : is_listing sample_head.
Proof.
  split.
  - assert (forallb (fun p => forallb (fun q => negb (starts_with (q ++ u!"/") p)) (elements (dom sample_head))) (elements (dom sample_head)) = true) as H
      by (vm_compute; reflexivity).
    intros p q Hp%elem_of_elements%list_elem_of_In Hq%elem_of_elements%list_elem_of_In Hb.
    rewrite forallb_forall in H. pose proof (H p Hp) as H1. cbv beta in H1. rewrite forallb_forall in H1.
    pose proof (H1 q Hq) as H2. unfold below in Hb. rewrite Hb in H2. discriminate H2.
  - apply (bool_decide_unpack _). vm_compute. reflexivity.
Qed.

(** The other system's file and the one nobody enrolls stay, this machine's is new. *)
Lemma others_are_kept_example :
  exists r, sample_preserved = Ok r /\ r !! u!"home@macos/.zshrc" = Some (u!"100644", u!"m1") /\
    r !! u!"README.md" = Some (u!"100644", u!"r1") /\ r !! u!"home@linux/.zshrc" = Some (u!"100644", u!"l2").
Proof.
  assert (match sample_preserved with
          | Ok r => bool_decide (r !! u!"home@linux/.zshrc" = Some (u!"100644", u!"l2"))
          | _ => false
          end = true) as H by (vm_compute; reflexivity).
  destruct sample_preserved as [r|e|] eqn:E; [|discriminate H..]. apply bool_decide_eq_true in H. unfold sample_preserved in E.
  destruct (others_are_kept _ _ _ _ _ _ _ _ _ _ _ _ sample_head_listing E) as [Hkept _].
  exists r. split_and!; [reflexivity| | |exact H].
  - apply (Hkept u!"home@macos/.zshrc" (u!"100644", u!"m1")); [reflexivity|reflexivity|].
    left. split; [exists sample_zshrc, u!"macos", (Some (Some u!"linux"))|reflexivity].
    split_and!; [reflexivity..|discriminate].
  - apply (Hkept u!"README.md" (u!"100644", u!"r1")); [reflexivity|reflexivity|]. right. split; reflexivity.
Defined.

(** ** Streams that are held *)

Definition was_selected (h : Held) (stream : str) : Prop :=
  match h.(record) with Some r => stream ∈ r.(selected) | None => False end.

(** What a machine holds after a capture: what it captured, what nothing is saved for, and every stream that it
    left at the version it left it at; a stream it never had is held by nobody's version but the one it
    is frozen at. *)
Theorem held_after_capture (h : Held) (held : gset str) (saved : str -> option Object) (stream : str) (version : option Object) :
  holds (observe h held saved) stream version = true <->
  version = None \/ h.(has_upstream) = false \/ stream ∈ held \/
  (was_selected h stream /\ version = saved stream) \/ (~ was_selected h stream /\ frozen h stream = version).
Proof.
  unfold holds, observe, was_selected, frozen. cbn [record has_upstream selected frozen_at].
  destruct version as [o|]; [|naive_solver]. destruct (has_upstream h); cbn [negb]; [|naive_solver].
  rewrite orb_true_iff, !bool_decide_eq_true, map_lookup_filter_Some. cbn [fst].
  set (r := default (mkHeldRecord ∅ ∅ ∅) (record h)).
  assert ((set_to_map (fun s => (s, saved s)) (selected r ∖ held) : gmap str (option Object)) !! stream =
          if decide (stream ∈ selected r ∖ held) then Some (saved stream) else None) as Hset.
  { case_decide as Hin; [apply lookup_set_to_map; [done|]; exists stream; done|].
    apply eq_None_not_Some. intros [v Hv]. apply lookup_set_to_map in Hv as (s & Hs & [= -> _]); [done|done]. }
  assert (match record h with Some r => stream ∈ selected r | None => False end <-> stream ∈ selected r) as Hsel.
  { unfold r. destruct (record h); simpl; [done|set_solver]. }
  assert ((record h ≫= fun r => frozen_at r !! stream ≫= fun v => v) = (frozen_at r !! stream ≫= fun v => v)) as Hfr.
  { unfold r. destruct (record h); simpl; [done|by rewrite lookup_empty]. }
  rewrite Hsel, Hfr, lookup_union, Hset. destruct (decide (stream ∈ held)) as [Hh|Hh]; [naive_solver|].
  destruct (decide (stream ∈ selected r)) as [Hs|Hs].
  - rewrite decide_True by set_solver. rewrite union_Some_l.
    split; [intros [?|[[= ->] _]]; [done|naive_solver]|]. intros [?|[?|[?|[[_ E]|[? _]]]]]; try done. right. by rewrite E.
  - rewrite decide_False by set_solver. rewrite (left_id None _).
    split; [intros [?|[E _]]; [done|]; right; right; right; right; by rewrite E|].
    intros [?|[?|[?|[[? _]|[_ E]]]]]; try done. right. split; [|done].
    destruct (frozen_at r !! stream) as [v|]; [|done]. simpl in E. by rewrite E.
Qed.
