(* ===== verification/Purge.v ===== *)
(** * Erasing a path from the saved history ([crates/mise-system/src/history/purge.rs])

    Every commit is rewritten without the purged paths, parents first, under a map from old commits to new
    ones; a commit that changed nothing else is dropped. Then the branch is moved.

    A Git tree is named by its contents, so the model has the contents where the code has the name; the
    caches of trees that were stripped before are left out. Commits are named by a function of their
    contents. JSON (the trailers of messages, the manifest's file) belongs to a library. *)

From S2P Require Import Prelude RustStr Manifest.

Abbreviation oid := str (only parsing).

(** ** Trees *)

(** A file, link or nested repository with its mode, or a directory. *)
Inductive Node : Type :=
| Leaf (mode : str) (object : oid)
| Dir (entries : list (str * Node)).

Abbreviation GitTree := (list (str * Node)) (only parsing).

Definition Node_eq : forall x y : Node, {x = y} + {x <> y}.
Proof.
  fix IH 1. intros [m o|a] [m' o'|b]; [|right; discriminate|right; discriminate|].
  - destruct (decide ((m, o) = (m', o'))) as [E|E]; [left; congruence|right; congruence].
  - assert ({a = b} + {a <> b}) as [E|E].
    { revert b. induction a as [|[n x] a IHa]; intros [|[n' y] b]; [by left|by right|by right|].
      destruct (decide (n = n')) as [En|En]; [|right; congruence].
      destruct (IH x y) as [Ex|Ex]; [|right; congruence]. destruct (IHa b) as [Ea|Ea]; [left|right]; congruence. }
    + left. congruence.
    + right. congruence.
Defined.

#[export] Instance Node_eq_dec : EqDecision Node := Node_eq.

(** ** Targets *)

Inductive PurgeError : Type :=
| WholeRoot (display : str)
| NotATree
| MissingCommit (commit : oid)
| BadManifest
| BadTrailer
| AlreadyPublished (commits : list oid)
| NothingRemains.

Record Target := mkTarget { display : str; root : str; relative : list str }.

(** [Target::parse] of a path in the snapshot tree ([display_to_tree_path] asks the file system). *)
Definition Target_parse (display_to_tree_path : str -> str) (display : str) : result PurgeError Target :=
  match split_on (N.eqb c!"/") (display_to_tree_path display) with
  | root :: parts =>
      match List.filter (fun part => negb (bool_decide (part = []))) parts with
      | [] => Err (WholeRoot display)
      | relative => Ok (mkTarget display root relative)
      end
  | [] => Err (WholeRoot display)
  end.

(** The root or one of its variants. *)
Definition matches_root (t : Target) (name : str) : bool :=
  bool_decide (name = t.(root))
  || match strip_prefix t.(root) name with Some rest => starts_with u!"@" rest | None => false end.

Fixpoint is_prefix (l path : list str) : bool :=
  match l, path with
  | [], _ => true
  | x :: l', y :: path' => bool_decide (x = y) && is_prefix l' path'
  | _ :: _, [] => false
  end.

Definition covers_branch_path (t : Target) (path : str) : bool :=
  match split_on (N.eqb c!"/") path with
  | root :: rest => matches_root t root && is_prefix t.(relative) rest
  | [] => false
  end.

(** ** What holds a target *)

Fixpoint descends (node : Node) (relative : list str) : result PurgeError bool :=
  match relative with
  | [] => Ok true
  | first :: rest =>
      match node with
      | Leaf _ _ => Err NotATree
      | Dir entries =>
          match List.find (fun e => bool_decide (e.1 = first)) entries with
          | None => Ok false
          | Some (_, child) =>
              match rest with
              | [] => Ok true
              | _ => match child with Dir _ => descends child rest | Leaf _ _ => Ok false end
              end
          end
      end
  end.

(** For every entry of the tree and every target, until one is found. *)
Fixpoint holds_any (pairs : list (str * Node * Target)) : result PurgeError bool :=
  match pairs with
  | [] => Ok false
  | (name, node, t) :: rest =>
      if matches_root t name then
        let? found := descends node t.(relative) in
        if found : bool then Ok true else holds_any rest
      else holds_any rest
  end.

Definition holds_target (targets : list Target) (tree : GitTree) : result PurgeError bool :=
  holds_any (flat_map (fun e => map (fun t => (e.1, e.2, t)) targets) tree).

(** ** Stripping *)

(** What becomes of an entry, and whether that changes the tree. *)
Abbreviation Step := (str * Node -> option (str * Node) * bool) (only parsing).

Definition rebuild (step : Step) (entries : GitTree) : option GitTree :=
  let results := map step entries in
  if existsb snd results then Some (omap fst results) else None.

(** A directory that is left empty goes too. *)
Definition prune (strip : GitTree -> option GitTree) : Step := fun e =>
  match e.2 with
  | Dir sub => match strip sub with
               | Some [] => (None, true)
               | Some new => (Some (e.1, Dir new), true)
               | None => (Some e, false)
               end
  | Leaf _ _ => (Some e, false)
  end.

(** [strip_one] below the root: without the target, or [None] when there is none. *)
Fixpoint strip_below (relative : list str) (entries : GitTree) : option GitTree :=
  match relative with
  | [] => None
  | name :: rest =>
      rebuild (fun e => if bool_decide (e.1 = name)
                        then match rest with [] => (None, true) | _ => prune (strip_below rest) e end
                        else (Some e, false)) entries
  end.

Definition strip_one (t : Target) (tree : GitTree) : option GitTree :=
  rebuild (fun e => if matches_root t e.1 then prune (strip_below t.(relative)) e else (Some e, false)) tree.

Definition strip_tree (targets : list Target) (tree : GitTree) : GitTree :=
  foldl (fun current t => match strip_one t current with Some new => new | None => current end) tree targets.

(** ** The manifest in the tree *)

Section Json.

(** [serde_json]: the manifest of a file and the file of a manifest. *)
Context (read_manifest : oid -> result PurgeError Manifest) (manifest_blob : Manifest -> oid).

Fixpoint set_first (name : str) (node : Node) (entries : GitTree) : GitTree :=
  match entries with
  | [] => []
  | e :: rest => if bool_decide (e.1 = name) then (name, node) :: rest else e :: set_first name node rest
  end.

Definition entry_named (name : str) (entries : GitTree) : option Node :=
  snd <$> List.find (fun e => bool_decide (e.1 = name)) entries.

(** [Manifest::read_gix]: the file at [.mise-history/manifest.json], which must be a regular one. *)
Definition read_gix (tree : GitTree) : result PurgeError (option Manifest) :=
  match entry_named u!".mise-history" tree with
  | Some (Dir entries) =>
      match entry_named u!"manifest.json" entries with
      | Some (Leaf mode object) =>
          if bool_decide (mode = u!"100644") then rmap Some (read_manifest object) else Err BadManifest
      | Some (Dir _) => Err BadManifest
      | None => Ok None
      end
  | _ => Ok None
  end.

(** [compose] with the one overlay of the manifest, in a tree that has the file. *)
Definition compose_manifest (tree : GitTree) (object : oid) : GitTree :=
  match entry_named u!".mise-history" tree with
  | Some (Dir entries) =>
      set_first u!".mise-history" (Dir (set_first u!"manifest.json" (Leaf u!"100644" object) entries)) tree
  | _ => tree
  end.

Definition kept_permissions (targets : list Target) (m : Manifest) : Manifest :=
  with_permissions (filter (fun pb => existsb (fun t => covers_branch_path t pb.1) targets = false) m.(permissions)) m.

Definition strip_permissions (targets : list Target) (tree : GitTree) : result PurgeError GitTree :=
  let? manifest := read_gix tree in
  match manifest with
  | None => Ok tree
  | Some m =>
      let stripped := kept_permissions targets m in
      if bool_decide (size stripped.(permissions) = size m.(permissions)) then Ok tree
      else Ok (compose_manifest tree (manifest_blob stripped))
  end.

Definition strip (targets : list Target) (tree : GitTree) : result PurgeError GitTree :=
  strip_permissions targets (strip_tree targets tree).

(** ** Commits *)

(** Name, mail address and time. *)
Abbreviation Signature := (str * str * str)%type.

Record Commit := mkCommit {
  tree : GitTree;
  parents : list oid;
  author : Signature;
  committer : Signature;
  message : str
}.

Abbreviation Objects := (gmap oid Commit) (only parsing).

Inductive Rewritten : Type :=
| Kept (commit : oid)
| Dropped (nearest : option oid).

Abbreviation CommitMap := (gmap oid Rewritten) (only parsing).

(** [remap]: what a commit is called after the rewriting. *)
Definition remap (m : CommitMap) (commit : oid) : option oid :=
  match m !! commit with
  | Some (Kept new) => Some new
  | Some (Dropped nearest) => nearest
  | None => Some commit
  end.

(** *** Trailers *)

Record CommitOperation (Rest : Type) := mkCommitOperation {
  before : option oid;
  to : option oid;
  undoes : option oid;
  applied : option oid;
  sources : list (oid * list str);
  operation_rest : Rest
}.

Record CommitRecord (Rest : Type) := mkCommitRecord { operation : option (CommitOperation Rest); record_rest : Rest }.

Definition RECORD_TRAILER : str := u!"Mise-History: ".
Definition ANNOTATION_TRAILER : str := u!"Mise-Annotation: ".

(** The trailers as [serde_json] reads and writes them; whether two texts are the same JSON; the first element of
    an array that is a text, and the array with another one. *)
Context {Rest : Type} (parse_record : str -> result PurgeError (CommitRecord Rest)) (print_record : CommitRecord Rest -> str)
  (same_json : str -> str -> bool) (annotated : str -> option oid)
  (first_text : str -> result PurgeError (option oid)) (with_first_text : str -> oid -> str).

#[local] Arguments mkCommitOperation {Rest} _ _ _ _ _ _.
#[local] Arguments mkCommitRecord {Rest} _ _.
#[local] Arguments before {Rest} _.
#[local] Arguments to {Rest} _.
#[local] Arguments undoes {Rest} _.
#[local] Arguments applied {Rest} _.
#[local] Arguments sources {Rest} _.
#[local] Arguments operation_rest {Rest} _.
#[local] Arguments operation {Rest} _.
#[local] Arguments record_rest {Rest} _.

(** [Iterator::rposition] *)
Fixpoint rposition {A} (f : A -> bool) (l : list A) : option nat :=
  match l with
  | [] => None
  | x :: l' => match rposition f l' with Some i => Some (S i) | None => if f x then Some 0 else None end
  end.

Definition remap_operation (m : CommitMap) (op : CommitOperation Rest) : CommitOperation Rest :=
  mkCommitOperation (op.(before) ≫= remap m) (op.(to) ≫= remap m) (op.(undoes) ≫= remap m) (op.(applied) ≫= remap m)
    (omap (fun source => (fun new => (new, source.2)) <$> remap m source.1) op.(sources)) op.(operation_rest).

Definition remap_record_line (m : CommitMap) (text : str) : result PurgeError (option str) :=
  let? parsed := parse_record text in
  let rewritten := print_record (mkCommitRecord (remap_operation m <$> parsed.(operation)) parsed.(record_rest)) in
  Ok (if same_json text rewritten then None else Some (RECORD_TRAILER ++ rewritten)).

Definition remap_annotation_line (m : CommitMap) (text : str) : result PurgeError (option str) :=
  let? first := first_text text in
  Ok (match first with
      | Some old => match remap m old with
                    | Some new => if bool_decide (new = old) then None else Some (ANNOTATION_TRAILER ++ with_first_text text new)
                    | None => None
                    end
      | None => None
      end).

(** The last line with the trailer is replaced by what [rewrite] makes of the rest of it. *)
Definition remap_line (trailer : str) (rewrite : str -> result PurgeError (option str)) (lines : list str)
    : result PurgeError (list str) :=
  match rposition (starts_with trailer) lines with
  | None => Ok lines
  | Some i =>
      let? line := rewrite (drop (length trailer) (default [] (lines !! i))) in
      Ok (match line with Some line => <[i := line]> lines | None => lines end)
  end.

Definition remap_message (m : CommitMap) (message : str) : result PurgeError str :=
  let lines := split_on (N.eqb 10%N) message in
  let? lines := remap_line RECORD_TRAILER (remap_record_line m) lines in
  let? lines := remap_line ANNOTATION_TRAILER (remap_annotation_line m) lines in
  Ok (join [10%N] lines).

(** [annotation_target]: of the last line with the trailer, if it can be read. *)
Definition annotation_target (message : str) : option oid :=
  match omap (strip_prefix ANNOTATION_TRAILER) (reverse (lines message)) with
  | text :: _ => annotated text
  | [] => None
  end.

(** *** Rewriting *)

Context (hash : Commit -> oid).

(** The state of a walk. *)
Record Walk := mkWalk { objects : Objects; map_ : CommitMap; held : gset oid; removed : gset oid }.

(** [commit_tree_as] *)
Definition commit_tree_as (objects : Objects) (c : Commit) : oid * Objects := (hash c, <[hash c := c]> objects).

Definition output_tree_of (objects : Objects) (commit : oid) : result PurgeError GitTree :=
  match objects !! commit with Some c => Ok c.(tree) | None => Err (MissingCommit commit) end.

(** The surviving parents, each once, and what the first one became. *)
Definition new_parents (m : CommitMap) (parents : list oid) : list oid := dedup_from [] (omap (remap m) parents).

Definition nearest_survivor (m : CommitMap) (parents : list oid) : option oid := head parents ≫= remap m.

Definition is_dropped (m : CommitMap) (commit : oid) : bool :=
  match m !! commit with Some (Dropped _) => true | _ => false end.

Definition rewrite (targets : list Target) (commit : oid) (w : Walk) : result PurgeError Walk :=
  match w.(objects) !! commit with
  | None => Err (MissingCommit commit)
  | Some c =>
      let? found := holds_target targets c.(tree) in
      let held := if found : bool then {[commit]} ∪ w.(held) else w.(held) in
      let? new_tree := strip targets c.(tree) in
      let? parent_tree := match head c.(parents) with Some parent => output_tree_of w.(objects) parent | None => Ok [] end in
      let? parent_stripped := strip targets parent_tree in
      let changed := negb (bool_decide (c.(tree) = parent_tree)) in
      let only_the_path := bool_decide (new_tree = parent_stripped) in
      let annotates_dropped := match annotation_target c.(message) with Some t => is_dropped w.(map_) t | None => false end in
      if (length c.(parents) <=? 1) && ((changed && only_the_path) || annotates_dropped) then
        Ok (mkWalk w.(objects) (<[commit := Dropped (nearest_survivor w.(map_) c.(parents))]> w.(map_)) held
              (if changed && only_the_path then {[commit]} ∪ w.(removed) else w.(removed)))
      else
        let ps := new_parents w.(map_) c.(parents) in
        let? new_message := remap_message w.(map_) c.(message) in
        if bool_decide (new_tree = c.(tree)) && bool_decide (ps = c.(parents)) && bool_decide (new_message = c.(message)) then
          Ok (mkWalk w.(objects) (<[commit := Kept commit]> w.(map_)) held w.(removed))
        else
          let '(new, objects) := commit_tree_as w.(objects) (mkCommit new_tree ps c.(author) c.(committer) new_message) in
          Ok (mkWalk objects (<[commit := Kept new]> w.(map_)) held w.(removed))
  end.

Fixpoint rewrite_all (targets : list Target) (commits : list oid) (w : Walk) : result PurgeError Walk :=
  match commits with
  | [] => Ok w
  | commit :: rest => let? w := rewrite targets commit w in rewrite_all targets rest w
  end.

(** ** The purge *)

(** Whether a commit of the origin holds a target or would change. *)
Definition on_origin (targets : list Target) (w : Walk) (commit : oid) : result PurgeError bool :=
  match w.(map_) !! commit with
  | Some (Kept new) => if bool_decide (new = commit) then Ok (bool_decide (commit ∈ w.(held))) else Ok true
  | Some (Dropped _) => Ok true
  | None => let? tree := output_tree_of w.(objects) commit in holds_target targets tree
  end.

Fixpoint all_on_origin (targets : list Target) (w : Walk) (published : list oid) : result PurgeError (list oid) :=
  match published with
  | [] => Ok []
  | commit :: rest =>
      let? on_it := on_origin targets w commit in
      let? others := all_on_origin targets w rest in
      Ok (if on_it : bool then commit :: others else others)
  end.

(** Which commits are removed, which rewritten, and how many only change their name. *)
Record Outcome := mkOutcome { dropped : list oid; rewritten : list oid; rehashed : nat; total : nat }.

Definition count_commit (w : Walk) (o : Outcome) (commit : oid) : Outcome :=
  match w.(map_) !! commit with
  | Some (Dropped _) =>
      if bool_decide (commit ∈ w.(removed)) then mkOutcome (o.(dropped) ++ [commit]) o.(rewritten) o.(rehashed) o.(total) else o
  | Some (Kept new) =>
      if bool_decide (new = commit) then o
      else if bool_decide (commit ∈ w.(held)) then mkOutcome o.(dropped) (o.(rewritten) ++ [commit]) o.(rehashed) o.(total)
      else mkOutcome o.(dropped) o.(rewritten) (S o.(rehashed)) o.(total)
  | None => o
  end.

Definition count_commits (w : Walk) (commits : list oid) : Outcome :=
  foldl (count_commit w) (mkOutcome [] [] 0 (length commits)) commits.

Definition is_noop (o : Outcome) : bool := bool_decide (o.(dropped) = []) && bool_decide (o.(rewritten) = []).

(** The index that is written: surviving entries under their new names. *)
Definition new_index (m : CommitMap) (index : list (N * oid)) : list (N * oid) :=
  omap (fun entry => match m !! entry.2 with Some (Kept new) => Some (entry.1, new) | _ => None end) index.

(** [purge], once its locks are held: the commits of the branch, parents first, those of the origin and the index are
    given. It returns the outcome and, if it is applied, the branch's new head and the index. *)
Definition purge (targets : list Target) (objs : Objects) (head : oid) (commits : list oid) (published : option (list oid))
    (index : list (N * oid)) (apply : bool) : result PurgeError (Outcome * Objects * option (oid * list (N * oid))) :=
  let? w := rewrite_all targets commits (mkWalk objs ∅ ∅ ∅) in
  let? refused := match published with Some published => all_on_origin targets w published | None => Ok [] end in
  match refused with
  | _ :: _ => Err (AlreadyPublished refused)
  | [] =>
      let outcome := count_commits w commits in
      if is_noop outcome || negb apply then Ok (outcome, w.(objects), None)
      else match remap w.(map_) head with
           | None => Err NothingRemains
           | Some new_head => Ok (outcome, w.(objects), Some (new_head, new_index w.(map_) index))
           end
  end.

End Json.
