(* ===== verification/PurgeSpec.v ===== *)
(** * What a purge promises: the path is erased, and nothing else is

    No commit of the rewritten branch has a file of a target, and every other file of every surviving
    commit is as it was; survivors keep their authors and their ancestry, and what the origin has is not
    renamed. *)

From S2P Require Import Prelude RustStr Manifest Purge.

(** ** Files of a tree *)

(** The tree has the file at the path. *)
Fixpoint leaf_at (entries : GitTree) (path : list str) (object : str * oid) : Prop :=
  match path with
  | [] => False
  | name :: rest =>
      match rest with
      | [] => (name, Leaf object.1 object.2) ∈ entries
      | _ => exists sub, (name, Dir sub) ∈ entries /\ leaf_at sub rest object
      end
  end.

Lemma leaf_at_nil path object : ~ leaf_at [] path object.
Proof. destruct path as [|name [|n rest]]; simpl; [by intros []|by intros ?%elem_of_nil|by intros (? & ?%elem_of_nil & _)]. Qed.

Definition stripped {A} (strip : A -> option A) (a : A) : A := match strip a with Some b => b | None => a end.

(** The targets cover the path. *)
Definition covers (t : Target) (path : list str) : bool :=
  match path with root :: rest => matches_root t root && is_prefix t.(relative) rest | [] => false end.

(** The path is a target's own or one below it, in the target's root or a variant of that root. *)
Definition inside (t : Target) (path : list str) : Prop :=
  exists root rest, path = root :: t.(relative) ++ rest /\
    (root = t.(Purge.root) \/ exists variant, root = t.(Purge.root) ++ u!"@" ++ variant).

Lemma is_prefix_spec l path : is_prefix l path = true <-> exists rest, path = l ++ rest.
Proof.
  revert path. induction l as [|x l IH]; intros path; simpl; [split; [by exists path|done]|].
  destruct path as [|y path]; [split; [done|by intros (? & ?)]|].
  rewrite andb_true_iff, bool_decide_eq_true, IH. naive_solver.
Qed.

Lemma matches_root_spec t name :
  matches_root t name = true <-> name = t.(root) \/ exists variant, name = t.(root) ++ u!"@" ++ variant.
Proof.
  unfold matches_root. rewrite orb_true_iff, bool_decide_eq_true. destruct (strip_prefix (root t) name) as [rest|] eqn:E.
  - apply strip_prefix_Some in E as ->. rewrite starts_with_spec. setoid_rewrite (inj_iff (app (root t))). naive_solver.
  - split; [naive_solver|]. intros [->|[variant ->]]; [by left|]. by rewrite (proj2 (strip_prefix_Some _ _ _) eq_refl) in E.
Qed.

Lemma covers_outside t path : covers t path = false <-> ~ inside t path.
Proof.
  rewrite <- not_true_iff_false. apply not_iff_compat. unfold covers, inside. destruct path as [|name path].
  - split; [done|by intros (? & ? & ? & _)].
  - rewrite andb_true_iff, is_prefix_spec, matches_root_spec. naive_solver.
Qed.

(** ** Stripping *)

(** Entries that do not change the tree stay. *)
Definition honest (step : Step) : Prop := forall e, (step e).2 = false -> (step e).1 = Some e.

Lemma rebuild_stripped step entries : honest step -> stripped (rebuild step) entries = omap (fun e => (step e).1) entries.
Proof.
  intros Hs. unfold stripped, rebuild. destruct (existsb snd (map step entries)) eqn:E.
  - clear E. induction entries as [|e entries IH]; csimpl; [done|]. destruct ((step e).1); by rewrite IH.
  - induction entries as [|e entries IH]; csimpl in *; [done|]. apply orb_false_iff in E as [E1 E2].
    by rewrite Hs, <- IH.
Qed.

Definition prune_where (hit : str -> bool) (strip : GitTree -> option GitTree) : Step :=
  fun e => if hit e.1 then prune strip e else (Some e, false).

Lemma prune_where_honest hit strip : honest (prune_where hit strip).
Proof.
  intros [name [m o|sub]]; unfold prune_where, prune; simpl; destruct (hit name); try done.
  by destruct (strip sub) as [[|e new]|].
Qed.

(** Pruning changes directories only, and keeps what their stripped contents have. *)
Lemma prune_leaf hit strip entries name object :
  leaf_at (stripped (rebuild (prune_where hit strip)) entries) [name] object <-> leaf_at entries [name] object.
Proof.
  rewrite rebuild_stripped by apply prune_where_honest. simpl. rewrite list_elem_of_omap. split.
  - intros ([n [m o|sub]] & He & H); unfold prune_where, prune in H; simpl in H; destruct (hit n).
    + by injection H as -> -> ->.
    + by injection H as -> -> ->.
    + destruct (strip sub) as [[|e new]|]; done.
    + done.
  - intros He. eexists. split; [exact He|]. unfold prune_where, prune. simpl. by destruct (hit name).
Qed.

Lemma prune_dir hit strip entries name rest object :
  rest <> [] ->
  leaf_at (stripped (rebuild (prune_where hit strip)) entries) (name :: rest) object <->
  exists sub, (name, Dir sub) ∈ entries /\ leaf_at (if hit name then stripped strip sub else sub) rest object.
Proof.
  intros Hr. rewrite rebuild_stripped by apply prune_where_honest.
  transitivity (exists sub, (name, Dir sub) ∈ omap (fun e => (prune_where hit strip e).1) entries /\ leaf_at sub rest object);
    [by destruct rest|].
  setoid_rewrite list_elem_of_omap. unfold prune_where, prune. split.
  - intros (sub & ([n [m o|sub']] & He & H) & Hl); simpl in H; destruct (hit n) eqn:Eh; try done.
    + unfold stripped. destruct (strip sub') as [[|e new]|] eqn:Es; [done| |]; injection H as <- <-;
        exists sub'; rewrite Eh, Es; done.
    + injection H as -> ->. exists sub. by rewrite Eh.
  - intros (sub & He & Hl). destruct (hit name) eqn:Eh.
    + unfold stripped in Hl. destruct (strip sub) as [[|e new]|] eqn:Es; [by apply leaf_at_nil in Hl| |].
      * exists (e :: new). split; [|done]. exists (name, Dir sub). split; [done|]. simpl. by rewrite Eh, Es.
      * exists sub. split; [|done]. exists (name, Dir sub). split; [done|]. simpl. by rewrite Eh, Es.
    + exists sub. split; [|done]. exists (name, Dir sub). split; [done|]. simpl. by rewrite Eh.
Qed.

Lemma leaf_at_cons entries name rest object :
  rest <> [] -> leaf_at entries (name :: rest) object <-> exists sub, (name, Dir sub) ∈ entries /\ leaf_at sub rest object.
Proof. by destruct rest. Qed.

Lemma strip_below_leaf relative entries path object :
  relative <> [] ->
  leaf_at (stripped (strip_below relative) entries) path object <-> leaf_at entries path object /\ is_prefix relative path = false.
Proof.
  revert entries path. induction relative as [|x [|y relative] IH]; intros entries path Hne; [done| |].
  - set (step := fun e : str * Node => if bool_decide (e.1 = x) then (None : option (str * Node), true) else (Some e, false)).
    change (stripped (strip_below [x]) entries) with (stripped (rebuild step) entries).
    rewrite rebuild_stripped by (intros e; unfold step; by case_bool_decide).
    assert (forall e, e ∈ omap (fun e => (step e).1) entries <-> e ∈ entries /\ x <> e.1) as Hel.
    { intros e. rewrite list_elem_of_omap. unfold step. split.
      - intros (e' & He' & H). case_bool_decide; [done|]. injection H as ->. split; congruence.
      - intros [He Hx]. exists e. split; [done|]. by rewrite bool_decide_eq_false_2. }
    destruct path as [|n [|n' rest]]; [simpl; tauto|simpl; rewrite Hel; simpl; rewrite andb_true_r, bool_decide_eq_false; done|].
    rewrite !leaf_at_cons by done. setoid_rewrite Hel. simpl. rewrite andb_true_r, bool_decide_eq_false. naive_solver.
  - set (strip := strip_below (y :: relative)) in *.
    change (stripped (strip_below (x :: y :: relative)) entries)
      with (stripped (rebuild (prune_where (fun n => bool_decide (n = x)) strip)) entries).
    destruct path as [|n [|n' rest]]; [simpl; tauto|rewrite prune_leaf; simpl; rewrite andb_false_r; naive_solver|].
    rewrite prune_dir, leaf_at_cons by done. cbn [is_prefix]. destruct (decide (n = x)) as [->|Hn].
    + rewrite !bool_decide_eq_true_2 by done. setoid_rewrite IH; [|done..]. cbn [andb is_prefix]. naive_solver.
    + rewrite !(bool_decide_eq_false_2 (_ = _)) by congruence. cbn [andb]. naive_solver.
Qed.

Lemma strip_one_leaf t entries path object :
  t.(relative) <> [] ->
  leaf_at (stripped (strip_one t) entries) path object <-> leaf_at entries path object /\ covers t path = false.
Proof.
  intros Hne. change (stripped (strip_one t) entries) with (stripped (rebuild (prune_where (matches_root t) (strip_below t.(relative)))) entries).
  destruct path as [|n [|n' rest]]; [simpl; tauto| |].
  - rewrite prune_leaf. unfold covers. destruct (relative t); [done|]. simpl. rewrite andb_false_r. naive_solver.
  - rewrite prune_dir, leaf_at_cons by done. unfold covers. destruct (matches_root t n); cbn [andb].
    + setoid_rewrite strip_below_leaf; [|done]. naive_solver.
    + naive_solver.
Qed.

Lemma strip_tree_leaf targets entries path object :
  Forall (fun t => t.(relative) <> []) targets ->
  leaf_at (strip_tree targets entries) path object <->
  leaf_at entries path object /\ forall t, t ∈ targets -> covers t path = false.
Proof.
  intros Ht. revert entries. induction Ht as [|t targets Ht Hts IH]; intros entries.
  - simpl. split; [intros H; split; [done|by intros t ?%elem_of_nil]|by intros [H _]].
  - change (strip_tree (t :: targets) entries) with (strip_tree targets (stripped (strip_one t) entries)).
    rewrite IH, strip_one_leaf by done. setoid_rewrite elem_of_cons. naive_solver.
Qed.

(** ** The manifest *)

Definition MANIFEST_NAMES : list str := [u!".mise-history"; u!"manifest.json"].

Lemma leaf_at_app a b path object : leaf_at (a ++ b) path object <-> leaf_at a path object \/ leaf_at b path object.
Proof.
  destruct path as [|n [|n' rest]]; [simpl; tauto|simpl; apply elem_of_app|]. rewrite !leaf_at_cons by done.
  setoid_rewrite elem_of_app. naive_solver.
Qed.

Lemma set_first_split name old new entries :
  entry_named name entries = Some old ->
  exists l1 l2, entries = l1 ++ (name, old) :: l2 /\ set_first name new entries = l1 ++ (name, new) :: l2 /\
    entry_named name (set_first name new entries) = Some new.
Proof.
  unfold entry_named. induction entries as [|[n x] entries IH]; simpl; [done|]. case_bool_decide as En.
  - intros [= ->]. subst n. exists [], entries. simpl. by rewrite bool_decide_eq_true_2.
  - intros (l1 & l2 & -> & -> & E)%IH. exists ((n, x) :: l1), l2. simpl. by rewrite bool_decide_eq_false_2.
Qed.

Lemma set_first_leaf name old new entries path object :
  entry_named name entries = Some old ->
  (leaf_at [(name, new)] path object <-> leaf_at [(name, old)] path object) ->
  leaf_at (set_first name new entries) path object <-> leaf_at entries path object.
Proof.
  intros (l1 & l2 & -> & -> & _)%(set_first_split _ _ new) H.
  change ((name, new) :: l2) with ([(name, new)] ++ l2). change ((name, old) :: l2) with ([(name, old)] ++ l2).
  rewrite !leaf_at_app. tauto.
Qed.

Section Json.

Context (read_manifest : oid -> result PurgeError Manifest) (manifest_blob : Manifest -> oid).

#[local] Abbreviation manifest_of := (read_gix read_manifest).
#[local] Abbreviation strip_all := (strip read_manifest manifest_blob).

Lemma read_gix_Some tree m :
  manifest_of tree = Ok (Some m) ->
  exists entries object, entry_named u!".mise-history" tree = Some (Dir entries) /\
    entry_named u!"manifest.json" entries = Some (Leaf u!"100644" object) /\ read_manifest object = Ok m.
Proof.
  unfold read_gix. destruct (entry_named _ tree) as [[|entries]|] eqn:Et; [done| |done].
  destruct (entry_named u!"manifest.json" entries) as [[mode o|]|] eqn:Ee; [|done..]. case_bool_decide; [|done]. subst mode.
  destruct (read_manifest o) eqn:E; cbn; [|done..]. intros [= ->]. by exists entries, o.
Qed.

Lemma compose_manifest_spec tree m object :
  manifest_of tree = Ok (Some m) ->
  manifest_of (compose_manifest tree object) = rmap Some (read_manifest object) /\
  forall path o, path <> MANIFEST_NAMES -> leaf_at (compose_manifest tree object) path o <-> leaf_at tree path o.
Proof.
  intros (entries & old & Et & Ee & _)%read_gix_Some. unfold compose_manifest. rewrite Et. split.
  - destruct (set_first_split _ _ (Dir (set_first u!"manifest.json" (Leaf u!"100644" object) entries)) _ Et) as (_ & _ & _ & _ & E1).
    destruct (set_first_split _ _ (Leaf u!"100644" object) _ Ee) as (_ & _ & _ & _ & E2).
    unfold read_gix. by rewrite E1, E2, bool_decide_eq_true_2.
  - intros path o Hp. eapply set_first_leaf; [exact Et|].
    destruct path as [|n [|n' rest]]; [simpl; tauto|simpl; rewrite !list_elem_of_singleton; naive_solver|].
    rewrite !leaf_at_cons by done.
    assert (n <> u!".mise-history" \/ n' :: rest <> [u!"manifest.json"]) as Hn.
    { destruct (decide (n = u!".mise-history")) as [->|]; [right|by left]. intros E. apply Hp. by rewrite E. }
    setoid_rewrite list_elem_of_singleton. destruct (decide (n = u!".mise-history")) as [->|Hne]; [|naive_solver].
    destruct Hn as [Hn|Hn]; [done|].
    assert (forall o', leaf_at (set_first u!"manifest.json" (Leaf u!"100644" object) entries) (n' :: rest) o' <->
                       leaf_at entries (n' :: rest) o') as Hi.
    { intros o'. eapply set_first_leaf; [exact Ee|]. destruct rest as [|n'' rest].
      - simpl. rewrite !list_elem_of_singleton. split; intros [= -> _]; done.
      - rewrite !leaf_at_cons by done. setoid_rewrite list_elem_of_singleton. naive_solver. }
    split; intros (sub & [= ->] & H); eexists; (split; [done|]); by apply Hi.
Qed.

(** A manifest can be read back with fewer permissions. *)
Context (Hjson : forall o m p, read_manifest o = Ok m -> p ⊆ m.(permissions) ->
  read_manifest (manifest_blob (with_permissions p m)) = Ok (with_permissions p m)).

(** What is left of a tree: every other file, no covered one, and a manifest without covered permissions. *)
Lemma strip_spec targets tree tree' :
  Forall (fun t => t.(relative) <> []) targets -> strip_all targets tree = Ok tree' ->
  (forall path object, path <> MANIFEST_NAMES ->
     leaf_at tree' path object <-> leaf_at tree path object /\ forall t, t ∈ targets -> covers t path = false) /\
  (forall m, manifest_of tree' = Ok (Some m) -> forall path t, path ∈ dom m.(permissions) -> t ∈ targets -> covers_branch_path t path = false).
Proof.
  intros Ht. unfold strip, strip_permissions. set (tree1 := strip_tree targets tree).
  assert (forall path object, leaf_at tree1 path object <-> leaf_at tree path object /\ forall t, t ∈ targets -> covers t path = false) as H1
    by (intros path object; by apply strip_tree_leaf).
  assert (forall m path t, path ∈ dom (kept_permissions targets m).(permissions) -> t ∈ targets -> covers_branch_path t path = false) as Hkept.
  { intros m path t [bits Hb]%elem_of_dom Hin. unfold kept_permissions, with_permissions in Hb. cbn [permissions] in Hb.
    apply map_lookup_filter_Some in Hb as [_ Hb]. simpl in Hb. destruct (covers_branch_path t path) eqn:E; [|done].
    assert (existsb (fun t => covers_branch_path t path) targets = true); [|congruence].
    apply existsb_exists. exists t. split; [by apply list_elem_of_In|done]. }
  destruct (manifest_of tree1) as [[m|]|e|] eqn:Em; cbn [rbind]; [| |done..].
  - case_bool_decide as Es; intros [= <-].
    + split; [by intros path object _|]. intros m'. rewrite Em. intros [= <-].
      assert (kept_permissions targets m = m) as E.
      { unfold kept_permissions, with_permissions in *. cbn [permissions] in Es. destruct m as [f es ex rs ps]. cbn in *. f_equal.
        apply map_subseteq_size_eq; [apply map_filter_subseteq|lia]. }
      rewrite <- E. intros path t. apply Hkept.
    + destruct (compose_manifest_spec tree1 m (manifest_blob (kept_permissions targets m)) Em) as [Hr Hl].
      split; [intros path object Hp; by rewrite Hl|]. intros m' Hm' path t. apply read_gix_Some in Em as (_ & o & _ & _ & Eo).
      rewrite Hr in Hm'. unfold kept_permissions in Hm' at 1. rewrite (Hjson o) in Hm'; [|done|apply map_filter_subseteq].
      injection Hm' as <-. apply Hkept.
  - intros [= <-]. split; [by intros path object _|]. intros m. rewrite Em. done.
Qed.

End Json.

(** ** The walk *)

#[local] Abbreviation Objects := (gmap oid Commit) (only parsing).
#[local] Abbreviation CommitMap := (gmap oid Rewritten) (only parsing).

(** One commit is reached from another by parents. *)
Definition parent_of (objs : Objects) (child parent : oid) : Prop :=
  exists c, objs !! child = Some c /\ parent ∈ c.(parents).

Definition reaches (objs : Objects) : oid -> oid -> Prop := rtc (parent_of objs).

(** A list of commits in which parents come before their children, each commit once ([--topo-order], reversed). *)
Definition parents_first (objs : Objects) (commits : list oid) : Prop :=
  forall l1 c l2, commits = l1 ++ c :: l2 -> (c ∉ l1) /\ exists k, objs !! c = Some k /\ forall p, p ∈ k.(parents) -> p ∈ l1.

(** The tree a commit started from. *)
Definition parent_tree (objs : Objects) (k : Commit) : option GitTree :=
  match head k.(parents) with Some p => tree <$> objs !! p | None => Some [] end.

Section Walk.

Context (read_manifest : oid -> result PurgeError Manifest) (manifest_blob : Manifest -> oid) {Rest : Type}
  (parse_record : str -> result PurgeError (CommitRecord Rest)) (print_record : CommitRecord Rest -> str)
  (same_json : str -> str -> bool) (annotated : str -> option oid)
  (first_text : str -> result PurgeError (option oid)) (with_first_text : str -> oid -> str)
  (hash : Commit -> oid) {Hhash : Inj (=) (=) hash} (targets : list Target) (objs0 : Objects).

#[local] Abbreviation rewrite_one :=
  (rewrite read_manifest manifest_blob parse_record print_record same_json annotated first_text with_first_text hash targets).
#[local] Abbreviation rewrite_commits :=
  (rewrite_all read_manifest manifest_blob parse_record print_record same_json annotated first_text with_first_text hash targets).
#[local] Abbreviation strip_all := (strip read_manifest manifest_blob targets).

(** Commits that annotate another one change no file, as [write_annotation] makes them. *)
Context (Hannotations : forall c k, objs0 !! c = Some k -> annotation_target annotated k.(message) <> None ->
  parent_tree objs0 k = Some k.(tree)).

(** What a commit became. *)
Definition image (w : Walk) (c : oid) (k : Commit) : Prop :=
  exists t, strip_all k.(tree) = Ok t /\
  match w.(map_) !! c with
  | Some (Kept n) =>
      exists k', w.(objects) !! n = Some k' /\ k'.(tree) = t /\ k'.(parents) = new_parents w.(map_) k.(parents) /\
        k'.(author) = k.(author) /\ k'.(committer) = k.(committer)
  | Some (Dropped near) =>
      near = nearest_survivor w.(map_) k.(parents) /\ length k.(parents) <= 1 /\
      exists parent, parent_tree objs0 k = Some parent /\ strip_all parent = Ok t
  | None => False
  end.

Definition walked (done : list oid) (w : Walk) : Prop :=
  objs0 ⊆ w.(objects) /\ named_by hash w.(objects) /\ (forall c, is_Some (w.(map_) !! c) <-> c ∈ done) /\
  forall c, c ∈ done -> exists k, objs0 !! c = Some k /\ (forall p, p ∈ k.(parents) -> p ∈ done) /\ image w c k.

Lemma remap_insert (m : CommitMap) c r p : p <> c -> remap (<[c := r]> m) p = remap m p.
Proof. intros H. unfold remap. by rewrite lookup_insert_ne. Qed.

Lemma new_parents_insert (m : CommitMap) c r ps : c ∉ ps -> new_parents (<[c := r]> m) ps = new_parents m ps.
Proof.
  intros H. unfold new_parents. f_equal. induction ps as [|p ps IH]; csimpl; [done|]. apply not_elem_of_cons in H as [Hp H].
  rewrite remap_insert, IH by done. done.
Qed.

Lemma nearest_insert (m : CommitMap) c r ps : c ∉ ps -> nearest_survivor (<[c := r]> m) ps = nearest_survivor m ps.
Proof.
  intros H. unfold nearest_survivor. destruct ps as [|p ps]; [done|]. apply not_elem_of_cons in H as [Hp _]. simpl. by apply remap_insert.
Qed.

Lemma image_grows (w w' : Walk) c r c' k :
  w.(objects) ⊆ w'.(objects) -> w'.(map_) = <[c := r]> w.(map_) -> c' <> c -> c ∉ k.(parents) -> image w c' k -> image w' c' k.
Proof.
  intros Ho Hm Hc Hp (t & Ht & H). exists t. split; [done|]. rewrite Hm, lookup_insert_ne by done.
  destruct (map_ w !! c') as [[n|near]|]; [| |done].
  - destruct H as (k' & Hk & E1 & E2 & E3). exists k'. split; [by eapply lookup_weaken|]. by rewrite new_parents_insert.
  - by rewrite nearest_insert.
Qed.

Lemma rewrite_spec done_ w c w' k :
  walked done_ w -> c ∉ done_ -> objs0 !! c = Some k -> (forall p, p ∈ k.(parents) -> p ∈ done_) ->
  rewrite_one c w = Ok w' -> walked (done_ ++ [c]) w'.
Proof.
  intros (Ho & Hn & Hm & Hi) Hc Hk Hps. unfold rewrite.
  assert (w.(objects) !! c = Some k) as -> by (by eapply lookup_weaken).
  destruct (holds_target targets (tree k)) as [found|e|]; cbn [rbind]; [|done..].
  destruct (strip_all (tree k)) as [t|e|] eqn:Et; cbn [rbind]; [|done..].
  destruct (match head (parents k) with Some _ => _ | None => _ end) as [pt|e|] eqn:Ept; cbn [rbind]; [|done..].
  assert (parent_tree objs0 k = Some pt) as Hpt.
  { unfold parent_tree. destruct (head (parents k)) as [p|] eqn:Ep; [|by injection Ept as ->].
    apply head_Some_elem_of, Hps in Ep. destruct (Hi p Ep) as (kp & Hkp & _). unfold output_tree_of in Ept.
    assert (w.(objects) !! p = Some kp) as E by (by eapply lookup_weaken). rewrite E in Ept. injection Ept as <-. by rewrite Hkp. }
  destruct (strip_all pt) as [pst|e|] eqn:Epst; cbn [rbind]; [|done..].
  assert (c ∉ parents k) as Hself by (intros H; by apply Hc, Hps).
  (* every other commit keeps its image, and this one has one *)
  assert (forall w1 r, w.(objects) ⊆ w1.(objects) -> named_by hash w1.(objects) -> w1.(map_) = <[c := r]> w.(map_) ->
            image w1 c k -> walked (done_ ++ [c]) w1) as Hstep.
  { intros w1 r Ho1 Hn1 Hm1 Himg. split_and!; [by etrans|done| |].
    - intros c'. rewrite Hm1, elem_of_app, list_elem_of_singleton. destruct (decide (c = c')) as [<-|Hne].
      + rewrite lookup_insert_eq. naive_solver.
      + rewrite lookup_insert_ne, Hm by done. naive_solver.
    - intros c' [Hc'|Hc'%list_elem_of_singleton]%elem_of_app; [|subst c'].
      + destruct (Hi c' Hc') as (k' & Hk' & Hp' & Himg'). exists k'. split_and!; [done|set_solver|].
        eapply image_grows; [done|exact Hm1|by intros ->| |done]. intros H. by apply Hc, Hp'.
      + exists k. split_and!; [done|set_solver|done]. }
  destruct (_ && (_ || _)) eqn:Edrop.
  - intros [= <-]. apply andb_true_iff in Edrop as [Hlen%Nat.leb_le Hd]. eapply Hstep; [done|done|done|].
    exists t. split; [done|]. cbn [map_]. rewrite lookup_insert_eq, nearest_insert by done. split_and!; [done..|].
    apply orb_true_iff in Hd as [[_ Hd]%andb_true_iff|Hd]; [apply bool_decide_eq_true in Hd; subst pst; by exists pt|].
    exists (tree k). split; [|done]. apply (Hannotations c k Hk). by destruct (annotation_target annotated (message k)).
  - destruct (remap_message _ _ _ _ _ _ _) as [msg|e|]; cbn [rbind]; [|done..].
    destruct (_ && _ && _) eqn:Esame.
    + intros [= <-]. bool_prop. eapply Hstep; [done|done|done|]. exists t. split; [done|]. cbn [map_ objects].
      rewrite lookup_insert_eq, new_parents_insert by done. exists k. split_and!; [by eapply lookup_weaken|congruence..].
    + unfold commit_tree_as. intros [= <-].
      destruct (insert_named hash (objects w) (mkCommit t (new_parents (map_ w) (parents k)) (author k) (committer k) msg) Hn) as [Hg Hn'].
      eapply Hstep; [exact Hg|exact Hn'|done|]. exists t. split; [done|]. cbn [map_ objects].
      rewrite lookup_insert_eq, new_parents_insert by done. eexists. rewrite lookup_insert_eq. split_and!; done.
Qed.

Lemma rewrite_all_spec commits done_ w w' :
  walked done_ w -> parents_first objs0 (done_ ++ commits) -> rewrite_commits commits w = Ok w' -> walked (done_ ++ commits) w'.
Proof.
  revert done_ w. induction commits as [|c commits IH]; intros done_ w Hw Hpf H; cbn [rewrite_all] in H.
  - injection H as <-. by rewrite app_nil_r.
  - destruct (rewrite_one c w) as [w1|e|] eqn:E; cbn [rbind] in H; [|done..].
    destruct (Hpf done_ c commits eq_refl) as (Hc & k & Hk & Hp).
    assert (walked (done_ ++ [c]) w1) as Hw1 by (by eapply rewrite_spec).
    replace (done_ ++ c :: commits) with ((done_ ++ [c]) ++ commits) in * by (by rewrite <- app_assoc). by eapply IH.
Qed.

(** *** After the walk *)

Lemma parents_ind commits (P : oid -> Prop) :
  parents_first objs0 commits ->
  (forall c k, c ∈ commits -> objs0 !! c = Some k -> (forall p, p ∈ k.(parents) -> p ∈ commits /\ P p) -> P c) ->
  forall c, c ∈ commits -> P c.
Proof using Type.
  clear - objs0.
  intros Hpf Hstep. enough (forall l1 l2, commits = l1 ++ l2 -> forall c, c ∈ l1 -> P c) as H
    by (intros c Hc; apply (H commits []); [by rewrite app_nil_r|done]).
  intros l1. induction l1 as [|x l1 IH] using rev_ind; intros l2 Hl c Hc; [by apply elem_of_nil in Hc|].
  rewrite <- app_assoc in Hl. simpl in Hl. apply elem_of_app in Hc as [Hc|Hc%list_elem_of_singleton].
  - by apply (IH (x :: l2)).
  - subst c. destruct (Hpf l1 x l2 Hl) as (_ & k & Hk & Hp). apply (Hstep x k); [rewrite Hl; set_solver|done|].
    intros p Hin. split; [rewrite Hl; set_solver|]. apply (IH (x :: l2)); auto.
Qed.

Lemma reaches_unfold objs c x :
  reaches objs c x <-> c = x \/ exists k p, objs !! c = Some k /\ p ∈ k.(parents) /\ reaches objs p x.
Proof using Type.
  clear. split.
  - intros H. inversion H as [|y p z (k & Hk & Hp) Hr]; subst; [by left|right; by exists k, p].
  - intros [->|(k & p & Hk & Hp & H)]; [done|]. eapply rtc_l; [|exact H]. by exists k.
Qed.

Context (commits : list oid) (w : Walk) (Hpf : parents_first objs0 commits) (Hw : walked commits w).

(** The new branch has what became of the old one's commits. *)
Lemma survivors c x :
  c ∈ commits ->
  (exists n, remap w.(map_) c = Some n /\ reaches w.(objects) n x) <-> exists a, reaches objs0 c a /\ w.(map_) !! a = Some (Kept x).
Proof using Hpf Hw.
  clear - Hpf Hw. destruct Hw as (Ho & Hn & Hm & Hi). revert c. apply (parents_ind _ _ Hpf). intros c k Hc Hk Hps.
  destruct (Hi c Hc) as (k0 & Hk0 & _ & (t & Ht & Himg)). assert (k0 = k) as -> by congruence.
  assert (forall a, reaches objs0 c a <-> c = a \/ exists p, p ∈ k.(parents) /\ reaches objs0 p a) as Hr.
  { intros a. rewrite reaches_unfold. naive_solver. }
  unfold remap at 1. destruct (map_ w !! c) as [[n|near]|] eqn:E; [| |done].
  - destruct Himg as (k' & Hk' & _ & Hpar & _).
    assert (forall m, m ∈ k'.(parents) <-> exists p, p ∈ k.(parents) /\ remap w.(map_) p = Some m) as Hel.
    { intros m. rewrite Hpar. unfold new_parents. rewrite elem_of_dedup_from, list_elem_of_omap. set_solver. }
    transitivity (n = x \/ exists p, p ∈ k.(parents) /\ exists m, remap w.(map_) p = Some m /\ reaches w.(objects) m x).
    + transitivity (reaches w.(objects) n x); [naive_solver|]. rewrite reaches_unfold. naive_solver.
    + setoid_rewrite Hr. split.
      * intros [->|(p & Hp & H)]; [exists c; auto|]. apply (Hps p Hp) in H as (a & Ha & Hx). naive_solver.
      * intros (a & [<-|(p & Hp & Ha)] & Hx); [left; congruence|]. right. exists p. split; [done|]. apply (Hps p Hp). eauto.
  - destruct Himg as (-> & Hlen & _). setoid_rewrite Hr. unfold nearest_survivor.
    destruct (parents k) as [|p [|p' ps]]; simpl in *; [|clear Hlen|lia].
    + split; [naive_solver|]. intros (a & [<-|(p & ?%elem_of_nil & _)] & Hx); [congruence|done].
    + destruct (Hps p) as [_ Hp]; [by left|]. setoid_rewrite Hp. split; [set_solver|].
      intros (a & [<-|(p' & ->%list_elem_of_singleton & Ha)] & Hx); [congruence|]. eauto.
Qed.

(** The nearest survivor has the stripped tree. *)
Lemma stripped_head c k :
  c ∈ commits -> objs0 !! c = Some k ->
  match remap w.(map_) c with
  | Some n => exists k', w.(objects) !! n = Some k' /\ strip_all k.(tree) = Ok k'.(tree)
  | None => strip_all k.(tree) = strip_all []
  end.
Proof using Hpf Hw.
  clear - Hpf Hw. destruct Hw as (Ho & Hn & Hm & Hi). intros Hc. revert c Hc k.
  apply (parents_ind commits (fun c => forall k, objs0 !! c = Some k -> _) Hpf). intros c k Hc Hk Hps k0 Hk0.
  assert (k0 = k) as -> by congruence. destruct (Hi c Hc) as (k1 & Hk1 & _ & (t & Ht & Himg)). assert (k1 = k) as -> by congruence.
  unfold remap at 1. destruct (map_ w !! c) as [[n|near]|] eqn:E; [| |done].
  - destruct Himg as (k' & Hk' & Htree & _). exists k'. by rewrite Htree.
  - destruct Himg as (-> & Hlen & parent & Hparent & Hs). unfold nearest_survivor, parent_tree in *.
    destruct (parents k) as [|p ps]; simpl in *; [by injection Hparent as <-; congruence|].
    destruct (Hps p) as [_ Hp]; [by left|]. destruct (objs0 !! p) as [kp|]; [|done]. injection Hparent as <-.
    specialize (Hp kp eq_refl). rewrite Ht, <- Hs. done.
Qed.
End Walk.

(** ** The purge *)

(** What is left of a tree: no file inside a target, every other one as it was, and no permission of a path inside
    one. *)
Definition erased (read_manifest : oid -> result PurgeError Manifest) (targets : list Target) (old new : GitTree) : Prop :=
  (forall path object, path <> MANIFEST_NAMES ->
     leaf_at new path object <-> leaf_at old path object /\ forall t, t ∈ targets -> ~ inside t path) /\
  forall m, read_gix read_manifest new = Ok (Some m) ->
    forall path t, path ∈ dom m.(permissions) -> t ∈ targets -> ~ inside t (split_on (N.eqb c!"/") path).

Lemma strip_erased read_manifest manifest_blob (Hjson : forall o m p, read_manifest o = Ok m -> p ⊆ m.(permissions) ->
    read_manifest (manifest_blob (with_permissions p m)) = Ok (with_permissions p m)) targets t t' :
  Forall (fun t => t.(relative) <> []) targets -> strip read_manifest manifest_blob targets t = Ok t' ->
  erased read_manifest targets t t'.
Proof.
  intros Htargets Ht'. destruct (strip_spec read_manifest manifest_blob Hjson targets t t' Htargets Ht') as [H1 H2]. split.
  - intros path object Hp. rewrite H1 by done. by setoid_rewrite covers_outside.
  - intros m Hm path target Hp Hin. apply covers_outside. exact (H2 m Hm path target Hp Hin).
Qed.

Lemma all_on_origin_none targets w published c :
  all_on_origin targets w published = Ok [] -> c ∈ published -> on_origin targets w c = Ok false.
Proof.
  induction published as [|c' published IH]; [by intros _ ?%elem_of_nil|]. simpl. intros H.
  destruct (on_origin targets w c') as [on_it|e|] eqn:E; cbn [rbind] in H; [|done..].
  destruct (all_on_origin targets w published) as [others|e|]; cbn [rbind] in H; [|done..].
  destruct on_it; [done|]. injection H as ->. intros [->|Hc]%elem_of_cons; [done|by apply IH].
Qed.

(** What [purge] promises of the branch it moves, when [name] is what the old commits are called. *)
Definition purged_branch (read_manifest : oid -> result PurgeError Manifest) (targets : list Target)
    (objs objs' : Objects) (head new_head : oid) (published : list oid) (index index' : list (N * oid))
    (name : oid -> option oid) : Prop :=
  (* the new branch has what became of the old one's commits, in their order *)
  (forall x, reaches objs' new_head x <-> exists c, reaches objs head c /\ name c = Some x) /\
  (forall c a x y, reaches objs head c -> reaches objs c a -> name c = Some x -> name a = Some y -> reaches objs' x y) /\
  (* a survivor is its old self without the targets *)
  (forall c x, reaches objs head c -> name c = Some x ->
     exists k k', objs !! c = Some k /\ objs' !! x = Some k' /\ k'.(author) = k.(author) /\ k'.(committer) = k.(committer) /\
       erased read_manifest targets k.(tree) k'.(tree)) /\
  (* a commit that went had changed nothing else *)
  (forall c, reaches objs head c -> name c = None ->
     exists k before, objs !! c = Some k /\ length k.(parents) <= 1 /\ parent_tree objs k = Some before /\
       forall path object, path <> MANIFEST_NAMES -> (forall t, t ∈ targets -> ~ inside t path) ->
         leaf_at k.(tree) path object <-> leaf_at before path object) /\
  (* the head is the old head without the targets *)
  (exists k k', objs !! head = Some k /\ objs' !! new_head = Some k' /\ erased read_manifest targets k.(tree) k'.(tree)) /\
  (* what is published stays *)
  (forall c, c ∈ published -> reaches objs head c -> name c = Some c) /\
  index' = omap (fun e => (e.1,.) <$> name e.2) index.

Section Purge.

Context (read_manifest : oid -> result PurgeError Manifest) (manifest_blob : Manifest -> oid) {Rest : Type}
  (parse_record : str -> result PurgeError (CommitRecord Rest)) (print_record : CommitRecord Rest -> str)
  (same_json : str -> str -> bool) (annotated : str -> option oid)
  (first_text : str -> result PurgeError (option oid)) (with_first_text : str -> oid -> str) (hash : Commit -> oid).

(** C6. A purge that moves the branch erases its targets from every commit that can still be reached, and nothing
    else: the branch has what became of the old commits, in their order, with their authors, committers and every
    file outside the targets; a commit goes only if it had changed nothing else; the head is the old head without
    the targets; commits of the origin keep their names; and the index follows. The commits are listed parents first
    and are those of the branch; commits that annotate another one change no file; a manifest that was read can be
    written with fewer permissions and read back. *)
Theorem purge_erases (targets : list Target) (objs : Objects) (head : oid) (commits published : list oid)
    (index : list (N * oid)) (outcome : Outcome) (objs' : Objects) (new_head : oid) (index' : list (N * oid))
    (Hhash : Inj (=) (=) hash) (Hnamed : named_by hash objs)
    (Hjson : forall o m p, read_manifest o = Ok m -> p ⊆ m.(permissions) ->
      read_manifest (manifest_blob (with_permissions p m)) = Ok (with_permissions p m))
    (Hannotations : forall c k, objs !! c = Some k -> annotation_target annotated k.(message) <> None ->
      parent_tree objs k = Some k.(tree))
    (Htargets : Forall (fun t => t.(relative) <> []) targets)
    (Horder : parents_first objs commits) (Hbranch : forall c, c ∈ commits <-> reaches objs head c)
    (Hpurge : purge read_manifest manifest_blob parse_record print_record same_json annotated first_text with_first_text hash
      targets objs head commits (Some published) index true = Ok (outcome, objs', Some (new_head, index'))) :
  objs ⊆ objs' /\ exists name, purged_branch read_manifest targets objs objs' head new_head published index index' name.
Proof.
  unfold purge in Hpurge.
  destruct (rewrite_all _ _ _ _ _ _ _ _ _ _ _ _) as [w|e|] eqn:Ew; cbn [rbind] in Hpurge; [|done..].
  destruct (all_on_origin targets w published) as [refused|e|] eqn:Eo; cbn [rbind] in Hpurge; [|done..].
  destruct refused; [|done]. destruct (is_noop _ || _); [done|].
  destruct (remap (map_ w) head) as [n|] eqn:En; [|done]. injection Hpurge as <- <- <- <-.
  assert (walked read_manifest manifest_blob hash targets objs commits w) as Hw.
  { eapply (rewrite_all_spec _ _ _ _ _ _ _ _ _ _ _ Hannotations commits []); [|exact Horder|exact Ew].
    split_and!; [done|done| |]; intros c; [|by intros ?%elem_of_nil]. cbn [map_]. rewrite lookup_empty, elem_of_nil. split; [by intros []|done]. }
  pose proof Hw as (Ho & _ & Hm & Hi). split; [done|].
  exists (fun c => match w.(map_) !! c with Some (Kept x) => Some x | _ => None end).
  assert (forall c x, match w.(map_) !! c with Some (Kept x) => Some x | _ => None end = Some x <-> w.(map_) !! c = Some (Kept x)) as Hname.
  { intros c x. destruct (map_ w !! c) as [[]|]; naive_solver. }
  assert (forall t t', strip read_manifest manifest_blob targets t = Ok t' -> erased read_manifest targets t t') as Her
    by (intros t t' Ht'; exact (strip_erased read_manifest manifest_blob Hjson targets t t' Htargets Ht')).
  assert (head ∈ commits) as Hhead by (by apply Hbranch).
  split_and!.
  - intros x. setoid_rewrite Hname. rewrite <- (survivors _ _ _ _ _ _ _ Horder Hw) by done. rewrite En. naive_solver.
  - intros c a x y Hc Ha Hx%Hname Hy%Hname. apply Hbranch in Hc.
    destruct (proj2 (survivors _ _ _ _ _ _ _ Horder Hw c y Hc)) as (x' & Hx' & Hr); [by exists a|].
    unfold remap in Hx'. rewrite Hx in Hx'. by injection Hx' as ->.
  - intros c x Hc%Hbranch Hx%Hname. destruct (Hi c Hc) as (k & Hk & _ & (t & Ht & Himg)). rewrite Hx in Himg.
    destruct Himg as (k' & Hk' & Ht' & _ & Ha & Hcm). exists k, k'. split_and!; [done..|]. apply Her. by rewrite Ht'.
  - intros c Hc%Hbranch Hn. destruct (Hi c Hc) as (k & Hk & _ & (t & Ht & Himg)).
    destruct (map_ w !! c) as [[x|near]|]; [done| |done]. destruct Himg as (_ & Hlen & before & Hb & Hs).
    exists k, before. split_and!; [done..|]. intros path object Hp Hcov.
    pose proof (proj1 (Her _ _ Ht) path object Hp). pose proof (proj1 (Her _ _ Hs) path object Hp). naive_solver.
  - destruct (Hi head Hhead) as (k & Hk & _). pose proof (stripped_head _ _ _ _ _ _ _ Horder Hw head k Hhead Hk) as H.
    rewrite En in H. destruct H as (k' & Hk' & H). exists k, k'. split_and!; [done..|by apply Her].
  - intros c Hp Hc%Hbranch. apply Hm in Hc as [r Hr]. pose proof (all_on_origin_none _ _ _ _ Eo Hp) as H.
    unfold on_origin in H. rewrite Hr in H |- *. destruct r as [x|near]; [|done]. by case_bool_decide; subst.
  - unfold new_index. induction index as [|[i c] index IH]; csimpl; [done|].
    destruct (map_ w !! c) as [[x|near]|]; csimpl; by rewrite IH.
Qed.

End Purge.

(** ** A history with a purged directory *)

(** Contents as numbers: what is written can be told apart from what follows. *)
Definition prefix_code {A} (enc : A -> str) : Prop := forall x y r r', enc x ++ r = enc y ++ r' -> x = y /\ r = r'.

Definition enc_text (s : str) : str := N.of_nat (length s) :: s.

Definition enc_list {A} (enc : A -> str) (l : list A) : str := N.of_nat (length l) :: flat_map enc l.

Definition enc_pair {A B} (ea : A -> str) (eb : B -> str) (p : A * B) : str := ea p.1 ++ eb p.2.

Fixpoint enc_node (x : Node) : str :=
  match x with
  | Leaf mode object => 0%N :: enc_pair enc_text enc_text (mode, object)
  | Dir entries => 1%N :: N.of_nat (length entries) :: flat_map (fun e => enc_text e.1 ++ enc_node e.2) entries
  end.

Lemma text_code : prefix_code enc_text.
Proof. intros x y r r' [= Hl%Nat2N.inj H]. by apply app_inj_1 in H. Qed.

Lemma list_code {A} (enc : A -> str) l l' r r' :
  (forall x, x ∈ l -> forall y r r', enc x ++ r = enc y ++ r' -> x = y /\ r = r') ->
  enc_list enc l ++ r = enc_list enc l' ++ r' -> l = l' /\ r = r'.
Proof.
  intros Henc [= Hl%Nat2N.inj H]. revert l' Hl H. induction l as [|x l IH]; intros [|y l'] Hl H; try done.
  simpl in *. rewrite <- !app_assoc in H. apply Henc in H as [-> H]; [|by left]. injection Hl as Hl.
  apply IH in H as [-> ->]; [done| |done]. intros z Hz. apply Henc. by right.
Qed.

Lemma pair_code {A B} (ea : A -> str) (eb : B -> str) : prefix_code ea -> prefix_code eb -> prefix_code (enc_pair ea eb).
Proof.
  intros Ha Hb [x1 x2] [y1 y2] r r'. unfold enc_pair. simpl. rewrite <- !app_assoc. by intros [-> [-> ->]%Hb]%Ha.
Qed.

Lemma node_code : prefix_code enc_node.
Proof.
  unfold prefix_code. fix IH 1. intros [m o|entries] [m' o'|entries'] r r' H; try done.
  - destruct (pair_code _ _ text_code text_code (m, o) (m', o') r r' (f_equal (drop 1) H)) as [[= -> ->] ->]. done.
  - destruct (list_code (enc_pair enc_text enc_node) entries entries' r r') as [-> ->]; [|exact (f_equal (drop 1) H)|done].
    clear - IH. induction entries as [|[n x] entries IHe]; [by intros ? ?%elem_of_nil|].
    intros e [->|He]%elem_of_cons; [|exact (IHe e He)]. intros [n' y] r r'. unfold enc_pair. simpl. rewrite <- !app_assoc.
    intros [-> [-> ->]%IH]%text_code. done.
Qed.

Definition sample_hash (c : Commit) : oid :=
  enc_pair enc_node (enc_pair (enc_list enc_text) (enc_pair (enc_list enc_text) enc_text))
    (Dir c.(tree), (c.(parents), ([c.(author).1.1; c.(author).1.2; c.(author).2; c.(committer).1.1; c.(committer).1.2; c.(committer).2],
      c.(message)))).

#[export] Instance sample_hash_inj : Inj (=) (=) sample_hash.
Proof.
  assert (prefix_code (enc_list enc_text)) as Hl by (intros l l' r r'; apply list_code; intros x _; apply text_code).
  intros [t ps [[a1 a2] a3] [[b1 b2] b3] m] [t' ps' [[a1' a2'] a3'] [[b1' b2'] b3'] m'] H.
  apply (f_equal (fun s => s ++ [])) in H. unfold sample_hash in H.
  apply pair_code in H as [H _]; [cbn in H; congruence|apply node_code|apply pair_code, pair_code; auto using text_code].
Qed.

(** *** Checkers of the hypotheses *)

Fixpoint parents_first_b (objs : Objects) (seen commits : list oid) : bool :=
  match commits with
  | [] => true
  | c :: rest =>
      negb (bool_decide (c ∈ seen)) &&
      match objs !! c with Some k => forallb (fun p => bool_decide (p ∈ seen)) k.(parents) | None => false end &&
      parents_first_b objs (seen ++ [c]) rest
  end.

Lemma parents_first_b_spec objs seen commits :
  parents_first_b objs seen commits = true ->
  forall l1 c l2, commits = l1 ++ c :: l2 ->
    (c ∉ seen ++ l1) /\ exists k, objs !! c = Some k /\ forall p, p ∈ k.(parents) -> p ∈ seen ++ l1.
Proof.
  revert seen. induction commits as [|x commits IH]; intros seen H [|y l1] c l2 [= -> Hl]; simpl in H.
  - apply andb_true_iff in H as [[H1%negb_true_iff%bool_decide_eq_false H2]%andb_true_iff _]. rewrite app_nil_r. split; [done|].
    destruct (objs !! c) as [k|]; [|done]. exists k. split; [done|]. intros p Hp%list_elem_of_In.
    rewrite forallb_forall in H2. by apply H2, bool_decide_eq_true in Hp.
  - apply andb_true_iff in H as [_ H]. destruct (IH _ H l1 c l2 Hl) as (H1 & H2). rewrite <- app_assoc in H1, H2. done.
Qed.

(** Each commit is the parent of a later one. *)
Fixpoint reached_b (objs : Objects) (seen rest : list oid) : bool :=
  match rest with
  | [] => true
  | c :: rest =>
      existsb (fun s => match objs !! s with Some k => bool_decide (c ∈ k.(parents)) | None => false end) seen &&
      reached_b objs (c :: seen) rest
  end.

Lemma reached_b_spec objs head seen rest :
  reached_b objs seen rest = true -> (forall c, c ∈ seen -> reaches objs head c) -> forall c, c ∈ rest -> reaches objs head c.
Proof.
  revert seen. induction rest as [|x rest IH]; intros seen H Hs c Hc; [by apply elem_of_nil in Hc|]. simpl in H.
  apply andb_true_iff in H as [(s & Hin%list_elem_of_In & Hx)%existsb_exists H].
  assert (reaches objs head x) as Hr.
  { destruct (objs !! s) as [k|] eqn:Ek; [|done]. apply bool_decide_eq_true in Hx. eapply rtc_r; [by apply Hs|]. by exists k. }
  apply elem_of_cons in Hc as [->|Hc]; [done|]. apply (IH (x :: seen)); [done| |done]. intros c' [->|]%elem_of_cons; auto.
Qed.

Lemma closed_reaches objs commits head c : parents_first objs commits -> head ∈ commits -> reaches objs head c -> c ∈ commits.
Proof.
  intros Hpf Hh Hr. induction Hr as [|x y z (k & Hk & Hp) _ IH]; [done|]. apply IH.
  apply list_elem_of_split in Hh as (l1 & l2 & E). destruct (Hpf l1 x l2 E) as (_ & k' & Hk' & H).
  assert (k' = k) as -> by congruence. rewrite E. apply elem_of_app. left. by apply H.
Qed.

(** *** The history *)

Definition sample_file (name object : str) : str * Node := (name, Leaf u!"100644" object).

Definition sample_tree (manifest : str) (home : GitTree) : GitTree :=
  [(u!".mise-history", Dir [sample_file u!"manifest.json" manifest]); (u!"home", Dir home)].

Definition sample_keys (object : str) : str * Node := (u!".ssh", Dir [sample_file u!"id" object]).

Definition sample_commit (t : GitTree) (parents : list oid) (message : str) : Commit :=
  mkCommit t parents (u!"a", u!"a@b", u!"1") (u!"c", u!"c@d", u!"2") message.

(** The second commit adds a directory of keys and the third changes it; the fourth annotates the third. *)
Definition sample_commits : list Commit :=
  let k0 := sample_commit (sample_tree u!"plain" [sample_file u!"a" u!"1"]) [] u!"first" in
  let k1 := sample_commit (sample_tree u!"keyed" [sample_keys u!"2"; sample_file u!"a" u!"1"]) [sample_hash k0] u!"keys" in
  let k2 := sample_commit (sample_tree u!"keyed" [sample_keys u!"3"; sample_file u!"a" u!"2"]) [sample_hash k1] u!"both" in
  let k3 := sample_commit (sample_tree u!"keyed" [sample_keys u!"4"; sample_file u!"a" u!"2"]) [sample_hash k2] u!"more keys" in
  let k4 := sample_commit k3.(tree) [sample_hash k3] (ANNOTATION_TRAILER ++ sample_hash k3) in
  let k5 := sample_commit (sample_tree u!"keyed" [sample_keys u!"4"; sample_file u!"a" u!"5"]) [sample_hash k4] u!"last" in
  [k0; k1; k2; k3; k4; k5].

Definition sample_manifest (p : gmap str N) : Manifest := with_permissions p Manifest_default.

Definition sample_key : str := u!"home/.ssh".

Definition sample_permissions : gmap str N := {[sample_key := 448%N]}.

(** Two manifests: with the permissions of the keys, and without. *)
Definition sample_read (object : oid) : result PurgeError Manifest :=
  if bool_decide (object = u!"keyed") then Ok (sample_manifest sample_permissions)
  else if bool_decide (object = u!"plain") then Ok (sample_manifest ∅) else Err BadManifest.

Definition sample_blob (m : Manifest) : oid :=
  match m.(permissions) !! sample_key with Some _ => u!"keyed" | None => u!"plain" end.

Lemma sample_json o m p :
  sample_read o = Ok m -> p ⊆ m.(permissions) -> sample_read (sample_blob (with_permissions p m)) = Ok (with_permissions p m).
Proof.
  assert (forall q : gmap str N, q ⊆ sample_permissions -> q = sample_permissions \/ q = ∅) as Hsub.
  { intros q H. destruct (q !! sample_key) as [v|] eqn:E.
    - left. apply (map_subseteq_size_eq _ _ H). apply (lookup_weaken _ _ _ _ E) in H as H'.
      unfold sample_permissions in *. apply lookup_singleton_Some in H' as [_ <-]. apply map_subseteq_size. by apply map_singleton_subseteq_l.
    - right. apply map_empty. intros k. destruct (q !! k) as [v|] eqn:Ek; [|done].
      apply (lookup_weaken _ _ _ _ Ek) in H as H'. unfold sample_permissions in H'. apply lookup_singleton_Some in H' as [<- _]. congruence. }
  intros Ho Hp. assert (p = sample_permissions /\ m = sample_manifest m.(permissions) \/ p = ∅ /\ m = sample_manifest m.(permissions)) as H.
  { unfold sample_read in Ho. case_bool_decide; [injection Ho as <-; destruct (Hsub p Hp); auto|].
    case_bool_decide; [|done]. injection Ho as <-. right. split; [|done]. apply map_empty. intros k.
    destruct (p !! k) eqn:E; [|done]. by apply (lookup_weaken _ _ _ _ E) in Hp. }
  destruct H as [[-> ->]|[-> ->]]; reflexivity.
Qed.

Definition sample_objects : Objects := list_to_map (map (fun k => (sample_hash k, k)) sample_commits).

Definition sample_names : list oid := map sample_hash sample_commits.

Definition sample_branch_head : oid := default [] (last sample_names).

Definition sample_targets : list Target := [mkTarget u!"~/.ssh" u!"home" [u!".ssh"]].

(** The origin has the first commit. *)
Definition published_root : list oid :=
  [sample_hash (sample_commit (sample_tree u!"plain" [sample_file u!"a" u!"1"]) [] u!"first")].

Definition sample_purge : result PurgeError (Outcome * Objects * option (oid * list (N * oid))) :=
  purge (Rest := unit) sample_read sample_blob (fun _ => Err BadTrailer) (fun _ => []) (fun _ _ => true) Some
    (fun text => Ok (Some text)) (fun _ new => new) sample_hash sample_targets sample_objects sample_branch_head sample_names
    (Some published_root)
    (imap (fun i c => (N.of_nat i, c)) sample_names) true.

(** The commits that changed keys only go, with the annotation of one of them; the later survivors get new names. *)
Example sample_purged :
  match sample_purge with
  | Ok (o, _, Some (_, index)) => (length o.(dropped), length o.(rewritten), o.(rehashed), map fst index)
  | _ => (0, 0, 0, [])
  end = (2, 2, 0, [0; 2; 5]%N).
Proof. vm_compute. reflexivity. Qed.

Lemma sample_parents_first : parents_first sample_objects sample_names.
Proof. intros l1 c l2 H. refine (parents_first_b_spec sample_objects [] sample_names _ l1 c l2 H). vm_compute. reflexivity. Qed.

Lemma sample_branch c : c ∈ sample_names <-> reaches sample_objects sample_branch_head c.
Proof.
  assert (sample_branch_head ∈ sample_names) as Hh by (refine (bool_decide_eq_true_1 _ _); vm_compute; reflexivity). split.
  - intros Hc. assert (c ∈ rev sample_names) as Hr by (by rewrite list_elem_of_In, <- in_rev, <- list_elem_of_In).
    change (rev sample_names) with (sample_branch_head :: tl (rev sample_names)) in Hr. apply elem_of_cons in Hr as [->|Hr]; [by constructor|].
    refine (reached_b_spec sample_objects sample_branch_head [sample_branch_head] _ _ _ c Hr); [vm_compute; reflexivity|].
    intros c' ->%list_elem_of_singleton. by constructor.
  - by apply closed_reaches, Hh; apply sample_parents_first.
Qed.

Lemma sample_named : named_by sample_hash sample_objects.
Proof.
  assert (map_Forall (fun h c => sample_hash c = h) sample_objects) as H by (refine (bool_decide_eq_true_1 _ _); vm_compute; reflexivity).
  intros h c Hc. by apply H.
Qed.

Lemma sample_annotations c k :
  sample_objects !! c = Some k -> annotation_target Some k.(message) <> None -> parent_tree sample_objects k = Some k.(tree).
Proof.
  assert (map_Forall (fun _ k => annotation_target Some k.(message) <> None -> parent_tree sample_objects k = Some k.(tree)) sample_objects) as H
    by (refine (bool_decide_eq_true_1 _ _); vm_compute; reflexivity).
  intros Hk. exact (H c k Hk).
Qed.

(** The keys are erased from the sample. *)
Example purge_erases_witness :
  match sample_purge with
  | Ok (_, objs', Some (new_head, index')) =>
      sample_objects ⊆ objs' /\ exists name,
        purged_branch sample_read sample_targets sample_objects objs' sample_branch_head new_head published_root
          (imap (fun i c => (N.of_nat i, c)) sample_names) index' name
  | _ => False
  end.
Proof.
  assert (match sample_purge with Ok (_, _, Some _) => true | _ => false end = true) as H by (vm_compute; reflexivity).
  destruct sample_purge as [[[outcome objs'] [[new_head index']|]]|e|] eqn:E; try discriminate H.
  unfold sample_purge in E. eapply purge_erases; [| | | | | | |exact E].
  - apply sample_hash_inj.
  - apply sample_named.
  - apply sample_json.
  - apply sample_annotations.
  - repeat constructor; discriminate.
  - apply sample_parents_first.
  - apply sample_branch.
Defined.
