(* ===== verification/ToolOptions.v ===== *)
(** * Tool options and where they come from ([src/toolset/tool_version_options.rs]; the layers of
    [src/args/backend_arg.rs])

    The options of a tool are set by the registry, the manifest of an installation, a tool alias, the
    configuration, the request and the tool's own spelling. Nothing here depends on the order of an
    [IndexMap]'s entries, so these are finite maps. Reading and printing TOML belongs to the [toml] crate. *)

From S2P Require Import Prelude RustStr Decimals Toml.

(** ** Data *)

(** [EnvValue] *)
Inductive EnvValue : Type :=
| EnvString (s : str)
| EnvInteger (n : Z)
| EnvBoolean (b : bool).

Record CoreToolOptions := mkCore {
  os : option (list str);
  depends : option (list str);
  install_env : gmap str EnvValue;
  lazy : option bool;
  lazy_bins : list str;
  auto_update : option str
}.

Record ToolOptions := mkToolOptions { core : CoreToolOptions; opts : gmap str Value }.

Definition CoreToolOptions_default : CoreToolOptions := mkCore None None ∅ None [] None.
Definition ToolOptions_default : ToolOptions := mkToolOptions CoreToolOptions_default ∅.

Inductive ToolOptionSource : Type := Registry | InstallManifest | BackendAlias | Config | Request | InlineBackendArg.

#[export] Instance ToolOptionSource_eq_dec : EqDecision ToolOptionSource.
Proof. solve_decision. Defined.

Record ResolvedToolOptions := mkResolved {
  options : ToolOptions;
  option_sources : gmap str ToolOptionSource;
  registry_backend : option str
}.

Definition Resolved_default : ResolvedToolOptions := mkResolved ToolOptions_default ∅ None.

(** [Option::or] *)
Definition or_opt {A} (a b : option A) : option A := match a with Some _ => a | None => b end.

Definition opt_is_some {A} (o : option A) : bool := match o with Some _ => true | None => false end.

(** Set fields are taken from the first. *)
Definition core_over (overrides base : CoreToolOptions) : CoreToolOptions :=
  mkCore (or_opt overrides.(os) base.(os)) (or_opt overrides.(depends) base.(depends))
    (overrides.(install_env) ∪ base.(install_env)) (or_opt overrides.(lazy) base.(lazy))
    (match overrides.(lazy_bins) with [] => base.(lazy_bins) | bins => bins end)
    (or_opt overrides.(auto_update) base.(auto_update)).

(** [ToolOptions::apply_overrides] *)
Definition apply_overrides (overrides self : ToolOptions) : ToolOptions :=
  mkToolOptions (core_over overrides.(core) self.(core)) (overrides.(opts) ∪ self.(opts)).

(** ** Signers *)

Definition SIGNER_OPTION_KEYS : list str := [u!"workflow"; u!"pubkey"; u!"identity"; u!"identity_prefix"; u!"issuer"].

Definition REGISTRY_SIGNER_POLICY_KEYS : list str :=
  [u!"workflow"; u!"pubkey"; u!"identity"; u!"identity_prefix"; u!"issuer"; u!"list_identity_prefix"].

Definition sets_signer_option (user : ToolOptions) : bool :=
  existsb (fun key => opt_is_some (user.(opts) !! key)) SIGNER_OPTION_KEYS.

Definition fill_registry_defaults (user registry : ToolOptions) : ToolOptions :=
  let user_signer := sets_signer_option user in
  mkToolOptions user.(core)
    (user.(opts) ∪ filter (fun kv => (user_signer && bool_decide (kv.1 ∈ REGISTRY_SIGNER_POLICY_KEYS)) = false) registry.(opts)).

(** ** Resolved options *)

Definition INSTALL_ENV : str := u!"install_env".
Definition install_env_key (key : str) : str := u!"install_env." ++ key.

(** The keys under which a layer's options are recorded. *)
Definition core_keys (o : ToolOptions) : list str :=
  (if opt_is_some o.(core).(os) then [u!"os"] else [])
  ++ (if opt_is_some o.(core).(depends) then [u!"depends"] else [])
  ++ (if bool_decide (o.(core).(install_env) = ∅) then []
      else INSTALL_ENV :: map install_env_key (map fst (map_to_list o.(core).(install_env))))
  ++ (if opt_is_some o.(core).(lazy) then [u!"lazy"] else [])
  ++ (match o.(core).(lazy_bins) with [] => [] | _ => [u!"lazy_bins"] end)
  ++ (if opt_is_some o.(core).(auto_update) then [u!"auto_update"] else []).

Definition record (source : ToolOptionSource) (keys : list str) (sources : gmap str ToolOptionSource)
    : gmap str ToolOptionSource :=
  foldl (fun m key => <[key := source]> m) sources keys.

Definition without_keys {A} (keys : list str) (m : gmap str A) : gmap str A := foldl (fun m key => delete key m) m keys.

Definition superseded (sources : gmap str ToolOptionSource) : list str :=
  List.filter (fun key => bool_decide (sources !! key = Some Registry)) REGISTRY_SIGNER_POLICY_KEYS.

Definition drop_superseded_registry_defaults (o : ToolOptions) (source : ToolOptionSource) (self : ResolvedToolOptions)
    : ResolvedToolOptions :=
  if bool_decide (source = Registry) || negb (sets_signer_option o) then self
  else
    let keys := superseded self.(option_sources) in
    mkResolved (mkToolOptions self.(options).(core) (without_keys keys self.(options).(opts)))
      (without_keys keys self.(option_sources)) self.(registry_backend).

(** [ResolvedToolOptions::apply_overrides] *)
Definition apply_layer (o : ToolOptions) (source : ToolOptionSource) (self : ResolvedToolOptions) : ResolvedToolOptions :=
  let self := mkResolved (apply_overrides o self.(options))
                (record source (map fst (map_to_list o.(opts))) self.(option_sources)) self.(registry_backend) in
  let self := drop_superseded_registry_defaults o source self in
  mkResolved self.(options) (record source (core_keys o) self.(option_sources)) self.(registry_backend).

Definition apply_registry (o : ToolOptions) (backend : str) (self : ResolvedToolOptions) : ResolvedToolOptions :=
  apply_layer o Registry (mkResolved self.(options) self.(option_sources) (Some backend)).

Definition source_for_key (self : ResolvedToolOptions) (key : str) : option ToolOptionSource :=
  match self.(option_sources) !! key with
  | Some source => Some source
  | None => match split_once c!"." key with Some (root, _) => self.(option_sources) !! root | None => None end
  end.

Definition comes_from (self : ResolvedToolOptions) (sources : list ToolOptionSource) (key : str) : bool :=
  match source_for_key self key with Some source => bool_decide (source ∈ sources) | None => false end.

Definition options_from_sources (self : ResolvedToolOptions) (sources : list ToolOptionSource) : ToolOptions :=
  let c := self.(options).(core) in
  let from key := comes_from self sources key in
  mkToolOptions
    (mkCore (if from u!"os" then c.(os) else None)
       (if from u!"depends" then c.(depends) else None)
       (filter (fun kv => from (install_env_key kv.1) = true) c.(install_env))
       (if from u!"lazy" then c.(lazy) else None)
       (if from u!"lazy_bins" then c.(lazy_bins) else [])
       (if from u!"auto_update" then c.(auto_update) else None))
    (filter (fun kv => from kv.1 = true) self.(options).(opts)).

Definition USER_SOURCES : list ToolOptionSource := [InstallManifest; BackendAlias; Config; Request; InlineBackendArg].

Definition extend_without_registry (self target : ResolvedToolOptions) : ResolvedToolOptions :=
  foldl (fun target source => apply_layer (options_from_sources self [source]) source target) target USER_SOURCES.

(** [BackendArg::resolve_opts_with_layers]: the layers from the weakest to the strongest, those that are there. *)
Definition apply_some (o : option ToolOptions) (source : ToolOptionSource) (self : ResolvedToolOptions) : ResolvedToolOptions :=
  match o with Some o => apply_layer o source self | None => self end.

Definition resolve_opts_with_layers (registry : ToolOptions) (backend : str)
    (manifest full alias config request inline : option ToolOptions) : ResolvedToolOptions :=
  let r := apply_registry registry backend Resolved_default in
  let r := apply_some manifest InstallManifest r in
  let r := match alias with None => apply_some full BackendAlias r | Some _ => r end in
  let r := apply_some alias BackendAlias r in
  let r := apply_some config Config r in
  let r := apply_some request Request r in
  apply_some inline InlineBackendArg r.

Definition option_key_matches (key expected : str) : bool :=
  bool_decide (key = expected) || match strip_prefix expected key with Some suffix => starts_with u!"." suffix | None => false end.

(** ** Questions *)

Fixpoint value_at_path (v : Value) (path : list str) : option Value :=
  match path with
  | [] => Some v
  | name :: path => match v with VTable table => match table_get name table with Some v => value_at_path v path | None => None end
                               | _ => None end
  end.

(** The root of a dotted key and what is below it. *)
Definition nested_value (self : ToolOptions) (key : str) : option Value :=
  match split_on (N.eqb c!".") key with
  | root :: (_ :: _) as path => match self.(opts) !! root with Some v => value_at_path v (tl path) | None => None end
  | _ => None
  end.

Definition get_nested_value_exists (self : ToolOptions) (key : str) : bool :=
  match nested_value self key with Some (VString _) => true | _ => false end.

Definition contains_key (self : ToolOptions) (key : str) : bool :=
  if opt_is_some (self.(opts) !! key) then true
  else if bool_decide (key = u!"os") then opt_is_some self.(core).(os)
  else if bool_decide (key = u!"depends") then opt_is_some self.(core).(depends)
  else if bool_decide (key = INSTALL_ENV) then negb (bool_decide (self.(core).(install_env) = ∅))
  else if bool_decide (key = u!"lazy") then opt_is_some self.(core).(lazy)
  else if bool_decide (key = u!"lazy_bins") then negb (bool_decide (self.(core).(lazy_bins) = []))
  else if bool_decide (key = u!"auto_update") then opt_is_some self.(core).(auto_update)
  else match strip_prefix (u!"install_env.") key with
       | Some env_key => opt_is_some (self.(core).(install_env) !! env_key)
       | None => get_nested_value_exists self key
       end.

Definition has_key_from_sources (self : ResolvedToolOptions) (key : str) (sources : list ToolOptionSource) : bool :=
  if bool_decide (key = INSTALL_ENV) then
    negb (bool_decide (self.(options).(core).(install_env) = ∅)) &&
    existsb (fun kv => option_key_matches kv.1 key && bool_decide (kv.2 ∈ sources)) (map_to_list self.(option_sources))
  else comes_from self sources key && contains_key self.(options) key.

Definition has_any_key_from_sources (self : ResolvedToolOptions) (keys : list str) (sources : list ToolOptionSource) : bool :=
  existsb (fun key => has_key_from_sources self key sources) keys.

Definition is_empty (self : ToolOptions) : bool :=
  match self.(core).(os) with Some (_ :: _) => false | _ => true end
  && match self.(core).(depends) with Some (_ :: _) => false | _ => true end
  && bool_decide (self.(core).(install_env) = ∅) && negb (opt_is_some self.(core).(lazy))
  && match self.(core).(lazy_bins) with [] => true | _ => false end
  && negb (opt_is_some self.(core).(auto_update)) && bool_decide (self.(opts) = ∅).

(** [ToolOptions::get] *)
Definition get (self : ToolOptions) (key : str) : option str :=
  if bool_decide (key = u!"auto_update") then self.(core).(auto_update) else self.(opts) !! key ≫= as_str.

Definition minimum_release_age (self : ToolOptions) : option str :=
  or_opt (get self u!"minimum_release_age") (get self u!"install_before").

(** The script and whether it always runs. *)
Definition postinstall (self : ToolOptions) : option (str * bool) :=
  match self.(opts) !! u!"postinstall" with
  | Some (VString script) => Some (script, false)
  | Some (VTable table) =>
      run ← table_get u!"run" table ≫= as_str;
      Some (run, bool_decide (table_get u!"when" table ≫= as_str = Some u!"always"))
  | _ => None
  end.

(** ** Reading options *)

Section Reading.

(** Of the [toml] crate: [Display] of a value, [Display] of a number with a fraction (by [f64]), and the value that a
    text spells, as in a document [_x_ = text]. Whether a text is a value of [auto_update] (durations belong to the
    [jiff] crate and the settings). *)
Context (display : Value -> str) (float_to_string : str -> str) (from_toml : str -> option Value)
  (auto_update_ok : str -> bool).

Definition bool_to_string (b : bool) : str := if b then u!"true" else u!"false".

Definition scalar_value_to_string (v : Value) : option str :=
  match v with
  | VString s => Some s
  | VInteger i => Some (int_to_string i)
  | VBoolean b => Some (bool_to_string b)
  | VFloat f => Some (float_to_string f)
  | VDatetime d => Some d
  | VArray _ | VTable _ => None
  end.

Definition EnvValue_try_from (v : Value) : result str EnvValue :=
  match v with
  | VString s => Ok (EnvString s)
  | VInteger i => Ok (EnvInteger i)
  | VBoolean b => Ok (EnvBoolean b)
  | _ => Err u!"environment values must be strings, integers, or booleans"
  end.

Fixpoint strings_of (key : str) (items : list Value) : result str (list str) :=
  match items with
  | [] => Ok []
  | v :: rest => match v with
                 | VString s => let? rest := strings_of key rest in Ok (s :: rest)
                 | _ => Err (key ++ u!" array must contain only strings")
                 end
  end.

Definition parse_string_or_array (v : Value) (key : str) : result str (list str) :=
  match v with
  | VString s => Ok [s]
  | VArray items => strings_of key items
  | _ => Err (key ++ u!" must be a string or array")
  end.

Fixpoint insert_env (env : Table) (m : gmap str EnvValue) : result str (gmap str EnvValue) :=
  match env with
  | [] => Ok m
  | (key, v) :: rest => let? v := EnvValue_try_from v in insert_env rest (<[key := v]> m)
  end.

Definition with_core (c : CoreToolOptions) (self : ToolOptions) : ToolOptions := mkToolOptions c self.(opts).
Definition with_opt (key : str) (v : Value) (self : ToolOptions) : ToolOptions := mkToolOptions self.(core) (<[key := v]> self.(opts)).

Definition set_os (v : option (list str)) (c : CoreToolOptions) : CoreToolOptions :=
  mkCore v c.(depends) c.(install_env) c.(lazy) c.(lazy_bins) c.(auto_update).
Definition set_depends (v : option (list str)) (c : CoreToolOptions) : CoreToolOptions :=
  mkCore c.(os) v c.(install_env) c.(lazy) c.(lazy_bins) c.(auto_update).
Definition set_install_env (v : gmap str EnvValue) (c : CoreToolOptions) : CoreToolOptions :=
  mkCore c.(os) c.(depends) v c.(lazy) c.(lazy_bins) c.(auto_update).
Definition set_lazy (v : option bool) (c : CoreToolOptions) : CoreToolOptions :=
  mkCore c.(os) c.(depends) c.(install_env) v c.(lazy_bins) c.(auto_update).
Definition set_lazy_bins (v : list str) (c : CoreToolOptions) : CoreToolOptions :=
  mkCore c.(os) c.(depends) c.(install_env) c.(lazy) v c.(auto_update).
Definition set_auto_update (v : option str) (c : CoreToolOptions) : CoreToolOptions :=
  mkCore c.(os) c.(depends) c.(install_env) c.(lazy) c.(lazy_bins) v.

Definition AUTO_UPDATE_ERROR : str := u!"auto_update must be true, false, or a duration such as " ++ [34%N] ++ u!"12h" ++ [34%N].

Definition check_postinstall (v : Value) : result str unit :=
  match v with
  | VString _ => Ok tt
  | VTable table =>
      if negb (opt_is_some (table_get u!"run" table ≫= as_str)) then Err u!"postinstall.run must be a string"
      else if existsb (fun kv => negb (bool_decide (kv.1 = u!"run")) && negb (bool_decide (kv.1 = u!"when"))) table
      then Err u!"postinstall supports only run and when"
      else match table_get u!"when" table with
           | Some v => if bool_decide (as_str v ∈ [Some u!"install"; Some u!"always"]) then Ok tt
                       else Err u!"postinstall.when must be install or always"
           | None => Ok tt
           end
  | _ => Err u!"postinstall must be a string or table"
  end.

Definition lazy_bin_ok (bin : str) : bool := negb (bool_decide (bin = [])) && negb (existsb (one_of u!"/\") bin).

(** The options with a core key set, or [None] where the key is a backend's. What was set before an error is kept by the
    code, too, but every caller drops the options or goes on with the next key: [insert_option_lenient]. *)
Definition insert_core_option (key : str) (v : Value) (self : ToolOptions) : result str (option ToolOptions) :=
  let c := self.(core) in
  if bool_decide (key = u!"os") then
    let? l := parse_string_or_array v key in Ok (Some (with_core (set_os (Some l) c) self))
  else if bool_decide (key = u!"depends") then
    let? l := parse_string_or_array v key in Ok (Some (with_core (set_depends (Some l) c) self))
  else if bool_decide (key = INSTALL_ENV) then
    match v with
    | VTable env => let? env := insert_env env c.(install_env) in Ok (Some (with_core (set_install_env env c) self))
    | _ => Err u!"install_env must be a table"
    end
  else if bool_decide (key = u!"lazy") then
    match v with
    | VBoolean b => Ok (Some (with_core (set_lazy (Some b) c) self))
    | _ => Err u!"lazy must be a boolean"
    end
  else if bool_decide (key = u!"lazy_bins") then
    let? bins := parse_string_or_array v key in
    if forallb lazy_bin_ok bins then Ok (Some (with_core (set_lazy_bins bins c) self))
    else Err u!"lazy_bins must contain command names, not paths"
  else if bool_decide (key = u!"auto_update") then
    match match v with VBoolean b => Some (bool_to_string b) | VString s => Some s | _ => None end with
    | Some text => if auto_update_ok text then Ok (Some (with_core (set_auto_update (Some text) c) self)) else Err AUTO_UPDATE_ERROR
    | None => Err AUTO_UPDATE_ERROR
    end
  else if bool_decide (key = u!"postinstall") then
    let? _ := check_postinstall v in Ok (Some (with_opt key v self))
  else if bool_decide (key = u!"minimum_release_age") || bool_decide (key = u!"install_before") then
    match scalar_value_to_string v with
    | Some text => Ok (Some (with_opt key (VString text) self))
    | None => Err (key ++ u!" must be a string, integer, boolean, float, or datetime")
    end
  else
    match strip_prefix u!"install_env." key with
    | Some env_key =>
        let? v := map_err (fun _ => key ++ u!" must be a string, integer, or boolean") (EnvValue_try_from v) in
        Ok (Some (with_core (set_install_env (<[env_key := v]> c.(install_env)) c) self))
    | None => Ok None
    end.

Definition preserves_backend_option_type (key : str) : bool :=
  bool_decide (key = u!"allow_builds") || bool_decide (key = u!"mr_boxington").

Definition trim_quotes (s : str) : str := trim_end_matches (N.eqb 34%N) (trim_start_matches (N.eqb 34%N) s).

Definition normalize_backend_option_value (key : str) (v : Value) : Value :=
  if preserves_backend_option_type key then v
  else match v with
       | VTable _ | VArray _ | VString _ => v
       | _ => VString (trim_quotes (display v))
       end.

Definition insert_option (key : str) (v : Value) (self : ToolOptions) : result str ToolOptions :=
  let? inserted := insert_core_option key v self in
  Ok (match inserted with Some self => self | None => with_opt key (normalize_backend_option_value key v) self end).

(** An error leaves the option out, apart from the entries of an [install_env] table before the first bad one. *)
Fixpoint insert_env_lenient (env : Table) (m : gmap str EnvValue) : gmap str EnvValue :=
  match env with
  | [] => m
  | (key, v) :: rest => match EnvValue_try_from v with Ok v => insert_env_lenient rest (<[key := v]> m) | _ => m end
  end.

Definition insert_option_lenient (self : ToolOptions) (entry : str * Value) : ToolOptions :=
  let '(key, v) := entry in
  match insert_option key v self with
  | Ok self => self
  | _ =>
      if bool_decide (key = INSTALL_ENV) then
        match v with
        | VTable env => with_core (set_install_env (insert_env_lenient env self.(core).(install_env)) self.(core)) self
        | _ => self
        end
      else if bool_decide (key = u!"lazy_bins") then
        (* the field is set before its names are looked at *)
        match parse_string_or_array v key with Ok bins => with_core (set_lazy_bins bins self.(core)) self | _ => self end
      else self
  end.

(** *** Options without TOML *)

(** [split_tool_option_segments]: at the commas outside quotes. *)
Fixpoint segments_from (in_double in_single escaped : bool) (current s : str) : list str :=
  match s with
  | [] => [current]
  | c :: s' =>
      if (c =? c!",")%N && negb in_double && negb in_single then current :: segments_from in_double in_single false [] s'
      else
        let toggles_double := (c =? 34)%N && negb escaped && negb in_single in
        let in_single' := if negb toggles_double && (c =? c!"'")%N && negb in_double then negb in_single else in_single in
        let in_double' := if toggles_double then negb in_double else in_double in
        segments_from in_double' in_single' (in_double' && (c =? 92)%N && negb escaped) (current ++ [c]) s'
  end.

Definition split_tool_option_segments (s : str) : list str := segments_from false false false [] s.

Definition quoted (s : str) : bool :=
  ((starts_with [34%N] s && ends_with [34%N] s) || (starts_with u!"'" s && ends_with u!"'" s)) && (2 <=? len s).

Definition parse_tool_option_value (key raw : str) : Value :=
  let trimmed := trim raw in
  if quoted trimmed || bool_decide (key = INSTALL_ENV) || starts_with u!"install_env." key then
    match from_toml trimmed with Some v => v | None => VString raw end
  else VString raw.

(** An [IndexMap] keeps the place of a key that is set again. *)
Fixpoint index_insert (key : str) (v : Value) (raw : list (str * Value)) : list (str * Value) :=
  match raw with
  | [] => [(key, v)]
  | (k, old) :: rest => if bool_decide (k = key) then (key, v) :: rest else (k, old) :: index_insert key v rest
  end.

Fixpoint raw_options (segments : list str) (current : option str) (raw : list (str * Value)) : list (str * Value) :=
  match segments with
  | [] => raw
  | segment :: rest =>
      match split_once c!"=" segment with
      | Some (k, v) =>
          let key := trim k in
          if bool_decide (key = []) then raw_options rest current raw
          else raw_options rest (Some key) (index_insert key (parse_tool_option_value key v) raw)
      | None =>
          match segment, current with
          | _ :: _, Some key =>
              match table_get key raw with
              | Some (VString s) => raw_options rest current (index_insert key (VString (s ++ u!"," ++ segment)) raw)
              | _ => raw_options rest current raw
              end
          | _, _ => raw_options rest current raw
          end
      end
  end.

Definition parse_manual_tool_options_raw (s : str) : list (str * Value) := raw_options (split_tool_option_segments s) None [].

Fixpoint insert_options (entries : list (str * Value)) (self : ToolOptions) : result str ToolOptions :=
  match entries with
  | [] => Ok self
  | (key, v) :: rest => let? self := insert_option key v self in insert_options rest self
  end.

(** The options as an inline table. *)
Definition inline_table (s : str) : option (list (str * Value)) := from_toml (u!"{ " ++ s ++ u!" }") ≫= as_table.

Definition try_parse_tool_options (s : str) : result str ToolOptions :=
  insert_options (match inline_table s with Some table => table | None => parse_manual_tool_options_raw s end) ToolOptions_default.

Definition parse_tool_options (s : str) : ToolOptions :=
  foldl insert_option_lenient ToolOptions_default
    (match inline_table s with Some table => table | None => parse_manual_tool_options_raw s end).

End Reading.
