(* ===== verification/ToolOptionsSpec.v ===== *)
(** * What resolved tool options promise

    Every option is the one of the strongest layer that sets it, with that layer as its source; a signer that a
    user chose is never mixed with the registry's; and the registry's options can be taken out again. *)

From S2P Require Import Prelude RustStr Decimals Toml ToolOptions.

(** ** Settings *)

(** What a layer may set: an option of a backend, or a core option, of which the environment of an install counts by
    variables. *)
Inductive Slot : Type :=
| SlotOption (key : str)
| SlotOs
| SlotDepends
| SlotLazy
| SlotLazyBins
| SlotAutoUpdate
| SlotEnv (variable : str).

Inductive Setting : Type :=
| SOption (v : Value)
| SList (l : list str)
| SText (s : str)
| SBool (b : bool)
| SEnv (v : EnvValue).

Definition nonempty {A} (l : list A) : option (list A) := match l with [] => None | _ => Some l end.

Definition setting (o : ToolOptions) (slot : Slot) : option Setting :=
  match slot with
  | SlotOption key => SOption <$> o.(opts) !! key
  | SlotOs => SList <$> o.(core).(os)
  | SlotDepends => SList <$> o.(core).(depends)
  | SlotLazy => SBool <$> o.(core).(lazy)
  | SlotLazyBins => SList <$> nonempty o.(core).(lazy_bins)
  | SlotAutoUpdate => SText <$> o.(core).(auto_update)
  | SlotEnv variable => SEnv <$> o.(core).(install_env) !! variable
  end.

(** The name that a source is recorded under. *)
Definition slot_key (slot : Slot) : str :=
  match slot with
  | SlotOption key => key
  | SlotOs => u!"os"
  | SlotDepends => u!"depends"
  | SlotLazy => u!"lazy"
  | SlotLazyBins => u!"lazy_bins"
  | SlotAutoUpdate => u!"auto_update"
  | SlotEnv variable => install_env_key variable
  end.

(** An option of a backend and a core option may have the same name. *)
Definition slots_named (key : str) : list Slot :=
  SlotOption key
  :: List.filter (fun slot => bool_decide (slot_key slot = key)) [SlotOs; SlotDepends; SlotLazy; SlotLazyBins; SlotAutoUpdate]
  ++ match strip_prefix u!"install_env." key with Some variable => [SlotEnv variable] | None => [] end.

(** A layer has an option of that name, or the environment as a whole. *)
Definition has_name (o : ToolOptions) (key : str) : bool :=
  existsb (fun slot => opt_is_some (setting o slot)) (slots_named key)
  || bool_decide (key = INSTALL_ENV) && negb (bool_decide (o.(core).(install_env) = ∅)).

Lemma opt_is_some_spec {A} (x : option A) : opt_is_some x = true <-> is_Some x.
Proof. destruct x; split; [by eexists|done|done|by intros []]. Qed.

Lemma elem_of_slots_named slot key : slot ∈ slots_named key <-> slot_key slot = key.
Proof.
  unfold slots_named. rewrite elem_of_cons, elem_of_app, elem_of_filter_bool, bool_decide_eq_true. split.
  - intros [->|[[_ H]|H]]; [done|done|]. destruct (strip_prefix _ key) as [e|] eqn:E; [|by apply elem_of_nil in H].
    apply list_elem_of_singleton in H as ->. by apply strip_prefix_Some in E as ->.
  - intros <-. destruct slot; [by left|(right; left; split; [set_solver|done])..|right; right].
    cbn [slot_key]. unfold install_env_key. rewrite (proj2 (strip_prefix_Some _ _ variable) eq_refl). by apply list_elem_of_singleton.
Qed.

Lemma names_true o key :
  has_name o key = true <->
  (exists slot, slot_key slot = key /\ is_Some (setting o slot)) \/ (key = INSTALL_ENV /\ o.(core).(install_env) <> ∅).
Proof.
  unfold has_name. rewrite orb_true_iff, existsb_exists, andb_true_iff, bool_decide_eq_true, negb_true_iff, bool_decide_eq_false.
  setoid_rewrite <- list_elem_of_In. setoid_rewrite elem_of_slots_named. by setoid_rewrite opt_is_some_spec.
Qed.

Lemma setting_names o slot : is_Some (setting o slot) -> has_name o (slot_key slot) = true.
Proof. intros H. apply names_true. left. by exists slot. Qed.

(** The names of core options. *)
Definition core_name (key : str) : bool :=
  bool_decide (key ∈ [u!"os"; u!"depends"; u!"lazy"; u!"lazy_bins"; u!"auto_update"; INSTALL_ENV])
  || starts_with u!"install_env." key.

(** A backend's options do not have the name of a core option. *)
Definition separate (o : ToolOptions) : Prop := forall key, is_Some (o.(opts) !! key) -> core_name key = false.

Lemma slot_core_name slot : core_name (slot_key slot) = false -> slot = SlotOption (slot_key slot).
Proof.
  destruct slot; [done|by vm_compute..|]. unfold core_name. rewrite orb_false_iff. intros [_ H]. cbn [slot_key] in H.
  unfold starts_with, install_env_key in H. by rewrite (proj2 (strip_prefix_Some _ _ variable) eq_refl) in H.
Qed.

Lemma slot_option_or_core slot : slot = SlotOption (slot_key slot) \/ core_name (slot_key slot) = true.
Proof. destruct (core_name (slot_key slot)) eqn:E; [by right|left; by apply slot_core_name]. Qed.

Lemma dom_keys {A} (m : gmap str A) key : key ∈ map fst (map_to_list m) <-> is_Some (m !! key).
Proof.
  rewrite list_elem_of_fmap. split; [intros ([e' v] & -> & H%elem_of_map_to_list); by exists v|].
  intros [v Hv]. exists (key, v). split; [done|]. by apply elem_of_map_to_list.
Qed.

Lemma core_keys_spec o key :
  key ∈ core_keys o <->
  (key = u!"os" /\ is_Some o.(core).(os)) \/ (key = u!"depends" /\ is_Some o.(core).(depends)) \/
  (key = INSTALL_ENV /\ o.(core).(install_env) <> ∅) \/ (exists e, key = install_env_key e /\ is_Some (o.(core).(install_env) !! e)) \/
  (key = u!"lazy" /\ is_Some o.(core).(lazy)) \/ (key = u!"lazy_bins" /\ o.(core).(lazy_bins) <> []) \/
  (key = u!"auto_update" /\ is_Some o.(core).(auto_update)).
Proof.
  assert (forall {A} (x : option A) (name : str), key ∈ (if opt_is_some x then [name] else []) <-> key = name /\ is_Some x) as Hopt.
  { intros A x name. destruct x as [x|]; simpl; [rewrite list_elem_of_singleton; naive_solver|].
    split; [by intros ?%elem_of_nil|by intros [_ []]]. }
  unfold core_keys. rewrite !elem_of_app, !Hopt.
  assert (key ∈ (match o.(core).(lazy_bins) with [] => [] | _ => [u!"lazy_bins"] end) <-> key = u!"lazy_bins" /\ o.(core).(lazy_bins) <> []) as ->.
  { destruct (lazy_bins _); [split; [by intros ?%elem_of_nil|by intros [_ []]]|]. rewrite list_elem_of_singleton. naive_solver. }
  assert (key ∈ (if bool_decide (install_env (core o) = ∅) then [] else INSTALL_ENV :: map install_env_key (map fst (map_to_list (install_env (core o)))))
    <-> (key = INSTALL_ENV /\ o.(core).(install_env) <> ∅) \/ exists e, key = install_env_key e /\ is_Some (o.(core).(install_env) !! e)) as ->.
  { case_bool_decide as E.
    - rewrite E. setoid_rewrite lookup_empty. split; [by intros ?%elem_of_nil|]. intros [[_ H]|(e & _ & [v Hv])]; done.
    - rewrite elem_of_cons, list_elem_of_fmap. setoid_rewrite dom_keys. naive_solver. }
  tauto.
Qed.

Lemma nonempty_some {A} (l : list A) : is_Some (nonempty l) <-> l <> [].
Proof. destruct l; split; [by intros []|done|done|by eexists]. Qed.

(** The names that the code records are those of what is set. *)
Lemma names_recorded o key : has_name o key = true <-> key ∈ map fst (map_to_list o.(opts)) \/ key ∈ core_keys o.
Proof.
  rewrite names_true, dom_keys, core_keys_spec. split.
  - intros [(slot & <- & H)|H]; [|tauto]. destruct slot; cbn [setting slot_key] in *; apply fmap_is_Some in H; [by left|right..]; rewrite ?nonempty_some in H.
    all: try tauto. do 3 right. left. by exists variable.
  - intros [H|[[-> H]|[[-> H]|[H|[(e & -> & H)|[[-> H]|[[-> H]|[-> H]]]]]]]]; try (by right); left.
    + exists (SlotOption key). cbn [setting slot_key]. by rewrite fmap_is_Some.
    + exists SlotOs. cbn [setting slot_key]. by rewrite fmap_is_Some.
    + exists SlotDepends. cbn [setting slot_key]. by rewrite fmap_is_Some.
    + exists (SlotEnv e). cbn [setting slot_key]. by rewrite fmap_is_Some.
    + exists SlotLazy. cbn [setting slot_key]. by rewrite fmap_is_Some.
    + exists SlotLazyBins. cbn [setting slot_key]. by rewrite fmap_is_Some, nonempty_some.
    + exists SlotAutoUpdate. cbn [setting slot_key]. by rewrite fmap_is_Some.
Qed.

(** ** One layer *)

Lemma or_opt_map {A B} (f : A -> B) a b : f <$> or_opt a b = or_opt (f <$> a) (f <$> b).
Proof. by destruct a. Qed.

Lemma lookup_union_or {A} (m1 m2 : gmap str A) k : (m1 ∪ m2) !! k = or_opt (m1 !! k) (m2 !! k).
Proof. rewrite lookup_union. by destruct (m1 !! k), (m2 !! k). Qed.

(** Overrides win. *)
Lemma setting_overrides over base slot : setting (apply_overrides over base) slot = or_opt (setting over slot) (setting base slot).
Proof.
  unfold apply_overrides, core_over. destruct slot; cbn [setting core opts os depends install_env lazy lazy_bins auto_update];
    rewrite ?lookup_union_or, ?or_opt_map; try done. by destruct (lazy_bins (core over)).
Qed.

Lemma record_lookup source (keys : list str) m key :
  record source keys m !! key = if decide (key ∈ keys) then Some source else m !! key.
Proof.
  unfold record. revert m. induction keys as [|k keys IH]; intros m; cbn [foldl]; [by rewrite decide_False by (by apply not_elem_of_nil)|].
  rewrite IH. destruct (decide (key ∈ keys)); [by rewrite decide_True by (by right)|].
  destruct (decide (key = k)) as [->|Hne]; [by rewrite lookup_insert_eq, decide_True by (by left)|].
  rewrite lookup_insert_ne by congruence. rewrite decide_False; [done|]. by intros [?|?]%elem_of_cons.
Qed.

Lemma without_keys_lookup {A} (keys : list str) (m : gmap str A) key : without_keys keys m !! key = if decide (key ∈ keys) then None else m !! key.
Proof.
  unfold without_keys. revert m. induction keys as [|k keys IH]; intros m; cbn [foldl]; [by rewrite decide_False by (by apply not_elem_of_nil)|].
  rewrite IH. destruct (decide (key ∈ keys)); [by rewrite decide_True by (by right)|].
  destruct (decide (key = k)) as [->|Hne]; [by rewrite lookup_delete_eq, decide_True by (by left)|].
  rewrite lookup_delete_ne by congruence. rewrite decide_False; [done|]. by intros [?|?]%elem_of_cons.
Qed.

Definition policy_key (key : str) : bool := bool_decide (key ∈ REGISTRY_SIGNER_POLICY_KEYS).
Definition policy_slot (slot : Slot) : bool := match slot with SlotOption key => policy_key key | _ => false end.

Lemma policy_core_name key : policy_key key = true -> core_name key = false.
Proof. intros H%bool_decide_eq_true. unfold REGISTRY_SIGNER_POLICY_KEYS in H. rewrite !elem_of_cons, elem_of_nil in H.
  repeat destruct H as [->|H]; vm_compute; [reflexivity..|done]. Qed.

(** Of a name in the signer policy there is only an option of a backend. *)
Lemma policy_names o key : policy_key key = true -> has_name o key = opt_is_some (setting o (SlotOption key)).
Proof.
  intros Hp%policy_core_name. apply eq_true_iff_eq. rewrite names_true, opt_is_some_spec. split; [|intros H; left; by exists (SlotOption key)].
  intros [(slot & <- & H)|[-> _]]; [by rewrite (slot_core_name slot Hp) in H|by vm_compute in Hp].
Qed.

Lemma policy_slot_key slot : policy_slot slot = policy_key (slot_key slot).
Proof.
  destruct (slot_option_or_core slot) as [E|E]; [by rewrite E|]. destruct (policy_key (slot_key slot)) eqn:Ep; [|by destruct slot].
  apply policy_core_name in Ep. congruence.
Qed.

(** The registry's signer goes when a layer above it chooses one. *)
Definition retired (o : ToolOptions) (source : ToolOptionSource) (policy : bool) (from : option ToolOptionSource) : bool :=
  bool_decide (source <> Registry) && sets_signer_option o && policy && bool_decide (from = Some Registry).

Lemma setting_without keys o slot :
  setting (mkToolOptions o.(core) (without_keys keys o.(opts))) slot
  = match slot with SlotOption key => if decide (key ∈ keys) then None else setting o slot | _ => setting o slot end.
Proof. destruct slot; try done. cbn [setting opts]. rewrite without_keys_lookup. by destruct (decide _). Qed.

Section ApplyLayer.

Context (o : ToolOptions) (source : ToolOptionSource) (r : ResolvedToolOptions).

Let sources := record source (map fst (map_to_list o.(opts))) r.(option_sources).

Lemma sources_lookup key : sources !! key = if decide (is_Some (o.(opts) !! key)) then Some source else r.(option_sources) !! key.
Proof.
  unfold sources. rewrite record_lookup. destruct (decide (key ∈ _)) as [H|H]; rewrite dom_keys in H; [by rewrite decide_True|by rewrite decide_False].
Qed.

Lemma superseded_retired key :
  source <> Registry -> sets_signer_option o = true ->
  key ∈ superseded sources <-> o.(opts) !! key = None /\ retired o source (policy_key key) (r.(option_sources) !! key) = true.
Proof.
  intros Hs Ho. unfold superseded, retired. rewrite elem_of_filter_bool, bool_decide_eq_true, Ho, sources_lookup.
  rewrite (bool_decide_eq_true_2 (source <> Registry)) by done. cbn [andb]. rewrite andb_true_iff. unfold policy_key. rewrite !bool_decide_eq_true.
  destruct (decide _) as [[v Hv]|Hn]; [rewrite Hv; naive_solver|]. apply eq_None_not_Some in Hn. naive_solver.
Qed.

Lemma not_retired policy from : (bool_decide (source = Registry) || negb (sets_signer_option o)) = true -> retired o source policy from = false.
Proof. unfold retired. intros [E%bool_decide_eq_true|E%negb_true_iff]%orb_true_iff; [by rewrite E|by rewrite E, andb_false_r]. Qed.

Lemma layer_setting slot :
  setting (apply_layer o source r).(options) slot =
    match setting o slot with
    | Some v => Some v
    | None => if retired o source (policy_slot slot) (r.(option_sources) !! slot_key slot) then None else setting r.(options) slot
    end.
Proof.
  unfold apply_layer, drop_superseded_registry_defaults. cbn [options option_sources registry_backend]. fold sources.
  destruct (bool_decide (source = Registry) || negb (sets_signer_option o)) eqn:Ecase; cbn [options].
  - rewrite setting_overrides, (not_retired _ _ Ecase). by destruct (setting o slot).
  - apply orb_false_iff in Ecase as [Hs%bool_decide_eq_false Ho%negb_false_iff]. rewrite setting_without, setting_overrides.
    assert (policy_slot slot = false -> or_opt (setting o slot) (setting (options r) slot) =
      match setting o slot with Some v => Some v | None =>
        if retired o source (policy_slot slot) (r.(option_sources) !! slot_key slot) then None else setting r.(options) slot end) as Hno.
    { intros ->. unfold retired. rewrite andb_false_r. cbn. by destruct (setting o slot). }
    destruct slot as [key| | | | | |]; [|by apply Hno..]. cbn [policy_slot slot_key] in *.
    pose proof (superseded_retired key Hs Ho) as Hsup. cbn [setting] in *. destruct (decide (key ∈ superseded sources)) as [Hin|Hin].
    + apply Hsup in Hin as [-> ->]. done.
    + destruct (opts o !! key) eqn:E; [done|]. cbn [fmap option_fmap option_map or_opt]. destruct (retired _ _ _ _) eqn:Er; [|done].
      destruct Hin. by apply Hsup.
Qed.

Lemma layer_source key :
  (apply_layer o source r).(option_sources) !! key =
    if has_name o key then Some source
    else if retired o source (policy_key key) (r.(option_sources) !! key) then None else r.(option_sources) !! key.
Proof.
  assert (forall m : gmap str ToolOptionSource, (is_Some (o.(opts) !! key) -> m !! key = Some source) ->
    record source (core_keys o) m !! key = if has_name o key then Some source else m !! key) as Hrec.
  { intros m Hm. rewrite record_lookup. pose proof (names_recorded o key) as H. rewrite dom_keys in H.
    destruct (decide (key ∈ core_keys o)) as [He|He]; destruct (has_name o key); [done|by pose proof (proj2 H (or_intror He))| |done].
    destruct (proj1 H eq_refl) as [?|?]; [by apply Hm|done]. }
  assert (has_name o key = false -> opts o !! key = None) as Hn.
  { intros E. destruct (opts o !! key) eqn:Eo; [|done]. rewrite (proj2 (names_recorded o key)) in E; [done|]. left. apply dom_keys. by rewrite Eo. }
  unfold apply_layer, drop_superseded_registry_defaults. cbn [options option_sources registry_backend]. fold sources.
  destruct (bool_decide (source = Registry) || negb (sets_signer_option o)) eqn:Ecase; cbn [option_sources].
  - rewrite Hrec by (intros H; by rewrite sources_lookup, decide_True). rewrite (not_retired _ _ Ecase). destruct (has_name o key); [done|].
    rewrite sources_lookup, decide_False; [done|]. rewrite Hn by done. by intros [].
  - apply orb_false_iff in Ecase as [Hs%bool_decide_eq_false Ho%negb_false_iff]. pose proof (superseded_retired key Hs Ho) as Hsup.
    rewrite Hrec.
    2:{ intros H. rewrite without_keys_lookup, decide_False; [by rewrite sources_lookup, decide_True|]. intros [E _]%Hsup. rewrite E in H. by destruct H. }
    destruct (has_name o key); [done|]. specialize (Hn eq_refl). rewrite without_keys_lookup, sources_lookup.
    rewrite (decide_False (P := is_Some _)) by (rewrite Hn; by intros []).
    destruct (decide (key ∈ superseded sources)) as [Hin|Hin]; [by apply Hsup in Hin as [_ ->]|].
    destruct (retired _ _ _ _) eqn:Er; [|done]. destruct Hin. by apply Hsup.
Qed.

End ApplyLayer.

(** ** Layers *)

Abbreviation Layers := (list (ToolOptionSource * ToolOptions)) (only parsing).

(** From the weakest layer to the strongest. *)
Definition apply_layers (layers : Layers) (r : ResolvedToolOptions) : ResolvedToolOptions :=
  foldl (fun r layer => apply_layer layer.2 layer.1 r) r layers.

(** The setting of the strongest layer that sets it; the first one is the strongest. *)
Fixpoint strongest (layers : Layers) (slot : Slot) : option Setting :=
  match layers with [] => None | (_, o) :: rest => or_opt (setting o slot) (strongest rest slot) end.

(** The strongest layer that has an option of that name. *)
Fixpoint strongest_source (layers : Layers) (key : str) : option ToolOptionSource :=
  match layers with [] => None | (source, o) :: rest => if has_name o key then Some source else strongest_source rest key end.

(** A layer above the registry. *)
Definition user_layer (layer : ToolOptionSource * ToolOptions) : Prop := layer.1 <> Registry.

(** Whether a user chose a signer. *)
Definition signer_chosen (layers : Layers) : bool := existsb (fun layer => sets_signer_option layer.2) layers.

(** What the registry adds where no other layer has a setting: not its signer beside one that a user chose. *)
Definition registry_setting (registry : ToolOptions) (layers : Layers) (slot : Slot) : option Setting :=
  if signer_chosen layers && policy_slot slot then None else setting registry slot.

Definition registry_source (registry : ToolOptions) (layers : Layers) (key : str) : option ToolOptionSource :=
  if has_name registry key && negb (signer_chosen layers && policy_key key) then Some Registry else None.

Definition effective (registry : ToolOptions) (layers : Layers) (slot : Slot) : option Setting :=
  or_opt (strongest layers slot) (registry_setting registry layers slot).

Definition effective_source (registry : ToolOptions) (layers : Layers) (key : str) : option ToolOptionSource :=
  or_opt (strongest_source layers key) (registry_source registry layers key).

Lemma setting_default slot : setting ToolOptions_default slot = None.
Proof. by destruct slot. Qed.

Lemma names_default key : has_name ToolOptions_default key = false.
Proof.
  apply not_true_iff_false. rewrite names_true. intros [(slot & _ & H)|[_ H]]; [rewrite setting_default in H; by destruct H|done].
Qed.

Lemma strongest_source_in layers key source : strongest_source layers key = Some source -> exists o, (source, o) ∈ layers /\ has_name o key = true.
Proof.
  induction layers as [|[s o] layers IH]; simpl; [done|]. destruct (has_name o key) eqn:E.
  - intros [= ->]. exists o. split; [by left|done].
  - intros (o' & H & Hn)%IH. exists o'. split; [by right|done].
Qed.

Lemma user_source layers key source : Forall user_layer layers -> strongest_source layers key = Some source -> source <> Registry.
Proof. rewrite Forall_forall. intros Hl (o & H%Hl & _)%strongest_source_in. done. Qed.

(** Of the signer policy, who sets it is who names it. *)
Lemma policy_strongest layers key : policy_key key = true -> opt_is_some (strongest_source layers key) = opt_is_some (strongest layers (SlotOption key)).
Proof.
  intros Hp. induction layers as [|[s o] layers IH]; [done|]. cbn [strongest strongest_source]. rewrite (policy_names o key Hp).
  by destruct (setting o (SlotOption key)).
Qed.

(** An option of the registry's signer policy is dropped by the strongest layer that chooses a signer, or was dropped before. *)
Lemma retired_effective registry layers o source slot :
  Forall user_layer layers -> source <> Registry -> setting o slot = None ->
  (if retired o source (policy_slot slot) (effective_source registry layers (slot_key slot)) then None else effective registry layers slot)
  = effective registry ((source, o) :: layers) slot.
Proof.
  intros Hl Hs Ho. unfold effective at 2. cbn [strongest]. rewrite Ho. cbn [or_opt]. unfold registry_setting. cbn [signer_chosen existsb snd].
  unfold effective, registry_setting, retired. rewrite (bool_decide_eq_true_2 (source <> Registry)) by done. cbn [andb]. fold (signer_chosen layers).
  destruct (policy_slot slot) eqn:Ep; [|by rewrite !andb_false_r]. rewrite !andb_true_r. destruct slot as [key| | | | | |]; try done. cbn [slot_key policy_slot] in *.
  pose proof (policy_strongest layers key Ep) as Hst. unfold effective_source. destruct (strongest_source layers key) as [s|] eqn:Es.
  - pose proof (user_source _ _ _ Hl Es) as Hne. cbn [or_opt] in *. rewrite (bool_decide_eq_false_2 (Some s = Some Registry)) by (by intros [= ->]).
    rewrite andb_false_r. by destruct (strongest layers (SlotOption key)).
  - destruct (strongest layers (SlotOption key)); [done|]. cbn [or_opt]. unfold registry_source. rewrite (policy_names registry key Ep), Ep, andb_true_r.
    destruct (setting registry (SlotOption key)); [|by destruct (signer_chosen layers), (sets_signer_option o)].
    by destruct (signer_chosen layers), (sets_signer_option o).
Qed.

Lemma retired_source registry layers o source key :
  Forall user_layer layers -> source <> Registry -> has_name o key = false ->
  (if retired o source (policy_key key) (effective_source registry layers key) then None else effective_source registry layers key)
  = effective_source registry ((source, o) :: layers) key.
Proof.
  intros Hl Hs Ho. unfold effective_source at 3. cbn [strongest_source]. rewrite Ho. unfold registry_source. cbn [signer_chosen existsb snd]. fold (signer_chosen layers).
  unfold effective_source, registry_source, retired. rewrite (bool_decide_eq_true_2 (source <> Registry)) by done. cbn [andb].
  destruct (strongest_source layers key) as [s|] eqn:Es; cbn [or_opt].
  - rewrite (bool_decide_eq_false_2 (Some s = Some Registry)) by (intros [= ->]; by apply (user_source _ _ _ Hl Es)). by rewrite andb_false_r.
  - by destruct (policy_key key), (signer_chosen layers), (sets_signer_option o), (has_name registry key).
Qed.

Lemma layers_spec registry backend layers :
  Forall user_layer layers ->
  let r := apply_layers (rev layers) (apply_registry registry backend Resolved_default) in
  (forall slot, setting r.(options) slot = effective registry layers slot)
  /\ forall key, r.(option_sources) !! key = effective_source registry layers key.
Proof.
  intros Hl. unfold apply_layers. induction Hl as [|[source o] layers Hs Hl [IH1 IH2]]; cbn [rev foldl]; cbv zeta in *.
  - split; [intros slot; unfold apply_registry; rewrite layer_setting|intros key; unfold apply_registry; rewrite layer_source];
      unfold effective, effective_source, registry_setting, registry_source, retired; cbn [strongest strongest_source or_opt signer_chosen existsb andb option_sources options Resolved_default];
      rewrite ?lookup_empty; cbn; rewrite ?andb_false_r, ?andb_true_r, ?setting_default; [by destruct (setting registry slot)|by destruct (has_name registry key)].
  - rewrite foldl_app. cbn [foldl fst snd]. split.
    + intros slot. rewrite layer_setting, IH1, IH2. destruct (setting o slot) eqn:E; [|by apply retired_effective].
      unfold effective. cbn [strongest]. by rewrite E.
    + intros key. rewrite layer_source, IH2. destruct (has_name o key) eqn:E; [|by apply retired_source].
      unfold effective_source. cbn [strongest_source]. by rewrite E.
Qed.

(** The layers of a tool above the registry, the strongest first. *)
Definition from_layer (source : ToolOptionSource) (o : option ToolOptions) : Layers :=
  match o with Some o => [(source, o)] | None => [] end.

Definition user_layers (manifest full alias config request inline : option ToolOptions) : Layers :=
  from_layer InlineBackendArg inline ++ from_layer Request request ++ from_layer Config config
  ++ from_layer BackendAlias (or_opt alias full) ++ from_layer InstallManifest manifest.

Lemma resolve_layers registry backend manifest full alias config request inline :
  resolve_opts_with_layers registry backend manifest full alias config request inline =
  apply_layers (rev (user_layers manifest full alias config request inline)) (apply_registry registry backend Resolved_default).
Proof. by destruct manifest, full, alias, config, request, inline. Qed.

Lemma user_layers_ok manifest full alias config request inline : Forall user_layer (user_layers manifest full alias config request inline).
Proof.
  unfold user_layers. assert (forall source o, source <> Registry -> Forall user_layer (from_layer source o)) as H.
  { intros source [o|] Hs; simpl; by repeat constructor. }
  by repeat apply Forall_app_2; apply H.
Qed.

(** C24. Each option of a tool is that of the strongest layer that sets it — the tool's own spelling, the request, the
    configuration, the alias, the manifest of the installation, the registry, in this order —, those of core options
    and of single environment variables included; a signer option of the registry counts only when no layer above it
    chooses a signer. The source that is recorded under a name is the strongest layer that has an option of that name,
    with the same exception. Any layer may have any options; where a backend's option has the name of a core option,
    both keep their values and share the source. *)
Theorem options_by_precedence (registry : ToolOptions) (backend : str) (manifest full alias config request inline : option ToolOptions) :
  let r := resolve_opts_with_layers registry backend manifest full alias config request inline in
  let layers := user_layers manifest full alias config request inline in
  (forall slot, setting r.(options) slot = or_opt (strongest layers slot) (registry_setting registry layers slot))
  /\ forall key, r.(option_sources) !! key = or_opt (strongest_source layers key) (registry_source registry layers key).
Proof.
  cbv zeta. rewrite resolve_layers. apply layers_spec, user_layers_ok.
Qed.

(** ** Without the registry *)

(** Options that are set alike are equal. *)
Lemma settings_equal a b : (forall slot, setting a slot = setting b slot) -> a = b.
Proof.
  intros H.
  assert (opts a = opts b) as Eopts.
  { apply map_eq. intros key. pose proof (H (SlotOption key)) as E. simpl in E. destruct (opts a !! key), (opts b !! key); simpl in E; congruence. }
  assert (install_env (core a) = install_env (core b)) as Eenv.
  { apply map_eq. intros e. pose proof (H (SlotEnv e)) as E. simpl in E. destruct (install_env (core a) !! e), (install_env (core b) !! e); simpl in E; congruence. }
  pose proof (H SlotOs) as Eos. pose proof (H SlotDepends) as Edepends. pose proof (H SlotLazy) as Elazy. pose proof (H SlotLazyBins) as Ebins.
  pose proof (H SlotAutoUpdate) as Eauto. clear H. destruct a as [[aos adep aenv alazy abins aauto] aopts], b as [[bos bdep benv blazy bbins bauto] bopts]. simpl in *. subst.
  assert (aos = bos) as -> by (destruct aos, bos; simpl in Eos; congruence).
  assert (adep = bdep) as -> by (destruct adep, bdep; simpl in Edepends; congruence).
  assert (alazy = blazy) as -> by (destruct alazy, blazy; simpl in Elazy; congruence).
  assert (aauto = bauto) as -> by (destruct aauto, bauto; simpl in Eauto; congruence).
  assert (abins = bbins) as -> by (destruct abins, bbins; simpl in Ebins; congruence). done.
Qed.

Lemma from_sources_setting r sources slot :
  setting (options_from_sources r sources) slot = if comes_from r sources (slot_key slot) then setting r.(options) slot else None.
Proof.
  unfold options_from_sources. destruct slot; cbn [setting slot_key core opts os depends install_env lazy lazy_bins auto_update].
  2-6: by destruct (comes_from r sources _).
  - rewrite map_lookup_filter. cbn [fst]. destruct (opts _ !! key), (comes_from r sources key); by simplify_option_eq.
  - rewrite map_lookup_filter. cbn [fst]. destruct (install_env _ !! variable), (comes_from r sources (install_env_key variable)); by simplify_option_eq.
Qed.

Lemma from_sources_names r sources key :
  key <> INSTALL_ENV -> has_name (options_from_sources r sources) key = comes_from r sources key && has_name r.(options) key.
Proof.
  intros Hne. apply eq_true_iff_eq. rewrite andb_true_iff, !names_true. split.
  - intros [(slot & <- & H)|[? _]]; [|done]. rewrite from_sources_setting in H. destruct (comes_from _ _ _); [|by destruct H]. split; [done|]. left. by exists slot.
  - intros [Hc [(slot & <- & H)|[? _]]]; [|done]. left. exists slot. split; [done|]. by rewrite from_sources_setting, Hc.
Qed.

Definition layers_of (r : ResolvedToolOptions) : Layers :=
  map (fun source => (source, options_from_sources r [source])) USER_SOURCES.

Lemma extend_layers r target : extend_without_registry r target = apply_layers (layers_of r) target.
Proof. reflexivity. Qed.

Lemma layers_of_user r : Forall user_layer (rev (layers_of r)).
Proof. apply Forall_rev. by repeat constructor. Qed.

(** Of the layers that options are taken apart into, the one that a name is recorded for has what has that name. *)
Lemma comes_from_source r key source s : r.(option_sources) !! key = Some source -> comes_from r [s] key = bool_decide (source = s).
Proof. intros Hs. unfold comes_from, source_for_key. rewrite Hs. apply bool_decide_ext. by rewrite list_elem_of_singleton. Qed.

Lemma taken_setting r slot source :
  r.(option_sources) !! slot_key slot = Some source ->
  strongest (rev (layers_of r)) slot = if bool_decide (source = Registry) then None else setting r.(options) slot.
Proof.
  intros Hs. unfold layers_of, USER_SOURCES. cbn [map rev app strongest]. rewrite !from_sources_setting, !(comes_from_source _ _ _ _ Hs).
  destruct (setting (options r) slot); destruct source; reflexivity.
Qed.

Lemma taken_unset r slot : setting r.(options) slot = None -> strongest (rev (layers_of r)) slot = None.
Proof.
  intros Hv. unfold layers_of, USER_SOURCES. cbn [map rev app strongest]. rewrite !from_sources_setting, Hv. by repeat destruct (comes_from _ _ _).
Qed.

Lemma taken_source r key source :
  key <> INSTALL_ENV -> r.(option_sources) !! key = Some source ->
  strongest_source (rev (layers_of r)) key = if bool_decide (source = Registry) || negb (has_name r.(options) key) then None else Some source.
Proof.
  intros Hne Hs. unfold layers_of, USER_SOURCES. cbn [map rev app strongest_source]. rewrite !from_sources_names, !(comes_from_source _ _ _ _ Hs) by done.
  destruct source, (has_name r.(options) key); reflexivity.
Qed.

Lemma taken_unnamed r key : key <> INSTALL_ENV -> has_name r.(options) key = false -> strongest_source (rev (layers_of r)) key = None.
Proof.
  intros Hne Hv. unfold layers_of, USER_SOURCES. cbn [map rev app strongest_source]. rewrite !from_sources_names, Hv by done. by rewrite !andb_false_r.
Qed.

Lemma strongest_named layers slot : is_Some (strongest layers slot) -> is_Some (strongest_source layers (slot_key slot)).
Proof.
  induction layers as [|[s o] layers IH]; [by intros []|]. cbn [strongest strongest_source]. destruct (has_name o (slot_key slot)) eqn:E; [by eexists|].
  destruct (setting o slot) eqn:Es; [|done]. intros _. exfalso. rewrite setting_names in E; [done|by eexists].
Qed.

Lemma strongest_unset layers slot source o : strongest layers slot = None -> (source, o) ∈ layers -> setting o slot = None.
Proof.
  induction layers as [|[s o'] layers IH]; [by intros _ ?%elem_of_nil|]. cbn [strongest]. destruct (setting o' slot) eqn:E; [done|].
  intros Hn [[= -> ->]|Hin]%elem_of_cons; [done|by apply IH].
Qed.

Lemma source_named layers key source : key <> INSTALL_ENV -> strongest_source layers key = Some source -> exists slot, slot_key slot = key /\ is_Some (strongest layers slot).
Proof.
  intros Hne. induction layers as [|[s o] layers IH]; [done|]. cbn [strongest strongest_source]. destruct (has_name o key) eqn:E.
  - intros _. apply names_true in E as [(slot & Hk & [v Hv])|[? _]]; [|done]. exists slot. rewrite Hv. split; [done|by eexists].
  - intros (slot & Hk & Hv)%IH. exists slot. split; [done|]. destruct (setting o slot); [by eexists|done].
Qed.

(** A layer that has an option of the name of one of the registry's sets the same option: it is not an option of the backend
    here and a core option there. *)
Definition registry_apart (registry : ToolOptions) (layers : Layers) : Prop :=
  forall slot layer, is_Some (setting registry slot) -> layer ∈ layers -> has_name layer.2 (slot_key slot) = true -> is_Some (setting layer.2 slot).

(** So it is where no option of a backend has the name of a core option. *)
Lemma separate_named o slot : separate o -> core_name (slot_key slot) = true -> has_name o (slot_key slot) = true -> slot_key slot <> INSTALL_ENV ->
  exists slot', slot_key slot' = slot_key slot /\ is_Some (setting o slot') /\ slot' <> SlotOption (slot_key slot).
Proof.
  intros Hsep Hc [(slot' & Hk & H)|[? _]]%names_true Hne; [|done]. exists slot'. split_and!; [done..|]. intros ->. cbn [setting] in H. apply fmap_is_Some, Hsep in H. congruence.
Qed.

Lemma core_slot_unique slot slot' : slot_key slot = slot_key slot' -> slot <> SlotOption (slot_key slot) -> slot' <> SlotOption (slot_key slot') -> slot = slot'.
Proof.
  intros Hk H1 H2. destruct slot, slot'; try done; try (by vm_compute in Hk).
  cbn [slot_key] in Hk. unfold install_env_key in Hk. by apply app_inv_head in Hk as ->.
Qed.

Lemma separate_apart registry layers : separate registry -> Forall (fun layer => separate layer.2) layers -> registry_apart registry layers.
Proof.
  intros Hr Hl slot layer Hs Hin Hn. rewrite Forall_forall in Hl. specialize (Hl layer Hin).
  destruct (slot_option_or_core slot) as [E|Hc].
  - rewrite E in *. cbn [slot_key] in *. set (key := slot_key slot) in *. clearbody key. assert (core_name key = false) as Hc.
    { cbn [setting] in Hs. apply fmap_is_Some, Hr in Hs. done. }
    apply names_true in Hn as [(slot' & <- & H)|[-> _]]; [by rewrite (slot_core_name slot' Hc) in H|by vm_compute in Hc].
  - assert (slot <> SlotOption (slot_key slot)) as Hne.
    { intros E. rewrite E in Hs. cbn [setting] in Hs. apply fmap_is_Some, Hr in Hs. congruence. }
    destruct (separate_named layer.2 slot Hl Hc Hn) as (slot' & Hk & H & Hne').
    + destruct slot; by vm_compute.
    + by rewrite (core_slot_unique slot slot') by congruence.
Qed.

Section Apart.

Context (registry : ToolOptions) (backend : str) (layers : Layers) (Hl : Forall user_layer layers) (Hapart : registry_apart registry layers).

Let r := apply_layers (rev layers) (apply_registry registry backend Resolved_default).

Lemma apart_source slot : is_Some (setting registry slot) -> strongest layers slot = None -> strongest_source layers (slot_key slot) = None.
Proof using Hapart.
  intros Hs Hn. destruct (strongest_source layers (slot_key slot)) as [source|] eqn:E; [|done]. exfalso.
  apply strongest_source_in in E as (o & Hin & Ho). destruct (Hapart slot _ Hs Hin Ho) as [v Hv]. cbn [snd] in Hv. by rewrite (strongest_unset _ _ _ _ Hn Hin) in Hv.
Qed.

(** Taken apart, resolved options are still those of the layers above the registry. *)
Lemma taken_apart slot : strongest (rev (layers_of r)) slot = strongest layers slot.
Proof using Hl Hapart.
  destruct (layers_spec registry backend layers Hl) as [H1 H2]. fold r in H1, H2. specialize (H1 slot). specialize (H2 (slot_key slot)).
  unfold effective in H1. unfold effective_source in H2. destruct (strongest layers slot) as [v|] eqn:E; cbn [or_opt] in H1.
  - destruct (strongest_named layers slot) as [s Hs]; [by rewrite E|]. rewrite Hs in H2. cbn [or_opt] in H2.
    rewrite (taken_setting r slot s H2), bool_decide_eq_false_2 by (by apply (user_source _ _ _ Hl Hs)). done.
  - destruct (registry_setting registry layers slot) as [v|] eqn:Er; [|by apply taken_unset].
    unfold registry_setting in Er. destruct (signer_chosen layers && policy_slot slot) eqn:Ep; [done|].
    rewrite apart_source in H2 by (by rewrite ?Er). unfold registry_source in H2. rewrite setting_names in H2 by (by rewrite Er).
    rewrite <- policy_slot_key, Ep in H2. by rewrite (taken_setting r slot Registry H2).
Qed.

Lemma taken_apart_source key : key <> INSTALL_ENV -> strongest_source (rev (layers_of r)) key = strongest_source layers key.
Proof using Hl Hapart.
  intros Hne. destruct (layers_spec registry backend layers Hl) as [H1 H2]. fold r in H1, H2. pose proof (H2 key) as Hk. unfold effective_source in Hk.
  destruct (strongest_source layers key) as [s|] eqn:Es; cbn [or_opt] in Hk.
  - rewrite (taken_source r key s Hne Hk), bool_decide_eq_false_2 by (by apply (user_source _ _ _ Hl Es)). cbn [orb].
    destruct (source_named layers key s Hne Es) as (slot & <- & [v Hv]). rewrite setting_names; [done|]. rewrite H1. unfold effective. by rewrite Hv.
  - destruct (has_name r.(options) key) eqn:En; [|by apply taken_unnamed].
    apply names_true in En as [(slot & <- & Hs)|[? _]]; [|done]. rewrite H1 in Hs. unfold effective in Hs.
    destruct (strongest layers slot) as [v|] eqn:E.
    { destruct (strongest_named layers slot) as [s Hs']; [by rewrite E|]. congruence. }
    cbn [or_opt] in Hs. unfold registry_setting in Hs. destruct (signer_chosen layers && policy_slot slot) eqn:Ep; [by destruct Hs|].
    unfold registry_source in Hk. rewrite setting_names, <- policy_slot_key, Ep in Hk by done. by rewrite (taken_source r _ Registry Hne Hk).
Qed.

End Apart.

(** Whether a user chose a signer shows in the strongest settings. *)
Lemma sets_signer o : sets_signer_option o = existsb (fun key => opt_is_some (setting o (SlotOption key))) SIGNER_OPTION_KEYS.
Proof. unfold sets_signer_option. apply existsb_ext_in. intros key _. cbn [setting]. by destruct (opts o !! key). Qed.

Lemma signer_strongest layers : signer_chosen layers = existsb (fun key => opt_is_some (strongest layers (SlotOption key))) SIGNER_OPTION_KEYS.
Proof.
  apply eq_true_iff_eq. unfold signer_chosen. rewrite !existsb_exists. split.
  - intros ([s o] & Hin & Ho). cbn [snd] in Ho. rewrite sets_signer in Ho. apply existsb_exists in Ho as (key & Hk & Ho). exists key. split; [done|].
    induction layers as [|[s' o'] layers IH]; [done|]. cbn [strongest]. destruct (setting o' (SlotOption key)) eqn:E; [done|].
    destruct Hin as [[= -> ->]|Hin]; [by rewrite E in Ho|by apply IH].
  - intros (key & Hk & Hs). induction layers as [|[s o] layers IH]; [done|]. cbn [strongest] in Hs. destruct (setting o (SlotOption key)) eqn:E.
    + exists (s, o). split; [by left|]. cbn [snd]. rewrite sets_signer. apply existsb_exists. exists key. by rewrite E.
    + destruct (IH Hs) as (l & Hin & Ho). exists l. split; [by right|done].
Qed.

Lemma signer_ext (layers layers' : Layers) : (forall slot, strongest layers slot = strongest layers' slot) -> signer_chosen layers = signer_chosen layers'.
Proof. intros H. rewrite !signer_strongest. apply existsb_ext_in. intros key _. by rewrite H. Qed.

(** The registry's options exchanged for those of another backend: as if they had been there from the start. *)
Lemma registry_exchanged registry backend registry' backend' (layers : Layers) :
  Forall user_layer layers -> registry_apart registry layers ->
  let r := apply_layers (rev layers) (apply_registry registry backend Resolved_default) in
  let left := extend_without_registry r (apply_registry registry' backend' Resolved_default) in
  let fresh := apply_layers (rev layers) (apply_registry registry' backend' Resolved_default) in
  left.(options) = fresh.(options) /\
  forall key, key <> INSTALL_ENV -> left.(option_sources) !! key = fresh.(option_sources) !! key.
Proof.
  intros Hl Hapart. cbv zeta. rewrite extend_layers. set (r := apply_layers (rev layers) (apply_registry registry backend Resolved_default)).
  pose proof (taken_apart registry backend layers Hl Hapart) as Hst. pose proof (taken_apart_source registry backend layers Hl Hapart) as Hsrc. fold r in Hst, Hsrc.
  destruct (layers_spec registry' backend' (rev (layers_of r)) (layers_of_user r)) as [H1 H2]. rewrite rev_involutive in H1, H2.
  destruct (layers_spec registry' backend' layers Hl) as [H3 H4]. pose proof (signer_ext _ _ Hst) as Hsign. split.
  - apply settings_equal. intros slot. rewrite H1, H3. unfold effective, registry_setting. by rewrite Hst, Hsign.
  - intros key Hne. rewrite H2, H4. unfold effective_source, registry_source. by rewrite Hsrc, Hsign.
Qed.

Lemma effective_none layers slot : effective ToolOptions_default layers slot = strongest layers slot.
Proof. unfold effective, registry_setting. rewrite setting_default. by destruct (strongest layers slot), (_ && _). Qed.

Lemma effective_source_none layers key : effective_source ToolOptions_default layers key = strongest_source layers key.
Proof. unfold effective_source, registry_source. rewrite names_default. by destruct (strongest_source layers key). Qed.

(** Without any registry the layers start from nothing. *)
Lemma plain_layers_spec layers :
  Forall user_layer layers ->
  let r := apply_layers (rev layers) Resolved_default in
  (forall slot, setting r.(options) slot = strongest layers slot) /\ forall key, r.(option_sources) !! key = strongest_source layers key.
Proof.
  intros Hl. destruct (layers_spec ToolOptions_default [] layers Hl) as [H1 H2]. cbv zeta.
  assert (forall ls r r', r.(options) = r'.(options) -> r.(option_sources) = r'.(option_sources) ->
    (apply_layers ls r).(options) = (apply_layers ls r').(options) /\ (apply_layers ls r).(option_sources) = (apply_layers ls r').(option_sources)) as Happ.
  { intros ls. induction ls as [|[s o] ls IH]; intros r r' E1 E2; [done|]. apply IH; unfold apply_layer, drop_superseded_registry_defaults;
      cbn [options option_sources registry_backend]; rewrite E1, E2; by destruct (_ || _). }
  destruct (Happ (rev layers) Resolved_default (apply_registry ToolOptions_default [] Resolved_default)) as [E1 E2].
  - unfold apply_registry, apply_layer, apply_overrides, core_over. cbn. by rewrite (right_id_L ∅ (∪)), (left_id_L ∅ (∪)).
  - reflexivity.
  - rewrite E1, E2. split; [intros slot; by rewrite H1, effective_none|intros key; by rewrite H2, effective_source_none].
Qed.

(** C25. The registry's options can be taken out again: the options that are left, and the sources of all of them, are
    those that the other layers give without the registry, its signer policy included. This takes a layer that has an
    option of the name of one of the registry's to set that same option, not an option of the backend where the registry
    has a core option, or the reverse. Options that are read from a text do ([parsed_options_separate]); for those of the
    registry and of install manifests the code does not check it, though no file of registry/ breaks it. Where it is broken
    the registry's option may stay behind, see [namesake_kept]. (The source of [install_env] as a whole, which names no single
    variable, is left aside.) *)
Theorem registry_removable (registry : ToolOptions) (backend : str) (manifest full alias config request inline : option ToolOptions)
    (Hapart : registry_apart registry (user_layers manifest full alias config request inline)) :
  let r := resolve_opts_with_layers registry backend manifest full alias config request inline in
  let alone := resolve_opts_with_layers ToolOptions_default backend manifest full alias config request inline in
  let left := extend_without_registry r Resolved_default in
  left.(options) = alone.(options) /\
  forall key, key <> INSTALL_ENV -> left.(option_sources) !! key = alone.(option_sources) !! key.
Proof.
  cbv zeta. rewrite extend_layers, !resolve_layers. pose proof (user_layers_ok manifest full alias config request inline) as Hl.
  set (layers := user_layers manifest full alias config request inline) in *.
  set (r := apply_layers (rev layers) (apply_registry registry backend Resolved_default)).
  pose proof (taken_apart registry backend layers Hl Hapart) as Hst. pose proof (taken_apart_source registry backend layers Hl Hapart) as Hsrc. fold r in Hst, Hsrc.
  destruct (plain_layers_spec (rev (layers_of r)) (layers_of_user r)) as [H1 H2]. rewrite rev_involutive in H1, H2.
  destruct (layers_spec ToolOptions_default backend layers Hl) as [H3 H4]. split.
  - apply settings_equal. intros slot. by rewrite H1, H3, effective_none.
  - intros key Hne. rewrite H2, H4, effective_source_none. by apply Hsrc.
Qed.

(** ** Reading *)

Section Reading.

Context (display : Value -> str) (float_to_string : str -> str) (from_toml : str -> option Value)
  (auto_update_ok : str -> bool).

Lemma separate_with_core c o : separate o -> separate (with_core c o).
Proof. done. Qed.

Lemma separate_with_opt key v o : core_name key = false -> separate o -> separate (with_opt key v o).
Proof.
  intros Hk Ho key' [v' Hv]. unfold with_opt in Hv. cbn [opts] in Hv. destruct (decide (key' = key)) as [->|Hne]; [done|].
  rewrite lookup_insert_ne in Hv by done. apply Ho. by exists v'.
Qed.

(** What a core key sets is a core option or one of the three that backends read. *)
Lemma insert_core_separate key v o o' :
  insert_core_option float_to_string auto_update_ok key v o = Ok (Some o') -> separate o -> separate o'.
Proof.
  intros H Ho. unfold insert_core_option in H.
  case_bool_decide; [by apply rbind_inv in H as (? & _ & [= <-])|]. case_bool_decide; [by apply rbind_inv in H as (? & _ & [= <-])|].
  case_bool_decide; [destruct v; try discriminate; by apply rbind_inv in H as (? & _ & [= <-])|].
  case_bool_decide; [destruct v; try discriminate; by injection H as <-|].
  case_bool_decide; [apply rbind_inv in H as (? & _ & H); destruct (forallb _ _); [by injection H as <-|done]|].
  case_bool_decide; [destruct (match v with VBoolean _ => _ | _ => _ end); [|done]; destruct (auto_update_ok _); [by injection H as <-|done]|].
  case_bool_decide as Hpost; [apply rbind_inv in H as (? & _ & [= <-]); apply separate_with_opt; [by rewrite Hpost|done]|].
  destruct (_ || _) eqn:Eage.
  - destruct (scalar_value_to_string _ v); [|done]. injection H as <-. apply separate_with_opt; [|done].
    by apply orb_true_iff in Eage as [E%bool_decide_eq_true|E%bool_decide_eq_true]; rewrite E.
  - destruct (strip_prefix _ key); [|done]. by apply rbind_inv in H as (? & _ & [= <-]).
Qed.

Lemma insert_core_none key v o : insert_core_option float_to_string auto_update_ok key v o = Ok None -> core_name key = false.
Proof.
  intros H. unfold insert_core_option in H. unfold core_name, starts_with.
  case_bool_decide; [by apply rbind_inv in H as (? & _ & H)|]. case_bool_decide; [by apply rbind_inv in H as (? & _ & H)|].
  case_bool_decide; [destruct v; try discriminate; by apply rbind_inv in H as (? & _ & H)|].
  case_bool_decide; [by destruct v|].
  case_bool_decide; [apply rbind_inv in H as (? & _ & H); by destruct (forallb _ _)|].
  case_bool_decide; [destruct (match v with VBoolean _ => _ | _ => _ end); [|done]; by destruct (auto_update_ok _)|].
  case_bool_decide; [by apply rbind_inv in H as (? & _ & H)|].
  destruct (_ || _); [by destruct (scalar_value_to_string _ v)|].
  destruct (strip_prefix _ key); [by apply rbind_inv in H as (? & _ & H)|].
  rewrite bool_decide_eq_false_2; [done|]. rewrite !elem_of_cons, elem_of_nil. tauto.
Qed.

Lemma insert_separate key v o o' :
  insert_option display float_to_string auto_update_ok key v o = Ok o' -> separate o -> separate o'.
Proof.
  unfold insert_option. intros (inserted & Hi & [= <-])%rbind_inv Ho. destruct inserted as [o1|].
  - by eapply insert_core_separate.
  - apply separate_with_opt; [|done]. by eapply insert_core_none.
Qed.

Lemma insert_options_separate entries o o' :
  insert_options display float_to_string auto_update_ok entries o = Ok o' -> separate o -> separate o'.
Proof.
  revert o. induction entries as [|[key v] entries IH]; intros o0 H H0; simpl in H; [by injection H as <-|].
  apply rbind_inv in H as (o1 & H1 & H). apply (IH o1); [done|]. by eapply insert_separate.
Qed.

(** An option that is not read leaves the backend's options as they are. *)
Lemma lenient_separate o entry : separate o -> separate (insert_option_lenient display float_to_string auto_update_ok o entry).
Proof.
  destruct entry as [key v]. intros Ho. unfold insert_option_lenient.
  destruct (insert_option _ _ _ key v o) eqn:E; [by eapply insert_separate|..];
    (case_bool_decide; [by destruct v|]; case_bool_decide; [by destruct (parse_string_or_array v key)|done]).
Qed.

Lemma separate_default : separate ToolOptions_default.
Proof. intros key [v Hv]. cbn in Hv. by rewrite lookup_empty in Hv. Qed.

(** C37. The options that are read from a text keep the names of core options for core options: none of them, [install_env]
    included, is among the options that go to a backend, whatever the text is, whichever of the two notations it has, and
    whether it is read strictly, where an error ends the reading, or leniently, where it skips the option. *)
Theorem parsed_options_separate (s : str) :
  (forall o, try_parse_tool_options display float_to_string from_toml auto_update_ok s = Ok o -> separate o)
  /\ separate (parse_tool_options display float_to_string from_toml auto_update_ok s).
Proof.
  split.
  - intros o H. eapply insert_options_separate; [exact H|exact separate_default].
  - unfold parse_tool_options. generalize (match inline_table from_toml s with Some t => t | None => parse_manual_tool_options_raw from_toml s end).
    intros entries. pose proof separate_default as Hd. revert Hd. generalize ToolOptions_default.
    induction entries as [|entry entries IH]; intros o Ho; [done|]. apply IH. by apply lenient_separate.
Qed.

End Reading.

(** ** Examples *)

Definition sample_layer (entries : list (str * str)) : ToolOptions :=
  mkToolOptions CoreToolOptions_default (list_to_map (map (fun e => (e.1, VString e.2)) entries)).

Definition sample_registry : ToolOptions :=
  mkToolOptions (mkCore (Some [u!"linux"]) None {[u!"A" := EnvString u!"1"]} None [] None)
    {[u!"identity" := VString u!"registry"; u!"issuer" := VString u!"registry"; u!"bin" := VString u!"tool"]}.

Definition sample_config : ToolOptions := sample_layer [(u!"pubkey", u!"config"); (u!"exe", u!"config")].

Definition sample_request : ToolOptions := sample_layer [(u!"exe", u!"request")].

Definition sample_resolved : ResolvedToolOptions :=
  resolve_opts_with_layers sample_registry u!"packslip:tool" None None None (Some sample_config) (Some sample_request) None.

Lemma separate_check o : forallb (fun kv => negb (core_name kv.1)) (map_to_list o.(opts)) = true -> separate o.
Proof.
  intros H key [v Hv]. rewrite forallb_forall in H. apply elem_of_map_to_list, list_elem_of_In in Hv. apply H in Hv. by apply negb_true_iff in Hv.
Qed.

Abbreviation sample_layers := (user_layers None None None (Some sample_config) (Some sample_request) None).

Lemma sample_apart : registry_apart sample_registry sample_layers.
Proof.
  apply separate_apart; [apply separate_check; vm_compute; reflexivity|]. repeat constructor; apply separate_check; vm_compute; reflexivity.
Qed.

(** The configuration's key for signatures replaces the identity of the registry. *)
Example options_by_precedence_witness :
  (setting sample_resolved.(options) (SlotOption u!"identity") = None /\ sample_resolved.(option_sources) !! u!"identity" = None) /\
  (setting sample_resolved.(options) (SlotOption u!"exe") = Some (SOption (VString u!"request")) /\ sample_resolved.(option_sources) !! u!"exe" = Some Request) /\
  (setting sample_resolved.(options) (SlotEnv u!"A") = Some (SEnv (EnvString u!"1")) /\ sample_resolved.(option_sources) !! u!"install_env.A" = Some Registry).
Proof.
  destruct (options_by_precedence sample_registry u!"packslip:tool" None None None (Some sample_config) (Some sample_request) None) as [H1 H2].
  split_and!; [exact (H1 (SlotOption u!"identity"))|exact (H2 u!"identity")|exact (H1 (SlotOption u!"exe"))|exact (H2 u!"exe")
              |exact (H1 (SlotEnv u!"A"))|exact (H2 u!"install_env.A")].
Defined.

Example registry_removable_witness :
  let alone := resolve_opts_with_layers ToolOptions_default u!"packslip:tool" None None None (Some sample_config) (Some sample_request) None in
  (extend_without_registry sample_resolved Resolved_default).(options) = alone.(options) /\
  forall key, key <> INSTALL_ENV -> (extend_without_registry sample_resolved Resolved_default).(option_sources) !! key = alone.(option_sources) !! key.
Proof. exact (registry_removable sample_registry u!"packslip:tool" None None None (Some sample_config) (Some sample_request) None sample_apart). Defined.

(** An option of the registry's backend that is called [os], beside the core option of a configuration: the two share their
    source, and the registry's stays when the registry is taken out. *)
Example namesake_kept :
  let registry := sample_layer [(u!"os", u!"registry")] in
  let config := mkToolOptions (mkCore (Some [u!"linux"]) None ∅ None [] None) ∅ in
  let resolve registry := resolve_opts_with_layers registry u!"packslip:tool" None None None (Some config) None None in
  setting (extend_without_registry (resolve registry) Resolved_default).(options) (SlotOption u!"os") = Some (SOption (VString u!"registry")) /\
  setting (resolve ToolOptions_default).(options) (SlotOption u!"os") = None.
Proof. split; vm_compute; reflexivity. Qed.

Definition sample_parse : str -> result str ToolOptions :=
  try_parse_tool_options (fun _ => []) (fun s => s) (fun _ => None) (fun _ => true).

(** Without quotes, a part without an equals sign belongs to the value before it. *)
Example sample_parsed :
  match sample_parse u!"exe=rg,match=musl,gnu,os=linux" with
  | Ok o => (opts o !! u!"match", os (core o)) = (Some (VString u!"musl,gnu"), Some [u!"linux"])
  | _ => False
  end.
Proof. vm_compute. reflexivity. Qed.

Example parsed_options_separate_witness :
  match sample_parse u!"exe=rg,match=musl,gnu,os=linux" with Ok o => separate o | _ => False end.
Proof.
  assert (match sample_parse u!"exe=rg,match=musl,gnu,os=linux" with Ok _ => true | _ => false end = true) as H by (vm_compute; reflexivity).
  destruct (sample_parse _) as [o|e|] eqn:E; [|discriminate H..]. unfold sample_parse in E.
  exact (proj1 (parsed_options_separate _ _ _ _ _) o E).
Defined.

(** The lenient reading warns of a path among the commands of a lazy tool, and keeps it. *)
Example rejected_bins_kept :
  insert_option (fun _ => []) (fun s => s) (fun _ => true) u!"lazy_bins" (VString u!"bin/tool") ToolOptions_default
    = Err u!"lazy_bins must contain command names, not paths" /\
  (parse_tool_options (fun _ => []) (fun s => s) (fun _ => None) (fun _ => true) u!"lazy_bins=bin/tool").(core).(lazy_bins) = [u!"bin/tool"].
Proof. split; vm_compute; reflexivity. Qed.
