(* ===== verification/ToolRequest.v ===== *)
(** * Tool requests ([src/toolset/tool_request.rs], [src/toolset/tool_source.rs]; brackets of
    [src/args/backend_arg.rs], the directory names of [src/toolset/tool_version.rs])

    What a user writes for the version of a tool, as [1.2], [prefix:1], [ref:main], [sub-1:lts], [path:~/tool] or
    [system]: its reading, its printing, its validation and the directory that it names, on Unix. *)

From S2P Require Import Prelude RustStr Decimals Toml PathEnv Paths ToolOptions.
From S2P Require Selection.

(** ** Where a request comes from *)

Inductive ToolSource : Type :=
| ToolVersions (path : str)
| MiseToml (path : str)
| MiseTomlDaemon (path : str)
| IdiomaticVersionFile (path : str)
| ToolStub (path : str)
| Argument
| Environment (k v : str)
| Unknown.

#[export] Instance ToolSource_eq_dec : EqDecision ToolSource.
Proof. solve_decision. Defined.

(** [ToolSource::path] *)
Definition source_path (s : ToolSource) : option str :=
  match s with
  | ToolVersions path | MiseToml path | MiseTomlDaemon path | IdiomaticVersionFile path | ToolStub path => Some path
  | Argument | Environment _ _ | Unknown => None
  end.

Inductive LockfileScope : Type :=
| Scope_Default
| Scope_Source (source : ToolSource)
| NoOwner.

(** ** Inline options in brackets *)

(** The text before the first bracket, the options and the rest; [body] is what was read since the bracket. *)
Fixpoint brackets (s name : str) (body : option str) (depth : nat) (in_single in_double escaped : bool)
    : option (str * str * str) :=
  match s with
  | [] => None
  | c :: s' =>
      let plain := negb in_single && negb in_double in
      let name' := match body with None => name ++ [c] | Some _ => name end in
      let body' := match body with None => None | Some b => Some (b ++ [c]) end in
      let escaped' in_double := in_double && (c =? 92)%N && negb escaped in
      if (c =? c!"'")%N && negb in_double then brackets s' name' body' depth (negb in_single) in_double (escaped' in_double)
      else if (c =? 34)%N && negb in_single && negb escaped then
        brackets s' name' body' depth in_single (negb in_double) (escaped' (negb in_double))
      else if (c =? c!"[")%N && plain then
        brackets s' name (match body with None => Some [] | Some b => Some (b ++ [c]) end) (S depth) in_single in_double (escaped' in_double)
      else if (c =? c!"]")%N && plain then
        match body with
        | None => None
        | Some b => match depth with
                    | 1 => Some (name, b, s')
                    | _ => brackets s' name body' (pred depth) in_single in_double (escaped' in_double)
                    end
        end
      else brackets s' name' body' depth in_single in_double (escaped' in_double)
  end.

Definition split_bracketed_opts_with_suffix (s : str) : option (str * str * str) :=
  if contains_char c!"[" s then brackets s [] None 0 false false false else None.

Definition split_bracketed_opts (s : str) : option (str * str) :=
  if ends_with u!"]" s then
    match split_bracketed_opts_with_suffix s with Some (name, opts, []) => Some (name, opts) | _ => None end
  else None.

Definition strip_opts (s : str) : str := match split_bracketed_opts s with Some (name, _) => name | None => s end.

(** ** Validation *)

Inductive RequestError : Type :=
| LeadingDash (s : str)
| LeadingSlash (s : str)
| PathTraversal (s : str)
| ForbiddenChar (s : str) (c : char)
| NotADirectoryName (s : str)
| InvalidRequest (s : str)
| NotNumeric (orig sub : str)
| InvalidVersion (sub : str)
| NoBinMetadata (short : str)
| UnsafeOption (what short : str)
| LockfileError (message : str).

Definition is_forbidden_version_char (c : char) : bool :=
  (c <? 0x20)%N || (c =? 0x7f)%N || one_of (34%N :: u!"'`\$") c.

(** [str::replace] of [%2e] by [.] in a lower-case text *)
Fixpoint decode_dots (s : str) : str :=
  match s with
  | c1 :: ((c2 :: c3 :: rest) as s') =>
      if (c1 =? c!"%")%N && (c2 =? c!"2")%N && (c3 =? c!"e")%N then c!"." :: decode_dots rest else c1 :: decode_dots s'
  | c :: s' => c :: decode_dots s'
  | [] => []
  end.

Definition contains_dot_dot (s : str) : bool :=
  contains_str u!".." s || contains_str u!".." (decode_dots (map to_ascii_lowercase s)).

(** [chars().find(f)], which is reported. *)
Definition reject_char (f : char -> bool) (s : str) : result RequestError unit :=
  match List.find f s with Some c => Err (ForbiddenChar s c) | None => Ok tt end.

Definition validate_version_string (s : str) : result RequestError unit :=
  if bool_decide (s = []) then Ok tt
  else if starts_with u!"-" s then Err (LeadingDash s)
  else if starts_with u!"/" s then Err (LeadingSlash s)
  else if contains_dot_dot s then Err (PathTraversal s)
  else reject_char is_forbidden_version_char s.

Definition validate_resolved_version (s : str) : result RequestError unit :=
  if bool_decide (s = []) || bool_decide (s = u!".") then Err (NotADirectoryName s) else validate_version_string s.

Definition validate_installable_version (s : str) : result RequestError unit :=
  let? _ := validate_resolved_version s in
  reject_char (fun c => is_whitespace c || one_of u!";&|<>()%#?" c) s.

Definition validate_ref_string (s : str) : result RequestError unit :=
  if bool_decide (s = []) then Ok tt
  else if starts_with u!"-" s then Err (LeadingDash s)
  else if contains_dot_dot s then Err (PathTraversal s)
  else reject_char is_forbidden_version_char s.

Definition is_forbidden_cmd_char (c : char) : bool := false.
Definition is_forbidden_path_char (c : char) : bool := is_forbidden_version_char c || is_forbidden_cmd_char c.

Definition validate_path_string (s : str) : result RequestError unit :=
  if bool_decide (s = []) then Ok tt else reject_char is_forbidden_path_char s.

Definition is_safe_relative_path (path : str) : bool :=
  let normalized := replace_char 92%N slash path in
  if bool_decide (path = []) then false
  else if starts_with [slash] normalized
          || match normalized with a :: b :: _ => is_ascii_alphabetic a && (b =? c!":")%N | _ => false end
  then false
  else match (components normalized).2 with
       | [] => false
       | names => forallb (fun n => negb (bool_decide (n = u!".")) && negb (bool_decide (n = u!".."))) names
       end.

(** ** Subtraction of versions *)

Fixpoint all_u32 (pieces : list str) : option (list N) :=
  match pieces with
  | [] => Some []
  | p :: rest => n ← parse_u32 p; rest ← all_u32 rest; Some (n :: rest)
  end.

Definition numeric_components (version : str) : option (list N) :=
  if bool_decide (version = []) then None else all_u32 (split_on (N.eqb c!".") version).

Definition format_components (version : list N) : str := join u!"." (map to_string version).

(** The loop that borrows: [j] goes down from the place of the underflow. *)
Fixpoint borrow (version : list N) (j : nat) : list N :=
  match j with
  | 0 => [0%N]
  | S j' =>
      match version !! j' with
      | Some prev => if (0 <? prev)%N then take (S j') (<[j' := (prev - 1)%N]> version) else borrow version j'
      | None => borrow version j'
      end
  end.

(** The loop over the components; what is left of [sub] is as long as the rest of the version. *)
Fixpoint subtract (done rest sub : list N) : list N :=
  match rest, sub with
  | orig_val :: rest', m :: sub' =>
      if (orig_val <? m)%N then borrow (done ++ rest) (length done) else subtract (done ++ [(orig_val - m)%N]) rest' sub'
  | _, _ => done ++ rest
  end.

Definition version_sub (orig sub : str) : result RequestError str :=
  match numeric_components orig with
  | None => Err (NotNumeric orig sub)
  | Some version =>
      match numeric_components sub with
      | None => Err (InvalidVersion sub)
      | Some sub_version => Ok (format_components (subtract [] (take (length sub_version) version) sub_version))
      end
  end.

(** ** Requests *)

(** What a request needs to know of a backend argument: its names and directories, the layers of its options, which
    come from the registry, the manifest of an installation, its spelling and a tool alias, and the registry's choice
    for a version. *)
Class BackendArg (BA : Type) := {
  short : BA -> str;
  full_without_opts : BA -> str;
  registry_opts : BA -> ToolOptions;
  install_manifest_opts : BA -> option ToolOptions;
  resolved_full_opts : BA -> option ToolOptions;
  backend_alias_opts : BA -> option ToolOptions;
  explicit_opts : BA -> option ToolOptions;
  with_registry_version : BA -> str -> option BA;
  registry_bins : BA -> option (list str);
  is_spm : BA -> bool;
  ba_os_supported : BA -> bool;
  installs_path : BA -> str;
  tool_dir_name : BA -> str
}.

Inductive RequestKind : Type :=
| Version (version : str)
| Prefix (prefix : str)
| Ref (ref_ ref_type : str)
| Sub (sub orig_version : str)
| Path (path : str)
| System.

#[export] Instance RequestKind_eq_dec : EqDecision RequestKind.
Proof. solve_decision. Defined.

Section Requests.

Context {BA : Type} `{BackendArg BA}.

Record ToolRequest := mkRequest {
  backend : BA;
  kind : RequestKind;
  req_options : ResolvedToolOptions;
  source : ToolSource;
  lockfile_scope : LockfileScope
}.

(** [HOME], the working directory and the directory of a configuration file; whether a configuration file is global;
    safe mode. *)
Context (HOME : str) (CWD : option str) (config_root : str -> str) (is_global_config : str -> bool) (safe_mode : bool).

Definition resolve_opts_with_config_and_request (ba : BA) (config request : option ToolOptions) : ResolvedToolOptions :=
  resolve_opts_with_layers (registry_opts ba) (full_without_opts ba) (install_manifest_opts ba) (resolved_full_opts ba)
    (backend_alias_opts ba) config request (explicit_opts ba).

(** What [Path::strip_prefix] leaves is joined with single separators. *)
Definition resolve_path (p : str) (src : ToolSource) : str :=
  match path_strip_prefix u!"~/" p with
  | Some rest => path_join HOME (join [slash] rest)
  | None =>
      if is_absolute p then p
      else
        let p := match path_strip_prefix u!"./" p with Some rest => join [slash] rest | None => p end in
        path_join (match source_path src with
                   | Some file => config_root file
                   | None => match CWD with Some cwd => cwd | None => u!"." end
                   end) p
  end.

Definition REF_TYPES : list str := [u!"ref"; u!"tag"; u!"branch"; u!"rev"].

Definition is_ref_type (s : str) : bool := bool_decide (s ∈ REF_TYPES).

(** [ref-x] is another spelling of [ref:x]. *)
Definition dashed_ref (s : str) : str :=
  match split_once c!"-" s with Some (ref_type, r) => if is_ref_type ref_type then ref_type ++ u!":" ++ r else s | None => s end.

Definition read_kind (s : str) (src : ToolSource) : result RequestError RequestKind :=
  match split_once c!":" s with
  | Some (scheme, p) =>
      if is_ref_type scheme then let? _ := validate_ref_string p in Ok (Ref p scheme)
      else if bool_decide (scheme = u!"prefix") then let? _ := validate_version_string p in Ok (Prefix p)
      else if bool_decide (scheme = u!"path") then let? _ := validate_path_string p in Ok (Path (resolve_path p src))
      else match strip_prefix u!"sub-" scheme with
           | Some sub =>
               let? _ := validate_version_string sub in let? _ := validate_version_string p in Ok (Sub sub p)
           | None => Err (InvalidRequest s)
           end
  | None =>
      if bool_decide (s = u!"system") then Ok System
      else let? _ := validate_version_string s in Ok (Version s)
  end.

Definition new_with_options (ba : BA) (s : str) (request_options : ToolOptions) (src : ToolSource)
    : result RequestError ToolRequest :=
  let s := dashed_ref s in
  let ba := match with_registry_version ba s with Some ba => ba | None => ba end in
  let options := resolve_opts_with_config_and_request ba None (Some request_options) in
  let? k := read_kind s src in
  Ok (mkRequest ba k options src Scope_Default).

Definition new (ba : BA) (s : str) (src : ToolSource) : result RequestError ToolRequest :=
  new_with_options ba s ToolOptions_default src.

(** [display_user]: the home directory as a tilde, by the first occurrence of its text. *)
Definition display_user (path : str) : str :=
  if path_starts_with path HOME && negb (bool_decide (HOME = u!"/")) then
    match split_once_str HOME path with Some (before, after) => before ++ u!"~" ++ after | None => path end
  else path.

Definition version (r : ToolRequest) : str :=
  match r.(kind) with
  | Version v => v
  | Prefix p => u!"prefix:" ++ p
  | Ref r ref_type => ref_type ++ u!":" ++ r
  | Path p => u!"path:" ++ display_user p
  | Sub sub orig_version => u!"sub-" ++ sub ++ u!":" ++ orig_version
  | System => u!"system"
  end.

(** *** The lockfile that a request reads *)

Definition set_source (src : ToolSource) (r : ToolRequest) : ToolRequest :=
  mkRequest r.(backend) r.(kind) r.(req_options) src Scope_Default.

Definition set_lockfile_scope (scope : LockfileScope) (r : ToolRequest) : ToolRequest :=
  mkRequest r.(backend) r.(kind) r.(req_options) r.(source) scope.

Definition lockfile_owner_source (r : ToolRequest) : ToolSource :=
  match r.(lockfile_scope) with Scope_Source src => src | _ => r.(source) end.

Definition lockfile_source (r : ToolRequest) : option ToolSource :=
  match r.(lockfile_scope) with
  | Scope_Default => Some r.(source)
  | Scope_Source src => Some src
  | NoOwner => None
  end.

(** The source whose policy on locking applies. *)
Definition locked_policy_source (r : ToolRequest) (use_locked_version : bool) : ToolSource :=
  if use_locked_version then match lockfile_source r with Some src => src | None => r.(source) end else r.(source).

(** What a lock entry is matched with, and whether as a prefix up to a separator. *)
Definition lockfile_version_query (r : ToolRequest) : str * bool :=
  match r.(kind) with Prefix p => (p, true) | _ => (version r, false) end.

(** *** Options *)

Definition with_req_options (o : ResolvedToolOptions) (r : ToolRequest) : ToolRequest :=
  mkRequest r.(backend) r.(kind) o r.(source) r.(lockfile_scope).

Definition effective_options (r : ToolRequest) : ToolOptions := r.(req_options).(options).

Definition with_backend (ba : BA) (r : ToolRequest) : ToolRequest :=
  let target := apply_registry (registry_opts ba) (full_without_opts ba) Resolved_default in
  mkRequest ba r.(kind) (extend_without_registry r.(req_options) target) r.(source) r.(lockfile_scope).

Definition request_with_registry_version (v : str) (r : ToolRequest) : ToolRequest :=
  match with_registry_version r.(backend) v with Some ba => with_backend ba r | None => r end.

Definition set_options (o : ToolOptions) (r : ToolRequest) : ToolRequest :=
  with_req_options (resolve_opts_with_config_and_request r.(backend) None (Some o)) r.

Definition without_registry_options (r : ToolRequest) : ToolRequest :=
  with_req_options (extend_without_registry r.(req_options) Resolved_default) r.

Definition explicit_options (r : ToolRequest) : ToolOptions := options_from_sources r.(req_options) [Request; InlineBackendArg].

Definition apply_config_options (config_options : ToolOptions) (r : ToolRequest) : ToolRequest :=
  let request_options := options_from_sources r.(req_options) [Request] in
  with_req_options (resolve_opts_with_config_and_request r.(backend) (Some config_options) (Some request_options)) r.

Definition to_ref (ref_ ref_type : str) (r : ToolRequest) : ToolRequest :=
  mkRequest r.(backend) (Ref ref_ ref_type) r.(req_options) r.(source) r.(lockfile_scope).

Definition to_path (path : str) (r : ToolRequest) : ToolRequest :=
  mkRequest r.(backend) (Path path) r.(req_options) r.(source) r.(lockfile_scope).

Definition option_source (r : ToolRequest) (key : str) : option ToolOptionSource := source_for_key r.(req_options) key.

Definition registry_options_are_not_for (r : ToolRequest) (recorded : str) : bool :=
  match r.(req_options).(registry_backend) with
  | Some supplier => negb (bool_decide (strip_opts supplier = strip_opts recorded))
  | None => false
  end.

Definition uses_resolved_version_as_pathname (r : ToolRequest) : bool :=
  match r.(kind) with Version _ | Prefix _ | Sub _ _ => true | _ => false end.

(** *** Lazy tools and safe mode *)

Definition set_by_entry (r : ToolRequest) (key : str) : bool :=
  match option_source r key with None | Some Request | Some InlineBackendArg => true | _ => false end.

Definition provides_lazy_bins (r : ToolRequest) : bool :=
  if negb (bool_decide ((effective_options r).(core).(lazy) = Some true)) then false
  else if negb safe_mode then true
  else match source_path r.(source) with Some path => is_global_config path | None => true end
       && set_by_entry r u!"lazy" && set_by_entry r u!"lazy_bins".

Definition request_lazy_bins (r : ToolRequest) : result RequestError (option (list str)) :=
  if negb (provides_lazy_bins r) then Ok None
  else match (effective_options r).(core).(lazy_bins) with
       | [] => match registry_bins r.(backend) with
               | Some (_ :: _ as bins) => Ok (Some bins)
               | _ => Err (NoBinMetadata (short r.(backend)))
               end
       | bins => Ok (Some bins)
       end.

Definition ignored_in_safe_mode (r : ToolRequest) : bool :=
  match r.(kind) with Path _ => true | _ => false end && safe_mode
  && match r.(source) with
     | MiseToml path | MiseTomlDaemon path | ToolVersions path | IdiomaticVersionFile path => negb (is_global_config path)
     | _ => false
     end.

Definition ensure_safe_install_options (r : ToolRequest) : result RequestError unit :=
  let o := effective_options r in
  if negb safe_mode then Ok tt
  else if opt_is_some (postinstall o) then Err (UnsafeOption u!"postinstall" (short r.(backend)))
  else if negb (bool_decide (o.(core).(install_env) = ∅)) then Err (UnsafeOption u!"install_env" (short r.(backend)))
  else if is_spm r.(backend) && opt_is_some (o.(opts) !! u!"install_command") then
    Err (UnsafeOption u!"install_command" (short r.(backend)))
  else Ok tt.

Definition is_os_supported_on (r : ToolRequest) (os_name arch : str) : bool :=
  match (effective_options r).(core).(os) with
  | None => true
  | Some selectors => existsb (fun entry => Selection.os_selector_matches_target entry os_name arch) selectors
  end.

(** On this machine, whose names are given. *)
Definition is_os_supported (OS ARCH : str) (r : ToolRequest) : bool :=
  is_os_supported_on r OS ARCH && ba_os_supported r.(backend).

End Requests.

Arguments ToolRequest : clear implicits.

(** ** Where a request is installed *)

Section Installs.

Context {BA : Type} `{BackendArg BA}.

(** Of the file system: whether a path exists, the entries of a directory (in order) and which of them are symbolic links of
    the runtime; the directories of shared installs. *)
Context (exists_ : str -> bool) (ls : str -> option (list str)) (is_runtime_symlink : str -> bool)
  (shared_install_dirs : list str).

(** The version in the lockfile that a request has, and the installed versions that match a text (none for an unknown
    backend). *)
Context (lockfile_resolve : ToolRequest BA -> result RequestError (option str))
  (list_installed_versions_matching : BA -> str -> option (list str)).

Definition find_in_shared_installs (primary_path dir_name pathname : str) : str :=
  if exists_ primary_path then primary_path
  else match List.find exists_ (map (fun dir => path_join (path_join dir dir_name) pathname) shared_install_dirs) with
       | Some path => path
       | None => primary_path
       end.

Definition local_resolve (r : ToolRequest BA) (v : str) : result RequestError (option str) :=
  let? locked := lockfile_resolve r in
  match locked with
  | Some version => Ok (Some version)
  | None =>
      match list_installed_versions_matching r.(backend) v with
      | Some matches => Ok (if bool_decide (v ∈ matches) then Some v else last matches)
      | None => Ok None
      end
  end.

(** The first entry whose name starts with the prefix; [ls] gives names. *)
Definition find_prefixed (dir prefix : str) : option str :=
  match ls dir with
  | Some names =>
      path_join dir <$> List.find (fun name => negb (is_runtime_symlink (path_join dir name)) && starts_with prefix name) names
  | None => None
  end.

Definition installed_at (ba : BA) (pathname : str) : str :=
  find_in_shared_installs (path_join (installs_path ba) pathname) (tool_dir_name ba) pathname.

(** [ToolRequest::install_path]; warnings give no path. *)
Definition install_path (r : ToolRequest BA) : option str :=
  let ba := r.(backend) in
  match r.(kind) with
  | Version v => if is_safe_relative_path v then Some (installed_at ba v) else None
  | Ref ref_ ref_type => Some (installed_at ba (ref_type ++ u!"-" ++ ref_))
  | Sub sub orig_version =>
      match local_resolve r orig_version with
      | Ok (Some v) => match version_sub v sub with Ok pathname => Some (installed_at ba pathname) | _ => None end
      | _ => None
      end
  | Prefix prefix =>
      match find_prefixed (installs_path ba) prefix with
      | Some path => Some path
      | None => head (omap (fun dir => find_prefixed (path_join dir (tool_dir_name ba)) prefix) shared_install_dirs)
      end
  | Path path => Some path
  | System => None
  end.

(** [ToolVersion::logical_pathname], of a version that a request resolved to; [hash_to_str] is a hash of a path. *)
Definition logical_pathname (hash_to_str : str -> str) (k : RequestKind) (resolved : str) : str :=
  replace_char c!"/" c!"-" (replace_char c!":" c!"-"
    match k with
    | Version _ | Prefix _ | Sub _ _ => resolved
    | Ref ref_ ref_type => ref_type ++ u!"-" ++ ref_
    | Path path => u!"path-" ++ hash_to_str path
    | System => u!"system"
    end).

(** [ToolVersion::tv_pathname], with the identities of the native lock graphs that a version may have. *)
Definition tv_pathname (hash_to_str : str -> str) (uv_identity aube_identity : option str) (k : RequestKind) (resolved : str) : str :=
  let pathname := logical_pathname hash_to_str k resolved in
  match uv_identity, aube_identity with
  | Some identity, _ => pathname ++ u!"~uv~" ++ str_to identity 16
  | None, Some identity => pathname ++ u!"~aube~" ++ str_to identity 16
  | None, None => pathname
  end.

End Installs.
