(* ===== verification/ToolRequestSpec.v ===== *)
(** * What tool requests promise

    A request that is read and printed reads back as itself; what is installed for it lies below the directory of
    installs; a version that may be installed is a plain file name without anything that a shell reads; and the
    subtraction of versions is the one of their components, with a borrow. *)

From S2P Require Import Prelude RustStr Decimals Toml PathEnv Paths ToolOptions ToolOptionsSpec ToolRequest.

(** ** Subtraction of versions *)

(** The first component that is too small, and the components before it, each already subtracted. *)
Definition borrowed (d r : list N) : Prop :=
  (exists pre n zeros, d = pre ++ n :: zeros /\ (0 < n)%N /\ Forall (fun z => z = 0%N) zeros /\ r = pre ++ [(n - 1)%N])
  \/ (Forall (fun z => z = 0%N) d /\ r = [0%N]).

Definition subtracted (v s r : list N) : Prop :=
  (Forall2 (fun a b => (b <= a)%N) v s /\ r = zip_with N.sub v s)
  \/ exists v1 s1 a b v2 s2, v = v1 ++ a :: v2 /\ s = s1 ++ b :: s2 /\ Forall2 (fun a b => (b <= a)%N) v1 s1 /\
       (a < b)%N /\ borrowed (zip_with N.sub v1 s1) r.

Lemma borrow_spec d rest j :
  j <= length d -> Forall (fun z => z = 0%N) (drop j d) -> borrowed d (borrow (d ++ rest) j).
Proof.
  induction j as [|j IH]; intros Hj Hz; [right; by rewrite drop_0 in Hz|]. cbn [borrow].
  destruct (lookup_lt_is_Some_2 d j Hj) as [n Hn]. rewrite lookup_app_l by done. rewrite Hn. destruct (N.ltb_spec 0 n) as [Hpos|Hzero].
  - left. exists (take j d), n, (drop (S j) d). split_and!; [by rewrite take_drop_middle|done|done|].
    rewrite insert_app_l by done. rewrite take_app_le by (rewrite length_insert; lia).
    rewrite (take_S_r _ _ (n - 1)%N) by (by apply list_lookup_insert_eq). by rewrite take_insert_ge.
  - apply IH; [lia|]. erewrite drop_S by done. constructor; [lia|done].
Qed.

Lemma subtract_spec v : forall s v0 s0,
  length v <= length s -> Forall2 (fun a b => (b <= a)%N) v0 s0 ->
  subtracted (v0 ++ v) (s0 ++ take (length v) s) (subtract (zip_with N.sub v0 s0) v s).
Proof.
  induction v as [|a v IH]; intros s v0 s0 Hlen H0.
  - left. rewrite take_0, !app_nil_r. by destruct s; cbn [subtract]; rewrite app_nil_r.
  - destruct s as [|b s]; [simpl in Hlen; lia|]. cbn [subtract length take]. destruct (N.ltb_spec a b) as [Hlt|Hge].
    + right. exists v0, s0, a, b, v, (take (length v) s). split_and!; try done. apply borrow_spec; [done|]. by rewrite drop_all.
    + specialize (IH s (v0 ++ [a]) (s0 ++ [b])). rewrite <- !app_assoc in IH. cbn [app] in IH.
      assert (zip_with N.sub (v0 ++ [a]) (s0 ++ [b]) = zip_with N.sub v0 s0 ++ [(a - b)%N]) as E
        by (rewrite zip_with_app by (by eapply Forall2_length); done).
      rewrite E in IH. apply IH; [simpl in Hlen; lia|]. apply Forall2_app; [done|]. by repeat constructor.
Qed.

(** *** Reading the result *)

Lemma all_u32_print ns : Forall (fun n => (n <= U32_MAX)%N) ns -> all_u32 (map to_string ns) = Some ns.
Proof. induction 1 as [|n ns Hn H IH]; [done|]. cbn [map all_u32]. by rewrite parse_to_string, IH. Qed.

Lemma all_u32_bound pieces ns : all_u32 pieces = Some ns -> Forall (fun n => (n <= U32_MAX)%N) ns /\ length ns = length pieces.
Proof.
  revert ns. induction pieces as [|p pieces IH]; intros ns; cbn [all_u32]; [by intros [= <-]|].
  destruct (parse_u32 p) as [n|] eqn:E; [|done]. destruct (all_u32 pieces) as [rest|]; [|done]. intros [= <-].
  destruct (IH rest eq_refl) as [Hb Hl]. split; [|simpl; congruence]. constructor; [by eapply parse_u32_bound|done].
Qed.

Lemma numeric_bound s ns : numeric_components s = Some ns -> Forall (fun n => (n <= U32_MAX)%N) ns /\ ns <> [].
Proof.
  unfold numeric_components. case_bool_decide; [done|]. intros [Hb Hl]%all_u32_bound. split; [done|]. intros ->.
  pose proof (split_on_nonempty (N.eqb c!".") s). by destruct (split_on _ s).
Qed.

Lemma numeric_format ns : ns <> [] -> Forall (fun n => (n <= U32_MAX)%N) ns -> numeric_components (format_components ns) = Some ns.
Proof.
  intros Hne Hb. unfold numeric_components, format_components. rewrite bool_decide_eq_false_2.
  - rewrite split_on_join; [by apply all_u32_print|by destruct ns|]. apply Forall_map, Forall_forall. intros n _. by apply to_string_no_char.
  - destruct ns as [|n ns]; [done|]. intros H. pose proof (to_string_nonempty n) as Hn. destruct ns; cbn [map join] in H; [done|].
    by apply app_eq_nil in H as [? _].
Qed.

Lemma subtracted_bound v s r :
  v <> [] -> s <> [] -> Forall (fun n => (n <= U32_MAX)%N) v -> subtracted v s r -> Forall (fun n => (n <= U32_MAX)%N) r /\ r <> [].
Proof.
  assert (forall v s, Forall (fun n => (n <= U32_MAX)%N) v -> Forall (fun n => (n <= U32_MAX)%N) (zip_with N.sub v s)) as Hzip.
  { intros v' s' H. revert s'. induction H as [|n v' Hn H IH]; intros [|m s']; constructor; [lia|by apply IH]. }
  intros Hv Hs Hb [[H ->]|(v1 & s1 & a & b & v2 & s2 & -> & -> & H & Hab & Hbor)].
  - split; [by apply Hzip|]. by destruct H.
  - apply Forall_app in Hb as [Hb1 Hb2]. destruct Hbor as [(pre & n & zeros & E & Hn & Hz & ->)|[_ ->]].
    + specialize (Hzip v1 s1 Hb1). rewrite E in Hzip. apply Forall_app in Hzip as [Hpre Hrest]. split; [|by destruct pre].
      apply Forall_app. split; [done|]. apply Forall_cons in Hrest as [? _]. repeat constructor. lia.
    + split; [|done]. repeat constructor. done.
Qed.

Lemma version_sub_ok orig sub result :
  version_sub orig sub = Ok result ->
  exists v s r, numeric_components orig = Some v /\ numeric_components sub = Some s /\
    subtracted (take (length s) v) (take (length v) s) r /\ numeric_components result = Some r /\ result = format_components r.
Proof.
  unfold version_sub. destruct (numeric_components orig) as [v|] eqn:Ev; [|done].
  destruct (numeric_components sub) as [s|] eqn:Es; [|done]. intros [= <-].
  assert (subtracted (take (length s) v) (take (length v) s) (subtract [] (take (length s) v) s)) as Hsub.
  { pose proof (subtract_spec (take (length s) v) s [] []) as H. cbn [zip_with app] in H.
    replace (take (length v) s) with (take (length (take (length s) v)) s); [apply H; [rewrite length_take; lia|constructor]|].
    rewrite length_take. destruct (Nat.le_ge_cases (length s) (length v)); [|f_equal; lia].
    rewrite !take_ge by lia. done. }
  apply numeric_bound in Ev as [Hv Hvne]. apply numeric_bound in Es as [Hs Hsne].
  exists v, s, (subtract [] (take (length s) v) s). split_and!; try done.
  assert (forall {A B} (l : list A) (l' : list B), l <> [] -> l' <> [] -> take (length l') l <> []) as Hne by (intros A B [] []; done).
  apply subtracted_bound in Hsub as [Hb Hr]; [|by apply Hne|by apply Hne|by apply Forall_take].
  by apply numeric_format.
Qed.

(** Subtraction works on versions whose components are numbers of 32 bits and fails with the side that is none, never
    otherwise. Of the components that both sides have, each is the difference; when one is too small, the last
    component before it that is not zero after its own subtraction gives one and the version ends there, and with none to
    give the result is [0]. The result is a version of the same kind, so no number overflows. *)
Theorem version_sub_spec (orig sub : str) :
  match version_sub orig sub with
  | Ok result => exists v s r, numeric_components orig = Some v /\ numeric_components sub = Some s /\
      subtracted (take (length s) v) (take (length v) s) r /\ numeric_components result = Some r /\ result = format_components r
  | Err (NotNumeric _ _) => numeric_components orig = None
  | Err (InvalidVersion _) => is_Some (numeric_components orig) /\ numeric_components sub = None
  | _ => False
  end.
Proof.
  destruct (version_sub orig sub) as [result|e|] eqn:E; [by apply version_sub_ok| |];
    unfold version_sub in E; destruct (numeric_components orig), (numeric_components sub); try done; by injection E as <-.
Qed.

(** ** Reading what was printed *)

Lemma reject_char_ok f s : reject_char f s = Ok tt <-> Forall (fun c => f c = false) s.
Proof.
  unfold reject_char. destruct (List.find f s) as [c|] eqn:E.
  - apply find_some in E as [Hin Hc]. split; [done|]. rewrite Forall_forall. intros H. rewrite H in Hc; [done|]. by apply list_elem_of_In.
  - split; [|done]. intros _. apply Forall_forall. intros c Hc. apply (find_none _ _ E). by apply list_elem_of_In.
Qed.

Lemma validate_path_ok s : validate_path_string s = Ok tt <-> Forall (fun c => is_forbidden_version_char c = false) s.
Proof.
  unfold validate_path_string. case_bool_decide as E; [subst; by split|]. rewrite reject_char_ok.
  unfold is_forbidden_path_char, is_forbidden_cmd_char. by setoid_rewrite orb_false_r.
Qed.

Lemma dashed_ref_id s :
  (forall a b, split_once c!"-" s = Some (a, b) -> is_ref_type a = false) -> dashed_ref s = s.
Proof. intros H. unfold dashed_ref. destruct (split_once c!"-" s) as [[a b]|]; [|done]. by rewrite (H a b). Qed.

Lemma ref_types scheme : is_ref_type scheme = true -> (c!"-" ∉ scheme) /\ (c!":" ∉ scheme).
Proof. unfold is_ref_type, REF_TYPES. intros H%bool_decide_eq_true_1. rewrite !elem_of_cons, elem_of_nil in H.
  repeat destruct H as [->|H]; [set_solver..|done]. Qed.

(** A text with a scheme is not another spelling of a reference. *)
Lemma dashed_scheme scheme p : c!"-" ∉ scheme -> dashed_ref (scheme ++ u!":" ++ p) = scheme ++ u!":" ++ p.
Proof.
  intros Hs. apply dashed_ref_id. intros a b [E _]%split_once_Some. destruct (is_ref_type a) eqn:Ha; [|done]. apply ref_types in Ha as [_ Hc].
  exfalso. apply Hc. revert a E Hc. induction scheme as [|x scheme IH]; intros [|y a] E Hc; simpl in E; injection E as; subst; try set_solver.
Qed.

Lemma dashed_ref_idem s : dashed_ref (dashed_ref s) = dashed_ref s.
Proof.
  unfold dashed_ref at 2 3. destruct (split_once c!"-" s) as [[a b]|] eqn:E.
  - destruct (is_ref_type a) eqn:Ha; [by apply dashed_scheme; apply ref_types in Ha as [? _]|]. unfold dashed_ref. by rewrite E, Ha.
  - unfold dashed_ref. by rewrite E.
Qed.

Lemma split_colon scheme p : c!":" ∉ scheme -> split_once c!":" (scheme ++ u!":" ++ p) = Some (scheme, p).
Proof. apply split_once_app. Qed.

Section Requests.

Context {BA : Type} `{BackendArg BA}.
Context (HOME : str) (CWD : option str) (config_root : str -> str).

(** A directory of the machine: absolute, and usable in a path request. *)
Definition usable_dir (dir : str) : Prop := is_absolute dir = true /\ Forall (fun c => is_forbidden_version_char c = false) dir.

Context (Hhome : usable_dir HOME) (Hcwd : match CWD with Some cwd => usable_dir cwd | None => False end)
  (Hroot : forall file, usable_dir (config_root file)).

(** Path requests are the same when their components are. *)
Definition same_kind (a b : RequestKind) : Prop :=
  match a, b with Path p, Path q => components p = components q | _, _ => a = b end.

(** A path below the home directory is spelled as the home directory is. *)
Definition home_spelled (p : str) : Prop :=
  path_starts_with p HOME = true -> HOME <> u!"/" ->
  (exists rest, p = HOME ++ rest /\ (rest = [] \/ head rest = Some slash)) /\ ends_with [slash] HOME = false.

Lemma path_join_forbidden base p :
  Forall (fun c => is_forbidden_version_char c = false) base -> Forall (fun c => is_forbidden_version_char c = false) p ->
  Forall (fun c => is_forbidden_version_char c = false) (path_join base p).
Proof.
  intros Hb Hp. unfold path_join. destruct p as [|c p].
  - destruct base; [done|]. destruct (ends_with _ _); [done|]. apply Forall_app. split; [done|by repeat constructor].
  - destruct (_ =? _)%N; [done|]. destruct base; [done|]. destruct (ends_with _ _); apply Forall_app; (split; [done|]); [done|by constructor].
Qed.

Lemma components_Forall (P : char -> Prop) p : Forall P p -> Forall (Forall P) (components p).2.
Proof.
  intros Hp%(split_on_Forall P (N.eqb slash)). unfold components. cbn [snd].
  assert (forall f (l : list str), Forall (Forall P) l -> Forall (Forall P) (List.filter f l)) as Hf.
  { intros f l. rewrite !Forall_forall. intros Hl x [Hx _]%elem_of_filter_bool. by apply Hl. }
  apply (Hf (fun c => match c with [] => false | _ => true end)) in Hp. destruct (List.filter _ (split_on _ _)) as [|first rest]; [done|].
  destruct (_ && _); [|by apply Hf]. apply Forall_cons in Hp as [? ?]. constructor; [done|by apply Hf].
Qed.

Lemma strip_prefix_Forall (P : char -> Prop) dir p rest :
  P slash -> Forall P p -> path_strip_prefix dir p = Some rest -> Forall (Forall P) rest.
Proof.
  intros Hs Hp%components_Forall. unfold path_strip_prefix. destruct (components dir) as [da dc], (components p) as [pa pc]. cbn [snd] in Hp.
  destruct (Bool.eqb da pa).
  - intros ->%strip_components_Some. by apply Forall_app in Hp as [_ ?].
  - destruct da, dc; [done..| |done]. intros [= <-]. destruct pa; [|done]. constructor; [by repeat constructor|done].
Qed.

Lemma absolute_join base p : is_absolute base = true -> is_absolute (path_join base p) = true.
Proof.
  intros [b ->]%absolute_slash. apply absolute_slash. unfold path_join. destruct p as [|c p].
  - destruct (ends_with _ _); cbn [app]; eauto.
  - destruct (N.eqb_spec c slash) as [->|]; [eauto|]. destruct (ends_with _ _); cbn [app]; eauto.
Qed.

(** A path that a request resolves to can be written in a request. *)
Lemma resolve_path_usable p src : Forall (fun c => is_forbidden_version_char c = false) p -> usable_dir (resolve_path HOME CWD config_root p src).
Proof.
  intros Hp. unfold resolve_path. destruct Hhome as [Hh1 Hh2]. destruct (path_strip_prefix u!"~/" p) as [rest|] eqn:E1.
  - split; [by apply absolute_join|]. apply path_join_forbidden; [done|]. apply join_Forall; [by repeat constructor|].
    by eapply strip_prefix_Forall; [| |exact E1].
  - destruct (is_absolute p) eqn:Ea; [done|].
    assert (usable_dir (match source_path src with Some file => config_root file | None => match CWD with Some cwd => cwd | None => u!"." end end)) as [Hb1 Hb2].
    { destruct (source_path src); [apply Hroot|]. by destruct CWD. }
    split; [by apply absolute_join|]. apply path_join_forbidden; [done|]. destruct (path_strip_prefix u!"./" p) as [rest|] eqn:E2; [|done].
    apply join_Forall; [by repeat constructor|]. by eapply strip_prefix_Forall; [| |exact E2].
Qed.

(** What is printed for a path is read as the path. *)
Lemma displayed_path p src :
  usable_dir p -> home_spelled p ->
  validate_path_string (display_user HOME p) = Ok tt /\
  components (resolve_path HOME CWD config_root (display_user HOME p) src) = components p.
Proof.
  intros [Ha Hf] Hs. destruct Hhome as [Hh1 Hh2]. unfold display_user.
  assert (validate_path_string p = Ok tt /\ components (resolve_path HOME CWD config_root p src) = components p) as Hplain.
  { split; [by apply validate_path_ok|]. unfold resolve_path. assert (path_strip_prefix u!"~/" p = None) as ->.
    { unfold path_strip_prefix. by rewrite (components_absolute p). }
    by rewrite Ha. }
  destruct (path_starts_with p HOME) eqn:Est; [|done]. case_bool_decide as Eroot; [done|]. cbn [negb andb].
  destruct (Hs Est Eroot) as [(rest & -> & Hrest) Hend].
  assert (split_once_str HOME (HOME ++ rest) = Some ([], rest)) as ->.
  { destruct HOME as [|h home']; [done|]. cbn [app split_once_str].
    by rewrite (proj2 (strip_prefix_Some (h :: home') (h :: home' ++ rest) rest) eq_refl). }
  cbn [app]. apply Forall_app in Hf as [_ Hf]. split; [apply validate_path_ok; by constructor|].
  unfold resolve_path.
  assert (path_strip_prefix u!"~/" (c!"~" :: rest) = Some (names rest)) as ->.
  { unfold path_strip_prefix. assert (components (c!"~" :: rest) = (false, u!"~" :: names rest)) as ->.
    { destruct Hrest as [->|Hrest]; [done|]. destruct rest as [|c rest]; [done|]. injection Hrest as ->.
      unfold components, names. change (c!"~" :: slash :: rest) with (u!"~" ++ slash :: rest).
      rewrite split_on_head by (by rewrite list_elem_of_singleton). cbn. done. }
    done. }
  assert (names (join [slash] (names rest)) = names rest /\ head (join [slash] (names rest)) <> Some slash) as [Hn Hd].
  { pose proof (names_pieces rest) as Hp. assert (Forall (fun n => n <> u!".") (names rest)) as Hdot.
    { apply Forall_forall. intros n Hin. unfold names in Hin. apply elem_of_filter_bool in Hin as [_ Hin]. by apply negb_true_iff, bool_decide_eq_false in Hin. }
    generalize dependent (names rest). intros ns Hp Hdot. destruct ns as [|n ns]; [done|]. split.
    - unfold names. rewrite split_on_join; [|done|eapply Forall_impl; [exact Hp|by intros ? []]].
      rewrite (filter_all (fun c => match c with [] => false | _ => true end)), filter_all; [done|..].
      + eapply Forall_impl; [exact Hdot|]. intros x Hx. by rewrite bool_decide_eq_false_2.
      + eapply Forall_impl; [exact Hp|]. by intros [] [].
    - apply Forall_cons in Hp as [[Hne Hni] _]. destruct n as [|c n]; [done|]. intros E. destruct ns; cbn in E; injection E as ->; set_solver. }
  rewrite join_components, Hn by done.
  rewrite components_absolute by done. f_equal. destruct Hrest as [->|Hrest]; [by rewrite !app_nil_r|].
  destruct rest as [|c rest]; [done|]. injection Hrest as ->. by rewrite names_app_slash.
Qed.

(** C27. A request that is accepted prints as a text that is accepted and reads back as the same kind of request, with the same
    version, prefix, reference or subtraction, whatever the backend, options and source it is read with; a path
    request reads back as a path of the same components. The directories of the machine are absolute and free of the
    characters that requests may not have, and a path below the home directory is spelled as the home directory is. *)
Theorem request_round_trip (ba : BA) (s : str) (o : ToolOptions) (src : ToolSource) (r : ToolRequest BA)
    (Hnew : new_with_options HOME CWD config_root ba s o src = Ok r)
    (Hpath : match r.(kind) with Path p => home_spelled p | _ => True end)
    (ba' : BA) (o' : ToolOptions) (src' : ToolSource) :
  exists r', new_with_options HOME CWD config_root ba' (version HOME r) o' src' = Ok r' /\ same_kind r.(kind) r'.(kind).
Proof.
  unfold new_with_options in Hnew. cbv zeta in Hnew. pose proof (dashed_ref_idem s) as Hidem.
  set (s1 := dashed_ref s) in *. set (ba1 := match with_registry_version ba s1 with Some b => b | None => ba end) in Hnew.
  apply rbind_inv in Hnew as (k & Hk & [= <-]). cbn [kind] in *.
  assert (forall text k', dashed_ref text = text -> read_kind HOME CWD config_root text src' = Ok k' -> same_kind k k' ->
    exists r', new_with_options HOME CWD config_root ba' text o' src' = Ok r' /\ same_kind k r'.(kind)) as Hread.
  { intros text k' Ht Hk' Hs. unfold new_with_options. rewrite Ht, Hk'. eexists. split; [done|]. exact Hs. }
  unfold version. cbn [kind]. unfold read_kind in Hk. destruct (split_once c!":" s1) as [[scheme p]|] eqn:Es.
  - apply split_once_Some in Es as [Es Hsch].
    destruct (is_ref_type scheme) eqn:Eref; [|case_bool_decide as Epre; [|case_bool_decide as Epath; [|destruct (strip_prefix u!"sub-" scheme) as [sub|] eqn:Esub; [|done]]]].
    + apply rbind_inv in Hk as ([] & Hv & [= <-]). destruct (ref_types _ Eref) as [Hd Hc]. apply (Hread _ (Ref p scheme)); [by apply dashed_scheme| |done].
      unfold read_kind. by rewrite split_colon, Eref, Hv.
    + apply rbind_inv in Hk as ([] & Hv & [= <-]). apply (Hread (u!"prefix" ++ u!":" ++ p) (Prefix p)); [apply dashed_scheme; by vm_compute; set_solver| |done].
      unfold read_kind. rewrite split_colon by (vm_compute; set_solver). cbn. by rewrite Hv.
    + apply rbind_inv in Hk as ([] & Hv & [= <-]). apply validate_path_ok in Hv.
      destruct (displayed_path (resolve_path HOME CWD config_root p src) src' (resolve_path_usable p src Hv) Hpath) as [Hd1 Hd2].
      apply (Hread (u!"path" ++ u!":" ++ display_user HOME (resolve_path HOME CWD config_root p src))
        (Path (resolve_path HOME CWD config_root (display_user HOME (resolve_path HOME CWD config_root p src)) src')));
        [apply dashed_scheme; vm_compute; set_solver| |by symmetry].
      unfold read_kind. rewrite split_colon by (vm_compute; set_solver). cbn. by rewrite Hd1.
    + apply rbind_inv in Hk as ([] & Hv1 & Hk). apply rbind_inv in Hk as ([] & Hv2 & [= <-]). apply strip_prefix_Some in Esub as Esub'.
      apply (Hread (u!"sub-" ++ sub ++ u!":" ++ p) (Sub sub p)); [|unfold read_kind|done].
      * apply dashed_ref_id. intros a b E. change (u!"sub-" ++ sub ++ u!":" ++ p) with (u!"sub" ++ c!"-" :: (sub ++ u!":" ++ p)) in E.
        rewrite split_once_app in E by (vm_compute; set_solver). by injection E as <- <-.
      * assert (u!"sub-" ++ sub ++ u!":" ++ p = scheme ++ u!":" ++ p) as -> by (by rewrite Esub', <- !app_assoc).
        rewrite split_colon by done. rewrite Eref, !bool_decide_eq_false_2 by done. by rewrite Esub, Hv1, Hv2.
  - case_bool_decide as Esys.
    + injection Hk as <-. by apply (Hread u!"system" System).
    + apply rbind_inv in Hk as ([] & Hv & [= <-]). apply (Hread s1 (Version s1)); [done| |done].
      unfold read_kind. by rewrite Es, bool_decide_eq_false_2, Hv.
Qed.

End Requests.
(** ** Where requests are installed *)

(** Strictly below a directory, without leaving it on the way. *)
Definition below (base p : str) : Prop :=
  exists rest, components p = (true, names base ++ rest) /\ rest <> [] /\
    Forall (fun n => n <> [] /\ n <> u!"." /\ n <> u!".." /\ slash ∉ n) rest.

(** A name or relative path that stays below whatever it is joined to. *)
Definition clean (s : str) : Prop := head s <> Some slash /\ names s <> [] /\ u!".." ∉ names s.

Lemma clean_below base s : is_absolute base = true -> clean s -> below base (path_join base s).
Proof.
  intros Hb (Hs & Hne & Hdd). exists (names s). split_and!; [by apply join_components|done|].
  pose proof (names_pieces s) as Hp. rewrite Forall_forall in *. intros n Hn. destruct (Hp n Hn) as [? ?]. split_and!; try done; [|by intros ->].
  intros ->. unfold names in Hn. by apply elem_of_filter_bool in Hn as [_ Hn].
Qed.

Lemma names_infix s n : n ∈ names s -> exists a b, s = a ++ n ++ b.
Proof. unfold names. rewrite !elem_of_filter_bool. intros [[H _] _]. by eapply piece_infix. Qed.

Lemma no_dot_dot s : contains_dot_dot s = false -> u!".." ∉ names s.
Proof.
  unfold contains_dot_dot. intros [H _]%orb_false_iff Hin%names_infix. apply contains_str_spec in Hin. congruence.
Qed.

(** A reference below its type. *)
Lemma clean_ref ref_type ref_ :
  is_ref_type ref_type = true -> u!".." ∉ names ref_ -> contains_dot_dot ref_ = false -> clean (ref_type ++ u!"-" ++ ref_).
Proof.
  intros Ht Hn Hdd. unfold is_ref_type, REF_TYPES in Ht. apply bool_decide_eq_true_1 in Ht. rewrite !elem_of_cons, elem_of_nil in Ht.
  assert (exists c t, ref_type = c :: t /\ c <> slash /\ c <> c!"." /\ slash ∉ ref_type) as (c & t & -> & Hc1 & Hc2 & Hc3).
  { repeat destruct Ht as [->|Ht]; [do 2 eexists; split_and!; [reflexivity|done|done|set_solver]..|done]. }
  split; [by intros [= ->]|].
  assert (exists x rest, split_on (N.eqb slash) ((c :: t) ++ u!"-" ++ ref_) = (c :: x) :: rest /\ forall p, p ∈ rest -> p ∈ split_on (N.eqb slash) ref_)
    as (x & rest & E & Hrest).
  { clear - Hc1 Hc3. assert (forall pre, slash ∉ pre -> exists x rest, split_on (N.eqb slash) (pre ++ ref_) = (pre ++ x) :: rest /\
      forall p, p ∈ rest -> p ∈ split_on (N.eqb slash) ref_) as Hpre.
    { induction pre as [|y pre IH]; intros Hni.
      - destruct (split_on (N.eqb slash) ref_) as [|p rest] eqn:E; [by apply split_on_nonempty in E|]. exists p, rest. cbn [app]. rewrite E. split; [done|]. intros q Hq. by right.
      - destruct IH as (x & rest & E & Hr); [set_solver|]. exists x, rest. split; [|done]. cbn [app split_on].
        destruct (N.eqb_spec slash y); [set_solver|]. by rewrite E. }
    destruct (Hpre ((c :: t) ++ u!"-")) as (x & rest & E & Hr); [rewrite not_elem_of_app; split; [done|set_solver]|].
    exists (t ++ u!"-" ++ x), rest. split; [|done]. rewrite app_assoc, E. by rewrite <- app_assoc. }
  unfold names. rewrite E. cbn [List.filter]. destruct (bool_decide (c :: x = u!".")) eqn:Edot.
  { apply bool_decide_eq_true_1 in Edot. injection Edot as -> _. done. }
  cbn [negb]. split; [done|]. intros [Hcx|Hin]%elem_of_cons; [by injection Hcx as <- _|].
  apply Hn. unfold names. rewrite !elem_of_filter_bool in *. destruct Hin as [[Hin ?] ?]. split; [split; [by apply Hrest|done]|done].
Qed.

(** The result of a subtraction is a plain name. *)
Lemma clean_numeric r : r <> [] -> clean (format_components r).
Proof.
  intros Hne. assert (Forall (fun c => is_ascii_digit c = true \/ c = c!".") (format_components r)) as Hc.
  { unfold format_components. apply join_Forall; [repeat constructor; by right|]. apply Forall_map, Forall_forall. intros n _.
    eapply Forall_impl; [apply to_string_digits|]. by left. }
  assert (exists c t, format_components r = c :: t /\ is_ascii_digit c = true) as (c & t & E & Hd).
  { destruct r as [|n r]; [done|]. unfold format_components. cbn [map]. pose proof (to_string_nonempty n) as Hn. pose proof (to_string_digits n) as Hdig.
    destruct (to_string n) as [|c t]; [done|]. apply Forall_cons in Hdig as [? _]. exists c. destruct r; cbn; eauto. }
  assert (slash ∉ format_components r) as Hs.
  { intros Hin. rewrite Forall_forall in Hc. by destruct (Hc _ Hin). }
  assert (names (format_components r) = [format_components r]) as En.
  { unfold names. rewrite split_on_none by done. rewrite E. cbn [List.filter].
    rewrite bool_decide_eq_false_2; [done|]. intros [= -> _]. by vm_compute in Hd. }
  split_and!; [rewrite E; intros [= ->]; by vm_compute in Hd|by rewrite En|].
  rewrite En, list_elem_of_singleton, E. intros [= <- _]. by vm_compute in Hd.
Qed.

Lemma clean_version v : 92%N ∉ v -> is_safe_relative_path v = true -> clean v.
Proof.
  intros Hb. unfold is_safe_relative_path. rewrite replace_char_none by done. case_bool_decide; [done|].
  destruct (starts_with [slash] v || _) eqn:E; [done|]. apply orb_false_iff in E as [E _].
  assert (head v <> Some slash) as Hs.
  { destruct v as [|c v]; [done|]. intros [= ->]. unfold starts_with in E. cbn in E. done. }
  assert (forallb (fun n => negb (bool_decide (n = u!".")) && negb (bool_decide (n = u!".."))) (components v).2 = true ->
    (components v).2 = names v) as Hnames.
  { unfold components, names. cbn [snd]. destruct (List.filter _ (split_on (N.eqb slash) v)) as [|first rest]; [done|].
    destruct (negb _ && bool_decide (first = u!".")) eqn:Ed; [|done]. apply andb_true_iff in Ed as [_ ->%bool_decide_eq_true_1]. done. }
  destruct (components v).2 as [|n ns] eqn:Ec; [done|]. intros Hall. specialize (Hnames Hall).
  split_and!; [done|by rewrite <- Hnames|]. rewrite <- Hnames. intros Hin. rewrite forallb_forall in Hall. apply list_elem_of_In in Hin.
  apply Hall in Hin. by vm_compute in Hin.
Qed.

Lemma validated_ref s : validate_ref_string s = Ok tt -> contains_dot_dot s = false.
Proof. unfold validate_ref_string. case_bool_decide as E; [by subst|]. destruct (starts_with _ s); [done|]. by destruct (contains_dot_dot s). Qed.

Lemma validated_version s : validate_version_string s = Ok tt ->
  contains_dot_dot s = false /\ Forall (fun c => is_forbidden_version_char c = false) s /\ starts_with u!"-" s = false /\ starts_with u!"/" s = false.
Proof.
  unfold validate_version_string. case_bool_decide as E; [subst; intros _; split; [done|split; [constructor|done]]|]. destruct (starts_with u!"-" s); [done|].
  destruct (starts_with u!"/" s); [done|]. destruct (contains_dot_dot s); [done|]. by intros ?%reject_char_ok.
Qed.

(** What reading a request proves of it. *)
Lemma read_kind_valid {BA} `{BackendArg BA} HOME CWD config_root s src k :
  read_kind HOME CWD config_root s src = Ok k ->
  match k with
  | Version v => validate_version_string v = Ok tt
  | Ref ref_ ref_type => is_ref_type ref_type = true /\ validate_ref_string ref_ = Ok tt
  | _ => True
  end.
Proof.
  unfold read_kind. destruct (split_once c!":" s) as [[scheme p]|].
  - destruct (is_ref_type scheme) eqn:Eref; [by intros ([] & Hv & [= <-])%rbind_inv|].
    case_bool_decide; [by intros ([] & Hv & [= <-])%rbind_inv|]. case_bool_decide; [by intros ([] & Hv & [= <-])%rbind_inv|].
    destruct (strip_prefix _ scheme); [|done]. intros ([] & _ & H')%rbind_inv. by apply rbind_inv in H' as ([] & _ & [= <-]).
  - case_bool_decide; [by intros [= <-]|]. by intros ([] & Hv & [= <-])%rbind_inv.
Qed.

Section Installs.

Context {BA : Type} `{BackendArg BA}.
Context (HOME : str) (CWD : option str) (config_root : str -> str).
Context (exists_ : str -> bool) (ls : str -> option (list str)) (is_runtime_symlink : str -> bool) (shared_install_dirs : list str).
Context (lockfile_resolve : ToolRequest BA -> result RequestError (option str))
  (list_installed_versions_matching : BA -> str -> option (list str)).

(** A directory lists plain names. *)
Context (Hls : forall dir names, ls dir = Some names -> Forall clean names).

(** The directories that hold the installs of a tool. *)
Definition install_dirs (ba : BA) : list str :=
  installs_path ba :: map (fun dir => path_join dir (tool_dir_name ba)) shared_install_dirs.

Lemma installed_below ba pathname :
  Forall (fun dir => is_absolute dir = true) (install_dirs ba) -> clean pathname ->
  Exists (fun dir => below dir (installed_at exists_ shared_install_dirs ba pathname)) (install_dirs ba).
Proof.
  intros Hdirs Hc. unfold install_dirs in *. apply Forall_cons in Hdirs as [Hown Hshared]. unfold installed_at, find_in_shared_installs.
  destruct (exists_ _); [left; by apply clean_below|].
  destruct (List.find _ _) as [p|] eqn:E; [|left; by apply clean_below]. right. apply find_some in E as [E%list_elem_of_In _].
  apply list_elem_of_fmap in E as (dir & -> & Hdir). apply Exists_exists. exists (path_join dir (tool_dir_name ba)).
  split; [apply list_elem_of_fmap; by exists dir|]. apply clean_below; [|done].
  rewrite Forall_forall in Hshared. apply Hshared. apply list_elem_of_fmap. by exists dir.
Qed.

Lemma find_prefixed_below dir prefix p :
  is_absolute dir = true -> find_prefixed ls is_runtime_symlink dir prefix = Some p -> below dir p.
Proof.
  intros Hd. unfold find_prefixed. destruct (ls dir) as [ns|] eqn:El; [|done].
  destruct (List.find _ ns) as [n|] eqn:E; [|done]. intros [= <-]. apply find_some in E as [E%list_elem_of_In _].
  apply clean_below; [done|]. apply Hls in El. rewrite Forall_forall in El. by apply El.
Qed.

(** C26. Whatever request is accepted, its install path stays strictly below the directory of the tool's installs or one of
    the shared ones, for a version with slashes, a reference, a subtraction from any version that the lockfile or the
    disk holds, and a prefix; only [path:] names a directory elsewhere. (The directories of installs are absolute, and
    listed directories hold names.) *)
Theorem installs_contained (ba : BA) (s : str) (o : ToolOptions) (src : ToolSource) (r : ToolRequest BA) (p : str)
    (Hnew : new_with_options HOME CWD config_root ba s o src = Ok r)
    (Hdirs : Forall (fun dir => is_absolute dir = true) (install_dirs r.(backend)))
    (Hinstall : install_path exists_ ls is_runtime_symlink shared_install_dirs lockfile_resolve list_installed_versions_matching r = Some p) :
  match r.(kind) with
  | Path path => p = path
  | _ => Exists (fun dir => below dir p) (install_dirs r.(backend))
  end.
Proof using Hls.
  unfold new_with_options in Hnew. cbv zeta in Hnew. apply rbind_inv in Hnew as (k & Hk%read_kind_valid & [= <-]).
  unfold install_path in Hinstall. cbn [kind backend] in *. destruct k as [v|prefix|ref_ ref_type|sub orig|path|].
  - destruct (is_safe_relative_path v) eqn:Ev; [|done]. injection Hinstall as <-. apply installed_below; [done|].
    apply validated_version in Hk as (_ & Hf & _). apply clean_version; [|done]. intros Hin. rewrite Forall_forall in Hf. by apply Hf in Hin.
  - destruct (find_prefixed _ _ (installs_path _) prefix) as [p'|] eqn:E.
    + injection Hinstall as <-. left. apply Forall_cons in Hdirs as [? _]. by eapply find_prefixed_below.
    + right. apply Forall_cons in Hdirs as [_ Hdirs]. rewrite Forall_forall in Hdirs.
      destruct (omap _ shared_install_dirs) as [|q qs] eqn:Eq; [done|]. injection Hinstall as ->.
      assert (p ∈ p :: qs) as Hin by (by left). rewrite <- Eq in Hin. apply list_elem_of_omap in Hin as (dir & Hdir & Hfind).
      apply Exists_exists. eexists. split; [apply list_elem_of_fmap; exists dir; split; [reflexivity|done]|].
      eapply find_prefixed_below; [|exact Hfind]. apply Hdirs. apply list_elem_of_fmap. by exists dir.
  - injection Hinstall as <-. destruct Hk as [Ht Hv%validated_ref]. apply installed_below; [done|].
    apply clean_ref; [done| |done]. by apply no_dot_dot.
  - destruct (local_resolve _ _ _ _) as [[v|]| |]; try done.
    destruct (version_sub v sub) as [pathname| |] eqn:Hsub; try done. injection Hinstall as <-.
    apply version_sub_ok in Hsub as (v' & s' & r & _ & _ & _ & Hr & ->). apply installed_below; [done|]. apply clean_numeric. by apply numeric_bound in Hr as [_ ?].
  - by injection Hinstall as <-.
  - done.
Qed.

End Installs.

(** ** Directory names of versions *)

(** What separates paths or lists of paths, quotes, substitutes or ends a word of a shell, or escapes or ends the path of a URL;
    white space and the control characters of ASCII. *)
Definition hostile (c : char) : Prop :=
  c ∈ u!"/:\'`$;&|<>()%#?" \/ c = 34%N \/ (c < 0x20)%N \/ c = 0x7f%N \/ is_whitespace c = true.

Lemma validated_resolved v : validate_resolved_version v = Ok tt -> v <> [] /\ v <> u!"." /\ validate_version_string v = Ok tt.
Proof.
  unfold validate_resolved_version. destruct (bool_decide (v = [])) eqn:E1; [done|]. destruct (bool_decide (v = u!".")) eqn:E2; [done|].
  apply bool_decide_eq_false in E1, E2. done.
Qed.

Lemma forbidden_or c : is_forbidden_version_char c = false -> (c ∉ u!"\'`$") /\ c <> 34%N /\ ~ (c < 0x20)%N /\ c <> 0x7f%N.
Proof.
  unfold is_forbidden_version_char. intros [[H1%N.ltb_ge H2%N.eqb_neq]%orb_false_iff H3]%orb_false_iff.
  assert (c ∉ 34%N :: u!"'`\$") as H4 by (intros Hin%list_elem_of_In%one_of_true; congruence). set_solver by lia.
Qed.

Lemma hostile_not_plain c : is_ascii_alphanumeric c = true \/ c = c!"-" \/ c = c!"~" -> ~ hostile c.
Proof.
  intros Hc Hh. assert ((45 <= c <= 126)%N /\ (c <> 47)%N /\ (c <> 58)%N /\ (c <> 59)%N /\ (c <> 60)%N /\ (c <> 62)%N /\ (c <> 63)%N /\ (c <> 92)%N /\ (c <> 96)%N /\ (c <> 124)%N) as Hr.
  { destruct Hc as [Hc|[->| ->]]; [|lia..]. unfold is_ascii_alphanumeric, is_ascii_alphabetic, is_ascii_lowercase, is_ascii_uppercase, is_ascii_digit, in_range in Hc.
    rewrite !orb_true_iff, !andb_true_iff, !N.leb_le in Hc. lia. }
  unfold hostile in Hh. destruct Hh as [Hh|[->|[Hh|[->|Hh]]]]; [|lia..|].
  - rewrite !elem_of_cons, elem_of_nil in Hh. lia.
  - unfold is_whitespace, in_range in Hh. rewrite !orb_true_iff, !andb_true_iff, !N.leb_le, !N.eqb_eq in Hh. lia.
Qed.

Lemma logical_name hash_to_str k v :
  match k with Version _ | Prefix _ | Sub _ _ => True | _ => False end ->
  logical_pathname hash_to_str k v = map (fun c => if (c =? c!"/")%N then c!"-" else if (c =? c!":")%N then c!"-" else c) v.
Proof.
  intros Hk. unfold logical_pathname, replace_char. destruct k; try done; rewrite map_map; apply map_ext; intros c;
    destruct (N.eqb_spec c c!":") as [->|]; try done; by destruct (c =? c!"/")%N.
Qed.

Lemma logical_name_harmless v :
  let name := map (fun c => if (c =? c!"/")%N then c!"-" else if (c =? c!":")%N then c!"-" else c) v in
  validate_installable_version v = Ok tt ->
  name <> [] /\ name <> u!"." /\ name <> u!".." /\ forall c, c ∈ name -> ~ hostile c.
Proof.
  cbv zeta. intros ([] & (Hne & Hdot & Hv)%validated_resolved & Hc%reject_char_ok)%rbind_inv.
  apply validated_version in Hv as (Hdd & Hf & _).
  assert (forall x, (if (x =? c!"/")%N then c!"-" else if (x =? c!":")%N then c!"-" else x) = c!"." -> x = c!".") as Hx.
  { intros x. destruct (x =? _)%N; [done|]. by destruct (x =? _)%N. }
  split_and!.
  - by destruct v.
  - destruct v as [|a [|b v]]; try done. intros [= Ha%Hx]. by subst.
  - destruct v as [|a [|b [|d v]]]; try done. intros [= Ha%Hx Hb%Hx]. by subst.
  - intros c Hin Hh. apply list_elem_of_fmap in Hin as (x & -> & Hin).
    assert (~ hostile c!"-") as Hdash by (apply hostile_not_plain; tauto).
    destruct (N.eqb_spec x c!"/"); [done|]. destruct (N.eqb_spec x c!":"); [done|]. rewrite Forall_forall in Hf, Hc.
    pose proof (forbidden_or x (Hf x Hin)) as Hfc. destruct (proj1 (orb_false_iff _ _) (Hc x Hin)) as [Hw Ho].
    assert (x ∉ u!";&|<>()%#?") as Ho' by (intros H%list_elem_of_In%one_of_true; congruence).
    unfold hostile in Hh. rewrite Hw in Hh. rewrite !not_elem_of_cons in *. rewrite !elem_of_cons, elem_of_nil in Hh. assert (false <> true) by done. tauto.
Qed.

Lemma str_to_subset s n c : c ∈ str_to s n -> c ∈ s.
Proof. revert n. induction s as [|x s IH]; intros [|n]; cbn [str_to]; try (by intros ?%elem_of_nil). intros [->|H]%elem_of_cons; [by left|]. right. by eapply IH. Qed.

Definition option_to_list {A} (o : option A) : list A := match o with Some a => [a] | None => [] end.

(** C38. A version that may be installed for a version, a prefix or a subtraction names a directory of its own inside that of
    the tool's installs: the name is not empty, not the directory itself or its parent, and holds no slash, backslash or
    colon, no quote, backquote or dollar sign, none of [; & | < > ( )] and [% # ?], no white space and no control character
    of ASCII, with the (alphanumeric) identity of a native lock graph as well as without one. What a shell expands to file
    names or braces where it stands without quotes, and control characters beyond ASCII, are let through; see
    [patterns_installable]. *)
Theorem installed_name_harmless (hash_to_str : str -> str) (uv aube : option str) (k : RequestKind) (v : str)
    (Hkind : match k with Version _ | Prefix _ | Sub _ _ => True | _ => False end)
    (Hv : validate_installable_version v = Ok tt)
    (Hidentity : Forall (fun id => Forall (fun c => is_ascii_alphanumeric c = true) id) (option_to_list uv ++ option_to_list aube)) :
  let name := tv_pathname hash_to_str uv aube k v in
  name <> [] /\ name <> u!"." /\ name <> u!".." /\ forall c, c ∈ name -> ~ hostile c.
Proof.
  apply logical_name_harmless in Hv. cbv zeta in Hv. rewrite <- (logical_name hash_to_str k v Hkind) in Hv.
  unfold tv_pathname. cbv zeta. set (logical := logical_pathname hash_to_str k v) in *. destruct Hv as (Hne & Hdot & Hdd & Hlog).
  assert (forall tag id, forallb (fun c => is_ascii_alphanumeric c || (c =? c!"~")%N) tag = true -> c!"~" ∈ tag ->
    Forall (fun c => is_ascii_alphanumeric c = true) id ->
    logical ++ tag ++ str_to id 16 <> [] /\ logical ++ tag ++ str_to id 16 <> u!"." /\ logical ++ tag ++ str_to id 16 <> u!".." /\
    forall c, c ∈ logical ++ tag ++ str_to id 16 -> ~ hostile c) as Htag.
  { intros tag id Htag Htilde Hid. assert (c!"~" ∈ logical ++ tag ++ str_to id 16) as Hin by set_solver.
    split_and!; [by intros E; rewrite E in Hin; apply elem_of_nil in Hin|intros E; rewrite E in Hin; set_solver|intros E; rewrite E in Hin; set_solver|].
    intros c. rewrite !elem_of_app. intros [Hc|[Hc|Hc]]; [by apply Hlog|apply hostile_not_plain|].
    { rewrite forallb_forall in Htag. apply list_elem_of_In, Htag in Hc. apply orb_true_iff in Hc as [Hc|Hc%N.eqb_eq]; tauto. }
    apply hostile_not_plain. left. rewrite Forall_forall in Hid. apply Hid. by eapply str_to_subset. }
  destruct uv as [uv|]; [apply Htag; [done|left|by apply Forall_cons in Hidentity as [? _]]|].
  destruct aube as [aube|]; [|done]. apply Htag; [done|left|by apply Forall_cons in Hidentity as [? _]].
Qed.

(** ** Another backend *)

Section Backends.

Context {BA : Type} `{BackendArg BA}.
Context (HOME : str) (CWD : option str) (config_root : str -> str).

(** Two arguments whose options differ only in what the registry has for them. *)
Definition same_tool (ba ba' : BA) : Prop :=
  install_manifest_opts ba = install_manifest_opts ba' /\ resolved_full_opts ba = resolved_full_opts ba' /\
  backend_alias_opts ba = backend_alias_opts ba' /\ explicit_opts ba = explicit_opts ba'.

(** The layers of a request's options above the registry. *)
Definition request_layers (ba : BA) (o : ToolOptions) :=
  user_layers (install_manifest_opts ba) (resolved_full_opts ba) (backend_alias_opts ba) None (Some o) (explicit_opts ba).


End Backends.

(** ** Examples *)

(** A backend argument as a name and the options that the registry has for it. *)
Definition SampleBA : Type := str * ToolOptions.

#[local] Instance SampleBackend : BackendArg SampleBA := {
  short ba := ba.1; full_without_opts ba := ba.1; registry_opts ba := ba.2;
  install_manifest_opts _ := None; resolved_full_opts _ := None; backend_alias_opts _ := None; explicit_opts _ := None;
  with_registry_version _ _ := None; registry_bins _ := None; is_spm _ := false; ba_os_supported _ := true;
  installs_path ba := u!"/data/installs/" ++ ba.1; tool_dir_name ba := ba.1
}.

Definition sample_ba : SampleBA := (u!"node", ToolOptions_default).
Definition sample_new (s : str) : result RequestError (ToolRequest SampleBA) :=
  new u!"/home/u" (Some u!"/work") (fun _ => u!"/project") sample_ba s (MiseToml u!"/project/mise.toml").

Example version_sub_samples :
  map (fun p => version_sub p.1 p.2)
    [(u!"18.2.3", u!"2"); (u!"18.2.3", u!"0.1"); (u!"2.79.0", u!"0.0.1"); (u!"0.1", u!"0.2"); (u!"20.x", u!"1"); (u!"20", u!"")] =
  [Ok u!"16"; Ok u!"18.1"; Ok u!"2.78"; Ok u!"0"; Err (NotNumeric u!"20.x" u!"1"); Err (InvalidVersion [])].
Proof. vm_compute. reflexivity. Qed.

Lemma usable_check dir : is_absolute dir = true -> forallb (fun c => negb (is_forbidden_version_char c)) dir = true -> usable_dir dir.
Proof.
  intros H1 H2. split; [done|]. apply Forall_forall. intros c Hc. rewrite forallb_forall in H2. apply list_elem_of_In, H2 in Hc. by apply negb_true_iff in Hc.
Qed.

Lemma sample_dirs : usable_dir u!"/home/u" /\ usable_dir u!"/work" /\ (forall file : str, usable_dir u!"/project").
Proof. split_and!; intros; by apply usable_check. Qed.

Lemma sample_home_spelled : home_spelled u!"/home/u" u!"/home/u/tool".
Proof. intros _ _. split; [|done]. exists u!"/tool". split; [done|by right]. Qed.

Example request_round_trip_witness :
  match sample_new u!"path:~/tool" with
  | Ok r => version u!"/home/u" r = u!"path:~/tool" /\
            exists r', sample_new (version u!"/home/u" r) = Ok r' /\ same_kind r.(kind) r'.(kind)
  | _ => False
  end.
Proof.
  assert (match sample_new u!"path:~/tool" with Ok r => bool_decide (r.(kind) = Path u!"/home/u/tool") | _ => false end = true) as Hk by (vm_compute; reflexivity).
  destruct (sample_new u!"path:~/tool") as [r|e|] eqn:E; [|discriminate Hk..]. apply bool_decide_eq_true_1 in Hk. split; [unfold version; by rewrite Hk|].
  apply (@request_round_trip SampleBA SampleBackend u!"/home/u" (Some u!"/work") (fun _ => u!"/project") (proj1 sample_dirs) (proj1 (proj2 sample_dirs)) (proj2 (proj2 sample_dirs))
    sample_ba u!"path:~/tool" ToolOptions_default (MiseToml u!"/project/mise.toml") r E). rewrite Hk. exact sample_home_spelled.
Defined.

Definition sample_install (r : ToolRequest SampleBA) : option str :=
  install_path (fun _ => false) (fun _ => Some [u!"1.0.0"; u!"1.2.0"]) (fun _ => false) [u!"/usr/local/share/mise/installs"]
    (fun _ => Ok (Some u!"19.0.0")) (fun _ _ => None) r.

Lemma sample_names : Forall clean [u!"1.0.0"; u!"1.2.0"].
Proof. unfold clean. apply (bool_decide_unpack _). vm_compute. exact I. Qed.

Example installs_contained_witness :
  match sample_new u!"lts/hydrogen" with
  | Ok r => match sample_install r with
            | Some p => p = u!"/data/installs/node/lts/hydrogen" /\ Exists (fun dir => below dir p) (install_dirs [u!"/usr/local/share/mise/installs"] r.(backend))
            | None => False
            end
  | _ => False
  end.
Proof.
  assert (match sample_new u!"lts/hydrogen" with
          | Ok r => bool_decide (r.(kind) = Version u!"lts/hydrogen") && bool_decide (r.(backend).1 = u!"node") | _ => false end = true) as Hk by (vm_compute; reflexivity).
  destruct (sample_new u!"lts/hydrogen") as [r|e|] eqn:E; [|discriminate Hk..]. apply andb_true_iff in Hk as [Hk%bool_decide_eq_true_1 Hb%bool_decide_eq_true_1].
  assert (sample_install r = Some u!"/data/installs/node/lts/hydrogen") as Hp.
  { unfold sample_install, install_path. rewrite Hk. unfold installed_at, installs_path, tool_dir_name, SampleBackend. rewrite Hb. vm_compute. reflexivity. }
  rewrite Hp. split; [reflexivity|]. assert (forall ns, (fun _ : str => Some [u!"1.0.0"; u!"1.2.0"]) [] = Some ns -> Forall clean ns) as Hls by (intros ns [= <-]; exact sample_names).
  pose proof (@installs_contained SampleBA SampleBackend u!"/home/u" (Some u!"/work") (fun _ => u!"/project") (fun _ => false) (fun _ => Some [u!"1.0.0"; u!"1.2.0"]) (fun _ => false)
    [u!"/usr/local/share/mise/installs"] (fun _ => Ok (Some u!"19.0.0")) (fun _ _ => None) (fun _ => Hls) sample_ba u!"lts/hydrogen" ToolOptions_default (MiseToml u!"/project/mise.toml") r u!"/data/installs/node/lts/hydrogen" E) as H.
  rewrite Hk in H. apply H; [|exact Hp]. unfold install_dirs, installs_path, tool_dir_name, SampleBackend. rewrite Hb. repeat constructor.
Defined.

Example installed_name_harmless_witness :
  tv_pathname (fun p => p) (Some u!"0123456789abcdef0123") None (Version u!"3.12") u!"3.12.1" = u!"3.12.1~uv~0123456789abcdef" /\
  forall c, c ∈ tv_pathname (fun p => p) (Some u!"0123456789abcdef0123") None (Version u!"3.12") u!"3.12.1" -> ~ hostile c.
Proof.
  split; [vm_compute; reflexivity|]. apply (installed_name_harmless (fun p => p) (Some u!"0123456789abcdef0123") None (Version u!"3.12") u!"3.12.1" I eq_refl).
  repeat constructor.
Defined.

(** Patterns and braces of a shell may be installed, and so may a control character beyond ASCII. *)
Example patterns_installable :
  Forall (fun v => validate_installable_version v = Ok tt /\ tv_pathname (fun p => p) None None (Version v) v = v)
    [u!"1.*"; u!"[x]"; u!"{a,b}"; u!"!"; [0x80%N]].
Proof. repeat constructor; vm_compute; reflexivity. Qed.

Definition sample_signed : SampleBA := (u!"packslip:tool", sample_registry).


(** An entry of the lockfile for [sub-1:latest] holds the version after the subtraction; the install path of the request
    subtracts again. *)
Example locked_subtracted_twice :
  match sample_new u!"sub-1:latest" with Ok r => sample_install r | _ => None end = Some u!"/data/installs/node/18".
Proof. vm_compute. reflexivity. Qed.

(** The home directory is abbreviated by its text: a path that spells it otherwise is cut in the middle. *)
Example home_cut_in_the_middle :
  match sample_new u!"path:/./home/u/tool" with Ok r => version u!"/home/u" r | _ => [] end = u!"path:/.~/tool".
Proof. vm_compute. reflexivity. Qed.
