(* ===== verification/VersionMatch.v ===== *)
(** * Matching versions against what is requested ([src/backend/mod.rs], [crates/mise-util/src/semver.rs],
    [src/backend/options.rs], [src/plugins/mod.rs])

    [1.2] selects [1.2.3] and [v1.2.3] but not [1.20], [temurin-] every version of that vendor, [latest] what starts
    with a digit. Regular expressions belong to the [regex] crate, semantic versions and ranges to the crates
    [semver] and [nodejs_semver]: what they accept are parameters. *)

From S2P Require Import Prelude RustStr Toml ToolOptions.

(** ** One version *)

Definition first_char (f : char -> bool) (s : str) : bool := match s with c :: _ => f c | [] => false end.

(** [strip_prefix(['v', 'V'])] *)
Definition strip_v (s : str) : option str := match s with c :: s' => if one_of u!"vV" c then Some s' else None | [] => None end.

Definition LF : char := 10%N.

(** Whether a version is the literal or continues it; [vendor] is for a query that ends in a dash. *)
Definition continues (separators : str) (vendor : bool) (literal version : str) : bool :=
  match strip_prefix literal version with
  | None => false
  | Some rest =>
      if vendor then negb (contains_char LF rest)
      else match rest with
           | [] => true
           | c :: tail => one_of separators c && negb (bool_decide (tail = [])) && negb (contains_char LF tail)
           end
  end.

Definition fuzzy_version_matches (query version : str) : bool :=
  if bool_decide (query = u!"latest") then
    let version := match strip_prefix u!"v" version with Some rest => rest | None => version end in
    first_char is_ascii_digit version && negb (contains_char LF version)
  else
    let without_v := strip_v query in
    let separators := if first_char is_ascii_digit (match without_v with Some s => s | None => query end) then u!"+-." else u!"-." in
    let cont := continues separators (ends_with u!"-" query) in
    if cont query version then true
    else if first_char is_ascii_digit query
            && match strip_prefix u!"v" version with Some version => cont query version | None => false end then true
    else match without_v with Some literal => cont literal version | None => false end.

(** ** Lists of versions *)

(** What one version has to pass; [is_filtered_prerelease] is no bar to the version that was asked for. *)
Definition fuzzy_match_by (query : str) (is_filtered_prerelease : str -> bool) (v : str) : bool :=
  if bool_decide (query = v) then true
  else if is_filtered_prerelease v then false
  else fuzzy_version_matches query v.

Definition fuzzy_match_versions_by (versions : list str) (query : str) (is_filtered_prerelease : str -> bool) : list str :=
  List.filter (fuzzy_match_by query is_filtered_prerelease) versions.

Definition find_match_in_list (l : list str) (query : str) : option str :=
  if bool_decide (query ∈ l) then Some query else last l.

Section Regexes.

(** [VERSION_REGEX.is_match] and [PEP440_PRERELEASE_REGEX.is_match] *)
Context (VERSION_REGEX PEP440_PRERELEASE_REGEX : str -> bool).

Definition pep440_public_version (version : str) : str :=
  match split_once c!"+" version with Some (public, _) => public | None => version end.

Definition is_python_prerelease (version : str) : bool :=
  let public := pep440_public_version version in PEP440_PRERELEASE_REGEX public || VERSION_REGEX public.

Definition fuzzy_match_versions (versions : list str) (query : str) (filter_prereleases : bool) : list str :=
  fuzzy_match_versions_by versions query (fun v => filter_prereleases && VERSION_REGEX v).

Definition fuzzy_match_versions_pep440 (versions : list str) (query : str) (filter_prereleases : bool) : list str :=
  fuzzy_match_versions_by versions query (fun v => filter_prereleases && is_python_prerelease v).

(** [Backend::fuzzy_match_filter], where a backend does not replace it. *)
Definition default_fuzzy_match_filter (is_backend_prerelease : str -> bool) (versions : list str) (query : str)
    (filter_prereleases : bool) : list str :=
  fuzzy_match_versions
    (List.filter (fun v => negb filter_prereleases || bool_decide (v = query) || negb (is_backend_prerelease v)) versions)
    query filter_prereleases.

End Regexes.

(** ** Semantic versions *)

Section Ranges.

(** [Range::parse] with [satisfies], and [NodeVersion::parse] *)
Context {NodeVersion : Type} (parse_version : str -> option NodeVersion) (parse_range : str -> option (NodeVersion -> bool)).

Definition is_npm_semver_range_query (query : str) : bool :=
  if bool_decide (query = []) || eq_ignore_ascii_case query u!"latest" then false
  else if existsb is_control query then false
  else if bool_decide (query = u!"*") || eq_ignore_ascii_case query u!"x" then true
  else if contains_str u!"||" query || contains_str u!" - " query then true
  else if first_char (one_of u!"<>=^~") query || contains_char c!"<" query || contains_char c!">" query then true
  else if 1 <? length (List.filter (fun w => negb (bool_decide (w = []))) (split_on is_whitespace query)) then true
  else existsb (fun part => bool_decide (part ∈ [u!"*"; u!"x"; u!"X"])) (split_on (N.eqb c!".") query).

Definition satisfies (range : NodeVersion -> bool) (version : str) : bool :=
  match parse_version version with
  | Some v => range v
  | None => match parse_version (trim_start_matches (one_of u!"vV") version) with Some v => range v | None => false end
  end.

Definition npm_semver_range_filter (versions : list str) (query : str) : option (list str) :=
  let query := trim query in
  if negb (is_npm_semver_range_query query) then None
  else match parse_range query with Some range => Some (List.filter (satisfies range) versions) | None => None end.

End Ranges.

(** The prefix up to the first digit that starts the text or follows one of the separators. *)
Fixpoint split_version_from (prev : option char) (before s : str) : option (str * str) :=
  match s with
  | [] => None
  | c :: s' =>
      if is_ascii_digit c && match prev with None => true | Some p => one_of u!"-_/.vV" p end then Some (before, s)
      else split_version_from (Some c) (before ++ [c]) s'
  end.

Definition split_version_prefix (version : str) : str * str :=
  match split_version_from None [] version with Some parts => parts | None => ([], version) end.

(** ** Listed versions *)

Record VersionInfo := mkVersionInfo {
  v_version : str;
  v_created_at : option str;
  v_release_url : option str;
  v_rolling : bool;
  v_checksum : option str;
  v_prerelease : option bool
}.

Section Dates.

(** [parse_into_timestamp] *)
Context (parse_into_timestamp : str -> option Z).

Definition created_at_timestamp (v : VersionInfo) : option Z := v.(v_created_at) ≫= parse_into_timestamp.

Definition hidden_by_date (v : VersionInfo) (before : Z) : bool :=
  match created_at_timestamp v with Some created => (before <=? created)%Z | None => false end.

Definition count_hidden_by_date (versions : list VersionInfo) (before : Z) : nat :=
  length (List.filter (fun v => hidden_by_date v before) versions).

Definition filter_by_date (versions : list VersionInfo) (before : Z) : list VersionInfo :=
  List.filter (fun v => match created_at_timestamp v with Some created => (created <? before)%Z | None => true end) versions.

(** Whether every version has a date that can be read. *)
Definition dates_every_version (versions : list VersionInfo) : bool :=
  negb (bool_decide (length versions = 0)) && forallb (fun v => opt_is_some (created_at_timestamp v)) versions.

End Dates.

Definition filter_cached_prereleases (versions : list VersionInfo) (want_prereleases : bool) : list VersionInfo :=
  if want_prereleases then versions else List.filter (fun v => negb (bool_decide (v.(v_prerelease) = Some true))) versions.

Definition mark_prerelease (VERSION_REGEX : str -> bool) (v : VersionInfo) : VersionInfo :=
  match v.(v_prerelease) with
  | None => if VERSION_REGEX v.(v_version)
            then mkVersionInfo v.(v_version) v.(v_created_at) v.(v_release_url) v.(v_rolling) v.(v_checksum) (Some true) else v
  | Some _ => v
  end.

(** ** Order *)

Inductive VersionOrder : Type := OrderSource | OrderSemver.

#[export] Instance VersionOrder_eq_dec : EqDecision VersionOrder.
Proof. solve_decision. Defined.

Definition VERSION_ORDER_ERROR : str := u!"version_order must be " ++ [34%N] ++ u!"source" ++ [34%N] ++ u!" or " ++ [34%N] ++ u!"semver" ++ [34%N].

Definition from_options_or (o : ToolOptions) (default : VersionOrder) : result str VersionOrder :=
  match o.(opts) !! u!"version_order" with
  | None => Ok default
  | Some (VString s) =>
      if bool_decide (s = u!"source") then Ok OrderSource
      else if bool_decide (s = u!"semver") then Ok OrderSemver else Err VERSION_ORDER_ERROR
  | Some _ => Err VERSION_ORDER_ERROR
  end.

Section Order.

(** [semver::Version::parse] and [cmp_precedence] *)
Context {Semver : Type} (parse_semver : str -> option Semver) (cmp_precedence : Semver -> Semver -> comparison).

(** A stable sort: a value goes behind those that are not greater. *)
Fixpoint insert_semver {A} (x : A * Semver) (l : list (A * Semver)) : list (A * Semver) :=
  match l with
  | [] => [x]
  | y :: l' => match cmp_precedence x.2 y.2 with Lt => x :: l | _ => y :: insert_semver x l' end
  end.

Definition normalized_version (version : str) : str := match strip_v version with Some rest => rest | None => version end.

(** Versions that are no semantic ones keep their places before the others. *)
Definition order_by {A} (order : VersionOrder) (version : A -> str) (values : list A) : list A :=
  match order with
  | OrderSource => values
  | OrderSemver =>
      let parsed v := parse_semver (normalized_version (version v)) in
      List.filter (fun v => negb (opt_is_some (parsed v))) values
      ++ map fst (foldl (fun l x => insert_semver x l) [] (omap (fun v => (fun p => (v, p)) <$> parsed v) values))
  end.

End Order.
