(* ===== verification/VersionIndex.v ===== *)
(** * The versions index ([src/versions_index.rs], its use in [src/backend/mod.rs])

    One file that holds, for every tool of the registry, a part of its list of versions with markers that say what the
    part covers. A request is answered from the part only when the markers prove that the whole list gives the
    same answer. A command downloads the file once it needs the lists of several tools. *)

From S2P Require Import Prelude RustStr VersionMatch.

(** ** One tool *)

Record IndexEntry := mkEntry { e_version : str; e_created_at : Z; e_flags : N }.

Record IndexTool := mkIndexTool {
  count : nat;
  tail_ : nat;
  versions : list IndexEntry;
  prefixes : gmap str nat
}.

Inductive IndexPick : Type := PickRequest | PickLast.

Definition FLAG_ROLLING : N := 1.
Definition FLAG_PRERELEASE : N := 2.

Definition is_well_formed (t : IndexTool) : bool :=
  let len := length t.(versions) in
  (0 <? len) && (len <=? t.(count)) && (t.(tail_) <=? len)
  && forallb (fun kv => kv.2 <? len) (map_to_list t.(prefixes))
  && bool_decide (NoDup (map e_version t.(versions))).

Section Entries.

(** [Timestamp::from_millisecond] with [to_string], where the time is in range *)
Context (from_millisecond : Z -> option str).

Definition version_info (e : IndexEntry) : VersionInfo :=
  mkVersionInfo e.(e_version) (from_millisecond e.(e_created_at)) None (negb (N.land e.(e_flags) FLAG_ROLLING =? 0)%N) None
    (if (N.land e.(e_flags) FLAG_PRERELEASE =? 0)%N then None else Some true).

Definition version_infos (t : IndexTool) : list VersionInfo := map version_info t.(versions).

(** From which position of the part on everything that may match a query is in it. *)
Definition covered_from (t : IndexTool) (query : str) : option nat :=
  if bool_decide (query = u!"latest") then Some t.(tail_) else (fun i => min i t.(tail_)) <$> t.(prefixes) !! query.

(** [IndexTool::resolve] *)
Definition index_resolve (t : IndexTool) (query : str) (pick : IndexPick) (matches : list str) : option str :=
  match last matches with
  | None => None
  | Some v =>
      if match pick with PickRequest => bool_decide (query ∈ matches) | PickLast => false end then Some query
      else if t.(count) =? length t.(versions) then Some v
      else match covered_from t query with
           | None => None
           | Some from =>
               match list_find (fun e => e.(e_version) = v) t.(versions) with
               | Some (position, _) => if from <=? position then Some v else None
               | None => None
               end
           end
  end.

(** [resolve_in_versions_index]: the filters of a backend over the part. *)
Definition resolve_in_versions_index (parse_into_timestamp : str -> option Z) (want_prereleases : bool)
    (fuzzy_match_filter : list str -> list str) (t : IndexTool) (query : str) (pick : IndexPick) (before_date : option Z) : option str :=
  let infos := filter_cached_prereleases (version_infos t) want_prereleases in
  let infos := match before_date with Some before => filter_by_date parse_into_timestamp infos before | None => infos end in
  index_resolve t query pick (fuzzy_match_filter (map v_version infos)).

End Entries.

(** ** The copy that a process uses *)

Definition VersionsIndex : Type := gmap str IndexTool.

(** An entry that is malformed counts as absent. *)
Definition index_tool (index : VersionsIndex) (tool : str) : option IndexTool :=
  match index !! tool with Some t => if is_well_formed t then Some t else None | None => None end.

(** Times and durations in nanoseconds. *)
Definition REFRESH_REUSES_COPIES_NEWER_THAN : Z := 300000000000.

Record Loaded := mkLoaded { l_index : VersionsIndex; l_validated : Z; l_past_fresh : bool }.

(** The copy on disk, of which the body may not parse, and when it was last validated. *)
Record Disk := mkDisk { d_cached : option (str * option VersionsIndex); d_validated : option Z }.

Record Process := mkProcess { loaded : option Loaded; failed : bool; asked : gset str; fetches : nat; disk : Disk }.

Inductive Response : Type :=
| NotModified
| OkResponse (etag : str) (parsed : option VersionsIndex)
| OtherStatus
| Unreachable.

(** [SystemTime::elapsed]: a clock that went backwards gives none. *)
Definition elapsed (now since : Z) : option Z := if (since <=? now)%Z then Some (now - since)%Z else None.

Definition usable (l : Loaded) (now : Z) (refresh : bool) (window : option Z) : bool :=
  let age := elapsed now l.(l_validated) in
  if refresh then match age with Some age => (age <? REFRESH_REUSES_COPIES_NEWER_THAN)%Z | None => false end
  else negb l.(l_past_fresh)
       || match age, window with Some age, Some window => (age <? window)%Z | _, _ => false end.

Section Fetching.

(** [fetch_remote_versions_cache]; whether the copy can be written, which only fails without one of the directories;
    the answer to a request that sends the given tag. *)
Context (fresh_duration : Z) (writable : bool) (server : option str -> Response).

Definition is_usable (age : Z) (refresh : bool) (window : option Z) : bool :=
  (age <? Z.max fresh_duration (match window with Some w => w | None => 0 end))%Z
  && (negb refresh || (age <? REFRESH_REUSES_COPIES_NEWER_THAN)%Z).

Definition read_fresh_copy (d : Disk) (now : Z) (refresh : bool) (window : option Z) : option Loaded :=
  validated ← d.(d_validated);
  age ← elapsed now validated;
  if negb (is_usable age refresh window) then None
  else match d.(d_cached) with
       | Some (_, Some index) => Some (mkLoaded index validated (fresh_duration <=? age)%Z)
       | _ => None
       end.

(** [fetch_]: the index and the disk afterwards. Only a copy that parses is revalidated. *)
Definition fetch (d : Disk) (now : Z) : option VersionsIndex * Disk :=
  let cached := match d.(d_cached) with
                | Some (etag, Some index) => if bool_decide (etag = []) then None else Some (etag, index)
                | _ => None
                end in
  match server (fst <$> cached), cached with
  | NotModified, Some (_, index) => (Some index, if writable then mkDisk d.(d_cached) (Some now) else d)
  | OkResponse etag parsed, _ =>
      match parsed with
      | Some index => (Some index, if writable then mkDisk (Some (etag, Some index)) (Some now) else d)
      | None => (None, d)
      end
  | _, _ => (None, d)
  end.

(** From the disk, or from the server once a second tool asks; a failure is not tried again. [fetches] counts the
    requests. *)
Definition load_index (tool : str) (refresh : bool) (window : option Z) (now : Z) (p : Process) : option VersionsIndex * Process :=
  match read_fresh_copy p.(disk) now refresh window with
  | Some copy => (Some copy.(l_index), mkProcess (Some copy) p.(failed) p.(asked) p.(fetches) p.(disk))
  | None =>
      let asked := {[tool]} ∪ p.(asked) in
      if size asked <=? 1 then (None, mkProcess p.(loaded) p.(failed) asked p.(fetches) p.(disk))
      else match fetch p.(disk) now with
           | (Some index, disk) => (Some index, mkProcess (Some (mkLoaded index now false)) p.(failed) asked (S p.(fetches)) disk)
           | (None, disk) => (None, mkProcess p.(loaded) true asked (S p.(fetches)) disk)
           end
  end.

(** [get] *)
Definition get_index (tool : str) (refresh : bool) (window : option Z) (now : Z) (p : Process) : option VersionsIndex * Process :=
  if p.(failed) then (None, p)
  else match p.(loaded) with
       | Some l => if usable l now refresh window then (Some l.(l_index), p) else load_index tool refresh window now p
       | None => load_index tool refresh window now p
       end.

End Fetching.
