(* ===== verification/VersionIndexSpec.v ===== *)
(** * What the versions index promises

    An answer from the index is the answer of the whole list that it stands for, given what its markers promise; and a
    process that asks for one tool never downloads it, one that asks for several does so once. *)

From Stdlib Require Import Sorting.Sorted.
From S2P Require Import Prelude RustStr VersionMatch VersionIndex.

(** ** Lists and parts of them *)

Lemma sublist_elem_of {A} (l1 l2 : list A) x : l1 `sublist_of` l2 -> x ∈ l1 -> x ∈ l2.
Proof. intros. by eapply elem_of_sublist. Qed.

Lemma sublist_middle {A} (x : A) (s1 s2 pre post : list A) :
  NoDup (pre ++ x :: post) -> s1 ++ x :: s2 `sublist_of` pre ++ x :: post -> s1 `sublist_of` pre /\ s2 `sublist_of` post.
Proof.
  intros Hnd Hsub. apply NoDup_app in Hnd as (_ & Hpre & [Hpost _]%NoDup_cons).
  assert (x ∉ pre) as Hx by (intros Hx; apply (Hpre x Hx); by left).
  apply sublist_app_r in Hsub as (l1 & l2 & E & H1 & H2).
  assert (forall l, x ∈ l -> ~ l `sublist_of` post) as Hno by (intros l Hl Hs; by apply Hpost, (sublist_elem_of _ _ _ Hs)).
  apply app_eq_inv in E as [(k & -> & ->)|(k & -> & E)].
  - apply sublist_cons_r in H2 as [H2|(l' & E & H2)]; [exfalso; eapply Hno; [|exact H2]; set_solver|].
    destruct k as [|y k]; cbn [app] in E; injection E as; subst; [by rewrite app_nil_r|].
    exfalso. eapply Hno; [|exact H2]. set_solver.
  - destruct k as [|y k]; cbn [app] in E.
    + subst l2. rewrite app_nil_r in H1. apply sublist_cons_r in H2 as [H2|(l' & [= <-] & H2)]; [|done].
      exfalso. eapply Hno; [|exact H2]. by left.
    + injection E as <- ->. exfalso. apply Hx, (sublist_elem_of _ _ _ H1). set_solver.
Qed.

Lemma filter_keeps_sublist {A} (f : A -> bool) (l1 l2 : list A) : l1 `sublist_of` l2 -> List.filter f l1 `sublist_of` List.filter f l2.
Proof. induction 1 as [|x l1 l2 H IH|x l1 l2 H IH]; simpl; [done|destruct (f x); [by constructor|done]|destruct (f x); [by constructor|done]]. Qed.

Lemma map_sublist {A B} (f : A -> B) (l1 l2 : list A) : l1 `sublist_of` l2 -> map f l1 `sublist_of` map f l2.
Proof. induction 1; simpl; by constructor. Qed.

Lemma sublist_same_length {A} (l1 l2 : list A) : l1 `sublist_of` l2 -> length l1 = length l2 -> l1 = l2.
Proof.
  induction 1 as [|x l1 l2 H IH|x l1 l2 H IH]; simpl; intros E; [done|f_equal; apply IH; lia|].
  apply sublist_length in H. lia.
Qed.

Lemma last_filter_split {A} (f : A -> bool) (l : list A) x :
  last (List.filter f l) = Some x -> exists pre post, l = pre ++ x :: post /\ f x = true /\ List.filter f post = [].
Proof.
  induction l as [|y l IH] using rev_ind; [done|]. rewrite List.filter_app. cbn [List.filter]. destruct (f y) eqn:Ey.
  - rewrite last_snoc. intros [= ->]. by exists l, [].
  - rewrite app_nil_r. intros (pre & post & -> & Hx & Hp)%IH. exists pre, (post ++ [y]). split_and!; [by rewrite <- app_assoc|done|].
    rewrite List.filter_app, Hp. cbn. by rewrite Ey.
Qed.

Lemma filter_split_last {A} (f : A -> bool) (pre post : list A) x :
  f x = true -> List.filter f post = [] -> last (List.filter f (pre ++ x :: post)) = Some x.
Proof. intros Hx Hp. rewrite List.filter_app. cbn [List.filter]. rewrite Hx, Hp. apply last_snoc. Qed.

(** The last match of a part is the last one of the whole, when the part has every match behind it. *)
Lemma last_of_part {A} (f : A -> bool) (part whole : list A) x :
  NoDup whole -> part `sublist_of` whole -> last (List.filter f part) = Some x ->
  (forall pre post, whole = pre ++ x :: post -> forall y, y ∈ post -> f y = true -> y ∈ part) ->
  last (List.filter f whole) = Some x.
Proof.
  intros Hnd Hsub Hlast Hcov. apply last_filter_split in Hlast as (s1 & s2 & -> & Hx & Hs2).
  assert (x ∈ whole) as (pre & post & ->)%list_elem_of_split by (apply (sublist_elem_of _ _ _ Hsub); set_solver).
  apply filter_split_last; [done|]. destruct (sublist_middle x s1 s2 pre post Hnd Hsub) as [H1 H2].
  destruct (List.filter f post) as [|y ys] eqn:E; [done|]. exfalso.
  assert (y ∈ post /\ f y = true) as [Hy Hfy] by (apply elem_of_filter_bool; rewrite E; by left).
  apply NoDup_app in Hnd as (_ & Hpre & [Hpost _]%NoDup_cons).
  specialize (Hcov pre post eq_refl y Hy Hfy). apply elem_of_app in Hcov as [Hin|[->|Hin]%elem_of_cons].
  - apply (sublist_elem_of _ _ _ H1) in Hin. apply (Hpre y Hin). by right.
  - done.
  - assert (y ∈ List.filter f s2) as Hin' by (by apply elem_of_filter_bool). rewrite Hs2 in Hin'. by apply elem_of_nil in Hin'.
Qed.

(** ** What the markers promise *)

Section Contract.

Context (from_millisecond : Z -> option str) (parse_into_timestamp : str -> option Z).

(** What selection reads of a listed version. *)
Definition attrs (v : VersionInfo) : str * option Z * bool :=
  (v.(v_version), created_at_timestamp parse_into_timestamp v, bool_decide (v.(v_prerelease) = Some true)).

(** The part stands for a list: it is a subsequence of it with the same versions, dates and flags, its tail is the end
    of the list, and for each of its prefixes it has every version that the prefix selects from the marked one on, and
    the version that is spelled as the prefix. *)
Record represents (t : IndexTool) (L : list VersionInfo) : Prop := {
  rep_count : t.(count) = length L;
  rep_nodup : NoDup (map v_version L);
  rep_part : map attrs (version_infos from_millisecond t) `sublist_of` map attrs L;
  rep_tail : exists pre, map attrs L = pre ++ map attrs (drop t.(tail_) (version_infos from_millisecond t));
  rep_prefix : forall P i e pre v post, t.(prefixes) !! P = Some i -> t.(versions) !! i = Some e -> L = pre ++ v :: post ->
    e.(e_version) ∈ map v_version (pre ++ [v]) -> fuzzy_version_matches P v.(v_version) = true ->
    v.(v_version) ∈ map e_version t.(versions);
  rep_spelled : forall P i, t.(prefixes) !! P = Some i -> P ∈ map v_version L -> P ∈ map e_version t.(versions)
}.

(** The whole list's answer: the same filters over it. *)
Definition list_matches (want_prereleases : bool) (selects : str -> bool) (L : list VersionInfo) (before_date : option Z) : list str :=
  let infos := filter_cached_prereleases L want_prereleases in
  let infos := match before_date with Some before => filter_by_date parse_into_timestamp infos before | None => infos end in
  List.filter selects (map v_version infos).

Definition list_answer (query : str) (pick : IndexPick) (matches : list str) : option str :=
  match pick with PickRequest => find_match_in_list matches query | PickLast => last matches end.

(** The filters look at the attributes alone. *)
Definition keeps (want_prereleases : bool) (selects : str -> bool) (before_date : option Z) (a : str * option Z * bool) : bool :=
  (want_prereleases || negb a.2)
  && match before_date, a.1.2 with Some before, Some created => (created <? before)%Z | _, _ => true end
  && selects a.1.1.

Lemma list_matches_attrs want selects L before :
  list_matches want selects L before = map (fun a => a.1.1) (List.filter (keeps want selects before) (map attrs L)).
Proof.
  unfold list_matches, filter_cached_prereleases, filter_by_date, keeps.
  assert (forall (f g : VersionInfo -> bool) l, List.filter f (List.filter g l) = List.filter (fun v => g v && f v) l) as Hff.
  { intros f g l. induction l as [|x l IH]; [done|]. simpl. destruct (g x); simpl; [destruct (f x)|]; by rewrite IH. }
  assert (forall (f : str -> bool) l, List.filter f (map v_version l) = map v_version (List.filter (fun v => f v.(v_version)) l)) as Hfm.
  { intros f l. induction l as [|x l IH]; [done|]. simpl. destruct (f _); simpl; by rewrite IH. }
  assert (forall (f : str * option Z * bool -> bool) l, map (fun a => a.1.1) (List.filter f (map attrs l)) = map v_version (List.filter (fun v => f (attrs v)) l)) as Ha.
  { intros f l. induction l as [|x l IH]; [done|]. simpl. destruct (f _); simpl; by rewrite IH. }
  rewrite Ha, Hfm. f_equal. destruct want, before as [before|]; cbn [orb andb]; rewrite ?Hff; apply List.filter_ext; intros v; unfold attrs; cbn [fst snd];
    destruct (created_at_timestamp parse_into_timestamp v), (bool_decide (v_prerelease v = Some true)); cbn; rewrite ?andb_true_r; done.
Qed.

(** Names are unique, so a version has one place in the list. *)
Lemma attrs_nodup L : NoDup (map v_version L) -> NoDup (map attrs L).
Proof.
  intros H. apply (NoDup_fmap_1 (fun a : str * option Z * bool => a.1.1)). change (NoDup (map (fun a => a.1.1) (map attrs L))).
  by rewrite map_map.
Qed.

Section Represented.

Context (t : IndexTool) (L : list VersionInfo) (Hrep : represents t L).

Let part := map attrs (version_infos from_millisecond t).

Lemma part_names : map (fun a => a.1.1) part = map e_version t.(versions).
Proof. unfold part, version_infos. rewrite !map_map. by apply map_ext. Qed.

(** A name that is in the part is there with what the list says of it. *)
Lemma named_in_part a : a ∈ map attrs L -> a.1.1 ∈ map e_version t.(versions) -> a ∈ part.
Proof using Hrep.
  intros Ha Hn. rewrite <- part_names in Hn. apply list_elem_of_fmap in Hn as (b & Hb & Hin).
  assert (b ∈ map attrs L) as HbL by (exact (sublist_elem_of part _ _ (rep_part _ _ Hrep) Hin)).
  apply list_elem_of_fmap in Ha as (v & -> & Hv). apply list_elem_of_fmap in HbL as (w & -> & Hw). cbn in Hb.
  assert (v = w) as ->; [|done]. apply list_elem_of_lookup in Hv as [i Hi]. apply list_elem_of_lookup in Hw as [j Hj].
  assert (i = j) as ->; [|congruence]. eapply (NoDup_lookup (map v_version L)); [apply Hrep|by rewrite list_lookup_fmap, Hi|].
  rewrite list_lookup_fmap, Hj. simpl. congruence.
Qed.

(** What is behind a version of the tail is in the tail. *)
Lemma tail_covers p x pre post y :
  part !! p = Some x -> t.(tail_) <= p -> map attrs L = pre ++ x :: post -> y ∈ post -> y ∈ part.
Proof using Hrep.
  intros Hp Ht HL Hy. destruct (rep_tail _ _ Hrep) as [pre' E]. pose proof (attrs_nodup L (rep_nodup _ _ Hrep)) as Hnd.
  rewrite <- skipn_map in E. fold part in E. assert (x ∈ drop (tail_ t) part) as Hx.
  { apply list_elem_of_lookup. exists (p - tail_ t). rewrite lookup_drop. by replace (tail_ t + (p - tail_ t)) with p by lia. }
  apply list_elem_of_split in Hx as (d1 & d2 & Ed). rewrite HL in E, Hnd. rewrite Ed in E.
  assert (post = d2) as ->.
  { assert (pre ++ x :: post = (pre' ++ d1) ++ x :: d2) as E' by (by rewrite <- app_assoc). clear E.
    generalize dependent (pre' ++ d1). intros d E. apply NoDup_app in Hnd as (_ & Hd & [Hx2 _]%NoDup_cons).
    apply app_eq_inv in E as [(k & -> & Ek)|(k & -> & Ek)]; destruct k as [|z k]; cbn [app] in Ek; try (by injection Ek as ->); injection Ek as -> ->.
    - exfalso. apply (Hd z); [set_solver|by left].
    - exfalso. apply Hx2. set_solver. }
  rewrite <- (take_drop (tail_ t) part), Ed. set_solver.
Qed.

(** What a prefix selects behind its mark is in the part. *)
Lemma prefix_covers query i p x pre post y :
  t.(prefixes) !! query = Some i -> i <= p -> part !! p = Some x -> map attrs L = pre ++ x :: post -> y ∈ post ->
  fuzzy_version_matches query y.1.1 = true -> i < length t.(versions) -> y ∈ part.
Proof using Hrep.
  intros Hi Hip Hp HL Hy Hf Hlen. apply named_in_part; [rewrite HL; set_solver|].
  apply list_elem_of_split in Hy as (p1 & p2 & ->).
  assert (exists preL v postL, L = preL ++ v :: postL /\ map attrs preL = pre ++ x :: p1 /\ attrs v = y) as (preL & v & postL & EL & Epre & <-).
  { change (map attrs L) with (attrs <$> L) in HL. rewrite app_comm_cons, app_assoc in HL. apply fmap_app_inv in HL as (preL & rest & E1 & E2 & ->).
    destruct rest as [|v postL]; [done|]. injection E2 as -> _. by exists preL, v, postL. }
  destruct (lookup_lt_is_Some_2 (versions t) i Hlen) as [e He]. apply (rep_prefix _ _ Hrep query i e preL v postL); [done..| |done].
  assert (part !! i = Some (attrs (version_info from_millisecond e))) as Hpi.
  { unfold part, version_infos. change (map attrs (map (version_info from_millisecond) (versions t))) with (attrs <$> (version_info from_millisecond <$> versions t)).
    by rewrite !list_lookup_fmap, He. }
  assert (attrs (version_info from_millisecond e) ∈ pre ++ [x]) as Hin.
  { pose proof (rep_part _ _ Hrep) as Hsub. fold part in Hsub. pose proof (take_drop_middle part p x Hp) as E. rewrite <- E, HL in Hsub.
    pose proof (attrs_nodup L (rep_nodup _ _ Hrep)) as Hnd. rewrite HL in Hnd. destruct (sublist_middle x _ _ _ _ Hnd Hsub) as [Hpre _].
    destruct (decide (i = p)) as [->|Hne]; [rewrite Hp in Hpi; injection Hpi as ->; set_solver|].
    apply elem_of_app. left. apply (sublist_elem_of (take p part)); [done|]. apply list_elem_of_lookup. exists i. by rewrite lookup_take_lt by lia. }
  change e.(e_version) with (attrs (version_info from_millisecond e)).1.1. rewrite map_app, elem_of_app.
  assert (forall l, map (fun a => a.1.1) (map attrs l) = map v_version l) as Hn by (intros l; by rewrite map_map).
  left. rewrite <- Hn, Epre. apply list_elem_of_fmap. eexists. split; [reflexivity|]. set_solver.
Qed.

Context (want : bool) (selects : str -> bool) (query : str) (before : option Z).
Context (Hshared : query <> u!"latest" -> forall v, selects v = true -> v = query \/ fuzzy_version_matches query v = true).

Lemma covered_last from position x :
  is_well_formed t = true -> covered_from t query = Some from -> from <= position -> part !! position = Some x ->
  last (List.filter (keeps want selects before) part) = Some x ->
  last (List.filter (keeps want selects before) (map attrs L)) = Some x.
Proof using Hrep Hshared.
  intros Hwf Hfrom Hle Hpos Hlast. apply (last_of_part _ part); [by apply attrs_nodup, Hrep|apply Hrep|done|].
  intros pre post HL y Hy Hk. unfold covered_from in Hfrom. destruct (decide (tail_ t <= position)) as [Ht|Ht]; [by eapply tail_covers|].
  case_bool_decide as Eq; [injection Hfrom as <-; lia|]. destruct (prefixes t !! query) as [i|] eqn:Ei; [|done]. injection Hfrom as <-.
  unfold keeps in Hk. apply andb_true_iff in Hk as [_ Hsel]. destruct (Hshared Eq _ Hsel) as [Hq|Hf].
  - apply named_in_part; [rewrite HL; set_solver|]. rewrite Hq. apply (rep_spelled _ _ Hrep query i Ei). rewrite <- Hq.
    assert (y ∈ map attrs L) as Hin by (rewrite HL; set_solver). apply list_elem_of_fmap in Hin as (v & -> & Hv). cbn. apply list_elem_of_fmap. by exists v.
  - eapply prefix_covers; [exact Ei| |exact Hpos|exact HL|done|done|].
    + lia.
    + unfold is_well_formed in Hwf. apply andb_true_iff in Hwf as [[_ Hall]%andb_true_iff _]. rewrite forallb_forall in Hall.
      apply elem_of_map_to_list, list_elem_of_In, Hall in Ei. by apply Nat.ltb_lt in Ei.
Qed.

(** A query that is listed, where the index has an answer to it, is in the part. *)
Lemma spelled_in_part from :
  covered_from t query = Some from -> (query = u!"latest" -> query ∈ map v_version L -> query ∈ map e_version t.(versions)) ->
  query ∈ list_matches want selects L before -> query ∈ list_matches want selects (version_infos from_millisecond t) before.
Proof using Hrep.
  intros Hfrom Hlatest. rewrite !list_matches_attrs. intros (a & Ea & [Ha Hk]%elem_of_filter_bool)%list_elem_of_fmap.
  apply list_elem_of_fmap. exists a. split; [done|]. apply elem_of_filter_bool. split; [|done]. apply named_in_part; [done|]. rewrite <- Ea.
  assert (query ∈ map v_version L) as Hin.
  { apply list_elem_of_fmap in Ha as (v & -> & Hv). rewrite Ea. cbn. apply list_elem_of_fmap. by exists v. }
  unfold covered_from in Hfrom. case_bool_decide as Eq; [by apply Hlatest|]. destruct (prefixes t !! query) as [i|] eqn:Ei; [|done].
  by apply (rep_spelled _ _ Hrep query i).
Qed.

End Represented.

(** C19. What a request is answered from the index is what the whole list answers, with the same filters for prereleases and
    release dates and the matcher of any backend that selects nothing beyond the shared one: for [latest] and for fuzzy
    requests, which take the version that is spelled as the request or else the last match, and for [prefix:], which takes the
    last match. A list that has a version named [latest] has it in the part as well. *)
Theorem index_answer_agrees (t : IndexTool) (L : list VersionInfo) (want : bool) (selects : str -> bool) (query : str)
    (pick : IndexPick) (before : option Z) (answer : str)
    (Hwf : is_well_formed t = true) (Hrep : represents t L)
    (Hshared : query <> u!"latest" -> forall v, selects v = true -> v = query \/ fuzzy_version_matches query v = true)
    (Hlatest : query = u!"latest" -> query ∈ map v_version L -> query ∈ map e_version t.(versions))
    (Hanswer : resolve_in_versions_index from_millisecond parse_into_timestamp want (List.filter selects) t query pick before = Some answer) :
  list_answer query pick (list_matches want selects L before) = Some answer.
Proof.
  unfold resolve_in_versions_index in Hanswer.
  change (List.filter selects (map v_version _)) with (list_matches want selects (version_infos from_millisecond t) before) in Hanswer.
  pose proof (spelled_in_part t L Hrep want selects query before) as Hspelled.
  assert (list_matches want selects (version_infos from_millisecond t) before `sublist_of` list_matches want selects L before) as Hsub.
  { rewrite !list_matches_attrs. apply map_sublist, filter_keeps_sublist, Hrep. }
  unfold index_resolve in Hanswer. destruct (last (list_matches _ _ (version_infos _ t) _)) as [w|] eqn:Elast; [|done].
  destruct (match pick with PickRequest => _ | PickLast => _ end) eqn:Epick.
  { destruct pick; [|done]. injection Hanswer as <-. apply bool_decide_eq_true_1 in Epick. unfold list_answer, find_match_in_list.
    rewrite bool_decide_eq_true_2; [done|]. by apply (sublist_elem_of _ _ _ Hsub). }
  destruct (count t =? length (versions t)) eqn:Ecount.
  { injection Hanswer as <-. apply Nat.eqb_eq in Ecount. rewrite (rep_count _ _ Hrep) in Ecount.
    assert (list_matches want selects (version_infos from_millisecond t) before = list_matches want selects L before) as <-.
    { rewrite !list_matches_attrs. f_equal. f_equal. apply sublist_same_length; [apply Hrep|]. unfold version_infos. rewrite !length_map. lia. }
    unfold list_answer, find_match_in_list. destruct pick; [by rewrite Epick|done]. }
  destruct (covered_from t query) as [from|] eqn:Efrom; [|done].
  destruct (list_find _ (versions t)) as [[position e]|] eqn:Efind; [|done]. destruct (Nat.leb_spec from position) as [Hle|]; [|done].
  injection Hanswer as <-. apply list_find_Some in Efind as (Hpos & Hname & _).
  assert (last (list_matches want selects L before) = Some w) as Hw.
  { rewrite list_matches_attrs in Elast |- *. change (fmap (M := list) (fun a : str * option Z * bool => a.1.1)) with (map (fun a : str * option Z * bool => a.1.1)) in *.
    rewrite (fmap_last (fun a : str * option Z * bool => a.1.1)) in Elast |- *.
    destruct (last (List.filter _ (map attrs (version_infos _ t)))) as [x|] eqn:Ex; [|done]. injection Elast as <-.
    rewrite (covered_last t L Hrep want selects query before Hshared from position x Hwf Efrom Hle); [done| |done].
    assert (x ∈ map attrs (version_infos from_millisecond t)) as Hx by (by apply last_Some_elem_of, elem_of_filter_bool in Ex as [? _]).
    unfold version_infos in *. rewrite map_map in *. apply list_elem_of_fmap in Hx as (e' & -> & He').
    change (map (fun x => attrs (version_info from_millisecond x)) (versions t)) with ((fun x => attrs (version_info from_millisecond x)) <$> versions t).
    rewrite list_lookup_fmap, Hpos. cbn. f_equal. f_equal. f_equal. apply list_elem_of_lookup in He' as [j Hj].
    assert (position = j) as ->; [|congruence]. assert (NoDup (map e_version (versions t))) as Hnd.
    { unfold is_well_formed in Hwf. by apply andb_true_iff in Hwf as [_ Hnd%bool_decide_eq_true_1]. }
    eapply (NoDup_lookup _ _ _ _ Hnd); change (map e_version (versions t)) with (e_version <$> versions t); rewrite list_lookup_fmap; [by rewrite Hpos|rewrite Hj; cbn; by f_equal]. }
  unfold list_answer, find_match_in_list. destruct pick; [|done]. rewrite bool_decide_eq_false_2; [done|].
  intros Hin. apply bool_decide_eq_false in Epick. apply Epick. by apply (Hspelled from).
Qed.

End Contract.
(** ** One download *)

Section Downloads.

Context (fresh_duration : Z) (writable : bool) (server : option str -> Response).

Record Ask := mkAsk { a_tool : str; a_refresh : bool; a_window : option Z; a_now : Z }.

Definition ask (p : Process) (a : Ask) : Process :=
  (get_index fresh_duration writable server a.(a_tool) a.(a_refresh) a.(a_window) a.(a_now) p).2.

Definition start (d : Disk) : Process := mkProcess None false ∅ 0 d.

(** Where a process stands: no request yet, one that failed, or one whose index is from a time that may still be used. *)
Definition settled (recent : Z -> Prop) (p : Process) : Prop :=
  p.(fetches) = 0 \/
  (p.(fetches) = 1 /\
    (p.(failed) = true \/ exists l, p.(loaded) = Some l /\ l.(l_past_fresh) = false /\ recent l.(l_validated))).

(** An ask that the index of a settled process answers. *)
Lemma ask_settled (recent recent' : Z -> Prop) p a :
  settled recent p -> (forall v, recent v -> recent' v) -> recent' a.(a_now) ->
  (a.(a_refresh) = false \/ forall v, recent v -> (v <= a.(a_now) < v + REFRESH_REUSES_COPIES_NEWER_THAN)%Z) ->
  settled recent' (ask p a).
Proof.
  intros [H0|(H1 & Hp)] Hmono Hnow Ha; unfold ask, get_index.
  - destruct (failed p) eqn:Ef; [by left|].
    assert (settled recent' (load_index fresh_duration writable server (a_tool a) (a_refresh a) (a_window a) (a_now a) p).2) as Hload.
    { unfold load_index. destruct (read_fresh_copy _ _ _ _ _) as [copy|]; [by left|]. cbv zeta. destruct (size _ <=? 1); [by left|].
      destruct (fetch _ _ _ _) as [[index|] d]; right; (split; [cbn; by rewrite H0|]); [|by left].
      right. eexists. split; [done|]. by split. }
    destruct (loaded p) as [l|] eqn:El; [|done]. destruct (usable _ _ _ _); [by left|done].
  - destruct Hp as [Hf|(l & El & Hpast & Hrecent)]; [rewrite Hf; right; by auto|].
    destruct (failed p) eqn:Ef; [right; by auto|]. rewrite El.
    assert (usable l (a_now a) (a_refresh a) (a_window a) = true) as ->.
    { unfold usable. rewrite Hpast. destruct (a_refresh a) eqn:Er; [|done]. destruct Ha as [Ha|Ha]; [done|]. destruct (Ha _ Hrecent) as [Hl1 Hl2].
      unfold elapsed. apply Z.leb_le in Hl1. rewrite Hl1. apply Z.ltb_lt. lia. }
    right. split; [done|]. right. exists l. split_and!; [done|done|by apply Hmono].
Qed.

Lemma settled_once recent p : settled recent p -> p.(fetches) <= 1.
Proof. intros [H|[H _]]; lia. Qed.

Lemma asks_without_refresh (asks : list Ask) p :
  settled (fun _ => True) p -> Forall (fun a => a.(a_refresh) = false) asks -> (foldl ask p asks).(fetches) <= 1.
Proof.
  intros Hp Ha. revert p Hp. induction Ha as [|a asks Hr Ha IH]; intros p Hp; [by eapply settled_once|]. apply IH.
  by apply (ask_settled (fun _ => True)); auto.
Qed.

Lemma asks_in_time t0 last (asks : list Ask) p :
  settled (fun v => t0 <= v <= last)%Z p -> (t0 <= last)%Z -> HdRel Z.le last (map a_now asks) -> Sorted Z.le (map a_now asks) ->
  Forall (fun a => t0 <= a.(a_now) < t0 + REFRESH_REUSES_COPIES_NEWER_THAN)%Z asks -> (foldl ask p asks).(fetches) <= 1.
Proof.
  intros Hp Hlast Hhd Hs Ha. revert p last Hp Hlast Hhd Hs. induction Ha as [|a asks Ht Ha IH]; intros p last Hp Hlast Hhd Hs; [by eapply settled_once|].
  cbn [map] in *. apply Sorted_inv in Hs as [Hs Hhd']. apply HdRel_inv in Hhd. apply (IH _ (a_now a)); [|lia|done..].
  apply (ask_settled (fun v => t0 <= v <= last)%Z); [done|intros v ?; lia|lia|right; intros v ?; lia].
Qed.

Lemma same_tool_no_fetch tool p a :
  p.(fetches) = 0 -> p.(asked) ⊆ {[tool]} -> a.(a_tool) = tool -> (ask p a).(fetches) = 0 /\ (ask p a).(asked) ⊆ {[tool]}.
Proof.
  intros H0 Hs Ht. unfold ask, get_index. destruct (failed p); [done|].
  assert (let q := (load_index fresh_duration writable server (a_tool a) (a_refresh a) (a_window a) (a_now a) p).2 in q.(fetches) = 0 /\ q.(asked) ⊆ {[tool]}) as Hload.
  { unfold load_index. destruct (read_fresh_copy _ _ _ _ _) as [copy|]; [done|]. cbv zeta. rewrite Ht.
    assert ({[tool]} ∪ asked p ⊆ {[tool]}) as Hsub by set_solver. assert (size ({[tool]} ∪ asked p) <= 1) as Hsize.
    { etrans; [by apply subseteq_size|]. by rewrite size_singleton. }
    apply Nat.leb_le in Hsize. rewrite Hsize. done. }
  destruct (loaded p); [|done]. destruct (usable _ _ _ _); done.
Qed.

Lemma same_tool_asks tool (asks : list Ask) p :
  p.(fetches) = 0 -> p.(asked) ⊆ {[tool]} -> Forall (fun a => a.(a_tool) = tool) asks -> (foldl ask p asks).(fetches) = 0.
Proof.
  intros H0 Hs Ha. revert p H0 Hs. induction Ha as [|a asks Ht Ha IH]; intros p H0 Hs; [done|].
  destruct (same_tool_no_fetch tool p a H0 Hs Ht) as [? ?]. by apply IH.
Qed.

(** C30. A command that needs the list of one tool never downloads the index, however often it asks; any command requests it at
    most once, a failure included, as long as no tool asks for a refresh, or everything is asked within the five minutes
    for which a refresh accepts a copy. *)
Theorem index_requested_once (d : Disk) (asks : list Ask)
    (Hasks : Forall (fun a => a.(a_refresh) = false) asks \/
             exists t0, Sorted Z.le (map a_now asks) /\
               Forall (fun a => t0 <= a.(a_now) < t0 + REFRESH_REUSES_COPIES_NEWER_THAN)%Z asks) :
  let p := foldl ask (start d) asks in
  p.(fetches) <= 1 /\ ((exists tool, Forall (fun a => a.(a_tool) = tool) asks) -> p.(fetches) = 0).
Proof.
  cbv zeta. split.
  - destruct Hasks as [Hr|(t0 & Hs & Ht)]; [apply asks_without_refresh; [by left|done]|].
    destruct asks as [|a asks]; [cbn; lia|]. apply (asks_in_time t0 t0); [by left|lia| |done|done].
    cbn [map]. constructor. apply Forall_cons in Ht as [? _]. lia.
  - intros [tool Ht]. apply (same_tool_asks tool); [done|set_solver|done].
Qed.

End Downloads.

(** ** Examples *)

Definition sample_list : list VersionInfo :=
  map (fun p => mkVersionInfo p.1 (Some u!"2026-01-01") None false None p.2)
    [(u!"1.0.0", None); (u!"1.1.0", None); (u!"1.2.0-rc1", Some true); (u!"2.0.0", None); (u!"2.1.0", None)].

(** Without the first version; [1] selects everything from [1.1.0] on that it selects at all. *)
Definition sample_tool : IndexTool :=
  mkIndexTool 5 1 [mkEntry u!"1.1.0" 7 0; mkEntry u!"1.2.0-rc1" 7 2; mkEntry u!"2.0.0" 7 0; mkEntry u!"2.1.0" 7 0] {[u!"1" := 0]}.

Definition sample_date (ms : Z) : option str := Some u!"2026-01-01".
Definition sample_parse_date (s : str) : option Z := Some 7%Z.

Lemma sample_represents : represents sample_date sample_parse_date sample_tool sample_list.
Proof.
  constructor.
  - reflexivity.
  - apply (bool_decide_unpack _). vm_compute. exact I.
  - cbn. repeat constructor.
  - exists [attrs sample_parse_date (mkVersionInfo u!"1.0.0" (Some u!"2026-01-01") None false None None);
            attrs sample_parse_date (mkVersionInfo u!"1.1.0" (Some u!"2026-01-01") None false None None)]. vm_compute. reflexivity.
  - intros P i e pre v post HP He HL Hin _. change (({[u!"1" := 0]} : gmap str nat) !! P = Some i) in HP.
    apply lookup_singleton_Some in HP as [<- <-]. injection He as <-.
    destruct pre as [|? [|? [|? [|? [|? [|? pre]]]]]]; cbn in HL; injection HL; intros; subst; try discriminate;
      try (apply (bool_decide_unpack _); vm_compute; exact I).
    exfalso. revert Hin. apply (bool_decide_unpack _). vm_compute. exact I.
  - intros P i HP Hin. change (({[u!"1" := 0]} : gmap str nat) !! P = Some i) in HP. apply lookup_singleton_Some in HP as [<- <-].
    exfalso. revert Hin. apply (bool_decide_unpack _). vm_compute. exact I.
Qed.

Definition sample_selects (query v : str) : bool := fuzzy_match_by query (fun v => contains_str u!"-rc" v) v.

Lemma sample_shared query : query <> u!"latest" -> forall v, sample_selects query v = true -> v = query \/ fuzzy_version_matches query v = true.
Proof.
  intros _ v. unfold sample_selects, fuzzy_match_by. case_bool_decide; [by left|]. destruct (contains_str _ v); [done|]. by right.
Qed.

Example index_answer_agrees_witness :
  list_answer u!"1" PickRequest (list_matches sample_parse_date false (sample_selects u!"1") sample_list (Some 9%Z)) = Some u!"1.1.0".
Proof.
  apply (index_answer_agrees sample_date sample_parse_date sample_tool sample_list false (sample_selects u!"1") u!"1" PickRequest (Some 9%Z) u!"1.1.0");
    [vm_compute; reflexivity|exact sample_represents|exact (sample_shared u!"1")|discriminate|vm_compute; reflexivity].
Defined.

(** What the markers do not cover is left to the list. *)
Example uncovered_unanswered :
  resolve_in_versions_index sample_date sample_parse_date false (List.filter (sample_selects u!"2")) sample_tool u!"2" PickRequest None = None.
Proof. vm_compute. reflexivity. Qed.

Definition sample_server (tag : option str) : Response := OkResponse u!"tag" (Some ∅).

Definition sample_asks : list Ask := [mkAsk u!"node" false None 10; mkAsk u!"go" false None 11; mkAsk u!"node" false None 900].

Example index_requested_once_witness :
  (foldl (ask 3600 true sample_server) (start (mkDisk None None)) sample_asks).(fetches) = 1 /\
  (foldl (ask 3600 true sample_server) (start (mkDisk None None)) sample_asks).(fetches) <= 1.
Proof.
  split; [vm_compute; reflexivity|]. apply (index_requested_once 3600 true sample_server (mkDisk None None) sample_asks).
  left. repeat constructor.
Defined.
