(* ===== verification/ReleaseAge.v ===== *)
(** * Release-age cutoffs ([src/install_before.rs], [crates/mise-util/src/duration.rs])

    [minimum_release_age] hides releases that are too new: an age or a date, of the request, the configuration or
    built in, becomes a point in time. Times and durations are nanoseconds. What [jiff] parses and computes with
    calendar spans is a parameter. *)

From S2P Require Import Prelude RustStr Decimals ToolOptions ToolRequest.

Definition SECOND : Z := 1000000000.
Definition HOURLY : Z := 3600 * SECOND.
Definition DAILY : Z := 24 * HOURLY.

Definition elapsed_seconds_ceil (from to : Z) : Z := if (to <=? from)%Z then 0%Z else ((to - from + 999999999) / 1000000000)%Z.

Definition DEFAULT_MINIMUM_RELEASE_AGE : str := u!"24h".
Definition DISABLED_MINIMUM_RELEASE_AGE_CUTOFF : str := u!"2099-01-01".
Definition RELEASE_AGE_LIST_WINDOW_MIN : Z := HOURLY.
Definition RELEASE_AGE_LIST_WINDOW_MAX : Z := 24 * HOURLY.
Definition LISTED_SNAPSHOT_LAG : Z := HOURLY.

(** [saturating_sub] of durations, which are not negative, and [clamp]. *)
Definition duration_saturating_sub (a b : Z) : Z := Z.max 0 (a - b).
Definition clamp (lo hi x : Z) : Z := if (x <? lo)%Z then lo else if (hi <? x)%Z then hi else x.

Definition list_window_for_cutoff (cutoff now : Z) : Z :=
  let age := if (cutoff <=? now)%Z then (now - cutoff)%Z else 0%Z in
  clamp RELEASE_AGE_LIST_WINDOW_MIN RELEASE_AGE_LIST_WINDOW_MAX (duration_saturating_sub age LISTED_SNAPSHOT_LAG).

Inductive BeforeDateSource : Type := Provided | Explicit | Default.

#[export] Instance BeforeDateSource_eq_dec : EqDecision BeforeDateSource.
Proof. solve_decision. Defined.

Inductive AgeError : Type := NegativeDuration (s : str) | InvalidDate (s : str) | OutOfRange | NotANumber.

#[export] Instance AgeError_eq_dec : EqDecision AgeError.
Proof. solve_decision. Defined.

Definition canonical_backend_full (backend : str) : str :=
  match strip_prefix u!"pipx:" backend with Some name => u!"pypi:" ++ name | None => backend end.

Record AgeSettings := mkAgeSettings {
  set_minimum_release_age : option str;
  minimum_release_age_excludes : list str;
  fetch_remote_versions_cache_set : bool;
  set_prefer_offline : bool;
  remote_fetch_command : bool
}.

Definition release_age_list_window_applies (s : AgeSettings) : bool :=
  negb s.(fetch_remote_versions_cache_set) && negb s.(set_prefer_offline) && negb s.(remote_fetch_command).

(** [jiff]: the parsers of spans, timestamps, zoned times and of dates, the last with the end of that day in UTC; the
    length of a span from 2025-01-01 on; a time plus or minus a span in UTC; the times that it can represent. *)
Class Calendar (Span : Type) := {
  parse_span : str -> option Span;
  parse_timestamp : str -> option Z;
  parse_zoned : str -> option Z;
  parse_date : str -> option (option Z);
  to_duration : Span -> option Z;
  checked_add : Z -> Span -> option Z;
  checked_sub : Z -> Span -> option Z;
  from_nanosecond : Z -> option Z
}.

Section Spans.

Context {Span : Type} `{Calendar Span}.

Context (process_now : Z).

Definition parse_duration (s : str) : result AgeError Z :=
  match parse_span s with
  | Some span =>
      match to_duration span with
      | Some duration => if (duration <? 0)%Z then Err (NegativeDuration s) else Ok (Z.abs duration)
      | None => Err OutOfRange
      end
  | None => match parse_u64 s with Some secs => Ok (Z.of_N secs * SECOND)%Z | None => Err NotANumber end
  end.

Definition parse_into_timestamp (s : str) : result AgeError Z :=
  match parse_timestamp s with
  | Some ts => Ok ts
  | None =>
  match parse_zoned s with
  | Some ts => Ok ts
  | None =>
  match parse_date s with
  | Some (Some ts) => Ok ts
  | Some None => Err OutOfRange
  | None =>
  match parse_span s with
  | Some span =>
      match to_duration span with
      | Some duration =>
          if (duration <? 0)%Z then Err (NegativeDuration s)
          else match checked_sub process_now span with Some past => Ok past | None => Err OutOfRange end
      | None => Err OutOfRange
      end
  | None => Err (InvalidDate s)
  end end end end.

(** ** The cutoff of a tool *)

Definition is_zero_duration (s : str) : bool := match parse_duration s with Ok 0%Z => true | _ => false end.

Section Cutoffs.

Context (settings : AgeSettings).

(** An age that is configured: no cutoff for a zero one. *)
Definition explicit_cutoff (before : str) : result AgeError (option (Z * BeforeDateSource * option str)) :=
  if is_zero_duration before then Ok None
  else let? ts := parse_into_timestamp before in Ok (Some (ts, Explicit, Some before)).

Definition resolve_before_date_with_excludes (for_backend : bool) (before_date : option Z) (minimum_release_age : option str)
    (excluded : bool) : result AgeError (option (Z * BeforeDateSource * option str)) :=
  match before_date with
  | Some before_date => Ok (Some (before_date, Provided, None))
  | None =>
  match minimum_release_age with
  | Some before => explicit_cutoff before
  | None =>
  match (if excluded then None else settings.(set_minimum_release_age)) with
  | Some before => explicit_cutoff before
  | None =>
      if negb excluded && for_backend then
        let? ts := parse_into_timestamp DEFAULT_MINIMUM_RELEASE_AGE in Ok (Some (ts, Default, Some DEFAULT_MINIMUM_RELEASE_AGE))
      else Ok None
  end end end.

Definition timestamp_of (r : result AgeError (option (Z * BeforeDateSource * option str))) : result AgeError (option Z) :=
  let? found := r in Ok ((fun x => x.1.1) <$> found).

Definition resolve_before_date (before_date : option Z) (minimum_release_age : option str) : result AgeError (option Z) :=
  timestamp_of (resolve_before_date_with_excludes false before_date minimum_release_age false).

Definition resolve_cli_minimum_release_age (minimum_release_age : option str) : result AgeError (option Z) :=
  if match minimum_release_age with Some age => is_zero_duration age | None => false end then
    let? ts := parse_into_timestamp DISABLED_MINIMUM_RELEASE_AGE_CUTOFF in Ok (Some ts)
  else timestamp_of (resolve_before_date_with_excludes false None minimum_release_age true).

Section Tools.

Context {BA : Type} `{BackendArg BA} (backend_type : BA -> str).

(** The name that an exclusion has to spell besides the short one. *)
Definition excludable_name (ba : BA) : str :=
  if contains_char c!":" (short ba) then
    canonical_backend_full (match split_bracketed_opts (short ba) with Some (name, _) => name | None => short ba end)
  else canonical_backend_full (full_without_opts ba).

Definition excludes_tool (ba : BA) (exclude : str) : bool :=
  let exclude := canonical_backend_full (trim exclude) in
  if bool_decide (exclude = []) then false
  else bool_decide (exclude = canonical_backend_full (short ba)) || bool_decide (exclude = excludable_name ba)
       || bool_decide (exclude = backend_type ba ++ u!":*").

Definition is_minimum_release_age_excluded (ba : BA) : bool := existsb (excludes_tool ba) settings.(minimum_release_age_excludes).

Definition resolve_before_date_for_tool_with_source (ba : BA) (before_date : option Z) (minimum_release_age : option str) :
    result AgeError (option (Z * BeforeDateSource)) :=
  let? found := resolve_before_date_with_excludes true before_date minimum_release_age (is_minimum_release_age_excluded ba) in
  Ok (fst <$> found).

Definition resolve_before_date_for_tool (ba : BA) (before_date : option Z) (minimum_release_age : option str) : result AgeError (option Z) :=
  let? found := resolve_before_date_for_tool_with_source ba before_date minimum_release_age in Ok (fst <$> found).

Definition effective_minimum_release_age_for_tool (ba : BA) (minimum_release_age : option str) : option str :=
  match resolve_before_date_with_excludes true None minimum_release_age (is_minimum_release_age_excluded ba) with
  | Ok (Some (_, _, age)) => age
  | _ => None
  end.

Definition minimum_release_age_label (ba : BA) (minimum_release_age : option str) (before : Z) : option str :=
  age ← effective_minimum_release_age_for_tool ba minimum_release_age;
  match parse_into_timestamp age with Ok resolved => if (resolved =? before)%Z then Some age else None | _ => None end.

(** [get_tool_opts_with_overrides] is the configuration's. *)
Definition resolve_before_date_for_backend (ba : BA) (get_tool_opts_with_overrides : result AgeError ToolOptions) (before_date : option Z) :
    result AgeError (option Z) :=
  if opt_is_some before_date then resolve_before_date before_date None
  else let? o := get_tool_opts_with_overrides in resolve_before_date_for_tool ba None (minimum_release_age o).

Definition effective_latest_before_date (ba : BA) (o : ToolOptions) (before_date : option Z) : result AgeError (option Z) :=
  if opt_is_some before_date then Ok before_date else resolve_before_date_for_tool ba None (minimum_release_age o).

Definition release_age_list_window_for_cutoff (cutoff : Z) : option Z :=
  if release_age_list_window_applies settings then Some (list_window_for_cutoff cutoff process_now) else None.

(** [cli] is the cutoff of the command's own flag. *)
Definition release_age_list_window (cli : option Z) (ba : BA) (minimum_release_age : option str) : option Z :=
  if negb (release_age_list_window_applies settings) then None
  else match cli with
       | Some cutoff => release_age_list_window_for_cutoff cutoff
       | None =>
           match resolve_before_date_for_tool ba None minimum_release_age with
           | Ok (Some cutoff) => release_age_list_window_for_cutoff cutoff
           | _ => None
           end
       end.

End Tools.

End Cutoffs.

(** ** When a release becomes eligible *)

Definition release_is_eligible_at (created_at now : Z) (age : Span) : bool :=
  match checked_sub now age with Some cutoff => (created_at <? cutoff)%Z | None => false end.

Fixpoint bisect_eligible (fuel : nat) (created_at : Z) (age : Span) (low high : Z) : result AgeError (option Z) :=
  match fuel with
  | O => OutOfFuel
  | S fuel =>
      if (low <? high)%Z then
        let mid := (low + (high - low) / 2)%Z in
        match from_nanosecond mid with
        | None => Ok None
        | Some mid =>
            if release_is_eligible_at created_at mid age then bisect_eligible fuel created_at age low mid
            else bisect_eligible fuel created_at age (mid + 1) high
        end
      else Ok (from_nanosecond high)
  end.

(** Enough for a search between the two. *)
Definition bisect_fuel (low high : Z) : nat := S (S (Z.to_nat (Z.log2 (high - low)))).

(** Steps of a day until the release is eligible, then the search. *)
Fixpoint search_days (days : nat) (created_at high : Z) (age : Span) : result AgeError (option Z) :=
  match days with
  | O => Ok None
  | S days =>
      if release_is_eligible_at created_at high age then bisect_eligible (bisect_fuel created_at high) created_at age created_at high
      else match from_nanosecond (high + DAILY) with Some high => search_days days created_at high age | None => Ok None end
  end.

Definition release_eligible_at (created_at : Z) (age : str) : result AgeError (option Z) :=
  match parse_span age with
  | None => Ok None
  | Some span =>
  match to_duration span with
  | None => Ok None
  | Some duration =>
      if (duration <? 0)%Z then Ok None
      else match checked_add created_at span with
           | None => Ok None
           | Some high => search_days 370 created_at high span
           end
  end end.

(** [strftime] with a date and with a date and time. *)
Definition format_hidden_release_details (format_day format_minute : Z -> str) (created_at : option Z) (age : option str) :
    result AgeError (str * str) :=
  let age_fragment := match age with Some age => u!" (" ++ age ++ u!")" | None => [] end in
  match created_at with
  | None => Ok ([], age_fragment)
  | Some created =>
      let? eligible_at := match age with Some age => release_eligible_at created age | None => Ok None end in
      Ok (match eligible_at with
          | Some at_ => u!" (released " ++ format_day created ++ u!", eligible " ++ format_minute at_ ++ u!")"
          | None => u!" (released " ++ format_day created ++ u!")"
          end, age_fragment)
  end.

End Spans.
