(* ===== verification/ReleaseAgeSpec.v ===== *)
(** * What release-age cutoffs promise

    The time that a message names for a hidden release is one at which it becomes eligible, and cutoffs follow their
    precedence. *)

From S2P Require Import Prelude RustStr Decimals ToolOptions ToolRequest ReleaseAge.

Section Eligible.

Context {Span : Type} `{Calendar Span}.

(** The times that can be represented are those of a range; a span that is not negative leads forward. *)
Context (min max : Z) (Hrange : forall z, from_nanosecond z = if ((min <=? z) && (z <=? max))%Z then Some z else None).
Context (Hforward : forall span d t high, to_duration span = Some d -> (0 <= d)%Z -> checked_add t span = Some high -> (t <= high)%Z).

Abbreviation eligible created t span := (release_is_eligible_at created t span = true).

(** A time from which on the release is eligible, while just before it is not. *)
Definition becomes_eligible (created : Z) (span : Span) (t : Z) : Prop :=
  (created <= t)%Z /\ eligible created t span /\ (t = created \/ ~ eligible created (t - 1)%Z span).

Lemma in_range z : (min <= z <= max)%Z -> from_nanosecond z = Some z.
Proof. intros [H1 H2]. rewrite Hrange. apply Z.leb_le in H1 as ->, H2 as ->. done. Qed.

Lemma bisect_eligible_spec n created span low high :
  (min <= low <= high)%Z -> (high <= max)%Z -> (created <= low)%Z -> (high - low < 2 ^ Z.of_nat n)%Z ->
  eligible created high span -> (low = created \/ ~ eligible created (low - 1)%Z span) ->
  exists t, bisect_eligible (S n) created span low high = Ok (Some t) /\ (t <= high)%Z /\ becomes_eligible created span t.
Proof.
  revert low high. induction n as [|n IH]; intros low high Hlow Hhigh Hcr Hgap Hel Hbefore.
  { cbn in Hgap. assert (low = high) as -> by lia. exists high. cbn [bisect_eligible]. rewrite Z.ltb_irrefl, in_range by lia. by split_and!. }
  cbn [bisect_eligible]. destruct (Z.ltb_spec low high) as [Hlt|Hge].
  2:{ assert (low = high) as -> by lia. exists high. rewrite in_range by lia. by split_and!. }
  rewrite Nat2Z.inj_succ, Z.pow_succ_r in Hgap by lia.
  pose proof (Z.div_mod (high - low) 2 ltac:(lia)) as Hdiv. pose proof (Z.mod_pos_bound (high - low) 2 ltac:(lia)) as Hmod.
  set (half := ((high - low) / 2)%Z) in *. rewrite in_range by lia. destruct (release_is_eligible_at created (low + half) span) eqn:Em.
  - destruct (IH low (low + half)%Z) as (t & Ht & Hle & Hb); [lia..|done|done|]. exists t. split; [exact Ht|]. split; [lia|done].
  - apply IH; [lia..|done|]. right. replace (low + half + 1 - 1)%Z with (low + half)%Z by lia. by rewrite Em.
Qed.

Lemma bisect_fuel_enough low high : (low <= high)%Z -> (high - low < 2 ^ Z.of_nat (S (Z.to_nat (Z.log2 (high - low)))))%Z.
Proof.
  intros Hle. pose proof (Z.log2_nonneg (high - low)). rewrite Nat2Z.inj_succ, Z2Nat.id by done.
  destruct (decide (low = high)) as [->|Hne]; [rewrite Z.sub_diag; done|]. apply Z.log2_spec. lia.
Qed.

Lemma search_days_spec days created high span :
  (min <= created <= high)%Z -> (high <= max)%Z ->
  match search_days days created high span with
  | Ok (Some t) => becomes_eligible created span t
  | Ok None => forall k, k < days -> (high + Z.of_nat k * DAILY <= max)%Z -> ~ eligible created (high + Z.of_nat k * DAILY)%Z span
  | _ => False
  end /\
  forall k, k < days -> (high + Z.of_nat k * DAILY <= max)%Z -> eligible created (high + Z.of_nat k * DAILY)%Z span ->
    exists t, search_days days created high span = Ok (Some t) /\ (t <= high + Z.of_nat k * DAILY)%Z.
Proof.
  assert (0 < DAILY)%Z as HD by done. revert high. induction days as [|days IH]; intros high Hc Hmax.
  { cbn. split; [intros k Hk; lia|intros k Hk; lia]. }
  cbn [search_days]. destruct (release_is_eligible_at created high span) eqn:Eh.
  { destruct (bisect_eligible_spec (S (Z.to_nat (Z.log2 (high - created)))) created span created high) as (t & Ht & Hle & Hb); [lia..| |done|by left|].
    { apply bisect_fuel_enough. lia. }
    unfold bisect_fuel. rewrite Ht. split; [done|]. intros k Hk Hkm _. exists t. split; [done|]. nia. }
  rewrite Hrange. destruct (Z.leb_spec min (high + DAILY)); [|lia]. destruct (Z.leb_spec (high + DAILY) max) as [Hd|Hd]; cbn [andb].
  - destruct (IH (high + DAILY)%Z) as [H1 H2]; [lia..|]. split.
    + destruct (search_days days created (high + DAILY) span) as [[t|]| |]; [done| |done..]. intros [|k] Hk Hkm; [by rewrite Z.mul_0_l, Z.add_0_r, Eh|].
      specialize (H1 k ltac:(lia)). by replace (high + Z.of_nat (S k) * DAILY)%Z with (high + DAILY + Z.of_nat k * DAILY)%Z in * by lia; apply H1.
    + intros [|k] Hk Hkm Hek; [rewrite Z.mul_0_l, Z.add_0_r in Hek; congruence|].
      replace (high + Z.of_nat (S k) * DAILY)%Z with (high + DAILY + Z.of_nat k * DAILY)%Z in * by lia. apply (H2 k); [lia|done..].
  - split; intros [|k] Hk Hkm; rewrite ?Z.mul_0_l, ?Z.add_0_r in *; [by rewrite Eh|nia|congruence|nia].
Qed.

(** C29. The time that is named as the one at which a hidden release becomes eligible is such: the release is eligible then and one
    nanosecond earlier it is not; where a release stays eligible it is the first such time. Some time is named whenever the release
    is eligible at one of the ends of the days that are tried, and the search always ends. (The time of the release itself
    needs no time before it.) *)
Theorem eligible_time_exact (created : Z) (age : str) (span : Span) (duration high : Z)
    (Hcreated : (min <= created)%Z) (Hspan : parse_span age = Some span) (Hduration : to_duration span = Some duration) (Hnonneg : (0 <= duration)%Z)
    (Hhigh : checked_add created span = Some high) (Hmax : (high <= max)%Z) :
  match release_eligible_at created age with
  | Ok (Some t) =>
      becomes_eligible created span t /\
      ((forall t1 t2, (created <= t1 <= t2)%Z -> eligible created t1 span -> eligible created t2 span) ->
       forall t', (created <= t' < t)%Z -> ~ eligible created t' span)
  | Ok None => forall k, k < 370 -> (high + Z.of_nat k * DAILY <= max)%Z -> ~ eligible created (high + Z.of_nat k * DAILY)%Z span
  | _ => False
  end.
Proof.
  unfold release_eligible_at. rewrite Hspan, Hduration, Hhigh. destruct (Z.ltb_spec duration 0); [lia|].
  pose proof (Hforward _ _ _ _ Hduration Hnonneg Hhigh). destruct (search_days_spec 370 created high span) as [Hs _]; [lia..|].
  destruct (search_days 370 created high span) as [[t|]| |]; [|done..]. split; [done|]. intros Hmono t' Ht' He. destruct Hs as (Hle & Ht & [->|Hb]); [lia|].
  apply Hb, (Hmono t'); [lia|done].
Qed.

End Eligible.

(** A list that is reused within its window misses nothing that the cutoff lets through, if the cutoff is two hours or more:
    what is not in it came out at most the lag before the list was read. *)
Lemma window_hides_unlisted (cutoff read now released : Z) :
  (2 * HOURLY <= read - cutoff)%Z -> (read - LISTED_SNAPSHOT_LAG <= released)%Z ->
  (now - read <= list_window_for_cutoff cutoff read)%Z -> (now - (read - cutoff) <= released)%Z.
Proof.
  unfold list_window_for_cutoff, clamp, duration_saturating_sub, RELEASE_AGE_LIST_WINDOW_MIN, RELEASE_AGE_LIST_WINDOW_MAX, LISTED_SNAPSHOT_LAG.
  assert (0 < HOURLY)%Z by done. intros H1 H2. destruct (Z.leb_spec cutoff read); [|lia]. rewrite Z.max_r by lia.
  destruct (Z.ltb_spec (read - cutoff - HOURLY) HOURLY); [lia|]. destruct (Z.ltb_spec (24 * HOURLY) (read - cutoff - HOURLY)); lia.
Qed.

(** ** Examples *)

(** Spans of a fixed length, the sample of three days. *)
#[local] Instance FixedSpans : Calendar Z := {
  parse_span s := if bool_decide (s = u!"3d") then Some (3 * DAILY)%Z else None; parse_timestamp _ := None; parse_zoned _ := None; parse_date _ := None;
  to_duration d := Some d; checked_add t d := Some (t + d)%Z; checked_sub t d := Some (t - d)%Z;
  from_nanosecond z := if ((0 <=? z) && (z <=? 10 * DAILY))%Z then Some z else None
}.

Example eligible_time_exact_witness :
  match release_eligible_at HOURLY u!"3d" with
  | Ok (Some t) =>
      becomes_eligible HOURLY (3 * DAILY)%Z t /\
      ((forall t1 t2, (HOURLY <= t1 <= t2)%Z -> release_is_eligible_at HOURLY t1 (3 * DAILY)%Z = true -> release_is_eligible_at HOURLY t2 (3 * DAILY)%Z = true) ->
       forall t', (HOURLY <= t' < t)%Z -> ~ release_is_eligible_at HOURLY t' (3 * DAILY)%Z = true)
  | Ok None => forall k, k < 370 -> (HOURLY + 3 * DAILY + Z.of_nat k * DAILY <= 10 * DAILY)%Z -> ~ release_is_eligible_at HOURLY (HOURLY + 3 * DAILY + Z.of_nat k * DAILY) (3 * DAILY)%Z = true
  | _ => False
  end /\ release_eligible_at HOURLY u!"3d" = Ok (Some (HOURLY + 3 * DAILY + 1)%Z).
Proof.
  split; [|vm_compute; reflexivity].
  apply (@eligible_time_exact Z FixedSpans 0 (10 * DAILY) (fun z => eq_refl)) with (duration := (3 * DAILY)%Z); [|done..].
  intros span d t high Hd Hpos Hadd. injection Hd as ->. injection Hadd as <-. lia.
Defined.
