(* ===== verification/VersionSelect.v ===== *)
(** * Selecting a version under a release-age cutoff ([src/backend/mod.rs])

    A backend lists versions, of which it may have dated only a part. A request takes the last of the versions that it
    matches. The cutoff hides what is too new: what the listing dates is filtered, and where it does not, dates are asked
    for one at a time, in a search for where the hidden versions at the end of the list begin. *)

From S2P Require Import Prelude RustStr Toml ToolOptions ToolRequest VersionMatch VersionIndex ReleaseAge.

Inductive SelectError : Type :=
| Failed (message : str)
| CutoffFailed (e : AgeError)
| OutOfBounds.

(** ** What a backend provides *)

Record Backend := mkBackend {
  full : str;
  include_prereleases : ToolOptions -> bool;
  is_backend_prerelease : str -> bool;
  is_rolling_channel : str -> bool;
  version_order : ToolOptions -> result str VersionOrder;
  fuzzy_match_filter : list str -> str -> bool -> list str;
  fuzzy_match_stays_within_shared_matcher : bool;
  remote_version_listing_tool_option_keys : list str;
  versions_host_tool : option str;
  version_listing_failed : bool;
  has_cache_context : ToolOptions -> bool;
  cache_has_fresh_value : bool;
  (** The options that shape the list and those that select from it, refreshing, and whether the user changed the former. *)
  list_remote : ToolOptions -> ToolOptions -> bool -> bool -> result str (list VersionInfo);
  (** An error or the date, if there is one; also of what was asked before, since answers change. *)
  fetch_version_created_at : list str -> str -> str + option str;
  latest_stable_version_info_before : option Z -> result str (option VersionInfo);
  latest_stable_version_info : result str (option VersionInfo);
  latest_stable_version : result str (option str)
}.

Definition is_truthy (value : str) : bool := bool_decide (map to_ascii_lowercase (trim value) ∈ [u!"true"; u!"1"]).
Definition is_falsey (value : str) : bool := bool_decide (map to_ascii_lowercase (trim value) ∈ [u!"false"; u!"0"]).

Definition parse_bool_str (value : str) : option bool :=
  if is_truthy value then Some true else if is_falsey value then Some false else None.

Definition bool_value (value : Value) : option bool :=
  match value with
  | VBoolean b => Some b
  | VString s => parse_bool_str s
  | VInteger 0 => Some false
  | VInteger 1 => Some true
  | _ => None
  end.

Definition bool_value_or_default (value : Value) (default : bool) : bool :=
  match bool_value value with Some b => b | None => default end.

(** [Backend::include_prereleases], where a backend does not replace it. *)
Definition default_include_prereleases (setting : bool) (o : ToolOptions) : bool :=
  if setting then true
  else match o.(opts) !! u!"prerelease" with Some value => bool_value_or_default value false | None => false end.

(** [Backend::version_order], where a backend does not replace it. *)
Definition default_version_order (backend_type : str) (o : ToolOptions) : result str VersionOrder :=
  match o.(opts) !! u!"version_order" with
  | Some _ => Err (backend_type ++ u!" backend does not support version_order")
  | None => Ok OrderSource
  end.

Definition VERSIONS_HOST_LOCAL_OPT_SOURCES : list ToolOptionSource := [InstallManifest; BackendAlias; Config; InlineBackendArg].

Definition has_local_version_listing_option_override (resolved_opts : ResolvedToolOptions) (keys : list str) : bool :=
  has_any_key_from_sources resolved_opts keys VERSIONS_HOST_LOCAL_OPT_SOURCES.

(** ** Dates that were read one at a time *)

Section Tables.

Context {V : Type}.

(** An [IndexMap] in its order. *)
Fixpoint ix_insert (m : list ((str * str) * V)) (k : str * str) (v : V) : list ((str * str) * V) :=
  match m with
  | [] => [(k, v)]
  | e :: m' => if bool_decide (e.1 = k) then (k, v) :: m' else e :: ix_insert m' k v
  end.

Fixpoint ix_get (m : list ((str * str) * V)) (k : str * str) : option V :=
  match m with
  | [] => None
  | e :: m' => if bool_decide (e.1 = k) then Some e.2 else ix_get m' k
  end.

Definition ix_remove (m : list ((str * str) * V)) (k : str * str) : list ((str * str) * V) :=
  List.filter (fun e => negb (bool_decide (e.1 = k))) m.

Fixpoint evict_oldest_release_dates (dates : list ((str * str) * V)) (limit : nat) : list ((str * str) * V) :=
  match dates with
  | [] => []
  | _ :: dates' => if limit <=? length dates then evict_oldest_release_dates dates' limit else dates
  end.

End Tables.

Definition ON_DEMAND_RELEASE_DATE_LIMIT : nat := 1024.

(** The tables of a run, the versions whose dates were asked for, latest first, and the copy of the versions index. *)
Record Session := mkSession {
  on_demand : list ((str * str) * str);
  undated : list ((str * str) * (Z * option str));
  looked_up : list str;
  index_copy : Process
}.

Definition on_demand_release_date (s : Session) (backend version : str) : option str := ix_get s.(on_demand) (backend, version).

Definition remember_on_demand_release_date (backend version : str) (created_at : option str) (s : Session) : Session :=
  match created_at with
  | None => s
  | Some created_at =>
      mkSession (ix_insert (evict_oldest_release_dates s.(on_demand) ON_DEMAND_RELEASE_DATE_LIMIT) (backend, version) created_at)
        s.(undated) s.(looked_up) s.(index_copy)
  end.

Definition note_undated_release (tool version : str) (before : Z) (lookup_error : option str) (s : Session) : Session :=
  mkSession s.(on_demand)
    (ix_insert (evict_oldest_release_dates s.(undated) ON_DEMAND_RELEASE_DATE_LIMIT) (tool, version) (before, lookup_error))
    s.(looked_up) s.(index_copy).

Definition clear_undated_release (tool version : str) (s : Session) : Session :=
  mkSession s.(on_demand) (ix_remove s.(undated) (tool, version)) s.(looked_up) s.(index_copy).

(** What an install of the version warns about. *)
Definition unchecked_release (s : Session) (tool version : str) : option (Z * option str) := ix_get s.(undated) (tool, version).

Definition log_lookup (version : str) (s : Session) : Session :=
  mkSession s.(on_demand) s.(undated) (version :: s.(looked_up)) s.(index_copy).

Definition with_index (p : Process) (s : Session) : Session := mkSession s.(on_demand) s.(undated) s.(looked_up) p.

(** ** Selection *)

Definition rposition {A} (f : A -> bool) (l : list A) : option nat :=
  match list_find (fun x => f x = true) (rev l) with Some (i, _) => Some (length l - 1 - i) | None => None end.

Record HostSettings := mkHostSettings { use_versions_host : bool; set_offline : bool; host_prefer_offline : bool }.

Section Select.

Context {Span : Type} `{Calendar Span} (process_now : Z) (age_settings : AgeSettings) (host : HostSettings).
Context {BA : Type} `{BackendArg BA} (backend_type : BA -> str) (ba : BA) (B : Backend).
(** The options of the tool, by [Config::resolve_tool_opts_with_overrides]. *)
Context (resolved : result str ResolvedToolOptions).
(** [VERSION_REGEX.is_match], versions of the [semver] crate and their order, [Timestamp::from_millisecond] *)
Context (VERSION_REGEX : str -> bool).
Context {Semver : Type} (parse_semver : str -> option Semver) (cmp_precedence : Semver -> Semver -> comparison).
Context (from_millisecond : Z -> option str).
(** For the versions index: how long its copy is fresh, whether it can be stored, the server, the time. *)
Context (fresh_duration : Z) (writable : bool) (server : option str -> Response) (wall_now : Z).

Let M := SE Session SelectError.

Definition parse_date_string (s : str) : option Z := match parse_into_timestamp process_now s with Ok ts => Some ts | _ => None end.

Definition lift_str {A} (r : result str A) : M A :=
  match r with Ok a => se_ret a | Err e => se_fail (Failed e) | OutOfFuel => se_fuel end.

Definition lift_age {A} (r : result AgeError A) : M A :=
  match r with Ok a => se_ret a | Err e => se_fail (CutoffFailed e) | OutOfFuel => se_fuel end.

(** [list_remote_versions_with_info_with_selection_options] *)
Definition list_with_info (o : ToolOptions) (refresh : bool) : M (list VersionInfo) :=
  let* resolved_opts := lift_str resolved in
  let has_override := has_local_version_listing_option_override resolved_opts B.(remote_version_listing_tool_option_keys) in
  let* versions := lift_str (B.(list_remote) resolved_opts.(options) o refresh has_override) in
  let* order := lift_str (B.(version_order) o) in
  se_ret (order_by parse_semver cmp_precedence order v_version versions).

(** [list_remote_versions_with_selection_options] *)
Definition list_versions (o : ToolOptions) (refresh : bool) : M (list str) :=
  let* versions := list_with_info o refresh in se_ret (map v_version versions).

Definition release_date_for_cutoff (candidate : str) (before : Z) (record_unchecked : bool) : M (option str) :=
  let* s := se_get in
  let* created_at :=
    match on_demand_release_date s B.(full) candidate with
    | Some created_at => se_ret (Some created_at)
    | None =>
        let* _ := se_modify (log_lookup candidate) in
        match B.(fetch_version_created_at) s.(looked_up) candidate with
        | inr created_at =>
            let* _ := se_modify (remember_on_demand_release_date B.(full) candidate created_at) in
            let* _ := (if negb (opt_is_some created_at) && record_unchecked
                       then se_modify (note_undated_release (short ba) candidate before None) else se_ret tt) in
            se_ret created_at
        | inl err =>
            let* _ := (if record_unchecked
                       then se_modify (note_undated_release (short ba) candidate before (Some err)) else se_ret tt) in
            se_ret None
        end
    end in
  let* _ := (if opt_is_some created_at then se_modify (clear_undated_release (short ba) candidate) else se_ret tt) in
  se_ret created_at.

(** A version of which only the date is known. *)
Definition dated_version (version : str) (created_at : option str) : VersionInfo :=
  mkVersionInfo version created_at None false None None.

Definition next_probe (len lo hi : nat) (bisecting : bool) : nat :=
  if bisecting then lo + (hi - lo) / 2 else max (hi - (len - hi + 1)) lo.

(** Where the hidden candidates begin: [lo .. hi] are in question, from [hi] on all are hidden. *)
Fixpoint search_cutoff (fuel : nat) (matches : list str) (before : Z) (query : str) (lo hi : nat) (bisecting : bool) : M nat :=
  match fuel with
  | O => se_fuel
  | S fuel =>
      if lo <? hi then
        let probe := next_probe (length matches) lo hi bisecting in
        match matches !! probe with
        | None => se_fail OutOfBounds
        | Some candidate =>
            let* created_at := release_date_for_cutoff candidate before
              (negb (bool_decide (candidate = query)) || bool_decide (query = u!"latest") || B.(is_rolling_channel) query) in
            let info := dated_version candidate created_at in
            if hidden_by_date parse_date_string info before then search_cutoff fuel matches before query lo probe bisecting
            else if negb (opt_is_some (created_at_timestamp parse_date_string info)) then se_ret (probe + 1)
            else search_cutoff fuel matches before query (probe + 1) hi true
        end
      else se_ret hi
  end.

Definition drop_matches_hidden_by_cutoff (matches : list str) (before : Z) (o : ToolOptions) (query : str) : M (list str) :=
  if bool_decide (matches = []) then se_ret []
  else
    let* listed := list_with_info o false in
    let dated := map v_version (List.filter (fun v => opt_is_some v.(v_created_at)) listed) in
    let lo := match rposition (fun v => bool_decide (v ∈ dated)) matches with Some i => i + 1 | None => 0 end in
    let* hi := search_cutoff (S (length matches)) matches before query lo (length matches) false in
    se_ret (take hi matches).

(** The names that a listing gives, of those that the dates in it do not hide. *)
Definition list_admitted (o : ToolOptions) (before_date : option Z) (refresh : bool) : M (list str) :=
  match before_date with
  | Some before =>
      let* versions := list_with_info o refresh in
      se_ret (map v_version (filter_by_date parse_date_string versions before))
  | None => list_versions o refresh
  end.

(** [list_versions_matching_with_selection_options] *)
Definition list_versions_matching (query : str) (o : ToolOptions) (before_date : option Z) (refresh : bool) : M (list str) :=
  let* versions := list_admitted o before_date refresh in
  let versions := B.(fuzzy_match_filter) versions query (negb (B.(include_prereleases) o)) in
  let* order := lift_str (B.(version_order) o) in
  let versions := order_by parse_semver cmp_precedence order id versions in
  match before_date with
  | Some before => drop_matches_hidden_by_cutoff versions before o query
  | None => se_ret versions
  end.

Definition every_version_for_latest (o : ToolOptions) (before_date : option Z) (refresh : bool) : M (list str) :=
  let* versions := list_admitted o before_date refresh in
  let* order := lift_str (B.(version_order) o) in
  let versions := order_by parse_semver cmp_precedence order id versions in
  match before_date with
  | Some before => drop_matches_hidden_by_cutoff versions before o u!"latest"
  | None => se_ret versions
  end.

(** ** The versions index *)

Definition versions_index_tool (query : str) (o : ToolOptions) (refresh : bool) : result str str :=
  if negb host.(use_versions_host) || host.(set_offline) || host.(host_prefer_offline) then Err u!"the versions host is off"
  else if match B.(version_order) o with Ok OrderSource => false | _ => true end then Err u!"it is not in source order"
  else if negb (bool_decide (query = u!"latest")) && negb B.(fuzzy_match_stays_within_shared_matcher)
  then Err u!"its matcher selects more than the shared one"
  else if B.(version_listing_failed) then Err u!"listing its versions failed"
  else
    let unavailable := u!"the versions host does not serve its list" in
    match resolved with
    | Ok resolved_opts =>
        if has_local_version_listing_option_override resolved_opts B.(remote_version_listing_tool_option_keys) then Err unavailable
        else match B.(versions_host_tool) with
             | None => Err unavailable
             | Some tool =>
                 if B.(has_cache_context) resolved_opts.(options) then Err unavailable
                 else if negb refresh && B.(cache_has_fresh_value) then Err u!"its full list is cached"
                 else Ok tool
             end
    | _ => Err unavailable
    end.

Definition resolve_from_versions_index (query : str) (pick : IndexPick) (o : ToolOptions) (before_date : option Z) (refresh : bool) :
    M (option str) :=
  match versions_index_tool query o refresh with
  | Ok tool =>
      let window := before_date ≫= release_age_list_window_for_cutoff process_now age_settings in
      let* s := se_get in
      let '(index, p) := get_index fresh_duration writable server tool refresh window wall_now s.(index_copy) in
      let* _ := se_modify (with_index p) in
      let want_prereleases := B.(include_prereleases) o in
      se_ret (index ← index; entry ← index_tool index tool;
              resolve_in_versions_index from_millisecond parse_date_string want_prereleases
                (fun versions => B.(fuzzy_match_filter) versions query (negb want_prereleases)) entry query pick before_date)
  | _ => se_ret None
  end.

(** ** The latest version *)

(** [latest_version_for_query_with_selection_options] *)
Definition latest_version_for_query (query : str) (o : ToolOptions) (before_date : option Z) (refresh : bool) : M (option str) :=
  let* found := resolve_from_versions_index query PickRequest o before_date refresh in
  match found with
  | Some version => se_ret (Some version)
  | None =>
      let* matches := list_versions_matching query o before_date refresh in
      let* matches := (if bool_decide (matches = []) && bool_decide (query = u!"latest")
                       then every_version_for_latest o before_date refresh else se_ret matches) in
      se_ret (find_match_in_list matches query)
  end.

Definition is_rolling_listed_version (info : VersionInfo) (o : ToolOptions) : M bool :=
  if info.(v_rolling) then se_ret true
  else let* listed := list_with_info o false in
       se_ret (existsb (fun v => v.(v_rolling) && bool_decide (v.(v_version) = info.(v_version))) listed).

Definition should_use_latest_stable_fast_path (query : str) (o : ToolOptions) : bool :=
  bool_decide (query = u!"latest") && negb (B.(include_prereleases) o).

Definition latest_stable_candidate_allowed_by_before_date (info : option VersionInfo) (before : Z) : bool :=
  match info with
  | None => (process_now <? before)%Z
  | Some info =>
      match info.(v_created_at) with
      | None => true
      | Some created_at => match parse_date_string created_at with Some created => (created <? before)%Z | None => false end
      end
  end.

(** The backend's own choice of the latest stable version. *)
Definition latest_stable (before_date : option Z) : M (option VersionInfo) :=
  let* info := lift_str (B.(latest_stable_version_info_before) before_date) in
  match info with
  | Some info => se_ret (Some info)
  | None => let* version := lift_str B.(latest_stable_version) in se_ret ((fun v => dated_version v None) <$> version)
  end.

(** Whether the cutoff allows it, and whether a listing after it still has to be refreshed. *)
Definition stable_allowed (latest : VersionInfo) (before : Z) (o : ToolOptions) (refresh : bool) : M (bool * bool) :=
  if opt_is_some latest.(v_created_at) then se_ret (latest_stable_candidate_allowed_by_before_date (Some latest) before, refresh)
  else
    let* versions := list_with_info o refresh in
    let info := snd <$> list_find (fun v => v.(v_version) = latest.(v_version)) versions in
    match info with
    | Some info =>
        if negb (opt_is_some info.(v_created_at)) then
          let* created_at := release_date_for_cutoff latest.(v_version) before true in
          se_ret (latest_stable_candidate_allowed_by_before_date (Some (dated_version latest.(v_version) created_at)) before, false)
        else se_ret (latest_stable_candidate_allowed_by_before_date (Some info) before, false)
    | None => se_ret (latest_stable_candidate_allowed_by_before_date None before, false)
    end.

(** What the listing says of a version; a version that is listed twice has the later entry. *)
Definition flagged_info (listed : list VersionInfo) (version : str) : option VersionInfo :=
  last (List.filter (fun v => bool_decide (v.(v_version) = version)) listed).

Definition stable_by_listing (listed : list VersionInfo) (v : str) : bool :=
  let info := flagged_info listed v in
  if match info with Some i => i.(v_rolling) | None => false end then false
  else
    let stable_by_flag := match info with Some i => bool_decide (i.(v_prerelease) = Some false) | None => false end in
    (stable_by_flag || negb (VERSION_REGEX v)) && negb (B.(is_backend_prerelease) v).

(** For a tool whose releases do not start with a digit. *)
Definition latest_of_every_version (query : str) (o : ToolOptions) (before_date : option Z) (refresh : bool) : M (option str) :=
  let* listed := list_with_info o refresh in
  let* versions := every_version_for_latest o before_date refresh in
  se_ret (find_match_in_list (List.filter (stable_by_listing listed) versions) query).

(** [latest_version_with_selection_options]; the cutoff is given or the tool's own. *)
Definition latest_version (query : option str) (o : ToolOptions) (before_date : option Z) (refresh : bool) : M (option str) :=
  let* before_date := lift_age (effective_latest_before_date process_now age_settings backend_type ba o before_date) in
  let query := match query with Some query => query | None => u!"latest" end in
  let* _ := lift_str (B.(version_order) o) in
  let* latest := (if should_use_latest_stable_fast_path query o then latest_stable before_date else se_ret None) in
  match latest with
  | None => latest_version_for_query query o before_date refresh
  | Some latest =>
      match before_date with
      | None => se_ret (Some latest.(v_version))
      | Some before =>
          let* (allowed, fallback_refresh) := stable_allowed latest before o refresh in
          if allowed then se_ret (Some latest.(v_version))
          else
            let* opaque := (if fuzzy_version_matches u!"latest" latest.(v_version) then se_ret false
                            else let* rolling := is_rolling_listed_version latest o in se_ret (negb rolling)) in
            if opaque then latest_of_every_version query o before_date fallback_refresh
            else latest_version_for_query query o before_date fallback_refresh
      end
  end.

(** [latest_version_unfiltered_with_selection_options] *)
Definition latest_version_unfiltered (query : option str) (o : ToolOptions) : M (option str) :=
  let query := match query with Some query => query | None => u!"latest" end in
  let* _ := lift_str (B.(version_order) o) in
  let* stable :=
    (if should_use_latest_stable_fast_path query o then
       let* info := lift_str B.(latest_stable_version_info) in
       match info with
       | Some info => se_ret (Some info.(v_version))
       | None => lift_str B.(latest_stable_version)
       end
     else se_ret None) in
  match stable with
  | Some version => se_ret (Some version)
  | None => latest_version_for_query query o None false
  end.

(** ** What the cutoff hid *)

Definition with_on_demand_date (s : Session) (v : VersionInfo) : VersionInfo :=
  match v.(v_created_at) with
  | Some _ => v
  | None =>
      match on_demand_release_date s B.(full) v.(v_version) with
      | Some created_at => mkVersionInfo v.(v_version) (Some created_at) v.(v_release_url) v.(v_rolling) v.(v_checksum) v.(v_prerelease)
      | None => v
      end
  end.

(** [o]: [get_tool_opts_with_overrides] *)
Definition versions_hidden_by_before_date (o : ToolOptions) (query : str) (before : Z) : M (list VersionInfo) :=
  let* listed := list_with_info o false in
  let* s := se_get in
  let hidden := List.filter (fun v => match created_at_timestamp parse_date_string v with Some created => (before <=? created)%Z | None => false end)
    (map (with_on_demand_date s) listed) in
  let matched := B.(fuzzy_match_filter) (map v_version hidden) query (negb (B.(include_prereleases) o)) in
  let hidden := if bool_decide (matched = []) && bool_decide (query = u!"latest") then hidden
                else List.filter (fun v => bool_decide (v.(v_version) ∈ matched)) hidden in
  let* order := lift_str (B.(version_order) o) in
  se_ret (order_by parse_semver cmp_precedence order v_version hidden).

End Select.
