(* ===== verification/VersionSelectSpec.v ===== *)
(** * What selection under a release-age cutoff promises

    The search for where the hidden versions begin ends, asks for few dates, and is exact where releases are listed in the
    order of their dates. What is selected was checked against the cutoff, or an install of it warns. *)

From S2P Require Import Prelude RustStr Toml ToolOptions ToolRequest VersionMatch VersionIndex ReleaseAge VersionSelect Decimals.

(** ** Tables *)

Lemma ix_get_insert {V} (m : list ((str * str) * V)) k v k' : ix_get (ix_insert m k v) k' = if bool_decide (k = k') then Some v else ix_get m k'.
Proof.
  induction m as [|[k0 v0] m IH]; [done|]. cbn [ix_insert fst snd]. destruct (bool_decide_reflect (k0 = k)) as [->|Hk].
  - cbn [ix_get fst snd]. by case_bool_decide.
  - cbn [ix_get fst snd]. rewrite IH. repeat case_bool_decide; congruence.
Qed.

Section Entries.

Context {V : Type} (P : (str * str) * V -> Prop).

Lemma ix_get_Forall (m : list ((str * str) * V)) k v : Forall P m -> ix_get m k = Some v -> P (k, v).
Proof.
  induction 1 as [|[k0 v0] m H0 Hm IH]; [done|]. cbn [ix_get fst snd]. case_bool_decide as E; [|done]. by intros [= <-]; subst.
Qed.

Lemma ix_insert_Forall (m : list ((str * str) * V)) k v : Forall P m -> P (k, v) -> Forall P (ix_insert m k v).
Proof. intros Hm Hk. induction Hm as [|e m He Hm IH]; [by repeat constructor|]. cbn [ix_insert]. by case_bool_decide; constructor. Qed.

Lemma evict_Forall (m : list ((str * str) * V)) limit : Forall P m -> Forall P (evict_oldest_release_dates m limit).
Proof. intros Hm. induction Hm as [|e m He Hm IH]; [constructor|]. cbn [evict_oldest_release_dates]. destruct (limit <=? _); [done|by constructor]. Qed.

End Entries.

(** ** Order *)

Lemma insert_semver_perm {A Semver} (cmp : Semver -> Semver -> comparison) (x : A * Semver) l : insert_semver cmp x l ≡ₚ x :: l.
Proof.
  induction l as [|y l IH]; [done|]. cbn [insert_semver]. destruct (cmp x.2 y.2); [|done|]; rewrite IH; apply Permutation_swap.
Qed.

Lemma sort_semver_perm {A Semver} (cmp : Semver -> Semver -> comparison) (xs acc : list (A * Semver)) :
  foldl (fun l x => insert_semver cmp x l) acc xs ≡ₚ acc ++ xs.
Proof.
  revert acc. induction xs as [|x xs IH]; intros acc; [by rewrite app_nil_r|]. cbn [foldl]. rewrite IH, insert_semver_perm.
  by rewrite <- (Permutation_middle acc xs x).
Qed.

(** An order changes places and nothing else. *)
Lemma order_by_perm {A Semver} (parse : str -> option Semver) (cmp : Semver -> Semver -> comparison) order (version : A -> str) values :
  order_by parse cmp order version values ≡ₚ values.
Proof.
  destruct order; [done|]. cbn [order_by]. rewrite sort_semver_perm. cbn [app].
  induction values as [|v values IH]; [done|]. cbn [List.filter omap list_omap]. destruct (parse _) as [p|]; cbn [opt_is_some negb fmap option_fmap option_map].
  - cbn [map fst]. rewrite <- Permutation_middle. by f_equiv.
  - cbn [app]. by f_equiv.
Qed.

(** ** A run *)

(** A computation that leaves the session as it is. *)
Definition reads {A} (m : SE Session SelectError A) (r : result SelectError A) : Prop := forall s, m s = (r, s).

Lemma reads_bind {A B} (m : SE Session SelectError A) (k : A -> SE Session SelectError B) r :
  reads m r -> (forall a, exists r', reads (k a) r') -> exists r', reads (se_bind m k) r'.
Proof.
  intros Hm Hk. destruct r as [a|e|].
  - destruct (Hk a) as [r' Hr']. exists r'. intros s. unfold se_bind. by rewrite Hm.
  - exists (Err e). intros s. unfold se_bind. by rewrite Hm.
  - exists OutOfFuel. intros s. unfold se_bind. by rewrite Hm.
Qed.

Lemma reads_lift_str {A} (r : result str A) : exists r', reads (lift_str r) r'.
Proof. destruct r; by eexists. Qed.

Lemma rposition_boundary {A} (f : A -> bool) (pre suf : list A) :
  (pre = [] \/ exists x, last pre = Some x /\ f x = true) -> Forall (fun x => f x = false) suf ->
  match rposition f (pre ++ suf) with Some i => i + 1 | None => 0 end = length pre.
Proof.
  intros Hpre Hsuf. unfold rposition. rewrite rev_app_distr. rewrite length_app.
  assert (list_find (fun x => f x = true) (rev suf) = None) as Hnone.
  { apply list_find_None. apply Forall_rev. eapply Forall_impl; [exact Hsuf|]. intros x Hx. cbn. by rewrite Hx. }
  destruct Hpre as [->|(x & Hx & Hf)]; [by rewrite app_nil_r, Hnone|].
  rewrite (list_find_app_r _ _ _ Hnone). destruct pre as [|y pre _] using rev_ind; [done|]. rewrite last_snoc in Hx. injection Hx as ->.
  rewrite rev_app_distr. cbn [rev app list_find]. rewrite decide_True by done. cbn. rewrite length_rev, length_app. cbn. lia.
Qed.

(** ** One date *)

Section Search.

Context {Span : Type} `{Calendar Span} (process_now : Z) {BA : Type} `{BackendArg BA} (ba : BA) (B : Backend).

(** Whether a date is known to be past the cutoff. *)
Definition too_new (before : Z) (date : option str) : bool :=
  match date with
  | Some d => match parse_into_timestamp process_now d with Ok ts => (before <=? ts)%Z | _ => false end
  | None => false
  end.

Lemma hidden_too_new v before : hidden_by_date (parse_date_string process_now) v before = too_new before v.(v_created_at).
Proof.
  unfold hidden_by_date, created_at_timestamp, too_new, parse_date_string. destruct (v_created_at v) as [d|]; [|done]. cbn.
  by destruct (parse_into_timestamp process_now d).
Qed.

(** The dates that the releases have, as far as one is told: no answer and no entry of the table is anything else. *)
Context (known : str -> option str).

Definition truthful (s : Session) : Prop :=
  (forall log v d, B.(fetch_version_created_at) log v = inr (Some d) -> known v = Some d)
  /\ Forall (fun e => e.1.1 = B.(full) -> known e.1.2 = Some e.2) s.(on_demand).

Record dated (candidate : str) (before : Z) (record_unchecked : bool) (s : Session) (created : option str) (s' : Session) : Prop := {
  dated_count : length s'.(looked_up) <= S (length s.(looked_up));
  dated_index : s'.(index_copy) = s.(index_copy);
  dated_truthful : truthful s -> truthful s';
  dated_known : truthful s -> forall d, created = Some d -> known candidate = Some d;
  dated_noted : created = None -> record_unchecked = true -> exists err, unchecked_release s' (short ba) candidate = Some (before, err);
  dated_found : (forall log, B.(fetch_version_created_at) log candidate = inr (known candidate)) -> truthful s -> created = known candidate
}.

Lemma truthful_remember v created s :
  truthful s -> (forall d, created = Some d -> known v = Some d) -> truthful (remember_on_demand_release_date B.(full) v created s).
Proof.
  intros [Ht Hs] Hv. destruct created as [d|]; [|done]. split; [done|]. cbn [remember_on_demand_release_date on_demand].
  apply ix_insert_Forall; [by apply evict_Forall|]. intros _. by apply Hv.
Qed.

Lemma noted_unchecked tool v before err s : unchecked_release (note_undated_release tool v before err s) tool v = Some (before, err).
Proof. unfold unchecked_release. cbn [note_undated_release undated]. rewrite ix_get_insert. by rewrite bool_decide_eq_true_2. Qed.

Lemma release_date_dated candidate before record_unchecked s :
  exists created s', release_date_for_cutoff ba B candidate before record_unchecked s = (Ok created, s') /\
    dated candidate before record_unchecked s created s'.
Proof.
  unfold release_date_for_cutoff. cbn [se_bind se_get]. destruct (on_demand_release_date s (full B) candidate) as [d|] eqn:Ed.
  { eexists _, _. split; [reflexivity|].
    assert (truthful s -> known candidate = Some d) as Hd by (intros [_ Hs]; by apply (ix_get_Forall _ _ _ _ Hs Ed)).
    constructor; cbn; [lia|done|done|intros Hs ? [= <-]; by apply Hd|done|intros _ Hs; by rewrite Hd]. }
  destruct (fetch_version_created_at B (looked_up s) candidate) as [err|[d|]] eqn:Ef.
  - destruct record_unchecked; (eexists _, _; split; [reflexivity|]);
      (constructor; [cbn; lia|done|done|done| |intros Hf; by rewrite Hf in Ef]); [|done]. intros _ _. exists (Some err). apply noted_unchecked.
  - eexists _, _. split; [reflexivity|]. assert (truthful s -> known candidate = Some d) as Hd by (intros [Ht _]; by eapply Ht).
    constructor; [cbn; lia|done| |intros Hs ? [= <-]; by apply Hd|done|intros _ Hs; by rewrite Hd].
    intros Hs. apply (truthful_remember candidate (Some d) (log_lookup candidate s)); [done|]. intros ? [= <-]. by apply Hd.
  - destruct record_unchecked; (eexists _, _; split; [reflexivity|]);
      (constructor; [cbn; lia|done|done|done| |intros Hf _; rewrite Hf in Ef; by injection Ef as ->]); [|done].
    intros _ _. exists None. apply noted_unchecked.
Qed.

(** ** The search *)

Abbreviation search := (search_cutoff process_now ba B).

Definition records (query candidate : str) : bool :=
  negb (bool_decide (candidate = query)) || bool_decide (query = u!"latest") || B.(is_rolling_channel) query.

(** One step, by the date of the candidate. *)
Lemma search_step fuel matches before query lo hi bisecting s c :
  lo < hi -> matches !! next_probe (length matches) lo hi bisecting = Some c ->
  exists created s1, dated c before (records query c) s created s1 /\
    search (S fuel) matches before query lo hi bisecting s =
    let probe := next_probe (length matches) lo hi bisecting in
    if too_new before created then search fuel matches before query lo probe bisecting s1
    else if match created with Some d => match parse_into_timestamp process_now d with Ok _ => false | _ => true end | None => true end
         then (Ok (probe + 1), s1)
    else search fuel matches before query (probe + 1) hi true s1.
Proof.
  intros Hlt Hc. destruct (release_date_dated c before (records query c) s) as (created & s1 & Hr & Hd). exists created, s1. split; [done|].
  cbn [search_cutoff]. apply Nat.ltb_lt in Hlt as ->. cbv zeta. rewrite Hc. rewrite (se_bind_ok _ _ _ _ _ Hr). rewrite hidden_too_new. cbn [dated_version v_created_at].
  destruct (too_new before created); [done|]. unfold created_at_timestamp, parse_date_string. cbn [dated_version v_created_at].
  destruct created as [d|]; cbn; [|done]. by destruct (parse_into_timestamp process_now d).
Qed.

Lemma next_probe_range len lo hi bisecting : lo < hi -> hi <= len -> lo <= next_probe len lo hi bisecting < hi.
Proof.
  intros Hlt Hle. unfold next_probe. destruct bisecting.
  - pose proof (Nat.Div0.div_lt_upper_bound (hi - lo) 2 (hi - lo)) as Hd. lia.
  - lia.
Qed.

Lemma probe_in_range (matches : list str) lo hi bisecting :
  lo < hi -> hi <= length matches -> exists c, matches !! next_probe (length matches) lo hi bisecting = Some c.
Proof. intros Hlt Hle. apply lookup_lt_is_Some_2. pose proof (next_probe_range (length matches) lo hi bisecting). lia. Qed.

Lemma search_done fuel matches before query lo bisecting s : search (S fuel) matches before query lo lo bisecting s = (Ok lo, s).
Proof. cbn [search_cutoff]. by rewrite Nat.ltb_irrefl. Qed.

Lemma search_total fuel matches before query lo hi bisecting s :
  lo <= hi -> hi <= length matches -> hi - lo < fuel -> exists h s', search fuel matches before query lo hi bisecting s = (Ok h, s') /\ lo <= h.
Proof.
  revert lo hi bisecting s. induction fuel as [|fuel IH]; intros lo hi bisecting s Hle Hlen Hfuel; [lia|].
  destruct (decide (lo = hi)) as [->|Hne]; [exists hi, s; by rewrite search_done|]. assert (lo < hi) as Hlt by lia.
  destruct (probe_in_range matches lo hi bisecting Hlt Hlen) as [c Hc].
  destruct (search_step fuel matches before query lo hi bisecting s c Hlt Hc) as (created & s1 & _ & ->). cbv zeta.
  pose proof (next_probe_range (length matches) lo hi bisecting Hlt Hlen) as Hp. destruct (too_new _ _); [apply IH; lia|].
  destruct (match created with Some _ => _ | None => _ end); [eexists _, _; split; [done|lia]|].
  destruct (IH (next_probe (length matches) lo hi bisecting + 1) hi true s1) as (h & s' & -> & Hh); [lia..|]. eexists _, _. split; [done|lia].
Qed.

(** What is known of a candidate that the search kept: its date, or that an install of it warns, or that it was asked for. *)
Definition checked (query : str) (before : Z) (s : Session) (c : str) : Prop :=
  (exists d, known c = Some d /\ too_new before (Some d) = false)
  \/ records query c = false
  \/ exists err, unchecked_release s (short ba) c = Some (before, err).

Lemma search_checked fuel matches before query lo hi bisecting s :
  truthful s -> lo <= hi -> hi <= length matches -> hi - lo < fuel ->
  exists h s', search fuel matches before query lo hi bisecting s = (Ok h, s') /\ lo <= h <= hi /\ truthful s' /\ s'.(index_copy) = s.(index_copy) /\
    (h = lo \/ exists c, matches !! (h - 1) = Some c /\ checked query before s' c).
Proof.
  revert lo hi bisecting s. induction fuel as [|fuel IH]; intros lo hi bisecting s Hs Hle Hlen Hfuel; [lia|].
  destruct (decide (lo = hi)) as [->|Hne]; [exists hi, s; rewrite search_done; split_and!; auto; lia|]. assert (lo < hi) as Hlt by lia.
  destruct (probe_in_range matches lo hi bisecting Hlt Hlen) as [c Hc].
  destruct (search_step fuel matches before query lo hi bisecting s c Hlt Hc) as (created & s1 & Hd & ->). cbv zeta.
  pose proof (next_probe_range (length matches) lo hi bisecting Hlt Hlen) as Hp. set (probe := next_probe _ _ _ _) in *.
  pose proof (dated_truthful _ _ _ _ _ _ Hd Hs) as Hs1. pose proof (dated_index _ _ _ _ _ _ Hd) as Hi1.
  destruct (too_new before created) eqn:Enew.
  { destruct (IH lo probe bisecting s1) as (h & s' & -> & Hh & Hs' & Hi & Hv); [done|lia..|]. exists h, s'. split_and!; [done|lia|lia|done|congruence|done]. }
  destruct created as [d|].
  - assert (checked query before s1 c) as Hc1 by (left; exists d; split; [by apply (dated_known _ _ _ _ _ _ Hd Hs)|done]).
    destruct (parse_into_timestamp process_now d) eqn:Ep.
    + destruct (IH (probe + 1) hi true s1) as (h & s' & -> & Hh & Hs' & Hi & Hv); [done|lia..|]. exists h, s'.
      split_and!; [done|lia|lia|done|congruence|]. right. destruct Hv as [->|Hv]; [|done]. exists c. rewrite Nat.add_sub. split; [done|].
      left. exists d. split; [by apply (dated_known _ _ _ _ _ _ Hd Hs)|done].
    + eexists _, _. split_and!; [reflexivity|lia|lia|done|done|]. right. exists c. by rewrite Nat.add_sub.
    + eexists _, _. split_and!; [reflexivity|lia|lia|done|done|]. right. exists c. by rewrite Nat.add_sub.
  - eexists _, _. split_and!; [reflexivity|lia|lia|done|done|]. right. exists c. rewrite Nat.add_sub. split; [done|].
    destruct (records query c) eqn:Er; [|right; by left]. right. right. by apply (dated_noted _ _ _ _ _ _ Hd).
Qed.

(** ** Few dates are asked for *)

Lemma bisect_lookups k fuel matches before query lo hi s :
  lo <= hi -> hi <= length matches -> hi - lo < fuel -> hi - lo < 2 ^ k ->
  length (search fuel matches before query lo hi true s).2.(looked_up) <= length s.(looked_up) + k.
Proof.
  revert k lo hi s. induction fuel as [|fuel IH]; intros k lo hi s Hle Hlen Hfuel Hk; [lia|].
  destruct (decide (lo = hi)) as [->|Hne]; [rewrite search_done; cbn; lia|]. assert (lo < hi) as Hlt by lia.
  destruct k as [|k]; [cbn in Hk; lia|]. rewrite Nat.pow_succ_r' in Hk.
  destruct (probe_in_range matches lo hi true Hlt Hlen) as [c Hc].
  destruct (search_step fuel matches before query lo hi true s c Hlt Hc) as (created & s1 & Hd & ->). cbv zeta.
  unfold next_probe. pose proof (Nat.div_mod_eq (hi - lo) 2) as Hdiv. pose proof (Nat.mod_upper_bound (hi - lo) 2 ltac:(lia)) as Hmod.
  pose proof (dated_count _ _ _ _ _ _ Hd) as Hcount. destruct (too_new before created).
  { pose proof (IH k lo (lo + (hi - lo) / 2) s1). lia. }
  destruct (match created with Some _ => _ | None => _ end); [cbn; lia|]. pose proof (IH k (lo + (hi - lo) / 2 + 1) hi s1). lia.
Qed.

Lemma gallop_lookups j fuel matches before query lo hi s :
  lo < hi -> hi <= length matches -> hi - lo < fuel -> S (length matches - hi) = 2 ^ j ->
  length (search fuel matches before query lo hi false s).2.(looked_up) + j <= length s.(looked_up) + 2 * Nat.log2 (length matches - lo) + 1.
Proof.
  revert j hi s. induction fuel as [|fuel IH]; intros j hi s Hlt Hlen Hfuel Hj; [lia|].
  assert (j <= Nat.log2 (length matches - lo)) as Hlog by (apply Nat.log2_le_pow2; lia).
  destruct (probe_in_range matches lo hi false Hlt Hlen) as [c Hc].
  destruct (search_step fuel matches before query lo hi false s c Hlt Hc) as (created & s1 & Hd & ->). cbv zeta.
  pose proof (dated_count _ _ _ _ _ _ Hd) as Hcount. unfold next_probe. destruct (too_new before created).
  - destruct (decide (lo = max (hi - (length matches - hi + 1)) lo)) as [<-|Hne].
    + destruct fuel as [|fuel]; [lia|]. rewrite search_done. cbn. lia.
    + pose proof (IH (S j) (max (hi - (length matches - hi + 1)) lo) s1) as Hr. rewrite Nat.pow_succ_r' in Hr. lia.
  - destruct (match created with Some _ => _ | None => _ end); [cbn; lia|].
    pose proof (bisect_lookups j fuel matches before query (max (hi - (length matches - hi + 1)) lo + 1) hi s1). lia.
Qed.

(** ** Where the order is the one of the dates *)

Definition hidden_candidate (before : Z) (c : str) : bool := too_new before (known c).

Lemma filter_none {A} (f : A -> bool) (l : list A) : Forall (fun x => f x = false) l -> List.filter f l = [].
Proof. induction 1 as [|x l Hx Hl IH]; [done|]. cbn. by rewrite Hx. Qed.

Lemma search_exact fuel matches before query lo hi bisecting s :
  truthful s -> lo <= hi -> hi <= length matches -> hi - lo < fuel ->
  (forall i c, lo <= i -> matches !! i = Some c -> exists d ts, known c = Some d /\ parse_into_timestamp process_now d = Ok ts /\
     forall log, B.(fetch_version_created_at) log c = inr (Some d)) ->
  (forall i j c c', lo <= i -> i <= j -> matches !! i = Some c -> matches !! j = Some c' -> hidden_candidate before c = true -> hidden_candidate before c' = true) ->
  exists h s', search fuel matches before query lo hi bisecting s = (Ok h, s') /\ lo <= h <= hi /\
    (forall i c, lo <= i -> i < h -> matches !! i = Some c -> hidden_candidate before c = false) /\
    (forall i c, h <= i -> i < hi -> matches !! i = Some c -> hidden_candidate before c = true).
Proof.
  intros Hs Hle Hlen Hfuel Hdates Hmono. revert lo hi bisecting s Hs Hle Hlen Hfuel Hdates Hmono.
  induction fuel as [|fuel IH]; intros lo hi bisecting s Hs Hle Hlen Hfuel Hdates Hmono; [lia|].
  destruct (decide (lo = hi)) as [->|Hne]; [exists hi, s; rewrite search_done; split_and!; auto; lia|]. assert (lo < hi) as Hlt by lia.
  destruct (probe_in_range matches lo hi bisecting Hlt Hlen) as [c Hc].
  destruct (search_step fuel matches before query lo hi bisecting s c Hlt Hc) as (created & s1 & Hd & ->). cbv zeta.
  pose proof (next_probe_range (length matches) lo hi bisecting Hlt Hlen) as Hp. set (probe := next_probe _ _ _ _) in *.
  pose proof (dated_truthful _ _ _ _ _ _ Hd Hs) as Hs1. destruct (Hdates probe c) as (d & ts & Hk & Hts & Hf); [lia|done|].
  assert (created = Some d) as ->. { rewrite <- Hk. apply (dated_found _ _ _ _ _ _ Hd); [|done]. intros log. by rewrite Hk. }
  destruct (too_new before (Some d)) eqn:Enew.
  - destruct (IH lo probe bisecting s1) as (h & s' & -> & Hh & Hlow & Hhigh); [done|lia..|done|done|]. exists h, s'. split_and!; [done|lia|lia|done|].
    intros i c' Hi1 Hi2 Hc'. destruct (decide (i < probe)); [by apply (Hhigh i c')|]. apply (Hmono probe i c c'); [lia|lia|done|done|].
    unfold hidden_candidate. by rewrite Hk.
  - rewrite Hts. destruct (IH (probe + 1) hi true s1) as (h & s' & -> & Hh & Hlow & Hhigh); [done|lia..| | |].
    { intros i c' Hi. apply Hdates. lia. } { intros i i' c1 c2 Hi. apply Hmono. lia. }
    exists h, s'. split_and!; [done|lia|lia| |done]. intros i c' Hi1 Hi2 Hc'. destruct (decide (probe < i)); [apply (Hlow i c'); auto; lia|].
    apply not_true_is_false. intros Hh'. assert (hidden_candidate before c = true) as Hx by (apply (Hmono i probe c' c); auto; lia).
    unfold hidden_candidate in Hx. rewrite Hk in Hx. congruence.
Qed.

End Search.

Lemma split_at_last {A} (f : A -> bool) (l : list A) :
  exists pre suf, l = pre ++ suf /\ (pre = [] \/ exists x, last pre = Some x /\ f x = true) /\ Forall (fun x => f x = false) suf.
Proof.
  induction l as [|x l IH] using rev_ind; [by exists [], []; auto|]. destruct (f x) eqn:Ex.
  - exists (l ++ [x]), []. rewrite app_nil_r. split_and!; [done| |done]. right. exists x. by rewrite last_snoc.
  - destruct IH as (pre & suf & -> & Hpre & Hsuf). exists pre, (suf ++ [x]). rewrite app_assoc. split_and!; [done..|].
    apply Forall_app. auto.
Qed.

(** ** Selection *)

Section Selection.

Context {Span : Type} `{Calendar Span} (process_now : Z) (age_settings : AgeSettings) (host : HostSettings).
Context {BA : Type} `{BackendArg BA} (backend_type : BA -> str) (ba : BA) (B : Backend) (resolved : result str ResolvedToolOptions).
Context (VERSION_REGEX : str -> bool).
Context {Semver : Type} (parse_semver : str -> option Semver) (cmp_precedence : Semver -> Semver -> comparison).
Context (from_millisecond : Z -> option str).
Context (fresh_duration : Z) (writable : bool) (server : option str -> Response) (wall_now : Z).

Abbreviation listing := (list_with_info B resolved parse_semver cmp_precedence).
Abbreviation drop_hidden := (drop_matches_hidden_by_cutoff process_now ba B resolved parse_semver cmp_precedence).

Lemma listing_reads o refresh : exists r, reads (listing o refresh) r.
Proof.
  unfold list_with_info. destruct (reads_lift_str resolved) as [r Hr]. eapply reads_bind; [exact Hr|]. intros ro.
  destruct (reads_lift_str (list_remote B (options ro) o refresh
    (has_local_version_listing_option_override ro (remote_version_listing_tool_option_keys B)))) as [r2 Hr2].
  eapply reads_bind; [exact Hr2|]. intros versions. destruct (reads_lift_str (version_order B o)) as [r3 Hr3].
  eapply reads_bind; [exact Hr3|]. intros order. by eexists.
Qed.

(** Whether a listing gives the version a date. *)
Definition listed_date (listed : list VersionInfo) (v : str) : bool :=
  existsb (fun i => bool_decide (i.(v_version) = v) && opt_is_some i.(v_created_at)) listed.

Lemma listed_date_true listed v : listed_date listed v = true <-> exists i d, i ∈ listed /\ i.(v_version) = v /\ i.(v_created_at) = Some d.
Proof.
  unfold listed_date. rewrite existsb_exists. split.
  - intros (i & Hi%list_elem_of_In & [Hv Hd]%andb_true_iff). apply bool_decide_eq_true_1 in Hv. destruct (v_created_at i) as [d|] eqn:E; [|done]. eauto.
  - intros (i & d & Hi & Hv & Hd). exists i. split; [by apply list_elem_of_In|]. by rewrite bool_decide_eq_true_2, Hd.
Qed.

Lemma drop_hidden_search o query before listed (pre suf : list str) s :
  listing o false s = (Ok listed, s) -> (pre = [] \/ exists x, last pre = Some x /\ listed_date listed x = true) ->
  Forall (fun x => listed_date listed x = false) suf -> pre ++ suf <> [] ->
  drop_hidden (pre ++ suf) before o query s =
  se_bind (search_cutoff process_now ba B (S (length (pre ++ suf))) (pre ++ suf) before query (length pre) (length (pre ++ suf)) false)
    (fun hi => se_ret (take hi (pre ++ suf))) s.
Proof.
  intros Hl Hpre Hsuf Hne. unfold drop_matches_hidden_by_cutoff. rewrite bool_decide_eq_false_2 by done.
  rewrite (se_bind_ok _ _ _ _ _ Hl). cbv zeta. do 2 f_equal.
  replace (length pre) with (match rposition (listed_date listed) (pre ++ suf) with Some i => i + 1 | None => 0 end)
    by (by apply rposition_boundary).
  assert (forall v, bool_decide (v ∈ map v_version (List.filter (fun v => opt_is_some v.(v_created_at)) listed)) = listed_date listed v) as Heq.
  { intros v. apply eq_true_iff_eq. rewrite bool_decide_eq_true, listed_date_true, list_elem_of_fmap. split.
    - intros (i & -> & [Hi Hd]%elem_of_filter_bool). destruct (v_created_at i) as [d|] eqn:E; [|done]. eauto.
    - intros (i & d & Hi & <- & Hd). exists i. split; [done|]. apply elem_of_filter_bool. by rewrite Hd. }
  unfold rposition. rewrite (list_find_ext _ (fun x => listed_date listed x = true)); [done|]. intros x. by rewrite Heq.
Qed.

Lemma take_from_prefix (pre suf : list str) h : length pre <= h -> take h (pre ++ suf) = pre ++ take (h - length pre) suf.
Proof. intros Hh. by rewrite take_app, take_ge. Qed.

Lemma prefix_take_str (l : list str) n : take n l `prefix_of` l.
Proof. exists (drop n l). by rewrite take_drop. Qed.

(** C21. The candidates behind the last one that the listing dates are searched for where the hidden ones begin. The search ends,
    never leaves the list, keeps a first part of them, and of [u] candidates asks for at most [2 * log2 u + 1] dates,
    whatever the dates are and whichever lookups fail. *)
Theorem cutoff_search_bounded (o : ToolOptions) (query : str) (before : Z) (listed : list VersionInfo) (pre suf : list str) (s : Session)
    (Hlisted : listing o false s = (Ok listed, s))
    (Hpre : pre = [] \/ exists x, last pre = Some x /\ listed_date listed x = true)
    (Hsuf : Forall (fun x => listed_date listed x = false) suf) :
  exists n s', drop_hidden (pre ++ suf) before o query s = (Ok (pre ++ take n suf), s') /\
    length s'.(looked_up) <= length s.(looked_up) + match suf with [] => 0 | _ => 2 * Nat.log2 (length suf) + 1 end.
Proof.
  destruct (decide (pre ++ suf = [])) as [[-> ->]%app_eq_nil|Hne]; [exists 0, s; split; [done|lia]|].
  rewrite (drop_hidden_search o query before listed) by done. set (matches := pre ++ suf) in *.
  assert (length matches = length pre + length suf) as Hlen by apply length_app.
  destruct suf as [|x suf].
  { cbn [length] in Hlen. replace (length matches) with (length pre) by lia. unfold se_bind. rewrite search_done. exists 0, s. split; [|cbn; lia].
    unfold se_ret, matches. by rewrite !app_nil_r, take_ge by lia. }
  destruct (search_total process_now ba B (fun _ => None) (S (length matches)) matches before query (length pre) (length matches) false s)
    as (h & s' & Hrun & Hh); [lia..|].
  unfold se_bind. rewrite Hrun. exists (h - length pre), s'. split; [unfold se_ret, matches; by rewrite take_from_prefix|].
  pose proof (gallop_lookups process_now ba B (fun _ => None) 0 (S (length matches)) matches before query (length pre) (length matches) s) as Hg.
  rewrite Hrun in Hg. cbn [snd] in Hg. replace (length matches - length pre) with (length (x :: suf)) in Hg by lia.
  rewrite Nat.sub_diag in Hg. assert (0 < length (x :: suf)) by (cbn; lia). specialize (Hg ltac:(lia) ltac:(lia) ltac:(lia) eq_refl). lia.
Qed.

(** C20. Where the dates of the candidates behind the last dated one can be read and grow with the order, as far as the cutoff
    tells them apart, exactly those that the cutoff hides are dropped, whatever dates an earlier selection has stored. *)
Theorem cutoff_search_exact (known : str -> option str) (o : ToolOptions) (query : str) (before : Z) (listed : list VersionInfo)
    (pre suf : list str) (s : Session)
    (Hlisted : listing o false s = (Ok listed, s))
    (Hpre : pre = [] \/ exists x, last pre = Some x /\ listed_date listed x = true)
    (Hsuf : Forall (fun x => listed_date listed x = false) suf)
    (Hstored : Forall (fun e => e.1.1 = B.(full) -> known e.1.2 = Some e.2) s.(on_demand))
    (Hfetch : forall log v d, B.(fetch_version_created_at) log v = inr (Some d) -> known v = Some d)
    (Hdates : Forall (fun c => exists d ts, known c = Some d /\ parse_into_timestamp process_now d = Ok ts /\
       forall log, B.(fetch_version_created_at) log c = inr (Some d)) suf)
    (Horder : forall i j c c', i <= j -> suf !! i = Some c -> suf !! j = Some c' ->
       too_new process_now before (known c) = true -> too_new process_now before (known c') = true) :
  (drop_hidden (pre ++ suf) before o query s).1 = Ok (pre ++ List.filter (fun c => negb (too_new process_now before (known c))) suf).
Proof.
  destruct (decide (pre ++ suf = [])) as [[-> ->]%app_eq_nil|Hne]; [done|].
  rewrite (drop_hidden_search o query before listed) by done. set (matches := pre ++ suf) in *.
  assert (length matches = length pre + length suf) as Hlen by apply length_app.
  destruct (search_exact process_now ba B known (S (length matches)) matches before query (length pre) (length matches) false s)
    as (h & s' & Hrun & Hh & Hlow & Hhigh); [done|lia..| | |].
  { intros i c Hi Hc. unfold matches in Hc. rewrite lookup_app_r in Hc by done. rewrite Forall_lookup in Hdates. by apply (Hdates (i - length pre)). }
  { intros i j c c' Hi Hij Hc Hc'. unfold matches in Hc, Hc'. rewrite lookup_app_r in Hc, Hc' by lia. eapply Horder; [|exact Hc|exact Hc']. lia. }
  unfold se_bind. rewrite Hrun. cbn [fst se_ret]. unfold matches. rewrite take_from_prefix by lia. do 2 f_equal.
  rewrite <- (take_drop (h - length pre) suf) at 2. rewrite List.filter_app.
  rewrite (filter_none _ (drop _ _)), app_nil_r.
  - symmetry. apply filter_all, Forall_lookup. intros i c Hc. rewrite lookup_take_Some in Hc. destruct Hc as [Hc Hi].
    apply negb_true_iff. apply (Hlow (length pre + i) c); [lia..|]. unfold matches. by rewrite lookup_app_r, Nat.add_comm, Nat.add_sub by lia.
  - apply Forall_lookup. intros i c Hc. rewrite lookup_drop in Hc. apply negb_false_iff. pose proof (lookup_lt_Some _ _ _ Hc).
    apply (Hhigh (h + i) c); [lia..|]. unfold matches. rewrite lookup_app_r by lia. by replace (h + i - length pre) with (h - length pre + i) by lia.
Qed.

(** ** What is selected *)

(** Where a date of a version is told, or an entry without one that can be written ([None]): the listing, a lookup, the versions
    index, the backend's stable release. *)
Inductive told (known : str -> option str) (L : list VersionInfo) (query : str) (o : ToolOptions) (before : Z) (s : Session) (v : str) :
    option str -> Prop :=
| told_listed i d : i ∈ L -> i.(v_version) = v -> i.(v_created_at) = Some d -> told known L query o before s v (Some d)
| told_read d : known v = Some d -> told known L query o before s v (Some d)
| told_indexed refresh window tool index t e :
    versions_index_tool host B resolved query o refresh = Ok tool ->
    (get_index fresh_duration writable server tool refresh window wall_now s.(index_copy)).1 = Some index ->
    index_tool index tool = Some t -> e ∈ t.(versions) -> e.(e_version) = v ->
    told known L query o before s v (from_millisecond e.(e_created_at))
| told_stable i d : B.(latest_stable_version_info_before) (Some before) = Ok (Some i) -> i.(v_version) = v ->
    i.(v_created_at) = Some d -> told known L query o before s v (Some d).

(** Why a version may be selected under a cutoff. *)
Inductive admitted (known : str -> option str) (L : list VersionInfo) (query : str) (o : ToolOptions) (before : Z)
    (s s' : Session) (v : str) : Prop :=
| admitted_in_time d ts : told known L query o before s v (Some d) -> parse_into_timestamp process_now d = Ok ts -> (ts < before)%Z ->
    admitted known L query o before s s' v
| admitted_unreadable date : told known L query o before s v date ->
    (forall d ts, date = Some d -> parse_into_timestamp process_now d <> Ok ts) -> admitted known L query o before s s' v
| admitted_noted err : unchecked_release s' (short ba) v = Some (before, err) -> admitted known L query o before s s' v
| admitted_future : (process_now < before)%Z -> v ∉ map v_version L -> admitted known L query o before s s' v.

Lemma told_admitted known L query o before s s' v date :
  told known L query o before s v date -> too_new process_now before date = false -> admitted known L query o before s s' v.
Proof.
  intros Ht Hnew. unfold too_new in Hnew. destruct date as [d|].
  - destruct (parse_into_timestamp process_now d) as [ts|e|] eqn:E; [eapply admitted_in_time; [done..|by apply Z.leb_gt]| |];
      (eapply admitted_unreadable; [exact Ht|]); intros d' ts' [= <-]; congruence.
  - eapply admitted_unreadable; [exact Ht|done].
Qed.

Section Admission.

Context (known : str -> option str) (L : list VersionInfo) (o : ToolOptions) (before : Z).
Context (Hlist : forall refresh l s, listing o refresh s = (Ok l, s) -> l = L) (Hunique : NoDup (map v_version L)).
Context (Hfilter : forall l q b v, v ∈ B.(fuzzy_match_filter) l q b -> v ∈ l).

(** A candidate is listed, and no date of the listing hides it. *)
Definition candidate (v : str) : Prop := exists i, i ∈ L /\ i.(v_version) = v /\ too_new process_now before i.(v_created_at) = false.

Lemma listing_inv refresh s l s1 : listing o refresh s = (Ok l, s1) -> l = L /\ s1 = s.
Proof using Hlist.
  intros Hl. destruct (listing_reads o refresh) as [r Hr]. pose proof (Hr s) as E. rewrite Hl in E. injection E as <- ->. split; [|done].
  by apply (Hlist refresh _ s).
Qed.

Lemma list_admitted_inv refresh s vs s1 :
  list_admitted process_now B resolved parse_semver cmp_precedence o (Some before) refresh s = (Ok vs, s1) -> s1 = s /\ Forall candidate vs.
Proof using Hlist.
  cbn [list_admitted]. intros (l & s2 & [-> ->]%listing_inv & [= <- <-])%se_bind_inv. split; [done|]. apply Forall_forall.
  intros v (i & -> & [Hi Hd]%elem_of_filter_bool)%list_elem_of_fmap. exists i. split_and!; [done..|].
  unfold too_new. unfold created_at_timestamp, parse_date_string in Hd. destruct (v_created_at i) as [d|]; [|done]. cbn in Hd.
  destruct (parse_into_timestamp process_now d); [|done..]. apply Z.leb_gt. by apply Z.ltb_lt.
Qed.

Lemma drop_hidden_inv query s (vs kept : list str) s' :
  truthful B known s -> Forall candidate vs -> drop_hidden vs before o query s = (Ok kept, s') ->
  truthful B known s' /\ s'.(index_copy) = s.(index_copy) /\
  forall v, last kept = Some v -> candidate v /\ ((exists i d, i ∈ L /\ i.(v_version) = v /\ i.(v_created_at) = Some d) \/ checked process_now ba B known query before s' v).
Proof using Hlist.
  intros Hs Hvs Hrun. destruct (decide (vs = [])) as [->|Hne]; [by injection Hrun as <- <-|].
  assert (exists listed, listing o false s = (Ok listed, s)) as [listed Hl].
  { unfold drop_matches_hidden_by_cutoff in Hrun. rewrite bool_decide_eq_false_2 in Hrun by done.
    apply se_bind_inv in Hrun as (l & s1 & Hl & _). pose proof (listing_inv _ _ _ _ Hl) as [-> ->]. eauto. }
  pose proof (listing_inv _ _ _ _ Hl) as [-> _]. destruct (split_at_last (listed_date L) vs) as (pre & suf & -> & Hpre & Hsuf).
  rewrite (drop_hidden_search o query before L pre suf s Hl Hpre Hsuf Hne) in Hrun. pose proof (length_app pre suf) as Hlen.
  destruct (search_checked process_now ba B known (S (length (pre ++ suf))) (pre ++ suf) before query (length pre) (length (pre ++ suf)) false s)
    as (h & s2 & Hsearch & Hh & Hs2 & Hi & Hv); [done|lia..|].
  unfold se_bind in Hrun. rewrite Hsearch in Hrun. injection Hrun as <- <-. split_and!; [done|done|]. intros v Hlast. split.
  { rewrite Forall_forall in Hvs. apply Hvs. apply last_Some_elem_of in Hlast. rewrite <- (take_drop h (pre ++ suf)). apply elem_of_app. by left. }
  destruct Hv as [->|(c & Hc & Hchecked)].
  - left. rewrite take_app_length in Hlast. destruct Hpre as [->|(x & Hx & Hd)]; [done|]. rewrite Hlast in Hx. injection Hx as <-. by apply listed_date_true.
  - right. assert (last (take h (pre ++ suf)) = Some c) as Hlast'; [|congruence]. rewrite last_lookup, length_take.
    pose proof (lookup_lt_Some _ _ _ Hc). replace (Nat.pred (min h (length (pre ++ suf)))) with (h - 1) by lia.
    destruct h as [|h]; [|rewrite lookup_take_lt by lia; done]. cbn [take] in Hlast. done.
Qed.

(** The last of what is left is a candidate that a listing has dated or the search has checked. *)
Definition last_checked (query : str) (s s' : Session) (kept : list str) : Prop :=
  truthful B known s' /\ s'.(index_copy) = s.(index_copy) /\
  forall v, last kept = Some v -> candidate v /\ ((exists i d, i ∈ L /\ i.(v_version) = v /\ i.(v_created_at) = Some d) \/ checked process_now ba B known query before s' v).

Lemma ordered_candidates order (vs : list str) : Forall candidate vs -> Forall candidate (order_by parse_semver cmp_precedence order id vs).
Proof. intros Hvs. by rewrite order_by_perm. Qed.

Lemma list_versions_matching_inv query refresh s kept s' :
  truthful B known s -> list_versions_matching process_now ba B resolved parse_semver cmp_precedence query o (Some before) refresh s = (Ok kept, s') ->
  last_checked query s s' kept.
Proof using Hlist Hfilter.
  intros Hs. unfold list_versions_matching. intros (vs & s1 & [-> Hvs]%list_admitted_inv & Hrun)%se_bind_inv.
  apply se_bind_inv in Hrun as (order & s2 & Horder & Hrun). destruct (version_order B o) as [order'| |]; [|done..]. injection Horder as -> <-.
  eapply drop_hidden_inv; [done| |exact Hrun]. apply ordered_candidates, Forall_forall. intros v Hv%Hfilter. rewrite Forall_forall in Hvs. by apply Hvs.
Qed.

Lemma every_version_inv refresh s kept s' :
  truthful B known s -> every_version_for_latest process_now ba B resolved parse_semver cmp_precedence o (Some before) refresh s = (Ok kept, s') ->
  last_checked u!"latest" s s' kept.
Proof using Hlist.
  intros Hs. unfold every_version_for_latest. intros (vs & s1 & [-> Hvs]%list_admitted_inv & Hrun)%se_bind_inv.
  apply se_bind_inv in Hrun as (order & s2 & Horder & Hrun). destruct (version_order B o) as [order'| |]; [|done..]. injection Horder as -> <-.
  eapply drop_hidden_inv; [done| |exact Hrun]. by apply ordered_candidates.
Qed.

Lemma same_listed i j : i ∈ L -> j ∈ L -> i.(v_version) = j.(v_version) -> i = j.
Proof using Hunique.
  intros [a Ha]%list_elem_of_lookup [b Hb]%list_elem_of_lookup E. assert (a = b) as ->; [|congruence].
  eapply (NoDup_lookup (map v_version L)); [done|by rewrite list_lookup_fmap, Ha|]. rewrite list_lookup_fmap, Hb. cbn. by rewrite E.
Qed.

Lemma match_admitted query q s s1 s' (kept : list str) v :
  last_checked q s1 s' kept -> q = query \/ q = u!"latest" -> find_match_in_list kept query = Some v -> v = query \/ admitted known L query o before s s' v.
Proof using Hunique.
  intros (_ & _ & Hlast) Hq Hfind. unfold find_match_in_list in Hfind. case_bool_decide; [injection Hfind as <-; by left|].
  destruct (Hlast v Hfind) as [(i & Hi & Hv & Hd) [(j & d & Hj & Hv' & Hd')|[(d & Hk & Hn)|[Hr|[err He]]]]].
  - right. assert (j = i) as -> by (apply same_listed; congruence). rewrite Hd' in Hd. by eapply told_admitted; [eapply told_listed|].
  - right. by eapply told_admitted; [apply told_read|].
  - unfold records in Hr. apply orb_false_iff in Hr as [[Hr1 Hr2]%orb_false_iff _]. apply negb_false_iff, bool_decide_eq_true_1 in Hr1.
    destruct Hq as [-> | ->]; [by left|done].
  - right. by eapply admitted_noted.
Qed.

Abbreviation from_index := (resolve_from_versions_index process_now age_settings host B resolved from_millisecond fresh_duration writable server wall_now).

Lemma from_index_inv query refresh s found s1 :
  from_index query PickRequest o (Some before) refresh s = (Ok found, s1) ->
  s1.(on_demand) = s.(on_demand) /\ forall s0 s' v, s.(index_copy) = s0.(index_copy) -> found = Some v -> admitted known L query o before s0 s' v.
Proof using Hfilter.
  unfold resolve_from_versions_index. destruct (versions_index_tool host B resolved query o refresh) as [tool|e|] eqn:Etool; [|by intros [= <- <-]..].
  cbn [se_bind se_get]. destruct (get_index _ _ _ _ _ _ _ _) as [index p] eqn:Eget. cbn [se_bind se_modify se_ret]. intros [= <- <-]. split; [done|].
  intros s0 s' v Hcopy Hfound. destruct index as [index|]; [|done]. cbn in Hfound. destruct (index_tool index tool) as [t|] eqn:Et; [|done].
  cbn in Hfound. unfold resolve_in_versions_index in Hfound.
  set (infos := filter_by_date _ _ _) in Hfound. set (ms := fuzzy_match_filter B _ _ _) in Hfound.
  assert (v ∈ ms) as Hv.
  { unfold index_resolve in Hfound. destruct (last ms) as [w|] eqn:El; [|done]. apply last_Some_elem_of in El.
    case_bool_decide; [by injection Hfound as <-|]. destruct (_ =? _); [by injection Hfound as <-|]. destruct (covered_from t query); [|done].
    destruct (list_find _ _) as [[position e]|]; [|done]. destruct (_ <=? _); [by injection Hfound as <-|done]. }
  apply Hfilter in Hv. apply list_elem_of_fmap in Hv as (i & -> & [Hi Hd]%elem_of_filter_bool).
  assert (i ∈ version_infos from_millisecond t) as Hit by (unfold filter_cached_prereleases in Hi; destruct (include_prereleases B o); [done|by apply elem_of_filter_bool in Hi as [? _]]).
  apply list_elem_of_fmap in Hit as (e & -> & He). eapply told_admitted; [eapply told_indexed; [exact Etool| |exact Et|exact He|done]|].
  - rewrite <- Hcopy, Eget. done.
  - cbn in Hd. unfold too_new. destruct (from_millisecond (e_created_at e)) as [d|]; [|done]. cbn in Hd. unfold parse_date_string in Hd.
    destruct (parse_into_timestamp process_now d); [|done..]. apply Z.leb_gt. by apply Z.ltb_lt.
Qed.

Lemma latest_version_for_query_inv query refresh s0 s v s' :
  truthful B known s -> s.(index_copy) = s0.(index_copy) ->
  latest_version_for_query process_now age_settings host ba B resolved parse_semver cmp_precedence from_millisecond fresh_duration writable server wall_now
    query o (Some before) refresh s = (Ok (Some v), s') ->
  v = query \/ admitted known L query o before s0 s' v.
Proof using Hlist Hunique Hfilter.
  intros Hs Hcopy. unfold latest_version_for_query. intros (found & s1 & [Hsame Hindex]%from_index_inv & Hrun)%se_bind_inv.
  assert (truthful B known s1) as Hs1 by (destruct Hs; by rewrite <- Hsame in *).
  destruct found as [w|]; [injection Hrun as -> <-; right; by apply (Hindex s0)|].
  apply se_bind_inv in Hrun as (ms & s2 & Hms & Hrun). apply list_versions_matching_inv in Hms as Hlast; [|done].
  apply se_bind_inv in Hrun as (ms' & s3 & Hms' & Hrun). injection Hrun as Hfind <-.
  destruct (bool_decide (ms = []) && bool_decide (query = u!"latest")).
  - apply every_version_inv in Hms'; [|by apply Hlast]. by eapply match_admitted; [exact Hms'|by right|].
  - injection Hms' as <- <-. by eapply match_admitted; [exact Hlast|by left|].
Qed.

(** The backend's own choice. *)
Lemma latest_stable_inv s info s1 :
  latest_stable B (Some before) s = (Ok (Some info), s1) ->
  s1 = s /\ forall d, info.(v_created_at) = Some d -> B.(latest_stable_version_info_before) (Some before) = Ok (Some info).
Proof.
  unfold latest_stable. destruct (latest_stable_version_info_before B (Some before)) as [[i|]| |]; cbn; [by intros [= -> ->]| |done..].
  destruct (latest_stable_version B) as [[w|]| |]; cbn; [|done..]. by intros [= <- <-].
Qed.

Lemma allowed_by_date i d :
  v_created_at i = Some d -> latest_stable_candidate_allowed_by_before_date process_now (Some i) before = true -> too_new process_now before (Some d) = false.
Proof.
  cbn. intros ->. unfold too_new, parse_date_string. destruct (parse_into_timestamp process_now d); [|done..]. intros ?%Z.ltb_lt. by apply Z.leb_gt.
Qed.

Lemma stable_allowed_inv info refresh s allowed fallback s' :
  truthful B known s ->
  (forall d, info.(v_created_at) = Some d -> B.(latest_stable_version_info_before) (Some before) = Ok (Some info)) ->
  stable_allowed process_now ba B resolved parse_semver cmp_precedence info before o refresh s = (Ok (allowed, fallback), s') ->
  truthful B known s' /\ s'.(index_copy) = s.(index_copy) /\ (allowed = true -> forall query, admitted known L query o before s s' info.(v_version)).
Proof using Hlist.
  intros Hs Hinfo. unfold stable_allowed. destruct (v_created_at info) as [d|] eqn:Ed; cbn [opt_is_some].
  { intros [= <- <- <-]. split_and!; [done..|]. intros Ha query. eapply told_admitted; [eapply told_stable; [by eapply Hinfo|done|exact Ed]|by eapply allowed_by_date]. }
  intros (l & s1 & [-> ->]%listing_inv & Hrun)%se_bind_inv. destruct (list_find _ L) as [[p i]|] eqn:Efind; cbn in Hrun.
  - apply list_find_Some in Efind as (Hi & Hv & _). apply list_elem_of_lookup_2 in Hi. destruct (v_created_at i) as [d|] eqn:Ei; cbn in Hrun.
    + injection Hrun as <- <- <-. split_and!; [done..|]. intros Ha query. eapply told_admitted; [eapply told_listed; [exact Hi|done|exact Ei]|].
      apply (allowed_by_date i); [done|]. cbn. by rewrite Ei.
    + destruct (release_date_dated ba B known (v_version info) before true s) as (created & s2 & Hr & Hd).
      rewrite (se_bind_ok _ _ _ _ _ Hr) in Hrun. injection Hrun as <- <- <-.
      split_and!; [by apply (dated_truthful _ _ _ _ _ _ _ _ _ Hd)|by apply (dated_index _ _ _ _ _ _ _ _ _ Hd)|].
      intros Ha query. destruct created as [d|].
      * eapply told_admitted; [apply told_read; by apply (dated_known _ _ _ _ _ _ _ _ _ Hd)|]. by apply (allowed_by_date (dated_version (v_version info) (Some d))).
      * destruct (dated_noted _ _ _ _ _ _ _ _ _ Hd) as [err He]; [done..|]. by eapply admitted_noted.
  - injection Hrun as <- <- <-. split_and!; [done..|]. intros Ha query. apply admitted_future; [by apply Z.ltb_lt|].
    intros (i & Hv & Hi)%list_elem_of_fmap. apply list_find_None in Efind. rewrite Forall_forall in Efind. by apply (Efind i).
Qed.

End Admission.

(** C7. A version that is selected under a cutoff is the one that the request names, or a date before the cutoff is known of it,
    from the listing, the backend's stable release, the versions index or a lookup; or what is told as its date there is no
    date that can be read; or its date could not be found and that is on record for the warning of an install; or it is not
    listed at all and the cutoff is in the future. It takes a listing that stays the same and has each version once, a
    backend whose filter only leaves versions out, and dates from earlier selections that are those the backend
    tells. This is for tools whose stable release starts with a digit; for the others see [hidden_release_selected]. *)
Theorem cutoff_respected (known : str -> option str) (L : list VersionInfo) (query : option str) (o : ToolOptions) (before_date : option Z)
    (before : Z) (refresh : bool) (s s' : Session) (v : str)
    (Hlist : forall refresh l s, listing o refresh s = (Ok l, s) -> l = L) (Hunique : NoDup (map v_version L))
    (Hfilter : forall l q b v, v ∈ B.(fuzzy_match_filter) l q b -> v ∈ l)
    (Hs : truthful B known s)
    (Hbefore : effective_latest_before_date process_now age_settings backend_type ba o before_date = Ok (Some before))
    (Hnumeric : forall i s1, latest_stable B (Some before) s = (Ok (Some i), s1) -> fuzzy_version_matches u!"latest" i.(v_version) = true)
    (Hrun : latest_version process_now age_settings host backend_type ba B resolved VERSION_REGEX parse_semver cmp_precedence from_millisecond
       fresh_duration writable server wall_now query o before_date refresh s = (Ok (Some v), s')) :
  let query := match query with Some query => query | None => u!"latest" end in
  v = query \/ admitted known L query o before s s' v.
Proof.
  cbv zeta. unfold latest_version in Hrun. rewrite Hbefore in Hrun. cbn [lift_age] in Hrun.
  apply se_bind_inv in Hrun as (bd & s1 & Hbd & Hrun). injection Hbd as <- <-. set (q := match query with Some query => query | None => _ end) in *.
  apply se_bind_inv in Hrun as (order & s1 & Horder & Hrun). destruct (version_order B o); [|done..]. injection Horder as -> <-.
  apply se_bind_inv in Hrun as (stable & s1 & Hstable & Hrun).
  assert (s1 = s) as ->.
  { destruct (should_use_latest_stable_fast_path B q o); [|by injection Hstable]. unfold latest_stable in Hstable.
    destruct (latest_stable_version_info_before B (Some before)) as [[i|]| |]; cbn in Hstable; [by injection Hstable| |done..].
    destruct (latest_stable_version B) as [w| |]; cbn in Hstable; [by injection Hstable|done..]. }
  destruct stable as [i|]; [|by eapply latest_version_for_query_inv].
  destruct (should_use_latest_stable_fast_path B q o); [|done]. apply latest_stable_inv in Hstable as Hinfo. destruct Hinfo as [_ Hinfo].
  apply se_bind_inv in Hrun as ([allowed fallback] & s2 & Hallowed & Hrun).
  destruct (stable_allowed_inv known L o before Hlist i refresh s allowed fallback s2 Hs Hinfo Hallowed) as (Hs2 & Hcopy & Hadm).
  destruct allowed; [injection Hrun as <- <-; right; by apply Hadm|]. rewrite (Hnumeric i s Hstable) in Hrun.
  apply se_bind_inv in Hrun as (opaque & s3 & Hopaque & Hrun). injection Hopaque as <- <-. by eapply latest_version_for_query_inv.
Qed.

End Selection.

(** ** Examples *)

(** Dates as numbers. *)
#[local] Instance SampleCalendar : Calendar unit := {
  parse_span _ := None; parse_timestamp s := Z.of_N <$> parse_u64 s; parse_zoned _ := None; parse_date _ := None;
  to_duration _ := None; checked_add _ _ := None; checked_sub _ _ := None; from_nanosecond z := Some z
}.

#[local] Instance SampleTool : BackendArg str := {
  short ba := ba; full_without_opts ba := ba; registry_opts _ := ToolOptions_default;
  install_manifest_opts _ := None; resolved_full_opts _ := None; backend_alias_opts _ := None; explicit_opts _ := None;
  with_registry_version _ _ := None; registry_bins _ := None; is_spm _ := false; ba_os_supported _ := true;
  installs_path ba := u!"/data/installs/" ++ ba; tool_dir_name ba := ba
}.

Definition listed_version (version : str) (created_at : option str) (rolling : bool) : VersionInfo :=
  mkVersionInfo version created_at None rolling None None.

(** A backend that dates its first version alone. *)
Definition sample_backend (L : list VersionInfo) (known : str -> option str) (stable : option VersionInfo) : Backend :=
  mkBackend u!"go:tool" (fun _ => false) (fun _ => false) (fun _ => false) (fun _ => Ok OrderSource)
    (default_fuzzy_match_filter (fun _ => false) (fun _ => false)) true [] None false (fun _ => false) false
    (fun _ _ _ _ => Ok L) (fun _ v => inr (known v)) (fun _ => Ok stable) (Ok stable) (Ok None).

Definition sample_versions : list VersionInfo :=
  [listed_version u!"1.0.0" (Some u!"10") false; listed_version u!"1.1.0" None false; listed_version u!"1.2.0" None false;
   listed_version u!"1.3.0" None false].

Definition sample_known (v : str) : option str :=
  if bool_decide (v = u!"1.1.0") then Some u!"50" else if bool_decide (v = u!"1.2.0") then Some u!"150"
  else if bool_decide (v = u!"1.3.0") then Some u!"200" else None.

Definition sample_session : Session := mkSession [] [] [] (mkProcess None false ∅ 0 (mkDisk None None)).
Definition sample_settings : AgeSettings := mkAgeSettings None [] false false false.
Definition sample_host : HostSettings := mkHostSettings false false false.

Definition sample_latest (B : Backend) (query : option str) : result SelectError (option str) * Session :=
  latest_version (Semver := unit) 1000 sample_settings sample_host (fun _ => u!"go") u!"tool" B (Ok Resolved_default) (fun _ => false) (fun _ => None) (fun _ _ => Eq)
    (fun _ => None) 0 false (fun _ => Unreachable) 0 query ToolOptions_default (Some 100%Z) false sample_session.

Lemma sample_listing (B : Backend) L known stable refresh l s :
  B = sample_backend L known stable ->
  list_with_info (Semver := unit) B (Ok Resolved_default) (fun _ => None) (fun _ _ => Eq) ToolOptions_default refresh s = (Ok l, s) -> l = L.
Proof. intros ->. by intros [= <-]. Qed.

Lemma default_filter_part regex prerelease l q b v : v ∈ default_fuzzy_match_filter regex prerelease l q b -> v ∈ l.
Proof. intros [Hv _]%elem_of_filter_bool. by apply elem_of_filter_bool in Hv as [Hv _]. Qed.

Definition sample_run := Eval vm_compute in sample_latest (sample_backend sample_versions sample_known None) None.

Lemma sample_run_eq : sample_latest (sample_backend sample_versions sample_known None) None = (Ok (Some u!"1.1.0"), sample_run.2).
Proof. vm_compute. reflexivity. Qed.

Lemma sample_truthful L known stable : truthful (sample_backend L known stable) known sample_session.
Proof. split; [by intros _ v d [= E]|constructor]. Qed.

Example cutoff_respected_witness :
  u!"1.1.0" = u!"latest" \/
  admitted 1000 sample_host u!"tool" (sample_backend sample_versions sample_known None) (Ok Resolved_default)
    (fun _ => None) 0 false (fun _ => Unreachable) 0 sample_known sample_versions u!"latest" ToolOptions_default 100 sample_session sample_run.2 u!"1.1.0".
Proof.
  apply (cutoff_respected (Semver := unit) 1000 sample_settings sample_host (fun _ => u!"go") u!"tool" (sample_backend sample_versions sample_known None) (Ok Resolved_default)
    (fun _ => false) (fun _ => None) (fun _ _ => Eq) (fun _ => None) 0 false (fun _ => Unreachable) 0 sample_known sample_versions None ToolOptions_default
    (Some 100%Z) 100 false sample_session sample_run.2 u!"1.1.0").
  - intros refresh l s. by eapply sample_listing.
  - apply (bool_decide_unpack _). vm_compute. exact I.
  - intros l q b v. apply default_filter_part.
  - apply sample_truthful.
  - reflexivity.
  - by intros i s1 [=].
  - exact sample_run_eq.
Defined.

Definition sample_drop (B : Backend) : list str -> Z -> ToolOptions -> str -> SE Session SelectError (list str) :=
  drop_matches_hidden_by_cutoff (Semver := unit) 1000 u!"tool" B (Ok Resolved_default) (fun _ => None) (fun _ _ => Eq).

Lemma sample_boundary : [u!"1.0.0"] = [] \/ exists x, last [u!"1.0.0"] = Some x /\ listed_date sample_versions x = true.
Proof. right. exists u!"1.0.0". split; vm_compute; reflexivity. Qed.

Lemma sample_undated : Forall (fun x => listed_date sample_versions x = false) [u!"1.1.0"; u!"1.2.0"; u!"1.3.0"].
Proof. repeat constructor. Qed.

(** Three lookups for three candidates, the bound. *)
Example cutoff_search_bounded_witness :
  (exists n s', sample_drop (sample_backend sample_versions sample_known None) ([u!"1.0.0"] ++ [u!"1.1.0"; u!"1.2.0"; u!"1.3.0"]) 100 ToolOptions_default u!"1" sample_session
      = (Ok ([u!"1.0.0"] ++ take n [u!"1.1.0"; u!"1.2.0"; u!"1.3.0"]), s') /\ length s'.(looked_up) <= 0 + (2 * Nat.log2 3 + 1))
  /\ length (sample_drop (sample_backend sample_versions sample_known None) ([u!"1.0.0"] ++ [u!"1.1.0"; u!"1.2.0"; u!"1.3.0"]) 100 ToolOptions_default u!"1" sample_session).2.(looked_up) = 3.
Proof.
  split; [|vm_compute; reflexivity].
  apply (cutoff_search_bounded (Semver := unit) 1000 u!"tool" (sample_backend sample_versions sample_known None) (Ok Resolved_default) (fun _ => None) (fun _ _ => Eq)
    ToolOptions_default u!"1" 100 sample_versions [u!"1.0.0"] [u!"1.1.0"; u!"1.2.0"; u!"1.3.0"] sample_session);
    [reflexivity|exact sample_boundary|exact sample_undated].
Defined.

Example cutoff_search_exact_witness :
  (sample_drop (sample_backend sample_versions sample_known None) ([u!"1.0.0"] ++ [u!"1.1.0"; u!"1.2.0"; u!"1.3.0"]) 100 ToolOptions_default u!"1" sample_session).1
  = Ok ([u!"1.0.0"] ++ List.filter (fun c => negb (too_new 1000 100 (sample_known c))) [u!"1.1.0"; u!"1.2.0"; u!"1.3.0"])
  /\ List.filter (fun c => negb (too_new 1000 100 (sample_known c))) [u!"1.1.0"; u!"1.2.0"; u!"1.3.0"] = [u!"1.1.0"].
Proof.
  split; [|vm_compute; reflexivity].
  apply (cutoff_search_exact (Semver := unit) 1000 u!"tool" (sample_backend sample_versions sample_known None) (Ok Resolved_default) (fun _ => None) (fun _ _ => Eq)
    sample_known ToolOptions_default u!"1" 100 sample_versions [u!"1.0.0"] [u!"1.1.0"; u!"1.2.0"; u!"1.3.0"] sample_session);
    [reflexivity|exact sample_boundary|exact sample_undated|constructor|intros _ v d [= E]; exact E| |].
  - repeat constructor; [exists u!"50", 50%Z|exists u!"150", 150%Z|exists u!"200", 200%Z]; by vm_compute.
  - intros i j c c' Hij Hi Hj. destruct i as [|[|[|i]]], j as [|[|[|j]]]; try lia; try discriminate Hi; try discriminate Hj;
      injection Hi as <-; injection Hj as <-; vm_compute; congruence.
Defined.

(** A tool whose releases do not start with a digit, with a nightly build that has no date: *)
Definition named_versions : list VersionInfo :=
  [listed_version u!"dev-2025-01" (Some u!"10") false; listed_version u!"dev-2026-11" None false; listed_version u!"dev-nightly" None true].

Definition named_known (v : str) : option str := if bool_decide (v = u!"dev-2026-11") then Some u!"200" else None.

(** the stable release is past the cutoff, so the whole list is searched instead; the search stops at the nightly build, which is
    filtered out afterwards, and the same release is selected. It was not checked, and an install has nothing to warn about. *)
Example hidden_release_selected :
  let stable := listed_version u!"dev-2026-11" (Some u!"200") false in
  let run := sample_latest (sample_backend named_versions named_known (Some stable)) None in
  run.1 = Ok (Some u!"dev-2026-11") /\ too_new 1000 100 stable.(v_created_at) = true /\
  (u!"dev-2026-11" ∉ run.2.(looked_up)) /\ unchecked_release run.2 u!"tool" u!"dev-2026-11" = None.
Proof. cbv zeta. split_and!; [vm_compute; reflexivity..|apply (bool_decide_unpack _); vm_compute; exact I|vm_compute; reflexivity]. Qed.
