(* ===== verification/Resolve.v ===== *)
(** * Resolving requests ([src/toolset/tool_version.rs])

    From a request in a configuration file or on the command line to the version of a tool: through the lockfile, aliases,
    what is installed and what the backend lists. Where it would ask the network, it records the question in its state.
    Safe mode, warnings, the interpreter of uv and the install environment are left out. *)

From S2P Require Import Prelude RustStr PathEnv Paths Toml Decimals ToolOptions ToolRequest LockInfo Lockfile VersionMatch VersionIndex ReleaseAge VersionSelect.

(** ** Linked versions *)

(** [normalize_path_components]: the parent of the root is written out. *)
Definition normalize_path_components (path : str) : bool * list str :=
  let '(absolute, pieces) := components path in
  (absolute, foldl (fun normalized c =>
     if bool_decide (c = u!"..") then match normalized with [] => [u!".."] | _ => removelast normalized end
     else if bool_decide (c = u!".") then normalized else normalized ++ [c]) [] pieces).

(** [Path::starts_with] of normalized paths. *)
Definition below_root (target root : str) : bool :=
  let '(ta, tn) := normalize_path_components target in
  let '(ra, rn) := normalize_path_components root in
  Bool.eqb ta ra && opt_is_some (strip_components rn tn).

Definition is_rustup_toolchain_spec (name : str) : bool :=
  let channel := match split_on (N.eqb c!"-") name with c :: _ => c | [] => name end in
  bool_decide (channel ∈ [u!"stable"; u!"beta"; u!"nightly"])
  || (2 <=? length (split_on (N.eqb c!".") channel))
     && forallb (fun part => negb (bool_decide (part = [])) && forallb is_ascii_digit part) (split_on (N.eqb c!".") channel).

Definition without_prefix_scheme (version : str) : str := match strip_prefix u!"prefix:" version with Some v => v | None => version end.

Definition replace_separators (s : str) : str := replace_char c!"/" c!"-" (replace_char c!":" c!"-" s).

Definition linked_name_is_exact (name version : str) : bool :=
  let version := without_prefix_scheme version in
  bool_decide (name = version) || bool_decide (name = replace_separators version).

(** [matching]: the matching of the backend, if there is one. *)
Definition linked_name_satisfies (matching : option (list str -> str -> list str)) (name version : str) : bool :=
  let version := without_prefix_scheme version in
  if bool_decide (version = u!"latest") || linked_name_is_exact name version then true
  else match matching with
       | Some matching => negb (bool_decide (matching [name] version = []))
       | None => fuzzy_version_matches version name
       end.

(** ** Options of a resolution and its result *)

Record ResolveOptions := mkResolveOptions {
  latest_versions : bool;
  latest_versions_for_all_requests : bool;
  latest_versions_for_arguments_only : bool;
  use_locked_version : bool;
  resolve_rolling_channels : bool;
  prefer_exact_version : bool;
  before_date : option Z;
  before_date_from_default : bool;
  filter_installed_versions_by_release_date : bool;
  offline : bool;
  refresh_remote_versions : bool;
  inactive : bool;
  outdated_release_urls : bool;
  warn_not_in_lockfile : bool;
  defer_missing_lazy_tools : bool;
  defer_missing_lazy_online : bool;
  keep_moved_alias_pins : bool
}.

Definition ResolveOptions_default : ResolveOptions :=
  mkResolveOptions false false false true false false None false false false false false false true false false false.

Definition set_cutoff (date : option Z) (from_default : bool) (o : ResolveOptions) : ResolveOptions :=
  mkResolveOptions o.(latest_versions) o.(latest_versions_for_all_requests) o.(latest_versions_for_arguments_only) o.(use_locked_version)
    o.(resolve_rolling_channels) o.(prefer_exact_version) date from_default o.(filter_installed_versions_by_release_date) o.(offline)
    o.(refresh_remote_versions) o.(inactive) o.(outdated_release_urls) o.(warn_not_in_lockfile) o.(defer_missing_lazy_tools)
    o.(defer_missing_lazy_online) o.(keep_moved_alias_pins).

Definition without_refresh (o : ResolveOptions) : ResolveOptions :=
  mkResolveOptions o.(latest_versions) o.(latest_versions_for_all_requests) o.(latest_versions_for_arguments_only) o.(use_locked_version)
    o.(resolve_rolling_channels) o.(prefer_exact_version) o.(before_date) o.(before_date_from_default)
    o.(filter_installed_versions_by_release_date) o.(offline) false o.(inactive) o.(outdated_release_urls) o.(warn_not_in_lockfile)
    o.(defer_missing_lazy_tools) o.(defer_missing_lazy_online) o.(keep_moved_alias_pins).

Inductive ResolveError : Type :=
| SelectionFailed (e : SelectError)
| RequestFailed (e : RequestError)
| AgeFailed (e : AgeError)
| BackendFailed (message : str)
| NotInLockfile (tool version hint : str)
| RequiredChannelResolution (version : str) (cause : str)
| NoVersionsFound (message : str)
| NoSuchPath (path : str).

(** What may need the network, as it is asked for. *)
Inductive RemoteCall : Type :=
| ListVersions (query : str)
| LatestVersion
| ExactVersion (version : str)
| ChannelVersion (channel : str)
| ChannelForCutoff (channel : str)
| DynamicAlias (version : str).

Record State := mkState { session : Session; remote_calls : list RemoteCall }.

Record ToolVersion (BA Aube Uv : Type) := mkToolVersion {
  tv_request : ToolRequest BA;
  tv_version : str;
  tv_before_date : option Z;
  tv_locked : bool;
  tv_resolved_from_lockfile : bool;
  tv_deferred : bool;
  tv_lock_platforms : gmap str PlatformInfo;
  tv_install_path : option str;
  tv_aube : option Aube;
  tv_uv : option Uv;
  tv_provenance : option PackageProvenance
}.
Arguments mkToolVersion {BA Aube Uv} _ _ _ _ _ _ _ _ _ _ _.
Arguments tv_request {BA Aube Uv} _.
Arguments tv_version {BA Aube Uv} _.
Arguments tv_before_date {BA Aube Uv} _.
Arguments tv_locked {BA Aube Uv} _.
Arguments tv_resolved_from_lockfile {BA Aube Uv} _.
Arguments tv_deferred {BA Aube Uv} _.
Arguments tv_lock_platforms {BA Aube Uv} _.
Arguments tv_install_path {BA Aube Uv} _.
Arguments tv_aube {BA Aube Uv} _.
Arguments tv_uv {BA Aube Uv} _.
Arguments tv_provenance {BA Aube Uv} _.

(** ** What resolution asks *)

(** A backend, and what it adds to the selection of versions. *)
Record ToolBackend (BA : Type) := mkToolBackend {
  tb_ba : BA;
  tb_id : str;
  selection : Backend;
  tb_resolved : result str ResolvedToolOptions;
  (** [get_tool_opts_with_overrides], and the options that the argument itself has *)
  tb_tool_opts : result str ToolOptions;
  tb_ba_opts : ToolOptions;
  plugin_installed : option bool;
  listing_failure : str;
  list_installed_versions : list str;
  latest_installed_version : result str (option str);
  get_aliases : result str (gmap str str);
  (** Whether an alias that only the backend knows is asked for at a server: the release types of .NET, the names that a
      vfox plugin may know; and the answer, from there or from a cache. *)
  asks_for_dynamic_alias : str -> bool;
  resolve_dynamic_alias : str -> result str (option str);
  is_exact_version : str -> bool;
  resolve_exact_version : str -> result str (option str);
  latest_installed_channel_version : str -> option str;
  resolve_channel_version : str -> result str (option str);
  channel_for_cutoff : str -> Z -> bool -> result str (option str);
  requires_concrete_channel_version : str -> bool;
  unresolved_latest_version : option str;
  adopt_cached_remote_versions_for_cutoff : Z -> bool
}.
Arguments mkToolBackend {BA} _ _ _ _ _ _ _ _ _ _ _ _ _ _ _ _ _ _ _ _ _.
Arguments tb_ba {BA} _.
Arguments tb_id {BA} _.
Arguments selection {BA} _.
Arguments tb_resolved {BA} _.
Arguments tb_tool_opts {BA} _.
Arguments tb_ba_opts {BA} _.
Arguments plugin_installed {BA} _.
Arguments listing_failure {BA} _.
Arguments list_installed_versions {BA} _.
Arguments latest_installed_version {BA} _.
Arguments get_aliases {BA} _.
Arguments asks_for_dynamic_alias {BA} _.
Arguments resolve_dynamic_alias {BA} _.
Arguments is_exact_version {BA} _.
Arguments resolve_exact_version {BA} _.
Arguments latest_installed_channel_version {BA} _.
Arguments resolve_channel_version {BA} _.
Arguments channel_for_cutoff {BA} _.
Arguments requires_concrete_channel_version {BA} _.
Arguments unresolved_latest_version {BA} _.
Arguments adopt_cached_remote_versions_for_cutoff {BA} _.

(** What resolution runs in. *)
Class World (BA Aube Uv Span Semver NodeVersion : Type) := {
  world_arg :: BackendArg BA;
  world_calendar :: Calendar Span;
  (** A backend argument of the given short name and backend; its type; [BackendArg::backend]. *)
  backend_arg_new : str -> str -> BA;
  backend_type : BA -> str;
  get_backend : BA -> result str (ToolBackend BA);
  (** Whether the graph file of an install has the digest; whether installs follow the identity layout; the directory of an
      installed version. *)
  legacy_graph_matches : ToolVersion BA Aube Uv -> str -> bool;
  layout_applies_to : ToolVersion BA Aube Uv -> bool;
  found_dir : BA -> str -> str;
  (** Of the file system: the entries of a directory with the targets of their links, existence, symbolic links, real paths;
      the tool that is installed under a short name; the directories of mise and those it shares. *)
  read_links : str -> option (list (str * option str));
  exists_ : str -> bool;
  resolve_symlink : str -> option str;
  canonicalize : str -> option str;
  get_tool_full : str -> option str;
  mise_dirs : list str;
  shared_install_dirs : list str;
  HOME : str;
  (** The start of the process, the time now, settings. *)
  process_now : Z;
  wall_now : Z;
  age_settings : AgeSettings;
  host : HostSettings;
  (** [VERSION_REGEX.is_match]; versions of the [semver] crate and their order; those of [nodejs_semver] and their ranges *)
  VERSION_REGEX : str -> bool;
  parse_semver : str -> option Semver;
  cmp_precedence : Semver -> Semver -> comparison;
  parse_version : str -> option NodeVersion;
  parse_range : str -> option (NodeVersion -> bool);
  (** [Timestamp::from_millisecond]; for the versions index how long its copy is fresh, whether it can be stored, the server *)
  from_millisecond : Z -> option str;
  fresh_duration : Z;
  writable : bool;
  server : option str -> Response;
  (** Times in a message: a day, a day and time, a cutoff. *)
  format_day : Z -> str;
  format_minute : Z -> str;
  format_cutoff : Z -> str;
  all_aliases : gmap str (gmap str str);
  (** The lockfile's answer ([get_locked_version]) for a text, whether as a prefix up to a separator, and whether through an
      alias. *)
  lockfile_resolve_with_prefix : ToolRequest BA -> str -> bool -> bool -> result str (option (LockfileTool Aube Uv));
  (** What the configuration says of locking, of a source; whether an error is one of reaching a server. *)
  invocation_locked_for : ToolSource -> bool;
  tool_config_locked_for : ToolSource -> bool;
  lockfile_enabled : bool;
  is_unreachable : ResolveError -> bool;
  is_package_json : str -> bool
}.

Section Resolve.

Context {BA Aube Uv Span Semver NodeVersion : Type} `{World BA Aube Uv Span Semver NodeVersion}.

Definition tool_version_new (request : ToolRequest BA) (version : str) : ToolVersion BA Aube Uv :=
  mkToolVersion (request_with_registry_version version request) version None false false false ∅ None None None None.

Definition with_before_date (date : option Z) (tv : ToolVersion BA Aube Uv) : ToolVersion BA Aube Uv :=
  mkToolVersion tv.(tv_request) tv.(tv_version) date tv.(tv_locked) tv.(tv_resolved_from_lockfile) tv.(tv_deferred) tv.(tv_lock_platforms)
    tv.(tv_install_path) tv.(tv_aube) tv.(tv_uv) tv.(tv_provenance).

Definition into_deferred (tv : ToolVersion BA Aube Uv) : ToolVersion BA Aube Uv :=
  mkToolVersion tv.(tv_request) tv.(tv_version) tv.(tv_before_date) tv.(tv_locked) tv.(tv_resolved_from_lockfile) true tv.(tv_lock_platforms)
    tv.(tv_install_path) tv.(tv_aube) tv.(tv_uv) tv.(tv_provenance).

Definition from_lockfile (request : ToolRequest BA) (lt : LockfileTool Aube Uv) : ToolVersion BA Aube Uv :=
  let request :=
    match lt.(t_backend) with
    | Some backend_full =>
        let ba := backend_arg_new (short request.(backend)) backend_full in
        let request := if registry_options_are_not_for request backend_full then without_registry_options request else request in
        mkRequest ba request.(kind) request.(req_options) request.(source) request.(lockfile_scope)
    | None => request
    end in
  let tv := tool_version_new request lt.(t_version) in
  mkToolVersion tv.(tv_request) tv.(tv_version) tv.(tv_before_date) true true tv.(tv_deferred) lt.(t_platforms) tv.(tv_install_path) lt.(t_aube) lt.(t_uv)
    lt.(t_provenance).

(** *** Versions that are named by a directory *)

Definition rsplit_once_str (sep s : str) : option (str * str) :=
  match split_once_str (rev sep) (rev s) with Some (after, before) => Some (rev before, rev after) | None => None end.

Definition is_digest_prefix (s : str) : bool :=
  (length s =? 16) && forallb (fun c => is_ascii_digit c || in_range c!"a" c!"f" c || in_range c!"A" c!"F" c) s.

Definition graph_version (sep version : str) : option (str * str) :=
  match rsplit_once_str sep version with
  | Some (version, identity) => if is_digest_prefix identity then Some (version, identity) else None
  | None => None
  end.

Definition is_npm (tv : ToolVersion BA Aube Uv) : bool := starts_with u!"npm:" (full_without_opts tv.(tv_request).(backend)).

Definition aube_install_path_version (tv : ToolVersion BA Aube Uv) : option str :=
  if is_npm tv then fst <$> graph_version u!"~aube~" tv.(tv_version) else None.

Definition legacy_aube_install_path_version (tv : ToolVersion BA Aube Uv) : option str :=
  if is_npm tv then
    match graph_version u!"-aube-" tv.(tv_version) with
    | Some (version, identity) => if legacy_graph_matches tv identity then Some version else None
    | None => None
    end
  else None.

Definition uv_install_path_version (tv : ToolVersion BA Aube Uv) : option str :=
  if bool_decide (backend_type tv.(tv_request).(backend) = u!"pypi") then fst <$> graph_version u!"~uv~" tv.(tv_version) else None.

Definition install_path_identity_version (tv : ToolVersion BA Aube Uv) : option str :=
  or_opt (if opt_is_some tv.(tv_aube) then None else or_opt (aube_install_path_version tv) (legacy_aube_install_path_version tv))
    (if opt_is_some tv.(tv_uv) then None else uv_install_path_version tv).

Definition strip_install_path_identity (tv : ToolVersion BA Aube Uv) : ToolVersion BA Aube Uv :=
  match install_path_identity_version tv with
  | Some version =>
      mkToolVersion tv.(tv_request) version tv.(tv_before_date) tv.(tv_locked) tv.(tv_resolved_from_lockfile) tv.(tv_deferred)
        tv.(tv_lock_platforms) (Some (found_dir tv.(tv_request).(backend) tv.(tv_version))) tv.(tv_aube) tv.(tv_uv) tv.(tv_provenance)
  | None => tv
  end.

Definition from_installed (request : ToolRequest BA) (name : str) : ToolVersion BA Aube Uv :=
  let tv := tool_version_new request name in
  match install_path_identity_version tv with
  | None => tv
  | Some version => if layout_applies_to tv then tool_version_new tv.(tv_request) version else strip_install_path_identity tv
  end.

(** ** Linked versions of a tool *)

Definition list_installed_versions_matching (tb : ToolBackend BA) (query : str) : list str :=
  tb.(selection).(fuzzy_match_filter) tb.(list_installed_versions) query (negb (tb.(selection).(include_prereleases) tb.(tb_ba_opts))).

Definition is_mise_managed_symlink_target (target : str) : bool := existsb (below_root target) (mise_dirs ++ shared_install_dirs).

Definition is_rustup_install (ba : BA) (link_name target : str) : bool :=
  bool_decide (full_without_opts ba = u!"core:rust") && exists_ (path_join target u!"rustup") && is_rustup_toolchain_spec link_name.

Definition linked_matching (ba : BA) : option (list str -> str -> list str) :=
  match get_backend ba with
  | Ok tb => Some (fun versions query => tb.(selection).(fuzzy_match_filter) versions query (negb (tb.(selection).(include_prereleases) tb.(tb_ba_opts))))
  | _ => None
  end.

Definition is_linked_entry (ba : BA) (version : str) (entry : str * option str) : bool :=
  match entry.2 with
  | Some target =>
      is_absolute target && negb (is_mise_managed_symlink_target target) && negb (is_rustup_install ba entry.1 target)
      && linked_name_satisfies (linked_matching ba) entry.1 version
  | None => false
  end.

Definition has_linked_version (ba : BA) (version : str) : bool :=
  if match get_tool_full (short ba) with Some installed => negb (bool_decide (installed = full_without_opts ba)) | None => false end then false
  else match read_links (installs_path ba) with
       | Some entries => existsb (is_linked_entry ba version) entries
       | None => false
       end.

(** ** Resolution *)

Let R := SE State ResolveError.

Definition selecting {A} (m : SE Session SelectError A) : R A :=
  fun st => match m st.(session) with
            | (Ok a, s) => (Ok a, mkState s st.(remote_calls))
            | (Err e, s) => (Err (SelectionFailed e), mkState s st.(remote_calls))
            | (OutOfFuel, s) => (OutOfFuel, mkState s st.(remote_calls))
            end.

Definition remote (call : RemoteCall) : R unit := se_modify (fun st => mkState st.(session) (call :: st.(remote_calls))).

Definition lift_backend {A} (r : result str A) : R A :=
  match r with Ok a => se_ret a | Err e => se_fail (BackendFailed e) | OutOfFuel => se_fuel end.

Definition lift_request {A} (r : result RequestError A) : R A :=
  match r with Ok a => se_ret a | Err e => se_fail (RequestFailed e) | OutOfFuel => se_fuel end.

Definition lift_cutoff {A} (r : result AgeError A) : R A :=
  match r with Ok a => se_ret a | Err e => se_fail (AgeFailed e) | OutOfFuel => se_fuel end.

(** [Result::unwrap_or_default] *)
Definition or_default {A} (default : A) (m : R A) : R A :=
  fun st => match m st with (Err _, st') => (Ok default, st') | answer => answer end.

(** *** The backend's lists *)

Definition list_matching (tb : ToolBackend BA) (query : str) (o : ToolOptions) (date : option Z) (refresh : bool) : R (list str) :=
  let* _ := remote (ListVersions query) in
  selecting (list_versions_matching process_now tb.(tb_ba) tb.(selection) tb.(tb_resolved) parse_semver cmp_precedence query o date refresh).

(** [list_remote_versions_with_info_with_refresh]: with the options of the tool alone. *)
Definition list_all_with_info (tb : ToolBackend BA) (refresh : bool) : R (list VersionInfo) :=
  let* _ := remote (ListVersions []) in
  let* resolved_opts := lift_backend tb.(tb_resolved) in
  selecting (list_with_info tb.(selection) tb.(tb_resolved) parse_semver cmp_precedence resolved_opts.(options) refresh).

Definition list_all (tb : ToolBackend BA) (refresh : bool) : R (list str) :=
  let* versions := list_all_with_info tb refresh in se_ret (map v_version versions).

Definition select_latest (tb : ToolBackend BA) (o : ToolOptions) (date : option Z) (refresh : bool) : R (option str) :=
  let* _ := remote LatestVersion in
  selecting (latest_version process_now age_settings host backend_type tb.(tb_ba) tb.(selection) tb.(tb_resolved) VERSION_REGEX parse_semver cmp_precedence
    from_millisecond fresh_duration writable server wall_now None o date refresh).

Definition select_from_index (tb : ToolBackend BA) (query : str) (pick : IndexPick) (o : ToolOptions) (date : option Z) (refresh : bool) : R (option str) :=
  let* _ := remote (ListVersions query) in
  selecting (resolve_from_versions_index process_now age_settings host tb.(selection) tb.(tb_resolved) from_millisecond fresh_duration writable
    server wall_now query pick o date refresh).

(** *** Why nothing was found *)

Definition no_versions_found {A} (tb : ToolBackend BA) (query : str) (date : option Z) (minimum_release_age : option str) (suggest_exact_pin : bool) : R A :=
  let id := tb.(tb_id) in
  let none_found := u!"no versions found for " ++ id in
  if tb.(selection).(version_listing_failed) then
    se_fail (NoVersionsFound (u!"unable to fetch versions for " ++ id ++ u!": " ++ tb.(listing_failure)))
  else
  match date with
  | None => se_fail (NoVersionsFound none_found)
  | Some before =>
      let* hidden := or_default [] (let* o := lift_backend tb.(tb_tool_opts) in
        selecting (versions_hidden_by_before_date process_now tb.(selection) tb.(tb_resolved) parse_semver cmp_precedence o query before)) in
      match last hidden with
      | None => se_fail (NoVersionsFound none_found)
      | Some newest =>
          let age := minimum_release_age_label process_now age_settings backend_type tb.(tb_ba) minimum_release_age before in
          let* (released, age_fragment) := lift_cutoff (format_hidden_release_details format_day format_minute
            (created_at_timestamp (parse_date_string process_now) newest) age) in
          let cutoff := if opt_is_some age then [] else u!" newer than the " ++ format_cutoff before ++ u!" cutoff" in
          let count := length hidden in
          let plural := if count =? 1 then [] else u!"s" in
          let remedy :=
            if suggest_exact_pin then u!" Install that one now with `" ++ id ++ u!"@" ++ newest.(v_version) ++ u!"`, or lower minimum_release_age."
            else u!" Lower minimum_release_age to make " ++ (if count =? 1 then u!"it" else u!"them") ++ u!" eligible." in
          se_fail (NoVersionsFound (none_found ++ u!" matching minimum_release_age" ++ age_fragment ++ u!": it hid " ++ to_string (N.of_nat count)
            ++ u!" release" ++ plural ++ cutoff ++ u!", the newest being " ++ newest.(v_version) ++ released ++ u!"." ++ remedy))
      end
  end.

(** *** Policies *)

Definition is_argument (r : ToolRequest BA) : bool := bool_decide (r.(source) = Argument).

Definition defers_missing_lazy (r : ToolRequest BA) (o : ResolveOptions) : bool :=
  o.(defer_missing_lazy_tools) && negb o.(latest_versions) && bool_decide ((effective_options r).(core).(lazy) = Some true)
  && (o.(defer_missing_lazy_online) || host.(host_prefer_offline)) && negb (is_argument r).

(** Whether the invocation or the configuration forbids resolving outside the lockfile. *)
Definition locked_by (r : ToolRequest BA) (o : ResolveOptions) : bool * bool :=
  (invocation_locked_for r.(source), tool_config_locked_for (locked_policy_source r o.(use_locked_version))).

Definition resolution_locked (r : ToolRequest BA) (o : ResolveOptions) : bool :=
  let '(invocation_locked, tool_config_locked) := locked_by r o in invocation_locked || tool_config_locked.

Definition ensure_unlocked_resolution_allowed (r : ToolRequest BA) (linked_query : str) (o : ResolveOptions) : R unit :=
  let '(invocation_locked, tool_config_locked) := locked_by r o in
  if (invocation_locked || tool_config_locked) && o.(use_locked_version) && lockfile_enabled && negb (has_linked_version r.(backend) linked_query)
     && opt_is_some (lockfile_source r ≫= source_path) then
    se_fail (NotInLockfile (short r.(backend)) (version HOME r)
      (if tool_config_locked && negb invocation_locked then u!"Run `mise lock` to update the lockfile, or disable `tool_config.locked`"
       else u!"Run `mise install` without --locked to update the lockfile"))
  else se_ret tt.

Definition apply_before_date_for_tool (ba : BA) (minimum_release_age : option str) (o : ResolveOptions) : result AgeError ResolveOptions :=
  let? found := resolve_before_date_for_tool_with_source process_now age_settings backend_type ba o.(before_date) minimum_release_age in
  Ok (match found with
      | Some (ts, Provided) => set_cutoff (Some ts) o.(before_date_from_default) o
      | Some (ts, Explicit) => set_cutoff (Some ts) false o
      | Some (ts, Default) => set_cutoff (Some ts) true o
      | None => set_cutoff None false o
      end).

Definition without_covered_refresh (tb : ToolBackend BA) (o : ResolveOptions) : ResolveOptions :=
  match o.(before_date) with
  | Some before => if o.(refresh_remote_versions) && tb.(adopt_cached_remote_versions_for_cutoff) before then without_refresh o else o
  | None => o
  end.

(** [Config::resolve_alias] *)
Definition resolve_alias (tb : ToolBackend BA) (v : str) : R str :=
  match all_aliases !! short tb.(tb_ba) ≫= (fun versions => versions !! v) with
  | Some alias => se_ret alias
  | None =>
      let* aliases := lift_backend tb.(get_aliases) in
      match aliases !! v with
      | Some alias => se_ret alias
      | None =>
          let* _ := (if tb.(asks_for_dynamic_alias) v then remote (DynamicAlias v) else se_ret tt) in
          let* alias := lift_backend (tb.(resolve_dynamic_alias) v) in
          se_ret (match alias with Some alias => alias | None => v end)
      end
  end.

Definition is_offline (o : ResolveOptions) : bool := host.(set_offline) || o.(offline).
Definition prefer_offline (r : ToolRequest BA) : bool := host.(host_prefer_offline) && negb (is_argument r).

(** Installed versions count only as far as a cutoff that the user chose allows them. *)
Definition should_filter_installed_versions (r : ToolRequest BA) (o : ResolveOptions) : bool :=
  o.(filter_installed_versions_by_release_date) && opt_is_some o.(before_date) && negb o.(before_date_from_default)
  && negb (is_offline o) && negb (prefer_offline r).

Definition two_dots (v : str) : bool := 2 <=? length (List.filter (N.eqb c!".") v).

Definition build (r : ToolRequest BA) (v : str) : R (ToolVersion BA Aube Uv) := se_ret (tool_version_new r v).

(** *** A version *)

(** A moving channel under a cutoff that the user chose: the release that it pointed at then. *)
Definition channel_before_cutoff (tb : ToolBackend BA) (r : ToolRequest BA) (v : str) (o : ResolveOptions) : R str :=
  match o.(before_date) with
  | Some before =>
      if negb o.(before_date_from_default) && (before <? wall_now)%Z && negb host.(set_offline) && negb o.(offline) then
        let* _ := remote (ChannelForCutoff v) in
        let* found := lift_backend (tb.(channel_for_cutoff) v before (prefer_offline r)) in
        se_ret (match found with Some v => v | None => v end)
      else se_ret v
  | None => se_ret v
  end.

(** A rolling channel; nothing where resolution goes on. *)
Definition resolve_rolling (tb : ToolBackend BA) (r : ToolRequest BA) (v : str) (o : ResolveOptions) : R (option (ToolVersion BA Aube Uv)) :=
  let installed := if negb o.(latest_versions) && negb o.(resolve_rolling_channels) && negb (should_filter_installed_versions r o)
                   then tb.(latest_installed_channel_version) v else None in
  match installed with
  | Some installed => let* tv := build r installed in se_ret (Some tv)
  | None =>
      let* concrete :=
        (if negb (is_offline o) then
           let* _ := remote (ChannelVersion v) in
           match tb.(resolve_channel_version) v with
           | Ok concrete => se_ret concrete
           | Err cause => if tb.(requires_concrete_channel_version) v then se_fail (RequiredChannelResolution v cause) else se_ret None
           | OutOfFuel => se_fuel
           end
         else se_ret None) in
      match concrete with
      | Some concrete => let* tv := build r concrete in se_ret (Some tv)
      | None =>
          if o.(offline) then let* tv := build r v in se_ret (Some tv)
          else if is_offline o && tb.(requires_concrete_channel_version) v then
            se_fail (RequiredChannelResolution v u!"cannot resolve rolling channel while offline")
          else se_ret None
      end
  end.

Definition resolve_latest (tb : ToolBackend BA) (r : ToolRequest BA) (v : str) (o : ResolveOptions) : R (ToolVersion BA Aube Uv) :=
  let* installed := (if negb o.(latest_versions) && negb (should_filter_installed_versions r o)
                     then lift_backend tb.(latest_installed_version) else se_ret None) in
  match installed with
  | Some installed => se_ret (from_installed r installed)
  | None =>
      if defers_missing_lazy r o then let* tv := build r v in se_ret (into_deferred tv)
      else
        let* latest := (if negb (is_offline o) then select_latest tb (effective_options r) o.(before_date) o.(refresh_remote_versions) else se_ret None) in
        match latest with
        | Some latest => build r latest
        | None =>
            let* unresolved := (if negb (is_offline o) then
                                  let* versions := list_all tb o.(refresh_remote_versions) in
                                  se_ret (if bool_decide (versions = []) then tb.(unresolved_latest_version) else None)
                                else se_ret None) in
            match unresolved with
            | Some unresolved => build r unresolved
            | None =>
                if o.(offline) then build r v
                else no_versions_found tb v o.(before_date) (minimum_release_age (effective_options r)) true
            end
        end
  end.

Definition resolve_remote_version (tb : ToolBackend BA) (v : str) (selection_opts : ToolOptions) (o : ResolveOptions) (pin_remote_matches : option (list str)) :
    R str :=
  let* exact := (if two_dots v || tb.(is_exact_version) v then
                   let* _ := remote (ExactVersion v) in lift_backend (tb.(resolve_exact_version) v)
                 else se_ret None) in
  match exact with
  | Some exact => se_ret exact
  | None =>
      let* indexed := (if opt_is_some pin_remote_matches then se_ret None
                       else select_from_index tb v PickRequest selection_opts o.(before_date) o.(refresh_remote_versions)) in
      match indexed with
      | Some indexed => se_ret indexed
      | None =>
          let* matches := (match pin_remote_matches with
                           | Some matches => se_ret matches
                           | None => list_matching tb v selection_opts o.(before_date) o.(refresh_remote_versions)
                           end) in
          if bool_decide (v ∈ matches) then se_ret v
          else match last matches with
               | Some matched => se_ret matched
               | None =>
                   let* _ := (if opt_is_some o.(before_date) then let* _ := list_matching tb v selection_opts None false in se_ret tt else se_ret tt) in
                   se_ret v
               end
      end
  end.

(** A range of a [package.json], over what is installed and then over the list. *)
Definition resolve_package_range (tb : ToolBackend BA) (r : ToolRequest BA) (v : str) (o : ResolveOptions) : R (option (ToolVersion BA Aube Uv)) :=
  let range versions := npm_semver_range_filter parse_version parse_range versions v ≫= last in
  let installed := if negb o.(latest_versions) && negb (should_filter_installed_versions r o) then range tb.(list_installed_versions) else None in
  match installed with
  | Some installed => se_ret (Some (from_installed r installed))
  | None =>
      if is_offline o then se_ret None
      else
        let* versions := (match o.(before_date) with
                          | Some before =>
                              let* versions := list_all_with_info tb o.(refresh_remote_versions) in
                              se_ret (map v_version (filter_by_date (parse_date_string process_now) versions before))
                          | None => list_all tb o.(refresh_remote_versions)
                          end) in
        match range versions with
        | Some found => let* tv := build r found in se_ret (Some tv)
        | None => se_ret None
        end
  end.

(** What is left when nothing installed, locked or deferred answers. *)
Definition resolve_remotely (tb : ToolBackend BA) (r : ToolRequest BA) (v : str) (o : ResolveOptions) (pin_remote_matches : option (list str)) : R (ToolVersion BA Aube Uv) :=
  if is_offline o then build r v
  else if prefer_offline r && negb o.(latest_versions) && two_dots v then build r v
  else
    let fall_back_to_literal := host.(host_prefer_offline) && negb o.(latest_versions) && (two_dots v || tb.(is_exact_version) v) in
    fun st =>
      match resolve_remote_version tb v (effective_options r) o pin_remote_matches st with
      | (Ok v, st') => build r v st'
      | (Err e, st') => if fall_back_to_literal && is_unreachable e then build r v st' else (Err e, st')
      | (OutOfFuel, st') => (OutOfFuel, st')
      end.

(** A version or a prefix of one that is no channel and not [latest]. *)
Definition resolve_concrete (tb : ToolBackend BA) (r : ToolRequest BA) (v : str) (o : ResolveOptions) : R (ToolVersion BA Aube Uv) :=
  let installed_matches := if negb o.(latest_versions) then list_installed_versions_matching tb v else [] in
  if bool_decide (v ∈ installed_matches) then build r v
  else
    let* (exact, pin_remote_matches) :=
      (if o.(prefer_exact_version) && negb (is_offline o) && negb (is_npm_semver_range_query v) then
         let* matches := list_matching tb v (effective_options r) None o.(refresh_remote_versions) in
         se_ret (bool_decide (v ∈ matches), if opt_is_some o.(before_date) then None else Some matches)
       else se_ret (false, None)) in
    if exact then build r v
    else match (if should_filter_installed_versions r o then None else last installed_matches) with
         | Some installed => se_ret (from_installed r installed)
         | None =>
             if defers_missing_lazy r o then let* tv := build r v in se_ret (into_deferred tv)
             else
               let* ranged := (if match r.(source) with IdiomaticVersionFile path => is_package_json path | _ => false end && is_npm_semver_range_query v
                               then resolve_package_range tb r v o else se_ret None) in
               match ranged with
               | Some tv => se_ret tv
               | None => resolve_remotely tb r v o pin_remote_matches
               end
         end.

(** What a text selects once no scheme, alias or lock entry is left. *)
Definition resolve_selector (tb : ToolBackend BA) (r : ToolRequest BA) (v : str) (o : ResolveOptions) : R (ToolVersion BA Aube Uv) :=
  let* v := channel_before_cutoff tb r v o in
  let* _ := (if two_dots v then let* _ := lift_backend (tb.(selection).(version_order) (effective_options r)) in se_ret tt else se_ret tt) in
  let* rolled := (if tb.(selection).(is_rolling_channel) v then resolve_rolling tb r v o else se_ret None) in
  match rolled with
  | Some tv => se_ret tv
  | None =>
      if bool_decide (tb.(plugin_installed) = Some false) then build r v
      else if bool_decide (v = u!"latest") then resolve_latest tb r v o
      else resolve_concrete tb r v o
  end.

(** *** Prefixes, references, paths and subtractions *)

Definition resolve_prefix (r : ToolRequest BA) (prefix : str) (o : ResolveOptions) : R (ToolVersion BA Aube Uv) :=
  let r := request_with_registry_version prefix r in
  let* tb := lift_backend (get_backend r.(backend)) in
  let o := without_covered_refresh tb o in
  match (if negb o.(latest_versions) && negb (should_filter_installed_versions r o) then last (list_installed_versions_matching tb prefix) else None) with
  | Some installed => se_ret (from_installed r installed)
  | None =>
      if o.(offline) then build r prefix
      else
        let* indexed := select_from_index tb prefix PickLast (effective_options r) o.(before_date) o.(refresh_remote_versions) in
        match indexed with
        | Some indexed => build r indexed
        | None =>
            let* matches := list_matching tb prefix (effective_options r) o.(before_date) o.(refresh_remote_versions) in
            match last matches with
            | Some matched => build r matched
            | None => no_versions_found tb prefix o.(before_date) (minimum_release_age (effective_options r)) true
            end
        end
  end.

Definition resolve_ref (ref_ ref_type : str) (r : ToolRequest BA) : ToolVersion BA Aube Uv :=
  let r := to_ref ref_ ref_type r in tool_version_new r (version HOME r).

Definition resolve_to_path (path : str) (r : ToolRequest BA) : R (ToolVersion BA Aube Uv) :=
  match canonicalize path with
  | Some path => let r := to_path path r in build r (version HOME r)
  | None => se_fail (NoSuchPath path)
  end.

(** [resolve_sub_base]: the version that the subtraction gives. *)
Definition resolve_sub_base (tb : ToolBackend BA) (sub base : str) (date : option Z) (refresh : bool) : R str :=
  let* base := (if bool_decide (base = u!"latest") then se_ret base else resolve_alias tb base) in
  let* v :=
    (if bool_decide (base = u!"latest") then
       let* o := lift_backend tb.(tb_tool_opts) in
       let* latest := select_latest tb o date refresh in
       match latest with Some v => se_ret v | None => no_versions_found tb u!"latest" date None false end
     else se_ret base) in
  lift_request (version_sub v sub).

(** The version that a link of an earlier install of the request names. *)
Definition installed_subtraction (tb : ToolBackend BA) (r : ToolRequest BA) : option str :=
  let pathname := replace_separators (version HOME r) in
  let path := find_in_shared_installs exists_ shared_install_dirs (path_join (installs_path tb.(tb_ba)) pathname) (tool_dir_name tb.(tb_ba)) pathname in
  target ← resolve_symlink path;
  if opt_is_some (path_strip_prefix u!"./" target)
  then match last (components target).2 with Some name => if bool_decide (name ∈ [u!"."; u!".."]) then None else Some name | None => None end
  else None.

Definition resolve_sub (resolve_version : ToolRequest BA -> str -> ResolveOptions -> R (ToolVersion BA Aube Uv)) (r : ToolRequest BA) (sub v : str) (o : ResolveOptions) :
    R (ToolVersion BA Aube Uv) :=
  let r := request_with_registry_version v r in
  let* tb := lift_backend (get_backend r.(backend)) in
  let o := without_covered_refresh tb o in
  if bool_decide (v = u!"latest") && o.(offline) then
    match installed_subtraction tb r with
    | Some version => resolve_version r version o
    | None => build r (version HOME r)
    end
  else
    let* v := resolve_sub_base tb sub v o.(before_date) o.(refresh_remote_versions) in
    resolve_version r v o.

(** [ToolVersion::resolve_version], with what a subtraction calls. *)
Definition resolve_version_step (resolve_version : ToolRequest BA -> str -> ResolveOptions -> R (ToolVersion BA Aube Uv))
    (r : ToolRequest BA) (requested : str) (o : ResolveOptions) : R (ToolVersion BA Aube Uv) :=
  let* tb := lift_backend (get_backend r.(backend)) in
  let* v := resolve_alias tb requested in
  let r := request_with_registry_version v r in
  let* tb := lift_backend (get_backend r.(backend)) in
  let o := without_covered_refresh tb o in
  let '(lock_query, lock_prefix_boundary) := match strip_prefix u!"prefix:" v with Some p => (p, true) | None => (v, false) end in
  let* locked := (if o.(use_locked_version) && negb (has_linked_version r.(backend) lock_query)
                  then lift_backend (lockfile_resolve_with_prefix r lock_query lock_prefix_boundary
                         (negb (bool_decide (v = requested)) && (o.(keep_moved_alias_pins) || resolution_locked r o)))
                  else se_ret None) in
  match locked with
  | Some lt => se_ret (from_lockfile r lt)
  | None =>
      let* _ := ensure_unlocked_resolution_allowed r lock_query o in
      match split_once c!":" v with
      | Some (scheme, p) =>
          if is_ref_type scheme then se_ret (resolve_ref p scheme r)
          else if bool_decide (scheme = u!"path") then resolve_to_path p r
          else if bool_decide (scheme = u!"prefix") then resolve_prefix r p o
          else match strip_prefix u!"sub-" scheme with
               | Some sub => resolve_sub resolve_version r sub p o
               | None => resolve_selector tb r v o
               end
      | None => resolve_selector tb r v o
      end
  end.

Fixpoint resolve_version (fuel : nat) : ToolRequest BA -> str -> ResolveOptions -> R (ToolVersion BA Aube Uv) :=
  match fuel with
  | O => fun _ _ _ => se_fuel
  | S fuel => resolve_version_step (resolve_version fuel)
  end.

(** *** A request *)

(** [resolve_] *)
Definition resolve_request (fuel : nat) (r : ToolRequest BA) (o : ResolveOptions) : R (ToolVersion BA Aube Uv) :=
  let* o := lift_cutoff (apply_before_date_for_tool r.(backend) (minimum_release_age (effective_options r)) o) in
  let named := version HOME r in
  let* linked_query := (match get_backend r.(backend) with
                        | Ok tb => or_default named (resolve_alias tb named)
                        | Err _ => se_ret named
                        | OutOfFuel => se_fuel
                        end) in
  let* locked := (if o.(use_locked_version) && negb (has_linked_version r.(backend) linked_query)
                  then let '(query, boundary) := lockfile_version_query HOME r in lift_backend (lockfile_resolve_with_prefix r query boundary false)
                  else se_ret None) in
  match locked with
  | Some lt => se_ret (with_before_date o.(before_date) (from_lockfile r lt))
  | None =>
      let* tb := lift_backend (get_backend r.(backend)) in
      if bool_decide (tb.(plugin_installed) = Some false) then se_ret (with_before_date o.(before_date) (tool_version_new r named))
      else if defers_missing_lazy r o && bool_decide (tb.(list_installed_versions) = []) then
        se_ret (with_before_date o.(before_date) (into_deferred (tool_version_new r named)))
      else
        let* _ := (match r.(kind) with Prefix _ | Ref _ _ => ensure_unlocked_resolution_allowed r linked_query o | _ => se_ret tt end) in
        let* tv :=
          match r.(kind) with
          | Version v => resolve_version fuel r v o
          | Prefix prefix => resolve_prefix r prefix o
          | Sub sub orig_version => resolve_sub (resolve_version fuel) r sub orig_version o
          | _ => build r named
          end in
        se_ret (with_before_date o.(before_date) tv)
  end.

(** [ToolVersion::resolve]: what names a directory is validated. *)
Definition resolve (fuel : nat) (r : ToolRequest BA) (o : ResolveOptions) : R (ToolVersion BA Aube Uv) :=
  let* tv := resolve_request fuel r o in
  let* _ := (if uses_resolved_version_as_pathname tv.(tv_request) then lift_request (validate_resolved_version tv.(tv_version)) else se_ret tt) in
  se_ret tv.

(** The options of [latest_version_with_opts]. *)
Definition latest_version_options (base : ResolveOptions) : ResolveOptions :=
  mkResolveOptions true false false false false false base.(before_date) base.(before_date_from_default)
    base.(filter_installed_versions_by_release_date) base.(offline) base.(refresh_remote_versions) base.(inactive) base.(outdated_release_urls)
    base.(warn_not_in_lockfile) false false base.(keep_moved_alias_pins).

Definition latest_version_with_opts (fuel : nat) (tv : ToolVersion BA Aube Uv) (base : ResolveOptions) : R str :=
  let* latest := resolve fuel tv.(tv_request) (latest_version_options base) in se_ret latest.(tv_version).

Definition request_pinned_this_version (tv : ToolVersion BA Aube Uv) : bool :=
  match tv.(tv_request).(kind) with
  | Version v =>
      bool_decide (v = tv.(tv_version)) && negb (bool_decide (v = u!"latest"))
      && negb (match get_backend tv.(tv_request).(backend) with Ok tb => tb.(selection).(is_rolling_channel) v | _ => false end)
  | _ => false
  end.

Definition runtime_pathname (tv : ToolVersion BA Aube Uv) : option str :=
  replace_separators <$>
    match tv.(tv_request).(kind) with
    | Version v => if bool_decide (v = tv.(tv_version)) then None else Some v
    | Prefix prefix => Some prefix
    | Sub _ _ => let named := version HOME tv.(tv_request) in if bool_decide (named = tv.(tv_version)) then None else Some named
    | _ => None
    end.

End Resolve.
