(* ===== verification/ResolveSpec.v ===== *)
(** * What resolution promises

    Offline it asks for nothing but aliases that only a backend knows; under a locking policy it selects nothing that is not in
    the lockfile or linked by the user; and it does not go around in circles, unless aliases do. *)

From S2P Require Import Prelude RustStr PathEnv Paths Toml Decimals ToolOptions ToolRequest LockInfo Lockfile VersionMatch VersionIndex ReleaseAge VersionSelect.
From S2P Require Import VersionSelectSpec Resolve.

(** ** Computations that ask for little *)

Section Asking.

Context (P : RemoteCall -> Prop).

(** The session is as before, and what was asked is of a kind. *)
Definition asks_only (st st' : State) : Prop :=
  st'.(session) = st.(session) /\ exists calls, st'.(remote_calls) = calls ++ st.(remote_calls) /\ Forall P calls.

#[export] Instance asks_only_order : PreOrder asks_only.
Proof.
  split.
  - intros st. split; [done|]. by exists [].
  - intros st st1 st2 (H1 & c1 & E1 & F1) (H2 & c2 & E2 & F2). split; [congruence|]. exists (c2 ++ c1).
    split; [by rewrite E2, E1, app_assoc|by apply Forall_app_2].
Qed.

Definition quiet {A} (m : SE State ResolveError A) : Prop := forall st, asks_only st (m st).2.

Lemma quiet_same {A} (m : SE State ResolveError A) : (forall st, (m st).2 = st) -> quiet m.
Proof. intros H st. by rewrite H. Qed.

Lemma quiet_ret {A} (a : A) : quiet (se_ret a).
Proof. by apply quiet_same. Qed.

Lemma quiet_fail {A} e : quiet (A := A) (se_fail e).
Proof. by apply quiet_same. Qed.

Lemma quiet_fuel {A} : quiet (A := A) se_fuel.
Proof. by apply quiet_same. Qed.

(** What is bound is known. *)
Lemma quiet_bind_ok {A B} (m : SE State ResolveError A) (k : A -> SE State ResolveError B) :
  quiet m -> (forall a st, (m st).1 = Ok a -> quiet (k a)) -> quiet (se_bind m k).
Proof.
  intros Hm Hk st. unfold se_bind. pose proof (Hm st) as Hst. specialize (fun a => Hk a st) as Hk'.
  destruct (m st) as [[a|e|] st1]; cbn in *; [|done..]. etrans; [exact Hst|]. by apply Hk'.
Qed.

Lemma quiet_bind {A B} (m : SE State ResolveError A) (k : A -> SE State ResolveError B) :
  quiet m -> (forall a, quiet (k a)) -> quiet (se_bind m k).
Proof. intros Hm Hk. apply quiet_bind_ok; auto. Qed.

Lemma quiet_backend {A} (r : result str A) : quiet (lift_backend r).
Proof. apply quiet_same. by destruct r. Qed.

Lemma quiet_request {A} (r : result RequestError A) : quiet (lift_request r).
Proof. apply quiet_same. by destruct r. Qed.

Lemma quiet_cutoff {A} (r : result AgeError A) : quiet (lift_cutoff r).
Proof. apply quiet_same. by destruct r. Qed.

Lemma quiet_or_default {A} (d : A) m : quiet m -> quiet (or_default d m).
Proof. intros Hm st. unfold or_default. specialize (Hm st). destruct (m st) as [[a|e|] st1]; done. Qed.

Lemma quiet_remote c : P c -> quiet (remote c).
Proof. intros Hc st. split; [done|]. exists [c]. split; [done|by constructor]. Qed.

End Asking.

Create HintDb quiet discriminated.
#[export] Hint Resolve quiet_ret quiet_fail quiet_fuel quiet_backend quiet_request quiet_cutoff quiet_or_default : quiet.

(** Goes through a computation, splitting what it tests. *)
Ltac quiet_step :=
  match goal with
  | |- quiet _ (se_bind _ _) => apply quiet_bind; [|intros ?]
  | |- quiet _ (match ?x with _ => _ end) => destruct x
  | |- _ => progress (auto with quiet)
  end.
Ltac solve_quiet := repeat quiet_step.

Section Spec.

Context {BA Aube Uv Span Semver NodeVersion : Type} `{W : World BA Aube Uv Span Semver NodeVersion}.

(** ** Offline *)

Lemma lift_backend_ok {A} (r : result str A) (st : State) a : (lift_backend r st).1 = Ok a -> r = Ok a.
Proof. unfold lift_backend. destruct r; by intros [=->]. Qed.

(** What an alias that only a backend knows is asked for with. *)
Inductive alias_call : RemoteCall -> Prop :=
| alias_call_of ba (tb : ToolBackend BA) v : get_backend ba = Ok tb -> tb.(asks_for_dynamic_alias) v = true -> alias_call (DynamicAlias v).

#[local] Abbreviation quiet := (quiet alias_call).

Lemma quiet_build r v : quiet (build r v).
Proof. apply quiet_ret. Qed.
Hint Resolve quiet_build : quiet.

Lemma quiet_alias ba tb v : get_backend ba = Ok tb -> quiet (resolve_alias tb v).
Proof.
  intros Htb. unfold resolve_alias. destruct (_ ≫= _); [auto with quiet|]. apply quiet_bind; [auto with quiet|intros aliases].
  destruct (aliases !! v); [auto with quiet|]. apply quiet_bind; [|intros _; solve_quiet].
  destruct (asks_for_dynamic_alias tb v) eqn:E; [|auto with quiet]. apply quiet_remote. by eapply alias_call_of.
Qed.

(** The backend that is asked is the one of the request. *)
Lemma quiet_with_backend {A} ba (k : ToolBackend BA -> SE State ResolveError A) :
  (forall tb, get_backend ba = Ok tb -> quiet (k tb)) -> quiet (se_bind (lift_backend (get_backend ba)) k).
Proof. intros Hk. apply quiet_bind_ok; [auto with quiet|]. intros tb st Htb%lift_backend_ok. by apply Hk. Qed.

Lemma quiet_allowed r q o : quiet (ensure_unlocked_resolution_allowed r q o).
Proof. unfold ensure_unlocked_resolution_allowed. solve_quiet. Qed.
Hint Resolve quiet_allowed : quiet.

Lemma offline_is_offline o : o.(offline) = true -> is_offline o = true.
Proof. unfold is_offline. intros ->. by destruct (set_offline host). Qed.

Section Offline.

Context (o : ResolveOptions) (Hoff : o.(offline) = true).

Lemma quiet_channel tb r v : quiet (channel_before_cutoff tb r v o).
Proof using Hoff. unfold channel_before_cutoff. destruct (before_date o); [|auto with quiet]. rewrite Hoff, andb_false_r. auto with quiet. Qed.
Hint Resolve quiet_channel : quiet.

Lemma quiet_selector tb r v : quiet (resolve_selector tb r v o).
Proof using Hoff.
  pose proof (offline_is_offline o Hoff) as Hio.
  unfold resolve_selector, resolve_rolling, resolve_latest, resolve_concrete, resolve_package_range, resolve_remotely.
  rewrite Hoff, Hio. cbn [negb andb]. rewrite !andb_false_r. cbn [negb andb]. solve_quiet.
Qed.

End Offline.

Lemma refresh_keeps_offline (tb : ToolBackend BA) o : (without_covered_refresh tb o).(offline) = o.(offline).
Proof. unfold without_covered_refresh. destruct (before_date o); [|done]. by destruct (_ && _). Qed.

Lemma quiet_prefix r prefix o : o.(offline) = true -> quiet (resolve_prefix r prefix o).
Proof. intros Hoff. unfold resolve_prefix. apply quiet_bind; [auto with quiet|intros tb]. rewrite refresh_keeps_offline, Hoff. solve_quiet. Qed.

(** No other name stands for the latest version. *)
Definition latest_by_name_only : Prop :=
  forall ba (tb : ToolBackend BA) v st, get_backend ba = Ok tb -> (resolve_alias tb v st).1 = Ok u!"latest" -> v = u!"latest".

Lemma quiet_sub_base ba tb sub base date refresh :
  latest_by_name_only -> get_backend ba = Ok tb -> base <> u!"latest" -> quiet (resolve_sub_base tb sub base date refresh).
Proof.
  intros Hname Htb Hbase. unfold resolve_sub_base. rewrite bool_decide_eq_false_2 by done. apply quiet_bind_ok; [by eapply quiet_alias|].
  intros a st Ha. case_bool_decide as E; [subst a; by apply (Hname ba) in Ha|solve_quiet].
Qed.

Lemma quiet_sub rec r sub v o :
  latest_by_name_only -> o.(offline) = true -> (forall r v o, o.(offline) = true -> quiet (rec r v o)) -> quiet (resolve_sub rec r sub v o).
Proof.
  intros Hname Hoff Hrec. unfold resolve_sub. apply quiet_with_backend. intros tb Htb. rewrite refresh_keeps_offline, Hoff, andb_true_r.
  case_bool_decide as E.
  - destruct (installed_subtraction _ _); [|auto with quiet]. apply Hrec. by rewrite refresh_keeps_offline.
  - apply quiet_bind; [by eapply quiet_sub_base|intros]. apply Hrec. by rewrite refresh_keeps_offline.
Qed.

Lemma quiet_version fuel r v o : latest_by_name_only -> o.(offline) = true -> quiet (resolve_version fuel r v o).
Proof.
  intros Hname. revert r v o. induction fuel as [|fuel IH]; intros r v o Hoff; [apply quiet_fuel|]. cbn [resolve_version].
  apply quiet_with_backend. intros tb0 Htb0. apply quiet_bind; [by eapply quiet_alias|intros a]. apply quiet_bind; [auto with quiet|intros tb].
  assert (offline (without_covered_refresh tb o) = true) as Hoff' by (by rewrite refresh_keeps_offline).
  destruct (match strip_prefix _ a with Some _ => _ | None => _ end) as [query boundary]. apply quiet_bind; [solve_quiet|]. intros [lt|]; [auto with quiet|].
  apply quiet_bind; [auto with quiet|intros _]. pose proof (quiet_selector _ Hoff' tb (request_with_registry_version a r) a).
  destruct (split_once _ a) as [[scheme p]|]; [|done]. destruct (is_ref_type scheme); [auto with quiet|].
  case_bool_decide; [unfold resolve_to_path; destruct (canonicalize p); auto with quiet|]. case_bool_decide; [by apply quiet_prefix|].
  destruct (strip_prefix _ scheme); [|done]. apply quiet_sub; auto.
Qed.

Lemma cutoff_keeps_offline ba age o o' : apply_before_date_for_tool ba age o = Ok o' -> o'.(offline) = o.(offline).
Proof.
  unfold apply_before_date_for_tool. intros (found & _ & [= <-])%rbind_inv. destruct found as [[ts []]|]; done.
Qed.

Lemma quiet_resolve fuel r o : latest_by_name_only -> o.(offline) = true -> quiet (resolve fuel r o).
Proof.
  intros Hname Hoffline. unfold resolve, resolve_request. apply quiet_bind; [|intros tv; solve_quiet].
  apply quiet_bind_ok; [auto with quiet|]. intros o' st' Ho'. unfold lift_cutoff in Ho'.
  destruct (apply_before_date_for_tool _ _ o) as [o1|e|] eqn:E; [|done..]. injection Ho' as ->. apply cutoff_keeps_offline in E. rewrite Hoffline in E.
  apply quiet_bind; [destruct (get_backend (backend r)) eqn:Eb; [|auto with quiet..]; by eapply quiet_or_default, quiet_alias|intros q].
  apply quiet_bind; [solve_quiet|]. intros [lt|]; [auto with quiet|].
  apply quiet_bind; [auto with quiet|intros tb]. case_bool_decide; [auto with quiet|]. destruct (_ && _); [auto with quiet|].
  apply quiet_bind; [solve_quiet|intros _]. apply quiet_bind; [|auto with quiet].
  destruct (kind r); [by apply quiet_version|by apply quiet_prefix|auto with quiet| |auto with quiet..].
  apply quiet_sub; [done..|]. intros. by apply quiet_version.
Qed.


(** ** Locked *)

(** Whether a locking policy governs the request: of the invocation or of the configuration that owns its lockfile. *)
Definition governed (r : ToolRequest BA) : Prop :=
  invocation_locked_for r.(source) || tool_config_locked_for (locked_policy_source r true) = true /\ is_Some (lockfile_source r ≫= source_path).

Lemma governed_registry r v : governed r -> governed (request_with_registry_version v r).
Proof. unfold governed, request_with_registry_version. by destruct (with_registry_version _ v). Qed.

Lemma version_registry r v : version HOME (request_with_registry_version v r) = version HOME r.
Proof. unfold request_with_registry_version. by destruct (with_registry_version _ v). Qed.

Lemma refresh_keeps_locked (tb : ToolBackend BA) o : (without_covered_refresh tb o).(use_locked_version) = o.(use_locked_version).
Proof. unfold without_covered_refresh. destruct (before_date o); [|done]. by destruct (_ && _). Qed.

Lemma governed_linked r q o st a st' :
  lockfile_enabled = true -> governed r -> o.(use_locked_version) = true -> ensure_unlocked_resolution_allowed r q o st = (Ok a, st') ->
  has_linked_version r.(backend) q = true.
Proof.
  intros Henabled [Hpolicy [path Hpath]] Hlocked. unfold ensure_unlocked_resolution_allowed, locked_by. rewrite Hlocked, Hpolicy, Henabled, Hpath.
  by destruct (has_linked_version _ q).
Qed.

Definition alias_to (ba : BA) (v a : str) : Prop := exists (tb : ToolBackend BA) st, get_backend ba = Ok tb /\ (resolve_alias tb v st).1 = Ok a.

(** A text that a request with the text [v] comes to selects a version that the user has linked into the installs. *)
Definition linked_through (r : ToolRequest BA) (v : str) : Prop :=
  exists a, alias_to r.(backend) v a /\ has_linked_version (request_with_registry_version a r).(backend) (without_prefix_scheme a) = true.

(** The same for a request: a version; the version that a subtraction gives or gave before; or what is written for a prefix or a
    reference. *)
Definition linked (r : ToolRequest BA) : Prop :=
  match r.(kind) with
  | Version v => linked_through r v
  | Sub sub base =>
      let r' := request_with_registry_version base r in
      exists w, (exists tb : ToolBackend BA, get_backend r'.(backend) = Ok tb
                   /\ (installed_subtraction tb r' = Some w \/ exists v, version_sub v sub = Ok w)) /\ linked_through r' w
  | Prefix _ | Ref _ _ =>
      exists q, (q = version HOME r \/ alias_to r.(backend) (version HOME r) q) /\ has_linked_version r.(backend) q = true
  | _ => False
  end.

Lemma locked_version fuel r v o st tv st' :
  lockfile_enabled = true -> governed r -> o.(use_locked_version) = true -> resolve_version fuel r v o st = (Ok tv, st') ->
  tv.(tv_resolved_from_lockfile) = true \/ linked_through r v.
Proof.
  intros Henabled Hgov Hlocked. destruct fuel as [|fuel]; [done|]. cbn [resolve_version].
  intros (tb0 & s1 & Htb & Hrun)%se_bind_inv. apply se_bind_inv in Hrun as (a & s2 & Ha & Hrun). apply se_bind_inv in Hrun as (tb & s3 & _ & Hrun).
  assert (alias_to r.(backend) v a) as Halias.
  { exists tb0, s1. rewrite Ha. split; [|done]. apply (lift_backend_ok _ st). by rewrite Htb. }
  destruct (match strip_prefix _ a with Some _ => _ | None => _ end) as [query boundary] eqn:Eq.
  apply se_bind_inv in Hrun as ([lt|] & s4 & _ & Hrun); [injection Hrun as <- <-; by left|].
  apply se_bind_inv in Hrun as (u & s5 & Hallowed & _). right. exists a. split; [done|].
  apply governed_linked in Hallowed; [|done|by apply governed_registry|by rewrite refresh_keeps_locked].
  unfold without_prefix_scheme. by destruct (strip_prefix _ a); injection Eq as <- _.
Qed.

Lemma locked_sub fuel r sub v o st tv st' :
  lockfile_enabled = true -> governed r -> o.(use_locked_version) = true -> r.(kind) = Sub sub v ->
  resolve_sub (resolve_version fuel) r sub v o st = (Ok tv, st') ->
  tv.(tv_resolved_from_lockfile) = true \/ tv.(tv_version) = version HOME r \/ linked r.
Proof.
  intros Henabled Hgov Hlocked Hkind. unfold resolve_sub, linked. rewrite Hkind. intros (tb & s1 & Htb & Hrun)%se_bind_inv.
  assert (get_backend (request_with_registry_version v r).(backend) = Ok tb) as Hget by (apply (lift_backend_ok _ st); by rewrite Htb).
  pose proof (fun w s => locked_version fuel (request_with_registry_version v r) w (without_covered_refresh tb o) s tv st' Henabled (governed_registry r v Hgov)) as Hv.
  rewrite refresh_keeps_locked in Hv. specialize (fun w s => Hv w s Hlocked). destruct (bool_decide _ && _).
  - destruct (installed_subtraction _ _) as [w|] eqn:Ew; [|injection Hrun as <- <-; right; left; cbn; by rewrite version_registry].
    apply Hv in Hrun as [Hrun|Hl]; [by left|]. right; right. exists w. split; [|done]. exists tb. split; [done|by left].
  - apply se_bind_inv in Hrun as (w & s2 & Hw & Hrun). apply Hv in Hrun as [Hrun|Hl]; [by left|]. right; right. exists w. split; [|done].
    exists tb. split; [done|right]. unfold resolve_sub_base in Hw. apply se_bind_inv in Hw as (b & s3 & _ & Hw). apply se_bind_inv in Hw as (x & s4 & _ & Hw).
    exists x. unfold lift_request in Hw. destruct (version_sub x sub); [|done..]. by injection Hw as -> _.
Qed.

Lemma written_or_alias (r : ToolRequest BA) st q st' :
  (match get_backend r.(backend) with
   | Ok tb => or_default (version HOME r) (resolve_alias tb (version HOME r))
   | Err _ => se_ret (version HOME r)
   | OutOfFuel => se_fuel
   end) st = (Ok q, st') ->
  q = version HOME r \/ alias_to r.(backend) (version HOME r) q.
Proof.
  destruct (get_backend (backend r)) as [tb|e|] eqn:Eb; [|by intros [= <- _]; left|done].
  unfold or_default. destruct (resolve_alias tb _ st) as [[a|e|] s] eqn:Ea; [|by intros [= <- _]; left|done].
  intros [= <- _]. right. exists tb, st. by rewrite Ea.
Qed.


(** ** How deep it goes *)

(** A text that stands for a subtraction. *)
Definition sub_text (v : str) : Prop := exists sub p, split_once c!":" v = Some (u!"sub-" ++ sub, p).

Lemma no_colon_no_sub v : c!":" ∉ v -> ~ sub_text v.
Proof. intros Hv (sub & p & E). apply split_once_Some in E as [-> _]. set_solver. Qed.

Lemma format_no_colon ns : c!":" ∉ format_components ns.
Proof.
  intros Hin. assert (Forall (fun c => c <> c!":") (format_components ns)) as Hf.
  { unfold format_components. apply join_Forall; [by repeat constructor|]. apply Forall_map, Forall_forall. intros n _. apply Forall_forall. intros c Hc ->.
    by apply to_string_no_char in Hc. }
  rewrite Forall_forall in Hf. by apply Hf in Hin.
Qed.

Lemma version_sub_no_colon orig sub v : version_sub orig sub = Ok v -> c!":" ∉ v.
Proof.
  unfold version_sub. destruct (numeric_components orig); [|done]. destruct (numeric_components sub); [|done]. intros [= <-]. apply format_no_colon.
Qed.

Lemma bind_ext_ok {A B} (m : SE State ResolveError A) (k k' : A -> SE State ResolveError B) st :
  (forall a st1, m st = (Ok a, st1) -> k a st1 = k' a st1) -> se_bind m k st = se_bind m k' st.
Proof. intros Hk. unfold se_bind. destruct (m st) as [[a|e|] st1]; [by apply Hk|done..]. Qed.

Section Depth.

Context (Halias : forall ba (tb : ToolBackend BA) v st a, get_backend ba = Ok tb -> (resolve_alias tb v st).1 = Ok a -> sub_text a -> a = v).
Context (Hlinks : forall ba (tb : ToolBackend BA) (r : ToolRequest BA) w, get_backend ba = Ok tb -> installed_subtraction tb r = Some w -> c!":" ∉ w).

(** A step for a text that is not a subtraction calls nothing further. *)
Lemma step_flat rec rec' r v o st : ~ sub_text v -> resolve_version_step rec r v o st = resolve_version_step rec' r v o st.
Proof using Halias.
  intros Hv. unfold resolve_version_step. apply bind_ext_ok. intros tb0 st0 Htb. apply bind_ext_ok. intros a st1 Ha. apply bind_ext_ok. intros tb st2 _.
  destruct (match strip_prefix _ a with Some _ => _ | None => _ end) as [query boundary].
  apply bind_ext_ok. intros [lt|] st3 _; [done|]. apply bind_ext_ok. intros u st4 _.
  destruct (split_once _ a) as [[scheme p]|] eqn:Es; [|done]. destruct (is_ref_type scheme); [done|]. case_bool_decide; [done|]. case_bool_decide; [done|].
  destruct (strip_prefix _ scheme) as [sub|] eqn:Esub; [|done]. exfalso. apply strip_prefix_Some in Esub as ->.
  apply Hv. rewrite <- (Halias r.(backend) tb0 v st0 a); [by exists sub, p| |by rewrite Ha|by exists sub, p]. apply (lift_backend_ok _ st). by rewrite Htb.
Qed.

Lemma sub_flat rec rec' r sub v o st :
  resolve_sub (resolve_version_step rec) r sub v o st = resolve_sub (resolve_version_step rec') r sub v o st.
Proof using Halias Hlinks.
  unfold resolve_sub. apply bind_ext_ok. intros tb st1 Htb. assert (get_backend (request_with_registry_version v r).(backend) = Ok tb) as Hget.
  { apply (lift_backend_ok _ st). by rewrite Htb. }
  destruct (bool_decide _ && _).
  - destruct (installed_subtraction _ _) as [w|] eqn:Ew; [|done]. apply step_flat, no_colon_no_sub. by eapply Hlinks.
  - apply bind_ext_ok. intros w st2 Hw. apply step_flat, no_colon_no_sub.
    unfold resolve_sub_base in Hw. apply se_bind_inv in Hw as (b & s1 & _ & Hw). apply se_bind_inv in Hw as (x & s2 & _ & Hw).
    unfold lift_request in Hw. destruct (version_sub x sub) as [w'|e|] eqn:E; [|done..]. injection Hw as <- _. by eapply version_sub_no_colon.
Qed.

(** C23. As long as no alias stands for a subtraction and no link of an earlier install names a text with a colon, a resolution
    calls itself at most twice, one inside the other: what a third call would do makes no difference. For an alias that does,
    see [alias_subtraction_loops]. *)
Theorem resolution_depth (rec rec' : ToolRequest BA -> str -> ResolveOptions -> SE State ResolveError (ToolVersion BA Aube Uv))
    (r : ToolRequest BA) (v : str) (o : ResolveOptions) (st : State) :
  resolve_version_step (resolve_version_step rec) r v o st = resolve_version_step (resolve_version_step rec') r v o st.
Proof.
  unfold resolve_version_step at 1 3. apply bind_ext_ok. intros tb0 st0 _. apply bind_ext_ok. intros a st1 _. apply bind_ext_ok. intros tb st2 _.
  destruct (match strip_prefix _ a with Some _ => _ | None => _ end) as [query boundary].
  apply bind_ext_ok. intros [lt|] st3 _; [done|]. apply bind_ext_ok. intros u st4 _.
  destruct (split_once _ a) as [[scheme p]|]; [|done]. destruct (is_ref_type scheme); [done|]. case_bool_decide; [done|]. case_bool_decide; [done|].
  destruct (strip_prefix _ scheme) as [sub|]; [|done]. apply sub_flat.
Qed.

End Depth.

End Spec.

(** ** Examples *)

#[local] Instance NameBA : BackendArg str := {
  short ba := ba; full_without_opts ba := ba; registry_opts _ := ToolOptions_default;
  install_manifest_opts _ := None; resolved_full_opts _ := None; backend_alias_opts _ := None; explicit_opts _ := None;
  with_registry_version _ _ := None; registry_bins _ := None; is_spm _ := false; ba_os_supported _ := true;
  installs_path ba := u!"/data/installs/" ++ ba; tool_dir_name ba := ba
}.

#[local] Instance NoSpans : Calendar unit := {
  parse_span _ := None; parse_timestamp s := Z.of_N <$> parse_u64 s; parse_zoned _ := None; parse_date _ := None;
  to_duration _ := None; checked_add _ _ := None; checked_sub _ _ := None; from_nanosecond z := Some z
}.

(** A backend that lists three versions, none of which is installed. *)
Definition listing_backend : Backend :=
  mkBackend u!"core:node" (fun _ => false) (fun _ => false) (fun _ => false) (fun _ => Ok OrderSource)
    (default_fuzzy_match_filter (fun _ => false) (fun _ => false)) true [] None false (fun _ => false) false
    (fun _ _ _ _ => Ok (map (fun v => mkVersionInfo v (Some u!"10") None false None None) [u!"18.0.0"; u!"18.1.0"; u!"20.0.0"]))
    (fun _ _ => inr None) (fun _ => Ok None) (Ok None) (Ok None).

(** It looks up [lts] at a server, or not. *)
Definition sample_tb (asks : bool) (ba : str) : ToolBackend str :=
  mkToolBackend ba ba listing_backend (Ok Resolved_default) (Ok ToolOptions_default) ToolOptions_default None [] [] (Ok None) (Ok ∅) (fun v => asks && bool_decide (v = u!"lts"))
    (fun v => Ok (if asks && bool_decide (v = u!"lts") then Some u!"18" else None))
    (fun _ => false) (fun _ => Ok None) (fun _ => None) (fun _ => Ok None) (fun _ _ _ => Ok None) (fun _ => false) None (fun _ => false).

(** With aliases, a lockfile and a locking policy. *)
Definition asking_world (asks : bool) (aliases : gmap str (gmap str str)) (lock : str -> option str) (locked : bool) : World str unit unit unit unit unit := {|
  world_arg := NameBA; world_calendar := NoSpans;
  backend_arg_new short _ := short; Resolve.backend_type ba := ba; get_backend ba := Ok (sample_tb asks ba);
  legacy_graph_matches _ _ := false; layout_applies_to _ := false; found_dir ba v := v;
  read_links _ := None; exists_ _ := false; resolve_symlink _ := None; canonicalize p := Some p; get_tool_full _ := None;
  mise_dirs := []; shared_install_dirs := []; HOME := u!"/home/u";
  process_now := 1000; wall_now := 1000; age_settings := mkAgeSettings (Some u!"100") [] false false false; host := mkHostSettings false false false;
  Resolve.VERSION_REGEX _ := false; parse_semver _ := None; cmp_precedence _ _ := Eq; parse_version _ := None; parse_range _ := None;
  from_millisecond _ := None; fresh_duration := 0; writable := false; server _ := Unreachable;
  format_day _ := []; format_minute _ := []; format_cutoff _ := [];
  all_aliases := aliases;
  lockfile_resolve_with_prefix r query _ _ :=
    Ok ((fun v => mkLockfileTool v None ∅ [] ∅ None None None) <$> lock query);
  invocation_locked_for _ := locked; tool_config_locked_for _ := false; lockfile_enabled := true;
  is_unreachable _ := false; is_package_json _ := false |}.

Definition sample_world := asking_world false.

Definition sample_state : State := mkState (mkSession [] [] [] (mkProcess None false ∅ 0 (mkDisk None None))) [].
Definition node_request (k : RequestKind) : ToolRequest str := mkRequest u!"node" k Resolved_default (MiseToml u!"/work/mise.toml") Scope_Default.

Definition plain_world := sample_world {[u!"node" := {[u!"lts" := u!"18"]}]} (fun _ => None) false.

(** A prefix that an alias stands for selects the last of the versions that are listed for it. *)
Example alias_resolved :
  (@resolve _ _ _ _ _ _ plain_world 2 (node_request (Version u!"lts")) ResolveOptions_default sample_state).1
  = Ok (with_before_date (Some 100%Z) (@tool_version_new _ _ _ _ _ _ plain_world (node_request (Version u!"lts")) u!"18.1.0")).
Proof. vm_compute. reflexivity. Qed.

(** The computations of a world whose type arguments are these. *)
Abbreviation resolve_in world := (@resolve str unit unit unit unit unit world).
Abbreviation step_in world := (@resolve_version_step str unit unit unit unit unit world).

Definition offline_options : ResolveOptions :=
  mkResolveOptions false false false true false false None false false true false false false true false false false.

Lemma plain_alias ba tb v st a :
  @get_backend _ _ _ _ _ _ plain_world ba = Ok tb -> (@resolve_alias _ _ _ _ _ _ plain_world tb v st).1 = Ok a -> a = v \/ a = u!"18".
Proof.
  intros [= <-]. unfold resolve_alias. destruct (_ ≫= _) as [alias|] eqn:E.
  - intros [= <-]. right. apply bind_Some in E as (versions & Hv & Ha).
    change (({[u!"node" := {[u!"lts" := u!"18"]}]} : gmap str (gmap str str)) !! ba = Some versions) in Hv.
    apply lookup_singleton_Some in Hv as [_ <-]. by apply lookup_singleton_Some in Ha as [_ <-].
  - intros [= <-]. by left.
Qed.

Lemma plain_world_offline : @latest_by_name_only _ _ _ _ _ _ plain_world.
Proof. intros ba tb v st Htb Ha. destruct (plain_alias ba tb v st _ Htb Ha) as [->|E]; [done|by vm_compute in E]. Qed.


(** A backend that looks up an alias at a server does so although the resolution may not go online. *)
Example offline_alias_asked_for :
  (resolve_in (asking_world true ∅ (fun _ => None) false) 2 (node_request (Version u!"lts")) offline_options sample_state).2.(remote_calls)
  = [DynamicAlias u!"lts"; DynamicAlias u!"lts"].
Proof. vm_compute. reflexivity. Qed.

(** Where another name stands for the latest version, a subtraction asks for the latest version although it may not go online. *)
Example offline_alias_goes_online :
  (resolve_in (sample_world {[u!"node" := {[u!"lts" := u!"latest"]}]} (fun _ => None) false) 2 (node_request (Sub u!"1" u!"lts"))
     offline_options sample_state).2.(remote_calls) = [LatestVersion].
Proof. vm_compute. reflexivity. Qed.

Definition locked_world (lock : option str) : World str unit unit unit unit unit := sample_world ∅ (fun _ => lock) true.

(** Without an entry in the lockfile the resolution fails. *)
Example locked_without_entry :
  exists message hint, (resolve_in (locked_world None) 2 (node_request (Version u!"18")) ResolveOptions_default sample_state).1
    = Err (NotInLockfile u!"node" message hint).
Proof. eexists _, _. vm_compute. reflexivity. Qed.


Lemma resolution_depth_witness :
  step_in plain_world (step_in plain_world (fun _ _ _ => se_fuel)) (node_request (Version u!"lts")) u!"sub-1:lts" ResolveOptions_default sample_state
  = step_in plain_world (step_in plain_world (fun _ _ _ => se_fail (NoSuchPath []))) (node_request (Version u!"lts")) u!"sub-1:lts" ResolveOptions_default sample_state.
Proof.
  apply (@resolution_depth _ _ _ _ _ _ plain_world).
  - intros ba tb v st a Htb Ha Hsub. destruct (plain_alias ba tb v st _ Htb Ha) as [-> | ->]; [done|]. exfalso. revert Hsub. apply no_colon_no_sub.
    apply (bool_decide_unpack _). vm_compute. exact I.
  - intros ba tb r w [= <-] Hw. exfalso. revert Hw. unfold installed_subtraction. cbn. done.
Defined.

(** An alias that stands for a subtraction which gives the alias again: the resolution never ends. *)
Definition circular_world := sample_world {[u!"node" := {[u!"18" := u!"sub-1:19"]}]} (fun _ => None) false.

Lemma circular_step rec :
  step_in circular_world rec (node_request (Version u!"18")) u!"18" ResolveOptions_default sample_state
  = rec (node_request (Version u!"18")) u!"18" ResolveOptions_default sample_state.
Proof. vm_compute. reflexivity. Qed.

Example alias_subtraction_loops : forall fuel,
  @resolve_version _ _ _ _ _ _ circular_world fuel (node_request (Version u!"18")) u!"18" ResolveOptions_default sample_state = (OutOfFuel, sample_state).
Proof. induction fuel as [|fuel IH]; [done|]. cbn [resolve_version]. by rewrite circular_step. Qed.
